(* ===== verification/_CoqProject ===== *)
-Q . S2P
Prelude.v
GoErrors.v
Api.v
Canon.v
EventLog.v
Executions.v
Approvals.v
Harness.v
Wire.v
Sinks.v
Controller.v
Agents.v
LiveSpec.v
Simulation.v
ReplaySafety.v
Turns.v
Recovery.v
Retraces.v
Progress.v
Session.v
ServeFirst.v
Parking.v
Forks.v
SessionGuard.v
Placement.v
Admission.v
Gates.v
Fanout.v
Registry.v
Routing.v
Checkpoint.v
Relay.v
Tables.v
Projection.v
Reducer.v
SqlLog.v
SqlExample.v
SqlStore.v
SqlSessions.v
GoJson.v
Tokens.v
SqlHarnesses.v
SqlMigrate.v
Reporting.v
SqlSystem.v
Durable.v
Paging.v
Migrations.v
Status.v
Service.v
ServiceOps.v
ServiceFacts.v
ServiceRouting.v
ServiceExample.v
ServicePins.v
ServiceStreams.v
ServiceSessions.v
ServiceHistory.v
ServiceDeleted.v
HarnessSpec.v
HarnessAdmin.v
HarnessNames.v
HarnessExample.v
HarnessListing.v
HarnessRegistration.v
HarnessStartup.v
HarnessHistory.v
HarnessWire.v
WireTransparency.v
RemoteHarness.v
WireClient.v
WireServer.v
Json.v
OpenAi.v
OpenAiSpec.v
Substrate.v
SubstrateSpec.v
Runtimes.v
RuntimesSpec.v
