(* ===== verification/Prelude.v ===== *)
(** * Verification of the agentsessions core: root file

    agentsessions runs an agent ("harness") as a durable session. Everything a turn of the agent does
    (the inputs it got, the model calls and their completions, the tool calls and their results, the
    outputs) is committed to a hash-chained, fenced, append-only journal before it has any further
    effect. The journal alone is the state: a completed turn can be replayed without touching a model
    or a tool, a turn cut short by a crash can be resumed by another process, and a tool call that
    needs a human decision parks the session until the decision is in the journal.

    ** The program's parts and the files that model them

    Package eventlog keeps the journal, package canon the bytes its hashes cover, package controller
    drives a harness against the journal, package placement runs it on provisioned compute, package
    sqlitelog makes the journal durable, package session serves it, package harnesswire runs a harness in
    another process, model/openai is a model provider, the packages under runtime/ provision the compute,
    and package api holds the types they share. The files, package by package:

    - [Prelude]: fallible results, the state-and-error monad [M] with its notations, tactics and the
      list lemmas the components share.
    - [GoErrors] (api/approval.go; package-level errors of controller and eventlog): error trees,
      [errors_Is], the approval park error and [IsParkUnwind].
    - [Api] (api/types.go, state.go, harness.go, session.go, runtime.go): events, messages, tool
      calls, records. Go structs are records with the source's field names.
    - [Canon] (canon/canon.go): the JSON envelope of a record, SHA-256 and hex, computed by the kernel; the hashes pinned by canon/canon_test.go are reproduced.
    - [EventLog] (eventlog/eventlog.go, store.go): every method of [Log] as one atomic transition,
      and the interface [Store] as a class with its laws [StoreLaws], which [Log] satisfies
      ([Log_Store], [Log_StoreLaws]). The controller is written and proved against the class.
    - [Executions] (controller/executions.go, legacy.go): the grouping of a journal into executions,
      the pending execution, the journals of v0.1.2 that carry no execution IDs.
    - [Approvals] (controller/approval.go): the strict scan of a journal for gated tool calls, with
      an independent specification of the state of one call, and [Approve].
    - [Harness] (api/harness.go, controller/tool_identity.go): a harness as a tree of sink calls
      ([Prog]), the interface [EventSink] it runs against, and the comparison of tool calls.
    - [Sinks] (controller/effects.go, approval_effects.go, resume.go, sink_guard.go, legacy.go): the
      three sinks. Live invokes and records, replay serves from the record, resume serves the
      recorded prefix and goes live after it. The guard that closes a sink is part of each call.
    - [Controller] (controller/controller.go, resume.go, harness_identity.go, legacy.go): [New],
      [Exec], [Replay], [Resume], [ResumeInvocation], [Fork] and the queries.
    - [Agents] (harness/echoagent, counteragent, chatagent): the reference harnesses, and small
      concrete sessions that the witnesses evaluate.
    - [Wire] (wire/convert.go, state.go; eventlog/proto.go): the conversions between the api types and
      their protobuf messages, and of log records.

    Files that hold theorems about the controller, and no code:
    [LiveSpec] (what a live effect may commit), [Simulation] (live against replay, and the traces a run
    may leave), [ReplaySafety] (replay for an arbitrary harness), [Turns] (what a turn leaves in a journal
    when it may be cut short anywhere), [Recovery], [Retraces] and [Progress] (resume against replay, and
    its completion), [Session] (whole sessions), [ServeFirst], [Parking], and [Forks] (forks, and a
    completed turn that replay rejects).

    Package placement runs the controller on provisioned compute: it clones runtimes, checkpoints a
    parked session and releases its compute, restores a snapshot, and keeps the operations of one
    session apart. Its files:

    - [SessionGuard] (placement/session_guard.go): the guard's table of holds as the code keeps it
      (flags and counters), each admission and release, and the abstract guard it refines; and
      (internal/ctxlock/mutex.go) the mutex whose Lock gives up when a context ends, as an
      interleaving step relation over a channel of capacity one.
    - [Placement] (placement/placement.go): the placer: gates, clone and restore, the handoff of a
      parked turn, Suspend, Fork with its fan-out and rollback, Exec, Resume and Approve. It runs the
      [Controller] on the store, on a runtime backend that is an operation of a class, in a state that
      holds the guard's table and the open connections.
    - [Registry] (placement/registry.go): the named placers on a heap, NewRegistry, Add,
      MarkUnavailable, lookup by name, and Resume, Suspend and Approve by the recorded harness.
    - [Admission], [Gates] (with the handoff of a parked turn), [Fanout], [Routing] and [Checkpoint] hold the theorems about
      them; [Checkpoint] adds the interleaving of turns, marked sections, forks and repairs on one
      session, whose steps are the store operations the placer makes.

    Package sqlitelog keeps the journals, the session metadata and the harness registrations in one
    SQLite database. Its files:

    - [Tables] (sqlitelog/sqlitelog.go): the database as a record of tables, one function per SQL
      statement, a connection with transactions, and a driver that may fail any statement, commit or
      rollback (an oracle over statement numbers; [faultFree] says it never does).
    - [Projection] (approval_projection.go): the reducer that Append runs in its transaction, on the
      columns of the row; [Reducer] the same as a function of the journal.
    - [SqlLog] (sqlitelog.go): the [Log] of one session and its [Store] interface; [SqlExample] a
      concrete driver and record codec for the witnesses; [SqlStore] its refinement of the in-memory
      log.
    - [SqlSessions] (sessions.go, deletion.go): metadata, listing with page cursors and their round
      trip, deletion; [Tokens] which texts are cursors, told apart from their decoders.
    - [SqlHarnesses] (harnesses.go): registration, reservation, retirement, and the check a new
      session makes in its insert's transaction.
    - [SqlMigrate] (sqlitelog.go, approval_projection.go): the schema ladder. A column an old version
      lacks is present with its default and not read before the rung that adds it. The backfill reads
      one event per step, and its fuel is one more than the number of events, which suffices
      ([Migrations]).
    - [Reporting], [SqlSystem], [Durable], [Paging] and [Migrations] hold the theorems.

    Package session is the gRPC service over all of this. Its files:

    - [GoJson] (encoding/json and unicode/utf8 as metadata.go uses them): the bytes of a string map,
      written and read.
    - [Status] (service.go, approval.go, delete.go): how an error becomes a status.
    - [Service] (service.go, metadata.go): create, get, list, and the state the handlers share: the
      placers' state on the database, and the registry with its heap.
    - [ServiceOps] (service.go, approval.go, delete.go): the routing rules, Suspend, Resume, Approve,
      DeleteSession, and Exec and Replay on a stream whose sends may fail.
    - [Relay] (what an observer is told is what the journal gained, for every controller, placer and
      registry operation), [ServiceFacts], [ServiceRouting], [ServicePins], [ServiceStreams],
      [ServiceSessions], [ServiceHistory] and [ServiceDeleted] hold the theorems; [ServiceExample] is a
      concrete service on the driver of [SqlExample] for their witnesses.
    - [HarnessSpec] (harness_registry.go, canon/canon.go, harnesswire/harnesswire.go): the specs that
      are registered, their reflection, validation and digest, the names, the page token, and the
      conversions of a descriptor.
    - [HarnessAdmin] (harness_registry.go): the admin service, on the same state as the Sessions service:
      the constructor that loads what is stored, Close, and the four handlers. The pages of the
      loading loop are bounded by one more than the number of stored rows, which suffices
      ([startup_exact]).
    - [HarnessNames], [HarnessListing], [HarnessRegistration], [HarnessStartup] and [HarnessHistory] hold
      the theorems; [HarnessExample] is a concrete factory and encoding of specs for their witnesses.

    Package harnesswire runs a harness in another process, over a bidirectional stream. Its files:

    - [HarnessWire] (harnesswire/harnesswire.go): both ends. The server's sink turns calls into events and
      awaited frames; [Server_Connect] is a process that sends, receives, looks at its context and draws
      random bytes. [client_Run] is a harness program again, driven by what the other end does ([Remote]).
      [dial] joins the two.
    - [WireTransparency] and [RemoteHarness] (client and server together), [WireClient] (the client against any
      other end) and [WireServer] (the server against any host) hold the theorems.

    Package model/openai asks an OpenAI-compatible endpoint for completions. Its files:

    - [Json] (encoding/json as openai.go uses it): JSON trees, their printer, the parser, and the decoding of
      members by name. The parser's fuel is twice the number of bytes and two, which suffices for every printed
      text: it is parsed back ([parseJson_print]).
    - [OpenAi] (model/openai/openai.go): the options and [NewClient], the redirect policy, the request that is
      built, [Model], and [StreamModel] with its reader of server-sent events. A scan of a body is structural
      on its bytes.
    - [OpenAiSpec] holds the theorems, and a plain form of URLs and a server for their witnesses.

    The packages under runtime/ are the backends on which a placer provisions compute. Their files:

    - [Substrate] (runtime/substrate/substrate.go; integrations/substrate/adapter.go): actors suspended to
      snapshots: Create, Snapshot, Restore, Stop, Status, Fork by tag and clone with its teardown, and the
      control plane over the client of ate-api.
    - [Runtimes] (runtime/local/local.go, runtime/remote/remote.go): the backend that serves a harness on a
      socket of this process, and the one that keeps a connection to a harness elsewhere.
    - [SubstrateSpec] and [RuntimesSpec] hold the theorems; the first ends with a small control plane in which
      a router wakes and suspends actors between the calls of the backend.

    ** State and operations

    A computation of the controller is a function [World Log -> World Log * result], the monad [M] of
    [Prelude]. The world ([Sinks.World]) holds the store, the environment's clock, the code's counters of
    live calls and what the observer was told, and as ghost state every request that was put to the
    model or a tool, answered or not, so that "nothing is invoked" can be stated. The model client, the tool executors and the configuration are fields of [Controller];
    their answers may depend on the clock, so a second call may answer differently. A sink is a
    record of its own mutable fields, threaded by the effects. Every definition follows the branches
    of the Go function it is named after, in the order of the source; a Go method of a type whose
    name would clash is prefixed by the type ([live_], [replay_], [resume_]).

    ** The groups of theorems

    - The journal ([EventLog]): two logs of one length that verify and end in one hash agree throughout, unless at one
      position their records are different byte strings with one digest ([tamper_evident]); of two writers only the one that holds the newest fence appends
      ([stale_fence_rejected], [single_writer_cas]); every reachable log verifies
      ([reachable_log_verifies]).
    - Replay: for any harness at all it returns the recorded outputs or fails, and changes nothing
      ([Replay_identity_or_error], [Replay_read_only]). For a replayable harness, and a session
      made of any number of turns, crashes and recoveries, it succeeds ([session_replays]).
    - Recovery: a turn that was cut short, in a forked session too, is completed by [Resume] when the
      environment serves it, or refused untouched where its intent was inherited
      ([session_recovers]), and nothing is asked or recorded before all of the record was served
      ([resume_serves_first]).
    - Approvals: the strict scan computes the specified state of every gated call
      ([approval_gate_refinement]), a decision is committed once and is final in every later journal ([Approve_final],
      [Approve_commits_once]), a gated call is the last word of a turn ([Exec_parks_last]).
    - Projections and forks: grouping a well-formed journal returns its executions
      ([recordedExecutions_projection]); a fork shares its parent's chain ([Fork_shares_chain]).
    - The wire: decoding is the inverse of encoding on normal values and idempotent on all
      ([Event_roundtrip], [EventFromProto_stable]), and the chain survives it
      ([Verify_survives_wire]).
    - The guard and the mutex: every interleaving of admissions and releases admits exactly what the
      holds allow and its holds exclude each other ([guard_refines_spec]); the mutex has one holder at
      most ([mutex_safe]).
    - Placement: whatever the runtime, the harness and the store answer, the placer leaves no hold and
      no connection behind ([placer_restores]); compute is provisioned only behind the gates
      ([Exec_gated], [Resume_restores_own]); a fork creates all children or none ([Fork_fans_out]); a
      parked turn appends one SUSPEND under its own fence or nothing ([handoffPark_exact]).
    - The registry: a resolved name keeps its placer over any history ([registries_keep_placers]), and
      an operation reaches the placer of the recorded harness ([registry_routes]).
    - Interleavings: between a fork's snapshot and its record the journal is the one snapshotted
      ([checkpoint_exact]).
    - The database: the log of a session refines the in-memory log statement by statement
      ([sqlite_log_refines]); what a listing reports is what the strict scan finds
      ([session_row_reports_scan]); a deletion is final ([deletion_is_final]); names are reserved or
      registered, never both ([harness_names_exclusive]); paging lists every session once
      ([paging_exact]); an old database is opened whole or not at all ([migrate_exact]).
    - The service: a session on a registered harness stays on it, and no call borrows a registered
      harness ([routing_pins]); a stream of Exec carries exactly the records by which the journal grew
      ([exec_streams]); a created session carries what was asked for ([created_as_asked]); a deleted one
      refuses every further call ([deleted_session_refused]); over every interleaving of handlers a
      session that is shown reports its journal ([service_reports_journal]).
    - The admin service: what may be registered ([registrable]); a registration is all or nothing
      ([registration_exact]); a listing is complete, ordered and ends ([harness_listing_exact]); startup
      loads every stored registration or gives everything back ([startup_exact]); over every history no
      release function is lost or called twice and no harness changes its placer ([admin_history]).
    - Remote harnesses: a harness behind a stream is a harness in closed form ([remote_transparent]) whose
      sessions replay and recover ([remote_session_replays], [remote_session_recovers]); each end
      keeps the protocol whatever the other does ([client_trusts_nothing], [server_protocol]).
    - The model provider: a streamed completion is the whole one ([stream_is_whole]); a request says what was
      asked, or nothing is sent ([request_exact]); every request, redirects included, goes to the configured
      origin, with the configured headers as far as net/http repeats them ([requests_stay_home]).
    - The runtimes: a clone is exactly the snapshot the fork took ([fork_clones_snapshot]); a failed fork tears
      down every actor whose creation was answered, and nothing else ([fork_tidy]); a backend without memory snapshots provisions nothing
      for a harness that needs them ([memoryless_backends]); whatever a backend opened it closes once
      ([backends_release]).
    - Findings: a stream that closes without an END is a success ([client_trusts_nothing]); a streamed
      completion that just ends is taken for complete ([stream_is_whole]); configured headers whose names are
      the same header ([colliding_headers]); a completed turn that replay rejects
      ([handled_model_failure_not_replayed]); a clone whose creation takes effect but fails is left behind
      ([fork_tidy]); a repair that takes the fence from a running checkpoint
      ([repair_races_checkpoint]).

    ** Abstractions

    - Sequence numbers and fences are [Z] and do not wrap: they count committed records, and int64
      is out of reach. SHA-256 keeps its 32-bit words, wrap-around written out.
    - Error texts are tags: the code branches on [errors.Is] and [errors.As] only. The description
      of an ERROR event is not read back by anything.
    - A [[]byte] that the code tells apart as nil or empty is an option; a slice that is only ranged
      over is a list. A timestamp is its nanoseconds; Go's zero time is [None].
    - A harness uses its sink from one goroutine, so the mutex of the sink guard is never contended,
      and one sink call is one atomic step. Contexts are cancelled by the guard only. The interleaving of
      several controllers on one store is the interleaving of their store transitions: a session
      ([Session.session]) lets any controller take over at any point.
    - A store operation that fails commits nothing. This is what the in-memory log does, and it is a
      law of [StoreLaws] for the others.
    - protojson, the JCS transformation, json.Marshal of model inputs, and structpb are third-party
      code: they are operations of the classes [Encoding] and [Host]. What a theorem needs of them is
      a hypothesis of that theorem, and [exampleEncoding] and [exampleHost] are instances for which it
      holds.
    - The recursions of the code are over journals, input lists and the tree of a harness run, and
      are structural here. Only the decimal text of an integer uses fuel: its binary length.
    - Logging, metrics and request correlation change no state and are left out.
    - protojson of a session's origin and identity, and of a harness spec, is a parameter with the law
      that what is written is read back. The host's factory of placers is a parameter that makes placers
      and touches no other. The window in which the registry may change while a call is routed is an arbitrary
      function on the service's state.
    - The parsing and printing of URLs ([UrlLib]) and the HTTP exchange ([HttpTransport]: redirects, answers, and
      the order in which a map is ranged over) are parameters of the model provider; following redirects under
      a policy, and the headers they repeat, is modelled. What a theorem needs of them are the classes [UrlLaws] and [HttpLaws].
    - The substrate control plane ([ControlClient]) is a parameter that may answer anything and change its state
      in any way, other clients included; what cloning relies on, that a tag copies the snapshot an actor holds
      and that a snapshot once left does not come back, are laws ([PlaneLaws]) of the theorem that needs them; that
      nobody uses the name of a child's tag again is its hypothesis ([tagOnce]). Sockets and connections are the operations of [LocalHost] and [RemoteHost].

    ** Not modelled

    The Fork handler of the service (the placer's fan-out is modelled on children with stores of their own).
    The daemon, the command line tools and the client are wiring of these parts, flags and configuration
    files. Of sqlitelog, the pragmas and the WAL retry loop of Open are I/O. Generated code and observability
    stay out. *)
From Stdlib Require Export ZArith Lia Ascii String.
From stdpp Require Export base tactics list strings gmap option.

#[global] Set Default Goal Selector "!".
#[global] Open Scope Z_scope.

(** ** Fallible results

    A Go function returning [(T, error)] is modelled by [result E T]: the value is present exactly
    when the error is nil. The two places where the code reads a value beside a non-nil error (tool
    executors) return a pair instead. *)
Inductive result (E A : Type) : Type :=
  | Ok (a : A)
  | Err (e : E).
Arguments Ok {E A} a.
Arguments Err {E A} e.

Definition is_ok {E A} (r : result E A) : bool :=
  match r with Ok _ => true | Err _ => false end.

#[export] Instance result_ret {E} : MRet (result E) := fun A => @Ok E A.
#[export] Instance result_bind {E} : MBind (result E) := fun A B f r =>
  match r with Ok a => f a | Err e => Err e end.
#[export] Instance result_fmap {E} : FMap (result E) := fun A B f r =>
  match r with Ok a => Ok (f a) | Err e => Err e end.

(** [guard_err o k]: the Go idiom [if err := o; err != nil { return err }] followed by [k]. *)
Definition guard_err {E A} (o : option E) (k : result E A) : result E A :=
  match o with Some e => Err e | None => k end.

(** [err_of r]: the error component of a Go result. *)
Definition err_of {E A} (r : result E A) : option E :=
  match r with Ok _ => None | Err e => Some e end.

(** ** State with errors

    Stateful Go code is a function from the state to the new state and a result. State changes made
    before an error stay made: nothing is rolled back, as in the source. *)
Definition M (S E A : Type) : Type := S -> S * result E A.

#[export] Instance M_ret {S E} : MRet (M S E) := fun A a s => (s, Ok a).
#[export] Instance M_bind {S E} : MBind (M S E) := fun A B f m s =>
  match m s with
  | (s', Ok a) => f a s'
  | (s', Err e) => (s', Err e)
  end.

Definition throw {S E A} (e : E) : M S E A := fun s => (s, Err e).
Definition gets {S E A} (f : S -> A) : M S E A := fun s => (s, Ok (f s)).
Definition modify {S E} (f : S -> S) : M S E unit := fun s => (f s, Ok tt).
Definition lift {S E A} (r : result E A) : M S E A := fun s => (s, r).
(** [check o] returns early with the error [o] holds, if any. *)
Definition check {S E} (o : option E) : M S E unit := fun s =>
  match o with Some e => (s, Err e) | None => (s, Ok tt) end.
(** [try m] runs [m] and hands its error to the caller as a value. *)
Definition try {S E A} (m : M S E A) : M S E (result E A) := fun s =>
  let '(s', r) := m s in (s', Ok r).

(** ** Scope and notations of the development *)
Declare Scope agent_scope.
Delimit Scope agent_scope with agent.
Notation "'let!' x := m 'in' k" := (mbind (fun x => k) m)
  (at level 10, x pattern, m at level 100, k at level 200) : agent_scope.
Notation "'do!' m 'in' k" := (mbind (fun _ => k) m)
  (at level 10, m at level 100, k at level 200) : agent_scope.
#[global] Open Scope agent_scope.

(** ** Integers and bytes *)

(** Decimal text of an integer: [strconv.FormatInt(n, 10)]. *)
Fixpoint pos_digits (fuel : nat) (n : Z) (acc : string) : string :=
  match fuel with
  | O => acc
  | S fuel' =>
      let acc' := String (Ascii.ascii_of_nat (48 + Z.to_nat (n mod 10))) acc in
      if n / 10 =? 0 then acc' else pos_digits fuel' (n / 10) acc'
  end.

Definition FormatInt (n : Z) : string :=
  if n <? 0
  then String "-"%char (pos_digits (S (Z.to_nat (Z.log2 (- n)))) (- n) EmptyString)
  else pos_digits (S (Z.to_nat (Z.log2 n))) n EmptyString.

Definition hexDigit (d : Z) : Ascii.ascii :=
  Ascii.ascii_of_nat (Z.to_nat (if d <? 10 then 48 + d else 87 + d)).

(** [hex.EncodeToString] on bytes given as integers below 256. *)
Fixpoint hexEncode (bs : list Z) : string :=
  match bs with
  | [] => EmptyString
  | b :: bs' => String (hexDigit (b / 16)) (String (hexDigit (b mod 16)) (hexEncode bs'))
  end.

(** The bytes of a Go string (Go strings are byte sequences). *)
Fixpoint bytesOf (s : string) : list Z :=
  match s with
  | EmptyString => []
  | String c s' => Z.of_nat (Ascii.nat_of_ascii c) :: bytesOf s'
  end.

(** The Go string of some bytes. *)
Fixpoint stringOf (bs : list Z) : string :=
  match bs with
  | [] => EmptyString
  | b :: bs' => String (Ascii.ascii_of_nat (Z.to_nat b)) (stringOf bs')
  end.
Definition isByte (b : Z) : Prop := 0 <= b < 256.

(** ** Lists *)

(** The last element of a list, or [d] when it is empty. *)
Definition last_or {A} (d : A) (l : list A) : A := default d (list.last l).

(** ** Tactics *)

(** [inv_ok]: invert equations between results, options and pairs. *)
Ltac inv_ok :=
  repeat match goal with
    | H : Ok _ = Ok _ |- _ => injection H; clear H; intros
    | H : Err _ = Err _ |- _ => injection H; clear H; intros
    | H : Ok _ = Err _ |- _ => discriminate H
    | H : Err _ = Ok _ |- _ => discriminate H
    | H : Some _ = Some _ |- _ => injection H; clear H; intros
    | H : Some _ = None |- _ => discriminate H
    | H : None = Some _ |- _ => discriminate H
    | H : (_, _) = (_, _) |- _ => injection H; clear H; intros
    end; subst.

(** [break_match]: destruct the scrutinee of a match or conditional in the goal. *)
Ltac break_match :=
  match goal with
  | |- context [match ?x with _ => _ end] =>
      lazymatch x with
      | context [match _ with _ => _ end] => fail
      | _ => destruct x eqn:?
      end
  end.

(** [break_match_in H]: the same in a hypothesis. *)
Ltac break_match_in H :=
  match type of H with
  | context [match ?x with _ => _ end] =>
      lazymatch x with
      | context [match _ with _ => _ end] => fail
      | _ => destruct x eqn:?
      end
  end.

(** [dec_bool]: turn the boolean guards of the source into propositions. *)
Ltac dec_bool :=
  repeat match goal with
  | H : _ || _ = false |- _ => apply orb_false_iff in H as [? ?]
  | H : _ && _ = true |- _ => apply andb_true_iff in H as [? ?]
  | H : negb _ = false |- _ => apply negb_false_iff in H
  | H : negb _ = true |- _ => apply negb_true_iff in H
  | H : bool_decide _ = true |- _ => apply bool_decide_eq_true in H
  | H : bool_decide _ = false |- _ => apply bool_decide_eq_false in H
  | H : Bool.eqb _ _ = true |- _ => apply Bool.eqb_prop in H
  | H : (_ =? _) = true |- _ => apply Z.eqb_eq in H
  | H : (_ =? _) = false |- _ => apply Z.eqb_neq in H
  end.

(** [unM]: unfold the state-and-error monad. *)
Ltac unM := unfold throw, gets, modify, lift, check, try, mbind, M_bind, mret, M_ret in *; simpl in *.

Create HintDb agent discriminated.
Create Rewrite HintDb agent_rw.

(** ** Lemmas shared by the components *)

Lemma result_bind_Ok {E A B} (r : result E A) (f : A -> result E B) b :
  (r ≫= f) = Ok b <-> exists a, r = Ok a /\ f a = Ok b.
Proof. destruct r; simpl; naive_solver. Qed.

Lemma guard_err_Ok {E A} (o : option E) (k : result E A) a :
  guard_err o k = Ok a <-> o = None /\ k = Ok a.
Proof. destruct o; simpl; naive_solver. Qed.

(** A step of a computation, and what follows it. *)
Lemma bind_inv {S E A B} (m : M S E A) (f : A -> M S E B) s s' r : (m ≫= f) s = (s', r) ->
  exists s1 r1, m s = (s1, r1) /\
    match r1 with Ok a => f a s1 = (s', r) | Err e => s' = s1 /\ r = Err e end.
Proof.
  unfold mbind, M_bind. destruct (m s) as [s1 [a|e]]; intros Hr; [by exists s1, (Ok a)|].
  inv_ok. by exists s', (Err e).
Qed.

Lemma last_or_app {A} (d : A) (l : list A) x : last_or d (l ++ [x]) = x.
Proof. unfold last_or. by rewrite last_snoc. Qed.

Lemma last_or_nil {A} (d : A) : last_or d [] = d.
Proof. done. Qed.

Lemma string_app_nil_l (s : string) : (EmptyString +:+ s)%string = s.
Proof. done. Qed.

Lemma filter_none {A} (P : A -> Prop) `{forall x, Decision (P x)} (l : list A) :
  (forall x, x ∈ l -> ~ P x) -> filter P l = [].
Proof.
  induction l as [|x l IH]; intros Hl; [done|]. rewrite filter_cons, decide_False by (apply Hl; left).
  apply IH. intros y Hy. apply Hl. by right.
Qed.

Lemma filter_all {A} (P : A -> Prop) `{forall x, Decision (P x)} (l : list A) :
  Forall P l -> filter P l = l.
Proof.
  induction 1 as [|x l Hx _ IH]; [done|].
  rewrite filter_cons_True by done. by rewrite IH.
Qed.

(** Filters that agree on the elements of the list. *)
Lemma list_filter_iff' {A} (P Q : A -> Prop) `{forall x, Decision (P x)} `{forall x, Decision (Q x)} (l : list A) :
  (forall x, x ∈ l -> P x <-> Q x) -> filter P l = filter Q l.
Proof.
  induction l as [|x l IH]; intros Hiff; [done|]. rewrite !filter_cons.
  rewrite (decide_ext (P x) (Q x)) by (apply Hiff; set_solver). rewrite IH by set_solver. done.
Qed.

Lemma length_bytesOf s : length (bytesOf s) = String.length s.
Proof. induction s; simpl; auto. Qed.

Lemma bytesOf_app s t : bytesOf (s +:+ t) = bytesOf s ++ bytesOf t.
Proof. induction s as [|c s IH]; simpl; [done|]. by rewrite IH. Qed.

Lemma stringOf_bytesOf s : stringOf (bytesOf s) = s.
Proof. induction s as [|c s IH]; simpl; [done|]. by rewrite Nat2Z.id, Ascii.ascii_nat_embedding, IH. Qed.

Lemma bytesOf_isByte s : Forall isByte (bytesOf s).
Proof.
  induction s as [|c s IH]; simpl; constructor; [|done]. unfold isByte.
  pose proof (Ascii.nat_ascii_bounded c). lia.
Qed.

Lemma bytesOf_inj s t : bytesOf s = bytesOf t -> s = t.
Proof.
  revert t. induction s as [|c s IH]; intros [|d t] H; simpl in H; try discriminate; [done|].
  injection H as H1 H2. f_equal; [|by apply IH].
  apply Nat2Z.inj in H1. rewrite <- (Ascii.ascii_nat_embedding c), <- (Ascii.ascii_nat_embedding d).
  by rewrite H1.
Qed.

Lemma length_hexEncode bs : String.length (hexEncode bs) = (2 * length bs)%nat.
Proof. induction bs as [|b bs IH]; simpl; lia. Qed.

Lemma hexDigit_inj a b : 0 <= a < 16 -> 0 <= b < 16 -> hexDigit a = hexDigit b -> a = b.
Proof.
  unfold hexDigit. intros Ha Hb H.
  apply (f_equal Ascii.nat_of_ascii) in H.
  destruct (Z.ltb_spec a 10), (Z.ltb_spec b 10);
    rewrite !Ascii.nat_ascii_embedding in H by lia; lia.
Qed.

Lemma nibble_bounds b : 0 <= b < 256 -> 0 <= b / 16 < 16 /\ 0 <= b mod 16 < 16.
Proof.
  intros Hb. split; [|by apply Z.mod_pos_bound].
  split; [by apply Z.div_pos; lia|apply Z.div_lt_upper_bound; lia].
Qed.

(** Hex encoding of byte values is injective. *)
Lemma hexEncode_inj xs ys :
  Forall (fun b => 0 <= b < 256) xs -> Forall (fun b => 0 <= b < 256) ys ->
  hexEncode xs = hexEncode ys -> xs = ys.
Proof.
  intros Hx. revert ys. induction Hx as [|x xs Hx _ IH]; intros ys Hy H; destruct Hy as [|y ys Hy Hys];
    simpl in H; try discriminate; [done|].
  injection H as Ha Hb Hc.
  destruct (nibble_bounds x Hx), (nibble_bounds y Hy).
  apply hexDigit_inj in Ha; [|lia..]. apply hexDigit_inj in Hb; [|lia..].
  f_equal; [|by apply IH]. rewrite (Z.div_mod x 16), (Z.div_mod y 16) by lia. lia.
Qed.

#[export] Hint Rewrite @last_or_app @last_or_nil : agent_rw.
#[export] Hint Resolve filter_all : agent.
