(* ===== verification/GoErrors.v ===== *)
(** * Go error values (package-level sentinels, wrapping, errors.Is)

    The tree of causes a Go error carries, [errors.Is] over it, and the approval park error of
    api/approval.go with its unwind check. Error texts are not modelled: the code branches on
    [errors.Is] and [errors.As] only, and a text reaches the journal solely as the description of an
    ERROR event, which nothing reads back. Formatted operands of a message are therefore dropped
    and its constant part kept as a tag. *)
From S2P Require Import Prelude.

(** ApprovalRef: api/approval.go. *)
Record ApprovalRef := mkApprovalRef {
  ref_ExecutionID : string;
  ref_ToolCallID : string;
  ref_RequestSeq : Z;
}.

(** The package-level error variables the modelled packages return. *)
Inductive Sentinel :=
  (* eventlog *)
  | ErrConflict | ErrFenced | ErrDeleted
  (* api *)
  | ErrApprovalParked | ErrSnapshotSuperseded
  (* controller *)
  | ErrReplayInvokedModel | ErrReplayDiverged | ErrInvalidExecutionLog | ErrHarnessDescribeFailed
  | ErrHarnessMismatch | ErrHarnessVersionMismatch | ErrInheritedToolIntent | ErrMissingSessionUID
  | ErrIncompleteInvocation | ErrMissingIdempotencyKey | ErrUnmediatedToolCall
  | ErrInvalidApprovalDecision | ErrApprovalBlocked | ErrApprovalUnavailable | ErrInvalidApprovalCall
  | ErrApprovalReceiptReport | ErrMissingToolExecutor | ErrSinkClosed
  (* context *)
  | ContextCanceled | ContextDeadlineExceeded
  (* placement *)
  | ErrUnplaceable | ErrSessionBusy | ErrDescriptorMismatch | ErrHarnessUnavailable
  | ErrAdmissionInterrupted | ErrCheckpointing | ErrUnknownHarness | ErrHarnessUnservable
  | ErrRecordedHarnessNotServed | ErrHarnessExists
  (* sqlitelog *)
  | ErrTampered | ErrReservedDelete | ErrSessionNotFound | ErrInvalidPageToken
  | ErrUnsupportedSchema | ErrHarnessNotFound | ErrHarnessSpecConflict | ErrHarnessRetired
  | ErrHarnessNameReserved | ErrHarnessNameCollision
  (* model/openai *)
  | ErrUnsupportedPart
  (* runtime/substrate *)
  | ErrActorNotFound | ErrTagExists | ErrNoSnapshotToClone.

#[export] Instance Sentinel_eq : EqDecision Sentinel.
Proof. solve_decision. Defined.
#[export] Instance ApprovalRef_eq : EqDecision ApprovalRef.
Proof. solve_decision. Defined.

(** A Go error value: a sentinel, a text made in place, an [*api.ApprovalParkedError], an error with
    one cause ([Unwrap() error]) or one with several ([Unwrap() []error]: [errors.Join] and
    [fmt.Errorf] with more than one [%w]), a gRPC status, and a [*session.statusCause], which answers
    with a status of its own and unwraps to its cause. *)
Inductive goerr :=
  | ESentinel (s : Sentinel)
  | EText (text : string)
  | EParked (ref : ApprovalRef)
  | EWrap (text : string) (cause : goerr)
  | EJoin (text : string) (causes : list goerr)
  | EStatus (code : Z)
  | EStatusCause (code : Z) (cause : goerr).

Abbreviation res := (result goerr).

Coercion ESentinel : Sentinel >-> goerr.

(** The sentinels that are themselves wrapped: [fmt.Errorf("%w: ...", ErrInvalidExecutionLog)]. *)
Definition sentinel_cause (s : Sentinel) : option Sentinel :=
  match s with
  | ErrInheritedToolIntent | ErrIncompleteInvocation => Some ErrInvalidExecutionLog
  | _ => None
  end.

(** [errors.Is(err, target)] for a sentinel target. *)
Fixpoint errors_Is (err : goerr) (target : Sentinel) : bool :=
  match err with
  | ESentinel s => bool_decide (s = target) || bool_decide (sentinel_cause s = Some target)
  | EText _ => false
  | EParked _ => bool_decide (target = ErrApprovalParked)
  | EWrap _ c => errors_Is c target
  | EJoin _ cs => existsb (fun c => errors_Is c target) cs
  | EStatus _ => false
  | EStatusCause _ c => errors_Is c target
  end.

(** [errors.Is] on a possibly nil error. *)
Definition is_opt (err : option goerr) (target : Sentinel) : bool :=
  match err with Some e => errors_Is e target | None => false end.

(** [errors.As(err, *&ApprovalParkedError)]: the first park in pre-order. *)
Fixpoint as_parked (err : goerr) : option ApprovalRef :=
  match err with
  | EParked ref => Some ref
  | EWrap _ c => as_parked c
  | EJoin _ cs =>
      fold_right (fun c acc => match as_parked c with Some r => Some r | None => acc end) None cs
  | EStatusCause _ c => as_parked c
  | _ => None
  end.

(** The loop of [IsParkUnwind]: descend single causes; at a joined error every cause must itself be
    a park unwind; running off the chain accepts. The walk at a joined error re-enters
    [IsParkUnwind], so both are one fixpoint here. *)
Fixpoint IsParkUnwind_walk (err : goerr) (ref : ApprovalRef) : bool :=
  match err with
  | EJoin _ cs =>
      forallb (fun c => bool_decide (as_parked c = Some ref) && IsParkUnwind_walk c ref) cs
  | EWrap _ c | EStatusCause _ c => IsParkUnwind_walk c ref
  | ESentinel _ | EText _ | EParked _ | EStatus _ => true
  end.

(** [IsParkUnwind(err, ref)]: api/approval.go. *)
Definition IsParkUnwind (err : goerr) (ref : ApprovalRef) : bool :=
  bool_decide (as_parked err = Some ref) && IsParkUnwind_walk err ref.

(** The leaves of an error tree: the independent failures it reports. *)
Fixpoint leaves (err : goerr) : list goerr :=
  match err with
  | EWrap _ c | EStatusCause _ c => leaves c
  | EJoin _ cs => flat_map leaves cs
  | e => [e]
  end.

(** ** Lemmas *)

Section goerr_ind.
Variable P : goerr -> Prop.
Hypothesis HS : forall s, P (ESentinel s).
Hypothesis HT : forall t, P (EText t).
Hypothesis HP : forall r, P (EParked r).
Hypothesis HW : forall t c, P c -> P (EWrap t c).
Hypothesis HJ : forall t cs, Forall P cs -> P (EJoin t cs).
Hypothesis HG : forall n, P (EStatus n).
Hypothesis HC : forall n c, P c -> P (EStatusCause n c).

(** Induction on error trees through the list of joined causes. *)
Fixpoint goerr_ind_nested (e : goerr) : P e :=
  match e with
  | ESentinel s => HS s
  | EText t => HT t
  | EParked r => HP r
  | EWrap t c => HW t c (goerr_ind_nested c)
  | EJoin t cs => HJ t cs ((fix go cs : Forall P cs :=
      match cs with
      | [] => Forall_nil_2 P
      | c :: cs' => Forall_cons_2 P c cs' (goerr_ind_nested c) (go cs')
      end) cs)
  | EStatus n => HG n
  | EStatusCause n c => HC n c (goerr_ind_nested c)
  end.
End goerr_ind.

Lemma errors_Is_wrap t c s : errors_Is (EWrap t c) s = errors_Is c s.
Proof. done. Qed.

Lemma errors_Is_join t cs s : errors_Is (EJoin t cs) s = true <-> exists c, c ∈ cs /\ errors_Is c s = true.
Proof.
  simpl. rewrite existsb_exists. split; intros (c & Hc & Hs); exists c; split; auto;
    by apply list_elem_of_In.
Qed.

(** A park is found by [errors.Is] as well as by [errors.As]. *)
Lemma as_parked_Is e ref : as_parked e = Some ref -> errors_Is e ErrApprovalParked = true.
Proof.
  induction e as [| | |t c IH|t cs IH| |n c IH] using goerr_ind_nested; simpl; intros H; try discriminate;
    [done|auto| |auto].
  induction IH as [|c cs Hc _ IHcs]; simpl in *; [discriminate|].
  apply orb_true_iff. destruct (as_parked c) eqn:E; [inv_ok; left; auto|right; auto].
Qed.

(** The walk accepts exactly when every leaf of a tree whose joined parts all carry the park is that
    park; for a tree that carries [ref] it reports no independent failure. *)
Lemma IsParkUnwind_leaves e ref :
  as_parked e = Some ref -> IsParkUnwind_walk e ref = true -> Forall (fun l => l = EParked ref) (leaves e).
Proof.
  induction e as [s|t|r|t c IH|t cs IH|n|n c IH] using goerr_ind_nested; simpl; intros Ha Hw;
    try discriminate; [inv_ok; by repeat constructor|auto| |auto].
  clear Ha. induction IH as [|c cs Hc _ IHcs]; simpl in *; [constructor|].
  apply andb_true_iff in Hw as [Hw Hcs]. apply andb_true_iff in Hw as [Ha Hw].
  apply Forall_app. split; [|by apply IHcs]. apply Hc; [by apply bool_decide_eq_true in Ha|done].
Qed.

#[export] Hint Resolve as_parked_Is : agent.

(** ** Properties *)

(** IsParkUnwind is sound: it accepts an error for a reference only when every independent failure
    at the leaves of the error tree is the park for that very reference, so no other failure can be
    swallowed by a park handoff. *)
Theorem IsParkUnwind_sound (e : goerr) (ref : ApprovalRef) :
  IsParkUnwind e ref = true -> Forall (fun l => l = EParked ref) (leaves e).
Proof.
  unfold IsParkUnwind. intros H. apply andb_true_iff in H as [Ha Hw].
  apply IsParkUnwind_leaves; [by apply bool_decide_eq_true in Ha|done].
Qed.

Definition park_example : ApprovalRef := mkApprovalRef "e" "c" 3.

Lemma IsParkUnwind_sound_witness :
  Forall (fun l => l = EParked park_example)
    (leaves (EJoin "join" [EWrap "run" (EParked park_example); EParked park_example])).
Proof. apply IsParkUnwind_sound. vm_compute. reflexivity. Defined.
