(* ===== verification/Api.v ===== *)
(** * The contract types (api/types.go, state.go, session.go, harness.go, runtime.go)

    Go pointers that may be nil are [option]; Go structs are records with the source's field names,
    prefixed where two structs share a name. A [[]byte] is [option (list Z)] because the code keeps
    nil and empty apart ([bytes.Clone]); slices that are only ranged over are lists. Timestamps are
    nanoseconds since the epoch, [None] for Go's zero time. *)
From S2P Require Import Prelude GoErrors.

Definition bytes := option (list Z).

(** [EventKind] is a Go string; [EventKindOther] is any string that is none of the constants. *)
Inductive EventKind :=
  | EventInput | EventModelCall | EventOutput | EventToolCall | EventToolResult
  | EventApprovalRequest | EventApprovalResult | EventUsage | EventLifecycle
  | EventEnd | EventError | EventExecutionStart | EventParked
  | EventKindOther (s : string).

Inductive LifecycleKind :=
  | LifecycleSuspend | LifecycleResume | LifecycleFork | LifecycleBaseline
  | LifecycleCancel | LifecycleDelete | LifecycleKindOther (s : string).

Inductive Mediation :=
  | MediationInHarnessReported | MediationControllerMediated | MediationRequiresApproval
  | MediationOther (s : string).

(** [ToolResultCode] is an int32 on the wire; [ToolResultCodeOther] is any other number. *)
Inductive ToolResultCode :=
  | ToolResultCodeUnspecified | ToolResultCodeApprovalDenied | ToolResultCodeExecutorError
  | ToolResultCodeOther (n : Z).

Inductive ExecState :=
  | ExecPending | ExecRunning | ExecAwaiting | ExecCompleted | ExecFailed | ExecCanceled
  | ExecStateOther (s : string).

Inductive DeletionState :=
  | DeletionActive | DeletionPending | DeletionStateOther (s : string).

Inductive ComputeState :=
  | ComputeNone | ComputeLive | ComputeWarm | ComputeCold | ComputeTerminated
  | ComputeStateOther (s : string).

Inductive Resumability :=
  | ResumabilityStatelessReplay | ResumabilityRequiresMemorySnapshot | ResumabilityOther (s : string).

#[export] Instance EventKind_eq : EqDecision EventKind.
Proof. solve_decision. Defined.
#[export] Instance LifecycleKind_eq : EqDecision LifecycleKind.
Proof. solve_decision. Defined.
#[export] Instance Mediation_eq : EqDecision Mediation.
Proof. solve_decision. Defined.
#[export] Instance ToolResultCode_eq : EqDecision ToolResultCode.
Proof. solve_decision. Defined.
#[export] Instance ExecState_eq : EqDecision ExecState.
Proof. solve_decision. Defined.
#[export] Instance DeletionState_eq : EqDecision DeletionState.
Proof. solve_decision. Defined.
#[export] Instance ComputeState_eq : EqDecision ComputeState.
Proof. solve_decision. Defined.
#[export] Instance Resumability_eq : EqDecision Resumability.
Proof. solve_decision. Defined.

(** Go's [any] as tool arguments hold it: JSON-shaped values. Integers and float64 are distinct
    dynamic types ([AInt] carries the value, [AFloat] the IEEE-754 bits); a map is the list of its
    members, each key once. *)
Inductive any :=
  | ANil
  | ABool (b : bool)
  | AInt (n : Z)
  | AFloat (bits : Z)
  | AString (s : string)
  | ASlice (vs : list any)
  | AMap (kvs : list (string * any)).

(** A [map[string]any]; [None] is the nil map. *)
Definition anymap := option (list (string * any)).

Record FilePart := mkFilePart {
  MIME : string; Bytes : bytes; URI : string; Digest : string; file_Name : string;
}.

(** [Part], [ReasoningPart] and [ToolResult] are mutually recursive in the source ([Summary] and
    [Content] are [[]Part]); the two structs are records over the part type, tied in [Part]. *)
Record ReasoningPartOf (P : Type) := mkReasoningPart {
  Provider : string; ModelID : string; Opaque : bytes; OpaqueURI : string; OpaqueDigest : string;
  Summary : list P; ItemID : string; Ordinal : Z; ValidityScope : string;
}.

Record ToolCall := mkToolCall {
  tc_ID : string; Tool : string; Args : anymap; tc_Mediation : Mediation; IdempotencyKey : string;
}.

Record ApprovalRequest := mkApprovalRequest { req_ToolCallID : string; req_Reason : string }.

Record ApprovalResult := mkApprovalResult {
  res_ToolCallID : string; Approved : bool; res_Reason : string; RequestSeq : Z;
}.

Record ToolResultOf (P : Type) := mkToolResult {
  tr_ID : string; tr_Output : anymap; OutputURI : string; OutputDigest : string;
  IsError : bool; tr_Error : string; Content : list P; Code : ToolResultCode;
  ApprovalRequestSeq : Z; ApprovalDecisionSeq : Z; Approval : option ApprovalResult;
}.
Arguments mkToolResult {P}.
Arguments tr_ID {P}. Arguments tr_Output {P}. Arguments OutputURI {P}. Arguments OutputDigest {P}.
Arguments IsError {P}. Arguments tr_Error {P}. Arguments Content {P}. Arguments Code {P}.
Arguments ApprovalRequestSeq {P}. Arguments ApprovalDecisionSeq {P}. Arguments Approval {P}.
Arguments mkReasoningPart {P}.

Inductive Part := mkPart {
  part_Text : option string;
  part_File : option FilePart;
  part_Data : anymap;
  part_Reasoning : option (ReasoningPartOf Part);
  part_ToolCall : option ToolCall;
  part_ToolResult : option (ToolResultOf Part);
}.

Abbreviation ReasoningPart := (ReasoningPartOf Part).
Abbreviation ToolResult := (ToolResultOf Part).

Record Message := mkMessage { Role : string; Parts : list Part }.

Record ExecutionStart := mkExecutionStart {
  Config : bytes; ResumeFromSeq : Z; InputCount : option Z; es_Harness : string; HarnessVersion : string;
}.

Record SnapshotRef := mkSnapshotRef {
  snap_Local : string; ExternalURI : string; Memory : bool; Sealed : bool;
}.

Record Lifecycle := mkLifecycle {
  lc_Kind : LifecycleKind; Detail : string; Snapshot : option SnapshotRef;
}.

Record ModelCall := mkModelCall {
  mc_Model : string; mc_Params : list (string * string); InputHash : string; mc_ID : string;
}.

Record Usage := mkUsage {
  u_Model : string; InputTokens : Z; OutputTokens : Z; ReasoningTokens : Z;
}.

Record Delta := mkDelta {
  d_ExecutionID : string; PartIndex : Z; Chunk : string; Done : bool;
}.

Record Error := mkError { err_Code : Z; Description : string }.
Record HarnessEnd := mkHarnessEnd { State : string; end_Error : option Error }.

Record IdentityRef := mkIdentityRef { Principal : string; Issuer : string; Subject : string }.

(** The envelope and the typed body of one event; the source sets exactly one body pointer. *)
Record Event := mkEvent {
  ExecutionID : string;
  Timestamp : option Z;
  SchemaVersion : Z;
  Kind : EventKind;
  ev_Message : option Message;
  ev_ModelCall : option ModelCall;
  ev_ToolCall : option ToolCall;
  ev_Result : option ToolResult;
  ev_Approval : option ApprovalRequest;
  ev_ApprovalResult : option ApprovalResult;
  ev_Usage : option Usage;
  ev_Lifecycle : option Lifecycle;
  ev_End : option HarnessEnd;
  ev_Err : option Error;
  ev_ExecutionStart : option ExecutionStart;
  ev_Parked : option ApprovalRef;
  Actor : IdentityRef;
}.

Record ApprovalDecision := mkApprovalDecision {
  dec_ExecutionID : string; dec_ToolCallID : string; dec_RequestSeq : Z;
  dec_Approved : bool; dec_Reason : string; dec_Identity : IdentityRef;
}.

Record ToolDefinition := mkToolDefinition {
  td_Name : string; td_Description : string; InputSchema : anymap;
}.

Inductive ToolChoiceMode :=
  | ToolChoiceAuto | ToolChoiceNone | ToolChoiceRequired | ToolChoiceModeOther (s : string).

Record ToolChoice := mkToolChoice { Mode : ToolChoiceMode; tch_Name : string }.

Record ModelRequest := mkModelRequest {
  mr_Model : string; Messages : list Message; mr_Params : list (string * string);
  Tools : list ToolDefinition; mr_ToolChoice : option ToolChoice;
}.

Record ModelResponse := mkModelResponse { mresp_Message : Message; mresp_Usage : Usage }.

Record Capabilities := mkCapabilities {
  cap_Resumability : Resumability; ForkSafe : bool; RequiresGPU : bool; Streaming : bool;
  ReasoningReplay : bool;
}.

Record ToolSpec := mkToolSpec { ts_Name : string; ts_Description : string; ts_Mediation : Mediation }.

Record Descriptor := mkDescriptor {
  desc_ID : string; desc_Version : string; desc_Models : list string; desc_Tools : list ToolSpec;
  desc_Capabilities : Capabilities;
}.

Record RuntimeCapabilities := mkRuntimeCapabilities {
  MemorySnapshot : bool; CoWFork : bool; Attest : bool; GPUState : bool;
}.

(** [Start]: the invocation handed to a harness. [IdentityContext] is never set by the modelled
    code (the field keeps its zero value) and is left out. *)
Record Start := mkStart {
  start_ExecutionID : string; start_SessionUID : string; start_Config : bytes;
  start_History : list Event; start_Inputs : list Message; start_ResumeFromSeq : Z;
}.

Record ToolCallContext := mkToolCallContext { SessionUID : string }.

#[export] Instance Usage_eq : EqDecision Usage.
Proof. solve_decision. Defined.
#[export] Instance IdentityRef_eq : EqDecision IdentityRef.
Proof. solve_decision. Defined.

(** Zero values of the structs the code zero-initialises. *)
Definition zeroIdentity : IdentityRef := mkIdentityRef "" "" "".
Definition zeroMessage : Message := mkMessage "" [].
Definition zeroUsage : Usage := mkUsage "" 0 0 0.
Definition zeroModelResponse : ModelResponse := mkModelResponse zeroMessage zeroUsage.
Definition zeroToolResult : ToolResult :=
  mkToolResult "" None "" "" false "" [] ToolResultCodeUnspecified 0 0 None.
Definition zeroPart : Part := mkPart None None None None None None.
Definition zeroDescriptor : Descriptor :=
  mkDescriptor "" "" [] [] (mkCapabilities (ResumabilityOther "") false false false false).

(** An event of kind [k] with no body: [api.Event{Kind: k}]. *)
Definition event0 (k : EventKind) : Event :=
  mkEvent "" None 0 k None None None None None None None None None None None None zeroIdentity.

(** Composite literals that set one body field. *)
Definition evMessage (k : EventKind) (m : Message) : Event :=
  mkEvent "" None 0 k (Some m) None None None None None None None None None None None zeroIdentity.
Definition evModelCall (mc : ModelCall) : Event :=
  mkEvent "" None 0 EventModelCall None (Some mc) None None None None None None None None None None zeroIdentity.
Definition evToolCall (tc : ToolCall) : Event :=
  mkEvent "" None 0 EventToolCall None None (Some tc) None None None None None None None None None zeroIdentity.
Definition evToolResult (tr : ToolResult) : Event :=
  mkEvent "" None 0 EventToolResult None None None (Some tr) None None None None None None None None zeroIdentity.
Definition evApprovalRequest (ar : ApprovalRequest) : Event :=
  mkEvent "" None 0 EventApprovalRequest None None None None (Some ar) None None None None None None None zeroIdentity.
Definition evUsage (u : Usage) : Event :=
  mkEvent "" None 0 EventUsage None None None None None None (Some u) None None None None None zeroIdentity.
Definition evLifecycle (lc : Lifecycle) : Event :=
  mkEvent "" None 0 EventLifecycle None None None None None None None (Some lc) None None None None zeroIdentity.
Definition evEnd (e : HarnessEnd) : Event :=
  mkEvent "" None 0 EventEnd None None None None None None None None (Some e) None None None zeroIdentity.
Definition evError (e : Error) : Event :=
  mkEvent "" None 0 EventError None None None None None None None None None (Some e) None None zeroIdentity.
Definition evExecutionStart (es : ExecutionStart) : Event :=
  mkEvent "" None 0 EventExecutionStart None None None None None None None None None None (Some es) None zeroIdentity.

(** [ev.ExecutionID = id]. *)
Definition setExecutionID (id : string) (e : Event) : Event :=
  mkEvent id (Timestamp e) (SchemaVersion e) (Kind e) (ev_Message e) (ev_ModelCall e) (ev_ToolCall e)
    (ev_Result e) (ev_Approval e) (ev_ApprovalResult e) (ev_Usage e) (ev_Lifecycle e) (ev_End e)
    (ev_Err e) (ev_ExecutionStart e) (ev_Parked e) (Actor e).

(** [ToolResult] field updates the controller performs on its copies. *)
Definition setResultID (id : string) (r : ToolResult) : ToolResult :=
  mkToolResult id (tr_Output r) (OutputURI r) (OutputDigest r) (IsError r) (tr_Error r) (Content r)
    (Code r) (ApprovalRequestSeq r) (ApprovalDecisionSeq r) (Approval r).
Definition setResultError (text : string) (r : ToolResult) : ToolResult :=
  mkToolResult (tr_ID r) (tr_Output r) (OutputURI r) (OutputDigest r) true text (Content r)
    (Code r) (ApprovalRequestSeq r) (ApprovalDecisionSeq r) (Approval r).
Definition setResultCode (c : ToolResultCode) (r : ToolResult) : ToolResult :=
  mkToolResult (tr_ID r) (tr_Output r) (OutputURI r) (OutputDigest r) (IsError r) (tr_Error r) (Content r)
    c (ApprovalRequestSeq r) (ApprovalDecisionSeq r) (Approval r).
Definition setResultSeqs (rq dq : Z) (r : ToolResult) : ToolResult :=
  mkToolResult (tr_ID r) (tr_Output r) (OutputURI r) (OutputDigest r) (IsError r) (tr_Error r) (Content r)
    (Code r) rq dq (Approval r).
Definition setResultApproval (a : option ApprovalResult) (r : ToolResult) : ToolResult :=
  mkToolResult (tr_ID r) (tr_Output r) (OutputURI r) (OutputDigest r) (IsError r) (tr_Error r) (Content r)
    (Code r) (ApprovalRequestSeq r) (ApprovalDecisionSeq r) a.

(** [TextMessage(role, text)]. *)
Definition TextMessage (role text : string) : Message :=
  mkMessage role [mkPart (Some text) None None None None None].

(** [Message.Text]: the concatenated text parts. *)
Definition Text (m : Message) : string :=
  fold_left (fun s p => match part_Text p with Some t => (s +:+ t)%string | None => s end) (Parts m) ""%string.

(** ** Lemmas *)

Lemma Text_TextMessage role text : Text (TextMessage role text) = text.
Proof. done. Qed.

Lemma setExecutionID_Kind id e : Kind (setExecutionID id e) = Kind e.
Proof. done. Qed.

#[export] Hint Rewrite Text_TextMessage setExecutionID_Kind : agent_rw.
