(* ===== verification/Canon.v ===== *)
(** * Package canon: the canonical serialisation behind content_hash (canon/canon.go)

    The first part is SHA-256, the second the bytes it is applied to. [protojson] and the JCS transformation are third-party: they are the operations of the
    [Encoding] class. The JSON envelope, SHA-256 and the hexadecimal text are computed. *)
From S2P Require Import Prelude GoErrors Api.

(** * SHA-256 (crypto/sha256 of the Go standard library)

    The 32-bit compression function of FIPS 180-4 over [Z], so that the content hashes of package
    canon are computed by the kernel and compared with the hashes the repository's tests pin. *)

Definition w32 (x : Z) : Z := Z.land x 0xFFFFFFFF.
Definition add32 (x y : Z) : Z := w32 (x + y).
Definition rotr (n x : Z) : Z := Z.lor (Z.shiftr x n) (w32 (Z.shiftl x (32 - n))).

(** The constants of FIPS 180-4 are defined by roots of the first primes: the first 32 bits of the
    fractional parts of the cube roots of 64 primes and of the square roots of 8. *)
Definition is_prime (n : nat) : bool :=
  forallb (fun d => negb (Nat.eqb (n mod d) 0)) (seq 2 (n - 2)).
Definition primes : list Z :=
  map Z.of_nat (filter (fun n => is_prime n = true) (seq 2 310)).

(** Integer cube root by bisection, bit by bit from [2^k]. *)
Fixpoint icbrt (k : nat) (n r : Z) : Z :=
  match k with
  | O => r
  | S k' =>
      let r' := r + 2 ^ Z.of_nat k' in
      icbrt k' n (if r' * r' * r' <=? n then r' else r)
  end.

Definition K256 : list Z :=
  Eval vm_compute in map (fun p => w32 (icbrt 36 (p * 2 ^ 96) 0)) (take 64 primes).

Definition H256 : list Z :=
  Eval vm_compute in map (fun p => w32 (Z.sqrt (p * 2 ^ 64))) (take 8 primes).

(** Big-endian bytes of an [n]-byte integer. *)
Fixpoint be_bytes (n : nat) (x : Z) : list Z :=
  match n with
  | O => []
  | S n' => be_bytes n' (x / 256) ++ [x mod 256]
  end.

(** Padding: 0x80, zeros, and the bit length as 64 bits, up to a multiple of 64 bytes. *)
Definition pad (msg : list Z) : list Z :=
  let len := Z.of_nat (length msg) in
  msg ++ [0x80] ++ replicate (Z.to_nat ((55 - len) mod 64)) 0 ++ be_bytes 8 (8 * len).

(** The 16 big-endian words of a 64-byte block. *)
Fixpoint words (bs : list Z) : list Z :=
  match bs with
  | a :: b :: c :: d :: bs' => (((a * 256 + b) * 256 + c) * 256 + d) :: words bs'
  | _ => []
  end.

(** Message schedule, kept as the reversed list of the words computed so far. *)
Fixpoint schedule (n : nat) (rev_w : list Z) : list Z :=
  match n with
  | O => rev_w
  | S n' =>
      let g i := nth i rev_w 0 in
      let s0 := Z.lxor (Z.lxor (rotr 7 (g 14%nat)) (rotr 18 (g 14%nat))) (Z.shiftr (g 14%nat) 3) in
      let s1 := Z.lxor (Z.lxor (rotr 17 (g 1%nat)) (rotr 19 (g 1%nat))) (Z.shiftr (g 1%nat) 10) in
      schedule n' (w32 (g 15%nat + s0 + g 6%nat + s1) :: rev_w)
  end.

Definition round (st : list Z) (kw : Z * Z) : list Z :=
  match st with
  | [a; b; c; d; e; f; g; h] =>
      let S1 := Z.lxor (Z.lxor (rotr 6 e) (rotr 11 e)) (rotr 25 e) in
      let ch := Z.lxor (Z.land e f) (Z.land (Z.lxor e 0xFFFFFFFF) g) in
      let t1 := w32 (h + S1 + ch + fst kw + snd kw) in
      let S0 := Z.lxor (Z.lxor (rotr 2 a) (rotr 13 a)) (rotr 22 a) in
      let maj := Z.lxor (Z.lxor (Z.land a b) (Z.land a c)) (Z.land b c) in
      [add32 t1 (add32 S0 maj); a; b; c; add32 d t1; e; f; g]
  | _ => st
  end.

Definition compress (st block : list Z) : list Z :=
  let w := reverse (schedule 48 (reverse (words block))) in
  zip_with add32 st (fold_left round (zip K256 w) st).

Fixpoint blocks (n : nat) (st msg : list Z) : list Z :=
  match n with
  | O => st
  | S n' => blocks n' (compress st (take 64 msg)) (drop 64 msg)
  end.

(** [sha256.Sum256]: the 32-byte digest of a byte sequence. *)
Definition Sum256 (msg : list Z) : list Z :=
  let p := pad msg in
  flat_map (be_bytes 4) (blocks (length p / 64)%nat H256 p).

Example sha256_empty :
  hexEncode (Sum256 []) = "e3b0c44298fc1c149afbf4c8996fb92427ae41e4649b934ca495991b7852b855"%string.
Proof. vm_compute. reflexivity. Qed.

Example sha256_abc :
  hexEncode (Sum256 (bytesOf "abc")) = "ba7816bf8f01cfea414140de5dae2223b00361a396177a9cb410ff61f20015ad"%string.
Proof. vm_compute. reflexivity. Qed.

(** Digests are bytes, so their hexadecimal text determines them. *)
Lemma be_bytes_range n x : Forall (fun b => 0 <= b < 256) (be_bytes n x).
Proof.
  revert x. induction n as [|n IH]; intros x; simpl; [constructor|].
  apply Forall_app. split; [apply IH|]. repeat constructor; apply Z.mod_pos_bound; lia.
Qed.

Lemma Sum256_bytes msg : Forall (fun b => 0 <= b < 256) (Sum256 msg).
Proof.
  unfold Sum256. induction (blocks _ _ _) as [|w ws IH]; cbn [flat_map]; [constructor|].
  apply Forall_app. split; [apply be_bytes_range|done].
Qed.

(** * The canonical bytes *)
(** The serialisers canon calls: [marshalOpts.Marshal(wire.EventToProto(ev))] (compacted, as
    [json.Marshal] embeds it) and [jcs.Transform]. *)
Class Encoding := {
  marshalEvent : Event -> res (list Z);
  jcsTransform : list Z -> res (list Z);
}.

(** [encoding/json]'s escaping of one ASCII character inside a string literal; bytes above 127 are
    copied (valid UTF-8 other than U+2028 and U+2029 is emitted verbatim). *)
Definition jsonEscape (c : Z) : list Z :=
  let u00 := bytesOf "\u00" ++ bytesOf (hexEncode [c]) in
  if (c =? 34) || (c =? 92) then [92; c]
  else if c =? 8 then bytesOf "\b"
  else if c =? 9 then bytesOf "\t"
  else if c =? 10 then bytesOf "\n"
  else if c =? 12 then bytesOf "\f"
  else if c =? 13 then bytesOf "\r"
  else if (c <? 32) || (c =? 38) || (c =? 60) || (c =? 62) then u00
  else [c].

Definition jsonString (s : string) : list Z := [34] ++ flat_map jsonEscape (bytesOf s) ++ [34].

(** A JSON object with members already in the order [json.Marshal] writes them. *)
Definition jsonMember (k : string) (v : list Z) : list Z := jsonString k ++ [58] ++ v.
Fixpoint jsonMembers (ms : list (list Z)) : list Z :=
  match ms with
  | [] => []
  | [m] => m
  | m :: ms' => m ++ [44] ++ jsonMembers ms'
  end.
Definition jsonObject (ms : list (list Z)) : list Z := [123] ++ jsonMembers ms ++ [125].

Section Canon.
Context `{Encoding}.

(** [canon.Event]. *)
Definition canonEvent (ev : Event) : res (list Z) :=
  ej ← marshalEvent ev;
  jcsTransform ej.

(** The envelope object: [json.Marshal] sorts the map keys event, prev_hash, seq. *)
Definition envelope (prevHash : string) (seq : Z) (ej : list Z) : list Z :=
  jsonObject [jsonMember "event" ej; jsonMember "prev_hash" (jsonString prevHash);
              jsonMember "seq" (jsonString (FormatInt seq))].

(** [canon.Record]. *)
Definition canonRecord (prevHash : string) (seq : Z) (ev : Event) : res (list Z) :=
  ej ← marshalEvent ev;
  jcsTransform (envelope prevHash seq ej).

(** [canon.HashRecord]: lowercase-hex SHA-256 over the canonical record bytes. *)
Definition HashRecord (prevHash : string) (seq : Z) (ev : Event) : res string :=
  b ← canonRecord prevHash seq ev;
  mret (hexEncode (Sum256 b)).
End Canon.

(** A content hash, or the empty text that starts a chain. *)
Definition isHashText (p : string) : Prop :=
  p = EmptyString \/ exists b, p = hexEncode (Sum256 b).

(** What the chain relies on: canonical records are bytes, and RFC 8785 keeps the JSON value, so they
    determine the prev_hash member they were built from. *)
Class EncodingLaws `{Encoding} : Prop := {
  canonRecord_bytes : forall p s e b, canonRecord p s e = Ok b -> Forall isByte b;
  canonRecord_prev : forall p s e p' s' e' b, isHashText p -> isHashText p' ->
    canonRecord p s e = Ok b -> canonRecord p' s' e' = Ok b -> p = p';
}.

(** ** A concrete instance: events given with their canonical proto3-JSON, on which JCS is the
    identity. *)
Definition deleteEventExample : Event :=
  mkEvent "" (Some 1700000000123456789) 1 EventLifecycle None None None None None None None
    (Some (mkLifecycle LifecycleDelete "" None)) None None None None zeroIdentity.

(** The double-quote character, written by its code. *)
Definition dq : string := String (ascii_of_nat 34) EmptyString.
Definition quoted (s : string) : string := (dq +:+ s +:+ dq)%string.

Definition deleteEventJSON : string :=
  ("{" +:+ quoted "kind" +:+ ":" +:+ quoted "EVENT_LIFECYCLE" +:+ ","
   +:+ quoted "lifecycle" +:+ ":{" +:+ quoted "kind" +:+ ":" +:+ quoted "LIFECYCLE_DELETE" +:+ "},"
   +:+ quoted "schema_version" +:+ ":1,"
   +:+ quoted "ts" +:+ ":" +:+ quoted "2023-11-14T22:13:20.123456789Z" +:+ "}")%string.

(** A serialiser for examples: the pinned DELETE event gets its real JSON, and any other event a
    short object that names its texts. *)
Definition exampleJSON (ev : Event) : list Z :=
  match Kind ev with
  | EventLifecycle => bytesOf deleteEventJSON
  | _ => jsonObject [jsonMember "id" (jsonString (ExecutionID ev));
                     jsonMember "text" (jsonString (default EmptyString (Text <$> ev_Message ev)))]
  end.

Definition exampleEncoding : Encoding :=
  {| marshalEvent := fun ev => Ok (exampleJSON ev); jcsTransform := fun b => Ok b |}.

(** ** Lemmas *)

(** The hash of the DELETE record that eventlog's TestDeleteRecordProtoPreservesHash pins. *)
Example HashRecord_pinned :
  HashRecord (H := exampleEncoding) "" 1 deleteEventExample
  = Ok "bfbda987672b922ac194edadeec95fad94093740ab2a6bf9786f09c4a56d3d90"%string.
Proof. vm_compute. reflexivity. Qed.

Lemma hexDigit_plain d : 0 <= d < 16 -> 48 <= Z.of_nat (nat_of_ascii (hexDigit d)) <= 102.
Proof.
  intros Hd. unfold hexDigit. destruct (Z.ltb_spec d 10); rewrite nat_ascii_embedding by lia; lia.
Qed.

Lemma hexDigit_no_amp d : 0 <= d < 16 ->
  let c := Z.of_nat (nat_of_ascii (hexDigit d)) in c <> 60 /\ c <> 62 /\ c <> 92.
Proof.
  intros Hd. unfold hexDigit. destruct (Z.ltb_spec d 10); rewrite nat_ascii_embedding by lia; lia.
Qed.

Lemma jsonEscape_hexDigit d : 0 <= d < 16 ->
  jsonEscape (Z.of_nat (nat_of_ascii (hexDigit d))) = [Z.of_nat (nat_of_ascii (hexDigit d))].
Proof.
  intros Hd. pose proof (hexDigit_plain d Hd). pose proof (hexDigit_no_amp d Hd) as (?&?&?).
  unfold jsonEscape. repeat (rewrite (proj2 (Z.eqb_neq _ _)) by lia).
  by rewrite (proj2 (Z.ltb_ge _ _)) by lia.
Qed.

(** Hexadecimal text is written verbatim inside a JSON string. *)
Lemma jsonEscape_hex bs : Forall (fun b => 0 <= b < 256) bs ->
  flat_map jsonEscape (bytesOf (hexEncode bs)) = bytesOf (hexEncode bs) /\
  34 ∉ bytesOf (hexEncode bs).
Proof.
  induction 1 as [|b bs Hb _ [IH1 IH2]]; [split; [done|apply not_elem_of_nil]|].
  destruct (nibble_bounds b Hb) as [Hh Hl]. cbn [hexEncode bytesOf flat_map].
  rewrite !jsonEscape_hexDigit by done. cbn [app]. rewrite IH1. split; [done|].
  pose proof (hexDigit_plain _ Hh). pose proof (hexDigit_plain _ Hl).
  rewrite !not_elem_of_cons. repeat split; [lia..|done].
Qed.

Lemma jsonString_hash p : isHashText p ->
  jsonString p = [34] ++ bytesOf p ++ [34] /\ 34 ∉ bytesOf p.
Proof.
  intros [->|[b ->]]; [split; [done|apply not_elem_of_nil]|].
  destruct (jsonEscape_hex (Sum256 b) (Sum256_bytes b)) as [H1 H2].
  unfold jsonString. by rewrite H1.
Qed.

(** Reading up to the first quote is unambiguous. *)
Lemma quote_split (q : Z) (a b x y : list Z) :
  q ∉ a -> q ∉ b -> a ++ q :: x = b ++ q :: y -> a = b /\ x = y.
Proof.
  revert b. induction a as [|c a IH]; intros [|d b] Ha Hb Heq; simpl in Heq.
  - by injection Heq.
  - injection Heq as <- _. set_solver.
  - injection Heq as -> _. set_solver.
  - injection Heq as -> Heq. destruct (IH b) as [-> ->]; set_solver.
Qed.

Lemma digits_no_quote fuel n acc : 34 ∉ bytesOf acc -> 34 ∉ bytesOf (pos_digits fuel n acc).
Proof.
  revert n acc. induction fuel as [|fuel IH]; intros n acc Hacc; cbn [pos_digits]; [done|].
  assert (34 ∉ bytesOf (String (ascii_of_nat (48 + Z.to_nat (n mod 10))) acc)).
  { cbn [bytesOf]. pose proof (Z.mod_pos_bound n 10). rewrite nat_ascii_embedding by lia.
    rewrite not_elem_of_cons. split; [lia|done]. }
  destruct (_ =? _); [done|by apply IH].
Qed.

Lemma FormatInt_no_quote n : 34 ∉ bytesOf (FormatInt n).
Proof.
  assert (34 ∉ bytesOf EmptyString) by apply not_elem_of_nil.
  unfold FormatInt. destruct (_ <? _); [|by apply digits_no_quote].
  cbn [bytesOf]. rewrite not_elem_of_cons. split; [done|by apply digits_no_quote].
Qed.

Lemma FormatInt_plain n : flat_map jsonEscape (bytesOf (FormatInt n)) = bytesOf (FormatInt n).
Proof.
  assert (Hd : forall fuel m acc, flat_map jsonEscape (bytesOf acc) = bytesOf acc ->
    flat_map jsonEscape (bytesOf (pos_digits fuel m acc)) = bytesOf (pos_digits fuel m acc)).
  { induction fuel as [|fuel IH]; intros m acc Hacc; cbn [pos_digits]; [done|].
    pose proof (Z.mod_pos_bound m 10).
    assert (flat_map jsonEscape (bytesOf (String (ascii_of_nat (48 + Z.to_nat (m mod 10))) acc))
            = bytesOf (String (ascii_of_nat (48 + Z.to_nat (m mod 10))) acc)).
    { cbn [bytesOf flat_map]. rewrite nat_ascii_embedding by lia. rewrite Hacc.
      unfold jsonEscape. repeat (rewrite (proj2 (Z.eqb_neq _ _)) by lia).
      by rewrite (proj2 (Z.ltb_ge _ _)) by lia. }
    destruct (_ =? _); [done|by apply IH]. }
  unfold FormatInt. destruct (_ <? _); [|by apply Hd].
  cbn [bytesOf flat_map]. by rewrite Hd.
Qed.

(** The envelope text determines the prev_hash and the sequence text it was built from. *)
Lemma envelope_prev p s ej p' s' ej' : isHashText p -> isHashText p' ->
  envelope p s ej = envelope p' s' ej' -> p = p'.
Proof.
  intros Hp Hp' Heq. apply (f_equal reverse) in Heq. unfold envelope, jsonObject, jsonMembers in Heq.
  destruct (jsonString_hash p Hp) as [Ep Qp], (jsonString_hash p' Hp') as [Ep' Qp'].
  unfold jsonMember in Heq. rewrite Ep, Ep' in Heq. clear Ep Ep'.
  unfold jsonString in Heq. rewrite !FormatInt_plain in Heq.
  rewrite !reverse_app in Heq. change (reverse [34]) with [34] in Heq.
  rewrite <- !app_assoc in Heq. simpl in Heq. injection Heq as Heq.
  apply quote_split in Heq as [_ Heq];
    [|rewrite elem_of_reverse; apply FormatInt_no_quote..].
  injection Heq as Heq.
  apply quote_split in Heq as [Heq _]; [|by rewrite elem_of_reverse..].
  apply (f_equal reverse) in Heq. rewrite !reverse_involutive in Heq. by apply bytesOf_inj.
Qed.

(** JSON texts are bytes. *)
Lemma jsonEscape_bytes b : isByte b -> Forall isByte (jsonEscape b).
Proof.
  intros Hb. unfold jsonEscape. repeat (case_match; [first [apply bytesOf_isByte|apply Forall_app_2; apply bytesOf_isByte|
    repeat constructor; unfold isByte in *; lia]|]). by constructor.
Qed.
Lemma jsonString_bytes s : Forall isByte (jsonString s).
Proof.
  unfold jsonString. apply Forall_app_2; [by repeat constructor|]. apply Forall_app_2; [|by repeat constructor].
  induction (bytesOf_isByte s) as [|b bs Hb _ IH]; [constructor|]. apply Forall_app_2; [by apply jsonEscape_bytes|done].
Qed.
Lemma jsonMember_bytes k v : Forall isByte v -> Forall isByte (jsonMember k v).
Proof. intros Hv. apply Forall_app_2; [apply jsonString_bytes|]. by constructor. Qed.
Lemma jsonObject_bytes ms : Forall (Forall isByte) ms -> Forall isByte (jsonObject ms).
Proof.
  intros Hms. unfold jsonObject. apply Forall_app_2; [by repeat constructor|]. apply Forall_app_2; [|by repeat constructor].
  induction Hms as [|m ms Hm Hms IH]; [constructor|]. destruct ms; [done|]. apply Forall_app_2; [done|]. by constructor.
Qed.
Lemma envelope_bytes p s ej : Forall isByte ej -> Forall isByte (envelope p s ej).
Proof.
  intros He. apply jsonObject_bytes. repeat (constructor; [apply jsonMember_bytes; first [done|apply jsonString_bytes]|]). constructor.
Qed.
Lemma exampleJSON_bytes ev : Forall isByte (exampleJSON ev).
Proof.
  unfold exampleJSON. destruct (Kind ev); try apply bytesOf_isByte; apply jsonObject_bytes;
    repeat (constructor; [apply jsonMember_bytes, jsonString_bytes|]); constructor.
Qed.

Lemma exampleEncoding_laws : EncodingLaws (H := exampleEncoding).
Proof.
  constructor.
  - intros p s e b Hb. cbn in Hb. inv_ok. apply envelope_bytes, exampleJSON_bytes.
  - intros p s e p' s' e' b Hp Hp' H1 H2. cbn in H1, H2. inv_ok.
    eapply envelope_prev; [exact Hp|exact Hp'|exact H0].
Qed.

Lemma HashRecord_isHashText `{Encoding} p s e h : HashRecord p s e = Ok h -> isHashText h.
Proof.
  unfold HashRecord. intros Hh. apply result_bind_Ok in Hh as (b & _ & Hh).
  injection Hh as <-. right. by exists b.
Qed.

#[export] Hint Resolve HashRecord_isHashText : agent.
