(* ===== verification/EventLog.v ===== *)
(** * Package eventlog: the in-memory event log and the Store contract (eventlog/eventlog.go, store.go)

    [Log] is the mutex-protected struct; each method holds the mutex for its whole body, so a method
    is one atomic state transition. [Store] is the interface the controller depends on, [StoreLaws]
    what every implementation promises about its journal and fence. *)
From S2P Require Import Prelude GoErrors Api Canon.

(** [eventlog.Record]. *)
Record Record_ := mkRecord {
  Seq : Z;
  PrevHash : string;
  Hash : string;
  Fence : Z;
  rec_Event : Event;
}.

(** [eventlog.Log] (the mutex is the atomicity of the methods). *)
Record Log := mkLog {
  records : list Record_;
  log_fence : Z;
}.

Definition setEvent (ev : Event) (r : Record_) : Record_ :=
  mkRecord (Seq r) (PrevHash r) (Hash r) (Fence r) ev.

Section Log.
Context `{Encoding}.

(** [New] and [NewFrom]: the copied prefix keeps its records; the fence starts at zero. *)
Definition New : Log := mkLog [] 0.
Definition NewFrom (prefix : list Record_) : Log := mkLog prefix 0.

(** [headLocked]: the sequence of the last record, 0 when empty. *)
Definition headOf (rs : list Record_) : Z :=
  match list.last rs with Some r => Seq r | None => 0 end.
Definition Head (l : Log) : Z := headOf (records l).

(** [prev]: the hash the next record links to. *)
Definition lastHash (rs : list Record_) : string :=
  match list.last rs with Some r => Hash r | None => EmptyString end.

Definition NewFence (l : Log) : Log * Z :=
  let f := log_fence l + 1 in (mkLog (records l) f, f).

(** [Append]: compare-and-swap on the head, then the fence, then the chained record. *)
Definition Append (expectedLastSeq fence : Z) (ev : Event) (l : Log) : Log * res Record_ :=
  if negb (expectedLastSeq =? Head l) then (l, Err (ESentinel ErrConflict))
  else if fence <? log_fence l then (l, Err (ESentinel ErrFenced))
  else
    let prev := lastHash (records l) in
    let seq := Head l + 1 in
    match HashRecord prev seq ev with
    | Err e => (l, Err e)
    | Ok hash =>
        let rec := mkRecord seq prev hash fence ev in
        (mkLog (records l ++ [rec]) (log_fence l), Ok rec)
    end.

(** [Read]: the records with Seq >= fromSeq, in order. *)
Definition readFrom (fromSeq : Z) (rs : list Record_) : list Record_ :=
  filter (fun r => fromSeq <= Seq r) rs.
Definition Read (l : Log) (fromSeq : Z) : list Record_ := readFrom fromSeq (records l).
Definition Snapshot_ (l : Log) : list Record_ := Read l 1.

(** The loop of [Verify], from the running previous hash; the index is only part of the text. *)
Fixpoint verifyFrom (prev : string) (rs : list Record_) : option goerr :=
  match rs with
  | [] => None
  | r :: rs' =>
      if negb (bool_decide (PrevHash r = prev))
      then Some (EText "eventlog: broken chain (prev_hash mismatch)")
      else match HashRecord prev (Seq r) (rec_Event r) with
           | Err e => Some e
           | Ok want =>
               if negb (bool_decide (Hash r = want))
               then Some (EText "eventlog: content hash mismatch")
               else verifyFrom (Hash r) rs'
           end
  end.
Definition Verify (l : Log) : option goerr := verifyFrom EmptyString (records l).
End Log.

(** ** The Store interface *)

(** [eventlog.Store] plus the optional [CheckWritable] preflight (a store without it is writable). *)
Class Store (S : Type) := {
  st_Append : Z -> Z -> Event -> M S goerr Record_;
  st_Head : M S goerr Z;
  st_NewFence : M S goerr Z;
  st_Read : Z -> M S goerr (list Record_);
  st_Verify : M S goerr unit;
  st_CheckWritable : M S goerr unit;
}.

(** The observable state of a store: its committed records, its fencing token, and the form in
    which an appended event is read back. *)
Class StoreView (S : Type) := {
  journal : S -> list Record_;
  curFence : S -> Z;
  persisted : Event -> Event;
}.

(** What a store promises. Any operation may fail for reasons of its own (I/O); a failure commits
    nothing. *)
Class StoreLaws (S : Type) `{Store S} `{StoreView S} : Prop := {
  append_law : forall exp f ev s s' r, st_Append exp f ev s = (s', r) ->
    curFence s' = curFence s /\
    match r with
    | Ok rec => exp = headOf (journal s) /\ curFence s <= f /\
        Seq rec = headOf (journal s) + 1 /\ PrevHash rec = lastHash (journal s) /\
        Fence rec = f /\ rec_Event rec = ev /\
        journal s' = journal s ++ [setEvent (persisted ev) rec]
    | Err _ => journal s' = journal s
    end;
  head_law : forall s s' r, st_Head s = (s', r) ->
    journal s' = journal s /\ curFence s' = curFence s /\
    match r with Ok h => h = headOf (journal s) | Err _ => True end;
  fence_law : forall s s' r, st_NewFence s = (s', r) ->
    journal s' = journal s /\
    match r with
    | Ok f => f = curFence s + 1 /\ curFence s' = f
    | Err _ => curFence s' = curFence s
    end;
  read_law : forall from s s' r, st_Read from s = (s', r) ->
    journal s' = journal s /\ curFence s' = curFence s /\
    match r with Ok rs => rs = readFrom from (journal s) | Err _ => True end;
  writable_law : forall s s' r, st_CheckWritable s = (s', r) ->
    journal s' = journal s /\ curFence s' = curFence s;
}.

(** [AsStore]: the in-memory log as a Store; its reads cannot fail. *)
#[export] Instance Log_Store `{Encoding} : Store Log := {|
  st_Append := Append;
  st_Head := fun l => (l, Ok (Head l));
  st_NewFence := fun l => let '(l', f) := NewFence l in (l', Ok f);
  st_Read := fun from l => (l, Ok (Read l from));
  st_Verify := fun l => (l, match Verify l with Some e => Err e | None => Ok tt end);
  st_CheckWritable := fun l => (l, Ok tt);
|}.

#[export] Instance Log_StoreView : StoreView Log := {|
  journal := records; curFence := log_fence; persisted := fun ev => ev;
|}.

(** ** Chains *)

(** Sequences count up from [n + 1] without a gap. *)
Fixpoint contiguous (n : Z) (rs : list Record_) : Prop :=
  match rs with
  | [] => True
  | r :: rs' => Seq r = n + 1 /\ contiguous (n + 1) rs'
  end.

(** A log any sequence of operations can produce from an empty one: appends, new fences, and logs
    seeded with a prefix of another ([NewFrom]). *)
Inductive log_step `{Encoding} : Log -> Log -> Prop :=
  | step_append exp f ev l l' rec : Append exp f ev l = (l', Ok rec) -> log_step l l'
  | step_fence l l' f : NewFence l = (l', f) -> log_step l l'
  | step_fork l l' n : l' = NewFrom (take n (records l)) -> log_step l l'.

Inductive reachable `{Encoding} : Log -> Prop :=
  | reach_new : reachable New
  | reach_step l l' : reachable l -> log_step l l' -> reachable l'.

(** One operation on a store, whatever it answers. *)
Inductive store_step {S} `{Store S} : S -> S -> Prop :=
  | ss_append exp f ev s s' r : st_Append exp f ev s = (s', r) -> store_step s s'
  | ss_head s s' r : st_Head s = (s', r) -> store_step s s'
  | ss_fence s s' r : st_NewFence s = (s', r) -> store_step s s'
  | ss_read from s s' r : st_Read from s = (s', r) -> store_step s s'
  | ss_writable s s' r : st_CheckWritable s = (s', r) -> store_step s s'.

(** Two records carry the same link, content hash and canonical bytes. *)
Definition same_record `{Encoding} (r r' : Record_) : Prop :=
  PrevHash r = PrevHash r' /\ Hash r = Hash r' /\
  canonRecord (PrevHash r) (Seq r) (rec_Event r) = canonRecord (PrevHash r') (Seq r') (rec_Event r').

(** Two journals exhibit a SHA-256 collision: at one position their canonical records are different byte
    strings with one digest. *)
Definition collide `{Encoding} (rs rs' : list Record_) : Prop :=
  exists i r r' b b', rs !! i = Some r /\ rs' !! i = Some r' /\
    canonRecord (PrevHash r) (Seq r) (rec_Event r) = Ok b /\ canonRecord (PrevHash r') (Seq r') (rec_Event r') = Ok b' /\
    Forall isByte b /\ Forall isByte b' /\ b <> b' /\ Sum256 b = Sum256 b'.

(** ** Lemmas *)

Section lemmas.
Context `{Encoding}.

Lemma headOf_app rs r : headOf (rs ++ [r]) = Seq r.
Proof. unfold headOf. by rewrite last_snoc. Qed.

Lemma lastHash_app rs r : lastHash (rs ++ [r]) = Hash r.
Proof. unfold lastHash. by rewrite last_snoc. Qed.

Lemma contiguous_app n rs rs' :
  contiguous n (rs ++ rs') <-> contiguous n rs /\ contiguous (n + Z.of_nat (length rs)) rs'.
Proof.
  revert n. induction rs as [|r rs IH]; intros n; simpl.
  - rewrite Z.add_0_r. tauto.
  - rewrite IH. replace (n + 1 + Z.of_nat (length rs)) with (n + Z.of_nat (S (length rs))) by lia.
    tauto.
Qed.

Lemma contiguous_head rs : contiguous 0 rs -> headOf rs = Z.of_nat (length rs).
Proof.
  destruct rs as [|r rs] using rev_ind; intros Hc; [done|].
  apply contiguous_app in Hc as [_ [Hc _]]. rewrite headOf_app, length_app. simpl. lia.
Qed.

Lemma contiguous_snoc rs r : contiguous 0 rs -> Seq r = headOf rs + 1 -> contiguous 0 (rs ++ [r]).
Proof.
  intros Hc Hs. apply contiguous_app. split; [done|]. rewrite contiguous_head in Hs by done.
  simpl. split; [lia|done].
Qed.

Lemma contiguous_readFrom_all rs n : 0 <= n -> contiguous n rs -> readFrom 1 rs = rs.
Proof.
  intros Hn Hc. apply filter_all. revert n Hn Hc.
  induction rs as [|r rs IH]; intros n Hn Hc; constructor.
  - destruct Hc as [-> _]. lia.
  - apply (IH (n + 1)); [lia|apply Hc].
Qed.

(** The hash a chain that starts from [p] ends with. *)
Definition endHash (p : string) (rs : list Record_) : string :=
  match list.last rs with Some r => Hash r | None => p end.

Lemma endHash_cons p r rs : endHash p (r :: rs) = endHash (Hash r) rs.
Proof. destruct rs as [|r' rs _] using rev_ind; [done|]. unfold endHash. by rewrite app_comm_cons, !last_snoc. Qed.

(** The inversion of a verified chain's first link. *)
Lemma verifyFrom_cons p r rs : verifyFrom p (r :: rs) = None <->
  PrevHash r = p /\ HashRecord p (Seq r) (rec_Event r) = Ok (Hash r) /\ verifyFrom (Hash r) rs = None.
Proof.
  simpl. case_bool_decide as Hp; simpl; [|split; [done|naive_solver]].
  destruct (HashRecord _ _ _) as [w|e]; [|split; [done|naive_solver]].
  case_bool_decide as Hw; simpl; subst; naive_solver.
Qed.

Lemma verifyFrom_app p rs rs' :
  verifyFrom p (rs ++ rs') = None <-> verifyFrom p rs = None /\ verifyFrom (endHash p rs) rs' = None.
Proof.
  revert p. induction rs as [|r rs IH]; intros p; [simpl; tauto|].
  rewrite <- app_comm_cons, !verifyFrom_cons, IH, endHash_cons. tauto.
Qed.

Lemma verifyFrom_take p n rs : verifyFrom p rs = None -> verifyFrom p (take n rs) = None.
Proof. intros Hv. rewrite <- (take_drop n rs) in Hv. by apply verifyFrom_app in Hv as [? _]. Qed.

Lemma Append_Ok exp f ev l l' rec : Append exp f ev l = (l', Ok rec) <->
  exists h, exp = Head l /\ log_fence l <= f /\
  HashRecord (lastHash (records l)) (Head l + 1) ev = Ok h /\
  rec = mkRecord (Head l + 1) (lastHash (records l)) h f ev /\
  l' = mkLog (records l ++ [rec]) (log_fence l).
Proof.
  unfold Append. destruct (Z.eqb_spec exp (Head l)) as [->|]; simpl; [|split; naive_solver].
  destruct (Z.ltb_spec f (log_fence l)); [split; [done|intros (?&?&?&?); lia]|].
  destruct (HashRecord _ _ _) as [h|e]; [|split; naive_solver].
  split; [intros; inv_ok; naive_solver|].
  intros (h' & _ & _ & [= ->] & -> & ->). done.
Qed.

Lemma Append_Err exp f ev l l' e : Append exp f ev l = (l', Err e) -> l' = l.
Proof. unfold Append. intros. repeat (break_match_in H0; inv_ok; try done). Qed.

(** The last link of a verified chain. *)
Lemma verifyFrom_snoc p rs r : verifyFrom p (rs ++ [r]) = None <->
  verifyFrom p rs = None /\ PrevHash r = endHash p rs /\
  HashRecord (endHash p rs) (Seq r) (rec_Event r) = Ok (Hash r).
Proof. rewrite verifyFrom_app, verifyFrom_cons. simpl. tauto. Qed.

(** The invariant of every reachable log. *)
Definition log_wf (l : Log) : Prop :=
  contiguous 0 (records l) /\ Verify l = None /\ 0 <= log_fence l.

Lemma log_step_append exp f ev l :
  is_ok (snd (Append exp f ev l)) = true -> log_step l (fst (Append exp f ev l)).
Proof.
  intros Hok. destruct (Append exp f ev l) as [l' [rec|e]] eqn:HA; [|done].
  by eapply step_append.
Qed.

Lemma log_wf_step l l' : log_wf l -> log_step l l' -> log_wf l'.
Proof.
  intros (Hc & Hv & Hf) Hs.
  inversion Hs as [exp f ev l0 l0' rec HA|l0 l0' f HN|l0 l0' n HF]; subst l0 l0'.
  - apply Append_Ok in HA as (h & _ & _ & HH & -> & ->). simpl in *. unfold log_wf, Verify. simpl.
    split; [by apply contiguous_snoc|]. split; [|done]. by apply verifyFrom_snoc.
  - unfold NewFence in HN. inv_ok. unfold log_wf, Verify in *. simpl. split; [done|]. split; [done|lia].
  - subst l'. unfold log_wf, Verify, NewFrom. simpl. split; [|split; [by apply verifyFrom_take|lia]].
    rewrite <- (take_drop n (records l)) in Hc. by apply contiguous_app in Hc as [? _].
Qed.

Lemma reachable_wf l : reachable l -> log_wf l.
Proof. induction 1; [by repeat split|by eapply log_wf_step]. Qed.

Lemma verify_endHash p rs : isHashText p -> verifyFrom p rs = None -> isHashText (endHash p rs).
Proof.
  intros Hp. destruct rs as [|r rs _] using rev_ind; [done|]. intros Hv.
  apply verifyFrom_snoc in Hv as (_ & _ & Hh). unfold endHash. rewrite last_snoc.
  eauto using HashRecord_isHashText.
Qed.

Lemma HashRecord_inv p s e h : HashRecord p s e = Ok h ->
  exists b, canonRecord p s e = Ok b /\ h = hexEncode (Sum256 b).
Proof.
  unfold HashRecord. intros Hh. apply result_bind_Ok in Hh as (b & Hb & Hh).
  injection Hh as <-. eauto.
Qed.

(** Two hashed records with the same content hash have the same canonical bytes, or collide. *)
Lemma HashRecord_agree p s e p' s' e' h :
  HashRecord p s e = Ok h -> HashRecord p' s' e' = Ok h ->
  exists b b', canonRecord p s e = Ok b /\ canonRecord p' s' e' = Ok b' /\ Sum256 b = Sum256 b'.
Proof.
  intros (b & Hb & ->)%HashRecord_inv (b' & Hb' & Heq)%HashRecord_inv.
  apply hexEncode_inj in Heq; [|apply Sum256_bytes..]. by exists b, b'.
Qed.

Lemma collide_app rs rs' tl tl' : collide rs rs' -> collide (rs ++ tl) (rs' ++ tl').
Proof.
  intros (i & r & r' & b & b' & Hr & Hr' & Hrest). exists i, r, r', b, b'.
  split; [by apply lookup_app_l_Some|]. split; [by apply lookup_app_l_Some|done].
Qed.

(** Two verified chains of one length that end in one hash agree link by link, or collide. *)
Lemma chains_agree `{!EncodingLaws} p rs rs' : isHashText p ->
  verifyFrom p rs = None -> verifyFrom p rs' = None -> length rs = length rs' ->
  endHash p rs = endHash p rs' -> Forall2 same_record rs rs' \/ collide rs rs'.
Proof.
  intros Hp. revert rs'. induction rs as [|r rs IH] using rev_ind; intros rs' Hv Hv' Hlen Hh.
  { left. destruct rs'; [constructor|discriminate]. }
  destruct rs' as [|r' rs' _] using rev_ind; [rewrite length_app in Hlen; simpl in Hlen; lia|].
  rewrite !length_app in Hlen. simpl in Hlen.
  apply verifyFrom_snoc in Hv as (Hv & Hpr & Hr). apply verifyFrom_snoc in Hv' as (Hv' & Hpr' & Hr').
  unfold endHash in Hh. rewrite !last_snoc in Hh. rewrite <- Hh in Hr'.
  destruct (HashRecord_agree _ _ _ _ _ _ _ Hr Hr') as (b & b' & Hb & Hb' & Hsum).
  destruct (decide (b = b')) as [<-|Hne].
  - assert (endHash p rs = endHash p rs') as He by (eapply canonRecord_prev; [by apply verify_endHash..|exact Hb|exact Hb']).
    destruct (IH rs') as [IH'|?]; [done..|lia|done| |right; by apply collide_app].
    left. apply Forall2_app; [done|]. constructor; [|constructor].
    unfold same_record. rewrite Hpr, Hpr', Hb, <- He. rewrite He in *. repeat split; congruence.
  - right. exists (length rs), r, r', b, b'. rewrite lookup_app_r, Nat.sub_diag by done.
    replace (length rs) with (length rs') by lia. rewrite lookup_app_r, Nat.sub_diag by done.
    rewrite Hpr, Hpr'. repeat split; try done; by eapply canonRecord_bytes.
Qed.

#[export] Instance Log_StoreLaws : StoreLaws Log.
Proof.
  constructor.
  - intros exp f ev s s' [rec|e] HA; simpl in HA; simpl.
    + apply Append_Ok in HA as (h & -> & Hf & _ & -> & ->). simpl. repeat split; auto.
    + by apply Append_Err in HA as ->.
  - intros s s' r HA. simpl in HA. by inv_ok.
  - intros s s' r HA. simpl in HA. unfold NewFence in HA. by inv_ok.
  - intros from s s' r HA. simpl in HA. by inv_ok.
  - intros s s' r HA. simpl in HA. by inv_ok.
Qed.
End lemmas.

#[export] Hint Resolve contiguous_snoc : agent.
#[export] Hint Rewrite @headOf_app @lastHash_app : agent_rw.

(** ** Any store: monotone journal, fence and head *)

Section store.
Context {S : Type} `{StoreLaws S}.

(** The evolution of a store: the journal only grows, the fence and the head never decrease. *)
Definition evolves (s s' : S) : Prop :=
  (exists tl, journal s' = journal s ++ tl) /\ curFence s <= curFence s' /\
  headOf (journal s) <= headOf (journal s').

Lemma evolves_same s s' :
  journal s' = journal s -> curFence s' = curFence s -> evolves s s'.
Proof. intros Hj Hf. split; [exists []; by rewrite app_nil_r|]. rewrite Hj, Hf. lia. Qed.

Lemma evolves_trans s1 s2 s3 : evolves s1 s2 -> evolves s2 s3 -> evolves s1 s3.
Proof.
  intros [[t1 E1] [? ?]] [[t2 E2] [? ?]]. split; [|lia].
  exists (t1 ++ t2). by rewrite E2, E1, app_assoc.
Qed.

Lemma append_head exp f ev s s' rec : st_Append exp f ev s = (s', Ok rec) ->
  headOf (journal s') = headOf (journal s) + 1.
Proof.
  intros [_ (_ & _ & Hs & _ & _ & _ & Hj)]%append_law. by rewrite Hj, headOf_app.
Qed.

Lemma store_step_evolves s s' : store_step s s' -> evolves s s'.
Proof.
  intros Hs. inversion Hs as [exp f ev ?? r HA|?? r HA|?? r HA|from ?? r HA|?? r HA]; subst.
  - pose proof HA as [Hf Hr]%append_law. destruct r as [rec|e]; [|by apply evolves_same].
    destruct Hr as (_ & _ & _ & _ & _ & _ & Hj). split; [by eexists|].
    rewrite (append_head _ _ _ _ _ _ HA). lia.
  - apply head_law in HA as (? & ? & _). by apply evolves_same.
  - apply fence_law in HA as [Hj Hr]. split; [exists []; by rewrite app_nil_r|].
    rewrite Hj. destruct r; [destruct Hr; lia|lia].
  - apply read_law in HA as (? & ? & _). by apply evolves_same.
  - apply writable_law in HA as [? ?]. by apply evolves_same.
Qed.

Lemma evolves_rtc s s' : rtc store_step s s' -> evolves s s'.
Proof.
  induction 1 as [s|s1 s2 s3 Hs _ IH]; [by apply evolves_same|].
  eapply evolves_trans; [by apply store_step_evolves|done].
Qed.
End store.

#[export] Hint Resolve evolves_same store_step_evolves evolves_rtc : agent.

(** ** Properties *)

(** Every log the package can produce verifies: its hash chain is intact, its sequences count 1, 2,
    ... without a gap, and Head is the number of records. *)
Theorem reachable_log_verifies `{Encoding} (l : Log) :
  reachable l -> Verify l = None /\ contiguous 0 (records l) /\ Head l = Z.of_nat (length (records l)).
Proof.
  intros (Hc & Hv & _)%reachable_wf. repeat split; [done..|]. by apply contiguous_head.
Qed.

(** C13: Tamper evidence: two journals that both pass Verify, have the same length and end in the same
    content hash carry the same links, hashes and canonical record bytes throughout, unless at one
    position their canonical records are two different byte strings with one SHA-256 digest. *)
Theorem tamper_evident `{EncodingLaws} (l l' : Log) :
  Verify l = None -> Verify l' = None -> length (records l) = length (records l') ->
  lastHash (records l) = lastHash (records l') ->
  Forall2 same_record (records l) (records l') \/ collide (records l) (records l').
Proof. intros Hv Hv' Hlen Hh. eapply chains_agree; eauto. by left. Qed.

(** Incarnation fencing, for every store implementation: once NewFence has returned a token, an
    append under an older token is refused and commits nothing, however the log evolved since. *)
Theorem stale_fence_rejected {S} `{StoreLaws S} (s s1 s2 s3 : S) (f g exp : Z) (ev : Event) r :
  st_NewFence s = (s1, Ok f) -> rtc store_step s1 s2 -> g < f ->
  st_Append exp g ev s2 = (s3, r) -> is_ok r = false /\ journal s3 = journal s2.
Proof.
  intros [_ [_ Hf]]%fence_law (_ & Hmono & _)%evolves_rtc Hlt [_ Hr]%append_law.
  destruct r as [rec|e]; [|done]. destruct Hr as (_ & Hle & _). lia.
Qed.

(** Single writer, for every store implementation: an expected head that one append has consumed
    can never be consumed again. *)
Theorem single_writer_cas {S} `{StoreLaws S} (s s1 s2 s3 : S) (f g exp : Z) (ev ev' : Event) rec r :
  st_Append exp f ev s = (s1, Ok rec) -> rtc store_step s1 s2 ->
  st_Append exp g ev' s2 = (s3, r) -> is_ok r = false /\ journal s3 = journal s2.
Proof.
  intros HA (_ & _ & Hmono)%evolves_rtc [_ Hr]%append_law.
  pose proof (append_head _ _ _ _ _ _ HA). apply append_law in HA as [_ [-> _]].
  destruct r as [rec'|e]; [|done]. destruct Hr as (Hexp & _). lia.
Qed.

(** Append-only, for every store implementation: no operation rewrites or removes a committed
    record, and neither the fence nor the head moves backwards. *)
Theorem journal_append_only {S} `{StoreLaws S} (s s' : S) :
  rtc store_step s s' -> exists tl, journal s' = journal s ++ tl /\
    curFence s <= curFence s' /\ headOf (journal s) <= headOf (journal s').
Proof. intros ([tl Htl] & Hf & Hh)%evolves_rtc. eauto. Qed.

(** *** Witnesses *)

Definition textEvent (t : string) : Event := setExecutionID "e" (evMessage EventOutput (TextMessage "assistant" t)).

Section witness.
#[local] Existing Instance exampleEncoding.

Definition exampleLog : Log := fst (Append 0 1 (textEvent "a") (fst (NewFence New))).

Lemma exampleLog_reachable : reachable exampleLog.
Proof.
  apply (reach_step (fst (NewFence New))).
  - apply (reach_step New); [apply reach_new|]. by eapply step_fence.
  - apply log_step_append. vm_compute. reflexivity.
Qed.
End witness.

Lemma reachable_log_verifies_witness :
  let _ := exampleEncoding in Verify exampleLog = None /\ contiguous 0 (records exampleLog) /\
    Head exampleLog = Z.of_nat (length (records exampleLog)).
Proof. apply (reachable_log_verifies (H := exampleEncoding)). apply exampleLog_reachable. Defined.

Lemma tamper_evident_witness :
  Forall2 (same_record (H := exampleEncoding)) (records exampleLog) (records exampleLog) \/
  collide (H := exampleEncoding) (records exampleLog) (records exampleLog).
Proof.
  apply (tamper_evident (H0 := exampleEncoding_laws)); vm_compute; reflexivity.
Defined.

Lemma stale_fence_rejected_witness :
  let st := @Log_Store exampleEncoding in
  is_ok (snd (st_Append (Store := st) 0 0 (textEvent "b") (fst (NewFence New)))) = false.
Proof.
  intros st.
  apply (stale_fence_rejected (H := st) New (fst (NewFence New)) (fst (NewFence New))
    (fst (Append (H := exampleEncoding) 0 0 (textEvent "b") (fst (NewFence New)))) 1 0 0 (textEvent "b"));
    [vm_compute; reflexivity|apply rtc_refl|lia|vm_compute; reflexivity].
Defined.

Lemma single_writer_cas_witness :
  let st := @Log_Store exampleEncoding in
  is_ok (snd (st_Append (Store := st) 0 1 (textEvent "b") exampleLog)) = false.
Proof.
  intros st.
  apply (single_writer_cas (H := st) (fst (NewFence New)) exampleLog exampleLog
    (fst (Append (H := exampleEncoding) 0 1 (textEvent "b") exampleLog)) 1 1 0 (textEvent "a") (textEvent "b")
    (last_or (mkRecord 0 "" "" 0 (event0 EventInput)) (records exampleLog)));
    [vm_compute; reflexivity|apply rtc_refl|vm_compute; reflexivity].
Defined.

Lemma journal_append_only_witness :
  let st := @Log_Store exampleEncoding in
  exists tl, journal exampleLog = journal New ++ tl /\ curFence New <= curFence exampleLog /\
    headOf (journal New) <= headOf (journal exampleLog).
Proof.
  intros st. apply (journal_append_only (H := st) New exampleLog).
  apply rtc_l with (fst (NewFence New)); [by apply (ss_fence (H := st) New _ (Ok 1))|].
  apply rtc_once. apply (ss_append (H := st) 0 1 (textEvent "a") _ _
    (snd (Append (H := exampleEncoding) 0 1 (textEvent "a") (fst (NewFence New))))), surjective_pairing.
Defined.
