(* ===== verification/Executions.v ===== *)
(** * Execution projections of the journal (controller/executions.go, controller/legacy.go)

    The replay projection of a journal: the legacy v0.1.2 prefix without identities, then modern
    events grouped by execution ID in first-seen order. *)
From S2P Require Import Prelude GoErrors Api.

(** [recordedExecution]; [x_start] is -1 for a legacy projection without INPUT. *)
Record recordedExecution := mkExecution {
  x_id : string;
  x_start : Z;
  x_inputs : list Message;
  x_stream : list Event;
  x_completed : bool;
  x_config : bytes;
  x_resumeFromSeq : Z;
  x_hasStart : bool;
  x_inputCount : option Z;
  x_inputRecords : Z;
  x_harness : string;
  x_harnessVersion : string;
  x_legacyEnd : Z;
}.

Definition isLifecycle (e : Event) : bool := bool_decide (Kind e = EventLifecycle).

(** A [fmt.Errorf("%w: ...", ErrInvalidExecutionLog)]. *)
Definition invalidLog (text : string) : goerr := EWrap text (ESentinel ErrInvalidExecutionLog).

(** [legacyBoundaryComplete] on the events before the boundary, given last to first. *)
Fixpoint legacyBoundaryComplete (rev_events : list Event) : bool :=
  match rev_events with
  | [] => true
  | e :: es =>
      if isLifecycle e then legacyBoundaryComplete es
      else match Kind e with EventEnd | EventError => true | _ => false end
  end.

Definition legacyKind (k : EventKind) : bool :=
  match k with
  | EventInput | EventModelCall | EventOutput | EventToolCall | EventToolResult
  | EventUsage | EventEnd | EventError => true
  | _ => false
  end.

(** The loop of [legacyPrefix]: [i] is the index, [rev_before] the events before it, reversed. *)
Fixpoint legacyPrefix_loop (i : nat) (rev_before : list Event) (hasLegacy : bool) (events : list Event)
    : res nat :=
  match events with
  | [] => Ok (if hasLegacy then i else 0%nat)
  | e :: es =>
      if bool_decide (Kind e = EventExecutionStart)
         || (negb (isLifecycle e) && negb (bool_decide (ExecutionID e = EmptyString)))
      then
        if hasLegacy && negb (bool_decide (Kind e = EventExecutionStart))
           && negb (legacyBoundaryComplete rev_before)
        then Err (invalidLog "unfinished legacy prefix")
        else Ok (if hasLegacy then i else 0%nat)
      else if legacyKind (Kind e) then legacyPrefix_loop (S i) (e :: rev_before) true es
      else if isLifecycle e then legacyPrefix_loop (S i) (e :: rev_before) hasLegacy es
      else Err (invalidLog "event is not a legacy event")
  end.

(** [legacyPrefix(events)]: the length of the ID-less prefix. *)
Definition legacyPrefix (events : list Event) : res nat := legacyPrefix_loop 0 [] false events.

Definition legacyEffect (k : EventKind) : bool :=
  match k with EventModelCall | EventOutput | EventToolCall | EventToolResult => true | _ => false end.

Definition isInput (e : Event) : bool := bool_decide (Kind e = EventInput).

(** The messages of the INPUT events that carry one. *)
Definition inputMessages (events : list Event) : list Message :=
  omap ev_Message (filter (fun e => isInput e = true) events).

Definition legacyStream (events : list Event) : list Event :=
  filter (fun e => legacyEffect (Kind e) = true) events.

(** [legacyReplayExecution(events)]. *)
Definition legacyReplayExecution (events : list Event) : recordedExecution :=
  mkExecution "" 0 (inputMessages events) (legacyStream events) false None 0 false None 0 "" ""
    (Z.of_nat (length events)).

(** The scan of [legacyResumeExecution]: the last INPUT and the last END or ERROR, -1 when none. *)
Fixpoint legacyMarks (i : Z) (start lastFinished : Z) (events : list Event) : Z * Z :=
  match events with
  | [] => (start, lastFinished)
  | e :: es =>
      match Kind e with
      | EventInput => legacyMarks (i + 1) i lastFinished es
      | EventEnd | EventError => legacyMarks (i + 1) start i es
      | _ => legacyMarks (i + 1) start lastFinished es
      end
  end.

(** [legacyResumeExecution(events)]: v0.1.2's single-last-INPUT recovery. *)
Definition legacyResumeExecution (events : list Event) : recordedExecution :=
  let '(start, lastFinished) := legacyMarks 0 (-1) (-1) events in
  let n := Z.of_nat (length events) in
  if (start <? 0) || (lastFinished >? start)
  then mkExecution "" start [] [] true None 0 false None 0 "" "" n
  else
    let inputs := match events !! Z.to_nat start with
                  | Some e => match ev_Message e with Some m => [m] | None => [] end
                  | None => [] end in
    mkExecution "" start inputs (legacyStream (drop (Z.to_nat (start + 1)) events)) false None 0
      false None 0 "" "" n.

(** The kinds a modern execution keeps in its effect stream. *)
Definition modernEffect (k : EventKind) : bool :=
  match k with
  | EventModelCall | EventOutput | EventToolCall | EventToolResult | EventUsage
  | EventApprovalRequest | EventApprovalResult => true
  | _ => false
  end.

Definition newExecution (id : string) (start : nat) : recordedExecution :=
  mkExecution id (Z.of_nat start) [] [] false None 0 false None 0 "" "" 0.

(** The switch of [recordedExecutions]: fold event number [i] into its execution. *)
Definition absorb (i : nat) (e : Event) (x : recordedExecution) : res recordedExecution :=
  match Kind e with
  | EventExecutionStart =>
      match ev_ExecutionStart e with
      | Some st =>
          if negb (x_start x =? Z.of_nat i) then Err (invalidLog "invalid start event")
          else Ok (mkExecution (x_id x) (x_start x) (x_inputs x) (x_stream x) (x_completed x)
                     (Config st) (ResumeFromSeq st) true (InputCount st) (x_inputRecords x)
                     (es_Harness st) (HarnessVersion st) (x_legacyEnd x))
      | None => Err (invalidLog "invalid start event")
      end
  | EventInput =>
      Ok (mkExecution (x_id x) (x_start x)
            (match ev_Message e with Some m => x_inputs x ++ [m] | None => x_inputs x end)
            (x_stream x) (x_completed x) (x_config x) (x_resumeFromSeq x) (x_hasStart x)
            (x_inputCount x) (x_inputRecords x + 1) (x_harness x) (x_harnessVersion x) (x_legacyEnd x))
  | EventEnd =>
      Ok (mkExecution (x_id x) (x_start x) (x_inputs x) (x_stream x) true (x_config x)
            (x_resumeFromSeq x) (x_hasStart x) (x_inputCount x) (x_inputRecords x) (x_harness x)
            (x_harnessVersion x) (x_legacyEnd x))
  | k =>
      if modernEffect k
      then Ok (mkExecution (x_id x) (x_start x) (x_inputs x) (x_stream x ++ [e]) (x_completed x)
                 (x_config x) (x_resumeFromSeq x) (x_hasStart x) (x_inputCount x) (x_inputRecords x)
                 (x_harness x) (x_harnessVersion x) (x_legacyEnd x))
      else Ok x
  end.

(** The loop state of [recordedExecutions]: the executions so far and the [byID] index map. *)
Record groupState := mkGroup { g_executions : list recordedExecution; g_byID : gmap string nat }.

(** One iteration of the loop over [events[prefixEnd:]]. *)
Definition groupEvent (i : nat) (e : Event) (st : groupState) : res groupState :=
  if isLifecycle e then Ok st
  else if bool_decide (ExecutionID e = EmptyString) then Err (invalidLog "event has no execution_id")
  else
    let '(idx, execs, byID) :=
      match g_byID st !! ExecutionID e with
      | Some k => (k, g_executions st, g_byID st)
      | None =>
          let k := length (g_executions st) in
          (k, g_executions st ++ [newExecution (ExecutionID e) i], <[ExecutionID e := k]> (g_byID st))
      end in
    match execs !! idx with
    | None => Ok (mkGroup execs byID)
    | Some x =>
        x' ← absorb i e x;
        mret (mkGroup (<[idx := x']> execs) byID)
    end.

Fixpoint groupEvents (i : nat) (events : list Event) (st : groupState) : res groupState :=
  match events with
  | [] => Ok st
  | e :: es => st' ← groupEvent i e st; groupEvents (S i) es st'
  end.

(** [recordedExecution.validateInputs]. *)
Definition validateInputs (x : recordedExecution) : option goerr :=
  if negb (x_hasStart x) then None
  else match x_inputCount x with
  | None => Some (invalidLog "start has no input_count")
  | Some n =>
      if n <? 0 then Some (invalidLog "negative input_count")
      else if negb (x_inputRecords x =? Z.of_nat (length (x_inputs x)))
      then Some (invalidLog "INPUT without a message")
      else if negb (x_inputRecords x =? n)
      then Some (EWrap "expected INPUT events"
             (if negb (x_completed x) && (x_inputRecords x <? n)
              then ESentinel ErrIncompleteInvocation else ESentinel ErrInvalidExecutionLog))
      else None
  end.

(** The first completed execution whose inputs do not validate. *)
Fixpoint validateCompleted (xs : list recordedExecution) : option goerr :=
  match xs with
  | [] => None
  | x :: xs' =>
      match (if x_completed x then validateInputs x else None) with
      | Some e => Some e
      | None => validateCompleted xs'
      end
  end.

(** The index after the last END of a list of events, 0 when there is none. *)
Fixpoint lastEnd (i acc : nat) (events : list Event) : nat :=
  match events with
  | [] => acc
  | e :: es => lastEnd (S i) (match Kind e with EventEnd => S i | _ => acc end) es
  end.

(** The legacy executions a prefix of length [prefixEnd] contributes. *)
Definition legacyExecutions (prefixEnd : nat) (events : list Event) : list recordedExecution :=
  if Nat.eqb prefixEnd 0 then []
  else
    let replayEnd :=
      if Nat.ltb prefixEnd (length events) then lastEnd 0 0 (take prefixEnd events) else prefixEnd in
    if Nat.eqb replayEnd 0 then [] else [legacyReplayExecution (take replayEnd events)].

(** [recordedExecutions(events)]. *)
Definition recordedExecutions (events : list Event) : res (list recordedExecution) :=
  prefixEnd ← legacyPrefix events;
  st ← groupEvents prefixEnd (drop prefixEnd events) (mkGroup (legacyExecutions prefixEnd events) ∅);
  guard_err (validateCompleted (g_executions st)) (Ok (g_executions st)).

(** [pendingExecution(executions)]. *)
Definition pendingExecution (xs : list recordedExecution) : res (option recordedExecution) :=
  match list.last xs with
  | None => Ok None
  | Some x => if x_completed x then Ok None else guard_err (validateInputs x) (Ok (Some x))
  end.

(** [pendingResumeExecution(events, executions)]. *)
Definition pendingResumeExecution (events : list Event) (xs : list recordedExecution)
    : res (option recordedExecution) :=
  p ← pendingExecution xs;
  match p with
  | None => Ok None
  | Some x =>
      if x_legacyEnd x >? 0
      then let legacy := legacyResumeExecution (take (Z.to_nat (x_legacyEnd x)) events) in
           if x_completed legacy then Ok None else Ok (Some legacy)
      else Ok (Some x)
  end.

(** [recordedExecution.hasApproval]. *)
Definition isGatedCall (e : Event) : bool :=
  match Kind e, ev_ToolCall e with
  | EventToolCall, Some tc => bool_decide (tc_Mediation tc = MediationRequiresApproval)
  | _, _ => false
  end.
Definition hasApproval (x : recordedExecution) : bool := existsb isGatedCall (x_stream x).

(** [recordedExecution.invocation]. *)
Definition invocation (x : recordedExecution) : option ExecutionStart :=
  if x_hasStart x
  then Some (mkExecutionStart (x_config x) (x_resumeFromSeq x) (x_inputCount x) (x_harness x)
               (x_harnessVersion x))
  else None.

(** ** The declarative projection

    What the grouping loop is for: one execution is determined by the events that carry its ID. *)

(** The events of one execution. *)
Definition ofExecution (id : string) (events : list Event) : list Event :=
  filter (fun e => isLifecycle e = false /\ ExecutionID e = id) events.

(** Execution [x] is the projection of the events of its ID. *)
Record projects (x : recordedExecution) (events : list Event) : Prop := {
  pr_stream : x_stream x = filter (fun e => modernEffect (Kind e) = true) (ofExecution (x_id x) events);
  pr_inputs : x_inputs x = inputMessages (ofExecution (x_id x) events);
  pr_records : x_inputRecords x
    = Z.of_nat (length (filter (fun e => isInput e = true) (ofExecution (x_id x) events)));
  pr_completed : x_completed x = existsb (fun e => bool_decide (Kind e = EventEnd)) (ofExecution (x_id x) events);
  pr_id : x_id x <> EmptyString;
  pr_legacy : x_legacyEnd x = 0;
}.

(** A journal without a legacy prefix: every event is a lifecycle marker or carries an ID. *)
Definition modern (events : list Event) : Prop :=
  Forall (fun e => Kind e <> EventLifecycle -> ExecutionID e <> EmptyString) events.

(** ** Lemmas *)

Lemma filter_snoc {A} (P : A -> Prop) `{forall x, Decision (P x)} (l : list A) x :
  filter P (l ++ [x]) = filter P l ++ (if decide (P x) then [x] else []).
Proof. by rewrite list.filter_app, filter_cons, filter_nil. Qed.

Lemma ofExecution_snoc_eq id evs e :
  isLifecycle e = false -> ExecutionID e = id -> ofExecution id (evs ++ [e]) = ofExecution id evs ++ [e].
Proof. intros Hl Hi. unfold ofExecution. rewrite filter_snoc. by rewrite decide_True. Qed.

Lemma ofExecution_snoc_ne id evs e :
  ExecutionID e <> id \/ isLifecycle e = true -> ofExecution id (evs ++ [e]) = ofExecution id evs.
Proof.
  intros Hne. unfold ofExecution. rewrite filter_snoc.
  rewrite decide_False by (intros [? ?]; destruct Hne; congruence). by rewrite app_nil_r.
Qed.

Lemma inputMessages_snoc evs e : inputMessages (evs ++ [e]) =
  inputMessages evs ++ (if isInput e then option_list (ev_Message e) else []).
Proof.
  unfold inputMessages. rewrite filter_snoc, omap_app.
  destruct (isInput e); simpl; [|done]. by destruct (ev_Message e).
Qed.

Lemma projects_other x evs e :
  projects x evs -> ExecutionID e <> x_id x \/ isLifecycle e = true -> projects x (evs ++ [e]).
Proof.
  intros [H1 H2 H3 H4 H5 H6] Hne.
  constructor; rewrite ?(ofExecution_snoc_ne (x_id x) evs e Hne); done.
Qed.

Lemma existsb_snoc {A} (f : A -> bool) l x : existsb f (l ++ [x]) = existsb f l || f x.
Proof. rewrite existsb_app. simpl. by rewrite orb_false_r. Qed.

Lemma absorb_id i e x x' : absorb i e x = Ok x' -> x_id x' = x_id x.
Proof. unfold absorb. intros Ha. repeat (break_match_in Ha; simplify_eq/=; try done). Qed.

(** The switch extends the projection of an execution by its next event. *)
Lemma absorb_projects i e x x' evs :
  absorb i e x = Ok x' -> projects x evs -> isLifecycle e = false -> ExecutionID e = x_id x ->
  projects x' (evs ++ [e]).
Proof.
  intros Ha Hp Hl Hi. pose proof (absorb_id _ _ _ _ Ha) as Hid. destruct Hp as [H1 H2 H3 H4 H5 H6].
  assert (Hof : ofExecution (x_id x') (evs ++ [e]) = ofExecution (x_id x') evs ++ [e])
    by (apply ofExecution_snoc_eq; congruence).
  constructor; rewrite ?Hof, ?filter_snoc, ?inputMessages_snoc, ?existsb_snoc, ?length_app; rewrite ?Hid;
    rewrite <- ?H1, <- ?H2, <- ?H4; [..|done|]; unfold absorb, isInput in *;
    destruct (Kind e) eqn:HK; simpl in *; simplify_eq/=;
    rewrite ?app_nil_r, ?orb_false_r, ?orb_true_r; try done;
    repeat (break_match_in Ha; simplify_eq/=); rewrite ?app_nil_r, ?Nat.add_0_r; try done; try lia.
  destruct (ev_Message e); simpl; by rewrite ?app_nil_r.
Qed.

Lemma new_projects id i evs :
  id <> EmptyString -> ofExecution id evs = [] -> projects (newExecution id i) evs.
Proof. intros Hid Hof. by constructor; simpl; rewrite ?Hof. Qed.

(** The invariant of the grouping loop after the events [evs]; [leg] are the legacy executions. *)
Record group_inv (leg : list recordedExecution) (evs : list Event) (st : groupState) : Prop := {
  gi_leg : take (length leg) (g_executions st) = leg;
  gi_byID : forall id k, g_byID st !! id = Some k ->
    (length leg <= k)%nat /\ exists x, g_executions st !! k = Some x /\ x_id x = id;
  gi_exec : forall k x, (length leg <= k)%nat -> g_executions st !! k = Some x ->
    g_byID st !! x_id x = Some k /\ projects x evs;
  gi_fresh : forall id, g_byID st !! id = None -> ofExecution id evs = [];
}.

Lemma group_inv_lifecycle leg evs st e :
  group_inv leg evs st -> isLifecycle e = true -> group_inv leg (evs ++ [e]) st.
Proof.
  intros [H1 H2 H3 H4] Hl. constructor; [done|done| |].
  - intros k x Hk Hx. destruct (H3 k x Hk Hx). split; [done|]. apply projects_other; auto.
  - intros id Hid. rewrite ofExecution_snoc_ne by auto. auto.
Qed.

Lemma take_insert_ge {A} (l : list A) n k x : (n <= k)%nat -> take n (<[k := x]> l) = take n l.
Proof. intros. rewrite take_insert. by rewrite decide_False by lia. Qed.

(** Absorbing an event into the execution its ID maps to keeps the invariant. *)
Lemma group_inv_absorb leg evs st e i k x x' :
  group_inv leg evs st -> isLifecycle e = false ->
  g_byID st !! ExecutionID e = Some k -> g_executions st !! k = Some x -> absorb i e x = Ok x' ->
  group_inv leg (evs ++ [e]) (mkGroup (<[k := x']> (g_executions st)) (g_byID st)).
Proof.
  intros [H1 H2 H3 H4] Hl Hk Hx Ha. destruct (H2 _ _ Hk) as [Hle (y & Hy & Hid)].
  assert (y = x) as -> by congruence. destruct (H3 k x Hle Hx) as [_ Hp].
  pose proof (absorb_id _ _ _ _ Ha) as Hid'.
  assert (Hlt : (k < length (g_executions st))%nat) by (by eapply lookup_lt_Some).
  constructor; simpl.
  - by rewrite take_insert_ge.
  - intros id j Hj. destruct (H2 id j Hj) as [Hjle (z & Hz & Hzid)]. split; [done|].
    destruct (decide (j = k)) as [->|Hne].
    + exists x'. rewrite list_lookup_insert_eq by done. split; [done|congruence].
    + exists z. by rewrite list_lookup_insert_ne.
  - intros j z Hjle Hz. destruct (decide (j = k)) as [->|Hne].
    + rewrite list_lookup_insert_eq in Hz by done. inv_ok. split; [by rewrite Hid', Hid|].
      eapply absorb_projects; eauto.
    + rewrite list_lookup_insert_ne in Hz by done. destruct (H3 j z Hjle Hz) as [Hj Hpz].
      split; [done|]. apply projects_other; [done|]. left. intros Heq.
      rewrite <- Heq, Hk in Hj. congruence.
  - intros id Hnone. rewrite ofExecution_snoc_ne; [auto|]. left. congruence.
Qed.

(** A new execution keeps the invariant before its first event is absorbed. *)
Lemma group_inv_new leg evs st id i :
  group_inv leg evs st -> g_byID st !! id = None -> id <> EmptyString ->
  group_inv leg evs (mkGroup (g_executions st ++ [newExecution id i])
                       (<[id := length (g_executions st)]> (g_byID st))).
Proof.
  intros [H1 H2 H3 H4] Hnone Hid.
  assert (Hlen : (length leg <= length (g_executions st))%nat)
    by (rewrite <- H1, length_take; lia).
  constructor; simpl.
  - by rewrite take_app_le.
  - intros id' j. destruct (decide (id' = id)) as [->|Hne].
    + rewrite lookup_insert_eq. intros [= <-]. split; [done|].
      eexists. by rewrite lookup_app_r, Nat.sub_diag by done.
    + rewrite lookup_insert_ne by done. intros Hj. destruct (H2 _ _ Hj) as [? (z & Hz & ?)].
      split; [done|]. exists z. split; [|done]. by apply lookup_app_l_Some.
  - intros j z Hle Hz. apply lookup_app_Some in Hz as [Hz|[Hge Hz]].
    + destruct (H3 j z Hle Hz) as [Hj ?]. split; [|done].
      rewrite lookup_insert_ne; [done|]. intros Heq. rewrite Heq in Hnone. congruence.
    + apply list_lookup_singleton_Some in Hz as [Hj <-]. simpl.
      rewrite lookup_insert_eq. split; [f_equal; lia|]. apply new_projects; auto.
  - intros id' Hn. destruct (decide (id' = id)) as [->|Hne]; [by rewrite lookup_insert_eq in Hn|].
    rewrite lookup_insert_ne in Hn by done. auto.
Qed.

Lemma groupEvent_inv leg evs i e st st' :
  group_inv leg evs st -> groupEvent i e st = Ok st' -> group_inv leg (evs ++ [e]) st'.
Proof.
  intros Hinv Hg. unfold groupEvent in Hg. destruct (isLifecycle e) eqn:Hl.
  { inv_ok. by apply group_inv_lifecycle. }
  case_bool_decide as Hid; [done|].
  destruct (g_byID st !! ExecutionID e) as [k|] eqn:Hk.
  - destruct (g_executions st !! k) as [x|] eqn:Hx.
    + apply result_bind_Ok in Hg as (x' & Ha & Hg). injection Hg as <-.
      by eapply group_inv_absorb.
    + destruct (gi_byID _ _ _ Hinv _ _ Hk) as [_ (x & Hx' & _)]. congruence.
  - pose proof (group_inv_new _ _ _ _ i Hinv Hk Hid) as Hinv'.
    destruct (_ !! length _) as [x|] eqn:Hx.
    + apply result_bind_Ok in Hg as (x' & Ha & Hg). injection Hg as <-.
      eapply (group_inv_absorb _ _ _ _ _ _ _ _ Hinv'); simpl; [done| |exact Hx|exact Ha].
      by rewrite lookup_insert_eq.
    + rewrite lookup_app_r, Nat.sub_diag in Hx by done. done.
Qed.

Lemma groupEvents_inv leg evs es i st st' :
  group_inv leg evs st -> groupEvents i es st = Ok st' -> group_inv leg (evs ++ es) st'.
Proof.
  revert evs i st. induction es as [|e es IH]; intros evs i st Hinv Hg; simpl in Hg.
  - injection Hg as <-. by rewrite app_nil_r.
  - apply result_bind_Ok in Hg as (st1 & H1 & H2). replace (evs ++ e :: es) with ((evs ++ [e]) ++ es) by (by rewrite <- app_assoc).
    eapply IH; [|exact H2]. by eapply groupEvent_inv.
Qed.

Lemma group_inv_init leg : group_inv leg [] (mkGroup leg ∅).
Proof.
  constructor; simpl; [by rewrite firstn_all|set_solver| |done].
  intros k x Hk Hx%lookup_lt_Some. lia.
Qed.

(** On success every execution validates, and the result is the grouping of the events. *)
Lemma recordedExecutions_Ok events xs :
  recordedExecutions events = Ok xs <-> exists n st, legacyPrefix events = Ok n /\
    groupEvents n (drop n events) (mkGroup (legacyExecutions n events) ∅) = Ok st /\
    validateCompleted (g_executions st) = None /\ xs = g_executions st.
Proof.
  unfold recordedExecutions. split.
  - intros (n & Hn & Hr)%result_bind_Ok. apply result_bind_Ok in Hr as (st & Hst & Hr).
    apply guard_err_Ok in Hr as [Hv Hr]. inv_ok. eauto 10.
  - intros (n & st & Hn & Hst & Hv & ->). rewrite Hn. simpl. rewrite Hst. simpl. by rewrite Hv.
Qed.

Lemma legacyPrefix_loop_modern i rb events :
  modern events -> legacyPrefix_loop i rb false events = Ok 0%nat \/ Forall (fun e => Kind e = EventLifecycle) events.
Proof.
  revert i rb. induction events as [|e es IH]; intros i rb Hm; [by right|].
  apply Forall_cons_iff in Hm as [He Hm]. simpl. unfold isLifecycle.
  destruct (decide (Kind e = EventLifecycle)) as [Hk|Hk].
  - rewrite Hk. simpl. destruct (IH (S i) (e :: rb) Hm); [by left|right; by constructor].
  - left. rewrite (bool_decide_eq_false_2 (Kind e = EventLifecycle)) by done.
    rewrite (bool_decide_eq_false_2 (ExecutionID e = _)) by auto. simpl. by rewrite orb_true_r.
Qed.

Lemma legacyPrefix_loop_lifecycle i rb events :
  Forall (fun e => Kind e = EventLifecycle) events -> legacyPrefix_loop i rb false events = Ok 0%nat.
Proof.
  revert i rb. induction events as [|e es IH]; intros i rb Hm; [done|].
  apply Forall_cons_iff in Hm as [He Hm]. simpl. unfold isLifecycle. rewrite He. simpl. auto.
Qed.

(** A modern journal has no legacy prefix. *)
Lemma legacyPrefix_modern events : modern events -> legacyPrefix events = Ok 0%nat.
Proof.
  intros Hm. unfold legacyPrefix. destruct (legacyPrefix_loop_modern 0 [] events Hm) as [->|Hl]; [done|].
  by apply legacyPrefix_loop_lifecycle.
Qed.

Lemma recordedExecutions_modern events xs : modern events ->
  recordedExecutions events = Ok xs <-> exists st,
    groupEvents 0 events (mkGroup [] ∅) = Ok st /\ validateCompleted (g_executions st) = None /\
    xs = g_executions st.
Proof.
  intros Hm. rewrite recordedExecutions_Ok, legacyPrefix_modern by done. split.
  - intros (n & st & Hn & Hst & ?). inv_ok. rewrite drop_0 in Hst. exists st. by split.
  - intros (st & Hst & ?). exists 0%nat, st. rewrite drop_0. by split.
Qed.

#[export] Hint Resolve absorb_id new_projects group_inv_init : agent.

(** The events the legacy prefix may hold: lifecycle markers, and legacy kinds without an ID. *)
Definition legacyEvent (e : Event) : Prop :=
  Kind e = EventLifecycle \/ (legacyKind (Kind e) = true /\ ExecutionID e = EmptyString).

Lemma legacyPrefix_loop_sound : forall events i rb hl n,
  legacyPrefix_loop i rb hl events = Ok n -> n <> 0%nat ->
  exists k, n = (i + k)%nat /\ (k <= length events)%nat /\ Forall legacyEvent (take k events) /\
    (k = length events \/ exists e, events !! k = Some e /\
      (Kind e = EventExecutionStart \/ legacyBoundaryComplete (rev (take k events) ++ rb) = true)).
Proof.
  induction events as [|e es IH]; intros i rb hl n Hn Hnz; simpl in Hn.
  { destruct hl; inv_ok; [|done]. exists 0%nat. rewrite Nat.add_0_r. auto using Forall_nil. }
  destruct (bool_decide (Kind e = EventExecutionStart)
    || (negb (isLifecycle e) && negb (bool_decide (ExecutionID e = EmptyString)))) eqn:Hstop.
  - exists 0%nat. simpl. rewrite Nat.add_0_r.
    destruct (hl && _ && _) eqn:Hb; [done|]. destruct hl; inv_ok; [|done].
    split; [done|]. split; [lia|]. split; [constructor|]. right. exists e. split; [done|].
    destruct (decide (Kind e = EventExecutionStart)) as [Hk|Hk]; [by left|right].
    rewrite (bool_decide_eq_false_2 _ Hk) in Hb. simpl in Hb. by apply negb_false_iff in Hb.
  - apply orb_false_iff in Hstop as [Hs Hid].
    assert (Hleg : legacyKind (Kind e) = true \/ isLifecycle e = true -> legacyEvent e).
    { intros Hor. unfold legacyEvent. destruct (isLifecycle e) eqn:Hl.
      - left. by apply bool_decide_eq_true in Hl.
      - right. destruct Hor as [Hor|]; [|done]. split; [done|]. simpl in Hid.
        apply negb_false_iff in Hid. by apply bool_decide_eq_true in Hid. }
    assert (Hgo : forall hl', legacyPrefix_loop (S i) (e :: rb) hl' es = Ok n -> legacyEvent e ->
      exists k, n = (i + k)%nat /\ (k <= S (length es))%nat /\ Forall legacyEvent (take k (e :: es)) /\
        (k = S (length es) \/ exists e', (e :: es) !! k = Some e' /\
          (Kind e' = EventExecutionStart \/ legacyBoundaryComplete (rev (take k (e :: es)) ++ rb) = true))).
    { intros hl' Hn' He. destruct (IH _ _ _ _ Hn' Hnz) as (k & -> & Hk & Hf & Hor).
      exists (S k). split; [lia|]. split; [lia|]. split; [by constructor|].
      destruct Hor as [->|(e' & He' & Hb)]; [by left|right]. exists e'. split; [done|].
      simpl. rewrite <- app_assoc. done. }
    destruct (legacyKind (Kind e)) eqn:Hlk; [by eapply Hgo; eauto|].
    destruct (isLifecycle e) eqn:Hl; [by eapply Hgo; eauto|done].
Qed.

Lemma validateCompleted_None xs :
  validateCompleted xs = None <-> Forall (fun x => x_completed x = true -> validateInputs x = None) xs.
Proof.
  induction xs as [|x xs IH]; [split; [constructor|done]|]. rewrite Forall_cons_iff, <- IH. simpl.
  destruct (x_completed x), (validateInputs x); naive_solver.
Qed.

(** Executions of a grouping are found by their distinct IDs. *)
Lemma group_inv_NoDup evs st : group_inv [] evs st -> NoDup (x_id <$> g_executions st).
Proof.
  intros Hinv. apply NoDup_alt. intros i j id Hi Hj.
  apply list_lookup_fmap_Some in Hi as (x & Hxid & Hx). apply list_lookup_fmap_Some in Hj as (y & Hyid & Hy).
  destruct (gi_exec _ _ _ Hinv i x) as [Hbx _]; [simpl; lia|done|].
  destruct (gi_exec _ _ _ Hinv j y) as [Hby _]; [simpl; lia|done|]. congruence.
Qed.

(** Every execution of a modern grouping is the projection of its events. *)
Lemma group_projects evs st x :
  groupEvents 0 evs (mkGroup [] ∅) = Ok st -> x ∈ g_executions st -> projects x evs.
Proof.
  intros Hg [k Hk]%list_elem_of_lookup.
  pose proof (groupEvents_inv [] [] _ _ _ _ (group_inv_init []) Hg) as Hinv.
  apply (gi_exec _ _ _ Hinv) in Hk as [_ ?]; [done|simpl; lia].
Qed.

(** ** Properties *)

(** The replay projection of a modern journal is exact: the executions it returns have distinct IDs,
    each one holds precisely the effects, inputs and completion of the events that carry its ID,
    every non-lifecycle event belongs to one of them, and completed ones have all their inputs. *)
Theorem recordedExecutions_projection (events : list Event) (xs : list recordedExecution) :
  modern events -> recordedExecutions events = Ok xs ->
  NoDup (x_id <$> xs) /\
  (forall x, x ∈ xs -> projects x events /\ (x_completed x = true -> validateInputs x = None)) /\
  (forall e, e ∈ events -> isLifecycle e = false -> exists x, x ∈ xs /\ x_id x = ExecutionID e).
Proof.
  intros Hm (st & Hst & Hv & ->)%recordedExecutions_modern; [|done].
  pose proof (groupEvents_inv [] [] _ _ _ _ (group_inv_init []) Hst) as Hinv. simpl in Hinv.
  split; [by eapply group_inv_NoDup|]. split.
  - intros x Hx. split.
    + by eapply group_projects.
    + apply validateCompleted_None in Hv. rewrite list.Forall_forall in Hv. by apply Hv.
  - intros e He Hl. destruct (g_byID st !! ExecutionID e) as [k|] eqn:Hk.
    + apply (gi_byID _ _ _ Hinv) in Hk as (_ & x & Hx & Hid). exists x.
      split; [by eapply list_elem_of_lookup_2|done].
    + apply (gi_fresh _ _ _ Hinv) in Hk.
      assert (e ∈ ofExecution (ExecutionID e) events) as Hin by (by apply list_elem_of_filter).
      rewrite Hk in Hin. by apply not_elem_of_nil in Hin.
Qed.

(** The legacy prefix is sound: it covers only ID-less events of the kinds v0.1.2 wrote (and
    lifecycle markers), and it ends at the end of the journal, at an EXECUTION_START, or right
    after a terminal END or ERROR; an ambiguous boundary is an error instead. *)
Theorem legacyPrefix_sound (events : list Event) (n : nat) :
  legacyPrefix events = Ok n ->
  Forall legacyEvent (take n events) /\
  (n = 0%nat \/ n = length events \/ exists e, events !! n = Some e /\
    (Kind e = EventExecutionStart \/ legacyBoundaryComplete (rev (take n events)) = true)).
Proof.
  intros Hn. destruct (decide (n = 0%nat)) as [->|Hnz]; [split; [constructor|by left]|].
  destruct (legacyPrefix_loop_sound _ _ _ _ _ Hn Hnz) as (k & -> & Hk & Hf & Hor). simpl in *.
  split; [done|right]. rewrite app_nil_r in Hor. destruct Hor as [->|?]; auto.
Qed.

(** Recovery is offered only for complete invocations: a pending execution that has a start marker
    committed exactly the number of inputs the marker announced, each with its message. *)
Theorem pendingExecution_complete (xs : list recordedExecution) (x : recordedExecution) :
  pendingExecution xs = Ok (Some x) -> x_hasStart x = true ->
  x_completed x = false /\ list.last xs = Some x /\
  x_inputCount x = Some (Z.of_nat (length (x_inputs x))) /\ x_inputRecords x = Z.of_nat (length (x_inputs x)).
Proof.
  unfold pendingExecution. intros Hp Hs. destruct (list.last xs) as [y|] eqn:Hl; [|done].
  destruct (x_completed y) eqn:Hc; [done|]. apply guard_err_Ok in Hp as [Hv Hy]. injection Hy as ->.
  unfold validateInputs in Hv. rewrite Hs in Hv. simpl in Hv.
  destruct (x_inputCount x) as [n|]; [|done]. destruct (n <? 0); [done|].
  destruct (Z.eqb_spec (x_inputRecords x) (Z.of_nat (length (x_inputs x)))) as [He|]; [|done]. simpl in Hv.
  destruct (Z.eqb_spec (x_inputRecords x) n); [|done]. subst n. by rewrite He.
Qed.

(** *** Witnesses *)

Definition startEvent (id : string) (n : Z) : Event :=
  setExecutionID id (evExecutionStart (mkExecutionStart None 0 (Some n) "h" "1")).
Definition inputEvent (id text : string) : Event :=
  setExecutionID id (evMessage EventInput (TextMessage "user" text)).

(** Two interleaved executions; the second is cut after its input. *)
Definition exampleEvents : list Event :=
  [startEvent "a" 1; inputEvent "a" "hi"; startEvent "b" 1;
   setExecutionID "a" (evMessage EventOutput (TextMessage "assistant" "yo"));
   setExecutionID "a" (evEnd (mkHarnessEnd "COMPLETED" None)); inputEvent "b" "again"].

Definition exampleExecutions : list recordedExecution :=
  match recordedExecutions exampleEvents with Ok xs => xs | Err _ => [] end.

Lemma recordedExecutions_projection_witness :
  length exampleExecutions = 2%nat /\ NoDup (x_id <$> exampleExecutions).
Proof.
  split; [vm_compute; reflexivity|].
  apply (recordedExecutions_projection exampleEvents exampleExecutions).
  - repeat constructor; discriminate.
  - vm_compute. reflexivity.
Defined.

Definition legacyExample : list Event :=
  [evMessage EventInput (TextMessage "user" "q"); evEnd (mkHarnessEnd "COMPLETED" None); inputEvent "b" "new"].

Lemma legacyPrefix_sound_witness :
  Forall legacyEvent (take 2 legacyExample) /\
  (2%nat = 0%nat \/ 2%nat = length legacyExample \/ exists e, legacyExample !! 2%nat = Some e /\
    (Kind e = EventExecutionStart \/ legacyBoundaryComplete (rev (take 2 legacyExample)) = true)).
Proof. apply (legacyPrefix_sound legacyExample 2). vm_compute. reflexivity. Defined.

Definition pendingExample : recordedExecution := last_or (newExecution "" 0) exampleExecutions.

Lemma pendingExecution_complete_witness :
  x_completed pendingExample = false /\ list.last exampleExecutions = Some pendingExample /\
  x_inputCount pendingExample = Some (Z.of_nat (length (x_inputs pendingExample))) /\
  x_inputRecords pendingExample = Z.of_nat (length (x_inputs pendingExample)).
Proof. apply pendingExecution_complete; vm_compute; reflexivity. Defined.
