(* ===== verification/Approvals.v ===== *)
(** * Approval evidence and decisions (controller/approval.go)

    The strict scan of a journal for gated tool calls, and [Approve], which commits one decision. *)
From S2P Require Import Prelude GoErrors Api Canon EventLog Executions.

(** [ApprovalState]; [Call] is never nil in a state the scan builds. *)
Record ApprovalState := mkApprovalState {
  as_ExecutionID : string;
  as_Invocation : option ExecutionStart;
  as_Call : ToolCall;
  as_Request : option Record_;
  as_Decision : option Record_;
  as_Receipt : option Record_;
  as_Head : Z;
  as_Inherited : bool;
  as_Completed : bool;
}.

Record approvalExecution := mkApprovalExecution {
  ax_id : string;
  ax_records : list Record_;
  ax_gated : bool;
}.

(** [approvalScan]; [sc_selected] is the index of the selected state, so that the pointer comparison
    [target != scan.selected] is a comparison of indices. *)
Record approvalScan := mkApprovalScan {
  sc_head : Z;
  sc_states : list ApprovalState;
  sc_selected : option nat;
}.

Definition divergedLog (text : string) : goerr := EWrap text (ESentinel ErrReplayDiverged).
Definition approvalContinuationError : goerr := invalidLog "continued past an unresolved approval call".

(** [validateApprovalReceipt(decision, result)]. *)
Definition receiptValid (decision : ApprovalResult) (result : ToolResult) : bool :=
  if Approved decision
  then (negb (IsError result) && bool_decide (Code result = ToolResultCodeUnspecified))
       || (IsError result && bool_decide (Code result = ToolResultCodeExecutorError))
  else IsError result && bool_decide (Code result = ToolResultCodeApprovalDenied).
Definition validateApprovalReceipt (decision : ApprovalResult) (result : ToolResult) : option goerr :=
  if receiptValid decision result then None
  else Some (divergedLog "receipt status contradicts approval decision").

(** The loop state of [inspectApprovalExecution]: [last] is the state the source's [last] pointer
    designates, always the newest of [states], so the older ones are kept apart. *)
Record inspectState := mkInspect {
  in_invocation : recordedExecution;
  in_older : list ApprovalState;
  in_last : option ApprovalState;
  in_calls : gmap string bool;
}.

Definition in_states (st : inspectState) : list ApprovalState := in_older st ++ option_list (in_last st).

(** [open := last != nil && last.Receipt == nil]. *)
Definition in_open (st : inspectState) : bool :=
  match in_last st with
  | Some s => match as_Receipt s with None => true | Some _ => false end
  | None => false
  end.

Definition setInvocation (x : recordedExecution) (st : inspectState) : inspectState :=
  mkInspect x (in_older st) (in_last st) (in_calls st).
Definition setLast (s : ApprovalState) (st : inspectState) : inspectState :=
  mkInspect (in_invocation st) (in_older st) (Some s) (in_calls st).

Definition setRequest (r : Record_) (s : ApprovalState) : ApprovalState :=
  mkApprovalState (as_ExecutionID s) (as_Invocation s) (as_Call s) (Some r) (as_Decision s)
    (as_Receipt s) (as_Head s) (as_Inherited s) (as_Completed s).
Definition setDecision (r : Record_) (s : ApprovalState) : ApprovalState :=
  mkApprovalState (as_ExecutionID s) (as_Invocation s) (as_Call s) (as_Request s) (Some r)
    (as_Receipt s) (as_Head s) (as_Inherited s) (as_Completed s).
Definition setReceipt (r : Record_) (s : ApprovalState) : ApprovalState :=
  mkApprovalState (as_ExecutionID s) (as_Invocation s) (as_Call s) (as_Request s) (as_Decision s)
    (Some r) (as_Head s) (as_Inherited s) (as_Completed s).
Definition finishState (x : recordedExecution) (s : ApprovalState) : ApprovalState :=
  mkApprovalState (as_ExecutionID s) (invocation x) (as_Call s) (as_Request s) (as_Decision s)
    (as_Receipt s) (as_Head s) (as_Inherited s) (x_completed x).

(** The invocation fields the scan tracks. *)
Definition invStart (st : ExecutionStart) (x : recordedExecution) : recordedExecution :=
  mkExecution (x_id x) (x_start x) (x_inputs x) (x_stream x) (x_completed x) (Config st)
    (ResumeFromSeq st) true (InputCount st) (x_inputRecords x) (es_Harness st) (HarnessVersion st)
    (x_legacyEnd x).
Definition invInput (m : option Message) (x : recordedExecution) : recordedExecution :=
  mkExecution (x_id x) (x_start x) (x_inputs x ++ option_list m) (x_stream x) (x_completed x)
    (x_config x) (x_resumeFromSeq x) (x_hasStart x) (x_inputCount x) (x_inputRecords x + 1)
    (x_harness x) (x_harnessVersion x) (x_legacyEnd x).
Definition invEnd (x : recordedExecution) : recordedExecution :=
  mkExecution (x_id x) (x_start x) (x_inputs x) (x_stream x) true (x_config x)
    (x_resumeFromSeq x) (x_hasStart x) (x_inputCount x) (x_inputRecords x) (x_harness x)
    (x_harnessVersion x) (x_legacyEnd x).

Section Inspect.
Variables (executionID : string) (head forkSeq : Z).

(** The TOOL_CALL case. *)
Definition inspectToolCall (record : Record_) (st : inspectState) : res inspectState :=
  match ev_ToolCall (rec_Event record) with
  | None => Err (invalidLog "missing tool call payload in approval execution")
  | Some call =>
      let gated := bool_decide (tc_Mediation call = MediationRequiresApproval) in
      let dup := match in_calls st !! tc_ID call with Some prior => prior || gated | None => false end in
      if dup then Err (invalidLog "duplicate approval call identity")
      else
        let st := mkInspect (in_invocation st) (in_older st) (in_last st)
                    (<[tc_ID call := gated]> (in_calls st)) in
        if negb gated then Ok st
        else if x_completed (in_invocation st) then Err approvalContinuationError
        else if bool_decide (tc_ID call = EmptyString) then Err (invalidLog "approval call has no ID")
        else if bool_decide (IdempotencyKey call = EmptyString)
        then Err (EJoin "approval call" [ESentinel ErrInvalidExecutionLog; ESentinel ErrMissingIdempotencyKey])
        else
          let s := mkApprovalState executionID None call None None None head (Seq record <? forkSeq) false in
          Ok (mkInspect (in_invocation st) (in_states st) (Some s) (in_calls st))
  end.

(** The APPROVAL_REQUEST case. *)
Definition inspectRequest (record : Record_) (st : inspectState) : res inspectState :=
  match ev_Approval (rec_Event record), in_last st with
  | Some approval, Some last =>
      if negb (in_open st) || negb (bool_decide (as_Request last = None))
      then Err (invalidLog "missing or duplicate approval request intent")
      else if negb (bool_decide (req_ToolCallID approval = tc_ID (as_Call last)))
      then Err (divergedLog "approval request call mismatch")
      else Ok (setLast (setRequest record last) st)
  | _, _ => Err (invalidLog "missing or duplicate approval request intent")
  end.

(** The APPROVAL_RESULT case. *)
Definition inspectDecision (record : Record_) (st : inspectState) : res inspectState :=
  match ev_ApprovalResult (rec_Event record), in_last st with
  | Some decision, Some last =>
      match as_Request last, as_Decision last with
      | Some request, None =>
          if negb (in_open st) then Err (invalidLog "missing or duplicate approval decision request")
          else if negb (bool_decide (res_ToolCallID decision = tc_ID (as_Call last)))
                  || negb (RequestSeq decision =? Seq request)
          then Err (divergedLog "approval decision tuple mismatch")
          else Ok (setLast (setDecision record last) st)
      | _, _ => Err (invalidLog "missing or duplicate approval decision request")
      end
  | _, _ => Err (invalidLog "missing or duplicate approval decision request")
  end.

(** The TOOL_RESULT case past any open gate: a receipt may not name a gated call or carry sequences. *)
Definition inspectUnbound (result : option ToolResult) (st : inspectState) : res inspectState :=
  match result with
  | Some r =>
      if default false (in_calls st !! tr_ID r) || negb (ApprovalRequestSeq r =? 0)
         || negb (ApprovalDecisionSeq r =? 0)
      then Err (invalidLog "duplicate or unbound approval receipt")
      else Ok st
  | None => Ok st
  end.

(** The TOOL_RESULT case. *)
Definition inspectToolResult (record : Record_) (st : inspectState) : res inspectState :=
  match (if in_open st then in_last st else None) with
  | None => inspectUnbound (ev_Result (rec_Event record)) st
  | Some last =>
      match ev_Result (rec_Event record), as_Request last, as_Decision last with
      | Some result, Some request, Some decision =>
          if negb (bool_decide (tr_ID result = tc_ID (as_Call last)))
             || negb (ApprovalRequestSeq result =? Seq request)
             || negb (ApprovalDecisionSeq result =? Seq decision)
          then Err (divergedLog "approval receipt tuple mismatch")
          else match ev_ApprovalResult (rec_Event decision) with
               | Some d =>
                   guard_err (validateApprovalReceipt d result) (Ok (setLast (setReceipt record last) st))
               | None => Err (invalidLog "unreachable: a decision record has its payload")
               end
      | _, _, _ => Err (invalidLog "approval receipt lacks request or decision")
      end
  end.

(** One iteration of [inspectApprovalExecution]'s loop over the records of an execution. *)
Definition inspectRecord (i : nat) (record : Record_) (st : inspectState) : res inspectState :=
  let event := rec_Event record in
  match Kind event with
  | EventExecutionStart =>
      match ev_ExecutionStart event with
      | Some start =>
          if negb (Nat.eqb i 0) then Err (invalidLog "invalid approval execution start")
          else Ok (setInvocation (invStart start (in_invocation st)) st)
      | None => Err (invalidLog "invalid approval execution start")
      end
  | EventInput =>
      if in_open st then Err approvalContinuationError
      else Ok (setInvocation (invInput (ev_Message event) (in_invocation st)) st)
  | EventToolCall =>
      if in_open st then Err approvalContinuationError else inspectToolCall record st
  | EventApprovalRequest => inspectRequest record st
  | EventApprovalResult => inspectDecision record st
  | EventToolResult => inspectToolResult record st
  | EventEnd =>
      if in_open st then Err approvalContinuationError
      else Ok (setInvocation (invEnd (in_invocation st)) st)
  | EventError => Ok st
  | _ => if in_open st then Err approvalContinuationError else Ok st
  end.

Fixpoint inspectRecords (i : nat) (records : list Record_) (st : inspectState) : res inspectState :=
  match records with
  | [] => Ok st
  | r :: rs => st' ← inspectRecord i r st; inspectRecords (S i) rs st'
  end.
End Inspect.

Definition inspectInit (id : string) : inspectState := mkInspect (newExecution id 0) [] None ∅.

(** [inspectApprovalExecution(execution, head, forkSeq)]. *)
Definition inspectApprovalExecution (execution : approvalExecution) (head forkSeq : Z)
    : res (list ApprovalState) :=
  if bool_decide (ax_id execution = EmptyString)
  then Err (invalidLog "approval evidence has no execution_id")
  else
    st ← inspectRecords (ax_id execution) head forkSeq 0 (ax_records execution) (inspectInit (ax_id execution));
    guard_err (validateInputs (in_invocation st))
      (Ok (map (finishState (in_invocation st)) (in_states st))).

(** The events that make an execution gated. *)
Definition gatedEvidence (e : Event) : bool :=
  match Kind e with
  | EventApprovalRequest | EventApprovalResult => true
  | EventToolCall => isGatedCall e
  | EventToolResult =>
      match ev_Result e with
      | Some r => negb (ApprovalRequestSeq r =? 0) || negb (ApprovalDecisionSeq r =? 0)
      | None => false
      end
  | _ => false
  end.

(** The loop state of [scanApprovalRecords]. *)
Record scanState := mkScan {
  ss_head : Z;
  ss_forkSeq : Z;
  ss_executions : list approvalExecution;
  ss_byID : gmap string nat;
}.

Definition isForkMarker (e : Event) : bool :=
  match ev_Lifecycle e with Some lc => bool_decide (lc_Kind lc = LifecycleFork) | None => false end.

(** One iteration of the grouping loop (the record is within the cursor). *)
Definition scanRecord (record : Record_) (st : scanState) : scanState :=
  let event := rec_Event record in
  if isLifecycle event
  then mkScan (Seq record) (if isForkMarker event then Seq record else ss_forkSeq st)
         (ss_executions st) (ss_byID st)
  else
    let '(idx, execs, byID) :=
      match ss_byID st !! ExecutionID event with
      | Some k => (k, ss_executions st, ss_byID st)
      | None =>
          let k := length (ss_executions st) in
          (k, ss_executions st ++ [mkApprovalExecution (ExecutionID event) [] false],
           <[ExecutionID event := k]> (ss_byID st))
      end in
    mkScan (Seq record) (ss_forkSeq st)
      (alter (fun x => mkApprovalExecution (ax_id x) (ax_records x ++ [record])
                         (ax_gated x || gatedEvidence event)) idx execs)
      byID.

(** The records within the cursor: the loop breaks at the first record past a positive one. *)
Fixpoint withinCursor (throughSeq : Z) (records : list Record_) : list Record_ :=
  match records with
  | [] => []
  | r :: rs => if (throughSeq >? 0) && (Seq r >? throughSeq) then [] else r :: withinCursor throughSeq rs
  end.

Definition scanGroup (records : list Record_) : scanState :=
  fold_left (fun st r => scanRecord r st) records (mkScan 0 0 [] ∅).

(** The second loop: inspect every gated execution; the last execution selects its last state. *)
Fixpoint scanInspect (head forkSeq : Z) (execs : list approvalExecution) (states : list ApprovalState)
    : res (list ApprovalState * option nat) :=
  match execs with
  | [] => Ok (states, None)
  | x :: xs =>
      if negb (ax_gated x) then scanInspect head forkSeq xs states
      else
        ss ← inspectApprovalExecution x head forkSeq;
        let states' := states ++ ss in
        match xs, ss with
        | [], _ :: _ => Ok (states', Some (length states' - 1)%nat)
        | _, _ => scanInspect head forkSeq xs states'
        end
  end.

(** [scanApprovalRecords(records, throughSeq)]. *)
Definition scanApprovalRecords (records : list Record_) (throughSeq : Z) : res approvalScan :=
  let st := scanGroup (withinCursor throughSeq records) in
  r ← scanInspect (ss_head st) (ss_forkSeq st) (ss_executions st) [];
  mret (mkApprovalScan (ss_head st) (fst r) (snd r)).

(** [scan.selected]. *)
Definition selectedState (scan : approvalScan) : option ApprovalState :=
  i ← sc_selected scan; sc_states scan !! i.

(** The target [Approve] looks for: the first state the decision's tuple addresses. *)
Definition addresses (d : ApprovalDecision) (s : ApprovalState) : bool :=
  bool_decide (as_ExecutionID s = dec_ExecutionID d) && bool_decide (tc_ID (as_Call s) = dec_ToolCallID d)
  && match as_Request s with Some r => Seq r =? dec_RequestSeq d | None => false end.

Fixpoint findTarget (i : nat) (d : ApprovalDecision) (states : list ApprovalState)
    : option (nat * ApprovalState) :=
  match states with
  | [] => None
  | s :: ss => if addresses d s then Some (i, s) else findTarget (S i) d ss
  end.

(** The validation of [Approve] on a scan: [Ok (Some r)] is an exact historical retry, [Ok None] a
    new decision that may be committed. *)
Definition approveCheck (scan : approvalScan) (d : ApprovalDecision) : res (option Record_) :=
  match findTarget 0 d (sc_states scan) with
  | None => Err (EWrap "request is not owned by this session" (ESentinel ErrInvalidApprovalDecision))
  | Some (i, target) =>
      if as_Inherited target
      then Err (EWrap "request is not owned by this session" (ESentinel ErrInvalidApprovalDecision))
      else match as_Decision target with
      | Some old =>
          match ev_ApprovalResult (rec_Event old) with
          | Some a =>
              if negb (Bool.eqb (Approved a) (dec_Approved d)) || negb (bool_decide (res_Reason a = dec_Reason d))
                 || negb (bool_decide (Actor (rec_Event old) = dec_Identity d))
              then Err (EWrap "request already has a different decision" (ESentinel ErrInvalidApprovalDecision))
              else Ok (Some old)
          | None => Err (invalidLog "unreachable: decision without payload")
          end
      | None =>
          if negb (bool_decide (sc_selected scan = Some i)) || as_Completed target
             || negb (bool_decide (as_Receipt target = None))
          then Err (EWrap "request is superseded or completed" (ESentinel ErrInvalidApprovalDecision))
          else Ok None
      end
  end.

(** The event a new decision commits. *)
Definition decisionEvent (now : Z) (d : ApprovalDecision) : Event :=
  mkEvent (dec_ExecutionID d) (Some now) 0 EventApprovalResult None None None None None
    (Some (mkApprovalResult (dec_ToolCallID d) (dec_Approved d) (dec_Reason d) (dec_RequestSeq d)))
    None None None None None None (dec_Identity d).

Section Approve.
Context {S : Type} `{Store S}.

(** [scanApprovals(log, throughSeq)]. *)
Definition scanApprovals (throughSeq : Z) : M S goerr approvalScan :=
  if throughSeq <? 0 then throw (invalidLog "negative approval cursor")
  else
    let! records := st_Read 1 in
    lift (scanApprovalRecords records throughSeq).

(** [InspectApproval(log, throughSeq)]. *)
Definition InspectApproval (throughSeq : Z) : M S goerr (option ApprovalState) :=
  let! scan := scanApprovals throughSeq in
  mret (selectedState scan).

(** [Approve(log, decision)] at wall-clock time [now]. *)
Definition Approve (now : Z) (d : ApprovalDecision) : M S goerr Record_ :=
  do! st_CheckWritable in
  if bool_decide (dec_ExecutionID d = EmptyString) || bool_decide (dec_ToolCallID d = EmptyString)
     || (dec_RequestSeq d <=? 0)
  then throw (EWrap "execution, call and positive request sequence are required"
                (ESentinel ErrInvalidApprovalDecision))
  else
    let! scan := scanApprovals 0 in
    let! retry := lift (approveCheck scan d) in
    match retry with
    | Some old => mret old
    | None =>
        let! fence := st_NewFence in
        st_Append (sc_head scan) fence (decisionEvent now d)
    end.
End Approve.

(** ** The abstract gate

    What an execution's journal may look like around a gated call: call, request, decision, receipt,
    in that order, with nothing but ERROR events in between. An EXECUTION_START is the first record. *)

(** The gate of an execution: idle, or waiting for the request, the decision or the receipt of the
    newest gated call. *)
Inductive gate := GateIdle | GateCalled (call : ToolCall) | GateRequested (call : ToolCall) (reqSeq : Z)
  | GateDecided (call : ToolCall) (reqSeq : Z) (decSeq : Z) (d : ApprovalResult).

Definition gateStep (i : nat) (g : gate) (r : Record_) (g' : gate) : Prop :=
  let e := rec_Event r in
  match Kind e with
  | EventError => g' = g
  | EventExecutionStart => i = 0%nat /\ is_Some (ev_ExecutionStart e) /\ g = GateIdle /\ g' = GateIdle
  | EventApprovalRequest => exists c a, g = GateCalled c /\ ev_Approval e = Some a /\
      req_ToolCallID a = tc_ID c /\ g' = GateRequested c (Seq r)
  | EventApprovalResult => exists c q a, g = GateRequested c q /\ ev_ApprovalResult e = Some a /\
      res_ToolCallID a = tc_ID c /\ RequestSeq a = q /\ g' = GateDecided c q (Seq r) a
  | EventToolResult => (g = GateIdle /\ g' = GateIdle) \/
      exists c q s d t, g = GateDecided c q s d /\ ev_Result e = Some t /\ tr_ID t = tc_ID c /\
        ApprovalRequestSeq t = q /\ ApprovalDecisionSeq t = s /\ receiptValid d t = true /\ g' = GateIdle
  | EventToolCall => g = GateIdle /\ exists c, ev_ToolCall e = Some c /\
      g' = (if decide (tc_Mediation c = MediationRequiresApproval) then GateCalled c else GateIdle)
  | _ => g = GateIdle /\ g' = GateIdle
  end.

(** A run of the gate over the records from the [i]-th on. *)
Fixpoint gateRun (i : nat) (g : gate) (rs : list Record_) (g' : gate) : Prop :=
  match rs with
  | [] => g' = g
  | r :: rs' => exists g1, gateStep i g r g1 /\ gateRun (S i) g1 rs' g'
  end.

(** The gate a state of the scan stands for. *)
Definition stateGate (s : ApprovalState) : gate :=
  match as_Receipt s, as_Request s, as_Decision s with
  | Some _, _, _ => GateIdle
  | None, None, _ => GateCalled (as_Call s)
  | None, Some q, None => GateRequested (as_Call s) (Seq q)
  | None, Some q, Some dr =>
      match ev_ApprovalResult (rec_Event dr) with
      | Some d => GateDecided (as_Call s) (Seq q) (Seq dr) d
      | None => GateIdle
      end
  end.

Definition gateOf (st : inspectState) : gate :=
  match in_last st with Some s => stateGate s | None => GateIdle end.

#[export] Instance ApprovalDecision_eq : EqDecision ApprovalDecision.
Proof. solve_decision. Defined.

(** ** Lemmas *)

(** The evidence behind one state, all of it among the records [seen]: each later record is bound to
    the earlier ones by call ID and sequence, and a receipt's status agrees with the decision. *)
Record evidence (seen : list Record_) (s : ApprovalState) : Prop := {
  ev_gated : tc_Mediation (as_Call s) = MediationRequiresApproval;
  ev_call_id : tc_ID (as_Call s) <> EmptyString;
  ev_call_key : IdempotencyKey (as_Call s) <> EmptyString;
  ev_call : exists r, r ∈ seen /\ Kind (rec_Event r) = EventToolCall /\
    ExecutionID (rec_Event r) = as_ExecutionID s /\ ev_ToolCall (rec_Event r) = Some (as_Call s);
  ev_request : forall r, as_Request s = Some r -> r ∈ seen /\ Kind (rec_Event r) = EventApprovalRequest /\
    exists a, ev_Approval (rec_Event r) = Some a /\ req_ToolCallID a = tc_ID (as_Call s);
  ev_decision : forall r, as_Decision s = Some r -> r ∈ seen /\ Kind (rec_Event r) = EventApprovalResult /\
    exists q d, as_Request s = Some q /\ ev_ApprovalResult (rec_Event r) = Some d /\
      res_ToolCallID d = tc_ID (as_Call s) /\ RequestSeq d = Seq q;
  ev_receipt : forall r, as_Receipt s = Some r -> r ∈ seen /\ Kind (rec_Event r) = EventToolResult /\
    exists q dr d t, as_Request s = Some q /\ as_Decision s = Some dr /\
      ev_ApprovalResult (rec_Event dr) = Some d /\ ev_Result (rec_Event r) = Some t /\
      tr_ID t = tc_ID (as_Call s) /\ ApprovalRequestSeq t = Seq q /\
      ApprovalDecisionSeq t = Seq dr /\ receiptValid d t = true;
}.

Lemma evidence_mono seen seen' s : seen ⊆ seen' -> evidence seen s -> evidence seen' s.
Proof.
  intros Hs [H1 H2 H3 (r & ? & ?) H5 H6 H7]. constructor; auto.
  - exists r. eauto.
  - intros r' Hr. destruct (H5 r' Hr). eauto.
  - intros r' Hr. destruct (H6 r' Hr). eauto.
  - intros r' Hr. destruct (H7 r' Hr). eauto.
Qed.

(** The invariant of the inspection loop: evidence for every state, and only the newest gate of an
    execution can lack its receipt. *)
Record inspect_inv (id : string) (seen : list Record_) (st : inspectState) : Prop := {
  ii_evidence : Forall (evidence seen) (in_states st);
  ii_id : Forall (fun s => as_ExecutionID s = id) (in_states st);
  ii_older : Forall (fun s => as_Receipt s <> None) (in_older st);
}.

Lemma inspect_inv_mono id seen seen' st : seen ⊆ seen' -> inspect_inv id seen st -> inspect_inv id seen' st.
Proof.
  intros Hs [H1 H2 H3]. constructor; [|done|done]. eapply Forall_impl; [|exact H1].
  intros s. by apply evidence_mono.
Qed.

(** Replacing the newest state keeps the invariant when the new one has its evidence. *)
Lemma inspect_inv_setLast id seen st last s :
  inspect_inv id seen st -> in_last st = Some last -> evidence seen s ->
  as_ExecutionID s = as_ExecutionID last -> inspect_inv id seen (setLast s st).
Proof.
  intros [He Hid Ho] Hl Hs Hi. unfold in_states in *. rewrite Hl in *. simpl in *.
  apply Forall_app in He as [? _]. apply Forall_app in Hid as [? [Hlast _]%Forall_cons_iff].
  constructor; [| |done]; unfold in_states; simpl.
  - apply Forall_app. split; [done|]. by apply Forall_singleton.
  - apply Forall_app. split; [done|]. apply Forall_singleton. congruence.
Qed.

Lemma in_last_evidence id seen st last :
  inspect_inv id seen st -> in_last st = Some last -> evidence seen last.
Proof.
  intros [He _ _] Hl. unfold in_states in He. rewrite Hl in He.
  by apply Forall_app in He as [_ [? _]%Forall_cons_iff].
Qed.

(** No open gate: every state so far has its receipt. *)
Lemma not_open_receipts st : in_open st = false ->
  Forall (fun s => as_Receipt s <> None) (in_older st) -> Forall (fun s => as_Receipt s <> None) (in_states st).
Proof.
  unfold in_open, in_states. destruct (in_last st) as [s|]; simpl; [|by rewrite app_nil_r].
  destruct (as_Receipt s) eqn:Hr; [|done]. intros _ Ho. apply Forall_app. split; [done|].
  apply Forall_singleton. congruence.
Qed.

Lemma inspectToolCall_inv id head fork r st st' seen :
  inspect_inv id seen st -> in_open st = false -> r ∈ seen -> Kind (rec_Event r) = EventToolCall ->
  ExecutionID (rec_Event r) = id ->
  inspectToolCall id head fork r st = Ok st' -> inspect_inv id seen st'.
Proof.
  intros [He Hid Ho] Hopen Hr Hk Hx H. unfold inspectToolCall in H.
  repeat (break_match_in H; simplify_eq/=; try done); dec_bool; [done|].
  constructor; simpl; [| |by apply not_open_receipts].
  - unfold in_states at 1. simpl. apply Forall_app. split; [done|]. apply Forall_singleton.
    constructor; simpl; try done. exists r. auto.
  - unfold in_states at 1. simpl. apply Forall_app. split; [done|]. by apply Forall_singleton.
Qed.

(** The newest state after an evidence record is appended to it. *)
Lemma evidence_setRequest seen s r a :
  evidence seen s -> as_Decision s = None -> as_Receipt s = None -> r ∈ seen ->
  Kind (rec_Event r) = EventApprovalRequest -> ev_Approval (rec_Event r) = Some a ->
  req_ToolCallID a = tc_ID (as_Call s) -> evidence seen (setRequest r s).
Proof.
  intros [] Hd Hr Hin Hk Ha Hi. constructor; simpl; try done.
  - intros r' [= <-]. eauto.
  - congruence.
  - congruence.
Qed.

Lemma evidence_setDecision seen s q r d :
  evidence seen s -> as_Request s = Some q -> as_Receipt s = None -> r ∈ seen ->
  Kind (rec_Event r) = EventApprovalResult -> ev_ApprovalResult (rec_Event r) = Some d ->
  res_ToolCallID d = tc_ID (as_Call s) -> RequestSeq d = Seq q -> evidence seen (setDecision r s).
Proof.
  intros [] Hq Hr Hin Hk Ha Hi Hs. constructor; simpl; try done.
  - intros r' [= <-]. eauto 10.
  - congruence.
Qed.

Lemma evidence_setReceipt seen s q dr r d t :
  evidence seen s -> as_Request s = Some q -> as_Decision s = Some dr -> r ∈ seen ->
  Kind (rec_Event r) = EventToolResult -> ev_ApprovalResult (rec_Event dr) = Some d ->
  ev_Result (rec_Event r) = Some t -> tr_ID t = tc_ID (as_Call s) -> ApprovalRequestSeq t = Seq q ->
  ApprovalDecisionSeq t = Seq dr -> receiptValid d t = true -> evidence seen (setReceipt r s).
Proof.
  intros [] Hq Hd Hin Hk Ha Ht Hi Hs1 Hs2 Hv. constructor; simpl; try done.
  intros r' [= <-]. do 2 (split; [done|]). exists q, dr, d, t. auto 10.
Qed.

(** A decision presupposes its request; a receipt presupposes both. *)
Lemma evidence_order seen s : evidence seen s ->
  (as_Request s = None -> as_Decision s = None) /\ (as_Decision s = None -> as_Receipt s = None).
Proof.
  intros [_ _ _ _ _ Hd Hr]. split; intros Hn.
  - destruct (as_Decision s) as [r|]; [|done]. destruct (Hd r eq_refl) as (_ & _ & q & d & Hq & _). congruence.
  - destruct (as_Receipt s) as [r|]; [|done].
    destruct (Hr r eq_refl) as (_ & _ & q & dr & d & t & _ & Hq & _). congruence.
Qed.

Lemma in_open_last st last : in_last st = Some last -> in_open st = true -> as_Receipt last = None.
Proof. unfold in_open. intros ->. by destruct (as_Receipt last). Qed.

Lemma inspectRequest_Ok r st st' : inspectRequest r st = Ok st' <-> exists a last,
  ev_Approval (rec_Event r) = Some a /\ in_last st = Some last /\ in_open st = true /\
  as_Request last = None /\ req_ToolCallID a = tc_ID (as_Call last) /\ st' = setLast (setRequest r last) st.
Proof.
  unfold inspectRequest. split.
  - intros H. repeat (break_match_in H; simplify_eq/=; try done). dec_bool. eauto 10.
  - intros (a & last & -> & -> & -> & -> & -> & ->). rewrite !bool_decide_eq_true_2 by done. done.
Qed.

Lemma inspectDecision_Ok r st st' : inspectDecision r st = Ok st' <-> exists d last q,
  ev_ApprovalResult (rec_Event r) = Some d /\ in_last st = Some last /\ in_open st = true /\
  as_Request last = Some q /\ as_Decision last = None /\ res_ToolCallID d = tc_ID (as_Call last) /\
  RequestSeq d = Seq q /\ st' = setLast (setDecision r last) st.
Proof.
  unfold inspectDecision. split.
  - intros H. repeat (break_match_in H; simplify_eq/=; try done). dec_bool. eauto 15.
  - intros (a & last & q & -> & -> & -> & -> & -> & -> & -> & ->).
    rewrite bool_decide_eq_true_2 by done. rewrite Z.eqb_refl. done.
Qed.

Lemma inspectToolResult_Ok r st st' : inspectToolResult r st = Ok st' ->
  (in_open st = false /\ st' = st) \/
  exists t last q dr d, in_open st = true /\ in_last st = Some last /\ ev_Result (rec_Event r) = Some t /\
    as_Request last = Some q /\ as_Decision last = Some dr /\ ev_ApprovalResult (rec_Event dr) = Some d /\
    tr_ID t = tc_ID (as_Call last) /\ ApprovalRequestSeq t = Seq q /\ ApprovalDecisionSeq t = Seq dr /\
    receiptValid d t = true /\ st' = setLast (setReceipt r last) st.
Proof.
  unfold inspectToolResult, inspectUnbound, validateApprovalReceipt. intros H.
  destruct (in_open st) eqn:Ho; [|left; split; [done|]; repeat (break_match_in H; simplify_eq/=; try done)].
  destruct (in_last st) as [last|] eqn:Hl; [|unfold in_open in Ho; by rewrite Hl in Ho].
  right. unfold guard_err in H. repeat (break_match_in H; simplify_eq/=; try done). dec_bool.
  do 5 eexists. repeat split; eauto.
Qed.

Lemma inspect_inv_setInvocation id seen x st : inspect_inv id seen st -> inspect_inv id seen (setInvocation x st).
Proof. intros [? ? ?]. by constructor. Qed.

(** Every iteration keeps the invariant. *)
Lemma inspectRecord_inv id head fork i r st st' seen :
  inspect_inv id seen st -> r ∈ seen -> ExecutionID (rec_Event r) = id ->
  inspectRecord id head fork i r st = Ok st' -> inspect_inv id seen st'.
Proof.
  intros Hinv Hin Hx H. unfold inspectRecord in H.
  destruct (Kind (rec_Event r)) eqn:HK; simpl in H;
    try (by repeat break_match_in H; simplify_eq/=; auto using inspect_inv_setInvocation).
  - destruct (in_open st) eqn:Ho; [done|]. by eapply inspectToolCall_inv.
  - apply inspectToolResult_Ok in H as [[_ ->]|(t & last & q & dr & d & Ho & Hl & Ht & Hq & Hd & Ha & ? & ? & ? & ? & ->)];
      [done|]. eapply inspect_inv_setLast; eauto. eapply evidence_setReceipt; eauto using in_last_evidence.
  - apply inspectRequest_Ok in H as (a & last & Ha & Hl & Ho & Hq & Hi & ->).
    pose proof (in_last_evidence _ _ _ _ Hinv Hl) as He. destruct (evidence_order _ _ He) as [Hd _].
    eapply inspect_inv_setLast; eauto. eapply evidence_setRequest; eauto using in_open_last.
  - apply inspectDecision_Ok in H as (d & last & q & Hd & Hl & Ho & Hq & Hn & Hi & Hs & ->).
    eapply inspect_inv_setLast; eauto. eapply evidence_setDecision; eauto using in_last_evidence, in_open_last.
Qed.

(** Every iteration is a step of the abstract gate. *)
Lemma inspectRecord_gate id head fork i r st st' seen :
  inspect_inv id seen st -> (i = 0%nat -> gateOf st = GateIdle) ->
  inspectRecord id head fork i r st = Ok st' -> gateStep i (gateOf st) r (gateOf st').
Proof.
  intros Hinv Hfirst H. unfold inspectRecord in H.
  assert (Hidle : in_open st = false -> gateOf st = GateIdle).
  { unfold in_open, gateOf, stateGate. destruct (in_last st) as [s|]; [|done]. by destruct (as_Receipt s). }
  unfold gateStep. destruct (Kind (rec_Event r)) eqn:HK; simpl in H;
    try (by repeat break_match_in H; simplify_eq/=; auto).
  - destruct (in_open st) eqn:Ho; [done|]. split; [auto|]. unfold inspectToolCall in H.
    repeat (break_match_in H; simplify_eq/=; try done); dec_bool; try done;
      (eexists; split; [done|]; case_decide; try done; by apply Hidle).
  - apply inspectToolResult_Ok in H as [[Ho ->]|(t & last & q & dr & d & Ho & Hl & Ht & Hq & Hd & Ha & ? & ? & ? & ? & ->)];
      [left; auto|]. right. exists (as_Call last), q.(Seq), dr.(Seq), d, t. split; [|auto 10].
    unfold gateOf, stateGate. by rewrite Hl, (in_open_last _ _ Hl Ho), Hq, Hd, Ha.
  - apply inspectRequest_Ok in H as (a & last & Ha & Hl & Ho & Hq & Hi & ->).
    destruct (evidence_order _ _ (in_last_evidence _ _ _ _ Hinv Hl)) as [Hd _].
    exists (as_Call last), a. unfold gateOf, stateGate. simpl.
    rewrite Hl, (in_open_last _ _ Hl Ho), Hq, (Hd Hq). auto.
  - apply inspectDecision_Ok in H as (d & last & q & Hd & Hl & Ho & Hq & Hn & Hi & Hs & ->).
    exists (as_Call last), (Seq q), d. unfold gateOf, stateGate. simpl.
    rewrite Hl, (in_open_last _ _ Hl Ho), Hq, Hn, Hd. auto 10.
  - destruct (ev_ExecutionStart (rec_Event r)) as [start|]; [|done]. destruct (Nat.eqb_spec i 0) as [->|]; [|done].
    injection H as <-. split; [done|]. split; [by eexists|]. split; [by apply Hfirst|exact (Hfirst eq_refl)].
Qed.

Lemma inspectRecords_inv id head fork rs : forall i st st' seen,
  inspect_inv id seen st -> rs ⊆ seen -> Forall (fun r => ExecutionID (rec_Event r) = id) rs ->
  (i = 0%nat -> gateOf st = GateIdle) -> inspectRecords id head fork i rs st = Ok st' ->
  inspect_inv id seen st' /\ gateRun i (gateOf st) rs (gateOf st').
Proof.
  induction rs as [|r rs IH]; intros i st st' seen Hinv Hs Hf H0 H; simpl in H.
  { injection H as <-. done. }
  apply result_bind_Ok in H as (st1 & H1 & H2). apply Forall_cons_iff in Hf as [Hr Hf].
  assert (inspect_inv id seen st1) as Hinv1 by (eapply inspectRecord_inv; eauto; set_solver).
  destruct (IH (S i) st1 st' seen Hinv1) as [? ?]; [set_solver|done|done|done|].
  split; [done|]. simpl. exists (gateOf st1). split; [|done]. by eapply inspectRecord_gate.
Qed.

(** *** Grouping *)

(** The records of one execution. *)
Definition recordsOf (id : string) (rs : list Record_) : list Record_ :=
  filter (fun r => isLifecycle (rec_Event r) = false /\ ExecutionID (rec_Event r) = id) rs.

Record scan_inv (rs : list Record_) (st : scanState) : Prop := {
  si_exec : forall k x, ss_executions st !! k = Some x ->
    ss_byID st !! ax_id x = Some k /\ ax_records x = recordsOf (ax_id x) rs /\
    ax_gated x = existsb (fun r => gatedEvidence (rec_Event r)) (ax_records x);
  si_byID : forall id k, ss_byID st !! id = Some k ->
    exists x, ss_executions st !! k = Some x /\ ax_id x = id;
  si_fresh : forall id, ss_byID st !! id = None -> recordsOf id rs = [];
  si_head : ss_head st = headOf rs;
}.

Lemma recordsOf_snoc id rs r : recordsOf id (rs ++ [r]) = recordsOf id rs ++
  (if decide (isLifecycle (rec_Event r) = false /\ ExecutionID (rec_Event r) = id) then [r] else []).
Proof. unfold recordsOf. by rewrite filter_snoc. Qed.

Lemma recordsOf_snoc_ne id rs r : isLifecycle (rec_Event r) = true \/ ExecutionID (rec_Event r) <> id ->
  recordsOf id (rs ++ [r]) = recordsOf id rs.
Proof.
  intros Hne. rewrite recordsOf_snoc, decide_False by (intros [? ?]; destruct Hne; congruence).
  by rewrite app_nil_r.
Qed.

Lemma recordsOf_snoc_eq id rs r : isLifecycle (rec_Event r) = false -> ExecutionID (rec_Event r) = id ->
  recordsOf id (rs ++ [r]) = recordsOf id rs ++ [r].
Proof. intros. by rewrite recordsOf_snoc, decide_True. Qed.

(** Appending a record to the execution its ID maps to. *)
Lemma scan_inv_alter rs st r k x forkSeq :
  scan_inv rs st -> isLifecycle (rec_Event r) = false ->
  ss_executions st !! k = Some x -> ax_id x = ExecutionID (rec_Event r) ->
  scan_inv (rs ++ [r]) (mkScan (Seq r) forkSeq
    (alter (fun x => mkApprovalExecution (ax_id x) (ax_records x ++ [r])
              (ax_gated x || gatedEvidence (rec_Event r))) k (ss_executions st)) (ss_byID st)).
Proof.
  intros [H1 H2 H3 H4] Hl Hx Hid. destruct (H1 k x Hx) as (Hk & Hrs & Hg).
  constructor; simpl.
  - intros j y Hy. destruct (decide (j = k)) as [->|Hne].
    + rewrite list_lookup_alter_eq, Hx in Hy. simpl in Hy. injection Hy as <-. simpl.
      split; [done|]. split; [rewrite recordsOf_snoc_eq by done; by rewrite Hrs|].
      by rewrite existsb_snoc, Hg.
    + rewrite list_lookup_alter_ne in Hy by done. destruct (H1 j y Hy) as (Hj & Hrj & ?).
      split; [done|]. split; [|done]. rewrite recordsOf_snoc_ne; [done|].
      right. intros He. rewrite <- He, <- Hid in Hj. congruence.
  - intros id j Hj. destruct (H2 id j Hj) as (y & Hy & Hyid). destruct (decide (j = k)) as [->|Hne].
    + rewrite list_lookup_alter_eq, Hx. simpl. eexists. split; [done|]. simpl. congruence.
    + rewrite list_lookup_alter_ne by done. eauto.
  - intros id Hn. rewrite recordsOf_snoc_ne; [auto|]. right. intros <-. rewrite <- Hid in Hn. congruence.
  - by rewrite headOf_app.
Qed.

Lemma scan_inv_new rs st id : scan_inv rs st -> ss_byID st !! id = None ->
  scan_inv rs (mkScan (ss_head st) (ss_forkSeq st) (ss_executions st ++ [mkApprovalExecution id [] false])
                 (<[id := length (ss_executions st)]> (ss_byID st))).
Proof.
  intros [H1 H2 H3 H4] Hn. constructor; simpl; [| | |done].
  - intros k x Hx. apply lookup_app_Some in Hx as [Hx|[Hge Hx]].
    + destruct (H1 k x Hx) as (Hk & ? & ?). split; [|done]. rewrite lookup_insert_ne; [done|]. congruence.
    + apply list_lookup_singleton_Some in Hx as [Hk <-]. simpl. rewrite lookup_insert_eq.
      split; [f_equal; lia|]. by rewrite H3.
  - intros id' k. destruct (decide (id' = id)) as [->|Hne].
    + rewrite lookup_insert_eq. intros [= <-]. eexists. by rewrite lookup_app_r, Nat.sub_diag by done.
    + rewrite lookup_insert_ne by done. intros Hk. destruct (H2 _ _ Hk) as (x & Hx & ?).
      exists x. split; [|done]. by apply lookup_app_l_Some.
  - intros id' Hn'. apply H3. destruct (decide (id' = id)) as [->|Hne]; [done|].
    by rewrite lookup_insert_ne in Hn'.
Qed.

Lemma scanRecord_inv rs st r : scan_inv rs st -> scan_inv (rs ++ [r]) (scanRecord r st).
Proof.
  intros Hinv. unfold scanRecord. destruct (isLifecycle (rec_Event r)) eqn:Hl.
  - destruct Hinv as [H1 H2 H3 H4]. constructor; simpl; [|done| |by rewrite headOf_app].
    + intros k x Hx. rewrite recordsOf_snoc_ne by auto. auto.
    + intros id Hn. rewrite recordsOf_snoc_ne by auto. auto.
  - destruct (ss_byID st !! ExecutionID (rec_Event r)) as [k|] eqn:Hk.
    + destruct (si_byID _ _ Hinv _ _ Hk) as (x & Hx & Hid). by eapply scan_inv_alter.
    + eapply (scan_inv_alter _ _ _ _ (mkApprovalExecution _ [] false) _ (scan_inv_new _ _ _ Hinv Hk));
        [done| |done]. simpl. by rewrite lookup_app_r, Nat.sub_diag.
Qed.

Lemma scanGroup_snoc rs r : scanGroup (rs ++ [r]) = scanRecord r (scanGroup rs).
Proof. unfold scanGroup. by rewrite fold_left_app. Qed.

Lemma scanGroup_inv rs : scan_inv rs (scanGroup rs).
Proof.
  induction rs as [|r rs IH] using rev_ind; [by constructor; [|set_solver|..]|].
  rewrite scanGroup_snoc. by apply scanRecord_inv.
Qed.

(** *** The whole scan *)

Lemma finishState_evidence seen x s : evidence seen s -> evidence seen (finishState x s).
Proof. by intros []. Qed.

(** Only the newest state of an execution can lack its receipt. *)
Definition only_last_open (ss : list ApprovalState) : Prop :=
  forall i s, ss !! i = Some s -> as_Receipt s = None -> S i = length ss.

Lemma recordsOf_id id rs : Forall (fun r => ExecutionID (rec_Event r) = id) (recordsOf id rs).
Proof. apply list.Forall_forall. intros r Hr. by apply list_elem_of_filter in Hr as [[_ ?] _]. Qed.

Lemma recordsOf_sub id rs : recordsOf id rs ⊆ rs.
Proof. intros r Hr. by apply list_elem_of_filter in Hr as [_ ?]. Qed.

Lemma inspect_inv_init id seen : inspect_inv id seen (inspectInit id).
Proof. by constructor. Qed.

Lemma inspect_inv_only_last id seen st x :
  inspect_inv id seen st -> only_last_open (map (finishState x) (in_states st)).
Proof.
  intros [_ _ Ho] i s Hs Hr. rewrite length_map. change (map ?f ?l) with (f <$> l) in Hs.
  apply list_lookup_fmap_Some in Hs as (s0 & -> & Hs). unfold in_states in *.
  rewrite length_app. apply lookup_app_Some in Hs as [Hs|[Hge Hs]].
  - rewrite list.Forall_forall in Ho. by destruct (Ho s0 (list_elem_of_lookup_2 _ _ _ Hs)).
  - destruct (in_last st); simpl in *; [|done]. apply list_lookup_singleton_Some in Hs as [? _]. lia.
Qed.

(** What a successful inspection of an execution yields. *)
Lemma inspectApprovalExecution_Ok x head fork ss rs :
  ax_records x = recordsOf (ax_id x) rs ->
  inspectApprovalExecution x head fork = Ok ss ->
  Forall (fun s => evidence rs s /\ as_ExecutionID s = ax_id x) ss /\ only_last_open ss /\
  exists g, gateRun 0 GateIdle (ax_records x) g.
Proof.
  intros Hrs H. unfold inspectApprovalExecution in H. case_bool_decide as Hid; [done|].
  apply result_bind_Ok in H as (st & Hst & H). apply guard_err_Ok in H as [_ H]. injection H as <-.
  destruct (inspectRecords_inv (ax_id x) head fork (ax_records x) 0 (inspectInit (ax_id x)) st rs)
    as [Hinv Hg]; [apply inspect_inv_init| | |done|done|].
  - rewrite Hrs. apply recordsOf_sub.
  - rewrite Hrs. apply recordsOf_id.
  - split; [|split; [by eapply inspect_inv_only_last|eauto]]. destruct Hinv as [He Hi _].
    apply list.Forall_forall. intros s Hs. apply list_elem_of_In, in_map_iff in Hs as (s0 & <- & Hs).
    apply list_elem_of_In in Hs. rewrite list.Forall_forall in He, Hi.
    split; [by apply finishState_evidence, He|exact (Hi _ Hs)].
Qed.

(** The states of all gated executions, in order. *)
Fixpoint inspectAll (head forkSeq : Z) (execs : list approvalExecution) : res (list ApprovalState) :=
  match execs with
  | [] => Ok []
  | x :: xs =>
      ss ← (if ax_gated x then inspectApprovalExecution x head forkSeq else Ok []);
      rest ← inspectAll head forkSeq xs;
      Ok (ss ++ rest)
  end.

(** The selected index: the last state of the last execution, when that execution has any. *)
Definition selects (head forkSeq : Z) (execs : list approvalExecution) (n : nat) : option nat :=
  match list.last execs with
  | Some x =>
      match (if ax_gated x then inspectApprovalExecution x head forkSeq else Ok []) with
      | Ok (_ :: _) => Some (n - 1)%nat
      | _ => None
      end
  | None => None
  end.

Lemma scanInspect_spec head fork execs states : scanInspect head fork execs states =
  (ss ← inspectAll head fork execs;
   Ok (states ++ ss, selects head fork execs (length (states ++ ss)))).
Proof.
  revert states. induction execs as [|x xs IH]; intros states; simpl; [by rewrite app_nil_r|].
  unfold selects. rewrite last_cons. destruct (ax_gated x) eqn:Hg; simpl.
  - destruct (inspectApprovalExecution x head fork) as [ss|e] eqn:Hi; simpl; [|done].
    destruct xs as [|y ys].
    + simpl. rewrite Hg, Hi. by destruct ss; rewrite ?app_nil_r.
    + replace (match ss with [] => _ | _ => _ end) with (scanInspect head fork (y :: ys) (states ++ ss))
        by (by destruct ss).
      rewrite IH. destruct (inspectAll head fork (y :: ys)) as [rest|e]; simpl; [|done].
      rewrite <- app_assoc. unfold selects. simpl. destruct (list.last (y :: ys)) eqn:Hl; [done|].
      by apply last_None in Hl.
  - rewrite IH. destruct (inspectAll head fork xs) as [rest|e]; simpl; [|done].
    unfold selects. destruct (list.last xs) eqn:Hl; [done|]. by rewrite Hg.
Qed.

Lemma inspectAll_app head fork xs ys : inspectAll head fork (xs ++ ys) =
  (s1 ← inspectAll head fork xs; s2 ← inspectAll head fork ys; Ok (s1 ++ s2)).
Proof.
  induction xs as [|x xs IH]; simpl.
  - by destruct (inspectAll head fork ys).
  - destruct (if ax_gated x then _ else _) as [ss|e]; simpl; [|done]. rewrite IH.
    destruct (inspectAll head fork xs) as [s1|e]; simpl; [|done].
    destruct (inspectAll head fork ys) as [s2|e]; simpl; [|done]. by rewrite app_assoc.
Qed.

Lemma inspectAll_elem head fork execs all : inspectAll head fork execs = Ok all ->
  (forall x, x ∈ execs -> ax_gated x = true ->
     exists ss, inspectApprovalExecution x head fork = Ok ss /\ ss ⊆ all) /\
  (forall s, s ∈ all -> exists x ss, x ∈ execs /\ ax_gated x = true /\
     inspectApprovalExecution x head fork = Ok ss /\ s ∈ ss).
Proof.
  revert all. induction execs as [|x xs IH]; intros all H; simpl in H.
  { injection H as <-. set_solver. }
  apply result_bind_Ok in H as (ss & Hss & H). apply result_bind_Ok in H as (rest & Hrest & H).
  injection H as <-. destruct (IH _ Hrest) as [IH1 IH2]. split.
  - intros y [->|Hy]%elem_of_cons Hg.
    + rewrite Hg in Hss. exists ss. split; [done|set_solver].
    + destruct (IH1 y Hy Hg) as (sy & ? & ?). exists sy. split; [done|set_solver].
  - intros s [Hs|Hs]%elem_of_app.
    + destruct (ax_gated x) eqn:Hg; [|injection Hss as <-; by apply not_elem_of_nil in Hs].
      exists x, ss. set_solver.
    + destruct (IH2 s Hs) as (y & sy & ? & ? & ? & ?). exists y, sy. set_solver.
Qed.

Lemma scanApprovalRecords_Ok rs n scan : scanApprovalRecords rs n = Ok scan <->
  let st := scanGroup (withinCursor n rs) in
  exists all, inspectAll (ss_head st) (ss_forkSeq st) (ss_executions st) = Ok all /\
    scan = mkApprovalScan (ss_head st) all
             (selects (ss_head st) (ss_forkSeq st) (ss_executions st) (length all)).
Proof.
  unfold scanApprovalRecords. rewrite scanInspect_spec. simpl. split.
  - intros (r & Hr & H)%result_bind_Ok. apply result_bind_Ok in Hr as (all & Hall & Hr).
    exists all. injection Hr as <-. injection H as <-. done.
  - intros (all & Hall & ->). by rewrite Hall.
Qed.

Lemma withinCursor_0 rs : withinCursor 0 rs = rs.
Proof. induction rs as [|r rs IH]; simpl; [done|]. by rewrite IH. Qed.

(** *** Appending a decision to a scanned journal *)

Definition setHead (h : Z) (s : ApprovalState) : ApprovalState :=
  mkApprovalState (as_ExecutionID s) (as_Invocation s) (as_Call s) (as_Request s) (as_Decision s)
    (as_Receipt s) h (as_Inherited s) (as_Completed s).
Definition mapHead (h : Z) (st : inspectState) : inspectState :=
  mkInspect (in_invocation st) (setHead h <$> in_older st) (setHead h <$> in_last st) (in_calls st).

Lemma in_states_mapHead h st : in_states (mapHead h st) = setHead h <$> in_states st.
Proof. unfold in_states. simpl. rewrite fmap_app. by destruct (in_last st). Qed.

Lemma in_open_mapHead h st : in_open (mapHead h st) = in_open st.
Proof. unfold in_open. simpl. by destruct (in_last st). Qed.

(** The head is only copied into the states: inspection does not depend on it. *)
Lemma inspectToolCall_head id h h' f r st :
  inspectToolCall id h' f r (mapHead h' st) = mapHead h' <$> inspectToolCall id h f r st.
Proof.
  unfold inspectToolCall. destruct (ev_ToolCall (rec_Event r)) as [c|]; [|done]. simpl.
  repeat (case_match; simpl; try done); unfold mapHead at 1; simpl;
    by rewrite <- in_states_mapHead.
Qed.

Lemma inspectRecord_head id h h' f i r st :
  inspectRecord id h' f i r (mapHead h' st) = mapHead h' <$> inspectRecord id h f i r st.
Proof.
  unfold inspectRecord. rewrite in_open_mapHead.
  destruct (Kind (rec_Event r)); simpl; try (by repeat case_match).
  - destruct (in_open st); [done|]. apply inspectToolCall_head.
  - unfold inspectToolResult. rewrite in_open_mapHead. destruct (in_open st) eqn:Ho.
    + unfold in_open in Ho. destruct (in_last st) as [s|] eqn:Hl; [|done]. simpl. rewrite Hl. simpl.
      unfold guard_err. by repeat (case_match; simpl; try done).
    + unfold inspectUnbound. by repeat (case_match; simpl; try done).
  - unfold inspectRequest. rewrite in_open_mapHead. simpl. destruct (in_last st); simpl; by repeat case_match.
  - unfold inspectDecision. rewrite in_open_mapHead. simpl. destruct (in_last st); simpl; by repeat case_match.
Qed.

Lemma inspectRecords_head id h h' f rs : forall i st,
  inspectRecords id h' f i rs (mapHead h' st) = mapHead h' <$> inspectRecords id h f i rs st.
Proof.
  induction rs as [|r rs IH]; intros i st; simpl; [done|].
  rewrite (inspectRecord_head id h h'). by destruct (inspectRecord id h f i r st); simpl.
Qed.

Lemma inspectRecords_app id h f rs rs' : forall i st, inspectRecords id h f i (rs ++ rs') st =
  (st' ← inspectRecords id h f i rs st; inspectRecords id h f (i + length rs) rs' st').
Proof.
  induction rs as [|r rs IH]; intros i st; simpl.
  - by rewrite Nat.add_0_r.
  - destruct (inspectRecord id h f i r st) as [st1|e]; simpl; [|done]. rewrite IH.
    by replace (S i + length rs)%nat with (i + S (length rs))%nat by lia.
Qed.

Lemma finishState_setHead x h s : finishState x (setHead h s) = setHead h (finishState x s).
Proof. done. Qed.

Lemma inspectApprovalExecution_head x h h' f ss : inspectApprovalExecution x h f = Ok ss ->
  inspectApprovalExecution x h' f = Ok (setHead h' <$> ss).
Proof.
  unfold inspectApprovalExecution. case_bool_decide; [done|]. intros Hi.
  apply result_bind_Ok in Hi as (st & Hst & Hg). apply guard_err_Ok in Hg as [Hv [= <-]].
  change (inspectInit (ax_id x)) with (mapHead h' (inspectInit (ax_id x))).
  rewrite (inspectRecords_head _ h), Hst. simpl. rewrite Hv. simpl. f_equal.
  rewrite in_states_mapHead. change (map ?g ?l) with (g <$> l). rewrite <- !list_fmap_compose.
  by apply list_fmap_ext.
Qed.

Lemma inspectAll_head h h' f execs all : inspectAll h f execs = Ok all ->
  inspectAll h' f execs = Ok (setHead h' <$> all).
Proof.
  revert all. induction execs as [|x xs IH]; intros all Hi; simpl in *; [by injection Hi as <-|].
  apply result_bind_Ok in Hi as (ss & Hss & Hi). apply result_bind_Ok in Hi as (rest & Hr & [= <-]).
  rewrite (IH _ Hr), fmap_app. destruct (ax_gated x).
  - by rewrite (inspectApprovalExecution_head _ _ h' _ _ Hss).
  - by injection Hss as <-.
Qed.

(** Without a newest state there is no older one. *)
Lemma inspectRecords_older id h f rs : forall i st st',
  inspectRecords id h f i rs st = Ok st' -> (in_last st = None -> in_older st = []) ->
  in_last st' = None -> in_older st' = [].
Proof.
  induction rs as [|r rs IH]; intros i st st' Hi Ho; simpl in Hi; [by injection Hi as <-|].
  apply result_bind_Ok in Hi as (st1 & H1 & H2). apply (IH _ _ _ H2).
  unfold inspectRecord in H1. destruct (Kind (rec_Event r)); simpl in H1;
    try (by repeat break_match_in H1; simplify_eq/=; auto).
  - unfold inspectToolCall in H1. by repeat break_match_in H1; simplify_eq/=; auto.
  - apply inspectToolResult_Ok in H1 as [[_ ->]|(? & ? & ? & ? & ? & ? & ? & ? & ? & ? & ? & ? & ? & ? & ? & ->)]; done.
  - by apply inspectRequest_Ok in H1 as (? & ? & ? & ? & ? & ? & ? & ->).
  - by apply inspectDecision_Ok in H1 as (? & ? & ? & ? & ? & ? & ? & ? & ? & ? & ->).
Qed.

(** The inspection of an execution whose newest gate gets the decision record [r]. *)
Lemma inspectApprovalExecution_decision x h h' f pre t q r a :
  inspectApprovalExecution x h f = Ok (pre ++ [t]) ->
  as_Request t = Some q -> as_Decision t = None -> as_Receipt t = None ->
  Kind (rec_Event r) = EventApprovalResult -> ev_ApprovalResult (rec_Event r) = Some a ->
  res_ToolCallID a = tc_ID (as_Call t) -> RequestSeq a = Seq q ->
  inspectApprovalExecution (mkApprovalExecution (ax_id x) (ax_records x ++ [r]) true) h' f =
    Ok ((setHead h' <$> pre) ++ [setDecision r (setHead h' t)]).
Proof.
  intros Hi Hq Hd Hr Hk Ha Hid Hs. unfold inspectApprovalExecution in *. simpl.
  case_bool_decide; [done|].
  apply result_bind_Ok in Hi as (st & Hst & Hg). apply guard_err_Ok in Hg as [Hv [= Hm]].
  change (inspectInit (ax_id x)) with (mapHead h' (inspectInit (ax_id x))).
  rewrite inspectRecords_app, (inspectRecords_head _ h), Hst. simpl.
  unfold in_states in Hm. destruct (in_last st) as [last|] eqn:Hl; simpl in Hm.
  2: { pose proof (inspectRecords_older _ _ _ _ _ _ _ Hst (fun _ => eq_refl) Hl) as Hn.
    rewrite Hn in Hm. by destruct pre. }
  rewrite map_app in Hm. apply app_inj_tail in Hm as [Hpre Ht].
  assert (inspectDecision r (mapHead h' st) = Ok (setLast (setDecision r (setHead h' last)) (mapHead h' st))) as Hdec.
  { apply inspectDecision_Ok. exists a, (setHead h' last), q. rewrite in_open_mapHead. simpl.
    unfold in_open. rewrite Hl. subst t. simpl in *. rewrite Hr. auto 10. }
  unfold inspectRecord. rewrite Hk, Hdec. simpl. rewrite Hv. simpl. f_equal.
  unfold in_states. simpl. rewrite map_app. subst pre t. f_equal.
  change (map ?g ?l) with (g <$> l). rewrite <- !list_fmap_compose. by apply list_fmap_ext.
Qed.

(** The selected state is the last one, and its execution the last of the grouping. *)
Lemma selects_last h f execs all i t : inspectAll h f execs = Ok all ->
  selects h f execs (length all) = Some i -> all !! i = Some t ->
  exists front x s1 pre, execs = front ++ [x] /\ ax_gated x = true /\ inspectAll h f front = Ok s1 /\
    inspectApprovalExecution x h f = Ok (pre ++ [t]) /\ all = (s1 ++ pre) ++ [t] /\ i = length (s1 ++ pre).
Proof.
  intros Hall Hsel Ht. destruct execs as [|x front _] using rev_ind; [done|].
  unfold selects in Hsel. rewrite last_snoc in Hsel. rewrite inspectAll_app in Hall.
  apply result_bind_Ok in Hall as (s1 & Hs1 & Hall). apply result_bind_Ok in Hall as (s2 & Hs2 & [= <-]).
  simpl in Hs2. apply result_bind_Ok in Hs2 as (ss & Hss & [= <-]). rewrite Hss in Hsel.
  destruct (ax_gated x) eqn:Hg; [|injection Hss as <-; done].
  destruct ss as [|t' pre _] using rev_ind; [done|].
  assert (i = length (s1 ++ pre)) as ->.
  { destruct (pre ++ [t']) as [|? ?] eqn:He; [by destruct pre|]. injection Hsel as <-.
    rewrite app_nil_r, <- He, !length_app. simpl. lia. }
  rewrite app_nil_r, app_assoc, lookup_app_r, Nat.sub_diag in Ht by done. injection Ht as ->.
  exists front, x, s1, pre. rewrite app_nil_r, app_assoc. auto 10.
Qed.

Lemma alter_snoc {A} (g : A -> A) front x : alter g (length front) (front ++ [x]) = front ++ [g x].
Proof. induction front as [|y front IH]; simpl; [done|]. by f_equal. Qed.

(** Committing a decision for the selected, undecided state: the new scan is the old one with the
    decision recorded in that state and the head advanced. *)
Lemma scan_append_decision rs scan i t q r a :
  scanApprovalRecords rs 0 = Ok scan -> sc_selected scan = Some i -> sc_states scan !! i = Some t ->
  as_Request t = Some q -> as_Decision t = None -> as_Receipt t = None ->
  Kind (rec_Event r) = EventApprovalResult -> ev_ApprovalResult (rec_Event r) = Some a ->
  ExecutionID (rec_Event r) = as_ExecutionID t ->
  res_ToolCallID a = tc_ID (as_Call t) -> RequestSeq a = Seq q ->
  exists pre, sc_states scan = pre ++ [t] /\ i = length pre /\
    scanApprovalRecords (rs ++ [r]) 0 =
      Ok (mkApprovalScan (Seq r) ((setHead (Seq r) <$> pre) ++ [setDecision r (setHead (Seq r) t)]) (Some i)).
Proof.
  intros Hscan Hsel Ht Hq Hd Hr Hk Ha Hx Hid Hs.
  apply scanApprovalRecords_Ok in Hscan as (all & Hall & ->). simpl in *. rewrite withinCursor_0 in *.
  destruct (selects_last _ _ _ _ _ _ Hall Hsel Ht) as (front & x & s1 & pre & He & Hg & Hs1 & Hi & -> & ->).
  exists (s1 ++ pre). do 2 (split; [done|]).
  destruct (scanGroup_inv rs) as [G1 _ _ _].
  assert (ss_executions (scanGroup rs) !! length front = Some x) as Hlk
    by (by rewrite He, lookup_app_r, Nat.sub_diag by done).
  destruct (G1 _ _ Hlk) as (Hby & Hrs & _).
  assert (as_ExecutionID t = ax_id x) as Htx.
  { destruct (inspectApprovalExecution_Ok _ _ _ _ rs Hrs Hi) as [Hf _].
    apply Forall_app in Hf as [_ [[_ ?] _]%Forall_cons_iff]. done. }
  assert (isLifecycle (rec_Event r) = false) as Hl by (unfold isLifecycle; by rewrite Hk).
  assert (gatedEvidence (rec_Event r) = true) as Hge by (unfold gatedEvidence; by rewrite Hk).
  apply scanApprovalRecords_Ok. rewrite withinCursor_0, scanGroup_snoc. unfold scanRecord.
  rewrite Hl, Hx, Htx, Hby, He, alter_snoc, Hge, orb_true_r. simpl.
  pose proof (inspectApprovalExecution_decision _ _ (Seq r) _ _ _ _ _ _ Hi Hq Hd Hr Hk Ha Hid Hs) as Hi'.
  eexists. split.
  - rewrite inspectAll_app, (inspectAll_head _ (Seq r) _ _ _ Hs1). simpl. rewrite Hi'. simpl. done.
  - unfold selects. rewrite last_snoc. simpl. rewrite Hi'.
    rewrite app_nil_r, fmap_app, <- app_assoc. f_equal.
    destruct ((setHead (Seq r) <$> pre) ++ _) eqn:Hnil; [by destruct pre|].
    rewrite <- Hnil, !length_app, !length_fmap. simpl. f_equal. lia.
Qed.

(** *** Targets *)

Lemma findTarget_shift k d ss :
  findTarget k d ss = (fun p => ((k + fst p)%nat, snd p)) <$> findTarget 0 d ss.
Proof.
  revert k. induction ss as [|s ss IH]; intros k; simpl; [done|]. destruct (addresses d s); simpl.
  - by rewrite Nat.add_0_r.
  - rewrite (IH (S k)), (IH 1%nat). destruct (findTarget 0 d ss) as [[j s']|]; simpl; [|done].
    do 2 f_equal. lia.
Qed.

Lemma findTarget_spec d ss i s : findTarget 0 d ss = Some (i, s) <->
  ss !! i = Some s /\ addresses d s = true /\
  (forall j s', (j < i)%nat -> ss !! j = Some s' -> addresses d s' = false).
Proof.
  revert i. induction ss as [|x xs IH]; intros i; simpl; [split; [done|by intros [? _]]|].
  destruct (addresses d x) eqn:Hx.
  - split.
    + intros [= <- <-]. repeat split; [done|]. lia.
    + intros (Hi & Hs & Hlt). destruct i as [|i]; [by injection Hi as ->|].
      rewrite (Hlt 0%nat x) in Hx by (done || lia). done.
  - rewrite findTarget_shift. destruct i as [|i].
    + split; [by destruct (findTarget 0 d xs) as [[j y]|]|]. intros ([= ->] & Hs & _). congruence.
    + split.
      * destruct (findTarget 0 d xs) as [[j y]|] eqn:Hf; [|done]. simpl. intros [= -> ->].
        destruct (proj1 (IH i) eq_refl) as (Hi & Hs & Hlt). repeat split; [done..|].
        intros [|j'] s' Hj Hs'; [by injection Hs' as <-|]. apply (Hlt j'); [lia|done].
      * intros (Hi & Hs & Hlt). replace (findTarget 0 d xs) with (Some (i, s)); [done|].
        symmetry. apply IH. repeat split; [done..|]. intros j s' Hj. apply (Hlt (S j)). lia.
Qed.

(** A decision's tuple. *)
Lemma addresses_true d s : addresses d s = true <-> as_ExecutionID s = dec_ExecutionID d /\
  tc_ID (as_Call s) = dec_ToolCallID d /\ exists q, as_Request s = Some q /\ Seq q = dec_RequestSeq d.
Proof.
  unfold addresses. rewrite !andb_true_iff, !bool_decide_eq_true. destruct (as_Request s) as [q|].
  - rewrite Z.eqb_eq. naive_solver.
  - naive_solver.
Qed.

(** When a new decision may be committed. *)
Lemma approveCheck_None scan d : approveCheck scan d = Ok None <-> exists i t,
  findTarget 0 d (sc_states scan) = Some (i, t) /\ as_Inherited t = false /\ as_Decision t = None /\
  sc_selected scan = Some i /\ as_Completed t = false /\ as_Receipt t = None.
Proof.
  unfold approveCheck. split.
  - intros H. repeat (break_match_in H; simplify_eq/=; try done). dec_bool. eauto 10.
  - intros (i & t & -> & -> & -> & -> & -> & ->). by rewrite !bool_decide_eq_true_2.
Qed.

(** What an exact retry returns. *)
Lemma approveCheck_Some scan d old : approveCheck scan d = Ok (Some old) <-> exists i t a,
  findTarget 0 d (sc_states scan) = Some (i, t) /\ as_Inherited t = false /\ as_Decision t = Some old /\
  ev_ApprovalResult (rec_Event old) = Some a /\ Approved a = dec_Approved d /\ res_Reason a = dec_Reason d /\
  Actor (rec_Event old) = dec_Identity d.
Proof.
  unfold approveCheck. split.
  - intros H. repeat (break_match_in H; simplify_eq/=; try done). dec_bool.
    do 3 eexists. repeat split; eauto.
  - intros (i & t & a & -> & -> & -> & -> & -> & -> & ->). rewrite eqb_reflx, !bool_decide_eq_true_2 by done. done.
Qed.

(** The target survives the update of the states when the last one is the target. *)
Lemma findTarget_update d d' h pre t t' :
  findTarget 0 d (pre ++ [t]) = Some (length pre, t) ->
  (forall s, addresses d' s = addresses d s) -> addresses d t' = true ->
  findTarget 0 d' ((setHead h <$> pre) ++ [t']) = Some (length pre, t').
Proof.
  intros (_ & _ & Hlt)%findTarget_spec Hdd Ht'. apply findTarget_spec. split; [|split].
  - by rewrite lookup_app_r, length_fmap, Nat.sub_diag by (by rewrite length_fmap).
  - by rewrite Hdd.
  - intros j s Hj Hs. rewrite lookup_app_l, list_lookup_fmap in Hs by (by rewrite length_fmap).
    destruct (pre !! j) as [s0|] eqn:Hs0; [|done]. injection Hs as <-. rewrite Hdd.
    apply (Hlt j s0 Hj). by apply lookup_app_l_Some.
Qed.

(** *** A scanned journal that goes on *)

(** What later records leave of a state: it may only be completed. *)
Record grows (s s' : ApprovalState) : Prop := mkGrows {
  gr_id : as_ExecutionID s' = as_ExecutionID s;
  gr_call : as_Call s' = as_Call s;
  gr_inherited : as_Inherited s' = as_Inherited s;
  gr_request : forall q, as_Request s = Some q -> as_Request s' = Some q;
  gr_decision : forall q, as_Decision s = Some q -> as_Decision s' = Some q;
}.
Definition grown (ss ss' : list ApprovalState) : Prop := exists l extra, ss' = l ++ extra /\ Forall2 grows ss l.

#[export] Instance grows_preorder : PreOrder grows.
Proof.
  split; [by constructor|]. intros s1 s2 s3 [] []. constructor; try congruence; auto.
Qed.
Lemma grown_same ss : grown ss ss.
Proof. exists ss, []. rewrite app_nil_r. split; [done|]. by induction ss; constructor. Qed.
Lemma grown_trans ss1 ss2 ss3 : grown ss1 ss2 -> grown ss2 ss3 -> grown ss1 ss3.
Proof.
  intros (l & e & -> & Hl) (l' & e' & -> & Hl'). apply Forall2_app_inv_l in Hl' as (l1 & l2 & H1 & H2 & ->).
  exists l1, (l2 ++ e'). rewrite app_assoc. split; [done|]. clear - Hl H1. revert l1 H1.
  induction Hl as [|s t ss ts Hs _ IH]; intros l1 H1; inversion H1; subst; constructor; [by etransitivity|by apply IH].
Qed.
Lemma grown_snoc ss s : grown ss (ss ++ [s]).
Proof. exists ss, [s]. split; [done|]. by induction ss; constructor. Qed.
Lemma grown_map f ss ss' : (forall s, grows s (f s)) -> (forall s, grows (f s) s) -> grown ss ss' -> grown (f <$> ss) ss'.
Proof.
  intros _ Hf (l & e & -> & Hl). exists l, e. split; [done|]. induction Hl; cbn; constructor; first [done|by etransitivity; [apply Hf|]].
Qed.
Lemma grown_map_r f ss ss' : (forall s, grows s (f s)) -> grown ss ss' -> grown ss (f <$> ss').
Proof.
  intros Hf (l & e & -> & Hl). exists (f <$> l), (f <$> e). rewrite fmap_app. split; [done|].
  induction Hl; cbn; constructor; first [done|by etransitivity; [|apply Hf]].
Qed.

Lemma grown_setLast st s s' : in_last st = Some s -> grows s s' -> grown (in_states st) (in_states (setLast s' st)).
Proof.
  intros Hl Hg. unfold in_states. rewrite Hl. simpl. exists (in_older st ++ [s']), []. rewrite app_nil_r. split; [done|].
  apply Forall2_app; [by induction (in_older st); constructor|by constructor].
Qed.

Lemma inspectRecord_grown id h f i r st st' : inspectRecord id h f i r st = Ok st' -> grown (in_states st) (in_states st').
Proof.
  unfold inspectRecord. destruct (Kind (rec_Event r)); intros Hi;
    try (by repeat break_match_in Hi; simplify_eq/=; apply grown_same).
  - destruct (in_open st); [done|]. unfold inspectToolCall in Hi.
    repeat (break_match_in Hi; simplify_eq/=; try done); first [apply grown_same|apply grown_snoc].
  - apply inspectToolResult_Ok in Hi as [[_ ->]|(? & last & q & dr & d & _ & Hl & _ & _ & _ & _ & _ & _ & _ & _ & ->)]; [apply grown_same|].
    eapply grown_setLast; [exact Hl|]. by constructor.
  - apply inspectRequest_Ok in Hi as (a & last & _ & Hl & _ & Hq & _ & ->). eapply grown_setLast; [exact Hl|].
    constructor; try done. simpl. congruence.
  - apply inspectDecision_Ok in Hi as (d & last & q & _ & Hl & _ & _ & Hn & _ & _ & ->). eapply grown_setLast; [exact Hl|].
    constructor; try done. simpl. congruence.
Qed.
Lemma inspectRecords_grown id h f rs : forall i st st', inspectRecords id h f i rs st = Ok st' -> grown (in_states st) (in_states st').
Proof.
  induction rs as [|r rs IH]; intros i st st' Hi; simpl in Hi; [injection Hi as <-; apply grown_same|].
  apply result_bind_Ok in Hi as (st1 & H1 & H2). eapply grown_trans; [by eapply inspectRecord_grown|by eapply IH].
Qed.

Lemma inspectApprovalExecution_grown x g h h' f more ss ss2 : inspectApprovalExecution x h f = Ok ss ->
  inspectApprovalExecution (mkApprovalExecution (ax_id x) (ax_records x ++ more) g) h' f = Ok ss2 -> grown ss ss2.
Proof.
  unfold inspectApprovalExecution. simpl. case_bool_decide; [done|]. intros Hi Hi2.
  apply result_bind_Ok in Hi as (st & Hst & Hg). apply guard_err_Ok in Hg as [_ [= <-]].
  apply result_bind_Ok in Hi2 as (st2 & Hst2 & Hg2). apply guard_err_Ok in Hg2 as [_ [= <-]].
  change (inspectInit (ax_id x)) with (mapHead h' (inspectInit (ax_id x))) in Hst2.
  rewrite inspectRecords_app, (inspectRecords_head _ h), Hst in Hst2. simpl in Hst2.
  apply inspectRecords_grown in Hst2. rewrite in_states_mapHead in Hst2.
  change (map ?g ?l) with (g <$> l). apply grown_map; [by constructor..|]. apply grown_map_r; [by constructor|].
  eapply grown_trans; [|exact Hst2]. eapply grown_map_r; [by constructor|]. apply grown_same.
Qed.

(** The gated calls of an execution have distinct IDs. *)
Definition callIDs (ss : list ApprovalState) : list string := (fun s => tc_ID (as_Call s)) <$> ss.
Definition distinct (st : inspectState) : Prop :=
  NoDup (callIDs (in_states st)) /\ forall s, s ∈ in_states st -> in_calls st !! tc_ID (as_Call s) = Some true.
Lemma distinct_setLast st s s' : in_last st = Some s -> as_Call s' = as_Call s -> distinct st -> distinct (setLast s' st).
Proof.
  intros Hl Hc [Hn Hi]. unfold distinct, in_states, callIDs in *. rewrite Hl in *. simpl in *. split.
  - rewrite fmap_app in *. simpl in *. by rewrite Hc.
  - intros t [Ht|Ht]%elem_of_app; [apply Hi; set_solver|]. apply list_elem_of_singleton in Ht as ->. rewrite Hc. apply Hi. set_solver.
Qed.
Lemma inspectRecord_distinct id h f i r st st' : distinct st -> inspectRecord id h f i r st = Ok st' -> distinct st'.
Proof.
  intros Hd. unfold inspectRecord. destruct (Kind (rec_Event r)); intros Hi;
    try (by repeat break_match_in Hi; simplify_eq/=).
  - destruct (in_open st); [done|]. unfold inspectToolCall in Hi. destruct (ev_ToolCall (rec_Event r)) as [c|]; [|done].
    simpl in Hi. destruct Hd as [Hn Hc]. destruct (match in_calls st !! tc_ID c with Some _ => _ | None => _ end) eqn:Hdup; [done|].
    assert (Hother : forall s, s ∈ in_states st -> tc_ID (as_Call s) <> tc_ID c).
    { intros s Hs He. specialize (Hc s Hs). rewrite <- He, Hc in Hdup. done. }
    case_bool_decide as Hm; simpl in Hi.
    + repeat (break_match_in Hi; simplify_eq/=; try done). split; unfold in_states; simpl.
      * unfold callIDs in *. rewrite fmap_app. apply list.NoDup_app. split; [done|]. split; [|apply NoDup_singleton].
        intros x (s & -> & Hs)%list_elem_of_fmap Hx. apply list_elem_of_singleton in Hx. by apply (Hother s).
      * intros s [Hs|Hs]%elem_of_app; [rewrite lookup_insert_ne by (symmetry; by apply Hother); by apply Hc|].
        apply list_elem_of_singleton in Hs as ->. simpl. by rewrite lookup_insert_eq.
    + injection Hi as <-. split; [done|]. simpl. intros s Hs. rewrite lookup_insert_ne by (symmetry; by apply Hother). by apply Hc.
  - apply inspectToolResult_Ok in Hi as [[_ ->]|(? & last & q & dr & d & _ & Hl & _ & _ & _ & _ & _ & _ & _ & _ & ->)]; [done|].
    by eapply distinct_setLast.
  - apply inspectRequest_Ok in Hi as (a & last & _ & Hl & _ & Hq & _ & ->). by eapply distinct_setLast.
  - apply inspectDecision_Ok in Hi as (d & last & q & _ & Hl & _ & _ & Hn & _ & _ & ->). by eapply distinct_setLast.
Qed.
Lemma inspectRecords_distinct id h f rs : forall i st st', distinct st -> inspectRecords id h f i rs st = Ok st' -> distinct st'.
Proof.
  induction rs as [|r rs IH]; intros i st st' Hd Hi; simpl in Hi; [by injection Hi as <-|].
  apply result_bind_Ok in Hi as (st1 & H1 & H2). eapply IH; [|exact H2]. by eapply inspectRecord_distinct.
Qed.
Lemma inspectApprovalExecution_distinct x h f ss : inspectApprovalExecution x h f = Ok ss -> NoDup (callIDs ss).
Proof.
  unfold inspectApprovalExecution. case_bool_decide; [done|]. intros Hi.
  apply result_bind_Ok in Hi as (st & Hst & Hg). apply guard_err_Ok in Hg as [_ [= <-]].
  assert (distinct st) as [Hn _] by (eapply inspectRecords_distinct; [|exact Hst]; split; [constructor|set_solver]).
  unfold callIDs in *. change (map ?g ?l) with (g <$> l). rewrite <- list_fmap_compose. exact Hn.
Qed.

(** Without a fork marker the fork sequence stays. *)
Lemma scanGroup_app rs more : scanGroup (rs ++ more) = fold_left (fun st r => scanRecord r st) more (scanGroup rs).
Proof. unfold scanGroup. apply fold_left_app. Qed.
Lemma scanGroup_noFork rs more : Forall (fun r => isLifecycle (rec_Event r) && isForkMarker (rec_Event r) = false) more ->
  ss_forkSeq (scanGroup (rs ++ more)) = ss_forkSeq (scanGroup rs).
Proof.
  induction more as [|r more IH] using rev_ind; [by rewrite app_nil_r|]. intros [Hm Hr]%Forall_app.
  apply Forall_cons_iff in Hr as [Hr _]. rewrite app_assoc, scanGroup_snoc. rewrite <- IH by done. unfold scanRecord.
  destruct (isLifecycle (rec_Event r)); [cbn in Hr; by rewrite Hr|].
  by destruct (ss_byID _ !! _).
Qed.

Lemma executionRecords_app id rs more : recordsOf id (rs ++ more) = recordsOf id rs ++ recordsOf id more.
Proof. unfold recordsOf. apply list.filter_app. Qed.

(** The newest state of a scan in a longer journal: the one state that its tuple addresses there. *)
Lemma scan_continued rs more scan i t scan2 : scanApprovalRecords rs 0 = Ok scan ->
  sc_selected scan = Some i -> sc_states scan !! i = Some t ->
  Forall (fun r => isLifecycle (rec_Event r) && isForkMarker (rec_Event r) = false) more ->
  scanApprovalRecords (rs ++ more) 0 = Ok scan2 ->
  exists t2, grows t t2 /\ t2 ∈ sc_states scan2 /\
    forall s, s ∈ sc_states scan2 -> as_ExecutionID s = as_ExecutionID t -> tc_ID (as_Call s) = tc_ID (as_Call t) -> s = t2.
Proof.
  intros Hscan Hsel Ht Hmore Hscan2.
  apply scanApprovalRecords_Ok in Hscan as (all & Hall & ->). apply scanApprovalRecords_Ok in Hscan2 as (all2 & Hall2 & ->).
  simpl in *. rewrite withinCursor_0 in *.
  destruct (selects_last _ _ _ _ _ _ Hall Hsel Ht) as (front & x & s1 & pre & He & Hg & Hs1 & Hi & -> & ->).
  destruct (scanGroup_inv rs) as [G1 _ _ _].
  assert (ss_executions (scanGroup rs) !! length front = Some x) as Hlk by (by rewrite He, lookup_app_r, Nat.sub_diag by done).
  destruct (G1 _ _ Hlk) as (_ & Hrs & Hgx).
  assert (as_ExecutionID t = ax_id x) as Htx.
  { destruct (inspectApprovalExecution_Ok _ _ _ _ rs Hrs Hi) as [Hf _]. apply Forall_app in Hf as [_ [[_ ?] _]%Forall_cons_iff]. done. }
  pose proof (scanGroup_inv (rs ++ more)) as Hinv2. destruct Hinv2 as [K1 K2 K3 _].
  destruct (ss_byID (scanGroup (rs ++ more)) !! ax_id x) as [k|] eqn:Hk.
  2: { specialize (K3 _ Hk). rewrite executionRecords_app, <- Hrs in K3. apply app_eq_nil in K3 as [K3 _].
       rewrite Hg, K3 in Hgx. done. }
  destruct (K2 _ _ Hk) as (x2 & Hx2 & Hid2). destruct (K1 _ _ Hx2) as (_ & Hrs2 & Hg2).
  rewrite Hid2, executionRecords_app, <- Hrs in Hrs2.
  assert (ax_gated x2 = true) as Hg2' by (rewrite Hg2, Hrs2, existsb_app, <- Hgx, Hg; done).
  apply inspectAll_elem in Hall2 as [Hin Hout]. destruct (Hin x2) as (ss2 & Hi2 & Hsub); [by eapply list_elem_of_lookup_2|done|].
  assert (Hx2e : x2 = mkApprovalExecution (ax_id x) (ax_records x ++ recordsOf (ax_id x) more) true)
    by (clear - Hid2 Hrs2 Hg2'; destruct x2 as [i2 r2 g2]; simpl in *; by subst).
  rewrite scanGroup_noFork in Hi2 by done. pose proof (inspectApprovalExecution_distinct _ _ _ _ Hi2) as Hnd.
  assert (grown (pre ++ [t]) ss2) as (l & extra & -> & Hl).
  { rewrite Hx2e in Hi2. by eapply inspectApprovalExecution_grown. }
  apply Forall2_app_inv_l in Hl as (l1 & l2 & _ & Hl2 & ->). apply Forall2_cons_inv_l in Hl2 as (t2 & l3 & Ht2 & _ & ->).
  exists t2. split; [done|]. split; [apply Hsub; set_solver|]. intros s Hs Hsx Hsc.
  destruct (Hout s Hs) as (y & ssy & Hy & Hgy & Hiy & Hsy). apply list_elem_of_lookup in Hy as [ky Hy].
  destruct (K1 _ _ Hy) as (Hby & Hry & _).
  assert (as_ExecutionID s = ax_id y) as Hsy'.
  { destruct (inspectApprovalExecution_Ok _ _ _ _ (rs ++ more) Hry Hiy) as [Hf _]. rewrite list.Forall_forall in Hf. by apply Hf. }
  assert (y = x2) as ->.
  { rewrite <- Hsy', Hsx, Htx, Hk in Hby. injection Hby as <-. congruence. }
  rewrite scanGroup_noFork, Hi2 in Hiy by done. injection Hiy as <-.
  apply list_elem_of_lookup in Hsy as [n1 Hn1].
  assert (((l1 ++ t2 :: l3) ++ extra) !! length l1 = Some t2) as Hn2.
  { rewrite <- app_assoc. simpl. by rewrite lookup_app_r, Nat.sub_diag by done. }
  assert (n1 = length l1) as ->; [|congruence].
  eapply NoDup_lookup; [exact Hnd| |]; unfold callIDs; rewrite list_lookup_fmap.
  - by rewrite Hn1.
  - rewrite Hn2. simpl. rewrite (gr_call _ _ Ht2). by rewrite Hsc.
Qed.

Lemma findTarget_some d ss s : s ∈ ss -> addresses d s = true -> exists i t, findTarget 0 d ss = Some (i, t).
Proof.
  induction ss as [|x ss IH]; intros Hs Ha; [by apply not_elem_of_nil in Hs|]. simpl. destruct (addresses d x) eqn:Hx; [eauto|].
  rewrite findTarget_shift. apply elem_of_cons in Hs as [->|Hs]; [congruence|]. destruct (IH Hs Ha) as (i & t & ->). simpl. eauto.
Qed.

(** ** Properties *)

Section properties.
Context {S : Type} `{StoreLaws S}.

(** A state of the store in which nothing was committed. *)
Definition untouched (s s' : S) : Prop := journal s' = journal s /\ curFence s' = curFence s.

Lemma scanApprovals_run n s s' r : scanApprovals n s = (s', r) -> untouched s s' /\
  (forall scan, r = Ok scan -> scanApprovalRecords (readFrom 1 (journal s)) n = Ok scan).
Proof.
  unfold scanApprovals. destruct (n <? 0); [intros [= <- <-]; by split|]. unM.
  destruct (st_Read 1 s) as [s1 [rs|e]] eqn:Hr; apply read_law in Hr as (Hj & Hf & Hrs); intros [= <- <-];
    (split; [done|]); intros scan; [|done]. by rewrite Hrs.
Qed.

(** The three outcomes of [Approve]: nothing committed (with an exact retry answered from the
    journal), or a validated new decision reached [NewFence] and [Append]. *)
Lemma Approve_run now d s s' r : Approve now d s = (s', r) ->
  (untouched s s' /\ forall rec, r = Ok rec -> exists scan,
     scanApprovalRecords (readFrom 1 (journal s)) 0 = Ok scan /\ approveCheck scan d = Ok (Some rec)) \/
  exists scan, scanApprovalRecords (readFrom 1 (journal s)) 0 = Ok scan /\ approveCheck scan d = Ok None /\
    match r with
    | Ok rec => sc_head scan = headOf (journal s) /\ curFence s' = curFence s + 1 /\
        Fence rec = curFence s' /\ Seq rec = headOf (journal s) + 1 /\ rec_Event rec = decisionEvent now d /\
        journal s' = journal s ++ [setEvent (persisted (decisionEvent now d)) rec]
    | Err _ => journal s' = journal s
    end.
Proof.
  unfold Approve. unM. destruct (st_CheckWritable s) as [s1 [[]|e]] eqn:Hw;
    apply writable_law in Hw as [Hj1 Hf1]; [|intros [= <- <-]; left; split; [by split|done]].
  destruct (bool_decide _ || _ || _); [intros [= <- <-]; left; split; [by split|done]|].
  destruct (scanApprovals 0 s1) as [s2 [scan|e]] eqn:Hs; apply scanApprovals_run in Hs as [[Hj2 Hf2] Hscan];
    [|intros [= <- <-]; left; split; [split; congruence|done]].
  specialize (Hscan scan eq_refl). rewrite Hj1 in Hscan.
  destruct (approveCheck scan d) as [[old|]|e] eqn:Hc; simpl.
  - intros [= <- <-]. left. split; [split; congruence|]. intros rec [= <-]. eauto.
  - intros Hrun. right. exists scan. do 2 (split; [done|]).
    destruct (st_NewFence s2) as [s3 [f|e]] eqn:Hn; apply fence_law in Hn as [Hj3 Hf3];
      [|injection Hrun as <- <-; congruence].
    apply append_law in Hrun as [Hf4 Hr]. destruct r as [rec|e]; [|congruence].
    destruct Hr as (Hh & Hle & Hseq & _ & Hfe & Hev & Hjr).
    rewrite Hj3, Hj2, Hj1 in *. repeat split; [done| | |done|done|done]; lia.
  - intros [= <- <-]. left. split; [split; congruence|done].
Qed.

(** The strict scan is sound: every state it reports is backed by records of the journal. The gated
    call has an ID and an idempotency key; the request names the call; the decision names the call
    and the request's sequence; the receipt names the call and both sequences, and its status agrees
    with the verdict. *)
Theorem approval_scan_sound (rs : list Record_) (n : Z) (scan : approvalScan) :
  scanApprovalRecords rs n = Ok scan -> Forall (evidence (withinCursor n rs)) (sc_states scan).
Proof.
  intros (all & Hall & ->)%scanApprovalRecords_Ok. simpl. apply list.Forall_forall. intros s Hs.
  apply inspectAll_elem in Hall as [_ Hall]. destruct (Hall s Hs) as (x & ss & Hx & _ & Hi & Hin).
  apply list_elem_of_lookup in Hx as [k Hk]. apply (si_exec _ _ (scanGroup_inv _)) in Hk as (_ & Hrs & _).
  destruct (inspectApprovalExecution_Ok _ _ _ _ _ Hrs Hi) as [Hf _].
  rewrite list.Forall_forall in Hf. by apply Hf.
Qed.

(** C14: The scan refines the abstract gate: in a journal it accepts, the records of every execution that
    carries approval evidence form a run of the gate, so between a gated call and its receipt there
    is nothing but its one request, its one decision and ERROR events, and an EXECUTION_START only before
    all of them. *)
Theorem approval_gate_refinement (rs : list Record_) (scan : approvalScan) (id : string) :
  scanApprovalRecords rs 0 = Ok scan ->
  existsb (fun r => gatedEvidence (rec_Event r)) (recordsOf id rs) = true ->
  exists g, gateRun 0 GateIdle (recordsOf id rs) g.
Proof.
  intros (all & Hall & ->)%scanApprovalRecords_Ok Hg. rewrite withinCursor_0 in Hall.
  pose proof (scanGroup_inv rs) as Hinv. destruct (ss_byID (scanGroup rs) !! id) as [k|] eqn:Hk.
  - destruct (si_byID _ _ Hinv _ _ Hk) as (x & Hx & <-). destruct (si_exec _ _ Hinv _ _ Hx) as (_ & Hrs & Hgx).
    apply inspectAll_elem in Hall as [Hall _]. rewrite Hrs, Hg in Hgx.
    destruct (Hall x) as (ss & Hi & _); [by eapply list_elem_of_lookup_2|done|].
    destruct (inspectApprovalExecution_Ok _ _ _ _ _ Hrs Hi) as (_ & _ & Hrun). by rewrite <- Hrs.
  - by rewrite (si_fresh _ _ Hinv _ Hk) in Hg.
Qed.

(** Approve never evicts a writer without cause: unless the tuple addresses the session's own
    selected, undecided request, neither the fence nor the journal moves, whether it fails or answers
    a retry. *)
Theorem Approve_no_eviction (now : Z) (d : ApprovalDecision) (s s' : S) r :
  Approve now d s = (s', r) ->
  untouched s s' \/
  exists scan i t, scanApprovalRecords (readFrom 1 (journal s)) 0 = Ok scan /\
    sc_selected scan = Some i /\ sc_states scan !! i = Some t /\ addresses d t = true /\
    as_Inherited t = false /\ as_Decision t = None /\ as_Receipt t = None /\ as_Completed t = false.
Proof.
  intros [[? _]|(scan & Hs & (i & t & Hf & Hi & Hd & Hsel & Hc & Hr)%approveCheck_None & _)]%Approve_run;
    [by left|right]. apply findTarget_spec in Hf as (Hl & Ha & _). exists scan, i, t. auto 10.
Qed.

(** A successful Approve either answers the decision already recorded for the tuple, changing
    nothing, or commits exactly one record right after the validated head: the decision, under a
    fresh fence. *)
Theorem Approve_commits_once (now : Z) (d : ApprovalDecision) (s s' : S) (rec : Record_) :
  Approve now d s = (s', Ok rec) ->
  (untouched s s' /\ Actor (rec_Event rec) = dec_Identity d /\
   exists a, ev_ApprovalResult (rec_Event rec) = Some a /\ Approved a = dec_Approved d /\
     res_Reason a = dec_Reason d /\ RequestSeq a = dec_RequestSeq d /\ res_ToolCallID a = dec_ToolCallID d) \/
  (journal s' = journal s ++ [setEvent (persisted (decisionEvent now d)) rec] /\
   rec_Event rec = decisionEvent now d /\ Seq rec = headOf (journal s) + 1 /\
   Fence rec = curFence s + 1 /\ curFence s' = curFence s + 1).
Proof.
  intros [[Hu Hrec]|(scan & Hs & Hc & Hh & Hf & Hfe & Hseq & He & Hj)]%Approve_run; [left|right].
  - split; [done|]. destruct (Hrec rec eq_refl) as (scan & Hs & Hc).
    apply approveCheck_Some in Hc as (i & t & a & Hf & _ & Hd & Ha & ? & ? & ?). split; [done|].
    apply findTarget_spec in Hf as (Hl & Had & _). apply addresses_true in Had as (_ & Hid & q & Hq & Hsq).
    apply scanApprovalRecords_Ok in Hs as Hs'. destruct Hs' as (all & Hall & ->). simpl in Hl.
    apply inspectAll_elem in Hall as [_ Hall].
    destruct (Hall t) as (x & ss & Hx & _ & Hi & Hin); [by eapply list_elem_of_lookup_2|].
    apply list_elem_of_lookup in Hx as [k Hk]. apply (si_exec _ _ (scanGroup_inv _)) in Hk as (_ & Hrs & _).
    destruct (inspectApprovalExecution_Ok _ _ _ _ _ Hrs Hi) as [Hev _]. rewrite list.Forall_forall in Hev.
    destruct (Hev t Hin) as [Hevt _]. destruct (ev_decision _ _ Hevt _ Hd) as (_ & _ & q' & a' & Hq' & Ha' & ? & ?).
    exists a. replace a' with a in * by congruence. repeat split; congruence.
  - rewrite Hf in *. auto.
Qed.

(** A later state of the store: its journal only grew, and no fork marker was written to it. *)
Definition laterThan (s s2 : S) : Prop := exists more, journal s2 = journal s ++ more /\ contiguous 0 (journal s2) /\
  Forall (fun r => isLifecycle (rec_Event r) && isForkMarker (rec_Event r) = false) more.

(** The store answers, and the strict scan accepts the journal. *)
Definition scannable (s : S) : Prop :=
  match st_CheckWritable s with (w, Ok _) => exists w' scan, scanApprovals 0 w = (w', Ok scan) | (_, Err _) => False end.

(** A committed decision: the store keeps what was decided, whatever else it normalises. *)
Definition keptDecision (d : ApprovalDecision) (rec : Record_) : Prop :=
  Kind (rec_Event rec) = EventApprovalResult /\ ExecutionID (rec_Event rec) = dec_ExecutionID d /\
  Actor (rec_Event rec) = dec_Identity d /\
  ev_ApprovalResult (rec_Event rec) = ev_ApprovalResult (decisionEvent 0 d).

Definition sameRequest (d d' : ApprovalDecision) : Prop :=
  dec_ExecutionID d' = dec_ExecutionID d /\ dec_ToolCallID d' = dec_ToolCallID d /\ dec_RequestSeq d' = dec_RequestSeq d.
Lemma sameRequest_addresses d d' s : sameRequest d d' -> addresses d' s = addresses d s.
Proof. intros (He & Hc & Hq). unfold addresses. by rewrite He, Hc, Hq. Qed.

(** The scan right after a decision was committed selects the decided state. *)
Lemma Approve_committed now d s s' rec : let dr := setEvent (persisted (decisionEvent now d)) rec in
  contiguous 0 (journal s) -> Approve now d s = (s', Ok rec) -> journal s' = journal s ++ [dr] -> keptDecision d dr ->
  exists scan i t, scanApprovalRecords (journal s') 0 = Ok scan /\ sc_selected scan = Some i /\
    sc_states scan !! i = Some t /\ addresses d t = true /\ as_Decision t = Some dr /\ as_Inherited t = false.
Proof.
  intros dr Hc HA Hj (Hk & Hx & Hact & Ha). change (rec_Event dr) with (persisted (decisionEvent now d)) in *.
  apply Approve_run in HA as [[[Hju _] _]|(scan & Hs & Hcheck & Hh & _ & _ & Hseq & _ & _)].
  { rewrite Hju in Hj. apply (f_equal length) in Hj. rewrite length_app in Hj. simpl in Hj. lia. }
  apply approveCheck_None in Hcheck as (i & t & Hf & Hi & Hd & Hsel & Hcm & Hr).
  pose proof Hf as (Hl & (Hxt & Hidt & q & Hq & Hsq)%addresses_true & _)%findTarget_spec.
  rewrite (contiguous_readFrom_all _ 0) in Hs by (done || lia).
  destruct (scan_append_decision _ _ _ _ _ dr _ Hs Hsel Hl Hq Hd Hr Hk Ha) as (pre & Hpre & -> & Hs');
    [simpl; by rewrite ?Hx, ?Hxt, ?Hidt, ?Hsq..|].
  rewrite Hj. eexists _, (length pre), (setDecision dr (setHead (Seq dr) t)). split; [exact Hs'|]. split; [done|]. split; [|split; [|split; [done|exact Hi]]].
  - simpl. by rewrite lookup_app_r, length_fmap, Nat.sub_diag by (by rewrite length_fmap).
  - apply addresses_true. simpl. eauto.
Qed.

(** What [approveCheck] says in a later journal of a tuple whose decision was committed. *)
Lemma approveCheck_decided rs more scan scan2 i t d d' dr : scanApprovalRecords rs 0 = Ok scan ->
  sc_selected scan = Some i -> sc_states scan !! i = Some t ->
  addresses d t = true -> as_Decision t = Some dr -> as_Inherited t = false ->
  keptDecision d dr -> sameRequest d d' ->
  Forall (fun r => isLifecycle (rec_Event r) && isForkMarker (rec_Event r) = false) more ->
  scanApprovalRecords (rs ++ more) 0 = Ok scan2 ->
  if decide (d' = d) then approveCheck scan2 d' = Ok (Some dr)
  else exists e, approveCheck scan2 d' = Err e /\ errors_Is e ErrInvalidApprovalDecision = true.
Proof.
  intros Hscan Hsel Ht Had Hd Hinh (_ & _ & Hact & Ha) Hsame Hmore Hscan2.
  destruct (scan_continued _ _ _ _ _ _ Hscan Hsel Ht Hmore Hscan2) as (t2 & Hg & Hin & Honly).
  pose proof (gr_decision _ _ Hg _ Hd) as Hd2. pose proof (gr_inherited _ _ Hg) as Hi2. rewrite Hinh in Hi2.
  apply addresses_true in Had as (Hxt & Hidt & q & Hq & Hsq).
  assert (addresses d' t2 = true) as Ha2.
  { rewrite (sameRequest_addresses d) by done. apply addresses_true.
    rewrite (gr_id _ _ Hg), (gr_call _ _ Hg), (gr_request _ _ Hg _ Hq). eauto. }
  destruct (findTarget_some _ _ _ Hin Ha2) as (i2 & t3 & Hf).
  pose proof Hf as (Hl3 & Ha3 & _)%findTarget_spec. rewrite (sameRequest_addresses d) in Ha3 by done.
  apply addresses_true in Ha3 as (Hx3 & Hid3 & _).
  assert (t3 = t2) as -> by (apply Honly; [by eapply list_elem_of_lookup_2|congruence..]).
  unfold approveCheck. rewrite Hf, Hi2, Hd2, Ha, Hact. simpl.
  match goal with |- context [if ?c then Err _ else _] => destruct c eqn:Hcond end; destruct (decide (d' = d)) as [Hdec|Hdec].
  - subst d'. by rewrite Bool.eqb_reflx, !bool_decide_eq_true_2 in Hcond by done.
  - eauto.
  - done.
  - dec_bool. destruct Hsame as (? & ? & ?). destruct Hdec. destruct d, d'; simpl in *; congruence.
Qed.

(** What [Approve] requires of a decision before it looks at the journal. *)
Definition wellFormed (d : ApprovalDecision) : Prop :=
  (bool_decide (dec_ExecutionID d = EmptyString) || bool_decide (dec_ToolCallID d = EmptyString)
    || (dec_RequestSeq d <=? 0)) = false.
Lemma Approve_wellFormed now d s s' rec : Approve now d s = (s', Ok rec) -> wellFormed d.
Proof.
  unfold Approve, wellFormed. unM. destruct (st_CheckWritable s) as [s1 [[]|e]]; [|done].
  by destruct (bool_decide _ || _ || _).
Qed.
Lemma Approve_scannable now d s s' r : scannable s -> wellFormed d -> Approve now d s = (s', r) ->
  exists scan, scanApprovalRecords (readFrom 1 (journal s)) 0 = Ok scan /\
    match approveCheck scan d with Ok (Some old) => r = Ok old | Err e => r = Err e | Ok None => True end.
Proof.
  unfold scannable, wellFormed, Approve. unM. destruct (st_CheckWritable s) as [w [[]|e]] eqn:Hw; [|done].
  intros (w' & scan & Hs) ->. rewrite Hs. apply writable_law in Hw as [Hj _].
  apply scanApprovals_run in Hs as [_ Hs]. rewrite Hj in Hs. intros HA. exists scan. split; [by apply Hs|].
  destruct (approveCheck scan d) as [[old|]|e]; [by injection HA as _ <-|done|by injection HA as _ <-].
Qed.

(** C15: Decisions are final: once a decision is committed, whatever is appended to the journal later
    (the receipt, further calls, newer executions; only no fork marker), no [Approve] that names the same
    request changes the store again, and it succeeds only as an exact retry, answered with the
    committed record. Where the store answers and the journal is scannable, the exact retry does
    succeed and any other verdict, reason or identity is refused as an invalid decision. The store may
    normalise the event it persists as long as it keeps the decision itself. *)
Theorem Approve_final (now now2 : Z) (d d' : ApprovalDecision) (s s' s2 s3 : S) (rec : Record_) (r2 : res Record_) :
  let dr := setEvent (persisted (decisionEvent now d)) rec in
  contiguous 0 (journal s) ->
  Approve now d s = (s', Ok rec) -> journal s' = journal s ++ [dr] -> keptDecision d dr ->
  laterThan s' s2 -> sameRequest d d' -> Approve now2 d' s2 = (s3, r2) ->
  untouched s2 s3 /\
  (forall rec2, r2 = Ok rec2 -> d' = d /\ rec2 = dr) /\
  (scannable s2 -> if decide (d' = d) then r2 = Ok dr
     else exists e, r2 = Err e /\ errors_Is e ErrInvalidApprovalDecision = true).
Proof.
  intros dr Hc HA Hj Hkept (more & Hj2 & Hc2 & Hmore) Hsame HA2.
  destruct (Approve_committed _ _ _ _ _ Hc HA Hj Hkept) as (scan & i & t & Hscan & Hsel & Ht & Had & Hd & Hinh).
  assert (Hcheck : forall scan2, scanApprovalRecords (readFrom 1 (journal s2)) 0 = Ok scan2 ->
    if decide (d' = d) then approveCheck scan2 d' = Ok (Some dr)
    else exists e, approveCheck scan2 d' = Err e /\ errors_Is e ErrInvalidApprovalDecision = true).
  { intros scan2. rewrite (contiguous_readFrom_all _ 0) by (done || lia). rewrite Hj2. by eapply approveCheck_decided. }
  split; [|split].
  - apply Approve_run in HA2 as [[Hu _]|(scan2 & Hs2 & Hn & _)]; [done|].
    specialize (Hcheck _ Hs2). destruct (decide (d' = d)); [congruence|destruct Hcheck as (? & ? & _); congruence].
  - intros rec2 ->. apply Approve_run in HA2 as [[_ Hrec]|(scan2 & Hs2 & Hn & _)].
    + destruct (Hrec _ eq_refl) as (scan2 & Hs2 & Hn). specialize (Hcheck _ Hs2). destruct (decide (d' = d)); [split; congruence|destruct Hcheck as (? & ? & _); congruence].
    + specialize (Hcheck _ Hs2). destruct (decide (d' = d)); [split; congruence|destruct Hcheck as (? & ? & _); congruence].
  - intros Hok. destruct (Approve_scannable now2 d' s2 s3 r2 Hok) as (scan2 & Hs2 & Hr2); [|done|].
    + apply Approve_wellFormed in HA. unfold wellFormed in *. destruct Hsame as (-> & -> & ->). done.
    + specialize (Hcheck _ Hs2). destruct (decide (d' = d)); [by rewrite Hcheck in Hr2|].
      destruct Hcheck as (e & He & His). rewrite He in Hr2. eauto.
Qed.

End properties.

(** *** Witnesses *)

Definition gatedCall : ToolCall := mkToolCall "c1" "deploy" None MediationRequiresApproval "key".

(** A journal parked on one approval request (record 4). *)
Definition gateEvents : list Event :=
  [startEvent "e1" 1; inputEvent "e1" "ship it"; setExecutionID "e1" (evToolCall gatedCall);
   setExecutionID "e1" (evApprovalRequest (mkApprovalRequest "c1" ""))].
Definition gateRecords : list Record_ := imap (fun i e => mkRecord (Z.of_nat i + 1) "" "" 1 e) gateEvents.
Definition gateLog : Log := mkLog gateRecords 1.
Definition gateDecision : ApprovalDecision := mkApprovalDecision "e1" "c1" 4 true "ok" zeroIdentity.
Definition gateScan : approvalScan :=
  match scanApprovalRecords gateRecords 0 with Ok scan => scan | Err _ => mkApprovalScan 0 [] None end.

Lemma approval_scan_sound_witness :
  length (sc_states gateScan) = 1%nat /\ Forall (evidence gateRecords) (sc_states gateScan).
Proof.
  split; [vm_compute; reflexivity|]. apply (approval_scan_sound gateRecords 0). vm_compute. reflexivity.
Defined.

Lemma approval_gate_refinement_witness : exists g, gateRun 0 GateIdle (recordsOf "e1" gateRecords) g.
Proof. apply (approval_gate_refinement gateRecords gateScan); vm_compute; reflexivity. Defined.

(** The log after the decision, and the committed record. *)
Definition decidedLog : Log * res Record_ :=
  let _ := exampleEncoding in Approve 7 gateDecision gateLog.
Definition decidedRecord : Record_ :=
  match snd decidedLog with Ok r => r | Err _ => mkRecord 0 "" "" 0 (event0 EventInput) end.

Lemma Approve_no_eviction_witness :
  let _ := exampleEncoding in
  untouched gateLog (fst decidedLog) \/
  exists scan i t, scanApprovalRecords (readFrom 1 (journal gateLog)) 0 = Ok scan /\
    sc_selected scan = Some i /\ sc_states scan !! i = Some t /\ addresses gateDecision t = true /\
    as_Inherited t = false /\ as_Decision t = None /\ as_Receipt t = None /\ as_Completed t = false.
Proof.
  intros enc. apply (Approve_no_eviction (H := @Log_Store enc) 7 gateDecision gateLog (fst decidedLog) (snd decidedLog)).
  apply surjective_pairing.
Defined.

Lemma Approve_commits_once_witness :
  let _ := exampleEncoding in
  (untouched gateLog (fst decidedLog) /\ Actor (rec_Event decidedRecord) = dec_Identity gateDecision /\
   exists a, ev_ApprovalResult (rec_Event decidedRecord) = Some a /\ Approved a = dec_Approved gateDecision /\
     res_Reason a = dec_Reason gateDecision /\ RequestSeq a = dec_RequestSeq gateDecision /\
     res_ToolCallID a = dec_ToolCallID gateDecision) \/
  (journal (fst decidedLog) =
     journal gateLog ++ [setEvent (persisted (decisionEvent 7 gateDecision)) decidedRecord] /\
   rec_Event decidedRecord = decisionEvent 7 gateDecision /\
   Seq decidedRecord = headOf (journal gateLog) + 1 /\
   Fence decidedRecord = curFence gateLog + 1 /\ curFence (fst decidedLog) = curFence gateLog + 1).
Proof.
  intros enc. apply (Approve_commits_once (H := @Log_Store enc) 7 gateDecision gateLog (fst decidedLog) decidedRecord).
  vm_compute. reflexivity.
Defined.

(** The decided log, later: an error event and a newer execution; and the identity's exact retry there. *)
Definition laterLog : Log := mkLog (records (fst decidedLog) ++
  [mkRecord 6 "" "" 2 (setExecutionID "e1" (evError (mkError 1 "interrupted"))); mkRecord 7 "" "" 2 (startEvent "e2" 7)]) 2.
Definition retriedLog : Log * res Record_ :=
  let _ := exampleEncoding in Approve 9 gateDecision laterLog.

Lemma Approve_final_witness :
  let _ := exampleEncoding in
  let dr := setEvent (persisted (decisionEvent 7 gateDecision)) decidedRecord in
  untouched laterLog (fst retriedLog) /\
  (forall rec2, snd retriedLog = Ok rec2 -> gateDecision = gateDecision /\ rec2 = dr) /\
  (scannable laterLog -> if decide (gateDecision = gateDecision) then snd retriedLog = Ok dr
     else exists e, snd retriedLog = Err e /\ errors_Is e ErrInvalidApprovalDecision = true).
Proof.
  intros enc.
  apply (Approve_final (H := @Log_Store enc) 7 9 gateDecision gateDecision gateLog (fst decidedLog) laterLog
           (fst retriedLog) decidedRecord (snd retriedLog));
    [vm_compute; repeat split; reflexivity|vm_compute; reflexivity..|vm_compute; repeat split; reflexivity| | |].
  - eexists [_; _]. split; [vm_compute; reflexivity|]. split; [vm_compute; repeat split; reflexivity|].
    repeat constructor.
  - by repeat split.
  - unfold retriedLog. apply surjective_pairing.
Defined.

(** In that later log the exact retry is answered with the committed record. *)
Example retriedLog_answer : snd retriedLog = Ok decidedRecord.
Proof. vm_compute. reflexivity. Qed.
