(* ===== verification/Harness.v ===== *)
(** * Harnesses, sinks and tool identity (api/harness.go, controller/tool_identity.go,
    wire/convert.go struct helpers)

    A harness is author code; what the host sees of one [Run] is the sequence of sink calls it makes
    and how each answer shapes the next. [Prog] is that interaction tree for a harness that uses its
    sink from one goroutine, [EventSink] the interface it runs against. *)
From S2P Require Import Prelude GoErrors Api.

(** ** The environment

    What lies outside the repository's code: the clock of the outside world is a counter that every
    observation advances, so that contexts, providers and tools may answer differently each time. *)
Class Host := {
  (** [ctx.Err()] of the execution's context at an observation. *)
  ctxErr : nat -> option goerr;
  (** [crypto/rand.Read] of 8 bytes. *)
  randBytes : nat -> list Z;
  (** [json.Marshal] of a model request. *)
  marshalRequest : ModelRequest -> list Z;
  (** [json.Marshal] of the anchor of a legacy invocation: session UID, sequence text, canonical
      event. *)
  marshalLegacy : string -> string -> list Z -> list Z;
  (** [err.Error()]. *)
  errText : goerr -> string;
  (** [structpb.Struct], [structpb.NewStruct], [Struct.AsMap]. *)
  Struct : Type;
  NewStruct : list (string * any) -> option Struct;
  AsMap : Struct -> list (string * any);
  (** [json.Marshal] then [json.Unmarshal] of a map. *)
  jsonRoundTrip : list (string * any) -> option anymap;
}.

(** ** Go values *)

(** Whether the bits of a float64 are a NaN, or a zero of either sign. *)
Definition floatIsNaN (bits : Z) : bool :=
  (Z.land (Z.shiftr bits 52) 2047 =? 2047) && negb (Z.land bits (2 ^ 52 - 1) =? 0).
Definition floatIsZero (bits : Z) : bool := Z.land bits (2 ^ 63 - 1) =? 0.

Definition floatEq (a b : Z) : bool :=
  negb (floatIsNaN a) && negb (floatIsNaN b) && ((a =? b) || (floatIsZero a && floatIsZero b)).

(** The value of a key in a map given as its members. *)
Fixpoint mapGet (k : string) (kvs : list (string * any)) : option any :=
  match kvs with
  | [] => None
  | (k', v) :: kvs' => if bool_decide (k' = k) then Some v else mapGet k kvs'
  end.

(** [reflect.DeepEqual] on JSON-shaped values: maps by key, slices by position, no conversion
    between dynamic types. *)
Fixpoint deepEqual (a b : any) : bool :=
  match a, b with
  | ANil, ANil => true
  | ABool x, ABool y => Bool.eqb x y
  | AInt x, AInt y => x =? y
  | AFloat x, AFloat y => floatEq x y
  | AString x, AString y => bool_decide (x = y)
  | ASlice xs, ASlice ys =>
      (fix go xs ys := match xs, ys with
        | [], [] => true
        | x :: xs', y :: ys' => deepEqual x y && go xs' ys'
        | _, _ => false
        end) xs ys
  | AMap xs, AMap ys =>
      Nat.eqb (length xs) (length ys) &&
      (fix go xs := match xs with
        | [] => true
        | (k, x) :: xs' => match mapGet k ys with Some y => deepEqual x y | None => false end && go xs'
        end) xs
  | _, _ => false
  end.

(** [reflect.DeepEqual] on two [map[string]any]: nil is only equal to nil. *)
Definition deepEqualMap (a b : anymap) : bool :=
  match a, b with
  | None, None => true
  | Some xs, Some ys => deepEqual (AMap xs) (AMap ys)
  | _, _ => false
  end.

Section Wire.
Context `{Host}.

(** [toStruct(m)]: structpb directly, else through a JSON round trip. *)
Definition toStruct (m : anymap) : option Struct :=
  match m with
  | None => None
  | Some kvs =>
      match NewStruct kvs with
      | Some s => Some s
      | None =>
          match jsonRoundTrip kvs with
          | Some (Some nm) => NewStruct nm
          | Some None => NewStruct []
          | None => None
          end
      end
  end.

(** [fromStruct(s)]. *)
Definition fromStruct (s : option Struct) : anymap :=
  match s with None => None | Some s => Some (AsMap s) end.

(** The [Args] of [wire.ToolCallFromProto(wire.ToolCallToProto(call))]. *)
Definition wireArgs (args : anymap) : anymap := fromStruct (toStruct args).

Definition isNil {A} (o : option A) : bool := match o with None => true | Some _ => false end.

Definition diverged (cause : goerr) : goerr := EJoin "diverged" [ESentinel ErrReplayDiverged; cause].
Definition divergedText (text : string) : goerr := EWrap text (ESentinel ErrReplayDiverged).

(** [matchToolCall(emitted, recorded)]. *)
Definition matchToolCall (emitted : ToolCall) (recorded : option ToolCall) : option goerr :=
  match recorded with
  | None => Some (divergedText "recorded tool call missing its payload")
  | Some recorded =>
      match
        match tc_Mediation recorded with
        | MediationControllerMediated => None
        | MediationRequiresApproval =>
            if bool_decide (tc_ID recorded = EmptyString)
            then Some (divergedText "recorded approval call has no ID") else None
        | _ => Some (diverged (ESentinel ErrUnmediatedToolCall))
        end
      with
      | Some e => Some e
      | None =>
          if bool_decide (IdempotencyKey recorded = EmptyString)
          then Some (diverged (ESentinel ErrMissingIdempotencyKey))
          else if negb (bool_decide (tc_ID emitted = tc_ID recorded))
          then Some (divergedText "tool call ID mismatch")
          else if negb (bool_decide (Tool emitted = Tool recorded))
          then Some (divergedText "tool name mismatch")
          else if negb (bool_decide (tc_Mediation emitted = tc_Mediation recorded))
          then Some (divergedText "tool mediation mismatch")
          else if negb (bool_decide (IdempotencyKey emitted = IdempotencyKey recorded))
          then Some (divergedText "tool idempotency key mismatch")
          else
            let want := wireArgs (Args recorded) in
            let got := wireArgs (Args emitted) in
            if (negb (isNil (Args recorded)) && isNil want) || (negb (isNil (Args emitted)) && isNil got)
            then Some (divergedText "tool arguments could not be represented in the journal")
            else if negb (deepEqualMap got want) then Some (divergedText "tool arguments mismatch")
            else None
      end
  end.
End Wire.

(** [recordedToolResult(call, result)]. *)
Definition recordedToolResult (call : ToolCall) (result : option ToolResult) : res ToolResult :=
  match result with
  | None => Err (divergedText "recorded tool result missing its payload")
  | Some r =>
      if negb (bool_decide (tr_ID r = tc_ID call))
      then Err (divergedText "recorded tool result correlation mismatch")
      else Ok r
  end.

(** ** Harness programs *)

(** One [Run]: the sink calls it makes and what it does with each answer. *)
Inductive Prog :=
  | PReturn (err : option goerr)
  | PModel (req : ModelRequest) (k : res ModelResponse -> Prog)
  | POutput (delta : string) (k : option goerr -> Prog)
  | PToolCall (tc : ToolCall) (k : res ToolResult -> Prog)
  | PReport (tr : ToolResult) (k : option goerr -> Prog)
  | PUsage (u : Usage) (k : option goerr -> Prog).

(** [api.Harness]. *)
Record Harness := mkHarness {
  Describe : nat -> res Descriptor;
  Run : Start -> Prog;
}.

(** [api.EventSink] over the state [St] its implementation works on. *)
Class EventSink (St : Type) := {
  sink_Model : ModelRequest -> M St goerr ModelResponse;
  sink_Output : string -> M St goerr unit;
  sink_ToolCall : ToolCall -> M St goerr ToolResult;
  sink_Report : ToolResult -> M St goerr unit;
  sink_Usage : Usage -> M St goerr unit;
}.

(** Running a harness program against a sink. *)
Fixpoint runProg {St} `{EventSink St} (p : Prog) (st : St) : St * option goerr :=
  match p with
  | PReturn err => (st, err)
  | PModel req k => let '(st', r) := sink_Model req st in runProg (k r) st'
  | POutput d k => let '(st', r) := sink_Output d st in runProg (k (err_of r)) st'
  | PToolCall tc k => let '(st', r) := sink_ToolCall tc st in runProg (k r) st'
  | PReport tr k => let '(st', r) := sink_Report tr st in runProg (k (err_of r)) st'
  | PUsage u k => let '(st', r) := sink_Usage u st in runProg (k (err_of r)) st'
  end.

(** ** An example environment

    An environment whose contexts are never cancelled and whose structpb represents every map, for
    the concrete runs of the development. *)
Definition exampleHost : Host := {|
  ctxErr := fun _ => None;
  randBytes := fun n => [Z.of_nat n mod 256; 0; 0; 0; 0; 0; 0; 1];
  marshalRequest := fun req => bytesOf (mr_Model req) ++ concat (map (fun m => bytesOf (Text m)) (Messages req));
  marshalLegacy := fun uid seq content => bytesOf uid ++ bytesOf seq ++ content;
  errText := fun _ => "error"%string;
  Struct := list (string * any);
  NewStruct := Some;
  AsMap := fun s => s;
  jsonRoundTrip := fun m => Some (Some m);
|}.
