(* ===== verification/Wire.v ===== *)
(** * Package wire: the protobuf form of the contract types (wire/convert.go, wire/state.go,
    eventlog/proto.go)

    The messages of api/common.proto as their generated Go structs hold them: a message pointer that
    may be nil is an [option], a oneof is an inductive type with one constructor per member, an enum
    has its members and [..Other] for any other number. [structpb] and [timestamppb] are third-party
    and stay parameters ([Host], [Timestamppb]). *)
From S2P Require Import Prelude GoErrors Api Canon EventLog Harness.

(** ** Enums *)

Inductive PbEventKind :=
  | EVENT_KIND_UNSPECIFIED | EVENT_INPUT | EVENT_MODEL_CALL | EVENT_OUTPUT | EVENT_TOOL_CALL
  | EVENT_TOOL_RESULT | EVENT_APPROVAL_REQUEST | EVENT_APPROVAL_RESULT | EVENT_USAGE
  | EVENT_LIFECYCLE | EVENT_END | EVENT_ERROR | EVENT_EXECUTION_START | EVENT_PARKED
  | PbEventKindOther (n : Z).

Inductive PbMediation :=
  | MEDIATION_UNSPECIFIED | MEDIATION_IN_HARNESS_REPORTED | MEDIATION_CONTROLLER_MEDIATED
  | MEDIATION_REQUIRES_APPROVAL | PbMediationOther (n : Z).

Inductive PbLifecycleKind :=
  | LIFECYCLE_UNSPECIFIED | LIFECYCLE_SUSPEND | LIFECYCLE_RESUME | LIFECYCLE_FORK
  | LIFECYCLE_BASELINE | LIFECYCLE_CANCEL | LIFECYCLE_DELETE | PbLifecycleKindOther (n : Z).

Inductive PbToolChoiceMode :=
  | MODE_UNSPECIFIED | MODE_AUTO | MODE_NONE | MODE_REQUIRED | PbToolChoiceModeOther (n : Z).

Inductive PbDeletionState :=
  | DELETION_STATE_UNSPECIFIED | DELETION_ACTIVE | DELETION_PENDING | PbDeletionStateOther (n : Z).

Inductive PbComputeState :=
  | COMPUTE_STATE_UNSPECIFIED | COMPUTE_NONE | COMPUTE_LIVE | COMPUTE_WARM | COMPUTE_COLD
  | COMPUTE_TERMINATED | PbComputeStateOther (n : Z).

Inductive PbExecState :=
  | EXEC_STATE_UNSPECIFIED | EXEC_PENDING | EXEC_RUNNING | EXEC_AWAITING | EXEC_COMPLETED
  | EXEC_FAILED | EXEC_CANCELED | PbExecStateOther (n : Z).

Definition kindToProto (k : EventKind) : PbEventKind :=
  match k with
  | EventInput => EVENT_INPUT
  | EventModelCall => EVENT_MODEL_CALL
  | EventOutput => EVENT_OUTPUT
  | EventToolCall => EVENT_TOOL_CALL
  | EventToolResult => EVENT_TOOL_RESULT
  | EventApprovalRequest => EVENT_APPROVAL_REQUEST
  | EventApprovalResult => EVENT_APPROVAL_RESULT
  | EventUsage => EVENT_USAGE
  | EventLifecycle => EVENT_LIFECYCLE
  | EventEnd => EVENT_END
  | EventError => EVENT_ERROR
  | EventExecutionStart => EVENT_EXECUTION_START
  | EventParked => EVENT_PARKED
  | EventKindOther _ => EVENT_KIND_UNSPECIFIED
  end.

Definition kindFromProto (k : PbEventKind) : EventKind :=
  match k with
  | EVENT_INPUT => EventInput
  | EVENT_MODEL_CALL => EventModelCall
  | EVENT_OUTPUT => EventOutput
  | EVENT_TOOL_CALL => EventToolCall
  | EVENT_TOOL_RESULT => EventToolResult
  | EVENT_APPROVAL_REQUEST => EventApprovalRequest
  | EVENT_APPROVAL_RESULT => EventApprovalResult
  | EVENT_USAGE => EventUsage
  | EVENT_LIFECYCLE => EventLifecycle
  | EVENT_END => EventEnd
  | EVENT_ERROR => EventError
  | EVENT_EXECUTION_START => EventExecutionStart
  | EVENT_PARKED => EventParked
  | _ => EventKindOther EmptyString
  end.

Definition mediationToProto (m : Mediation) : PbMediation :=
  match m with
  | MediationInHarnessReported => MEDIATION_IN_HARNESS_REPORTED
  | MediationControllerMediated => MEDIATION_CONTROLLER_MEDIATED
  | MediationRequiresApproval => MEDIATION_REQUIRES_APPROVAL
  | MediationOther _ => MEDIATION_UNSPECIFIED
  end.

Definition mediationFromProto (m : PbMediation) : Mediation :=
  match m with
  | MEDIATION_IN_HARNESS_REPORTED => MediationInHarnessReported
  | MEDIATION_CONTROLLER_MEDIATED => MediationControllerMediated
  | MEDIATION_REQUIRES_APPROVAL => MediationRequiresApproval
  | _ => MediationOther EmptyString
  end.

Definition lifecycleKindToProto (k : LifecycleKind) : PbLifecycleKind :=
  match k with
  | LifecycleSuspend => LIFECYCLE_SUSPEND
  | LifecycleResume => LIFECYCLE_RESUME
  | LifecycleFork => LIFECYCLE_FORK
  | LifecycleBaseline => LIFECYCLE_BASELINE
  | LifecycleCancel => LIFECYCLE_CANCEL
  | LifecycleDelete => LIFECYCLE_DELETE
  | LifecycleKindOther _ => LIFECYCLE_UNSPECIFIED
  end.

Definition lifecycleKindFromProto (k : PbLifecycleKind) : LifecycleKind :=
  match k with
  | LIFECYCLE_SUSPEND => LifecycleSuspend
  | LIFECYCLE_RESUME => LifecycleResume
  | LIFECYCLE_FORK => LifecycleFork
  | LIFECYCLE_BASELINE => LifecycleBaseline
  | LIFECYCLE_CANCEL => LifecycleCancel
  | LIFECYCLE_DELETE => LifecycleDelete
  | _ => LifecycleKindOther EmptyString
  end.

Definition DeletionStateToProto (d : DeletionState) : PbDeletionState :=
  match d with
  | DeletionActive => DELETION_ACTIVE
  | DeletionPending => DELETION_PENDING
  | DeletionStateOther _ => DELETION_STATE_UNSPECIFIED
  end.

Definition DeletionStateFromProto (d : PbDeletionState) : DeletionState :=
  match d with
  | DELETION_ACTIVE => DeletionActive
  | DELETION_PENDING => DeletionPending
  | _ => DeletionStateOther EmptyString
  end.

Definition ComputeStateToProto (c : ComputeState) : PbComputeState :=
  match c with
  | ComputeNone => COMPUTE_NONE
  | ComputeLive => COMPUTE_LIVE
  | ComputeWarm => COMPUTE_WARM
  | ComputeCold => COMPUTE_COLD
  | ComputeTerminated => COMPUTE_TERMINATED
  | ComputeStateOther _ => COMPUTE_STATE_UNSPECIFIED
  end.

Definition ComputeStateFromProto (c : PbComputeState) : ComputeState :=
  match c with
  | COMPUTE_NONE => ComputeNone
  | COMPUTE_LIVE => ComputeLive
  | COMPUTE_WARM => ComputeWarm
  | COMPUTE_COLD => ComputeCold
  | COMPUTE_TERMINATED => ComputeTerminated
  | _ => ComputeStateOther EmptyString
  end.

Definition ExecStateToProto (e : ExecState) : PbExecState :=
  match e with
  | ExecPending => EXEC_PENDING
  | ExecRunning => EXEC_RUNNING
  | ExecAwaiting => EXEC_AWAITING
  | ExecCompleted => EXEC_COMPLETED
  | ExecFailed => EXEC_FAILED
  | ExecCanceled => EXEC_CANCELED
  | ExecStateOther _ => EXEC_STATE_UNSPECIFIED
  end.

Definition ExecStateFromProto (e : PbExecState) : ExecState :=
  match e with
  | EXEC_PENDING => ExecPending
  | EXEC_RUNNING => ExecRunning
  | EXEC_AWAITING => ExecAwaiting
  | EXEC_COMPLETED => ExecCompleted
  | EXEC_FAILED => ExecFailed
  | EXEC_CANCELED => ExecCanceled
  | _ => ExecStateOther EmptyString
  end.

(** The number of a [ToolResultCode]: the wire enum and the domain type are both int32, and the
    conversion is a cast. *)
Definition codeNumber (c : ToolResultCode) : Z :=
  match c with
  | ToolResultCodeUnspecified => 0
  | ToolResultCodeApprovalDenied => 1
  | ToolResultCodeExecutorError => 2
  | ToolResultCodeOther n => n
  end.
Definition codeOfNumber (n : Z) : ToolResultCode :=
  if n =? 0 then ToolResultCodeUnspecified
  else if n =? 1 then ToolResultCodeApprovalDenied
  else if n =? 2 then ToolResultCodeExecutorError
  else ToolResultCodeOther n.

(** ** Messages *)

Inductive PbFileSource := FilePart_Bytes (b : bytes) | FilePart_Uri (u : string).
Record PbFilePart := mkPbFilePart {
  pbf_Mime : string; pbf_Source : option PbFileSource; pbf_Name : string; pbf_Digest : string;
}.

Inductive PbOpaque := ReasoningPart_OpaqueBytes (b : bytes) | ReasoningPart_OpaqueUri (u : string).
Record PbReasoningPartOf (P : Type) := mkPbReasoningPart {
  pbr_Provider : string; pbr_ModelId : string; pbr_Opaque : option PbOpaque;
  pbr_Summary : list (option P); pbr_ItemId : string; pbr_Ordinal : Z;
  pbr_ValidityScope : string; pbr_OpaqueDigest : string;
}.
Arguments mkPbReasoningPart {P}. Arguments pbr_Provider {P}. Arguments pbr_ModelId {P}.
Arguments pbr_Opaque {P}. Arguments pbr_Summary {P}. Arguments pbr_ItemId {P}.
Arguments pbr_Ordinal {P}. Arguments pbr_ValidityScope {P}. Arguments pbr_OpaqueDigest {P}.

Record PbModelCall := mkPbModelCall {
  pbm_Model : string; pbm_Params : list (string * string); pbm_InputHash : string; pbm_Id : string;
}.
Record PbApprovalRequest := mkPbApprovalRequest { pba_ToolCallId : string; pba_Reason : string }.
Record PbApprovalRef := mkPbApprovalRef {
  pbref_ExecutionId : string; pbref_ToolCallId : string; pbref_RequestSeq : Z;
}.
Record PbApprovalResult := mkPbApprovalResult {
  pbar_ToolCallId : string; pbar_Approved : bool; pbar_Reason : string; pbar_RequestSeq : Z;
}.
Record PbDelta := mkPbDelta {
  pbd_ExecutionId : string; pbd_PartIndex : Z; pbd_Chunk : string; pbd_Done : bool;
}.
Record PbUsage := mkPbUsage {
  pbu_Model : string; pbu_InputTokens : Z; pbu_OutputTokens : Z; pbu_ReasoningTokens : Z;
}.
Record PbLifecycle := mkPbLifecycle {
  pbl_Kind : PbLifecycleKind; pbl_Detail : string; pbl_SnapshotLocal : string;
  pbl_SnapshotExternalUri : string; pbl_SnapshotMemory : bool; pbl_SnapshotSealed : bool;
}.
Record PbError := mkPbError { pbe_Code : Z; pbe_Description : string }.
Record PbHarnessEnd := mkPbHarnessEnd { pbh_State : string; pbh_Error : option PbError }.
Record PbExecutionStart := mkPbExecutionStart {
  pbes_Config : bytes; pbes_ResumeFromSeq : Z; pbes_InputCount : option Z;
  pbes_Harness : string; pbes_HarnessVersion : string;
}.
Record PbIdentityRef := mkPbIdentityRef {
  pbi_Principal : string; pbi_Issuer : string; pbi_Subject : string;
}.
Record PbToolSpec := mkPbToolSpec {
  pbs_Name : string; pbs_Description : string; pbs_Mediation : PbMediation;
}.
Record PbToolChoice := mkPbToolChoice { pbc_Mode : PbToolChoiceMode; pbc_Name : string }.

(** [timestamppb.Timestamp], [timestamppb.New] and [AsTime], on the instants of [Timestamp]. *)
Class Timestamppb := {
  Ts : Type;
  ts_New : Z -> Ts;
  ts_AsTime : Ts -> option Z;
}.

Section Wire.
Context `{Host} `{Timestamppb}.

Record PbToolCall := mkPbToolCall {
  pbt_Id : string; pbt_Tool : string; pbt_Args : option Struct; pbt_Mediation : PbMediation;
  pbt_IdempotencyKey : string;
}.
Record PbToolDefinition := mkPbToolDefinition {
  pbd_Name : string; pbd_Description : string; pbd_InputSchema : option Struct;
}.
Record PbToolResultOf (P : Type) := mkPbToolResult {
  pbtr_Id : string; pbtr_Output : option Struct; pbtr_OutputUri : string;
  pbtr_OutputDigest : string; pbtr_IsError : bool; pbtr_Error : string;
  pbtr_Content : list (option P); pbtr_Code : Z; pbtr_ApprovalRequestSeq : Z;
  pbtr_ApprovalDecisionSeq : Z;
}.

(** [Part.part] with its members; a member's message pointer may be nil. *)
Inductive PbPart :=
  | Part_unset
  | Part_Text (text : option string)
  | Part_File (f : option PbFilePart)
  | Part_Data (data : option (option Struct))
  | Part_Reasoning (r : option (PbReasoningPartOf PbPart))
  | Part_ToolCall (tc : option PbToolCall)
  | Part_ToolResult (tr : option (PbToolResultOf PbPart)).

Record PbMessage := mkPbMessage { pbm_Role : string; pbm_Parts : list (option PbPart) }.

(** [Event.body]. *)
Inductive PbBody :=
  | Event_Message (m : option PbMessage)
  | Event_Model (m : option PbModelCall)
  | Event_Tool (t : option PbToolCall)
  | Event_Result (r : option (PbToolResultOf PbPart))
  | Event_Approval (a : option PbApprovalRequest)
  | Event_ApprovalResult (a : option PbApprovalResult)
  | Event_Usage (u : option PbUsage)
  | Event_Lifecycle (l : option PbLifecycle)
  | Event_End (h : option PbHarnessEnd)
  | Event_Error (e : option PbError)
  | Event_ExecutionStart (es : option PbExecutionStart)
  | Event_Parked (r : option PbApprovalRef).

Record PbEvent := mkPbEvent {
  pb_ExecutionId : string; pb_Ts : option Ts; pb_SchemaVersion : Z; pb_Kind : PbEventKind;
  pb_Body : option PbBody; pb_Actor : option PbIdentityRef;
}.

Record PbLogRecord := mkPbLogRecord {
  pb_Seq : Z; pb_PrevHash : string; pb_ContentHash : string; pb_Fence : Z;
  pb_Event : option PbEvent;
}.

(** [nonEmpty(b)], and [len(b) > 0]. *)
Definition nonEmpty (b : bytes) : bytes := match b with Some (_ :: _) => b | _ => None end.
Definition hasBytes (b : bytes) : bool := match b with Some (_ :: _) => true | _ => false end.

Definition fileToProto (f : option FilePart) : option PbFilePart :=
  match f with
  | None => None
  | Some f => Some (mkPbFilePart (MIME f)
      (if hasBytes (Bytes f) then Some (FilePart_Bytes (Bytes f))
       else if negb (bool_decide (URI f = EmptyString)) then Some (FilePart_Uri (URI f)) else None)
      (file_Name f) (Digest f))
  end.

Definition fileFromProto (f : option PbFilePart) : option FilePart :=
  match f with
  | None => None
  | Some f =>
      let '(b, u) := match pbf_Source f with
        | Some (FilePart_Bytes b) => (nonEmpty b, EmptyString)
        | Some (FilePart_Uri u) => (None, u)
        | None => (None, EmptyString)
        end in
      Some (mkFilePart (pbf_Mime f) b u (pbf_Digest f) (pbf_Name f))
  end.

Definition toolCallToProto (t : option ToolCall) : option PbToolCall :=
  match t with
  | None => None
  | Some t => Some (mkPbToolCall (tc_ID t) (Tool t) (toStruct (Args t))
      (mediationToProto (tc_Mediation t)) (IdempotencyKey t))
  end.

Definition toolCallFromProto (t : option PbToolCall) : option ToolCall :=
  match t with
  | None => None
  | Some t => Some (mkToolCall (pbt_Id t) (pbt_Tool t) (fromStruct (pbt_Args t))
      (mediationFromProto (pbt_Mediation t)) (pbt_IdempotencyKey t))
  end.

(** Parts nest in reasoning summaries and tool results: the conversions of these two take the
    conversion of a part as an argument, and [partToProto] and [partFromProto] tie the knot. An
    element pointer of a repeated field may be nil, and decodes as the zero part. *)
Definition partsTo (partTo : Part -> PbPart) (ps : list Part) : list (option PbPart) :=
  map (fun p => Some (partTo p)) ps.
Definition partsFrom (partFrom : PbPart -> Part) (ps : list (option PbPart)) : list Part :=
  map (fun p => match p with Some p => partFrom p | None => zeroPart end) ps.

Definition reasoningToProto (partTo : Part -> PbPart) (r : option ReasoningPart)
    : option (PbReasoningPartOf PbPart) :=
  match r with
  | None => None
  | Some r => Some (mkPbReasoningPart (Provider _ r) (ModelID _ r)
      (if hasBytes (Opaque _ r) then Some (ReasoningPart_OpaqueBytes (Opaque _ r))
       else if negb (bool_decide (OpaqueURI _ r = EmptyString))
            then Some (ReasoningPart_OpaqueUri (OpaqueURI _ r)) else None)
      (partsTo partTo (Summary _ r)) (ItemID _ r) (Ordinal _ r) (ValidityScope _ r) (OpaqueDigest _ r))
  end.

Definition reasoningFromProto (partFrom : PbPart -> Part) (r : option (PbReasoningPartOf PbPart))
    : option ReasoningPart :=
  match r with
  | None => None
  | Some r =>
      let '(b, u) := match pbr_Opaque r with
        | Some (ReasoningPart_OpaqueBytes b) => (nonEmpty b, EmptyString)
        | Some (ReasoningPart_OpaqueUri u) => (None, u)
        | None => (None, EmptyString)
        end in
      Some (mkReasoningPart (pbr_Provider r) (pbr_ModelId r) b u (pbr_OpaqueDigest r)
        (partsFrom partFrom (pbr_Summary r)) (pbr_ItemId r) (pbr_Ordinal r) (pbr_ValidityScope r))
  end.

(** [Approval] is transient and does not cross. *)
Definition toolResultToProto (partTo : Part -> PbPart) (t : option ToolResult)
    : option (PbToolResultOf PbPart) :=
  match t with
  | None => None
  | Some t => Some (mkPbToolResult _ (tr_ID t) (toStruct (tr_Output t)) (OutputURI t) (OutputDigest t)
      (IsError t) (tr_Error t) (partsTo partTo (Content t)) (codeNumber (Code t))
      (ApprovalRequestSeq t) (ApprovalDecisionSeq t))
  end.

Definition toolResultFromProto (partFrom : PbPart -> Part) (t : option (PbToolResultOf PbPart))
    : option ToolResult :=
  match t with
  | None => None
  | Some t => Some (mkToolResult (pbtr_Id _ t) (fromStruct (pbtr_Output _ t)) (pbtr_OutputUri _ t)
      (pbtr_OutputDigest _ t) (pbtr_IsError _ t) (pbtr_Error _ t)
      (partsFrom partFrom (pbtr_Content _ t)) (codeOfNumber (pbtr_Code _ t))
      (pbtr_ApprovalRequestSeq _ t) (pbtr_ApprovalDecisionSeq _ t) None)
  end.

(** The first pointer that is set decides, in the order of the source's switch. *)
Fixpoint partToProto (p : Part) : PbPart :=
  match p with
  | mkPart (Some t) _ _ _ _ _ => Part_Text (Some t)
  | mkPart None (Some f) _ _ _ _ => Part_File (fileToProto (Some f))
  | mkPart None None (Some d) _ _ _ => Part_Data (Some (toStruct (Some d)))
  | mkPart None None None (Some r) _ _ => Part_Reasoning (reasoningToProto partToProto (Some r))
  | mkPart None None None None (Some tc) _ => Part_ToolCall (toolCallToProto (Some tc))
  | mkPart None None None None None (Some tr) => Part_ToolResult (toolResultToProto partToProto (Some tr))
  | mkPart None None None None None None => Part_unset
  end.

(** A nil [*v1.TextPart] reads as the empty text, a nil [*v1.DataPart] as no data. *)
Fixpoint partFromProto (p : PbPart) : Part :=
  match p with
  | Part_unset => zeroPart
  | Part_Text t => mkPart (Some (default EmptyString t)) None None None None None
  | Part_File f => mkPart None (fileFromProto f) None None None None
  | Part_Data d => mkPart None None (fromStruct (default None d)) None None None
  | Part_Reasoning r => mkPart None None None (reasoningFromProto partFromProto r) None None
  | Part_ToolCall tc => mkPart None None None None (toolCallFromProto tc) None
  | Part_ToolResult tr => mkPart None None None None None (toolResultFromProto partFromProto tr)
  end.

Definition msgToProto (m : option Message) : option PbMessage :=
  match m with
  | None => None
  | Some m => Some (mkPbMessage (Role m) (partsTo partToProto (Parts m)))
  end.
Definition msgFromProto (p : option PbMessage) : option Message :=
  match p with
  | None => None
  | Some p => Some (mkMessage (pbm_Role p) (partsFrom partFromProto (pbm_Parts p)))
  end.

(** [ToolCallToProto], [ToolCallFromProto], [ToolResultToProto], [ToolResultFromProto],
    [MessageToProto], [MessageFromProto]: the exported names. *)
Definition ToolCallToProto := toolCallToProto.
Definition ToolCallFromProto := toolCallFromProto.
Definition ToolResultToProto := toolResultToProto partToProto.
Definition ToolResultFromProto := toolResultFromProto partFromProto.
Definition MessageToProto := msgToProto.
Definition MessageFromProto := msgFromProto.

Definition ToolSpecToProto (t : ToolSpec) : PbToolSpec :=
  mkPbToolSpec (ts_Name t) (ts_Description t) (mediationToProto (ts_Mediation t)).
Definition ToolSpecFromProto (p : option PbToolSpec) : ToolSpec :=
  match p with
  | None => mkToolSpec EmptyString EmptyString (mediationFromProto MEDIATION_UNSPECIFIED)
  | Some p => mkToolSpec (pbs_Name p) (pbs_Description p) (mediationFromProto (pbs_Mediation p))
  end.

Definition ToolDefinitionsToProto (ts : list ToolDefinition) : list (option PbToolDefinition) :=
  map (fun t => Some (mkPbToolDefinition (td_Name t) (td_Description t) (toStruct (InputSchema t)))) ts.
Definition ToolDefinitionsFromProto (ps : list (option PbToolDefinition)) : list ToolDefinition :=
  map (fun p => match p with
    | Some p => mkToolDefinition (pbd_Name p) (pbd_Description p) (fromStruct (pbd_InputSchema p))
    | None => mkToolDefinition EmptyString EmptyString (fromStruct None)
    end) ps.

(** The empty mode is the provider default; any other text than the three modes is an error. *)
Definition ToolChoiceToProto (c : option ToolChoice) : res (option PbToolChoice) :=
  match c with
  | None => Ok None
  | Some c =>
      match Mode c with
      | ToolChoiceAuto => Ok (Some (mkPbToolChoice MODE_AUTO (tch_Name c)))
      | ToolChoiceNone => Ok (Some (mkPbToolChoice MODE_NONE (tch_Name c)))
      | ToolChoiceRequired => Ok (Some (mkPbToolChoice MODE_REQUIRED (tch_Name c)))
      | ToolChoiceModeOther s =>
          if bool_decide (s = EmptyString)
          then Ok (Some (mkPbToolChoice MODE_UNSPECIFIED (tch_Name c)))
          else Err (EText "wire: unknown tool choice mode")
      end
  end.

Definition ToolChoiceFromProto (p : option PbToolChoice) : res (option ToolChoice) :=
  match p with
  | None => Ok None
  | Some p =>
      match pbc_Mode p with
      | MODE_UNSPECIFIED => Ok (Some (mkToolChoice (ToolChoiceModeOther EmptyString) (pbc_Name p)))
      | MODE_AUTO => Ok (Some (mkToolChoice ToolChoiceAuto (pbc_Name p)))
      | MODE_NONE => Ok (Some (mkToolChoice ToolChoiceNone (pbc_Name p)))
      | MODE_REQUIRED => Ok (Some (mkToolChoice ToolChoiceRequired (pbc_Name p)))
      | PbToolChoiceModeOther _ => Err (EText "wire: unknown tool choice mode")
      end
  end.

Definition modelCallToProto (m : option ModelCall) : option PbModelCall :=
  match m with
  | None => None
  | Some m => Some (mkPbModelCall (mc_Model m) (mc_Params m) (InputHash m) (mc_ID m))
  end.
Definition modelCallFromProto (m : option PbModelCall) : option ModelCall :=
  match m with
  | None => None
  | Some m => Some (mkModelCall (pbm_Model m) (pbm_Params m) (pbm_InputHash m) (pbm_Id m))
  end.

Definition approvalReqToProto (a : option ApprovalRequest) : option PbApprovalRequest :=
  match a with None => None | Some a => Some (mkPbApprovalRequest (req_ToolCallID a) (req_Reason a)) end.
Definition approvalReqFromProto (a : option PbApprovalRequest) : option ApprovalRequest :=
  match a with None => None | Some a => Some (mkApprovalRequest (pba_ToolCallId a) (pba_Reason a)) end.

Definition approvalRefToProto (a : option ApprovalRef) : option PbApprovalRef :=
  match a with
  | None => None
  | Some a => Some (mkPbApprovalRef (ref_ExecutionID a) (ref_ToolCallID a) (ref_RequestSeq a))
  end.
Definition approvalRefFromProto (a : option PbApprovalRef) : option ApprovalRef :=
  match a with
  | None => None
  | Some a => Some (mkApprovalRef (pbref_ExecutionId a) (pbref_ToolCallId a) (pbref_RequestSeq a))
  end.

Definition approvalResToProto (a : option ApprovalResult) : option PbApprovalResult :=
  match a with
  | None => None
  | Some a => Some (mkPbApprovalResult (res_ToolCallID a) (Approved a) (res_Reason a) (RequestSeq a))
  end.
Definition approvalResFromProto (a : option PbApprovalResult) : option ApprovalResult :=
  match a with
  | None => None
  | Some a => Some (mkApprovalResult (pbar_ToolCallId a) (pbar_Approved a) (pbar_Reason a) (pbar_RequestSeq a))
  end.

Definition DeltaToProto (d : Delta) : PbDelta :=
  mkPbDelta (d_ExecutionID d) (PartIndex d) (Chunk d) (Done d).

Definition usageToProto (u : option Usage) : option PbUsage :=
  match u with
  | None => None
  | Some u => Some (mkPbUsage (u_Model u) (InputTokens u) (OutputTokens u) (ReasoningTokens u))
  end.
Definition usageFromProto (u : option PbUsage) : option Usage :=
  match u with
  | None => None
  | Some u => Some (mkUsage (pbu_Model u) (pbu_InputTokens u) (pbu_OutputTokens u) (pbu_ReasoningTokens u))
  end.

(** The snapshot is flattened into the message; a nil snapshot and an empty one look the same. *)
Definition lifecycleToProto (l : option Lifecycle) : option PbLifecycle :=
  match l with
  | None => None
  | Some l => Some
      match Snapshot l with
      | Some s => mkPbLifecycle (lifecycleKindToProto (lc_Kind l)) (Detail l)
          (snap_Local s) (ExternalURI s) (Memory s) (Sealed s)
      | None => mkPbLifecycle (lifecycleKindToProto (lc_Kind l)) (Detail l)
          EmptyString EmptyString false false
      end
  end.
Definition lifecycleFromProto (l : option PbLifecycle) : option Lifecycle :=
  match l with
  | None => None
  | Some l =>
      let snapshot :=
        if negb (bool_decide (pbl_SnapshotLocal l = EmptyString))
           || negb (bool_decide (pbl_SnapshotExternalUri l = EmptyString))
           || pbl_SnapshotMemory l || pbl_SnapshotSealed l
        then Some (mkSnapshotRef (pbl_SnapshotLocal l) (pbl_SnapshotExternalUri l)
               (pbl_SnapshotMemory l) (pbl_SnapshotSealed l))
        else None in
      Some (mkLifecycle (lifecycleKindFromProto (pbl_Kind l)) (pbl_Detail l) snapshot)
  end.

Definition errorToProto (e : option Error) : option PbError :=
  match e with None => None | Some e => Some (mkPbError (err_Code e) (Description e)) end.
Definition errorFromProto (e : option PbError) : option Error :=
  match e with None => None | Some e => Some (mkError (pbe_Code e) (pbe_Description e)) end.

Definition endToProto (h : option HarnessEnd) : option PbHarnessEnd :=
  match h with None => None | Some h => Some (mkPbHarnessEnd (State h) (errorToProto (end_Error h))) end.
Definition endFromProto (h : option PbHarnessEnd) : option HarnessEnd :=
  match h with None => None | Some h => Some (mkHarnessEnd (pbh_State h) (errorFromProto (pbh_Error h))) end.

Definition identityToProto (id : IdentityRef) : option PbIdentityRef :=
  if bool_decide (id = zeroIdentity) then None
  else Some (mkPbIdentityRef (Principal id) (Issuer id) (Subject id)).
Definition identityFromProto (p : option PbIdentityRef) : IdentityRef :=
  match p with
  | None => zeroIdentity
  | Some p => mkIdentityRef (pbi_Principal p) (pbi_Issuer p) (pbi_Subject p)
  end.

Definition executionStartToProto (es : ExecutionStart) : PbExecutionStart :=
  mkPbExecutionStart (Config es) (ResumeFromSeq es) (InputCount es) (es_Harness es) (HarnessVersion es).
Definition executionStartFromProto (es : option PbExecutionStart) : option ExecutionStart :=
  match es with
  | None => None
  | Some es => Some (mkExecutionStart (pbes_Config es) (pbes_ResumeFromSeq es) (pbes_InputCount es)
      (pbes_Harness es) (pbes_HarnessVersion es))
  end.

(** The body switch of [EventToProto]: the first body pointer that is set. *)
Definition bodyToProto (e : Event) : option PbBody :=
  if ev_Message e is Some _ then Some (Event_Message (msgToProto (ev_Message e)))
  else if ev_ModelCall e is Some _ then Some (Event_Model (modelCallToProto (ev_ModelCall e)))
  else if ev_ToolCall e is Some _ then Some (Event_Tool (toolCallToProto (ev_ToolCall e)))
  else if ev_Result e is Some _ then Some (Event_Result (ToolResultToProto (ev_Result e)))
  else if ev_Approval e is Some _ then Some (Event_Approval (approvalReqToProto (ev_Approval e)))
  else if ev_ApprovalResult e is Some _ then Some (Event_ApprovalResult (approvalResToProto (ev_ApprovalResult e)))
  else if ev_Usage e is Some _ then Some (Event_Usage (usageToProto (ev_Usage e)))
  else if ev_Lifecycle e is Some _ then Some (Event_Lifecycle (lifecycleToProto (ev_Lifecycle e)))
  else if ev_End e is Some _ then Some (Event_End (endToProto (ev_End e)))
  else if ev_Err e is Some _ then Some (Event_Error (errorToProto (ev_Err e)))
  else match ev_ExecutionStart e with
    | Some es => Some (Event_ExecutionStart (Some (executionStartToProto es)))
    | None => if ev_Parked e is Some _ then Some (Event_Parked (approvalRefToProto (ev_Parked e))) else None
    end.

Definition EventToProto (e : Event) : PbEvent :=
  mkPbEvent (ExecutionID e) (ts_New <$> Timestamp e) (SchemaVersion e) (kindToProto (Kind e))
    (bodyToProto e) (identityToProto (Actor e)).

(** The event without a body that [EventFromProto] starts from. *)
Definition eventEnvelope (p : PbEvent) : Event :=
  mkEvent (pb_ExecutionId p) (t ← pb_Ts p; ts_AsTime t) (pb_SchemaVersion p) (kindFromProto (pb_Kind p))
    None None None None None None None None None None None None (identityFromProto (pb_Actor p)).

Definition EventFromProto (p : option PbEvent) : Event :=
  match p with
  | None => event0 (EventKindOther EmptyString)
  | Some p =>
      let 'mkEvent id ts sv k _ _ _ _ _ _ _ _ _ _ _ _ actor := eventEnvelope p in
      let body m mc tc r ap ar u lc h e es pk := mkEvent id ts sv k m mc tc r ap ar u lc h e es pk actor in
      match pb_Body p with
      | Some (Event_Message m) => body (msgFromProto m) None None None None None None None None None None None
      | Some (Event_Model m) => body None (modelCallFromProto m) None None None None None None None None None None
      | Some (Event_Tool t) => body None None (toolCallFromProto t) None None None None None None None None None
      | Some (Event_Result r) => body None None None (ToolResultFromProto r) None None None None None None None None
      | Some (Event_Approval a) => body None None None None (approvalReqFromProto a) None None None None None None None
      | Some (Event_ApprovalResult a) => body None None None None None (approvalResFromProto a) None None None None None None
      | Some (Event_Usage u) => body None None None None None None (usageFromProto u) None None None None None
      | Some (Event_Lifecycle l) => body None None None None None None None (lifecycleFromProto l) None None None None
      | Some (Event_End h) => body None None None None None None None None (endFromProto h) None None None
      | Some (Event_Error e) => body None None None None None None None None None (errorFromProto e) None None
      | Some (Event_ExecutionStart es) => body None None None None None None None None None None (executionStartFromProto es) None
      | Some (Event_Parked r) => body None None None None None None None None None None None (approvalRefFromProto r)
      | None => body None None None None None None None None None None None None
      end
  end.

(** [eventlog.RecordToProto] and [RecordFromProto]. *)
Definition RecordToProto (r : Record_) : PbLogRecord :=
  mkPbLogRecord (Seq r) (PrevHash r) (Hash r) (Fence r) (Some (EventToProto (rec_Event r))).
Definition RecordFromProto (p : option PbLogRecord) : Record_ :=
  match p with
  | None => mkRecord 0 EmptyString EmptyString 0 (event0 (EventKindOther EmptyString))
  | Some p => mkRecord (pb_Seq p) (pb_PrevHash p) (pb_ContentHash p) (pb_Fence p) (EventFromProto (pb_Event p))
  end.

(** The serialiser of package canon on events: [marshalOpts.Marshal] of the event's wire form. *)
Definition wireEncoding (marshal : PbEvent -> res (list Z)) (transform : list Z -> res (list Z)) : Encoding :=
  {| marshalEvent := fun ev => marshal (EventToProto ev); jcsTransform := transform |}.
End Wire.

Arguments partsTo : simpl never.
Arguments partsFrom : simpl never.

(** ** What survives the wire

    [eventNormal] are the events the two forms agree on, told without the conversions: one body at most,
    kinds and codes the wire has a name for, structured content that structpb holds as it is, bytes that
    are nil when empty, no transient approval. [eventEncodable] is weaker: every content map has a wire form, and encoding
    it again gives the same message (an int becomes a float64 once). *)
Section Normal.
Context `{Host} `{Timestamppb}.

Definition count {A} (o : option A) : nat := match o with Some _ => 1 | None => 0 end.
Definition onSome {A} (P : A -> Prop) (o : option A) : Prop := match o with Some a => P a | None => True end.
Fixpoint allP {A} (P : A -> Prop) (l : list A) : Prop :=
  match l with [] => True | a :: l' => P a /\ allP P l' end.

(** A text in the place of an enum: only the empty one stands for unspecified. *)
Definition kindKnown (k : EventKind) : Prop := forall s, k = EventKindOther s -> s = EmptyString.
Definition mediationKnown (m : Mediation) : Prop := forall s, m = MediationOther s -> s = EmptyString.
Definition lifecycleKindKnown (k : LifecycleKind) : Prop := forall s, k = LifecycleKindOther s -> s = EmptyString.
(** A code is written by its name if it has one. *)
Definition codeKnown (c : ToolResultCode) : Prop := forall n, c = ToolResultCodeOther n -> ~ 0 <= n <= 2.
(** JSON-shaped: structpb takes the map and gives it back. *)
Definition structNormal (m : anymap) : Prop := onSome (fun kvs => exists s, NewStruct kvs = Some s /\ AsMap s = kvs) m.
Definition sourceNormal (b : bytes) (u : string) : Prop := b <> Some [] /\ (b = None \/ u = EmptyString).
Definition callNormal (tc : ToolCall) : Prop :=
  structNormal (Args tc) /\ mediationKnown (tc_Mediation tc).
Definition resultNormal (partOk : Part -> Prop) (tr : ToolResult) : Prop :=
  structNormal (tr_Output tr) /\ allP partOk (Content tr) /\ codeKnown (Code tr) /\
  Approval tr = None.
Fixpoint partNormal (p : Part) : Prop :=
  match p with
  | mkPart t f d r tc tr =>
      (count t + count f + count d + count r + count tc + count tr <= 1)%nat /\
      onSome (fun f => sourceNormal (Bytes f) (URI f)) f /\ structNormal d /\
      onSome (fun r => sourceNormal (Opaque _ r) (OpaqueURI _ r) /\ allP partNormal (Summary _ r)) r /\
      onSome callNormal tc /\ onSome (resultNormal partNormal) tr
  end.
Definition lifecycleNormal (l : Lifecycle) : Prop :=
  lifecycleKindKnown (lc_Kind l) /\
  Snapshot l <> Some (mkSnapshotRef EmptyString EmptyString false false).
Definition eventNormal (e : Event) : Prop :=
  (count (ev_Message e) + count (ev_ModelCall e) + count (ev_ToolCall e) + count (ev_Result e)
   + count (ev_Approval e) + count (ev_ApprovalResult e) + count (ev_Usage e) + count (ev_Lifecycle e)
   + count (ev_End e) + count (ev_Err e) + count (ev_ExecutionStart e) + count (ev_Parked e) <= 1)%nat /\
  kindKnown (Kind e) /\
  onSome (fun t => ts_AsTime (ts_New t) = Some t) (Timestamp e) /\
  onSome (fun m => allP partNormal (Parts m)) (ev_Message e) /\
  onSome callNormal (ev_ToolCall e) /\ onSome (resultNormal partNormal) (ev_Result e) /\
  onSome lifecycleNormal (ev_Lifecycle e).

Definition structStable (m : anymap) : Prop := toStruct (fromStruct (toStruct m)) = toStruct m.
Definition resultEncodable (partOk : Part -> Prop) (tr : ToolResult) : Prop :=
  structStable (tr_Output tr) /\ allP partOk (Content tr).
Fixpoint partEncodable (p : Part) : Prop :=
  match p with
  | mkPart t f d r tc tr =>
      structStable d /\ (d <> None -> toStruct d <> None) /\
      onSome (fun r => allP partEncodable (Summary _ r)) r /\
      onSome (fun tc => structStable (Args tc)) tc /\ onSome (resultEncodable partEncodable) tr
  end.
Definition eventEncodable (e : Event) : Prop :=
  onSome (fun t => ts_AsTime (ts_New t) = Some t) (Timestamp e) /\
  onSome (fun m => allP partEncodable (Parts m)) (ev_Message e) /\
  onSome (fun tc => structStable (Args tc)) (ev_ToolCall e) /\
  onSome (resultEncodable partEncodable) (ev_Result e).
End Normal.

(** What the decoders rely on: a Struct that came over the wire is JSON-shaped, so its map has a wire
    form that reads back as the same map, and a decoded instant is encoded without loss. *)
Class WireLaws `{Host} `{Timestamppb} : Prop := {
  AsMap_stable : forall s, exists s', NewStruct (AsMap s) = Some s' /\ AsMap s' = AsMap s;
  AsTime_stable : forall ts t, ts_AsTime ts = Some t -> ts_AsTime (ts_New t) = Some t;
}.

(** ** Lemmas *)

(** Go does not bound the nesting of parts; these are the induction principles the two part types
    need. *)
Lemma Part_nested_ind (Q : Part -> Prop)
  (HQ : forall t f d r tc tr, onSome (fun r => Forall Q (Summary _ r)) r ->
    onSome (fun tr => Forall Q (Content tr)) tr -> Q (mkPart t f d r tc tr)) : forall p, Q p.
Proof.
  fix IH 1. intros [t f d r tc tr]. apply HQ.
  - destruct r as [[? ? ? ? ? ps]|]; [|done]. cbn. induction ps; constructor; auto.
  - destruct tr as [[? ? ? ? ? ? ps]|]; [|done]. cbn. induction ps; constructor; auto.
Qed.

Lemma PbPart_nested_ind `{Host} (Q : PbPart -> Prop)
  (Hflat : forall p, match p with Part_Reasoning (Some _) | Part_ToolResult (Some _) => False | _ => True end -> Q p)
  (Hr : forall r, Forall (onSome Q) (pbr_Summary r) -> Q (Part_Reasoning (Some r)))
  (Ht : forall r, Forall (onSome Q) (pbtr_Content _ r) -> Q (Part_ToolResult (Some r))) : forall p, Q p.
Proof.
  fix IH 1. intros [|t|f|d|[r|]|tc|[r|]]; try (by apply Hflat).
  - apply Hr. destruct r as [? ? ? ps]. cbn. induction ps as [|[p|]]; constructor; cbn; auto.
  - apply Ht. destruct r as [? ? ? ? ? ? ps]. cbn. induction ps as [|[p|]]; constructor; cbn; auto.
Qed.

(** Parts through a repeated field, given that each survives. *)
Lemma partsFrom_partsTo `{Host} (ps : list Part) :
  Forall (fun p => partNormal p -> partFromProto (partToProto p) = p) ps -> allP partNormal ps ->
  partsFrom partFromProto (partsTo partToProto ps) = ps.
Proof. unfold partsFrom, partsTo. induction 1; cbn; [done|]. intros [??]. f_equal; auto with f_equal. Qed.

Lemma partsTo_partsFrom `{Host} (ps : list Part) :
  Forall (fun p => partEncodable p -> partToProto (partFromProto (partToProto p)) = partToProto p) ps ->
  allP partEncodable ps ->
  partsTo partToProto (partsFrom partFromProto (partsTo partToProto ps)) = partsTo partToProto ps.
Proof. unfold partsFrom, partsTo. induction 1; cbn; [done|]. intros [??]. f_equal; auto with f_equal. Qed.

Lemma partsFrom_normal `{Host} (ps : list (option PbPart)) :
  Forall (onSome (fun p => partNormal (partFromProto p))) ps -> allP partNormal (partsFrom partFromProto ps).
Proof.
  unfold partsFrom. induction 1 as [|p ps Hp _ IH]; cbn; [done|]. split; [|done].
  destruct p; [done|]. split; [cbn; lia|done].
Qed.

Section Facts.
Context `{Host} `{Timestamppb}.

Lemma kind_roundtrip k : kindFromProto (kindToProto k) = k <-> kindKnown k.
Proof. unfold kindKnown. destruct k; split; try done; [by intros [= <-] ? [= <-]|]. intros Hk. by rewrite (Hk _ eq_refl). Qed.
Lemma mediation_roundtrip m : mediationFromProto (mediationToProto m) = m <-> mediationKnown m.
Proof. unfold mediationKnown. destruct m; split; try done; [by intros [= <-] ? [= <-]|]. intros Hk. by rewrite (Hk _ eq_refl). Qed.
Lemma lifecycleKind_roundtrip k : lifecycleKindFromProto (lifecycleKindToProto k) = k <-> lifecycleKindKnown k.
Proof. unfold lifecycleKindKnown. destruct k; split; try done; [by intros [= <-] ? [= <-]|]. intros Hk. by rewrite (Hk _ eq_refl). Qed.
Lemma code_roundtrip c : codeOfNumber (codeNumber c) = c <-> codeKnown c.
Proof.
  unfold codeKnown, codeOfNumber. destruct c as [| | |n]; split; try done.
  - cbn. intros Hc ? [= <-]. repeat case_match; try done; lia.
  - intros Hc. specialize (Hc n eq_refl). cbn. repeat case_match; try done; lia.
Qed.
Lemma struct_roundtrip m : structNormal m -> fromStruct (toStruct m) = m.
Proof. destruct m as [kvs|]; [|done]. intros (s & Hs & Ha). cbn. rewrite Hs. cbn. by rewrite Ha. Qed.

Lemma nonEmpty_idem b : b <> Some [] -> nonEmpty b = b.
Proof. by destruct b as [[|]|]. Qed.
Lemma source_roundtrip {T} (B : bytes -> T) (U : string -> T) b u : sourceNormal b u ->
  (if hasBytes b then Some (B b) else if negb (bool_decide (u = EmptyString)) then Some (U u) else None)
  = match b with Some _ => Some (B b) | None => if bool_decide (u = EmptyString) then None else Some (U u) end.
Proof. intros [Hb _]. destruct b as [[|]|]; cbn in *; try done. by case_bool_decide. Qed.

Lemma nonEmpty_normal b : sourceNormal (nonEmpty b) EmptyString.
Proof. split; [by destruct b as [[|]|]|by right]. Qed.

Lemma file_roundtrip f : sourceNormal (Bytes f) (URI f) -> fileFromProto (fileToProto (Some f)) = Some f.
Proof.
  destruct f as [m b u d n]. cbn. intros Hs. rewrite (source_roundtrip _ _ _ _ Hs).
  destruct Hs as [Hb Hu]. destruct b as [[|]|]; cbn in *; [done|by destruct Hu as [| ->]|].
  by case_bool_decide; subst.
Qed.

Lemma fileToProto_stable f :
  fileToProto (fileFromProto (fileToProto f)) = fileToProto f.
Proof.
  destruct f as [[m b u d n]|]; [|done]. cbn.
  destruct b as [[|]|], (bool_decide (u = EmptyString)) eqn:E; cbn; rewrite ?E; done.
Qed.

Lemma reasoning_roundtrip r : sourceNormal (Opaque _ r) (OpaqueURI _ r) ->
  partsFrom partFromProto (partsTo partToProto (Summary _ r)) = Summary _ r ->
  reasoningFromProto partFromProto (reasoningToProto partToProto (Some r)) = Some r.
Proof.
  destruct r as [p m b u d ps i o v]. cbn. intros Hs ->. rewrite (source_roundtrip _ _ _ _ Hs).
  destruct Hs as [Hb Hu]. destruct b as [[|]|]; cbn in *; [done|by destruct Hu as [| ->]|].
  by case_bool_decide; subst.
Qed.

Lemma reasoningToProto_stable r :
  partsTo partToProto (partsFrom partFromProto (partsTo partToProto (Summary _ r))) =
    partsTo partToProto (Summary _ r) ->
  reasoningToProto partToProto (reasoningFromProto partFromProto (reasoningToProto partToProto (Some r)))
  = reasoningToProto partToProto (Some r).
Proof.
  destruct r as [p m b u d ps i o v]. cbn. intros Hps.
  destruct b as [[|]|], (bool_decide (u = EmptyString)) eqn:E; cbn; rewrite ?E, Hps; done.
Qed.

Lemma toolCall_roundtrip tc : callNormal tc -> toolCallFromProto (toolCallToProto (Some tc)) = Some tc.
Proof. destruct tc. intros [Ha%struct_roundtrip Hm%mediation_roundtrip]; cbn in *. by rewrite Ha, Hm. Qed.

Lemma mediationToProto_stable m : mediationToProto (mediationFromProto (mediationToProto m)) = mediationToProto m.
Proof. by destruct m. Qed.

Lemma toolCallToProto_stable tc : onSome (fun tc => structStable (Args tc)) tc ->
  toolCallToProto (toolCallFromProto (toolCallToProto tc)) = toolCallToProto tc.
Proof. destruct tc as [[]|]; [|done]. cbn. intros Ha. by rewrite Ha, mediationToProto_stable. Qed.

Lemma codeNumber_codeOfNumber n : codeNumber (codeOfNumber n) = n.
Proof. unfold codeOfNumber. repeat case_match; cbn; lia. Qed.

Lemma toolResult_roundtrip tr : resultNormal partNormal tr ->
  Forall (fun p => partNormal p -> partFromProto (partToProto p) = p) (Content tr) ->
  ToolResultFromProto (ToolResultToProto (Some tr)) = Some tr.
Proof.
  destruct tr. intros (Ho%struct_roundtrip & Hc & Hcode%code_roundtrip & Ha) HF. cbn in *.
  by rewrite Ho, (partsFrom_partsTo _ HF Hc), Hcode, Ha.
Qed.

Lemma toolResultToProto_stable tr : resultEncodable partEncodable tr ->
  Forall (fun p => partEncodable p -> partToProto (partFromProto (partToProto p)) = partToProto p) (Content tr) ->
  ToolResultToProto (ToolResultFromProto (ToolResultToProto (Some tr))) = ToolResultToProto (Some tr).
Proof.
  destruct tr. intros (Ho & Hc) HF. cbn in *.
  by rewrite Ho, (partsTo_partsFrom _ HF Hc), codeNumber_codeOfNumber.
Qed.

Lemma part_roundtrip p : partNormal p -> partFromProto (partToProto p) = p.
Proof.
  induction p as [t f d r tc tr Hr Htr] using Part_nested_ind.
  intros (Hc & Hf & Hd & Hre & Htc & Hres).
  destruct t, f, d, r, tc, tr; cbn in Hc; try lia; try done.
  - cbn [partToProto partFromProto]. by rewrite file_roundtrip.
  - cbn [partToProto partFromProto default id]. by rewrite (struct_roundtrip _ Hd).
  - cbn [partToProto partFromProto]. destruct Hre as [Hs Hps].
    by rewrite (reasoning_roundtrip _ Hs) by (apply partsFrom_partsTo; [exact Hr|exact Hps]).
  - cbn [partToProto partFromProto]. by rewrite toolCall_roundtrip.
  - pose proof (toolResult_roundtrip _ Hres Htr) as HR. cbn [partToProto partFromProto].
    unfold ToolResultFromProto, ToolResultToProto in HR. by rewrite HR.
Qed.

Lemma partToProto_stable p : partEncodable p -> partToProto (partFromProto (partToProto p)) = partToProto p.
Proof.
  induction p as [t f d r tc tr Hr Htr] using Part_nested_ind.
  intros (Hd & Hn & Hre & Htc & Hres).
  destruct t as [t|]; [done|]. destruct f as [f|].
  { cbn [partToProto partFromProto]. pose proof (fileToProto_stable (Some f)) as Hs.
    destruct (fileFromProto (fileToProto (Some f))) eqn:E; [|done]. by rewrite <- Hs. }
  destruct d as [d|].
  { cbn [partToProto partFromProto default]. unfold structStable in Hd.
    destruct (toStruct (Some d)) as [s|] eqn:E; [|by destruct Hn]. cbn [id fromStruct] in *. by rewrite Hd. }
  destruct r as [r|].
  { pose proof (reasoningToProto_stable r (partsTo_partsFrom _ Hr Hre)) as Hs.
    cbn [partToProto partFromProto].
    destruct (reasoningFromProto partFromProto (reasoningToProto partToProto (Some r))) eqn:E; [|done].
    by rewrite <- Hs. }
  destruct tc as [tc|].
  { pose proof (toolCallToProto_stable (Some tc) Htc) as Hs. cbn [partToProto partFromProto].
    destruct (toolCallFromProto (toolCallToProto (Some tc))) eqn:E; [|done]. by rewrite <- Hs. }
  destruct tr as [tr|]; [|done].
  pose proof (toolResultToProto_stable _ Hres Htr) as Hs. unfold ToolResultToProto, ToolResultFromProto in Hs.
  cbn [partToProto partFromProto].
  destruct (toolResultFromProto partFromProto (toolResultToProto partToProto (Some tr))) eqn:E; [|done].
  by rewrite <- Hs.
Qed.

Lemma identity_roundtrip id : identityFromProto (identityToProto id) = id.
Proof. unfold identityToProto. case_bool_decide; [by subst|]. by destruct id. Qed.

Lemma lifecycle_roundtrip l : lifecycleNormal l -> lifecycleFromProto (lifecycleToProto (Some l)) = Some l.
Proof.
  destruct l as [k d [[s u m se]|]]; intros [Hk%lifecycleKind_roundtrip Hs]; cbn in *; rewrite Hk; [|done].
  destruct m, se; cbn; try (rewrite ?orb_true_r; done).
  case_bool_decide; [case_bool_decide|]; cbn; subst; try done; by destruct Hs.
Qed.

Lemma lifecycleToProto_stable l : lifecycleToProto (lifecycleFromProto (lifecycleToProto l)) = lifecycleToProto l.
Proof.
  destruct l as [[k d [[s u m se]|]]|]; [|by destruct k|done]. cbn.
  assert (Hk : lifecycleKindToProto (lifecycleKindFromProto (lifecycleKindToProto k)) = lifecycleKindToProto k)
    by by destruct k.
  destruct m, se; cbn; rewrite ?orb_true_r; cbn; try by rewrite Hk.
  case_bool_decide; [case_bool_decide|]; cbn; subst; by rewrite Hk.
Qed.

Lemma timestamp_roundtrip ts : onSome (fun t => ts_AsTime (ts_New t) = Some t) ts ->
  (t ← ts_New <$> ts; ts_AsTime t) = ts.
Proof. by destruct ts. Qed.

Lemma count_le {A} (o : option A) : (count o <= 1)%nat.
Proof. destruct o; cbn; lia. Qed.

(** Once one body pointer is known to be set, the others are nil. *)
Ltac other_bodies_nil Hc :=
  repeat match goal with
    | o : option _ |- _ => destruct o; [solve [exfalso; cbn in Hc; lia]|]
    end.

Lemma event_roundtrip e : eventNormal e -> EventFromProto (Some (EventToProto e)) = e.
Proof.
  destruct e as [id ts sv k m mc tc r ap ar u lc h er es pk actor].
  intros (Hc & Hk%kind_roundtrip & Hts & Hm & Htc & Hr & Hlc). unfold EventFromProto, EventToProto, eventEnvelope.
  cbn [pb_ExecutionId pb_Ts pb_SchemaVersion pb_Kind pb_Actor pb_Body ExecutionID Timestamp SchemaVersion Kind Actor] in *.
  rewrite Hk, identity_roundtrip, (timestamp_roundtrip _ Hts). clear Hts Hk. unfold bodyToProto.
  cbn [ev_Message ev_ModelCall ev_ToolCall ev_Result ev_Approval ev_ApprovalResult ev_Usage ev_Lifecycle ev_End
       ev_Err ev_ExecutionStart ev_Parked] in *.
  destruct m as [[role ps]|].
  { other_bodies_nil Hc. cbn. rewrite partsFrom_partsTo; [done| |exact Hm].
    apply Forall_true. intros; by apply part_roundtrip. }
  destruct mc as [[]|]; [by other_bodies_nil Hc|].
  destruct tc as [tc|]; [other_bodies_nil Hc; by rewrite toolCall_roundtrip|].
  destruct r as [r|].
  { other_bodies_nil Hc. rewrite toolResult_roundtrip; [done..|].
    apply Forall_true. intros; by apply part_roundtrip. }
  destruct ap as [[]|]; [by other_bodies_nil Hc|].
  destruct ar as [[]|]; [by other_bodies_nil Hc|].
  destruct u as [[]|]; [by other_bodies_nil Hc|].
  destruct lc as [lc|]; [other_bodies_nil Hc; by rewrite lifecycle_roundtrip|].
  destruct h as [[? [[]|]]|]; [by other_bodies_nil Hc..|].
  destruct er as [[]|]; [by other_bodies_nil Hc|].
  destruct es as [[]|]; [by other_bodies_nil Hc|].
  by destruct pk as [[]|].
Qed.

Lemma EventToProto_stable e : eventEncodable e ->
  EventToProto (EventFromProto (Some (EventToProto e))) = EventToProto e.
Proof.
  destruct e as [id ts sv k m mc tc r ap ar u lc h er es pk actor].
  intros (Hts & Hm & Htc & Hr). unfold EventFromProto, EventToProto, eventEnvelope.
  cbn [pb_ExecutionId pb_Ts pb_SchemaVersion pb_Kind pb_Actor pb_Body ExecutionID Timestamp SchemaVersion Kind Actor] in *.
  rewrite identity_roundtrip, (timestamp_roundtrip _ Hts). clear Hts.
  assert (Hk : kindToProto (kindFromProto (kindToProto k)) = kindToProto k) by by destruct k.
  unfold bodyToProto.
  cbn [ev_Message ev_ModelCall ev_ToolCall ev_Result ev_Approval ev_ApprovalResult ev_Usage ev_Lifecycle ev_End
       ev_Err ev_ExecutionStart ev_Parked] in *.
  destruct m as [[role ps]|].
  { cbn. rewrite Hk, partsTo_partsFrom; [done| |exact Hm]. apply Forall_true. intros; by apply partToProto_stable. }
  destruct mc as [[]|]; [by cbn; rewrite Hk|].
  destruct tc as [tc|].
  { pose proof (toolCallToProto_stable (Some tc) Htc) as Hs.
    destruct (toolCallFromProto (toolCallToProto (Some tc))) eqn:E; [|done]. cbn in *. by rewrite Hk, Hs. }
  destruct r as [r|].
  { pose proof (toolResultToProto_stable r Hr ltac:(apply Forall_true; intros; by apply partToProto_stable)) as Hs.
    destruct (ToolResultFromProto (ToolResultToProto (Some r))) eqn:E; [|done]. cbn in *. by rewrite Hk, Hs. }
  destruct ap as [[]|]; [by cbn; rewrite Hk|].
  destruct ar as [[]|]; [by cbn; rewrite Hk|].
  destruct u as [[]|]; [by cbn; rewrite Hk|].
  destruct lc as [lc|].
  { pose proof (lifecycleToProto_stable (Some lc)) as Hs.
    destruct (lifecycleFromProto (lifecycleToProto (Some lc))) eqn:E; [|done].
    cbn [Actor ExecutionID Timestamp SchemaVersion Kind ev_Message ev_ModelCall ev_ToolCall ev_Result
      ev_Approval ev_ApprovalResult ev_Usage ev_Lifecycle] in *. by rewrite Hk, Hs. }
  destruct h as [[? [[]|]]|]; [by cbn; rewrite Hk..|].
  destruct er as [[]|]; [by cbn; rewrite Hk|].
  destruct es as [[]|]; [by cbn; rewrite Hk|].
  destruct pk as [[]|]; by cbn; rewrite Hk.
Qed.

Context `{!WireLaws}.

Lemma fromStruct_normal s : structNormal (fromStruct s).
Proof.
  destruct s as [s|]; [|done]. destruct (AsMap_stable s) as (s' & Hs & Ha). by exists s'.
Qed.

Lemma toolCallFromProto_normal tc : onSome callNormal (toolCallFromProto tc).
Proof. destruct tc as [[]|]; [|done]. split; [apply fromStruct_normal|]. apply mediation_roundtrip. cbn. by destruct pbt_Mediation0. Qed.

Lemma toolResultFromProto_normal tr :
  onSome (fun tr => Forall (onSome (fun p => partNormal (partFromProto p))) (pbtr_Content _ tr)) tr ->
  onSome (resultNormal partNormal) (toolResultFromProto partFromProto tr).
Proof.
  destruct tr as [[]|]; [|done]. intros HF. split; [apply fromStruct_normal|].
  split; [by apply partsFrom_normal|]. split; [|done]. apply code_roundtrip. cbn. by rewrite codeNumber_codeOfNumber.
Qed.

Lemma partFromProto_normal p : partNormal (partFromProto p).
Proof.
  induction p as [p Hflat|r Hr|r Hr] using PbPart_nested_ind.
  - destruct p as [|t|f|d|[]|tc|[]]; try done; try (by repeat split; cbn; lia).
    + split; [cbn; destruct fileFromProto; cbn; lia|]. repeat split; cbn.
      destruct f as [[m [[b|u]|] n d]|]; cbn; try done; [apply nonEmpty_normal|by split; [|left]..].
    + split; [cbn; destruct (fromStruct _); cbn; lia|]. split; [done|]. split; [apply fromStruct_normal|done].
    + split; [cbn; destruct toolCallFromProto; cbn; lia|]. repeat split; cbn. apply toolCallFromProto_normal.
  - destruct r as [pr m [[b|u]|] ps i o v d]; (split; [cbn; lia|]).
    all: split; [done|]; split; [done|]; split; [|done]; cbn; split; [|by apply partsFrom_normal].
    all: try apply nonEmpty_normal; split; auto.
  - split; [cbn; lia|]. repeat split; cbn.
    all: try apply fromStruct_normal; try (by apply partsFrom_normal); apply code_roundtrip; cbn; by rewrite codeNumber_codeOfNumber.
Qed.

Lemma partsFromProto_normal ps : allP partNormal (partsFrom partFromProto ps).
Proof. apply partsFrom_normal, Forall_true. intros [p|]; [apply partFromProto_normal|done]. Qed.

Lemma lifecycleFromProto_normal l : onSome lifecycleNormal (lifecycleFromProto l).
Proof.
  destruct l as [[k d s u m se]|]; [|done]. split; [apply lifecycleKind_roundtrip; by destruct k|]. cbn.
  destruct (_ || _) eqn:E; [|done]. intros [=]; subst. done.
Qed.

Lemma EventFromProto_normal p : eventNormal (EventFromProto p).
Proof.
  destruct p as [[id ts sv k b actor]|]; [|split; [cbn; lia|split; [by intros ? [= <-]|done]]].
  assert (Hk : kindKnown (kindFromProto k)) by (apply kind_roundtrip; by destruct k).
  assert (Ht : onSome (fun t => ts_AsTime (ts_New t) = Some t) (t ← ts; ts_AsTime t)).
  { destruct ts as [ts|]; [|done]. cbn. destruct (ts_AsTime ts) eqn:E; [|done]. by apply (AsTime_stable ts). }
  destruct b as [[m|m|t|r|a|a|u|l|h|e|es|r]|]; (split; [|do 2 (split; [done|])]); cbn.
  all: try (match goal with |- context [count ?o] => pose proof (count_le o) end; lia); try lia; try done.
  - destruct m; [|done]. split; [apply partsFromProto_normal|done].
  - split; [done|]. split; [apply toolCallFromProto_normal|done].
  - split; [done|]. split; [done|]. split; [|done]. apply toolResultFromProto_normal.
    destruct r; [|done]. apply Forall_true. intros [q|]; [apply partFromProto_normal|done].
  - do 3 (split; [done|]). apply lifecycleFromProto_normal.
Qed.
End Facts.

(** [matchToolCall] compares arguments after [ToolCallFromProto(ToolCallToProto(call))]. *)
Lemma wireArgs_ToolCall `{Host} tc :
  Args <$> ToolCallFromProto (ToolCallToProto (Some tc)) = Some (wireArgs (Args tc)).
Proof. by destruct tc. Qed.

Lemma HashRecord_stable `{Host} `{Timestamppb} marshal transform prev seq e : eventEncodable e ->
  HashRecord (H := wireEncoding marshal transform) prev seq (EventFromProto (Some (EventToProto e)))
  = HashRecord (H := wireEncoding marshal transform) prev seq e.
Proof. intros He. unfold HashRecord, canonRecord. cbn [marshalEvent wireEncoding]. by rewrite EventToProto_stable. Qed.

(** ** An example instance: timestamps as seconds and nanoseconds. *)
Definition zeroInstant : Z := - 62135596800 * 1000000000.
Definition exampleTimestamppb : Timestamppb := {|
  Ts := Z * Z;
  ts_New := fun t => (t / 1000000000, t mod 1000000000);
  ts_AsTime := fun ts =>
    let t := fst ts * 1000000000 + snd ts in if t =? zeroInstant then None else Some t;
|}.

Lemma exampleWireLaws : @WireLaws exampleHost exampleTimestamppb.
Proof.
  split.
  - intros s. by exists s.
  - intros [s n] t. cbn. case_match eqn:E; [done|]. intros [= <-].
    rewrite (Z.mul_comm (_ / _)), <- Z.div_mod by lia. by rewrite E.
Qed.

(** An assistant message with a file, a reasoning block with a summary and a tool result whose
    content nests a part. *)
Definition richEvent : Event :=
  setExecutionID "e1" (evMessage EventOutput (mkMessage "assistant" [
    mkPart (Some "hello"%string) None None None None None;
    mkPart None (Some (mkFilePart "image/png" (Some [1; 2; 3]) "" "sha256:aa" "img")) None None None None;
    mkPart None None None (Some (mkReasoningPart "anthropic" "claude-x" None "blob://x" "sha256:cc"
      [mkPart (Some "brief"%string) None None None None None] "rs_1" 2 "e1")) None None;
    mkPart None None None None None (Some (mkToolResult "c1" (Some [("temp"%string, AInt 21)]) "" "" false ""
      [mkPart None None (Some [("n"%string, AInt 1)]) None None None] ToolResultCodeUnspecified 0 0 None))])).

(** ** Properties *)



(** Decoding is stable: whatever a peer sends, the decoded event equals the one read back after it
    was encoded again, so the journal and the running harness see the same values. *)
Theorem EventFromProto_stable `{WireLaws} p :
  EventFromProto (Some (EventToProto (EventFromProto p))) = EventFromProto p.
Proof. apply event_roundtrip, EventFromProto_normal. Qed.

Definition unknownPeerEvent : @PbEvent exampleHost exampleTimestamppb :=
  mkPbEvent "e1" None 1 (PbEventKindOther 99)
    (Some (Event_Message (Some (mkPbMessage "tool" [None; Some (Part_Text None);
      Some (Part_File (Some (mkPbFilePart "m" (Some (FilePart_Bytes (Some []))) "n" "d")))])))) None.

Lemma EventFromProto_stable_witness :
  let from := @EventFromProto exampleHost exampleTimestamppb in
  let ev := from (Some unknownPeerEvent) in
  map (fun p => Bytes <$> part_File p) (default [] (Parts <$> ev_Message ev)) = [None; None; Some None] /\
  from (Some (@EventToProto exampleHost exampleTimestamppb ev)) = ev.
Proof.
  split; [vm_compute; reflexivity|].
  apply (@EventFromProto_stable exampleHost exampleTimestamppb exampleWireLaws (Some unknownPeerEvent)).
Defined.

(** Verification of a chain does not depend on whether its records crossed the wire: sent as log
    records and decoded, they verify exactly when the originals do, with the same error. *)
Theorem Verify_survives_wire `{Host} `{Timestamppb} marshal transform rs : forall prev,
  Forall (fun r => eventEncodable (rec_Event r)) rs ->
  verifyFrom (H := wireEncoding marshal transform) prev (map (fun r => RecordFromProto (Some (RecordToProto r))) rs)
  = verifyFrom (H := wireEncoding marshal transform) prev rs.
Proof.
  induction rs as [|r rs IH]; intros prev HF; [done|]. inversion HF as [|?? Hr Hrs]; subst.
  cbn [map verifyFrom RecordFromProto RecordToProto PrevHash Hash Seq rec_Event pb_PrevHash pb_ContentHash
       pb_Seq pb_Event].
  rewrite (HashRecord_stable _ _ _ _ _ Hr).
  destruct (bool_decide (PrevHash r = prev)); [|done]. destruct (HashRecord _ _ _) as [want|]; [|done].
  destruct (bool_decide (Hash r = want)); [|done]. by apply IH.
Qed.

Definition hiEvent : Event := setExecutionID "e1" (evMessage EventInput (TextMessage "user" "hi")).
Definition wireChain : list Record_ :=
  let enc := wireEncoding (H := exampleHost) (H0 := exampleTimestamppb)
    (fun p => Ok (bytesOf (pb_ExecutionId p))) (fun b => Ok b) in
  records (fst (Append (H := enc) 0 0 hiEvent (New))).

Lemma Verify_survives_wire_witness :
  verifyFrom (H := wireEncoding (H := exampleHost) (H0 := exampleTimestamppb)
      (fun p => Ok (bytesOf (pb_ExecutionId p))) (fun b => Ok b)) EmptyString
    (map (fun r => RecordFromProto (H := exampleHost) (H0 := exampleTimestamppb) (Some (RecordToProto r))) wireChain)
  = None.
Proof.
  rewrite (@Verify_survives_wire exampleHost exampleTimestamppb
    (fun p => Ok (bytesOf (pb_ExecutionId p))) (fun b => Ok b) wireChain EmptyString).
  - vm_compute. reflexivity.
  - apply (proj1 (List.Forall_map rec_Event (@eventEncodable exampleHost exampleTimestamppb) wireChain)).
    replace (List.map rec_Event wireChain) with [hiEvent] by (vm_compute; reflexivity).
    constructor; [|constructor]. repeat split. by intros [].
Defined.

(** A tool choice never loosens on the wire: the two conversions are inverse to each other, and each
    fails exactly on a mode it does not know, instead of falling back to the provider default. *)
Theorem ToolChoice_exact c p :
  (ToolChoiceToProto c = Ok p <-> ToolChoiceFromProto p = Ok c) /\
  ((exists e, ToolChoiceToProto c = Err e) <->
    exists s n, s <> EmptyString /\ c = Some (mkToolChoice (ToolChoiceModeOther s) n)) /\
  ((exists e, ToolChoiceFromProto p = Err e) <-> exists k n, p = Some (mkPbToolChoice (PbToolChoiceModeOther k) n)).
Proof.
  split; [|split].
  - destruct c as [[[] n]|], p as [[[] n']|]; cbn; repeat case_bool_decide; naive_solver.
  - destruct c as [[[] n]|]; cbn; repeat case_bool_decide; naive_solver.
  - destruct p as [[[] n]|]; cbn; naive_solver.
Qed.
