(* ===== verification/Sinks.v ===== *)
(** * The controller's state and its three effect sinks (controller/controller.go, effects.go,
    approval_effects.go, resume.go, sink_guard.go, legacy.go)

    One invocation runs a harness against the live sink (invoke and record), the replay sink (serve
    from the journal) or the resume sink (serve, then live). Sink calls of one invocation are
    serialized by the guard's mutex; a single-goroutine harness never contends for it, so [Lock]
    always succeeds and a call is one atomic step here. *)
From S2P Require Import Prelude GoErrors Api Canon EventLog Executions Approvals Harness.

(** ** State *)

(** What [controller.Observer] is told, in order. *)
Inductive Update := OnRecord (r : Record_) | OnDelta (d : Delta).

(** What is asked of the model provider and of the tool executors. *)
Inductive Asked := AskedModel (req : ModelRequest) | AskedTool (ctx : ToolCallContext) (call : ToolCall).

(** The mutable part of a controller and its surroundings: the log, the clock of the environment,
    the invocation counters, what the observer was told, and (a ghost) everything that was asked of the
    model provider and of the executors, whatever they answered. *)
Record World (S : Type) := mkWorld {
  w_log : S;
  w_tick : nat;
  liveModelCalls : Z;
  liveToolCalls : Z;
  w_updates : list Update;
  w_asked : list Asked;
}.
Arguments mkWorld {S}. Arguments w_log {S}. Arguments w_tick {S}. Arguments liveModelCalls {S}.
Arguments liveToolCalls {S}. Arguments w_updates {S}. Arguments w_asked {S}.

(** The immutable part of [Controller], as the options set it. A provider or executor may answer
    differently at each observation; [stream] also yields the chunks it reported. *)
Record Controller := mkController {
  c_model : nat -> ModelRequest -> res ModelResponse;
  c_stream : option (nat -> ModelRequest -> list string * res ModelResponse);
  onRecord : bool;
  onDelta : bool;
  startConfig : bytes;
  startResumeFromSeq : Z;
  c_tool : option (nat -> ToolCallContext -> ToolCall -> ToolResult * option goerr);
  c_fence : Z;
  c_sessionUID : string;
  harnessName : string;
}.

(** [WithFence]. *)
Definition setFence (f : Z) (c : Controller) : Controller :=
  mkController (c_model c) (c_stream c) (onRecord c) (onDelta c) (startConfig c) (startResumeFromSeq c)
    (c_tool c) f (c_sessionUID c) (harnessName c).

(** [sinkGuard]: [err] and [close]. *)
Record sinkGuard := mkGuard { closed : bool; stop : option goerr }.
Definition newGuard : sinkGuard := mkGuard false None.
Definition guardErr (g : sinkGuard) : option goerr :=
  match stop g with Some e => Some e | None => if closed g then Some (ESentinel ErrSinkClosed) else None end.
Definition guardClose (g : sinkGuard) : sinkGuard * option goerr := (mkGuard true (stop g), stop g).

(** [liveSink]; its controller and harness are section variables below. *)
Record liveSink := mkLiveSink {
  ls_executionID : string;
  legacyRecovery : bool;
  ls_guard : sinkGuard;
  ls_desc : option Descriptor;
  ls_calls : gmap string bool;
}.
Definition setGuard (g : sinkGuard) (s : liveSink) : liveSink :=
  mkLiveSink (ls_executionID s) (legacyRecovery s) g (ls_desc s) (ls_calls s).
Definition setStop (e : goerr) (s : liveSink) : liveSink :=
  setGuard (mkGuard (closed (ls_guard s)) (Some e)) s.
Definition setDesc (d : Descriptor) (s : liveSink) : liveSink :=
  mkLiveSink (ls_executionID s) (legacyRecovery s) (ls_guard s) (Some d) (ls_calls s).
Definition setCall (id : string) (gated : bool) (s : liveSink) : liveSink :=
  mkLiveSink (ls_executionID s) (legacyRecovery s) (ls_guard s) (ls_desc s) (<[id := gated]> (ls_calls s)).

(** [replaySink]. *)
Record replaySink := mkReplaySink {
  rs_stream : list Event;
  rs_i : nat;
  rs_outputs : list string;
  rs_legacy : bool;
  rs_failure : option goerr;
  rs_guard : sinkGuard;
  rs_approvals : gmap string ApprovalState;
  rs_calls : gmap string bool;
}.

(** [resumeSink]. *)
Record resumeSink := mkResumeSink {
  live : liveSink;
  res_stream : list Event;
  res_i : nat;
  res_failure : option goerr;
  res_approvals : gmap string ApprovalState;
}.

(** [newID]. *)
Definition newIDText `{Host} (tick : nat) : string := hexEncode (randBytes tick).

(** [hashModelInput(req)]. *)
Definition hashModelInput `{Host} (req : ModelRequest) : string := hexEncode (Sum256 (marshalRequest req)).

(** [toolMediationError(mediation)]. *)
Definition toolMediationError (m : Mediation) : option goerr :=
  match m with
  | MediationControllerMediated => None
  | MediationRequiresApproval => Some (ESentinel ErrApprovalUnavailable)
  | _ => Some (EWrap "got" (ESentinel ErrUnmediatedToolCall))
  end.

(** [approvalReportError(result)]. *)
Definition approvalReportError (r : ToolResult) : option goerr :=
  if negb (isNil (Approval r)) || negb (ApprovalRequestSeq r =? 0) || negb (ApprovalDecisionSeq r =? 0)
     || (negb (bool_decide (Code r = ToolResultCodeUnspecified))
         && negb (bool_decide (Code r = ToolResultCodeExecutorError)))
  then Some (ESentinel ErrApprovalReceiptReport) else None.

(** [approvalPark(state)] for a state with a request. *)
Definition approvalPark (id callID : string) (requestSeq : Z) : goerr :=
  EParked (mkApprovalRef id callID requestSeq).

(** [approvalEvidence(scan, executionID)]: a later state of the same call replaces an earlier one. *)
Definition approvalEvidence (scan : approvalScan) (executionID : string) : gmap string ApprovalState :=
  fold_left (fun states s =>
    if bool_decide (as_ExecutionID s = executionID) then <[tc_ID (as_Call s) := s]> states else states)
    (sc_states scan) ∅.

(** One event of the stream at [i], consumed when it has the kind. *)
Definition nextOf (kind : EventKind) (stream : list Event) (i : nat) : option Event :=
  match stream !! i with
  | Some e => if bool_decide (Kind e = kind) then Some e else None
  | None => None
  end.

(** [usageAt(stream, i)]. *)
Definition usageAt (stream : list Event) (i : nat) : Usage :=
  match stream !! i with
  | Some e => match Kind e, ev_Usage e with EventUsage, Some u => u | _, _ => zeroUsage end
  | None => zeroUsage
  end.

(** [consumeApprovalPrefix(stream, &i, state)]: the new index, or the index reached and the error. *)
Definition consumeApprovalPrefix (stream : list Event) (i : nat) (state : option ApprovalState)
    : nat * option goerr :=
  let missing := Some (divergedText "missing approval decision evidence") in
  match state with
  | None => (i, missing)
  | Some s =>
      if isNil (as_Request s) || isNil (as_Decision s) then (i, missing)
      else match nextOf EventApprovalRequest stream i with
      | None => (i, Some (divergedText "missing recorded request"))
      | Some _ =>
          match nextOf EventApprovalResult stream (S i) with
          | None => (S i, Some (divergedText "missing recorded result"))
          | Some _ => (S (S i), None)
          end
      end
  end.

(** [serveApproval(state, receipt)]. *)
Definition serveApproval (state : option ApprovalState) (receipt : option ToolResult) : res ToolResult :=
  match state with
  | Some s =>
      match as_Request s, as_Decision s, as_Receipt s with
      | Some request, Some decision, Some _ =>
          result ← recordedToolResult (as_Call s) receipt;
          if negb (ApprovalRequestSeq result =? Seq request) || negb (ApprovalDecisionSeq result =? Seq decision)
          then Err (divergedText "approval receipt sequence mismatch")
          else match ev_ApprovalResult (rec_Event decision) with
               | Some d => guard_err (validateApprovalReceipt d result) (Ok (setResultApproval (Some d) result))
               | None => Err (EText "unreachable: a scanned decision has its payload")
               end
      | _, _, _ => Err (divergedText "incomplete approval receipt evidence")
      end
  | None => Err (divergedText "incomplete approval receipt evidence")
  end.

(** ** Controller primitives *)

Section Ops.
Context `{Host} {S : Type} `{Store S}.
Variable c : Controller.

Definition onLog {A} (m : M S goerr A) : M (World S) goerr A := fun w =>
  let '(l, r) := m (w_log w) in
  (mkWorld l (w_tick w) (liveModelCalls w) (liveToolCalls w) (w_updates w) (w_asked w), r).

(** One observation of the environment: the clock advances. *)
Definition tick : M (World S) goerr nat := fun w =>
  (mkWorld (w_log w) (Datatypes.S (w_tick w)) (liveModelCalls w) (liveToolCalls w) (w_updates w) (w_asked w),
   Ok (w_tick w)).

(** Asking the provider or an executor: an observation that is remembered. *)
Definition ask (a : Asked) : M (World S) goerr nat := fun w =>
  (mkWorld (w_log w) (Datatypes.S (w_tick w)) (liveModelCalls w) (liveToolCalls w) (w_updates w) (w_asked w ++ [a]),
   Ok (w_tick w)).

(** [ctx.Err()]. *)
Definition ctxCheck : M (World S) goerr unit := let! t := tick in check (ctxErr t).

(** [newID]. *)
Definition newID : M (World S) goerr string := let! t := tick in mret (newIDText t).

(** [observe(rec)]. *)
Definition observe (r : Record_) : M (World S) goerr unit := modify (fun w =>
  if onRecord c
  then mkWorld (w_log w) (w_tick w) (liveModelCalls w) (liveToolCalls w) (w_updates w ++ [OnRecord r]) (w_asked w)
  else w).

(** [emitDelta(executionID, partIndex, chunk, done)]. *)
Definition emitDelta (executionID : string) (partIndex : Z) (chunk : string) (done : bool)
    : M (World S) goerr unit := modify (fun w =>
  if negb (onDelta c) || (bool_decide (chunk = EmptyString) && negb done) then w
  else mkWorld (w_log w) (w_tick w) (liveModelCalls w) (liveToolCalls w)
         (w_updates w ++ [OnDelta (mkDelta executionID partIndex chunk done)]) (w_asked w)).

Definition countModel : M (World S) goerr unit := modify (fun w =>
  mkWorld (w_log w) (w_tick w) (liveModelCalls w + 1) (liveToolCalls w) (w_updates w) (w_asked w)).
Definition countTool : M (World S) goerr unit := modify (fun w =>
  mkWorld (w_log w) (w_tick w) (liveModelCalls w) (liveToolCalls w + 1) (w_updates w) (w_asked w)).

(** [appendSeq(executionID, ev)]. *)
Definition appendSeq (executionID : string) (ev : Event) : M (World S) goerr Record_ :=
  if bool_decide (executionID = EmptyString) then throw (invalidLog "event has no execution_id")
  else
    let! head := onLog st_Head in
    let! rec := onLog (st_Append head (c_fence c) (setExecutionID executionID ev)) in
    do! observe rec in
    mret rec.

Fixpoint emitChunks (executionID : string) (chunks : list string) : M (World S) goerr unit :=
  match chunks with
  | [] => mret tt
  | ch :: chs => do! emitDelta executionID 0 ch false in emitChunks executionID chs
  end.

(** [invokeModel(ctx, executionID, req)]. *)
Definition invokeModel (executionID : string) (req : ModelRequest) : M (World S) goerr ModelResponse :=
  let! t := ask (AskedModel req) in
  match c_stream c with
  | None => lift (c_model c t req)
  | Some stream =>
      let '(chunks, r) := stream t req in
      do! emitChunks executionID chunks in
      let! resp := lift r in
      do! emitDelta executionID 0 EmptyString true in
      mret resp
  end.

(** [describeHarness(ctx, har)]. *)
Definition describeHarness (har : Harness) : M (World S) goerr Descriptor :=
  let! t := tick in
  match Describe har t with
  | Ok d => mret d
  | Err e => throw (EJoin "describe harness failed" [ESentinel ErrHarnessDescribeFailed; e])
  end.

(** [resolvedHarnessName(desc)]. *)
Definition resolvedHarnessName (desc : Descriptor) : string :=
  if bool_decide (harnessName c = EmptyString) then desc_ID desc else harnessName c.

(** The executor call of a configured [ToolFunc]: the result is meaningful beside an error too. *)
Definition callTool (call : ToolCall) (tool : nat -> ToolCallContext -> ToolCall -> ToolResult * option goerr)
    : M (World S) goerr (ToolResult * option goerr) :=
  let! t := ask (AskedTool (mkToolCallContext (c_sessionUID c)) call) in mret (tool t (mkToolCallContext (c_sessionUID c)) call).
End Ops.

(** ** The live sink *)

Section LiveSink.
Context `{Host} {S : Type} `{Store S}.
Variables (c : Controller) (har : Harness).

Definition LiveState : Type := World S * liveSink.

Definition onWorld {A} (m : M (World S) goerr A) : M LiveState goerr A := fun st =>
  let '(w, r) := m (fst st) in ((w, snd st), r).
Definition getSink {A} (f : liveSink -> A) : M LiveState goerr A := gets (fun st => f (snd st)).
Definition modSink (f : liveSink -> liveSink) : M LiveState goerr unit := modify (fun st => (fst st, f (snd st))).

(** The preamble of every live effect. *)
Definition liveGuard {A} (op : M LiveState goerr A) : M LiveState goerr A :=
  let! g := getSink ls_guard in
  do! check (guardErr g) in
  do! onWorld ctxCheck in
  op.

(** [liveSink.append]: the ID-less write is confined to the sink of a legacy recovery. *)
Definition live_append (ev : Event) : M LiveState goerr Record_ :=
  let! legacy := getSink legacyRecovery in
  let! id := getSink ls_executionID in
  if negb legacy then onWorld (appendSeq c id ev)
  else
    let! head := onWorld (onLog st_Head) in
    let! rec := onWorld (onLog (st_Append head (c_fence c) (setExecutionID EmptyString ev))) in
    do! onWorld (observe c rec) in
    mret rec.

(** [completeModel]. *)
Definition completeModel (req : ModelRequest) : M LiveState goerr ModelResponse :=
  let! id := getSink ls_executionID in
  let! resp := onWorld (invokeModel c id req) in
  do! onWorld countModel in
  do! live_append (evMessage EventOutput (mresp_Message resp)) in
  mret resp.

(** [liveSink.model]. *)
Definition live_model (req : ModelRequest) : M LiveState goerr ModelResponse :=
  let! id := onWorld newID in
  do! live_append (evModelCall (mkModelCall (mr_Model req) [] (hashModelInput req) id)) in
  completeModel req.

(** [liveSink.output]. *)
Definition live_output (delta : string) : M LiveState goerr unit :=
  do! live_append (evMessage EventOutput (TextMessage "assistant" delta)) in mret tt.

(** [approvalDescriptor]. *)
Definition approvalDescriptor : M LiveState goerr unit :=
  let! cached := getSink ls_desc in
  let! desc :=
    match cached with
    | Some d => mret d
    | None =>
        let! d := onWorld (describeHarness har) in
        do! modSink (setDesc d) in
        mret d
    end in
  if bool_decide (cap_Resumability (desc_Capabilities desc) = ResumabilityStatelessReplay) then mret tt
  else throw (ESentinel ErrApprovalUnavailable).

(** Fail with [e] after making it the sink's sticky stop. *)
Definition stopWith {A} (e : goerr) : M LiveState goerr A := do! modSink (setStop e) in throw e.

(** [parkTool]. *)
Definition parkTool (call : ToolCall) : M LiveState goerr ToolResult :=
  do! approvalDescriptor in
  if bool_decide (c_sessionUID c = EmptyString) then throw (ESentinel ErrMissingSessionUID)
  else
    let! legacy := getSink legacyRecovery in
    if legacy || bool_decide (tc_ID call = EmptyString) then throw (ESentinel ErrInvalidApprovalCall)
    else if bool_decide (IdempotencyKey call = EmptyString) then throw (ESentinel ErrMissingIdempotencyKey)
    else
      let! calls := getSink ls_calls in
      if negb (isNil (calls !! tc_ID call)) then throw (ESentinel ErrInvalidApprovalCall)
      else
        do! live_append (evToolCall call) in
        do! modSink (setCall (tc_ID call) true) in
        let! r := try (live_append (evApprovalRequest (mkApprovalRequest (tc_ID call) EmptyString))) in
        let! id := getSink ls_executionID in
        match r with
        | Err e => stopWith e
        | Ok req => stopWith (EParked (mkApprovalRef id (tc_ID call) (Seq req)))
        end.

(** [execTool]. *)
Definition execTool (call : ToolCall) : M LiveState goerr ToolResult :=
  match c_tool c with
  | None => throw (EText "controller: no tool executor configured")
  | Some tool =>
      let! rt := onWorld (callTool c call tool) in
      do! check (snd rt) in
      do! onWorld countTool in
      do! check (approvalReportError (fst rt)) in
      let result := setResultID (tc_ID call) (fst rt) in
      do! live_append (evToolResult result) in
      mret result
  end.

(** [liveSink.toolCall]. *)
Definition live_toolCall (call : ToolCall) : M LiveState goerr ToolResult :=
  if bool_decide (tc_Mediation call = MediationRequiresApproval) then parkTool call
  else
    let! calls := getSink ls_calls in
    if default false (calls !! tc_ID call) then throw (ESentinel ErrInvalidApprovalCall)
    else
      do! check (toolMediationError (tc_Mediation call)) in
      if bool_decide (IdempotencyKey call = EmptyString) then throw (ESentinel ErrMissingIdempotencyKey)
      else
        do! live_append (evToolCall call) in
        do! modSink (setCall (tc_ID call) false) in
        execTool call.

Definition denial : string := "Tool execution denied by approval decision.".

(** [completeApproval] for a state with a request and a decision. *)
Definition completeApproval (state : ApprovalState) : M LiveState goerr ToolResult :=
  let! pre := try approvalDescriptor in
  match pre with
  | Err e => stopWith e
  | Ok _ =>
    if bool_decide (c_sessionUID c = EmptyString) then stopWith (ESentinel ErrMissingSessionUID)
    else
      match as_Request state, as_Decision state with
      | Some request, Some decisionRec =>
        match ev_ApprovalResult (rec_Event decisionRec) with
        | Some decision =>
            let! result :=
              if negb (Approved decision)
              then mret (mkToolResult EmptyString None EmptyString EmptyString true denial
                           (Parts (TextMessage "tool" denial)) ToolResultCodeApprovalDenied 0 0 None)
              else
                match c_tool c with
                | None => stopWith (ESentinel ErrMissingToolExecutor)
                | Some tool =>
                    let! rt := onWorld (callTool c (as_Call state) tool) in
                    do! onWorld countTool in
                    let r := match snd rt with
                             | Some e => setResultError (errText e) (fst rt)
                             | None => fst rt
                             end in
                    mret (setResultCode (if IsError r then ToolResultCodeExecutorError
                                         else ToolResultCodeUnspecified) r)
                end in
            let receipt := setResultApproval None
              (setResultSeqs (Seq request) (Seq decisionRec) (setResultID (tc_ID (as_Call state)) result)) in
            let! w := try (live_append (evToolResult receipt)) in
            match w with
            | Err e => stopWith e
            | Ok _ => mret (setResultApproval (Some decision) receipt)
            end
        | None => throw (EText "unreachable: a scanned decision has its payload")
        end
      | _, _ => throw (EText "unreachable: consumeApprovalPrefix checked the evidence")
      end
  end.

(** [liveSink.report]. *)
Definition live_report (tr : ToolResult) : M LiveState goerr unit :=
  let! calls := getSink ls_calls in
  if default false (calls !! tr_ID tr) then stopWith (ESentinel ErrApprovalReceiptReport)
  else
    do! check (approvalReportError tr) in
    do! live_append (evToolResult tr) in
    mret tt.

(** [liveSink.usage]. *)
Definition live_usage (u : Usage) : M LiveState goerr unit :=
  do! live_append (evUsage u) in mret tt.

(** [liveSink] as an [EventSink]. *)
Definition liveEventSink : EventSink LiveState := {|
  sink_Model := fun req => liveGuard (live_model req);
  sink_Output := fun d => liveGuard (live_output d);
  sink_ToolCall := fun tc => liveGuard (live_toolCall tc);
  sink_Report := fun tr => liveGuard (live_report tr);
  sink_Usage := fun u => liveGuard (live_usage u);
|}.
End LiveSink.

(** ** The replay sink *)

Section ReplaySink.
Context `{Host} {S : Type} `{Store S}.

Definition ReplayState : Type := World S * replaySink.

Definition inWorld {A} (m : M (World S) goerr A) : M ReplayState goerr A := fun st =>
  let '(w, r) := m (fst st) in ((w, snd st), r).
Definition getReplay {A} (f : replaySink -> A) : M ReplayState goerr A := gets (fun st => f (snd st)).
Definition modReplay (f : replaySink -> replaySink) : M ReplayState goerr unit :=
  modify (fun st => (fst st, f (snd st))).

Definition setFailure (e : goerr) (s : replaySink) : replaySink :=
  mkReplaySink (rs_stream s) (rs_i s) (rs_outputs s) (rs_legacy s) (Some e) (rs_guard s) (rs_approvals s) (rs_calls s).
Definition setIndex (i : nat) (s : replaySink) : replaySink :=
  mkReplaySink (rs_stream s) i (rs_outputs s) (rs_legacy s) (rs_failure s) (rs_guard s) (rs_approvals s) (rs_calls s).
Definition addOutput (t : string) (s : replaySink) : replaySink :=
  mkReplaySink (rs_stream s) (rs_i s) (rs_outputs s ++ [t]) (rs_legacy s) (rs_failure s) (rs_guard s)
    (rs_approvals s) (rs_calls s).
Definition addCall (id : string) (s : replaySink) : replaySink :=
  mkReplaySink (rs_stream s) (rs_i s) (rs_outputs s) (rs_legacy s) (rs_failure s) (rs_guard s)
    (rs_approvals s) (<[id := true]> (rs_calls s)).

(** Fail with [e] after latching it as the sink's failure. *)
Definition failWith {A} (e : goerr) : M ReplayState goerr A := do! modReplay (setFailure e) in throw e.
(** [replaySink.diverged]. *)
Definition replay_diverged {A} (text : string) : M ReplayState goerr A := failWith (diverged (EText text)).

(** [replaySink.nextOf]. *)
Definition replay_nextOf (kind : EventKind) : M ReplayState goerr (option Event) :=
  let! i := getReplay rs_i in
  let! stream := getReplay rs_stream in
  match nextOf kind stream i with
  | Some e => do! modReplay (setIndex (Datatypes.S i)) in mret (Some e)
  | None => mret None
  end.

(** The preamble of every replayed effect. *)
Definition replayGuard {A} (op : M ReplayState goerr A) : M ReplayState goerr A :=
  let! g := getReplay rs_guard in
  do! check (guardErr g) in
  let! f := getReplay rs_failure in
  do! check f in
  do! inWorld ctxCheck in
  op.

(** [replaySink.Model] after the preamble. *)
Definition replay_model (req : ModelRequest) : M ReplayState goerr ModelResponse :=
  let! mc := replay_nextOf EventModelCall in
  match mc with
  | None => replay_diverged "replay: expected a recorded model call, found none"
  | Some mc =>
      if match ev_ModelCall mc with
         | Some m => negb (bool_decide (InputHash m = hashModelInput req))
         | None => true
         end
      then replay_diverged "replay: model input hash mismatch"
      else
        let! out := replay_nextOf EventOutput in
        match out with
        | None => throw (EText "replay: expected a recorded completion, found none")
        | Some out =>
            do! match ev_Message out with
                | Some m => modReplay (addOutput (Text m))
                | None => mret tt
                end in
            let! legacy := getReplay rs_legacy in
            let! stream := getReplay rs_stream in
            let! i := getReplay rs_i in
            mret (mkModelResponse (default zeroMessage (ev_Message out))
                    (if (legacy : bool) then zeroUsage else usageAt stream i))
        end
  end.

(** [replaySink.Output] after the preamble. *)
Definition replay_output (delta : string) : M ReplayState goerr unit :=
  let! ev := replay_nextOf EventOutput in
  match ev with
  | None => replay_diverged "replay: unexpected output (no matching recorded event)"
  | Some ev =>
      let recorded := match ev_Message ev with Some m => Text m | None => EmptyString end in
      if negb (bool_decide (delta = recorded)) then replay_diverged "replay: output mismatch"
      else modReplay (addOutput delta)
  end.

(** A keyless ordinary call is rejected unless the next record is a gated intent of the same ID. *)
Definition keylessRejected (stream : list Event) (i : nat) (tc : ToolCall) : bool :=
  bool_decide (tc_Mediation tc = MediationControllerMediated) && bool_decide (IdempotencyKey tc = EmptyString)
  && match stream !! i with
     | Some e =>
         match Kind e, ev_ToolCall e with
         | EventToolCall, Some rc =>
             negb (bool_decide (tc_ID rc = tc_ID tc)) || negb (bool_decide (tc_Mediation rc = MediationRequiresApproval))
         | _, _ => true
         end
     | None => true
     end.

(** The next record is the intent of a distinct ordinary call. *)
Definition distinctFallback (stream : list Event) (i : nat) (tc : ToolCall) : bool :=
  match stream !! i with
  | Some e =>
      match Kind e, ev_ToolCall e with
      | EventToolCall, Some rc =>
          negb (bool_decide (tc_ID rc = tc_ID tc)) && negb (bool_decide (tc_Mediation rc = MediationRequiresApproval))
      | _, _ => false
      end
  | None => false
  end.

(** [replaySink.ToolCall] after the preamble. *)
Definition replay_toolCall (tc : ToolCall) : M ReplayState goerr ToolResult :=
  let! i := getReplay rs_i in
  let! stream := getReplay rs_stream in
  if keylessRejected stream i tc then throw (ESentinel ErrMissingIdempotencyKey)
  else
    do! check (if distinctFallback stream i tc then toolMediationError (tc_Mediation tc) else None) in
    let! call := replay_nextOf EventToolCall in
    match call with
    | None =>
        do! check (toolMediationError (tc_Mediation tc)) in
        failWith (divergedText "replay expected a recorded tool call, found none")
    | Some ev =>
        match matchToolCall tc (ev_ToolCall ev), ev_ToolCall ev with
        | Some e, _ => failWith e
        | None, None => throw (EText "unreachable: matchToolCall rejects a missing payload")
        | None, Some rc =>
            let! approvals := getReplay rs_approvals in
            let gated := bool_decide (tc_Mediation rc = MediationRequiresApproval) in
            let state := if gated then approvals !! tc_ID rc else None in
            do! (if gated
                 then
                   do! modReplay (addCall (tc_ID rc)) in
                   let! i := getReplay rs_i in
                   let '(j, e) := consumeApprovalPrefix stream i state in
                   do! modReplay (setIndex j) in
                   match e with Some e => failWith e | None => mret tt end
                 else mret tt) in
            let! tr := replay_nextOf EventToolResult in
            match tr with
            | None => throw (EText "controller: recorded tool call has no result")
            | Some tr =>
                let r := match state with
                         | Some _ => serveApproval state (ev_Result tr)
                         | None => recordedToolResult rc (ev_Result tr)
                         end in
                match r with
                | Ok result => mret result
                | Err e => failWith e
                end
            end
        end
    end.

(** Whether the record at [i] carries host-owned approval receipt fields. *)
Definition receiptAt (stream : list Event) (i : nat) : bool :=
  match stream !! i with
  | Some e => match ev_Result e with Some r => negb (isNil (approvalReportError r)) | None => false end
  | None => false
  end.

(** [replaySink.Report] after the preamble. *)
Definition replay_report (tr : ToolResult) : M ReplayState goerr unit :=
  let! calls := getReplay rs_calls in
  if default false (calls !! tr_ID tr) then failWith (diverged (ESentinel ErrApprovalReceiptReport))
  else
    do! check (approvalReportError tr) in
    let! i := getReplay rs_i in
    let! stream := getReplay rs_stream in
    if receiptAt stream i then failWith (divergedText "Report cannot consume approval receipt")
    else
      let! ev := replay_nextOf EventToolResult in
      match ev with
      | None => replay_diverged "replay: unexpected report (no matching recorded event)"
      | Some _ => mret tt
      end.

(** [replaySink.Usage] after the preamble. *)
Definition replay_usage (u : Usage) : M ReplayState goerr unit :=
  let! legacy := getReplay rs_legacy in
  if (legacy : bool) then mret tt
  else
    let! ev := replay_nextOf EventUsage in
    match ev with
    | None => replay_diverged "replay: unexpected usage (no matching recorded event)"
    | Some ev =>
        match ev_Usage ev with
        | None => replay_diverged "replay: recorded usage is missing its payload"
        | Some v => if decide (v = u) then mret tt else replay_diverged "replay: usage mismatch"
        end
    end.

(** [replaySink] as an [EventSink]. *)
Definition replayEventSink : EventSink ReplayState := {|
  sink_Model := fun req => replayGuard (replay_model req);
  sink_Output := fun d => replayGuard (replay_output d);
  sink_ToolCall := fun tc => replayGuard (replay_toolCall tc);
  sink_Report := fun tr => replayGuard (replay_report tr);
  sink_Usage := fun u => replayGuard (replay_usage u);
|}.
End ReplaySink.

(** ** The resume sink *)

Section ResumeSink.
Context `{Host} {S : Type} `{Store S}.
Variables (c : Controller) (har : Harness).

Definition ResumeState : Type := World S * resumeSink.

Definition onLive {A} (m : M (World S * liveSink) goerr A) : M ResumeState goerr A := fun st =>
  let '((w, l), r) := m (fst st, live (snd st)) in
  ((w, mkResumeSink l (res_stream (snd st)) (res_i (snd st)) (res_failure (snd st)) (res_approvals (snd st))), r).
Definition getResume {A} (f : resumeSink -> A) : M ResumeState goerr A := gets (fun st => f (snd st)).
Definition modResume (f : resumeSink -> resumeSink) : M ResumeState goerr unit :=
  modify (fun st => (fst st, f (snd st))).

Definition resFail (e : goerr) (s : resumeSink) : resumeSink :=
  mkResumeSink (live s) (res_stream s) (res_i s) (Some e) (res_approvals s).
Definition resIndex (i : nat) (s : resumeSink) : resumeSink :=
  mkResumeSink (live s) (res_stream s) i (res_failure s) (res_approvals s).

Definition resumeFailWith {A} (e : goerr) : M ResumeState goerr A := do! modResume (resFail e) in throw e.
(** [resumeSink.diverged]. *)
Definition resume_diverged {A} (text : string) : M ResumeState goerr A :=
  resumeFailWith (diverged (EText text)).

(** [resumeSink.recordedNext]. *)
Definition recordedNext (kind : EventKind) : M ResumeState goerr (option Event) :=
  let! i := getResume res_i in
  let! stream := getResume res_stream in
  match nextOf kind stream i with
  | Some e => do! modResume (resIndex (Datatypes.S i)) in mret (Some e)
  | None => mret None
  end.

(** [s.i < len(s.stream)]. *)
Definition serving (s : resumeSink) : bool := Nat.ltb (res_i s) (length (res_stream s)).

(** The preamble of every resumed effect. *)
Definition resumeGuard {A} (op : M ResumeState goerr A) : M ResumeState goerr A :=
  let! g := getResume (fun s => ls_guard (live s)) in
  do! check (guardErr g) in
  let! f := getResume res_failure in
  do! check f in
  do! onLive (onWorld ctxCheck) in
  op.

(** [resumeSink.Model] after the preamble. *)
Definition resume_model (req : ModelRequest) : M ResumeState goerr ModelResponse :=
  let! serve := getResume serving in
  if negb serve then onLive (live_model c req)
  else
    let! mc := recordedNext EventModelCall in
    match mc with
    | None => resume_diverged "resume: recorded stream diverged (expected model call)"
    | Some mc =>
        if match ev_ModelCall mc with
           | Some m => negb (bool_decide (InputHash m = hashModelInput req))
           | None => true
           end
        then resume_diverged "resume: model input hash mismatch (I0)"
        else
          let! out := recordedNext EventOutput in
          let! legacy := getResume (fun s => legacyRecovery (live s)) in
          match out with
          | None =>
              let! more := getResume serving in
              if more || legacy then throw (EText "resume: recorded completion missing")
              else onLive (completeModel c req)
          | Some out =>
              let! stream := getResume res_stream in
              let! i := getResume res_i in
              mret (mkModelResponse (default zeroMessage (ev_Message out))
                      (if (legacy : bool) then zeroUsage else usageAt stream i))
          end
    end.

(** [resumeSink.Output] after the preamble. *)
Definition resume_output (delta : string) : M ResumeState goerr unit :=
  let! serve := getResume serving in
  if negb serve then onLive (live_output c delta)
  else
    let! out := recordedNext EventOutput in
    match out with
    | None => resume_diverged "resume: recorded stream diverged (expected output)"
    | Some out =>
        let recorded := match ev_Message out with Some m => Text m | None => EmptyString end in
        if negb (bool_decide (delta = recorded)) then resume_diverged "resume: output mismatch"
        else mret tt
    end.

(** The gated part of [resumeSink.ToolCall]: the evidence is served, or a decided call completed. *)
Definition resume_gated (rc : ToolCall) : M ResumeState goerr ToolResult :=
  let! approvals := getResume res_approvals in
  let! stream := getResume res_stream in
  let! i := getResume res_i in
  let state := approvals !! tc_ID rc in
  let '(j, e) := consumeApprovalPrefix stream i state in
  do! modResume (resIndex j) in
  match e, state with
  | Some e, _ => resumeFailWith e
  | None, None => throw (EText "unreachable: consumeApprovalPrefix rejects missing evidence")
  | None, Some s =>
      if isNil (as_Receipt s) then onLive (completeApproval c har s)
      else
        let! tr := recordedNext EventToolResult in
        match tr with
        | None => resumeFailWith (divergedText "missing approval receipt")
        | Some tr =>
            match serveApproval state (ev_Result tr) with
            | Ok result => mret result
            | Err e => resumeFailWith e
            end
        end
  end.

(** The ordinary part of [resumeSink.ToolCall]: serve the receipt, report a handled failure, or
    re-drive the terminal intent. *)
Definition resume_ordinary (rc : ToolCall) : M ResumeState goerr ToolResult :=
  let! tr := recordedNext EventToolResult in
  match tr with
  | Some tr =>
      match recordedToolResult rc (ev_Result tr) with
      | Ok result => mret result
      | Err e => resumeFailWith e
      end
  | None =>
      let! more := getResume serving in
      if (more : bool) then throw (EText "controller: recorded tool call has no result")
      else onLive (execTool c rc)
  end.

(** [resumeSink.ToolCall] after the preamble. *)
Definition resume_toolCall (tc : ToolCall) : M ResumeState goerr ToolResult :=
  let! i := getResume res_i in
  let! stream := getResume res_stream in
  if keylessRejected stream i tc then throw (ESentinel ErrMissingIdempotencyKey)
  else
    let! serve := getResume serving in
    if negb serve then onLive (live_toolCall c har tc)
    else
      do! check (if distinctFallback stream i tc then toolMediationError (tc_Mediation tc) else None) in
      let! call := recordedNext EventToolCall in
      match call with
      | None =>
          do! check (toolMediationError (tc_Mediation tc)) in
          resumeFailWith (divergedText "resume expected a recorded tool call, found none")
      | Some ev =>
          match matchToolCall tc (ev_ToolCall ev), ev_ToolCall ev with
          | Some e, _ => resumeFailWith e
          | None, None => throw (EText "unreachable: matchToolCall rejects a missing payload")
          | None, Some rc =>
              let gated := bool_decide (tc_Mediation rc = MediationRequiresApproval) in
              do! onLive (modSink (setCall (tc_ID rc) gated)) in
              if gated then resume_gated rc else resume_ordinary rc
          end
      end.

(** [resumeSink.Report] after the preamble. *)
Definition resume_report (tr : ToolResult) : M ResumeState goerr unit :=
  let! calls := getResume (fun s => ls_calls (live s)) in
  let! serve := getResume serving in
  if default false (calls !! tr_ID tr)
  then if (serve : bool) then resumeFailWith (diverged (ESentinel ErrApprovalReceiptReport))
       else onLive (stopWith (ESentinel ErrApprovalReceiptReport))
  else
    do! check (approvalReportError tr) in
    if negb serve then onLive (live_report c tr)
    else
      let! i := getResume res_i in
      let! stream := getResume res_stream in
      if receiptAt stream i then resumeFailWith (divergedText "Report cannot consume approval receipt")
      else
        let! ev := recordedNext EventToolResult in
        match ev with
        | None => resume_diverged "resume: recorded stream diverged (expected tool result)"
        | Some _ => mret tt
        end.

(** [resumeSink.Usage] after the preamble. *)
Definition resume_usage (u : Usage) : M ResumeState goerr unit :=
  let! legacy := getResume (fun s => legacyRecovery (live s)) in
  let! serve := getResume serving in
  if negb serve then onLive (live_usage c u)
  else if (legacy : bool) then mret tt
  else
    let! ev := recordedNext EventUsage in
    match ev with
    | None => resume_diverged "resume: recorded stream diverged (expected usage)"
    | Some ev =>
        match ev_Usage ev with
        | None => resume_diverged "resume: recorded usage is missing its payload"
        | Some v => if decide (v = u) then mret tt else resume_diverged "resume: usage mismatch"
        end
    end.

(** [resumeSink] as an [EventSink]. *)
Definition resumeEventSink : EventSink ResumeState := {|
  sink_Model := fun req => resumeGuard (resume_model req);
  sink_Output := fun d => resumeGuard (resume_output d);
  sink_ToolCall := fun tc => resumeGuard (resume_toolCall tc);
  sink_Report := fun tr => resumeGuard (resume_report tr);
  sink_Usage := fun u => resumeGuard (resume_usage u);
|}.
End ResumeSink.
