(* ===== verification/Controller.v ===== *)
(** * The controller's operations (controller/controller.go, resume.go, harness_identity.go, legacy.go)

    [New], [Exec], [Replay], [Resume], [Fork] and the queries, over any [Store]. Structured logging
    and request correlation do not affect what they do and are left out. *)
From S2P Require Import Prelude GoErrors Api Canon EventLog Executions Approvals Harness Sinks.

(** [CanPlace(harness, runtime)]. *)
Definition CanPlace (harness : Capabilities) (runtime : RuntimeCapabilities) : bool :=
  if bool_decide (cap_Resumability harness = ResumabilityRequiresMemorySnapshot) && negb (MemorySnapshot runtime)
  then false else true.

(** [controllerErrorKind(err)]. *)
Definition controllerErrorKind (err : option goerr) : string :=
  match err with
  | None => EmptyString
  | Some e =>
      if errors_Is e ErrConflict then "conflict"
      else if errors_Is e ErrFenced then "fenced"
      else if errors_Is e ErrReplayInvokedModel then "replay_invoked_model"
      else if errors_Is e ErrReplayDiverged then "replay_diverged"
      else if errors_Is e ErrInvalidExecutionLog then "invalid_execution_log"
      else if errors_Is e ErrHarnessMismatch then "harness_mismatch"
      else if errors_Is e ErrHarnessVersionMismatch then "harness_version_mismatch"
      else if errors_Is e ErrApprovalUnavailable then "approval_unavailable"
      else if errors_Is e ErrApprovalBlocked then "approval_blocked"
      else if errors_Is e ErrMissingIdempotencyKey then "missing_idempotency_key"
      else if errors_Is e ErrUnmediatedToolCall then "unmediated_tool_call"
      else if errors_Is e ContextCanceled then "canceled"
      else if errors_Is e ContextDeadlineExceeded then "deadline_exceeded"
      else "operation_failed"
  end%string.

(** The sink of a fresh live invocation. *)
Definition newLiveSink (executionID : string) (legacy : bool) (desc : option Descriptor) : liveSink :=
  mkLiveSink executionID legacy newGuard desc ∅.

(** The owned, unanswered gate that blocks a new turn. *)
Definition blockedByApproval (scan : approvalScan) : bool :=
  match selectedState scan with
  | Some s => negb (as_Inherited s) && isNil (as_Receipt s)
  | None => false
  end.

(** The first record that anchors a legacy replay: the first INPUT, else the first record after the
    leading lifecycle markers. *)
Fixpoint legacyAnchor (anchor : Record_) (recs : list Record_) : Record_ :=
  match recs with
  | [] => anchor
  | r :: rs =>
      if bool_decide (Kind (rec_Event r) = EventInput) then r
      else legacyAnchor (if isLifecycle (rec_Event anchor) then r else anchor) rs
  end.

(** The scan of [Resume] for tool intents left open before a fork marker. *)
Record intentScan := mkIntentScan {
  unresolvedTools : Z;
  inheritedTools : Z;
  precedingCall : option ToolCall;
  precedingInherited : bool;
}.

Definition intentStep (id : string) (st : intentScan) (event : Event) : intentScan :=
  let st :=
    if isLifecycle event && isForkMarker event
    then mkIntentScan (unresolvedTools st) (unresolvedTools st) (precedingCall st) (negb (isNil (precedingCall st)))
    else st in
  if negb (bool_decide (ExecutionID event = id)) then st
  else match Kind event with
  | EventToolCall => mkIntentScan (unresolvedTools st + 1) (inheritedTools st) (ev_ToolCall event) false
  | EventToolResult =>
      match precedingCall st, ev_Result event with
      | Some call, Some r =>
          if bool_decide (tr_ID r = tc_ID call)
          then mkIntentScan (unresolvedTools st - 1)
                 (if precedingInherited st then inheritedTools st - 1 else inheritedTools st)
                 None (precedingInherited st)
          else mkIntentScan (unresolvedTools st) (inheritedTools st) None (precedingInherited st)
      | _, _ => mkIntentScan (unresolvedTools st) (inheritedTools st) None (precedingInherited st)
      end
  | EventModelCall | EventOutput | EventUsage =>
      mkIntentScan (unresolvedTools st) (inheritedTools st) None (precedingInherited st)
  | _ => st
  end.

Definition scanIntents (id : string) (events : list Event) : intentScan :=
  fold_left (intentStep id) events (mkIntentScan 0 0 None false).

Section Controller.
Context `{Host} `{Encoding} {S : Type} `{Store S}.

(** [New(log, model, opts...)], the options already applied. *)
Definition New_ (c : Controller) : M S goerr Controller :=
  if negb (isNil (c_tool c)) && bool_decide (c_sessionUID c = EmptyString)
  then throw (ESentinel ErrMissingSessionUID)
  else if c_fence c =? 0
  then let! f := st_NewFence in mret (setFence f c)
  else mret c.

Variables (c : Controller) (har : Harness).

(** [checkHarness(ctx, har, executions)]. *)
Definition needsDescription (xs : list recordedExecution) : bool :=
  existsb (fun x => negb (bool_decide (x_harness x = EmptyString))
    || negb (bool_decide (x_harnessVersion x = EmptyString)) || hasApproval x) xs.

Definition harnessMismatch (desc : Descriptor) (x : recordedExecution) : option goerr :=
  if negb (bool_decide (x_harness x = EmptyString))
     && negb (bool_decide (x_harness x = resolvedHarnessName c desc))
  then Some (EWrap "recorded, supplied" (ESentinel ErrHarnessMismatch))
  else if negb (bool_decide (x_harnessVersion x = EmptyString))
     && negb (bool_decide (x_harnessVersion x = desc_Version desc))
  then Some (EWrap "recorded, supplied" (ESentinel ErrHarnessVersionMismatch))
  else if hasApproval x
     && negb (bool_decide (cap_Resumability (desc_Capabilities desc) = ResumabilityStatelessReplay))
  then Some (ESentinel ErrApprovalUnavailable)
  else None.

Fixpoint firstMismatch (desc : Descriptor) (xs : list recordedExecution) : option goerr :=
  match xs with
  | [] => None
  | x :: xs' => match harnessMismatch desc x with Some e => Some e | None => firstMismatch desc xs' end
  end.

Definition checkHarness (xs : list recordedExecution) : M (World S) goerr (option Descriptor) :=
  if negb (needsDescription xs) then mret None
  else
    let! desc := describeHarness har in
    do! check (firstMismatch desc xs) in
    mret (Some desc).

(** [legacyExecutionID(record)]. *)
Definition legacyExecutionID (r : Record_) : res string :=
  if bool_decide (c_sessionUID c = EmptyString)
  then Err (EWrap "legacy harness invocation" (ESentinel ErrMissingSessionUID))
  else
    content ← canonEvent (rec_Event r);
    Ok ("legacy-" +:+ hexEncode (Sum256 (marshalLegacy (c_sessionUID c) (FormatInt (Seq r)) content)))%string.

(** The INPUT appends of [Exec], each on the sequence of the record before it. *)
Fixpoint appendInputs (executionID : string) (last : Z) (inputs : list Message) : M (World S) goerr unit :=
  match inputs with
  | [] => mret tt
  | m :: ms =>
      let! rec := onLog (st_Append last (c_fence c) (setExecutionID executionID (evMessage EventInput m))) in
      do! observe c rec in
      appendInputs executionID (Seq rec) ms
  end.

(** The invocation marker [Exec] commits. *)
Definition startMarker (executionID : string) (desc : Descriptor) (inputs : list Message) : Event :=
  setExecutionID executionID (evExecutionStart (mkExecutionStart (startConfig c) (startResumeFromSeq c)
    (Some (Z.of_nat (length inputs))) (resolvedHarnessName c desc) (desc_Version desc))).

(** The error a stopped invocation returns. *)
Definition stoppedErr (stop : goerr) (runErr : option goerr) : goerr :=
  match runErr with
  | None => stop
  | Some e => if errors_Is stop ErrApprovalParked then e else stop
  end.

(** Running a harness on a fresh live sink, and closing it: the stop, and the run's error. *)
Definition runLive (executionID : string) (desc : Descriptor) (start : Start)
    : M (World S) goerr (option goerr * option goerr) := fun w =>
  let '((w', sink), runErr) :=
    runProg (H := liveEventSink c har) (Run har start) (w, newLiveSink executionID false (Some desc)) in
  (w', Ok (snd (guardClose (ls_guard sink)), runErr)).

(** What [Exec] does once the harness has returned. *)
Definition finishExec (executionID : string) (stop runErr : option goerr) : M (World S) goerr unit :=
  match stop, runErr with
  | Some s, _ => throw (stoppedErr s runErr)
  | None, Some e =>
      let! _ := try (appendSeq c executionID (evError (mkError 0 (errText e)))) in
      throw e
  | None, None =>
      do! appendSeq c executionID (evEnd (mkHarnessEnd "COMPLETED" None)) in
      mret tt
  end.

(** [Exec(ctx, har, inputs, expectedLastSeq)]. *)
Definition Exec (inputs : list Message) (expectedLastSeq : Z) : M (World S) goerr unit :=
  let! executionID := newID in
  do! onLog st_CheckWritable in
  let! prior := onLog (st_Read 1) in
  let! scan := lift (scanApprovalRecords prior 0) in
  if blockedByApproval scan then throw (ESentinel ErrApprovalBlocked)
  else
    let history := rec_Event <$> prior in
    do! lift (legacyPrefix history) in
    let! desc := describeHarness har in
    let! rec := onLog (st_Append expectedLastSeq (c_fence c) (startMarker executionID desc inputs)) in
    do! observe c rec in
    do! appendInputs executionID (Seq rec) inputs in
    let! r := runLive executionID desc
      (mkStart executionID (c_sessionUID c) (startConfig c) history inputs (startResumeFromSeq c)) in
    finishExec executionID (fst r) (snd r).

(** The invocation ID and history [Replay] hands to the harness for one execution. *)
Definition replayIdentity (recs : list Record_) (x : recordedExecution) : res (string * list Event) :=
  let events := rec_Event <$> recs in
  if x_legacyEnd x >? 0
  then
    match recs with
    | [] => Err (EText "unreachable: a legacy execution has records")
    | r0 :: _ =>
        id ← legacyExecutionID (legacyAnchor r0 (take (Z.to_nat (x_legacyEnd x)) recs));
        Ok (id, take (Z.to_nat (x_legacyEnd x)) events)
    end
  else Ok (x_id x, take (Z.to_nat (x_start x)) events).

(** The sink of one replayed execution. *)
Definition newReplaySink (scan : approvalScan) (x : recordedExecution) : replaySink :=
  mkReplaySink (x_stream x) 0 [] (x_legacyEnd x >? 0) None newGuard (approvalEvidence scan (x_id x)) ∅.

(** Running a harness on a replay sink, with the checks that follow: [before] is the number of live
    model calls when the replay began. *)
Definition runReplay (before : Z) (sink : replaySink) (start : Start) : M (World S) goerr (list string) := fun w =>
  let '((w', sink), runErr) := runProg (H := replayEventSink) (Run har start) (w, sink) in
  match rs_failure sink, runErr with
  | Some e, _ => (w', Err e)
  | None, Some e => (w', Err e)
  | None, None =>
      if negb (liveModelCalls w' =? before) then (w', Err (ESentinel ErrReplayInvokedModel))
      else if negb (Nat.eqb (rs_i sink) (length (rs_stream sink)))
      then (w', Err (divergedText "unconsumed recorded effects"))
      else (w', Ok (rs_outputs sink))
  end.

(** One iteration of [Replay]'s loop over the selected executions. *)
Definition replayOne (before : Z) (recs : list Record_) (scan : approvalScan) (x : recordedExecution)
    : M (World S) goerr (list string) :=
  let! ih := lift (replayIdentity recs x) in
  runReplay before (newReplaySink scan x)
    (mkStart (fst ih) (c_sessionUID c) (x_config x) (snd ih) (x_inputs x) (x_resumeFromSeq x)).

Fixpoint replayAll (before : Z) (recs : list Record_) (scan : approvalScan) (xs : list recordedExecution)
    : M (World S) goerr (list string) :=
  match xs with
  | [] => mret []
  | x :: xs' =>
      let! out := replayOne before recs scan x in
      let! rest := replayAll before recs scan xs' in
      mret (out ++ rest)
  end.

(** The executions [Replay] selects. *)
Definition replaySelected (xs : list recordedExecution) : list recordedExecution :=
  filter (fun x => x_completed x || (x_legacyEnd x >? 0) = true) xs.

(** [Replay(ctx, har)]. *)
Definition Replay : M (World S) goerr (list string) :=
  let! recs := onLog (st_Read 1) in
  let! xs := lift (recordedExecutions (rec_Event <$> recs)) in
  let! scan := lift (scanApprovalRecords recs 0) in
  do! checkHarness (replaySelected xs) in
  let! before := gets liveModelCalls in
  replayAll before recs scan (replaySelected xs).

(** [Outputs()]. *)
Definition recordedOutputs (events : list Event) : list string :=
  omap (fun e => if bool_decide (Kind e = EventOutput) then Text <$> ev_Message e else None) events.
Definition Outputs : M (World S) goerr (list string) :=
  let! recs := onLog (st_Read 1) in
  mret (recordedOutputs (rec_Event <$> recs)).

(** [ResumeInvocation(log)]. *)
Definition ResumeInvocation : M (World S) goerr (option ExecutionStart) :=
  let! recs := onLog (st_Read 1) in
  let events := rec_Event <$> recs in
  let! xs := lift (recordedExecutions events) in
  let! x := lift (pendingResumeExecution events xs) in
  match x with
  | None => mret None
  | Some x => mret (invocation x)
  end.

(** An error with the [resumed] flag [Resume] returns beside it. *)
Definition withFlag {A} (b : bool) (m : M (World S) goerr A) : M (World S) (bool * goerr) A := fun w =>
  let '(w', r) := m w in (w', match r with Ok a => Ok a | Err e => Err (b, e) end).

(** [pendingApproval(scan, executionID)]: [Ok] when recovery may run the harness. The repaired
    request is not looked at again: without a decision the call parks. *)
Definition pendingApproval (scan : approvalScan) (executionID : string) : M (World S) (bool * goerr) unit :=
  match selectedState scan with
  | None => mret tt
  | Some s =>
      if negb (bool_decide (as_ExecutionID s = executionID)) || negb (isNil (as_Receipt s)) then mret tt
      else if as_Inherited s then throw (false, ESentinel ErrInheritedToolIntent)
      else
        let! requestSeq :=
          match as_Request s with
          | Some r => mret (Seq r)
          | None =>
              withFlag true (
                let! r := onLog (st_Append (sc_head scan) (c_fence c)
                  (setExecutionID (as_ExecutionID s)
                     (evApprovalRequest (mkApprovalRequest (tc_ID (as_Call s)) EmptyString)))) in
                do! observe c r in
                mret (Seq r))
          end in
        if isNil (as_Decision s)
        then throw (true, approvalPark (as_ExecutionID s) (tc_ID (as_Call s)) requestSeq)
        else mret tt
  end.

(** The sink of a recovery. *)
Definition newResumeSink (scan : approvalScan) (x : recordedExecution) (desc : option Descriptor) : resumeSink :=
  mkResumeSink (newLiveSink (x_id x) (x_legacyEnd x >? 0) desc) (x_stream x) 0 None
    (approvalEvidence scan (x_id x)).

(** The error a recovery run ends with, when no stop is set. *)
Definition recoveryErr (sink : resumeSink) (runErr : option goerr) : option goerr :=
  match res_failure sink with
  | Some e => Some e
  | None =>
      match runErr with
      | Some e => Some e
      | None =>
          if negb (Nat.eqb (res_i sink) (length (res_stream sink)))
          then Some (divergedText "recovery left recorded effects unconsumed") else None
      end
  end.

(** What [Resume] does once the harness has returned. *)
Definition finishResume (sink : resumeSink) (runErr : option goerr) : M (World S) (bool * goerr) bool := fun w =>
  match snd (guardClose (ls_guard (live sink))) with
  | Some s => (w, Err (true, stoppedErr s runErr))
  | None =>
      match recoveryErr sink runErr with
      | Some e =>
          let '((w', _), _) := live_append c (evError (mkError 0 (errText e))) (w, live sink) in
          (w', Err (true, e))
      | None =>
          let '((w', _), r) := live_append c (evEnd (mkHarnessEnd "COMPLETED" None)) (w, live sink) in
          (w', match r with Ok _ => Ok true | Err e => Err (true, e) end)
      end
  end.

(** Running a harness on a resume sink, and what follows. *)
Definition runResume (sink : resumeSink) (start : Start) : M (World S) (bool * goerr) bool := fun w =>
  let '((w', sink), runErr) := runProg (H := resumeEventSink c har) (Run har start) (w, sink) in
  finishResume sink runErr w'.

(** Recovery of the pending execution [x] of a journal. *)
Definition resumeExecution (recs : list Record_) (scan : approvalScan) (x : recordedExecution)
    : M (World S) (bool * goerr) bool :=
  let events := rec_Event <$> recs in
  let legacy := x_legacyEnd x >? 0 in
  let from := Z.to_nat (x_start x) in
  do! pendingApproval scan (x_id x) in
  if inheritedTools (scanIntents (x_id x) (drop from events)) >? 0
  then throw (false, EWrap "execution" (ESentinel ErrInheritedToolIntent))
  else
    let! desc := withFlag false (checkHarness [x]) in
    let! invocationID := withFlag false (
      if legacy
      then match recs !! from with
           | Some r => lift (legacyExecutionID r)
           | None => throw (EText "unreachable: the recovery anchor is a record")
           end
      else mret (x_id x)) in
    runResume (newResumeSink scan x desc)
      (mkStart invocationID (c_sessionUID c) (x_config x) (take from events) (x_inputs x) (x_resumeFromSeq x)).

(** [Resume(ctx, har)]: [Ok resumed], or [Err (resumed, err)]. *)
Definition Resume : M (World S) (bool * goerr) bool :=
  do! withFlag false (onLog st_CheckWritable) in
  let! recs := withFlag false (onLog (st_Read 1)) in
  match recs with
  | [] => mret false
  | _ =>
      let events := rec_Event <$> recs in
      let! xs := withFlag false (lift (recordedExecutions events)) in
      let! scan := withFlag false (lift (scanApprovalRecords recs 0)) in
      let! x := withFlag false (lift (pendingResumeExecution events xs)) in
      match x with
      | None => mret false
      | Some x => resumeExecution recs scan x
      end
  end.
End Controller.

(** ** Fork *)

Section Fork.
Context {P C : Type} `{Store P} `{!Store C}.

Definition onParent {A} (m : M P goerr A) : M (P * C) goerr A := fun s =>
  let '(p, r) := m (fst s) in ((p, snd s), r).
Definition onChild {A} (m : M C goerr A) : M (P * C) goerr A := fun s =>
  let '(c, r) := m (snd s) in ((fst s, c), r).

(** The copy loop: records up to [atSeq], appended one after another. *)
Fixpoint forkCopy (atSeq fence last : Z) (recs : list Record_) : M C goerr Z :=
  match recs with
  | [] => mret last
  | r :: rs =>
      if Seq r >? atSeq then mret last
      else
        do! st_Append last fence (rec_Event r) in
        forkCopy atSeq fence (Seq r) rs
  end.

Definition forkMarker (atSeq : Z) : Event :=
  evLifecycle (mkLifecycle LifecycleFork ("parent@" +:+ FormatInt atSeq)%string None).

(** [Fork(parent, child, atSeq)]. *)
Definition Fork (atSeq : Z) : M (P * C) goerr unit :=
  do! onParent st_CheckWritable in
  do! onChild st_CheckWritable in
  let! recs := onParent (st_Read 1) in
  let! fence := onChild st_NewFence in
  let! last := onChild (forkCopy atSeq fence 0 recs) in
  do! onChild (st_Append last fence (forkMarker atSeq)) in
  mret tt.
End Fork.
