(* ===== verification/Agents.v ===== *)
(** * The reference harnesses (harness/echoagent, harness/counteragent, harness/chatagent) *)
From S2P Require Import Prelude GoErrors Api Canon EventLog Executions Approvals Harness Sinks Controller.

(** ** echoagent *)

Definition echoDescriptor : Descriptor :=
  mkDescriptor "echo" "1" ["echo"%string] []
    (mkCapabilities ResumabilityStatelessReplay true false false false).

(** [echoagent.Harness.Run]. *)
Definition echoRun (s : Start) : Prog :=
  let text := match list.last (start_Inputs s) with Some m => Text m | None => EmptyString end in
  PModel (mkModelRequest "echo" [TextMessage "user" text] [] [] None) (fun r => PReturn (err_of r)).

Definition echoHarness : Harness := mkHarness (fun _ => Ok echoDescriptor) echoRun.

(** [echoagent.Model]. *)
Definition echoModel (req : ModelRequest) : ModelResponse :=
  let last := match list.last (Messages req) with Some m => Text m | None => EmptyString end in
  mkModelResponse (TextMessage "assistant" ("echo:" +:+ last)%string) zeroUsage.

(** ** counteragent *)

Definition counterDescriptor : Descriptor :=
  mkDescriptor "counter" "1" [] []
    (mkCapabilities ResumabilityRequiresMemorySnapshot false false false false).

(** [counteragent.Harness.Run] of a process whose counter is [count]: the new counter, and the run. *)
Definition counterRun (count : Z) (s : Start) : Z * Prog :=
  let n := count + 1 in (n, POutput (FormatInt n) PReturn).

(** ** chatagent *)

Definition chatDescriptor (model : string) : Descriptor :=
  mkDescriptor "chat" "1" [model] [] (mkCapabilities ResumabilityStatelessReplay true false false false).

(** The messages of the history, in journal order. *)
Definition historyMessages (history : list Event) : list Message :=
  omap (fun e => match ev_Message e, Kind e with
                 | Some m, (EventInput | EventOutput) => Some m
                 | _, _ => None
                 end) history.

Section chat.
(** The JSON decoding of the config: [None] when it is no JSON object, and the raw value of a
    [system_prompt] member, [None] when that is no string. *)
Variable configPrompt : list Z -> option (option (option string)).

(** [parseSystemPrompt(config)]. *)
Definition parseSystemPrompt (config : bytes) : res string :=
  match config with
  | None | Some [] => Ok EmptyString
  | Some b =>
      match configPrompt b with
      | None => Err (EText "chatagent: config must be a JSON object")
      | Some None => Ok EmptyString
      | Some (Some None) => Err (EText "chatagent: system_prompt must be a string")
      | Some (Some (Some p)) => Ok p
      end
  end.

(** [chatagent.Harness.Run]. *)
Definition chatRun (model : string) (s : Start) : Prog :=
  match parseSystemPrompt (start_Config s) with
  | Err e => PReturn (Some e)
  | Ok prompt =>
      let messages :=
        (if bool_decide (prompt = EmptyString) then [] else [TextMessage "system" prompt])
        ++ historyMessages (start_History s) ++ start_Inputs s in
      PModel (mkModelRequest model messages [] [] None) (fun r => PReturn (err_of r))
  end.
End chat.

(** ** A concrete session of the echo agent *)

Definition echoController : Controller :=
  mkController (fun _ req => Ok (echoModel req)) None true false None 0 None 1 "uid" EmptyString.

Definition freshWorld : World Log := mkWorld (fst (NewFence New)) 0 0 0 [] [].

Section example.
#[local] Existing Instance exampleHost.
#[local] Existing Instance exampleEncoding.

(** One turn on an empty log, and the replay of it. *)
Definition echoExec : World Log * res unit :=
  Exec echoController echoHarness [TextMessage "user" "hi"] 0 freshWorld.
Definition echoWorld : World Log := fst echoExec.
Definition echoReplay : World Log * res (list string) := Replay echoController echoHarness echoWorld.

(** The same turn cut by a crash after its first [n] records, recovered, and the replay of that. *)
Definition echoCrashed (n : nat) : World Log :=
  mkWorld (mkLog (take n (records (w_log echoWorld))) (log_fence (w_log echoWorld))) (w_tick echoWorld) 0 0 [] [].
Definition echoResume (n : nat) : World Log * result (bool * goerr) bool :=
  Resume echoController echoHarness (echoCrashed n).
Definition echoRecovered : World Log := fst (echoResume 3).
Definition echoReplayRecovered : World Log * res (list string) := Replay echoController echoHarness echoRecovered.

Example echo_resume_replay :
  map (fun n => snd (echoResume n)) [3; 4; 5]%nat = [Ok true; Ok true; Ok false] /\
  liveModelCalls echoRecovered = 1 /\ snd echoReplayRecovered = Ok ["echo:hi"%string].
Proof. vm_compute. repeat split. Qed.

Example echo_exec_replay :
  snd echoExec = Ok tt /\ snd echoReplay = Ok ["echo:hi"%string] /\ length (records (w_log echoWorld)) = 5%nat.
Proof. vm_compute. repeat split. Qed.
End example.
