(* ===== verification/LiveSpec.v ===== *)
(** * What live effects commit

    A small program logic for the live sink: [live_spec id m Q] says that the computation [m], run on
    a plain sink of execution [id], only appends effect events of that execution to the journal,
    whatever its outcome, and that on success its value and the events satisfy [Q]. *)
From S2P Require Import Prelude GoErrors Api Canon EventLog Executions Approvals Harness Sinks Controller.

(** ** Events as a store gives them back *)

(** What the controller reads of an event that was persisted. *)
Record faithful (e p : Event) : Prop := {
  fa_ExecutionID : ExecutionID p = ExecutionID e;
  fa_Kind : Kind p = Kind e;
  fa_Message : ev_Message p = ev_Message e;
  fa_ModelCall : ev_ModelCall p = ev_ModelCall e;
  fa_ToolCall : ev_ToolCall p = ev_ToolCall e;
  fa_Result : ev_Result p = ev_Result e;
  fa_Usage : ev_Usage p = ev_Usage e;
  fa_Lifecycle : ev_Lifecycle p = ev_Lifecycle e;
  fa_ExecutionStart : ev_ExecutionStart p = ev_ExecutionStart e;
  fa_Approval : ev_Approval p = ev_Approval e;
  fa_ApprovalResult : ev_ApprovalResult p = ev_ApprovalResult e;
}.

(** A store that reads back what the controller relies on; it may normalise the rest. *)
Class FaithfulStore (S : Type) `{StoreView S} : Prop := persisted_faithful : forall e, faithful e (persisted e).

#[export] Instance Log_Faithful : FaithfulStore Log.
Proof. by intros e. Qed.

(** ** Appended events *)

(** The journal of [s'] is that of [s] followed by records of the events [evs]. *)
Definition appended {S} `{StoreView S} (s s' : S) (evs : list Event) : Prop :=
  exists rs, journal s' = journal s ++ rs /\ rec_Event <$> rs = evs /\ contiguous (headOf (journal s)) rs.

(** An event of execution [id] that belongs to its effect stream and is no approval evidence; an
    OUTPUT carries its message. *)
Definition effect_of (id : string) (e : Event) : Prop :=
  ExecutionID e = id /\ modernEffect (Kind e) = true /\ gatedEvidence e = false /\
  (Kind e = EventOutput -> is_Some (ev_Message e)).

(** A live sink of a modern, ungated execution that nothing has stopped. *)
Definition plain (id : string) (ls : liveSink) : Prop :=
  ls_executionID ls = id /\ legacyRecovery ls = false /\ ls_guard ls = newGuard /\
  forall k, ls_calls ls !! k <> Some true.

Lemma headOf_contiguous J rs :
  contiguous (headOf J) rs -> headOf (J ++ rs) = headOf J + Z.of_nat (length rs).
Proof.
  destruct rs as [|r rs] using rev_ind; intros Hc; [rewrite app_nil_r; simpl; lia|].
  rewrite app_assoc, headOf_app. apply contiguous_app in Hc as [_ [Hs _]]. rewrite length_app. simpl. lia.
Qed.

Lemma contiguous_0_app J rs : contiguous 0 J -> contiguous (headOf J) rs -> contiguous 0 (J ++ rs).
Proof. intros HJ Hr. apply contiguous_app. split; [done|]. by rewrite <- contiguous_head. Qed.

(** The shapes of the events the sinks read back. *)
Definition isModelCall (h : string) (e : Event) : Prop :=
  Kind e = EventModelCall /\ exists mc, ev_ModelCall e = Some mc /\ InputHash mc = h.
Definition isOutput (m : Message) (e : Event) : Prop := Kind e = EventOutput /\ ev_Message e = Some m.
Definition isToolCall (tc : ToolCall) (e : Event) : Prop := Kind e = EventToolCall /\ ev_ToolCall e = Some tc.
Definition isToolResult (r : ToolResult) (e : Event) : Prop := Kind e = EventToolResult /\ ev_Result e = Some r.
Definition isUsage (u : Usage) (e : Event) : Prop := Kind e = EventUsage /\ ev_Usage e = Some u.

Section appended.
Context {S : Type} `{StoreView S}.

Lemma appended_same (s s' : S) : journal s' = journal s -> appended s s' [].
Proof. intros Hj. exists []. by rewrite app_nil_r. Qed.

Lemma appended_refl (s : S) : appended s s [].
Proof. by apply appended_same. Qed.

Lemma appended_trans (s1 s2 s3 : S) e1 e2 :
  appended s1 s2 e1 -> appended s2 s3 e2 -> appended s1 s3 (e1 ++ e2).
Proof.
  intros (r1 & J1 & <- & C1) (r2 & J2 & <- & C2). exists (r1 ++ r2).
  rewrite J2, J1, app_assoc, fmap_app. split; [done|]. split; [done|]. apply contiguous_app. split; [done|].
  rewrite J1, headOf_contiguous in C2 by done. done.
Qed.

Lemma appended_contiguous (s s' : S) evs :
  appended s s' evs -> contiguous 0 (journal s) -> contiguous 0 (journal s').
Proof. intros (rs & -> & _ & Hc) HJ. by apply contiguous_0_app. Qed.

Lemma appended_events (s s' : S) evs :
  appended s s' evs -> rec_Event <$> journal s' = (rec_Event <$> journal s) ++ evs.
Proof. intros (rs & -> & <- & _). apply fmap_app. Qed.
End appended.

#[export] Hint Resolve appended_refl appended_same : agent.

(** Fields of an event the controller emits, as read back. *)
Ltac faith e :=
  let F := fresh "F" in
  pose proof (persisted_faithful e) as F; destruct F; simpl in *.

Section spec.
Context `{Host} {S : Type} `{StoreLaws S} `{!FaithfulStore S}.
Variables (c : Controller) (har : Harness) (id : string).

(** Two worlds that differ at most in clock, counters and what the observer saw. *)
Definition same_log (w w' : World S) : Prop := journal (w_log w') = journal (w_log w).

Definition live_spec {A} (m : M (LiveState (S := S)) goerr A) (Q : A -> list Event -> Prop) : Prop :=
  forall w ls w' ls' r, plain id ls -> m (w, ls) = ((w', ls'), r) ->
    plain id ls' /\ exists evs, appended (w_log w) (w_log w') evs /\ Forall (effect_of id) evs /\
      match r with Ok a => Q a evs | Err _ => True end.

Lemma spec_ret {A} (a : A) (Q : A -> list Event -> Prop) : Q a [] -> live_spec (mret a) Q.
Proof.
  intros HQ w ls w' ls' r Hp [= <- <- <-]. split; [done|]. exists []. auto with agent.
Qed.

Lemma spec_throw {A} (e : goerr) (Q : A -> list Event -> Prop) : live_spec (throw e) Q.
Proof.
  intros w ls w' ls' r Hp [= <- <- <-]. split; [done|]. exists []. auto with agent.
Qed.

Lemma spec_bind {A B} (m : M LiveState goerr A) (f : A -> M LiveState goerr B) Q1 Q :
  live_spec m Q1 -> (forall a e1, Q1 a e1 -> live_spec (f a) (fun b e2 => Q b (e1 ++ e2))) ->
  live_spec (m ≫= f) Q.
Proof.
  intros Hm Hf w ls w' ls' r Hp Hrun. unfold mbind, M_bind in Hrun.
  destruct (m (w, ls)) as [[w1 ls1] r1] eqn:E1. destruct (Hm _ _ _ _ _ Hp E1) as (Hp1 & e1 & Ha1 & Hf1 & Hq1).
  destruct r1 as [a|e]; [|injection Hrun as <- <- <-; split; [done|]; by exists e1].
  destruct (Hf a e1 Hq1 _ _ _ _ _ Hp1 Hrun) as (Hp2 & e2 & Ha2 & Hf2 & Hq2).
  split; [done|]. exists (e1 ++ e2). split; [by eapply appended_trans|]. split; [by apply Forall_app|].
  by destruct r.
Qed.

Lemma spec_mono {A} (m : M LiveState goerr A) (Q Q' : A -> list Event -> Prop) :
  live_spec m Q -> (forall a e, Q a e -> Q' a e) -> live_spec m Q'.
Proof.
  intros Hm Hq w ls w' ls' r Hp Hrun. destruct (Hm _ _ _ _ _ Hp Hrun) as (Hp' & e & Ha & Hf & Hr).
  split; [done|]. exists e. destruct r; auto.
Qed.

Lemma spec_check (o : option goerr) : live_spec (check o) (fun _ e => o = None /\ e = []).
Proof. destruct o; [apply spec_throw|]. by apply spec_ret. Qed.

Lemma spec_getSink {A} (f : liveSink -> A) :
  live_spec (getSink f) (fun a e => (exists ls, plain id ls /\ a = f ls) /\ e = []).
Proof.
  intros w ls w' ls' r Hp [= <- <- <-]. split; [done|]. exists []. eauto 10 with agent.
Qed.

(** A computation on the world that leaves the journal alone. *)
Lemma spec_world {A} (m : M (World S) goerr A) (Q : A -> Prop) :
  (forall w w' r, m w = (w', r) -> same_log w w' /\ match r with Ok a => Q a | Err _ => True end) ->
  live_spec (onWorld m) (fun a e => Q a /\ e = []).
Proof.
  intros Hm w ls w' ls' r Hp Hrun. unfold onWorld in Hrun. simpl in Hrun.
  destruct (m w) as [w1 r1] eqn:E. destruct (Hm _ _ _ E) as [Hs Hr]. injection Hrun as <- <- <-.
  split; [done|]. exists []. split; [by apply appended_same|]. split; [constructor|]. by destruct r1.
Qed.

Lemma spec_ctxCheck : live_spec (onWorld ctxCheck) (fun _ e => e = []).
Proof.
  eapply spec_mono; [apply (spec_world _ (fun _ => True))|by intros ? ? [_ ?]].
  intros w w' r. unfold ctxCheck, tick. unM. by destruct (ctxErr (w_tick w)); intros [= <- <-].
Qed.

Lemma spec_newID : live_spec (onWorld newID) (fun _ e => e = []).
Proof.
  eapply spec_mono; [apply (spec_world _ (fun _ => True))|by intros ? ? [_ ?]].
  intros w w' r. unfold newID, tick. unM. by intros [= <- <-].
Qed.

Lemma spec_countModel : live_spec (onWorld countModel) (fun _ e => e = []).
Proof.
  eapply spec_mono; [apply (spec_world _ (fun _ => True))|by intros ? ? [_ ?]].
  intros w w' r. unfold countModel. unM. by intros [= <- <-].
Qed.

Lemma spec_countTool : live_spec (onWorld countTool) (fun _ e => e = []).
Proof.
  eapply spec_mono; [apply (spec_world _ (fun _ => True))|by intros ? ? [_ ?]].
  intros w w' r. unfold countTool. unM. by intros [= <- <-].
Qed.

Lemma observe_same r (w w' : World S) (x : res unit) : observe c r w = (w', x) -> w_log w' = w_log w /\ x = Ok tt.
Proof. unfold observe. unM. intros [= <- <-]. by destruct (onRecord c). Qed.

Lemma emitDelta_same i p t d (w : World S) : exists w', emitDelta c i p t d w = (w', Ok tt) /\ w_log w' = w_log w.
Proof. unfold emitDelta. unM. eexists. split; [done|]. by destruct (_ || _). Qed.

Lemma emitChunks_same i chunks (w : World S) : exists w', emitChunks c i chunks w = (w', Ok tt) /\ w_log w' = w_log w.
Proof.
  revert w. induction chunks as [|ch chs IH]; intros w; [by exists w|].
  cbn [emitChunks]. unfold mbind, M_bind.
  destruct (emitDelta_same i 0 ch false w) as (w1 & -> & Hw1). destruct (IH w1) as (w2 & -> & Hw2).
  exists w2. split; [done|congruence].
Qed.

Lemma invokeModel_same i req (w w' : World S) r : invokeModel c i req w = (w', r) -> w_log w' = w_log w.
Proof.
  unfold invokeModel, mbind, M_bind, ask, lift. destruct (c_stream c) as [stream|]; [|by intros [= <- <-]].
  destruct (stream (w_tick w) req) as [chunks resp].
  destruct (emitChunks_same i chunks (mkWorld (w_log w) (Datatypes.S (w_tick w)) (liveModelCalls w)
    (liveToolCalls w) (w_updates w) (w_asked w ++ [AskedModel req]))) as (w1 & -> & Hw1).
  destruct resp as [resp|e]; [|by intros [= <- <-]].
  destruct (emitDelta_same i 0 EmptyString true w1) as (w2 & -> & Hw2). intros [= <- <-]. simpl in Hw1. congruence.
Qed.

Lemma spec_invokeModel i req : live_spec (onWorld (invokeModel c i req)) (fun _ e => e = []).
Proof.
  eapply spec_mono; [apply (spec_world _ (fun _ => True))|by intros ? ? [_ ?]].
  intros w w' r Hr%invokeModel_same. split; [|by destruct r]. unfold same_log. by rewrite Hr.
Qed.

Lemma spec_callTool tc tool : live_spec (onWorld (callTool c tc tool)) (fun _ e => e = []).
Proof.
  eapply spec_mono; [apply (spec_world _ (fun _ => True))|by intros ? ? [_ ?]].
  intros w w' r. unfold callTool, ask. unM. by intros [= <- <-].
Qed.

(** One committed event of the controller: what [appendSeq] does to the journal. *)
Lemma appendSeq_run i ev (w w' : World S) r : appendSeq c i ev w = (w', r) ->
  match r with
  | Ok rec => i <> EmptyString /\ appended (w_log w) (w_log w') [persisted (setExecutionID i ev)]
  | Err _ => journal (w_log w') = journal (w_log w)
  end.
Proof.
  unfold appendSeq. case_bool_decide as Hi; [by intros [= <- <-]|]. unfold mbind, M_bind, onLog.
  destruct (st_Head (w_log w)) as [l1 [h|e]] eqn:Hh; apply head_law in Hh as (Hj1 & _ & Hh);
    [|by intros [= <- <-]].
  cbn [w_log]. destruct (st_Append _ _ _ l1) as [l2 [rec|e]] eqn:Ha; apply append_law in Ha as [_ Ha];
    [|intros [= <- <-]; simpl; congruence].
  destruct Ha as (_ & _ & Hs & _ & _ & _ & Hj2).
  match goal with |- context [observe c rec ?w] => destruct (observe c rec w) as [w3 x] eqn:Ho end.
  apply observe_same in Ho as [Hw3 ->]. intros [= <- <-].
  split; [done|]. rewrite Hw3. simpl. rewrite Hj1 in *. eexists. split; [exact Hj2|]. simpl.
  split; [done|]. split; [lia|done].
Qed.

Lemma spec_append ev : effect_of id (persisted (setExecutionID id ev)) ->
  live_spec (live_append c ev) (fun _ e => e = [persisted (setExecutionID id ev)]).
Proof.
  intros He w ls w' ls' r Hp Hrun. destruct Hp as (Hid & Hleg & Hg & Hc).
  unfold live_append, getSink, onWorld in Hrun. unM. rewrite Hleg, Hid in Hrun. simpl in Hrun.
  destruct (appendSeq c id ev w) as [w1 r1] eqn:E. apply appendSeq_run in E. injection Hrun as <- <- <-.
  split; [done|]. destruct r1 as [rec|e].
  - exists [persisted (setExecutionID id ev)]. split; [by apply E|]. split; [by constructor|done].
  - exists []. split; [by apply appended_same|]. split; [constructor|done].
Qed.
(** A raw append of a live sink. *)
Lemma live_append_plain ev (w w' : World S) (ls ls' : liveSink) r : plain id ls ->
  live_append c ev (w, ls) = ((w', ls'), r) ->
  match r with
  | Ok _ => appended (w_log w) (w_log w') [persisted (setExecutionID id ev)]
  | Err _ => appended (w_log w) (w_log w') []
  end.
Proof.
  intros (Hid & Hleg & _) Hrun. unfold live_append, getSink, onWorld in Hrun. unM.
  rewrite Hleg, Hid in Hrun. simpl in Hrun. destruct (appendSeq c id ev w) as [w1 r1] eqn:E.
  apply appendSeq_run in E. injection Hrun as <- <- <-. destruct r1; [by destruct E|by apply appended_same].
Qed.

(** *** The effects *)

(** What a persisted event of execution [id] looks like. *)
Lemma persisted_effect ev : modernEffect (Kind ev) = true -> gatedEvidence ev = false ->
  (Kind ev = EventOutput -> is_Some (ev_Message ev)) -> effect_of id (persisted (setExecutionID id ev)).
Proof.
  intros Hk Hg Hm. faith (setExecutionID id ev). split; [done|]. split; [congruence|]. split.
  - unfold gatedEvidence, isGatedCall in *. rewrite fa_Kind0, fa_ToolCall0, fa_Result0. done.
  - rewrite fa_Kind0, fa_Message0. done.
Qed.

Lemma persisted_shape ev :
  let p := persisted (setExecutionID id ev) in
  Kind p = Kind ev /\ ev_Message p = ev_Message ev /\ ev_ModelCall p = ev_ModelCall ev /\
  ev_ToolCall p = ev_ToolCall ev /\ ev_Result p = ev_Result ev /\ ev_Usage p = ev_Usage ev.
Proof. faith (setExecutionID id ev). auto 10. Qed.

Lemma spec_append_output m : live_spec (live_append c (evMessage EventOutput m))
  (fun _ evs => exists e, evs = [e] /\ isOutput m e).
Proof.
  eapply spec_mono; [apply spec_append, persisted_effect; [done|done|by eexists]|]. intros _ evs ->.
  eexists. split; [done|]. destruct (persisted_shape (evMessage EventOutput m)) as (? & ? & _). done.
Qed.

Lemma spec_append_modelcall mc : live_spec (live_append c (evModelCall mc))
  (fun _ evs => exists e, evs = [e] /\ isModelCall (InputHash mc) e).
Proof.
  eapply spec_mono; [apply spec_append, persisted_effect; done|]. intros _ evs ->.
  eexists. split; [done|]. destruct (persisted_shape (evModelCall mc)) as (? & ? & ? & _).
  split; [done|]. by exists mc.
Qed.

Lemma spec_append_toolcall tc : tc_Mediation tc <> MediationRequiresApproval ->
  live_spec (live_append c (evToolCall tc)) (fun _ evs => exists e, evs = [e] /\ isToolCall tc e).
Proof.
  intros Hm. eapply spec_mono.
  - apply spec_append, persisted_effect; [done| |done]. unfold gatedEvidence, isGatedCall. simpl.
    by apply bool_decide_eq_false.
  - intros _ evs ->. eexists. split; [done|].
    destruct (persisted_shape (evToolCall tc)) as (? & ? & ? & ? & _). done.
Qed.

Lemma approvalReportError_None r : approvalReportError r = None ->
  Approval r = None /\ ApprovalRequestSeq r = 0 /\ ApprovalDecisionSeq r = 0.
Proof.
  unfold approvalReportError. destruct (Approval r); [done|]. simpl.
  destruct (Z.eqb_spec (ApprovalRequestSeq r) 0); [|done].
  by destruct (Z.eqb_spec (ApprovalDecisionSeq r) 0).
Qed.

Lemma approvalReportError_setID i r : approvalReportError (setResultID i r) = approvalReportError r.
Proof. done. Qed.

Lemma spec_append_result r : approvalReportError r = None ->
  live_spec (live_append c (evToolResult r)) (fun _ evs => exists e, evs = [e] /\ isToolResult r e).
Proof.
  intros (Ha & Hr & Hd)%approvalReportError_None. eapply spec_mono.
  - apply spec_append, persisted_effect; [done| |done]. unfold gatedEvidence. simpl. by rewrite Hr, Hd.
  - intros _ evs ->. eexists. split; [done|].
    destruct (persisted_shape (evToolResult r)) as (? & ? & ? & ? & ? & _). done.
Qed.

Lemma spec_append_usage u : live_spec (live_append c (evUsage u)) (fun _ evs => exists e, evs = [e] /\ isUsage u e).
Proof.
  eapply spec_mono; [apply spec_append, persisted_effect; done|]. intros _ evs ->.
  eexists. split; [done|]. destruct (persisted_shape (evUsage u)) as (? & ? & ? & ? & ? & ?). done.
Qed.

Lemma spec_modCall i : live_spec (modSink (setCall i false)) (fun _ evs => evs = []).
Proof.
  intros w ls w' ls' r (? & ? & ? & Hc) [= <- <- <-]. split.
  - split; [done|]. split; [done|]. split; [done|]. simpl. intros k. destruct (decide (k = i)) as [->|].
    + by rewrite lookup_insert_eq.
    + by rewrite lookup_insert_ne.
  - exists []. auto with agent.
Qed.

Lemma spec_completeModel req : live_spec (completeModel c req)
  (fun resp evs => exists e, evs = [e] /\ isOutput (mresp_Message resp) e).
Proof.
  unfold completeModel. eapply spec_bind; [apply spec_getSink|]. intros i e1 [_ ->].
  eapply spec_bind; [apply spec_invokeModel|]. intros resp e2 ->.
  eapply spec_bind; [apply spec_countModel|]. intros _ e3 ->.
  eapply spec_bind; [apply spec_append_output|]. intros _ e4 (e & -> & He).
  apply spec_ret. by exists e.
Qed.

Lemma spec_live_model req : live_spec (live_model c req)
  (fun resp evs => exists e1 e2, evs = [e1; e2] /\ isModelCall (hashModelInput req) e1 /\
     isOutput (mresp_Message resp) e2).
Proof.
  unfold live_model. eapply spec_bind; [apply spec_newID|]. intros i e1 ->.
  eapply spec_bind; [apply spec_append_modelcall|]. intros _ e2 (e & -> & He).
  eapply spec_mono; [apply spec_completeModel|]. intros resp evs (e' & -> & He'). by exists e, e'.
Qed.

Lemma spec_live_output d : live_spec (live_output c d)
  (fun _ evs => exists e, evs = [e] /\ isOutput (TextMessage "assistant" d) e).
Proof.
  unfold live_output. eapply spec_bind; [apply spec_append_output|]. intros _ e2 (e & -> & He).
  apply spec_ret. by exists e.
Qed.

Lemma spec_execTool tc : live_spec (execTool c tc)
  (fun r evs => tr_ID r = tc_ID tc /\ approvalReportError r = None /\ exists e, evs = [e] /\ isToolResult r e).
Proof.
  unfold execTool. destruct (c_tool c) as [tool|]; [|apply spec_throw].
  eapply spec_bind; [apply spec_callTool|]. intros rt e1 ->.
  eapply spec_bind; [apply spec_check|]. intros _ e2 [_ ->].
  eapply spec_bind; [apply spec_countTool|]. intros _ e3 ->.
  eapply spec_bind; [apply spec_check|]. intros _ e4 [Hr ->].
  eapply spec_bind; [by apply spec_append_result|]. intros _ e5 (e & -> & He).
  apply spec_ret. repeat split; [done|]. by exists e.
Qed.

(** A successful ordinary tool call. *)
Lemma spec_live_toolCall tc : tc_Mediation tc <> MediationRequiresApproval ->
  live_spec (live_toolCall c har tc)
    (fun r evs => tc_Mediation tc = MediationControllerMediated /\ IdempotencyKey tc <> EmptyString /\
       tr_ID r = tc_ID tc /\ approvalReportError r = None /\
       exists e1 e2, evs = [e1; e2] /\ isToolCall tc e1 /\ isToolResult r e2).
Proof.
  intros Hm. unfold live_toolCall. rewrite bool_decide_eq_false_2 by done.
  eapply spec_bind; [apply spec_getSink|]. intros calls e1 [_ ->].
  destruct (default false _); [apply spec_throw|].
  eapply spec_bind; [apply spec_check|]. intros _ e2 [Hmed ->].
  case_bool_decide as Hk; [apply spec_throw|].
  eapply spec_bind; [by apply spec_append_toolcall|]. intros _ e3 (e & -> & He).
  eapply spec_bind; [apply spec_modCall|]. intros _ e4 ->.
  eapply spec_mono; [apply spec_execTool|]. intros r evs (Hid & Hr & e' & -> & He').
  split; [by destruct (tc_Mediation tc)|]. split; [done|]. split; [done|]. split; [done|]. by exists e, e'.
Qed.

Lemma spec_live_report tr : live_spec (live_report c tr)
  (fun _ evs => approvalReportError tr = None /\ exists e, evs = [e] /\ isToolResult tr e).
Proof.
  unfold live_report. eapply spec_bind; [apply spec_getSink|]. intros calls e1 [(ls & Hp & ->) ->].
  destruct (default false _) eqn:Hd.
  { destruct Hp as (_ & _ & _ & Hc). destruct (ls_calls ls !! tr_ID tr) as [[]|] eqn:Hl; [|done..].
    by destruct (Hc _ Hl). }
  eapply spec_bind; [apply spec_check|]. intros _ e2 [Hr ->].
  eapply spec_bind; [by apply spec_append_result|]. intros _ e3 (e & -> & He).
  apply spec_ret. split; [done|]. by exists e.
Qed.

Lemma spec_live_usage u : live_spec (live_usage c u) (fun _ evs => exists e, evs = [e] /\ isUsage u e).
Proof.
  unfold live_usage. eapply spec_bind; [apply spec_append_usage|]. intros _ e2 (e & -> & He).
  apply spec_ret. by exists e.
Qed.

Lemma spec_liveGuard {A} (op : M LiveState goerr A) Q : live_spec op Q -> live_spec (liveGuard op) Q.
Proof.
  intros Hop. unfold liveGuard. eapply spec_bind; [apply spec_getSink|]. intros g e1 [_ ->].
  eapply spec_bind; [apply spec_check|]. intros _ e2 [_ ->].
  eapply spec_bind; [apply spec_ctxCheck|]. intros _ e3 ->. done.
Qed.
End spec.

#[export] Hint Resolve spec_ctxCheck spec_newID spec_countModel spec_countTool spec_invokeModel spec_callTool : agent.
