(* ===== verification/Simulation.v ===== *)
(** * Replay reproduces what was executed (controller/effects.go, controller.go)

    A simulation between the live sink and the replay sink, and its lift to [Exec] and [Replay] over
    whole sessions. The second part is what a run may leave when it is interrupted. *)
From S2P Require Import Prelude GoErrors Api Canon EventLog Executions Approvals Harness Sinks Controller LiveSpec.

(** ** Replayable harnesses

    The contract of api/harness.go for STATELESS_REPLAY: the harness is deterministic ([Run] is a
    function of its [Start]), it lets an effect's error end the run, and it only uses a model call's
    usage by reporting it next. Its tools need no approval and have arguments the journal can hold. *)

Definition fails (p : Prog) : Prop := exists e, p = PReturn (Some e).

(** The continuation of a model call depends on the returned usage only by recording it at once. *)
Definition usage_faithful (k : res ModelResponse -> Prog) : Prop := forall m u,
  (exists k', k (Ok (mkModelResponse m u)) = PUsage u k') \/
  (forall u', k (Ok (mkModelResponse m u')) = k (Ok (mkModelResponse m u))).

(** Arguments whose wire form exists and is equal to itself. *)
Definition representable `{Host} (args : anymap) : Prop :=
  (args = None \/ wireArgs args <> None) /\ deepEqualMap (wireArgs args) (wireArgs args) = true.

Inductive replayable `{Host} : Prog -> Prop :=
  | rp_return e : replayable (PReturn e)
  | rp_model req k : (forall resp, replayable (k (Ok resp))) -> (forall e, fails (k (Err e))) ->
      usage_faithful k -> replayable (PModel req k)
  | rp_output d k : replayable (k None) -> (forall e, fails (k (Some e))) -> replayable (POutput d k)
  | rp_tool tc k : tc_Mediation tc <> MediationRequiresApproval -> representable (Args tc) ->
      (forall r, replayable (k (Ok r))) -> (forall e, fails (k (Err e))) -> replayable (PToolCall tc k)
  | rp_report tr k : replayable (k None) -> (forall e, fails (k (Some e))) -> replayable (PReport tr k)
  | rp_usage u k : replayable (k None) -> (forall e, fails (k (Some e))) -> replayable (PUsage u k).

(** ** The replay sink on a matching stream *)

(** A replay sink in good standing whose unread stream is [rest]. *)
Record ready (rs : replaySink) (rest : list Event) : Prop := {
  rd_failure : rs_failure rs = None;
  rd_guard : rs_guard rs = newGuard;
  rd_legacy : rs_legacy rs = false;
  rd_calls : rs_calls rs = ∅;
  rd_rest : drop (rs_i rs) (rs_stream rs) = rest;
}.

(** The sink after [n] more records and the outputs [outs]. *)
Definition advance (n : nat) (outs : list string) (rs : replaySink) : replaySink :=
  mkReplaySink (rs_stream rs) (rs_i rs + n) (rs_outputs rs ++ outs) (rs_legacy rs) (rs_failure rs)
    (rs_guard rs) (rs_approvals rs) (rs_calls rs).

(** Nothing but time has passed. *)
Record still {S} (w w' : World S) : Prop := {
  st_log : w_log w' = w_log w;
  st_time : (w_tick w <= w_tick w')%nat;
  st_model : liveModelCalls w' = liveModelCalls w;
  st_tool : liveToolCalls w' = liveToolCalls w;
  st_updates : w_updates w' = w_updates w;
  st_asked : w_asked w' = w_asked w;
}.

(** The context is not cancelled from [t] on. *)
Definition noCancel `{Host} (t : nat) : Prop := forall n, (t <= n)%nat -> ctxErr n = None.

(** The texts of the OUTPUT events of a stream. *)
Definition outputsOf : list Event -> list string := recordedOutputs.

Lemma drop_step {A} i (l rest : list A) e : drop i l = e :: rest -> l !! i = Some e /\ drop (S i) l = rest.
Proof.
  intros Hd. split.
  - pose proof (lookup_drop l i 0) as Hl. rewrite Hd, Nat.add_0_r in Hl. by rewrite <- Hl.
  - change (S i) with (1 + i)%nat. rewrite Nat.add_comm, <- drop_drop, Hd. done.
Qed.

Lemma advance_0 rs : advance 0 [] rs = rs.
Proof. destruct rs. unfold advance. simpl. by rewrite Nat.add_0_r, app_nil_r. Qed.

Lemma advance_advance n m o p rs : advance m p (advance n o rs) = advance (n + m) (o ++ p) rs.
Proof. unfold advance. simpl. by rewrite Nat.add_assoc, app_assoc. Qed.

Lemma ready_advance rs pre rest outs : ready rs (pre ++ rest) -> ready (advance (length pre) outs rs) rest.
Proof.
  intros [H1 H2 H3 H4 H5]. constructor; simpl; try done.
  by rewrite <- drop_drop, H5, drop_app_length.
Qed.

Lemma still_refl {S} (w : World S) : still w w.
Proof. by constructor. Qed.

Lemma still_trans {S} (w1 w2 w3 : World S) : still w1 w2 -> still w2 w3 -> still w1 w3.
Proof. intros [] []. constructor; (congruence || lia). Qed.

Lemma noCancel_mono `{Host} t t' : (t <= t')%nat -> noCancel t -> noCancel t'.
Proof. intros Hle Hn n Hm. apply Hn. lia. Qed.

Section serve.
Context `{Host} {S : Type} `{Store S}.

(** The replay operation [op] answers [a], consuming [n] records. *)
Definition serves {A} (op : M ReplayState goerr A) (rs : replaySink) (a : A) (n : nat) (outs : list string) : Prop :=
  forall w : World S, noCancel (w_tick w) -> exists w', op (w, rs) = ((w', advance n outs rs), Ok a) /\ still w w'.

Lemma serves_guard {A} (op : M ReplayState goerr A) rs rest a n outs :
  ready rs rest -> serves op rs a n outs -> serves (replayGuard op) rs a n outs.
Proof.
  intros [Hf Hg _ _ _] Hop w Hw. unfold replayGuard, mbind, M_bind, getReplay, gets, check.
  unfold inWorld, ctxCheck, tick, mbind, M_bind, check. simpl. rewrite Hg. simpl. rewrite Hf. simpl.
  rewrite (Hw (w_tick w)) by lia.
  destruct (Hop (mkWorld (w_log w) (Datatypes.S (w_tick w)) (liveModelCalls w) (liveToolCalls w)
    (w_updates w) (w_asked w))) as (w' & Hrun & Hst); [eapply noCancel_mono; [|exact Hw]; simpl; lia|].
  exists w'. split; [exact Hrun|]. eapply still_trans; [|exact Hst]. constructor; simpl; auto.
Qed.

Lemma nextOf_ready rs e rest k (w : World S) : ready rs (e :: rest) -> Kind e = k ->
  replay_nextOf k (w, rs) = ((w, setIndex (Datatypes.S (rs_i rs)) rs), Ok (Some e)).
Proof.
  intros [_ _ _ _ [Hl _]%drop_step] Hk. unfold replay_nextOf, mbind, M_bind, getReplay, gets, modReplay, modify.
  cbn [snd fst]. unfold nextOf. rewrite Hl, bool_decide_eq_true_2 by done. done.
Qed.

Lemma ready_setIndex rs e rest : ready rs (e :: rest) -> ready (setIndex (Datatypes.S (rs_i rs)) rs) rest.
Proof. intros [? ? ? ? [_ ?]%drop_step]. by constructor. Qed.

Lemma usageAt_ready rs rest : ready rs rest -> usageAt (rs_stream rs) (rs_i rs) = usageAt rest 0.
Proof.
  intros [_ _ _ _ <-]. unfold usageAt. by rewrite lookup_drop, Nat.add_0_r.
Qed.

Lemma serves_model rs e1 e2 rest req m :
  ready rs (e1 :: e2 :: rest) -> isModelCall (hashModelInput req) e1 -> isOutput m e2 ->
  serves (replay_model req) rs (mkModelResponse m (usageAt rest 0)) 2 [Text m].
Proof.
  intros Hr [Hk1 (mc & Hmc & Hh)] [Hk2 Hm] w _. exists w. split; [|apply still_refl].
  unfold replay_model. unfold mbind at 1, M_bind at 1. rewrite (nextOf_ready _ _ _ _ _ Hr Hk1), Hmc, Hh.
  rewrite bool_decide_eq_true_2 by done. cbn [negb].
  apply ready_setIndex in Hr as Hr2. unfold mbind at 1, M_bind at 1.
  rewrite (nextOf_ready _ _ _ _ _ Hr2 Hk2), Hm. apply ready_setIndex in Hr2 as Hr3.
  unfold mbind, M_bind, modReplay, modify, getReplay, gets, mret, M_ret. cbn.
  pose proof (rd_legacy _ _ Hr3) as Hleg. simpl in Hleg. rewrite Hleg.
  pose proof (usageAt_ready _ _ Hr3) as Hu. simpl in Hu. rewrite Hu.
  unfold advance. simpl. by rewrite Nat.add_comm.
Qed.

Lemma serves_output_text rs e rest d m :
  ready rs (e :: rest) -> isOutput m e -> d = Text m -> serves (replay_output d) rs tt 1 [d].
Proof.
  intros Hr [Hk Hm] -> w _. exists w. split; [|apply still_refl].
  unfold replay_output. unfold mbind at 1, M_bind at 1. rewrite (nextOf_ready _ _ _ _ _ Hr Hk), Hm.
  rewrite bool_decide_eq_true_2 by done. cbn.
  unfold advance. by rewrite Nat.add_1_r.
Qed.

Lemma serves_output rs e rest d :
  ready rs (e :: rest) -> isOutput (TextMessage "assistant" d) e -> serves (replay_output d) rs tt 1 [d].
Proof. intros Hr He. by eapply serves_output_text. Qed.

Lemma serves_usage rs e rest u :
  ready rs (e :: rest) -> isUsage u e -> serves (replay_usage u) rs tt 1 [].
Proof.
  intros Hr [Hk Hu] w _. exists w. split; [|apply still_refl].
  unfold replay_usage. unfold mbind at 1, M_bind at 1, getReplay, gets. cbn [snd].
  rewrite (rd_legacy _ _ Hr). unfold mbind at 1, M_bind at 1.
  rewrite (nextOf_ready _ _ _ _ _ Hr Hk), Hu, decide_True by done.
  unfold advance. by rewrite Nat.add_1_r, app_nil_r.
Qed.

(** Any TOOL_RESULT without receipt fields answers a report: the payload is not compared. *)
Lemma serves_report_any rs e rest tr :
  ready rs (e :: rest) -> Kind e = EventToolResult -> approvalReportError tr = None ->
  match ev_Result e with Some r => negb (isNil (approvalReportError r)) | None => false end = false ->
  serves (replay_report tr) rs tt 1 [].
Proof.
  intros Hr Hk Hn Ht w _. exists w. split; [|apply still_refl].
  unfold replay_report. unfold mbind at 1, M_bind at 1, getReplay at 1, gets at 1. cbn [snd].
  rewrite (rd_calls _ _ Hr), lookup_empty. cbn [default]. rewrite Hn.
  unfold mbind at 1, M_bind at 1, check. unfold mbind at 1, M_bind at 1, getReplay at 1, gets at 1. cbn [snd].
  unfold mbind at 1, M_bind at 1, getReplay at 1, gets at 1. cbn [snd].
  pose proof (rd_rest _ _ Hr) as [Hl _]%drop_step. unfold receiptAt. rewrite Hl, Ht.
  unfold mbind at 1, M_bind at 1. rewrite (nextOf_ready _ _ _ _ _ Hr Hk).
  unfold advance. by rewrite Nat.add_1_r, app_nil_r.
Qed.

Lemma serves_report rs e rest tr :
  ready rs (e :: rest) -> isToolResult tr e -> approvalReportError tr = None ->
  serves (replay_report tr) rs tt 1 [].
Proof.
  intros Hr [Hk Ht] Hn. apply (serves_report_any _ e rest); [done..|]. by rewrite Ht, Hn.
Qed.

(** A recorded ordinary call matches itself. *)
Lemma matchToolCall_self tc : tc_Mediation tc = MediationControllerMediated ->
  IdempotencyKey tc <> EmptyString -> representable (Args tc) -> matchToolCall tc (Some tc) = None.
Proof.
  intros Hm Hk [Hr Hd]. unfold matchToolCall. rewrite Hm, (bool_decide_eq_false_2 _ Hk), !bool_decide_eq_true_2 by done.
  cbn [negb]. rewrite Hd.
  destruct Hr as [->|Hr]; [done|]. destruct (wireArgs (Args tc)); [|done]. simpl. by rewrite andb_false_r.
Qed.

(** What a match establishes. *)
Lemma matchToolCall_None tc rc : matchToolCall tc (Some rc) = None ->
  IdempotencyKey tc <> EmptyString /\ tc_Mediation tc = tc_Mediation rc /\ tc_ID tc = tc_ID rc /\
  (tc_Mediation rc = MediationControllerMediated \/ tc_Mediation rc = MediationRequiresApproval).
Proof.
  unfold matchToolCall. intros Hm. destruct (tc_Mediation rc) eqn:Hmed; simpl in Hm; try done;
    repeat (case_bool_decide; simpl in Hm; try done); repeat split; auto; congruence.
Qed.

(** A recorded ordinary call and its result answer any call that matches. *)
Lemma serves_toolCall_match rs e1 e2 rest tc rc r :
  ready rs (e1 :: e2 :: rest) -> isToolCall rc e1 -> isToolResult r e2 -> tr_ID r = tc_ID rc ->
  tc_Mediation rc = MediationControllerMediated -> matchToolCall tc (Some rc) = None ->
  serves (replay_toolCall tc) rs r 2 [].
Proof.
  intros Hr [Hk1 Htc] [Hk2 Ht] Hid Hmr Hmatch w _. exists w. split; [|apply still_refl].
  destruct (matchToolCall_None _ _ Hmatch) as (Hkey & Hm & _ & _). rewrite Hmr in Hm.
  unfold replay_toolCall. unfold mbind at 1, M_bind at 1, getReplay at 1, gets at 1. cbn [snd].
  unfold mbind at 1, M_bind at 1, getReplay at 1, gets at 1. cbn [snd].
  unfold keylessRejected. rewrite (bool_decide_eq_false_2 _ Hkey), andb_false_r. cbn [andb].
  unfold mbind at 1, M_bind at 1. rewrite Hm. cbn [toolMediationError].
  replace (if distinctFallback _ _ tc then None else None) with (@None goerr) by (by destruct (distinctFallback _ _ _)).
  cbn [check]. unfold mbind at 1, M_bind at 1. rewrite (nextOf_ready _ _ _ _ _ Hr Hk1), Htc, Hmatch, Hmr.
  apply ready_setIndex in Hr as Hr2.
  unfold mbind at 1, M_bind at 1, getReplay at 1, gets at 1. cbn [snd].
  rewrite bool_decide_eq_false_2 by done.
  unfold mbind at 1, M_bind at 1, mret at 1, M_ret at 1. unfold mbind at 1, M_bind at 1.
  rewrite (nextOf_ready _ _ _ _ _ Hr2 Hk2), Ht. unfold recordedToolResult.
  rewrite bool_decide_eq_true_2 by done. cbn [negb]. unfold mret, M_ret.
  unfold advance. simpl. by rewrite app_nil_r, Nat.add_comm.
Qed.

Lemma serves_toolCall rs e1 e2 rest tc r :
  ready rs (e1 :: e2 :: rest) -> isToolCall tc e1 -> isToolResult r e2 -> tr_ID r = tc_ID tc ->
  tc_Mediation tc = MediationControllerMediated -> IdempotencyKey tc <> EmptyString -> representable (Args tc) ->
  serves (replay_toolCall tc) rs r 2 [].
Proof. intros. eapply serves_toolCall_match; eauto. by apply matchToolCall_self. Qed.
End serve.

(** ** The simulation *)

Section simulation.
Context `{Host} {S : Type} `{StoreLaws S} `{!FaithfulStore S}.
Variables (c : Controller) (har : Harness) (id : string).

Definition runLiveProg (p : Prog) (st : World S * liveSink) := runProg (H := liveEventSink c har) p st.
Definition runReplayProg (p : Prog) (st : World S * replaySink) := runProg (H := replayEventSink) p st.

(** What a live run of [p] from [w] to [w'] amounts to: it committed the effect events [evs], and, if
    it succeeded, a replay sink holding exactly [evs] drives [p] through the same run. *)
Record simulated (p : Prog) (w w' : World S) (r : option goerr) (evs : list Event) : Prop := {
  sm_appended : appended (w_log w) (w_log w') evs;
  sm_effects : Forall (effect_of id) evs;
  sm_usage : forall u k, p = PUsage u k -> r = None -> usageAt evs 0 = u;
  sm_replay : r = None -> forall rs wr, ready rs evs -> noCancel (w_tick wr) -> exists wr',
    runReplayProg p (wr, rs) = ((wr', advance (length evs) (outputsOf evs) rs), None) /\ still wr wr';
}.

Definition simulates (p : Prog) : Prop := forall w ls w' ls' r,
  plain id ls -> runLiveProg p (w, ls) = ((w', ls'), r) ->
  plain id ls' /\ exists evs, simulated p w w' r evs.

(** A run that failed at once. *)
Lemma simulated_failed p w w' e evs :
  appended (w_log w) (w_log w') evs -> Forall (effect_of id) evs -> simulated p w w' (Some e) evs.
Proof. intros Ha Hf. by constructor. Qed.

(** The first effect of a run, answered on replay by [op], composed with the rest of the run. *)
Lemma simulated_step {A} p q (op : M ReplayState goerr A) (a : A) w w1 w' r e1 e2 :
  appended (w_log w) (w_log w1) e1 -> Forall (effect_of id) e1 -> simulated q w1 w' r e2 ->
  (forall u k, p = PUsage u k -> usageAt (e1 ++ e2) 0 = u) ->
  (r = None -> forall rs, ready rs (e1 ++ e2) ->
     serves (S := S) (replayGuard op) rs a (length e1) (outputsOf e1)) ->
  (r = None -> forall wr rs wr1 rs1, replayGuard op (wr, rs) = ((wr1, rs1), Ok a) ->
     runReplayProg p (wr, rs) = runReplayProg q (wr1, rs1)) ->
  simulated p w w' r (e1 ++ e2).
Proof.
  intros Ha He [Ha2 He2 _ Hrep] Hu Hserve Hstep. constructor.
  - by eapply appended_trans.
  - by apply Forall_app.
  - eauto.
  - intros Hr rs wr Hready Hnc. destruct (Hserve Hr rs Hready wr Hnc) as (wr1 & Hop & Hst1).
    destruct (Hrep Hr (advance (length e1) (outputsOf e1) rs) wr1) as (wr' & Hrun & Hst2).
    + by apply ready_advance.
    + eapply noCancel_mono; [apply Hst1|done].
    + exists wr'. rewrite (Hstep Hr _ _ _ _ Hop), Hrun, advance_advance, length_app. split.
      * do 2 f_equal. unfold outputsOf, recordedOutputs in *. by rewrite omap_app.
      * by eapply still_trans.
Qed.

(** A live effect of the run: what its specification gives, unless it failed and ended the run. *)
Lemma live_effect {A} (op : M LiveState goerr A) Q w ls w1 ls1 r1 :
  live_spec id (liveGuard op) Q -> plain id ls -> liveGuard op (w, ls) = ((w1, ls1), r1) ->
  plain id ls1 /\ exists e1, appended (w_log w) (w_log w1) e1 /\ Forall (effect_of id) e1 /\
    match r1 with Ok a => Q a e1 | Err _ => True end.
Proof. intros Hop Hp Hrun. by apply (Hop _ _ _ _ _ Hp). Qed.

Lemma outputsOf_other e : Kind e <> EventOutput -> outputsOf [e] = [].
Proof. intros Hk. unfold outputsOf, recordedOutputs. simpl. by rewrite bool_decide_eq_false_2. Qed.

Lemma outputsOf_output e m es : isOutput m e -> outputsOf (e :: es) = Text m :: outputsOf es.
Proof.
  intros [Hk Hm]. unfold outputsOf, recordedOutputs. simpl. by rewrite bool_decide_eq_true_2, Hm.
Qed.

Lemma outputsOf_skip e es : Kind e <> EventOutput -> outputsOf (e :: es) = outputsOf es.
Proof. intros Hk. unfold outputsOf, recordedOutputs. simpl. by rewrite bool_decide_eq_false_2. Qed.

Lemma usageAt_usage e es u : isUsage u e -> usageAt (e :: es) 0 = u.
Proof. intros [Hk Hu]. unfold usageAt. simpl. by rewrite Hk, Hu. Qed.

(** Every kind of effect: the live answer either failed and ended the run, or is served again. *)
Lemma simulates_effect {A} p (opL : M LiveState goerr A) (opR : M ReplayState goerr A) Q (k : res A -> Prog) :
  (forall st, runLiveProg p st = let '(st', r) := liveGuard opL st in runLiveProg (k r) st') ->
  (forall st, runReplayProg p st = let '(st', r) := replayGuard opR st in runReplayProg (k r) st') ->
  live_spec id (liveGuard opL) Q -> (forall e, fails (k (Err e))) ->
  (forall a, simulates (k (Ok a))) ->
  (forall u k', p = PUsage u k' -> forall a e1 e2, Q a e1 -> usageAt (e1 ++ e2) 0 = u) ->
  (forall a e1 e2 w w', Q a e1 -> simulated (k (Ok a)) w w' None e2 -> exists a', k (Ok a') = k (Ok a) /\
     forall rs, ready rs (e1 ++ e2) -> serves (S := S) (replayGuard opR) rs a' (length e1) (outputsOf e1)) ->
  simulates p.
Proof.
  intros HL HR Hspec Hfail IH Hu Hserve w ls w' ls' r Hp Hrun. rewrite HL in Hrun.
  destruct (liveGuard opL (w, ls)) as [[w1 ls1] r1] eqn:E.
  destruct (live_effect _ _ _ _ _ _ _ Hspec Hp E) as (Hp1 & e1 & Ha1 & He1 & HQ).
  destruct r1 as [a|e].
  2: { destruct (Hfail e) as [e' Hf]. rewrite Hf in Hrun. injection Hrun as <- <- <-.
       split; [done|]. exists e1. by apply simulated_failed. }
  destruct (IH a _ _ _ _ _ Hp1 Hrun) as (Hp2 & e2 & Hsim). split; [done|]. exists (e1 ++ e2).
  destruct r as [e|].
  { apply simulated_failed; [eapply appended_trans; [exact Ha1|apply Hsim]|].
    apply Forall_app. split; [done|apply Hsim]. }
  destruct (Hserve a e1 e2 w1 w' HQ Hsim) as (a' & Hk & Hs).
  eapply (simulated_step p (k (Ok a)) opR a'); eauto.
  intros _ wr rs wr1 rs1 Hop. by rewrite HR, Hop, Hk.
Qed.

Lemma simulates_return e : simulates (PReturn e).
Proof.
  intros w ls w' ls' r Hp [= <- <- <-]. split; [done|]. exists []. constructor; [apply appended_refl|done|done|].
  intros -> rs wr _ _. exists wr. split; [|apply still_refl]. simpl. unfold runReplayProg. simpl.
  by rewrite advance_0.
Qed.

Lemma simulates_model req k : replayable (PModel req k) ->
  (forall a, simulates (k (Ok a))) -> simulates (PModel req k).
Proof.
  intros Hrep IH. inversion Hrep as [|? ? Hk Hfail Huf| | | |]; subst.
  eapply (simulates_effect _ (live_model c req) (replay_model req)); try done.
  { apply spec_liveGuard, spec_live_model. }
  intros [m u] e1 e2 w w' (ev1 & ev2 & -> & Hmc & Hout) Hsim. exists (mkModelResponse m (usageAt e2 0)).
  split.
  - destruct (Huf m u) as [[k' Hk']|Hk']; [|apply Hk'].
    by rewrite (sm_usage _ _ _ _ _ Hsim u k' Hk' eq_refl).
  - intros rs Hr. simpl in Hout. eapply serves_guard; [exact Hr|].
    rewrite outputsOf_skip, (outputsOf_output _ _ _ Hout) by (by destruct Hmc as [-> _]).
    exact (serves_model _ _ _ _ _ _ Hr Hmc Hout).
Qed.

Lemma simulates_output d k : replayable (POutput d k) -> simulates (k None) -> simulates (POutput d k).
Proof.
  intros Hrep IH. inversion Hrep as [| |? ? Hk Hfail| | |]; subst.
  eapply (simulates_effect _ (live_output c d) (replay_output d) _ (fun r => k (err_of r))); try done.
  { apply spec_liveGuard, spec_live_output. }
  intros [] e1 e2 w w' (ev & -> & He) Hsim. exists tt. split; [done|]. intros rs Hr.
  eapply serves_guard; [exact Hr|]. rewrite (outputsOf_output _ _ _ He), Text_TextMessage.
  exact (serves_output _ _ _ _ Hr He).
Qed.

Lemma simulates_toolCall tc k : replayable (PToolCall tc k) ->
  (forall a, simulates (k (Ok a))) -> simulates (PToolCall tc k).
Proof.
  intros Hrep IH. inversion Hrep as [| | |? ? Hm Hargs Hk Hfail| |]; subst.
  eapply (simulates_effect _ (live_toolCall c har tc) (replay_toolCall tc)); try done.
  { by apply spec_liveGuard, spec_live_toolCall. }
  intros r e1 e2 w w' (Hmed & Hkey & Hid & Hre & ev1 & ev2 & -> & Htc & Hres) Hsim. exists r.
  split; [done|]. intros rs Hr. eapply serves_guard; [exact Hr|].
  rewrite outputsOf_skip, outputsOf_other by (by destruct Hres as [-> _] || by destruct Htc as [-> _]).
  exact (serves_toolCall _ _ _ _ _ _ Hr Htc Hres Hid Hmed Hkey Hargs).
Qed.

Lemma simulates_report tr k : replayable (PReport tr k) -> simulates (k None) -> simulates (PReport tr k).
Proof.
  intros Hrep IH. inversion Hrep as [| | | |? ? Hk Hfail|]; subst.
  eapply (simulates_effect _ (live_report c tr) (replay_report tr) _ (fun r => k (err_of r))); try done.
  { apply spec_liveGuard, spec_live_report. }
  intros [] e1 e2 w w' (Hre & ev & -> & He) Hsim. exists tt. split; [done|]. intros rs Hr.
  eapply serves_guard; [exact Hr|]. rewrite outputsOf_other by (by destruct He as [-> _]).
  exact (serves_report _ _ _ _ Hr He Hre).
Qed.

Lemma simulates_usage u k : replayable (PUsage u k) -> simulates (k None) -> simulates (PUsage u k).
Proof.
  intros Hrep IH. inversion Hrep as [| | | | |? ? Hk Hfail]; subst.
  eapply (simulates_effect _ (live_usage c u) (replay_usage u) _ (fun r => k (err_of r))); try done.
  { apply spec_liveGuard, spec_live_usage. }
  - intros u' k' [= <- _] [] e1 e2 (e & -> & He). by apply usageAt_usage.
  - intros [] e1 e2 w w' (ev & -> & He) Hsim. exists tt. split; [done|]. intros rs Hr.
    eapply serves_guard; [exact Hr|]. rewrite outputsOf_other by (by destruct He as [-> _]).
    exact (serves_usage _ _ _ _ Hr He).
Qed.

(** Every live run of a replayable harness is simulated by the replay sink. *)
Lemma replayable_simulates p : replayable p -> simulates p.
Proof.
  induction p as [e|req k IH|d k IH|tc k IH|tr k IH|u k IH]; intros Hrep.
  - apply simulates_return.
  - apply simulates_model; [done|]. intros a. apply IH. by inversion Hrep.
  - apply simulates_output; [done|]. apply IH. by inversion Hrep.
  - apply simulates_toolCall; [done|]. intros a. apply IH. by inversion Hrep.
  - apply simulates_report; [done|]. apply IH. by inversion Hrep.
  - apply simulates_usage; [done|]. apply IH. by inversion Hrep.
Qed.
End simulation.

(** * Traces: the effects a harness may have recorded when it was interrupted

    A trace of a program is what a run of it may have committed up to a crash or a failure. Live runs
    leave traces, and prefixes of traces are traces. *)

(** The traces of a program. A call's record may end with its intent; a model call's usage is read
    from the record that follows, as the sinks do. *)
Inductive trace `{Host} : Prog -> list Event -> Prop :=
  | tr_cut p : trace p []
  | tr_model_open req k e : isModelCall (hashModelInput req) e -> trace (PModel req k) [e]
  | tr_model req k e1 e2 m rest : isModelCall (hashModelInput req) e1 -> isOutput m e2 ->
      trace (k (Ok (mkModelResponse m (usageAt rest 0)))) rest -> trace (PModel req k) (e1 :: e2 :: rest)
  | tr_output d k e rest : isOutput (TextMessage "assistant" d) e -> trace (k None) rest ->
      trace (POutput d k) (e :: rest)
  | tr_tool_open tc k e : tc_Mediation tc = MediationControllerMediated -> IdempotencyKey tc <> EmptyString ->
      isToolCall tc e -> trace (PToolCall tc k) [e]
  | tr_tool tc k e1 e2 r rest : tc_Mediation tc = MediationControllerMediated ->
      IdempotencyKey tc <> EmptyString -> isToolCall tc e1 -> isToolResult r e2 -> tr_ID r = tc_ID tc ->
      approvalReportError r = None ->
      trace (k (Ok r)) rest -> trace (PToolCall tc k) (e1 :: e2 :: rest)
  | tr_report tr k e rest : approvalReportError tr = None -> isToolResult tr e -> trace (k None) rest ->
      trace (PReport tr k) (e :: rest)
  | tr_usage u k e rest : isUsage u e -> trace (k None) rest -> trace (PUsage u k) (e :: rest).

#[export] Hint Constructors trace : agent.

Lemma usageAt_cons e rest rest' : usageAt (e :: rest) 0 = usageAt (e :: rest') 0.
Proof. done. Qed.

(** The answer to a model call may carry any usage: a faithful harness only records it. *)
Lemma trace_model `{Host} req k e1 e2 m u rest : usage_faithful k ->
  isModelCall (hashModelInput req) e1 -> isOutput m e2 -> trace (k (Ok (mkModelResponse m u))) rest ->
  trace (PModel req k) (e1 :: e2 :: rest).
Proof.
  intros Hk H1' H2' Ht. destruct rest as [|e rest]; [by eapply tr_model; [| |apply tr_cut]|].
  eapply tr_model; [done|done|]. destruct (Hk m u) as [[k' Hk']|Hk']; [|by rewrite Hk'].
  rewrite Hk' in Ht. inversion Ht; subst. by rewrite (usageAt_usage _ _ u), Hk'.
Qed.

(** Prefixes. *)
Lemma trace_take `{Host} p evs : trace p evs -> forall n, trace p (take n evs).
Proof.
  induction 1 as [p|req k e He|req k e1 e2 m rest He1 He2 Ht IH|d k e rest He Ht IH|tc k e Hm Hk He|
    tc k e1 e2 r rest Hm Hk He1 He2 Hid Ha Ht IH|tr k e rest Hr He Ht IH|u k e rest He Ht IH]; intros [|n];
    try apply tr_cut; simpl; rewrite ?take_nil; eauto with agent.
  - destruct n as [|n]; simpl; [by apply tr_model_open|].
    destruct n as [|n]; [eapply tr_model; [done..|apply tr_cut]|].
    specialize (IH (S n)). destruct rest as [|e rest]; [by eapply tr_model|]. by eapply tr_model.
  - destruct n as [|n]; simpl; [by apply tr_tool_open|]. by eapply tr_tool.
Qed.

Section live.
Context `{Host} {S : Type} `{StoreLaws S} `{!FaithfulStore S}.
Variables (c : Controller) (har : Harness) (id : string).

(** *** What a failed live effect may have left behind *)

Definition live_err {A} (m : M (LiveState (S := S)) goerr A) (E : list Event -> Prop) : Prop :=
  forall w ls w' ls' e, plain id ls -> m (w, ls) = ((w', ls'), Err e) ->
    exists evs, appended (w_log w) (w_log w') evs /\ E evs.

Lemma appended_inj (w w' : World S) evs evs' :
  appended (w_log w) (w_log w') evs -> appended (w_log w) (w_log w') evs' -> evs = evs'.
Proof. intros (rs & Hr & <- & _) (rs' & Hr' & <- & _). rewrite Hr in Hr'. by apply app_inv_head in Hr' as ->. Qed.

Lemma err_throw {A} (e : goerr) (E : list Event -> Prop) : E [] -> live_err (throw e : M LiveState goerr A) E.
Proof. intros HE w ls w' ls' e' _ [= <- <- <-]. exists []. auto with agent. Qed.

Lemma err_ret {A} (a : A) (E : list Event -> Prop) : live_err (mret a) E.
Proof. by intros w ls w' ls' e _ [=]. Qed.

Lemma err_bind {A B} (m : M LiveState goerr A) (f : A -> M LiveState goerr B) Q E :
  live_spec id m Q -> live_err m E -> (forall a e1, Q a e1 -> live_err (f a) (fun e2 => E (e1 ++ e2))) ->
  live_err (m ≫= f) E.
Proof.
  intros Hm He Hf w ls w' ls' e Hp Hrun. unfold mbind, M_bind in Hrun.
  destruct (m (w, ls)) as [[w1 ls1] r1] eqn:E1. destruct (Hm _ _ _ _ _ Hp E1) as (Hp1 & e1 & Ha1 & Hf1 & Hq1).
  destruct r1 as [a|e0]; [|injection Hrun as <- <- <-; exact (He _ _ _ _ _ Hp E1)].
  destruct (Hf a e1 Hq1 _ _ _ _ _ Hp1 Hrun) as (e2 & Ha2 & HE).
  exists (e1 ++ e2). split; [by eapply appended_trans|done].
Qed.

Lemma err_mono {A} (m : M LiveState goerr A) (E E' : list Event -> Prop) :
  live_err m E -> (forall e, E e -> E' e) -> live_err m E'.
Proof. intros Hm HE w ls w' ls' e Hp Hrun. destruct (Hm _ _ _ _ _ Hp Hrun) as (evs & ? & ?). eauto. Qed.

Lemma err_check (o : option goerr) (E : list Event -> Prop) : E [] -> live_err (check o) E.
Proof. destruct o; [apply err_throw|intros; apply err_ret]. Qed.

Lemma err_getSink {A} (f : liveSink -> A) E : live_err (getSink f) E.
Proof. by intros w ls w' ls' e _ [=]. Qed.

Lemma err_modSink f E : live_err (modSink f) E.
Proof. by intros w ls w' ls' e _ [=]. Qed.

Lemma err_append ev (E : list Event -> Prop) : E [] -> live_err (live_append c ev) E.
Proof.
  intros HE w ls w' ls' e Hp Hrun. apply live_append_plain with (id := id) in Hrun; [|done]. by exists [].
Qed.

Lemma err_world {A} (m : M (World S) goerr A) (E : list Event -> Prop) :
  (forall w w' r, m w = (w', r) -> journal (w_log w') = journal (w_log w)) -> E [] -> live_err (onWorld m) E.
Proof.
  intros Hm HE w ls w' ls' e Hp Hrun. unfold onWorld in Hrun. simpl in Hrun.
  destruct (m w) as [w1 r1] eqn:E1. injection Hrun as <- <- Hr. exists []. split; [|done].
  apply appended_same. by eapply Hm.
Qed.

Lemma journal_ctxCheck (w w' : World S) r : ctxCheck w = (w', r) -> journal (w_log w') = journal (w_log w).
Proof. unfold ctxCheck, tick. unM. by destruct (ctxErr (w_tick w)); intros [= <- <-]. Qed.
Lemma journal_invokeModel i req (w w' : World S) r :
  invokeModel c i req w = (w', r) -> journal (w_log w') = journal (w_log w).
Proof. intros Hr%invokeModel_same. by rewrite Hr. Qed.

Lemma err_completeModel req : live_err (completeModel c req) (fun es => es = []).
Proof.
  unfold completeModel. eapply err_bind; [apply spec_getSink|apply err_getSink|]. intros i e1 [_ ->].
  eapply err_bind; [apply spec_invokeModel|apply err_world; [apply journal_invokeModel|done]|]. intros resp e2 ->.
  eapply err_bind; [apply spec_countModel| |].
  { by intros w ls w' ls' e _ [=]. }
  intros [] e3 ->. eapply err_bind; [apply spec_append_output|by apply err_append|]. intros. apply err_ret.
Qed.

Lemma err_live_model req : live_err (live_model c req)
  (fun es => es = [] \/ exists e, es = [e] /\ isModelCall (hashModelInput req) e).
Proof.
  unfold live_model. eapply err_bind; [apply spec_newID| |].
  { by intros w ls w' ls' e _ [=]. }
  intros i e1 ->. eapply err_bind; [apply spec_append_modelcall|apply err_append; by left|]. intros _ e2 (e & -> & He).
  eapply err_mono; [apply err_completeModel|]. intros ? ->. right. by exists e.
Qed.

Lemma err_live_output d : live_err (live_output c d) (fun es => es = []).
Proof.
  unfold live_output. eapply err_bind; [apply spec_append_output|by apply err_append|]. intros. apply err_ret.
Qed.

Lemma err_execTool tc : live_err (execTool c tc) (fun es => es = []).
Proof.
  unfold execTool. destruct (c_tool c) as [tool|]; [|by apply err_throw].
  eapply err_bind; [apply spec_callTool| |].
  { by intros w ls w' ls' e _ [=]. }
  intros rt e1 ->. eapply err_bind; [apply spec_check|by apply err_check|]. intros _ e2 [_ ->].
  eapply err_bind; [apply spec_countTool| |].
  { by intros w ls w' ls' e _ [=]. }
  intros _ e3 ->. eapply err_bind; [apply spec_check|by apply err_check|]. intros _ e4 [Hr ->].
  eapply err_bind; [by apply spec_append_result|by apply err_append|]. intros. apply err_ret.
Qed.

Lemma err_live_toolCall tc : tc_Mediation tc <> MediationRequiresApproval -> live_err (live_toolCall c har tc)
  (fun es => es = [] \/ (tc_Mediation tc = MediationControllerMediated /\ IdempotencyKey tc <> EmptyString /\
     exists e, es = [e] /\ isToolCall tc e)).
Proof.
  intros Hm. unfold live_toolCall. rewrite bool_decide_eq_false_2 by done.
  eapply err_bind; [apply spec_getSink|apply err_getSink|]. intros calls e1 [_ ->].
  destruct (default false _); [apply err_throw; by left|].
  eapply err_bind; [apply spec_check|apply err_check; by left|]. intros _ e2 [Hmed ->].
  case_bool_decide as Hk; [apply err_throw; by left|].
  eapply err_bind; [by apply spec_append_toolcall|apply err_append; by left|]. intros _ e3 (e & -> & He).
  eapply err_bind; [apply spec_modCall|apply err_modSink|]. intros _ e4 ->.
  eapply err_mono; [apply err_execTool|]. intros ? ->. right.
  split; [by destruct (tc_Mediation tc)|]. split; [done|]. by exists e.
Qed.

Lemma err_live_report tr : live_err (live_report c tr) (fun es => es = []).
Proof.
  unfold live_report. eapply err_bind; [apply spec_getSink|apply err_getSink|]. intros calls e1 [(ls & Hp & ->) ->].
  destruct (default false _) eqn:Hd.
  { destruct Hp as (_ & _ & _ & Hc). destruct (ls_calls ls !! tr_ID tr) as [[]|] eqn:Hl; [|done..].
    by destruct (Hc _ Hl). }
  eapply err_bind; [apply spec_check|by apply err_check|]. intros _ e2 [Hr ->].
  eapply err_bind; [by apply spec_append_result|by apply err_append|]. intros. apply err_ret.
Qed.

Lemma err_live_usage u : live_err (live_usage c u) (fun es => es = []).
Proof.
  unfold live_usage. eapply err_bind; [apply spec_append_usage|by apply err_append|]. intros. apply err_ret.
Qed.

Lemma err_liveGuard {A} (op : M LiveState goerr A) (E : list Event -> Prop) : E [] -> live_err op E -> live_err (liveGuard op) E.
Proof.
  intros HE Hop. unfold liveGuard. eapply err_bind; [apply spec_getSink|apply err_getSink|]. intros g e1 [_ ->].
  eapply err_bind; [apply spec_check|by apply err_check|]. intros _ e2 [_ ->].
  eapply err_bind; [apply spec_ctxCheck|apply err_world; [apply journal_ctxCheck|done]|]. intros _ e3 ->. done.
Qed.
(** *** Live runs leave traces *)

Definition traces (p : Prog) : Prop := forall (w : World S) ls w' ls' r,
  plain id ls -> runLiveProg c har p (w, ls) = ((w', ls'), r) ->
  plain id ls' /\ exists evs, appended (w_log w) (w_log w') evs /\ trace p evs.

Lemma traces_effect {A} p (op : M LiveState goerr A) Q E (k : res A -> Prog) :
  live_spec id op Q -> live_err op E ->
  (forall st, runLiveProg c har p st = let '(st', r) := liveGuard op st in runLiveProg c har (k r) st') ->
  (forall e, fails (k (Err e))) -> (forall a, traces (k (Ok a))) ->
  E [] -> (forall es, E es -> trace p es) ->
  (forall a es rest, Q a es -> trace (k (Ok a)) rest -> trace p (es ++ rest)) -> traces p.
Proof.
  intros Hspec Herr HL Hfail IH HE0 HE HQ w ls w' ls' r Hp Hrun. rewrite HL in Hrun.
  destruct (liveGuard op (w, ls)) as [[w1 ls1] r1] eqn:E1.
  destruct (live_effect _ _ _ _ _ _ _ _ (spec_liveGuard _ _ _ Hspec) Hp E1) as (Hp1 & e1 & Ha1 & _ & Hq).
  destruct r1 as [a|e].
  - destruct (IH a _ _ _ _ _ Hp1 Hrun) as (Hp2 & e2 & Ha2 & Ht). split; [done|].
    exists (e1 ++ e2). split; [by eapply appended_trans|]. by apply (HQ a).
  - destruct (Hfail e) as [e' Hf]. rewrite Hf in Hrun. injection Hrun as <- <- <-. split; [done|].
    destruct (err_liveGuard _ _ HE0 Herr _ _ _ _ _ Hp E1) as (es & Has & HEs). eauto.
Qed.

(** Every live run of a replayable harness leaves a trace. *)
Lemma replayable_traces p : replayable p -> traces p.
Proof.
  induction p as [e|req k IH|d k IH|tc k IH|tr k IH|u k IH]; intros Hrep; inversion Hrep; subst.
  - intros w ls w' ls' r Hp [= <- <- <-]. split; [done|]. exists []. auto with agent.
  - eapply (traces_effect _ _ _ _ _ (spec_live_model c id req) (err_live_model req)); try done; auto.
    + intros es [->|(e & -> & He)]; auto with agent.
    + intros [m u] es rest (e1 & e2 & -> & He1 & He2) Ht. by eapply trace_model.
  - eapply (traces_effect _ _ _ _ (fun r => k (err_of r)) (spec_live_output c id d) (err_live_output d)); try done; auto.
    + intros es ->. auto with agent.
    + intros [] es rest (e & -> & He) Ht. by apply tr_output.
  - eapply (traces_effect _ _ _ _ _ (spec_live_toolCall c har id tc ltac:(done)) (err_live_toolCall tc ltac:(done))); try done; auto.
    + intros es [->|(Hm & Hk & e & -> & He)]; auto with agent.
    + intros a es rest (Hm & Hk & Hid & Ha & e1 & e2 & -> & He1 & He2) Ht. by eapply tr_tool.
  - eapply (traces_effect _ _ _ _ (fun r => k (err_of r)) (spec_live_report c id tr) (err_live_report tr)); try done; auto.
    + intros es ->. auto with agent.
    + intros [] es rest (Hr & e & -> & He) Ht. by apply tr_report.
  - eapply (traces_effect _ _ _ _ (fun r => k (err_of r)) (spec_live_usage c id u) (err_live_usage u)); try done; auto.
    + intros es ->. auto with agent.
    + intros [] es rest (e & -> & He) Ht. by apply tr_usage.
Qed.
End live.
