(* ===== verification/ReplaySafety.v ===== *)
(** * Replay is safe for every harness (controller/effects.go, controller.go)

    A logic for the replay sink: whatever a harness does, its effects leave the world alone but for
    the clock, and the outputs collected so far are the texts of the OUTPUT records consumed so far. *)
From S2P Require Import Prelude GoErrors Api Canon EventLog Executions Approvals Harness Sinks Controller Agents LiveSpec Simulation.

(** The records a replay sink has consumed. *)
Definition consumed (rs : replaySink) : list Event := take (rs_i rs) (rs_stream rs).

(** Every OUTPUT record carries its message, as the controller writes them. *)
Definition outputs_present (es : list Event) : Prop :=
  Forall (fun e => Kind e = EventOutput -> is_Some (ev_Message e)) es.

(** What a replay may return for one record: the text of an OUTPUT record, and nothing for any other. For an
    OUTPUT record without a message it is the empty text, when the harness emits it, or nothing, when the
    record completes a model call. *)
Definition reads (e : Event) (t : list string) : Prop :=
  if bool_decide (Kind e = EventOutput) then
    match ev_Message e with Some m => t = [Text m] | None => t = [] \/ t = [EmptyString] end
  else t = [].
Definition readsAs (es : list Event) (out : list string) : Prop := exists tss, Forall2 reads es tss /\ out = concat tss.

Lemma readsAs_nil : readsAs [] [].
Proof. by exists []. Qed.
Lemma readsAs_app es1 es2 o1 o2 : readsAs es1 o1 -> readsAs es2 o2 -> readsAs (es1 ++ es2) (o1 ++ o2).
Proof.
  intros (t1 & H1' & ->) (t2 & H2' & ->). exists (t1 ++ t2). rewrite concat_app. split; [by apply Forall2_app|done].
Qed.
Lemma readsAs_one e t : reads e t -> readsAs [e] t.
Proof. intros Hr. exists [t]. cbn. rewrite app_nil_r. by repeat constructor. Qed.
(** With every message present there is one reading: the recorded outputs. *)
Lemma readsAs_recorded es out : outputs_present es -> readsAs es out -> out = recordedOutputs es.
Proof.
  intros Hp (tss & Hr & ->). induction Hr as [|e t es tss He _ IH]; [done|]. apply Forall_cons_iff in Hp as [Hm Hp].
  unfold recordedOutputs in *. simpl. rewrite IH by done. unfold reads in He. case_bool_decide as Hk; [|by subst].
  destruct (Hm Hk) as [m Em]. rewrite Em in He |- *. by subst.
Qed.

(** The sink has collected exactly the outputs it consumed. *)
Definition collected (rs : replaySink) : Prop :=
  (rs_i rs <= length (rs_stream rs))%nat /\ readsAs (consumed rs) (rs_outputs rs).

(** The invariant of a replay sink: unless a failure is latched, its outputs are those it consumed. *)
Definition good (rs : replaySink) : Prop := rs_failure rs = None -> collected rs.

(** Like [collected], with the outputs of the record [e] still to be added. *)
Definition owes (e : Event) (rs : replaySink) : Prop :=
  (rs_i rs <= length (rs_stream rs))%nat /\ forall t, reads e t -> readsAs (consumed rs) (rs_outputs rs ++ t).

Lemma collected_good rs : collected rs -> good rs.
Proof. by intros Hc _. Qed.

#[export] Hint Resolve collected_good : agent.

Lemma consumed_next rs e : rs_stream rs !! rs_i rs = Some e ->
  consumed (setIndex (Datatypes.S (rs_i rs)) rs) = consumed rs ++ [e].
Proof. intros He. unfold consumed. simpl. by apply take_S_r. Qed.

Section quiet.
Context `{Host} {S : Type} `{Store S}.

(** [quiet pre m Q]: from a sink satisfying [pre], [m] only lets time pass, and its sink satisfies
    [Q a] on success and the invariant on failure. *)
Definition quiet {A} (stream : list Event) (pre : replaySink -> Prop) (m : M (ReplayState (S := S)) goerr A)
    (Q : A -> replaySink -> Prop) : Prop :=
  forall w rs w' rs' r, rs_stream rs = stream -> pre rs -> m (w, rs) = ((w', rs'), r) ->
    still w w' /\ rs_stream rs' = stream /\
    match r with Ok a => Q a rs' | Err _ => good rs' end.

Variable stream : list Event.

Lemma quiet_ret {A} (a : A) (pre : replaySink -> Prop) (Q : A -> replaySink -> Prop) :
  (forall rs, pre rs -> Q a rs) -> quiet stream pre (mret a) Q.
Proof. intros HQ w rs w' rs' r Hs Hp [= <- <- <-]. split; [apply still_refl|]. auto. Qed.

Lemma quiet_throw {A} e (pre : replaySink -> Prop) (Q : A -> replaySink -> Prop) :
  (forall rs, pre rs -> good rs) -> quiet stream pre (throw e) Q.
Proof. intros HQ w rs w' rs' r Hs Hp [= <- <- <-]. split; [apply still_refl|]. auto. Qed.

Lemma quiet_bind {A B} (m : M ReplayState goerr A) (f : A -> M ReplayState goerr B) pre Q1 Q :
  quiet stream pre m Q1 -> (forall a, quiet stream (Q1 a) (f a) Q) -> quiet stream pre (m ≫= f) Q.
Proof.
  intros Hm Hf w rs w' rs' r Hs Hp Hrun. unfold mbind, M_bind in Hrun.
  destruct (m (w, rs)) as [[w1 rs1] r1] eqn:E. destruct (Hm _ _ _ _ _ Hs Hp E) as (H1' & H2' & H3').
  destruct r1 as [a|e]; [|by injection Hrun as <- <- <-].
  destruct (Hf a _ _ _ _ _ H2' H3' Hrun) as (H4' & H5' & H6'). split; [by eapply still_trans|done].
Qed.

Lemma quiet_mono {A} (m : M ReplayState goerr A) (pre pre' : replaySink -> Prop) (Q Q' : A -> replaySink -> Prop) :
  quiet stream pre m Q -> (forall rs, pre' rs -> pre rs) -> (forall a rs, Q a rs -> Q' a rs) ->
  quiet stream pre' m Q'.
Proof.
  intros Hm Hpre HQ w rs w' rs' r Hs Hp Hrun. destruct (Hm _ _ _ _ _ Hs (Hpre _ Hp) Hrun) as (? & ? & Hr).
  split; [done|]. split; [done|]. destruct r; auto.
Qed.

Lemma quiet_get {A} (f : replaySink -> A) pre :
  quiet stream pre (getReplay f) (fun a rs => pre rs /\ a = f rs).
Proof. intros w rs w' rs' r Hs Hp [= <- <- <-]. split; [apply still_refl|]. auto. Qed.

Lemma quiet_mod f pre (Q : replaySink -> Prop) : (forall rs, pre rs -> rs_stream (f rs) = rs_stream rs /\ Q (f rs)) ->
  quiet stream pre (modReplay f) (fun _ => Q).
Proof.
  intros Hf w rs w' rs' r Hs Hp [= <- <- <-]. split; [apply still_refl|]. destruct (Hf rs Hp). split; congruence.
Qed.

Lemma quiet_check o (pre : replaySink -> Prop) : (forall rs, pre rs -> good rs) ->
  quiet stream pre (check o) (fun _ rs => pre rs /\ o = None).
Proof. intros Hg. destruct o; [by apply quiet_throw|]. by apply quiet_ret. Qed.

Lemma quiet_ctx (pre : replaySink -> Prop) : (forall rs, pre rs -> good rs) ->
  quiet stream pre (inWorld ctxCheck) (fun _ => pre).
Proof.
  intros Hg w rs w' rs' r Hs Hp Hrun. unfold inWorld, ctxCheck, tick, check, mbind, M_bind in Hrun. simpl in Hrun.
  destruct (ctxErr (w_tick w)); injection Hrun as <- <- <-; (split; [constructor; simpl; auto|]); auto.
Qed.

Lemma quiet_failWith {A} e (pre : replaySink -> Prop) (Q : A -> replaySink -> Prop) : quiet stream pre (failWith e) Q.
Proof. intros w rs w' rs' r Hs Hp [= <- <- <-]. split; [apply still_refl|]. done. Qed.

(** Consuming a record that is no OUTPUT owes nothing; consuming an OUTPUT owes its text. *)
Lemma quiet_nextOf k : quiet stream collected (replay_nextOf k) (fun o rs =>
  match o with
  | None => collected rs
  | Some e => Kind e = k /\ e ∈ stream /\
      if decide (k = EventOutput) then owes e rs else collected rs
  end).
Proof.
  intros w rs w' rs' r Hs [Hi Ho] Hrun. unfold replay_nextOf, getReplay, modReplay, gets, modify, mbind, M_bind in Hrun.
  cbn [fst snd] in Hrun. unfold nextOf in Hrun. destruct (rs_stream rs !! rs_i rs) as [e|] eqn:He;
    [|injection Hrun as <- <- <-; split; [apply still_refl|]; by split].
  case_bool_decide as Hk; injection Hrun as <- <- <-; (split; [apply still_refl|]); (split; [done|]); [|by split].
  pose proof (lookup_lt_Some _ _ _ He) as Hlt. pose proof (consumed_next _ _ He) as Hc.
  assert (e ∈ stream) as Hin by (rewrite <- Hs; by eapply list_elem_of_lookup_2).
  split; [done|]. split; [done|]. case_decide as Hout; (split; [simpl; lia|]).
  - intros t Ht. rewrite Hc. apply readsAs_app; [done|]. by apply readsAs_one.
  - rewrite Hc, <- (app_nil_r (rs_outputs _)). apply readsAs_app; [done|]. apply readsAs_one. unfold reads.
    by rewrite bool_decide_eq_false_2 by congruence.
Qed.

Lemma quiet_addOutput e t : reads e [t] -> quiet stream (owes e) (modReplay (addOutput t)) (fun _ => collected).
Proof. intros Ht. apply quiet_mod. intros rs [Hi Ho]. split; [done|]. split; [done|]. by apply Ho. Qed.

(** The index moves of the approval prefix skip no OUTPUT. *)
Lemma collected_setIndex rs j es : collected rs -> (rs_i rs <= j)%nat ->
  take j (rs_stream rs) = consumed rs ++ es -> readsAs es [] -> (j <= length (rs_stream rs))%nat ->
  collected (setIndex j rs).
Proof.
  intros [Hi Ho] Hj Ht He Hlen. split; [done|]. unfold consumed at 1. simpl. rewrite Ht, <- (app_nil_r (rs_outputs rs)).
  by apply readsAs_app.
Qed.
(** *** The effects *)

Abbreviation quietly op := (quiet stream collected op (fun _ => collected)).

Lemma quiet_guard {A} (op : M ReplayState goerr A) : quietly op ->
  quiet stream good (replayGuard op) (fun _ => good).
Proof.
  intros Hop. unfold replayGuard. eapply quiet_bind; [apply quiet_get|]. intros g.
  eapply quiet_bind; [apply quiet_check; by intros rs [? _]|]. intros [].
  eapply quiet_bind; [apply quiet_get|]. intros f.
  eapply quiet_bind; [apply quiet_check; by intros rs [[[? _] _] _]|]. intros [].
  eapply quiet_bind; [apply quiet_ctx; by intros rs [[[[? _] _] _] _]|]. intros [].
  eapply quiet_mono; [exact Hop| |by auto with agent].
  intros rs [[[[Hg _] _] Hfe] Hf]. apply Hg. congruence.
Qed.

Lemma quiet_diverged {A} t (pre : replaySink -> Prop) (Q : A -> replaySink -> Prop) :
  quiet stream pre (replay_diverged t) Q.
Proof. apply quiet_failWith. Qed.

(** After consuming a record of a kind that is no OUTPUT. *)
Lemma quiet_nextOther k : k <> EventOutput -> quietly (replay_nextOf k).
Proof.
  intros Hk. eapply quiet_mono; [apply quiet_nextOf|done|]. intros [e|] rs; [|done].
  by rewrite decide_False by done; intros (_ & _ & ?).
Qed.

Lemma quiet_model req : quietly (replay_model req).
Proof.
  unfold replay_model. eapply quiet_bind; [by apply quiet_nextOther|]. intros [mc|]; [|apply quiet_diverged].
  destruct (match ev_ModelCall mc with Some m => _ | None => _ end); [apply quiet_diverged|].
  eapply quiet_bind; [apply quiet_nextOf|]. intros [out|]; [|apply quiet_throw; auto with agent].
  eapply (quiet_bind _ _ _ (fun _ => collected)).
  - destruct (ev_Message out) as [m|] eqn:Hm.
    + intros w rs w' rs' r Hs (Hk & Hin & Ho). rewrite decide_True in Ho by done.
      apply (quiet_addOutput out); [|done|done]. unfold reads. by rewrite Hk, bool_decide_eq_true_2, Hm.
    + intros w rs w' rs' r Hs (Hk & Hin & Ho) Hrun. injection Hrun as <- <- <-.
      split; [apply still_refl|]. split; [done|]. rewrite decide_True in Ho by done. split; [apply Ho|].
      rewrite <- (app_nil_r (rs_outputs rs)). apply Ho. unfold reads. rewrite Hk, bool_decide_eq_true_2, Hm by done. by left.
  - intros []. eapply quiet_bind; [apply quiet_get|]. intros legacy.
    eapply quiet_bind; [apply quiet_get|]. intros st. eapply quiet_bind; [apply quiet_get|]. intros i.
    apply quiet_ret. by intros rs [[[? _] _] _].
Qed.

Lemma quiet_output d : quietly (replay_output d).
Proof.
  unfold replay_output. eapply quiet_bind; [apply quiet_nextOf|]. intros [ev|]; [|apply quiet_diverged].
  destruct (negb _) eqn:Hd; [apply quiet_diverged|]. dec_bool.
  intros w rs w' rs' r Hs (Hk & Hin & Ho). rewrite decide_True in Ho by done.
  apply (quiet_addOutput ev); [|done|done]. unfold reads. rewrite Hk, bool_decide_eq_true_2 by done.
  destruct (ev_Message ev); rewrite Hd; [done|by right].
Qed.

Lemma quiet_usage u : quietly (replay_usage u).
Proof.
  unfold replay_usage. eapply quiet_bind; [apply quiet_get|]. intros legacy.
  destruct legacy; [apply quiet_ret; by intros rs [? _]|].
  eapply (quiet_mono _ collected _ (fun _ => collected)); [|by intros rs [? _]|done].
  eapply quiet_bind; [by apply quiet_nextOther|]. intros [ev|]; [|apply quiet_diverged].
  destruct (ev_Usage ev) as [v|]; [|apply quiet_diverged].
  destruct (decide (v = u)); [by apply quiet_ret|apply quiet_diverged].
Qed.

Lemma quiet_report tr : quietly (replay_report tr).
Proof.
  unfold replay_report. eapply quiet_bind; [apply quiet_get|]. intros calls.
  destruct (default false _); [apply quiet_failWith|].
  eapply quiet_bind; [apply quiet_check; intros rs [? _]; auto with agent|]. intros [].
  eapply quiet_bind; [apply quiet_get|]. intros i. eapply quiet_bind; [apply quiet_get|]. intros st.
  destruct (receiptAt st i); [apply quiet_failWith|].
  eapply (quiet_bind _ _ _ (fun _ => collected)).
  - eapply quiet_mono; [by apply (quiet_nextOther EventToolResult)|by intros rs [[[[? _] _] _] _]|done].
  - intros [ev|]; [by apply quiet_ret|apply quiet_diverged].
Qed.

(** The approval prefix moves over a request and a decision only. *)
Lemma consumeApprovalPrefix_collected rs state j e : collected rs ->
  consumeApprovalPrefix (rs_stream rs) (rs_i rs) state = (j, e) -> collected (setIndex j rs).
Proof.
  intros Hc. unfold consumeApprovalPrefix.
  assert (Hsame : collected (setIndex (rs_i rs) rs)) by (by destruct rs).
  destruct state as [s|]; [|by intros [= <- _]].
  destruct (isNil _ || isNil _); [by intros [= <- _]|]. unfold nextOf.
  destruct (rs_stream rs !! rs_i rs) as [e1|] eqn:H1'; [|by intros [= <- _]].
  case_bool_decide as Hk1; [|by intros [= <- _]].
  assert (Hstep1 : collected (setIndex (Datatypes.S (rs_i rs)) rs)).
  { eapply (collected_setIndex _ _ [e1]); [done|lia|by apply take_S_r| |by eapply lookup_lt_Some].
    apply readsAs_one. unfold reads. by rewrite Hk1. }
  destruct (rs_stream rs !! Datatypes.S (rs_i rs)) as [e2|] eqn:H2'; [|by intros [= <- _]].
  case_bool_decide as Hk2; [|by intros [= <- _]]. intros [= <- _].
  eapply (collected_setIndex _ _ [e1; e2]); [done|lia| | |by eapply lookup_lt_Some].
  - rewrite (take_S_r _ _ _ H2'), (take_S_r _ _ _ H1'), <- app_assoc. done.
  - apply (readsAs_app [e1] [e2] [] []); apply readsAs_one; unfold reads; [by rewrite Hk1|by rewrite Hk2].
Qed.

Lemma quiet_toolCall tc : quietly (replay_toolCall tc).
Proof.
  unfold replay_toolCall. eapply quiet_bind; [apply quiet_get|]. intros i.
  eapply quiet_bind; [apply quiet_get|]. intros st.
  destruct (keylessRejected st i tc); [apply quiet_throw; intros rs [[? _] _]; auto with agent|].
  eapply quiet_bind; [apply quiet_check; intros rs [[? _] _]; auto with agent|]. intros [].
  eapply (quiet_bind _ _ _ (fun _ rs => collected rs /\ rs_stream rs = st)).
  { intros w rs w' rs' r Hs [[[Hc Hi] Hst] _] Hrun.
    destruct (quiet_nextOther EventToolCall ltac:(done) _ _ _ _ _ Hs Hc Hrun) as (? & Hs' & ?).
    split; [done|]. split; [done|]. destruct r; [|done]. split; [done|congruence]. }
  intros [ev|]; [|eapply quiet_bind; [apply quiet_check; intros rs [? _]; auto with agent|]; intros []; apply quiet_failWith].
  destruct (matchToolCall tc (ev_ToolCall ev)) as [e|]; [apply quiet_failWith|].
  destruct (ev_ToolCall ev) as [rc|]; [|apply quiet_throw; intros rs [? _]; auto with agent].
  eapply quiet_bind; [apply quiet_get|]. intros approvals.
  eapply (quiet_bind _ _ _ (fun _ => collected)).
  - case_bool_decide as Hg; [|apply quiet_ret; by intros rs [[? _] _]].
    eapply (quiet_bind _ _ _ (fun _ rs => collected rs /\ rs_stream rs = st)).
    { apply quiet_mod. intros rs [[? ?] _]. split; [done|]. by split. }
    intros []. eapply quiet_bind; [apply quiet_get|]. intros j0.
    destruct (consumeApprovalPrefix st j0 _) as [j e] eqn:Hcp.
    eapply (quiet_bind _ _ _ (fun _ => collected)).
    + apply quiet_mod. intros rs [[Hc Hst] ->]. split; [done|]. subst st.
      by eapply consumeApprovalPrefix_collected.
    + intros []. destruct e; [apply quiet_failWith|]. by apply quiet_ret.
  - intros []. eapply quiet_bind; [by apply (quiet_nextOther EventToolResult)|].
    intros [tr|]; [|apply quiet_throw; auto with agent].
    destruct (match _ with Some _ => _ | None => _ end); [by apply quiet_ret|apply quiet_failWith].
Qed.

(** Any harness program on a replay sink. *)
Lemma quiet_run p : forall (w : World S) rs w' rs' r, rs_stream rs = stream -> good rs ->
  runReplayProg p (w, rs) = ((w', rs'), r) -> still w w' /\ rs_stream rs' = stream /\ good rs'.
Proof.
  assert (Hop : forall A (op : M ReplayState goerr A) (w : World S) rs w1 rs1 r1, quietly op -> rs_stream rs = stream -> good rs ->
    replayGuard op (w, rs) = ((w1, rs1), r1) -> still w w1 /\ rs_stream rs1 = stream /\ good rs1).
  { intros A op w rs w1 rs1 r1 Hq Hs Hg Hrun.
    destruct (quiet_guard _ Hq _ _ _ _ _ Hs Hg Hrun) as (? & ? & Hr). split; [done|]. split; [done|]. by destruct r1. }
  assert (Hgo : forall A (op : M ReplayState goerr A) (k : res A -> Prog), quietly op ->
    (forall r (w : World S) rs w' rs' r', rs_stream rs = stream -> good rs ->
       runReplayProg (k r) (w, rs) = ((w', rs'), r') -> still w w' /\ rs_stream rs' = stream /\ good rs') ->
    forall (w : World S) rs w' rs' r', rs_stream rs = stream -> good rs ->
      (let '(st', r) := replayGuard op (w, rs) in runReplayProg (k r) st') = ((w', rs'), r') ->
      still w w' /\ rs_stream rs' = stream /\ good rs').
  { intros A op k Hq IH w rs w' rs' r' Hs Hg Hrun.
    destruct (replayGuard op (w, rs)) as [[w1 rs1] r1] eqn:E.
    destruct (Hop _ _ _ _ _ _ _ Hq Hs Hg E) as (? & ? & ?).
    destruct (IH _ _ _ _ _ _ ltac:(eassumption) ltac:(eassumption) Hrun) as (? & ? & ?).
    split; [by eapply still_trans|done]. }
  induction p as [e|req k IH|d k IH|tc k IH|tr k IH|u k IH]; intros w rs w' rs' r Hs Hg Hrun.
  - injection Hrun as <- <- <-. split; [apply still_refl|done].
  - eapply (Hgo _ _ k (quiet_model req)); eauto.
  - eapply (Hgo _ _ (fun r => k (err_of r)) (quiet_output d)); eauto.
  - eapply (Hgo _ _ k (quiet_toolCall tc)); eauto.
  - eapply (Hgo _ _ (fun r => k (err_of r)) (quiet_report tr)); eauto.
  - eapply (Hgo _ _ (fun r => k (err_of r)) (quiet_usage u)); eauto.
Qed.
End quiet.

(** ** Replay *)

(** The recorded outputs of a list of executions. *)
Definition completedOutputs (xs : list recordedExecution) : list string :=
  concat (map (fun x => recordedOutputs (x_stream x)) xs).
Lemma completedOutputs_read xs out : Forall (fun x => outputs_present (x_stream x)) xs ->
  readsAs (concat (map x_stream xs)) out -> out = completedOutputs xs.
Proof.
  intros Hp Hr. assert (outputs_present (concat (map x_stream xs))) as Hall.
  { clear Hr. induction Hp as [|x xs Hx _ IH]; [constructor|]. by apply Forall_app_2. }
  apply readsAs_recorded in Hr as ->; [|done]. clear. induction xs as [|x xs IH]; [done|].
  unfold completedOutputs, recordedOutputs in *. simpl. by rewrite omap_app, IH.
Qed.

(** Journal, fence, live calls and observer are as before, and nothing was asked of model or tool. *)
Definition untouched {S} `{StoreView S} (w w' : World S) : Prop :=
  journal (w_log w') = journal (w_log w) /\ curFence (w_log w') = curFence (w_log w) /\
  liveModelCalls w' = liveModelCalls w /\ liveToolCalls w' = liveToolCalls w /\
  w_updates w' = w_updates w /\ w_asked w' = w_asked w.

Section Replay.
Context `{Host} `{Encoding} {S : Type} `{StoreLaws S}.
Variables (c : Controller) (har : Harness).

Lemma runReplay_safe before (sink : replaySink) start (w w' : World S) r :
  collected sink -> rs_i sink = 0%nat -> runReplay har before sink start w = (w', r) ->
  still w w' /\ forall out, r = Ok out -> readsAs (rs_stream sink) out.
Proof.
  intros Hc Hi Hrun. unfold runReplay in Hrun.
  destruct (runProg (H := replayEventSink) (Run har start) (w, sink)) as [[w1 rs1] runErr] eqn:E.
  destruct (quiet_run (rs_stream sink) _ _ _ _ _ _ eq_refl (collected_good _ Hc) E) as (Hst & Hs & Hg).
  destruct (rs_failure rs1) eqn:Hf; [by injection Hrun as <- <-|].
  destruct runErr; [by injection Hrun as <- <-|].
  destruct (negb _); [by injection Hrun as <- <-|].
  destruct (Nat.eqb_spec (rs_i rs1) (length (rs_stream rs1))) as [Hlen|]; [|by injection Hrun as <- <-].
  injection Hrun as <- <-. split; [done|]. intros out [= <-].
  destruct (Hg Hf) as [_ Ho]. unfold consumed in Ho. rewrite Hlen, Hs, firstn_all in Ho. exact Ho.
Qed.

Lemma replayAll_safe before recs scan xs : forall (w w' : World S) r,
  replayAll c har before recs scan xs w = (w', r) ->
  still w w' /\ forall out, r = Ok out -> readsAs (concat (map x_stream xs)) out.
Proof.
  induction xs as [|x xs IH]; intros w w' r Hrun.
  { injection Hrun as <- <-. split; [apply still_refl|]. intros out [= <-]. exact readsAs_nil. }
  cbn [replayAll] in Hrun. unfold replayOne in Hrun. unfold mbind, M_bind, lift in Hrun.
  destruct (replayIdentity c recs x) as [[i h]|e]; [|injection Hrun as <- <-; by split; [apply still_refl|]].
  unfold mbind, M_bind in Hrun. cbn [fst snd] in Hrun.
  match type of Hrun with context [runReplay har before ?s ?st w] =>
    destruct (runReplay har before s st w) as [w1 r1] eqn:E end.
  apply runReplay_safe in E as [Hst Ho]; [|split; [simpl; lia|exact readsAs_nil]|done].
  destruct r1 as [out1|e]; [|by injection Hrun as <- <-].
  destruct (replayAll c har before recs scan xs w1) as [w2 r2] eqn:E2.
  destruct (IH _ _ _ E2) as [Hst2 Ho2]. destruct r2 as [out2|e]; injection Hrun as <- <-;
    (split; [by eapply still_trans|]); [|done].
  intros out [= <-]. apply readsAs_app; [by apply Ho|by apply Ho2].
Qed.

Lemma checkHarness_still xs (w w' : World S) r : checkHarness c har xs w = (w', r) -> still w w'.
Proof.
  unfold checkHarness. destruct (negb (needsDescription xs)); [intros [= <- <-]; apply still_refl|].
  unfold mbind, M_bind, describeHarness, tick. unfold mbind at 1, M_bind at 1.
  destruct (Describe har (w_tick w)) as [d|e]; [|intros [= <- <-]; by constructor; simpl; auto].
  cbn. destruct (firstMismatch c d xs); intros [= <- <-]; by constructor; simpl; auto.
Qed.

Lemma Replay_safe (w w' : World S) r : Replay c har w = (w', r) ->
  untouched w w' /\
  forall out, r = Ok out -> exists xs,
    recordedExecutions (rec_Event <$> readFrom 1 (journal (w_log w))) = Ok xs /\
    readsAs (concat (map x_stream (replaySelected xs))) out.
Proof.
  unfold untouched, Replay, onLog. unfold mbind, M_bind, lift, gets. intros Hrun.
  destruct (st_Read 1 (w_log w)) as [l1 [recs|e]] eqn:Hr; apply read_law in Hr as (Hj & Hfe & Hrecs);
    [|by injection Hrun as <- <-]. subst recs.
  destruct (recordedExecutions _) as [xs|e]; [|by injection Hrun as <- <-].
  destruct (scanApprovalRecords _ 0) as [scan|e]; [|by injection Hrun as <- <-].
  match type of Hrun with context [checkHarness c har ?xs ?w1] => destruct (checkHarness c har xs w1) as [w2 r2] eqn:Hck end.
  apply checkHarness_still in Hck as [L1 _ M1 T1 O1 A1]. simpl in *.
  destruct r2 as [d|e]; [|injection Hrun as <- <-; split; [rewrite L1; by repeat split|done]].
  apply replayAll_safe in Hrun as [[L2 _ M2 T2 O2 A2] Ho].
  split; [rewrite L2, L1, M2, T2, O2, A2; by repeat split|]. intros out ->. exists xs. split; [done|]. auto.
Qed.
End Replay.

(** ** Properties *)

(** Replay is read-only for every harness and every journal, whatever its outcome: it commits
    nothing, takes no fence, invokes neither model nor tool, and tells the observer nothing (I1). *)
Theorem Replay_read_only `{Host} `{Encoding} {S : Type} `{StoreLaws S} (c : Controller) (har : Harness)
    (w w' : World S) r :
  Replay c har w = (w', r) ->
  untouched w w'.
Proof. by intros [? _]%Replay_safe. Qed.

(** C9: Replay is identical or an error (I0), for every harness, deterministic or not, and every journal,
    gated and legacy executions included: the outputs it returns are the texts of the OUTPUT records of the
    executions it selects, in order, one for each record that has its message. A record without one, which
    the controller never writes, reads as the empty text or as nothing; when every record has its message,
    they are exactly the recorded outputs. And nothing was touched: no record committed, nothing asked of
    model or tool, nothing told to the observer. *)
Theorem Replay_identity_or_error `{Host} `{Encoding} {S : Type} `{StoreLaws S} (c : Controller) (har : Harness)
    (w w' : World S) out :
  Replay c har w = (w', Ok out) ->
  exists xs, recordedExecutions (rec_Event <$> readFrom 1 (journal (w_log w))) = Ok xs /\
    readsAs (concat (map x_stream (replaySelected xs))) out /\
    (Forall (fun x => outputs_present (x_stream x)) (replaySelected xs) -> out = completedOutputs (replaySelected xs)) /\
    untouched w w'.
Proof.
  intros [Hu Ho]%Replay_safe. destruct (Ho _ eq_refl) as (xs & Hxs & Hr). exists xs. split; [done|]. split; [done|].
  split; [|done]. intros Hp. by apply completedOutputs_read.
Qed.

(** *** Witnesses *)

Lemma Replay_read_only_witness : untouched echoWorld (fst echoReplay).
Proof.
  apply (Replay_read_only (H := exampleHost) (H0 := exampleEncoding) (H1 := @Log_Store exampleEncoding)
    (H3 := @Log_StoreLaws exampleEncoding) echoController echoHarness echoWorld (fst echoReplay) (snd echoReplay)).
  unfold echoReplay. apply surjective_pairing.
Defined.

Lemma Replay_identity_or_error_witness :
  exists xs, recordedExecutions (rec_Event <$> readFrom 1 (journal (w_log echoWorld))) = Ok xs /\
    readsAs (concat (map x_stream (replaySelected xs))) ["echo:hi"%string] /\
    (Forall (fun x => outputs_present (x_stream x)) (replaySelected xs) ->
     ["echo:hi"%string] = completedOutputs (replaySelected xs)) /\
    untouched echoWorld (fst echoReplay).
Proof.
  apply (Replay_identity_or_error (H := exampleHost) (H0 := exampleEncoding) (H1 := @Log_Store exampleEncoding)
    (H3 := @Log_StoreLaws exampleEncoding) echoController echoHarness echoWorld (fst echoReplay)).
  vm_compute. reflexivity.
Defined.
