(* ===== verification/Turns.v ===== *)
(** * One turn (controller/controller.go, controller/executions.go)

    What [Exec] leaves in the journal, and how the projection of executions takes up the events of
    one more turn, or more events of the last one. *)
From S2P Require Import Prelude GoErrors Api Canon EventLog Executions Approvals Harness Sinks Controller LiveSpec Simulation ReplaySafety.

(** ** The events of one turn *)

(** The marker of a turn, as read back. *)
Definition isStart (id : string) (st : ExecutionStart) (e : Event) : Prop :=
  ExecutionID e = id /\ Kind e = EventExecutionStart /\ ev_ExecutionStart e = Some st.
Definition isInputOf (id : string) (m : Message) (e : Event) : Prop :=
  ExecutionID e = id /\ Kind e = EventInput /\ ev_Message e = Some m.
Definition isTail (id : string) (k : EventKind) (e : Event) : Prop := ExecutionID e = id /\ Kind e = k.

(** What follows the marker of a turn: some inputs; or all inputs and the effects; then possibly an
    ERROR, or the END. *)
Inductive turn_rest (id : string) (inputs : list Message) : list Event -> Prop :=
  | turn_inputs ms ins : ms `prefix_of` inputs -> Forall2 (isInputOf id) ms ins -> turn_rest id inputs ins
  | turn_effects ins effs : Forall2 (isInputOf id) inputs ins -> Forall (effect_of id) effs ->
      turn_rest id inputs (ins ++ effs)
  | turn_error ins effs e : Forall2 (isInputOf id) inputs ins -> Forall (effect_of id) effs ->
      isTail id EventError e -> turn_rest id inputs (ins ++ effs ++ [e])
  | turn_end ins effs e : Forall2 (isInputOf id) inputs ins -> Forall (effect_of id) effs ->
      isTail id EventEnd e -> turn_rest id inputs (ins ++ effs ++ [e]).

Lemma inputs_no_end id ms ins : Forall2 (isInputOf id) ms ins ->
  inputMessages ins = ms /\ filter (fun e => modernEffect (Kind e) = true) ins = [] /\
  length (filter (fun e => isInput e = true) ins) = length ms /\
  existsb (fun e => bool_decide (Kind e = EventEnd)) ins = false.
Proof.
  induction 1 as [|m e ms ins (_ & Hk & Hm) _ (IH1 & IH2 & IH3 & IH4)]; [done|].
  assert (isInput e = true) as Hi by (unfold isInput; by apply bool_decide_eq_true).
  unfold inputMessages in *. rewrite !(filter_cons_True (fun e => isInput e = true)) by done.
  rewrite filter_cons_False by (by rewrite Hk).
  split; [simpl; rewrite Hm; by f_equal|]. split; [done|]. split; [simpl; by rewrite IH3|].
  simpl. by rewrite Hk, IH4.
Qed.

Lemma effects_no_end id effs : Forall (effect_of id) effs ->
  inputMessages effs = [] /\ filter (fun e => modernEffect (Kind e) = true) effs = effs /\
  length (filter (fun e => isInput e = true) effs) = 0%nat /\
  existsb (fun e => bool_decide (Kind e = EventEnd)) effs = false.
Proof.
  induction 1 as [|e effs (_ & Hm & _) _ (IH1 & IH2 & IH3 & IH4)]; [done|].
  assert (isInput e = false) as Hi
    by (unfold isInput; apply bool_decide_eq_false; intros Hk; by rewrite Hk in Hm).
  unfold inputMessages in *. rewrite !(filter_cons_False (fun e => isInput e = true)) by (by rewrite Hi).
  rewrite filter_cons_True by done. simpl. rewrite IH1, IH2, IH3, IH4. repeat split; try done.
  apply orb_false_iff. split; [|done]. apply bool_decide_eq_false. intros Hk. by rewrite Hk in Hm.
Qed.

(** The effects of a finished stretch of a turn. *)
Lemma effects_filter id ms ins effs tl : Forall2 (isInputOf id) ms ins -> Forall (effect_of id) effs ->
  Forall (fun e => modernEffect (Kind e) = false) tl ->
  filter (fun e => modernEffect (Kind e) = true) (ins ++ effs ++ tl) = effs.
Proof.
  intros Hi He Ht. destruct (inputs_no_end _ _ _ Hi) as (_ & I & _). destruct (effects_no_end _ _ He) as (_ & E & _).
  rewrite !list.filter_app, I, E.
  assert (filter (fun e => modernEffect (Kind e) = true) tl = []) as ->; [|by rewrite app_nil_r]. clear - Ht.
  induction Ht as [|e tl He _ IH]; [done|]. by rewrite filter_cons_False by by rewrite He.
Qed.

Section exec.
Context `{Host} `{Encoding} {S : Type} `{StoreLaws S} `{!FaithfulStore S}.
Variables (c : Controller) (har : Harness).

(** A raw append of the controller. *)
Lemma raw_append_run exp f ev (w w' : World S) r : onLog (st_Append exp f ev) w = (w', r) ->
  match r with
  | Ok rec => appended (w_log w) (w_log w') [persisted ev]
  | Err _ => journal (w_log w') = journal (w_log w)
  end.
Proof.
  unfold onLog. destruct (st_Append exp f ev (w_log w)) as [l [rec|e]] eqn:Ha; intros [= <- <-];
    apply append_law in Ha as [_ Ha]; simpl; [|done].
  destruct Ha as (_ & _ & Hs & _ & _ & _ & Hj). eexists. split; [exact Hj|]. split; [done|]. by split.
Qed.

Lemma appendInputs_run id inputs : forall last (w w' : World S) r,
  appendInputs c id last inputs w = (w', r) -> exists ms ins,
    ms `prefix_of` inputs /\ Forall2 (isInputOf id) ms ins /\ appended (w_log w) (w_log w') ins /\
    (is_ok r = true -> ms = inputs).
Proof.
  induction inputs as [|m inputs IH]; intros last w w' r Hrun.
  { injection Hrun as <- <-. exists [], []. split; [done|]. split; [constructor|]. auto with agent. }
  cbn [appendInputs] in Hrun. unfold mbind, M_bind in Hrun.
  destruct (onLog _ w) as [w1 [rec|e]] eqn:Ha; apply raw_append_run in Ha.
  2: { injection Hrun as <- <-. exists [], []. split; [apply prefix_nil|]. split; [constructor|].
       split; [by apply appended_same|done]. }
  destruct (observe c rec w1) as [w2 x] eqn:Ho. apply observe_same in Ho as [Hw2 ->].
  destruct (IH _ _ _ _ Hrun) as (ms & ins & Hpre & Hins & Happ & Hok). rewrite Hw2 in Happ.
  exists (m :: ms), (persisted (setExecutionID id (evMessage EventInput m)) :: ins).
  split; [by apply prefix_cons|]. split; [|split].
  - constructor; [|done]. faith (setExecutionID id (evMessage EventInput m)). done.
  - by eapply (appended_trans _ _ _ [_]).
  - intros Hr. f_equal. auto.
Qed.

(** The fields of the marker. *)
Lemma startMarker_shape id desc inputs : isStart id
  (mkExecutionStart (startConfig c) (startResumeFromSeq c) (Some (Z.of_nat (length inputs)))
     (resolvedHarnessName c desc) (desc_Version desc)) (persisted (startMarker c id desc inputs)).
Proof. unfold startMarker. faith (setExecutionID id (evExecutionStart (mkExecutionStart (startConfig c)
  (startResumeFromSeq c) (Some (Z.of_nat (length inputs))) (resolvedHarnessName c desc) (desc_Version desc)))).
  done.
Qed.

(** What a turn's completed run gives for replay. *)
Definition replays (start : Start) (effs : list Event) : Prop :=
  forall rs (wr : World S), ready rs effs -> noCancel (w_tick wr) -> exists wr',
    runReplayProg (Run har start) (wr, rs) = ((wr', advance (length effs) (outputsOf effs) rs), None) /\
    still wr wr'.

(** The harness's part of [Exec]. *)
Lemma runLive_run id desc start (w w' : World S) r : replayable (Run har start) ->
  runLive c har id desc start w = (w', r) -> exists runErr effs,
    r = Ok (None, runErr) /\ appended (w_log w) (w_log w') effs /\ Forall (effect_of id) effs /\
    (runErr = None -> replays start effs) /\ trace (Run har start) effs.
Proof.
  intros Hrep. unfold runLive.
  destruct (runProg (H := liveEventSink c har) (Run har start) (w, newLiveSink id false (Some desc))) as [[w1 sink] runErr] eqn:E.
  intros [= <- <-].
  destruct (replayable_simulates c har id _ Hrep w (newLiveSink id false (Some desc)) w1 sink runErr)
    as ((_ & _ & Hg & _) & effs & [Ha He _ Hs]).
  { split; [done|]. split; [done|]. split; [done|]. intros k. simpl. by rewrite lookup_empty. }
  { exact E. }
  destruct (replayable_traces c har id _ Hrep w (newLiveSink id false (Some desc)) w1 sink runErr) as (_ & effs' & Ha' & Ht);
    [|exact E|].
  { split; [done|]. split; [done|]. split; [done|]. intros k. simpl. by rewrite lookup_empty. }
  rewrite (appended_inj _ _ _ _ Ha' Ha) in Ht.
  exists runErr, effs. rewrite Hg. split; [done|]. split; [done|]. split; [done|]. by split.
Qed.

(** The terminal record of a turn. *)
Lemma finishExec_run id runErr (w w' : World S) r : finishExec c id None runErr w = (w', r) ->
  appended (w_log w) (w_log w') [] \/
  exists e, appended (w_log w) (w_log w') [e] /\
    isTail id (match runErr with Some _ => EventError | None => EventEnd end) e.
Proof.
  unfold finishExec, mbind, M_bind, try, throw. intros Hrun.
  destruct runErr as [re|].
  - destruct (appendSeq c id _ w) as [w1 r1] eqn:Ha. apply appendSeq_run in Ha. injection Hrun as <- <-.
    destruct r1 as [rec|e]; [right|left; by apply appended_same]. destruct Ha as [_ Ha].
    eexists. split; [exact Ha|]. faith (setExecutionID id (evError (mkError 0 (errText re)))). done.
  - destruct (appendSeq c id _ w) as [w1 r1] eqn:Ha. apply appendSeq_run in Ha.
    destruct r1 as [rec|e]; injection Hrun as <- <-; [right|left; by apply appended_same].
    destruct Ha as [_ Ha]. eexists. split; [exact Ha|].
    faith (setExecutionID id (evEnd (mkHarnessEnd "COMPLETED" None))). done.
Qed.

(** The part of [Exec] after its marker: inputs, harness, terminal record. *)
Definition turnBody (id : string) (desc : Descriptor) (last : Z) (inputs : list Message) (start : Start)
    : M (World S) goerr unit :=
  do! appendInputs c id last inputs in
  let! r := runLive c har id desc start in
  finishExec c id (fst r) (snd r).

Lemma turnBody_run id desc last inputs start (w w' : World S) r :
  replayable (Run har start) -> turnBody id desc last inputs start w = (w', r) -> exists rest,
    appended (w_log w) (w_log w') rest /\ turn_rest id inputs rest /\
    trace (Run har start) (filter (fun e => modernEffect (Kind e) = true) rest) /\
    forall ins effs e, rest = ins ++ effs ++ [e] -> Forall2 (isInputOf id) inputs ins -> Kind e = EventEnd ->
      replays start effs.
Proof.
  intros Hrep. unfold turnBody, mbind, M_bind. intros Hrun.
  destruct (appendInputs c id last inputs w) as [w1 r1] eqn:Ei.
  destruct (appendInputs_run _ _ _ _ _ _ Ei) as (ms & ins & Hpre & Hins & Ha1 & Hok).
  assert (Hkinds : forall e, e ∈ ins -> Kind e = EventInput).
  { intros e He. apply list_elem_of_lookup in He as [k Hk].
    by destruct (Forall2_lookup_r _ _ _ _ _ Hins Hk) as (m & _ & _ & ? & _). }
  destruct r1 as [[]|e1].
  2: { injection Hrun as <- <-. exists ins. split; [done|]. split; [by eapply turn_inputs|].
       split; [destruct (inputs_no_end _ _ _ Hins) as (_ & -> & _); apply tr_cut|]. intros ins' effs e -> _ Hk. rewrite (Hkinds e) in Hk; [done|].
       rewrite !elem_of_app, list_elem_of_singleton. auto. }
  rewrite (Hok eq_refl) in Hins. clear Hok Hpre ms.
  destruct (runLive c har id desc start w1) as [w2 r2] eqn:El.
  destruct (runLive_run _ _ _ _ _ _ Hrep El) as (runErr & effs & -> & Ha2 & He2 & Hs & Htr).
  assert (Hek : forall e, e ∈ effs -> Kind e <> EventEnd).
  { intros e He. rewrite list.Forall_forall in He2. destruct (He2 e He) as (_ & Hm & _ & _). by intros Hk; rewrite Hk in Hm. }
  assert (Hend : forall ins' effs' e tl, ins ++ effs ++ tl = ins' ++ effs' ++ [e] ->
    (length tl <= 1)%nat -> Forall2 (isInputOf id) inputs ins' -> Kind e = EventEnd -> tl = [e] /\ effs' = effs).
  { intros ins' effs' e tl Heq Htl Hf Hk.
    assert (length ins = length ins') as Hlen
      by (apply Forall2_length in Hins; apply Forall2_length in Hf; congruence).
    apply app_inj_1 in Heq as [-> Heq]; [|done]. destruct tl as [|t tl _] using rev_ind.
    - rewrite app_nil_r in Heq. destruct (Hek e); [|done]. rewrite Heq.
      rewrite elem_of_app, list_elem_of_singleton. auto.
    - rewrite length_app in Htl. destruct tl; [|simpl in Htl; lia].
      by apply app_inj_tail in Heq as [-> ->]. }
  destruct (finishExec_run _ _ _ _ _ Hrun) as [Ha3|(e & Ha3 & He3)].
  - exists (ins ++ effs). split; [|split; [|split]].
    + rewrite <- (app_nil_r (ins ++ effs)). by eapply appended_trans; [eapply appended_trans|].
    + by apply turn_effects.
    + rewrite <- (app_nil_r effs), (effects_filter id inputs) by (done || constructor). done.
    + intros ins' effs' e Heq Hf Hk. rewrite <- (app_nil_r effs) in Heq.
      destruct (Hend _ _ _ [] Heq) as [? _]; [simpl; lia|done..].
  - exists (ins ++ effs ++ [e]). split; [|split; [|split]].
    + eapply appended_trans; [exact Ha1|]. by eapply appended_trans.
    + destruct runErr; [by eapply turn_error|by eapply turn_end].
    + rewrite (effects_filter id inputs); [done..|]. constructor; [|done]. destruct He3 as [_ ->]. by destruct runErr.
    + intros ins' effs' e' Heq Hf Hk. destruct (Hend _ _ _ _ Heq) as [[= <-] ->]; [simpl; lia|done..|].
      destruct runErr; [destruct He3 as [_ He3]; by rewrite Hk in He3|by apply Hs].
Qed.
(** What [Exec] leaves in the journal: nothing, or its marker and a turn that replays if it ended. *)
Lemma Exec_run inputs exp (w w' : World S) r :
  (forall start, replayable (Run har start)) -> contiguous 0 (journal (w_log w)) ->
  Exec c har inputs exp w = (w', r) ->
  appended (w_log w) (w_log w') [] \/
  exists t desc e0 rest, let id := newIDText (w_tick w) in
    Describe har t = Ok desc /\
    isStart id (mkExecutionStart (startConfig c) (startResumeFromSeq c) (Some (Z.of_nat (length inputs)))
      (resolvedHarnessName c desc) (desc_Version desc)) e0 /\
    appended (w_log w) (w_log w') (e0 :: rest) /\ turn_rest id inputs rest /\
    let start := mkStart id (c_sessionUID c) (startConfig c) (rec_Event <$> journal (w_log w)) inputs
      (startResumeFromSeq c) in
    trace (Run har start) (filter (fun e => modernEffect (Kind e) = true) rest) /\
    forall ins effs e, rest = ins ++ effs ++ [e] -> Forall2 (isInputOf id) inputs ins -> Kind e = EventEnd ->
      replays start effs.
Proof.
  intros Hrep Hc. unfold Exec, newID, tick. unfold mbind, M_bind, mret, M_ret, lift, throw, onLog at 1 2.
  cbn [w_log w_tick]. intros Hrun.
  destruct (st_CheckWritable (w_log w)) as [l1 [[]|e]] eqn:Hw; apply writable_law in Hw as [Hj1 _];
    [|injection Hrun as <- <-; left; by apply appended_same].
  cbn [w_log] in Hrun. destruct (st_Read 1 l1) as [l2 [prior|e]] eqn:Hr; apply read_law in Hr as (Hj2 & _ & Hp);
    [|injection Hrun as <- <-; left; apply appended_same; simpl; congruence].
  rewrite (contiguous_readFrom_all _ 0) in Hp by (rewrite ?Hj1; done || lia). rewrite Hj1 in Hp, Hj2. subst prior.
  destruct (scanApprovalRecords (journal (w_log w)) 0) as [scan|e];
    [|injection Hrun as <- <-; left; by apply appended_same].
  destruct (blockedByApproval scan); [injection Hrun as <- <-; left; by apply appended_same|].
  destruct (legacyPrefix _) as [n|e]; [|injection Hrun as <- <-; left; by apply appended_same].
  unfold describeHarness at 1, tick, mbind, M_bind in Hrun. cbn [w_log w_tick] in Hrun.
  destruct (Describe har (Datatypes.S (w_tick w))) as [desc|e] eqn:Hd;
    [|injection Hrun as <- <-; left; by apply appended_same].
  unfold mret at 1, M_ret at 1 in Hrun. cbn [w_log w_tick liveModelCalls liveToolCalls w_updates] in Hrun.
  match type of Hrun with context [onLog ?m ?w1] => destruct (onLog m w1) as [w2 [rec|e]] eqn:Ha end;
    apply raw_append_run in Ha; cbn [w_log] in Ha;
    [|injection Hrun as <- <-; left; apply appended_same; congruence].
  destruct (observe c rec w2) as [w3 x] eqn:Ho. apply observe_same in Ho as [Hw3 ->].
  change (turnBody (newIDText (w_tick w)) desc (Seq rec) inputs
    (mkStart (newIDText (w_tick w)) (c_sessionUID c) (startConfig c) (rec_Event <$> journal (w_log w)) inputs
       (startResumeFromSeq c)) w3 = (w', r)) in Hrun.
  destruct (turnBody_run _ _ _ _ _ _ _ _ (Hrep _) Hrun) as (rest & Hrest & Hturn & Htr & Hreplay).
  right. exists (Datatypes.S (w_tick w)), desc, (persisted (startMarker c (newIDText (w_tick w)) desc inputs)), rest.
  split; [done|]. split; [apply startMarker_shape|]. split; [|by split].
  rewrite <- Hw3 in Ha. destruct (appended_trans _ _ _ _ _ Ha Hrest) as (rs & Hrs & ?).
  exists rs. by rewrite <- Hj2.
Qed.
End exec.

(** ** The projection of one more turn *)

(** Folding the events of one execution into it. *)
Fixpoint absorbAll (i : nat) (es : list Event) (x : recordedExecution) : res recordedExecution :=
  match es with
  | [] => Ok x
  | e :: es' => x' ← absorb i e x; absorbAll (Datatypes.S i) es' x'
  end.

Definition ownEvent (id : string) (e : Event) : Prop := ExecutionID e = id /\ isLifecycle e = false.

Lemma groupEvents_app i es es' st : groupEvents i (es ++ es') st =
  (st' ← groupEvents i es st; groupEvents (i + length es) es' st').
Proof.
  revert i st. induction es as [|e es IH]; intros i st; simpl; [by rewrite Nat.add_0_r|].
  destruct (groupEvent i e st) as [st1|err]; simpl; [|done]. rewrite IH.
  by replace (Datatypes.S i + length es)%nat with (i + Datatypes.S (length es))%nat by lia.
Qed.

Lemma groupEvents_own id es : id <> EmptyString -> Forall (ownEvent id) es ->
  forall i st k x, g_byID st !! id = Some k -> g_executions st !! k = Some x ->
  groupEvents i es st = (x' ← absorbAll i es x; Ok (mkGroup (<[k := x']> (g_executions st)) (g_byID st))).
Proof.
  intros Hid. induction 1 as [|e es [He Hl] _ IH]; intros i st k x Hk Hx; simpl.
  - rewrite list_insert_id by done. by destruct st.
  - unfold groupEvent. rewrite Hl, He, bool_decide_eq_false_2 by done. rewrite Hk, Hx.
    destruct (absorb i e x) as [x1|err]; simpl; [|done].
    rewrite (IH _ _ k x1); simpl; [|done|by rewrite list_lookup_insert_eq by (by eapply lookup_lt_Some)].
    destruct (absorbAll (Datatypes.S i) es x1); simpl; [|done]. by rewrite list_insert_insert_eq.
Qed.

(** A new execution's events: it is appended to the group. *)
Lemma groupEvents_new id es i st x : id <> EmptyString -> Forall (ownEvent id) es -> es <> [] ->
  g_byID st !! id = None -> absorbAll i es (newExecution id i) = Ok x ->
  groupEvents i es st = Ok (mkGroup (g_executions st ++ [x]) (<[id := length (g_executions st)]> (g_byID st))).
Proof.
  intros Hid Hown Hne Hk Hx. destruct Hown as [|e es [He Hl] Hown]; [done|]. simpl in *.
  apply result_bind_Ok in Hx as (x1 & Hx1 & Hx). unfold groupEvent.
  rewrite Hl, He, bool_decide_eq_false_2 by done. rewrite Hk.
  rewrite lookup_app_r, Nat.sub_diag by done. simpl. rewrite Hx1. simpl.
  rewrite (groupEvents_own id es Hid Hown _ _ (length (g_executions st)) x1); simpl.
  - rewrite Hx. simpl. by rewrite !insert_app_r_alt, Nat.sub_diag by done.
  - by rewrite lookup_insert_eq.
  - by rewrite insert_app_r_alt, lookup_app_r, Nat.sub_diag by (rewrite ?length_insert; done).
Qed.

(** Only IDs of the journal are mapped. *)
Lemma groupEvents_ids es : forall i st st' id k, groupEvents i es st = Ok st' -> g_byID st' !! id = Some k ->
  is_Some (g_byID st !! id) \/ exists e, e ∈ es /\ ExecutionID e = id.
Proof.
  induction es as [|e es IH]; intros i st st' id k Hg Hk; simpl in Hg.
  { injection Hg as <-. eauto. }
  apply result_bind_Ok in Hg as (st1 & H1 & H2).
  destruct (IH _ _ _ _ _ H2 Hk) as [[j Hj]|(e' & He' & Hid)]; [|right; set_solver].
  unfold groupEvent in H1. destruct (isLifecycle e); [injection H1 as <-; eauto|].
  case_bool_decide; [done|]. destruct (decide (ExecutionID e = id)) as [Heq|Hne]; [right; set_solver|left].
  assert (g_byID st1 = g_byID st \/ exists n, g_byID st1 = <[ExecutionID e := n]> (g_byID st)) as [Hb|[n Hb]].
  { destruct (g_byID st !! ExecutionID e); repeat (break_match_in H1; simplify_eq/=; eauto).
    - apply result_bind_Ok in H1 as (x' & _ & [= <-]). eauto.
    - apply result_bind_Ok in H1 as (x' & _ & [= <-]). eauto. }
  - rewrite <- Hb. eauto.
  - rewrite Hb, lookup_insert_ne in Hj by done. eauto.
Qed.

(** The closed form of absorbing events that carry no marker. *)
Definition absorbed (es : list Event) (x : recordedExecution) : recordedExecution :=
  mkExecution (x_id x) (x_start x) (x_inputs x ++ inputMessages es)
    (x_stream x ++ filter (fun e => modernEffect (Kind e) = true) es)
    (x_completed x || existsb (fun e => bool_decide (Kind e = EventEnd)) es)
    (x_config x) (x_resumeFromSeq x) (x_hasStart x) (x_inputCount x)
    (x_inputRecords x + Z.of_nat (length (filter (fun e => isInput e = true) es)))
    (x_harness x) (x_harnessVersion x) (x_legacyEnd x).

Lemma absorbAll_rest es : Forall (fun e => Kind e <> EventExecutionStart) es ->
  forall i x, absorbAll i es x = Ok (absorbed es x).
Proof.
  induction 1 as [|e es He _ IH]; intros i x; simpl.
  - unfold absorbed. destruct x; simpl. by rewrite !app_nil_r, orb_false_r, Z.add_0_r.
  - assert (absorb i e x = Ok (absorbed [e] x)) as ->.
    { unfold absorb, absorbed, inputMessages, isInput. rewrite !filter_cons, !filter_nil.
      destruct x; simpl. destruct (Kind e) eqn:Hk; simpl; try done;
        rewrite ?app_nil_r, ?orb_false_r, ?orb_true_r, ?Z.add_0_r; try done.
      by destruct (ev_Message e); simpl; rewrite ?app_nil_r. }
    simpl. rewrite IH. unfold absorbed, inputMessages. simpl.
    rewrite !filter_cons, !filter_nil. f_equal. f_equal.
    + rewrite <- app_assoc. f_equal. destruct (decide (isInput e = true)); simpl; [|done].
      by destruct (ev_Message e).
    + rewrite <- app_assoc. f_equal. by destruct (decide _).
    + by rewrite orb_false_r, orb_assoc.
    + destruct (decide (isInput e = true)); simpl; lia.
Qed.

(** The execution a marker opens. *)
Definition started (id : string) (i : nat) (st : ExecutionStart) : recordedExecution :=
  mkExecution id (Z.of_nat i) [] [] false (Config st) (ResumeFromSeq st) true (InputCount st) 0
    (es_Harness st) (HarnessVersion st) 0.

Lemma absorb_start id i st e : isStart id st e -> absorb i e (newExecution id i) = Ok (started id i st).
Proof. intros (_ & Hk & Hs). unfold absorb. rewrite Hk, Hs. simpl. by rewrite Z.eqb_refl. Qed.

(** *** Facts about a turn's events *)

Lemma turn_rest_own id inputs rest : turn_rest id inputs rest ->
  Forall (fun e => ExecutionID e = id /\ Kind e <> EventExecutionStart /\ Kind e <> EventLifecycle /\
            gatedEvidence e = false) rest.
Proof.
  assert (Hin : forall ms ins, Forall2 (isInputOf id) ms ins ->
    Forall (fun e => ExecutionID e = id /\ Kind e <> EventExecutionStart /\ Kind e <> EventLifecycle /\
            gatedEvidence e = false) ins).
  { intros ms ins Hf. induction Hf as [|m e ms ins (Hid & Hk & _) _ IH]; [done|]. constructor; [|done].
    unfold gatedEvidence. by rewrite Hk. }
  assert (Heff : forall effs, Forall (effect_of id) effs ->
    Forall (fun e => ExecutionID e = id /\ Kind e <> EventExecutionStart /\ Kind e <> EventLifecycle /\
            gatedEvidence e = false) effs).
  { intros effs Hf. eapply Forall_impl; [|exact Hf]. intros e (Hid & Hm & Hg & _). simpl.
    split; [done|]. split; [by intros Hk; rewrite Hk in Hm|]. split; [by intros Hk; rewrite Hk in Hm|done]. }
  assert (Htl : forall k e, isTail id k e -> k = EventError \/ k = EventEnd ->
    ExecutionID e = id /\ Kind e <> EventExecutionStart /\ Kind e <> EventLifecycle /\ gatedEvidence e = false).
  { intros k e [Hid Hk] Hor. unfold gatedEvidence. rewrite Hk. by destruct Hor as [->| ->]. }
  intros [ms ins _ Hi|ins effs Hi He|ins effs e Hi He Ht|ins effs e Hi He Ht]; [eauto|..];
    rewrite ?Forall_app; repeat split; eauto; constructor; eauto.
Qed.

(** The events of a turn that count as effects are its effects. *)
Lemma turn_rest_effects id inputs rest : turn_rest id inputs rest ->
  Forall (fun e => modernEffect (Kind e) = true -> effect_of id e) rest.
Proof.
  assert (Hin : forall ms ins, Forall2 (isInputOf id) ms ins ->
    Forall (fun e => modernEffect (Kind e) = true -> effect_of id e) ins).
  { intros ms ins Hf. induction Hf as [|m e ms ins (_ & Hk & _) _ IH]; [done|]. constructor; [by rewrite Hk|done]. }
  assert (Heff : forall effs, Forall (effect_of id) effs ->
    Forall (fun e => modernEffect (Kind e) = true -> effect_of id e) effs).
  { intros effs Hf. eapply Forall_impl; [|exact Hf]. by intros. }
  intros [ms ins _ Hi|ins effs Hi He|ins effs e Hi He [_ Ht]|ins effs e Hi He [_ Ht]]; [eauto|..];
    rewrite ?Forall_app; repeat split; eauto; constructor; auto; by rewrite Ht.
Qed.

Lemma end_alone e : Kind e = EventEnd -> inputMessages [e] = [] /\
  filter (fun e => modernEffect (Kind e) = true) [e] = [] /\ filter (fun e => isInput e = true) [e] = [].
Proof.
  intros Hk. assert (isInput e = false) as Hi by (unfold isInput; by rewrite Hk).
  unfold inputMessages. rewrite !(filter_cons_False (fun e => isInput e = true)) by (by rewrite Hi).
  by rewrite filter_cons_False by (by rewrite Hk).
Qed.

Lemma inputMessages_app a b : inputMessages (a ++ b) = inputMessages a ++ inputMessages b.
Proof. unfold inputMessages. by rewrite list.filter_app, omap_app. Qed.

Lemma filter_take {A} (P : A -> Prop) `{forall x, Decision (P x)} n (l : list A) :
  exists m, filter P (take n l) = take m (filter P l).
Proof.
  exists (length (filter P (take n l))). rewrite <- (take_drop n l) at 3. rewrite list.filter_app.
  by rewrite take_app_length.
Qed.

(** No effect without all the inputs. *)
Lemma turn_rest_inputs id inputs rest n : turn_rest id inputs rest ->
  filter (fun e => modernEffect (Kind e) = true) (take n rest) = [] \/ inputMessages (take n rest) = inputs.
Proof.
  assert (Hnil : forall ms ins, Forall2 (isInputOf id) ms ins -> forall m,
    filter (fun e => modernEffect (Kind e) = true) (take m ins) = []).
  { intros ms ins Hi m. destruct (filter_take (fun e => modernEffect (Kind e) = true) m ins) as [j ->].
    destruct (inputs_no_end _ _ _ Hi) as (_ & -> & _). by destruct j. }
  assert (Hgen : forall ins tl, Forall2 (isInputOf id) inputs ins -> Forall (fun e => Kind e <> EventInput) tl ->
    filter (fun e => modernEffect (Kind e) = true) (take n (ins ++ tl)) = [] \/ inputMessages (take n (ins ++ tl)) = inputs).
  { intros ins tl Hi Ht. rewrite take_app. destruct (decide (n <= length ins)%nat) as [Hle|Hgt].
    - left. replace (n - length ins)%nat with 0%nat by lia. rewrite take_0, app_nil_r. by eapply Hnil.
    - right. rewrite take_ge by lia. destruct (inputs_no_end _ _ _ Hi) as (Hm & _).
      rewrite inputMessages_app, Hm. unfold inputMessages.
      assert (filter (fun e => isInput e = true) (take (n - length ins) tl) = []) as ->; [|by rewrite app_nil_r].
      apply (Forall_take _ (n - length ins)) in Ht. clear - Ht. induction Ht as [|e tl' He _ IH]; [done|].
      rewrite filter_cons_False; [done|]. unfold isInput. by rewrite bool_decide_eq_false_2. }
  assert (Heff : forall effs, Forall (effect_of id) effs -> Forall (fun e => Kind e <> EventInput) effs).
  { intros effs Hf. eapply Forall_impl; [|exact Hf]. intros e (_ & Hm & _) Hk. by rewrite Hk in Hm. }
  intros [ms ins _ Hi|ins effs Hi He|ins effs e Hi He [_ Hk]|ins effs e Hi He [_ Hk]].
  - left. by eapply Hnil.
  - apply Hgen; auto.
  - apply Hgen; [done|]. apply Forall_app_2; [auto|]. constructor; [congruence|done].
  - apply Hgen; [done|]. apply Forall_app_2; [auto|]. constructor; [congruence|done].
Qed.

Lemma existsb_take_le {A} (f : A -> bool) n l : existsb f (take n l) = true -> existsb f l = true.
Proof.
  rewrite <- (take_drop n l) at 2. rewrite existsb_app. intros ->. done.
Qed.

(** A prefix of a turn that holds an END is the whole turn. *)
Lemma turn_rest_completed id inputs rest n : turn_rest id inputs rest ->
  existsb (fun e => bool_decide (Kind e = EventEnd)) (take n rest) = true ->
  take n rest = rest /\ exists ins effs e, rest = ins ++ effs ++ [e] /\ Forall2 (isInputOf id) inputs ins /\
    Forall (effect_of id) effs /\ Kind e = EventEnd.
Proof.
  intros Ht He. pose proof (existsb_take_le _ _ _ He) as Hall.
  destruct Ht as [ms ins _ Hi|ins effs Hi Hf|ins effs e Hi Hf [_ Hk]|ins effs e Hi Hf [_ Hk]];
    destruct (inputs_no_end _ _ _ Hi) as (_ & _ & _ & Hie);
    try (destruct (effects_no_end _ _ Hf) as (_ & _ & _ & Hfe));
    try (by rewrite ?existsb_app, Hie, ?Hfe in Hall; simpl in Hall; rewrite ?Hk in Hall).
  split; [|by exists ins, effs, e]. apply take_ge. destruct (decide (length (ins ++ effs ++ [e]) <= n)%nat) as [|Hlt]; [done|].
  exfalso. rewrite app_assoc, length_app in Hlt. simpl in Hlt. rewrite app_assoc, take_app_le in He by lia.
  apply existsb_take_le in He. by rewrite existsb_app, Hie, Hfe in He.
Qed.

Lemma recordedOutputs_app a b : recordedOutputs (a ++ b) = recordedOutputs a ++ recordedOutputs b.
Proof. unfold recordedOutputs. apply omap_app. Qed.

(** Outputs are effects. *)
Lemma recordedOutputs_effects es :
  recordedOutputs (filter (fun e => modernEffect (Kind e) = true) es) = recordedOutputs es.
Proof.
  unfold recordedOutputs. induction es as [|e es IH]; [done|]. rewrite filter_cons.
  destruct (decide (modernEffect (Kind e) = true)) as [Hm|Hm]; simpl.
  - destruct (if bool_decide _ then _ else _); [by f_equal|done].
  - rewrite bool_decide_eq_false_2; [done|]. intros Hk. by rewrite Hk in Hm.
Qed.

