(* ===== verification/Recovery.v ===== *)
(** * Recovery continues what was recorded (controller/resume.go)

    The resume sink on a recorded prefix: each effect is either answered from the prefix, or
    completes its last record, or runs live once the prefix is used up. Whatever it answers, the
    replay sink answers again from the extended record. *)
From S2P Require Import Prelude GoErrors Api Canon EventLog Executions Approvals Harness Sinks Controller LiveSpec Simulation ReplaySafety Turns.

(** The recorded effects a resume sink has yet to serve. *)
Definition unread (s : resumeSink) : list Event := drop (res_i s) (res_stream s).

Lemma unread_serving s : serving s = negb (bool_decide (unread s = [])).
Proof.
  unfold serving, unread. destruct (Nat.ltb_spec (res_i s) (length (res_stream s))) as [Hlt|Hge].
  - rewrite bool_decide_eq_false_2; [done|]. intros Hd. apply (f_equal length) in Hd.
    rewrite length_drop in Hd. simpl in Hd. lia.
  - by rewrite bool_decide_eq_true_2 by by apply drop_ge.
Qed.

Lemma unread_next s e rest : unread s = e :: rest -> unread (resIndex (S (res_i s)) s) = rest.
Proof. by intros [_ ?]%drop_step. Qed.

Section recovery.
Context `{Host} {S : Type} `{StoreLaws S} `{!FaithfulStore S}.
Variables (c : Controller) (har : Harness) (id : string).

Lemma recordedNext_run k (w : World S) s : recordedNext k (w, s) =
  match unread s with
  | e :: _ => if bool_decide (Kind e = k) then ((w, resIndex (Datatypes.S (res_i s)) s), Ok (Some e))
              else ((w, s), Ok None)
  | [] => ((w, s), Ok None)
  end.
Proof.
  unfold recordedNext, getResume, modResume, gets, modify, mbind, M_bind, nextOf. cbn [fst snd].
  destruct (unread s) as [|e rest] eqn:Hu.
  - destruct (res_stream s !! res_i s) as [e|] eqn:He; [|done]. apply lookup_lt_Some in He.
    apply (f_equal length) in Hu. unfold unread in Hu. rewrite length_drop in Hu. simpl in Hu. lia.
  - apply drop_step in Hu as [-> _]. by case_bool_decide.
Qed.

(** A live effect of the resume sink. *)
Lemma onLive_run {A} (m : M (World S * liveSink) goerr A) Q (w w' : World S) s s' r :
  live_spec id m Q -> plain id (live s) -> onLive m (w, s) = ((w', s'), r) ->
  plain id (live s') /\ res_stream s' = res_stream s /\ res_i s' = res_i s /\ res_failure s' = res_failure s /\
  exists evs, appended (w_log w) (w_log w') evs /\ Forall (effect_of id) evs /\
    match r with Ok a => Q a evs | Err _ => True end.
Proof.
  intros Hm Hp Hrun. unfold onLive in Hrun. simpl in Hrun. destruct (m (w, live s)) as [[w1 l1] r1] eqn:E.
  injection Hrun as <- <- <-. destruct (Hm _ _ _ _ _ Hp E) as (? & ?). done.
Qed.

(** What a resumed effect amounts to: it consumed [c1] of the record and committed [e1], the latter
    only when the record is used up; if it answered [a], the replay effect [opR] gives [ans a tail]
    on [c1 ++ e1] followed by any [tail]. *)
Definition resumed {A} (opR : M (World S * replaySink) goerr A) (ans : A -> list Event -> A)
    (w : World S) (s : resumeSink) (w' : World S) (s' : resumeSink) (r : res A) : Prop :=
  plain id (live s') /\ res_stream s' = res_stream s /\ exists c1 e1,
    unread s = c1 ++ unread s' /\ appended (w_log w) (w_log w') e1 /\ Forall (effect_of id) e1 /\
    (e1 = [] \/ unread s' = []) /\
    match r with
    | Ok a => res_failure s' = None /\ forall tail rs, ready rs ((c1 ++ e1) ++ tail) ->
        serves (S := S) opR rs (ans a tail) (length (c1 ++ e1)) (outputsOf (c1 ++ e1))
    | Err _ => True
    end.

(** An effect that failed after consuming [c1] and did nothing live. *)
Lemma resumed_err {A} opR ans (w : World S) s w' s' e c1 :
  plain id (live s') -> res_stream s' = res_stream s -> unread s = c1 ++ unread s' -> w_log w' = w_log w ->
  resumed (A := A) opR ans w s w' s' (Err e).
Proof.
  intros Hp Hs Hu Hw. split; [done|]. split; [done|]. exists c1, []. rewrite Hw.
  repeat split; auto with agent.
Qed.

(** An effect answered from the record. *)
Lemma resumed_served {A} opR ans (w : World S) s s' (a : A) c1 :
  plain id (live s') -> res_stream s' = res_stream s -> unread s = c1 ++ unread s' -> res_failure s' = None ->
  (forall tail rs, ready rs (c1 ++ tail) -> serves (S := S) opR rs (ans a tail) (length c1) (outputsOf c1)) ->
  resumed opR ans w s w s' (Ok a).
Proof.
  intros Hp Hs Hu Hf Hserve. split; [done|]. split; [done|]. exists c1, []. rewrite app_nil_r.
  repeat split; auto with agent.
Qed.

(** An effect run live at the end of the record, after consuming [c1]. *)
Lemma resumed_live {A} opR ans (m : M (World S * liveSink) goerr A) Q (w w' : World S) s s0 s' r c1 :
  live_spec id m Q -> plain id (live s0) -> res_stream s0 = res_stream s -> res_failure s0 = None ->
  unread s0 = [] -> unread s = c1 -> onLive m (w, s0) = ((w', s'), r) ->
  (forall a e1, Q a e1 -> forall tail rs, ready rs ((c1 ++ e1) ++ tail) ->
     serves (S := S) opR rs (ans a tail) (length (c1 ++ e1)) (outputsOf (c1 ++ e1))) ->
  resumed opR ans w s w' s' r.
Proof.
  intros Hm Hp Hs Hf Hu0 Hu Hrun Hserve.
  destruct (onLive_run _ _ _ _ _ _ _ Hm Hp Hrun) as (Hp' & Hs' & Hi' & Hf' & e1 & Ha & He & Hr).
  assert (unread s' = []) as Hu' by (unfold unread in *; by rewrite Hs', Hi').
  split; [done|]. split; [congruence|]. exists c1, e1. rewrite Hu', app_nil_r.
  split; [done|]. split; [done|]. split; [done|]. split; [by right|].
  destruct r; [|done]. split; [congruence|]. auto.
Qed.

Definition same_answer {A} (a : A) (_ : list Event) : A := a.
Definition model_answer (a : ModelResponse) (tail : list Event) : ModelResponse :=
  mkModelResponse (mresp_Message a) (usageAt tail 0).

(** The state in which resumed effects run. *)
Definition resuming (s : resumeSink) : Prop :=
  plain id (live s) /\ res_failure s = None /\ Forall (effect_of id) (unread s).

Lemma resume_model_run req (w w' : World S) s s' r : resuming s ->
  resume_model c req (w, s) = ((w', s'), r) -> resumed (replay_model req) model_answer w s w' s' r.
Proof.
  intros (Hp & Hf & Heff) Hrun. unfold resume_model in Hrun.
  unfold mbind at 1, M_bind at 1, getResume at 1, gets at 1 in Hrun. cbn [snd] in Hrun.
  rewrite unread_serving in Hrun. destruct (unread s) as [|e1 rest] eqn:Hu.
  { cbn in Hrun. eapply (resumed_live _ _ _ _ _ _ _ _ _ _ [] (spec_live_model c id req)); eauto.
    intros [m u] es (x & y & -> & Hx & Hy) tail rs Hr. simpl in Hr.
    rewrite app_nil_l, outputsOf_skip, (outputsOf_output _ _ _ Hy) by (by destruct Hx as [-> _]).
    exact (serves_model _ _ _ _ _ _ Hr Hx Hy). }
  rewrite bool_decide_eq_false_2 in Hrun by done. cbn [negb] in Hrun.
  unfold mbind at 1, M_bind at 1 in Hrun. rewrite recordedNext_run, Hu in Hrun.
  case_bool_decide as Hk1.
  2: { injection Hrun as <- <- <-. by apply (resumed_err _ _ _ _ _ _ _ []). }
  pose proof (unread_next _ _ _ Hu) as Hu1. set (s1 := resIndex _ s) in *.
  destruct (match ev_ModelCall e1 with Some m => _ | None => _ end) eqn:Hh.
  { injection Hrun as <- <- <-. apply (resumed_err _ _ _ _ _ _ _ [e1]); [done|done| |done].
    unfold unread in *. simpl in *. by rewrite Hu1. }
  assert (isModelCall (hashModelInput req) e1) as Hmc.
  { split; [done|]. destruct (ev_ModelCall e1) as [m|]; [|done]. dec_bool. eauto. }
  unfold mbind at 1, M_bind at 1 in Hrun. rewrite recordedNext_run, Hu1 in Hrun.
  destruct rest as [|e2 rest2].
  { unfold mbind, M_bind, getResume, gets in Hrun. cbn [snd] in Hrun.
    destruct Hp as (Hid & Hleg & Hg & Hc). change (live s1) with (live s) in Hrun. rewrite Hleg in Hrun.
    rewrite unread_serving, Hu1 in Hrun. cbn in Hrun.
    eapply (resumed_live _ _ _ _ _ _ _ s1 _ _ [e1] (spec_completeModel c id req)); eauto; [by repeat split|].
    intros [m u] es (y & -> & Hy) tail rs Hr. simpl in Hr. simpl app.
    rewrite outputsOf_skip, (outputsOf_output _ _ _ Hy) by (by destruct Hmc as [-> _]).
    exact (serves_model _ _ _ _ _ _ Hr Hmc Hy). }
  case_bool_decide as Hk2.
  - apply Forall_cons_iff in Heff as [_ [(_ & _ & _ & Hm)%(fun h => h) _]%Forall_cons_iff].
    destruct (Hm Hk2) as [m Hm2]. assert (isOutput m e2) as Hy by done.
    pose proof (unread_next _ _ _ Hu1) as Hu2. set (s2 := resIndex _ s1) in *.
    unfold mbind, M_bind, getResume, gets in Hrun. cbn [snd] in Hrun. injection Hrun as <- <- <-.
    apply (resumed_served _ _ _ _ _ _ [e1; e2]); [done|done|by rewrite Hu, Hu2|done|].
    intros tail rs Hr. unfold model_answer. simpl mresp_Message. rewrite Hm2. simpl default.
    rewrite outputsOf_skip, (outputsOf_output _ _ _ Hy) by (by destruct Hmc as [-> _]).
    exact (serves_model _ _ _ _ _ _ Hr Hmc Hy).
  - unfold mbind, M_bind, getResume, gets in Hrun. cbn [snd] in Hrun. rewrite unread_serving, Hu1 in Hrun.
    cbn in Hrun. injection Hrun as <- <- <-. apply (resumed_err _ _ _ _ _ _ _ [e1]); [done|done| |done].
    by rewrite Hu, Hu1.
Qed.
(** The start of an effect that asks first whether the record is used up. *)
Lemma serving_run {A} (f : bool -> M (ResumeState (S := S)) goerr A) (w : World S) s :
  (getResume serving ≫= f) (w, s) = f (negb (bool_decide (unread s = []))) (w, s).
Proof. by rewrite <- unread_serving. Qed.

Lemma resume_output_run d (w w' : World S) s s' r : resuming s ->
  resume_output c d (w, s) = ((w', s'), r) -> resumed (replay_output d) same_answer w s w' s' r.
Proof.
  intros (Hp & Hf & Heff) Hrun. unfold resume_output in Hrun. rewrite serving_run in Hrun.
  destruct (unread s) as [|e rest] eqn:Hu.
  { cbn in Hrun. eapply (resumed_live _ _ _ _ _ _ _ _ _ _ [] (spec_live_output c id d)); eauto.
    intros [] es (x & -> & Hx) tail rs Hr. simpl in Hr.
    rewrite app_nil_l, (outputsOf_output _ _ _ Hx), Text_TextMessage. exact (serves_output _ _ _ _ Hr Hx). }
  rewrite bool_decide_eq_false_2 in Hrun by done. cbn [negb] in Hrun.
  unfold mbind at 1, M_bind at 1 in Hrun. rewrite recordedNext_run, Hu in Hrun.
  case_bool_decide as Hk.
  2: { injection Hrun as <- <- <-. by apply (resumed_err _ _ _ _ _ _ _ []). }
  pose proof (unread_next _ _ _ Hu) as Hu1. set (s1 := resIndex _ s) in *.
  apply Forall_cons_iff in Heff as [(_ & _ & _ & Hm) _]. destruct (Hm Hk) as [m Hm']. rewrite Hm' in Hrun.
  destruct (negb _) eqn:Hd.
  { injection Hrun as <- <- <-. apply (resumed_err _ _ _ _ _ _ _ [e]); [done|done| |done].
    unfold unread in *. simpl in *. by rewrite Hu1. }
  injection Hrun as <- <- <-. dec_bool.
  apply (resumed_served _ _ _ _ _ _ [e]); [done|done|by rewrite Hu, Hu1|done|].
  intros tail rs Hr. rewrite (outputsOf_output _ m) by done. rewrite <- Hd.
  exact (serves_output_text _ _ _ _ _ Hr (conj Hk Hm') Hd).
Qed.

Lemma resume_usage_run u (w w' : World S) s s' r : resuming s ->
  resume_usage c u (w, s) = ((w', s'), r) -> resumed (replay_usage u) same_answer w s w' s' r.
Proof.
  intros (Hp & Hf & Heff) Hrun. unfold resume_usage in Hrun.
  unfold mbind at 1, M_bind at 1, getResume at 1, gets at 1 in Hrun. cbn [snd] in Hrun.
  rewrite serving_run in Hrun. destruct (unread s) as [|e rest] eqn:Hu.
  { cbn in Hrun. eapply (resumed_live _ _ _ _ _ _ _ _ _ _ [] (spec_live_usage c id u)); eauto.
    intros [] es (x & -> & Hx) tail rs Hr. simpl in Hr.
    rewrite app_nil_l, outputsOf_other by (by destruct Hx as [-> _]). exact (serves_usage _ _ _ _ Hr Hx). }
  rewrite bool_decide_eq_false_2 in Hrun by done. cbn [negb] in Hrun.
  assert (legacyRecovery (live s) = false) as Hleg by apply Hp. rewrite Hleg in Hrun.
  unfold mbind at 1, M_bind at 1 in Hrun. rewrite recordedNext_run, Hu in Hrun.
  case_bool_decide as Hk.
  2: { injection Hrun as <- <- <-. by apply (resumed_err _ _ _ _ _ _ _ []). }
  pose proof (unread_next _ _ _ Hu) as Hu1. set (s1 := resIndex _ s) in *.
  assert (Hbad : forall t, resume_diverged t (w, s1) = ((w', s'), r) -> resumed (replay_usage u) same_answer w s w' s' r).
  { intros t [= <- <- <-]. apply (resumed_err _ _ _ _ _ _ _ [e]); [done|done| |done].
    unfold unread in *. simpl in *. by rewrite Hu1. }
  destruct (ev_Usage e) as [v|] eqn:Hv; [|by eapply Hbad].
  destruct (decide (v = u)) as [->|]; [|by eapply Hbad]. injection Hrun as <- <- <-.
  apply (resumed_served _ _ _ _ _ _ [e]); [done|done|by rewrite Hu, Hu1|done|].
  intros tail rs Hr. rewrite outputsOf_other by (by rewrite Hk). exact (serves_usage _ _ _ _ Hr (conj Hk Hv)).
Qed.

Lemma resume_report_run tr (w w' : World S) s s' r : resuming s ->
  resume_report c tr (w, s) = ((w', s'), r) -> resumed (replay_report tr) same_answer w s w' s' r.
Proof.
  intros (Hp & Hf & Heff) Hrun. unfold resume_report in Hrun.
  unfold mbind at 1, M_bind at 1, getResume at 1, gets at 1 in Hrun. cbn [snd] in Hrun.
  rewrite serving_run in Hrun.
  assert (default false (ls_calls (live s) !! tr_ID tr) = false) as Hcall.
  { destruct Hp as (_ & _ & _ & Hc). specialize (Hc (tr_ID tr)). by destruct (_ !! _) as [[]|]. }
  rewrite Hcall in Hrun. unfold mbind at 1, M_bind at 1, check in Hrun.
  destruct (approvalReportError tr) as [e|] eqn:Hre.
  { injection Hrun as <- <- <-. by apply (resumed_err _ _ _ _ _ _ _ []). }
  destruct (unread s) as [|e rest] eqn:Hu.
  { cbn in Hrun. eapply (resumed_live _ _ _ _ _ _ _ _ _ _ [] (spec_live_report c id tr)); eauto.
    intros [] es (_ & x & -> & Hx) tail rs Hr. simpl in Hr.
    rewrite app_nil_l, outputsOf_other by (by destruct Hx as [-> _]). exact (serves_report _ _ _ _ Hr Hx Hre). }
  rewrite bool_decide_eq_false_2 in Hrun by done. cbn [negb] in Hrun.
  unfold mbind at 1, M_bind at 1, getResume at 1, gets at 1 in Hrun. cbn [snd] in Hrun.
  unfold mbind at 1, M_bind at 1, getResume at 1, gets at 1 in Hrun. cbn [snd] in Hrun.
  destruct (receiptAt _ _) eqn:Hrec.
  { injection Hrun as <- <- <-. by apply (resumed_err _ _ _ _ _ _ _ []). }
  unfold mbind at 1, M_bind at 1 in Hrun. rewrite recordedNext_run, Hu in Hrun.
  case_bool_decide as Hk.
  2: { injection Hrun as <- <- <-. by apply (resumed_err _ _ _ _ _ _ _ []). }
  pose proof (unread_next _ _ _ Hu) as Hu1. set (s1 := resIndex _ s) in *. injection Hrun as <- <- <-.
  apply (resumed_served _ _ _ _ _ _ [e]); [done|done|by rewrite Hu, Hu1|done|].
  intros tail rs Hr. rewrite outputsOf_other by (by rewrite Hk).
  apply (serves_report_any _ e tail); [done|done|done|].
  unfold receiptAt in Hrec. apply drop_step in Hu as [Hl _]. by rewrite Hl in Hrec.
Qed.

Lemma recordedToolResult_Ok rc o a : recordedToolResult rc o = Ok a -> o = Some a /\ tr_ID a = tc_ID rc.
Proof. unfold recordedToolResult. destruct o as [x|]; [|done]. case_bool_decide; [by intros [= ->]|done]. Qed.

(** A matched ordinary call: its result is served, or its intent is re-driven. *)
Lemma resume_ordinary_run tc rc e (w w' : World S) s0 s s' r :
  resuming s -> unread s0 = e :: unread s -> res_stream s = res_stream s0 -> isToolCall rc e ->
  tc_Mediation rc = MediationControllerMediated -> matchToolCall tc (Some rc) = None ->
  resume_ordinary c rc (w, s) = ((w', s'), r) -> resumed (replay_toolCall tc) same_answer w s0 w' s' r.
Proof.
  intros (Hp & Hf & Heff) Hu0 Hs Hx Hmr Hmatch Hrun. unfold resume_ordinary in Hrun.
  unfold mbind at 1, M_bind at 1 in Hrun. rewrite recordedNext_run in Hrun.
  destruct (unread s) as [|e2 rest2] eqn:Hu.
  { rewrite serving_run, Hu in Hrun. cbn in Hrun.
    eapply (resumed_live _ _ _ _ _ _ _ s _ _ [e] (spec_execTool c id rc)); eauto.
    intros a es (Hid & Hre & y & -> & Hy) tail rs Hr. simpl in Hr. simpl app.
    rewrite outputsOf_skip, outputsOf_other by (by destruct Hy as [-> _] || by destruct Hx as [-> _]).
    exact (serves_toolCall_match _ _ _ _ _ _ _ Hr Hx Hy Hid Hmr Hmatch). }
  case_bool_decide as Hk2.
  - pose proof (unread_next _ _ _ Hu) as Hu2. set (s1 := resIndex _ s) in *.
    destruct (recordedToolResult rc (ev_Result e2)) as [a|e'] eqn:Hres.
    + injection Hrun as <- <- <-. apply recordedToolResult_Ok in Hres as [Hy Hid].
      apply (resumed_served _ _ _ _ _ _ [e; e2]); [done|done|by rewrite Hu0, Hu2|done|].
      intros tail rs Hr.
      rewrite outputsOf_skip, outputsOf_other by (by rewrite Hk2 || by destruct Hx as [-> _]).
      exact (serves_toolCall_match _ _ _ _ _ _ _ Hr Hx (conj Hk2 Hy) Hid Hmr Hmatch).
    + injection Hrun as <- <- <-. apply (resumed_err _ _ _ _ _ _ _ [e; e2]); [done|done| |done].
      rewrite Hu0. unfold unread in *. simpl in *. by rewrite Hu2.
  - rewrite serving_run, Hu in Hrun. cbn in Hrun. injection Hrun as <- <- <-.
    apply (resumed_err _ _ _ _ _ _ _ [e]); [done|done| |done]. by rewrite Hu0, Hu.
Qed.

Lemma resume_toolCall_run tc (w w' : World S) s s' r :
  tc_Mediation tc <> MediationRequiresApproval -> representable (Args tc) -> resuming s ->
  resume_toolCall c har tc (w, s) = ((w', s'), r) -> resumed (replay_toolCall tc) same_answer w s w' s' r.
Proof.
  intros Hm Hargs (Hp & Hf & Heff) Hrun. unfold resume_toolCall in Hrun.
  unfold mbind at 1, M_bind at 1, getResume at 1, gets at 1 in Hrun. cbn [snd] in Hrun.
  unfold mbind at 1, M_bind at 1, getResume at 1, gets at 1 in Hrun. cbn [snd] in Hrun.
  destruct (keylessRejected _ _ tc) eqn:Hkey.
  { injection Hrun as <- <- <-. by apply (resumed_err _ _ _ _ _ _ _ []). }
  rewrite serving_run in Hrun. destruct (unread s) as [|e rest] eqn:Hu.
  { cbn in Hrun. eapply (resumed_live _ _ _ _ _ _ _ _ _ _ [] (spec_live_toolCall c har id tc Hm)); eauto.
    intros a es (Hmed & Hk & Hid & Hre & x & y & -> & Hx & Hy) tail rs Hr. simpl in Hr.
    rewrite app_nil_l, outputsOf_skip, outputsOf_other by (by destruct Hy as [-> _] || by destruct Hx as [-> _]).
    exact (serves_toolCall _ _ _ _ _ _ Hr Hx Hy Hid Hmed Hk Hargs). }
  rewrite bool_decide_eq_false_2 in Hrun by done. cbn [negb] in Hrun.
  unfold mbind at 1, M_bind at 1, check in Hrun.
  destruct (if distinctFallback _ _ tc then _ else _) as [e'|] eqn:Hfb.
  { injection Hrun as <- <- <-. by apply (resumed_err _ _ _ _ _ _ _ []). }
  unfold mbind at 1, M_bind at 1 in Hrun. rewrite recordedNext_run, Hu in Hrun.
  case_bool_decide as Hk1.
  2: { unfold mbind, M_bind in Hrun.
       destruct (toolMediationError _); injection Hrun as <- <- <-; by apply (resumed_err _ _ _ _ _ _ _ []). }
  pose proof (unread_next _ _ _ Hu) as Hu1. set (s1 := resIndex _ s) in *.
  destruct (matchToolCall tc (ev_ToolCall e)) as [e'|] eqn:Hmatch.
  { injection Hrun as <- <- <-. apply (resumed_err _ _ _ _ _ _ _ [e]); [done|done| |done].
    unfold unread in *. simpl in *. by rewrite Hu1. }
  destruct (ev_ToolCall e) as [rc|] eqn:Hrc; [|done].
  destruct (matchToolCall_None _ _ Hmatch) as (_ & Hmed & _ & [Hmr|Hmr]); [|congruence].
  rewrite Hmr in Hrun. rewrite bool_decide_eq_false_2 in Hrun by done.
  unfold mbind at 1, M_bind at 1 in Hrun.
  destruct (onLive (modSink (setCall (tc_ID rc) false)) (w, s1)) as [[w2 s2] r2] eqn:Ec.
  destruct (onLive_run _ _ _ _ _ _ _ (spec_modCall id (tc_ID rc)) (Hp : plain id (live s1)) Ec)
    as (Hp2 & Hs2 & Hi2 & Hf2 & _).
  assert (w2 = w /\ r2 = Ok tt) as [-> ->] by (by injection Ec as <- <- <-).
  assert (unread s2 = rest) as Hu2 by (unfold unread in *; rewrite Hs2, Hi2; exact Hu1).
  eapply (resume_ordinary_run tc rc e _ _ s s2); [|by rewrite Hu, Hu2|done|done|done|done|exact Hrun].
  split; [done|]. split; [by rewrite Hf2|]. rewrite Hu2. by apply Forall_cons_iff in Heff as [_ ?].
Qed.
(** *** The simulation *)

Definition runResumeProg (p : Prog) (st : World S * resumeSink) := runProg (H := resumeEventSink c har) p st.

(** What a resumed run of [p] amounts to: it commits the effects [evs], only once the record is used
    up; and if it succeeds with the record used up, the replay sink on the record extended by [evs]
    drives [p] through the same run. *)
Record continued (p : Prog) (w w' : World S) (s s' : resumeSink) (r : option goerr) (evs : list Event) : Prop := {
  cn_appended : appended (w_log w) (w_log w') evs;
  cn_effects : Forall (effect_of id) evs;
  cn_failure : r = None -> res_failure s' = None;
  cn_usage : forall u k (wr : World S), p = PUsage u k -> r = None -> unread s' = [] -> noCancel (w_tick wr) ->
    usageAt (unread s ++ evs) 0 = u;
  cn_replay : r = None -> unread s' = [] -> forall rs (wr : World S), ready rs (unread s ++ evs) -> noCancel (w_tick wr) ->
    exists wr', runReplayProg p (wr, rs) =
      ((wr', advance (length (unread s ++ evs)) (outputsOf (unread s ++ evs)) rs), None) /\ still wr wr';
}.

Definition resimulates (p : Prog) : Prop := forall w s w' s' r,
  resuming s -> runResumeProg p (w, s) = ((w', s'), r) ->
  plain id (live s') /\ res_stream s' = res_stream s /\ exists evs, continued p w w' s s' r evs.

Lemma resumeGuard_run {A} (opL : M (World S * resumeSink) goerr A) opR ans (w w' : World S) s s' r :
  (forall w, opL (w, s) = ((w', s'), r) -> resumed opR ans w s w' s' r) ->
  resuming s -> resumeGuard opL (w, s) = ((w', s'), r) -> resumed opR ans w s w' s' r.
Proof.
  intros Hop (Hp & Hf & Heff) Hrun. unfold resumeGuard, getResume, gets, mbind, M_bind, check in Hrun.
  cbn [snd] in Hrun. assert (ls_guard (live s) = newGuard) as Hg by apply Hp. rewrite Hg in Hrun. cbn in Hrun.
  rewrite Hf in Hrun. cbn in Hrun.
  unfold onLive, onWorld, ctxCheck, tick, mbind, M_bind, check in Hrun. cbn in Hrun.
  destruct (ctxErr (w_tick w)) as [e|].
  - injection Hrun as <- <- <-. apply (resumed_err _ _ _ _ _ _ _ []); [done|by destruct s|by destruct s|done].
  - destruct s as [lv st i fl ap]. simpl in *.
    destruct (Hop _ Hrun) as (H1' & H2' & c1 & e1 & Hu & Ha & Hrest). split; [done|]. split; [done|].
    exists c1, e1. split; [done|]. by split.
Qed.

(** Every kind of effect. *)
Lemma resimulates_effect {A} p (opL : M (World S * resumeSink) goerr A) (opR : M (World S * replaySink) goerr A)
    ans (k : res A -> Prog) :
  (forall st, runResumeProg p st = let '(st', r) := resumeGuard opL st in runResumeProg (k r) st') ->
  (forall st, runReplayProg p st = let '(st', r) := replayGuard opR st in runReplayProg (k r) st') ->
  (forall w w' s s' r, resuming s -> opL (w, s) = ((w', s'), r) -> resumed opR ans w s w' s' r) ->
  (forall e, fails (k (Err e))) -> (forall a, resimulates (k (Ok a))) ->
  (forall u k', p = PUsage u k' -> forall rs rest w st a, ready rs rest -> opR (w, rs) = (st, Ok a) -> usageAt rest 0 = u) ->
  (forall a tail, (forall u k', k (Ok a) = PUsage u k' -> usageAt tail 0 = u) -> k (Ok (ans a tail)) = k (Ok a)) ->
  resimulates p.
Proof.
  intros HL HR Hop Hfail IH Hu Hans w s w' s' r Hs Hrun. rewrite HL in Hrun.
  destruct (resumeGuard opL (w, s)) as [[w1 s1] r1] eqn:E.
  apply (resumeGuard_run opL opR ans) in E as (Hp1 & Hst1 & c1 & e1 & Hu1 & Ha1 & He1 & Hor & Hr1); [|eauto|done].
  destruct r1 as [a|e].
  2: { destruct (Hfail e) as [e' Hf]. rewrite Hf in Hrun. injection Hrun as <- <- <-.
       split; [done|]. split; [done|]. exists e1. by constructor. }
  destruct Hr1 as [Hf1 Hserve]. destruct Hs as (_ & _ & Heff). rewrite Hu1 in Heff. apply Forall_app in Heff as [_ Heff1].
  destruct (IH a w1 s1 w' s' r) as (Hp' & Hst' & evs & [Ca Ce Cf Cu Cr]); [by split|done|].
  split; [done|]. split; [congruence|]. exists (e1 ++ evs).
  assert (Hcat : unread s ++ e1 ++ evs = (c1 ++ e1) ++ (unread s1 ++ evs)).
  { rewrite Hu1. destruct Hor as [->|Hn]; [by rewrite app_nil_r, <- !app_assoc|by rewrite Hn, app_nil_r, app_assoc]. }
  constructor; rewrite ?Hcat.
  - by eapply appended_trans.
  - by apply Forall_app.
  - done.
  - intros u k' wr Hpu Hr Hun Hnc.
    destruct (Hserve (unread s1 ++ evs) (mkReplaySink ((c1 ++ e1) ++ unread s1 ++ evs) 0 [] false None newGuard ∅ ∅)
      ltac:(by constructor) wr Hnc) as (wr' & Hop' & _).
    eapply (Hu _ _ Hpu); [|exact Hop']. by constructor.
  - intros Hr Hun rs wr Hready Hnc.
    destruct (serves_guard _ _ _ _ _ _ Hready (Hserve _ rs Hready) wr Hnc) as (wr1 & Hop1 & Hst).
    assert (noCancel (w_tick wr1)) as Hnc1 by (eapply noCancel_mono; [apply Hst|done]).
    destruct (Cr Hr Hun (advance (length (c1 ++ e1)) (outputsOf (c1 ++ e1)) rs) wr1) as (wr' & Hrun' & Hst2);
      [by apply ready_advance|done|].
    exists wr'. rewrite HR, Hop1.
    rewrite (Hans a (unread s1 ++ evs)) by (intros u k' Hk; exact (Cu u k' wr1 Hk Hr Hun Hnc1)).
    rewrite Hrun', advance_advance, (length_app (c1 ++ e1)). split; [|by eapply still_trans].
    do 2 f_equal. unfold outputsOf, recordedOutputs. by rewrite !omap_app.
Qed.

Lemma replay_usage_inv u rs rest (w : World S) st a :
  ready rs rest -> replay_usage u (w, rs) = (st, Ok a) -> usageAt rest 0 = u.
Proof.
  intros Hr Hrun. unfold replay_usage in Hrun.
  unfold mbind at 1, M_bind at 1, getReplay, gets in Hrun. cbn [snd] in Hrun. rewrite (rd_legacy _ _ Hr) in Hrun.
  rewrite <- (usageAt_ready _ _ Hr). unfold mbind at 1, M_bind at 1, replay_nextOf, getReplay, gets, mbind, M_bind in Hrun.
  cbn [snd] in Hrun. unfold nextOf in Hrun. unfold usageAt.
  destruct (rs_stream rs !! rs_i rs) as [e|]; [|done]. case_bool_decide as Hk; [|done]. cbn in Hrun.
  rewrite Hk. destruct (ev_Usage e) as [v|]; [|done]. by destruct (decide (v = u)).
Qed.

Lemma replayable_resimulates p : replayable p -> resimulates p.
Proof.
  induction p as [e|req k IH|d k IH|tc k IH|tr k IH|u k IH]; intros Hrep.
  - intros w s w' s' r (Hp & Hf & _) [= <- <- <-]. split; [done|]. split; [done|]. exists [].
    constructor; [apply appended_refl|done|done|done|]. intros -> Hu rs wr _ _. exists wr. rewrite Hu.
    split; [|apply still_refl]. simpl. unfold runReplayProg. simpl. by rewrite advance_0.
  - inversion Hrep as [|? ? Hk Hfail Huf| | | |]; subst.
    eapply (resimulates_effect _ (resume_model c req) (replay_model req) model_answer); try done; auto.
    + intros. by apply resume_model_run.
    + intros [m u] tail Ht. unfold model_answer. simpl. destruct (Huf m u) as [[k' Hk']|Hk']; [|apply Hk'].
      by rewrite (Ht _ _ Hk').
  - inversion Hrep as [| |? ? Hk Hfail| | |]; subst.
    eapply (resimulates_effect _ (resume_output c d) (replay_output d) same_answer (fun r => k (err_of r)));
      try done; auto. intros. by apply resume_output_run.
  - inversion Hrep as [| | |? ? Hm Hargs Hk Hfail| |]; subst.
    eapply (resimulates_effect _ (resume_toolCall c har tc) (replay_toolCall tc) same_answer); try done; auto.
    intros. by apply resume_toolCall_run.
  - inversion Hrep as [| | | |? ? Hk Hfail|]; subst.
    eapply (resimulates_effect _ (resume_report c tr) (replay_report tr) same_answer (fun r => k (err_of r)));
      try done; auto. intros. by apply resume_report_run.
  - inversion Hrep as [| | | | |? ? Hk Hfail]; subst.
    eapply (resimulates_effect _ (resume_usage c u) (replay_usage u) same_answer (fun r => k (err_of r)));
      try done; auto.
    + intros. by apply resume_usage_run.
    + intros u' k' [= <- _] rs rest w st a. apply replay_usage_inv.
Qed.
End recovery.
