(* ===== verification/Retraces.v ===== *)
(** * Recovery along a trace (controller/resume.go)

    A resume sink that holds a trace of the harness never diverges: each effect is served from the
    record, or runs live once the record is used up, and the record stays a trace. *)
From S2P Require Import Prelude GoErrors Api Canon EventLog Executions Approvals Harness Sinks Controller LiveSpec Simulation ReplaySafety Turns Recovery.

Section resumed.
Context `{Host} {S : Type} `{StoreLaws S} `{!FaithfulStore S}.
Variables (c : Controller) (har : Harness) (id : string).

(** The sink has not read past its record. *)
Definition within (s : resumeSink) : Prop := (res_i s <= length (res_stream s))%nat.

Lemma within_index s e rest : unread s = e :: rest -> within (resIndex (Datatypes.S (res_i s)) s).
Proof. intros [Hl%lookup_lt_Some _]%drop_step. unfold within. simpl. lia. Qed.

(** A resumed effect of [p] either serves its recorded answer, or the record is used up and it runs
    the live effect [m], one of [G]; its answer is one of [V], and [k] continues the run. *)
Inductive resume_step {A} (G : M (LiveState (S := S)) goerr A -> Prop) (V : A -> Prop) (op : M ResumeState goerr A)
    (p : Prog) (k : A -> Prog) (w : World S) (s : resumeSink) : Prop :=
  | step_served a s' : op (w, s) = ((w, s'), Ok a) -> resuming id s' -> trace (k a) (unread s') ->
      (forall more, trace (k a) (unread s' ++ more) -> trace p (unread s ++ more)) ->
      (within s -> within s') -> V a -> resume_step G V op p k w s
  | step_live m s0 Q E : op (w, s) = onLive m (w, s0) -> G m -> resuming id s0 -> unread s0 = [] ->
      live_spec id m Q -> live_err id m E -> E [] -> (forall es, E es -> trace p (unread s ++ es)) ->
      (forall a es more, Q a es -> trace (k a) more -> trace p (unread s ++ es ++ more)) ->
      (within s -> within s0) -> (forall a es, Q a es -> V a) -> resume_step G V op p k w s.

Lemma resuming_index s e rest : resuming id s -> unread s = e :: rest ->
  resuming id (resIndex (Datatypes.S (res_i s)) s).
Proof.
  intros (Hp & Hf & He) Hu. split; [done|]. split; [done|]. rewrite (unread_next _ _ _ Hu). rewrite Hu in He.
  by apply Forall_cons_iff in He as [_ ?].
Qed.

Lemma serving_cons {A} (f : bool -> M (ResumeState (S := S)) goerr A) e rest (w : World S) s :
  unread s = e :: rest -> (getResume serving ≫= f) (w, s) = f true (w, s).
Proof. intros Hu. by rewrite serving_run, Hu, bool_decide_eq_false_2. Qed.

Lemma serving_nil {A} (f : bool -> M (ResumeState (S := S)) goerr A) (w : World S) s :
  unread s = [] -> (getResume serving ≫= f) (w, s) = f false (w, s).
Proof. intros Hu. by rewrite serving_run, Hu. Qed.

Lemma recordedNext_hit k e rest (w : World S) s : unread s = e :: rest -> Kind e = k ->
  recordedNext k (w, s) = ((w, resIndex (Datatypes.S (res_i s)) s), Ok (Some e)).
Proof. intros Hu Hk. by rewrite recordedNext_run, Hu, bool_decide_eq_true_2. Qed.

Lemma recordedNext_miss k (w : World S) s : unread s = [] -> recordedNext k (w, s) = ((w, s), Ok None).
Proof. intros Hu. by rewrite recordedNext_run, Hu. Qed.

Lemma resume_model_step (G : M LiveState goerr ModelResponse -> Prop) req k (w : World S) s :
  G (live_model c req) -> G (completeModel c req) -> usage_faithful k -> resuming id s ->
  trace (PModel req k) (unread s) -> resume_step G (fun _ => True) (resume_model c req) (PModel req k) (fun a => k (Ok a)) w s.
Proof.
  intros G1 G2 Hk Hs Ht. pose proof Hs as (Hp & Hf & Heff).
  inversion Ht as [p Hp' Hu|? ? e He Hp' Hu|? ? e1 e2 m rest He1 He2 Htr Hp' Hu| | | | |]; symmetry in Hu; subst.
  - refine (step_live _ _ _ _ _ _ _ _ s _ _ _ G1 Hs Hu (spec_live_model c id req) (err_live_model c id req) _ _ _ _ _); [..|done|done].
    + unfold resume_model. by rewrite (serving_nil _ _ _ Hu).
    + by left.
    + rewrite Hu. intros es [->|(e & -> & He)]; [apply tr_cut|by apply tr_model_open].
    + rewrite Hu. intros [m u] es more (e1 & e2 & -> & He1 & He2) Htr. by eapply trace_model.
  - pose proof (resuming_index _ _ _ Hs Hu) as Hs1. pose proof (unread_next _ _ _ Hu) as Hu1.
    destruct He as [Hk1 (mc & Hmc & Hh)].
    refine (step_live _ _ _ _ _ _ _ _ _ _ _ _ G2 Hs1 Hu1 (spec_completeModel c id req) (err_completeModel c id req) _ _ _ _ _); [|done|..|intros _; by eapply within_index|done].
    + unfold resume_model. rewrite (serving_cons _ _ _ _ _ Hu). cbn [negb].
      unfold mbind at 1, M_bind at 1. rewrite (recordedNext_hit _ _ _ _ _ Hu Hk1), Hmc, Hh, bool_decide_eq_true_2 by done.
      cbn [negb]. unfold mbind at 1, M_bind at 1. rewrite (recordedNext_miss _ _ _ Hu1).
      unfold mbind at 1, M_bind at 1, getResume at 1, gets at 1. cbn [snd]. rewrite (serving_nil _ _ _ Hu1).
      assert (legacyRecovery (live s) = false) as Hleg by apply Hp. simpl. rewrite Hleg. done.
    + rewrite Hu. intros es ->. apply tr_model_open. split; eauto.
    + rewrite Hu. intros [m u] es more (e2 & -> & He2) Htr. eapply (trace_model _ _ _ e2); eauto. split; eauto.
  - pose proof (resuming_index _ _ _ Hs Hu) as Hs1. pose proof (unread_next _ _ _ Hu) as Hu1.
    pose proof (resuming_index _ _ _ Hs1 Hu1) as Hs2. pose proof (unread_next _ _ _ Hu1) as Hu2.
    pose proof He1 as [Hk1 (mc & Hmc & Hh)]. pose proof He2 as [Hk2 Hm].
    eapply (step_served _ _ _ _ _ _ _ (mkModelResponse m (usageAt rest 0))); [|exact Hs2|by rewrite Hu2| |intros _; by eapply within_index|done].
    + unfold resume_model. rewrite (serving_cons _ _ _ _ _ Hu). cbn [negb].
      unfold mbind at 1, M_bind at 1. rewrite (recordedNext_hit _ _ _ _ _ Hu Hk1), Hmc, Hh, bool_decide_eq_true_2 by done.
      cbn [negb]. unfold mbind at 1, M_bind at 1. rewrite (recordedNext_hit _ _ _ _ _ Hu1 Hk2).
      unfold mbind, M_bind, getResume, gets, mret, M_ret. cbn [snd].
      assert (legacyRecovery (live s) = false) as Hleg by apply Hp. simpl. rewrite Hleg, Hm. simpl.
      rewrite <- Hu2. unfold unread, usageAt. simpl. by rewrite lookup_drop, Nat.add_0_r.
    + rewrite Hu, Hu2. intros more Htr'. by eapply trace_model.
Qed.

Lemma resume_output_step (G : M LiveState goerr unit -> Prop) d k (w : World S) s :
  G (live_output c d) -> resuming id s -> trace (POutput d k) (unread s) ->
  resume_step G (fun _ => True) (resume_output c d) (POutput d k) (fun _ => k None) w s.
Proof.
  intros HG Hs Ht. inversion Ht as [p Hp' Hu| | |? ? e rest He Htr Hp' Hu| | | |]; symmetry in Hu; subst.
  - refine (step_live _ _ _ _ _ _ _ _ s _ _ _ HG Hs Hu (spec_live_output c id d) (err_live_output c id d) _ _ _ _ _); [|done|..|done|done].
    + unfold resume_output. by rewrite (serving_nil _ _ _ Hu).
    + rewrite Hu. intros es ->. apply tr_cut.
    + rewrite Hu. intros [] es more (e & -> & He) Htr. by apply tr_output.
  - pose proof (unread_next _ _ _ Hu) as Hu1. pose proof He as [Hk Hm].
    eapply (step_served _ _ _ _ _ _ _ tt); [|exact (resuming_index _ _ _ Hs Hu)|by rewrite Hu1| |intros _; by eapply within_index|done].
    + unfold resume_output. rewrite (serving_cons _ _ _ _ _ Hu). cbn [negb]. unfold mbind, M_bind.
      by rewrite (recordedNext_hit _ _ _ _ _ Hu Hk), Hm, Text_TextMessage, bool_decide_eq_true_2.
    + rewrite Hu, Hu1. intros more Htr'. by apply tr_output.
Qed.

Lemma resume_usage_step (G : M LiveState goerr unit -> Prop) u k (w : World S) s :
  G (live_usage c u) -> resuming id s -> trace (PUsage u k) (unread s) ->
  resume_step G (fun _ => True) (resume_usage c u) (PUsage u k) (fun _ => k None) w s.
Proof.
  intros HG Hs Ht. assert (legacyRecovery (live s) = false) as Hleg by apply Hs.
  assert (Hget : forall f : bool -> M (ResumeState (S := S)) goerr unit,
    (getResume (fun s => legacyRecovery (live s)) ≫= f) (w, s) = f false (w, s)).
  { intros f. unfold mbind, M_bind, getResume, gets. cbn [snd]. by rewrite Hleg. }
  inversion Ht as [p Hp' Hu| | | | | | |? ? e rest He Htr Hp' Hu]; symmetry in Hu; subst.
  - refine (step_live _ _ _ _ _ _ _ _ s _ _ _ HG Hs Hu (spec_live_usage c id u) (err_live_usage c id u) _ _ _ _ _); [|done|..|done|done].
    + unfold resume_usage. by rewrite Hget, (serving_nil _ _ _ Hu).
    + rewrite Hu. intros es ->. apply tr_cut.
    + rewrite Hu. intros [] es more (e & -> & He) Htr. by apply tr_usage.
  - pose proof (unread_next _ _ _ Hu) as Hu1. pose proof He as [Hk Hm].
    eapply (step_served _ _ _ _ _ _ _ tt); [|exact (resuming_index _ _ _ Hs Hu)|by rewrite Hu1| |intros _; by eapply within_index|done].
    + unfold resume_usage. rewrite Hget, (serving_cons _ _ _ _ _ Hu). cbn [negb]. unfold mbind, M_bind.
      by rewrite (recordedNext_hit _ _ _ _ _ Hu Hk), Hm, decide_True.
    + rewrite Hu, Hu1. intros more Htr'. by apply tr_usage.
Qed.

Lemma resume_report_step (G : M LiveState goerr unit -> Prop) tr k (w : World S) s :
  G (live_report c tr) -> resuming id s -> approvalReportError tr = None -> trace (PReport tr k) (unread s) ->
  resume_step G (fun _ => True) (resume_report c tr) (PReport tr k) (fun _ => k None) w s.
Proof.
  intros HG Hs Hre Ht. pose proof Hs as (Hp & Hf & Heff).
  assert (Hstart : resume_report c tr (w, s) =
    (let! serve := getResume serving in
     if negb serve then onLive (live_report c tr)
     else
       let! i := getResume res_i in
       let! stream := getResume res_stream in
       if receiptAt stream i then resumeFailWith (divergedText "Report cannot consume approval receipt")
       else
         let! ev := recordedNext EventToolResult in
         match ev with
         | None => resume_diverged "resume: recorded stream diverged (expected tool result)"
         | Some _ => mret tt
         end) (w, s)).
  { unfold resume_report.
    unfold mbind at 1, M_bind at 1, getResume at 1, gets at 1. cbn [snd].
    assert (default false (ls_calls (live s) !! tr_ID tr) = false) as ->.
    { destruct Hp as (_ & _ & _ & Hc). specialize (Hc (tr_ID tr)). by destruct (_ !! _) as [[]|]. }
    by rewrite Hre. }
  inversion Ht as [p Hp' Hu| | | | | |? ? e rest _ He Htr Hp' Hu|]; symmetry in Hu; subst.
  - refine (step_live _ _ _ _ _ _ _ _ s _ _ _ HG Hs Hu (spec_live_report c id tr) (err_live_report c id tr) _ _ _ _ _); [|done|..|done|done].
    + by rewrite Hstart, (serving_nil _ _ _ Hu).
    + rewrite Hu. intros es ->. apply tr_cut.
    + rewrite Hu. intros [] es more (_ & e & -> & He) Htr. by apply tr_report.
  - pose proof (unread_next _ _ _ Hu) as Hu1. pose proof He as [Hk Hm].
    eapply (step_served _ _ _ _ _ _ _ tt); [|exact (resuming_index _ _ _ Hs Hu)|by rewrite Hu1| |intros _; by eapply within_index|done].
    + rewrite Hstart, (serving_cons _ _ _ _ _ Hu). cbn [negb].
      unfold mbind at 1, M_bind at 1, getResume at 1, gets at 1. cbn [snd].
      unfold mbind at 1, M_bind at 1, getResume at 1, gets at 1. cbn [snd].
      assert (receiptAt (res_stream s) (res_i s) = false) as ->.
      { apply drop_step in Hu as [Hl _]. unfold receiptAt. by rewrite Hl, Hm, Hre. }
      unfold mbind, M_bind. by rewrite (recordedNext_hit _ _ _ _ _ Hu Hk).
    + rewrite Hu, Hu1. intros more Htr'. by apply tr_report.
Qed.

(** Marking a matched ordinary call. *)
Definition markCall (i : string) (s : resumeSink) : resumeSink :=
  mkResumeSink (setCall i false (live s)) (res_stream s) (res_i s) (res_failure s) (res_approvals s).

Lemma resuming_mark i s : resuming id s -> resuming id (markCall i s).
Proof.
  intros ((? & ? & ? & Hc) & ? & ?). split; [|done]. split; [done|]. split; [done|]. split; [done|].
  simpl. intros j. destruct (decide (j = i)) as [->|]; [by rewrite lookup_insert_eq|by rewrite lookup_insert_ne].
Qed.

(** The intent of an ordinary call on its own trace is matched and marked. *)
Lemma resume_toolCall_matched tc e rest (w : World S) s : tc_Mediation tc = MediationControllerMediated ->
  IdempotencyKey tc <> EmptyString -> representable (Args tc) -> isToolCall tc e -> unread s = e :: rest ->
  resume_toolCall c har tc (w, s) =
  resume_ordinary c tc (w, markCall (tc_ID tc) (resIndex (Datatypes.S (res_i s)) s)).
Proof.
  intros Hm Hkey Hargs [Hk Htc] Hu. pose proof Hu as Hu'. apply drop_step in Hu' as [Hl _]. unfold resume_toolCall.
  unfold mbind at 1, M_bind at 1, getResume at 1, gets at 1. cbn [snd].
  unfold mbind at 1, M_bind at 1, getResume at 1, gets at 1. cbn [snd].
  unfold keylessRejected, distinctFallback. rewrite (bool_decide_eq_false_2 _ Hkey), andb_false_r. cbn [andb].
  rewrite (serving_cons _ _ _ _ _ Hu). cbn [negb]. rewrite Hl, Hk, Htc, (bool_decide_eq_true_2 (tc_ID tc = tc_ID tc)) by done.
  cbn [negb andb]. unfold mbind at 1, M_bind at 1. cbn [check].
  unfold mbind at 1, M_bind at 1. rewrite (recordedNext_hit _ _ _ _ _ Hu Hk), Htc.
  rewrite (matchToolCall_self tc) by done. rewrite Hm, bool_decide_eq_false_2 by done. done.
Qed.

(** The answers to an ordinary tool call. *)
Definition answerOf (tc : ToolCall) (r : ToolResult) : Prop := tr_ID r = tc_ID tc /\ approvalReportError r = None.

Lemma resume_toolCall_step (G : M LiveState goerr ToolResult -> Prop) tc k (w : World S) s :
  G (live_toolCall c har tc) -> G (execTool c tc) -> tc_Mediation tc <> MediationRequiresApproval ->
  representable (Args tc) -> resuming id s -> (unread s = [] -> keylessRejected (res_stream s) (res_i s) tc = false) ->
  trace (PToolCall tc k) (unread s) ->
  resume_step G (answerOf tc) (resume_toolCall c har tc) (PToolCall tc k) (fun a => k (Ok a)) w s.
Proof.
  intros G1 G2 Hng Hargs Hs Hkey0 Ht.
  inversion Ht as [p Hp' Hu| | | |? ? e Hm Hkey He Hp' Hu|? ? e1 e2 r rest Hm Hkey He1 He2 Hid Ha Htr Hp' Hu| |];
    symmetry in Hu; subst.
  - specialize (Hkey0 Hu).
    refine (step_live _ _ _ _ _ _ _ _ s _ _ _ G1 Hs Hu (spec_live_toolCall c har id tc Hng) (err_live_toolCall c har id tc Hng) _ _ _ _ _);
      [|by left|..|done|].
    + unfold resume_toolCall. unfold mbind at 1, M_bind at 1, getResume at 1, gets at 1. cbn [snd].
      unfold mbind at 1, M_bind at 1, getResume at 1, gets at 1. cbn [snd].
      by rewrite Hkey0, (serving_nil _ _ _ Hu).
    + rewrite Hu. intros es [->|(Hm & Hk & e & -> & He)]; [apply tr_cut|by apply tr_tool_open].
    + rewrite Hu. intros a es more (Hm & Hk & Hid & Ha & e1 & e2 & -> & He1 & He2) Htr. by eapply tr_tool.
    + intros a es (_ & _ & Hid & Ha & _). by split.
  - set (s1 := markCall (tc_ID tc) (resIndex (Datatypes.S (res_i s)) s)).
    assert (Hs1 : resuming id s1) by (apply resuming_mark; by eapply resuming_index).
    assert (Hu1 : unread s1 = []) by exact (unread_next _ _ _ Hu).
    refine (step_live _ _ _ _ _ _ _ _ s1 _ _ _ G2 Hs1 Hu1 (spec_execTool c id tc) (err_execTool c id tc) _ _ _ _ _);
      [|done|..|intros _; by eapply within_index|].
    + rewrite (resume_toolCall_matched _ _ _ _ _ Hm Hkey Hargs He Hu). fold s1. unfold resume_ordinary.
      unfold mbind at 1, M_bind at 1. rewrite (recordedNext_miss _ _ _ Hu1). by rewrite (serving_nil _ _ _ Hu1).
    + rewrite Hu. intros es ->. by apply tr_tool_open.
    + rewrite Hu. intros a es more (Hid & Ha & e2 & -> & He2) Htr. by eapply tr_tool.
    + intros a es (Hid & Ha & _). by split.
  - set (s1 := markCall (tc_ID tc) (resIndex (Datatypes.S (res_i s)) s)).
    assert (Hs1 : resuming id s1) by (apply resuming_mark; by eapply resuming_index).
    assert (Hu1 : unread s1 = e2 :: rest) by exact (unread_next _ _ _ Hu).
    pose proof (unread_next _ _ _ Hu1) as Hu2. pose proof He2 as [Hk2 Hr2].
    eapply (step_served _ _ _ _ _ _ _ r); [|exact (resuming_index _ _ _ Hs1 Hu1)|by rewrite Hu2| |intros _; by eapply within_index|by split].
    + rewrite (resume_toolCall_matched _ _ _ _ _ Hm Hkey Hargs He1 Hu). fold s1. unfold resume_ordinary.
      unfold mbind, M_bind. rewrite (recordedNext_hit _ _ _ _ _ Hu1 Hk2), Hr2.
      unfold recordedToolResult. by rewrite bool_decide_eq_true_2.
    + rewrite Hu, Hu2. intros more Htr'. by eapply tr_tool.
Qed.

(** The preamble of a resumed effect. *)
Definition bump (w : World S) : World S :=
  mkWorld (w_log w) (Datatypes.S (w_tick w)) (liveModelCalls w) (liveToolCalls w) (w_updates w) (w_asked w).

Lemma resumeGuard_eq {A} (op : M (ResumeState (S := S)) goerr A) (w : World S) s : resuming id s ->
  resumeGuard op (w, s) = match ctxErr (w_tick w) with Some e => ((bump w, s), Err e) | None => op (bump w, s) end.
Proof.
  intros ((_ & _ & Hg & _) & Hf & _). unfold resumeGuard, getResume, gets, mbind, M_bind, check. cbn [snd].
  rewrite Hg. cbn. rewrite Hf. unfold onLive, onWorld, ctxCheck, tick, mbind, M_bind, check. cbn.
  destruct s; simpl in *; subst. destruct (ctxErr (w_tick w)); done.
Qed.

(** Running the live effect of a step. *)
Lemma onLive_step {A} (m : M LiveState goerr A) Q (w w' : World S) s0 s' r : live_spec id m Q ->
  resuming id s0 -> unread s0 = [] -> onLive m (w, s0) = ((w', s'), r) ->
  resuming id s' /\ unread s' = [] /\ exists evs, appended (w_log w) (w_log w') evs /\
    match r with Ok a => Q a evs | Err _ => True end.
Proof.
  intros Hm (Hp & Hf & _) Hu Hrun.
  destruct (onLive_run _ _ _ _ _ _ _ _ Hm Hp Hrun) as (Hp' & Hs' & Hi' & Hf' & evs & Ha & _ & Hr).
  assert (unread s' = []) as Hu' by (unfold unread in *; by rewrite Hs', Hi').
  split; [split; [done|]; split; [congruence|by rewrite Hu']|]. split; [done|]. by exists evs.
Qed.

Definition resume_traces (p : Prog) : Prop := forall (w : World S) s w' s' r,
  resuming id s -> trace p (unread s) -> runResumeProg c har p (w, s) = ((w', s'), r) ->
  exists evs, appended (w_log w) (w_log w') evs /\ trace p (unread s ++ evs).

Lemma resume_traces_effect {A} V p (op : M (ResumeState (S := S)) goerr A) (k : res A -> Prog) :
  (forall w s, resuming id s -> trace p (unread s) ->
     (exists e, op (w, s) = ((w, s), Err e)) \/ resume_step (fun _ => True) V op p (fun a => k (Ok a)) w s) ->
  (forall st, runResumeProg c har p st = let '(st', r) := resumeGuard op st in runResumeProg c har (k r) st') ->
  (forall e, fails (k (Err e))) -> (forall a, resume_traces (k (Ok a))) -> resume_traces p.
Proof.
  intros Hstep HL Hfail IH w s w' s' r Hs Ht Hrun. rewrite HL, resumeGuard_eq in Hrun by done.
  assert (Hend : forall e (w1 : World S) s1, w_log w1 = w_log w -> runResumeProg c har (k (Err e)) (w1, s1) = ((w', s'), r) ->
    exists evs, appended (w_log w) (w_log w') evs /\ trace p (unread s ++ evs)).
  { intros e w1 s1 Hw Hr. destruct (Hfail e) as [e' He]. rewrite He in Hr. injection Hr as <- <- <-.
    exists []. rewrite app_nil_r. split; [apply appended_same; by rewrite Hw|done]. }
  destruct (ctxErr (w_tick w)) as [e|]; [by eapply Hend; [|exact Hrun]|].
  destruct (Hstep (bump w) s Hs Ht) as [[e He]|[a s1 Hop Hs1 Ht1 Hmore _ _|m s0 Q E Hop _ Hs0 Hu0 Hm Herr _ HE HQ _ _]].
  - rewrite He in Hrun. by eapply Hend; [|exact Hrun].
  - rewrite Hop in Hrun. destruct (IH a _ _ _ _ _ Hs1 Ht1 Hrun) as (evs & Ha & Ht2). exists evs. split; [done|auto].
  - rewrite Hop in Hrun. destruct (onLive m (bump w, s0)) as [[w1 s1] r1] eqn:E1.
    destruct (onLive_step _ _ _ _ _ _ _ Hm Hs0 Hu0 E1) as (Hs1 & Hu1 & e1 & Ha1 & Hq).
    destruct r1 as [a|e].
    + destruct (IH a _ _ _ _ _ Hs1 ltac:(rewrite Hu1; apply tr_cut) Hrun) as (e2 & Ha2 & Ht2).
      rewrite Hu1 in Ht2. exists (e1 ++ e2). split; [exact (appended_trans _ _ _ _ _ Ha1 Ha2)|by apply (HQ a)].
    + destruct (Hfail e) as [e' Hf]. rewrite Hf in Hrun. injection Hrun as <- <- <-.
      unfold onLive in E1. cbn [fst snd] in E1. destruct (m (bump w, live s0)) as [[w2 l2] r2] eqn:E2.
      injection E1 as <- _ ->. destruct (Herr _ _ _ _ _ (proj1 Hs0) E2) as (es & Has & HEs).
      exists es. split; [exact Has|auto].
Qed.

(** A recovery extends the trace it starts from. *)
Lemma replayable_resume_traces p : replayable p -> resume_traces p.
Proof.
  induction p as [e|req k IH|d k IH|tc k IH|tr k IH|u k IH]; intros Hrep; inversion Hrep; subst.
  - intros w s w' s' r Hs Ht [= <- <- <-]. exists []. rewrite app_nil_r. auto with agent.
  - eapply (resume_traces_effect _ _ (resume_model c req)); try done; auto.
    intros w s Hs Ht. right. by apply resume_model_step.
  - eapply (resume_traces_effect _ _ (resume_output c d) (fun r => k (err_of r))); try done; auto.
    intros w s Hs Ht. right. by apply resume_output_step.
  - eapply (resume_traces_effect _ _ (resume_toolCall c har tc)); try done; auto.
    intros w s Hs Ht. destruct (keylessRejected (res_stream s) (res_i s) tc) eqn:Hk.
    + left. exists (ESentinel ErrMissingIdempotencyKey). unfold resume_toolCall.
      unfold mbind at 1, M_bind at 1, getResume at 1, gets at 1. cbn [snd].
      unfold mbind at 1, M_bind at 1, getResume at 1, gets at 1. cbn [snd]. by rewrite Hk.
    + right. by apply resume_toolCall_step.
  - eapply (resume_traces_effect _ _ (resume_report c tr) (fun r => k (err_of r))); try done; auto.
    intros w s Hs Ht. destruct (approvalReportError tr) as [e|] eqn:Hre.
    + left. exists e. unfold resume_report.
      unfold mbind at 1, M_bind at 1, getResume at 1, gets at 1. cbn [snd].
      assert (default false (ls_calls (live s) !! tr_ID tr) = false) as ->.
      { destruct Hs as ((_ & _ & _ & Hc) & _). specialize (Hc (tr_ID tr)). by destruct (_ !! _) as [[]|]. }
      by rewrite (serving_run _ w s), Hre.
    + right. by apply resume_report_step.
  - eapply (resume_traces_effect _ _ (resume_usage c u) (fun r => k (err_of r))); try done; auto.
    intros w s Hs Ht. right. by apply resume_usage_step.
Qed.
End resumed.
