(* ===== verification/Progress.v ===== *)
(** * Recovery completes (controller/resume.go)

    When the store accepts the controller's writes and the model and the tools answer, a dependable
    harness recovers from any of its traces: the recorded effects are served, the rest runs live, and
    the run succeeds. The second part is [Resume] as a whole. *)
From S2P Require Import Prelude GoErrors Api Canon EventLog Executions Approvals Harness Sinks Controller LiveSpec Simulation ReplaySafety Turns Recovery Retraces.

(** A store that keeps accepting a controller's writes: [I] is an invariant of its states under which
    no operation fails. *)
Record reliable {S} `{Store S} `{StoreView S} (I : S -> Prop) (fence : Z) : Prop := {
  rl_writable : forall s, I s -> exists s', st_CheckWritable s = (s', Ok tt) /\ I s';
  rl_read : forall s n, I s -> exists s' rs, st_Read n s = (s', Ok rs) /\ I s';
  rl_head : forall s, I s -> exists s' h, st_Head s = (s', Ok h) /\ I s';
  rl_append : forall s ev, I s -> exists s' rec,
    st_Append (headOf (journal s)) fence ev s = (s', Ok rec) /\ I s';
}.

(** The in-memory log is one, for a controller that holds the fence, if events can be encoded. *)
Lemma Log_reliable `{Encoding} fence :
  (forall ev, is_ok (marshalEvent ev) = true) -> (forall b, is_ok (jcsTransform b) = true) ->
  reliable (fun l : Log => log_fence l <= fence) fence.
Proof.
  intros Hm Hj. constructor; simpl; eauto. intros l ev Hf. unfold Append, Head.
  rewrite Z.eqb_refl. simpl. destruct (Z.ltb_spec fence (log_fence l)); [lia|].
  unfold HashRecord, canonRecord, canonEvent. specialize (Hm ev). destruct (marshalEvent ev) as [b|]; [|done].
  cbn [mbind result_bind]. pose proof (Hj b) as Hb. destruct (jcsTransform b) as [b'|]; [|done]. cbn [mbind result_bind].
  match goal with |- context [jcsTransform ?x] => pose proof (Hj x) as Hx; destruct (jcsTransform x); [|done] end.
  cbn. eauto.
Qed.

Section progress.
Context `{Host} {S : Type} `{StoreLaws S} `{!FaithfulStore S}.
Variables (c : Controller) (har : Harness) (I : S -> Prop).
Hypothesis Hstore : reliable I (c_fence c).

(** The model always answers. *)
Definition model_answers : Prop := forall t req,
  match c_stream c with
  | None => is_ok (c_model c t req) = true
  | Some stream => is_ok (snd (stream t req)) = true
  end.

(** The tool executor always answers, with an ordinary result. *)
Definition tools_answer : Prop := exists tool, c_tool c = Some tool /\ forall t ctx call,
  snd (tool t ctx call) = None /\ approvalReportError (fst (tool t ctx call)) = None.

(** A replayable program that succeeds whenever its effects do, and only uses well-formed ones. *)
Inductive dependable : Prog -> Prop :=
  | dp_return : dependable (PReturn None)
  | dp_model req k : model_answers -> (forall resp, dependable (k (Ok resp))) -> usage_faithful k ->
      dependable (PModel req k)
  | dp_output d k : dependable (k None) -> dependable (POutput d k)
  | dp_tool tc k : tools_answer -> tc_Mediation tc = MediationControllerMediated ->
      IdempotencyKey tc <> EmptyString -> representable (Args tc) -> (forall r, answerOf tc r -> dependable (k (Ok r))) ->
      dependable (PToolCall tc k)
  | dp_report tr k : approvalReportError tr = None -> dependable (k None) -> dependable (PReport tr k)
  | dp_usage u k : dependable (k None) -> dependable (PUsage u k).

(** The world in which effects succeed. *)
Definition serviceable (w : World S) : Prop := I (w_log w) /\ noCancel (w_tick w).

(** A live effect that succeeds in such a world, and keeps it so. *)
Definition answers {A} (id : string) (m : M (LiveState (S := S)) goerr A) : Prop :=
  forall w ls, plain id ls -> serviceable w -> exists w' ls' a, m (w, ls) = ((w', ls'), Ok a) /\ serviceable w'.

(** A step on the world that succeeds. *)
Definition runs {A} (m : M (World S) goerr A) : Prop :=
  forall w, serviceable w -> exists w' a, m w = (w', Ok a) /\ serviceable w'.

Lemma serviceable_later (w : World S) l t n m o a : serviceable w -> I l -> (w_tick w <= t)%nat ->
  serviceable (mkWorld l t n m o a).
Proof. intros [_ Hnc] Hl Ht. split; [done|]. by eapply noCancel_mono. Qed.

Lemma answers_bind {A B} id (m : M LiveState goerr A) (f : A -> M LiveState goerr B) Q :
  live_spec id m Q -> answers id m -> (forall a es, Q a es -> answers id (f a)) -> answers id (m ≫= f).
Proof.
  intros Hm Ha Hf w ls Hp Hw. destruct (Ha w ls Hp Hw) as (w1 & ls1 & a & Hrun & Hw1).
  destruct (Hm _ _ _ _ _ Hp Hrun) as (Hp1 & es & _ & _ & Hq). destruct (Hf a es Hq w1 ls1 Hp1 Hw1) as (w2 & ls2 & b & Hrun2 & Hw2).
  exists w2, ls2, b. split; [|done]. unfold mbind, M_bind. by rewrite Hrun.
Qed.

Lemma answers_ret {A} id (a : A) : answers id (mret a).
Proof. intros w ls _ Hw. by exists w, ls, a. Qed.

Lemma answers_getSink {A} id (f : liveSink -> A) : answers id (getSink f).
Proof. intros w ls _ Hw. by exists w, ls, (f ls). Qed.

Lemma answers_modSink id f : answers id (modSink f).
Proof. intros w ls _ Hw. by exists w, (f ls), tt. Qed.

Lemma answers_world {A} id (m : M (World S) goerr A) : runs m -> answers id (onWorld m).
Proof.
  intros Hm w ls _ Hw. destruct (Hm w Hw) as (w' & a & Hrun & Hw'). exists w', ls, a.
  split; [|done]. unfold onWorld. simpl. by rewrite Hrun.
Qed.

Lemma runs_bind {A B} (m : M (World S) goerr A) (f : A -> M (World S) goerr B) :
  runs m -> (forall a, runs (f a)) -> runs (m ≫= f).
Proof.
  intros Hm Hf w Hw. destruct (Hm w Hw) as (w1 & a & Hrun & Hw1). destruct (Hf a w1 Hw1) as (w2 & b & Hrun2 & Hw2).
  exists w2, b. split; [|done]. unfold mbind, M_bind. by rewrite Hrun.
Qed.

Lemma runs_ret {A} (a : A) : runs (mret a).
Proof. intros w Hw. by exists w, a. Qed.

Lemma runs_onLog {A} (m : M S goerr A) : (forall s, I s -> exists s' a, m s = (s', Ok a) /\ I s') -> runs (onLog m).
Proof.
  intros Hm w Hw. destruct (Hm (w_log w)) as (s' & a & Hrun & Hs'); [apply Hw|]. unfold onLog. rewrite Hrun.
  do 2 eexists. split; [done|]. by eapply serviceable_later.
Qed.

Lemma runs_tick : runs tick.
Proof. intros w Hw. do 2 eexists. split; [done|]. eapply serviceable_later; [done|apply Hw|lia]. Qed.

Lemma runs_ask a : runs (ask a).
Proof. intros w Hw. do 2 eexists. split; [done|]. eapply serviceable_later; [done|apply Hw|lia]. Qed.

Lemma runs_ctxCheck : runs ctxCheck.
Proof.
  intros w Hw. unfold ctxCheck, tick, mbind, M_bind. rewrite (proj2 Hw (w_tick w)) by lia.
  do 2 eexists. split; [done|]. eapply serviceable_later; [done|apply Hw|lia].
Qed.

Lemma runs_modify f : (forall w : World S, w_log (f w) = w_log w /\ w_tick (f w) = w_tick w) -> runs (modify f).
Proof.
  intros Hf w [Hi Hn]. destruct (Hf w) as [H1' H2']. exists (f w), tt. split; [done|]. split; by rewrite ?H1', ?H2'.
Qed.

Lemma runs_observe r : runs (observe c r).
Proof. apply runs_modify. intros w. by destruct (onRecord c). Qed.

Lemma runs_emitDelta i p t d : runs (emitDelta c i p t d).
Proof. apply runs_modify. intros w. by destruct (_ || _). Qed.

Lemma runs_emitChunks i chunks : runs (emitChunks c i chunks).
Proof.
  induction chunks as [|ch chs IH]; [apply runs_ret|]. apply runs_bind; [apply runs_emitDelta|done].
Qed.

Lemma runs_lift {A} (r : res A) : is_ok r = true -> runs (lift r).
Proof. destruct r as [a|]; [|done]. intros _ w Hw. by exists w, a. Qed.

Lemma runs_invokeModel i req : model_answers -> runs (invokeModel c i req).
Proof.
  intros Hm. unfold invokeModel. apply runs_bind; [apply runs_ask|]. intros t. specialize (Hm t req).
  destruct (c_stream c) as [stream|]; [|by apply runs_lift]. destruct (stream t req) as [chunks r].
  apply runs_bind; [apply runs_emitChunks|]. intros _. apply runs_bind; [by apply runs_lift|]. intros resp.
  apply runs_bind; [apply runs_emitDelta|]. intros _. apply runs_ret.
Qed.

Lemma runs_newID : runs newID.
Proof. apply runs_bind; [apply runs_tick|]. intros t. apply runs_ret. Qed.

(** An append at the head. *)
Lemma runs_appendSeq i ev : i <> EmptyString -> runs (appendSeq c i ev).
Proof.
  intros Hi w Hw. unfold appendSeq. rewrite bool_decide_eq_false_2 by done. unfold mbind, M_bind, onLog.
  destruct (rl_head _ _ Hstore (w_log w)) as (s1 & h & Hh & Hs1); [apply Hw|]. rewrite Hh. apply head_law in Hh as (Hj & _ & ->).
  cbn [w_log]. destruct (rl_append _ _ Hstore s1 (setExecutionID i ev) Hs1) as (s2 & rec & Ha & Hs2).
  rewrite Hj in Ha. rewrite Ha.
  match goal with |- context [observe c rec ?x] => destruct (runs_observe rec x) as (w3 & u & Ho & Hw3) end.
  { by eapply serviceable_later. }
  rewrite Ho. do 2 eexists. by split.
Qed.

Lemma answers_append id ev : id <> EmptyString -> answers id (live_append c ev).
Proof.
  intros Hid w ls (Hi & Hleg & _) Hw. destruct (runs_appendSeq id ev Hid w Hw) as (w' & rec & Hrun & Hw').
  exists w', ls, rec. split; [|done]. unfold live_append, getSink, onWorld. unM. rewrite Hleg, Hi. simpl. by rewrite Hrun.
Qed.

(** *** The live effects *)

Variable id : string.
Hypothesis Hid : id <> EmptyString.

Lemma answers_completeModel req : model_answers -> answers id (completeModel c req).
Proof.
  intros Hm. unfold completeModel. eapply answers_bind; [apply spec_getSink|apply answers_getSink|]. intros i e1 _.
  eapply answers_bind; [apply spec_invokeModel|by apply answers_world, runs_invokeModel|]. intros resp e2 _.
  eapply answers_bind; [apply spec_countModel|by apply answers_world, runs_modify|]. intros _ e3 _.
  eapply answers_bind; [apply spec_append_output|by apply answers_append|]. intros. apply answers_ret.
Qed.

Lemma answers_live_model req : model_answers -> answers id (live_model c req).
Proof.
  intros Hm. unfold live_model. eapply answers_bind; [apply spec_newID|apply answers_world, runs_newID|]. intros i e1 _.
  eapply answers_bind; [apply spec_append_modelcall|by apply answers_append|]. intros. by apply answers_completeModel.
Qed.

Lemma answers_live_output d : answers id (live_output c d).
Proof.
  eapply answers_bind; [apply spec_append_output|by apply answers_append|]. intros. apply answers_ret.
Qed.

Lemma answers_live_usage u : answers id (live_usage c u).
Proof.
  eapply answers_bind; [apply spec_append_usage|by apply answers_append|]. intros. apply answers_ret.
Qed.

Lemma answers_check (o : option goerr) : o = None -> answers id (check o : M LiveState goerr unit).
Proof. intros ->. apply answers_ret. Qed.

Lemma answers_execTool tc : tools_answer -> answers id (execTool c tc).
Proof.
  intros (tool & Ht & Hok) w ls Hp Hw. unfold execTool. rewrite Ht.
  unfold mbind at 1, M_bind at 1, onWorld at 1, callTool, ask, mbind at 1, M_bind at 1, mret at 1, M_ret at 1. cbn [fst snd].
  destruct (Hok (w_tick w) (mkToolCallContext (c_sessionUID c)) tc) as [Hn Hr].
  set (rt := tool _ _ _) in *. rewrite Hn.
  match goal with |- context [(_ ≫= ?f) (?w1, ls)] =>
    assert (Hrest : answers id (check (None : option goerr) ≫= f)); [|apply (Hrest w1 ls Hp)] end.
  - eapply answers_bind; [apply spec_check|by apply answers_check|]. intros _ e1 _.
    eapply answers_bind; [apply spec_countTool|by apply answers_world, runs_modify|]. intros _ e2 _.
    eapply answers_bind; [apply spec_check|by apply answers_check|]. intros _ e3 _.
    eapply answers_bind; [by apply spec_append_result|by apply answers_append|]. intros. apply answers_ret.
  - eapply serviceable_later; [done|apply Hw|lia].
Qed.

Lemma answers_live_toolCall tc : tools_answer -> tc_Mediation tc = MediationControllerMediated ->
  IdempotencyKey tc <> EmptyString -> answers id (live_toolCall c har tc).
Proof.
  intros Ht Hm Hk. unfold live_toolCall. rewrite Hm, bool_decide_eq_false_2 by done.
  eapply answers_bind; [apply spec_getSink|apply answers_getSink|]. intros calls e1 [(ls & Hp & ->) _].
  destruct (default false _) eqn:Hd.
  { destruct Hp as (_ & _ & _ & Hc). destruct (ls_calls ls !! tc_ID tc) as [[]|] eqn:Hl; [|done..].
    by destruct (Hc _ Hl). }
  eapply answers_bind; [apply spec_check|by apply answers_check|]. intros _ e2 _. rewrite bool_decide_eq_false_2 by done.
  eapply answers_bind; [apply spec_append_toolcall; congruence|by apply answers_append|]. intros _ e3 _.
  eapply answers_bind; [apply spec_modCall|apply answers_modSink|]. intros _ e4 _. by apply answers_execTool.
Qed.

Lemma answers_live_report tr : approvalReportError tr = None -> answers id (live_report c tr).
Proof.
  intros Hr. unfold live_report. eapply answers_bind; [apply spec_getSink|apply answers_getSink|].
  intros calls e1 [(ls & Hp & ->) _]. destruct (default false _) eqn:Hd.
  { destruct Hp as (_ & _ & _ & Hc). destruct (ls_calls ls !! tr_ID tr) as [[]|] eqn:Hl; [|done..].
    by destruct (Hc _ Hl). }
  eapply answers_bind; [apply spec_check|by apply answers_check|]. intros _ e2 _.
  eapply answers_bind; [by apply spec_append_result|by apply answers_append|]. intros. apply answers_ret.
Qed.

(** *** Recovery succeeds *)

(** A resume run of [p] that serves its record and succeeds. *)
Definition recovers (p : Prog) : Prop := forall w s,
  resuming id s -> within s -> trace p (unread s) -> serviceable w -> exists w' s',
    runResumeProg c har p (w, s) = ((w', s'), None) /\ serviceable w' /\ resuming id s' /\ within s' /\ unread s' = [].

Lemma recovers_effect {A} (V : A -> Prop) p (op : M (ResumeState (S := S)) goerr A) (k : res A -> Prog) :
  (forall w s, resuming id s -> trace p (unread s) ->
     resume_step id (answers id) V op p (fun a => k (Ok a)) w s) ->
  (forall st, runResumeProg c har p st = let '(st', r) := resumeGuard op st in runResumeProg c har (k r) st') ->
  (forall a, V a -> recovers (k (Ok a))) -> recovers p.
Proof.
  intros Hstep HL IH w s Hs Hin Ht Hw. rewrite HL, (resumeGuard_eq id) by done. rewrite (proj2 Hw) by lia.
  assert (Hw1 : serviceable (bump w)) by (eapply serviceable_later; [done|apply Hw|lia]).
  destruct (Hstep (bump w) s Hs Ht) as [a s1 Hop Hs1 Ht1 _ Hin1 HV|m s0 Q E Hop Hm Hs0 Hu0 Hspec _ _ _ _ Hin1 HV].
  - rewrite Hop. apply IH; auto.
  - rewrite Hop. destruct (Hm (bump w) (live s0) (proj1 Hs0) Hw1) as (w2 & ls2 & a & Hrun & Hw2).
    assert (Hon : onLive m (bump w, s0) = ((w2, mkResumeSink ls2 (res_stream s0) (res_i s0) (res_failure s0) (res_approvals s0)), Ok a))
      by (unfold onLive; cbn [fst snd]; by rewrite Hrun).
    destruct (onLive_step id _ _ _ _ _ _ _ Hspec Hs0 Hu0 Hon) as (Hs2 & Hu2 & es & _ & Hq).
    rewrite Hon. apply IH; [by eapply HV|done|exact (Hin1 Hin)|rewrite Hu2; apply tr_cut|done].
Qed.

(** Recovery from a trace: nothing recorded is left over, and the run succeeds. *)
Lemma dependable_recovers p : dependable p -> recovers p.
Proof.
  induction 1 as [|req k Hm Hk IH Hu|d k Hk IH|tc k Ht Hm Hkey Ha Hk IH|tr k Hr Hk IH|u k Hk IH].
  - intros w s Hs Hin Ht Hw. exists w, s. inversion Ht. split; [done|]; split; [done|]; split; [done|]; by split.
  - eapply (recovers_effect _ _ (resume_model c req)); [|done|intros a _; apply IH]. intros w s Hs Ht.
    apply resume_model_step; auto using answers_live_model, answers_completeModel.
  - eapply (recovers_effect _ _ (resume_output c d) (fun r => k (err_of r))); [|done|intros a _; apply IH]. intros w s Hs Ht.
    apply resume_output_step; auto using answers_live_output.
  - eapply (recovers_effect _ _ (resume_toolCall c har tc)); [|done|exact IH]. intros w s Hs Htr.
    apply resume_toolCall_step; auto using answers_live_toolCall, answers_execTool; [congruence|].
    intros _. unfold keylessRejected. by rewrite (bool_decide_eq_false_2 _ Hkey), andb_false_r.
  - eapply (recovers_effect _ _ (resume_report c tr) (fun r => k (err_of r))); [|done|intros a _; apply IH]. intros w s Hs Ht.
    apply resume_report_step; auto using answers_live_report.
  - eapply (recovers_effect _ _ (resume_usage c u) (fun r => k (err_of r))); [|done|intros a _; apply IH]. intros w s Hs Ht.
    apply resume_usage_step; auto using answers_live_usage.
Qed.

(** The whole run, with its END. *)
Lemma runResume_recovers sink start w : dependable (Run har start) -> resuming id sink -> within sink ->
  trace (Run har start) (unread sink) -> serviceable w ->
  exists w', runResume c har sink start w = (w', Ok true).
Proof.
  intros Hd Hs Hin Ht Hw. destruct (dependable_recovers _ Hd w sink Hs Hin Ht Hw) as (w1 & s1 & Hrun & Hw1 & Hs1 & Hin1 & Hu).
  unfold runResume. unfold runResumeProg in Hrun. rewrite Hrun. unfold finishResume, recoveryErr.
  destruct Hs1 as (Hp & Hf & _). assert (ls_guard (live s1) = newGuard) as -> by apply Hp. cbn [guardClose newGuard snd].
  rewrite Hf. assert (res_i s1 = length (res_stream s1)) as ->.
  { unfold within in Hin1. unfold unread in Hu. apply (f_equal length) in Hu. rewrite length_drop in Hu. simpl in Hu. lia. }
  rewrite Nat.eqb_refl. cbn [negb].
  destruct (answers_append id (evEnd (mkHarnessEnd "COMPLETED" None)) Hid w1 (live s1) Hp Hw1) as (w2 & ls2 & rec & Ha & _).
  rewrite Ha. by exists w2.
Qed.
End progress.

(** * [Resume] as a whole (controller/resume.go)

    What a recovery leaves in a journal without gated calls, and that it completes when the
    environment serves it. *)

(** ** [Resume] on a journal without gated calls *)

(** What a recovery adds to its execution: effects, then possibly an ERROR, or the END. *)
Definition resume_tail (id : string) (k : EventKind) (tl : list Event) : Prop := exists e, tl = [e] /\ isTail id k e.

Section resume.
Context `{Host} `{Encoding} {S : Type} `{StoreLaws S} `{!FaithfulStore S}.
Variables (c : Controller) (har : Harness).

(** The terminal record of a recovery. *)
Lemma finishResume_run id sink runErr (w w' : World S) r : plain id (live sink) ->
  finishResume c sink runErr w = (w', r) -> exists tl, appended (w_log w) (w_log w') tl /\
    ((r <> Ok true /\ r <> Ok false /\ (tl = [] \/ resume_tail id EventError tl)) \/
     (r = Ok true /\ resume_tail id EventEnd tl /\ recoveryErr sink runErr = None)).
Proof.
  intros Hp Hrun. unfold finishResume in Hrun. assert (ls_guard (live sink) = newGuard) as Hg by apply Hp.
  rewrite Hg in Hrun. cbn [guardClose newGuard snd] in Hrun. destruct (recoveryErr sink runErr) as [e|] eqn:He.
  - destruct (live_append c (evError (mkError 0 (errText e))) (w, live sink)) as [[w1 l1] r1] eqn:E.
    apply live_append_plain with (id := id) in E; [|done]. injection Hrun as <- <-.
    destruct r1; (eexists; split; [exact E|]); left; [|by auto].
    split; [done|]. split; [done|]. right. eexists. split; [done|].
    faith (setExecutionID id (evError (mkError 0 (errText e)))). done.
  - destruct (live_append c (evEnd (mkHarnessEnd "COMPLETED" None)) (w, live sink)) as [[w1 l1] r1] eqn:E.
    apply live_append_plain with (id := id) in E; [|done]. injection Hrun as <- <-.
    destruct r1; (eexists; split; [exact E|]); [right|by left; auto].
    split; [done|]. split; [|done]. eexists. split; [done|].
    faith (setExecutionID id (evEnd (mkHarnessEnd "COMPLETED" None))). done.
Qed.

Lemma recoveryErr_None sink runErr : recoveryErr sink runErr = None ->
  res_failure sink = None /\ runErr = None /\ unread sink = [].
Proof.
  unfold recoveryErr. destruct (res_failure sink); [done|]. destruct runErr; [done|].
  destruct (Nat.eqb_spec (res_i sink) (length (res_stream sink))) as [He|]; [|done].
  intros _. repeat split. unfold unread. rewrite He. by apply drop_all.
Qed.

(** Re-running the harness on a recorded prefix of ordinary effects. *)
Lemma runResume_run sink start (w w' : World S) r id : replayable (Run har start) -> resuming id sink ->
  res_i sink = 0%nat -> runResume c har sink start w = (w', r) -> exists effs tl,
    appended (w_log w) (w_log w') (effs ++ tl) /\ Forall (effect_of id) effs /\
    (trace (Run har start) (res_stream sink) -> trace (Run har start) (res_stream sink ++ effs)) /\
    ((r <> Ok true /\ r <> Ok false /\ (tl = [] \/ resume_tail id EventError tl)) \/
     (r = Ok true /\ resume_tail id EventEnd tl /\ replays (S := S) har start (res_stream sink ++ effs))).
Proof.
  intros Hrep Hres Hi Hrun. unfold runResume in Hrun.
  destruct (runProg (H := resumeEventSink c har) (Run har start) (w, sink)) as [[w1 s1] runErr] eqn:E.
  destruct (replayable_resimulates c har id _ Hrep w sink w1 s1 runErr Hres E) as (Hp & Hs & effs & [Ha He Hf _ Hr]).
  destruct (finishResume_run _ _ _ _ _ _ Hp Hrun) as (tl & Ha2 & Hor).
  assert (unread sink = res_stream sink) as Hu0 by (unfold unread; by rewrite Hi).
  exists effs, tl. split; [by eapply appended_trans|]. split; [done|]. split.
  { intros Ht. rewrite <- Hu0 in Ht.
    destruct (replayable_resume_traces c har id _ Hrep w sink w1 s1 runErr Hres Ht E) as (effs' & Ha' & Ht').
    by rewrite (appended_inj _ _ _ _ Ha' Ha), Hu0 in Ht'. }
  destruct Hor as [Hor|(Hok & Htl & Hnone)]; [by left|right]. split; [done|]. split; [done|].
  apply recoveryErr_None in Hnone as (_ & -> & Hu).
  rewrite Hu0 in Hr. intros rs wr. by apply Hr.
Qed.

(** The invocation of a recovery. *)
Definition resumeStart (evs : list Event) (x : recordedExecution) : Start :=
  mkStart (x_id x) (c_sessionUID c) (x_config x) (take (Z.to_nat (x_start x)) evs) (x_inputs x) (x_resumeFromSeq x).

Lemma checkHarness_log xs (w w' : World S) r : checkHarness c har xs w = (w', r) -> w_log w' = w_log w.
Proof. intros Hc. by apply checkHarness_still in Hc as []. Qed.

(** What a recovery of [x] did: it committed the effects [effs], keeping the record a trace, and then
    [tl]: nothing or an ERROR when it failed, the END when it completed, and then it replays. *)
Record recovered (evs : list Event) (x : recordedExecution) (w w' : World S) (r : result (bool * goerr) bool)
    (effs tl : list Event) : Prop := {
  rv_ran : r <> Ok false;
  rv_appended : appended (w_log w) (w_log w') (effs ++ tl);
  rv_effects : Forall (effect_of (x_id x)) effs;
  rv_trace : trace (Run har (resumeStart evs x)) (x_stream x) -> trace (Run har (resumeStart evs x)) (x_stream x ++ effs);
  rv_end : (r <> Ok true /\ (tl = [] \/ resume_tail (x_id x) EventError tl)) \/
    (r = Ok true /\ resume_tail (x_id x) EventEnd tl /\
     replays (S := S) har (resumeStart evs x) (x_stream x ++ effs));
}.

Lemma recovered_failed evs x (w w' : World S) e : w_log w' = w_log w -> recovered evs x w w' (Err e) [] [].
Proof. intros Hw. constructor; try done; [apply appended_same; by rewrite Hw|by rewrite app_nil_r|by left; auto]. Qed.

(** Recovery of an execution whose recorded effects are ordinary. *)
Lemma resumeExecution_run (recs : list Record_) scan x (w w' : World S) r :
  replayable (Run har (resumeStart (rec_Event <$> recs) x)) -> selectedState scan = None ->
  x_legacyEnd x = 0 -> Forall (effect_of (x_id x)) (x_stream x) ->
  resumeExecution c har recs scan x w = (w', r) -> exists effs tl, recovered (rec_Event <$> recs) x w w' r effs tl.
Proof.
  intros Hrep Hscan Hleg Heff Hrun. unfold resumeExecution, pendingApproval in Hrun. rewrite Hscan, Hleg in Hrun.
  unfold mbind at 1, M_bind at 1, mret at 1, M_ret at 1 in Hrun. cbn [Z.gtb Z.compare] in Hrun.
  destruct (inheritedTools _ >? 0); [injection Hrun as <- <-; exists [], []; by apply recovered_failed|].
  unfold mbind at 1, M_bind at 1, withFlag at 1 in Hrun.
  destruct (checkHarness c har [x] w) as [w1 r1] eqn:Hc. apply checkHarness_log in Hc as Hl1.
  destruct r1 as [desc|e]; [|injection Hrun as <- <-; exists [], []; by apply recovered_failed].
  unfold mbind at 1, M_bind at 1, withFlag, mret at 1, M_ret at 1 in Hrun.
  apply (runResume_run _ _ _ _ _ (x_id x)) in Hrun as (effs & tl & Ha & He & Ht & Hor); [|exact Hrep| |done].
  - rewrite Hl1 in Ha. exists effs, tl. constructor; [|done|done|done|];
      (destruct Hor as [(? & ? & ?)|(-> & ? & ?)]; [by auto|by auto]).
  - unfold newResumeSink. rewrite Hleg. split; [|by split]. split; [done|]. split; [done|]. split; [done|].
    intros k. simpl. by rewrite lookup_empty.
Qed.

(** A pending execution [Resume] would select. *)
Definition pending (xs : list recordedExecution) (x : recordedExecution) : Prop :=
  list.last xs = Some x /\ x_completed x = false /\ validateInputs x = None.

(** [Resume] as a whole: without a pending execution nothing happens; otherwise it is the last one,
    and it is extended. *)
Lemma Resume_run xs (w w' : World S) r :
  contiguous 0 (journal (w_log w)) -> recordedExecutions (rec_Event <$> journal (w_log w)) = Ok xs ->
  (forall scan, scanApprovalRecords (journal (w_log w)) 0 = Ok scan -> selectedState scan = None) ->
  (forall x, list.last xs = Some x -> x_completed x = false -> x_legacyEnd x = 0 /\
     Forall (effect_of (x_id x)) (x_stream x) /\
     replayable (Run har (resumeStart (rec_Event <$> journal (w_log w)) x))) ->
  Resume c har w = (w', r) ->
  (r <> Ok true /\ appended (w_log w) (w_log w') []) \/
  exists x effs tl, pending xs x /\ recovered (rec_Event <$> journal (w_log w)) x w w' r effs tl.
Proof.
  intros Hct Hxs Hscan Hlast. unfold Resume, withFlag. unfold mbind, M_bind, mret, M_ret, lift, onLog.
  destruct (st_CheckWritable (w_log w)) as [l1 [[]|e]] eqn:Hw; apply writable_law in Hw as [Hj1 _];
    [|intros [= <- <-]; left; split; [done|by apply appended_same]].
  cbn [w_log]. destruct (st_Read 1 l1) as [l2 [recs|e]] eqn:Hr; apply read_law in Hr as (Hj2 & _ & Hp);
    [|intros [= <- <-]; left; split; [done|apply appended_same; simpl; congruence]].
  rewrite (contiguous_readFrom_all _ 0) in Hp by (rewrite ?Hj1; done || lia). rewrite Hj1 in Hp, Hj2. subst recs.
  assert (Hnil : forall (r0 : result (bool * goerr) bool) t n m o a, r0 <> Ok true -> (mkWorld l2 t n m o a, r0) = (w', r) ->
    r <> Ok true /\ appended (w_log w) (w_log w') []).
  { intros r0 t n m o a Hr0 [= <- <-]. split; [done|]. by apply appended_same. }
  destruct (journal (w_log w)) as [|r0 J] eqn:HJ; [intros Hrun; left; by eapply Hnil; [|exact Hrun]|].
  rewrite Hxs. destruct (scanApprovalRecords _ 0) as [scan|e]; [|intros Hrun; left; by eapply Hnil; [|exact Hrun]].
  specialize (Hscan _ eq_refl). unfold pendingResumeExecution, pendingExecution.
  destruct (list.last xs) as [x|] eqn:Hl; [|intros Hrun; left; by eapply Hnil; [|exact Hrun]].
  destruct (x_completed x) eqn:Hcm; [intros Hrun; left; by eapply Hnil; [|exact Hrun]|].
  destruct (validateInputs x) as [e|] eqn:Hv; [cbn; intros Hrun; left; by eapply Hnil; [|exact Hrun]|].
  destruct (Hlast x eq_refl Hcm) as (Hleg & Heff & Hrep). cbn [guard_err mbind result_bind]. rewrite Hleg. cbn [Z.gtb Z.compare].
  intros Hrun. right. apply (resumeExecution_run (r0 :: J) scan x) in Hrun as (effs & tl & [Hf Ha He Ht Hor]); try done.
  exists x, effs, tl. split; [done|]. constructor; [done| |done..].
  destruct Ha as (rs & Hrs & Ha). exists rs. cbn [w_log] in *. rewrite HJ, <- Hj2. done.
Qed.
End resume.

(** ** Recovery completes *)

(** *** Inherited intents

    An execution inherits an open intent when one of its tool calls lies before a fork marker and the next
    effect of the execution is not its result. *)
Definition isIntentEffect (k : EventKind) : bool :=
  match k with EventToolCall | EventToolResult | EventModelCall | EventOutput | EventUsage => true | _ => false end.
Definition ownEffects (id : string) (evs : list Event) : list Event :=
  List.filter (fun e => bool_decide (ExecutionID e = id) && isIntentEffect (Kind e)) evs.
Definition resultOf (call : option ToolCall) (next : Event) : bool :=
  match Kind next, call, ev_Result next with
  | EventToolResult, Some call, Some r => bool_decide (tr_ID r = tc_ID call)
  | _, _, _ => false
  end.
Definition answered (call : Event) (next : option Event) : bool :=
  match next with Some e => resultOf (ev_ToolCall call) e | None => false end.
Definition isMarker (e : Event) : bool := isLifecycle e && isForkMarker e.
Definition inheritsIntent (id : string) (evs : list Event) : Prop :=
  exists pre mark post a call b, evs = pre ++ mark :: post /\ isMarker mark = true /\
    ownEffects id pre = a ++ call :: b /\ Kind call = EventToolCall /\ answered call (head (b ++ ownEffects id post)) = false.

(** The open calls among effects, when [next] is what follows them. *)
Definition openCall (e : Event) (next : option Event) : Z :=
  if bool_decide (Kind e = EventToolCall) && negb (answered e next) then 1 else 0.
Definition first_or (es : list Event) (next : option Event) : option Event :=
  match es with [] => next | e :: _ => Some e end.
Fixpoint openCalls (es : list Event) (next : option Event) : Z :=
  match es with [] => 0 | e :: es' => openCall e (first_or es' next) + openCalls es' next end.

Lemma openCall_range e next : 0 <= openCall e next <= 1.
Proof. unfold openCall. destruct (_ && _); lia. Qed.
Lemma openCalls_nonneg es next : 0 <= openCalls es next.
Proof. induction es as [|e es IH]; simpl; [lia|]. pose proof (openCall_range e (first_or es next)). lia. Qed.
Lemma openCalls_snoc es e next : openCalls (es ++ [e]) next = openCalls es (Some e) + openCall e next.
Proof.
  induction es as [|a es IH]; simpl; [lia|]. rewrite IH. assert (first_or (es ++ [e]) next = first_or es (Some e)) as -> by by destruct es. lia.
Qed.
Lemma openCalls_pos es next : 0 < openCalls es next <-> exists a call b, es = a ++ call :: b /\
  Kind call = EventToolCall /\ answered call (first_or b next) = false.
Proof.
  split.
  - induction es as [|e es IH]; simpl; [lia|]. intros Hp. unfold openCall in Hp.
    destruct (bool_decide_reflect (Kind e = EventToolCall)) as [Hk|]; cbn [andb] in Hp.
    + destruct (answered e (first_or es next)) eqn:Ha; cbn [negb] in Hp; [|by exists [], e, es].
      destruct IH as (a & call & b & -> & Hc); [lia|]. by exists (e :: a), call, b.
    + destruct IH as (a & call & b & -> & Hc); [lia|]. by exists (e :: a), call, b.
  - intros (a & call & b & -> & Hk & Ha). induction a as [|e a IH]; simpl.
    + unfold openCall. rewrite Ha, bool_decide_eq_true_2 by done. cbn [andb negb]. pose proof (openCalls_nonneg b next). lia.
    + pose proof (openCall_range e (first_or (a ++ call :: b) next)). lia.
Qed.

(** The state of the scan after some events: the own effects [p] before the last marker, if there was one,
    and all own effects [es] so far. *)
Definition scanned (mark : option (list Event)) (es : list Event) (st : intentScan) : Prop :=
  unresolvedTools st = openCalls es None /\
  precedingCall st = (match list.last es with Some e => if bool_decide (Kind e = EventToolCall) then ev_ToolCall e else None | None => None end) /\
  match mark with
  | None => inheritedTools st = 0 /\ precedingInherited st = false
  | Some p => exists q, es = p ++ q /\ inheritedTools st = openCalls p (head q) /\
      (is_Some (precedingCall st) -> precedingInherited st = bool_decide (q = []))
  end.

Lemma scanned_marker p es st : scanned p es st -> scanned (Some es) es
  (mkIntentScan (unresolvedTools st) (unresolvedTools st) (precedingCall st) (negb (isNil (precedingCall st)))).
Proof.
  intros (Hu & Hc & _). split; [done|]. split; [done|]. exists []. rewrite app_nil_r. split; [done|]. split; [done|].
  cbn. by intros [call ->].
Qed.

(** One more own effect: the open calls before it, when it is the answer of the last one or is not. *)
Lemma openCalls_next es e : openCalls es (Some e) = openCalls es None -
  (match list.last es with Some l => if bool_decide (Kind l = EventToolCall) && resultOf (ev_ToolCall l) e then 1 else 0 | None => 0 end).
Proof.
  destruct es as [|l es _] using rev_ind; [done|]. rewrite last_snoc, !openCalls_snoc. unfold openCall.
  destruct (bool_decide (Kind l = EventToolCall)); cbn; [|lia]. destruct (resultOf _ e); cbn; lia.
Qed.
Lemma head_snoc_open p (q : list Event) e : openCalls p (head (q ++ [e])) = if bool_decide (q = []) then openCalls p (Some e) else openCalls p (head q).
Proof. by destruct q. Qed.
Lemma intentStep_own id st e : ExecutionID e = id -> isIntentEffect (Kind e) = true -> isMarker e = false ->
  let call := bool_decide (Kind e = EventToolCall) in let answer := resultOf (precedingCall st) e in
  intentStep id st e = mkIntentScan (unresolvedTools st + (if call then 1 else 0) - (if answer then 1 else 0))
    (inheritedTools st - (if answer && precedingInherited st then 1 else 0))
    (if call then ev_ToolCall e else None) (if call then false else precedingInherited st).
Proof.
  intros Hid Hk Hmk. unfold intentStep. unfold isMarker in Hmk. rewrite Hmk, bool_decide_eq_true_2 by done. cbn [negb].
  unfold resultOf. destruct (Kind e); try done; cbn; rewrite ?Z.add_0_r, ?Z.sub_0_r; try done.
  destruct (precedingCall st) as [c|], (ev_Result e) as [r|]; cbn; rewrite ?Z.sub_0_r; try done.
  case_bool_decide; cbn; rewrite ?Z.sub_0_r; [|done]. by destruct (precedingInherited st); rewrite ?Z.sub_0_r.
Qed.
Lemma scanned_answer m es st e : scanned m es st ->
  openCalls es (Some e) = openCalls es None - (if resultOf (precedingCall st) e then 1 else 0).
Proof.
  intros (_ & -> & _). rewrite openCalls_next. destruct (list.last es) as [l|]; [|by unfold resultOf; destruct (Kind e)].
  destruct (bool_decide _); cbn [andb]; [done|]. by unfold resultOf; destruct (Kind e).
Qed.
Lemma scanned_step id m es st e : scanned m es st -> ExecutionID e = id -> isIntentEffect (Kind e) = true -> isMarker e = false ->
  scanned m (es ++ [e]) (intentStep id st e).
Proof.
  intros Hs Hid Hk Hmk. pose proof (scanned_answer _ _ _ e Hs) as Hn. destruct Hs as (Hu & Hc & Hm).
  rewrite intentStep_own by done. unfold scanned. rewrite openCalls_snoc, last_snoc. cbn [unresolvedTools inheritedTools precedingCall precedingInherited].
  split; [|split; [done|]].
  - rewrite Hn, Hu. unfold openCall. cbn [answered negb]. rewrite andb_true_r. lia.
  - destruct m as [p|].
    + destruct Hm as (q & -> & Hi & Hp). exists (q ++ [e]). rewrite app_assoc. split; [done|]. split.
      * rewrite head_snoc_open. case_bool_decide as Hq; [subst q|]; rewrite Hi.
        -- rewrite app_nil_r in Hn. rewrite Hn. cbn [head]. unfold resultOf in *. destruct (Kind e); cbn [andb]; try lia.
           destruct (precedingCall st); [|cbn; lia]. rewrite (Hp ltac:(eauto)). destruct (ev_Result e); [|cbn; lia]. case_bool_decide; cbn; lia.
        -- unfold resultOf in *. destruct (Kind e); cbn [andb]; try lia.
           destruct (precedingCall st); [|cbn; lia].
           assert (precedingInherited st = false) as -> by (apply Hp; eauto). rewrite andb_false_r. lia.
      * intros Hsome. rewrite (bool_decide_eq_false_2 (q ++ [e] = [])) by (destruct q; discriminate). destruct (bool_decide (Kind e = EventToolCall)); [done|]. by destruct Hsome.
    + destruct Hm as [-> ->]. rewrite andb_false_r. split; [lia|by destruct (bool_decide _)].
Qed.

(** Events that are no effect of the execution. *)
Lemma intentStep_other id st e : bool_decide (ExecutionID e = id) && isIntentEffect (Kind e) = false -> isMarker e = false ->
  intentStep id st e = st.
Proof.
  intros Hk Hmk. unfold intentStep. unfold isMarker in Hmk. rewrite Hmk. destruct (bool_decide _); cbn [negb andb] in *; [|done].
  by destruct (Kind e).
Qed.
Lemma intentStep_marker id st e : isMarker e = true ->
  intentStep id st e = mkIntentScan (unresolvedTools st) (unresolvedTools st) (precedingCall st) (negb (isNil (precedingCall st))) /\
  bool_decide (ExecutionID e = id) && isIntentEffect (Kind e) = false.
Proof.
  intros Hmk. unfold intentStep. unfold isMarker in Hmk. rewrite Hmk. apply andb_true_iff in Hmk as [Hl _]. unfold isLifecycle in Hl.
  apply bool_decide_eq_true in Hl. rewrite Hl. cbn. rewrite andb_false_r. split; [|done]. by destruct (bool_decide _).
Qed.

Lemma ownEffects_app id evs1 evs2 : ownEffects id (evs1 ++ evs2) = ownEffects id evs1 ++ ownEffects id evs2.
Proof. apply List.filter_app. Qed.

(** The scan of a journal: what lies before its last marker. *)
Lemma scanIntents_scanned id evs : exists m, scanned m (ownEffects id evs) (scanIntents id evs) /\
  match m with
  | None => Forall (fun e => isMarker e = false) evs
  | Some p => exists pre mark post, evs = pre ++ mark :: post /\ isMarker mark = true /\ p = ownEffects id pre /\
      Forall (fun e => isMarker e = false) post
  end.
Proof.
  unfold scanIntents. induction evs as [|e evs (m & Hs & Hm)] using rev_ind; [by exists None|].
  rewrite fold_left_app, ownEffects_app. cbn [fold_left]. destruct (isMarker e) eqn:Hmk.
  - destruct (intentStep_marker id (fold_left (intentStep id) evs (mkIntentScan 0 0 None false)) e Hmk) as [-> Ho].
    unfold ownEffects at 2. cbn [List.filter]. rewrite Ho, app_nil_r. eexists. split; [by eapply scanned_marker|].
    exists evs, e, []. by repeat split.
  - exists m. split.
    + unfold ownEffects at 2. cbn [List.filter]. destruct (_ && _) eqn:Ho; [apply andb_true_iff in Ho as [Hid%bool_decide_eq_true Hk]; by apply scanned_step|].
      by rewrite app_nil_r, intentStep_other.
    + destruct m as [p|]; [|by apply Forall_app; split; [|repeat constructor]].
      destruct Hm as (pre & mark & post & -> & ? & ? & ?). exists pre, mark, (post ++ [e]). rewrite <- app_assoc. split; [done|]. split; [done|].
      split; [done|]. by apply Forall_app; split; [|repeat constructor].
Qed.
Lemma first_or_head (b q : list Event) : first_or b (head q) = head (b ++ q).
Proof. by destruct b. Qed.

(** The scan counts an inherited intent exactly when there is one. *)
Lemma inherits_scanned id evs : inheritsIntent id evs <-> 0 < inheritedTools (scanIntents id evs).
Proof.
  destruct (scanIntents_scanned id evs) as (m & (_ & _ & Hm) & Hsplit). destruct m as [p|].
  - destruct Hm as (q & Hq & Hi & _), Hsplit as (pre & mark & post & -> & Hmk & -> & Hpost). rewrite Hi, openCalls_pos.
    assert (q = ownEffects id post) as ->.
    { rewrite ownEffects_app in Hq. apply app_inv_head in Hq. rewrite <- Hq. unfold ownEffects. cbn [List.filter].
      by destruct (intentStep_marker id (mkIntentScan 0 0 None false) mark Hmk) as [_ ->]. }
    split.
    + intros (pre' & mark' & post' & a & call & b & Heq & Hmk' & Hown & Hk & Ha).
      assert (exists more, pre = pre' ++ more /\ more ++ mark :: post = mark' :: post') as (more & -> & Hmore).
      { apply app_eq_inv in Heq as [(l & Hl & Hr)|(l & Hl & Hr)].
        - exists l. split; [done|]. done.
        - destruct l as [|x l]; [exists []; rewrite app_nil_r in *; by split|]. injection Hr as <- ->.
          apply Forall_app in Hpost as [_ Hpost]. apply Forall_cons_iff in Hpost as [? _]. congruence. }
      rewrite ownEffects_app, Hown. exists a, call, (b ++ ownEffects id more). rewrite <- app_assoc. split; [done|]. split; [done|].
      rewrite first_or_head, <- app_assoc, <- ownEffects_app.
      assert (ownEffects id (more ++ post) = ownEffects id post') as ->; [|done].
      assert (ownEffects id (more ++ mark :: post) = ownEffects id (more ++ post)) as <-.
      { rewrite !ownEffects_app. f_equal. unfold ownEffects. cbn [List.filter].
        by destruct (intentStep_marker id (mkIntentScan 0 0 None false) mark Hmk) as [_ ->]. }
      rewrite Hmore. unfold ownEffects. cbn [List.filter]. by destruct (intentStep_marker id (mkIntentScan 0 0 None false) mark' Hmk') as [_ ->].
    + intros (a & call & b & Hown & Hk & Ha). rewrite first_or_head in Ha. by exists pre, mark, post, a, call, b.
  - destruct Hm as [-> _]. split; [|lia]. intros (pre & mark & post & a & call & b & -> & Hmk & _).
    apply Forall_app in Hsplit as [_ Hs]. apply Forall_cons_iff in Hs as [? _]. congruence.
Qed.

Lemma no_inherited id evs : ~ inheritsIntent id evs -> (inheritedTools (scanIntents id evs) >? 0) = false.
Proof. rewrite inherits_scanned. intros Hn. rewrite Z.gtb_ltb. apply Z.ltb_ge. lia. Qed.
Lemma some_inherited id evs : inheritsIntent id evs -> (inheritedTools (scanIntents id evs) >? 0) = true.
Proof. rewrite inherits_scanned. intros Hn. rewrite Z.gtb_ltb. by apply Z.ltb_lt. Qed.

Section completes.
Context `{Host} `{Encoding} {S : Type} `{StoreLaws S} `{!FaithfulStore S}.
Variables (c : Controller) (har : Harness) (I : S -> Prop).
Hypothesis Hstore : reliable I (c_fence c).

Lemma resumeExecution_completes (recs : list Record_) scan x (w : World S) :
  dependable c (Run har (resumeStart c (rec_Event <$> recs) x)) -> selectedState scan = None ->
  x_legacyEnd x = 0 -> x_id x <> EmptyString -> Forall (effect_of (x_id x)) (x_stream x) ->
  trace (Run har (resumeStart c (rec_Event <$> recs) x)) (x_stream x) ->
  ~ inheritsIntent (x_id x) (drop (Z.to_nat (x_start x)) (rec_Event <$> recs)) ->
  (exists w1 d, checkHarness c har [x] w = (w1, Ok d) /\ serviceable I w1) ->
  exists w', resumeExecution c har recs scan x w = (w', Ok true).
Proof.
  intros Hd Hscan Hleg Hid Heff Ht Hf (w1 & d & Hc & Hw1). unfold resumeExecution, pendingApproval. rewrite Hscan, Hleg.
  unfold mbind at 1, M_bind at 1, mret at 1, M_ret at 1. cbn [Z.gtb Z.compare].
  rewrite no_inherited by done.
  unfold mbind at 1, M_bind at 1, withFlag at 1. rewrite Hc.
  unfold mbind at 1, M_bind at 1, withFlag, mret at 1, M_ret at 1.
  eapply (runResume_recovers c har I Hstore (x_id x) Hid); [exact Hd| | |exact Ht|done].
  - unfold newResumeSink. rewrite Hleg. split; [|by split]. split; [done|]. split; [done|]. split; [done|].
    intros k. simpl. by rewrite lookup_empty.
  - unfold within. simpl. lia.
Qed.

(** [Resume] of a pending execution whose record is a trace of the harness. *)
Lemma Resume_completes xs x (w : World S) : serviceable I w ->
  contiguous 0 (journal (w_log w)) -> recordedExecutions (rec_Event <$> journal (w_log w)) = Ok xs ->
  (exists scan, scanApprovalRecords (journal (w_log w)) 0 = Ok scan /\ selectedState scan = None) ->
  pending xs x -> x_legacyEnd x = 0 -> x_id x <> EmptyString -> Forall (effect_of (x_id x)) (x_stream x) ->
  dependable c (Run har (resumeStart c (rec_Event <$> journal (w_log w)) x)) ->
  trace (Run har (resumeStart c (rec_Event <$> journal (w_log w)) x)) (x_stream x) ->
  ~ inheritsIntent (x_id x) (drop (Z.to_nat (x_start x)) (rec_Event <$> journal (w_log w))) ->
  (forall w1 : World S, serviceable I w1 -> (w_tick w <= w_tick w1)%nat -> exists w2 d, checkHarness c har [x] w1 = (w2, Ok d) /\ serviceable I w2) ->
  exists w', Resume c har w = (w', Ok true).
Proof.
  intros [Hi Hnc] Hct Hxs (scan & Hscan & Hsel) (Hl & Hcm & Hv) Hleg Hid Heff Hd Ht Hf Hck.
  unfold Resume, withFlag. unfold mbind, M_bind, mret, M_ret, lift, onLog.
  destruct (rl_writable _ _ Hstore _ Hi) as (l1 & Hw & Hi1). rewrite Hw. apply writable_law in Hw as [Hj1 _]. cbn [w_log].
  destruct (rl_read _ _ Hstore _ 1 Hi1) as (l2 & recs & Hr & Hi2). rewrite Hr. apply read_law in Hr as (Hj2 & _ & Hp).
  rewrite (contiguous_readFrom_all _ 0) in Hp by (rewrite ?Hj1; done || lia). rewrite Hj1 in Hp, Hj2. subst recs.
  destruct (journal (w_log w)) as [|r0 J] eqn:HJ; [by injection Hxs as <-|].
  rewrite Hxs, Hscan. unfold pendingResumeExecution, pendingExecution. rewrite Hl, Hcm, Hv. cbn [guard_err mbind result_bind].
  rewrite Hleg. cbn [Z.gtb Z.compare].
  apply (resumeExecution_completes (r0 :: J)); try done. apply Hck; [by split|done].
Qed.

(** [Resume] of a pending execution that inherits an open intent. *)
Lemma Resume_refuses xs x (w : World S) : serviceable I w ->
  contiguous 0 (journal (w_log w)) -> recordedExecutions (rec_Event <$> journal (w_log w)) = Ok xs ->
  (exists scan, scanApprovalRecords (journal (w_log w)) 0 = Ok scan /\ selectedState scan = None) ->
  pending xs x -> x_legacyEnd x = 0 ->
  inheritsIntent (x_id x) (drop (Z.to_nat (x_start x)) (rec_Event <$> journal (w_log w))) ->
  exists w', Resume c har w = (w', Err (false, EWrap "execution" (ESentinel ErrInheritedToolIntent))) /\ untouched w w'.
Proof.
  intros [Hi Hnc] Hct Hxs (scan & Hscan & Hsel) (Hl & Hcm & Hv) Hleg Hin.
  unfold Resume, withFlag. unfold mbind, M_bind, mret, M_ret, lift, onLog.
  destruct (rl_writable _ _ Hstore _ Hi) as (l1 & Hw & Hi1). rewrite Hw. apply writable_law in Hw as [Hj1 Hf1]. cbn [w_log].
  destruct (rl_read _ _ Hstore _ 1 Hi1) as (l2 & recs & Hr & Hi2). rewrite Hr. apply read_law in Hr as (Hj2 & Hf2 & Hp).
  rewrite (contiguous_readFrom_all _ 0) in Hp by (rewrite ?Hj1; done || lia). rewrite Hj1 in Hp, Hj2. rewrite Hf1 in Hf2. subst recs.
  destruct (journal (w_log w)) as [|r0 J] eqn:HJ; [by injection Hxs as <-|].
  rewrite Hxs, Hscan. unfold pendingResumeExecution, pendingExecution. rewrite Hl, Hcm, Hv. cbn [guard_err mbind result_bind].
  rewrite Hleg. cbn [Z.gtb Z.compare]. unfold resumeExecution, pendingApproval. rewrite Hsel, Hleg.
  unfold mbind at 1, M_bind at 1, mret at 1, M_ret at 1. cbn [Z.gtb Z.compare]. rewrite some_inherited by done.
  eexists. split; [done|]. unfold untouched. cbn. by rewrite HJ.
Qed.
End completes.
