(* ===== verification/Session.v ===== *)
(** * Whole sessions: turns, crashes, recovery and Replay

    A session is what any number of [Exec] and [Resume] calls, by any number of controllers, may leave
    in a journal, each possibly cut short by a crash. The invariant of such journals is that every
    completed turn replays, and [Replay] follows. *)
From S2P Require Import Prelude GoErrors Api Canon EventLog Executions Approvals Harness Sinks Controller Agents LiveSpec Simulation ReplaySafety Turns Recovery Retraces Progress.

(** ** Sessions *)

Section session.
Context `{Host} `{Encoding} {S : Type} `{StoreLaws S} `{!FaithfulStore S}.
Variables (har : Harness) (uid hname hid hversion : string).

(** The controllers of one session: same resolved harness name, and the same session identity, as far as the
    harness can tell (the child of a fork has a UID of its own). *)
Definition family (c : Controller) : Prop :=
  (forall id cfg hist ins from, Run har (mkStart id (c_sessionUID c) cfg hist ins from) = Run har (mkStart id uid cfg hist ins from)) /\
  harnessName c = hname.

(** The harness keeps its identity. *)
Definition stable_harness : Prop :=
  forall t d, Describe har t = Ok d -> desc_ID d = hid /\ desc_Version d = hversion.

Definition resolvedName : string := if bool_decide (hname = EmptyString) then hid else hname.

Definition eventsOf (w : World S) : list Event := rec_Event <$> journal (w_log w).

(** The ID drawn at [t] is not in use. *)
Definition freshID (t : nat) (evs : list Event) : Prop :=
  newIDText t <> EmptyString /\ Forall (fun e => ExecutionID e <> newIDText t) evs.

(** What a session's journal can go through: a turn by any of its controllers, or a recovery, of
    either of which a crash may keep only a prefix; a fork, whose child starts from a copy of a prefix; lifecycle
    marks, the fork's own among them; and anything that leaves the journal alone, such as a restart under a
    new fence. *)
Inductive session : World S -> Prop :=
  | sess_start w : journal (w_log w) = [] -> session w
  | sess_turn w c inputs exp w' r w'' n :
      session w -> family c -> freshID (w_tick w) (eventsOf w) -> Exec c har inputs exp w = (w', r) ->
      (length (journal (w_log w)) <= n)%nat -> journal (w_log w'') = take n (journal (w_log w')) -> session w''
  | sess_resume w c w' r w'' n :
      session w -> family c -> Resume c har w = (w', r) ->
      (length (journal (w_log w)) <= n)%nat -> journal (w_log w'') = take n (journal (w_log w')) -> session w''
  | sess_fork w w' n : session w -> rec_Event <$> journal (w_log w') = take n (eventsOf w) ->
      contiguous 0 (journal (w_log w')) -> session w'
  | sess_mark w w' r : session w -> journal (w_log w') = journal (w_log w) ++ [r] ->
      Seq r = headOf (journal (w_log w)) + 1 -> Kind (rec_Event r) = EventLifecycle -> session w'
  | sess_restart w w' : session w -> journal (w_log w') = journal (w_log w) -> session w'.

(** An execution of the journal [evs]: its invocation is the harness's, its effects are ordinary
    ones and a trace of the harness's run, and once completed it has its inputs and [Replay] reproduces it. *)
Record begun (evs : list Event) (x : recordedExecution) : Prop := {
  bg_legacy : x_legacyEnd x = 0;
  bg_name : x_harness x = resolvedName;
  bg_version : x_harnessVersion x = hversion;
  bg_start : (Z.to_nat (x_start x) <= length evs)%nat;
  bg_effects : Forall (effect_of (x_id x)) (x_stream x);
  bg_trace : trace (Run har (mkStart (x_id x) uid (x_config x) (take (Z.to_nat (x_start x)) evs)
    (x_inputs x) (x_resumeFromSeq x))) (x_stream x);
  bg_completed : x_completed x = true -> validateInputs x = None /\
    replays (S := S) har (mkStart (x_id x) uid (x_config x) (take (Z.to_nat (x_start x)) evs)
      (x_inputs x) (x_resumeFromSeq x)) (x_stream x);
}.

Record session_inv (J : list Record_) : Prop := {
  sv_modern : modern (rec_Event <$> J);
  sv_contiguous : contiguous 0 J;
  sv_ungated : Forall (fun e => gatedEvidence e = false) (rec_Event <$> J);
  sv_group : exists st, groupEvents 0 (rec_Event <$> J) (mkGroup [] ∅) = Ok st /\
    Forall (begun (rec_Event <$> J)) (g_executions st) /\
    recordedOutputs (rec_Event <$> J) = concat (map (fun x => recordedOutputs (x_stream x)) (g_executions st));
}.

(** What is replayed depends on the program alone. *)
Lemma replays_run s1 s2 effs : Run har s1 = Run har s2 -> replays (S := S) har s1 effs -> replays (S := S) har s2 effs.
Proof. intros He Hr. unfold replays in *. by rewrite <- He. Qed.

Lemma runReplay_run before sink s1 s2 (w : World S) : Run har s1 = Run har s2 -> runReplay har before sink s1 w = runReplay har before sink s2 w.
Proof. intros He. unfold runReplay. by rewrite He. Qed.

Lemma begun_app evs more x : begun evs x -> begun (evs ++ more) x.
Proof.
  intros []. constructor; try done; [rewrite length_app; lia|by rewrite take_app_le..].
Qed.

Lemma effects_ungated id effs : Forall (effect_of id) effs -> existsb isGatedCall effs = false.
Proof.
  intros Heffs. apply not_true_is_false. intros (a & Ha & Hg)%existsb_exists. rewrite list.Forall_forall in Heffs.
  destruct (Heffs a) as (_ & _ & Hge & _); [by apply list_elem_of_In|].
  unfold gatedEvidence in Hge. unfold isGatedCall in *. destruct (Kind a); congruence.
Qed.

Lemma begun_ungated evs x : begun evs x -> hasApproval x = false.
Proof. intros []. unfold hasApproval. by eapply effects_ungated. Qed.

Lemma session_inv_nil : session_inv [].
Proof.
  constructor; [by constructor|done|by constructor|]. exists (mkGroup [] ∅). repeat split. by constructor.
Qed.

Lemma session_inv_mark J r : session_inv J -> Seq r = headOf J + 1 -> Kind (rec_Event r) = EventLifecycle ->
  session_inv (J ++ [r]).
Proof.
  intros [Hm Hc Hu (st & Hg & Hf & Ho)] Hs Hk. constructor; rewrite ?fmap_app; simpl.
  - apply Forall_app. split; [done|]. by constructor.
  - by apply contiguous_snoc.
  - apply Forall_app. split; [done|]. constructor; [|done]. unfold gatedEvidence. by rewrite Hk.
  - exists st. split; [|split].
    + rewrite groupEvents_app, Hg. simpl. unfold groupEvent, isLifecycle. by rewrite bool_decide_eq_true_2.
    + eapply Forall_impl; [|exact Hf]. intros x. apply begun_app.
    + rewrite recordedOutputs_app, Ho. unfold recordedOutputs at 2. simpl. rewrite Hk. simpl. by rewrite app_nil_r.
Qed.

Lemma elem_of_take_sub {A} (x : A) n l : x ∈ take n l -> x ∈ l.
Proof. intros Hx. rewrite <- (take_drop n l). apply elem_of_app. by left. Qed.

(** The execution a turn leaves, cut short or not. *)
Lemma begun_turn J id inputs c desc rest n t more :
  family c -> stable_harness -> Describe har t = Ok desc -> turn_rest id inputs rest ->
  trace (Run har (mkStart id (c_sessionUID c) (startConfig c) (rec_Event <$> J) inputs
    (startResumeFromSeq c))) (filter (fun e => modernEffect (Kind e) = true) rest) ->
  (forall ins effs e, rest = ins ++ effs ++ [e] -> Forall2 (isInputOf id) inputs ins -> Kind e = EventEnd ->
    replays (S := S) har (mkStart id (c_sessionUID c) (startConfig c) (rec_Event <$> J) inputs
      (startResumeFromSeq c)) effs) ->
  begun ((rec_Event <$> J) ++ more) (absorbed (take n rest) (started id (length J)
      (mkExecutionStart (startConfig c) (startResumeFromSeq c) (Some (Z.of_nat (length inputs)))
         (resolvedHarnessName c desc) (desc_Version desc)))).
Proof.
  intros [Huid Hname] Hst Hd Hturn Htr Hrep. destruct (Hst _ _ Hd) as [Hdid Hdv]. constructor; simpl.
  - done.
  - unfold resolvedHarnessName, resolvedName. by rewrite Hname, Hdid.
  - done.
  - rewrite Nat2Z.id, length_app, length_fmap. lia.
  - pose proof (turn_rest_effects _ _ _ Hturn) as Heff. apply list.Forall_forall. intros e [Hm He]%list_elem_of_filter.
    rewrite list.Forall_forall in Heff. apply Heff; [|done]. by eapply elem_of_take_sub.
  - destruct (turn_rest_inputs _ _ _ n Hturn) as [->| ->]; [apply tr_cut|].
    destruct (filter_take (fun e => modernEffect (Kind e) = true) n rest) as [m ->]. apply trace_take.
    by rewrite Nat2Z.id, take_app_le, take_ge, <- Huid by (by rewrite length_fmap).
  - intros Hcm. destruct (turn_rest_completed _ _ _ _ Hturn Hcm) as (-> & ins & effs & e & -> & Hins & Heffs & He).
    destruct (inputs_no_end _ _ _ Hins) as (I1 & I2 & I3 & I4).
    destruct (effects_no_end _ _ Heffs) as (E1 & E2 & E3 & E4). destruct (end_alone e He) as (N1 & N2 & N3).
    specialize (Hrep _ _ _ eq_refl Hins He). eapply replays_run in Hrep; [|apply Huid].
    rewrite !inputMessages_app, I1, E1, N1, !app_nil_r, !list.filter_app, I2, E2, N2, app_nil_r. split.
    + unfold validateInputs. simpl. rewrite !inputMessages_app, I1, E1, N1, !app_nil_r, !list.filter_app, !length_app, I3, E3, N3.
      simpl. rewrite Nat.add_0_r, Z.eqb_refl. simpl. destruct (Z.ltb_spec (Z.of_nat (length inputs)) 0); [lia|done].
    + rewrite Nat2Z.id, take_app_le, take_ge by (by rewrite length_fmap). done.
Qed.

Lemma recordedOutputs_none es : Forall (fun e => Kind e <> EventOutput) es -> recordedOutputs es = [].
Proof.
  unfold recordedOutputs. induction 1 as [|e es He _ IH]; [done|]. simpl. by rewrite bool_decide_eq_false_2.
Qed.

Lemma session_inv_turn J id inputs c desc e0 rest rs t n :
  session_inv J -> family c -> stable_harness -> Describe har t = Ok desc ->
  id <> EmptyString -> Forall (fun e => ExecutionID e <> id) (rec_Event <$> J) ->
  isStart id (mkExecutionStart (startConfig c) (startResumeFromSeq c) (Some (Z.of_nat (length inputs)))
    (resolvedHarnessName c desc) (desc_Version desc)) e0 ->
  turn_rest id inputs rest ->
  trace (Run har (mkStart id (c_sessionUID c) (startConfig c) (rec_Event <$> J) inputs
    (startResumeFromSeq c))) (filter (fun e => modernEffect (Kind e) = true) rest) ->
  (forall ins effs e, rest = ins ++ effs ++ [e] -> Forall2 (isInputOf id) inputs ins -> Kind e = EventEnd ->
    replays (S := S) har (mkStart id (c_sessionUID c) (startConfig c) (rec_Event <$> J) inputs
      (startResumeFromSeq c)) effs) ->
  contiguous (headOf J) rs -> rec_Event <$> rs = take n (e0 :: rest) -> session_inv (J ++ rs).
Proof.
  intros [Hm Hc Hu (st & Hg & Hf & Ho)] Hfam Hst Hd Hid Hfresh Hstart Hturn Htr Hrep Hcr Hrs.
  destruct n as [|n].
  { destruct rs; [|done]. rewrite app_nil_r. constructor; eauto. }
  simpl in Hrs. pose proof (turn_rest_own _ _ _ Hturn) as Hown.
  assert (Hpre : Forall (fun e => ExecutionID e = id /\ Kind e <> EventExecutionStart /\
    Kind e <> EventLifecycle /\ gatedEvidence e = false) (take n rest)) by (by apply Forall_take).
  pose proof Hstart as (Hsid & Hsk & _).
  constructor; rewrite ?fmap_app, ?Hrs.
  - apply Forall_app. split; [done|]. constructor; [congruence|]. eapply Forall_impl; [|exact Hpre].
    simpl. intros e (-> & _) _. done.
  - by apply contiguous_0_app.
  - apply Forall_app. split; [done|]. constructor; [unfold gatedEvidence; by rewrite Hsk|].
    eapply Forall_impl; [|exact Hpre]. simpl. tauto.
  - assert (Hnone : g_byID st !! id = None).
    { destruct (g_byID st !! id) as [k|] eqn:Hk; [|done].
      destruct (groupEvents_ids _ _ _ _ _ _ Hg Hk) as [[j Hj]|(e & He & Hide)]; [done|].
      rewrite list.Forall_forall in Hfresh. by destruct (Hfresh e He). }
    assert (Hexec : absorbAll (length J) (e0 :: take n rest) (newExecution id (length J)) =
      Ok (absorbed (take n rest) (started id (length J) (mkExecutionStart (startConfig c) (startResumeFromSeq c)
        (Some (Z.of_nat (length inputs))) (resolvedHarnessName c desc) (desc_Version desc))))).
    { simpl. rewrite (absorb_start _ _ _ _ Hstart). simpl. apply absorbAll_rest.
      eapply Forall_impl; [|exact Hpre]. simpl. tauto. }
    eexists. split; [|split].
    + rewrite groupEvents_app, Hg. simpl plus. cbn [mbind result_bind]. rewrite length_fmap.
      apply (groupEvents_new id); [done| |done|done|exact Hexec].
      constructor; [split; [done|unfold isLifecycle; by rewrite Hsk]|].
      eapply Forall_impl; [|exact Hpre]. simpl. intros e (? & _ & Hl & _). split; [done|].
      unfold isLifecycle. by apply bool_decide_eq_false.
    + simpl. apply Forall_app. split.
      * eapply Forall_impl; [|exact Hf]. intros x. apply begun_app.
      * constructor; [|done]. by eapply begun_turn.
    + simpl. rewrite map_app, concat_app, recordedOutputs_app, Ho. f_equal. simpl.
      rewrite app_nil_r, recordedOutputs_effects. unfold recordedOutputs. simpl. by rewrite Hsk.
Qed.

(** More events of the last execution: effects, and perhaps an ERROR or the END. *)
Lemma resumed_rest id effs tl : Forall (effect_of id) effs ->
  tl = [] \/ resume_tail id EventError tl \/ resume_tail id EventEnd tl -> turn_rest id [] (effs ++ tl).
Proof.
  intros He [->|[(e & -> & Ht)|(e & -> & Ht)]].
  - rewrite app_nil_r. by apply (turn_effects _ _ []).
  - by apply (turn_error _ _ []).
  - by apply (turn_end _ _ []).
Qed.

Lemma resumed_no_inputs id rest n : turn_rest id [] rest ->
  filter (fun e => isInput e = true) (take n rest) = [].
Proof.
  intros Ht. assert (Forall (fun e => isInput e = false) rest) as Hi.
  { assert (Hin : forall ins, Forall2 (isInputOf id) [] ins -> ins = []) by (intros ins Hf; by inversion Hf).
    assert (He : forall effs, Forall (effect_of id) effs -> Forall (fun e => isInput e = false) effs).
    { intros effs Hf. eapply Forall_impl; [|exact Hf]. intros e (_ & Hm & _). unfold isInput.
      apply bool_decide_eq_false. intros Hk. by rewrite Hk in Hm. }
    destruct Ht as [ms ins Hp Hi|ins effs Hi Hf|ins effs e Hi Hf [_ Hk]|ins effs e Hi Hf [_ Hk]].
    - apply prefix_nil_inv in Hp as ->. by rewrite (Hin _ Hi).
    - rewrite (Hin _ Hi). auto.
    - rewrite (Hin _ Hi). apply Forall_app_2; [auto|]. apply Forall_app_2; [auto|]. constructor; [|done]. unfold isInput. by rewrite Hk.
    - rewrite (Hin _ Hi). apply Forall_app_2; [auto|]. apply Forall_app_2; [auto|]. constructor; [|done]. unfold isInput. by rewrite Hk. }
  apply (Forall_take _ n) in Hi. clear - Hi. induction Hi as [|e es He _ IH]; [done|].
  by rewrite filter_cons_False by by rewrite He.
Qed.

Lemma resumed_inputs id rest n : turn_rest id [] rest -> inputMessages (take n rest) = [].
Proof. intros Ht. unfold inputMessages. by rewrite (resumed_no_inputs _ _ n Ht). Qed.

Lemma validateInputs_absorbed x rest n : turn_rest (x_id x) [] rest -> validateInputs x = None ->
  validateInputs (absorbed (take n rest) x) = None.
Proof.
  intros Ht Hv. unfold validateInputs in *. simpl.
  rewrite (resumed_inputs _ _ n Ht), (resumed_no_inputs _ _ n Ht), app_nil_r. simpl. rewrite Z.add_0_r.
  destruct (negb (x_hasStart x)); [done|]. destruct (x_inputCount x) as [k|]; [|done].
  destruct (k <? 0); [done|]. destruct (negb _) in Hv |- *; [done|]. by destruct (negb _).
Qed.

(** The resumed execution. *)
Lemma begun_resumed evs more x c rest n : family c -> begun evs x -> x_completed x = false ->
  validateInputs x = None -> turn_rest (x_id x) [] rest ->
  trace (Run har (resumeStart c evs x)) (x_stream x ++ filter (fun e => modernEffect (Kind e) = true) rest) ->
  (forall effs e, rest = effs ++ [e] -> Kind e = EventEnd ->
     replays (S := S) har (resumeStart c evs x) (x_stream x ++ effs)) ->
  begun (evs ++ more) (absorbed (take n rest) x).
Proof.
  intros [Huid _] [B1 B2 B3 B4 B5 _ _] Hnc Hv Hturn Htr Hrep. constructor; simpl; try done.
  - rewrite length_app. lia.
  - apply Forall_app. split; [done|]. pose proof (turn_rest_effects _ _ _ Hturn) as Heff.
    apply list.Forall_forall. intros e [Hm He]%list_elem_of_filter.
    rewrite list.Forall_forall in Heff. apply Heff; [|done]. by eapply elem_of_take_sub.
  - rewrite take_app_le by done. rewrite (resumed_inputs _ _ n Hturn), app_nil_r.
    destruct (filter_take (fun e => modernEffect (Kind e) = true) n rest) as [m ->].
    unfold resumeStart in Htr. rewrite Huid in Htr.
    apply (trace_take _ _) with (n := (length (x_stream x) + m)%nat) in Htr.
    by rewrite firstn_app_2 in Htr.
  - intros Hcm. split; [by apply validateInputs_absorbed|]. rewrite Hnc in Hcm. simpl in Hcm.
    destruct (turn_rest_completed _ _ _ _ Hturn Hcm) as (-> & ins & effs & e & -> & Hins & Heffs & He).
    inversion Hins; subst ins. simpl in *. destruct (effects_no_end _ _ Heffs) as (E1 & E2 & _).
    destruct (end_alone e He) as (N1 & N2 & _).
    rewrite inputMessages_app, E1, N1, !app_nil_r, list.filter_app, E2, N2, app_nil_r, take_app_le by done.
    specialize (Hrep _ _ eq_refl He). unfold resumeStart in Hrep. by eapply replays_run in Hrep; [|apply Huid].
Qed.

(** A journal without approval evidence scans to nothing. *)
Lemma scan_ungated J n : Forall (fun e => gatedEvidence e = false) (rec_Event <$> J) ->
  exists scan, scanApprovalRecords J n = Ok scan /\ selectedState scan = None.
Proof.
  intros Hu. assert (Hw : withinCursor n J ⊆ J).
  { clear Hu. induction J as [|r J IH]; simpl; [done|]. destruct (_ && _); set_solver. }
  unfold scanApprovalRecords. rewrite scanInspect_spec.
  assert (Hall : forall execs, (forall x, x ∈ execs -> ax_gated x = false) -> forall h f, inspectAll h f execs = Ok []).
  { clear. intros execs Hx h f. induction execs as [|x xs IH]; simpl; [done|].
    rewrite (Hx x) by set_solver. simpl. rewrite IH by set_solver. done. }
  rewrite Hall; [eexists; split; [done|]; unfold selectedState; simpl; by destruct (selects _ _ _ _)|].
  intros x Hx. apply list_elem_of_lookup in Hx as [k Hk].
  destruct (si_exec _ _ (scanGroup_inv _) _ _ Hk) as (_ & Hrs & ->). rewrite Hrs.
  apply not_true_is_false. intros (r & Hr & Hg)%existsb_exists. apply list_elem_of_In, recordsOf_sub in Hr.
  rewrite Forall_fmap, list.Forall_forall in Hu. specialize (Hu r (Hw _ Hr)). simpl in Hu. congruence.
Qed.
(** The executions of a session's journal. *)
Lemma session_inv_executions J st : session_inv J -> groupEvents 0 (rec_Event <$> J) (mkGroup [] ∅) = Ok st ->
  recordedExecutions (rec_Event <$> J) = Ok (g_executions st).
Proof.
  intros [Hm _ _ (st' & Hg' & Hf & _)] Hg. apply recordedExecutions_modern; [done|]. exists st. split; [done|].
  split; [|done]. assert (st' = st) as -> by congruence. apply validateCompleted_None.
  eapply Forall_impl; [|exact Hf]. simpl. intros x Hx Hcm. by apply Hx.
Qed.

(** Where the last execution of a journal is kept. *)
Lemma last_execution J st x : groupEvents 0 (rec_Event <$> J) (mkGroup [] ∅) = Ok st ->
  list.last (g_executions st) = Some x -> exists xs, g_executions st = xs ++ [x] /\
    g_byID st !! x_id x = Some (length xs) /\ x_id x <> EmptyString.
Proof.
  intros Hg [xs Hl]%last_Some. exists xs. split; [done|].
  pose proof (groupEvents_inv [] [] _ _ _ _ (group_inv_init []) Hg) as Hinv.
  destruct (gi_exec _ _ _ Hinv (length xs) x) as [Hk Hp]; [simpl; lia| |].
  - by rewrite Hl, lookup_app_r, Nat.sub_diag by done.
  - split; [done|]. apply Hp.
Qed.

(** More events of the last execution only extend it. *)
Lemma group_extended J st x rest : groupEvents 0 (rec_Event <$> J) (mkGroup [] ∅) = Ok st ->
  list.last (g_executions st) = Some x ->
  Forall (fun e => ExecutionID e = x_id x /\ Kind e <> EventExecutionStart /\ Kind e <> EventLifecycle /\
    gatedEvidence e = false) rest ->
  exists xs, g_executions st = xs ++ [x] /\ x_id x <> EmptyString /\
    groupEvents 0 ((rec_Event <$> J) ++ rest) (mkGroup [] ∅) = Ok (mkGroup (xs ++ [absorbed rest x]) (g_byID st)).
Proof.
  intros Hg Hl Hpre. destruct (last_execution _ _ _ Hg Hl) as (xs & Hxs & Hby & Hid). exists xs. split; [done|].
  split; [done|]. rewrite groupEvents_app, Hg. simpl plus. cbn [mbind result_bind].
  rewrite (groupEvents_own (x_id x) rest Hid) with (k := length xs) (x := x); [| |done|].
  - rewrite absorbAll_rest; [|eapply Forall_impl; [|exact Hpre]; simpl; tauto]. cbn [mbind result_bind].
    by rewrite Hxs, insert_app_r_alt, Nat.sub_diag by done.
  - eapply Forall_impl; [|exact Hpre]. simpl. intros e (? & _ & ? & _). split; [done|]. by apply bool_decide_eq_false.
  - by rewrite Hxs, lookup_app_r, Nat.sub_diag by done.
Qed.

Lemma session_inv_resume J c x rest rs n st :
  session_inv J -> family c -> groupEvents 0 (rec_Event <$> J) (mkGroup [] ∅) = Ok st ->
  list.last (g_executions st) = Some x -> x_completed x = false -> validateInputs x = None ->
  turn_rest (x_id x) [] rest ->
  (trace (Run har (resumeStart c (rec_Event <$> J) x)) (x_stream x) ->
   trace (Run har (resumeStart c (rec_Event <$> J) x))
     (x_stream x ++ filter (fun e => modernEffect (Kind e) = true) rest)) ->
  (forall effs e, rest = effs ++ [e] -> Kind e = EventEnd ->
     replays (S := S) har (resumeStart c (rec_Event <$> J) x) (x_stream x ++ effs)) ->
  contiguous (headOf J) rs -> rec_Event <$> rs = take n rest -> session_inv (J ++ rs).
Proof.
  intros [Hm Hc Hu (st' & Hg' & Hf & Ho)] Hfam Hg Hl Hnc Hv Hturn Htr Hrep Hcr Hrs.
  assert (st' = st) as -> by congruence. clear Hg'.
  pose proof (Forall_take _ n _ (turn_rest_own _ _ _ Hturn)) as Hpre.
  destruct (group_extended _ _ _ _ Hg Hl Hpre) as (xs & Hxs & Hid & Hgroup).
  constructor; rewrite ?fmap_app, ?Hrs.
  - apply Forall_app. split; [done|]. eapply Forall_impl; [|exact Hpre]. simpl. intros e (-> & _) _. done.
  - by apply contiguous_0_app.
  - apply Forall_app. split; [done|]. eapply Forall_impl; [|exact Hpre]. simpl. tauto.
  - rewrite Hxs in Hf, Ho. apply Forall_app in Hf as [Hf Hx]. apply Forall_cons_iff in Hx as [Hx _].
    eexists. split; [exact Hgroup|]. split.
    + simpl. apply Forall_app. split.
      * eapply Forall_impl; [|exact Hf]. intros y. apply begun_app.
      * constructor; [|done]. eapply begun_resumed; eauto. apply Htr. pose proof (bg_trace _ _ Hx) as Hb.
        unfold resumeStart. by rewrite (proj1 Hfam).
    + simpl. rewrite map_app, concat_app, recordedOutputs_app, Ho, map_app, concat_app. simpl.
      rewrite !app_nil_r, recordedOutputs_app, recordedOutputs_effects, <- app_assoc. done.
Qed.

(** [Resume] on a session's journal. *)
Lemma session_Resume_run c (w w' : World S) r st : (forall start, replayable (Run har start)) ->
  session_inv (journal (w_log w)) -> groupEvents 0 (rec_Event <$> journal (w_log w)) (mkGroup [] ∅) = Ok st ->
  Resume c har w = (w', r) ->
  (r <> Ok true /\ appended (w_log w) (w_log w') []) \/
  exists x effs tl, pending (g_executions st) x /\ recovered c har (rec_Event <$> journal (w_log w)) x w w' r effs tl.
Proof.
  intros Hrep Hinv Hg Hrun. pose proof Hinv as [Hm Hc Hu (st' & Hg' & Hf & Ho)].
  assert (st' = st) as -> by congruence. eapply (Resume_run c har (g_executions st)) in Hrun; [done|done|by apply session_inv_executions| |].
  - intros scan Hscan. destruct (scan_ungated _ 0 Hu) as (scan' & Hscan' & Hsel). congruence.
  - intros x [xs Hx]%last_Some _. rewrite Hx in Hf. apply Forall_app in Hf as [_ Hf].
    apply Forall_cons_iff in Hf as [[] _]. auto.
Qed.

Lemma session_Resume c (w w' : World S) r xs x : (forall start, replayable (Run har start)) ->
  session_inv (journal (w_log w)) -> recordedExecutions (eventsOf w) = Ok xs -> pending xs x ->
  Resume c har w = (w', r) -> r = Ok true -> exists effs tl, recovered c har (eventsOf w) x w w' r effs tl.
Proof.
  intros Hrep Hinv Hxs Hp Hrun ->. pose proof Hinv as [_ _ _ (st & Hg & _)].
  pose proof (session_inv_executions _ _ Hinv Hg) as Hxs'. change (rec_Event <$> journal (w_log w)) with (eventsOf w) in Hxs'.
  rewrite Hxs in Hxs'. injection Hxs' as ->.
  destruct (session_Resume_run _ _ _ _ _ Hrep Hinv Hg Hrun) as [[? _]|(y & effs & tl & Hq & Hr)]; [done|].
  assert (y = x) as -> by (destruct Hp as [Hp _], Hq as [Hq _]; congruence). by exists effs, tl.
Qed.

(** A longer journal, cut somewhere: within what was there, or later. *)
Lemma cut_events (J : list Record_) evs more n : rec_Event <$> J = take n (evs ++ more) -> contiguous 0 J ->
  rec_Event <$> J = take n evs \/
  exists J1 J2 m, J = J1 ++ J2 /\ rec_Event <$> J1 = evs /\ rec_Event <$> J2 = take m more /\
    contiguous 0 J1 /\ contiguous (headOf J1) J2.
Proof.
  intros HJ Hc. rewrite take_app in HJ. destruct (decide (n <= length evs)%nat) as [Hle|Hgt].
  - left. rewrite HJ, (proj2 (Nat.sub_0_le _ _) Hle). simpl. by rewrite app_nil_r.
  - right. rewrite take_ge in HJ by lia. exists (take (length evs) J), (drop (length evs) J), (n - length evs)%nat.
    rewrite fmap_take, fmap_drop, HJ, take_app_length, drop_app_length. rewrite <- (take_drop (length evs) J) in Hc at 1.
    rewrite take_drop. apply contiguous_app in Hc as [Hc1 Hc2]. rewrite <- contiguous_head in Hc2 by done. by repeat split.
Qed.

(** Every journal that holds a prefix of [evs] satisfies the invariant. *)
Definition prefixes_sound (evs : list Event) : Prop :=
  forall J n, rec_Event <$> J = take n evs -> contiguous 0 J -> session_inv J.
Lemma prefixes_whole evs J : prefixes_sound evs -> rec_Event <$> J = evs -> contiguous 0 J -> session_inv J.
Proof. intros Hp HJ. apply (Hp J (length evs)). by rewrite take_ge. Qed.
Lemma prefixes_take evs n : prefixes_sound evs -> prefixes_sound (take n evs).
Proof. intros Hp J k HJ. rewrite take_take in HJ. by eapply Hp. Qed.

(** What a turn leaves, cut anywhere. *)
Lemma prefixes_turn c inputs exp (w w' : World S) r : (forall start, replayable (Run har start)) -> stable_harness ->
  family c -> freshID (w_tick w) (eventsOf w) -> contiguous 0 (journal (w_log w)) -> prefixes_sound (eventsOf w) ->
  Exec c har inputs exp w = (w', r) -> prefixes_sound (eventsOf w') /\ contiguous 0 (journal (w_log w')).
Proof.
  intros Hrep Hst Hfam [Hid Hfr] Hc Hp Hrun.
  destruct (Exec_run c har inputs exp w w' r Hrep Hc Hrun) as [Ha|(t & desc & e0 & rest & Hd & Hstart & Ha & Hturn & Htr & Hreplay)].
  - split; [|by eapply appended_contiguous]. apply appended_events in Ha. unfold eventsOf. rewrite Ha, app_nil_r. exact Hp.
  - split; [|by eapply appended_contiguous]. apply appended_events in Ha. unfold eventsOf. rewrite Ha.
    intros J n HJ HcJ. destruct (cut_events J _ _ n HJ HcJ) as [Hcut|(J1 & J2 & m & -> & H1' & H2' & C1 & C2)]; [by eapply Hp|].
    eapply (session_inv_turn J1 (newIDText (w_tick w)) inputs c desc e0 rest J2 t m); eauto; rewrite ?H1'; try done.
    by eapply prefixes_whole.
Qed.

(** What a recovery leaves, cut anywhere. *)
Lemma prefixes_resume c (w w' : World S) r : (forall start, replayable (Run har start)) -> stable_harness ->
  family c -> contiguous 0 (journal (w_log w)) -> prefixes_sound (eventsOf w) ->
  Resume c har w = (w', r) -> prefixes_sound (eventsOf w') /\ contiguous 0 (journal (w_log w')).
Proof.
  intros Hrep Hst Hfam Hc Hp Hrun. assert (Hinv : session_inv (journal (w_log w))) by (by eapply prefixes_whole).
  pose proof Hinv as [Hm _ Hu (st & Hg & Hf & Ho)].
  apply (session_Resume_run _ _ _ _ st Hrep Hinv Hg) in Hrun as [(_ & Ha)|(x & effs & tl & (Hl & Hnc & Hv) & [_ Ha He Htr Hor])].
  - split; [|by eapply appended_contiguous]. apply appended_events in Ha. unfold eventsOf. rewrite Ha, app_nil_r. exact Hp.
  - split; [|by eapply appended_contiguous]. apply appended_events in Ha. unfold eventsOf. rewrite Ha.
    intros J n HJ HcJ. destruct (cut_events J _ _ n HJ HcJ) as [Hcut|(J1 & J2 & m & -> & H1' & H2' & C1 & C2)]; [by eapply Hp|].
    assert (Htl : tl = [] \/ resume_tail (x_id x) EventError tl \/ resume_tail (x_id x) EventEnd tl)
      by (destruct Hor as [(_ & [?|?])|(_ & ? & _)]; auto).
    eapply (session_inv_resume J1 c x (effs ++ tl) J2 m st); eauto; rewrite ?H1'; try done.
    + by eapply prefixes_whole.
    + by apply resumed_rest.
    + assert (filter (fun e => modernEffect (Kind e) = true) (effs ++ tl) = effs) as ->; [|done].
      apply (effects_filter (x_id x) [] []); [constructor|done|].
      destruct Htl as [->|[(e & -> & _ & Hk)|(e & -> & _ & Hk)]]; [done|..]; (constructor; [by rewrite Hk|done]).
    + intros effs' e Heq Hk. destruct Hor as [(_ & [->|(e' & -> & _ & He')])|(_ & (e' & -> & _) & Hrep')].
      * exfalso. rewrite app_nil_r in Heq. subst effs. apply Forall_app in He as [_ He].
        apply Forall_cons_iff in He as [(_ & He & _) _]. by rewrite Hk in He.
      * apply app_inj_tail in Heq as [-> ->]. congruence.
      * by apply app_inj_tail in Heq as [-> ->].
Qed.

Lemma cut_journal (w w' : World S) n : journal (w_log w') = take n (journal (w_log w)) ->
  prefixes_sound (eventsOf w) /\ contiguous 0 (journal (w_log w)) -> prefixes_sound (eventsOf w') /\ contiguous 0 (journal (w_log w')).
Proof.
  intros Hj [Hp Hc]. unfold eventsOf. rewrite Hj, fmap_take. split; [by apply prefixes_take|].
  rewrite <- (take_drop n (journal (w_log w))) in Hc. by apply contiguous_app in Hc as [? _].
Qed.

(** The invariant holds of every session of a replayable harness, and of what holds a prefix of one. *)
Lemma session_prefixes w : (forall start, replayable (Run har start)) -> stable_harness -> session w ->
  prefixes_sound (eventsOf w) /\ contiguous 0 (journal (w_log w)).
Proof.
  intros Hrep Hst Hs. induction Hs as [w Hj|w c inputs exp w' r w'' k Hs [Hp Hc] Hfam Hid Hrun Hle Hj|
    w c w' r w'' k Hs [Hp Hc] Hfam Hrun Hle Hj|w w' k Hs [Hp Hc] Hj Hc'|w w' r Hs [Hp Hc] Hj Hseq Hk|w w' Hs IH Hj].
  - unfold eventsOf. rewrite Hj. split; [|done]. intros J n HJ _. cbn in HJ. rewrite take_nil in HJ. apply fmap_nil_inv in HJ as ->. apply session_inv_nil.
  - eapply cut_journal; [exact Hj|]. by eapply prefixes_turn.
  - eapply cut_journal; [exact Hj|]. by eapply prefixes_resume.
  - split; [|done]. unfold eventsOf. rewrite Hj. by apply prefixes_take.
  - unfold eventsOf. rewrite Hj, fmap_app. split; [|by apply contiguous_snoc].
    intros J n HJ HcJ. destruct (cut_events J _ _ n HJ HcJ) as [Hcut|(J1 & J2 & m & -> & H1' & H2' & C1 & C2)]; [by eapply Hp|].
    assert (session_inv J1) as H1inv by (by eapply prefixes_whole).
    destruct m as [|m]; [apply fmap_nil_inv in H2' as ->; by rewrite app_nil_r|].
    destruct J2 as [|r2 [|]]; try done; [|by destruct m]. cbn in C2. destruct C2 as [C2 _]. apply session_inv_mark; [done|done|].
    cbn in H2'. destruct m; by injection H2' as ->.
  - unfold eventsOf in *. by rewrite Hj.
Qed.
Lemma session_sound w : (forall start, replayable (Run har start)) -> stable_harness ->
  session w -> session_inv (journal (w_log w)).
Proof. intros Hrep Hst Hs. destruct (session_prefixes w Hrep Hst Hs) as [Hp Hc]. by eapply prefixes_whole. Qed.

(** A completed execution, which [Replay] accepts and reproduces. *)
Definition finished (evs : list Event) (x : recordedExecution) : Prop := begun evs x /\ x_completed x = true.

Lemma runReplay_finished (evs : list Event) scan x (w : World S) :
  finished evs x -> noCancel (w_tick w) -> exists w',
  runReplay har (liveModelCalls w) (newReplaySink scan x)
    (mkStart (x_id x) uid (x_config x) (take (Z.to_nat (x_start x)) evs) (x_inputs x) (x_resumeFromSeq x)) w =
    (w', Ok (recordedOutputs (x_stream x))) /\ still w w'.
Proof.
  intros [[Hleg _ _ _ _ _ Hrep] Hcm] Hnc. apply Hrep in Hcm as [_ Hcm]. clear Hrep.
  destruct (Hcm (newReplaySink scan x) w) as (w' & Hrun & Hst); [constructor; simpl; rewrite ?Hleg; done|done|].
  exists w'. split; [|done]. unfold runReplay. unfold runReplayProg in Hrun. rewrite Hrun.
  cbn [rs_failure newReplaySink advance]. rewrite (st_model _ _ Hst), Z.eqb_refl.
  cbn [negb rs_i rs_stream rs_outputs app]. by rewrite Nat.eqb_refl.
Qed.

Lemma replayAll_finished c recs scan xs (w : World S) : family c ->
  Forall (finished (rec_Event <$> recs)) xs -> noCancel (w_tick w) -> exists w',
  replayAll c har (liveModelCalls w) recs scan xs w = (w', Ok (completedOutputs xs)) /\ still w w'.
Proof.
  intros [Huid Hn] Hf. revert w. induction Hf as [|x xs Hx _ IH]; intros w Hnc.
  { exists w. split; [done|apply still_refl]. }
  destruct (runReplay_finished _ scan x w Hx Hnc) as (w1 & Hrun & Hst).
  destruct (IH w1) as (w2 & Hrest & Hst2); [eapply noCancel_mono; [apply Hst|done]|].
  exists w2. split; [|by eapply still_trans]. rewrite (st_model _ _ Hst) in Hrest.
  cbn [replayAll]. unfold mbind, M_bind, replayOne, replayIdentity, lift.
  rewrite (bg_legacy _ _ (proj1 Hx)). cbn [Z.gtb Z.compare]. unfold mbind, M_bind. cbn [fst snd].
  rewrite (runReplay_run _ _ _ _ _ (Huid _ _ _ _ _)), Hrun, Hrest. done.
Qed.

Lemma checkHarness_begun c evs xs (w w' : World S) r : family c -> stable_harness ->
  Forall (begun evs) xs -> (forall t, (w_tick w <= t)%nat -> is_ok (Describe har t) = true) ->
  checkHarness c har xs w = (w', r) -> is_ok r = true /\ still w w'.
Proof.
  intros [_ Hn] Hst Hf Hd. unfold checkHarness. destruct (negb (needsDescription xs)).
  { intros [= <- <-]. split; [done|apply still_refl]. }
  unfold mbind, M_bind, describeHarness, tick. unfold mbind at 1, M_bind at 1.
  specialize (Hd (w_tick w) (Nat.le_refl _)).
  destruct (Describe har (w_tick w)) as [d|e] eqn:HD; [|done]. destruct (Hst _ _ HD) as [Hid Hv].
  assert (firstMismatch c d xs = None) as Hmm.
  { induction Hf as [|x xs Hb _ IH]; [done|]. pose proof (begun_ungated _ _ Hb) as Hxa.
    pose proof (bg_name _ _ Hb) as Hx. pose proof (bg_version _ _ Hb) as Hxv. simpl. unfold harnessMismatch.
    assert (resolvedHarnessName c d = resolvedName) as ->
      by (unfold resolvedHarnessName, resolvedName; by rewrite Hn, Hid).
    rewrite Hx, Hxv, Hxa, Hv, (bool_decide_eq_true_2 (resolvedName = resolvedName)),
      (bool_decide_eq_true_2 (hversion = hversion)) by done. cbn [negb]. by rewrite !andb_false_r. }
  cbn. rewrite Hmm. intros [= <- <-]. split; [done|]. constructor; simpl; auto.
Qed.

(** [Replay] on a journal that satisfies the invariant. *)
Lemma Replay_run c (w w' : World S) r : session_inv (journal (w_log w)) -> family c -> stable_harness ->
  noCancel (w_tick w) -> (forall t, (w_tick w <= t)%nat -> is_ok (Describe har t) = true) ->
  is_ok (snd (st_Read 1 (w_log w))) = true -> Replay c har w = (w', r) ->
  exists xs, recordedExecutions (eventsOf w) = Ok xs /\
    r = Ok (completedOutputs (filter (fun x => x_completed x = true) xs)) /\
    (Forall (fun x => x_completed x = true) xs -> r = Ok (recordedOutputs (eventsOf w))) /\
    journal (w_log w') = journal (w_log w) /\ curFence (w_log w') = curFence (w_log w) /\
    liveModelCalls w' = liveModelCalls w /\ liveToolCalls w' = liveToolCalls w.
Proof.
  intros [Hm Hc Hu (st & Hg & Hf & Ho)] Hfam Hst Hnc Hd Hread Hrun.
  assert (Hex : recordedExecutions (eventsOf w) = Ok (g_executions st))
    by (apply session_inv_executions; [constructor; eauto|done]).
  exists (g_executions st). split; [done|].
  assert (Hsel : replaySelected (g_executions st) = filter (fun x => x_completed x = true) (g_executions st)).
  { unfold replaySelected. apply list_filter_iff'. intros x Hx.
    pose proof (pr_legacy _ _ (group_projects _ _ _ Hg Hx)) as ->. by rewrite orb_false_r. }
  assert (Hfin : Forall (finished (eventsOf w)) (replaySelected (g_executions st))).
  { rewrite Hsel. apply list.Forall_forall. intros x [Hx Hin]%list_elem_of_filter.
    rewrite list.Forall_forall in Hf. split; [by apply Hf|done]. }
  unfold Replay, onLog, mbind, M_bind, lift, gets in Hrun.
  destruct (st_Read 1 (w_log w)) as [l1 [recs|e]] eqn:Hr; [|done].
  apply read_law in Hr as (Hj & Hfe & Hrecs). rewrite (contiguous_readFrom_all _ 0) in Hrecs by (done || lia).
  subst recs. cbn [w_log] in Hrun. change (rec_Event <$> journal (w_log w)) with (eventsOf w) in Hrun at 1.
  rewrite Hex in Hrun. destruct (scan_ungated _ 0 Hu) as (scan & Hscan & _). rewrite Hscan in Hrun.
  match type of Hrun with context [checkHarness c har ?xs ?w1] => destruct (checkHarness c har xs w1) as [w2 r2] eqn:Hck end.
  edestruct (checkHarness_begun c (eventsOf w) (replaySelected (g_executions st))) as [Hok Hst2];
    [exact Hfam|exact Hst| | |exact Hck|]; [|exact Hd|].
  { eapply Forall_impl; [|exact Hfin]. by intros x []. }
  destruct r2 as [d|]; [|done].
  destruct (replayAll_finished c (journal (w_log w)) scan _ w2 Hfam Hfin) as (w3 & Hall & Hst3).
  { eapply noCancel_mono; [apply Hst2|]. exact Hnc. }
  rewrite Hall in Hrun. injection Hrun as <- <-. rewrite Hsel.
  split; [done|]. split; [|].
  - intros Hcm. f_equal. rewrite filter_all by done. symmetry. exact Ho.
  - rewrite (st_log _ _ Hst3), (st_log _ _ Hst2), (st_model _ _ Hst3), (st_model _ _ Hst2),
      (st_tool _ _ Hst3), (st_tool _ _ Hst2). simpl. auto.
Qed.

(** [Resume] of a session's pending execution. *)
Lemma session_inv_recovers c (I : S -> Prop) (w : World S) xs x : session_inv (journal (w_log w)) ->
  family c -> stable_harness -> (forall start, replayable (Run har start)) -> reliable I (c_fence c) ->
  (forall start, start_ExecutionID start <> EmptyString -> dependable c (Run har start)) -> serviceable I w ->
  (forall t, (w_tick w <= t)%nat -> is_ok (Describe har t) = true) ->
  recordedExecutions (eventsOf w) = Ok xs -> pending xs x ->
  ~ inheritsIntent (x_id x) (drop (Z.to_nat (x_start x)) (eventsOf w)) -> exists w', Resume c har w = (w', Ok true).
Proof.
  intros Hinv Hfam Hst Hrep Hstore Hdep Hw Hd Hxs Hp Hf. pose proof Hinv as [Hm Hc Hu (st & Hg & Hb & Ho)].
  pose proof (session_inv_executions _ _ Hinv Hg) as Hxs'. change (rec_Event <$> journal (w_log w)) with (eventsOf w) in Hxs'.
  rewrite Hxs in Hxs'. injection Hxs' as ->. pose proof Hp as (Hl & _).
  destruct (last_execution _ _ _ Hg Hl) as (ys & Hys & _ & Hid). rewrite Hys in Hb. apply Forall_app in Hb as [_ Hb].
  apply Forall_cons_iff in Hb as [Hb _]. pose proof Hb as [B1 B2 B3 B4 B5 B6 _].
  eapply (Resume_completes c har I Hstore); eauto.
  - by apply scan_ungated.
  - unfold resumeStart. by rewrite (proj1 Hfam).
  - intros w1 Hw1 Ht. destruct (checkHarness c har [x] w1) as [w2 r2] eqn:Hck.
    destruct (checkHarness_begun c (eventsOf w) [x] w1 w2 r2) as [Hok Hst2]; try done; [by constructor|by intros; apply Hd; lia|].
    destruct r2 as [d|]; [|done]. exists w2, d. split; [done|]. destruct Hw1 as [Hi Hnc].
    split; [by rewrite (st_log _ _ Hst2)|]. eapply noCancel_mono; [apply Hst2|done].
Qed.

(** What a completed recovery leaves: the same executions, but the last one extended and completed. *)
Lemma session_inv_completed c (w w' : World S) xs x effs tl r : session_inv (journal (w_log w)) -> family c ->
  recordedExecutions (eventsOf w) = Ok xs -> pending xs x ->
  recovered c har (eventsOf w) x w w' r effs tl -> r = Ok true ->
  exists e ys x', tl = [e] /\ isTail (x_id x) EventEnd e /\ eventsOf w' = eventsOf w ++ effs ++ [e] /\
    recordedExecutions (eventsOf w') = Ok (ys ++ [x']) /\ xs = ys ++ [x] /\
    x_id x' = x_id x /\ x_stream x' = x_stream x ++ effs /\ x_completed x' = true.
Proof.
  intros Hinv Hfam Hxs (Hl & Hcm & Hv) Hrec ->. destruct Hrec as [_ (rs & Hrs & Hev & Hcr) He Htr [(? & _)|(_ & (e & -> & Hid & Hk) & Hrep)]]; [done|].
  pose proof Hinv as [Hm Hc Hu (st & Hg & Hb & Ho)].
  pose proof (session_inv_executions _ _ Hinv Hg) as Hxs'. change (rec_Event <$> journal (w_log w)) with (eventsOf w) in Hxs'.
  rewrite Hxs in Hxs'. injection Hxs' as ->.
  assert (Hturn : turn_rest (x_id x) [] (effs ++ [e])) by (apply resumed_rest; [done|right; right; by exists e]).
  destruct (group_extended _ _ _ _ Hg Hl (turn_rest_own _ _ _ Hturn)) as (ys & Hys & _ & Hgroup).
  assert (Hev' : eventsOf w' = eventsOf w ++ effs ++ [e]) by (unfold eventsOf; by rewrite Hrs, fmap_app, Hev).
  assert (Hfil : filter (fun e => modernEffect (Kind e) = true) (effs ++ [e]) = effs)
    by (apply (effects_filter (x_id x) [] []); [constructor|done|constructor; [by rewrite Hk|done]]).
  exists e, ys, (absorbed (effs ++ [e]) x). split; [done|]. split; [done|]. split; [done|]. split; [|split; [done|split; [done|split]]].
  - assert (Hinv' : session_inv (journal (w_log w'))).
    { rewrite Hrs. eapply (session_inv_resume _ c x (effs ++ [e]) rs (length (effs ++ [e]))); eauto.
      - rewrite Hfil. exact Htr.
      - intros effs' e' [-> ->]%app_inj_tail _. exact Hrep.
      - by rewrite take_ge by done. }
    change (rec_Event <$> journal (w_log w)) with (eventsOf w) in Hgroup. rewrite <- Hev' in Hgroup. exact (session_inv_executions _ _ Hinv' Hgroup).
  - simpl. by rewrite Hfil.
  - simpl. rewrite existsb_app. simpl. rewrite Hk. simpl. by rewrite !orb_true_r.
Qed.

(** [Resume] completes the pending execution. *)
Lemma session_recovered c (I : S -> Prop) (w : World S) xs x :
  (forall start, replayable (Run har start)) ->
  (forall start, start_ExecutionID start <> EmptyString -> dependable c (Run har start)) ->
  stable_harness -> session w -> family c -> reliable I (c_fence c) -> serviceable I w ->
  (forall t, (w_tick w <= t)%nat -> is_ok (Describe har t) = true) ->
  recordedExecutions (eventsOf w) = Ok xs -> pending xs x ->
  ~ inheritsIntent (x_id x) (drop (Z.to_nat (x_start x)) (eventsOf w)) ->
  exists w' effs e ys x', Resume c har w = (w', Ok true) /\
    eventsOf w' = eventsOf w ++ effs ++ [e] /\ Forall (effect_of (x_id x)) effs /\ isTail (x_id x) EventEnd e /\
    recordedExecutions (eventsOf w') = Ok (ys ++ [x']) /\ xs = ys ++ [x] /\
    x_id x' = x_id x /\ x_stream x' = x_stream x ++ effs /\ x_completed x' = true.
Proof.
  intros Hrep Hdep Hst Hs Hfam Hstore Hw Hd Hxs Hp Hf.
  assert (Hinv : session_inv (journal (w_log w))) by (by eapply session_sound).
  destruct (session_inv_recovers c I w xs x) as [w' Hrun]; try done.
  destruct (session_Resume c w w' (Ok true) xs x) as (effs & tl & Hr); try done.
  destruct (session_inv_completed c w w' xs x effs tl (Ok true)) as (e & ys & x' & -> & Ht & Hev & Hx); try done.
  exists w', effs, e, ys, x'. split; [done|]. split; [done|]. split; [apply Hr|]. by split.
Qed.

(** A session whose pending execution inherits an open intent. *)
Lemma session_refused c (I : S -> Prop) (w : World S) xs x :
  (forall start, replayable (Run har start)) -> stable_harness -> session w -> reliable I (c_fence c) -> serviceable I w ->
  recordedExecutions (eventsOf w) = Ok xs -> pending xs x ->
  inheritsIntent (x_id x) (drop (Z.to_nat (x_start x)) (eventsOf w)) ->
  exists w', Resume c har w = (w', Err (false, EWrap "execution" (ESentinel ErrInheritedToolIntent))) /\ untouched w w'.
Proof.
  intros Hrep Hst Hs Hstore Hw Hxs Hp Hin. assert (Hinv : session_inv (journal (w_log w))) by (by eapply session_sound).
  pose proof Hinv as [Hm Hc Hu (st & Hg & Hb & Ho)].
  pose proof (session_inv_executions _ _ Hinv Hg) as Hxs'. change (rec_Event <$> journal (w_log w)) with (eventsOf w) in Hxs'.
  rewrite Hxs in Hxs'. injection Hxs' as ->. pose proof Hp as (Hl & _).
  destruct (last_execution _ _ _ Hg Hl) as (ys & Hys & _ & Hid). rewrite Hys in Hb. apply Forall_app in Hb as [_ Hb].
  apply Forall_cons_iff in Hb as [Hb _]. eapply (Resume_refuses c har I Hstore); eauto; [by apply scan_ungated|apply Hb].
Qed.
End session.

(** ** Properties *)

(** C1: Replay reproduces a whole session. Take any journal left by any sequence of [Exec] turns and
    [Resume] recoveries of a replayable harness, each possibly cut short by a crash, with lifecycle
    marks and controller restarts in between. [Replay] on it, by any controller of the session,
    succeeds; it yields exactly the recorded outputs of the completed turns, in order, which is every
    recorded output when no turn was left unfinished; and it touches nothing. *)
Theorem session_replays `{Host} `{Encoding} {S : Type} `{StoreLaws S} `{!FaithfulStore S} (har : Harness)
    (uid hname hid hversion : string) (c : Controller) (w w' : World S) r :
  (forall start, replayable (Run har start)) -> stable_harness har hid hversion ->
  session har uid hname w -> family har uid hname c ->
  noCancel (w_tick w) -> (forall t, (w_tick w <= t)%nat -> is_ok (Describe har t) = true) ->
  is_ok (snd (st_Read 1 (w_log w))) = true -> Replay c har w = (w', r) ->
  exists xs, recordedExecutions (eventsOf w) = Ok xs /\
    r = Ok (completedOutputs (filter (fun x => x_completed x = true) xs)) /\
    (Forall (fun x => x_completed x = true) xs -> r = Ok (recordedOutputs (eventsOf w))) /\
    untouched w w'.
Proof.
  intros Hrep Hst Hs Hfam Hnc Hd Hread Hrun. apply Replay_safe in Hrun as Hsafe.
  edestruct (Replay_run har uid hname hid hversion) as (xs & Hxs & Hr & Hall); eauto using session_sound.
  exists xs. split; [done|]. split; [done|]. split; [apply Hall|apply Hsafe].
Qed.

(** The last turn [x] is completed by [Resume]: its missing effects and an END are committed, nothing else. *)
Definition turnCompleted `{Host} `{Encoding} {S : Type} `{StoreLaws S} (c : Controller) (har : Harness) (w : World S)
    (xs : list recordedExecution) (x : recordedExecution) : Prop :=
  exists w' effs e ys x', Resume c har w = (w', Ok true) /\
    eventsOf w' = eventsOf w ++ effs ++ [e] /\ Forall (effect_of (x_id x)) effs /\ isTail (x_id x) EventEnd e /\
    recordedExecutions (eventsOf w') = Ok (ys ++ [x']) /\ xs = ys ++ [x] /\
    x_id x' = x_id x /\ x_stream x' = x_stream x ++ effs /\ x_completed x' = true.
(** The last turn is refused: it inherits an open intent. *)
Definition turnRefused `{Host} `{Encoding} {S : Type} `{StoreLaws S} (c : Controller) (har : Harness) (w : World S) : Prop :=
  exists w', Resume c har w = (w', Err (false, EWrap "execution" (ESentinel ErrInheritedToolIntent))) /\ untouched w w'.


(** *** Witnesses *)

Lemma echo_replayable `{Host} start : replayable (Run echoHarness start).
Proof.
  constructor; [intros; constructor|intros e; by exists e|]. intros m u. by right.
Qed.

Lemma echo_stable : stable_harness echoHarness "echo" "1".
Proof. intros t d [= <-]. by split. Qed.

(** The crash after the model call, and the recovery. *)
Lemma echo_crashed_session : session (H := exampleHost) (H0 := exampleEncoding) (H1 := @Log_Store exampleEncoding)
  echoHarness "uid" "" (echoCrashed 3).
Proof.
  apply (sess_turn (H := exampleHost) (H0 := exampleEncoding) (H1 := @Log_Store exampleEncoding) echoHarness "uid" ""
    freshWorld echoController [TextMessage "user" "hi"] 0 echoWorld (snd echoExec) (echoCrashed 3) 3).
  - by apply sess_start.
  - by split.
  - split; [|constructor]. vm_compute. discriminate.
  - unfold echoWorld, echoExec. apply surjective_pairing.
  - vm_compute. lia.
  - vm_compute. reflexivity.
Qed.

Lemma echo_session : session (H := exampleHost) (H0 := exampleEncoding) (H1 := @Log_Store exampleEncoding)
  echoHarness "uid" "" echoRecovered.
Proof.
  apply (sess_resume (H := exampleHost) (H0 := exampleEncoding) (H1 := @Log_Store exampleEncoding) echoHarness "uid" ""
    (echoCrashed 3) echoController echoRecovered (snd (echoResume 3)) echoRecovered 5).
  - apply echo_crashed_session.
  - by split.
  - unfold echoRecovered, echoResume. apply surjective_pairing.
  - vm_compute. lia.
  - vm_compute. reflexivity.
Qed.

Lemma session_replays_witness :
  exists xs, recordedExecutions (eventsOf echoRecovered) = Ok xs /\
    snd echoReplayRecovered = Ok (completedOutputs (filter (fun x => x_completed x = true) xs)) /\
    (Forall (fun x => x_completed x = true) xs -> snd echoReplayRecovered = Ok (recordedOutputs (eventsOf echoRecovered))) /\
    untouched echoRecovered (fst echoReplayRecovered).
Proof.
  apply (session_replays (H := exampleHost) (H0 := exampleEncoding) (H1 := @Log_Store exampleEncoding)
    (H3 := @Log_StoreLaws exampleEncoding) echoHarness "uid" "" "echo" "1" echoController echoRecovered).
  - intros start. apply (@echo_replayable exampleHost).
  - apply echo_stable.
  - apply echo_session.
  - by split.
  - intros n _. reflexivity.
  - intros t _. reflexivity.
  - vm_compute. reflexivity.
  - unfold echoReplayRecovered. apply surjective_pairing.
Defined.

(** The execution the crash left. *)
Definition echoCut : recordedExecution :=
  match recordedExecutions (eventsOf (echoCrashed 3)) with
  | Ok (x :: _) => x
  | _ => newExecution "" 0
  end.

(** The same turn in the child of a fork: the copy of the crashed journal, with the fork's mark. *)
Definition echoChild : World Log :=
  fst (onLog (st_Append (Store := @Log_Store exampleEncoding) 3 1 (forkMarker 3)) (echoCrashed 3)).
Lemma echo_child_session : session (H := exampleHost) (H0 := exampleEncoding) (H1 := @Log_Store exampleEncoding)
  echoHarness "uid" "" echoChild.
Proof.
  eapply (sess_mark (H := exampleHost) (H0 := exampleEncoding) (H1 := @Log_Store exampleEncoding) echoHarness "uid" ""
    (echoCrashed 3)); [|vm_compute; reflexivity..].
  apply (sess_fork (H := exampleHost) (H0 := exampleEncoding) (H1 := @Log_Store exampleEncoding) echoHarness "uid" ""
    (echoCrashed 3) _ 3); [apply echo_crashed_session|vm_compute; reflexivity|]. vm_compute. repeat split.
Qed.

