(* ===== verification/ServeFirst.v ===== *)
(** * Recovery serves before it acts (controller/resume.go)

    Whatever a harness does during a recovery without gated calls, nothing is invoked and nothing is
    committed while a recorded effect is still unserved. *)
From S2P Require Import Prelude GoErrors Api Canon EventLog Executions Approvals Harness Sinks Controller Agents LiveSpec Simulation ReplaySafety Turns Recovery.

(** The four parts of a specification. *)
Ltac parts := split; [|split; [|split]].

Section first.
Context `{Host} {S : Type} `{Store S}.
Variables (c : Controller) (har : Harness).

(** From sinks that satisfy [pre], [m] keeps the record, reads forward, and leaves the world alone
    but for the clock unless it reads to the end. *)
Definition serves_first {A} (stream : list Event) (pre : resumeSink -> Prop)
    (m : M (ResumeState (S := S)) goerr A) (Q : A -> resumeSink -> Prop) : Prop :=
  forall w s w' s' r, res_stream s = stream -> pre s -> m (w, s) = ((w', s'), r) ->
    res_stream s' = stream /\ (res_i s <= res_i s')%nat /\ ((res_i s' < length stream)%nat -> still w w') /\
    match r with Ok a => Q a s' | Err _ => True end.

Variable stream : list Event.

Lemma first_ret {A} (a : A) pre (Q : A -> resumeSink -> Prop) : (forall s, pre s -> Q a s) ->
  serves_first stream pre (mret a) Q.
Proof. intros HQ w s w' s' r Hs Hp [= <- <- <-]. parts; auto using still_refl. Qed.

Lemma first_throw {A} (e : goerr) pre (Q : A -> resumeSink -> Prop) : serves_first stream pre (throw e) Q.
Proof. intros w s w' s' r Hs Hp [= <- <- <-]. parts; auto using still_refl. Qed.

Lemma first_bind {A B} (m : M ResumeState goerr A) (f : A -> M ResumeState goerr B) pre Q1 Q :
  serves_first stream pre m Q1 -> (forall a, serves_first stream (Q1 a) (f a) Q) ->
  serves_first stream pre (m ≫= f) Q.
Proof.
  intros Hm Hf w s w' s' r Hs Hp Hrun. unfold mbind, M_bind in Hrun.
  destruct (m (w, s)) as [[w1 s1] r1] eqn:E1. destruct (Hm _ _ _ _ _ Hs Hp E1) as (Hs1 & Hi1 & Hw1 & Hq1).
  destruct r1 as [a|e]; [|by injection Hrun as <- <- <-].
  destruct (Hf a _ _ _ _ _ Hs1 Hq1 Hrun) as (Hs2 & Hi2 & Hw2 & Hq2). split; [done|]. split; [lia|]. split; [|done].
  intros Hlt. eapply still_trans; [apply Hw1; lia|auto].
Qed.

Lemma first_mono {A} (m : M ResumeState goerr A) (pre pre' : resumeSink -> Prop) (Q Q' : A -> resumeSink -> Prop) :
  serves_first stream pre m Q -> (forall s, pre' s -> pre s) -> (forall a s, Q a s -> Q' a s) ->
  serves_first stream pre' m Q'.
Proof.
  intros Hm Hp HQ w s w' s' r Hs Hpre Hrun. destruct (Hm _ _ _ _ _ Hs (Hp _ Hpre) Hrun) as (? & ? & ? & ?).
  parts; try done. destruct r; auto.
Qed.

(** What the precondition says about the record alone. *)
Lemma first_given {A} (pre : resumeSink -> Prop) (P : Prop) (m : M ResumeState goerr A) Q :
  (forall s, pre s -> P) -> (P -> serves_first stream pre m Q) -> serves_first stream pre m Q.
Proof. intros HP Hm w s w' s' r Hs Hp. by apply Hm; [eapply HP|..]. Qed.

Lemma first_get {A} (f : resumeSink -> A) pre :
  serves_first stream pre (getResume f) (fun a s => pre s /\ res_stream s = stream /\ a = f s).
Proof. intros w s w' s' r Hs Hp [= <- <- <-]. parts; auto using still_refl. Qed.

Lemma first_mod f pre (Q : resumeSink -> Prop) :
  (forall s, pre s -> res_stream s = stream -> res_stream (f s) = stream /\ (res_i s <= res_i (f s))%nat /\ Q (f s)) ->
  serves_first stream pre (modResume f) (fun _ s => Q s).
Proof.
  intros Hf w s w' s' r Hs Hp [= <- <- <-]. destruct (Hf s Hp Hs) as (? & ? & ?). parts; auto using still_refl.
Qed.

Lemma first_check (o : option goerr) pre : serves_first stream pre (check o) (fun _ s => pre s /\ o = None).
Proof. destruct o; [apply first_throw|]. apply first_ret. auto. Qed.

Lemma first_failWith {A} e pre (Q : A -> resumeSink -> Prop) : serves_first stream pre (resumeFailWith e) Q.
Proof. eapply first_bind; [apply (first_mod _ _ (fun _ => True)); intros; repeat split; done|intros; apply first_throw]. Qed.

Lemma first_diverged {A} t pre (Q : A -> resumeSink -> Prop) : serves_first stream pre (resume_diverged t) Q.
Proof. apply first_failWith. Qed.

(** A live effect, once the record is used up. *)
Lemma first_live {A} (m : M (World S * liveSink) goerr A) (pre : resumeSink -> Prop) :
  (forall s, pre s -> res_stream s = stream -> serving s = false) -> serves_first stream pre (onLive m) (fun _ _ => True).
Proof.
  intros Hpre w s w' s' r Hs Hp Hrun. specialize (Hpre s Hp Hs). unfold serving in Hpre. rewrite Hs in Hpre.
  apply Nat.ltb_ge in Hpre. unfold onLive in Hrun. simpl in Hrun. destruct (m (w, live s)) as [[w1 l1] r1].
  injection Hrun as <- <- <-. simpl. parts; [done|done|lia|by destruct r1].
Qed.

(** A live effect that only looks at the clock or the sink. *)
Lemma first_quiet {A} (m : M (World S * liveSink) goerr A) (pre : resumeSink -> Prop) :
  (forall w l w' l' r, m (w, l) = ((w', l'), r) -> still w w') ->
  (forall s l, pre s -> pre (mkResumeSink l (res_stream s) (res_i s) (res_failure s) (res_approvals s))) ->
  serves_first stream pre (onLive m) (fun _ s => pre s).
Proof.
  intros Hm Hpre w s w' s' r Hs Hp Hrun. unfold onLive in Hrun. simpl in Hrun.
  destruct (m (w, live s)) as [[w1 l1] r1] eqn:E. apply Hm in E. injection Hrun as <- <- <-. simpl.
  parts; [done|done|by intros _|destruct r1; auto].
Qed.

(** Reading on: the record read is the one at the index. *)
Lemma first_next k pre : serves_first stream pre (recordedNext k) (fun o s =>
  match o with
  | Some e => exists i, stream !! i = Some e /\ Kind e = k /\ res_i s = Datatypes.S i
  | None => pre s
  end).
Proof.
  unfold recordedNext. eapply first_bind; [apply first_get|]. intros i.
  eapply first_bind; [apply first_get|]. intros st. unfold nextOf.
  destruct (st !! i) as [e|] eqn:He; [case_bool_decide|].
  - eapply first_bind.
    + apply (first_mod _ _ (fun s => exists i, stream !! i = Some e /\ Kind e = k /\ res_i s = Datatypes.S i)).
      intros s ((_ & Hs & Hi) & _ & Hst) _. subst i st. simpl. split; [done|]. split; [lia|]. exists (res_i s). split; [by rewrite <- Hs|done].
    + intros []. apply first_ret. auto.
  - apply first_ret. by intros s ((? & _) & _).
  - apply first_ret. by intros s ((? & _) & _).
Qed.

(** The guard: not closed, nothing latched, context alive. *)
Lemma first_guard {A} (op : M ResumeState goerr A) : serves_first stream (fun _ => True) op (fun _ _ => True) ->
  serves_first stream (fun _ => True) (resumeGuard op) (fun _ _ => True).
Proof.
  intros Hop. assert (Hchk : forall o, serves_first stream (fun _ => True) (check o) (fun (_ : unit) _ => True)).
  { intros o. eapply first_mono; [apply (first_check _ (fun _ => True))|done|done]. }
  assert (Hget : forall B (f : resumeSink -> B), serves_first stream (fun _ => True) (getResume f) (fun _ _ => True)).
  { intros B f. eapply first_mono; [apply (first_get f (fun _ => True))|done|done]. }
  unfold resumeGuard. eapply first_bind; [apply Hget|]. intros g. eapply first_bind; [apply Hchk|]. intros [].
  eapply first_bind; [apply Hget|]. intros f. eapply first_bind; [apply Hchk|]. intros [].
  eapply first_bind; [apply (first_quiet _ (fun _ => True)); [|done]|intros []; exact Hop].
  intros w l w' l' r. unfold onWorld, ctxCheck, tick, mbind, M_bind, check. cbn.
  destruct (ctxErr (w_tick w)); intros [= <- <- <-]; constructor; simpl; auto.
Qed.

(** Branching on whether records are left. *)
Lemma first_serving {A} (f : bool -> M (ResumeState (S := S)) goerr A) pre Q :
  serves_first stream (fun s => pre s /\ serving s = true) (f true) Q ->
  serves_first stream (fun s => pre s /\ serving s = false) (f false) Q ->
  serves_first stream pre (getResume serving ≫= f) Q.
Proof.
  intros Ht Hf. eapply first_bind; [apply first_get|]. intros [];
    (eapply first_mono; [eassumption| |done]); intros s (? & _ & ?); auto.
Qed.

(** A live effect behind that branch. *)
Lemma first_live_end {A} (m : M (World S * liveSink) goerr A) pre :
  serves_first stream (fun s => pre s /\ serving s = false) (onLive m) (fun _ _ => True).
Proof. apply first_live. by intros s [_ ?] _. Qed.

Lemma first_model req : serves_first stream (fun _ => True) (resume_model c req) (fun _ _ => True).
Proof.
  unfold resume_model. apply first_serving; cbn [negb]; [|apply first_live_end].
  eapply first_bind; [apply first_next|]. intros [e|]; [|apply first_diverged].
  destruct (match ev_ModelCall e with Some _ => _ | None => _ end); [apply first_diverged|].
  eapply first_bind; [apply first_next|]. intros o. eapply first_bind; [apply first_get|]. intros leg. destruct o as [out|].
  - eapply first_bind; [apply first_get|]. intros st. eapply first_bind; [apply first_get|]. intros i. by apply first_ret.
  - apply first_serving; cbn [orb]; [apply first_throw|]. destruct leg; [apply first_throw|apply first_live_end].
Qed.

Lemma first_output d : serves_first stream (fun _ => True) (resume_output c d) (fun _ _ => True).
Proof.
  unfold resume_output. apply first_serving; cbn [negb]; [|apply first_live_end].
  eapply first_bind; [apply first_next|]. intros [e|]; [|apply first_diverged].
  destruct (negb _); [apply first_diverged|by apply first_ret].
Qed.

Lemma first_usage u : serves_first stream (fun _ => True) (resume_usage c u) (fun _ _ => True).
Proof.
  unfold resume_usage. eapply first_bind; [apply first_get|]. intros leg.
  apply first_serving; cbn [negb]; [|apply first_live_end]. destruct leg; [by apply first_ret|].
  eapply first_bind; [apply first_next|]. intros [e|]; [|apply first_diverged].
  destruct (ev_Usage e); [|apply first_diverged]. destruct (decide _); [by apply first_ret|apply first_diverged].
Qed.

Lemma first_report tr : serves_first stream (fun _ => True) (resume_report c tr) (fun _ _ => True).
Proof.
  unfold resume_report. eapply first_bind; [apply first_get|]. intros calls. apply first_serving; cbn [negb].
  - destruct (default false _); [apply first_failWith|]. eapply first_bind; [apply first_check|]. intros [].
    eapply first_bind; [apply first_get|]. intros i. eapply first_bind; [apply first_get|]. intros st.
    destruct (receiptAt st i); [apply first_failWith|]. eapply first_bind; [apply first_next|].
    intros [e|]; [by apply first_ret|apply first_diverged].
  - destruct (default false _); [apply first_live_end|]. eapply first_bind; [apply first_check|]. intros [].
    apply first_live. by intros s [[_ ?] _] _.
Qed.

Lemma first_ordinary rc pre : serves_first stream pre (resume_ordinary c rc) (fun _ _ => True).
Proof.
  unfold resume_ordinary. eapply first_bind; [apply first_next|]. intros [e|].
  - destruct (recordedToolResult rc (ev_Result e)); [by apply first_ret|apply first_failWith].
  - apply first_serving; [apply first_throw|apply first_live_end].
Qed.

Hypothesis ungated : Forall (fun e => isGatedCall e = false) stream.

Lemma first_toolCall tc : serves_first stream (fun _ => True) (resume_toolCall c har tc) (fun _ _ => True).
Proof.
  unfold resume_toolCall. eapply first_bind; [apply first_get|]. intros i. eapply first_bind; [apply first_get|]. intros st.
  destruct (keylessRejected st i tc); [apply first_throw|]. apply first_serving; cbn [negb]; [|apply first_live_end].
  eapply first_bind; [apply first_check|]. intros [].
  eapply first_bind; [apply first_next|]. intros [e|].
  2: { eapply first_bind; [apply first_check|]. intros []. apply first_failWith. }
  destruct (matchToolCall tc (ev_ToolCall e)) as [er|] eqn:Hm; [apply first_failWith|].
  destruct (ev_ToolCall e) as [rc|] eqn:Hrc; [|apply first_throw].
  apply (first_given _ (bool_decide (tc_Mediation rc = MediationRequiresApproval) = false)).
  { intros s (j & He & Hk & _).
    assert (Hg : isGatedCall e = false) by (rewrite list.Forall_forall in ungated; apply ungated; by eapply list_elem_of_lookup_2).
    unfold isGatedCall in Hg. by rewrite Hk, Hrc in Hg. }
  intros ->.
  eapply first_bind; [|intros []; apply first_ordinary]. apply first_quiet; [|done].
  intros w l w' l' r [= <- <- <-]. apply still_refl.
Qed.

(** Every run. *)
Lemma first_run p : serves_first stream (fun _ => True) (fun st => let '(st', r) := runProg (H := resumeEventSink c har) p st in
  (st', Ok r)) (fun (_ : option goerr) _ => True).
Proof.
  assert (Hgen : forall A (op : M ResumeState goerr A) (k : res A -> Prog),
    serves_first stream (fun _ => True) op (fun _ _ => True) ->
    (forall r, serves_first stream (fun _ => True) (fun st => let '(st', r) := runProg (H := resumeEventSink c har) (k r) st in
      (st', Ok r)) (fun (_ : option goerr) _ => True)) ->
    serves_first stream (fun _ => True) (fun st => let '(st', r) :=
      (let '(st1, r1) := resumeGuard op st in runProg (H := resumeEventSink c har) (k r1) st1) in (st', Ok r))
      (fun (_ : option goerr) _ => True)).
  { intros A op k Hop Hk w s w' s' r Hs _ Hrun. destruct (resumeGuard op (w, s)) as [[w1 s1] r1] eqn:E1.
    destruct (first_guard op Hop _ _ _ _ _ Hs Logic.I E1) as (Hs1 & Hi1 & Hw1 & _).
    destruct (Hk r1 _ _ _ _ _ Hs1 Logic.I Hrun) as (Hs2 & Hi2 & Hw2 & _). parts; [done|lia| |by destruct r].
    intros Hlt. eapply still_trans; [apply Hw1; lia|auto]. }
  induction p as [e|req k IH|d k IH|tc k IH|tr k IH|u k IH].
  - by apply first_ret.
  - apply (Hgen _ (resume_model c req) k); auto using first_model.
  - apply (Hgen _ (resume_output c d) (fun r => k (err_of r))); auto using first_output.
  - apply (Hgen _ (resume_toolCall c har tc) k); auto using first_toolCall.
  - apply (Hgen _ (resume_report c tr) (fun r => k (err_of r))); auto using first_report.
  - apply (Hgen _ (resume_usage c u) (fun r => k (err_of r))); auto using first_usage.
Qed.
End first.

(** ** The recovery as a whole *)

(** The first [n] calls a harness makes of its sink. *)
Fixpoint firstCalls (n : nat) (p : Prog) : Prog :=
  match n, p with
  | O, _ => PReturn None
  | Datatypes.S _, PReturn e => PReturn e
  | Datatypes.S n, PModel req k => PModel req (fun r => firstCalls n (k r))
  | Datatypes.S n, POutput d k => POutput d (fun r => firstCalls n (k r))
  | Datatypes.S n, PToolCall tc k => PToolCall tc (fun r => firstCalls n (k r))
  | Datatypes.S n, PReport tr k => PReport tr (fun r => firstCalls n (k r))
  | Datatypes.S n, PUsage u k => PUsage u (fun r => firstCalls n (k r))
  end.

Section recovery.
Context `{Host} `{Encoding} {S : Type} `{StoreLaws S} `{!FaithfulStore S}.
Variables (c : Controller) (har : Harness).

(** At most one ERROR is committed, of which the observer may be told, and nothing is invoked. *)
Record onlyError (w w' : World S) : Prop := mkOnlyError {
  oe_asked : w_asked w' = w_asked w;
  oe_model : liveModelCalls w' = liveModelCalls w;
  oe_tool : liveToolCalls w' = liveToolCalls w;
  oe_journal : exists rs, journal (w_log w') = journal (w_log w) ++ rs /\ (length rs <= 1)%nat /\
    Forall (fun r => Kind (rec_Event r) = EventError) rs;
  oe_updates : exists rs, w_updates w' = w_updates w ++ (OnRecord <$> rs) /\ (length rs <= 1)%nat /\
    Forall (fun r => Kind (rec_Event r) = EventError) rs;
}.

Lemma onlyError_nothing (w w' : World S) : journal (w_log w') = journal (w_log w) -> w_asked w' = w_asked w ->
  liveModelCalls w' = liveModelCalls w -> liveToolCalls w' = liveToolCalls w -> w_updates w' = w_updates w -> onlyError w w'.
Proof. intros Hj ? ? ? Hu. constructor; [done..| |]; exists []; rewrite ?Hj, ?Hu, app_nil_r; (split; [done|]; split; [simpl; lia|constructor]). Qed.

(** The append of an ERROR. *)
Lemma appended_error exp ev (w w' : World S) r : Kind ev = EventError ->
  (let! rec := onLog (st_Append exp (c_fence c) ev) in do! observe c rec in mret rec) w = (w', r) -> onlyError w w'.
Proof.
  intros Hk. unfold mbind, M_bind, onLog. destruct (st_Append _ _ _ (w_log w)) as [l [rec|e]] eqn:Ha;
    apply append_law in Ha as [_ Ha]; [|intros [= <- <-]; by apply onlyError_nothing].
  destruct Ha as (_ & _ & _ & _ & _ & Hev & Hj). unfold observe, modify. intros [= <- <-].
  constructor; destruct (onRecord c); try done; cbn.
  - eexists. split; [exact Hj|]. split; [simpl; lia|]. constructor; [|done]. cbn. by rewrite (fa_Kind _ _ (persisted_faithful ev)).
  - eexists. split; [exact Hj|]. split; [simpl; lia|]. constructor; [|done]. cbn. by rewrite (fa_Kind _ _ (persisted_faithful ev)).
  - exists [rec]. split; [done|]. split; [simpl; lia|]. constructor; [by rewrite Hev|done].
  - exists []. rewrite app_nil_r. split; [done|]. split; [simpl; lia|constructor].
Qed.

Lemma head_onlyError (m : Z -> M (World S) goerr Record_) (w w' : World S) r :
  (forall h w1 w2 r, m h w1 = (w2, r) -> onlyError w1 w2) -> (let! h := onLog st_Head in m h) w = (w', r) -> onlyError w w'.
Proof.
  intros Hm. unfold mbind, M_bind, onLog. destruct (st_Head (w_log w)) as [l [h|e]] eqn:Hh; apply head_law in Hh as (Hj & _ & _).
  - intros [Oa Om Ot Oj Ou]%Hm. cbn in *. rewrite Hj in Oj. by constructor.
  - intros [= <- <-]. by apply onlyError_nothing.
Qed.

Lemma live_append_error ev (w w' : World S) ls ls' r : Kind ev = EventError ->
  live_append c ev (w, ls) = ((w', ls'), r) -> onlyError w w'.
Proof.
  intros Hk. unfold live_append, getSink. unfold mbind at 1 2, M_bind at 1 2, gets. cbn [snd].
  destruct (legacyRecovery ls); cbn [negb].
  - intros Hrun. eapply (head_onlyError (fun head => let! rec := onLog (st_Append head (c_fence c) (setExecutionID EmptyString ev)) in
      do! observe c rec in mret rec)); [intros h w1 w2 r2; by apply appended_error|].
    revert Hrun. unfold mbind, M_bind, onWorld, onLog. cbn [fst snd]. destruct (st_Head (w_log w)) as [l [h|e]]; [|by intros [= <- <- <-]].
    cbn [fst snd w_log w_tick liveModelCalls liveToolCalls w_updates w_asked]. destruct (st_Append _ _ _ l) as [l2 [rec|e]]; [|by intros [= <- <- <-]].
    cbn [fst snd]. destruct (observe c rec _) as [w3 [[]|e]]; by intros [= <- <- <-].
  - unfold onWorld. cbn [fst snd]. destruct (appendSeq c _ ev w) as [w1 r1] eqn:E. intros [= <- <- <-].
    unfold appendSeq in E. case_bool_decide; [injection E as <- <-; by apply onlyError_nothing|].
    eapply head_onlyError; [|exact E]. intros h w1' w2 r2. by apply appended_error.
Qed.

(** A recovery that served part of its record fails, and commits at most an ERROR. *)
Lemma finishResume_early s err (w w' : World S) r : (res_i s < length (res_stream s))%nat ->
  finishResume c s err w = (w', r) -> onlyError w w' /\ exists e, r = Err (true, e).
Proof.
  intros Hlt. unfold finishResume. destruct (snd (guardClose _)) as [st|].
  { intros [= <- <-]. split; [by apply onlyError_nothing|eauto]. }
  assert (exists e, recoveryErr s err = Some e) as [e ->].
  { unfold recoveryErr. destruct (res_failure s); [eauto|]. destruct err; [eauto|].
    destruct (Nat.eqb_spec (res_i s) (length (res_stream s))); [lia|]. eauto. }
  destruct (live_append c _ (w, live s)) as [[w1 l1] r1] eqn:E. intros [= <- <-].
  split; [by eapply live_append_error; [|exact E]|eauto].
Qed.

Lemma untouched_same (w w' : World S) l : journal l = journal (w_log w) -> curFence l = curFence (w_log w) ->
  still (mkWorld l (w_tick w) (liveModelCalls w) (liveToolCalls w) (w_updates w) (w_asked w)) w' -> untouched w w'.
Proof. intros Hj Hf [L T M1 M2 U A]. unfold untouched. rewrite L, M1, M2, U, A. cbn. by rewrite Hj, Hf. Qed.

(** What [Resume] runs the harness on. *)
Definition recoveryStart (events : list Event) (x : recordedExecution) (id : string) : Start :=
  mkStart id (c_sessionUID c) (x_config x) (take (Z.to_nat (x_start x)) events) (x_inputs x) (x_resumeFromSeq x).

(** The pending execution holds no gated call, and no approval of it is open. *)
Definition ungatedRecord (scan : approvalScan) (x : recordedExecution) : Prop :=
  Forall (fun e => isGatedCall e = false) (x_stream x) /\
  forall s, selectedState scan = Some s -> as_ExecutionID s = x_id x -> is_Some (as_Receipt s).
Definition ungatedRecovery (recs : list Record_) : Prop :=
  forall xs x scan, recordedExecutions (rec_Event <$> recs) = Ok xs ->
    pendingResumeExecution (rec_Event <$> recs) xs = Ok (Some x) -> scanApprovalRecords recs 0 = Ok scan -> ungatedRecord scan x.

Lemma pendingApproval_ungated scan x (w : World S) : ungatedRecord scan x -> pendingApproval c scan (x_id x) w = (w, Ok tt).
Proof.
  intros [_ Hs]. unfold pendingApproval. destruct (selectedState scan) as [s|]; [|done].
  destruct (bool_decide_reflect (as_ExecutionID s = x_id x)) as [He|]; [|done].
  destruct (Hs s eq_refl He) as [rc ->]. done.
Qed.

Lemma Resume_runs (w w' : World S) r : ungatedRecovery (readFrom 1 (journal (w_log w))) -> Resume c har w = (w', r) ->
  (untouched w w' /\ r <> Ok true) \/
  exists xs scan x d id w0, let events := rec_Event <$> readFrom 1 (journal (w_log w)) in
    recordedExecutions events = Ok xs /\ pendingResumeExecution events xs = Ok (Some x) /\ untouched w w0 /\
    ungatedRecord scan x /\ runResume c har (newResumeSink scan x d) (recoveryStart events x id) w0 = (w', r).
Proof.
  unfold ungatedRecovery. intros Hug. unfold Resume, withFlag. unfold mbind, M_bind, mret, M_ret, lift, onLog.
  destruct (st_CheckWritable (w_log w)) as [l1 [[]|e]] eqn:Hw; apply writable_law in Hw as [Hj1 Hf1];
    [|intros [= <- <-]; left; split; [by repeat split|done]].
  cbn [w_log]. destruct (st_Read 1 l1) as [l2 [recs|e]] eqn:Hr; apply read_law in Hr as (Hj2 & Hf2 & Hp);
    [|intros [= <- <-]; left; split; [unfold untouched; cbn; by rewrite Hj2, Hf2, Hj1, Hf1|done]].
  rewrite Hj1 in Hp, Hj2. rewrite Hf1 in Hf2. subst recs.
  assert (Hstop : forall w1 (r1 : result (bool * goerr) bool), still (mkWorld l2 (w_tick w) (liveModelCalls w) (liveToolCalls w) (w_updates w) (w_asked w)) w1 ->
    r1 <> Ok true -> (w1, r1) = (w', r) -> untouched w w' /\ r <> Ok true).
  { intros w1 r1 Hst Hr1 [= <- <-]. split; [by eapply untouched_same|done]. }
  destruct (readFrom 1 (journal (w_log w))) as [|r0 J] eqn:HJ; [intros Hrun; left; eapply Hstop; [apply still_refl| |exact Hrun]; done|].
  destruct (recordedExecutions _) as [xs|e]; [|intros Hrun; left; eapply Hstop; [apply still_refl| |exact Hrun]; done].
  destruct (scanApprovalRecords _ 0) as [scan|e]; [|intros Hrun; left; eapply Hstop; [apply still_refl| |exact Hrun]; done].
  destruct (pendingResumeExecution _ xs) as [[x|]|e] eqn:Hx; [|intros Hrun; left; eapply Hstop; [apply still_refl| |exact Hrun]; done..].
  specialize (Hug xs x scan eq_refl Hx eq_refl).
  unfold resumeExecution. unfold mbind at 1, M_bind at 1. rewrite (pendingApproval_ungated _ _ _ Hug).
  destruct (inheritedTools _ >? 0); [intros Hrun; left; eapply Hstop; [apply still_refl| |exact Hrun]; done|].
  unfold mbind at 1, M_bind at 1, withFlag at 1.
  destruct (checkHarness c har [x] _) as [w1 [d|e]] eqn:Hc; apply checkHarness_still in Hc;
    [|intros Hrun; left; eapply Hstop; [exact Hc| |exact Hrun]; done].
  unfold mbind at 1, M_bind at 1, withFlag at 1.
  assert (Hrest : forall id, runResume c har (newResumeSink scan x d)
    (recoveryStart (rec_Event <$> r0 :: J) x id) w1 = (w', r) -> exists xs' scan x d id w0, let events := rec_Event <$> r0 :: J in
    (Ok xs : res _) = Ok xs' /\ pendingResumeExecution events xs' = Ok (Some x) /\ untouched w w0 /\
    ungatedRecord scan x /\ runResume c har (newResumeSink scan x d) (recoveryStart events x id) w0 = (w', r)).
  { intros id Hrun. exists xs, scan, x, d, id, w1. split; [done|]. split; [done|]. split; [by eapply untouched_same|done]. }
  destruct (x_legacyEnd x >? 0).
  - destruct ((r0 :: J) !! Z.to_nat (x_start x)) as [r1|]; [|intros Hrun; left; eapply Hstop; [exact Hc| |exact Hrun]; done].
    unfold lift. destruct (legacyExecutionID c r1) as [id|e]; [|intros Hrun; left; eapply Hstop; [exact Hc| |exact Hrun]; done].
    intros Hrun. right. by eapply Hrest.
  - unfold mret, M_ret. intros Hrun. right. by eapply Hrest.
Qed.

(** At any instant of the run, and at its end. *)
Lemma recovery_serves_first stream p (w : World S) s : Forall (fun e => isGatedCall e = false) stream -> res_stream s = stream ->
  forall n wn sn rn, runProg (H := resumeEventSink c har) (firstCalls n p) (w, s) = ((wn, sn), rn) ->
  res_stream sn = stream /\ ((res_i sn < length stream)%nat -> still w wn).
Proof.
  intros Hu Hs n wn sn rn Hrun. destruct (first_run c har stream Hu (firstCalls n p) w s wn sn (Ok rn)) as (? & _ & ? & _); [done|done|by rewrite Hrun|done].
Qed.

(** What was done by a recovery that went from [w] to [w']: nothing; or a run of the harness during which, at
    every instant at which a recorded effect is unserved, nothing was asked of model or tool (not even in vain),
    committed, or told, and which fails when it ends there, leaving at most an ERROR. *)
Definition servedFirst (w w' : World S) (r : result (bool * goerr) bool) : Prop :=
  (untouched w w' /\ r <> Ok true) \/
  exists xs scan x d id w0, let events := rec_Event <$> readFrom 1 (journal (w_log w)) in
    let run := Run har (recoveryStart events x id) in let sink := newResumeSink scan x d in
    recordedExecutions events = Ok xs /\ pendingResumeExecution events xs = Ok (Some x) /\ untouched w w0 /\
    runResume c har sink (recoveryStart events x id) w0 = (w', r) /\
    (forall n wn sn rn, runProg (H := resumeEventSink c har) (firstCalls n run) (w0, sink) = ((wn, sn), rn) ->
       res_stream sn = x_stream x /\ ((res_i sn < length (x_stream x))%nat -> still w0 wn)) /\
    (forall w1 s1 err, runProg (H := resumeEventSink c har) run (w0, sink) = ((w1, s1), err) ->
       (res_i s1 < length (x_stream x))%nat -> still w0 w1 /\ onlyError w1 w' /\ exists e, r = Err (true, e)).
End recovery.

(** ** Property *)

(** C7: Recovery is at-most-once (I3) for every harness, deterministic or not: when the pending execution has
    no gated calls, at every instant of the harness's run at which one recorded effect has not been served,
    [Resume] has asked nothing of model or tool (not even in vain), committed nothing and told the observer
    nothing; and a run that ends there fails, leaving at most an ERROR. What is recorded is therefore never
    performed again. *)
Theorem resume_serves_first `{Host} `{Encoding} {S : Type} `{StoreLaws S} `{!FaithfulStore S} (c : Controller) (har : Harness)
    (w w' : World S) r :
  ungatedRecovery (readFrom 1 (journal (w_log w))) -> Resume c har w = (w', r) -> servedFirst c har w w' r.
Proof.
  intros Hu [Hstop|(xs & scan & x & d & id & w0 & Hxs & Hx & Hw0 & [Hs _] & Hrun)]%Resume_runs; [by left| |done]. right.
  exists xs, scan, x, d, id, w0. split; [done|]. split; [done|]. split; [done|]. split; [done|].
  split; [intros n wn sn rn Hr; by eapply recovery_serves_first in Hr|]. intros w1 s1 err Hr Hlt.
  destruct (first_run c har (x_stream x) Hs (Run har (recoveryStart c (rec_Event <$> readFrom 1 (journal (w_log w))) x id)) w0
    (newResumeSink scan x d) w1 s1 (Ok err)) as (Hs1 & _ & Hst & _); [done|done|by rewrite Hr|].
  split; [by apply Hst|]. unfold runResume in Hrun. rewrite Hr in Hrun. eapply finishResume_early; [by rewrite Hs1|exact Hrun].
Qed.

(** A harness that diverges from the record of the echo agent's crashed turn, and its recovery. *)
Definition otherHarness : Harness := mkHarness (Describe echoHarness) (fun _ => POutput "other" PReturn).
Definition divergingRecovery : World Log * result (bool * goerr) bool :=
  Resume (H := exampleHost) (H0 := exampleEncoding) (H1 := @Log_Store exampleEncoding) echoController otherHarness (echoCrashed 3).

Lemma resume_serves_first_witness :
  (exists e, snd divergingRecovery = Err (true, e)) /\ w_asked (fst divergingRecovery) = [] /\
  ungatedRecovery (readFrom 1 (journal (w_log (echoCrashed 3)))) /\
  servedFirst (H := exampleHost) (H1 := @Log_Store exampleEncoding) echoController otherHarness (echoCrashed 3)
    (fst divergingRecovery) (snd divergingRecovery).
Proof.
  assert (ungatedRecovery (readFrom 1 (journal (w_log (echoCrashed 3))))) as Hu.
  { intros xs x scan Hxs Hx Hs. vm_compute in Hxs. injection Hxs as <-. vm_compute in Hx. injection Hx as <-.
    vm_compute in Hs. injection Hs as <-. split; [by repeat constructor|done]. }
  split; [vm_compute; eauto|]. split; [by vm_compute|]. split; [exact Hu|].
  apply (resume_serves_first (H := exampleHost) (H0 := exampleEncoding) (H1 := @Log_Store exampleEncoding)
    (H3 := @Log_StoreLaws exampleEncoding) (FaithfulStore0 := Log_Faithful) echoController otherHarness (echoCrashed 3)
    (fst divergingRecovery) (snd divergingRecovery) Hu).
  unfold divergingRecovery. apply surjective_pairing.
Defined.
