(* ===== verification/Parking.v ===== *)
(** * Parking: an open approval intent is the last word (controller/approval_effects.go)

    Whatever a harness does, a live run that commits a gated call commits nothing after it but its
    approval request, and [Exec] adds neither ERROR nor END. *)
From S2P Require Import Prelude GoErrors Api Canon EventLog Executions Approvals Harness Sinks Controller Agents LiveSpec Simulation ReplaySafety Turns.

(** An event that opens no approval. *)
Definition ordinary (e : Event) : Prop := isGatedCall e = false /\ Kind e <> EventApprovalRequest.

(** A gated call, possibly with its request, of execution [id]. *)
Inductive parked_tail (id : string) : list Event -> Prop :=
  | parked_call e call : ExecutionID e = id -> isToolCall call e -> isGatedCall e = true -> parked_tail id [e]
  | parked_request e q call : ExecutionID e = id -> isToolCall call e -> isGatedCall e = true ->
      ExecutionID q = id -> Kind q = EventApprovalRequest ->
      ev_Approval q = Some (mkApprovalRequest (tc_ID call) EmptyString) -> parked_tail id [e; q].

(** A sink that refuses every further effect. *)
Definition sealed (ls : liveSink) : Prop := is_Some (stop (ls_guard ls)).

Section parking.
Context `{Host} {S : Type} `{StoreLaws S} `{!FaithfulStore S}.
Variables (c : Controller) (har : Harness) (id : string).

(** [m], from an open sink, either leaves it open and commits ordinary events, or seals it, fails,
    and leaves an approval intent. *)
Definition parking {A} (m : M (LiveState (S := S)) goerr A) : Prop :=
  forall w ls w' ls' r, plain id ls -> m (w, ls) = ((w', ls'), r) ->
    exists evs, appended (w_log w) (w_log w') evs /\
      ((plain id ls' /\ Forall ordinary evs) \/
       (sealed ls' /\ is_ok r = false /\ parked_tail id evs)).

Lemma effect_ordinary e : effect_of id e -> ordinary e.
Proof.
  intros (_ & _ & Hg & _). unfold ordinary, gatedEvidence, isGatedCall in *. split; [by destruct (Kind e)|].
  intros Hk. by rewrite Hk in Hg.
Qed.

Lemma parking_spec {A} (m : M LiveState goerr A) Q : live_spec id m Q -> parking m.
Proof.
  intros Hm w ls w' ls' r Hp Hrun. destruct (Hm _ _ _ _ _ Hp Hrun) as (Hp' & evs & Ha & He & _).
  exists evs. split; [done|]. left. split; [done|]. eapply Forall_impl; [apply effect_ordinary|exact He].
Qed.

(** A step that commits nothing, and what follows it. *)
Definition silent {A} (m : M (LiveState (S := S)) goerr A) : Prop :=
  forall w ls w' ls' r, plain id ls -> m (w, ls) = ((w', ls'), r) -> plain id ls' /\ journal (w_log w') = journal (w_log w).

Lemma parking_after {A B} (m : M LiveState goerr A) (f : A -> M LiveState goerr B) :
  silent m -> (forall a, parking (f a)) -> parking (m ≫= f).
Proof.
  intros Hm Hf w ls w' ls' r Hp Hrun. unfold mbind, M_bind in Hrun.
  destruct (m (w, ls)) as [[w1 ls1] r1] eqn:E. destruct (Hm _ _ _ _ _ Hp E) as [Hp1 Hj1].
  destruct r1 as [a|e].
  - destruct (Hf a _ _ _ _ _ Hp1 Hrun) as (evs & (rs & Hr & Hev & Hc) & Hor). exists evs. split; [|done].
    exists rs. by rewrite Hr, <- Hj1.
  - injection Hrun as <- <- <-. exists []. split; [by apply appended_same|]. by left.
Qed.

Lemma silent_get {A} (f : liveSink -> A) : silent (getSink f).
Proof. by intros w ls w' ls' r Hp [= <- <- <-]. Qed.

Lemma silent_throw {A} e : silent (throw e : M LiveState goerr A).
Proof. by intros w ls w' ls' r Hp [= <- <- <-]. Qed.

Lemma silent_ret {A} (a : A) : silent (mret a).
Proof. by intros w ls w' ls' r Hp [= <- <- <-]. Qed.

Lemma silent_bind {A B} (m : M LiveState goerr A) (f : A -> M LiveState goerr B) :
  silent m -> (forall a, silent (f a)) -> silent (m ≫= f).
Proof.
  intros Hm Hf w ls w' ls' r Hp Hrun. unfold mbind, M_bind in Hrun.
  destruct (m (w, ls)) as [[w1 ls1] r1] eqn:E. destruct (Hm _ _ _ _ _ Hp E) as [Hp1 Hj1].
  destruct r1 as [a|e]; [|by injection Hrun as <- <- <-].
  destruct (Hf a _ _ _ _ _ Hp1 Hrun) as [? Hj]. split; [done|congruence].
Qed.

Lemma silent_approvalDescriptor : silent (approvalDescriptor har).
Proof.
  unfold approvalDescriptor. apply silent_bind; [apply silent_get|]. intros cached.
  apply silent_bind; [|intros d; destruct (bool_decide _); [apply silent_ret|apply silent_throw]].
  destruct cached as [d|]; [apply silent_ret|]. apply silent_bind.
  - intros w ls w' ls' r Hp. unfold onWorld, describeHarness, tick, mbind, M_bind. cbn [fst snd].
    destruct (Describe har (w_tick w)); by intros [= <- <- <-].
  - intros d. apply silent_bind; [|intros; apply silent_ret].
    by intros w ls w' ls' r Hp [= <- <- <-].
Qed.

Lemma parking_throw {A} e : parking (throw e : M LiveState goerr A).
Proof. apply (parking_spec _ (fun _ _ => True)), spec_throw. Qed.

(** The gated call itself. *)
Lemma parking_parkTool tc : tc_Mediation tc = MediationRequiresApproval -> parking (parkTool c har tc).
Proof.
  intros Hm. unfold parkTool. apply parking_after; [apply silent_approvalDescriptor|]. intros _.
  case_bool_decide; [apply parking_throw|]. apply parking_after; [apply silent_get|]. intros legacy.
  destruct (_ || _); [apply parking_throw|]. case_bool_decide; [apply parking_throw|].
  apply parking_after; [apply silent_get|]. intros calls. destruct (negb _); [apply parking_throw|].
  intros w ls w' ls' r Hp Hrun. unfold mbind at 1, M_bind at 1 in Hrun.
  destruct (live_append c (evToolCall tc) (w, ls)) as [[w1 ls1] r1] eqn:E1.
  assert (Hkeep : ls1 = ls).
  { destruct Hp as (Hid & Hleg & _). unfold live_append, getSink, onWorld in E1. unM. rewrite Hleg, Hid in E1. simpl in E1.
    destruct (appendSeq c id (evToolCall tc) w). by injection E1 as <- <- <-. }
  subst ls1. apply live_append_plain with (id := id) in E1; [|done].
  destruct r1 as [rec|e].
  2: { injection Hrun as <- <- <-. exists []. split; [done|]. by left. }
  set (e1 := persisted (setExecutionID id (evToolCall tc))) in *.
  assert (He1 : ExecutionID e1 = id /\ isToolCall tc e1 /\ isGatedCall e1 = true).
  { destruct (persisted_faithful (setExecutionID id (evToolCall tc))) as [F1 F2 _ _ F5 _ _ _ _ _ _].
    split; [done|]. split; [done|]. unfold isGatedCall, e1. rewrite F2, F5. by apply bool_decide_eq_true. }
  unfold mbind at 1, M_bind at 1, modSink at 1, modify at 1 in Hrun. cbn [fst snd] in Hrun.
  unfold mbind at 1, M_bind at 1, try at 1 in Hrun.
  set (ls1 := setCall (tc_ID tc) true ls) in *.
  assert (Hgen : forall w ls w' ls' r1, ls_executionID ls = id -> legacyRecovery ls = false ->
    live_append c (evApprovalRequest (mkApprovalRequest (tc_ID tc) EmptyString)) (w, ls) = ((w', ls'), r1) ->
    ls' = ls /\ match r1 with
      | Ok _ => appended (w_log w) (w_log w') [persisted (setExecutionID id (evApprovalRequest (mkApprovalRequest (tc_ID tc) EmptyString)))]
      | Err _ => appended (w_log w) (w_log w') []
      end).
  { intros w0 ls0 w2 ls2 r2 Hid Hleg Hr. unfold live_append, getSink, onWorld in Hr. unM. rewrite Hleg, Hid in Hr. simpl in Hr.
    destruct (appendSeq c id _ w0) as [w3 r3] eqn:E. apply appendSeq_run in E. injection Hr as <- <- <-.
    split; [done|]. destruct r3; [by destruct E|by apply appended_same]. }
  destruct (live_append c (evApprovalRequest (mkApprovalRequest (tc_ID tc) EmptyString)) (w1, ls1)) as [[w2 ls2] r2] eqn:E2.
  apply Hgen in E2 as [-> E2]; [|apply Hp|apply Hp].
  unfold mbind at 1, M_bind at 1, getSink at 1, gets at 1 in Hrun. cbn [snd] in Hrun.
  destruct r2 as [req|e]; unfold stopWith, modSink, modify, mbind, M_bind, throw in Hrun; cbn [fst snd] in Hrun;
    injection Hrun as <- <- <-.
  - eexists. split; [exact (appended_trans _ _ _ _ _ E1 E2)|]. right. split; [by eexists|]. split; [done|].
    destruct He1 as (Hi & Hc & Hg). simpl. eapply parked_request; try done;
      faith (setExecutionID id (evApprovalRequest (mkApprovalRequest (tc_ID tc) EmptyString))); done.
  - exists [e1]. split; [exact (appended_trans _ _ _ _ _ E1 E2)|]. right. split; [by eexists|]. split; [done|].
    destruct He1 as (Hi & Hc & Hg). by eapply parked_call.
Qed.

Lemma parking_toolCall tc : parking (live_toolCall c har tc).
Proof.
  destruct (decide (tc_Mediation tc = MediationRequiresApproval)) as [Hm|Hm].
  - unfold live_toolCall. rewrite bool_decide_eq_true_2 by done. by apply parking_parkTool.
  - by eapply parking_spec, spec_live_toolCall.
Qed.

Lemma parking_guard {A} (op : M LiveState goerr A) : parking op -> parking (liveGuard op).
Proof.
  intros Hop. unfold liveGuard. apply parking_after; [apply silent_get|]. intros g.
  apply parking_after; [destruct (guardErr g); [apply silent_throw|apply silent_ret]|]. intros _.
  apply parking_after; [|intros _; exact Hop].
  intros w ls w' ls' r Hp. unfold onWorld, ctxCheck, tick, mbind, M_bind. cbn [fst snd].
  destruct (ctxErr (w_tick w)); by intros [= <- <- <-].
Qed.

(** A sealed sink does nothing more. *)
Lemma sealed_guard {A} (op : M LiveState goerr A) (w : World S) ls : sealed ls ->
  exists e, liveGuard op (w, ls) = ((w, ls), Err e).
Proof.
  intros [e He]. exists e. unfold liveGuard, getSink, gets, mbind, M_bind, check. cbn [snd]. unfold guardErr. by rewrite He.
Qed.

Lemma sealed_run p : forall (w : World S) ls w' ls' r, sealed ls ->
  runLiveProg c har p (w, ls) = ((w', ls'), r) -> w' = w /\ ls' = ls.
Proof.
  induction p as [e|req k IH|d k IH|tc k IH|tr k IH|u k IH]; intros w ls w' ls' r Hs Hrun;
    [by injection Hrun as <- <- <-|..]; unfold runLiveProg in *; simpl in Hrun;
    match type of Hrun with context [liveGuard ?op (w, ls)] => destruct (sealed_guard op w ls Hs) as [e He] end;
    rewrite He in Hrun; by apply IH in Hrun.
Qed.

(** The events of a run: ordinary ones, then, if the sink was sealed, an approval intent. *)
Definition run_parks (ls' : liveSink) (evs : list Event) : Prop :=
  (plain id ls' /\ Forall ordinary evs) \/
  (sealed ls' /\ exists pre tl, evs = pre ++ tl /\ Forall ordinary pre /\ parked_tail id tl).

Lemma run_parking p : forall (w : World S) ls w' ls' r, plain id ls ->
  runLiveProg c har p (w, ls) = ((w', ls'), r) -> exists evs, appended (w_log w) (w_log w') evs /\ run_parks ls' evs.
Proof.
  assert (Hgen : forall A (op : M LiveState goerr A) (k : res A -> Prog), parking op ->
    (forall r w ls w' ls' r', plain id ls -> runLiveProg c har (k r) (w, ls) = ((w', ls'), r') ->
       exists evs, appended (w_log w) (w_log w') evs /\ run_parks ls' evs) ->
    forall (w : World S) ls w' ls' r, plain id ls ->
    (let '(st1, r1) := liveGuard op (w, ls) in runLiveProg c har (k r1) st1) = ((w', ls'), r) ->
    exists evs, appended (w_log w) (w_log w') evs /\ run_parks ls' evs).
  { intros A op k Hop IH w ls w' ls' r Hp Hrun. destruct (liveGuard op (w, ls)) as [[w1 ls1] r1] eqn:E.
    destruct (parking_guard op Hop _ _ _ _ _ Hp E) as (e1 & Ha1 & [[Hp1 He1]|(Hs1 & _ & Ht1)]).
    - destruct (IH r1 _ _ _ _ _ Hp1 Hrun) as (e2 & Ha2 & [[Hp2 He2]|(Hs2 & pre & tl & -> & Hpre & Ht)]);
        (eexists; split; [exact (appended_trans _ _ _ _ _ Ha1 Ha2)|]).
      + left. split; [done|]. by apply Forall_app.
      + right. split; [done|]. exists (e1 ++ pre), tl. rewrite app_assoc. split; [done|]. split; [by apply Forall_app|done].
    - apply sealed_run in Hrun as [-> ->]; [|done]. exists e1. split; [done|]. right. split; [done|].
      exists [], e1. by split. }
  induction p as [e|req k IH|d k IH|tc k IH|tr k IH|u k IH]; intros w ls w' ls' r Hp Hrun.
  - injection Hrun as <- <- <-. exists []. split; [apply appended_refl|]. by left.
  - eapply (Hgen _ (live_model c req) k); eauto. eapply parking_spec, spec_live_model.
  - eapply (Hgen _ (live_output c d) (fun r => k (err_of r))); eauto. eapply parking_spec, spec_live_output.
  - eapply (Hgen _ (live_toolCall c har tc) k); eauto. apply parking_toolCall.
  - eapply (Hgen _ (live_report c tr) (fun r => k (err_of r))); eauto. eapply parking_spec, spec_live_report.
  - eapply (Hgen _ (live_usage c u) (fun r => k (err_of r))); eauto. eapply parking_spec, spec_live_usage.
Qed.
End parking.

Section exec.
Context `{Host} {S : Type} `{StoreLaws S} `{!FaithfulStore S}.
Variables (c : Controller) (har : Harness).

(** What a stretch of [Exec] committed. *)
Definition parks {A} (id : string) (w w' : World S) (r : res A) : Prop := exists pre tl,
  appended (w_log w) (w_log w') (pre ++ tl) /\ Forall ordinary pre /\
  (tl = [] \/ (parked_tail id tl /\ is_ok r = false)).

Lemma parks_ordinary {A} id (w w' : World S) (r : res A) evs :
  appended (w_log w) (w_log w') evs -> Forall ordinary evs -> parks id w w' r.
Proof. intros Ha Ho. exists evs, []. rewrite app_nil_r. auto. Qed.

Lemma parks_same {A} id (w w' : World S) (r : res A) : w_log w' = w_log w -> parks id w w' r.
Proof. intros Hw. eapply (parks_ordinary _ _ _ _ []); [by apply appended_same; rewrite Hw|done]. Qed.

Lemma parks_after {A} id (w w1 w' : World S) (r : res A) evs :
  appended (w_log w) (w_log w1) evs -> Forall ordinary evs -> parks id w1 w' r -> parks id w w' r.
Proof.
  intros Ha Ho (pre & tl & Ha2 & Hpre & Ht). exists (evs ++ pre), tl. rewrite <- app_assoc.
  split; [by eapply appended_trans|]. split; [by apply Forall_app|done].
Qed.

Lemma inputs_ordinary id ms ins : Forall2 (isInputOf id) ms ins -> Forall ordinary ins.
Proof.
  induction 1 as [|m e ms ins (_ & Hk & _) _ IH]; [done|]. constructor; [|done]. unfold ordinary, isGatedCall. by rewrite Hk.
Qed.

(** The harness's part and the terminal record. *)
Lemma parks_harness id desc start (w w' : World S) r :
  (let! x := runLive c har id desc start in finishExec c id (fst x) (snd x)) w = (w', r) -> parks id w w' r.
Proof.
  unfold runLive, mbind, M_bind.
  destruct (runProg (H := liveEventSink c har) (Run har start) (w, newLiveSink id false (Some desc))) as [[w1 sink] runErr] eqn:E.
  cbn [fst snd]. intros Hrun.
  destruct (run_parking c har id (Run har start) w (newLiveSink id false (Some desc)) w1 sink runErr) as (evs & Ha & Hor).
  { split; [done|]. split; [done|]. split; [done|]. intros k. simpl. by rewrite lookup_empty. }
  { exact E. }
  destruct Hor as [((_ & _ & Hg & _) & Ho)|([e He] & pre & tl & -> & Hpre & Ht)].
  - rewrite Hg in Hrun. simpl in Hrun.
    destruct (finishExec_run c id runErr w1 w' r Hrun) as [Ha2|(e & Ha2 & _ & Hk)].
    + eapply parks_after; [exact Ha|done|]. by eapply parks_ordinary; [exact Ha2|].
    + eapply parks_after; [exact Ha|done|]. eapply parks_ordinary; [exact Ha2|]. constructor; [|done].
      unfold ordinary, isGatedCall. rewrite Hk. by destruct runErr.
  - simpl in Hrun. rewrite He in Hrun. injection Hrun as <- <-. exists pre, tl. split; [done|]. split; [done|]. by right.
Qed.

Lemma Exec_parks inputs exp (w w' : World S) r : Exec c har inputs exp w = (w', r) -> parks (newIDText (w_tick w)) w w' r.
Proof.
  unfold Exec, newID, tick. unfold mbind, M_bind, mret, M_ret, lift, throw, onLog at 1 2.
  cbn [w_log w_tick]. intros Hrun.
  assert (Hstop : forall l t n m o a (r0 : res unit), journal l = journal (w_log w) ->
    (mkWorld l t n m o a, r0) = (w', r) -> parks (newIDText (w_tick w)) w w' r).
  { intros l t n m o a r0 Hj [= <- <-]. eapply (parks_ordinary _ _ _ _ []); [by apply appended_same|done]. }
  destruct (st_CheckWritable (w_log w)) as [l1 [[]|e]] eqn:Hw; apply writable_law in Hw as [Hj1 _]; [|by eapply Hstop; [|exact Hrun]].
  cbn [w_log] in Hrun. destruct (st_Read 1 l1) as [l2 [prior|e]] eqn:Hr; apply read_law in Hr as (Hj2 & _ & _);
    [|by eapply Hstop; [|exact Hrun]; congruence].
  assert (Hj : journal l2 = journal (w_log w)) by congruence.
  destruct (scanApprovalRecords prior 0) as [scan|e]; [|by eapply Hstop; [|exact Hrun]].
  destruct (blockedByApproval scan); [by eapply Hstop; [|exact Hrun]|].
  destruct (legacyPrefix _) as [n|e]; [|by eapply Hstop; [|exact Hrun]].
  unfold describeHarness at 1, tick, mbind, M_bind in Hrun. cbn [w_log w_tick] in Hrun.
  destruct (Describe har (Datatypes.S (w_tick w))) as [desc|e] eqn:Hd; [|by eapply Hstop; [|exact Hrun]].
  unfold mret at 1, M_ret at 1 in Hrun. cbn [w_log w_tick liveModelCalls liveToolCalls w_updates] in Hrun.
  match type of Hrun with context [onLog ?m ?w1] => destruct (onLog m w1) as [w2 [rec|e]] eqn:Ha end;
    apply raw_append_run in Ha; cbn [w_log] in Ha.
  2: { injection Hrun as <- <-. eapply (parks_ordinary _ _ _ _ []); [apply appended_same; congruence|done]. }
  destruct (observe c rec w2) as [w3 x] eqn:Ho. apply observe_same in Ho as [Hw3 ->].
  assert (Ha' : appended (w_log w) (w_log w3) [persisted (startMarker c (newIDText (w_tick w)) desc inputs)]).
  { rewrite Hw3. destruct Ha as (rs & Hrs & ?). exists rs. by rewrite <- Hj. }
  eapply parks_after; [exact Ha'| |].
  { constructor; [|done]. destruct (startMarker_shape c (newIDText (w_tick w)) desc inputs) as (_ & Hk & _).
    unfold ordinary, isGatedCall. by rewrite Hk. }
  destruct (appendInputs c (newIDText (w_tick w)) (Seq rec) inputs w3) as [w4 r4] eqn:Ei.
  destruct (appendInputs_run _ _ _ _ _ _ _ Ei) as (ms & ins & _ & Hins & Ha4 & _).
  eapply parks_after; [exact Ha4|by eapply inputs_ordinary|].
  destruct r4 as [u|e]; [|injection Hrun as <- <-; by apply parks_same].
  eapply parks_harness. unfold mbind, M_bind. exact Hrun.
Qed.
End exec.

(** ** Property *)

(** C8: An open approval intent is the last word of a turn. Whatever the harness does, and whether or not
    it reports the park, what [Exec] commits is a run of events that open no approval, and then
    possibly a gated call, alone or with its request, of this very invocation. After a gated call
    [Exec] returns an error, and commits no further effect, no ERROR and no END. *)
Theorem Exec_parks_last `{Host} {S : Type} `{StoreLaws S} `{!FaithfulStore S} (c : Controller)
    (har : Harness) inputs exp (w w' : World S) r :
  Exec c har inputs exp w = (w', r) -> exists pre tl,
    appended (w_log w) (w_log w') (pre ++ tl) /\ Forall ordinary pre /\
    (tl = [] \/ (parked_tail (newIDText (w_tick w)) tl /\ is_ok r = false)).
Proof. apply Exec_parks. Qed.

(** *** Witness *)

(** A harness that ignores the park and goes on. *)
Definition gatedCall : ToolCall := mkToolCall "call" "deploy" None MediationRequiresApproval "key".
Definition stubbornHarness : Harness :=
  mkHarness (fun _ => Ok echoDescriptor) (fun _ => PToolCall gatedCall (fun _ => POutput "done" PReturn)).
Definition parkedExec : World Log * res unit :=
  Exec (H := exampleHost) (H1 := @Log_Store exampleEncoding)
    echoController stubbornHarness [TextMessage "user" "go"] 0 freshWorld.

Lemma Exec_parks_last_witness :
  map (fun r => Kind (rec_Event r)) (records (w_log (fst parkedExec))) =
    [EventExecutionStart; EventInput; EventToolCall; EventApprovalRequest] /\
  exists pre tl, appended (w_log freshWorld) (w_log (fst parkedExec)) (pre ++ tl) /\ Forall ordinary pre /\
    (tl = [] \/ (parked_tail (newIDText (H := exampleHost) (w_tick freshWorld)) tl /\ is_ok (snd parkedExec) = false)).
Proof.
  split; [vm_compute; reflexivity|].
  apply (Exec_parks_last (H := exampleHost) (H0 := @Log_Store exampleEncoding)
    (H2 := @Log_StoreLaws exampleEncoding) echoController stubbornHarness [TextMessage "user" "go"] 0 freshWorld
    (fst parkedExec) (snd parkedExec)).
  unfold parkedExec. apply surjective_pairing.
Defined.
