(* ===== verification/Forks.v ===== *)
(** * Forking a session (controller/controller.go, Fork)

    The child of a fork repeats its parent's chain hash by hash up to the fork point, then carries
    the fork marker. The second part is a completed turn that [Replay] rejects. *)
From S2P Require Import Prelude GoErrors Api Canon EventLog Executions Approvals Harness Sinks Controller Agents.

(** A record as copied under another fence. *)
Definition refence (f : Z) (r : Record_) : Record_ := mkRecord (Seq r) (PrevHash r) (Hash r) f (rec_Event r).

(** The records up to the fork point. *)
Definition upTo (atSeq : Z) (rs : list Record_) : list Record_ := take (Z.to_nat atSeq) rs.

Section fork.
Context `{Encoding}.

Lemma headOf_refence f rs : headOf (refence f <$> rs) = headOf rs.
Proof. unfold headOf. rewrite fmap_last. by destruct (list.last rs). Qed.

Lemma lastHash_refence f rs : lastHash (refence f <$> rs) = lastHash rs.
Proof. unfold lastHash. rewrite fmap_last. by destruct (list.last rs). Qed.

Lemma lastHash_endHash rs : lastHash rs = endHash EmptyString rs.
Proof. done. Qed.

Lemma contiguous_refence f n rs : contiguous n (refence f <$> rs) <-> contiguous n rs.
Proof. revert n. induction rs as [|r rs IH]; intros n; [done|]. simpl. by rewrite IH. Qed.

Lemma verifyFrom_refence f p rs : verifyFrom p (refence f <$> rs) = verifyFrom p rs.
Proof.
  revert p. induction rs as [|r rs IH]; intros p; [done|]. simpl. destruct (negb _); [done|].
  destruct (HashRecord _ _ _); [|done]. destruct (negb _); [done|]. apply IH.
Qed.

(** Copying a verified chain onto its own prefix reproduces every hash. *)
Lemma forkCopy_run atSeq f rs : forall done, contiguous 0 (done ++ rs) -> verifyFrom EmptyString (done ++ rs) = None ->
  forkCopy atSeq f (headOf done) rs (mkLog (refence f <$> done) f) =
  (mkLog (refence f <$> (done ++ take (Z.to_nat atSeq - length done) rs)) f,
   Ok (headOf (done ++ take (Z.to_nat atSeq - length done) rs))).
Proof.
  induction rs as [|r rs IH]; intros done Hc Hv; simpl forkCopy.
  { by rewrite take_nil, app_nil_r. }
  assert (Hs : Seq r = headOf done + 1 /\ contiguous 0 done).
  { apply contiguous_app in Hc as [Hc [-> _]]. split; [by rewrite (contiguous_head done Hc)|done]. }
  destruct Hs as [Hs Hcd]. pose proof (contiguous_head done Hcd) as Hh.
  destruct (Seq r >? atSeq) eqn:Hgt.
  { replace (Z.to_nat atSeq - length done)%nat with 0%nat by lia. by rewrite take_0, app_nil_r. }
  assert (Happ : Append (headOf done) f (rec_Event r) (mkLog (refence f <$> done) f) =
    (mkLog (refence f <$> (done ++ [r])) f, Ok (refence f r))).
  { apply Append_Ok. exists (Hash r). unfold Head. cbn [records log_fence]. rewrite headOf_refence, lastHash_refence.
    change (r :: rs) with ([r] ++ rs) in Hv. rewrite app_assoc in Hv. apply verifyFrom_app in Hv as [Hv _].
    apply verifyFrom_snoc in Hv as (_ & Hp & Hr). rewrite lastHash_endHash, <- Hs.
    split; [done|]. split; [lia|]. split; [done|].
    split; [unfold refence; by rewrite Hp|]. by rewrite fmap_app. }
  unfold mbind, M_bind. cbn [st_Append Log_Store]. rewrite Happ.
  replace (Seq r) with (headOf (done ++ [r])) by (by rewrite headOf_app).
  change (r :: rs) with ([r] ++ rs) in Hc, Hv. rewrite app_assoc in Hc, Hv.
  rewrite (IH (done ++ [r]) Hc Hv). rewrite length_app. simpl length.
  replace (Z.to_nat atSeq - length done)%nat with (S (Z.to_nat atSeq - (length done + 1)))%nat by lia.
  cbn [take]. by rewrite <- app_assoc.
Qed.

Lemma readFrom_all l : log_wf l -> Read l 1 = records l.
Proof. intros (Hc & _). unfold Read. by apply (contiguous_readFrom_all _ 0). Qed.
End fork.

(** ** Property *)

(** A fork shares its parent's chain. Forking a well-formed log into an empty one fails only if the
    marker cannot be encoded. Otherwise it leaves the parent alone and makes the child, under a fresh
    fence, the parent's records up to the fork point with the same sequences, links, hashes and
    events, then the LIFECYCLE_FORK marker, linked to the record at the fork point; the child verifies,
    and its sequences have no gap. *)
Theorem Fork_shares_chain `{Encoding} (p c : Log) atSeq h :
  log_wf p -> records c = [] -> 0 <= log_fence c ->
  let shared := upTo atSeq (records p) in let f := log_fence c + 1 in
  HashRecord (lastHash shared) (headOf shared + 1) (forkMarker atSeq) = Ok h ->
  exists c', Fork atSeq (p, c) = ((p, c'), Ok tt) /\ log_fence c' = f /\ log_wf c' /\
    records c' = (refence f <$> shared) ++ [mkRecord (headOf shared + 1) (lastHash shared) h f (forkMarker atSeq)].
Proof.
  intros Hp Hc Hf shared f Hh. pose proof Hp as (Hpc & Hpv & _).
  set (m := mkRecord (headOf shared + 1) (lastHash shared) h f (forkMarker atSeq)).
  exists (mkLog ((refence f <$> shared) ++ [m]) f). split; [|split; [done|split]].
  - unfold Fork, onParent, onChild. unfold mbind, M_bind, mret, M_ret. cbn [fst snd st_CheckWritable st_Read st_NewFence Log_Store].
    rewrite readFrom_all by done. unfold NewFence. rewrite Hc.
    pose proof (forkCopy_run atSeq f (records p) [] Hpc Hpv) as Hcopy. change (headOf []) with 0 in Hcopy. simpl in Hcopy. rewrite Nat.sub_0_r in Hcopy.
    fold (upTo atSeq (records p)) in Hcopy. fold shared in Hcopy. fold f. cbn [fst snd]. rewrite Hcopy. cbn [fst snd].
    assert (Happ : Append (headOf shared) f (forkMarker atSeq) (mkLog (refence f <$> shared) f) =
      (mkLog ((refence f <$> shared) ++ [m]) f, Ok m)); [|cbn [st_Append Log_Store fst snd]; simpl in Happ |- *; by rewrite Happ].
    apply Append_Ok. exists h. unfold Head. cbn [records log_fence]. rewrite headOf_refence, lastHash_refence.
    split; [done|]. split; [lia|done].
  - assert (Hsc : contiguous 0 shared /\ verifyFrom EmptyString shared = None).
    { unfold shared, upTo. split; [|by apply verifyFrom_take].
      rewrite <- (take_drop (Z.to_nat atSeq) (records p)) in Hpc. by apply contiguous_app in Hpc as [? _]. }
    destruct Hsc as [Hsc Hsv]. split; [|split]; cbn [records log_fence Verify]; [| |lia].
    + apply contiguous_snoc; [by apply contiguous_refence|]. by rewrite headOf_refence.
    + apply verifyFrom_snoc. rewrite verifyFrom_refence. rewrite <- lastHash_endHash, lastHash_refence. done.
  - done.
Qed.

(** *** Witness *)


Definition okText (r : res string) : string := match r with Ok s => s | Err _ => EmptyString end.

Lemma Fork_shares_chain_witness :
  let shared := upTo 2 (records (w_log echoWorld)) in
  exists c', Fork (H := @Log_Store exampleEncoding) (Store0 := @Log_Store exampleEncoding) 2 (w_log echoWorld, New) = ((w_log echoWorld, c'), Ok tt) /\
    log_fence c' = 1 /\ log_wf (H := exampleEncoding) c' /\
    records c' = (refence 1 <$> shared) ++
      [mkRecord (headOf shared + 1) (lastHash shared)
        (okText (HashRecord (H := exampleEncoding) (lastHash shared) (headOf shared + 1) (forkMarker 2))) 1 (forkMarker 2)].
Proof.
  apply (Fork_shares_chain (H := exampleEncoding) (w_log echoWorld) New 2).
  - split; [|split]; [vm_compute; repeat split|vm_compute; reflexivity|vm_compute; discriminate].
  - reflexivity.
  - vm_compute. discriminate.
  - vm_compute. reflexivity.
Defined.

(** * A completed turn that Replay rejects (controller/effects.go, replaySink.Model)

    A harness may handle a provider failure and answer with an output of its own. The replay sink
    means to reproduce the failure when no completion is recorded, but takes the fallback output that
    follows the unanswered call for the completion. *)

(** Ask the model; answer "ok" when it does, "sorry" when it fails. *)
Definition fallbackHarness : Harness :=
  mkHarness (fun _ => Ok echoDescriptor) (fun _ => PModel (mkModelRequest "m" [] [] [] None)
    (fun r => POutput (match r with Ok _ => "ok" | Err _ => "sorry" end) PReturn)).

(** A controller whose provider is down. *)
Definition downController : Controller :=
  mkController (fun _ _ => Err (EText "provider down")) None false false None 0 None 1 "uid" EmptyString.

Definition fallbackExec : World Log * res unit :=
  Exec (H := exampleHost) (H1 := @Log_Store exampleEncoding) downController fallbackHarness [] 0 freshWorld.
Definition fallbackReplay : World Log * res (list string) :=
  Replay (H := exampleHost) (H0 := exampleEncoding) (H1 := @Log_Store exampleEncoding)
    downController fallbackHarness (fst fallbackExec).

(** The turn completes with the output "sorry"; replaying it with the same harness diverges. *)
Theorem handled_model_failure_not_replayed :
  snd fallbackExec = Ok tt /\
  map (fun r => Kind (rec_Event r)) (records (w_log (fst fallbackExec))) =
    [EventExecutionStart; EventModelCall; EventOutput; EventEnd] /\
  exists e, snd fallbackReplay = Err e /\ errors_Is e ErrReplayDiverged = true.
Proof.
  split; [vm_compute; reflexivity|]. split; [vm_compute; reflexivity|].
  eexists. split; vm_compute; reflexivity.
Qed.
