(* ===== verification/SessionGuard.v ===== *)
(** * The session guard (placement/session_guard.go)

    Admission of operations, routing reads and deletion per session. Every method holds the guard's
    mutex for its whole body, so it is one atomic transition. Entries are Go pointers that the release
    closures capture: the model keeps them in a heap, and that a closure still updates the entry the
    map holds is part of what is proved. The second part is the context-aware mutex. *)
From S2P Require Import Prelude GoErrors.

Inductive guardKind := guardOperation | guardRead | guardDelete.

#[export] Instance guardKind_eq : EqDecision guardKind.
Proof. solve_decision. Defined.

Record sessionGuardEntry := mkEntry { operation : bool; readers : Z; deleting : bool }.

(** [sessionGuard]: the map of pointers, and the heap they point into. *)
Record sessionGuard := mkGuardState {
  entries : gmap string nat;
  heap : gmap nat sessionGuardEntry;
  nextPtr : nat;
}.
Definition newSessionGuard : sessionGuard := mkGuardState ∅ ∅ 0.

(** What the release closure of one admission captures. *)
Record hold := mkHold { h_uid : string; h_kind : guardKind; h_ptr : nat }.

Definition setEntry (ptr : nat) (e : sessionGuardEntry) (g : sessionGuard) : sessionGuard :=
  mkGuardState (entries g) (<[ptr := e]> (heap g)) (nextPtr g).

(** The entry of a session, allocated when there is none. *)
Definition guardEntry (uid : string) (g : sessionGuard) : sessionGuard * nat :=
  match entries g !! uid with
  | Some ptr => (g, ptr)
  | None => (mkGuardState (<[uid := nextPtr g]> (entries g))
      (<[nextPtr g := mkEntry false 0 false]> (heap g)) (S (nextPtr g)), nextPtr g)
  end.

Definition entryAt (ptr : nat) (g : sessionGuard) : sessionGuardEntry :=
  default (mkEntry false 0 false) (heap g !! ptr).

(** Whether an entry refuses an admission of a kind. *)
Definition entryBusy (e : sessionGuardEntry) (kind : guardKind) : bool :=
  deleting e || (bool_decide (kind = guardOperation) && operation e)
  || (bool_decide (kind = guardDelete) && (operation e || (readers e >? 0))).

Definition entryAdmit (e : sessionGuardEntry) (kind : guardKind) : sessionGuardEntry :=
  match kind with
  | guardOperation => mkEntry true (readers e) (deleting e)
  | guardRead => mkEntry (operation e) (readers e + 1) (deleting e)
  | guardDelete => mkEntry (operation e) (readers e) true
  end.

(** [acquire(uid, kind)]. *)
Definition acquire (uid : string) (kind : guardKind) (g : sessionGuard) : sessionGuard * res hold :=
  let '(g, ptr) := guardEntry uid g in
  let entry := entryAt ptr g in
  if entryBusy entry kind then (g, Err (ESentinel ErrSessionBusy))
  else (setEntry ptr (entryAdmit entry kind) g, Ok (mkHold uid kind ptr)).

Definition tryLock (uid : string) := acquire uid guardOperation.
Definition tryReadLock (uid : string) := acquire uid guardRead.
Definition tryDeleteLock (uid : string) := acquire uid guardDelete.

Definition entryRelease (e : sessionGuardEntry) (kind : guardKind) : sessionGuardEntry :=
  match kind with
  | guardOperation => mkEntry false (readers e) (deleting e)
  | guardRead => mkEntry (operation e) (readers e - 1) (deleting e)
  | guardDelete => mkEntry (operation e) (readers e) false
  end.
Definition entryIdle (e : sessionGuardEntry) : bool :=
  negb (operation e) && (readers e =? 0) && negb (deleting e).

(** The closure [acquire] returns. *)
Definition releaseHold (h : hold) (g : sessionGuard) : sessionGuard :=
  let entry := entryRelease (entryAt (h_ptr h) g) (h_kind h) in
  let g := setEntry (h_ptr h) entry g in
  if entryIdle entry then mkGuardState (delete (h_uid h) (entries g)) (heap g) (nextPtr g) else g.

(** [busy()]. *)
Definition guardBusy (g : sessionGuard) : bool := negb (bool_decide (entries g = ∅)).

(** ** Specification

    The guard as its users see it: the admissions that are held. An operation excludes an operation
    and a deletion, a deletion excludes everything, reads exclude only a deletion. *)
Definition held (uid : string) (k : guardKind) (hs : list hold) : nat :=
  length (filter (fun h => h_uid h = uid /\ h_kind h = k) hs).

Definition admits (hs : list hold) (uid : string) (k : guardKind) : Prop :=
  held uid guardDelete hs = 0%nat /\
  match k with
  | guardOperation => held uid guardOperation hs = 0%nat
  | guardRead => True
  | guardDelete => held uid guardOperation hs = 0%nat /\ held uid guardRead hs = 0%nat
  end.

Definition exclusive (hs : list hold) : Prop := forall uid,
  (held uid guardOperation hs <= 1)%nat /\ (held uid guardDelete hs <= 1)%nat /\
  (held uid guardDelete hs = 1%nat -> held uid guardOperation hs = 0%nat /\ held uid guardRead hs = 0%nat).

(** Any interleaving of admissions and releases; a hold is released once. *)
Inductive guard_step : sessionGuard * list hold -> sessionGuard * list hold -> Prop :=
  | step_admitted uid k g hs g' h : acquire uid k g = (g', Ok h) -> guard_step (g, hs) (g', h :: hs)
  | step_refused uid k g hs g' e : acquire uid k g = (g', Err e) -> guard_step (g, hs) (g', hs)
  | step_released g hs1 h hs2 : guard_step (g, hs1 ++ h :: hs2) (releaseHold h g, hs1 ++ hs2).

Inductive guard_reachable : sessionGuard * list hold -> Prop :=
  | guard_init : guard_reachable (newSessionGuard, [])
  | guard_next s s' : guard_reachable s -> guard_step s s' -> guard_reachable s'.

(** ** Invariant *)

Definition reflects (uid : string) (hs : list hold) (e : sessionGuardEntry) : Prop :=
  operation e = (0 <? held uid guardOperation hs)%nat /\ readers e = Z.of_nat (held uid guardRead hs) /\
  deleting e = (0 <? held uid guardDelete hs)%nat.

(** The pointers and what they point to, for a list of holds. *)
Record guard_shape (g : sessionGuard) (hs : list hold) : Prop := {
  gs_entry : forall uid ptr, entries g !! uid = Some ptr -> exists e, heap g !! ptr = Some e /\ reflects uid hs e;
  gs_hold : forall h, h ∈ hs -> entries g !! h_uid h = Some (h_ptr h);
  gs_inj : forall u1 u2 ptr, entries g !! u1 = Some ptr -> entries g !! u2 = Some ptr -> u1 = u2;
  gs_fresh : forall uid ptr, entries g !! uid = Some ptr -> (ptr < nextPtr g)%nat;
}.

Definition no_idle_but (u : option string) (g : sessionGuard) : Prop := forall uid ptr e,
  u <> Some uid -> entries g !! uid = Some ptr -> heap g !! ptr = Some e -> entryIdle e = false.

Record guard_inv (s : sessionGuard * list hold) : Prop := {
  gi_shape : guard_shape s.1 s.2;
  gi_idle : no_idle_but None s.1;
  gi_excl : exclusive s.2;
}.

Lemma held_cons uid k h hs :
  held uid k (h :: hs) = ((if bool_decide (h_uid h = uid /\ h_kind h = k) then 1 else 0) + held uid k hs)%nat.
Proof. unfold held. rewrite filter_cons. case_decide; case_bool_decide; cbn; tauto || lia. Qed.

Lemma held_remove uid k hs1 h hs2 :
  held uid k (hs1 ++ h :: hs2) = ((if bool_decide (h_uid h = uid /\ h_kind h = k) then 1 else 0) + held uid k (hs1 ++ hs2))%nat.
Proof.
  unfold held. rewrite !list.filter_app, filter_cons, !length_app.
  case_decide; case_bool_decide; cbn; tauto || lia.
Qed.

Lemma held_other uid k h hs : h_uid h <> uid -> held uid k (h :: hs) = held uid k hs.
Proof. intros Hn. rewrite held_cons, bool_decide_eq_false_2 by tauto. done. Qed.

Lemma held_pos uid k hs : (0 < held uid k hs)%nat -> exists h, h ∈ hs /\ h_uid h = uid /\ h_kind h = k.
Proof.
  unfold held. destruct (filter _ hs) as [|h l] eqn:E; cbn; [lia|]. intros _.
  assert (Hin : h ∈ filter (fun h => h_uid h = uid /\ h_kind h = k) hs) by (rewrite E; left).
  apply list_elem_of_filter in Hin as [[??]?]. by exists h.
Qed.

Lemma held_in h hs : h ∈ hs -> (0 < held (h_uid h) (h_kind h) hs)%nat.
Proof.
  intros Hin. unfold held. assert (Hf : h ∈ filter (fun x => h_uid x = h_uid h /\ h_kind x = h_kind h) hs)
    by by apply list_elem_of_filter.
  destruct (filter _ hs); [by apply elem_of_nil in Hf|cbn; lia].
Qed.

Lemma no_entry_no_hold g hs uid k : guard_shape g hs -> entries g !! uid = None -> held uid k hs = 0%nat.
Proof.
  intros Hi Hn. destruct (held uid k hs) eqn:E; [done|].
  destruct (held_pos uid k hs) as (h & Hin & <- & _); [lia|]. by rewrite (gs_hold _ _ Hi h Hin) in Hn.
Qed.

Lemma entryBusy_admits uid hs e k : reflects uid hs e -> entryBusy e k = false <-> admits hs uid k.
Proof.
  intros (Ho & Hr & Hd). unfold entryBusy, admits. rewrite Ho, Hr, Hd.
  destruct (held uid guardDelete hs), (held uid guardOperation hs), (held uid guardRead hs), k; cbn; naive_solver lia.
Qed.

Lemma entryIdle_reflects uid hs e : reflects uid hs e -> entryIdle e = true <-> forall k, held uid k hs = 0%nat.
Proof.
  intros (Ho & Hr & Hd). unfold entryIdle. rewrite Ho, Hr, Hd. split.
  - intros Hi [| |]; destruct (held uid guardDelete hs), (held uid guardOperation hs), (held uid guardRead hs); cbn in *; done || lia.
  - intros Hk. by rewrite !Hk.
Qed.

(** Writing through the pointer of one session leaves the entries of the others as they were. *)
Lemma shape_set g hs hs' uid ptr e' : guard_shape g hs -> entries g !! uid = Some ptr ->
  (forall u k, u <> uid -> held u k hs' = held u k hs) -> reflects uid hs' e' ->
  (forall h, h ∈ hs' -> entries g !! h_uid h = Some (h_ptr h)) -> guard_shape (setEntry ptr e' g) hs'.
Proof.
  intros [He Hh Hinj Hf] Hp Hsame Href Hholds. split; cbn; [|done..].
  intros u p Hu. destruct (decide (u = uid)) as [->|Hne].
  - assert (p = ptr) as -> by congruence. exists e'. by rewrite lookup_insert_eq.
  - assert (ptr <> p) by (intros ->; apply Hne; by eapply Hinj).
    rewrite lookup_insert_ne by done. destruct (He u p Hu) as (e & Hle & Ho & Hr & Hd).
    exists e. split; [done|]. unfold reflects. by rewrite !Hsame.
Qed.

Lemma idle_set g uid ptr e' : entries g !! uid = Some ptr -> no_idle_but (Some uid) g -> entryIdle e' = false ->
  no_idle_but None (setEntry ptr e' g).
Proof.
  intros Hp Hi He u p e _ Hu Hle. cbn in *. destruct (decide (p = ptr)) as [->|Hne].
  - rewrite lookup_insert_eq in Hle. congruence.
  - rewrite lookup_insert_ne in Hle by done. eapply (Hi u p e); [|done..]. congruence.
Qed.

Lemma guardEntry_shape uid g hs g' ptr : guard_shape g hs -> no_idle_but None g ->
  guardEntry uid g = (g', ptr) ->
  guard_shape g' hs /\ no_idle_but (Some uid) g' /\ entries g' !! uid = Some ptr /\
  reflects uid hs (entryAt ptr g').
Proof.
  unfold guardEntry, entryAt. intros Hs Hi. destruct (entries g !! uid) as [p|] eqn:E; intros [= <- <-].
  - destruct (gs_entry _ _ Hs uid p E) as (e & Hle & Href). rewrite Hle.
    split; [done|]. split; [|done]. intros u p' e' _. by apply Hi.
  - assert (Hno : forall k, held uid k hs = 0%nat) by (intros; by eapply no_entry_no_hold).
    assert (Hfresh : forall u p, u <> uid -> entries g !! u = Some p -> nextPtr g <> p)
      by (intros u p _ Hu <-; apply (gs_fresh _ _ Hs) in Hu; lia).
    assert (Hz : reflects uid hs (mkEntry false 0 false)) by (unfold reflects; by rewrite !Hno).
    repeat split; cbn; rewrite ?lookup_insert_eq; cbn; try done; try apply Hz.
    + intros u p Hu. destruct (decide (u = uid)) as [->|Hne].
      { rewrite lookup_insert_eq in Hu. injection Hu as <-. exists (mkEntry false 0 false). by rewrite lookup_insert_eq. }
      rewrite lookup_insert_ne in Hu by done. rewrite lookup_insert_ne by (by eapply Hfresh). by apply (gs_entry _ _ Hs).
    + intros h Hin. destruct (decide (h_uid h = uid)) as [Hu|Hne].
      { apply held_in in Hin. rewrite Hu, Hno in Hin. lia. }
      rewrite lookup_insert_ne by done. by apply (gs_hold _ _ Hs).
    + intros u1 u2 p H1 H2. apply lookup_insert_Some in H1 as [[<- <-]|[Hn1 H1]], H2 as [[<- H2]|[Hn2 H2]]; try done.
      * by apply (gs_fresh _ _ Hs) in H2; lia.
      * subst. by apply (gs_fresh _ _ Hs) in H1; lia.
      * by eapply (gs_inj _ _ Hs).
    + intros u p Hu. apply lookup_insert_Some in Hu as [[<- <-]|[_ Hu]]; [lia|]. apply (gs_fresh _ _ Hs) in Hu. lia.
    + intros u p e Hu Hp Hle. cbn in *. rewrite lookup_insert_ne in Hp by congruence.
      rewrite lookup_insert_ne in Hle by (eapply Hfresh; [|done]; congruence). by eapply Hi.
Qed.

Lemma reflects_admit uid k hs e ptr : reflects uid hs e -> admits hs uid k ->
  reflects uid (mkHold uid k ptr :: hs) (entryAdmit e k) /\ entryIdle (entryAdmit e k) = false.
Proof.
  intros (Ho & Hr & Hd) _. unfold reflects, entryIdle. rewrite !held_cons. cbn.
  destruct k; repeat case_bool_decide; try (exfalso; naive_solver); cbn; rewrite ?Ho, ?Hr, ?Hd;
    (split; [split; [|split]; done || lia|]).
  - done.
  - rewrite andb_false_iff, andb_false_iff, Z.eqb_neq. left. right. lia.
  - by rewrite andb_false_r.
Qed.

Lemma exclusive_admit hs uid k ptr : exclusive hs -> admits hs uid k -> exclusive (mkHold uid k ptr :: hs).
Proof.
  intros He [Hd Hk] u. specialize (He u) as (H1 & H2 & H3). rewrite !held_cons. cbn.
  destruct (decide (uid = u)) as [<-|Hne].
  - destruct k; repeat case_bool_decide; try (exfalso; naive_solver); cbn; lia.
  - rewrite !bool_decide_eq_false_2 by tauto. cbn. tauto.
Qed.

Lemma exclusive_remove hs1 h hs2 : exclusive (hs1 ++ h :: hs2) -> exclusive (hs1 ++ hs2).
Proof.
  intros He u. specialize (He u) as (H1 & H2 & H3). rewrite !held_remove in *.
  repeat case_bool_decide; cbn in *; try (destruct H as [??], H0 as [??]; congruence); lia.
Qed.

Lemma acquire_inv uid k g hs : guard_inv (g, hs) ->
  match acquire uid k g with
  | (g', Ok h) => admits hs uid k /\ guard_inv (g', h :: hs)
  | (g', Err e) => e = ESentinel ErrSessionBusy /\ ~ admits hs uid k /\ guard_inv (g', hs)
  end.
Proof.
  intros [Hs Hi He]. cbn in *. unfold acquire. destruct (guardEntry uid g) as [g' ptr] eqn:E.
  destruct (guardEntry_shape uid g hs g' ptr Hs Hi E) as (Hs' & Hi' & Hp & Href).
  destruct (entryBusy (entryAt ptr g') k) eqn:Eb.
  - assert (Hn : ~ admits hs uid k) by (rewrite <- (entryBusy_admits _ _ _ k Href); congruence).
    split; [done|]. split; [done|]. split; [done| |done]. cbn.
    intros u p e _ Hu Hle. destruct (decide (u = uid)) as [->|Hne]; [|eapply Hi'; [|done..]; congruence].
    assert (p = ptr) as -> by congruence. unfold entryAt in Eb. rewrite Hle in Eb. cbn in Eb.
    unfold entryIdle, entryBusy in *. destruct (operation e), (deleting e), k; cbn in *; try done;
      destruct (Z.eqb_spec (readers e) 0); cbn; try done; lia.
  - apply (entryBusy_admits _ _ _ k Href) in Eb. split; [done|].
    destruct (reflects_admit uid k hs _ ptr Href Eb) as [Href' Hidle].
    split; cbn; [|by eapply idle_set|by apply exclusive_admit].
    eapply shape_set; [done..|by intros; apply held_other; cbn; congruence|done|].
    intros h [->|Hin]%elem_of_cons; [done|by apply (gs_hold _ _ Hs')].
Qed.

Lemma release_inv g hs1 h hs2 : guard_inv (g, hs1 ++ h :: hs2) -> guard_inv (releaseHold h g, hs1 ++ hs2).
Proof.
  intros [Hs Hi He]. cbn in *. apply exclusive_remove in He as He'.
  assert (Hp : entries g !! h_uid h = Some (h_ptr h)) by (apply (gs_hold _ _ Hs); set_solver).
  destruct (gs_entry _ _ Hs _ _ Hp) as (e & Hle & Ho & Hr & Hd).
  assert (Href : reflects (h_uid h) (hs1 ++ hs2) (entryRelease e (h_kind h))).
  { rewrite !held_remove in *. destruct (He (h_uid h)) as (H1 & H2 & _). rewrite !held_remove in H1, H2.
    unfold reflects.
    destruct (h_kind h); repeat case_bool_decide; try (exfalso; naive_solver); cbn;
      rewrite ?Ho, ?Hr, ?Hd; (split; [|split]); try lia;
      destruct (held _ guardOperation _), (held _ guardDelete _); done || lia. }
  assert (Hs' : guard_shape (setEntry (h_ptr h) (entryRelease e (h_kind h)) g) (hs1 ++ hs2)).
  { eapply shape_set; [done..| |done|].
    - intros u k Hne. rewrite held_remove, bool_decide_eq_false_2; [done|]. intros [? _]. congruence.
    - intros h' Hin. apply (gs_hold _ _ Hs). set_solver. }
  unfold releaseHold, entryAt. rewrite Hle. cbn [default].
  destruct (entryIdle _) eqn:Eidle; split; cbn [fst snd]; try done.
  - pose proof (proj1 (entryIdle_reflects _ _ _ Href) Eidle) as Hno.
    destruct Hs' as [H1 H2 H3 H4]. split; cbn in *.
    + intros u p Hu. apply lookup_delete_Some in Hu as [_ Hu]. by apply H1.
    + intros h' Hin. assert (h_uid h <> h_uid h').
      { intros Hu. apply held_in in Hin. rewrite <- Hu, Hno in Hin. lia. }
      rewrite lookup_delete_ne by done. by apply H2.
    + intros u1 u2 p Hu1 Hu2. apply lookup_delete_Some in Hu1 as [_ ?], Hu2 as [_ ?]. by eapply H3.
    + intros u p Hu. apply lookup_delete_Some in Hu as [_ Hu]. by eapply H4.
  - intros u p e' _ Hu Hle'. cbn in *. apply lookup_delete_Some in Hu as [Hne Hu].
    assert (h_ptr h <> p) by (intros <-; apply Hne; by eapply (gs_inj _ _ Hs)).
    rewrite lookup_insert_ne in Hle' by done. by eapply Hi.
  - eapply idle_set; [done| |done]. intros u p e' _. by apply Hi.
Qed.

Lemma reachable_inv s : guard_reachable s -> guard_inv s.
Proof.
  induction 1 as [|s s' _ IH Hstep].
  - split; [split|..]; cbn; try done.
    + intros h Hin. by apply elem_of_nil in Hin.
    + intros u. cbn. lia.
  - destruct Hstep as [uid k g hs g' h Ha|uid k g hs g' e Ha|g hs1 h hs2].
    + pose proof (acquire_inv uid k g hs IH) as Hi. rewrite Ha in Hi. apply Hi.
    + pose proof (acquire_inv uid k g hs IH) as Hi. rewrite Ha in Hi. apply Hi.
    + by apply release_inv.
Qed.

Lemma guardBusy_holds g hs : guard_inv (g, hs) -> guardBusy g = true <-> hs <> [].
Proof.
  intros [Hs Hi _]. cbn in *. unfold guardBusy. rewrite negb_true_iff, bool_decide_eq_false. split.
  - intros Hne ->. apply map_choose in Hne as (uid & ptr & Hu).
    destruct (gs_entry _ _ Hs uid ptr Hu) as (e & Hle & Href).
    assert (entryIdle e = true) by (apply (entryIdle_reflects uid [] e Href); by intros).
    assert (entryIdle e = false) by (by eapply (Hi uid)). congruence.
  - intros Hne He. destruct hs as [|h hs]; [done|].
    pose proof (gs_hold _ _ Hs h ltac:(left)) as Hu. rewrite He in Hu. by rewrite lookup_empty in Hu.
Qed.

(** What the guard says of a session, the pointers left out. *)
Definition entryOf (g : sessionGuard) (uid : string) : option sessionGuardEntry :=
  match entries g !! uid with Some ptr => heap g !! ptr | None => None end.

Lemma release_admit e k : entryBusy e k = false -> entryRelease (entryAdmit e k) k = e.
Proof.
  destruct e as [o r d]. unfold entryBusy. destruct k; cbn; intros Hb.
  - destruct o, d; done.
  - f_equal. lia.
  - destruct d; done.
Qed.

Lemma refused_entryOf uid k g hs g' e : guard_inv (g, hs) -> acquire uid k g = (g', Err e) -> g' = g.
Proof.
  intros [Hs Hi _]. unfold acquire, guardEntry. destruct (entries g !! uid) as [p|] eqn:E.
  - destruct (entryBusy _ _); congruence.
  - unfold entryAt. cbn. rewrite lookup_insert_eq. by destruct k.
Qed.

(** Giving an admission back right away leaves the guard saying what it said. *)
Lemma acquire_release uid k g hs g' h : guard_inv (g, hs) -> acquire uid k g = (g', Ok h) ->
  forall u, entryOf (releaseHold h g') u = entryOf g u.
Proof.
  intros [Hs Hi _] Ha u. cbn in *. unfold acquire, guardEntry in Ha. destruct (entries g !! uid) as [p|] eqn:E.
  - destruct (gs_entry _ _ Hs uid p E) as (e & Hle & _). unfold entryAt in Ha. rewrite Hle in Ha. cbn in Ha.
    destruct (entryBusy e k) eqn:Eb; [done|]. injection Ha as <- <-.
    unfold releaseHold, entryAt. cbn [setEntry h_ptr h_kind h_uid heap entries nextPtr]. rewrite lookup_insert_eq.
    cbn [from_option id]. rewrite (release_admit e k Eb), (Hi uid p e) by done.
    unfold entryOf. cbn. destruct (entries g !! u) as [q|] eqn:Eq; [|done].
    rewrite insert_insert_eq. destruct (decide (p = q)) as [<-|]; [by rewrite lookup_insert_eq|by rewrite lookup_insert_ne].
  - unfold entryAt in Ha. cbn in Ha. rewrite lookup_insert_eq in Ha. cbn [from_option id] in Ha.
    assert (Hb : entryBusy (mkEntry false 0 false) k = false) by by destruct k.
    rewrite Hb in Ha. injection Ha as <- <-. unfold releaseHold, entryAt. cbn.
    rewrite lookup_insert_eq. cbn [from_option id]. rewrite (release_admit _ _ Hb). cbn.
    unfold entryOf. cbn. destruct (decide (u = uid)) as [->|Hne].
    + by rewrite lookup_delete_eq, E.
    + rewrite lookup_delete_ne, lookup_insert_ne by done. destruct (entries g !! u) as [q|] eqn:Eq; [|done].
      apply (gs_fresh _ _ Hs) in Eq. by rewrite !lookup_insert_ne by lia.
Qed.

(** ** Properties *)

(** C28: The guard implements its specification under every interleaving of admissions and releases: an
    admission succeeds exactly when the admissions held for the session allow it, a refusal is
    [ErrSessionBusy], the guard is idle exactly when nothing is held, and at no time do two
    operations, or a deletion and anything else, hold one session. *)
Theorem guard_refines_spec g hs uid k : guard_reachable (g, hs) ->
  ((exists h, (acquire uid k g).2 = Ok h) <-> admits hs uid k) /\
  (~ admits hs uid k -> (acquire uid k g).2 = Err (ESentinel ErrSessionBusy)) /\
  (guardBusy g = true <-> hs <> []) /\ exclusive hs.
Proof.
  intros Hr%reachable_inv. pose proof (acquire_inv uid k g hs Hr) as Ha.
  split; [|split; [|split; [by apply guardBusy_holds|apply Hr]]].
  all: destruct (acquire uid k g) as [g' [h|e]]; cbn; naive_solver.
Qed.

(** A reader, an operation and a refused deletion of one session. *)
Definition readAndRun : sessionGuard * list hold :=
  let g1 := acquire "s" guardRead newSessionGuard in
  let g2 := acquire "s" guardOperation g1.1 in
  (g2.1, [mkHold "s" guardOperation 0; mkHold "s" guardRead 0]).

Lemma guard_refines_spec_witness :
  (acquire "s" guardDelete readAndRun.1).2 = Err (ESentinel ErrSessionBusy) /\
  (acquire "s" guardRead readAndRun.1).2 = Ok (mkHold "s" guardRead 0) /\ guardBusy readAndRun.1 = true.
Proof.
  assert (Hr : guard_reachable readAndRun).
  { eapply guard_next; [eapply guard_next; [apply guard_init|]|].
    - apply (step_admitted "s" guardRead). reflexivity.
    - apply (step_admitted "s" guardOperation). reflexivity. }
  destruct (guard_refines_spec _ _ "s" guardDelete Hr) as (_ & Hd & Hb & _).
  split; [|split; [vm_compute; reflexivity|by apply Hb]].
  apply Hd. intros [_ [Ho _]]. vm_compute in Ho. discriminate.
Defined.

(** * The context-aware mutex (internal/ctxlock/mutex.go)

    A channel of capacity one: sending acquires, receiving releases. [Lock] is two selects, so between
    them other goroutines run; the steps of the relation below are the single channel operations. *)

(** [Mutex]: whether its channel holds a token. *)
Record Mutex := mkMutex { mu_held : bool }.

(** The send of a select: possible when the channel is empty. *)
Definition trySend (m : Mutex) : option Mutex := if mu_held m then None else Some (mkMutex true).
(** [Unlock()]: [None] is the panic. *)
Definition Unlock (m : Mutex) : option Mutex := if mu_held m then Some (mkMutex false) else None.

(** A goroutine between calls, at the second select of [Lock], or holding the mutex. *)
Inductive lockPhase := Outside | Contending | Holding.

#[export] Instance lockPhase_eq : EqDecision lockPhase.
Proof. solve_decision. Defined.

(** The first select of [Lock]: it never looks at the context. *)
Definition lockFirst (m : Mutex) : Mutex * lockPhase :=
  match trySend m with Some m' => (m', Holding) | None => (m, Contending) end.

(** The second select: whichever case is ready; both may be. *)
Definition lockSecond (ctx : option goerr) (m : Mutex) : list (Mutex * lockPhase * option goerr) :=
  match trySend m with Some m' => [(m', Holding, None)] | None => [] end ++
  match ctx with Some e => [(m, Outside, Some e)] | None => [] end.

(** Goroutines by number, and the mutex they share. Only a holder calls [Unlock]. *)
Record lockState := mkLockState { ls_mutex : Mutex; phases : gmap nat lockPhase }.
Definition phaseOf (t : nat) (s : lockState) : lockPhase := default Outside (phases s !! t).
Definition lockInit : lockState := mkLockState (mkMutex false) ∅.

Inductive lock_step : lockState -> lockState -> Prop :=
  | lock_first t s m p : phaseOf t s = Outside -> lockFirst (ls_mutex s) = (m, p) ->
      lock_step s (mkLockState m (<[t := p]> (phases s)))
  | lock_second t ctx s m p err : phaseOf t s = Contending -> (m, p, err) ∈ lockSecond ctx (ls_mutex s) ->
      lock_step s (mkLockState m (<[t := p]> (phases s)))
  | lock_unlock t s m : phaseOf t s = Holding -> Unlock (ls_mutex s) = Some m ->
      lock_step s (mkLockState m (<[t := Outside]> (phases s))).

Inductive lock_reachable : lockState -> Prop :=
  | lock_start : lock_reachable lockInit
  | lock_next s s' : lock_reachable s -> lock_step s s' -> lock_reachable s'.

(** ** Lemmas *)

(** The token is in the channel exactly while one goroutine holds the mutex. *)
Definition lock_inv (s : lockState) : Prop :=
  (mu_held (ls_mutex s) = true <-> exists t, phaseOf t s = Holding) /\
  (forall t u, phaseOf t s = Holding -> phaseOf u s = Holding -> t = u).

Lemma phaseOf_insert t u p m s : phaseOf u (mkLockState m (<[t := p]> (phases s))) = if decide (t = u) then p else phaseOf u s.
Proof. unfold phaseOf. cbn. case_decide; [subst; by rewrite lookup_insert_eq|by rewrite lookup_insert_ne]. Qed.

(** Taking a free mutex, giving it up, and not getting it. *)
Lemma inv_take t s : lock_inv s -> mu_held (ls_mutex s) = false ->
  lock_inv (mkLockState (mkMutex true) (<[t := Holding]> (phases s))).
Proof.
  intros [Hh _] Hf. assert (Hno : forall u, phaseOf u s <> Holding).
  { intros u Hu. assert (mu_held (ls_mutex s) = true) by (apply Hh; by exists u). congruence. }
  split; cbn.
  - split; [|done]. intros _. exists t. rewrite phaseOf_insert. by case_decide.
  - intros a b. rewrite !phaseOf_insert. repeat case_decide; subst; try done; intros; by edestruct Hno.
Qed.

Lemma inv_leave t s : lock_inv s -> phaseOf t s = Holding ->
  lock_inv (mkLockState (mkMutex false) (<[t := Outside]> (phases s))).
Proof.
  intros [_ Hu] Ht. split; cbn.
  - split; [done|]. intros [u Hp]. rewrite phaseOf_insert in Hp. case_decide; [done|]. by edestruct (Hu t u).
  - intros a b. rewrite !phaseOf_insert. repeat case_decide; try done. apply Hu.
Qed.

Lemma inv_wait t p s : lock_inv s -> phaseOf t s <> Holding -> p <> Holding ->
  lock_inv (mkLockState (ls_mutex s) (<[t := p]> (phases s))).
Proof.
  intros [Hh Hu] Ht Hp. split; cbn.
  - rewrite Hh. split; intros [u Hx]; exists u; rewrite phaseOf_insert in *; case_decide; congruence.
  - intros a b. rewrite !phaseOf_insert. repeat case_decide; try congruence. apply Hu.
Qed.

Lemma lock_reachable_inv s : lock_reachable s -> lock_inv s.
Proof.
  induction 1 as [|s s' _ IH Hstep]; [split; [split; [done|by intros []]|done]|].
  destruct Hstep as [t s m p Hp Hf|t ctx s m p err Hp Hin|t s m Hp Hu].
  - unfold lockFirst, trySend in Hf. destruct (mu_held (ls_mutex s)) eqn:E; injection Hf as <- <-.
    + apply inv_wait; congruence.
    + by apply inv_take.
  - unfold lockSecond, trySend in Hin. destruct (mu_held (ls_mutex s)) eqn:E, ctx; cbn in Hin;
      rewrite ?elem_of_cons, ?elem_of_nil in Hin; try done; destruct_or!; try done; simplify_eq;
      first [by apply inv_take | by apply inv_wait; congruence].
  - unfold Unlock in Hu. destruct (mu_held (ls_mutex s)); [|done]. injection Hu as <-. by apply inv_leave.
Qed.

(** ** Properties *)

(** Under every interleaving: at most one goroutine holds the mutex; a holder's [Unlock] never
    panics; a free mutex is acquired by the first select whatever the context; and a goroutine that
    waits can go on as soon as the mutex is free or its context ends. *)
Theorem mutex_safe s : lock_reachable s ->
  (forall t u, phaseOf t s = Holding -> phaseOf u s = Holding -> t = u) /\
  (forall t, phaseOf t s = Holding -> exists m, Unlock (ls_mutex s) = Some m) /\
  ((forall u, phaseOf u s <> Holding) -> (lockFirst (ls_mutex s)).2 = Holding) /\
  (forall ctx, lockSecond ctx (ls_mutex s) = [] <-> (exists u, phaseOf u s = Holding) /\ ctx = None).
Proof.
  intros [Hh Hu]%lock_reachable_inv. destruct s as [[h] ps]. cbn in Hh.
  unfold Unlock, lockFirst, lockSecond, trySend. cbn. split; [done|]. split; [|split].
  - intros t Ht. rewrite (proj2 Hh) by by exists t. by eexists.
  - intros Hno. destruct h; [|done]. destruct (proj1 Hh eq_refl) as [u Hp]. by destruct (Hno u).
  - intros ctx. rewrite <- Hh. destruct h, ctx; cbn; naive_solver.
Qed.

Lemma mutex_safe_witness :
  let s := mkLockState (mkMutex true) (<[2%nat := Contending]> (<[1%nat := Holding]> ∅)) in
  lockSecond None (ls_mutex s) = [] /\ exists m, Unlock (ls_mutex s) = Some m.
Proof.
  intros s. assert (Hr : lock_reachable s).
  { eapply lock_next; [eapply lock_next; [apply lock_start|]|].
    - by apply (lock_first 1).
    - by apply (lock_first 2). }
  destruct (mutex_safe s Hr) as (_ & Hun & _ & Hsec). split.
  - apply Hsec. split; [|done]. by exists 1%nat.
  - by apply (Hun 1%nat).
Defined.
