(* ===== verification/Placement.v ===== *)
(** * The placer (placement/placement.go)

    One session's compute lifecycle: the placement gate, creating and restoring compute, opening the
    harness connection, the writer fence, and the controller under it. A placer method is a
    computation over the state the placers of one registry share: the session's journal, the session
    guard, the open harness connections and the checkpoint marks. What other goroutines do to that
    state between two steps is the subject of file Checkpoint. *)
From S2P Require Import Prelude GoErrors Api Canon EventLog Executions Approvals Harness Sinks Controller SessionGuard.

(** ** The runtime *)

(** [api.Incarnation]. *)
Record Incarnation := mkIncarnation {
  inc_ID : string; Worker : string; Address : string; inc_Runtime : string; FenceToken : Z;
  CallMetadata : list (string * string);
}.
Definition zeroIncarnation : Incarnation := mkIncarnation "" "" "" "" 0 [].
Definition setFenceToken (f : Z) (i : Incarnation) : Incarnation :=
  mkIncarnation (inc_ID i) (Worker i) (Address i) (inc_Runtime i) f (CallMetadata i).

(** [placement.Backend]: the runtime's operations, which may answer differently each time. [Create]
    returns an incarnation beside its error. [b_describesLive] is [DescribesLiveHarness], false when
    the backend does not implement [LiveDescriber]. *)
Record Backend := mkBackend {
  b_Create : nat -> string -> Incarnation * option goerr;
  b_Snapshot : nat -> string -> res SnapshotRef;
  b_Restore : nat -> SnapshotRef -> res Incarnation;
  b_Fork : nat -> SnapshotRef -> string -> res Incarnation;
  b_Stop : nat -> string -> option goerr;
  b_Capabilities : RuntimeCapabilities;
  b_Describe : nat -> res Descriptor;
  b_describesLive : bool;
}.

(** What a placer asked of its surroundings, in order. *)
Inductive RuntimeCall :=
  | CallDescribe | CallCreate (uid : string) | CallDial (id : string) | CallVerify
  | CallSnapshot (id : string) | CallRestore (ref : SnapshotRef) | CallFork (ref : SnapshotRef) (child : string)
  | CallStop (id : string) | CallClose.

(** gRPC and the context package: [status.Code] of an error, and whether the describe timeout had
    expired at an observation. *)
Class PlacementHost := {
  statusCode : goerr -> Z;
  describeExpired : nat -> bool;
}.
Definition codes_DeadlineExceeded : Z := 4.
Definition codes_Unavailable : Z := 14.

(** ** State *)

(** [liveHarness]: its connection, the flags, and once ended the cancellation cause with the error
    [close] returned. *)
Record liveHarness := mkLiveHarness {
  lh_harness : Harness;
  lh_close : nat -> option goerr;
  superseded : bool;
  minted : bool;
  ended : option (goerr * option goerr);
}.

(** The state of the placers sharing a [sessionGuard] and a [sessionSet], as one session sees it:
    [ps_live] is [sessionSet.live], sets of pointers into [ps_conns]. *)
Record PState (S : Type) := mkPState {
  ps_world : World S;
  ps_guard : sessionGuard;
  ps_conns : gmap nat liveHarness;
  ps_next : nat;
  ps_live : gmap string (gset nat);
  ps_checkpoints : gset string;
  ps_calls : list RuntimeCall;
}.
Arguments mkPState {S}. Arguments ps_world {S}. Arguments ps_guard {S}. Arguments ps_conns {S}.
Arguments ps_next {S}. Arguments ps_live {S}. Arguments ps_checkpoints {S}. Arguments ps_calls {S}.

(** [Placer]; the logger is left out, the guard and the session set are in [PState]. [p_dial] yields
    the harness and the closer of its connection. *)
Record Placer := mkPlacer {
  p_backend : Backend;
  p_model : nat -> ModelRequest -> res ModelResponse;
  p_stream : option (nat -> ModelRequest -> list string * res ModelResponse);
  p_tool : option (nat -> ToolCallContext -> ToolCall -> ToolResult * option goerr);
  p_dial : nat -> Incarnation -> res (Harness * (nat -> option goerr));
  p_descriptorID : string;
}.

(** [execConfig] and [resumeConfig]; a deadline only changes the context. *)
Record execConfig := mkExecConfig {
  cfg_harness : string; cfg_onRecord : bool; cfg_onDelta : bool; cfg_config : bytes; cfg_resumeFromSeq : Z;
}.
Record resumeConfig := mkResumeConfig {
  rcfg_harness : string; rcfg_onRecord : bool; rcfg_onDelta : bool; rcfg_expectedLastSeq : option Z;
}.

(** ** Errors *)

(** [errSuperseded]: a checkpointing session and a fenced writer at once. *)
Definition errSuperseded : goerr := EJoin "superseded" [ESentinel ErrCheckpointing; ESentinel ErrFenced].
(** [errors.Is(err, errSuperseded)]: by identity of the variable, through the error's tree. *)
Fixpoint is_superseded (err : goerr) : bool :=
  match err with
  | EJoin text cs => bool_decide (text = "superseded"%string) || existsb is_superseded cs
  | EWrap _ c | EStatusCause _ c => is_superseded c
  | _ => false
  end.

(** [placementErrorKind(err)]. *)
Definition placementErrorKind (err : option goerr) : string :=
  match err with
  | None => EmptyString
  | Some e =>
      if errors_Is e ErrUnplaceable then "unplaceable"
      else if errors_Is e ErrDescriptorMismatch then "descriptor_mismatch"
      else if errors_Is e ErrHarnessUnavailable then "harness_unavailable"
      else if errors_Is e ErrCheckpointing then "checkpointing"
      else if errors_Is e ErrSessionBusy || errors_Is e ErrConflict then "conflict"
      else if errors_Is e ErrFenced then "fenced"
      else if errors_Is e ContextCanceled then "canceled"
      else if errors_Is e ContextDeadlineExceeded then "deadline_exceeded"
      else "operation_failed"
  end%string.

Section Errors.
Context `{PlacementHost}.

(** [describeError(ctx, err, timedOut)]: the caller's own context wins over a peer's timeout. *)
Definition describeError (ctx : option goerr) (err : goerr) (timedOut : bool) : goerr :=
  match ctx with
  | Some c => EJoin "describe harness" [ESentinel ErrAdmissionInterrupted; c]
  | None =>
      if timedOut || (statusCode err =? codes_Unavailable) || (statusCode err =? codes_DeadlineExceeded)
      then EJoin "unavailable" [ESentinel ErrHarnessUnavailable; err]
      else err
  end.

(** [controllerError(ctx, err)]. *)
Definition controllerError (ctx : option goerr) (err : goerr) : goerr :=
  if negb (errors_Is err ErrHarnessDescribeFailed) then err
  else describeError ctx err (errors_Is err ContextDeadlineExceeded).

(** [turnError(ctx, err)] with the context's cause and error. *)
Definition turnError (cause ctx : option goerr) (err : goerr) : goerr :=
  match cause with
  | Some c =>
      if is_superseded c
      then if is_superseded err then err else EJoin "turn ended" [c; err]
      else controllerError ctx err
  | None => controllerError ctx err
  end.
End Errors.

(** ** Primitives *)

Section Ops.
Context `{Host} `{Encoding} `{PlacementHost} {S : Type} `{Store S}.

Abbreviation P := (PState S).

Definition onWorldP {E A} (m : M (World S) E A) : M P E A := fun s =>
  let '(w, r) := m (ps_world s) in
  (mkPState w (ps_guard s) (ps_conns s) (ps_next s) (ps_live s) (ps_checkpoints s) (ps_calls s), r).
Definition onStore {A} (m : M S goerr A) : M P goerr A := onWorldP (onLog m).
Definition tickP : M P goerr nat := onWorldP tick.

Definition setGuardP (g : sessionGuard) (s : P) : P :=
  mkPState (ps_world s) g (ps_conns s) (ps_next s) (ps_live s) (ps_checkpoints s) (ps_calls s).
Definition setConns (cs : gmap nat liveHarness) (s : P) : P :=
  mkPState (ps_world s) (ps_guard s) cs (ps_next s) (ps_live s) (ps_checkpoints s) (ps_calls s).
Definition setLive (l : gmap string (gset nat)) (s : P) : P :=
  mkPState (ps_world s) (ps_guard s) (ps_conns s) (ps_next s) l (ps_checkpoints s) (ps_calls s).
Definition setCheckpoints (cs : gset string) (s : P) : P :=
  mkPState (ps_world s) (ps_guard s) (ps_conns s) (ps_next s) (ps_live s) cs (ps_calls s).
(** Record what was asked of the runtime, at the instant the answer is observed. *)
Definition called (c : RuntimeCall) : M P goerr nat := fun s =>
  tickP (mkPState (ps_world s) (ps_guard s) (ps_conns s) (ps_next s) (ps_live s) (ps_checkpoints s)
           (ps_calls s ++ [c])).

(** [defer cleanup()]. *)
Definition finally {E A} (m : M P E A) (cleanup : P -> P) : M P E A := fun s =>
  let '(s', r) := m s in (cleanup s', r).

(** An error with a value returned beside it. *)
Definition beside {V A} (v : V) (m : M P goerr A) : M P (V * goerr) A := fun s =>
  let '(s', r) := m s in (s', match r with Ok a => Ok a | Err e => Err (v, e) end).

(** [release, err := guard.acquire(uid, kind); defer release()] around a body. *)
Definition withGuard {E A} (busy : goerr -> E) (uid : string) (kind : guardKind) (body : M P E A) : M P E A := fun s =>
  let '(g, r) := acquire uid kind (ps_guard s) in
  match r with
  | Err e => (setGuardP g s, Err (busy e))
  | Ok h => finally body (fun s => setGuardP (releaseHold h (ps_guard s)) s) (setGuardP g s)
  end.

(** ** The checkpoint mark *)

(** [setCheckpointLocked], [markCheckpoint] and [endCheckpoint]. *)
Definition setCheckpointLocked (uid : string) : M P goerr unit := fun s =>
  if bool_decide (uid ∈ ps_checkpoints s) then (s, Err (EWrap "mark is held" (ESentinel ErrCheckpointing)))
  else (setCheckpoints ({[uid]} ∪ ps_checkpoints s) s, Ok tt).
Definition markCheckpoint := setCheckpointLocked.
Definition endCheckpoint (uid : string) (s : P) : P := setCheckpoints (ps_checkpoints s ∖ {[uid]}) s.

(** [if err := markCheckpoint(uid); ...; defer endCheckpoint(uid)] around a body. *)
Definition withCheckpoint {A} (uid : string) (body : M P goerr A) : M P goerr A :=
  do! markCheckpoint uid in finally body (endCheckpoint uid).

(** [refuseDuringCheckpoint(uid)]. *)
Definition refuseDuringCheckpoint (uid : string) : M P goerr unit := fun s =>
  if bool_decide (uid ∈ ps_checkpoints s) then (s, Err (EWrap "session" (ESentinel ErrCheckpointing)))
  else (s, Ok tt).

(** The connections of a session. *)
Definition liveOf (uid : string) (s : P) : gset nat := default ∅ (ps_live s !! uid).

Definition updConn (l : nat) (f : liveHarness -> liveHarness) (s : P) : P :=
  setConns (alter f l (ps_conns s)) s.
Definition setSuperseded (c : liveHarness) : liveHarness :=
  mkLiveHarness (lh_harness c) (lh_close c) true (minted c) (ended c).
Definition setMinted (c : liveHarness) : liveHarness :=
  mkLiveHarness (lh_harness c) (lh_close c) (superseded c) true (ended c).
Definition setEnded (cause : goerr) (err : option goerr) (c : liveHarness) : liveHarness :=
  mkLiveHarness (lh_harness c) (lh_close c) (superseded c) (minted c) (Some (cause, err)).

(** [beginCheckpoint(uid)]: the mark, and every open connection marked superseded. *)
Definition beginCheckpoint (uid : string) : M P goerr (list nat) :=
  do! setCheckpointLocked uid in
  let! open := gets (fun s => elements (liveOf uid s)) in
  do! modify (fun s => foldr (fun l => updConn l setSuperseded) s open) in
  mret open.

(** ** Connections *)

(** [end(cause)]: once; later calls return the same error. *)
Definition endConn (l : nat) (cause : goerr) : M P goerr (option goerr) :=
  let! c := gets (fun s => ps_conns s !! l) in
  match c with
  | None => mret None
  | Some c =>
      match ended c with
      | Some (_, err) => mret err
      | None =>
          let! t := called CallClose in
          do! modify (updConn l (setEnded cause (lh_close c t))) in
          mret (lh_close c t)
      end
  end.

(** The cancellation cause of a turn's context, and [ctx.Err()]. *)
Definition connCause (l : nat) : M P goerr (option goerr) :=
  let! t := tickP in
  let! c := gets (fun s => ps_conns s !! l) in
  mret (match c with Some (mkLiveHarness _ _ _ _ (Some (cause, _))) => Some cause | _ => ctxErr t end).
Definition connErr (l : nat) : M P goerr (option goerr) :=
  let! t := tickP in
  let! c := gets (fun s => ps_conns s !! l) in
  mret (match c with Some (mkLiveHarness _ _ _ _ (Some _)) => Some (ESentinel ContextCanceled) | _ => ctxErr t end).

(** [checkSuperseded(ctx)]. *)
Definition checkSuperseded (l : nat) : M P goerr unit :=
  let! c := gets (fun s => ps_conns s !! l) in
  if match c with Some c => superseded c | None => false end then throw errSuperseded
  else
    let! err := connErr l in
    match err with
    | None => mret tt
    | Some e =>
        let! cause := connCause l in
        throw (turnError cause err e)
    end.

(** [fenceMinted()]. *)
Definition fenceMinted (l : nat) : M P goerr unit := modify (updConn l setMinted).

(** [releaseHarness(ctx, uid, id, l)]. *)
Definition releaseHarness (uid : string) (l : nat) : M P goerr unit :=
  do! modify (fun s =>
    let rest := liveOf uid s ∖ {[l]} in
    setLive (if decide (rest = ∅) then delete uid (ps_live s) else <[uid := rest]> (ps_live s)) s) in
  do! fenceMinted l in
  let! err := endConn l (ESentinel ContextCanceled) in
  check err.

(** [endHarnesses(ctx, uid, open)]: end every connection, then wait until each turn has minted. A
    turn that has not is still running elsewhere: the wait is over when it mints or [ctx] ends, and
    without another goroutine's step only the latter can happen. *)
Fixpoint endAll (open : list nat) : M P goerr unit :=
  match open with
  | [] => mret tt
  | l :: ls => let! _ := endConn l errSuperseded in endAll ls
  end.
Fixpoint awaitMinted (open : list nat) : M P goerr unit :=
  match open with
  | [] => mret tt
  | l :: ls =>
      let! c := gets (fun s => ps_conns s !! l) in
      if match c with Some c => minted c | None => true end then awaitMinted ls
      else
        let! t := tickP in
        throw (EWrap "waiting for the superseded turn" (default (ESentinel ContextCanceled) (ctxErr t)))
  end.
Definition endHarnesses (open : list nat) : M P goerr unit :=
  do! endAll open in awaitMinted open.

Variable p : Placer.

(** [openHarness(ctx, uid, inc)]. *)
Definition openHarness (uid : string) (inc : Incarnation) : M P goerr nat :=
  let! t := called (CallDial (inc_ID inc)) in
  let! hc := lift (p_dial p t inc) in
  let! l := gets ps_next in
  do! modify (fun s => mkPState (ps_world s) (ps_guard s)
    (<[l := mkLiveHarness (fst hc) (snd hc) false false None]> (ps_conns s)) (Datatypes.S l) (ps_live s)
    (ps_checkpoints s) (ps_calls s)) in
  let! marked := gets (fun s => bool_decide (uid ∈ ps_checkpoints s)) in
  if (marked : bool) then
    let! _ := endConn l (ESentinel ContextCanceled) in
    throw (EWrap "session" (ESentinel ErrCheckpointing))
  else
    do! modify (fun s => setLive (<[uid := {[l]} ∪ liveOf uid s]> (ps_live s)) s) in
    mret l.

(** ** The gate *)

(** [gate(ctx, uid, op, describe)], on the descriptor [describe] answered and the context after it. *)
Definition gateOn (ctx : option goerr) (t : nat) (r : res Descriptor) : res Descriptor :=
  match r with
  | Err e => Err (describeError ctx e (describeExpired t))
  | Ok desc =>
      if negb (bool_decide (p_descriptorID p = EmptyString)) && negb (bool_decide (desc_ID desc = p_descriptorID p))
      then Err (EWrap "expected descriptor id" (ESentinel ErrDescriptorMismatch))
      else if negb (CanPlace (desc_Capabilities desc) (b_Capabilities (p_backend p)))
      then Err (EWrap "harness needs" (ESentinel ErrUnplaceable))
      else Ok desc
  end.

(** [admit(ctx, uid)]. *)
Definition placer_admit : M P goerr Descriptor :=
  let! t := called CallDescribe in
  lift (gateOn (ctxErr t) t (b_Describe (p_backend p) t)).

(** [recheck(ctx, uid, har)] on the connection [l]. *)
Definition recheck (l : nat) (har : Harness) : M P goerr unit :=
  if negb (b_describesLive (p_backend p)) then mret tt
  else
    let! t := called CallVerify in
    let! ctx := connErr l in
    match gateOn ctx t (Describe har t) with
    | Ok _ => mret tt
    | Err e =>
        let! cause := connCause l in
        if match cause with Some c => is_superseded c | None => false end
        then throw (EWrap "harness check ended" errSuperseded) else throw e
    end.

(** [controllerOpts(fence, uid, observer)] with the options of one call. *)
Definition controllerFor (fence : Z) (uid : string) (onR onD : bool) (config : bytes) (resumeFrom : Z)
    (harness : string) : Controller :=
  mkController (p_model p) (p_stream p) onR onD config resumeFrom (p_tool p) fence uid harness.

(** [cursor.observer.OnRecord(record)]. *)
Definition observeP (onR : bool) (r : Record_) : M P goerr unit :=
  onWorldP (observe (controllerFor 0 EmptyString onR false None 0 EmptyString) r).

(** ** Lifecycle records *)

(** [appendLifecycleAt(log, expectedLastSeq, fence, lc)] and [appendLifecycle(log, lc)]. *)
Definition appendLifecycleAt (expected fence : Z) (lc : Lifecycle) : M P goerr Record_ :=
  onStore (st_Append expected fence (evLifecycle lc)).
Definition appendLifecycle (lc : Lifecycle) : M P goerr Record_ :=
  let! fence := onStore st_NewFence in
  let! head := onStore st_Head in
  appendLifecycleAt head fence lc.

(** [lastSuspendRef(log, uid)]: the newest SUSPEND of this session, looking from the end. *)
Fixpoint suspendRefOf (uid : string) (recs : list Record_) : option SnapshotRef :=
  match recs with
  | [] => None
  | r :: rs =>
      match suspendRefOf uid rs with
      | Some ref => Some ref
      | None =>
          match Kind (rec_Event r), ev_Lifecycle (rec_Event r) with
          | EventLifecycle, Some (mkLifecycle LifecycleSuspend _ (Some snap)) =>
              if bool_decide (snap_Local snap = uid) then Some snap else None
          | _, _ => None
          end
      end
  end.
Definition lastSuspendRef (uid : string) : M P goerr SnapshotRef :=
  let! recs := onStore (st_Read 1) in
  mret (default (mkSnapshotRef uid EmptyString false false) (suspendRefOf uid recs)).

(** [suspendCursor]. *)
Record suspendCursor := mkSuspendCursor { cur_head : Z; cur_fence : Z; cur_onRecord : bool }.

Definition suspendLifecycle (ref : SnapshotRef) : Lifecycle := mkLifecycle LifecycleSuspend EmptyString (Some ref).

(** [suspend(ctx, log, uid, cursor)]. *)
Definition suspend (uid : string) (cursor : option suspendCursor) : M P goerr SnapshotRef :=
  do! onStore st_CheckWritable in
  let! t := called (CallSnapshot uid) in
  let! ref := lift (b_Snapshot (p_backend p) t uid) in
  match cursor with
  | None => do! appendLifecycle (suspendLifecycle ref) in mret ref
  | Some c =>
      let! record := appendLifecycleAt (cur_head c) (cur_fence c) (suspendLifecycle ref) in
      do! observeP (cur_onRecord c) record in
      mret ref
  end.

(** [Suspend(ctx, log, uid)]. *)
Definition placer_Suspend (uid : string) : M P goerr SnapshotRef :=
  withGuard (fun e => e) uid guardOperation (withCheckpoint uid (suspend uid None)).

(** ** Turns *)

(** The invocation's [closeInvocation]: refuse under a checkpoint, then release the connection. *)
Definition closeInvocation (uid : string) (l : nat) : M P goerr unit :=
  do! checkSuperseded l in releaseHarness uid l.

(** Whether an inspected approval is the owned, undecided request that [ref] names. *)
Definition parkMatches (state : option ApprovalState) (ref : ApprovalRef) : bool :=
  match state with
  | Some s =>
      negb (as_Inherited s) && isNil (as_Receipt s) && isNil (as_Decision s) &&
      match as_Request s with
      | Some r => bool_decide (ref = mkApprovalRef (as_ExecutionID s) (tc_ID (as_Call s)) (Seq r))
      | None => false
      end
  | None => false
  end.

(** [handoffPark(ctx, log, uid, fence, park, closeInvocation, observer)]: it always ends in an error,
    the park itself when the handoff is complete. *)
Definition handoffPark {A} (uid : string) (fence : Z) (ref : ApprovalRef) (l : nat) (onR : bool) : M P goerr A :=
  withCheckpoint uid (
    let! state := onStore (InspectApproval 0) in
    if negb (parkMatches state ref)
    then throw (EWrap "park does not match the recorded owned request" (ESentinel ErrReplayDiverged))
    else
      do! closeInvocation uid l in
      do! suspend uid (Some (mkSuspendCursor (match state with Some s => as_Head s | None => 0 end) fence onR)) in
      throw (EParked ref)).

(** Whether an error of a run is a park, and for which request. *)
Definition parkOf (err : goerr) : option ApprovalRef :=
  match as_parked err with
  | Some ref => if IsParkUnwind err ref then Some ref else None
  | None => None
  end.

(** What a turn returns after its controller failed. *)
Definition turnFailed {A} (uid : string) (fence : Z) (l : nat) (onR : bool) (err : goerr) : M P goerr A :=
  match parkOf err with
  | Some ref => handoffPark uid fence ref l onR
  | None =>
      let! cause := connCause l in
      let! ctx := connErr l in
      throw (turnError cause ctx err)
  end.

(** An owned approval without a receipt. *)
Definition ownedOpen (state : option ApprovalState) : bool :=
  match state with Some s => negb (as_Inherited s) && isNil (as_Receipt s) | None => false end.

(** [NewFence] of a turn, whose one attempt is announced whether it succeeds or not. *)
Definition mintTurnFence (l : nat) (mint : M P goerr Z) : M P goerr Z :=
  let! fence := try mint in
  do! fenceMinted l in
  lift fence.

(** The part of [Exec] under its open connection; [releaseHarness] is deferred around it. *)
Definition execOn (cfg : execConfig) (uid : string) (inputs : list Message) (expected : Z) (inc : Incarnation) (l : nat)
    (har : Harness) : M P (Incarnation * goerr) Incarnation :=
  do! beside inc (recheck l har) in
  let! fence := beside inc (mintTurnFence l (onStore st_NewFence)) in
  let inc := setFenceToken fence inc in
  do! beside inc (checkSuperseded l) in
  let! c := beside inc (onStore (New_ (controllerFor fence uid (cfg_onRecord cfg) (cfg_onDelta cfg)
    (cfg_config cfg) (cfg_resumeFromSeq cfg) (cfg_harness cfg)))) in
  let! r := beside inc (try (onWorldP (Exec c har inputs expected))) in
  match r with
  | Ok _ => mret inc
  | Err err => beside inc (turnFailed uid fence l (cfg_onRecord cfg) err)
  end.

(** [defer releaseHarness(...)], its error dropped. *)
Definition releaseQuietly (uid : string) (l : nat) (s : P) : P := fst (releaseHarness uid l s).

(** The connection's harness, by pointer. *)
Definition harnessOf (l : nat) (s : P) : Harness :=
  match ps_conns s !! l with
  | Some c => lh_harness c
  | None => mkHarness (fun _ => Err (EText "unreachable: the connection is open")) (fun _ => PReturn None)
  end.

(** [Placer.Exec(ctx, log, uid, inputs, expectedLastSeq, opts...)]: the incarnation is returned beside
    an error too. *)
Definition placer_Exec (cfg : execConfig) (uid : string) (inputs : list Message) (expected : Z)
    : M P (Incarnation * goerr) Incarnation :=
  withGuard (fun e => (zeroIncarnation, e)) uid guardOperation (
    do! beside zeroIncarnation (onStore st_CheckWritable) in
    let! state := beside zeroIncarnation (onStore (InspectApproval 0)) in
    if ownedOpen state then throw (zeroIncarnation, ESentinel ErrApprovalBlocked)
    else
      do! beside zeroIncarnation placer_admit in
      do! beside zeroIncarnation (refuseDuringCheckpoint uid) in
      let! t := beside zeroIncarnation (called (CallCreate uid)) in
      let '(inc, err) := b_Create (p_backend p) t uid in
      do! beside inc (check err) in
      let! l := beside inc (openHarness uid inc) in
      let! har := gets (harnessOf l) in
      finally (execOn cfg uid inputs expected inc l har) (releaseQuietly uid l)).

(** [checkResumeHead(log, expected)]. *)
Definition checkResumeHead (expected : option Z) : M P goerr unit :=
  match expected with
  | None => mret tt
  | Some e =>
      let! head := onStore st_Head in
      if negb (head =? e) then throw (EWrap "expected_last_seq" (ESentinel ErrConflict)) else mret tt
  end.

(** [resumeFence(log, uid, expected)]: a checked mint holds the checkpoint mark. *)
Definition resumeFence (uid : string) (expected : option Z) : M P goerr Z :=
  let mint := let! fence := onStore st_NewFence in do! checkResumeHead expected in mret fence in
  match expected with
  | Some _ => withCheckpoint uid mint
  | None => mint
  end.

(** [resumeApproval(log, uid, state, cfg)]: [Ok tt] when recovery goes on ([false, nil]); every other
    answer of the source is an error. *)
Definition resumeApproval (uid : string) (state : option ApprovalState) (cfg : resumeConfig) : M P goerr unit :=
  match state with
  | None => mret tt
  | Some s =>
      if negb (isNil (as_Receipt s)) then mret tt
      else if as_Inherited s then throw (ESentinel ErrInheritedToolIntent)
      else if negb (isNil (as_Decision s)) then mret tt
      else match as_Request s with
      | Some r => throw (EParked (mkApprovalRef (as_ExecutionID s) (tc_ID (as_Call s)) (Seq r)))
      | None =>
          let! fence := resumeFence uid (rcfg_expectedLastSeq cfg) in
          let! record := onStore (st_Append (as_Head s) fence
            (setExecutionID (as_ExecutionID s) (evApprovalRequest (mkApprovalRequest (tc_ID (as_Call s)) EmptyString)))) in
          do! observeP (rcfg_onRecord cfg) record in
          throw (EParked (mkApprovalRef (as_ExecutionID s) (tc_ID (as_Call s)) (Seq record)))
      end
  end.

Definition resumeMarker : Event := evLifecycle (mkLifecycle LifecycleResume EmptyString None).

(** The part of [resume] under its open connection. *)
Definition resumeOn (cfg : resumeConfig) (uid : string) (l : nat) (har : Harness) : M P goerr unit :=
  do! recheck l har in
  let! fence := mintTurnFence l (resumeFence uid (rcfg_expectedLastSeq cfg)) in
  do! checkSuperseded l in
  let! c := onStore (New_ (controllerFor fence uid (rcfg_onRecord cfg) (rcfg_onDelta cfg) None 0 (rcfg_harness cfg))) in
  let! r := onWorldP (fun w => let '(w', r) := Resume c har w in
    (w', Ok (match r with Ok _ => None | Err (_, e) => Some e end))) in
  match r with
  | Some err => turnFailed uid fence l (rcfg_onRecord cfg) err
  | None =>
      let! head := onStore st_Head in
      let! record := onStore (st_Append head fence resumeMarker) in
      observeP (rcfg_onRecord cfg) record
  end.

(** [resume(ctx, log, uid, cfg)], the session guard held by the caller. *)
Definition resume (cfg : resumeConfig) (uid : string) : M P goerr unit :=
  do! onStore st_CheckWritable in
  let! state := onStore (InspectApproval 0) in
  do! resumeApproval uid state cfg in
  do! placer_admit in
  let! ref := lastSuspendRef uid in
  do! refuseDuringCheckpoint uid in
  do! match rcfg_expectedLastSeq cfg with
      | Some e => let! _ := resumeFence uid (Some e) in mret tt
      | None => mret tt
      end in
  let! t := called (CallRestore ref) in
  let! inc := lift (b_Restore (p_backend p) t ref) in
  let! l := openHarness uid inc in
  let! har := gets (harnessOf l) in
  finally (resumeOn cfg uid l har) (releaseQuietly uid l).

(** [Placer.Resume(ctx, log, uid, opts...)]. *)
Definition placer_Resume (cfg : resumeConfig) (uid : string) : M P goerr unit :=
  withGuard (fun e => e) uid guardOperation (resume cfg uid).

(** ** Forks *)

(** The head is still the fork point. *)
Definition forkPoint (atSeq : Z) (moved : goerr) : M P goerr unit :=
  let! head := onStore st_Head in
  if negb (atSeq =? head) then throw moved else mret tt.

(** [forkSource(ctx, parent, uid, atSeq)]: the snapshot, and whether the checkpoint mark is handed to
    the caller. Any error leaves the mark lifted. *)
Definition forkCheckpoint (uid : string) (atSeq : Z) (open : list nat) : M P goerr SnapshotRef :=
  let advanced := EWrap "parent advanced" (ESentinel ErrConflict) in
  do! onStore st_NewFence in
  do! forkPoint atSeq advanced in
  do! endHarnesses open in
  let! fence := onStore st_NewFence in
  do! forkPoint atSeq advanced in
  let! t := called (CallSnapshot uid) in
  let! ref := lift (b_Snapshot (p_backend p) t uid) in
  do! appendLifecycleAt atSeq fence (suspendLifecycle ref) in
  if bool_decide (ExternalURI ref = EmptyString)
  then throw (EWrap "no external snapshot handle" (ESentinel ErrUnplaceable)) else mret ref.

(** Lift the mark unless the body succeeded. *)
Definition releaseOnError {A} (uid : string) (m : M P goerr A) : M P goerr A := fun s =>
  let '(s', r) := m s in (match r with Ok _ => s' | Err _ => endCheckpoint uid s' end, r).

Definition forkSource (uid : string) (atSeq : Z) : M P goerr (SnapshotRef * bool) :=
  let! desc := placer_admit in
  if negb (bool_decide (cap_Resumability (desc_Capabilities desc) = ResumabilityRequiresMemorySnapshot))
  then mret (mkSnapshotRef uid EmptyString false false, false)
  else
    do! forkPoint atSeq (EWrap "can only fork at the log head" (ESentinel ErrUnplaceable)) in
    let! open := beginCheckpoint uid in
    let! ref := releaseOnError uid (forkCheckpoint uid atSeq open) in
    mret (ref, true).

(** [stopOrphan] and [rollbackFork]: best effort, one child after the other. *)
Definition stopOrphan (uid : string) : M P goerr unit :=
  let! _ := called (CallStop uid) in mret tt.
Fixpoint rollbackFork (children : list string) : M P goerr unit :=
  match children with
  | [] => mret tt
  | c :: cs => do! stopOrphan c in rollbackFork cs
  end.
End Ops.

(** ** Placer.Fork

    Each child has a log of its own, in a store of its own type. *)
Section Fork.
Context `{Host} `{Encoding} `{PlacementHost} {S C : Type} `{Store S} `{!Store C}.
Variable p : Placer.

(** A child and its log: [ForkChild]. *)
Record ForkChild := mkForkChild { child_UID : string; child_Log : C }.

(** The preflight loop: every child log is writable. *)
Fixpoint forkPreflight (children : list ForkChild) : list ForkChild * option goerr :=
  match children with
  | [] => ([], None)
  | c :: cs =>
      let '(log, r) := st_CheckWritable (child_Log c) in
      let c := mkForkChild (child_UID c) log in
      match r with
      | Err e => (c :: cs, Some (EWrap "fork child" e))
      | Ok _ => let '(cs, e) := forkPreflight cs in (c :: cs, e)
      end
  end.

(** [controller.Fork(parent, child.Log, atSeq)] on the parent's log inside the placer's state. *)
Definition forkLog (atSeq : Z) (c : ForkChild) (s : PState S) : PState S * ForkChild * res unit :=
  let w := ps_world s in
  let '((plog, clog), r) := Fork atSeq (w_log w, child_Log c) in
  (mkPState (mkWorld plog (w_tick w) (liveModelCalls w) (liveToolCalls w) (w_updates w) (w_asked w))
     (ps_guard s) (ps_conns s) (ps_next s) (ps_live s) (ps_checkpoints s) (ps_calls s),
   mkForkChild (child_UID c) clog, r).

(** What a loop over the children leaves: the children with their logs, those provisioned, and the
    error that ended it. *)
Record forkRun := mkForkRun { fr_children : list ForkChild; fr_created : list string; fr_err : option goerr }.

(** The loop of [Fork]: provision the child, then copy the log. *)
Fixpoint forkLoop (ref : SnapshotRef) (atSeq : Z) (todo : list ForkChild) (s : PState S) : PState S * forkRun :=
  match todo with
  | [] => (s, mkForkRun [] [] None)
  | c :: cs =>
      let '(s, r) := (let! t := called (CallFork ref (child_UID c)) in
                      lift (b_Fork (p_backend p) t ref (child_UID c))) s in
      match r with
      | Err e => (s, mkForkRun (c :: cs) [] (Some e))
      | Ok _ =>
          let '((s, c), r) := forkLog atSeq c s in
          match r with
          | Err e => (s, mkForkRun (c :: cs) [child_UID c] (Some e))
          | Ok _ =>
              let '(s, run) := forkLoop ref atSeq cs s in
              (s, mkForkRun (c :: fr_children run) (child_UID c :: fr_created run) (fr_err run))
          end
      end
  end.

(** The loop with [abort]: the parent is released before the children are stopped, and on success
    when the caller returns. *)
Definition forkChildren (uid : string) (marked : bool) (ref : SnapshotRef) (atSeq : Z) (children : list ForkChild)
    (s : PState S) : PState S * (list ForkChild * res unit) :=
  let '(s, run) := forkLoop ref atSeq children s in
  let s := if (marked : bool) then endCheckpoint uid s else s in
  match fr_err run with
  | Some e => (fst (rollbackFork (fr_created run) s), (fr_children run, Err e))
  | None => (s, (fr_children run, Ok tt))
  end.

(** [Placer.Fork(ctx, parent, uid, children, atSeq)]. *)
Definition placer_Fork (uid : string) (children : list ForkChild) (atSeq : Z) (s : PState S)
    : PState S * (list ForkChild * res unit) :=
  let '(g, r) := acquire uid guardRead (ps_guard s) in
  match r with
  | Err e => (setGuardP g s, (children, Err e))
  | Ok h =>
      let release (s : PState S) := setGuardP (releaseHold h (ps_guard s)) s in
      let '(s, r) := onStore st_CheckWritable (setGuardP g s) in
      match r with
      | Err e => (release s, (children, Err e))
      | Ok _ =>
          match forkPreflight children with
          | (children, Some e) => (release s, (children, Err e))
          | (children, None) =>
              let '(s, r) := forkSource p uid atSeq s in
              match r with
              | Err e => (release s, (children, Err e))
              | Ok (ref, marked) =>
                  let '(s, out) := forkChildren uid marked ref atSeq children s in (release s, out)
              end
          end
      end
  end.
End Fork.
