(* ===== verification/Admission.v ===== *)
(** * Placer operations give back what they took (placement/placement.go)

    A frame logic for computations over the placer's state, and its first use: whatever the journal,
    the runtime, the harness and the model answer, an operation leaves the session guard, the open
    connections and the checkpoint marks as it found them. *)
From S2P Require Import Prelude GoErrors Api Canon EventLog Executions Approvals Harness Sinks Controller Agents SessionGuard Placement.

Section Frame.
Context `{Host} `{Encoding} `{PlacementHost} {S : Type} `{Store S}.
Abbreviation P := (PState S).

(** [m] relates the state before it to the state after it, whatever it returns. *)
Definition frame (R : P -> P -> Prop) {E A} (m : M P E A) : Prop := forall s, R s (fst (m s)).

Section Rules.
Variables (R : P -> P -> Prop).
Context `{!PreOrder R}.

Lemma frame_ret {E A} (a : A) : frame R (mret (M := M P E) a).
Proof. intros s. reflexivity. Qed.
Lemma frame_throw {E A} (e : E) : frame R (throw (S := P) (A := A) e).
Proof. intros s. reflexivity. Qed.
Lemma frame_lift {E A} (r : result E A) : frame R (lift (S := P) r).
Proof. intros s. reflexivity. Qed.
Lemma frame_check {E} (o : option E) : frame R (check (S := P) o).
Proof. intros s. destruct o; reflexivity. Qed.
Lemma frame_gets {E A} (f : P -> A) : frame R (gets (E := E) f).
Proof. intros s. reflexivity. Qed.
Lemma frame_modify {E} (f : P -> P) : (forall s, R s (f s)) -> frame R (modify (E := E) f).
Proof. intros Hf s. apply Hf. Qed.
Lemma frame_bind {E A B} (m : M P E A) (f : A -> M P E B) :
  frame R m -> (forall a, frame R (f a)) -> frame R (mbind f m).
Proof.
  intros Hm Hf s. unfold mbind, M_bind. specialize (Hm s). destruct (m s) as [s' [a|e]]; [|done].
  etransitivity; [exact Hm|apply Hf].
Qed.
Lemma frame_try {E A} (m : M P E A) : frame R m -> frame R (try m).
Proof. intros Hm s. unfold try. specialize (Hm s). by destruct (m s). Qed.
Lemma frame_beside {V A} (v : V) (m : M P goerr A) : frame R m -> frame R (beside v m).
Proof. intros Hm s. unfold beside. specialize (Hm s). by destruct (m s) as [s' []]. Qed.
Lemma frame_finally {E A} (m : M P E A) cleanup : frame R m -> (forall s, R s (cleanup s)) -> frame R (finally m cleanup).
Proof. intros Hm Hc s. unfold finally. specialize (Hm s). destruct (m s). etransitivity; [exact Hm|apply Hc]. Qed.
End Rules.

(** ** What an operation holds of the session *)

Definition same_marks (s s' : P) : Prop :=
  ps_guard s' = ps_guard s /\ ps_checkpoints s' = ps_checkpoints s /\ ps_next s' = ps_next s.
(** The connections of [uid] but [l], and those of every other session. *)
Definition dropLive (uid : string) (l : nat) (live : gmap string (gset nat)) : gmap string (gset nat) :=
  let rest := default ∅ (live !! uid) ∖ {[l]} in
  if decide (rest = ∅) then delete uid live else <[uid := rest]> live.

(** Nothing changed hands, and nothing but the connection [l] of [uid]. *)
Definition keeps (s s' : P) : Prop := same_marks s s' /\ ps_live s' = ps_live s.
Definition keeps_but (uid : string) (l : nat) (s s' : P) : Prop :=
  same_marks s s' /\ dropLive uid l (ps_live s') = dropLive uid l (ps_live s).

#[export] Instance keeps_preorder : PreOrder keeps.
Proof. unfold keeps, same_marks. split; [by intros s|]. intros a b c (?&?) (?&?). intuition congruence. Qed.
#[export] Instance keeps_but_preorder uid l : PreOrder (keeps_but uid l).
Proof. unfold keeps_but, same_marks. split; [by intros s|]. intros a b c (?&?) (?&?). intuition congruence. Qed.

Lemma keeps_keeps_but uid l s s' : keeps s s' -> keeps_but uid l s s'.
Proof. intros [? Hl]. split; [done|]. by rewrite Hl. Qed.
Lemma frame_but uid l {E A} (m : M P E A) : frame keeps m -> frame (keeps_but uid l) m.
Proof. intros Hm s. apply keeps_keeps_but, Hm. Qed.

Lemma dropLive_idem uid l live : dropLive uid l (dropLive uid l live) = dropLive uid l live.
Proof.
  unfold dropLive. set (rest := default ∅ (live !! uid) ∖ {[l]}).
  destruct (decide (rest = ∅)) as [E|E].
  - rewrite lookup_delete_eq. cbn. rewrite decide_True by set_solver. by rewrite delete_delete_eq.
  - rewrite lookup_insert_eq. cbn. replace (rest ∖ {[l]}) with rest by (unfold rest; set_solver).
    rewrite decide_False by done. by rewrite insert_insert_eq.
Qed.

(** ** Primitives *)

Lemma keeps_onWorldP {E A} (m : M (World S) E A) : frame keeps (onWorldP m).
Proof. intros s. unfold onWorldP. destruct (m (ps_world s)). repeat split. Qed.
Lemma keeps_called c : frame keeps (called c).
Proof. intros s. unfold called. by destruct (keeps_onWorldP tick (mkPState (ps_world s) (ps_guard s) (ps_conns s) (ps_next s) (ps_live s) (ps_checkpoints s) (ps_calls s ++ [c]))) as [(?&?&?) ?]. Qed.
Lemma keeps_updConn l f : frame (E := goerr) keeps (modify (updConn l f)).
Proof. intros s. repeat split. Qed.
Lemma keeps_refuse uid : frame keeps (refuseDuringCheckpoint uid).
Proof. intros s. unfold refuseDuringCheckpoint. case_bool_decide; repeat split. Qed.
End Frame.

#[export] Hint Resolve frame_ret frame_throw frame_lift frame_check frame_gets frame_bind frame_try
  frame_beside frame_finally keeps_preorder keeps_but_preorder : frame.
#[export] Hint Resolve keeps_onWorldP keeps_called keeps_updConn keeps_refuse : frame.

(** [step_frame]: take a computation apart along the monad, down to framed primitives. *)
Ltac step_frame :=
  repeat first
    [ progress intros
    | solve [auto with frame]
    | apply frame_but; solve [auto with frame]
    | apply frame_bind; [typeclasses eauto| |]
    | apply frame_beside
    | apply frame_try
    | apply frame_throw; typeclasses eauto
    | apply frame_ret; typeclasses eauto
    | apply frame_gets; typeclasses eauto
    | apply frame_lift; typeclasses eauto
    | apply frame_check; typeclasses eauto
    | case_match ].

Section Ops.
Context `{Host} `{Encoding} `{PlacementHost} {S : Type} `{Store S}.
Abbreviation P := (PState S).

Lemma keeps_onStore {A} (m : M S goerr A) : frame (S:=S) keeps (onStore m).
Proof. apply keeps_onWorldP. Qed.
Lemma keeps_tickP : frame (S:=S) keeps tickP.
Proof. apply keeps_onWorldP. Qed.
#[local] Hint Resolve keeps_onStore keeps_tickP : frame.
Lemma keeps_endConn l cause : frame (S:=S) keeps (endConn l cause).
Proof. unfold endConn. step_frame. Qed.
Lemma keeps_connErr l : frame (S:=S) keeps (connErr l).
Proof. unfold connErr. step_frame. Qed.
Lemma keeps_connCause l : frame (S:=S) keeps (connCause l).
Proof. unfold connCause. step_frame. Qed.
#[local] Hint Resolve keeps_endConn keeps_connErr keeps_connCause : frame.

Lemma keeps_checkSuperseded l : frame (S:=S) keeps (checkSuperseded l).
Proof. unfold checkSuperseded. step_frame. Qed.
Lemma keeps_fenceMinted l : frame (S:=S) keeps (fenceMinted l).
Proof. apply keeps_updConn. Qed.
Lemma keeps_endHarnesses open : frame (S:=S) keeps (endHarnesses open).
Proof.
  unfold endHarnesses. apply frame_bind; [typeclasses eauto| |intros _].
  - induction open; cbn; step_frame.
  - induction open; cbn; step_frame.
Qed.
#[local] Hint Resolve keeps_checkSuperseded keeps_fenceMinted keeps_endHarnesses : frame.

Variable p : Placer.

Lemma keeps_admit : frame (S:=S) keeps (placer_admit p).
Proof. unfold placer_admit. step_frame. Qed.
Lemma keeps_recheck l har : frame (S:=S) keeps (recheck p l har).
Proof. unfold recheck. step_frame. Qed.
Lemma keeps_observeP onR r : frame (S:=S) keeps (observeP p onR r).
Proof. apply keeps_onWorldP. Qed.
Lemma keeps_appendLifecycle lc : frame (S:=S) keeps (appendLifecycle lc).
Proof. unfold appendLifecycle, appendLifecycleAt. step_frame. Qed.
Lemma keeps_lastSuspendRef uid : frame (S:=S) keeps (lastSuspendRef uid).
Proof. unfold lastSuspendRef. step_frame. Qed.
Lemma keeps_checkResumeHead e : frame (S:=S) keeps (checkResumeHead e).
Proof. unfold checkResumeHead. step_frame. Qed.
Lemma keeps_forkPoint a e : frame (S:=S) keeps (forkPoint a e).
Proof. unfold forkPoint. step_frame. Qed.
#[local] Hint Resolve keeps_admit keeps_recheck keeps_observeP keeps_appendLifecycle keeps_lastSuspendRef
  keeps_checkResumeHead keeps_forkPoint : frame.

Lemma keeps_suspend uid cursor : frame (S:=S) keeps (suspend p uid cursor).
Proof. unfold suspend, appendLifecycleAt. step_frame. Qed.
Lemma keeps_mintTurnFence l mint : frame (S:=S) keeps mint -> frame (S:=S) keeps (mintTurnFence l mint).
Proof. intros. unfold mintTurnFence. step_frame. Qed.
#[local] Hint Resolve keeps_suspend keeps_mintTurnFence : frame.

(** The mark is taken only when it is free, so lifting it restores the set. *)
Lemma withCheckpoint_frame {A} (R : P -> P -> Prop) uid (body : M P goerr A) :
  (forall s s', R s s' -> same_marks s s') -> (forall s, R s s) ->
  (forall s s' c, R (setCheckpoints c s) s' -> R s (setCheckpoints (ps_checkpoints s) s')) ->
  frame R body -> frame R (withCheckpoint uid body).
Proof.
  intros Hm Hrefl Hc Hb s. unfold withCheckpoint, markCheckpoint, setCheckpointLocked, mbind, M_bind.
  case_bool_decide as Hin; [apply Hrefl|]. unfold finally.
  specialize (Hb (setCheckpoints ({[uid]} ∪ ps_checkpoints s) s)).
  destruct (body _) as [s' r] eqn:E. cbn [fst] in *.
  pose proof (Hm _ _ Hb) as (_ & Hcp & _). cbn in Hcp. unfold endCheckpoint. rewrite Hcp.
  replace (({[uid]} ∪ ps_checkpoints s) ∖ {[uid]}) with (ps_checkpoints s) by set_solver.
  eapply Hc, Hb.
Qed.

Lemma keeps_withCheckpoint {A} uid (body : M P goerr A) : frame (S:=S) keeps body -> frame (S:=S) keeps (withCheckpoint uid body).
Proof.
  apply withCheckpoint_frame; [by intros ? ? [? _]|by intros|].
  intros s s' c [(Hg & _ & Hn) Hl]. by repeat split.
Qed.
Lemma keeps_but_withCheckpoint {A} uid l u (body : M P goerr A) :
  frame (S:=S) (keeps_but uid l) body -> frame (S:=S) (keeps_but uid l) (withCheckpoint u body).
Proof.
  apply withCheckpoint_frame; [by intros ? ? [? _]|by intros|].
  intros s s' c [(Hg & _ & Hn) Hl]. by repeat split.
Qed.
#[local] Hint Resolve keeps_withCheckpoint keeps_but_withCheckpoint : frame.

Lemma releaseHarness_drops uid l (s : P) :
  same_marks s (fst (releaseHarness uid l s)) /\ ps_live (fst (releaseHarness uid l s)) = dropLive uid l (ps_live s).
Proof.
  unfold releaseHarness. set (s1 := setLive (dropLive uid l (ps_live s)) s).
  assert (Hk : frame (S:=S) keeps (do! fenceMinted l in let! err := endConn l (ESentinel ContextCanceled) in check err))
    by step_frame.
  specialize (Hk s1). destruct Hk as [(Hg & Hc & Hn) Hl].
  unfold modify, mbind at 1, M_bind at 1. cbn -[endConn fenceMinted] in *.
  split; [split; [|split]|]; (etransitivity; [first [apply Hg|apply Hc|apply Hn|apply Hl]|done]).
Qed.

Lemma keeps_but_releaseHarness uid l : frame (S:=S) (keeps_but uid l) (releaseHarness uid l).
Proof.
  intros s. destruct (releaseHarness_drops uid l s) as [Hm Hl]. split; [done|]. by rewrite Hl, dropLive_idem.
Qed.
#[local] Hint Resolve keeps_but_releaseHarness : frame.

Lemma keeps_but_handoffPark {A} uid fence ref l onR : frame (S:=S) (keeps_but uid l) (handoffPark (A := A) p uid fence ref l onR).
Proof. unfold handoffPark, closeInvocation. apply keeps_but_withCheckpoint. step_frame. Qed.
#[local] Hint Resolve keeps_but_handoffPark : frame.

Lemma keeps_but_turnFailed {A} uid fence l onR err : frame (S:=S) (keeps_but uid l) (turnFailed (A := A) p uid fence l onR err).
Proof. unfold turnFailed. step_frame. Qed.
#[local] Hint Resolve keeps_but_turnFailed : frame.

Lemma keeps_resumeFence uid e : frame (S:=S) keeps (resumeFence uid e).
Proof. unfold resumeFence. destruct e; [apply keeps_withCheckpoint|]; step_frame. Qed.
#[local] Hint Resolve keeps_resumeFence : frame.

Lemma keeps_but_execOn cfg uid inputs expected inc l har :
  frame (S:=S) (keeps_but uid l) (execOn p cfg uid inputs expected inc l har).
Proof. unfold execOn. step_frame. Qed.
Lemma keeps_but_resumeOn cfg uid l har : frame (S:=S) (keeps_but uid l) (resumeOn p cfg uid l har).
Proof. unfold resumeOn. step_frame. Qed.
Lemma keeps_resumeApproval uid state cfg : frame (S:=S) keeps (resumeApproval p uid state cfg).
Proof. unfold resumeApproval. step_frame. Qed.
#[local] Hint Resolve keeps_resumeApproval : frame.

(** The connections of a session are recorded once and by pointers already handed out. *)
Definition live_wf (s : P) : Prop := forall uid X, ps_live s !! uid = Some X ->
  X <> ∅ /\ forall l, l ∈ X -> (l < ps_next s)%nat.

(** [m] opens a connection of [uid], or leaves everything as it was. *)
Definition opens {E} (uid : string) (m : M P E nat) : Prop := forall s, let '(s', r) := m s in
  ps_guard s' = ps_guard s /\ ps_checkpoints s' = ps_checkpoints s /\
  match r with
  | Ok l => l = ps_next s /\ ps_live s' = <[uid := {[l]} ∪ liveOf uid s]> (ps_live s)
  | Err _ => ps_live s' = ps_live s
  end.

Lemma openHarness_opens uid inc : opens uid (openHarness p uid inc).
Proof.
  intros s. unfold openHarness, called, tickP, onWorldP, tick, lift, gets, modify, mbind, M_bind. cbn [fst snd ps_next ps_world].
  destruct (p_dial p _ inc) as [[har cl]|e]; cbn; [|done].
  case_bool_decide; [|done].
  match goal with |- context [endConn ?l ?c ?st] => pose proof (keeps_endConn l c st) as [(Hg & Hc & _) Hl]; destruct (endConn l c st) as [s' [|]] end;
    cbn in *; by rewrite Hg, Hc, Hl.
Qed.

Lemma beside_opens {V} (v : V) uid m : opens uid m -> opens uid (beside v m).
Proof. intros Hm s. unfold beside. specialize (Hm s). by destruct (m s) as [s' []]. Qed.

(** Opening a connection, running a turn on it and releasing it. *)
Lemma turn_keeps {E A} uid (open : M P E nat) (turn : nat -> Harness -> M P E A) (s : P) : live_wf s -> opens uid open ->
  (forall l har, frame (S:=S) (keeps_but uid l) (turn l har)) ->
  let m := let! l := open in let! har := gets (harnessOf l) in finally (turn l har) (releaseQuietly uid l) in
  let s' := fst (m s) in
  ps_guard s' = ps_guard s /\ ps_checkpoints s' = ps_checkpoints s /\ ps_live s' = ps_live s.
Proof.
  intros Hwf Ho Ht. cbn. unfold mbind, M_bind. specialize (Ho s).
  destruct (open s) as [s1 [l|e]]; [|tauto].
  destruct Ho as (Hg & Hc & -> & Hl). unfold gets, finally, releaseQuietly.
  specialize (Ht (ps_next s) (harnessOf (ps_next s) s1) s1).
  destruct (turn _ _ s1) as [s2 r]. destruct Ht as [(Hg2 & Hc2 & _) Hl2]. cbn [fst] in *.
  destruct (releaseHarness_drops uid (ps_next s) s2) as [(Hg3 & Hc3 & _) Hl3].
  rewrite Hg3, Hg2, Hg, Hc3, Hc2, Hc, Hl3, Hl2, Hl. split; [done|]. split; [done|].
  unfold dropLive, liveOf. rewrite lookup_insert_eq. cbn [from_option id]. destruct (ps_live s !! uid) as [X|] eqn:EX.
  - destruct (Hwf uid X EX) as [Hne Hlt]. cbn [from_option id].
    assert (HX : ({[ps_next s]} ∪ X) ∖ {[ps_next s]} = X).
    { assert (ps_next s ∉ X) by (intros Hin; apply Hlt in Hin; lia). set_solver. }
    rewrite HX, decide_False by done. by rewrite insert_insert_eq, insert_id.
  - cbn [from_option id]. replace (({[ps_next s]} ∪ ∅) ∖ {[ps_next s]}) with (∅ : gset nat) by set_solver.
    rewrite decide_True by done. by rewrite delete_insert_eq, delete_id.
Qed.

(** An operation gave back what it took. *)
Definition restored (s s' : P) : Prop :=
  (forall u, entryOf (ps_guard s') u = entryOf (ps_guard s) u) /\
  ps_live s' = ps_live s /\ ps_checkpoints s' = ps_checkpoints s.


(** [gives m]: run with the guard already held, [m] leaves everything as it was. *)
Definition gives {E A} (m : M P E A) : Prop := forall s, live_wf s -> let s' := fst (m s) in
  ps_guard s' = ps_guard s /\ ps_checkpoints s' = ps_checkpoints s /\ ps_live s' = ps_live s.

Lemma gives_keeps {E A} (m : M P E A) : frame (S:=S) keeps m -> gives m.
Proof. intros Hm s _. by destruct (Hm s) as [(?&?&?) ?]. Qed.

Lemma gives_bind {E A B} (m : M P E A) (f : A -> M P E B) :
  frame (S:=S) keeps m -> (forall a, gives (f a)) -> gives (mbind f m).
Proof.
  intros Hm Hf s Hwf. cbn. unfold mbind, M_bind. specialize (Hm s). destruct (m s) as [s1 [a|e]]; cbn [fst] in *.
  - destruct Hm as [(K1 & K2 & K3) K4]. destruct (Hf a s1) as (H4 & H5 & H6); [|intuition congruence].
    intros uid X. rewrite K3, K4. apply Hwf.
  - by destruct Hm as [(?&?&?) ?].
Qed.

Lemma withGuard_restores {E A} (busy : goerr -> E) uid kind (body : M P E A) (s : P) hs :
  guard_inv (ps_guard s, hs) -> live_wf s -> gives body -> restored s (fst (withGuard busy uid kind body s)).
Proof.
  intros Hi Hwf Hb. unfold withGuard. destruct (acquire uid kind (ps_guard s)) as [g [h|e]] eqn:Ea; cbn [fst].
  - specialize (Hb (setGuardP g s) Hwf). unfold finally.
    destruct (body _) as [s' r]. cbn [fst] in *. destruct Hb as (Hg & Hc & Hl).
    split; [|split]; cbn; [|done..]. rewrite Hg. cbn. by apply (acquire_release uid kind _ hs).
  - apply (refused_entryOf _ _ _ hs) in Ea; [|done]. subst. by repeat split.
Qed.

Ltac step_gives :=
  repeat first
    [ progress intros
    | apply gives_bind; [solve [step_frame]|]
    | case_match
    | apply gives_keeps; solve [step_frame] ].

Lemma gives_Suspend uid : gives (withCheckpoint uid (suspend p uid None)).
Proof. apply gives_keeps, keeps_withCheckpoint, keeps_suspend. Qed.

Lemma gives_resume cfg uid : gives (resume p cfg uid).
Proof.
  unfold resume. step_gives.
  all: intros s Hwf; apply turn_keeps; [done|apply openHarness_opens|intros; apply keeps_but_resumeOn].
Qed.

Lemma gives_exec cfg uid inputs expected :
  gives (do! beside zeroIncarnation (onStore st_CheckWritable) in
    let! state := beside zeroIncarnation (onStore (InspectApproval 0)) in
    if ownedOpen state then throw (zeroIncarnation, ESentinel ErrApprovalBlocked)
    else
      do! beside zeroIncarnation (placer_admit p) in
      do! beside zeroIncarnation (refuseDuringCheckpoint uid) in
      let! t := beside zeroIncarnation (called (CallCreate uid)) in
      let '(inc, err) := b_Create (p_backend p) t uid in
      do! beside inc (check err) in
      let! l := beside inc (openHarness p uid inc) in
      let! har := gets (harnessOf l) in
      finally (execOn p cfg uid inputs expected inc l har) (releaseQuietly uid l)).
Proof.
  step_gives.
  all: intros s Hwf; apply turn_keeps; [done|apply beside_opens, openHarness_opens|intros; apply keeps_but_execOn].
Qed.

(** ** Forks *)

Context {C : Type} `{!Store C}.

Lemma keeps_rollbackFork children : frame (S:=S) keeps (rollbackFork children).
Proof. induction children; cbn; unfold stopOrphan; step_frame. Qed.

Lemma keeps_forkLoop ref atSeq (todo : list (ForkChild (C := C))) : forall (s : P), keeps s (fst (forkLoop p ref atSeq todo s)).
Proof.
  induction todo as [|c cs IH]; intros s; cbn [forkLoop]; [reflexivity|].
  assert (Hf : frame (S:=S) keeps (let! t := called (CallFork ref (child_UID c)) in
      lift (b_Fork (p_backend p) t ref (child_UID c)))) by step_frame.
  specialize (Hf s). match type of Hf with keeps s (fst ?x) => destruct x as [s1 [i|e]] end; cbn [fst] in *; [|done].
  assert (Hl : keeps s1 (fst (fst (forkLog atSeq c s1)))).
  { unfold forkLog. destruct (Fork _ _) as [[??] ?]. repeat split. }
  destruct (forkLog atSeq c s1) as [[s2 c2] [[]|e]]; cbn [fst] in *; [|by etransitivity].
  specialize (IH s2). destruct (forkLoop _ _ _ _ s2). cbn [fst] in *. etransitivity; [exact Hf|]. by etransitivity.
Qed.

(** A fork source either keeps everything, or has set the mark, which was free. *)
Lemma forkSource_marks uid atSeq (s : P) : let '(s', r) := forkSource p uid atSeq s in
  ps_guard s' = ps_guard s /\ ps_live s' = ps_live s /\
  match r with
  | Ok (_, true) => uid ∉ ps_checkpoints s /\ ps_checkpoints s' = {[uid]} ∪ ps_checkpoints s
  | _ => ps_checkpoints s' = ps_checkpoints s
  end.
Proof.
  unfold forkSource. unfold mbind at 1, M_bind at 1.
  pose proof (keeps_admit s) as [(Hg & Hc & _) Hl]. destruct (placer_admit p s) as [s1 [desc|e]]; cbn [fst] in *; [|done].
  destruct (negb _); [done|]. unfold mbind at 1, M_bind at 1.
  match goal with |- context [forkPoint ?a ?e s1] => pose proof (keeps_forkPoint a e s1) as [(Hg2 & Hc2 & _) Hl2]; destruct (forkPoint a e s1) as [s2 [|e2]] end;
    cbn [fst] in *; [|intuition congruence].
  unfold mbind at 1, M_bind at 1. unfold beginCheckpoint, setCheckpointLocked. unfold mbind at 1 2 3, M_bind at 1 2 3.
  case_bool_decide as Hin; [intuition congruence|]. unfold gets, modify, mret, M_ret.
  set (open := elements _). set (s3 := foldr _ _ open).
  assert (H3 : ps_guard s3 = ps_guard s2 /\ ps_live s3 = ps_live s2 /\ ps_checkpoints s3 = {[uid]} ∪ ps_checkpoints s2).
  { unfold s3. clear s3. induction open; cbn; [done|exact IHopen]. }
  clearbody s3 open. destruct H3 as (Hg3 & Hl3 & Hc3).
  unfold mbind at 1, M_bind at 1. unfold releaseOnError.
  assert (Hk : frame (S:=S) keeps (forkCheckpoint p uid atSeq open)) by (unfold forkCheckpoint, appendLifecycleAt; step_frame).
  specialize (Hk s3) as [(Hg4 & Hc4 & _) Hl4].
  destruct (forkCheckpoint p uid atSeq open s3) as [s4 [ref|e4]]; cbn in *.
  - rewrite Hg4, Hg3, Hl4, Hl3, Hc4, Hc3. rewrite Hc2, Hc in *. intuition congruence.
  - rewrite Hg4, Hg3, Hl4, Hl3, Hc4, Hc3. split; [congruence|]. split; [congruence|].
    replace (({[uid]} ∪ ps_checkpoints s2) ∖ {[uid]}) with (ps_checkpoints s2) by set_solver. congruence.
Qed.

Lemma forkChildren_marks uid marked ref atSeq (children : list (ForkChild (C := C))) (s : P) :
  let s' := fst (forkChildren p uid marked ref atSeq children s) in
  ps_guard s' = ps_guard s /\ ps_live s' = ps_live s /\
  ps_checkpoints s' = if (marked : bool) then ps_checkpoints s ∖ {[uid]} else ps_checkpoints s.
Proof.
  cbn. unfold forkChildren. pose proof (keeps_forkLoop ref atSeq children s) as [(Hg & Hc & _) Hl].
  destruct (forkLoop _ _ _ _ _) as [s1 run]. cbn [fst] in *.
  set (s2 := if marked then endCheckpoint uid s1 else s1).
  assert (Hs2 : ps_guard s2 = ps_guard s /\ ps_live s2 = ps_live s /\
    ps_checkpoints s2 = if marked then ps_checkpoints s ∖ {[uid]} else ps_checkpoints s).
  { unfold s2. destruct marked; cbn; rewrite ?Hc; done. }
  clearbody s2. destruct (fr_err run); [|done].
  pose proof (keeps_rollbackFork (fr_created run) s2) as [(Hg3 & Hc3 & _) Hl3]. cbn [fst]. intuition congruence.
Qed.

Lemma placer_Fork_restores uid (children : list (ForkChild (C := C))) atSeq (s : P) hs :
  guard_inv (ps_guard s, hs) -> restored s (fst (placer_Fork p uid children atSeq s)).
Proof.
  intros Hi. unfold placer_Fork. destruct (acquire uid guardRead (ps_guard s)) as [g [h|e]] eqn:Ea.
  2:{ apply (refused_entryOf _ _ _ hs) in Ea; [|done]. subst. by repeat split. }
  assert (Hdone : forall s1, ps_guard s1 = g -> ps_checkpoints s1 = ps_checkpoints s -> ps_live s1 = ps_live s ->
    restored s (setGuardP (releaseHold h (ps_guard s1)) s1)).
  { intros s1 -> Hc Hl. split; [|split; done]. cbn. by apply (acquire_release uid guardRead _ hs). }
  pose proof (keeps_onStore st_CheckWritable (setGuardP g s)) as [(Hg & Hc & _) Hl].
  cbn [setGuardP ps_guard ps_checkpoints ps_live] in Hg, Hc, Hl.
  destruct (onStore _ _) as [s1 [|e]]; cbn [fst] in *; [|by apply Hdone].
  destruct (forkPreflight children) as [children' [e|]]; [by apply Hdone|].
  pose proof (forkSource_marks uid atSeq s1) as Hs. destruct (forkSource p uid atSeq s1) as [s2 [[ref marked]|e]].
  - pose proof (forkChildren_marks uid marked ref atSeq children' s2) as (Hg3 & Hl3 & Hc3).
    destruct (forkChildren _ _ _ _ _ _ _) as [s3 out]. cbn [fst] in *.
    destruct Hs as (Hg2 & Hl2 & Hm). apply Hdone; [congruence| |congruence].
    rewrite Hc3. destruct marked; [|congruence]. destruct Hm as [Hn ->]. rewrite Hc in *. cbn in *. set_solver.
  - destruct Hs as (Hg2 & Hl2 & Hm). apply Hdone; congruence.
Qed.
End Ops.

(** ** An example: the echo agent on a runtime without memory snapshots *)

Definition exampleIncarnation (id : string) : Incarnation := mkIncarnation id "w" "unix:///run/echo" "pod" 0 [].
Definition exampleBackend : Backend := {|
  b_Create := fun _ uid => (exampleIncarnation uid, None);
  b_Snapshot := fun _ uid => Ok (mkSnapshotRef uid "" false false);
  b_Restore := fun _ ref => Ok (exampleIncarnation (snap_Local ref));
  b_Fork := fun _ _ child => Ok (exampleIncarnation child);
  b_Stop := fun _ _ => None;
  b_Capabilities := mkRuntimeCapabilities false false false false;
  b_Describe := fun _ => Ok echoDescriptor;
  b_describesLive := true;
|}.
Definition examplePlacementHost : PlacementHost := {| statusCode := fun _ => 2; describeExpired := fun _ => false |}.
Definition examplePlacer : Placer :=
  mkPlacer exampleBackend (fun _ req => Ok (echoModel req)) None None (fun _ _ => Ok (echoHarness, fun _ => None)) "echo".
Definition placerState (w : World Log) : PState Log := mkPState w newSessionGuard ∅ 0 ∅ ∅ [].
Definition exampleExecConfig : execConfig := mkExecConfig "" true false None 0.
Definition exampleResumeConfig : resumeConfig := mkResumeConfig "" true false None.

Definition exampleExec : PState Log * result (Incarnation * goerr) Incarnation :=
  placer_Exec (H := exampleHost) (H1 := examplePlacementHost) (H2 := @Log_Store exampleEncoding)
    examplePlacer exampleExecConfig "uid" [TextMessage "user" "hi"] 0 (placerState freshWorld).

Example exampleExec_runs :
  snd exampleExec = Ok (setFenceToken 2 (exampleIncarnation "uid")) /\
  length (records (w_log (ps_world (fst exampleExec)))) = 5%nat /\
  ps_calls (fst exampleExec) = [CallDescribe; CallCreate "uid"; CallDial "uid"; CallVerify; CallClose].
Proof. vm_compute. repeat split. Qed.

(** ** Property *)

(** C29: Every placer operation gives back what it took: whatever the journal, the runtime, the harness,
    the model and the tools answer, after [Exec], [Resume], [Suspend] and [Fork] the session guard
    says of every session what it said before, and the open connections and checkpoint marks are those
    from before. *)
Theorem placer_restores `{Host} `{Encoding} `{PlacementHost} {S C : Type} `{Store S} `{!Store C}
    (p : Placer) (s : PState S) hs uid cfg rcfg inputs expected (children : list (ForkChild (C := C))) atSeq :
  guard_inv (ps_guard s, hs) -> live_wf s ->
  restored s (fst (placer_Exec p cfg uid inputs expected s)) /\
  restored s (fst (placer_Resume p rcfg uid s)) /\
  restored s (fst (placer_Suspend p uid s)) /\
  restored s (fst (placer_Fork p uid children atSeq s)).
Proof.
  intros Hi Hwf. split; [|split; [|split]].
  - apply (withGuard_restores _ _ _ _ _ hs Hi Hwf), gives_exec.
  - apply (withGuard_restores _ _ _ _ _ hs Hi Hwf), gives_resume.
  - apply (withGuard_restores _ _ _ _ _ hs Hi Hwf), gives_Suspend.
  - by apply (placer_Fork_restores p uid children atSeq s hs).
Qed.

Lemma placer_restores_witness :
  restored (placerState freshWorld) (fst exampleExec) /\
  restored (placerState echoWorld) (fst (placer_Fork (H := exampleHost) (H1 := examplePlacementHost)
    (H2 := @Log_Store exampleEncoding) (Store0 := @Log_Store exampleEncoding) examplePlacer "uid" [mkForkChild "c" New] 5
    (placerState echoWorld))).
Proof.
  assert (Hw : forall w, live_wf (placerState w)) by (intros w uid X; cbn; by rewrite lookup_empty).
  assert (Hg : guard_inv (newSessionGuard, [])) by apply (reachable_inv _ guard_init).
  split.
  - apply (placer_restores (H := exampleHost) (H0 := exampleEncoding) (H1 := examplePlacementHost)
      (H2 := @Log_Store exampleEncoding) (Store0 := @Log_Store exampleEncoding) examplePlacer (placerState freshWorld) []
      "uid" exampleExecConfig exampleResumeConfig [TextMessage "user" "hi"] 0 [] 0 Hg (Hw _)).
  - apply (placer_restores (H := exampleHost) (H0 := exampleEncoding) (H1 := examplePlacementHost)
      (H2 := @Log_Store exampleEncoding) (Store0 := @Log_Store exampleEncoding) examplePlacer (placerState echoWorld) []
      "uid" exampleExecConfig exampleResumeConfig [] 0 [mkForkChild "c" New] 5 Hg (Hw _)).
Defined.
