(* ===== verification/Gates.v ===== *)
(** * Nothing before the gate (placement/placement.go, Exec and Resume)

    An execution that is refused has not provisioned compute and not written to the log; a recovery
    of a session that waits for a decision does neither. The
    second part is the handoff of a turn that parks. *)
From S2P Require Import Prelude GoErrors Api Canon EventLog Executions Approvals Harness Sinks Controller Agents Parking SessionGuard Placement Admission.

Section Gates.
Context `{Host} `{Encoding} `{PlacementHost} {S : Type} `{StoreLaws S}.
Abbreviation P := (PState S).

Definition logOf (s : P) : S := w_log (ps_world s).

(** The journal and the fence are the same. *)
Definition sameLog (s s' : P) : Prop := journal (logOf s') = journal (logOf s) /\ curFence (logOf s') = curFence (logOf s).
(** What the runtime was asked for in between, if anything, satisfies [Q]. *)
Definition asks (Q : RuntimeCall -> Prop) (s s' : P) : Prop := exists new, ps_calls s' = ps_calls s ++ new /\ Forall Q new.

#[export] Instance sameLog_preorder : PreOrder sameLog.
Proof. unfold sameLog. split; [by intros s|]. intros a b c [] []. intuition congruence. Qed.
#[export] Instance asks_preorder Q : PreOrder (asks Q).
Proof.
  split; [intros s; exists []; rewrite app_nil_r; split; [done|constructor]|].
  intros a b c (n1 & H1' & F1) (n2 & H2' & F2). exists (n1 ++ n2).
  rewrite H2', H1', app_assoc. split; [done|]. by apply Forall_app_2.
Qed.

(** ** Frames *)

(** The requests a turn makes on an open connection. *)
Definition neutral (Q : RuntimeCall -> Prop) : Prop := Q CallVerify /\ Q CallClose /\ forall id, Q (CallSnapshot id).

Section Asks.
Variable Q : RuntimeCall -> Prop.
Hypothesis HQ : neutral Q.

Lemma neutral_verify : Q CallVerify.
Proof. apply HQ. Qed.
Lemma neutral_close : Q CallClose.
Proof. apply HQ. Qed.
Lemma neutral_snapshot id : Q (CallSnapshot id).
Proof. apply HQ. Qed.
#[local] Hint Resolve neutral_verify neutral_close neutral_snapshot : frame.

Lemma asks_onWorldP {E A} (m : M (World S) E A) : frame (asks Q) (onWorldP m).
Proof. intros s. unfold onWorldP. destruct (m (ps_world s)). exists []. rewrite app_nil_r. split; [done|constructor]. Qed.
Lemma asks_called c : Q c -> frame (asks Q) (called c).
Proof. intros Hc s. exists [c]. unfold called, tickP, onWorldP. destruct (tick _). split; [done|by repeat constructor]. Qed.
Lemma asks_modify (f : P -> P) : (forall s, ps_calls (f s) = ps_calls s) -> frame (E := goerr) (asks Q) (modify f).
Proof. intros Hf s. exists []. cbn. rewrite Hf, app_nil_r. split; [done|constructor]. Qed.
#[local] Hint Resolve asks_onWorldP asks_called : frame.

Lemma asks_updConn l f : frame (E := goerr) (asks Q) (modify (updConn (S := S) l f)).
Proof. by apply asks_modify. Qed.
Lemma asks_tickP : frame (asks Q) tickP.
Proof. apply asks_onWorldP. Qed.
Lemma asks_onStore {A} (m : M S goerr A) : frame (asks Q) (onStore m).
Proof. apply asks_onWorldP. Qed.
#[local] Hint Resolve asks_updConn asks_tickP asks_onStore : frame.

Lemma asks_endConn l cause : frame (S := S) (asks Q) (endConn l cause).
Proof. unfold endConn. step_frame. Qed.
Lemma asks_connErr l : frame (S := S) (asks Q) (connErr l).
Proof. unfold connErr. step_frame. Qed.
Lemma asks_connCause l : frame (S := S) (asks Q) (connCause l).
Proof. unfold connCause. step_frame. Qed.
#[local] Hint Resolve asks_endConn asks_connErr asks_connCause : frame.
Lemma asks_checkSuperseded l : frame (S := S) (asks Q) (checkSuperseded l).
Proof. unfold checkSuperseded. step_frame. Qed.
Lemma asks_fenceMinted l : frame (S := S) (asks Q) (fenceMinted l).
Proof. apply asks_updConn. Qed.
#[local] Hint Resolve asks_checkSuperseded asks_fenceMinted : frame.
Lemma asks_releaseHarness uid l : frame (S := S) (asks Q) (releaseHarness uid l).
Proof.
  unfold releaseHarness. apply frame_bind; [typeclasses eauto|by apply asks_modify|]. step_frame.
Qed.
#[local] Hint Resolve asks_releaseHarness : frame.

Lemma asks_withCheckpoint {A} uid (body : M P goerr A) : frame (asks Q) body -> frame (asks Q) (withCheckpoint uid body).
Proof.
  intros Hb s. unfold withCheckpoint, markCheckpoint, setCheckpointLocked, mbind, M_bind, finally.
  case_bool_decide; [reflexivity|]. specialize (Hb (setCheckpoints ({[uid]} ∪ ps_checkpoints s) s)).
  destruct (body _). exact Hb.
Qed.
#[local] Hint Resolve asks_withCheckpoint : frame.

Variable p : Placer.

Lemma asks_recheck l har : frame (S := S) (asks Q) (recheck p l har).
Proof. unfold recheck. step_frame. Qed.
Lemma asks_suspend uid cursor : frame (S := S) (asks Q) (suspend p uid cursor).
Proof. unfold suspend, observeP, appendLifecycle, appendLifecycleAt. step_frame. Qed.
#[local] Hint Resolve asks_recheck asks_suspend : frame.
Lemma asks_turnFailed {A} uid fence l onR err : frame (S := S) (asks Q) (turnFailed (A := A) p uid fence l onR err).
Proof.
  unfold turnFailed. destruct (parkOf err); [|step_frame].
  unfold handoffPark, closeInvocation. apply asks_withCheckpoint. step_frame.
Qed.
#[local] Hint Resolve asks_turnFailed : frame.
Lemma asks_resumeFence uid e : frame (S := S) (asks Q) (resumeFence uid e).
Proof. unfold resumeFence, checkResumeHead. destruct e; [apply asks_withCheckpoint|]; step_frame. Qed.
#[local] Hint Resolve asks_resumeFence : frame.
Lemma asks_openHarness uid inc : Q (CallDial (inc_ID inc)) -> frame (S := S) (asks Q) (openHarness p uid inc).
Proof.
  intros Hd. unfold openHarness. apply frame_bind; [typeclasses eauto|by apply asks_called|intros t].
  apply frame_bind; [typeclasses eauto|apply frame_lift; typeclasses eauto|intros hc].
  apply frame_bind; [typeclasses eauto|apply frame_gets; typeclasses eauto|intros l].
  apply frame_bind; [typeclasses eauto|by apply asks_modify|intros _].
  apply frame_bind; [typeclasses eauto|apply frame_gets; typeclasses eauto|intros []]; [step_frame|].
  apply frame_bind; [typeclasses eauto|by apply asks_modify|step_frame].
Qed.
Lemma asks_resumeOn cfg uid l har : frame (S := S) (asks Q) (resumeOn p cfg uid l har).
Proof. unfold resumeOn, mintTurnFence, observeP. step_frame. Qed.
Lemma asks_execOn cfg uid inputs expected inc l har : frame (S := S) (asks Q) (execOn p cfg uid inputs expected inc l har).
Proof. unfold execOn, mintTurnFence. step_frame. Qed.
End Asks.

Lemma neutral_true : neutral (fun _ => True).
Proof. done. Qed.
#[local] Hint Resolve neutral_true asks_onWorldP asks_updConn asks_tickP asks_onStore asks_checkSuperseded
  asks_fenceMinted asks_turnFailed asks_resumeOn asks_resumeFence : frame.

Variable p : Placer.

(** ** Exact effects of the steps before a turn *)

Lemma called_run c (s : P) : exists s', called c s = (s', Ok (w_tick (ps_world s))) /\ sameLog s s' /\
  ps_calls s' = ps_calls s ++ [c] /\ ps_checkpoints s' = ps_checkpoints s.
Proof. eexists. split; [reflexivity|]. repeat split. Qed.

Lemma onStore_run {A} (m : M S goerr A) (s s' : P) r : onStore m s = (s', r) ->
  exists l', m (logOf s) = (l', r) /\ logOf s' = l' /\ ps_calls s' = ps_calls s /\ ps_checkpoints s' = ps_checkpoints s.
Proof.
  unfold onStore, onWorldP, onLog. unfold logOf. destruct (m (w_log (ps_world s))) as [l' r'] eqn:E.
  intros [= <- <-]. by exists l'.
Qed.

Lemma writable_run (s s' : P) r : onStore st_CheckWritable s = (s', r) ->
  sameLog s s' /\ ps_calls s' = ps_calls s /\ ps_checkpoints s' = ps_checkpoints s.
Proof.
  intros (l' & Hm & Hl & Hc & Hk)%onStore_run. apply writable_law in Hm as [? ?]. unfold sameLog. by rewrite Hl.
Qed.

Lemma sameLog_called c : frame (S := S) sameLog (called c).
Proof. intros s. by destruct (called_run c s) as (s' & -> & ? & _). Qed.
Lemma sameLog_updConn l f : frame (S := S) (E := goerr) sameLog (modify (updConn l f)).
Proof. intros s. by repeat split. Qed.
#[local] Hint Resolve sameLog_called sameLog_updConn : frame.
Lemma sameLog_endConn l cause : frame (S := S) sameLog (endConn l cause).
Proof. unfold endConn. step_frame. Qed.

(** [InspectApproval] reads the journal and nothing else. *)
Lemma inspect_run (s s' : P) r : onStore (InspectApproval 0) s = (s', r) ->
  sameLog s s' /\ ps_calls s' = ps_calls s /\ ps_checkpoints s' = ps_checkpoints s /\
  forall state, r = Ok state -> exists scan,
    scanApprovalRecords (readFrom 1 (journal (logOf s))) 0 = Ok scan /\ state = selectedState scan.
Proof.
  intros (l' & Hm & Hl & Hc & Hk)%onStore_run. unfold InspectApproval, scanApprovals in Hm.
  unfold sameLog. rewrite Hl. clear Hl.
  cbn in Hm. unfold mbind, M_bind in Hm.
  destruct (st_Read 1 (logOf s)) as [s1 rs] eqn:Er. apply read_law in Er as (Hj & Hf & Hr).
  destruct rs as [rs|e]; [|injection Hm as <- <-; repeat split; done].
  subst rs. unfold lift in Hm. destruct (scanApprovalRecords _ _) as [scan|e]; injection Hm as <- <-;
    (split; [done|]; split; [done|]; split; [done|]); [|done].
  intros state [= <-]. by exists scan.
Qed.

Lemma admit_run (s : P) : exists s', placer_admit p s = (s', gateOn p (ctxErr (w_tick (ps_world s))) (w_tick (ps_world s))
    (b_Describe (p_backend p) (w_tick (ps_world s)))) /\
  sameLog s s' /\ ps_calls s' = ps_calls s ++ [CallDescribe] /\ ps_checkpoints s' = ps_checkpoints s.
Proof. eexists. split; [reflexivity|]. repeat split. Qed.

Lemma openHarness_run uid inc (s s' : P) r : openHarness p uid inc s = (s', r) ->
  sameLog s s' /\ (exists rest, ps_calls s' = ps_calls s ++ CallDial (inc_ID inc) :: rest /\
    match r with Ok l => rest = [] /\ exists t cl har, p_dial p t inc = Ok (har, cl) /\ harnessOf l s' = har | Err _ => True end).
Proof.
  unfold openHarness. destruct (called_run (CallDial (inc_ID inc)) s) as (s1 & Hc & Hl1 & Hc1 & _).
  unfold mbind at 1, M_bind at 1. rewrite Hc. unfold lift, gets, modify, mbind, M_bind.
  destruct (p_dial p _ inc) as [[har cl]|e] eqn:Ed; cbn [fst snd].
  2:{ intros [= <- <-]. split; [done|]. exists []. by rewrite Hc1. }
  cbn [ps_checkpoints].
  case_bool_decide.
  - match goal with |- context [endConn ?l ?c ?st] => pose proof (asks_endConn (fun _ => True) neutral_true l c st) as (n & Hn & _); pose proof (sameLog_endConn l c st) as Hle;
      destruct (endConn l c st) as [s2 [|]] end; cbn [fst ps_calls] in *.
    all: intros [= <- <-]; split; [by etransitivity; [exact Hl1|]|]; exists n; by rewrite Hn, Hc1, <- app_assoc.
  - intros [= <- <-]. split; [exact Hl1|]. exists []. split; [exact Hc1|]. split; [done|].
    eexists _, cl, har. split; [done|]. unfold harnessOf. cbn. by rewrite lookup_insert_eq.
Qed.

(** ** Exec *)

(** What an execution has done when it ends, seen from the state it began in. *)
Definition exec_gated (uid : string) (s s' : P) : Prop := exists new, ps_calls s' = ps_calls s ++ new /\
  ((new = [] \/ new = [CallDescribe]) /\ sameLog s s'
   \/ exists t desc rest, new = CallDescribe :: CallCreate uid :: rest /\
      gateOn p (ctxErr t) t (b_Describe (p_backend p) t) = Ok desc /\
      uid ∉ ps_checkpoints s /\
      (forall scan, scanApprovalRecords (readFrom 1 (journal (logOf s))) 0 = Ok scan -> blockedByApproval scan = false) /\
      (sameLog s s' \/ exists inc td har cl rest', p_dial p td inc = Ok (har, cl) /\ rest = CallDial (inc_ID inc) :: rest' /\
        (b_describesLive (p_backend p) = true -> exists tv c d rest'',
           rest' = CallVerify :: rest'' /\ gateOn p c tv (Describe har tv) = Ok d))).

(** The connection check of a live describer: refused, it has written nothing. *)
Lemma recheck_run l har (s s' : P) r : recheck p l har s = (s', r) ->
  sameLog s s' /\
  (b_describesLive (p_backend p) = false /\ s' = s /\ r = Ok tt \/
   exists tv c, ps_calls s' = ps_calls s ++ [CallVerify] /\
     match r with Ok _ => exists d, gateOn p c tv (Describe har tv) = Ok d | Err _ => True end).
Proof.
  intros Hr. unfold recheck in Hr. destruct (b_describesLive (p_backend p)); cbn [negb] in Hr.
  2:{ injection Hr as <- <-. split; [reflexivity|]. by left. }
  destruct (called_run CallVerify s) as (s1 & Hc & Hl1 & Hc1 & _).
  unfold mbind at 1, M_bind at 1 in Hr. rewrite Hc in Hr.
  set (tv := w_tick (ps_world s)) in *.
  assert (He : exists c s2, connErr l s1 = (s2, Ok c) /\ sameLog s1 s2 /\ ps_calls s2 = ps_calls s1)
    by (eexists _, _; split; [reflexivity|]; by repeat split).
  destruct He as (c & s2 & Hce & Hl2 & Hc2). unfold mbind at 1, M_bind at 1 in Hr. rewrite Hce in Hr.
  destruct (gateOn p c tv (Describe har tv)) as [d|e] eqn:Eg.
  - injection Hr as <- <-. split; [by etransitivity|]. right. exists tv, c. split; [by rewrite Hc2|]. by exists d.
  - assert (He : exists c' s3, connCause l s2 = (s3, Ok c') /\ sameLog s2 s3 /\ ps_calls s3 = ps_calls s2)
      by (eexists _, _; split; [reflexivity|]; by repeat split).
    destruct He as (c' & s3 & Hcc & Hl3 & Hc3). unfold mbind, M_bind in Hr. rewrite Hcc in Hr.
    assert (s' = s3 /\ exists x, r = Err x) as [-> [x ->]].
    { destruct c' as [c'|]; [destruct (is_superseded c')|]; injection Hr as <- <-; split; eauto. }
    split; [etransitivity; [exact Hl1|]; by etransitivity|]. right. exists tv, c. split; [congruence|done].
Qed.

(** A turn on its connection: nothing is written before the connection is checked. *)
Lemma execOn_gated cfg uid inputs expected inc l har (s s' : P) r : execOn p cfg uid inputs expected inc l har s = (s', r) ->
  exists rest, ps_calls s' = ps_calls s ++ rest /\
  (sameLog s s' \/ (b_describesLive (p_backend p) = true -> exists tv c d rest'',
     rest = CallVerify :: rest'' /\ gateOn p c tv (Describe har tv) = Ok d)).
Proof.
  intros Hr. unfold execOn in Hr. unfold mbind at 1, M_bind at 1, beside at 1 in Hr.
  destruct (recheck p l har s) as [s1 [[]|e]] eqn:Er; apply recheck_run in Er as [Hl1 Hv].
  2:{ injection Hr as <- <-. destruct Hv as [(_ & -> & ?)|(tv & c & Hc & _)]; [done|]. eauto. }
  match type of Hr with ?m s1 = _ => assert (Hx : frame (asks (fun _ => True)) m) end.
  { unfold mintTurnFence. step_frame. }
  specialize (Hx s1) as (n & Hn & _). rewrite Hr in Hn. cbn in Hn.
  destruct Hv as [(Hb & -> & _)|(tv & c & Hc & d & Hg)].
  - exists n. split; [done|]. right. congruence.
  - exists (CallVerify :: n). split; [by rewrite Hn, Hc, <- app_assoc|]. right. intros _. eauto 8.
Qed.

Lemma releaseQuietly_same uid l (s : P) : sameLog s (releaseQuietly uid l s).
Proof.
  unfold releaseQuietly. assert (Hf : frame (S := S) sameLog (releaseHarness uid l)); [|apply Hf].
  unfold releaseHarness, fenceMinted. apply frame_bind; [typeclasses eauto|intros s1; by repeat split|].
  intros _. apply frame_bind; [typeclasses eauto|apply sameLog_updConn|]. intros _.
  apply frame_bind; [typeclasses eauto|apply sameLog_endConn|]. intros. apply frame_check. typeclasses eauto.
Qed.

Lemma gated_refused uid (s s' : P) new : ps_calls s' = ps_calls s ++ new -> (new = [] \/ new = [CallDescribe]) ->
  sameLog s s' -> exec_gated uid s s'.
Proof. intros Hc Hn Hl. exists new. split; [done|]. by left. Qed.

Lemma exec_body_gated cfg uid inputs expected (s s' : P) r :
  (do! beside zeroIncarnation (onStore st_CheckWritable) in
    let! state := beside zeroIncarnation (onStore (InspectApproval 0)) in
    if ownedOpen state then throw (zeroIncarnation, ESentinel ErrApprovalBlocked)
    else
      do! beside zeroIncarnation (placer_admit p) in
      do! beside zeroIncarnation (refuseDuringCheckpoint uid) in
      let! t := beside zeroIncarnation (called (CallCreate uid)) in
      let '(inc, err) := b_Create (p_backend p) t uid in
      do! beside inc (check err) in
      let! l := beside inc (openHarness p uid inc) in
      let! har := gets (harnessOf l) in
      finally (execOn p cfg uid inputs expected inc l har) (releaseQuietly uid l)) s = (s', r) ->
  exec_gated uid s s'.
Proof.
  intros Hr. unfold mbind at 1, M_bind at 1, beside at 1 in Hr.
  destruct (onStore st_CheckWritable s) as [s1 [|e]] eqn:E1; apply writable_run in E1 as (Hl1 & Hc1 & Hk1).
  2:{ injection Hr as <- _. apply (gated_refused _ _ _ []); [by rewrite app_nil_r|by left|done]. }
  unfold mbind at 1, M_bind at 1, beside at 1 in Hr.
  destruct (onStore (InspectApproval 0) s1) as [s2 [state|e]] eqn:E2; apply inspect_run in E2 as (Hl2 & Hc2 & Hk2 & Hst).
  2:{ injection Hr as <- _. apply (gated_refused _ _ _ []); [by rewrite app_nil_r, Hc2|by left|by etransitivity]. }
  destruct (ownedOpen state) eqn:Eo.
  { injection Hr as <- _. apply (gated_refused _ _ _ []); [by rewrite app_nil_r, Hc2|by left|by etransitivity]. }
  unfold mbind at 1, M_bind at 1, beside at 1 in Hr.
  destruct (admit_run s2) as (s3 & Ha & Hl3 & Hc3 & Hk3). rewrite Ha in Hr. set (t0 := w_tick (ps_world s2)) in *.
  assert (H03 : sameLog s s3) by (etransitivity; [exact Hl1|]; by etransitivity).
  destruct (gateOn p (ctxErr t0) t0 (b_Describe (p_backend p) t0)) as [desc|e] eqn:Eg.
  2:{ injection Hr as <- _. apply (gated_refused _ _ _ [CallDescribe]); [by rewrite Hc3, Hc2, Hc1|by right|done]. }
  unfold mbind at 1, M_bind at 1, beside at 1, refuseDuringCheckpoint in Hr.
  case_bool_decide as Hk.
  { injection Hr as <- _. apply (gated_refused _ _ _ [CallDescribe]); [by rewrite Hc3, Hc2, Hc1|by right|done]. }
  unfold mbind at 1, M_bind at 1, beside at 1 in Hr.
  destruct (called_run (CallCreate uid) s3) as (s4 & Hcr & Hl4 & Hc4 & _). rewrite Hcr in Hr.
  assert (H04 : sameLog s s4) by by etransitivity.
  assert (Hblocked : forall scan, scanApprovalRecords (readFrom 1 (journal (logOf s))) 0 = Ok scan -> blockedByApproval scan = false).
  { intros scan Hs. destruct (Hst state eq_refl) as (scan' & Hs' & ->). destruct Hl1 as [Hj1 _].
    rewrite Hj1, Hs in Hs'. injection Hs' as <-. exact Eo. }
  assert (Hfree : uid ∉ ps_checkpoints s) by congruence.
  assert (Hdone : forall s5 rest, ps_calls s5 = ps_calls s4 ++ rest ->
    (sameLog s s5 \/ exists inc td har cl rest', p_dial p td inc = Ok (har, cl) /\ rest = CallDial (inc_ID inc) :: rest' /\
        (b_describesLive (p_backend p) = true -> exists tv c d rest'',
           rest' = CallVerify :: rest'' /\ gateOn p c tv (Describe har tv) = Ok d)) -> exec_gated uid s s5).
  { intros s5 rest Hc5 Hrest. exists (CallDescribe :: CallCreate uid :: rest). split.
    - by rewrite Hc5, Hc4, Hc3, Hc2, Hc1, <- !app_assoc.
    - right. by exists t0, desc, rest. }
  destruct (b_Create (p_backend p) _ uid) as [inc err].
  unfold mbind at 1, M_bind at 1, beside at 1 in Hr. unfold check in Hr.
  destruct err as [e|].
  { injection Hr as <- _. apply (Hdone _ []); [by rewrite app_nil_r|by left]. }
  unfold mbind at 1, M_bind at 1, beside at 1 in Hr.
  destruct (openHarness p uid inc s4) as [s5 [l|e]] eqn:Eh; apply openHarness_run in Eh as (Hl5 & rest & Hc5 & Hd).
  2:{ injection Hr as <- _. eapply Hdone; [exact Hc5|]. left. by etransitivity. }
  destruct Hd as [-> (td & cl & har & Hdial & Hhar)].
  unfold gets in Hr. unfold mbind at 1, M_bind at 1 in Hr. rewrite Hhar in Hr. unfold finally in Hr.
  destruct (execOn p cfg uid inputs expected inc l har s5) as [s6 r6] eqn:Ex. injection Hr as <- <-.
  apply execOn_gated in Ex as (rest & Hc6 & Hg6).
  destruct (asks_releaseHarness (fun _ => True) neutral_true uid l s6) as (n & Hn & _).
  apply (Hdone _ (CallDial (inc_ID inc) :: rest ++ n)).
  { unfold releaseQuietly. by rewrite Hn, Hc6, Hc5, <- !app_assoc. }
  destruct Hg6 as [Hl6|Hv].
  - left. etransitivity; [exact H04|]. etransitivity; [exact Hl5|]. etransitivity; [exact Hl6|]. apply releaseQuietly_same.
  - right. exists inc, td, har, cl, (rest ++ n). split; [done|]. split; [done|].
    intros Hb. destruct (Hv Hb) as (tv & c & d & rest'' & -> & Hd). by exists tv, c, d, (rest'' ++ n).
Qed.

(** ** Resume *)

(** Of a recovery: compute is restored, never created or cloned, and only from a snapshot of the
    session itself. *)
Definition ownRestore (uid : string) (c : RuntimeCall) : Prop :=
  match c with
  | CallRestore ref => snap_Local ref = uid
  | CallCreate _ | CallFork _ _ | CallStop _ => False
  | _ => True
  end.

Lemma ownRestore_neutral uid : neutral (ownRestore uid).
Proof. done. Qed.

Lemma suspendRefOf_own uid recs ref : suspendRefOf uid recs = Some ref -> snap_Local ref = uid.
Proof.
  induction recs as [|r rs IH]; cbn; [done|]. destruct (suspendRefOf uid rs); [exact IH|].
  repeat case_match; try done. intros [= <-]. by dec_bool.
Qed.

Lemma lastSuspendRef_own uid (s s' : P) ref : lastSuspendRef uid s = (s', Ok ref) -> snap_Local ref = uid.
Proof.
  unfold lastSuspendRef, mbind, M_bind. destruct (onStore (st_Read 1) s) as [s1 [recs|e]]; [|done].
  intros [= _ <-]. destruct (suspendRefOf uid recs) eqn:E; [by eapply suspendRefOf_own|done].
Qed.

Lemma resumeApproval_asks Q uid state cfg : neutral Q -> frame (S := S) (asks Q) (resumeApproval p uid state cfg).
Proof.
  intros HQ. unfold resumeApproval, observeP. step_frame.
  all: apply frame_bind; [typeclasses eauto|by apply asks_resumeFence|]. all: step_frame.
Qed.

Lemma resume_own cfg uid : frame (S := S) (asks (ownRestore uid)) (resume p cfg uid).
Proof.
  pose proof (ownRestore_neutral uid) as HQ. unfold resume.
  apply frame_bind; [typeclasses eauto|apply asks_onStore|intros _].
  apply frame_bind; [typeclasses eauto|apply asks_onStore|intros state].
  apply frame_bind; [typeclasses eauto|by apply resumeApproval_asks|intros _].
  apply frame_bind; [typeclasses eauto| |intros _].
  { unfold placer_admit. apply frame_bind; [typeclasses eauto|by apply asks_called|]. intros. apply frame_lift. typeclasses eauto. }
  intros s. unfold mbind at 1, M_bind at 1.
  destruct (lastSuspendRef uid s) as [s1 [ref|e]] eqn:El.
  2:{ cbn [fst]. assert (Hf : frame (S := S) (asks (ownRestore uid)) (lastSuspendRef uid)) by (unfold lastSuspendRef; step_frame).
      specialize (Hf s). by rewrite El in Hf. }
  apply lastSuspendRef_own in El as Hown.
  etransitivity; [assert (Hf : frame (S := S) (asks (ownRestore uid)) (lastSuspendRef uid)) by (unfold lastSuspendRef; step_frame);
    specialize (Hf s); rewrite El in Hf; exact Hf|].
  cbn [fst]. revert s1 El. intros s1 _. revert s1.
  apply frame_bind; [typeclasses eauto| |intros _].
  { intros s1. unfold refuseDuringCheckpoint. case_bool_decide; reflexivity. }
  apply frame_bind; [typeclasses eauto| |intros _].
  { destruct (rcfg_expectedLastSeq cfg); [|apply frame_ret; typeclasses eauto].
    apply frame_bind; [typeclasses eauto|by apply asks_resumeFence|]. intros. apply frame_ret. typeclasses eauto. }
  apply frame_bind; [typeclasses eauto|by apply asks_called|intros t].
  apply frame_bind; [typeclasses eauto|apply frame_lift; typeclasses eauto|intros inc].
  apply frame_bind; [typeclasses eauto| |intros l].
  { by apply asks_openHarness. }
  apply frame_bind; [typeclasses eauto|apply frame_gets; typeclasses eauto|intros har].
  apply frame_finally; [typeclasses eauto|by apply asks_resumeOn|].
  intros s1. by apply asks_releaseHarness.
Qed.

(** The session waits for a decision: the scan selects a request of its own that nobody has decided. *)
Definition waitsFor (s : P) (ref : ApprovalRef) : Prop := exists scan st r,
  scanApprovalRecords (readFrom 1 (journal (logOf s))) 0 = Ok scan /\ selectedState scan = Some st /\
  as_Receipt st = None /\ as_Inherited st = false /\ as_Decision st = None /\ as_Request st = Some r /\
  ref = mkApprovalRef (as_ExecutionID st) (tc_ID (as_Call st)) (Seq r).

(** A refused recovery of a waiting session: nothing happened, and it answers with the park unless the
    log could not be read. *)
Lemma resume_waits cfg uid ref (s s' : P) r : waitsFor s ref -> resume p cfg uid s = (s', r) ->
  sameLog s s' /\ ps_calls s' = ps_calls s /\
  exists e, r = Err e /\ (e = EParked ref \/ snd (onStore st_CheckWritable s) = Err e \/
    snd (onStore (InspectApproval 0) (fst (onStore st_CheckWritable s))) = Err e).
Proof.
  intros (scan & st & q & Hscan & Hsel & Hrc & Hin & Hdec & Hq & ->) Hr.
  unfold resume in Hr. unfold mbind at 1, M_bind at 1 in Hr.
  destruct (onStore st_CheckWritable s) as [s1 [|e]] eqn:E1; apply writable_run in E1 as (Hl1 & Hc1 & _); cbn [fst snd].
  2:{ injection Hr as <- <-. repeat (split; [done|]). eauto. }
  unfold mbind at 1, M_bind at 1 in Hr.
  destruct (onStore (InspectApproval 0) s1) as [s2 [state|e]] eqn:E2; apply inspect_run in E2 as (Hl2 & Hc2 & _ & Hst); cbn [fst snd].
  2:{ injection Hr as <- <-. split; [by etransitivity|]. split; [congruence|]. eauto. }
  destruct (Hst state eq_refl) as (scan' & Hs' & ->). destruct Hl1 as [Hj1 Hf1].
  rewrite Hj1, Hscan in Hs'. injection Hs' as <-.
  unfold resumeApproval in Hr. rewrite Hsel, Hrc, Hin, Hdec, Hq in Hr. injection Hr as <- <-.
  split; [etransitivity; [split; [exact Hj1|exact Hf1]|exact Hl2]|]. split; [congruence|]. eauto.
Qed.
End Gates.

(** ** Properties *)

(** C30: Nothing happens before the gate. Of an execution that provisions compute, the description was
    accepted, no approval was open and no checkpoint was running; otherwise neither the journal nor the
    fence moved and the runtime was at most asked to describe itself. Even then journal and fence move
    only after the harness was dialled and, where descriptions are live, that very connection passed
    the gate again. *)
Theorem Exec_gated `{Host} `{PlacementHost} {S : Type} `{StoreLaws S} (p : Placer) cfg uid inputs expected (s : PState S) :
  exec_gated p uid s (fst (placer_Exec p cfg uid inputs expected s)).
Proof.
  unfold placer_Exec, withGuard. destruct (acquire uid guardOperation (ps_guard s)) as [g [h|e]]; cbn [fst].
  2:{ by apply (gated_refused _ _ _ _ []); [rewrite app_nil_r|left|]. }
  unfold finally. match goal with |- context [let '(_, _) := ?x in _] => destruct x as [s1 r] eqn:E end.
  apply (exec_body_gated p) in E. exact E.
Qed.

(** The echo agent's execution provisions compute after its gate. *)
Lemma Exec_gated_witness :
  ps_calls (fst exampleExec) = [CallDescribe; CallCreate "uid"; CallDial "uid"; CallVerify; CallClose] /\
  exec_gated (H := exampleHost) (H1 := examplePlacementHost) (H3 := Log_StoreView) examplePlacer "uid" (placerState freshWorld) (fst exampleExec).
Proof.
  split; [vm_compute; reflexivity|].
  apply (Exec_gated (H := exampleHost) (H0 := examplePlacementHost) (H1 := @Log_Store exampleEncoding) (H2 := Log_StoreView)
    (H3 := @Log_StoreLaws exampleEncoding) examplePlacer exampleExecConfig "uid" [TextMessage "user" "hi"] 0).
Defined.

(** Recovery creates, clones and stops no compute: it only restores, and only a snapshot its own log
    records. While the session waits for a decision it does not even that: it fails, with the park of
    the waiting request unless the guard or the log refused it, and has changed neither the journal nor the
    fence nor called the runtime. *)
Theorem Resume_restores_own `{Host} `{Encoding} `{PlacementHost} {S : Type} `{StoreLaws S} (p : Placer) cfg uid (s : PState S) :
  asks (ownRestore uid) s (fst (placer_Resume p cfg uid s)) /\
  forall ref, waitsFor s ref -> let '(s', r) := placer_Resume p cfg uid s in
    sameLog s s' /\ ps_calls s' = ps_calls s /\ exists e, r = Err e /\
      (e = EParked ref \/ snd (tryLock uid (ps_guard s)) = Err e \/ snd (st_CheckWritable (logOf s)) = Err e \/
       snd (InspectApproval 0 (fst (st_CheckWritable (logOf s)))) = Err e).
Proof.
  unfold placer_Resume, withGuard, tryLock. destruct (acquire uid guardOperation (ps_guard s)) as [g [h|e]]; cbn [fst snd].
  2:{ split; [exists []; by rewrite app_nil_r|]. intros ref _. split; [done|]. split; [done|]. eauto. }
  unfold finally. split.
  - pose proof (resume_own p cfg uid (setGuardP g s)) as Ho. by destruct (resume p cfg uid _).
  - intros ref Hw. destruct (resume p cfg uid (setGuardP g s)) as [s' r] eqn:Er.
    apply (resume_waits p cfg uid ref) in Er as (Hl & Hc & e & -> & He); [|exact Hw].
    split; [exact Hl|]. split; [exact Hc|]. exists e. split; [done|].
    destruct He as [->|[He|He]]; [by left|right; right; left|right; right; right]; revert He;
      unfold onStore, onWorldP, onLog, logOf; cbn -[InspectApproval];
      destruct (st_CheckWritable _); [done|]; cbn -[InspectApproval]; by destruct (InspectApproval _ _).
Qed.

(** A turn of a harness that asks for an approval, parked, and the recovery of it. *)
Definition waitingState : PState Log := placerState (fst parkedExec).
Definition waitingRef : ApprovalRef :=
  mkApprovalRef (newIDText (H := exampleHost) (w_tick freshWorld)) "call" 4.

Lemma Resume_restores_own_witness : exists s' r,
  placer_Resume (H := exampleHost) (H0 := exampleEncoding) (H1 := examplePlacementHost) (H2 := @Log_Store exampleEncoding)
    examplePlacer exampleResumeConfig "uid" waitingState = (s', r) /\
  waitsFor (H3 := Log_StoreView) waitingState waitingRef /\
  sameLog (H3 := Log_StoreView) waitingState s' /\ ps_calls s' = [] /\ exists e, r = Err e.
Proof.
  assert (Hw : waitsFor (H3 := Log_StoreView) waitingState waitingRef).
  { destruct (scanApprovalRecords (readFrom 1 (journal (logOf waitingState))) 0) as [scan|e] eqn:Es; [|vm_compute in Es; discriminate].
    destruct (selectedState scan) as [st|] eqn:Ess.
    2:{ exfalso. vm_compute in Es. injection Es as <-. vm_compute in Ess. discriminate. }
    destruct (as_Request st) as [q|] eqn:Eq.
    2:{ exfalso. vm_compute in Es. injection Es as <-. vm_compute in Ess. injection Ess as <-. discriminate. }
    exists scan, st, q. split; [done|]. split; [done|].
    vm_compute in Es. injection Es as <-. vm_compute in Ess. injection Ess as <-. vm_compute in Eq. injection Eq as <-.
    repeat split. }
  destruct (Resume_restores_own (H := exampleHost) (H0 := exampleEncoding) (H1 := examplePlacementHost) (H2 := @Log_Store exampleEncoding)
    (H3 := Log_StoreView) (H4 := @Log_StoreLaws exampleEncoding) examplePlacer exampleResumeConfig "uid" waitingState) as [_ Hr].
  specialize (Hr waitingRef Hw). destruct (placer_Resume _ _ _ _) as [s' r].
  exists s', r. destruct Hr as (Hl & Hc & e & He & _). split; [reflexivity|]. split; [exact Hw|]. split; [exact Hl|].
  split; [exact Hc|]. by exists e.
Defined.

(** * Parking a turn (placement/placement.go, handoffPark)

    A turn that parks hands its compute over to a snapshot: under the checkpoint mark, after its own
    connection has ended, and recorded right after the request it waits for. *)

Section Handoff.
Context `{Host} `{Encoding} `{PlacementHost} {S : Type} `{StoreLaws S}.
Abbreviation P := (PState S).
Variable p : Placer.

(** The turn's stream is over. *)
Definition connEnded (l : nat) (s : P) : Prop := forall c, ps_conns s !! l = Some c -> ended c <> None.
Definition connSuperseded (l : nat) (s : P) : Prop := exists c, ps_conns s !! l = Some c /\ superseded c = true.

(** What the end of a connection leaves: the log, and at most a call to close it. *)
Definition closing (s s' : P) : Prop := sameLog s s' /\ asks (eq CallClose) s s'.
#[local] Instance closing_preorder : PreOrder closing.
Proof. split; [by intros s; split|]. intros a b c [] []. split; by etransitivity. Qed.

Lemma closing_onWorld {A} (m : M (World S) goerr A) : (forall w, w_log (fst (m w)) = w_log w) -> frame closing (onWorldP m).
Proof.
  intros Hm s. split; [|apply asks_onWorldP]. unfold sameLog, logOf, onWorldP. specialize (Hm (ps_world s)).
  destruct (m (ps_world s)). cbn in *. by rewrite Hm.
Qed.
Lemma closing_tick : frame closing tickP.
Proof. by apply closing_onWorld. Qed.
Lemma closing_called : frame closing (called CallClose).
Proof. intros s. split; [apply sameLog_called|by apply asks_called]. Qed.
Lemma closing_updConn l f : frame closing (E := goerr) (modify (updConn l f)).
Proof. intros s. split; [by split|apply asks_updConn]. Qed.
#[local] Hint Resolve closing_tick closing_called closing_updConn : frame.

Lemma closing_endConn l cause : frame closing (endConn l cause).
Proof. unfold endConn. step_frame. Qed.
Lemma closing_checkSuperseded l : frame closing (checkSuperseded l).
Proof. unfold checkSuperseded, connErr, connCause. step_frame. Qed.
#[local] Hint Resolve closing_endConn closing_checkSuperseded : frame.
Lemma closing_releaseHarness uid l : frame closing (releaseHarness uid l).
Proof.
  unfold releaseHarness, fenceMinted. apply frame_bind; [typeclasses eauto| |].
  - intros s. split; [by split|]. by apply asks_modify.
  - step_frame.
Qed.

Lemma endConn_ends l cause (s : P) : connEnded l (fst (endConn l cause s)).
Proof.
  unfold endConn, gets, mbind, M_bind. destruct (ps_conns s !! l) as [c|] eqn:Hc.
  2:{ cbn. intros c Hc'. congruence. }
  destruct (ended c) as [[cause' err]|] eqn:He; cbn.
  - intros c' Hc'. congruence.
  - intros c'. cbn. rewrite lookup_alter_eq, Hc. by intros [= <-].
Qed.

Lemma closeInvocation_run uid l (s s' : P) r : closeInvocation uid l s = (s', r) ->
  closing s s' /\ (r = Ok tt -> connEnded l s' /\ ~ connSuperseded l s).
Proof.
  intros Hr. split.
  { assert (Hf : frame closing (closeInvocation uid l)) by
      (unfold closeInvocation; apply frame_bind; [typeclasses eauto|apply closing_checkSuperseded|intros; apply closing_releaseHarness]).
    specialize (Hf s). by rewrite Hr in Hf. }
  intros ->. unfold closeInvocation in Hr. unfold mbind at 1, M_bind at 1 in Hr.
  destruct (checkSuperseded l s) as [s1 [|e]] eqn:Ec; [|done]. split.
  - unfold releaseHarness in Hr. unfold mbind at 1, M_bind at 1 in Hr. unfold modify at 1 in Hr.
    unfold mbind at 1, M_bind at 1, fenceMinted, modify in Hr. unfold mbind at 1, M_bind at 1 in Hr.
    match type of Hr with (let (_, _) := endConn l ?c ?st in _) = _ => pose proof (endConn_ends l c st) as He;
      destruct (endConn l c st) as [s2 [err|e]] end; cbn [fst] in He; [|done].
    unfold check in Hr. destruct err; [done|]. by injection Hr as <-.
  - intros (c & Hc & Hs). unfold checkSuperseded, gets, mbind, M_bind in Ec. by rewrite Hc, Hs in Ec.
Qed.

(** A handoff that has recorded its snapshot. *)
Definition handedOff (uid : string) (fence : Z) (ref : ApprovalRef) (s s' : P) : Prop := exists scan st t snap rec,
  scanApprovalRecords (readFrom 1 (journal (logOf s))) 0 = Ok scan /\ selectedState scan = Some st /\
  parkMatches (Some st) ref = true /\
  b_Snapshot (p_backend p) t uid = Ok snap /\
  Seq rec = as_Head st + 1 /\ Fence rec = fence /\ rec_Event rec = evLifecycle (suspendLifecycle snap) /\
  headOf (journal (logOf s)) = as_Head st /\
  journal (logOf s') = journal (logOf s) ++ [setEvent (persisted (rec_Event rec)) rec] /\
  curFence (logOf s') = curFence (logOf s).

(** The runtime was asked for nothing but, once the stream was closed, the snapshot. *)
Definition handoffCalls (uid : string) (l : nat) (s s' : P) : Prop := exists pre post,
  ps_calls s' = ps_calls s ++ pre ++ post /\ Forall (eq CallClose) pre /\
  (post = [] \/ post = [CallSnapshot uid] /\ connEnded l s' /\ ~ connSuperseded l s).

Lemma suspend_run uid head fence onR (s s' : P) r : suspend p uid (Some (mkSuspendCursor head fence onR)) s = (s', r) ->
  ps_conns s' = ps_conns s /\ (ps_calls s' = ps_calls s \/ ps_calls s' = ps_calls s ++ [CallSnapshot uid]) /\
  (sameLog s s' /\ is_ok r = false \/ exists t snap rec, b_Snapshot (p_backend p) t uid = Ok snap /\
    head = headOf (journal (logOf s)) /\ Seq rec = head + 1 /\ Fence rec = fence /\ rec_Event rec = evLifecycle (suspendLifecycle snap) /\
    journal (logOf s') = journal (logOf s) ++ [setEvent (persisted (rec_Event rec)) rec] /\
    curFence (logOf s') = curFence (logOf s) /\ is_ok r = true).
Proof.
  unfold suspend. intros Hr. unfold mbind at 1, M_bind at 1 in Hr.
  destruct (onStore st_CheckWritable s) as [s1 [|e]] eqn:E1.
  all: assert (Hk : ps_conns s1 = ps_conns s) by (revert E1; unfold onStore, onWorldP; destruct (onLog _ _); by intros [= <- _]).
  all: apply writable_run in E1 as (Hl1 & Hc1 & _).
  2:{ injection Hr as <- <-. split; [done|]. split; [by left|]. by left. }
  destruct (called_run (CallSnapshot uid) s1) as (s2 & Hc & Hl2 & Hc2 & _).
  assert (Hk2 : ps_conns s2 = ps_conns s1) by (unfold called, tickP, onWorldP in Hc; by injection Hc as <-).
  unfold mbind at 1, M_bind at 1 in Hr. rewrite Hc in Hr. unfold lift in Hr. unfold mbind at 1, M_bind at 1 in Hr.
  assert (H02 : sameLog s s2) by by etransitivity.
  destruct (b_Snapshot (p_backend p) _ uid) as [snap|e] eqn:Es.
  2:{ injection Hr as <- <-. split; [congruence|]. split; [right; congruence|]. by left. }
  unfold mbind at 1, M_bind at 1, appendLifecycleAt in Hr.
  destruct (onStore (st_Append _ _ _) s2) as [s3 [rec|e]] eqn:E3.
  all: assert (Hk3 : ps_conns s3 = ps_conns s2) by (revert E3; unfold onStore, onWorldP; destruct (onLog _ _); by intros [= <- _]).
  all: apply onStore_run in E3 as (l' & Ha & <- & Hc3 & _); apply append_law in Ha as [Hf3 Ha]; destruct H02 as [Hj2 Hf2].
  2:{ injection Hr as <- <-. split; [congruence|]. split; [right; congruence|]. left. split; [split; congruence|done]. }
  destruct Ha as (Hx & _ & Hseq & _ & Hfe & Hev & Hj3).
  assert (Hob : exists s4 r4, observeP p onR rec s3 = (s4, r4) /\ ps_conns s4 = ps_conns s3 /\ logOf s4 = logOf s3 /\
    ps_calls s4 = ps_calls s3 /\ r4 = Ok tt).
  { unfold observeP, onWorldP, observe, controllerFor. cbn. destruct onR; eexists _, _; by split. }
  destruct Hob as (s4 & r4 & Ho & Hk4 & Hl4 & Hc4 & ->).
  cbn [cur_onRecord] in Hr. unfold mbind, M_bind in Hr. rewrite Ho in Hr.
  injection Hr as <- <-.
  split; [congruence|]. split; [right; congruence|]. right. cbn [cur_head cur_fence] in *.
  eexists _, snap, rec. split; [done|]. rewrite Hl4, Hev. repeat (split; [congruence|]). done.
Qed.

Lemma handoff_quiet uid l (s s' : P) : asks (eq CallClose) s s' -> handoffCalls uid l s s'.
Proof. intros (n & Hn & Hf). exists n, []. rewrite app_nil_r. split; [done|]. split; [done|by left]. Qed.

Lemma handoff_body uid fence ref l onR (s s' : P) r :
  (let! state := onStore (InspectApproval 0) in
    if negb (parkMatches state ref)
    then throw (EWrap "park does not match the recorded owned request" (ESentinel ErrReplayDiverged))
    else
      do! closeInvocation uid l in
      do! suspend p uid (Some (mkSuspendCursor (match state with Some s => as_Head s | None => 0 end) fence onR)) in
      throw (S := P) (A := unit) (EParked ref)) s = (s', r) ->
  handoffCalls uid l s s' /\ exists e, r = Err e /\ (sameLog s s' \/ handedOff uid fence ref s s' /\ e = EParked ref).
Proof.
  intros Hr. unfold mbind at 1, M_bind at 1 in Hr.
  destruct (onStore (InspectApproval 0) s) as [s1 [state|e]] eqn:E1.
  all: assert (Hk1 : ps_conns s1 = ps_conns s) by (revert E1; unfold onStore, onWorldP; destruct (onLog _ _); by intros [= <- _]).
  all: apply inspect_run in E1 as (Hl1 & Hc1 & _ & Hst).
  2:{ injection Hr as <- <-. split; [|by eauto]. apply handoff_quiet. exists []. by rewrite Hc1, app_nil_r. }
  destruct (Hst state eq_refl) as (scan & Hscan & Hsel). destruct (parkMatches state ref) eqn:Em; cbn [negb] in Hr.
  2:{ injection Hr as <- <-. split; [|by eauto]. apply handoff_quiet. exists []. by rewrite Hc1, app_nil_r. }
  destruct state as [st|]; [|done].
  unfold mbind at 1, M_bind at 1 in Hr. destruct (closeInvocation uid l s1) as [s2 [[]|e]] eqn:E2;
    apply closeInvocation_run in E2 as ([Hl2 (n & Hn & Hcl)] & Hok2); rewrite Hc1 in Hn; assert (H02 : sameLog s s2) by by etransitivity.
  2:{ injection Hr as <- <-. split; [|by eauto]. apply handoff_quiet. by exists n. }
  destruct (Hok2 eq_refl) as [Hend Hsup]. unfold mbind at 1, M_bind at 1 in Hr.
  destruct (suspend p uid _ s2) as [s3 r3] eqn:E3. apply suspend_run in E3 as (Hk3 & Hc3 & Hcase).
  assert (s' = s3 /\ exists e, r = Err e /\ (is_ok r3 = true -> e = EParked ref)) as [-> (e & -> & He)].
  { destruct r3; injection Hr as <- <-; split; eauto; eexists; split; done. }
  split.
  - exists n. destruct Hc3 as [Hc3|Hc3]; [exists []; rewrite app_nil_r; split; [congruence|]; split; [done|by left]|].
    exists [CallSnapshot uid]. split; [by rewrite Hc3, Hn, app_assoc|]. split; [done|]. right. split; [done|].
    split; [intros c Hc; rewrite Hk3 in Hc; by apply Hend|]. intros (c & Hc & Hs). apply Hsup. exists c. by rewrite Hk1.
  - exists e. split; [done|]. destruct Hcase as [[Hl3 _]|(t & snap & rec & Hs & Hh & Hseq & Hf & Hev & Hj & Hcf & Hok)].
    + left. by etransitivity.
    + right. split; [|by apply He]. destruct H02 as [Hj2 Hf2]. exists scan, st, t, snap, rec.
      cbn [cur_head cur_fence] in *. repeat (split; [congruence|]). congruence.
Qed.
End Handoff.

(** ** Property *)

(** C31: A park is handed off exactly or not at all. A turn that parks always ends in an error and mints no
    fence. Either the log is as it was, or a SUSPEND with a snapshot the runtime took is the one new
    record, at the head whose scan selects the owned, undecided request the park names, under the turn's
    own fence, and the error is the park itself. The snapshot is asked for only after the turn's
    connection has ended, never for a superseded turn and never under someone else's checkpoint. *)
Theorem handoffPark_exact `{Host} `{Encoding} `{PlacementHost} {S : Type} `{StoreLaws S} (p : Placer) uid fence ref l onR (s s' : PState S) r :
  handoffPark (A := unit) p uid fence ref l onR s = (s', r) ->
  (uid ∈ ps_checkpoints s -> s' = s) /\ handoffCalls uid l s s' /\
  exists e, r = Err e /\ (sameLog s s' \/ handedOff p uid fence ref s s' /\ e = EParked ref).
Proof.
  unfold handoffPark, withCheckpoint, markCheckpoint, setCheckpointLocked. unfold mbind at 1, M_bind at 1. case_bool_decide as Hk.
  { intros [= <- <-]. split; [done|]. split; [|by eexists; split; [done|left]]. apply handoff_quiet. exists []. by rewrite app_nil_r. }
  unfold finally. match goal with |- context [let '(_, _) := ?x in _] => destruct x as [s1 r1] eqn:E end.
  intros [= <- <-]. split; [done|]. by apply (handoff_body p uid fence ref l onR) in E.
Qed.

(** The parked turn of an earlier file, at the end of its execution. *)
Definition exampleHandoff : PState Log * res unit :=
  handoffPark (H := exampleHost) (H1 := examplePlacementHost) (H2 := @Log_Store exampleEncoding) examplePlacer "uid" 1 waitingRef 0 true waitingState.

Lemma handoffPark_exact_witness :
  snd exampleHandoff = Err (EParked waitingRef) /\ ps_calls (fst exampleHandoff) = [CallSnapshot "uid"] /\
  exists e, snd exampleHandoff = Err e /\ (sameLog (H3 := Log_StoreView) waitingState (fst exampleHandoff) \/
    handedOff (H3 := Log_StoreView) examplePlacer "uid" 1 waitingRef waitingState (fst exampleHandoff) /\ e = EParked waitingRef).
Proof.
  split; [vm_compute; reflexivity|]. split; [vm_compute; reflexivity|].
  apply (handoffPark_exact (H := exampleHost) (H0 := exampleEncoding) (H1 := examplePlacementHost) (H2 := @Log_Store exampleEncoding)
    (H3 := Log_StoreView) (H4 := @Log_StoreLaws exampleEncoding) examplePlacer "uid" 1 waitingRef 0 true waitingState).
  unfold exampleHandoff. apply surjective_pairing.
Defined.
