(* ===== verification/Fanout.v ===== *)
(** * Forking compute (placement/placement.go, Fork, forkSource, rollbackFork)

    A failed fan-out stops what it provisioned; the children of a stateful harness are cloned from one
    snapshot, recorded in the parent's journal right after the fork point. *)
From S2P Require Import Prelude GoErrors Api Canon EventLog Executions Approvals Harness Sinks Controller Agents SessionGuard Placement Admission Gates.

Section Fanout.
Context `{Host} `{Encoding} `{PlacementHost} {S C : Type} `{StoreLaws S} `{!Store C}.
Abbreviation P := (PState S).
Variable p : Placer.

(** A request that neither provisions, reaches nor stops compute. *)
Definition provisionless (c : RuntimeCall) : Prop :=
  match c with CallCreate _ | CallDial _ | CallRestore _ | CallFork _ _ | CallStop _ => False | _ => True end.

Lemma provisionless_neutral : neutral provisionless.
Proof. done. Qed.

(** ** The source of a fork *)

Lemma forkPoint_run atSeq moved (s s' : P) r : forkPoint atSeq moved s = (s', r) ->
  sameLog s s' /\ ps_calls s' = ps_calls s /\ (r = Ok tt -> headOf (journal (logOf s)) = atSeq).
Proof.
  unfold forkPoint, mbind, M_bind. destruct (onStore st_Head s) as [s1 [h|e]] eqn:E;
    apply onStore_run in E as (l' & Hh & Hl & Hc & _); apply head_law in Hh as (Hj & Hf & Hv);
    unfold sameLog; rewrite <- Hl in *.
  - case_match eqn:Hn; intros [= <- <-]; (split; [done|]; split; [done|]); [done|].
    intros _. apply negb_false_iff, Z.eqb_eq in Hn. congruence.
  - intros [= <- <-]. done.
Qed.

Lemma newFence_run (s s' : P) r : onStore st_NewFence s = (s', r) ->
  journal (logOf s') = journal (logOf s) /\ ps_calls s' = ps_calls s /\
  match r with Ok f => f = curFence (logOf s) + 1 /\ curFence (logOf s') = f | Err _ => curFence (logOf s') = curFence (logOf s) end.
Proof. intros (l' & Hn & <- & Hc & _)%onStore_run. by apply fence_law in Hn as (Hj & Hf). Qed.

Lemma sameLog_connection l cause : frame (S := S) sameLog (endConn l cause).
Proof. apply sameLog_endConn. Qed.

Lemma endHarnesses_run open : frame (S := S) sameLog (endHarnesses open) /\ frame (S := S) (asks provisionless) (endHarnesses open).
Proof.
  split; unfold endHarnesses; (apply frame_bind; [typeclasses eauto|..]; [|intros _]); induction open as [|l ls IH]; cbn;
    try (apply frame_ret; typeclasses eauto).
  - apply frame_bind; [typeclasses eauto|apply sameLog_endConn|by intros].
  - apply frame_bind; [typeclasses eauto|apply frame_gets; typeclasses eauto|intros c]. destruct (match c with Some _ => _ | None => _ end); [done|].
    apply frame_bind; [typeclasses eauto| |intros; apply frame_throw; typeclasses eauto]. intros s. by repeat split.
  - apply frame_bind; [typeclasses eauto|by apply asks_endConn|by intros].
  - apply frame_bind; [typeclasses eauto|apply frame_gets; typeclasses eauto|intros c]. destruct (match c with Some _ => _ | None => _ end); [done|].
    apply frame_bind; [typeclasses eauto|by apply asks_tickP|intros; apply frame_throw; typeclasses eauto].
Qed.

(** The record of a checkpoint: a SUSPEND carrying the snapshot, right after the fork point. *)
Definition checkpointed (uid : string) (atSeq : Z) (ref : SnapshotRef) (s s' : P) : Prop :=
  headOf (journal (logOf s)) = atSeq /\ curFence (logOf s') = curFence (logOf s) + 2 /\
  (exists t, b_Snapshot (p_backend p) t uid = Ok ref) /\ exists rec,
    Seq rec = atSeq + 1 /\ Fence rec = curFence (logOf s') /\ rec_Event rec = evLifecycle (suspendLifecycle ref) /\
    journal (logOf s') = journal (logOf s) ++ [setEvent (persisted (rec_Event rec)) rec].

Lemma forkCheckpoint_run uid atSeq open (s s' : P) r : forkCheckpoint p uid atSeq open s = (s', r) ->
  asks provisionless s s' /\
  (journal (logOf s') = journal (logOf s) /\ is_ok r = false \/
   exists ref, checkpointed uid atSeq ref s s' /\ forall x, r = Ok x -> x = ref /\ ExternalURI ref <> EmptyString).
Proof.
  intros Hr. split.
  { assert (Hf : frame (S := S) (asks provisionless) (forkCheckpoint p uid atSeq open)); [|specialize (Hf s); by rewrite Hr in Hf].
    unfold forkCheckpoint, forkPoint, appendLifecycleAt.
    repeat first [ progress intros | apply endHarnesses_run | apply frame_bind; [typeclasses eauto| |] | apply asks_onStore
      | by apply asks_called | apply frame_ret; typeclasses eauto | apply frame_throw; typeclasses eauto
      | apply frame_lift; typeclasses eauto | case_match ]. }
  unfold forkCheckpoint in Hr. set (adv := EWrap "parent advanced" _) in Hr.
  unfold mbind at 1, M_bind at 1 in Hr. destruct (onStore st_NewFence s) as [s1 [f1|e]] eqn:E1; apply newFence_run in E1 as (Hj1 & _ & Hf1).
  2:{ injection Hr as <- <-. by left. }
  unfold mbind at 1, M_bind at 1 in Hr. destruct (forkPoint atSeq adv s1) as [s2 [[]|e]] eqn:E2; apply forkPoint_run in E2 as ([Hj2 Hf2] & _ & Hh2).
  2:{ injection Hr as <- <-. left. split; [congruence|done]. }
  specialize (Hh2 eq_refl). unfold mbind at 1, M_bind at 1 in Hr.
  destruct (endHarnesses_run open) as [Hs _]. specialize (Hs s2).
  destruct (endHarnesses open s2) as [s3 [[]|e]]; cbn [fst] in Hs; destruct Hs as [Hj3 Hf3].
  2:{ injection Hr as <- <-. left. split; [congruence|done]. }
  unfold mbind at 1, M_bind at 1 in Hr. destruct (onStore st_NewFence s3) as [s4 [f|e]] eqn:E4; apply newFence_run in E4 as (Hj4 & _ & Hf4).
  2:{ injection Hr as <- <-. left. split; [congruence|done]. }
  unfold mbind at 1, M_bind at 1 in Hr. destruct (forkPoint atSeq adv s4) as [s5 [[]|e]] eqn:E5; apply forkPoint_run in E5 as ([Hj5 Hf5] & _ & _).
  2:{ injection Hr as <- <-. left. split; [congruence|done]. }
  destruct (called_run (CallSnapshot uid) s5) as (s6 & Hc6 & [Hj6 Hf6] & _).
  unfold mbind at 1, M_bind at 1 in Hr. rewrite Hc6 in Hr. unfold lift in Hr at 1. unfold mbind at 1, M_bind at 1 in Hr.
  destruct (b_Snapshot (p_backend p) _ uid) as [ref|e] eqn:Es.
  2:{ injection Hr as <- <-. left. split; [congruence|done]. }
  unfold mbind at 1, M_bind at 1, appendLifecycleAt in Hr.
  destruct (onStore (st_Append _ _ _) s6) as [s7 [rec|e]] eqn:E7; apply onStore_run in E7 as (l' & Ha & <- & _); apply append_law in Ha as [Hf7 Ha].
  2:{ injection Hr as <- <-. left. split; [congruence|done]. }
  destruct Ha as (Hx & _ & Hseq & _ & Hfe & Hev & Hj7).
  assert (Hck : checkpointed uid atSeq ref s s7).
  { split; [congruence|]. split; [destruct Hf1, Hf4; lia|]. split; [by eexists|]. exists rec. split; [lia|].
    split; [destruct Hf4; congruence|]. split; [done|]. rewrite Hev. congruence. }
  right. exists ref. case_bool_decide; injection Hr as <- <-; (split; [done|]); [done|]. by intros x [= <-].
Qed.

(** The handle of a stateless fork. *)
Definition parentHandle (uid : string) : SnapshotRef := mkSnapshotRef uid EmptyString false false.

Definition admitted (memory : bool) : Prop := exists t desc,
  gateOn p (ctxErr t) t (b_Describe (p_backend p) t) = Ok desc /\
  bool_decide (cap_Resumability (desc_Capabilities desc) = ResumabilityRequiresMemorySnapshot) = memory.

Lemma forkSource_run uid atSeq (s s' : P) r : forkSource p uid atSeq s = (s', r) ->
  asks provisionless s s' /\
  ((admitted false /\ r = Ok (parentHandle uid, false) /\ sameLog s s') \/
   (is_ok r = false /\ journal (logOf s') = journal (logOf s) /\ (headOf (journal (logOf s)) <> atSeq -> sameLog s s')) \/
   exists ref, admitted true /\ checkpointed uid atSeq ref s s' /\ forall x m, r = Ok (x, m) -> x = ref /\ ExternalURI ref <> EmptyString).
Proof.
  intros Hr. unfold forkSource in Hr. unfold mbind at 1, M_bind at 1 in Hr.
  destruct (admit_run p s) as (s1 & Ha & [Hj1 Hf1] & Hc1 & _). rewrite Ha in Hr.
  assert (Hask1 : asks provisionless s s1) by (exists [CallDescribe]; split; [done|by repeat constructor]).
  destruct (gateOn p _ _ _) as [desc|e] eqn:Eg.
  2:{ injection Hr as <- <-. split; [done|]. right; left. repeat split; done. }
  destruct (bool_decide (cap_Resumability _ = _)) eqn:Em; cbn [negb] in Hr.
  2:{ injection Hr as <- <-. split; [done|]. left. split; [by eexists _, _|]. by repeat split. }
  assert (Had : admitted true) by by eexists _, _.
  unfold mbind at 1, M_bind at 1 in Hr. set (moved := EWrap "can only fork at the log head" _) in Hr.
  destruct (forkPoint atSeq moved s1) as [s2 [[]|e]] eqn:E2; apply forkPoint_run in E2 as ([Hj2 Hf2] & Hc2 & Hh2).
  2:{ injection Hr as <- <-. split; [exists [CallDescribe]; split; [by rewrite Hc2|by repeat constructor]|].
      right; left. split; [done|]. split; [congruence|]. intros _. split; congruence. }
  specialize (Hh2 eq_refl). rewrite Hj1 in Hh2.
  assert (Hask2 : asks provisionless s s2) by (exists [CallDescribe]; split; [by rewrite Hc2|by repeat constructor]).
  unfold mbind at 1, M_bind at 1, beginCheckpoint, setCheckpointLocked in Hr. unfold mbind at 1 2 3, M_bind at 1 2 3 in Hr.
  case_bool_decide.
  { injection Hr as <- <-. split; [done|]. right; left. split; [done|]. split; [congruence|done]. }
  unfold gets, modify, mret, M_ret in Hr. set (open := elements _) in Hr. set (s3 := foldr _ _ open) in Hr.
  assert (Hs3 : ps_world s3 = ps_world s2 /\ ps_calls s3 = ps_calls s2).
  { unfold s3. clear. induction open; cbn; done. }
  clearbody s3 open. destruct Hs3 as (Hw3 & Hc3). unfold mbind at 1, M_bind at 1, releaseOnError in Hr.
  destruct (forkCheckpoint p uid atSeq open s3) as [s4 r4] eqn:E4. apply forkCheckpoint_run in E4 as (Hask4 & Hcase).
  assert (Hl3 : logOf s3 = logOf s2) by (unfold logOf; by rewrite Hw3).
  assert (Hask : asks provisionless s s4).
  { etransitivity; [exact Hask2|]. destruct Hask4 as (n & Hn & Fn). exists n. by rewrite <- Hc3. }
  assert (Hend : exists s5, (s5 = s4 \/ s5 = endCheckpoint uid s4) /\
    (s5, match r4 with Ok ref => Ok (ref, true) | Err e => Err e end) = (s', r)).
  { destruct r4; [exists s4|exists (endCheckpoint uid s4)]; split; auto. }
  destruct Hend as (s5 & Hs5 & [= -> <-]).
  assert (Hlog : logOf s' = logOf s4 /\ ps_calls s' = ps_calls s4) by by destruct Hs5 as [->| ->].
  destruct Hlog as [Hlog Hcalls]. split; [destruct Hask as (n & Hn & Fn); exists n; by rewrite Hcalls|].
  destruct Hcase as [[Hj4 Hok]|(ref & (Hh & Hf & Ht & rec & Hsq & Hfc & Hev & Hj4) & Hx)].
  - right; left. rewrite Hlog. split; [by destruct r4|]. split; [congruence|done].
  - right; right. exists ref. split; [done|]. split.
    + unfold checkpointed. rewrite Hlog. split; [done|]. split; [congruence|]. split; [done|].
      exists rec. repeat (split; [done|]). congruence.
    + intros x m Hr4. destruct r4 as [y|]; [|done]. injection Hr4 as <- _. by apply Hx.
Qed.

(** ** The fan-out *)

Lemma onChild_parent {A} (m : M C goerr A) (s : S * C) : (fst (onChild m s)).1 = s.1.
Proof. unfold onChild. by destruct (m s.2). Qed.

(** Copying the log reads the parent. *)
Lemma Fork_parent atSeq (s s' : S * C) r : Fork atSeq s = (s', r) ->
  journal s'.1 = journal s.1 /\ curFence s'.1 = curFence s.1.
Proof.
  unfold Fork, onParent. intros Hr.
  unfold mbind at 1, M_bind at 1 in Hr. destruct (st_CheckWritable s.1) as [p1 [|e]] eqn:E1; apply writable_law in E1 as [Hj1 Hf1];
    [|by injection Hr as <- <-].
  unfold mbind at 1, M_bind at 1 in Hr. pose proof (onChild_parent st_CheckWritable (p1, s.2)) as Hp2.
  destruct (onChild _ _) as [s2 [|e]]; cbn [fst snd] in *; [|injection Hr as <- <-; by rewrite Hp2].
  unfold mbind at 1, M_bind at 1 in Hr. destruct (st_Read 1 s2.1) as [p3 [recs|e]] eqn:E3; apply read_law in E3 as (Hj3 & Hf3 & _); cbn [fst snd] in *;
    [|injection Hr as <- <-; cbn; split; congruence].
  unfold mbind at 1, M_bind at 1 in Hr. pose proof (onChild_parent st_NewFence (p3, s2.2)) as Hp4.
  destruct (onChild st_NewFence _) as [s4 [f|e]]; cbn [fst snd] in *; [|injection Hr as <- <-; split; congruence].
  unfold mbind at 1, M_bind at 1 in Hr. pose proof (onChild_parent (forkCopy atSeq f 0 recs) s4) as Hp5.
  destruct (onChild (forkCopy _ _ _ _) _) as [s5 [l|e]]; cbn [fst snd] in *; [|injection Hr as <- <-; split; congruence].
  unfold mbind at 1, M_bind at 1 in Hr. pose proof (onChild_parent (st_Append l f (forkMarker atSeq)) s5) as Hp6.
  destruct (onChild (st_Append _ _ _) _) as [s6 [x|e]]; cbn [fst snd] in *; injection Hr as <- <-; split; congruence.
Qed.

Definition uids (cs : list (ForkChild (C := C))) : list string := map child_UID cs.

Lemma forkLog_run atSeq (c : ForkChild (C := C)) (s : P) : let '((s', c'), r) := forkLog atSeq c s in
  sameLog s s' /\ ps_calls s' = ps_calls s /\ child_UID c' = child_UID c.
Proof.
  unfold forkLog, sameLog, logOf. destruct (Fork _ _) as [[pl cl] r] eqn:E. by apply Fork_parent in E.
Qed.

(** What a fan-out asked of the runtime: the children in order, at most one of them unanswered. *)
Definition fanned (ref : SnapshotRef) (names : list string) (calls : list RuntimeCall) (created : list string)
    (err : option goerr) : Prop :=
  exists j, calls = map (CallFork ref) (take j names) /\ created = take (length created) names /\
  match err with
  | None => created = names /\ j = length names
  | Some e => (j = length created /\ (1 <= j)%nat) \/
      (j = Datatypes.S (length created) /\ exists uid t, names !! length created = Some uid /\ b_Fork (p_backend p) t ref uid = Err e)
  end.

Lemma fanned_cons ref n names calls created err : fanned ref names calls created err ->
  fanned ref (n :: names) (CallFork ref n :: calls) (n :: created) err.
Proof.
  intros (j & -> & Hc & He). exists (Datatypes.S j). cbn. split; [done|]. split; [by rewrite Hc at 1|].
  destruct err as [e|].
  - destruct He as [[-> ?]|(-> & uid & t & Hl & Hb)]; [left; split; lia|right]. split; [lia|]. by exists uid, t.
  - by destruct He as [-> ->].
Qed.

Lemma forkLoop_run ref atSeq (todo : list (ForkChild (C := C))) : forall (s : P),
  let '(s', run) := forkLoop p ref atSeq todo s in
  sameLog s s' /\ exists calls, ps_calls s' = ps_calls s ++ calls /\
    fanned ref (uids todo) calls (fr_created run) (fr_err run).
Proof.
  induction todo as [|c cs IH]; intros s; cbn [forkLoop].
  { split; [done|]. exists []. split; [by rewrite app_nil_r|]. exists 0%nat. repeat split. }
  destruct (called_run (CallFork ref (child_UID c)) s) as (s1 & Hc1 & Hl1 & Hk1 & _).
  unfold mbind, M_bind. rewrite Hc1. unfold lift. set (t := w_tick (ps_world s)) in *.
  destruct (b_Fork (p_backend p) t ref (child_UID c)) as [i|e] eqn:Eb.
  2:{ split; [done|]. exists [CallFork ref (child_UID c)]. split; [done|]. exists 1%nat. split; [done|]. split; [done|].
      right. split; [done|]. by exists (child_UID c), t. }
  pose proof (forkLog_run atSeq c s1) as Hf. destruct (forkLog atSeq c s1) as [[s2 c2] [u|e]]; destruct Hf as (Hl2 & Hk2 & Hu2).
  2:{ split; [by etransitivity|]. exists [CallFork ref (child_UID c)]. split; [by rewrite Hk2|]. exists 1%nat. split; [done|].
      split; [cbn; by rewrite Hu2|]. left. split; [done|]. cbn. lia. }
  specialize (IH s2). destruct (forkLoop p ref atSeq cs s2) as [s3 run]. destruct IH as (Hl3 & calls & Hk3 & Hf3).
  split; [etransitivity; [exact Hl1|]; by etransitivity|]. exists (CallFork ref (child_UID c) :: calls).
  split; [by rewrite Hk3, Hk2, Hk1, <- app_assoc|]. cbn [fr_created fr_err]. rewrite Hu2. by apply fanned_cons.
Qed.

Lemma rollbackFork_run names : forall (s : P),
  sameLog s (fst (rollbackFork names s)) /\ ps_calls (fst (rollbackFork names s)) = ps_calls s ++ map CallStop names.
Proof.
  induction names as [|n ns IH]; intros s; cbn [rollbackFork]; [by rewrite app_nil_r|].
  destruct (called_run (CallStop n) s) as (s1 & Hc1 & Hl1 & Hk1 & _).
  unfold stopOrphan, mbind, M_bind. rewrite Hc1. cbn. destruct (IH s1) as [Hl Hk].
  split; [by etransitivity|]. by rewrite Hk, Hk1, <- app_assoc.
Qed.

Lemma forkPreflight_uids (cs : list (ForkChild (C := C))) : uids (fst (forkPreflight cs)) = uids cs.
Proof.
  induction cs as [|c cs IH]; cbn; [done|]. destruct (st_CheckWritable _) as [log [|e]]; cbn; [|done].
  destruct (forkPreflight cs). cbn in *. by rewrite IH.
Qed.

(** A fan-out with what it undid. *)
Definition compensated (ref : SnapshotRef) (names : list string) (calls : list RuntimeCall) (r : res unit) : Prop :=
  exists forks created, fanned ref names forks created (match r with Ok _ => None | Err e => Some e end) /\
    calls = forks ++ match r with Ok _ => [] | Err _ => map CallStop created end.

Lemma forkChildren_run uid marked ref atSeq (cs : list (ForkChild (C := C))) (s : P) :
  let '(s', (_, r)) := forkChildren p uid marked ref atSeq cs s in
  sameLog s s' /\ exists calls, ps_calls s' = ps_calls s ++ calls /\ compensated ref (uids cs) calls r.
Proof.
  unfold forkChildren. pose proof (forkLoop_run ref atSeq cs s) as Hl. destruct (forkLoop _ _ _ _ _) as [s1 run].
  destruct Hl as (Hl1 & calls & Hk1 & Hf). set (s2 := if marked then endCheckpoint uid s1 else s1).
  assert (Hs2 : sameLog s1 s2 /\ ps_calls s2 = ps_calls s1) by (unfold s2; by destruct marked).
  clearbody s2. destruct Hs2 as [Hl2 Hk2]. destruct (fr_err run) as [e|].
  - destruct (rollbackFork_run (fr_created run) s2) as [Hl3 Hk3]. split; [etransitivity; [exact Hl1|]; by etransitivity|].
    exists (calls ++ map CallStop (fr_created run)). split; [by rewrite Hk3, Hk2, Hk1, app_assoc|]. by exists calls, (fr_created run).
  - split; [by etransitivity|]. exists calls. split; [by rewrite Hk2|]. exists calls, (fr_created run). by rewrite app_nil_r.
Qed.

(** ** Fork *)

(** Refused: nothing was provisioned, nothing written; away from the fork point not even a fence. *)
Definition fork_refused (atSeq : Z) (s s' : P) (calls : list RuntimeCall) (r : res unit) : Prop :=
  is_ok r = false /\ Forall provisionless calls /\ journal (logOf s') = journal (logOf s) /\
  (headOf (journal (logOf s)) <> atSeq -> sameLog s s').
(** Fanned out from [ref], after requests that provisioned nothing. *)
Definition fork_fanned (ref : SnapshotRef) (names : list string) (calls : list RuntimeCall) (r : res unit) : Prop :=
  exists pre rest, calls = pre ++ rest /\ Forall provisionless pre /\ compensated ref names rest r.

Definition fork_spec (uid : string) (names : list string) (atSeq : Z) (s s' : P) (r : res unit) : Prop :=
  exists calls, ps_calls s' = ps_calls s ++ calls /\
  (fork_refused atSeq s s' calls r \/
   admitted false /\ sameLog s s' /\ fork_fanned (parentHandle uid) names calls r \/
   exists ref, admitted true /\ checkpointed uid atSeq ref s s' /\
     (is_ok r = false /\ Forall provisionless calls \/ ExternalURI ref <> EmptyString /\ fork_fanned ref names calls r)).

Lemma refused_now uid names atSeq (s s' : P) r : is_ok r = false -> sameLog s s' -> ps_calls s' = ps_calls s ->
  fork_spec uid names atSeq s s' r.
Proof. intros Hr Hl Hc. exists []. split; [by rewrite app_nil_r|]. left. split; [done|]. by split; [|split; [apply Hl|]]. Qed.

Lemma checkpointed_same uid atSeq ref (s s1 s2 : P) : checkpointed uid atSeq ref s s1 -> sameLog s1 s2 ->
  checkpointed uid atSeq ref s s2.
Proof.
  intros (Hh & Hf & Ht & rec & Hs & Hfe & He & Hj) [Hj2 Hf2]. split; [done|]. split; [congruence|]. split; [done|].
  exists rec. repeat (split; [congruence|]). congruence.
Qed.

Lemma fork_from uid names atSeq (cs : list (ForkChild (C := C))) (s s' : P) out r : names = uids cs ->
  (let '(s, r) := forkSource p uid atSeq s in
   match r with
   | Err e => (s, (cs, Err e))
   | Ok (ref, marked) => forkChildren p uid marked ref atSeq cs s
   end) = (s', (out, r)) -> fork_spec uid names atSeq s s' r.
Proof.
  intros ->. destruct (forkSource p uid atSeq s) as [s1 [[ref marked]|e]] eqn:E1; apply forkSource_run in E1 as ((pre & Hk1 & Hpre) & Hcase).
  - pose proof (forkChildren_run uid marked ref atSeq cs s1) as Hc. intros Hr. rewrite Hr in Hc.
    destruct Hc as (Hl2 & calls & Hk2 & Hcomp). exists (pre ++ calls). split; [by rewrite Hk2, Hk1, app_assoc|]. right.
    destruct Hcase as [(Had & [= -> ->] & Hl1)|[(? & _)|(ref' & Had & Hck & Hx)]]; [left|done|right].
    + split; [done|]. split; [by etransitivity|]. by exists pre, calls.
    + destruct (Hx _ _ eq_refl) as [-> Hu]. exists ref'. split; [done|]. split; [by eapply checkpointed_same|]. right. split; [done|].
      by exists pre, calls.
  - intros [= <- <- <-]. exists pre. split; [done|]. destruct Hcase as [(_ & ? & _)|[(_ & Hj & Hn)|(ref & Had & Hck & _)]]; [done|left|right; right].
    + done.
    + exists ref. split; [done|]. split; [done|]. by left.
Qed.

(** The specification sees of a state its log and its calls. *)
Definition sameSeen (s s' : P) : Prop := sameLog s s' /\ ps_calls s' = ps_calls s.

Lemma fork_spec_seen uid names atSeq (s1 s2 s s' : P) r : sameSeen s s1 -> sameSeen s2 s' ->
  fork_spec uid names atSeq s1 s2 r -> fork_spec uid names atSeq s s' r.
Proof.
  intros [[Hj Hf] Hc] [Hl2 Hc2] (calls & Hk & Hcase). exists calls. split; [by rewrite Hc2, Hk, Hc|].
  destruct Hcase as [(Ho & Hp & Hj1 & Hn)|[(Had & Hl1 & Hfan)|(ref & Had & Hck & Hfan)]].
  - left. split; [done|]. split; [done|]. destruct Hl2 as [Hj2 Hf2]. split; [congruence|]. intros Hh.
    destruct Hn as [??]; [congruence|]. split; congruence.
  - right; left. split; [done|]. split; [|done]. destruct Hl1, Hl2. split; congruence.
  - right; right. exists ref. split; [done|]. split; [|done].
    apply (checkpointed_same _ _ _ _ _ s') in Hck as (Hh & Hf2 & Ht & rec & Hs & Hfe & He & Hjr); [|done].
    split; [congruence|]. split; [congruence|]. split; [done|]. exists rec. repeat (split; [done|]). congruence.
Qed.
End Fanout.

(** ** Property *)

(** Forking compute is all or nothing, from one recorded state. [Fork] is refused without a request
    that provisions compute and without a record, or it clones the children in order and all of them
    from the same handle: the parent's for a harness that replays; for a stateful one an external snapshot
    which the parent's journal, unchanged up to the fork point at its head, now records in a SUSPEND right
    after it, under the second fence minted since. If a clone or the copy of a log fails, exactly
    the children provisioned so far are stopped; on success none is. *)
Theorem Fork_fans_out `{Host} `{PlacementHost} {S C : Type} `{StoreLaws S} `{!Store C} (p : Placer) uid
    (children : list (ForkChild (C := C))) atSeq (s s' : PState S) out r :
  placer_Fork p uid children atSeq s = (s', (out, r)) -> fork_spec p uid (uids children) atSeq s s' r.
Proof.
  unfold placer_Fork. destruct (acquire uid guardRead (ps_guard s)) as [g [h|e]]; [|intros [= <- <- <-]; by apply refused_now].
  destruct (onStore st_CheckWritable (setGuardP g s)) as [s1 [|e]] eqn:E1; apply writable_run in E1 as (Hl1 & Hk1 & _);
    [|intros [= <- <- <-]; by apply refused_now].
  destruct (forkPreflight children) as [cs [e|]] eqn:Ep; pose proof (forkPreflight_uids children) as Hu; rewrite Ep in Hu; cbn in Hu;
    [intros [= <- <- <-]; by apply refused_now|].
  intros Hr. assert (Hs : sameSeen s s1) by done.
  destruct (let '(s2, r2) := forkSource p uid atSeq s1 in
    match r2 with Err e => (s2, (cs, Err e)) | Ok (ref, marked) => forkChildren p uid marked ref atSeq cs s2 end)
    as [s2 [out2 r2]] eqn:Ef.
  assert (Hseen : sameSeen s2 s' /\ r2 = r).
  { destruct (forkSource p uid atSeq s1) as [s3 [[ref marked]|e]].
    - rewrite Ef in Hr. by injection Hr as <- <- <-.
    - injection Ef as <- <- <-. by injection Hr as <- <- <-. }
  destruct Hseen as [Hs2 ->]. apply (fork_spec_seen p uid _ atSeq s1 s2); [done|done|]. by eapply fork_from.
Qed.

(** A stateful harness at the head of its log, and a runtime that cannot clone the second child. *)
Definition memoryBackend : Backend := {|
  b_Create := b_Create exampleBackend; b_Restore := b_Restore exampleBackend; b_Stop := b_Stop exampleBackend;
  b_Snapshot := fun _ uid => Ok (mkSnapshotRef uid "s3://snapshot" true true);
  b_Fork := fun _ ref child => if bool_decide (child = "b"%string) then Err (EText "no capacity") else Ok (exampleIncarnation child);
  b_Capabilities := mkRuntimeCapabilities true true true true;
  b_Describe := fun _ => Ok (mkDescriptor "echo" "1" ["echo"%string] []
    (mkCapabilities ResumabilityRequiresMemorySnapshot true false false false));
  b_describesLive := true;
|}.
Definition memoryPlacer : Placer :=
  mkPlacer memoryBackend (p_model examplePlacer) None None (p_dial examplePlacer) "echo".
Definition exampleFork : PState Log * (list (ForkChild (C := Log)) * res unit) :=
  placer_Fork (H := exampleHost) (H1 := examplePlacementHost) (H2 := @Log_Store exampleEncoding) (Store0 := @Log_Store exampleEncoding)
    memoryPlacer "uid" [mkForkChild "a" New; mkForkChild "b" New] 5 (placerState echoWorld).

Lemma Fork_fans_out_witness :
  ps_calls (fst exampleFork) = [CallDescribe; CallSnapshot "uid"; CallFork (mkSnapshotRef "uid" "s3://snapshot" true true) "a";
    CallFork (mkSnapshotRef "uid" "s3://snapshot" true true) "b"; CallStop "a"] /\
  fork_spec (H := exampleHost) (H1 := examplePlacementHost) (H3 := Log_StoreView) memoryPlacer "uid" ["a"; "b"]%string 5
    (placerState echoWorld) (fst exampleFork) (snd (snd exampleFork)).
Proof.
  split; [vm_compute; reflexivity|].
  apply (Fork_fans_out (H := exampleHost) (H0 := examplePlacementHost) (H1 := @Log_Store exampleEncoding) (H2 := Log_StoreView)
    (H3 := @Log_StoreLaws exampleEncoding) (Store0 := @Log_Store exampleEncoding) memoryPlacer "uid"
    [mkForkChild "a" New; mkForkChild "b" New] 5 (placerState echoWorld) (fst exampleFork) (fst (snd exampleFork))).
  unfold exampleFork. destruct (placer_Fork _ _ _ _ _) as [? [? ?]]. reflexivity.
Defined.
