(* ===== verification/Registry.v ===== *)
(** * The registry of harnesses (placement/registry.go)

    Which placer runs a harness. A placer is a pointer: registering it replaces its session guard and its
    session set by the registry's, and the same placer may be offered to several registries or under
    several names. The first part models registration on a heap of placers; the second, the operations
    the registry routes, on the state its placers share. *)
From stdpp Require Import sorting.
From S2P Require Import Prelude GoErrors Api Canon EventLog Executions Approvals Harness Sinks Controller SessionGuard Placement.

(** ** Objects *)

(** A [*Placer]'s own fields: what it runs, and the guard and the session set it points to. *)
Record placerObj := mkPlacerObj { po_placer : Placer; po_guard : nat; po_sessions : nat }.
(** [sessionSet]. *)
Record sessionSet := mkSessionSet { set_live : gmap string (gset nat); set_checkpoints : gset string; shared : bool }.

Record Heap := mkHeap {
  placers : gmap nat placerObj;
  guards : gmap nat sessionGuard;
  sets : gmap nat sessionSet;
  nextObj : nat;
}.

Record Registry := mkRegistry {
  byName : gmap string nat;
  unavailable : gmap string goerr;
  static : gset string;
  reserved : gset string;
  defaultHarness : string;
  r_guard : nat;
  r_sessions : nat;
}.

Definition setBusy (s : sessionSet) : bool :=
  negb (bool_decide (set_live s = ∅)) || negb (bool_decide (set_checkpoints s = ∅)).

(** [New(backend, model, opts...)]. *)
Definition newPlacer (p : Placer) (h : Heap) : Heap * nat :=
  let n := nextObj h in
  (mkHeap (<[n := mkPlacerObj p n n]> (placers h)) (<[n := newSessionGuard]> (guards h))
     (<[n := mkSessionSet ∅ ∅ false]> (sets h)) (S n), n).

(** A placer may join: it belongs to no registry and nothing is in progress on it. *)
Definition joinError (name : string) (p : placerObj) (h : Heap) : option goerr :=
  if match sets h !! po_sessions p with Some s => shared s | None => false end
  then Some (EText "placer already belongs to another registry")
  else if match sets h !! po_sessions p with Some s => setBusy s | None => false end
       || match guards h !! po_guard p with Some g => guardBusy g | None => false end
  then Some (EText "placer has an operation in progress") else None.

Definition joinPlacer (ptr : nat) (r : Registry) (h : Heap) : Heap :=
  mkHeap (alter (fun p => mkPlacerObj (po_placer p) (r_guard r) (r_sessions r)) ptr (placers h)) (guards h) (sets h) (nextObj h).

(** [NewRegistry(defaultHarness, placers, opts...)]; [None] is a nil placer. Go visits the map in any
    order: which of several errors is reported depends on it. *)
Fixpoint namesError (ps : list (string * option nat)) : option goerr :=
  match ps with
  | [] => None
  | (name, p) :: rest =>
      if bool_decide (name = EmptyString) then Some (EText "harness name cannot be empty")
      else match p with None => Some (EText "harness has no placer") | Some _ => namesError rest end
  end.
Fixpoint placersError (ps : list (string * option nat)) (h : Heap) : option goerr :=
  match ps with
  | [] => None
  | (name, None) :: rest => placersError rest h
  | (name, Some ptr) :: rest =>
      match placers h !! ptr with
      | Some p => match joinError name p h with Some e => Some e | None => placersError rest h end
      | None => placersError rest h
      end
  end.
Fixpoint registerAll (ps : list (string * option nat)) (rh : Registry * Heap) : Registry * Heap :=
  match ps with
  | [] => rh
  | (name, None) :: rest => registerAll rest rh
  | (name, Some ptr) :: rest =>
      let '(r, h) := rh in
      registerAll rest
        (mkRegistry (<[name := ptr]> (byName r)) (unavailable r) ({[name]} ∪ static r) (reserved r) (defaultHarness r)
           (r_guard r) (r_sessions r), joinPlacer ptr r h)
  end.
Definition WithReservedNames (names : list string) (r : Registry) : Registry :=
  mkRegistry (byName r) (unavailable r) (static r) (list_to_set names ∪ reserved r) (defaultHarness r) (r_guard r) (r_sessions r).

Definition NewRegistry (defaultHarness : string) (ps : gmap string (option nat)) (names : list string) (h : Heap)
    : Heap * res Registry :=
  let list := map_to_list ps in
  if bool_decide (ps = ∅) then (h, Err (EText "registry needs at least one harness"))
  else match namesError list with
  | Some e => (h, Err e)
  | None =>
      if bool_decide (defaultHarness = EmptyString) then (h, Err (EText "registry needs a default harness"))
      else if bool_decide (ps !! defaultHarness = None) then (h, Err (EText "default harness is not registered"))
      else
        let n := nextObj h in
        let r := mkRegistry ∅ ∅ ∅ ∅ defaultHarness n n in
        let h := mkHeap (placers h) (<[n := newSessionGuard]> (guards h)) (<[n := mkSessionSet ∅ ∅ true]> (sets h)) (S n) in
        match placersError list h with
        | Some e => (h, Err e)
        | None => let '(r, h) := registerAll list (r, h) in (h, Ok (WithReservedNames names r))
        end
  end.

(** [Static], [Reserved]. *)
Definition Static (r : Registry) (name : string) : bool := bool_decide (name ∈ static r).
Definition Reserved (r : Registry) (name : string) : bool := bool_decide (name ∈ static r) || bool_decide (name ∈ reserved r).

Definition harnessExists : goerr := EWrap "harness" (ESentinel ErrHarnessExists).

(** The refusals [Add] and [MarkUnavailable] share. *)
Definition nameError (r : Registry) (name : string) : option goerr :=
  if Reserved r name then Some (EWrap "reserved for a static harness" (ESentinel ErrHarnessExists))
  else if bool_decide (byName r !! name <> None) then Some harnessExists
  else if bool_decide (unavailable r !! name <> None) then Some harnessExists
  else None.

(** [Add(name, p)]. *)
Definition Add (name : string) (p : option nat) (r : Registry) (h : Heap) : (Registry * Heap) * res unit :=
  match p with
  | None => ((r, h), Err (EText "Add needs a name and a placer"))
  | Some ptr =>
      if bool_decide (name = EmptyString) then ((r, h), Err (EText "Add needs a name and a placer"))
      else match nameError r name with
      | Some e => ((r, h), Err e)
      | None =>
          let r' := mkRegistry (<[name := ptr]> (byName r)) (unavailable r) (static r) (reserved r) (defaultHarness r)
                      (r_guard r) (r_sessions r) in
          match placers h !! ptr with
          | None => ((r, h), Err (EText "unreachable: a pointer to a placer"))
          | Some p =>
              if bool_decide (po_sessions p = r_sessions r) then ((r', h), Ok tt)
              else match joinError name p h with
              | Some e => ((r, h), Err e)
              | None => ((r', joinPlacer ptr r h), Ok tt)
              end
          end
      end
  end.

(** [MarkUnavailable(name, cause)]. *)
Definition MarkUnavailable (name : string) (cause : option goerr) (r : Registry) : Registry * res unit :=
  match cause with
  | None => (r, Err (EText "MarkUnavailable needs a name and a cause"))
  | Some e =>
      if bool_decide (name = EmptyString) then (r, Err (EText "MarkUnavailable needs a name and a cause"))
      else match nameError r name with
      | Some err => (r, Err err)
      | None => (mkRegistry (byName r) (<[name := e]> (unavailable r)) (static r) (reserved r) (defaultHarness r)
                   (r_guard r) (r_sessions r), Ok tt)
      end
  end.

(** [sort.Strings]: by bytes. *)
Definition strLe (a b : string) : Prop := String.leb a b = true.
#[export] Instance strLe_dec a b : Decision (strLe a b).
Proof. unfold strLe. apply _. Defined.
Definition sortStrings (names : list string) : list string := merge_sort strLe names.

(** [StaticNames], [ReservedNames], [Names]: the keys of the maps, sorted. *)
Definition StaticNames (r : Registry) : list string := sortStrings (elements (static r)).
Definition ReservedNames (r : Registry) : list string :=
  sortStrings (StaticNames r ++ filter (fun name => negb (Static r name)) (elements (reserved r))).
Definition Names (r : Registry) : list string :=
  sortStrings ((map_to_list (byName r)).*1 ++ (map_to_list (unavailable r)).*1).

(** [Has(name)]. *)
Definition Has (r : Registry) (name : string) : bool :=
  bool_decide (byName r !! name <> None) || bool_decide (unavailable r !! name <> None).

(** [For(harness)]. *)
Definition For (r : Registry) (harness : string) : res nat :=
  let harness := if bool_decide (harness = EmptyString) then defaultHarness r else harness in
  match unavailable r !! harness with
  | Some cause => Err (EJoin "harness" [ESentinel ErrHarnessUnservable; cause])
  | None =>
      match byName r !! harness with
      | Some p => Ok p
      | None => Err (EWrap "registered" (ESentinel ErrUnknownHarness))
      end
  end.

(** [Default()]. *)
Definition Default (r : Registry) : string := defaultHarness r.

(** ** Routing

    All placers of a registry share its guard and its session set, the ones in [PState]; a registered
    pointer is resolved in the heap. *)
Section Routing.
Context `{Host} `{Encoding} `{PlacementHost} {S : Type} `{Store S}.
Abbreviation P := (PState S).
Variables (r : Registry) (h : Heap).

(** [registryResumeConfig]: the check, a closure of the caller; whether there is an observer; the
    expected head. *)
Record registryResumeConfig := mkRegistryResumeConfig {
  reg_check : option (string -> M P goerr unit);
  reg_onRecord : bool;
  reg_onDelta : bool;
  reg_expectedLastSeq : option Z;
}.

Definition placerAt (name : string) : res Placer :=
  match For r name with
  | Ok ptr => match placers h !! ptr with Some p => Ok (po_placer p) | None => Err (EText "unreachable: a pointer to a placer") end
  | Err e => Err e
  end.

(** The name to route by, and the placer behind it: a recorded name that is unknown is a recovery
    precondition. *)
Definition routeName (recorded : option string) (sessionDefaultName : string) : string :=
  let name := default sessionDefaultName recorded in
  if bool_decide (name = EmptyString) then defaultHarness r else name.
Definition route (recorded : option string) (sessionDefaultName : string) : res (string * Placer) :=
  let name := routeName recorded sessionDefaultName in
  match placerAt name with
  | Ok p => Ok (name, p)
  | Err e =>
      Err (if (if recorded is Some _ then true else false) && errors_Is e ErrUnknownHarness
           then EJoin "recorded harness" [ESentinel ErrRecordedHarnessNotServed; e] else e)
  end.
Definition runCheck (cfg : registryResumeConfig) (name : string) : M P goerr unit :=
  match reg_check cfg with Some check => check name | None => mret tt end.

(** The harness of a recorded invocation, unless it is empty. *)
Definition recordedHarness (x : option ExecutionStart) : option string :=
  match x with
  | Some x => if bool_decide (es_Harness x = EmptyString) then None else Some (es_Harness x)
  | None => None
  end.

(** [WithSessionGuard] and [WithSessionRead]. *)
Definition WithSessionGuard {A} (uid : string) (operation : M P goerr A) : M P goerr A :=
  withGuard (fun e => e) uid guardDelete operation.
Definition WithSessionRead {A} (uid : string) (operation : M P goerr A) : M P goerr A :=
  withGuard (fun e => e) uid guardRead operation.

(** [Registry.Resume(ctx, log, sessionUID, sessionDefaultName, opts...)]. *)
Definition registry_Resume (cfg : registryResumeConfig) (uid sessionDefaultName : string) : M P goerr unit :=
  withGuard (fun e => e) uid guardOperation (
    do! onStore st_CheckWritable in
    do! checkResumeHead (reg_expectedLastSeq cfg) in
    let! state := onStore (InspectApproval 0) in
    if match state with Some s => as_Inherited s && isNil (as_Receipt s) | None => false end
    then throw (ESentinel ErrInheritedToolIntent)
    else
      let! invocation := onWorldP ResumeInvocation in
      let! np := lift (route (recordedHarness invocation) sessionDefaultName) in
      let '(name, p) := (np : string * Placer) in
      do! runCheck cfg name in
      let resumeCfg := mkResumeConfig name (reg_onRecord cfg) (reg_onDelta cfg) (reg_expectedLastSeq cfg) in
      do! resumeApproval p uid state resumeCfg in
      resume p resumeCfg uid).

(** [Registry.Approve(ctx, log, sessionUID, decision)] at wall-clock time [now]. *)
Definition registry_Approve (now : Z) (uid : string) (d : ApprovalDecision) : M P goerr Record_ :=
  withGuard (fun e => e) uid guardOperation (withCheckpoint uid (onStore (Approve now d))).

(** The recorded harness of an owned approval without a receipt. *)
Definition suspendRecorded (state : option ApprovalState) : option string :=
  match state with
  | Some s => if negb (as_Inherited s) && isNil (as_Receipt s) then recordedHarness (as_Invocation s) else None
  | None => None
  end.

(** [Registry.Suspend(ctx, log, sessionUID, sessionDefaultName, opts...)]. *)
Definition registry_Suspend (cfg : registryResumeConfig) (uid sessionDefaultName : string) : M P goerr SnapshotRef :=
  withGuard (fun e => e) uid guardOperation (
    do! onStore st_CheckWritable in
    let! state := onStore (InspectApproval 0) in
    let! np := lift (route (suspendRecorded state) sessionDefaultName) in
    let '(name, p) := (np : string * Placer) in
    do! runCheck cfg name in
    withCheckpoint uid (suspend p uid None)).
End Routing.
