(* ===== verification/Routing.v ===== *)
(** * Registries keep their placers (placement/registry.go)

    Registration as a transition system over any number of registries on one heap, and what an operation
    routed by a registry may touch. *)
From S2P Require Import Prelude GoErrors Api Canon EventLog Executions Approvals Harness Sinks Controller Agents Parking SessionGuard Placement Admission Gates Registry.

(** ** Registration over time *)

Definition Hosts : Type := Heap * list Registry.

(** The placers a caller of [NewRegistry] or [Add] holds. *)
Definition known (h : Heap) (p : option nat) : Prop := forall ptr, p = Some ptr -> is_Some (placers h !! ptr).
(** What sessions do meanwhile: guards and the contents of the sets change, nothing else. *)
Definition working (h h' : Heap) : Prop :=
  placers h' = placers h /\ nextObj h' = nextObj h /\ shared <$> sets h' = shared <$> sets h /\
  dom (guards h') = dom (guards h).

Inductive reg_step : Hosts -> Hosts -> Prop :=
  | step_placer p h rs : reg_step (h, rs) (fst (newPlacer p h), rs)
  | step_registry d ps names h rs h' r : map_Forall (fun _ => known h) ps -> NewRegistry d ps names h = (h', Ok r) ->
      reg_step (h, rs) (h', rs ++ [r])
  | step_no_registry d ps names h rs h' e : NewRegistry d ps names h = (h', Err e) -> reg_step (h, rs) (h', rs)
  | step_add i name p h rs r r' h' x : rs !! i = Some r -> known h p -> Add name p r h = ((r', h'), x) ->
      reg_step (h, rs) (h', <[i := r']> rs)
  | step_mark i name cause h rs r r' x : rs !! i = Some r -> MarkUnavailable name cause r = (r', x) ->
      reg_step (h, rs) (h, <[i := r']> rs)
  | step_work h h' rs : working h h' -> reg_step (h, rs) (h', rs).

Definition noHosts : Hosts := (mkHeap ∅ ∅ ∅ 0, []).
Definition reg_reachable (σ : Hosts) : Prop := rtc reg_step noHosts σ.

(** ** Invariant *)

Definition isShared (h : Heap) (n : nat) : Prop := exists s, sets h !! n = Some s /\ shared s = true.

(** The names of one registry. *)
Record names_inv (r : Registry) : Prop := {
  ni_disjoint : forall name, byName r !! name = None \/ unavailable r !! name = None;
  ni_static : forall name, name ∈ static r -> is_Some (byName r !! name);
  ni_default : defaultHarness r ∈ static r /\ defaultHarness r <> EmptyString;
  ni_reserved : forall name, name ∈ reserved r -> name ∉ static r -> byName r !! name = None /\ unavailable r !! name = None;
}.

(** A registry and the heap. *)
Record shares_inv (h : Heap) (r : Registry) : Prop := {
  si_shared : isShared h (r_sessions r);
  si_entry : forall name ptr, byName r !! name = Some ptr -> exists p, placers h !! ptr = Some p /\ po_sessions p = r_sessions r;
  si_guard : forall ptr p, placers h !! ptr = Some p -> po_sessions p = r_sessions r -> po_guard p = r_guard r;
}.

Record heap_inv (h : Heap) : Prop := {
  hi_placer : forall ptr p, placers h !! ptr = Some p -> (po_sessions p < nextObj h)%nat;
  hi_set : forall n, is_Some (sets h !! n) -> (n < nextObj h)%nat;
  hi_ptr : forall ptr, is_Some (placers h !! ptr) -> (ptr < nextObj h)%nat;
}.

Record reg_inv (σ : Hosts) : Prop := {
  ri_heap : heap_inv σ.1;
  ri_names : Forall names_inv σ.2;
  ri_shares : Forall (shares_inv σ.1) σ.2;
  ri_distinct : forall i j r1 r2, σ.2 !! i = Some r1 -> σ.2 !! j = Some r2 -> r_sessions r1 = r_sessions r2 -> i = j;
}.

(** *** A placer joins *)

Lemma joinError_None name p h : joinError name p h = None -> ~ isShared h (po_sessions p).
Proof. unfold joinError, isShared. intros Hj (s & Hs & Hsh). by rewrite Hs, Hsh in Hj. Qed.

Lemma join_heap ptr r h : (r_sessions r < nextObj h)%nat -> heap_inv h -> heap_inv (joinPlacer ptr r h).
Proof.
  intros Hr [Hp Hs Hq]. split; cbn; [| done |].
  - intros q p. rewrite lookup_alter_Some. intros [(-> & p0 & Hp0 & ->)|[_ Hq']]; [done|by eapply Hp].
  - intros q [p Hp']. apply Hq. rewrite lookup_alter_Some in Hp'. destruct Hp' as [(-> & p0 & Hp0 & _)|[_ ?]]; by eexists.
Qed.

(** The registry it joins gains it, every other keeps its own. *)
Lemma join_shares_own ptr r h : shares_inv h r -> shares_inv (joinPlacer ptr r h) r.
Proof.
  intros [Hs He Hg]. split; [exact Hs| |]; cbn.
  - intros name q Hn. destruct (He name q Hn) as (p & Hp & Hps). destruct (decide (q = ptr)) as [->|Hne].
    + eexists. rewrite lookup_alter_eq, Hp. by split.
    + exists p. by rewrite lookup_alter_ne.
  - intros q p. rewrite lookup_alter_Some. intros [(-> & p0 & _ & ->)|[_ Hq]]; [done|by eapply Hg].
Qed.

Lemma join_shares_other ptr p0 r h r2 : placers h !! ptr = Some p0 -> ~ isShared h (po_sessions p0) \/ po_sessions p0 = r_sessions r ->
  r_sessions r2 <> r_sessions r -> shares_inv h r2 -> shares_inv (joinPlacer ptr r h) r2.
Proof.
  intros Hp0 Hnot Hne [Hs He Hg]. split; [exact Hs| |]; cbn.
  - intros name q Hn. destruct (He name q Hn) as (p & Hp & Hps). exists p. split; [|done].
    rewrite lookup_alter_ne; [done|]. intros <-. rewrite Hp0 in Hp. injection Hp as <-.
    destruct Hnot as [Hn'|He']; [apply Hn'; by rewrite Hps|congruence].
  - intros q p. rewrite lookup_alter_Some. intros [(-> & p1 & _ & ->)|[_ Hq]]; [done|by eapply Hg].
Qed.

(** Adding an entry for a placer that already shares. *)
Lemma shares_insert name ptr p h r : placers h !! ptr = Some p -> po_sessions p = r_sessions r -> shares_inv h r ->
  shares_inv h (mkRegistry (<[name := ptr]> (byName r)) (unavailable r) (static r) (reserved r) (defaultHarness r) (r_guard r) (r_sessions r)).
Proof.
  intros Hp Hs [H1 H2 H3]. split; [done| |done]. intros n q. cbn. rewrite lookup_insert_Some.
  intros [[<- <-]|[_ Hq]]; [by exists p|by eapply H2].
Qed.

Lemma nameError_None r name : nameError r name = None ->
  name ∉ static r /\ name ∉ reserved r /\ byName r !! name = None /\ unavailable r !! name = None.
Proof. unfold nameError, Reserved. by repeat case_bool_decide; cbn. Qed.

(** ** Registries only grow *)

Definition extends (r r' : Registry) : Prop :=
  byName r ⊆ byName r' /\ unavailable r ⊆ unavailable r' /\ static r' = static r /\ reserved r' = reserved r /\
  defaultHarness r' = defaultHarness r /\ r_guard r' = r_guard r /\ r_sessions r' = r_sessions r.

#[export] Instance extends_preorder : PreOrder extends.
Proof. split; [by intros r|]. unfold extends. intros a b c (?&?&?&?&?&?&?) (?&?&?&?&?&?&?). repeat split; try congruence; by etransitivity. Qed.

Lemma names_extend_by r name ptr : names_inv r -> byName r !! name = None -> unavailable r !! name = None ->
  name ∉ reserved r \/ name ∈ static r ->
  names_inv (mkRegistry (<[name := ptr]> (byName r)) (unavailable r) (static r) (reserved r) (defaultHarness r) (r_guard r) (r_sessions r)).
Proof.
  intros [Hd Hs Hdef Hr] Hb Hu Hn. split; cbn; [|  |done|].
  - intros n. destruct (decide (name = n)) as [<-|]; [by right|]. rewrite lookup_insert_ne by done. apply Hd.
  - intros n Hin. rewrite lookup_insert_is_Some. destruct (decide (name = n)); [by left|right]. split; [done|by apply Hs].
  - intros n Hin Hns. rewrite lookup_insert_ne; [by apply Hr|]. intros <-. by destruct Hn.
Qed.

Lemma names_extend_un r name e : names_inv r -> byName r !! name = None -> unavailable r !! name = None -> name ∉ reserved r ->
  names_inv (mkRegistry (byName r) (<[name := e]> (unavailable r)) (static r) (reserved r) (defaultHarness r) (r_guard r) (r_sessions r)).
Proof.
  intros [Hd Hs Hdef Hr] Hb Hu Hn. split; cbn; [| done |done|].
  - intros n. destruct (decide (name = n)) as [<-|]; [by left|]. rewrite lookup_insert_ne by done. apply Hd.
  - intros n Hin Hns. rewrite lookup_insert_ne; [by apply Hr|]. intros <-. done.
Qed.

(** *** Add and MarkUnavailable *)

Lemma MarkUnavailable_ok name cause r r' x : names_inv r -> MarkUnavailable name cause r = (r', x) ->
  names_inv r' /\ extends r r' /\ byName r' = byName r.
Proof.
  intros Hn. unfold MarkUnavailable. destruct cause as [e|]; [|by intros [= <- <-]].
  case_bool_decide; [by intros [= <- <-]|]. destruct (nameError r name) eqn:En; intros [= <- <-]; [done|].
  apply nameError_None in En as (Hst & Hres & Hb & Hu). split; [by apply names_extend_un|]. split; [|done].
  repeat split; try done. by apply insert_subseteq.
Qed.

Lemma Add_ok name p r h r' h' x : names_inv r -> known h p -> Add name p r h = ((r', h'), x) ->
  names_inv r' /\ extends r r' /\
  (r' = r /\ h' = h \/ exists ptr po, p = Some ptr /\ placers h !! ptr = Some po /\
     r' = mkRegistry (<[name := ptr]> (byName r)) (unavailable r) (static r) (reserved r) (defaultHarness r) (r_guard r) (r_sessions r) /\
     (po_sessions po = r_sessions r /\ h' = h \/ ~ isShared h (po_sessions po) /\ h' = joinPlacer ptr r h)).
Proof.
  intros Hn Hk. unfold Add. destruct p as [ptr|]; [|intros [= <- <- <-]; split; [done|]; split; [done|]; by left].
  destruct (Hk ptr eq_refl) as [po Hpo].
  assert (Hsame : names_inv r /\ extends r r) by done.
  case_bool_decide; [intros [= <- <- <-]; by intuition|].
  destruct (nameError r name) eqn:En; [intros [= <- <- <-]; by intuition|].
  apply nameError_None in En as (Hst & Hres & Hb & Hu). rewrite Hpo.
  assert (Hnew : forall h2, names_inv (mkRegistry (<[name := ptr]> (byName r)) (unavailable r) (static r) (reserved r) (defaultHarness r) (r_guard r) (r_sessions r)) /\
    extends r (mkRegistry (<[name := ptr]> (byName r)) (unavailable r) (static r) (reserved r) (defaultHarness r) (r_guard r) (r_sessions r)) /\ h2 = h2 :> Heap).
  { intros h2. split; [apply names_extend_by; auto|]. split; [|done]. repeat split; try done. by apply insert_subseteq. }
  destruct (Hnew h) as (Hn1 & He1 & _).
  case_bool_decide as Hs.
  - intros [= <- <- <-]. split; [done|]. split; [done|]. right. exists ptr, po. do 3 (split; [done|]). by left.
  - destruct (joinError name po h) eqn:Ej; intros [= <- <- <-]; [by intuition|].
    split; [done|]. split; [done|]. right. exists ptr, po. do 3 (split; [done|]). right.
    split; [by eapply joinError_None|done].
Qed.

(** *** NewRegistry *)

(** While the placers are entered: the entries are the static ones, and every placer yet to come either
    shares already or belongs to nobody. *)
Record entering (ps : list (string * option nat)) (r : Registry) (h : Heap) : Prop := {
  en_heap : heap_inv h;
  en_shares : shares_inv h r;
  en_fresh : (r_sessions r < nextObj h)%nat;
  en_static : forall name, name ∈ static r <-> is_Some (byName r !! name);
  en_todo : forall name ptr, (name, Some ptr) ∈ ps -> exists po, placers h !! ptr = Some po /\
    (~ isShared h (po_sessions po) \/ po_sessions po = r_sessions r);
}.

Definition sameRest (r r' : Registry) : Prop :=
  unavailable r' = unavailable r /\ reserved r' = reserved r /\ defaultHarness r' = defaultHarness r /\
  r_guard r' = r_guard r /\ r_sessions r' = r_sessions r.

(** Entering one placer. *)
Lemma enter_one name ptr ps r h : entering ((name, Some ptr) :: ps) r h ->
  let r1 := mkRegistry (<[name := ptr]> (byName r)) (unavailable r) ({[name]} ∪ static r) (reserved r) (defaultHarness r) (r_guard r) (r_sessions r) in
  entering ps r1 (joinPlacer ptr r h) /\
  forall r2, r_sessions r2 <> r_sessions r -> shares_inv h r2 -> shares_inv (joinPlacer ptr r h) r2.
Proof.
  intros [Hh Hs Hf Hst Htodo]. cbn. destruct (Htodo name ptr) as (po & Hpo & Hnot); [by left|].
  split; [|intros r2 Hne; by eapply join_shares_other].
  assert (Hs1 : shares_inv (joinPlacer ptr r h) r) by by apply join_shares_own.
  split; [by apply join_heap| |done| |]; cbn.
  - destruct (shares_insert name ptr (mkPlacerObj (po_placer po) (r_guard r) (r_sessions r)) (joinPlacer ptr r h) r) as [? ? ?];
      [cbn; by rewrite lookup_alter_eq, Hpo|done|done|]. by split.
  - intros n. rewrite lookup_insert_is_Some, elem_of_union, elem_of_singleton, Hst.
    destruct (decide (name = n)); [naive_solver|]. naive_solver.
  - intros n q Hin. destruct (Htodo n q) as (po2 & Hpo2 & Hnot2); [by right|]. destruct (decide (ptr = q)) as [->|Hne].
    + eexists. rewrite lookup_alter_eq, Hpo2. split; [done|]. by right.
    + exists po2. rewrite lookup_alter_ne by done. done.
Qed.

Lemma registerAll_inv ps : forall r h r' h', entering ps r h -> registerAll ps (r, h) = (r', h') ->
  entering [] r' h' /\ sameRest r r' /\ (forall name, name ∈ static r -> name ∈ static r') /\
  (forall name ptr, (name, Some ptr) ∈ ps -> name ∈ static r') /\
  forall r2, r_sessions r2 <> r_sessions r -> shares_inv h r2 -> shares_inv h' r2.
Proof.
  induction ps as [|[name [ptr|]] ps IH]; intros r h r' h' Hen; cbn [registerAll].
  - intros [= <- <-]. split; [done|]. split; [done|]. split; [done|]. split; [|done]. intros ? ? Hin. by apply not_elem_of_nil in Hin.
  - intros Hr. destruct (enter_one _ _ _ _ _ Hen) as [Hen1 Hother1]. destruct (IH _ _ _ _ Hen1 Hr) as (Hen' & Hrest & Hmono & Hin & Hother).
    split; [done|]. split; [done|]. split; [intros n Hn; apply Hmono; cbn; set_solver|]. split.
    + intros n q [[= -> ->]|Hq]%elem_of_cons; [apply Hmono; cbn; set_solver|by eapply Hin].
    + intros r2 Hne Hs. apply Hother; [done|]. by apply Hother1.
  - intros Hr. destruct Hen as [? ? ? ? Htodo]. destruct (IH r h r' h') as (Hen' & Hrest & Hmono & Hin & Hother); [split; try done|done|].
    + intros n q Hq. apply (Htodo n q). by right.
    + split; [done|]. split; [done|]. split; [done|]. split; [|done]. intros n q [?|Hq]%elem_of_cons; [done|by eapply Hin].
Qed.

Lemma registerAll_next ps : forall rh, nextObj (registerAll ps rh).2 = nextObj rh.2.
Proof. induction ps as [|[name [ptr|]] ps IH]; intros [r h]; cbn; [done|by rewrite IH|by rewrite IH]. Qed.

Lemma namesError_None ps : namesError ps = None -> forall name p, (name, p) ∈ ps -> name <> EmptyString /\ exists ptr, p = Some ptr.
Proof.
  induction ps as [|[n p] ps IH]; cbn; [intros _ ? ? Hin; by apply not_elem_of_nil in Hin|].
  case_bool_decide; [done|]. destruct p as [q|]; [|done]. intros Hn name p' [[= -> ->]|Hin]%elem_of_cons; [by eauto|by apply IH].
Qed.

Lemma placersError_None ps h : placersError ps h = None -> forall name ptr po, (name, Some ptr) ∈ ps -> placers h !! ptr = Some po ->
  ~ isShared h (po_sessions po).
Proof.
  induction ps as [|[n [q|]] ps IH]; cbn; [intros _ ? ? ? Hin; by apply not_elem_of_nil in Hin| |].
  - intros Hn name ptr po [[= -> ->]|Hin]%elem_of_cons Hpo.
    + rewrite Hpo in Hn. destruct (joinError n po h) eqn:Ej; [done|]. by eapply joinError_None.
    + eapply IH; [|done..]. destruct (placers h !! q); [|done]. by destruct (joinError _ _ _).
  - intros Hn name ptr po [?|Hin]%elem_of_cons Hpo; [done|by eapply IH].
Qed.

(** The new set and guard. *)
Definition allocated (h : Heap) : Heap :=
  mkHeap (placers h) (<[nextObj h := newSessionGuard]> (guards h)) (<[nextObj h := mkSessionSet ∅ ∅ true]> (sets h)) (S (nextObj h)).

Lemma allocated_inv h : heap_inv h -> heap_inv (allocated h).
Proof.
  intros [Hp Hs Hq]. split; cbn.
  - intros ptr p Hpp. apply Hp in Hpp. lia.
  - intros n. rewrite lookup_insert_is_Some. intros [<-|[_ Hn]]; [lia|apply Hs in Hn; lia].
  - intros ptr Hptr. apply Hq in Hptr. lia.
Qed.

Lemma isShared_lt h n : heap_inv h -> isShared h n -> (n < nextObj h)%nat.
Proof. intros [_ Hs _] (s & Hn & _). apply Hs. by eexists. Qed.

Lemma allocated_isShared h n : heap_inv h -> n <> nextObj h -> isShared (allocated h) n <-> isShared h n.
Proof. intros Hh Hn. unfold isShared, allocated. cbn. by rewrite lookup_insert_ne. Qed.

Lemma allocated_shares h r : heap_inv h -> shares_inv h r -> shares_inv (allocated h) r.
Proof.
  intros Hh [Hs He Hg]. split; [|done|done]. apply allocated_isShared; [done| |done].
  apply isShared_lt in Hs; [|done]. lia.
Qed.

Lemma NewRegistry_ok d ps names h h' x : heap_inv h -> map_Forall (fun _ => known h) ps -> NewRegistry d ps names h = (h', x) ->
  match x with
  | Err _ => h' = h \/ h' = allocated h
  | Ok r => names_inv r /\ heap_inv h' /\ shares_inv h' r /\ r_sessions r = nextObj h /\ nextObj h' = S (nextObj h) /\
      forall r2, shares_inv h r2 -> shares_inv h' r2
  end.
Proof.
  intros Hh Hk. unfold NewRegistry. set (l := map_to_list ps). fold (allocated h).
  case_bool_decide; [intros [= <- <-]; by left|]. destruct (namesError l) eqn:En; [intros [= <- <-]; by left|].
  case_bool_decide as Hd; [intros [= <- <-]; by left|]. case_bool_decide as Hdef; [intros [= <- <-]; by left|].
  destruct (placersError l (allocated h)) eqn:Ep; [intros [= <- <-]; by right|].
  set (r0 := mkRegistry ∅ ∅ ∅ ∅ d (nextObj h) (nextObj h)).
  assert (Hen : entering l r0 (allocated h)).
  { split; cbn; [by apply allocated_inv| |lia| |].
    - split; cbn.
      + exists (mkSessionSet ∅ ∅ true). split; [cbn; by rewrite lookup_insert_eq|done].
      + intros ? ?. by rewrite lookup_empty.
      + intros ptr p Hp Hps. apply (hi_placer h Hh) in Hp. lia.
    - intros name. rewrite lookup_empty. split; [set_solver|by intros [? ?]].
    - intros name ptr Hin. apply elem_of_map_to_list in Hin as Hin'. destruct (Hk name (Some ptr) Hin' ptr eq_refl) as [po Hpo].
      exists po. split; [done|]. left. by eapply placersError_None. }
  destruct (registerAll l (r0, allocated h)) as [r1 h1] eqn:Er. intros [= <- <-].
  pose proof (registerAll_next l (r0, allocated h)) as Hnext. rewrite Er in Hnext. cbn in Hnext.
  apply registerAll_inv in Er as ([Hh1 Hs1 Hf1 Hst1 _] & (Hu & Hres & Hde & Hg & Hse) & _ & Hin & Hother); [|done].
  cbn in Hu, Hres, Hde, Hg, Hse. split; [|split; [done|split; [by destruct Hs1|split; [done|split; [done|]]]]].
  - split; cbn.
    + intros name. right. by rewrite Hu, lookup_empty.
    + intros name. by rewrite Hst1.
    + rewrite Hde. split; [|done]. destruct (ps !! d) as [q|] eqn:Eq; [|done]. apply elem_of_map_to_list in Eq.
      destruct (namesError_None l En d q Eq) as [_ [ptr ->]]. by eapply Hin.
    + intros name _ Hns. rewrite Hst1 in Hns. split; [by destruct (byName r1 !! name) eqn:E; [destruct Hns; eexists|]|].
      by rewrite Hu, lookup_empty.
  - intros r2 Hs2. apply Hother; [|by apply allocated_shares]. destruct Hs2 as [Hsh _ _]. apply isShared_lt in Hsh; [|done]. cbn. lia.
Qed.

(** *** Every step *)

Lemma working_shared h h' n : working h h' -> isShared h n <-> isShared h' n.
Proof.
  intros (_ & _ & Hs & _). unfold isShared. assert (Hn : shared <$> sets h' !! n = shared <$> sets h !! n)
    by (by rewrite <- !lookup_fmap, Hs).
  split; intros (s & Hl & Ht); rewrite Hl in Hn; cbn in Hn; [destruct (sets h' !! n)|destruct (sets h !! n)]; cbn in Hn; try done;
    injection Hn as Hn; eexists; (split; [done|]); congruence.
Qed.

Lemma shares_same h h' r : placers h' = placers h -> (isShared h (r_sessions r) -> isShared h' (r_sessions r)) ->
  shares_inv h r -> shares_inv h' r.
Proof. intros Hp Hi [H1 H2 H3]. split; rewrite ?Hp; auto. Qed.

Lemma sub_inv h rs i r r' h' : reg_inv (h, rs) -> rs !! i = Some r -> names_inv r' -> extends r r' -> heap_inv h' ->
  shares_inv h' r' -> (forall r2, r_sessions r2 <> r_sessions r -> shares_inv h r2 -> shares_inv h' r2) ->
  reg_inv (h', <[i := r']> rs).
Proof.
  intros [Hh Hn Hs Hd] Hi Hn' Hext Hh' Hs' Hother. pose proof (lookup_lt_Some _ _ _ Hi) as Hlt.
  destruct Hext as (_ & _ & _ & _ & _ & _ & Hsess). split; cbn in *; [done|by apply Forall_insert| |].
  - apply Forall_lookup. intros j r2 Hj. destruct (decide (i = j)) as [->|Hne].
    + rewrite list_lookup_insert_eq in Hj by done. by injection Hj as <-.
    + rewrite list_lookup_insert_ne in Hj by done. apply Hother; [|by eapply Forall_lookup_1 in Hs].
      intros He. apply Hne. symmetry. by eapply Hd.
  - intros j k r1 r2 Hj Hk He.
    assert (Hold : forall m r3, <[i:=r']> rs !! m = Some r3 -> exists r4, rs !! m = Some r4 /\ r_sessions r4 = r_sessions r3).
    { intros m r3. destruct (decide (i = m)) as [<-|Hne].
      - rewrite list_lookup_insert_eq by done. intros [= <-]. by exists r.
      - rewrite list_lookup_insert_ne by done. intros ?. by exists r3. }
    apply Hold in Hj as (r1' & Hj & H1'). apply Hold in Hk as (r2' & Hk & H2'). eapply Hd; [done|done|congruence].
Qed.

(** What a step does to the registries there were. *)
Definition grows (rs rs' : list Registry) : Prop := forall i r, rs !! i = Some r -> exists r', rs' !! i = Some r' /\ extends r r'.

#[export] Instance grows_preorder : PreOrder grows.
Proof.
  split; [intros rs i r Hi; by exists r|]. intros a b c Hab Hbc i r Hi. destruct (Hab i r Hi) as (r1 & H1 & E1).
  destruct (Hbc i r1 H1) as (r2 & H2 & E2). exists r2. split; [done|by etransitivity].
Qed.

Lemma grows_insert i r r' rs : rs !! i = Some r -> extends r r' -> grows rs (<[i := r']> rs).
Proof.
  intros Hi He j r2 Hj. pose proof (lookup_lt_Some _ _ _ Hi). destruct (decide (i = j)) as [<-|Hne].
  - exists r'. rewrite list_lookup_insert_eq by done. split; [done|]. congruence.
  - exists r2. by rewrite list_lookup_insert_ne.
Qed.

Lemma new_placer_inv p h rs : reg_inv (h, rs) -> reg_inv (fst (newPlacer p h), rs).
Proof.
  intros [Hh Hn Hs Hd]. pose proof Hh as [Hp Hset Hptr]. split; cbn in *; [| done | |done].
  - split; cbn.
    + intros ptr q. rewrite lookup_insert_Some. intros [[<- <-]|[_ Hq]]; [cbn; lia|]. apply Hp in Hq. lia.
    + intros n. rewrite lookup_insert_is_Some. intros [<-|[_ Hin]]; [lia|]. apply Hset in Hin. lia.
    + intros n. rewrite lookup_insert_is_Some. intros [<-|[_ Hin]]; [lia|]. apply Hptr in Hin. lia.
  - eapply Forall_impl; [|exact Hs]. intros r [H1 H2 H3]. pose proof (isShared_lt h _ Hh H1) as Hlt. split.
    + destruct H1 as (s & Hl & Ht). exists s. cbn. by rewrite lookup_insert_ne by lia.
    + intros name ptr Hb. destruct (H2 name ptr Hb) as (q & Hq & Hqs). exists q. split; [|done]. cbn.
      pose proof (Hptr ptr ltac:(by eexists)). by rewrite lookup_insert_ne by lia.
    + intros ptr q. cbn. rewrite lookup_insert_Some. intros [[<- <-]|[_ Hq]]; [cbn; lia|]. by eapply H3.
Qed.

Lemma new_registry_inv d ps names h rs h' x : reg_inv (h, rs) -> map_Forall (fun _ => known h) ps -> NewRegistry d ps names h = (h', x) ->
  match x with Ok r => reg_inv (h', rs ++ [r]) | Err _ => True end.
Proof.
  intros [Hh Hn Hs Hd] Hk Hr. apply NewRegistry_ok in Hr; [|done|done]. destruct x as [r|]; [|done].
  destruct Hr as (Hnr & Hh' & Hsr & Hfresh & Hnext & Hother). cbn in *.
  assert (Hold : forall i r2, rs !! i = Some r2 -> (r_sessions r2 < nextObj h)%nat).
  { intros i r2 Hi. eapply Forall_lookup_1 in Hi; [|exact Hs]. destruct Hi as [Hsh _ _]. by apply isShared_lt. }
  split; cbn; [done|by apply Forall_app_2; [|by constructor]| |].
  - apply Forall_app_2; [|by constructor]. eapply Forall_impl; [|exact Hs]. apply Hother.
  - intros i j r1 r2 Hi Hj He. apply lookup_app_Some in Hi as [Hi|[Hi Hi']], Hj as [Hj|[Hj Hj']].
    + by eapply Hd.
    + apply list_lookup_singleton_Some in Hj' as [? <-]. apply Hold in Hi. lia.
    + apply list_lookup_singleton_Some in Hi' as [? <-]. apply Hold in Hj. lia.
    + apply list_lookup_singleton_Some in Hi' as [? _], Hj' as [? _]. lia.
Qed.

Lemma reg_step_inv σ σ' : reg_inv σ -> reg_step σ σ' -> reg_inv σ' /\ grows σ.2 σ'.2.
Proof.
  intros Hinv Hstep. pose proof Hinv as [Hh Hn Hs Hd].
  destruct Hstep as [p h rs|d ps names h rs h' r Hk Hr|d ps names h rs h' e Hr|i name p h rs r r' h' x Hi Hk Ha|i name cause h rs r r' x Hi Hm|h h' rs Hw];
    cbn in *.
  - split; [by apply new_placer_inv|done].
  - split; [by apply (new_registry_inv _ _ _ _ rs) in Hr|]. intros i r2 Hi. exists r2. split; [by apply lookup_app_l_Some|done].
  - assert (Hcase : h' = h \/ h' = allocated h).
    { revert Hr. unfold NewRegistry. fold (allocated h). repeat case_match; intros [= <-]; auto. }
    split; [|done]. destruct Hcase as [->| ->]; [done|]. split; cbn; [by apply allocated_inv|done| |done].
    eapply Forall_impl; [|exact Hs]. intros. by apply allocated_shares.
  - eapply Forall_lookup_1 in Hn as Hnr; [|exact Hi]. eapply Forall_lookup_1 in Hs as Hsr; [|exact Hi].
    destruct (Add_ok _ _ _ _ _ _ _ Hnr Hk Ha) as (Hn' & Hext & Hcase).
    split; [|by eapply grows_insert].
    eapply sub_inv; [done|exact Hi|done|done| | |].
    + destruct Hcase as [[-> ->]|(ptr & po & -> & Hpo & -> & [[_ ->]|[_ ->]])]; [done|done|].
      apply join_heap; [|done]. apply isShared_lt; [done|apply Hsr].
    + destruct Hcase as [[-> ->]|(ptr & po & -> & Hpo & -> & [[Hps ->]|[_ ->]])]; [done|by eapply shares_insert|].
      eapply (shares_insert name ptr _ (joinPlacer ptr r h)); [cbn; by rewrite lookup_alter_eq, Hpo|done|by apply join_shares_own].
    + intros r2 Hne Hs2. destruct Hcase as [[_ ->]|(ptr & po & -> & Hpo & -> & [[_ ->]|[Hsh ->]])]; [done|done|].
      eapply join_shares_other; [exact Hpo|by left|done|done].
  - eapply Forall_lookup_1 in Hn as Hnr; [|exact Hi]. eapply Forall_lookup_1 in Hs as Hsr; [|exact Hi].
    destruct (MarkUnavailable_ok _ _ _ _ _ Hnr Hm) as (Hn' & Hext & Hb).
    split; [|by eapply grows_insert]. eapply sub_inv; [done|exact Hi|done|done|done| |done].
    destruct Hext as (_ & _ & _ & _ & _ & Hg & Hse), Hsr as [H1 H2 H3]. split; rewrite ?Hb, ?Hg, ?Hse; done.
  - split; [|done]. pose proof Hw as (Hp & Hnx & Hsh & _). destruct Hh as [A B C]. split; cbn; [|done| |done].
    + split; rewrite ?Hp, ?Hnx; [done| |done]. intros n [s Hl]. apply B.
      assert (Hx : shared <$> sets h !! n = shared <$> sets h' !! n) by (by rewrite <- !lookup_fmap, Hsh).
      rewrite Hl in Hx. destruct (sets h !! n); [by eexists|done].
    + eapply Forall_impl; [|exact Hs]. intros r. apply shares_same; [done|]. by rewrite (working_shared h h').
Qed.

Lemma reg_steps_inv σ σ' : rtc reg_step σ σ' -> reg_inv σ -> reg_inv σ' /\ grows σ.2 σ'.2.
Proof.
  induction 1 as [|σ1 σ2 σ3 Hstep Hsteps IH]; intros Hinv; [done|].
  destruct (reg_step_inv _ _ Hinv Hstep) as [Hinv2 Hg]. destruct (IH Hinv2) as [? ?]. split; [done|by etransitivity].
Qed.

Lemma noHosts_inv : reg_inv noHosts.
Proof.
  split; cbn; [split; cbn|constructor|constructor|].
  - intros ? ?. by rewrite lookup_empty.
  - intros ? [? Hn]. by rewrite lookup_empty in Hn.
  - intros ? [? Hn]. by rewrite lookup_empty in Hn.
  - done.
Qed.

(** The entry of a name, once it resolves. *)
Lemma For_extends r r' name p : names_inv r' -> extends r r' -> For r name = Ok p -> For r' name = Ok p.
Proof.
  intros Hn (Hb & Hu & _ & _ & Hd & _) Hf. unfold For in *. rewrite Hd. set (n := if bool_decide _ then _ else _) in *.
  destruct (unavailable r !! n); [done|]. destruct (byName r !! n) as [q|] eqn:E; [|done]. injection Hf as ->.
  eapply lookup_weaken in E; [|exact Hb]. destruct Hn as [Hdis _ _ _]. destruct (Hdis n) as [Hn|Hn]; [congruence|]. by rewrite Hn, E.
Qed.

Lemma For_Ok r name p : For r name = Ok p -> exists n, byName r !! n = Some p.
Proof. unfold For. destruct (unavailable r !! _); [done|]. destruct (byName r !! _) eqn:E; [|done]. intros [= <-]. eauto. Qed.

Lemma For_refused_extends r r' name e : names_inv r -> extends r r' -> For r name = Err e -> errors_Is e ErrUnknownHarness = false ->
  For r' name = Err e.
Proof.
  intros Hn (_ & Hu & _ & _ & Hd & _) Hf Hx. unfold For in *. rewrite Hd. set (n := if bool_decide _ then _ else _) in *.
  destruct (unavailable r !! n) as [c|] eqn:E; [by rewrite (lookup_weaken _ _ _ _ E Hu)|].
  destruct (byName r !! n); [done|]. injection Hf as <-. done.
Qed.

(** ** Properties *)

(** Registries keep their placers. Whatever placers and registries are made, whatever is added or marked
    and whatever the sessions do meanwhile: a name that resolves goes on resolving to the very same
    placer, and one refused as unservable goes on being refused; the default always resolves; a name
    reserved for a static harness that is not served stays unknown; every placer a registry resolves to
    holds that registry's guard and session set; and two registries never resolve to one placer. *)
Theorem registries_keep_placers σ σ' i r : reg_reachable σ -> rtc reg_step σ σ' -> σ.2 !! i = Some r -> exists r',
  σ'.2 !! i = Some r' /\
  (forall name p, For r name = Ok p -> For r' name = Ok p) /\
  (forall name e, For r name = Err e -> errors_Is e ErrUnknownHarness = false -> For r' name = Err e) /\
  (exists p, For r' EmptyString = Ok p) /\
  (forall name, name <> EmptyString -> Reserved r name = true -> Static r name = false ->
     exists e, For r' name = Err e /\ errors_Is e ErrUnknownHarness = true) /\
  (forall name p, For r' name = Ok p -> exists po, placers σ'.1 !! p = Some po /\ po_guard po = r_guard r /\ po_sessions po = r_sessions r) /\
  (forall j r2 n1 n2 p, σ'.2 !! j = Some r2 -> For r' n1 = Ok p -> For r2 n2 = Ok p -> i = j).
Proof.
  intros Hr Hs Hi. destruct (reg_steps_inv _ _ Hr noHosts_inv) as [Hinv _]. destruct (reg_steps_inv _ _ Hs Hinv) as [[Hh Hn' Hsh Hd] Hg].
  destruct Hinv as [_ Hn _ _]. eapply Forall_lookup_1 in Hn; [|exact Hi].
  destruct (Hg i r Hi) as (r' & Hi' & Hext). exists r'. split; [done|].
  assert (Hnr' : names_inv r') by by eapply Forall_lookup_1 in Hn'.
  assert (Hentry : forall k rk name p, σ'.2 !! k = Some rk -> For rk name = Ok p ->
    exists po, placers σ'.1 !! p = Some po /\ po_guard po = r_guard rk /\ po_sessions po = r_sessions rk).
  { intros k rk name p Hk (n & Hb)%For_Ok. eapply Forall_lookup_1 in Hsh; [|exact Hk]. destruct Hsh as [_ H2 H3].
    destruct (H2 n p Hb) as (po & Hpo & Hps). exists po. split; [done|]. split; [by eapply H3|done]. }
  pose proof Hext as (_ & _ & Hst & Hres & _ & Hgd & Hse).
  split; [intros name p; by apply For_extends|]. split; [intros name e; by apply For_refused_extends|]. split; [|split; [|split]].
  - destruct Hnr' as [Hdis Hs' [Hin Hne] _]. destruct (Hs' _ Hin) as [p Hp]. exists p. unfold For.
    rewrite bool_decide_true by done. destruct (Hdis (defaultHarness r')) as [Hx|Hx]; [congruence|]. by rewrite Hx, Hp.
  - intros name Hname Hre Hns. unfold Reserved, Static in *. rewrite Hns in Hre. cbn in Hre. apply bool_decide_eq_true in Hre.
    apply bool_decide_eq_false in Hns. destruct Hnr' as [_ _ _ Hx]. rewrite Hst, Hres in Hx. destruct (Hx name Hre Hns) as [Hb Hu].
    unfold For. rewrite bool_decide_false by done. rewrite Hb, Hu. by eexists.
  - intros name p Hf. rewrite <- Hgd, <- Hse. by eapply Hentry.
  - intros j r2 n1 n2 p Hj H1 H2. destruct (Hentry i r' n1 p Hi' H1) as (po & Hpo & _ & E1).
    destruct (Hentry j r2 n2 p Hj H2) as (po2 & Hpo2 & _ & E2). eapply Hd; [done|done|]. congruence.
Qed.

(** A host with two placers: the registry of one, joined by the other. *)
Definition exampleMade : Heap * res Registry :=
  NewRegistry "echo" {["echo"%string := Some 0%nat]} ["openshell"%string] (fst (newPlacer examplePlacer (mkHeap ∅ ∅ ∅ 0))).
Definition exampleRegistry : Registry :=
  match snd exampleMade with Ok r => r | Err _ => mkRegistry ∅ ∅ ∅ ∅ EmptyString 0 0 end.
Definition exampleAdded : (Registry * Heap) * res unit :=
  Add "second" (Some 2%nat) exampleRegistry (fst (newPlacer examplePlacer (fst exampleMade))).
Definition exampleHosts : Hosts := (fst exampleMade, [exampleRegistry]).
Definition exampleGrown : Hosts := ((fst exampleAdded).2, [(fst exampleAdded).1]).

Lemma exampleHosts_reachable : reg_reachable exampleHosts.
Proof.
  eapply rtc_l; [apply (step_placer examplePlacer)|]. eapply rtc_l; [|apply rtc_refl].
  refine (step_registry "echo" {["echo"%string := Some 0%nat]} ["openshell"%string] _ [] (fst exampleMade) exampleRegistry _ _).
  - intros n p. rewrite lookup_singleton_Some. intros [_ <-] ptr [= <-]. vm_compute. by eexists.
  - vm_compute. reflexivity.
Qed.
Lemma exampleHosts_grow : rtc reg_step exampleHosts exampleGrown.
Proof.
  eapply rtc_l; [apply (step_placer examplePlacer)|]. eapply rtc_l; [|apply rtc_refl].
  refine (step_add 0 "second" (Some 2%nat) _ [exampleRegistry] exampleRegistry (fst exampleAdded).1 (fst exampleAdded).2 (Ok tt) _ _ _);
    [reflexivity| |vm_compute; reflexivity].
  intros ptr [= <-]. vm_compute. by eexists.
Qed.

Lemma registries_keep_placers_witness : exists r r', exampleHosts.2 !! 0%nat = Some r /\ exampleGrown.2 !! 0%nat = Some r' /\
  For r "echo" = Ok 0%nat /\ For r' "echo" = Ok 0%nat /\ For r' "second" = Ok 2%nat /\ exists p, For r' EmptyString = Ok p.
Proof.
  destruct (exampleHosts.2 !! 0%nat) as [r|] eqn:Er; [|vm_compute in Er; discriminate].
  destruct (registries_keep_placers exampleHosts exampleGrown 0 r exampleHosts_reachable exampleHosts_grow Er)
    as (r' & Hr' & Hkeep & _ & Hdef & _).
  exists r, r'. assert (He : For r "echo" = Ok 0%nat) by (vm_compute in Er; injection Er as <-; reflexivity).
  split; [reflexivity|]. split; [exact Hr'|]. split; [exact He|]. split; [by apply Hkeep|]. split; [|exact Hdef].
  vm_compute in Hr'. injection Hr' as <-. reflexivity.
Defined.

(** ** Routed operations *)

Section Routed.
Context `{Host} `{Encoding} `{PlacementHost} {S : Type} `{StoreLaws S}.
Abbreviation P := (PState S).
Variables (r : Registry) (h : Heap).

(** The harness recorded by the invocation a recovery is about. *)
Definition recordedFor (s : P) (name : option string) : Prop := exists xs x,
  recordedExecutions (rec_Event <$> readFrom 1 (journal (logOf s))) = Ok xs /\
  pendingResumeExecution (rec_Event <$> readFrom 1 (journal (logOf s))) xs = Ok x /\
  name = recordedHarness (x ≫= invocation).
(** The harness recorded by the approval a suspension is about. *)
Definition recordedApproval (s : P) (name : option string) : Prop := exists scan,
  scanApprovalRecords (readFrom 1 (journal (logOf s))) 0 = Ok scan /\ name = suspendRecorded (selectedState scan).

(** Nothing happened, and it failed; or the host's check of the harness, recorded or else the session's
    default, has run and failed; or it accepted the name and the placer behind it has run [m]. *)
Definition routed {A} (recorded : P -> option string -> Prop) (check : string -> M P goerr unit) (sessionDefaultName : string)
    (m : option ApprovalState -> string -> Placer -> M P goerr A) (s s' : P) (x : res A) : Prop :=
  (sameLog s s' /\ ps_calls s' = ps_calls s /\ exists e, x = Err e) \/
  exists scan rec name ptr po s0 s1, scanApprovalRecords (readFrom 1 (journal (logOf s))) 0 = Ok scan /\
    recorded s rec /\ name = routeName r rec sessionDefaultName /\
    For r name = Ok ptr /\ placers h !! ptr = Some po /\ sameLog s s0 /\ ps_calls s0 = ps_calls s /\
    ((exists e, check name s0 = (s1, Err e) /\ x = Err e /\ logOf s' = logOf s1 /\ ps_calls s' = ps_calls s1) \/
     (check name s0 = (s1, Ok tt) /\ exists s2, m (selectedState scan) name (po_placer po) s1 = (s2, x) /\
       logOf s' = logOf s2 /\ ps_calls s' = ps_calls s2)).

Lemma route_Ok rec d name p : route r h rec d = Ok (name, p) ->
  name = routeName r rec d /\ exists ptr po, For r name = Ok ptr /\ placers h !! ptr = Some po /\ p = po_placer po.
Proof.
  unfold route, placerAt. destruct (For r _) as [ptr|e] eqn:Ef; [|done]. destruct (placers h !! ptr) as [po|] eqn:Ep; [|done].
  intros [= <- <-]. split; [done|]. by exists ptr, po.
Qed.

Lemma headCheck_run e (s s' : P) x : checkResumeHead e s = (s', x) -> sameLog s s' /\ ps_calls s' = ps_calls s.
Proof.
  unfold checkResumeHead. destruct e as [e|]; [|by intros [= <- <-]]. unfold mbind, M_bind.
  destruct (onStore st_Head s) as [s1 [hd|er]] eqn:E; apply onStore_run in E as (l' & Hh & Hl & Hc & _); apply head_law in Hh as (Hj & Hf & _);
    unfold sameLog; rewrite <- Hl in *; [case_match|]; by intros [= <- <-].
Qed.

Lemma invocation_run (s s' : P) x : onWorldP ResumeInvocation s = (s', x) ->
  sameLog s s' /\ ps_calls s' = ps_calls s /\ forall i, x = Ok i -> recordedFor s (recordedHarness i).
Proof.
  unfold onWorldP, ResumeInvocation. unfold mbind at 1, M_bind at 1. unfold onLog. unfold recordedFor, sameLog, logOf.
  destruct (st_Read 1 (w_log (ps_world s))) as [l1 [recs|e]] eqn:Er; apply read_law in Er as (Hj & Hf & Hr); cbn;
    [|by intros [= <- <-]]. subst recs. unfold mbind, M_bind, lift.
  destruct (recordedExecutions _) as [xs|e] eqn:Ex; [|by intros [= <- <-]].
  destruct (pendingResumeExecution _ xs) as [x0|e] eqn:Ep; [|by intros [= <- <-]].
  destruct x0 as [x0|]; intros [= <- <-]; (split; [done|]; split; [done|]); intros i [= <-]; exists xs; eexists; (split; [done|]); by split.
Qed.

Lemma guarded_run {A} uid kind (body : M P goerr A) (s s' : P) x : withGuard (fun e => e) uid kind body s = (s', x) ->
  (sameLog s s' /\ ps_calls s' = ps_calls s /\ exists e, x = Err e) \/
  exists g s2, body (setGuardP g s) = (s2, x) /\ logOf s' = logOf s2 /\ ps_calls s' = ps_calls s2.
Proof.
  unfold withGuard. destruct (acquire uid kind (ps_guard s)) as [g [hd|e]]; [|intros [= <- <-]; left; split; [done|]; eauto].
  unfold finally. destruct (body (setGuardP g s)) as [s2 x2] eqn:E. intros [= <- <-]. right. by exists g, s2.
Qed.

Lemma stopped {A} rec chk d (m : option ApprovalState -> string -> Placer -> M P goerr A) (s s1 s' : P) e : sameLog s s1 -> ps_calls s1 = ps_calls s ->
  logOf s' = logOf s1 -> ps_calls s' = ps_calls s1 -> routed rec chk d m s s' (Err e).
Proof. intros [Hj Hf] Hc Hl Hc'. left. unfold sameLog. rewrite Hl. split; [done|]. split; [congruence|]. eauto. Qed.

(** What [Resume] and [Suspend] hand to the placer. *)
Definition resumeRouted (cfg : registryResumeConfig (S := S)) (uid : string) (state : option ApprovalState) (name : string) (p : Placer) : M P goerr unit :=
  let cfg := mkResumeConfig name (reg_onRecord cfg) (reg_onDelta cfg) (reg_expectedLastSeq cfg) in
  do! resumeApproval p uid state cfg in resume p cfg uid.
Definition suspendRouted (uid : string) (_ : option ApprovalState) (_ : string) (p : Placer) : M P goerr SnapshotRef :=
  withCheckpoint uid (suspend p uid None).

Lemma recorded_same (s s1 : P) n : sameLog s s1 -> recordedFor s1 n -> recordedFor s n.
Proof. intros [Hj _]. unfold recordedFor. by rewrite Hj. Qed.

Lemma resume_routed cfg uid d (s s' : P) x : registry_Resume r h cfg uid d s = (s', x) ->
  routed recordedFor (runCheck cfg) d (resumeRouted cfg uid) s s' x.
Proof.
  intros [?|(g & s9 & Hr & Hl & Hc)]%guarded_run; [by left|]. set (s0 := setGuardP g s) in *.
  assert (Hl0 : sameLog s s0) by done. assert (Hc0 : ps_calls s0 = ps_calls s) by done. clearbody s0.
  unfold mbind at 1, M_bind at 1 in Hr. destruct (onStore st_CheckWritable s0) as [s1 [|e]] eqn:E1; apply writable_run in E1 as (Hl1 & Hc1 & _);
    [|injection Hr as <- <-; eapply (stopped _ _ _ _ _ s1); [by etransitivity|congruence|done|done]].
  unfold mbind at 1, M_bind at 1 in Hr. destruct (checkResumeHead _ s1) as [s2 [|e]] eqn:E2; apply headCheck_run in E2 as (Hl2 & Hc2);
    assert (H02 : sameLog s s2) by (etransitivity; [exact Hl0|]; by etransitivity); [|injection Hr as <- <-; eapply (stopped _ _ _ _ _ s2); [done|congruence|done|done]].
  unfold mbind at 1, M_bind at 1 in Hr. destruct (onStore (InspectApproval 0) s2) as [s3 [state|e]] eqn:E3; apply inspect_run in E3 as (Hl3 & Hc3 & _ & Hst);
    assert (H03 : sameLog s s3) by (by etransitivity); [|injection Hr as <- <-; eapply (stopped _ _ _ _ _ s3); [done|congruence|done|done]].
  destruct (Hst state eq_refl) as (scan & Hscan & ->). destruct (match selectedState scan with Some _ => _ | None => false end).
  { injection Hr as <- <-. eapply (stopped _ _ _ _ _ s3); [done|congruence|done|done]. }
  unfold mbind at 1, M_bind at 1 in Hr. destruct (onWorldP ResumeInvocation s3) as [s4 [inv|e]] eqn:E4; apply invocation_run in E4 as (Hl4 & Hc4 & Hinv);
    assert (H04 : sameLog s s4) by (by etransitivity); [|injection Hr as <- <-; eapply (stopped _ _ _ _ _ s4); [done|congruence|done|done]].
  unfold lift in Hr at 1. unfold mbind at 1, M_bind at 1 in Hr. destruct (route r h _ d) as [[name p]|e] eqn:Ert;
    [|injection Hr as <- <-; eapply (stopped _ _ _ _ _ s4); [done|congruence|done|done]].
  apply route_Ok in Ert as (Hname & ptr & po & Hf & Hp & ->).
  unfold mbind at 1, M_bind at 1 in Hr. destruct (runCheck cfg name s4) as [s5 xc] eqn:Ech.
  right. exists scan, (recordedHarness inv), name, ptr, po, s4, s5.
  split; [destruct H02 as [Hj2 _]; by rewrite <- Hj2|].
  split; [eapply recorded_same; [exact H03|by apply Hinv]|]. do 3 (split; [done|]). split; [exact H04|].
  split; [congruence|]. destruct xc as [[]|e]; [right|left]; [split; [done|]; exists s9; by split|].
  injection Hr as <- <-. by exists e.
Qed.

Lemma suspend_routed cfg uid d (s s' : P) x : registry_Suspend r h cfg uid d s = (s', x) ->
  routed recordedApproval (runCheck cfg) d (suspendRouted uid) s s' x.
Proof.
  intros [?|(g & s9 & Hr & Hl & Hc)]%guarded_run; [by left|]. set (s0 := setGuardP g s) in *.
  assert (Hl0 : sameLog s s0) by done. assert (Hc0 : ps_calls s0 = ps_calls s) by done. clearbody s0.
  unfold mbind at 1, M_bind at 1 in Hr. destruct (onStore st_CheckWritable s0) as [s1 [|e]] eqn:E1; apply writable_run in E1 as (Hl1 & Hc1 & _);
    [|injection Hr as <- <-; eapply (stopped _ _ _ _ _ s1); [by etransitivity|congruence|done|done]].
  unfold mbind at 1, M_bind at 1 in Hr. destruct (onStore (InspectApproval 0) s1) as [s3 [state|e]] eqn:E3; apply inspect_run in E3 as (Hl3 & Hc3 & _ & Hst);
    assert (H03 : sameLog s s3) by (etransitivity; [exact Hl0|]; by etransitivity); [|injection Hr as <- <-; eapply (stopped _ _ _ _ _ s3); [done|congruence|done|done]].
  destruct (Hst state eq_refl) as (scan & Hscan & ->).
  unfold lift in Hr at 1. unfold mbind at 1, M_bind at 1 in Hr. destruct (route r h _ d) as [[name p]|e] eqn:Ert;
    [|injection Hr as <- <-; eapply (stopped _ _ _ _ _ s3); [done|congruence|done|done]].
  apply route_Ok in Ert as (Hname & ptr & po & Hf & Hp & ->).
  unfold mbind at 1, M_bind at 1 in Hr. destruct (runCheck cfg name s3) as [s5 xc] eqn:Ech.
  assert (Hscan0 : scanApprovalRecords (readFrom 1 (journal (logOf s))) 0 = Ok scan) by (destruct Hl0 as [Hj0 _], Hl1 as [Hj1 _]; by rewrite <- Hj0, <- Hj1).
  right. exists scan, (suspendRecorded (selectedState scan)), name, ptr, po, s3, s5.
  split; [done|]. split; [by exists scan|]. do 3 (split; [done|]). split; [exact H03|]. split; [congruence|].
  destruct xc as [[]|e]; [right|left]; [split; [done|]; exists s9; by split|]. injection Hr as <- <-. by exists e.
Qed.

(** A decision needs no harness. *)
Lemma approve_run now uid d (s s' : P) x : registry_Approve now uid d s = (s', x) -> ps_calls s' = ps_calls s /\
  (sameLog s s' /\ (exists e, x = Err e) \/ uid ∉ ps_checkpoints s /\ Approve now d (logOf s) = (logOf s', x)).
Proof.
  intros [(Hl & Hc & He)|(g & s9 & Hr & Hl & Hc)]%guarded_run; [split; [done|by left]|].
  unfold withCheckpoint, markCheckpoint, setCheckpointLocked in Hr. unfold mbind at 1, M_bind at 1 in Hr.
  case_bool_decide as Hk.
  - injection Hr as <- <-. split; [done|]. left. unfold sameLog. rewrite Hl. split; [done|]. eauto.
  - unfold finally in Hr. match type of Hr with (let (_, _) := ?y in _) = _ => destruct y as [s2 x2] eqn:E end.
    injection Hr as <- <-. apply onStore_run in E as (l' & Ha & Hl2 & Hc2 & _). cbn in *.
    split; [congruence|]. right. split; [done|]. rewrite Hl. unfold logOf in *. cbn in *. by rewrite Hl2.
Qed.
End Routed.

(** Recovery and suspension run on the placer of the harness the journal records, or, when it records
    none, of the session's default: a registry operation either fails without a call and without a
    change of the log, or fails as the host's check of that name failed, or it is that placer's own
    recovery or suspension, started after the check accepted the name. A decision needs no placer: it is refused without a change while a checkpoint
    holds the session, and otherwise it is the controller's [Approve], without a call to the runtime. *)
Theorem registry_routes `{Host} `{Encoding} `{PlacementHost} {S : Type} `{StoreLaws S} (r : Registry) (h : Heap) cfg uid d now dec (s : PState S) :
  (let '(s', x) := registry_Resume r h cfg uid d s in routed r h recordedFor (runCheck cfg) d (resumeRouted cfg uid) s s' x) /\
  (let '(s', x) := registry_Suspend r h cfg uid d s in routed r h recordedApproval (runCheck cfg) d (suspendRouted uid) s s' x) /\
  (let '(s', x) := registry_Approve now uid dec s in ps_calls s' = ps_calls s /\
     (sameLog s s' /\ (exists e, x = Err e) \/ uid ∉ ps_checkpoints s /\ Approve now dec (logOf s) = (logOf s', x))).
Proof.
  split; [|split].
  - destruct (registry_Resume r h cfg uid d s) as [s' x] eqn:E. by apply resume_routed.
  - destruct (registry_Suspend r h cfg uid d s) as [s' x] eqn:E. by apply suspend_routed.
  - destruct (registry_Approve now uid dec s) as [s' x] eqn:E. by apply (approve_run now uid dec).
Qed.

Definition exampleRegistryConfig : registryResumeConfig (S := Log) := mkRegistryResumeConfig None true false None.

Lemma registry_routes_witness :
  let '(s', x) := registry_Resume (H := exampleHost) (H0 := exampleEncoding) (H1 := examplePlacementHost) (H2 := @Log_Store exampleEncoding)
    exampleRegistry (fst exampleMade) exampleRegistryConfig "uid" "echo" waitingState in
  x = Err (EParked waitingRef) /\
  routed (H3 := Log_StoreView) exampleRegistry (fst exampleMade) (recordedFor (H3 := Log_StoreView)) (runCheck exampleRegistryConfig) "echo"
    (resumeRouted (H := exampleHost) (H0 := exampleEncoding) (H1 := examplePlacementHost) (H2 := @Log_Store exampleEncoding) exampleRegistryConfig "uid")
    waitingState s' x.
Proof.
  assert (Hx : snd (registry_Resume (H := exampleHost) (H0 := exampleEncoding) (H1 := examplePlacementHost) (H2 := @Log_Store exampleEncoding)
    exampleRegistry (fst exampleMade) exampleRegistryConfig "uid" "echo" waitingState) = Err (EParked waitingRef)) by (vm_compute; reflexivity).
  destruct (registry_routes (H := exampleHost) (H0 := exampleEncoding) (H1 := examplePlacementHost) (H2 := @Log_Store exampleEncoding)
    (H3 := Log_StoreView) (H4 := @Log_StoreLaws exampleEncoding) exampleRegistry (fst exampleMade) exampleRegistryConfig "uid" "echo" 0
    (mkApprovalDecision "e" "call" 4 true "" zeroIdentity) waitingState) as [Hr _].
  destruct (registry_Resume _ _ _ _ _ _) as [s' x]. split; [exact Hx|exact Hr].
Defined.
