(* ===== verification/Checkpoint.v ===== *)
(** * Checkpoints beside running turns (placement/placement.go)

    A stateful fork checkpoints a session while turns of it may be running: the session guard admits
    both. The relation below interleaves any number of turns, marked sections (Suspend, a park handoff, a
    decision, a checked mint) and forks of one session. Each step is one definition of file Placement,
    run atomically; the threads' program counters say which comes next. *)
From S2P Require Import Prelude GoErrors Api Canon EventLog Executions Approvals Harness Sinks Controller Agents Parking SessionGuard Placement Admission Gates Fanout.

(** ** Threads *)

(** A turn: its connection is registered; its fence is minted but not announced; announced; the
    supersession check has passed; it is on its way out. A marked section: with the turn's connection
    still open (a park handoff), without a fence, with one. A fork, by the steps of [forkCheckpoint].
    A repair of a call without its request, which has minted a fence. *)
Inductive thread :=
  | TurnOpen (l : nat) | TurnMinted (l : nat) (f : res Z) | TurnAnnounced (l : nat) (f : Z)
  | TurnRunning (l : nat) (f : Z) | TurnLeaving (l : nat)
  | MarkedHandoff (l : nat) (f : Z) | MarkedClosed (l : nat) (f : Z) | MarkedSection | MarkedFenced (f : Z)
  | ForkBegun (at_ : Z) (open : list nat) | ForkFenced (at_ : Z) (open : list nat) | ForkChecked (at_ : Z) (open : list nat)
  | ForkEnded (at_ : Z) (open : list nat) | ForkSettled (at_ : Z) | ForkRefenced (at_ f : Z) | ForkReady (at_ f : Z)
  | ForkSnapshotted (at_ f : Z) (ref : SnapshotRef) (seen : list Record_) | ForkDone
  | RepairFenced (f : Z).

Section Checkpoint.
Context `{Host} `{Encoding} `{PlacementHost} {S : Type} `{StoreLaws S}.
Abbreviation P := (PState S).
Variables (p : Placer) (uid : string).

(** Whether calls without their request are repaired without a cursor, see below. *)
Variable repairs : bool.

Abbreviation threads := (gmap nat thread).

(** One step of thread [t], from its program counter ([None]: not running). *)
Inductive thread_step : P -> option thread -> P -> option thread -> Prop :=
  (* a turn *)
  | turn_open s s' inc l : openHarness p uid inc s = (s', Ok l) -> thread_step s None s' (Some (TurnOpen l))
  | turn_refused s s' inc e : openHarness p uid inc s = (s', Err e) -> thread_step s None s' None
  | turn_mint s s' l r : onStore st_NewFence s = (s', r) -> thread_step s (Some (TurnOpen l)) s' (Some (TurnMinted l r))
  | turn_mint_checked s s' l e r : resumeFence uid (Some e) s = (s', r) ->
      thread_step s (Some (TurnOpen l)) s' (Some (TurnMinted l r))
  | turn_announce s s' l f : fenceMinted l s = (s', Ok tt) ->
      thread_step s (Some (TurnMinted l (Ok f))) s' (Some (TurnAnnounced l f))
  | turn_announce_failed s s' l e : fenceMinted l s = (s', Ok tt) ->
      thread_step s (Some (TurnMinted l (Err e))) s' (Some (TurnLeaving l))
  | turn_check s s' l f r : checkSuperseded l s = (s', r) ->
      thread_step s (Some (TurnAnnounced l f)) s' (Some (match r with Ok _ => TurnRunning l f | Err _ => TurnLeaving l end))
  | turn_append s s' l f expected ev r : onStore (st_Append expected f ev) s = (s', r) ->
      thread_step s (Some (TurnRunning l f)) s' (Some (TurnRunning l f))
  | turn_end s l f : thread_step s (Some (TurnRunning l f)) s (Some (TurnLeaving l))
  | turn_fail s l : thread_step s (Some (TurnOpen l)) s (Some (TurnLeaving l))
  | turn_leave s s' l r : releaseHarness uid l s = (s', r) -> thread_step s (Some (TurnLeaving l)) s' None
  (* a checked mint before the connection is opened *)
  | early_mint s s' e r : resumeFence uid (Some e) s = (s', r) -> thread_step s None s' None
  (* marked sections *)
  | handoff_mark s s' l f : markCheckpoint uid s = (s', Ok tt) ->
      thread_step s (Some (TurnRunning l f)) s' (Some (MarkedHandoff l f))
  | handoff_release s s' l f r : closeInvocation uid l s = (s', r) ->
      thread_step s (Some (MarkedHandoff l f)) s' (Some (match r with Ok _ => MarkedClosed l f | Err _ => MarkedHandoff l f end))
  | handoff_stop s l f : thread_step s (Some (MarkedHandoff l f)) (endCheckpoint uid s) (Some (TurnLeaving l))
  | handoff_append s s' l f expected ev r : onStore (st_Append expected f ev) s = (s', r) ->
      thread_step s (Some (MarkedClosed l f)) s' (Some (MarkedClosed l f))
  | handoff_end s l f : thread_step s (Some (MarkedClosed l f)) (endCheckpoint uid s) (Some (TurnLeaving l))
  | section_mark s s' : markCheckpoint uid s = (s', Ok tt) -> thread_step s None s' (Some MarkedSection)
  | section_mint s s' f : onStore st_NewFence s = (s', Ok f) -> thread_step s (Some MarkedSection) s' (Some (MarkedFenced f))
  | section_append s s' f expected ev r : onStore (st_Append expected f ev) s = (s', r) ->
      thread_step s (Some (MarkedFenced f)) s' (Some (MarkedFenced f))
  | section_stop s : thread_step s (Some MarkedSection) (endCheckpoint uid s) None
  | section_end s f : thread_step s (Some (MarkedFenced f)) (endCheckpoint uid s) None
  (* a fork *)
  | fork_begin s s' at_ open : beginCheckpoint uid s = (s', Ok open) -> thread_step s None s' (Some (ForkBegun at_ open))
  | fork_fence s s' at_ open r : onStore st_NewFence s = (s', r) ->
      thread_step s (Some (ForkBegun at_ open)) s' (Some (match r with Ok _ => ForkFenced at_ open | Err _ => ForkDone end))
  | fork_check s s' at_ open moved r : forkPoint at_ moved s = (s', r) ->
      thread_step s (Some (ForkFenced at_ open)) s' (Some (match r with Ok _ => ForkChecked at_ open | Err _ => ForkDone end))
  | fork_end s s' at_ open : endAll open s = (s', Ok tt) -> thread_step s (Some (ForkChecked at_ open)) s' (Some (ForkEnded at_ open))
  | fork_wait s s' at_ open r : awaitMinted open s = (s', r) ->
      thread_step s (Some (ForkEnded at_ open)) s' (Some (match r with Ok _ => ForkSettled at_ | Err _ => ForkDone end))
  | fork_refence s s' at_ r : onStore st_NewFence s = (s', r) ->
      thread_step s (Some (ForkSettled at_)) s' (Some (match r with Ok f => ForkRefenced at_ f | Err _ => ForkDone end))
  | fork_recheck s s' at_ f moved r : forkPoint at_ moved s = (s', r) ->
      thread_step s (Some (ForkRefenced at_ f)) s' (Some (match r with Ok _ => ForkReady at_ f | Err _ => ForkDone end))
  | fork_snapshot s s' t at_ f : called (CallSnapshot uid) s = (s', Ok t) ->
      thread_step s (Some (ForkReady at_ f)) s' (Some (match b_Snapshot (p_backend p) t uid with
        | Ok ref => ForkSnapshotted at_ f ref (journal (logOf s)) | Err _ => ForkDone end))
  | fork_record s s' at_ f ref seen r : appendLifecycleAt at_ f (suspendLifecycle ref) s = (s', r) ->
      thread_step s (Some (ForkSnapshotted at_ f ref seen)) s' (Some ForkDone)
  | fork_release s : thread_step s (Some ForkDone) (endCheckpoint uid s) None
  (* a repair: [resumeApproval] on a call without its request, no cursor given *)
  | repair_mint s s' f : repairs = true -> resumeFence uid None s = (s', Ok f) -> thread_step s None s' (Some (RepairFenced f))
  | repair_append s s' f expected ev r : onStore (st_Append expected f ev) s = (s', r) -> thread_step s (Some (RepairFenced f)) s' None.

Definition state := (P * threads)%type.

Definition update (t : nat) (pc : option thread) (T : threads) : threads :=
  match pc with Some pc => <[t := pc]> T | None => delete t T end.

Inductive step : state -> state -> Prop :=
  | step_thread t s T s' pc : thread_step s (T !! t) s' pc ->
      step (s, T) (s', update t pc T).

(** A session at rest: nothing runs, no mark. *)
Definition idle (s : P) : Prop := uid ∉ ps_checkpoints s.
Definition reachable (σ : state) : Prop := exists s, idle s /\ rtc step (s, ∅) σ.

(** ** Invariant *)

Definition marks (pc : thread) : bool :=
  match pc with
  | MarkedHandoff _ _ | MarkedClosed _ _ | MarkedSection | MarkedFenced _ | ForkBegun _ _ | ForkFenced _ _ | ForkChecked _ _
  | ForkEnded _ _ | ForkSettled _ | ForkRefenced _ _ | ForkReady _ _ | ForkSnapshotted _ _ _ _ | ForkDone => true
  | _ => false
  end.

(** The connection a thread owns and whether it is past announcing or checking; the fence it writes under. *)
Definition connOf (pc : thread) : option nat :=
  match pc with
  | TurnOpen l | TurnMinted l _ | TurnAnnounced l _ | TurnRunning l _ | TurnLeaving l | MarkedHandoff l _ | MarkedClosed l _ => Some l
  | _ => None
  end.
Definition unminted (pc : thread) : bool := match pc with TurnOpen _ | TurnMinted _ _ => true | _ => false end.
Definition unchecked (pc : thread) : bool := match pc with TurnOpen _ | TurnMinted _ _ | TurnAnnounced _ _ => true | _ => false end.
Definition fenceOf (pc : thread) : option Z :=
  match pc with TurnMinted _ (Ok f) | TurnAnnounced _ f | TurnRunning _ f => Some f | _ => None end.
Definition writing (pc : thread) : option Z := match pc with TurnRunning _ f => Some f | _ => None end.

(** The connections a fork waits for, whether its first fence has landed, whether it has settled. *)
Definition waitsOn (pc : thread) : option (list nat) :=
  match pc with ForkBegun _ o | ForkFenced _ o | ForkChecked _ o | ForkEnded _ o => Some o | _ => None end.
Definition fencing (pc : thread) : bool :=
  match pc with ForkFenced _ _ | ForkChecked _ _ | ForkEnded _ _ | ForkSettled _ | ForkRefenced _ _ | ForkReady _ _
  | ForkSnapshotted _ _ _ _ => true | _ => false end.
Definition settled (pc : thread) : bool :=
  match pc with ForkSettled _ | ForkRefenced _ _ | ForkReady _ _ | ForkSnapshotted _ _ _ _ => true | _ => false end.

(** A turn past a checkpoint that has begun: it will not pass its check. *)
Definition doomed (s : P) (pc : thread) : Prop :=
  unchecked pc = true -> forall l c, connOf pc = Some l -> ps_conns s !! l = Some c -> superseded c = true.

(** What a thread knows by itself. *)
Definition refence (s : P) (pc : thread) : Prop :=
  match pc with
  | ForkRefenced at_ f => curFence (logOf s) = f
  | ForkReady at_ f => curFence (logOf s) = f /\ headOf (journal (logOf s)) = at_
  | ForkSnapshotted at_ f ref seen => curFence (logOf s) = f /\ journal (logOf s) = seen /\ headOf seen = at_
  | RepairFenced _ => False
  | _ => True
  end.
Record own (s : P) (pc : thread) : Prop := {
  own_conn : forall l, connOf pc = Some l -> (l < ps_next s)%nat /\ (unchecked pc = true -> l ∈ liveOf uid s) /\
    exists c, ps_conns s !! l = Some c /\ (unminted pc = true -> minted c = false);
  own_fence : forall f, fenceOf pc = Some f -> f <= curFence (logOf s);
  own_mark : marks pc = true -> uid ∈ ps_checkpoints s;
  own_refence : refence s pc;
}.

(** What it knows of another. *)
Record aware (s : P) (pc other : thread) : Prop := {
  aw_mark : marks pc = true -> marks other = false;
  aw_conn : forall l, connOf pc = Some l -> connOf other <> Some l;
  aw_open : forall o, waitsOn pc = Some o -> doomed s other /\ (unminted other = true -> forall l, connOf other = Some l -> l ∈ o);
  aw_fence : forall f, fencing pc = true -> writing other = Some f -> f < curFence (logOf s);
  aw_settled : settled pc = true -> unminted other = false /\ doomed s other;
}.

Record inv (σ : state) : Prop := {
  inv_own : forall t pc, σ.2 !! t = Some pc -> own σ.1 pc;
  inv_aware : forall t u pc other, t <> u -> σ.2 !! t = Some pc -> σ.2 !! u = Some other -> aware σ.1 pc other;
}.

(** One thread moves: it has to know its new place, and the others to keep theirs. *)
Lemma inv_move s T t s' pc' : inv (s, T) ->
  (forall u pc, u <> t -> T !! u = Some pc -> own s pc -> own s' pc) ->
  (forall u v pc other, u <> t -> v <> t -> u <> v -> T !! u = Some pc -> T !! v = Some other -> own s other ->
    aware s pc other -> aware s' pc other) ->
  (forall pc, pc' = Some pc -> own s' pc /\ forall u other, u <> t -> T !! u = Some other -> aware s' pc other /\ aware s' other pc) ->
  inv (s', update t pc' T).
Proof.
  intros [Ho Ha] Hown Haware Hnew. cbn in *.
  assert (Hl : forall u pc, update t pc' T !! u = Some pc -> (u = t /\ pc' = Some pc) \/ (u <> t /\ T !! u = Some pc)).
  { intros u pc. unfold update. destruct pc' as [q|].
    - rewrite lookup_insert_Some. intros [[<- <-]|[? ?]]; [by left|right; by split].
    - rewrite lookup_delete_Some. intros [? ?]. right. by split. }
  split; cbn.
  - intros u pc [[-> Hpc]|[Hne Hu]]%Hl; [by apply Hnew|]. eapply Hown; [done|done|]. by eapply Ho.
  - intros u v pc other Huv [[-> Hu]|[Hu Hu']]%Hl [[-> Hv]|[Hv Hv']]%Hl.
    + done.
    + destruct (Hnew _ Hu) as [_ Hx]. by apply (Hx v).
    + destruct (Hnew _ Hv) as [_ Hx]. by apply (Hx u).
    + eapply (Haware u v); try done; [by eapply Ho|]. by apply (Ha u v).
Qed.

(** ** Frames *)

(** The flags of a connection. *)
Definition flags (s : P) (l : nat) : option (bool * bool) := (fun c => (superseded c, minted c)) <$> ps_conns s !! l.

(** At most the connection [x] was announced or deregistered; what is superseded stays so. *)
Record touch (x : option nat) (s s' : P) : Prop := {
  tc_superseded : forall k, (k < ps_next s)%nat -> fst <$> flags s k = Some true -> fst <$> flags s' k = Some true;
  tc_minted : forall k, x <> Some k -> snd <$> flags s' k = snd <$> flags s k;
  tc_live : forall k, x <> Some k -> k ∈ liveOf uid s -> k ∈ liveOf uid s';
  tc_next : (ps_next s <= ps_next s')%nat;
  tc_exists : forall k, (k < ps_next s)%nat -> is_Some (ps_conns s !! k) -> is_Some (ps_conns s' !! k);
}.
(** The log and the mark have not lost anything: a fence grows, and a thread that holds the mark keeps it
    and, if a fork depends on the log, the log. *)
Record grows (s s' : P) (pc : thread) : Prop := {
  gr_fence : curFence (logOf s) <= curFence (logOf s');
  gr_mark : marks pc = true -> uid ∈ ps_checkpoints s -> uid ∈ ps_checkpoints s';
  gr_refence : refence s pc -> refence s' pc;
}.

Lemma touch_same x s s' : ps_conns s' = ps_conns s -> ps_live s' = ps_live s -> ps_next s' = ps_next s -> touch x s s'.
Proof. intros Hc Hl Hn. split; intros; unfold flags, liveOf in *; rewrite ?Hc, ?Hl, ?Hn in *; done. Qed.
Lemma touch_any x s s' : touch None s s' -> touch x s s'.
Proof. intros [T1 T2 T3 T4 T5]. split; auto. Qed.
Lemma touch_trans x a b c : touch x a b -> touch x b c -> touch x a c.
Proof.
  intros [T1 T2 T3 T4 T5] [U1 U2 U3 U4 U5]. split; [| |eauto|lia|intros k Hk Hs; apply U5; [lia|by apply T5]].
  - intros k Hk Hs. apply U1; [lia|]. by apply T1.
  - intros k Hk. by rewrite U2, T2.
Qed.

Lemma doomed_touch x s s' pc : touch x s s' -> own s pc -> doomed s pc -> doomed s' pc.
Proof.
  intros [Hs _ _ _ _] [A1 _ _ _] Hd Hu l c Hl Hc. specialize (Hs l). destruct (A1 l Hl) as (Hlt & _).
  specialize (Hs Hlt). unfold flags in Hs. rewrite Hc in Hs. destruct (A1 l Hl) as (_ & _ & c0 & Hc0 & _). rewrite Hc0 in Hs.
  cbn in Hs. rewrite (Hd Hu l c0 Hl Hc0) in Hs. specialize (Hs eq_refl). by injection Hs.
Qed.

Lemma own_touch x s s' pc : touch x s s' -> (forall l, connOf pc = Some l -> x <> Some l) -> grows s s' pc -> own s pc -> own s' pc.
Proof.
  intros [T1 T2 T3 T4 T5] Hx [G1 G2 G3] [A1 A2 A3 A4]. split; auto.
  - intros l Hl. destruct (A1 l Hl) as (Hn & Hlv & c & Hc & Hm). split; [lia|]. split; [auto|].
    specialize (T2 l (Hx l Hl)). unfold flags in T2. rewrite Hc in T2. destruct (ps_conns s' !! l) as [c'|]; [|done].
    injection T2 as Ht. exists c'. split; [done|]. intros Hu. rewrite Ht. auto.
  - intros f Hf. apply A2 in Hf. lia.
Qed.

Lemma aware_touch x s s' pc other : touch x s s' -> own s other -> curFence (logOf s) <= curFence (logOf s') -> aware s pc other -> aware s' pc other.
Proof.
  intros Hc Ho' Hf [A1 A2 A3 A4 A5]. split; [done|done| | |].
  - intros o Ho. destruct (A3 o Ho). split; [by eapply doomed_touch|done].
  - intros f Hx Hw. pose proof (A4 f Hx Hw). lia.
  - intros Hs. destruct (A5 Hs). split; [done|by eapply doomed_touch].
Qed.

(** Neither thread knows more than it did: the new place of the moving thread claims nothing new. *)
Record weaker (pc pc' : thread) : Prop := {
  wk_marks : marks pc' = true -> marks pc = true;
  wk_conn : forall l, connOf pc' = Some l -> connOf pc = Some l;
  wk_waits : forall o, waitsOn pc' = Some o -> waitsOn pc = Some o;
  wk_fencing : fencing pc' = true -> fencing pc = true;
  wk_settled : settled pc' = true -> settled pc = true;
  wk_unminted : unminted pc' = true -> unminted pc = true;
  wk_unchecked : unchecked pc' = true -> unchecked pc = true;
  wk_writing : forall f, writing pc' = Some f -> writing pc = Some f;
}.

Lemma weaker_aware s pc pc' other : weaker pc pc' -> aware s pc other -> aware s pc' other.
Proof.
  intros [W1 W2 W3 W4 W5 _ _ _] [A1 A2 A3 A4 A5]. split; eauto.
Qed.
Lemma weaker_doomed s pc pc' : weaker pc pc' -> doomed s pc -> doomed s pc'.
Proof. intros [_ W2 _ _ _ _ W7 _] Hd Hu l c Hl. apply Hd; auto. Qed.
Lemma weaker_aware_of s pc pc' other : weaker pc pc' -> aware s other pc -> aware s other pc'.
Proof.
  intros W [A1 A2 A3 A4 A5]. pose proof W as [W1 W2 W3 W4 W5 W6 W7 W8]. split.
  - intros Hm. apply A1 in Hm. destruct (marks pc') eqn:E; [|done]. by rewrite W1 in Hm.
  - intros l Hl Hl'. by apply (A2 l), W2.
  - intros o Ho. destruct (A3 o Ho) as [Hd Hu]. split; [by eapply weaker_doomed|]. intros Hm l Hl. apply Hu; auto.
  - intros f Hf Hw. apply A4; auto.
  - intros Hs. destruct (A5 Hs) as [Hu Hd]. split; [|by eapply weaker_doomed]. destruct (unminted pc') eqn:E; [|done]. by rewrite W6 in Hu.
Qed.

(** A thread moves on to a place where it knows what [Hnew] says. *)
Lemma inv_new s T t s' pc pc' : inv (s, T) -> T !! t = Some pc -> touch (connOf pc) s s' -> curFence (logOf s) <= curFence (logOf s') ->
  (forall u other, u <> t -> T !! u = Some other -> grows s s' other) ->
  (forall q, pc' = Some q -> own s' q /\ forall u other, u <> t -> T !! u = Some other -> aware s' q other /\ aware s' other q) ->
  inv (s', update t pc' T).
Proof.
  intros Hinv Ht Hc Hf Hr Hnew. pose proof Hinv as [_ Ha]. apply (inv_move s); [done| | |exact Hnew].
  - intros u q Hu Hq. apply (own_touch (connOf pc)); [done| |by eapply Hr].
    intros l Hl Hl'. by apply (aw_conn s pc q (Ha t u pc q ltac:(done) Ht Hq) l Hl').
  - intros. by eapply aware_touch.
Qed.

(** A thread moves on and knows no more than before, or is gone. *)
Lemma inv_weaken s T t s' pc pc' : inv (s, T) -> T !! t = Some pc -> weaker pc pc' -> touch (connOf pc) s s' ->
  curFence (logOf s) <= curFence (logOf s') -> (forall u other, u <> t -> T !! u = Some other -> grows s s' other) -> own s' pc' ->
  inv (s', update t (Some pc') T).
Proof.
  intros Hinv Ht W Hc Hf Hr Hown. pose proof Hinv as [Ho Ha]. eapply inv_new; [done|done|done|done|done|].
  intros q [= <-]. split; [done|]. intros u other Hu Hq. split.
  - eapply aware_touch; [done|by eapply Ho|done|]. eapply weaker_aware; [done|]. by apply (Ha t u).
  - eapply weaker_aware_of; [done|]. eapply aware_touch; [done|by eapply Ho|done|]. by apply (Ha u t).
Qed.
Lemma inv_gone s T t s' pc : inv (s, T) -> T !! t = Some pc -> touch (connOf pc) s s' -> curFence (logOf s) <= curFence (logOf s') ->
  (forall u other, u <> t -> T !! u = Some other -> grows s s' other) -> inv (s', update t None T).
Proof. intros Hinv Ht Hc Hf Hr. by eapply inv_new. Qed.

(** A thread begins. *)
Lemma inv_start x s T t s' pc : inv (s, T) -> T !! t = None -> touch x s s' ->
  (forall u other l, T !! u = Some other -> connOf other = Some l -> x <> Some l) -> curFence (logOf s) <= curFence (logOf s') ->
  (forall u other, T !! u = Some other -> grows s s' other) ->
  (forall q, pc = Some q -> own s' q /\ forall u other, T !! u = Some other -> aware s' q other /\ aware s' other q) ->
  inv (s', update t pc T).
Proof.
  intros Hinv Ht Hc Hx Hf Hr Hnew. apply (inv_move s); [done| | |].
  - intros u q Hu Hq. apply (own_touch x); [done|by eauto|by eapply Hr].
  - intros. by eapply aware_touch.
  - intros q Hq. destruct (Hnew q Hq) as [Ho Ha]. split; [done|]. eauto.
Qed.

(** ** The log *)

(** Only the log changed. *)
Definition logOnly (s s' : P) : Prop := (forall x, touch x s s') /\ ps_checkpoints s' = ps_checkpoints s.

Lemma logOnly_onStore {A} (m : M S goerr A) (s s' : P) r : onStore m s = (s', r) -> logOnly s s'.
Proof. unfold onStore, onWorldP. destruct (onLog m (ps_world s)). intros [= <- _]. split; [intros; by apply touch_same|done]. Qed.

Lemma fence_run (s s' : P) r : onStore st_NewFence s = (s', r) -> logOnly s s' /\ journal (logOf s') = journal (logOf s) /\
  match r with Ok f => f = curFence (logOf s) + 1 /\ curFence (logOf s') = f | Err _ => curFence (logOf s') = curFence (logOf s) end.
Proof. intros Hr. split; [by eapply logOnly_onStore|]. by apply newFence_run in Hr as (? & _ & ?). Qed.

Lemma append_run expected f ev (s s' : P) r : onStore (st_Append expected f ev) s = (s', r) -> logOnly s s' /\
  curFence (logOf s') = curFence (logOf s) /\ (f < curFence (logOf s) -> journal (logOf s') = journal (logOf s)).
Proof.
  intros Hr. split; [by eapply logOnly_onStore|]. apply onStore_run in Hr as (l' & Ha & <- & _). apply append_law in Ha as [Hf Ha].
  split; [done|]. intros Hlt. destruct r; [|done]. destruct Ha as (_ & Hle & _). lia.
Qed.

(** ** Connections *)

(** The log and the mark are as they were. *)
Definition connOnly (x : option nat) (s s' : P) : Prop :=
  touch x s s' /\ logOf s' = logOf s /\ ps_checkpoints s' = ps_checkpoints s.
#[local] Instance connOnly_preorder x : PreOrder (connOnly x).
Proof.
  split; [intros s; split; [by apply touch_same|done]|]. intros a b c (T1 & L1 & C1) (T2 & L2 & C2).
  split; [by eapply touch_trans|]. split; congruence.
Qed.

Lemma connOnly_any x : forall s s', connOnly None s s' -> connOnly x s s'.
Proof. intros s s' (Ht & ? & ?). split; [by apply touch_any|done]. Qed.
Lemma connOnly_tick : frame (S := S) (connOnly None) tickP.
Proof. intros s. split; [by apply touch_same|done]. Qed.
Lemma connOnly_called c : frame (S := S) (connOnly None) (called c).
Proof. intros s. split; [by apply touch_same|done]. Qed.
#[local] Hint Resolve connOnly_tick connOnly_called : frame.

Lemma flags_alter f l k (s : P) : flags (updConn l f s) k =
  if decide (l = k) then (fun c => (superseded (f c), minted (f c))) <$> ps_conns s !! k else flags s k.
Proof.
  unfold flags, updConn. cbn. case_decide as E; [subst; rewrite lookup_alter_eq|by rewrite lookup_alter_ne].
  by destruct (ps_conns s !! k).
Qed.

Lemma connOnly_setEnded l cause err : frame (S := S) (E := goerr) (connOnly None) (modify (updConn l (setEnded cause err))).
Proof.
  intros s. split; [|done]. split; [| |done|done|intros k _ [c Hc]; cbn; apply lookup_alter_is_Some; by eexists]; intros k Hk; cbn [fst modify]; rewrite flags_alter; case_decide; try done;
    unfold flags; by destruct (ps_conns s !! k).
Qed.
#[local] Hint Resolve connOnly_setEnded : frame.

Lemma connOnly_endConn l cause : frame (S := S) (connOnly None) (endConn l cause).
Proof. unfold endConn. step_frame. Qed.
Lemma connOnly_connErr l : frame (S := S) (connOnly None) (connErr l).
Proof. unfold connErr. step_frame. Qed.
Lemma connOnly_connCause l : frame (S := S) (connOnly None) (connCause l).
Proof. unfold connCause. step_frame. Qed.
#[local] Hint Resolve connOnly_endConn connOnly_connErr connOnly_connCause : frame.
Lemma connOnly_checkSuperseded l : frame (S := S) (connOnly None) (checkSuperseded l).
Proof. unfold checkSuperseded. step_frame. Qed.
Lemma connOnly_endAll open : frame (S := S) (connOnly None) (endAll open).
Proof. induction open; cbn; step_frame. Qed.
Lemma connOnly_awaitMinted open : frame (S := S) (connOnly None) (awaitMinted open).
Proof. induction open; cbn; step_frame. Qed.

Lemma connOnly_fenceMinted l : frame (S := S) (connOnly (Some l)) (fenceMinted l).
Proof.
  intros s. split; [|done]. split; [| |done|done|intros k _ [c Hc]; cbn; apply lookup_alter_is_Some; by eexists]; unfold fenceMinted, modify; cbn [fst]; intros k Hk; rewrite flags_alter;
    case_decide as E; try done; subst; [|congruence]. unfold flags. by destruct (ps_conns s !! k).
Qed.

Lemma connOnly_releaseHarness l : frame (S := S) (connOnly (Some l)) (releaseHarness uid l).
Proof.
  unfold releaseHarness. apply frame_bind; [typeclasses eauto| |intros _].
  - intros s. split; [|done]. split; [done|done| |done|done]. intros k Hk. unfold liveOf. cbn.
    fold (liveOf uid s). intros Hin. case_decide as E.
    + exfalso. assert (k ∈ liveOf uid s ∖ {[l]}) by (rewrite elem_of_difference, elem_of_singleton; split; [done|congruence]). rewrite E in *. set_solver.
    + rewrite lookup_insert_eq. cbn. rewrite elem_of_difference, elem_of_singleton. split; [done|congruence].
  - apply frame_bind; [typeclasses eauto|apply connOnly_fenceMinted|intros _].
    apply frame_bind; [typeclasses eauto|intros s; by apply connOnly_any, connOnly_endConn|]. intros. apply frame_check. typeclasses eauto.
Qed.
Lemma connOnly_closeInvocation l : frame (S := S) (connOnly (Some l)) (closeInvocation uid l).
Proof.
  unfold closeInvocation. apply frame_bind; [typeclasses eauto|intros s; by apply connOnly_any, connOnly_checkSuperseded|].
  intros. apply connOnly_releaseHarness.
Qed.

(** Whoever holds the mark is alone with it. *)
Lemma marked_alone s T t pc u other : inv (s, T) -> T !! t = Some pc -> marks pc = true -> u <> t -> T !! u = Some other ->
  marks other = false.
Proof. intros [_ Ha] Ht Hm Hu Ho. by apply (aw_mark s pc other); [apply (Ha t u)|]. Qed.

Lemma refence_plain s s' pc : marks pc = false -> refence s pc -> refence s' pc.
Proof. by destruct pc. Qed.
Lemma refence_same s s' pc : sameLog s s' -> refence s pc -> refence s' pc.
Proof. intros [Hj Hf]. destruct pc; cbn; rewrite ?Hj, ?Hf; done. Qed.
Lemma refence_settled s s' pc : settled pc = false -> refence s pc -> refence s' pc.
Proof. by destruct pc. Qed.

(** ** The single steps *)

Lemma checkSuperseded_ok l (s s' : P) : checkSuperseded l s = (s', Ok tt) -> forall c, ps_conns s !! l = Some c -> superseded c = false.
Proof.
  unfold checkSuperseded, gets, mbind, M_bind. intros Hr c Hc. rewrite Hc in Hr. by destruct (superseded c).
Qed.

Lemma awaitMinted_ok open (s s' : P) : awaitMinted open s = (s', Ok tt) ->
  forall l c, l ∈ open -> ps_conns s !! l = Some c -> minted c = true.
Proof.
  revert s. induction open as [|k ks IH]; intros s Hr l c Hin Hc; [by apply not_elem_of_nil in Hin|].
  cbn [awaitMinted] in Hr. unfold gets in Hr. unfold mbind at 1, M_bind at 1 in Hr.
  destruct (match ps_conns s !! k with Some c => minted c | None => true end) eqn:E; [|done].
  apply elem_of_cons in Hin as [->|Hin]; [by rewrite Hc in E|by eapply IH].
Qed.

Lemma mark_run (s s' : P) : markCheckpoint uid s = (s', Ok tt) -> uid ∉ ps_checkpoints s /\ s' = setCheckpoints ({[uid]} ∪ ps_checkpoints s) s.
Proof. unfold markCheckpoint, setCheckpointLocked. case_bool_decide; [done|]. by intros [= <-]. Qed.

(** A checked mint takes the mark for its duration, so it is refused while somebody holds it. *)
Lemma checked_mint_run e (s s' : P) r : resumeFence uid (Some e) s = (s', r) ->
  logOnly s s' /\ curFence (logOf s) <= curFence (logOf s') /\ (forall f, r = Ok f -> f <= curFence (logOf s')) /\
  (uid ∈ ps_checkpoints s -> sameLog s s').
Proof.
  unfold resumeFence, withCheckpoint. unfold mbind at 1, M_bind at 1. destruct (markCheckpoint uid s) as [s1 [[]|e1]] eqn:Em.
  2:{ unfold markCheckpoint, setCheckpointLocked in Em. case_bool_decide; [|done]. injection Em as <- <-.
      intros [= <- <-]. split; [split; [intros; by apply touch_same|done]|]. split; [lia|done]. }
  apply mark_run in Em as [Hk ->]. set (s1 := setCheckpoints _ s) in *. unfold finally, mbind, M_bind.
  destruct (onStore st_NewFence s1) as [s2 r2] eqn:En. apply fence_run in En as ([Ht2 Hc2] & Hj2 & Hf2).
  destruct r2 as [f|e2].
  - unfold checkResumeHead, mbind, M_bind. destruct (onStore st_Head s2) as [s3 r3] eqn:Eh.
    pose proof (logOnly_onStore _ _ _ _ Eh) as [Ht3 Hc3]. apply onStore_run in Eh as (l' & Hh & Hl & _).
    apply head_law in Hh as (Hj3 & Hf3 & _). rewrite <- Hl in *.
    assert (Hall : forall r', (endCheckpoint uid s3, r') = (s', r) -> (forall g, r' = Ok g -> g = f) ->
      logOnly s s' /\ curFence (logOf s) <= curFence (logOf s') /\ (forall f, r = Ok f -> f <= curFence (logOf s')) /\
      (uid ∈ ps_checkpoints s -> sameLog s s')).
    { intros r' [= <- <-] Hg. destruct Hf2 as [Hf2 Hf2']. cbn in *. change (logOf s1) with (logOf s) in Hf2.
      split; [split|].
      - intros x. eapply touch_trans; [by apply (touch_same x s s1)|]. eapply touch_trans; [apply Ht2|]. eapply touch_trans; [apply Ht3|by apply touch_same].
      - cbn. rewrite Hc3, Hc2. unfold s1. cbn. set_solver.
      - change (logOf (endCheckpoint uid s3)) with (logOf s3). split; [lia|]. split; [|done]. intros g Hg'. rewrite (Hg g Hg'). lia. }
    destruct r3 as [hd|e3]; [destruct (negb (hd =? e))|]; cbn; intros Hr; apply (Hall _ Hr); [done| |done].
    by intros g [= <-].
  - cbn. intros [= <- <-]. change (logOf s1) with (logOf s) in *.
    split; [split|].
    + intros x. eapply touch_trans; [by apply (touch_same x s s1)|]. eapply touch_trans; [apply Ht2|by apply touch_same].
    + cbn. rewrite Hc2. unfold s1. cbn. set_solver.
    + change (logOf (endCheckpoint uid s2)) with (logOf s2). split; [lia|done].
Qed.

(** A dialled connection, registered only while there is no mark. *)
Lemma open_run inc (s s' : P) r : openHarness p uid inc s = (s', r) ->
  logOf s' = logOf s /\ ps_checkpoints s' = ps_checkpoints s /\ touch (Some (ps_next s)) s s' /\
  match r with
  | Ok l => l = ps_next s /\ uid ∉ ps_checkpoints s /\ (l < ps_next s')%nat /\ l ∈ liveOf uid s' /\
      exists c, ps_conns s' !! l = Some c /\ minted c = false
  | Err _ => True
  end.
Proof.
  unfold openHarness, called, tickP, onWorldP, tick, lift, gets, modify, mbind, M_bind. cbn [fst snd ps_next ps_world ps_checkpoints].
  destruct (p_dial p _ inc) as [[har cl]|e].
  2:{ intros [= <- <-]. split; [done|]. split; [done|]. split; [by apply touch_same|done]. }
  cbn [fst snd]. set (c := mkLiveHarness har cl false false None).
  assert (Hreg : forall s1 : P, ps_conns s1 = <[ps_next s := c]> (ps_conns s) -> ps_next s1 = Datatypes.S (ps_next s) ->
    (forall k, k ∈ liveOf uid s -> k ∈ liveOf uid s1) -> touch (Some (ps_next s)) s s1).
  { intros s1 Hc Hn Hl. split; [| |intros k _; apply Hl|lia|intros k Hk; rewrite Hc, lookup_insert_ne; [done|lia]]; intros k Hk; unfold flags; rewrite Hc, lookup_insert_ne; [done|lia|done|congruence]. }
  case_bool_decide as Hm.
  - match goal with |- context [endConn ?l ?e ?st] => pose proof (connOnly_endConn l e st) as (Ht & Hl & Hk); destruct (endConn l e st) as [s2 [o|e2]] end;
      cbn [fst] in Ht, Hl, Hk; intros [= <- <-]; (split; [exact Hl|]); (split; [exact Hk|]); (split; [|done]);
      (eapply touch_trans; [|apply touch_any; exact Ht]; by apply Hreg).
  - intros [= <- <-]. split; [done|]. split; [done|]. split.
    + apply Hreg; [done|done|]. intros k. unfold liveOf. cbn. rewrite lookup_insert_eq. cbn. set_solver.
    + split; [done|]. split; [done|]. split; [cbn; lia|]. split.
      * unfold liveOf. cbn. rewrite lookup_insert_eq. cbn. set_solver.
      * exists c. cbn. by rewrite lookup_insert_eq.
Qed.


(** A checkpoint begins: whatever is live is superseded, and waited for. *)
Lemma begin_run (s s' : P) open : beginCheckpoint uid s = (s', Ok open) ->
  uid ∉ ps_checkpoints s /\ uid ∈ ps_checkpoints s' /\ logOf s' = logOf s /\ touch None s s' /\
  forall l, l ∈ liveOf uid s -> l ∈ open /\ forall c, ps_conns s' !! l = Some c -> superseded c = true.
Proof.
  unfold beginCheckpoint, setCheckpointLocked. unfold mbind at 1, M_bind at 1. case_bool_decide as Hm; [done|].
  unfold gets, modify, mbind, M_bind, mret, M_ret. set (o := elements _). intros [= <- <-].
  assert (Ho : forall l, l ∈ liveOf uid s -> l ∈ o) by (intros l; unfold o, liveOf; cbn; by rewrite elem_of_elements).
  set (s0 := setCheckpoints _ s). assert (Hs0 : touch None s s0) by by apply touch_same.
  assert (Hb : uid ∈ ps_checkpoints s0 /\ logOf s0 = logOf s) by (split; [cbn; set_solver|done]).
  clearbody s0. revert Ho. generalize o. clear o. intros o Ho.
  assert (Hfold : forall o', uid ∈ ps_checkpoints (foldr (fun l => updConn l setSuperseded) s0 o') /\
    logOf (foldr (fun l => updConn l setSuperseded) s0 o') = logOf s /\ touch None s (foldr (fun l => updConn l setSuperseded) s0 o') /\
    forall l, l ∈ o' -> forall c, ps_conns (foldr (fun l => updConn l setSuperseded) s0 o') !! l = Some c -> superseded c = true).
  { induction o' as [|k ks (I1 & I2 & I3 & I4)]; cbn [foldr].
    - split; [apply Hb|]. split; [apply Hb|]. split; [done|]. intros l Hin. by apply not_elem_of_nil in Hin.
    - split; [exact I1|]. split; [exact I2|]. split.
      + eapply touch_trans; [exact I3|]. split; [| |done|done|intros k' _ [c Hc]; cbn; apply lookup_alter_is_Some; by eexists].
        * intros k' Hlt Hs. rewrite flags_alter. case_decide; [|done]. unfold flags in Hs. by destruct (_ !! k').
        * intros k' _. rewrite flags_alter. case_decide; [|done]. unfold flags. by destruct (_ !! k').
      + intros l Hin c. unfold updConn. cbn. destruct (decide (k = l)) as [->|Hne].
        * rewrite lookup_alter_eq. destruct (_ !! l); [|done]. by intros [= <-].
        * rewrite lookup_alter_ne by done. apply I4. apply elem_of_cons in Hin as [->|]; done. }
  destruct (Hfold o) as (I1 & I2 & I3 & I4). split; [done|]. split; [done|]. split; [done|]. split; [done|]. intros l Hl. split; [auto|]. apply I4. auto.
Qed.

(** ** Every step *)

Lemma marked s T u pc : inv (s, T) -> T !! u = Some pc -> marks pc = true -> uid ∈ ps_checkpoints s.
Proof. intros [Ho _] Hu. apply (Ho u pc Hu). Qed.
Lemma waits_marks pc o : waitsOn pc = Some o -> marks pc = true.
Proof. by destruct pc. Qed.
Lemma fencing_marks pc : fencing pc = true -> marks pc = true.
Proof. by destruct pc. Qed.
Lemma settled_fencing pc : settled pc = true -> fencing pc = true.
Proof. by destruct pc. Qed.

Lemma grows_plain s s' pc : marks pc = false -> curFence (logOf s) <= curFence (logOf s') -> grows s s' pc.
Proof. intros Hm Hf. split; [done|by rewrite Hm|by apply refence_plain]. Qed.
Lemma grows_unsettled s s' pc : settled pc = false -> curFence (logOf s) <= curFence (logOf s') ->
  ps_checkpoints s' = ps_checkpoints s -> grows s s' pc.
Proof. intros Hm Hf Hc. split; [done|by rewrite Hc|by apply refence_settled]. Qed.
Lemma grows_same s s' pc : sameLog s s' -> ps_checkpoints s' = ps_checkpoints s -> grows s s' pc.
Proof. intros Hl Hc. split; [destruct Hl as [_ ->]; lia|by rewrite Hc|by apply refence_same]. Qed.
Lemma grows_conn x s s' pc : connOnly x s s' -> grows s s' pc.
Proof. intros (_ & Hl & Hc). apply grows_same; [|done]. unfold sameLog. by rewrite Hl. Qed.

(** Nobody has settled while a turn has yet to mint. *)
Lemma unsettled s T t pc u other : inv (s, T) -> T !! t = Some pc -> unminted pc = true -> u <> t -> T !! u = Some other ->
  settled other = false.
Proof.
  intros [_ Ha] Ht Hu Hne Ho. destruct (settled other) eqn:E; [|done].
  destruct (aw_settled s other pc (Ha u t other pc Hne Ho Ht) E) as [Hx _]. congruence.
Qed.

(** A turn that passes its check is not superseded. *)
Lemma undoomed s T t pc l c u other : inv (s, T) -> T !! t = Some pc -> unchecked pc = true -> connOf pc = Some l ->
  ps_conns s !! l = Some c -> superseded c = false -> u <> t -> T !! u = Some other -> waitsOn other = None /\ settled other = false.
Proof.
  intros [_ Ha] Ht Hu Hl Hc Hs Hne Ho. specialize (Ha u t other pc Hne Ho Ht). split.
  - destruct (waitsOn other) as [o|] eqn:E; [|done]. destruct (aw_open _ _ _ Ha o E) as [Hd _]. rewrite (Hd Hu l c Hl Hc) in Hs. done.
  - destruct (settled other) eqn:E; [|done]. destruct (aw_settled _ _ _ Ha E) as [_ Hd]. rewrite (Hd Hu l c Hl Hc) in Hs. done.
Qed.
Lemma fencing_cases pc : fencing pc = true -> (exists o, waitsOn pc = Some o) \/ settled pc = true.
Proof. destruct pc; try done; intros _; first [left; by eexists|by right]. Qed.

Ltac weak := split; cbn; intros; congruence.

Section Turns.
Variables (s s' : P) (T : threads) (t : nat).
Hypothesis Hinv : inv (s, T).

Lemma own_of pc : T !! t = Some pc -> own s pc.
Proof. apply Hinv. Qed.

(** A step on the thread's own connection that leaves it no wiser. *)
Lemma conn_step pc pc' : T !! t = Some pc -> weaker pc pc' -> connOnly (connOf pc) s s' -> own s' pc' -> inv (s', update t (Some pc') T).
Proof.
  intros Ht Hw Hc Ho. eapply inv_weaken; [done|done|done|apply Hc|destruct Hc as (_ & -> & _); lia| |done].
  intros u other _ _. by eapply grows_conn.
Qed.

Lemma step_open inc r : T !! t = None -> openHarness p uid inc s = (s', r) ->
  inv (s', update t (match r with Ok l => Some (TurnOpen l) | Err _ => None end) T).
Proof.
  intros Ht (Hl & Hk & Htc & Hr)%open_run. pose proof Hinv as [Hown _].
  assert (Hlt : forall u other l, T !! u = Some other -> connOf other = Some l -> (l < ps_next s)%nat)
    by (intros u other l Hu Ho; by apply (own_conn _ _ (Hown u other Hu))).
  eapply (inv_start (Some (ps_next s))); [done|done|done| |by rewrite Hl| |].
  - intros u other l Hu Ho [= <-]. pose proof (Hlt u other _ Hu Ho). lia.
  - intros u other _. apply grows_same; [|done]. unfold sameLog. by rewrite Hl.
  - destruct r as [l|]; [|done]. intros q [= <-]. destruct Hr as (-> & Hfree & Hn & Hin & c & Hc & Hm). split.
    + split; [|done|done|done]. cbn. intros l [= <-]. split; [done|]. split; [done|]. exists c. by split.
    + intros u other Hu. assert (Hum : marks other = false).
      { destruct (marks other) eqn:E; [|done]. destruct Hfree. by eapply marked. }
      assert (Hno : forall k, connOf other = Some k -> k <> ps_next s) by (intros k Hk'; pose proof (Hlt u other k Hu Hk'); lia).
      split; (split; cbn; [done| |..]).
      * intros l [= <-] Ho. by apply (Hno _ Ho).
      * done.
      * done.
      * done.
      * intros l Ho [= <-]. by apply (Hno _ Ho).
      * intros o Ho. apply waits_marks in Ho. congruence.
      * done.
      * intros Hx. apply settled_fencing, fencing_marks in Hx. congruence.
Qed.

Lemma step_mint l r : T !! t = Some (TurnOpen l) -> logOnly s s' -> curFence (logOf s) <= curFence (logOf s') ->
  (forall f, r = Ok f -> f <= curFence (logOf s')) -> inv (s', update t (Some (TurnMinted l r)) T).
Proof.
  intros Ht [Htc Hk] Hf Hr. destruct (own_of _ Ht) as [A1 A2 A3 A4].
  eapply inv_weaken; [done|done|weak|done|done| |].
  - intros u other Hu Ho. apply grows_unsettled; [|done|done]. by eapply (unsettled s T t).
  - split; cbn; [| |done|done].
    + intros k [= <-]. destruct (A1 l eq_refl) as (Hn & Hlv & c & Hc & Hm). specialize (Htc None). destruct Htc as [T1 T2 T3 T4 T5].
      split; [lia|]. split; [intros _; by apply T3, Hlv|]. specialize (T2 l ltac:(done)). unfold flags in T2. rewrite Hc in T2.
      destruct (ps_conns s' !! l) as [c'|]; [|done]. injection T2 as T2. exists c'. split; [done|]. intros _. rewrite T2. by apply Hm.
    + destruct r; [|done]. intros f [= <-]. by apply Hr.
Qed.

(** What a thread keeps of its own connection when only flags changed. *)
Lemma own_keeps pc pc' : own s pc -> (forall l, connOf pc' = Some l -> connOf pc = Some l) -> touch (connOf pc) s s' ->
  unchecked pc' = false -> unminted pc' = false -> (forall f, fenceOf pc' = Some f -> f <= curFence (logOf s')) ->
  (marks pc' = true -> uid ∈ ps_checkpoints s') -> refence s' pc' -> own s' pc'.
Proof.
  intros [A1 _ _ _] Hl [T1 T2 T3 T4 T5] Hu Hm Hf Hk Hr. split; auto.
  intros l Hl'. apply Hl in Hl' as Hl0. destruct (A1 l Hl0) as (Hn & _ & c & Hc & _). split; [lia|]. rewrite Hu, Hm.
  split; [done|]. destruct (T5 l Hn ltac:(by eexists)) as [c' Hc']. by exists c'.
Qed.

Lemma step_announce l f : T !! t = Some (TurnMinted l (Ok f)) -> fenceMinted l s = (s', Ok tt) ->
  inv (s', update t (Some (TurnAnnounced l f)) T).
Proof.
  intros Ht Hr. pose proof (connOnly_fenceMinted l s) as Hc. rewrite Hr in Hc. cbn [fst] in Hc. destruct (own_of _ Ht) as [A1 A2 A3 A4].
  eapply conn_step; [done|weak|exact Hc|]. destruct Hc as ([T1 T2 T3 T4 T5] & Hl & Hk). split; cbn; [|intros g [= <-]; rewrite Hl; by apply A2|done|done].
  intros k [= <-]. destruct (A1 l eq_refl) as (Hn & Hlv & c & Hc & Hm). split; [lia|]. 
  injection Hr as <-. split; [intros _; by apply Hlv|]. exists (setMinted c). split; [|done]. cbn. by rewrite lookup_alter_eq, Hc.
Qed.

(** Steps to the end of a turn. *)
Lemma leave_step pc l : T !! t = Some pc -> connOf pc = Some l -> connOnly (Some l) s s' -> inv (s', update t (Some (TurnLeaving l)) T).
Proof.
  intros Ht Hl Hc. eapply conn_step; [done|split; cbn; intros; congruence|by rewrite Hl|].
  eapply (own_keeps pc); [by apply own_of|cbn; congruence|by rewrite Hl; apply Hc|done..].
Qed.

Lemma step_check l f r : T !! t = Some (TurnAnnounced l f) -> checkSuperseded l s = (s', r) ->
  inv (s', update t (Some (match r with Ok _ => TurnRunning l f | Err _ => TurnLeaving l end)) T).
Proof.
  intros Ht Hr. pose proof (connOnly_checkSuperseded l s) as Hc. rewrite Hr in Hc. cbn [fst] in Hc.
  destruct (own_of _ Ht) as [A1 A2 A3 A4]. destruct r as [[]|e].
  2:{ eapply leave_step; [done|done|by apply connOnly_any]. }
  destruct (A1 l eq_refl) as (Hn & Hlv & c & Hcc & Hm).
  pose proof (checkSuperseded_ok _ _ _ Hr c Hcc) as Hs. pose proof Hinv as [Hown Ha].
  destruct Hc as (Htc & Hl & Hk).
  eapply inv_new; [done|done|by apply touch_any|by rewrite Hl|intros u other _ _; apply (grows_conn None); by split|].
  intros q [= <-]. split.
  - split; cbn; [|intros g [= <-]; rewrite Hl; by apply A2|done|done]. intros k [= <-]. destruct Htc as [_ _ _ T4 T5]. split; [lia|]. split; [done|].
    destruct (T5 l Hn ltac:(by eexists)) as [c' Hc']. by exists c'.
  - intros u other Hu Ho. destruct (undoomed _ _ _ _ l c _ _ Hinv Ht eq_refl eq_refl Hcc Hs Hu Ho) as [Hw Hse]. split.
    + destruct (Ha t u _ other (not_eq_sym Hu) Ht Ho) as [B1 B2 _ _ _]. by split.
    + destruct (Ha u t other _ Hu Ho Ht) as [B1 B2 B3 B4 B5]. split; [done|exact B2|congruence| |congruence].
      intros g Hf. apply fencing_cases in Hf as [[o Hf]|Hf]; congruence.
Qed.

Lemma weaker_refl pc : weaker pc pc.
Proof. by split. Qed.

Lemma own_logOnly pc : logOnly s s' -> curFence (logOf s) <= curFence (logOf s') -> (refence s pc -> refence s' pc) ->
  own s pc -> own s' pc.
Proof. intros [Ht Hk] Hf Hr. apply (own_touch None); [apply Ht|done|]. split; [done|by rewrite Hk|done]. Qed.

Lemma step_append l f expected ev r : T !! t = Some (TurnRunning l f) -> onStore (st_Append expected f ev) s = (s', r) ->
  inv (s', update t (Some (TurnRunning l f)) T).
Proof.
  intros Ht ([Htc Hk] & Hf & Hj)%append_run. pose proof Hinv as [_ Ha].
  eapply inv_weaken; [done|done|apply weaker_refl|apply Htc|by rewrite Hf| |].
  - intros u other Hu Ho. destruct (settled other) eqn:E; [|by apply grows_unsettled; [|rewrite Hf|]].
    pose proof (aw_fence _ _ _ (Ha u t other _ Hu Ho Ht) f (settled_fencing _ E) eq_refl).
    apply grows_same; [|done]. split; [auto|done].
  - apply own_logOnly; [by split|by rewrite Hf|done|by apply own_of].
Qed.

Lemma step_leave l r : T !! t = Some (TurnLeaving l) -> releaseHarness uid l s = (s', r) -> inv (s', update t None T).
Proof.
  intros Ht Hr. pose proof (connOnly_releaseHarness l s) as Hc. rewrite Hr in Hc. cbn [fst] in Hc.
  eapply inv_gone; [done|done|apply Hc|destruct Hc as (_ & -> & _); lia|]. intros. by eapply grows_conn.
Qed.

Lemma step_early e r : T !! t = None -> resumeFence uid (Some e) s = (s', r) -> inv (s', update t None T).
Proof.
  intros Ht ([Htc Hk] & Hf & _ & Hsame)%checked_mint_run. eapply (inv_start None); [done|done|apply Htc|done|done| |done].
  intros u other Ho. destruct (marks other) eqn:E; [|by apply grows_plain]. apply grows_same; [|done].
  apply Hsame. by eapply marked.
Qed.

Lemma step_mint_checked l e r : T !! t = Some (TurnOpen l) -> resumeFence uid (Some e) s = (s', r) ->
  inv (s', update t (Some (TurnMinted l r)) T).
Proof. intros Ht (Hlo & Hf & Hr & _)%checked_mint_run. by apply step_mint. Qed.

(** *** Taking and lifting the mark *)

Lemma free_unmarked u other : uid ∉ ps_checkpoints s -> T !! u = Some other -> marks other = false.
Proof. intros Hfree Ho. destruct (marks other) eqn:E; [|done]. destruct Hfree. by eapply marked. Qed.

Lemma mark_touch x c : touch x s (setCheckpoints c s).
Proof. by apply touch_same. Qed.

(** A thread that took the mark knows nothing of the others but that they have not. *)
Lemma aware_marking s2 q other : marks q = true -> waitsOn q = None -> fencing q = false -> settled q = false ->
  (forall k, connOf q = Some k -> connOf other <> Some k) -> marks other = false -> unchecked q = false -> unminted q = false ->
  writing q = None -> aware s2 q other /\ aware s2 other q.
Proof.
  intros Hm Hw Hf Hs Hc Ho Huc Hum Hwr. split; split; try congruence.
  - done.
  - intros k Hk Hk'. by apply (Hc k).
  - intros o Hx. apply waits_marks in Hx. congruence.
  - intros Hx. apply settled_fencing, fencing_marks in Hx. congruence.
Qed.

Lemma step_section : T !! t = None -> markCheckpoint uid s = (s', Ok tt) -> inv (s', update t (Some MarkedSection) T).
Proof.
  intros Ht [Hfree ->]%mark_run. eapply (inv_start None); [done|done|apply mark_touch|done|done| |].
  - intros u other Ho. apply grows_plain; [by eapply free_unmarked|done].
  - intros q [= <-]. split; [split; cbn; [done|done|intros _; set_solver|done]|].
    intros u other Ho. eapply aware_marking; try done. by eapply free_unmarked.
Qed.

Lemma step_handoff l f : T !! t = Some (TurnRunning l f) -> markCheckpoint uid s = (s', Ok tt) -> inv (s', update t (Some (MarkedHandoff l f)) T).
Proof.
  intros Ht [Hfree ->]%mark_run. pose proof Hinv as [_ Ha]. eapply inv_new; [done|done|apply mark_touch|done| |].
  - intros u other Hu Ho. apply grows_plain; [by eapply free_unmarked|done].
  - intros q [= <-]. split.
    + destruct (own_of _ Ht) as [A1 A2 A3 A4]. split; cbn; [exact A1|done|intros _; set_solver|done].
    + intros u other Hu Ho. eapply aware_marking; try done; [|by eapply free_unmarked].
      intros k Hk. by apply (aw_conn _ _ _ (Ha t u _ other (not_eq_sym Hu) Ht Ho)).
Qed.

(** A step of the thread that holds the mark. *)
Lemma marked_step pc pc' : T !! t = Some pc -> marks pc = true -> weaker pc pc' -> touch (connOf pc) s s' ->
  curFence (logOf s) <= curFence (logOf s') -> own s' pc' -> inv (s', update t (Some pc') T).
Proof.
  intros Ht Hm Hw Hc Hf Ho. eapply inv_weaken; [done|done|done|done|done| |done].
  intros u other Hu Hother. apply grows_plain; [|done]. by eapply (marked_alone s T t).
Qed.
Lemma marked_gone pc : T !! t = Some pc -> marks pc = true -> s' = endCheckpoint uid s -> inv (s', update t None T).
Proof.
  intros Ht Hm ->. eapply inv_gone; [done|done|apply mark_touch|done|].
  intros u other Hu Hother. apply grows_plain; [|done]. by eapply (marked_alone s T t).
Qed.
Lemma marked_leaves pc l : T !! t = Some pc -> marks pc = true -> connOf pc = Some l -> s' = endCheckpoint uid s ->
  inv (s', update t (Some (TurnLeaving l)) T).
Proof.
  intros Ht Hm Hl He. eapply marked_step; [done|done|split; cbn; intros; congruence|rewrite He; apply mark_touch|by rewrite He|].
  eapply (own_keeps pc); [by apply own_of|cbn; congruence|rewrite He; apply mark_touch|done..].
Qed.

Lemma step_release l f r : T !! t = Some (MarkedHandoff l f) -> closeInvocation uid l s = (s', r) ->
  inv (s', update t (Some (match r with Ok _ => MarkedClosed l f | Err _ => MarkedHandoff l f end)) T).
Proof.
  intros Ht Hr. pose proof (connOnly_closeInvocation l s) as Hc. rewrite Hr in Hc. destruct Hc as (Htc & Hl & Hk). cbn [fst] in *.
  assert (Hown : forall q, connOf q = Some l -> unchecked q = false -> unminted q = false -> fenceOf q = None -> refence s' q -> own s' q).
  { intros q Hq Hu Hm Hf Href. eapply (own_keeps (MarkedHandoff l f)); [by apply own_of|cbn; congruence|exact Htc|done|done|congruence| |done].
    intros _. rewrite Hk. by eapply marked. }
  destruct r; (eapply marked_step; [done|done|weak|exact Htc|by rewrite Hl|by apply Hown]).
Qed.

(** A marked thread works on the log. *)
Lemma marked_log pc pc' : T !! t = Some pc -> marks pc = true -> weaker pc pc' -> logOnly s s' ->
  curFence (logOf s) <= curFence (logOf s') -> unchecked pc = false -> unchecked pc' = false -> unminted pc' = false -> fenceOf pc' = None ->
  refence s' pc' -> inv (s', update t (Some pc') T).
Proof.
  intros Ht Hm Hw [Htc Hk] Hf Hu Hu' Hm' Hfe Hr. eapply marked_step; [done|done|done|apply Htc|done|].
  eapply (own_keeps pc); [by apply own_of|apply Hw|apply Htc|done|done|congruence| |done].
  intros _. rewrite Hk. by eapply marked.
Qed.

(** *** A fork *)

Lemma step_begin at_ open : T !! t = None -> beginCheckpoint uid s = (s', Ok open) -> inv (s', update t (Some (ForkBegun at_ open)) T).
Proof.
  intros Ht (Hfree & Hin & Hl & Htc & Hlive)%begin_run. pose proof Hinv as [Hown _].
  eapply (inv_start None); [done|done|done|done|by rewrite Hl| |].
  - intros u other Ho. apply grows_plain; [by eapply free_unmarked|by rewrite Hl].
  - intros q [= <-]. split; [by split|]. intros u other Ho. pose proof (free_unmarked u other Hfree Ho) as Hum.
    assert (Hsup : unchecked other = true -> forall l, connOf other = Some l -> l ∈ liveOf uid s)
      by (intros Hu l Hc; apply (own_conn _ _ (Hown u other Ho) l Hc); done).
    split; split; try done; cbn.
    + intros o [= <-]. split.
      * intros Hu l c Hc Hcc. destruct (Hlive l (Hsup Hu l Hc)) as [_ Hs]. by apply Hs.
      * intros Hu l Hc. apply Hlive, Hsup; [by destruct other|done].
    + intros Hx. congruence.
Qed.

Lemma step_fork_fence at_ open r : T !! t = Some (ForkBegun at_ open) -> onStore st_NewFence s = (s', r) ->
  inv (s', update t (Some (match r with Ok _ => ForkFenced at_ open | Err _ => ForkDone end)) T).
Proof.
  intros Ht ([Htc Hk] & _ & Hf)%fence_run. pose proof Hinv as [Hown Ha]. destruct r as [f|e].
  2:{ eapply marked_log; [done|done|weak|by split|by rewrite Hf|done..]. }
  destruct Hf as [-> Hf]. eapply inv_new; [done|done|apply Htc|lia| |].
  - intros u other Hu Ho. apply grows_plain; [by eapply (marked_alone s T t)|lia].
  - intros q [= <-]. split.
    + eapply (own_keeps (ForkBegun at_ open)); [by apply own_of|done|apply Htc|done|done|done| |done]. intros _. rewrite Hk. by eapply marked.
    + intros u other Hu Ho.
      assert (Haw := Ha t u _ other (not_eq_sym Hu) Ht Ho). assert (Hwa := Ha u t other _ Hu Ho Ht).
      apply (aware_touch None s s') in Haw; [|apply Htc|by eapply Hown|lia]. apply (aware_touch None s s') in Hwa; [|apply Htc|by eapply Hown|lia].
      destruct Haw as [B1 B2 B3 B4 B5]. split; [by split; try done; intros g _ Hw; assert (g <= curFence (logOf s)) by
        (apply (own_fence _ _ (Hown u other Ho)); by destruct other); lia|].
      destruct Hwa as [C1 C2 C3 C4 C5]. split; [exact C1|exact C2|exact C3|exact C4|exact C5].
Qed.

Lemma step_wait at_ open r : T !! t = Some (ForkEnded at_ open) -> awaitMinted open s = (s', r) ->
  inv (s', update t (Some (match r with Ok _ => ForkSettled at_ | Err _ => ForkDone end)) T).
Proof.
  intros Ht Hr. pose proof (connOnly_awaitMinted open s) as Hc. rewrite Hr in Hc. destruct Hc as (Htc & Hl & Hk). cbn [fst] in *.
  pose proof Hinv as [Hown Ha].
  assert (Hown' : forall q, connOf q = None -> unchecked q = false -> unminted q = false -> fenceOf q = None -> refence s' q -> own s' q).
  { intros q Hq Hu Hm Hf Href. eapply (own_keeps (ForkEnded at_ open)); [by apply own_of|congruence|by apply touch_any|done|done|congruence| |done].
    intros _. rewrite Hk. by eapply marked. }
  destruct r as [[]|e].
  2:{ eapply marked_step; [done|done|weak|by apply touch_any|by rewrite Hl|by apply Hown']. }
  eapply inv_new; [done|done|by apply touch_any|by rewrite Hl| |].
  - intros u other Hu Ho. apply (grows_conn None). by split.
  - intros q [= <-]. split; [by apply Hown'|]. intros u other Hu Ho.
    assert (Haw := Ha t u _ other (not_eq_sym Hu) Ht Ho). assert (Hwa := Ha u t other _ Hu Ho Ht).
    destruct (aw_open _ _ _ Haw open eq_refl) as [Hd Hw].
    assert (Hno : unminted other = false).
    { destruct (unminted other) eqn:E; [|done]. destruct (connOf other) as [l|] eqn:El; [|by destruct other].
      destruct (own_conn _ _ (Hown u other Ho) l El) as (_ & _ & c & Hc & Hm).
      rewrite (awaitMinted_ok _ _ _ Hr l c (Hw eq_refl l eq_refl) Hc) in Hm. by specialize (Hm E). }
    apply (aware_touch None s s') in Haw; [|done|by eapply Hown|by rewrite Hl]. apply (aware_touch None s s') in Hwa; [|done|by eapply Hown|by rewrite Hl].
    destruct Haw as [B1 B2 B3 B4 B5]. split.
    + split; try done. intros _. split; [done|]. eapply doomed_touch; [exact Htc|by eapply Hown|done].
    + destruct Hwa as [C1 C2 C3 C4 C5]. split; [exact C1|exact C2|exact C3|exact C4|exact C5].
Qed.

Lemma forkPoint_log at_ moved r : forkPoint at_ moved s = (s', r) -> logOnly s s' /\ sameLog s s' /\ (r = Ok tt -> headOf (journal (logOf s)) = at_).
Proof.
  intros Hr. assert (Hlo : logOnly s s').
  { unfold forkPoint in Hr. unfold mbind, M_bind in Hr. destruct (onStore st_Head s) as [s1 [h|e]] eqn:E;
      apply logOnly_onStore in E; [|by injection Hr as <- <-]. by destruct (negb _); injection Hr as <- <-. }
  apply forkPoint_run in Hr as (Hl & _ & Hh). by split.
Qed.

Lemma step_fork_check at_ open moved r : T !! t = Some (ForkFenced at_ open) -> forkPoint at_ moved s = (s', r) ->
  inv (s', update t (Some (match r with Ok _ => ForkChecked at_ open | Err _ => ForkDone end)) T).
Proof. intros Ht (Hlo & [_ Hf] & _)%forkPoint_log. destruct r; (eapply marked_log; [done|done|weak|done|by rewrite Hf|done..]). Qed.

Lemma step_fork_end at_ open r : T !! t = Some (ForkChecked at_ open) -> endAll open s = (s', r) -> inv (s', update t (Some (ForkEnded at_ open)) T).
Proof.
  intros Ht Hr. pose proof (connOnly_endAll open s) as Hc. rewrite Hr in Hc. destruct Hc as (Htc & Hl & Hk). cbn [fst] in *.
  eapply marked_step; [done|done|weak|by apply touch_any|by rewrite Hl|].
  eapply (own_keeps (ForkChecked at_ open)); [by apply own_of|done|by apply touch_any|done..| |done]. intros _. rewrite Hk. by eapply marked.
Qed.

Lemma step_refence at_ r : T !! t = Some (ForkSettled at_) -> onStore st_NewFence s = (s', r) ->
  inv (s', update t (Some (match r with Ok f => ForkRefenced at_ f | Err _ => ForkDone end)) T).
Proof.
  intros Ht (Hlo & _ & Hf)%fence_run. destruct r as [f|e]; (eapply marked_log; [done|done|weak|done|lia|done..|]); [|done]. cbn. lia.
Qed.

Lemma step_recheck at_ f moved r : T !! t = Some (ForkRefenced at_ f) -> forkPoint at_ moved s = (s', r) ->
  inv (s', update t (Some (match r with Ok _ => ForkReady at_ f | Err _ => ForkDone end)) T).
Proof.
  intros Ht (Hlo & [Hj Hf] & Hh)%forkPoint_log. destruct (own_of _ Ht) as [_ _ _ A4]. cbn in A4.
  destruct r as [[]|e]; (eapply marked_log; [done|done|weak|done|lia|done..|]); [|done]. cbn. rewrite Hj, Hf. split; [done|by apply Hh].
Qed.

Lemma step_snapshot u at_ f : T !! t = Some (ForkReady at_ f) -> called (CallSnapshot uid) s = (s', Ok u) ->
  inv (s', update t (Some (match b_Snapshot (p_backend p) u uid with
    | Ok ref => ForkSnapshotted at_ f ref (journal (logOf s)) | Err _ => ForkDone end)) T).
Proof.
  intros Ht Hr. assert (Hlo : logOnly s s' /\ sameLog s s').
  { unfold called, tickP, onWorldP in Hr. destruct (tick _) eqn:E in Hr. unfold tick in E. injection E as <- <-. injection Hr as <- _.
    split; [split; [intros; by apply touch_same|done]|done]. }
  destruct Hlo as [Hlo [Hj Hf]]. destruct (own_of _ Ht) as [_ _ _ A4]. cbn in A4.
  destruct (b_Snapshot _ _ _) as [ref|e]; (eapply marked_log; [done|done|weak|done|lia|done..|]); [|done]. cbn. rewrite Hj, Hf. by destruct A4.
Qed.
End Turns.

Lemma weak_refl pc : weaker pc pc.
Proof. by split. Qed.

(** Every step keeps the invariant, unless calls are repaired without a cursor. *)
Lemma step_inv σ σ' : repairs = false -> inv σ -> step σ σ' -> inv σ'.
Proof.
  intros Hrep Hinv Hst. revert Hinv. destruct Hst as [t s T s' pc Hstep]. remember (T !! t) as o eqn:Ht. symmetry in Ht. revert Ht.
  destruct Hstep as [s s' inc l Hr|s s' inc e Hr|s s' l r Hr|s s' l e r Hr|s s' l f Hr|s s' l e Hr|s s' l f r Hr|s s' l f ex ev r Hr|s l f|s l
    |s s' l r Hr|s s' e r Hr|s s' l f Hr|s s' l f r Hr|s l f|s s' l f ex ev r Hr|s l f|s s' Hr|s s' f Hr|s s' f ex ev r Hr|s|s f|s s' at_ open Hr
    |s s' at_ open r Hr|s s' at_ open moved r Hr|s s' at_ open Hr|s s' at_ open r Hr|s s' at_ r Hr|s s' at_ f moved r Hr|s s' u at_ f Hr
    |s s' at_ f ref seen r Hr|s|s s' f Hx Hr|s s' f ex ev r Hr]; intros Ht Hinv.
  - by apply (step_open s s' T t Hinv inc (Ok l)).
  - by apply (step_open s s' T t Hinv inc (Err e)).
  - apply fence_run in Hr as (Hlo & _ & Hf). apply (step_mint s); [done|done|done| |]; destruct r; [lia|lia| |done]. intros g [= <-]. lia.
  - by eapply step_mint_checked.
  - by eapply step_announce.
  - eapply leave_step; [done|done|done|]. pose proof (connOnly_fenceMinted l s) as Hc. by rewrite Hr in Hc.
  - by eapply step_check.
  - by eapply step_append.
  - by eapply leave_step.
  - by eapply leave_step.
  - by eapply step_leave.
  - by eapply step_early.
  - by eapply step_handoff.
  - by eapply step_release.
  - by eapply marked_leaves.
  - apply append_run in Hr as (Hlo & Hf & _). eapply marked_log; [done|done|done|apply weak_refl|done|by rewrite Hf|done..].
  - by eapply marked_leaves.
  - by eapply step_section.
  - apply fence_run in Hr as (Hlo & _ & Hf). eapply marked_log; [done|done|done|weak|done|lia|done..].
  - apply append_run in Hr as (Hlo & Hf & _). eapply marked_log; [done|done|done|apply weak_refl|done|by rewrite Hf|done..].
  - by eapply marked_gone.
  - by eapply marked_gone.
  - by eapply step_begin.
  - by eapply step_fork_fence.
  - by eapply step_fork_check.
  - by eapply step_fork_end.
  - by eapply step_wait.
  - by eapply step_refence.
  - by eapply step_recheck.
  - by eapply step_snapshot.
  - unfold appendLifecycleAt in Hr. apply append_run in Hr as (Hlo & Hf & _). eapply marked_log; [done|done|done|weak|done|by rewrite Hf|done..].
  - by eapply marked_gone.
  - congruence.
  - destruct (inv_own _ Hinv t _ Ht) as [_ _ _ A4]. done.
Qed.

Lemma reachable_inv_ σ : repairs = false -> reachable σ -> inv σ.
Proof.
  intros Hrep (s & _ & Hs). assert (H0' : inv (s, ∅)) by (split; cbn; intros *; by rewrite lookup_empty).
  remember (s, ∅) as σ0 eqn:E0. clear E0. induction Hs as [|a b c Hab _ IH]; [done|]. apply IH. by eapply step_inv.
Qed.
End Checkpoint.

(** ** Properties *)

(** C32: A checkpoint sees what it records. Whatever turns, handoffs, suspensions, decisions and other forks
    do meanwhile: from the moment a stateful fork has taken its snapshot until it records it, the
    journal is the one the snapshot was taken of, its head is the fork point, and the fork's fence is
    the current one; and once the fork's first fence has landed, every turn still writing holds an older
    fence, so none of its records is accepted. *)
Theorem checkpoint_exact `{Host} `{Encoding} `{PlacementHost} {S : Type} `{StoreLaws S} (p : Placer) uid (s : PState S) T t :
  reachable p uid false (s, T) ->
  (forall at_ f ref seen, T !! t = Some (ForkSnapshotted at_ f ref seen) ->
     journal (logOf s) = seen /\ headOf seen = at_ /\ curFence (logOf s) = f) /\
  (forall pc u l g, T !! t = Some pc -> fencing pc = true -> T !! u = Some (TurnRunning l g) -> g < curFence (logOf s)).
Proof.
  intros Hr. apply reachable_inv_ in Hr as [Ho Ha]; [|done]. cbn in *. split.
  - intros at_ f ref seen Ht. destruct (Ho t _ Ht) as [_ _ _ (Hf & Hj & Hh)]. done.
  - intros pc u l g Ht Hf Hu. assert (Hne : t <> u) by (intros ->; rewrite Hu in Ht; injection Ht as <-; done).
    apply (aw_fence _ _ _ (Ha t u pc _ Hne Ht Hu) g Hf eq_refl).
Qed.

(** *** A race with a repair *)

Section Race.
#[local] Existing Instance exampleHost.
#[local] Existing Instance exampleEncoding.
#[local] Existing Instance examplePlacementHost.

(** A turn cut by a crash right after its gated call. *)
Definition callOnly : World Log :=
  mkWorld (mkLog (take 3 (records (w_log (fst parkedExec)))) 1) 10 0 0 [] [].
Definition raceBegin : PState Log := fst (beginCheckpoint "uid" (placerState callOnly)).
Definition raceFenced : PState Log := fst (onStore st_NewFence raceBegin).
Definition raceRefenced : PState Log := fst (onStore st_NewFence raceFenced).
Definition raceSnapshot : PState Log := fst (called (CallSnapshot "uid") raceRefenced).
Definition raceRepair : PState Log := fst (resumeFence "uid" None raceSnapshot).
Definition raceRef : SnapshotRef := mkSnapshotRef "uid" "s3://snapshot" true true.

Lemma step_at repairs t (s s' : PState Log) T o pc : T !! t = o -> thread_step memoryPlacer "uid" repairs s o s' pc ->
  step memoryPlacer "uid" repairs (s, T) (s', update t pc T).
Proof. intros <- Hs. by apply step_thread. Qed.

(** The fork up to its snapshot. *)
Lemma race_snapshot repairs : exists T, T !! 0%nat = Some (ForkSnapshotted 3 3 raceRef (records (w_log callOnly))) /\ T !! 1%nat = None /\
  reachable memoryPlacer "uid" repairs (raceSnapshot, T).
Proof.
  eexists. split; [|split; [|exists (placerState callOnly); split; [unfold idle; cbn; set_solver|]]].
  3:{ eapply rtc_l; [eapply (step_at _ 0); [apply lookup_empty|apply (fork_begin _ _ _ _ raceBegin 3 []); vm_compute; reflexivity]|].
      eapply rtc_l; [eapply (step_at _ 0); [apply lookup_insert_eq|apply (fork_fence _ _ _ _ raceFenced _ _ (Ok 2)); vm_compute; reflexivity]|].
      eapply rtc_l; [eapply (step_at _ 0); [apply lookup_insert_eq|apply (fork_check _ _ _ _ raceFenced _ _ (EText EmptyString) (Ok tt)); vm_compute; reflexivity]|].
      eapply rtc_l; [eapply (step_at _ 0); [apply lookup_insert_eq|apply (fork_end _ _ _ _ raceFenced); vm_compute; reflexivity]|].
      eapply rtc_l; [eapply (step_at _ 0); [apply lookup_insert_eq|apply (fork_wait _ _ _ _ raceFenced _ _ (Ok tt)); vm_compute; reflexivity]|].
      eapply rtc_l; [eapply (step_at _ 0); [apply lookup_insert_eq|apply (fork_refence _ _ _ _ raceRefenced _ (Ok 3)); vm_compute; reflexivity]|].
      eapply rtc_l; [eapply (step_at _ 0); [apply lookup_insert_eq|apply (fork_recheck _ _ _ _ raceRefenced _ _ (EText EmptyString) (Ok tt)); vm_compute; reflexivity]|].
      eapply rtc_l; [eapply (step_at _ 0); [apply lookup_insert_eq|apply (fork_snapshot _ _ _ _ raceSnapshot 10%nat); vm_compute; reflexivity]|].
      apply rtc_refl. }
  - vm_compute. reflexivity.
  - vm_compute. reflexivity.
Qed.

Lemma checkpoint_exact_witness : exists T, reachable memoryPlacer "uid" false (raceSnapshot, T) /\
  journal (logOf raceSnapshot) = records (w_log callOnly) /\ curFence (logOf raceSnapshot) = 3.
Proof.
  destruct (race_snapshot false) as (T & Ht & _ & Hr). exists T. split; [exact Hr|].
  destruct (checkpoint_exact memoryPlacer "uid" raceSnapshot T 0 Hr) as [Hs _].
  destruct (Hs _ _ _ _ Ht) as (Hj & _ & Hf). split; [exact Hj|exact Hf].
Defined.

(** C33: A repair without a cursor can invalidate a checkpoint. [resumeApproval] on a gated call without its
    request mints its fence without the checkpoint mark and without a connection a fork could wait for:
    in a session cut by a crash right after such a call, a fork and a concurrent recovery without
    [expected_last_seq] reach a state in which the parent's snapshot is taken, the repair has minted a
    newer fence, and the SUSPEND record of the snapshot is refused. *)
Theorem repair_races_checkpoint : exists scan st s T,
  scanApprovalRecords (readFrom 1 (records (w_log callOnly))) 0 = Ok scan /\ selectedState scan = Some st /\
  as_Inherited st = false /\ as_Receipt st = None /\ as_Decision st = None /\ as_Request st = None /\
  reachable memoryPlacer "uid" true (s, T) /\
  T !! 0%nat = Some (ForkSnapshotted 3 3 raceRef (records (w_log callOnly))) /\ T !! 1%nat = Some (RepairFenced 4) /\
  snd (appendLifecycleAt 3 3 (suspendLifecycle raceRef) s) = Err (ESentinel ErrFenced).
Proof.
  destruct (scanApprovalRecords (readFrom 1 (records (w_log callOnly))) 0) as [scan|e] eqn:Es; [|vm_compute in Es; discriminate].
  destruct (selectedState scan) as [st|] eqn:Ess.
  2:{ exfalso. vm_compute in Es. injection Es as <-. vm_compute in Ess. discriminate. }
  destruct (race_snapshot true) as (T & Ht & Hfree & (s0 & Hidle & Hs)).
  exists scan, st, raceRepair, (update 1 (Some (RepairFenced 4)) T). split; [done|]. split; [done|].
  assert (Hst : as_Inherited st = false /\ as_Receipt st = None /\ as_Decision st = None /\ as_Request st = None).
  { vm_compute in Es. injection Es as <-. vm_compute in Ess. injection Ess as <-. by repeat split. }
  destruct Hst as (H1 & H2 & H3 & H4). do 4 (split; [done|]). split; [|split; [|split]].
  - exists s0. split; [exact Hidle|]. eapply rtc_r; [exact Hs|]. eapply (step_at _ 1); [exact Hfree|].
    apply repair_mint; [done|]. vm_compute. reflexivity.
  - unfold update. by rewrite lookup_insert_ne.
  - apply lookup_insert_eq.
  - vm_compute. reflexivity.
Qed.
End Race.
