(* ===== verification/Relay.v ===== *)
(** * The observer is told every record (theorems)

    What a controller or a placer reports to its observer, in the order it reports it, is what it
    appends to the journal: after every operation the journal has grown by exactly the records among
    the updates. The store's laws are asked for on well-formed states only, so that the database
    qualifies. *)
From S2P Require Import Prelude GoErrors Api Canon EventLog Executions Approvals Harness Sinks Controller SessionGuard Placement Registry.

(** The records among a list of updates. *)
Definition recordsOf (us : list Update) : list Record_ :=
  omap (fun u => match u with OnRecord r => Some r | OnDelta _ => None end) us.

Lemma recordsOf_app us vs : recordsOf (us ++ vs) = recordsOf us ++ recordsOf vs.
Proof. apply omap_app. Qed.

(** A record as the store keeps it. *)
Definition stored {S : Type} `{!StoreView S} (r : Record_) : Record_ := setEvent (persisted (rec_Event r)) r.

(** A store whose appends are those of its journal as long as its state is well-formed. *)
Class JournalLaws (S : Type) `{Store S} `{StoreView S} (wf : S -> Prop) : Prop := {
  jl_append : forall exp f ev s s' r, wf s -> st_Append exp f ev s = (s', r) -> wf s' /\
    journal s' = journal s ++ match r with Ok rec => [stored (S := S) rec] | Err _ => [] end;
  jl_head : forall s s' r, wf s -> st_Head s = (s', r) -> wf s' /\ journal s' = journal s;
  jl_fence : forall s s' r, wf s -> st_NewFence s = (s', r) -> wf s' /\ journal s' = journal s;
  jl_read : forall from s s' r, wf s -> st_Read from s = (s', r) -> wf s' /\ journal s' = journal s;
  jl_writable : forall s s' r, wf s -> st_CheckWritable s = (s', r) -> wf s' /\ journal s' = journal s;
}.

Section Relay.
Context `{Host} `{Encoding} `{PlacementHost} {S : Type} `{Store S} `{!StoreView S} {wf : S -> Prop} `{!JournalLaws S wf}.

(** Whether the observer hears of records; the same operations without one keep the store well-formed too. *)
Variable heard : bool.
Definition reports (onRecord : bool) : Prop := heard = true -> onRecord = true.

(** What happened between two worlds: the journal grew by the records of the new updates. *)
Definition told (w w' : World S) : Prop := wf (w_log w) -> wf (w_log w') /\ (heard = true ->
  exists us, w_updates w' = w_updates w ++ us /\ journal (w_log w') = journal (w_log w) ++ map (stored (S := S)) (recordsOf us)).

#[export] Instance told_preorder : PreOrder told.
Proof.
  split.
  - intros w Hw. split; [done|intros _]. exists []. by rewrite !app_nil_r.
  - intros w1 w2 w3 H12 H23 Hw. destruct (H12 Hw) as (Hw2 & Hus). destruct (H23 Hw2) as (Hw3 & Hvs).
    split; [done|intros Hh]. destruct (Hus Hh) as (us & Hu & Hj), (Hvs Hh) as (vs & Hv & Hk). exists (us ++ vs). rewrite Hv, Hu, Hk, Hj, recordsOf_app, map_app. by rewrite !app_assoc.
Qed.

(** A computation on a state that holds a world. *)
Definition relays {St E A} (g : St -> World S) (m : M St E A) : Prop := forall s s' r, m s = (s', r) -> told (g s) (g s').

Section generic.
Context {St : Type} (g : St -> World S).

#[local] Ltac relay_step := intros s s' r Hr; unfold mret, M_ret, throw, gets, lift, check in Hr; injection Hr as <- <-; reflexivity.

Lemma relays_ret {E A} (a : A) : relays g (mret a : M St E A).
Proof. relay_step. Qed.
Lemma relays_throw {E A} (e : E) : relays g (throw e : M St E A).
Proof. relay_step. Qed.
Lemma relays_gets {E A} (f : St -> A) : relays g (gets f : M St E A).
Proof. relay_step. Qed.
Lemma relays_lift {E A} (x : result E A) : relays g (lift x).
Proof. relay_step. Qed.
Lemma relays_check {E} (x : option E) : relays g (check x).
Proof. destruct x; relay_step. Qed.
Lemma relays_modify {E} (f : St -> St) : (forall s, g (f s) = g s) -> relays g (modify f : M St E unit).
Proof. unfold relays, modify. intros Hf s s' r [= <- <-]. by rewrite Hf. Qed.
Lemma relays_bind {E A B} (m : M St E A) (f : A -> M St E B) : relays g m -> (forall a, relays g (f a)) -> relays g (m ≫= f).
Proof.
  intros Hm Hf s s' r. unfold mbind, M_bind. destruct (m s) as [s1 [a|e]] eqn:E1; intros Hr.
  - etransitivity; [by eapply Hm|by eapply Hf].
  - injection Hr as <- <-. by eapply Hm.
Qed.
Lemma relays_try {E A} (m : M St E A) : relays g m -> relays g (try m).
Proof. intros Hm s s' r. unfold try. destruct (m s) as [s1 r1] eqn:E1. intros [= <- <-]. by eapply Hm. Qed.
End generic.

Lemma relays_onLog {A} (m : M S goerr A) : (forall s s' r, wf s -> m s = (s', r) -> wf s' /\ journal s' = journal s) ->
  relays (fun w => w) (onLog m).
Proof.
  intros Hm w w' r. unfold onLog. destruct (m (w_log w)) as [l x] eqn:E. intros [= <- <-] Hw.
  destruct (Hm _ _ _ Hw E) as [Hl Hj]. split; [done|intros _]. exists []. simpl. by rewrite Hj, !app_nil_r.
Qed.

Definition quietly {A} (m : M S goerr A) : Prop := forall s s' r, wf s -> m s = (s', r) -> wf s' /\ journal s' = journal s.

Lemma quietly_bind {A B} (m : M S goerr A) (f : A -> M S goerr B) : quietly m -> (forall a, quietly (f a)) -> quietly (m ≫= f).
Proof.
  intros Hm Hf s s' r Hs. unfold mbind, M_bind. destruct (m s) as [s1 [a|e]] eqn:E1; destruct (Hm _ _ _ Hs E1) as [Hs1 Hj1].
  - intros E2. destruct (Hf a _ _ _ Hs1 E2) as [? ?]. split; congruence.
  - intros [= <- <-]. done.
Qed.
Lemma quietly_lift {A} (x : res A) : quietly (lift x).
Proof. unfold quietly, lift. by intros s s' r Hs [= <- <-]. Qed.

(** Reads of the journal. *)
Lemma relays_head : relays (fun w => w) (onLog st_Head).
Proof. apply relays_onLog. intros. by eapply jl_head. Qed.
Lemma relays_fence : relays (fun w => w) (onLog st_NewFence).
Proof. apply relays_onLog. intros. by eapply jl_fence. Qed.
Lemma relays_read from : relays (fun w => w) (onLog (st_Read from)).
Proof. apply relays_onLog. intros. by eapply jl_read. Qed.
Lemma relays_writable : relays (fun w => w) (onLog st_CheckWritable).
Proof. apply relays_onLog. intros. by eapply jl_writable. Qed.
Lemma relays_inspect n : relays (fun w => w) (onLog (InspectApproval n)).
Proof.
  apply relays_onLog. unfold InspectApproval, scanApprovals. apply quietly_bind; [|intros; by apply (quietly_lift (Ok _))].
  destruct (n <? 0)%Z; [by apply (quietly_lift (Err _))|]. apply quietly_bind; [intros ? ? ?; apply jl_read|intros; apply quietly_lift].
Qed.
Lemma relays_new c : relays (fun w => w) (onLog (New_ c)).
Proof.
  apply relays_onLog. unfold New_. destruct (_ && _); [by apply (quietly_lift (Err _))|].
  destruct (_ =? _)%Z; [|by apply (quietly_lift (Ok _))]. apply quietly_bind; [intros ? ? ?; apply jl_fence|intros; by apply (quietly_lift (Ok _))].
Qed.
Lemma relays_tick : relays (fun w : World S => w) tick.
Proof. unfold relays, tick. intros w w' r [= <- <-] Hw. split; [done|intros _]. exists []. by rewrite !app_nil_r. Qed.
Lemma relays_ask a : relays (fun w : World S => w) (ask a).
Proof. unfold relays, ask. intros w w' r [= <- <-] Hw. split; [done|intros _]. exists []. by rewrite !app_nil_r. Qed.

(** An append and its report. *)
Lemma relays_append {A} (c : Controller) exp f ev (k : Record_ -> M (World S) goerr A) :
  reports (onRecord c) -> (forall r, relays (fun w => w) (k r)) ->
  relays (fun w => w) (let! rec := onLog (st_Append exp f ev) in do! observe c rec in k rec).
Proof.
  intros Hc Hk w w' r Hrun Hw. unfold mbind at 1, M_bind at 1, onLog in Hrun.
  destruct (st_Append exp f ev (w_log w)) as [l [rec|e]] eqn:E1; destruct (jl_append _ _ _ _ _ _ Hw E1) as [Hl Hj].
  - unfold mbind, M_bind, observe, modify in Hrun. destruct (onRecord c) eqn:Ec; simpl in Hrun.
    + destruct (Hk rec _ _ _ Hrun Hl) as (Hw' & Hus). split; [done|intros Hh]. destruct (Hus Hh) as (us & Hu & Hj').
      exists (OnRecord rec :: us). simpl in *. rewrite Hu, Hj', Hj. rewrite <- !app_assoc. done.
    + destruct (Hk rec _ _ _ Hrun Hl) as (Hw' & _). split; [done|intros Hh]. by specialize (Hc Hh).
  - injection Hrun as <- <-. split; [done|intros _]. exists []. simpl. by rewrite Hj, !app_nil_r.
Qed.

(** The tactic: peel binds, split conditionals, close with the lemmas of the operations. *)
Create HintDb relay.
#[local] Hint Resolve relays_ret relays_throw relays_gets relays_lift relays_check relays_try : relay.
Ltac relay := repeat first
  [ progress intros
  | solve [auto with relay]
  | match goal with |- relays _ (onLog (st_Append _ _ _) ≫= _) => apply relays_append; [assumption|] end
  | match goal with |- relays _ (_ ≫= _) => apply relays_bind end
  | apply relays_modify; intros; reflexivity
  | match goal with |- relays _ (match ?x with _ => _ end) => destruct x end
  | match goal with |- relays _ (let '(_, _) := ?x in _) => destruct x end ].

#[local] Hint Resolve relays_head relays_fence relays_read relays_writable relays_inspect relays_new relays_tick relays_ask : relay.

(** ** The controller *)

Section controller.
Variables (c : Controller) (har : Harness).
Hypothesis Hrec : reports (onRecord c).

#[local] Abbreviation onlyWorld := (fun w : World S => w).
#[local] Abbreviation ofLive := (fst : World S * liveSink -> World S).
#[local] Abbreviation ofResume := (fst : World S * resumeSink -> World S).

Lemma relays_ctxCheck : relays onlyWorld ctxCheck.
Proof. unfold ctxCheck. relay. Qed.
Lemma relays_newID : relays onlyWorld newID.
Proof. unfold newID. relay. Qed.
Lemma relays_describe : relays onlyWorld (describeHarness har).
Proof. unfold describeHarness. relay. Qed.
Lemma relays_delta id i chunk d : relays onlyWorld (emitDelta c id i chunk d).
Proof.
  unfold emitDelta, modify. intros w w' r Hr Hw. injection Hr as <- <-. case_match; (split; [done|intros _]).
  - exists []. by rewrite !app_nil_r.
  - eexists [OnDelta _]. simpl. by rewrite app_nil_r.
Qed.
Lemma relays_chunks id chunks : relays onlyWorld (emitChunks c id chunks).
Proof. induction chunks as [|ch chs IH]; cbn [emitChunks]; [auto with relay|]. apply relays_bind; [apply relays_delta|done]. Qed.
#[local] Hint Resolve relays_ctxCheck relays_newID relays_describe relays_delta relays_chunks : relay.

Lemma relays_invoke id req : relays onlyWorld (invokeModel c id req).
Proof. unfold invokeModel. relay. Qed.
Lemma relays_countModel : relays onlyWorld countModel.
Proof. intros w w' r [= <- <-] Hw. split; [done|intros _]. exists []. by rewrite !app_nil_r. Qed.
Lemma relays_countTool : relays onlyWorld countTool.
Proof. intros w w' r [= <- <-] Hw. split; [done|intros _]. exists []. by rewrite !app_nil_r. Qed.
Lemma relays_callTool call tool : relays onlyWorld (callTool c call tool).
Proof. unfold callTool. relay. Qed.
Lemma relays_appendSeq id ev : relays onlyWorld (appendSeq c id ev).
Proof. unfold appendSeq. relay. Qed.

Lemma relays_onWorld {A} (m : M (World S) goerr A) : relays onlyWorld m -> relays ofLive (onWorld m).
Proof. intros Hm [w l] s' r. unfold onWorld. simpl. destruct (m w) as [w1 x] eqn:E. intros [= <- <-]. by eapply Hm. Qed.
Lemma relays_getSink {A} (f : liveSink -> A) : relays ofLive (getSink f).
Proof. apply relays_gets. Qed.
Lemma relays_modSink f : relays ofLive (modSink f).
Proof. by apply relays_modify. Qed.
#[local] Hint Resolve relays_invoke relays_callTool relays_appendSeq relays_onWorld relays_getSink relays_modSink : relay.
#[local] Hint Resolve relays_countModel relays_countTool : relay.

Lemma relays_raw_append exp f ev :
  relays ofLive (let! rec := onWorld (onLog (st_Append exp f ev)) in do! onWorld (observe c rec) in mret rec).
Proof.
  intros [w l] [w' l'] r Hr.
  eapply (relays_append c exp f ev mret Hrec (fun _ => relays_ret _ _)) with (r := r). revert Hr.
  unfold onWorld, mbind, M_bind, mret, M_ret. cbn [fst snd].
  destruct (onLog _ w) as [w1 [rec|e]]; [|by intros [= <- <- <-]]. cbn [fst snd].
  destruct (observe c rec w1) as [w2 [[]|e]]; by intros [= <- <- <-].
Qed.
Lemma relays_live_append ev : relays ofLive (live_append c ev).
Proof.
  unfold live_append. do 2 (apply relays_bind; [apply relays_getSink|intros]). case_match; [auto with relay|].
  apply relays_bind; [auto with relay|intros]. apply relays_raw_append.
Qed.
#[local] Hint Resolve relays_live_append : relay.

Lemma relays_completeModel req : relays ofLive (completeModel c req).
Proof. unfold completeModel. relay. Qed.
#[local] Hint Resolve relays_completeModel : relay.
Lemma relays_live_model req : relays ofLive (live_model c req).
Proof. unfold live_model. relay. Qed.
Lemma relays_live_output d : relays ofLive (live_output c d).
Proof. unfold live_output. relay. Qed.
Lemma relays_stopWith {A} e : relays ofLive (stopWith (A := A) e).
Proof. unfold stopWith. relay. Qed.
Lemma relays_descriptor : relays ofLive (approvalDescriptor har).
Proof. unfold approvalDescriptor. relay. Qed.
#[local] Hint Resolve relays_live_model relays_live_output relays_stopWith relays_descriptor : relay.
Lemma relays_parkTool call : relays ofLive (parkTool c har call).
Proof. unfold parkTool. relay. Qed.
Lemma relays_execTool call : relays ofLive (execTool c call).
Proof. unfold execTool. relay. Qed.
#[local] Hint Resolve relays_parkTool relays_execTool : relay.
Lemma relays_live_toolCall call : relays ofLive (live_toolCall c har call).
Proof. unfold live_toolCall. relay. Qed.
Lemma relays_completeApproval st : relays ofLive (completeApproval c har st).
Proof. unfold completeApproval. relay. Qed.
Lemma relays_live_report tr : relays ofLive (live_report c tr).
Proof. unfold live_report. relay. Qed.
Lemma relays_live_usage u : relays ofLive (live_usage c u).
Proof. unfold live_usage. relay. Qed.
Lemma relays_liveGuard {A} (m : M LiveState goerr A) : relays ofLive m -> relays ofLive (liveGuard m).
Proof. unfold liveGuard. relay. Qed.
#[local] Hint Resolve relays_live_toolCall relays_completeApproval relays_live_report relays_live_usage relays_liveGuard : relay.

(** A harness on a sink all of whose effects relay. *)
Lemma relays_runProg {St} (E : EventSink St) (g : St -> World S) :
  (forall req, relays g (sink_Model req)) -> (forall d, relays g (sink_Output d)) -> (forall tc, relays g (sink_ToolCall tc)) ->
  (forall tr, relays g (sink_Report tr)) -> (forall u, relays g (sink_Usage u)) ->
  forall p st, told (g st) (g (fst (runProg p st))).
Proof.
  intros Hm Ho Ht Hr Hu p. induction p as [err|req k IH|d k IH|tc k IH|tr k IH|u k IH]; intros st; cbn [runProg]; [reflexivity|..];
    match goal with |- context [let '(_, _) := ?x in _] => destruct x as [st' r] eqn:Es end;
    (etransitivity; [|apply IH]).
  - by eapply Hm.
  - by eapply Ho.
  - by eapply Ht.
  - by eapply Hr.
  - by eapply Hu.
Qed.

Lemma relays_runLive id desc start : relays onlyWorld (runLive c har id desc start).
Proof.
  intros w w' r. unfold runLive. pose proof (relays_runProg (liveEventSink c har) ofLive) as Hp.
  destruct (runProg _ _) as [[w1 sink] runErr] eqn:Er. intros [= <- <-].
  specialize (Hp ltac:(intros; simpl; auto with relay) ltac:(intros; simpl; auto with relay) ltac:(intros; simpl; auto with relay)
    ltac:(intros; simpl; auto with relay) ltac:(intros; simpl; auto with relay) (Run har start) (w, newLiveSink id false (Some desc))).
  by rewrite Er in Hp.
Qed.
Lemma relays_finishExec id stop e : relays onlyWorld (finishExec c id stop e).
Proof. unfold finishExec. relay. Qed.
Lemma relays_inputs id inputs : forall last, relays onlyWorld (appendInputs c id last inputs).
Proof. induction inputs as [|m ms IH]; intros last; cbn [appendInputs]; [auto with relay|]. by apply relays_append. Qed.
#[local] Hint Resolve relays_runLive relays_finishExec relays_inputs : relay.

Lemma relays_Exec inputs exp : relays onlyWorld (Exec c har inputs exp).
Proof. unfold Exec. relay. Qed.

(** *** Recovery *)

Lemma relays_onLive {A} (m : M (World S * liveSink) goerr A) : relays ofLive m -> relays ofResume (onLive m).
Proof.
  intros Hm [w l] s' r. unfold onLive. cbn [fst snd]. destruct (m (w, live l)) as [[w1 l1] x] eqn:E. intros [= <- <-]. by eapply Hm in E.
Qed.
Lemma relays_getResume {A} (f : resumeSink -> A) : relays ofResume (getResume f).
Proof. apply relays_gets. Qed.
Lemma relays_modResume f : relays ofResume (modResume f).
Proof. by apply relays_modify. Qed.
Lemma relays_resumeFail {A} e : relays ofResume (resumeFailWith (A := A) e).
Proof. unfold resumeFailWith. apply relays_bind; [apply relays_modResume|auto with relay]. Qed.
#[local] Hint Resolve relays_onLive relays_getResume relays_modResume relays_resumeFail : relay.
Lemma relays_resume_diverged {A} t : relays ofResume (resume_diverged (A := A) t).
Proof. unfold resume_diverged. auto with relay. Qed.
Lemma relays_recordedNext k : relays ofResume (recordedNext k).
Proof. unfold recordedNext. relay. Qed.
Lemma relays_resumeGuard {A} (m : M ResumeState goerr A) : relays ofResume m -> relays ofResume (resumeGuard m).
Proof. unfold resumeGuard. relay. Qed.
#[local] Hint Resolve relays_resume_diverged relays_recordedNext relays_resumeGuard : relay.
Lemma relays_resume_model req : relays ofResume (resume_model c req).
Proof. unfold resume_model. relay. Qed.
Lemma relays_resume_output d : relays ofResume (resume_output c d).
Proof. unfold resume_output. relay. Qed.
Lemma relays_resume_gated tc : relays ofResume (resume_gated c har tc).
Proof. unfold resume_gated. relay. Qed.
Lemma relays_resume_ordinary tc : relays ofResume (resume_ordinary c tc).
Proof. unfold resume_ordinary. relay. Qed.
#[local] Hint Resolve relays_resume_gated relays_resume_ordinary : relay.
Lemma relays_resume_toolCall tc : relays ofResume (resume_toolCall c har tc).
Proof. unfold resume_toolCall. relay. Qed.
Lemma relays_resume_report tr : relays ofResume (resume_report c tr).
Proof. unfold resume_report. relay. Qed.
Lemma relays_resume_usage u : relays ofResume (resume_usage c u).
Proof. unfold resume_usage. relay. Qed.
#[local] Hint Resolve relays_resume_model relays_resume_output relays_resume_toolCall relays_resume_report relays_resume_usage : relay.

Lemma relays_withFlag {A} b (m : M (World S) goerr A) : relays onlyWorld m -> relays onlyWorld (withFlag b m).
Proof. intros Hm w w' r. unfold withFlag. destruct (m w) as [w1 x] eqn:E. intros [= <- <-]. by eapply Hm. Qed.
#[local] Hint Resolve relays_withFlag : relay.
Lemma relays_checkHarness xs : relays onlyWorld (checkHarness c har xs).
Proof. unfold checkHarness. relay. Qed.
Lemma relays_pendingApproval scan id : relays onlyWorld (pendingApproval c scan id).
Proof. unfold pendingApproval. relay; apply relays_withFlag; relay. Qed.
Lemma relays_finishResume sink e : relays onlyWorld (finishResume c sink e).
Proof.
  intros w w' r. unfold finishResume. destruct (snd _); [by intros [= <- <-]|].
  destruct (recoveryErr sink e);
    match goal with |- context [live_append c ?ev ?st] => pose proof (relays_live_append ev st) as Ha; destruct (live_append c ev st) as [[w1 l1] x] end;
    intros [= <- <-]; exact (Ha _ _ eq_refl).
Qed.
Lemma relays_runResume sink start : relays onlyWorld (runResume c har sink start).
Proof.
  intros w w' r. unfold runResume.
  pose proof (relays_runProg (resumeEventSink c har) ofResume ltac:(intros; simpl; auto with relay) ltac:(intros; simpl; auto with relay)
    ltac:(intros; simpl; auto with relay) ltac:(intros; simpl; auto with relay) ltac:(intros; simpl; auto with relay) (Run har start) (w, sink)) as Hp.
  destruct (runProg _ _) as [[w1 sink1] runErr]. intros Hf. etransitivity; [exact Hp|]. by eapply relays_finishResume.
Qed.
#[local] Hint Resolve relays_checkHarness relays_pendingApproval relays_runResume : relay.
Lemma relays_resumeExecution recs scan x : relays onlyWorld (resumeExecution c har recs scan x).
Proof. unfold resumeExecution. relay; apply relays_withFlag; relay. Qed.
#[local] Hint Resolve relays_resumeExecution : relay.
Lemma relays_Resume : relays onlyWorld (Resume c har).
Proof. unfold Resume. relay. Qed.
End controller.

(** ** The placer *)

#[local] Abbreviation onlyWorld := (fun w : World S => w).
#[local] Abbreviation ofPlace := (@ps_world S).

Lemma relays_onWorldP {E A} (m : M (World S) E A) : relays onlyWorld m -> relays ofPlace (onWorldP m).
Proof. intros Hm s s' r. unfold onWorldP. destruct (m (ps_world s)) as [w x] eqn:E1. intros [= <- <-]. by eapply Hm. Qed.
Lemma relays_onStore {A} (m : M S goerr A) : relays onlyWorld (onLog m) -> relays ofPlace (onStore m).
Proof. apply relays_onWorldP. Qed.
Lemma relays_tickP : relays ofPlace tickP.
Proof. apply relays_onWorldP, relays_tick. Qed.
Lemma relays_called call : relays ofPlace (called call).
Proof. intros s s' r. unfold called. intros Hr. apply relays_tickP in Hr. exact Hr. Qed.
Lemma relays_finally {E A} (m : M (PState S) E A) f : relays ofPlace m -> (forall s, told (ps_world s) (ps_world (f s))) -> relays ofPlace (finally m f).
Proof. intros Hm Hf s s' r. unfold finally. destruct (m s) as [s1 x] eqn:E1. intros [= <- <-]. etransitivity; [by eapply Hm|apply Hf]. Qed.
Lemma relays_beside {V A} (v : V) (m : M (PState S) goerr A) : relays ofPlace m -> relays ofPlace (beside v m).
Proof. intros Hm s s' r. unfold beside. destruct (m s) as [s1 x] eqn:E1. intros [= <- <-]. by eapply Hm. Qed.
Lemma relays_withGuard {E A} (busy : goerr -> E) uid kind (m : M (PState S) E A) : relays ofPlace m -> relays ofPlace (withGuard busy uid kind m).
Proof.
  intros Hm s s' r. unfold withGuard. destruct (acquire uid kind (ps_guard s)) as [g [hd|e]]; [|by intros [= <- <-]].
  intros Hr. eapply (relays_finally m _ Hm) in Hr; [exact Hr|reflexivity].
Qed.
Lemma relays_withCheckpoint {A} uid (m : M (PState S) goerr A) : relays ofPlace m -> relays ofPlace (withCheckpoint uid m).
Proof.
  intros Hm. unfold withCheckpoint. apply relays_bind; [|intros; apply relays_finally; [done|reflexivity]].
  intros s s' r. unfold markCheckpoint, setCheckpointLocked. case_bool_decide; by intros [= <- <-].
Qed.
Lemma relays_refuse uid : relays ofPlace (refuseDuringCheckpoint uid).
Proof. intros s s' r. unfold refuseDuringCheckpoint. case_bool_decide; by intros [= <- <-]. Qed.
#[local] Hint Resolve relays_onWorldP relays_onStore relays_tickP relays_called relays_beside relays_withGuard relays_withCheckpoint relays_refuse : relay.

Lemma relays_appendP {A} b p exp f ev (k : Record_ -> M (PState S) goerr A) : reports b -> (forall r, relays ofPlace (k r)) ->
  relays ofPlace (let! rec := onStore (st_Append exp f ev) in do! observeP p b rec in k rec).
Proof.
  intros Hb Hk s s' r Hr. unfold observeP in Hr. set (c := controllerFor _ _ _ _ _ _ _ _) in Hr.
  assert (exists s1 x, (let! rec := onWorldP (onLog (st_Append exp f ev)) in do! onWorldP (observe c rec) in mret rec) s = (s1, x) /\
    match x with Ok rec => k rec s1 = (s', r) | Err e => s1 = s' end) as (s1 & x & Hm & Hx).
  { unfold onStore, mbind, M_bind in *. destruct (onWorldP (onLog (st_Append exp f ev)) s) as [s1 [rec|e]]; [|eexists _, (Err e); split; [done|by injection Hr]].
    destruct (onWorldP (observe c rec) s1) as [s2 [[]|e]] eqn:Eo; [by eexists _, (Ok rec)|]. eexists _, (Err e). split; [done|by injection Hr]. }
  transitivity (ps_world s1); [|destruct x; [by eapply Hk|by subst]].
  eapply (relays_append c exp f ev mret Hb (fun _ => relays_ret _ _)) with (r := x). revert Hm.
  unfold onWorldP, mbind, M_bind, mret, M_ret. destruct (onLog _ (ps_world s)) as [w1 [rec|e]]; [|by intros [= <- <-]].
  cbn [ps_world]. destruct (observe c rec w1) as [w2 [[]|e]]; by intros [= <- <-].
Qed.

Lemma relays_append_last b p exp f ev : reports b -> relays ofPlace (let! rec := onStore (st_Append exp f ev) in observeP p b rec).
Proof.
  intros Hb s s' r Hr. eapply (relays_appendP b p exp f ev (fun _ => mret tt)) with (r := r); [done|intros; apply relays_ret|].
  rewrite <- Hr. unfold mbind, M_bind, mret, M_ret. destruct (onStore _ s) as [s1 [rec|e]]; [|done].
  by destruct (observeP p b rec s1) as [s2 [[]|e]].
Qed.

Ltac relayP := repeat first
  [ progress intros
  | solve [auto with relay]
  | progress cbn beta
  | match goal with |- relays _ (onStore (st_Append _ _ _) ≫= _) => first [apply relays_append_last; [assumption] | apply relays_appendP; [assumption|]] end
  | match goal with |- relays _ (_ ≫= _) => apply relays_bind end
  | apply relays_modify; intros; reflexivity
  | match goal with |- relays _ (match ?x with _ => _ end) => destruct x end
  | match goal with |- relays _ (let '(_, _) := ?x in _) => destruct x end ].

Lemma relays_conns {E} (f : gmap nat liveHarness -> gmap nat liveHarness) : relays ofPlace (modify (E := E) (fun s => setConns (f (ps_conns s)) s)).
Proof. by apply relays_modify. Qed.
Lemma relays_endConn l cause : relays ofPlace (endConn l cause).
Proof. unfold endConn. relayP. Qed.
Lemma relays_connCause l : relays ofPlace (connCause l).
Proof. unfold connCause. relayP. Qed.
Lemma relays_connErr l : relays ofPlace (connErr l).
Proof. unfold connErr. relayP. Qed.
#[local] Hint Resolve relays_endConn relays_connCause relays_connErr : relay.
Lemma relays_checkSuperseded l : relays ofPlace (checkSuperseded l).
Proof. unfold checkSuperseded. relayP. Qed.
Lemma relays_fenceMinted l : relays ofPlace (fenceMinted l).
Proof. unfold fenceMinted. relayP. Qed.
#[local] Hint Resolve relays_checkSuperseded relays_fenceMinted : relay.
Lemma relays_release uid l : relays ofPlace (releaseHarness uid l).
Proof. unfold releaseHarness. relayP. Qed.
Lemma told_quiet_release uid l s : told (ps_world s) (ps_world (releaseQuietly uid l s)).
Proof. unfold releaseQuietly. destruct (releaseHarness uid l s) as [s1 x] eqn:E1. by eapply relays_release. Qed.
Lemma relays_openHarness p uid inc : relays ofPlace (openHarness p uid inc).
Proof. unfold openHarness. relayP. Qed.
Lemma relays_placer_admit p : relays ofPlace (placer_admit p).
Proof. unfold placer_admit. relayP. Qed.
Lemma relays_recheck p l har : relays ofPlace (recheck p l har).
Proof. unfold recheck. relayP. Qed.
#[local] Hint Resolve relays_release relays_openHarness relays_placer_admit relays_recheck : relay.

Lemma relays_suspend p uid cur : reports (cur_onRecord cur) -> relays ofPlace (suspend p uid (Some cur)).
Proof. intros Hc. unfold suspend, appendLifecycleAt. relayP. Qed.
Lemma relays_handoff {A} p uid fence ref l b : reports b -> relays ofPlace (handoffPark (A := A) p uid fence ref l b).
Proof. intros Hb. unfold handoffPark, closeInvocation. apply relays_withCheckpoint. relayP; by apply relays_suspend. Qed.
#[local] Hint Resolve relays_handoff : relay.
Lemma relays_turnFailed {A} p uid fence l b e : reports b -> relays ofPlace (turnFailed (A := A) p uid fence l b e).
Proof. intros Hb. unfold turnFailed. relayP. Qed.
Lemma relays_mint l (m : M (PState S) goerr Z) : relays ofPlace m -> relays ofPlace (mintTurnFence l m).
Proof. unfold mintTurnFence. relayP. Qed.
#[local] Hint Resolve relays_turnFailed relays_mint relays_Exec : relay.

Lemma relays_bind_post {St E A B} (g : St -> World S) (Q : A -> Prop) (m : M St E A) (f : A -> M St E B) : relays g m ->
  (forall s s' a, m s = (s', Ok a) -> Q a) -> (forall a, Q a -> relays g (f a)) -> relays g (m ≫= f).
Proof.
  intros Hm Hq Hf s s' r. unfold mbind, M_bind. destruct (m s) as [s1 [a|e]] eqn:E1; intros Hr.
  - etransitivity; [by eapply Hm|]. eapply Hf; [by eapply Hq|done].
  - injection Hr as <- <-. by eapply Hm.
Qed.

(** The controller a turn makes reports like its options say. *)
Lemma New_onRecord c s s' c' : New_ (S := S) c s = (s', Ok c') -> onRecord c' = onRecord c.
Proof.
  unfold New_, throw, mret, M_ret, mbind, M_bind. case_match; [done|]. case_match; [|by intros [= <- <-]].
  destruct (st_NewFence s) as [s1 [f|e]]; by intros [= <- <-].
Qed.
Lemma onStore_Ok {A} (m : M S goerr A) s s' a : onStore m s = (s', Ok a) -> exists l', m (w_log (ps_world s)) = (l', Ok a).
Proof. unfold onStore, onWorldP, onLog. destruct (m _) as [l' x]. intros [= <- <-]. by eexists. Qed.
Lemma beside_Ok {V A} (v : V) (m : M (PState S) goerr A) s s' a : beside v m s = (s', Ok a) -> m s = (s', Ok a).
Proof. unfold beside. destruct (m s) as [s1 [b|e]]; by intros [= <- <-]. Qed.

Lemma relays_execOn p cfg uid inputs exp inc l har : reports (cfg_onRecord cfg) -> relays ofPlace (execOn p cfg uid inputs exp inc l har).
Proof.
  intros Hc. unfold execOn. do 3 (apply relays_bind; [auto with relay|intros]).
  apply (relays_bind_post _ (fun c => reports (onRecord c))); [auto with relay| |].
  - intros s s' c (l' & Hn)%beside_Ok%onStore_Ok. apply New_onRecord in Hn. by rewrite Hn.
  - intros c Hr. relayP.
Qed.
#[local] Hint Resolve relays_execOn : relay.

Lemma relays_placer_Exec p cfg uid inputs exp : reports (cfg_onRecord cfg) -> relays ofPlace (placer_Exec p cfg uid inputs exp).
Proof.
  intros Hc. unfold placer_Exec. apply relays_withGuard. relayP.
  apply relays_finally; [auto with relay|apply told_quiet_release].
Qed.

Lemma relays_resumeHead e : relays ofPlace (checkResumeHead e).
Proof. unfold checkResumeHead. relayP. Qed.
#[local] Hint Resolve relays_resumeHead : relay.
Lemma relays_resumeFence uid e : relays ofPlace (resumeFence uid e).
Proof. unfold resumeFence. relayP; try apply relays_withCheckpoint; relayP. Qed.
#[local] Hint Resolve relays_resumeFence : relay.
Lemma relays_resumeApproval p uid st cfg : reports (rcfg_onRecord cfg) -> relays ofPlace (resumeApproval p uid st cfg).
Proof. intros Hc. unfold resumeApproval. relayP. Qed.
Lemma relays_resumeOn p cfg uid l har : reports (rcfg_onRecord cfg) -> relays ofPlace (resumeOn p cfg uid l har).
Proof.
  intros Hc. unfold resumeOn. do 3 (apply relays_bind; [auto with relay|intros]).
  apply (relays_bind_post _ (fun c => reports (onRecord c))); [auto with relay| |].
  - intros s s' c (l' & Hn)%onStore_Ok. apply New_onRecord in Hn. by rewrite Hn.
  - intros c Hr. apply relays_bind; [|relayP]. apply relays_onWorldP. intros w w' r.
    destruct (Resume c har w) as [w1 x] eqn:E1. intros [= <- <-]. by eapply relays_Resume.
Qed.
#[local] Hint Resolve relays_resumeApproval relays_resumeOn : relay.
Lemma relays_lastSuspend uid : relays ofPlace (lastSuspendRef uid).
Proof. unfold lastSuspendRef. relayP. Qed.
#[local] Hint Resolve relays_lastSuspend : relay.
Lemma relays_resume p cfg uid : reports (rcfg_onRecord cfg) -> relays ofPlace (resume p cfg uid).
Proof.
  intros Hc. unfold resume. relayP. apply relays_finally; [auto with relay|apply told_quiet_release].
Qed.
#[local] Hint Resolve relays_resume : relay.

Lemma relays_invocation : relays onlyWorld ResumeInvocation.
Proof. unfold ResumeInvocation. relay. Qed.
#[local] Hint Resolve relays_invocation : relay.

Lemma relays_registry_Resume r h cfg uid name : reports (reg_onRecord cfg) ->
  (forall check, reg_check cfg = Some check -> forall n, relays ofPlace (check n)) -> relays ofPlace (registry_Resume r h cfg uid name).
Proof.
  intros Hc Hk. unfold registry_Resume. apply relays_withGuard. relayP.
  unfold runCheck. destruct (reg_check cfg) as [check|]; [by apply Hk|auto with relay].
Qed.

(** *** Without an observer *)

Section unheard.
Hypothesis Hnot : heard = false.

Definition safely {A} (m : M S goerr A) : Prop := forall s s' r, wf s -> m s = (s', r) -> wf s'.
Lemma safely_bind {A B} (m : M S goerr A) (f : A -> M S goerr B) : safely m -> (forall a, safely (f a)) -> safely (m ≫= f).
Proof.
  intros Hm Hf s s' r Hs. unfold mbind, M_bind. destruct (m s) as [s1 [a|e]] eqn:E1; pose proof (Hm _ _ _ Hs E1) as Hs1.
  - by apply Hf.
  - by intros [= <- <-].
Qed.
Lemma safely_quietly {A} (m : M S goerr A) : quietly m -> safely m.
Proof. intros Hm s s' r Hs Hr. by destruct (Hm _ _ _ Hs Hr). Qed.
Lemma safely_append exp f ev : safely (st_Append exp f ev).
Proof. intros s s' r Hs Hr. by destruct (jl_append _ _ _ _ _ _ Hs Hr). Qed.
Lemma relays_unheard {A} (m : M S goerr A) : safely m -> relays onlyWorld (onLog m).
Proof.
  intros Hm w w' r. unfold onLog. destruct (m (w_log w)) as [l x] eqn:E. intros [= <- <-] Hw.
  split; [by eapply Hm|]. by rewrite Hnot.
Qed.

Lemma relays_appendLifecycle lc : relays ofPlace (appendLifecycle lc).
Proof.
  unfold appendLifecycle, appendLifecycleAt. do 2 (apply relays_bind; [auto with relay|intros]).
  apply relays_onStore, relays_unheard, safely_append.
Qed.
#[local] Hint Resolve relays_appendLifecycle : relay.
Lemma relays_suspend_plain p uid : relays ofPlace (suspend p uid None).
Proof. unfold suspend. relayP. Qed.
#[local] Hint Resolve relays_suspend_plain : relay.

Lemma relays_registry_Suspend r h cfg uid name :
  (forall check, reg_check cfg = Some check -> forall n, relays ofPlace (check n)) -> relays ofPlace (registry_Suspend r h cfg uid name).
Proof.
  intros Hk. unfold registry_Suspend. apply relays_withGuard. relayP.
  unfold runCheck. destruct (reg_check cfg) as [check|]; [by apply Hk|auto with relay].
Qed.

Lemma safely_approve now d : safely (Approve now d).
Proof.
  assert (forall A (e : goerr), safely (A := A) (throw e)) as Hthrow by (intros A e; by apply safely_quietly, (quietly_lift (Err e))).
  unfold Approve, scanApprovals. apply safely_bind; [apply safely_quietly; intros ? ? ?; apply jl_writable|intros _].
  case_match; [apply Hthrow|]. apply safely_bind; [|intros scan].
  - case_match; [apply Hthrow|]. apply safely_bind; [apply safely_quietly; intros ? ? ?; apply jl_read|intros; apply safely_quietly, quietly_lift].
  - apply safely_bind; [apply safely_quietly, quietly_lift|intros [old|]]; [by apply safely_quietly, (quietly_lift (Ok old))|].
    apply safely_bind; [apply safely_quietly; intros ? ? ?; apply jl_fence|intros; apply safely_append].
Qed.
Lemma relays_registry_Approve now uid d : relays ofPlace (registry_Approve now uid d).
Proof. unfold registry_Approve. apply relays_withGuard, relays_withCheckpoint, relays_onStore, relays_unheard, safely_approve. Qed.
End unheard.
End Relay.
