(* ===== verification/Tables.v ===== *)
(** * The database of package sqlitelog: tables, statements and transactions (sqlitelog/sqlitelog.go)

    The tables are values; a SQL statement is one atomic step on them, at which the driver may fail.
    A transaction works on the tables in place and keeps the committed ones aside: [Rollback] puts
    them back, [Commit] forgets them. What the driver, the clock and the protobuf codec answer is the
    class [Driver] and the class [ProtoCodec]; every theorem holds for whatever they answer. *)
From S2P Require Import Prelude GoErrors Api Canon EventLog Executions Harness Wire.
From stdpp Require Import sorting.
#[local] Open Scope Z_scope.

(** ** ORDER BY

    The rows of a result, sorted by a total preorder given as a boolean. *)
Class TotalPreorder {A} (leb : A -> A -> bool) : Prop := {
  leb_total : forall x y, leb x y = true \/ leb y x = true;
  leb_trans : forall x y z, leb x y = true -> leb y z = true -> leb x z = true;
}.

Section OrderBy.
Context {A : Type} (leb : A -> A -> bool).

Fixpoint insertRow (x : A) (l : list A) : list A :=
  match l with
  | [] => [x]
  | y :: l' => if leb x y then x :: l else y :: insertRow x l'
  end.

Definition orderBy (l : list A) : list A := foldr insertRow [] l.
End OrderBy.

(** ** Rows *)

(** The reporting columns that migration 2 -> 3 adds to a session. *)
Record ReportCols := mkReportCols {
  last_seq : Z;
  latest_execution : string;
  reporting_fork_seq : Z;
  approval_corrupt : bool;
  invalid_approval_executions : Z;
}.

(** The deletion columns that migration 3 -> 4 adds. *)
Record DeletionCols := mkDeletionCols {
  deletion_state : DeletionState;
  deletion_requested_at : Z;
  deletion_completed_at : Z;
  deletion_seq : Z;
}.

(** A row of [sessions], without its key. *)
Record SessionRow := mkSessionRow {
  s_fence : Z;
  s_project : string; s_name : string; s_harness : string; s_model : string;
  s_parent_uid : string; s_fork_seq : Z;
  s_compute_state : ComputeState;
  s_created_at : Z; s_updated_at : Z;
  s_labels : string; s_annotations : string; s_origin : string; s_identity : string;
  s_report : ReportCols;
  s_deletion : DeletionCols;
}.

(** A row of [events]. *)
Record EventRow := mkEventRow {
  e_session : string; e_seq : Z; e_prev_hash : string; e_hash : string; e_fence : Z;
  e_event : list Z;
}.

(** [approvalExecution]: the columns of [approval_executions] beside its key. *)
Record ApprovalRow := mkApprovalRow {
  firstSeq : Z;
  gated : bool; invalid : bool; hasStart : bool;
  expectedInputs : option Z;
  inputs : Z; messages : Z;
  completed : bool;
  callID : string;
  callSeq : Z; requestSeq : Z; decisionSeq : Z;
  approved : bool; receipt : bool;
}.

Inductive HarnessState := HarnessActive | HarnessRetired | HarnessStateOther (s : string).

(** A row of [harnesses], without its key. *)
Record HarnessRow := mkHarnessRow {
  h_uid : string; h_spec : string; h_spec_digest : string;
  h_state : HarnessState; h_retire_reason : string; h_retired_at : Z;
  h_created_at : Z; h_updated_at : Z;
}.

#[export] Instance HarnessState_eq : EqDecision HarnessState.
Proof. solve_decision. Defined.

(** The tables of one database and its [PRAGMA user_version]. Primary keys are map keys, except for
    [events], whose rows are kept in insertion order; there the key is checked by [insertEvent]. *)
Record Tables := mkTables {
  user_version : Z;
  t_sessions : gmap string SessionRow;
  t_events : list EventRow;
  t_executions : gmap (string * string) ApprovalRow;
  t_calls : gmap (string * string * string) bool;
  t_harnesses : gmap string HarnessRow;
  t_reserved : gmap string Z;
}.

Definition emptyTables : Tables := mkTables 0 ∅ [] ∅ ∅ ∅ ∅.

(** The default values of the columns of [sessions]. *)
Definition defaultReport : ReportCols := mkReportCols 0 EmptyString 0 false 0.
Definition defaultDeletion : DeletionCols := mkDeletionCols DeletionActive 0 0 0.
Definition defaultRow (fence : Z) (project : string) (created_at updated_at : Z) : SessionRow :=
  mkSessionRow fence project EmptyString EmptyString EmptyString EmptyString 0
    (ComputeStateOther EmptyString) created_at updated_at EmptyString EmptyString EmptyString EmptyString
    defaultReport defaultDeletion.

(** Assignments of an UPDATE. *)
Definition setSessions (m : gmap string SessionRow) (t : Tables) : Tables :=
  mkTables (user_version t) m (t_events t) (t_executions t) (t_calls t) (t_harnesses t) (t_reserved t).
Definition setEvents (es : list EventRow) (t : Tables) : Tables :=
  mkTables (user_version t) (t_sessions t) es (t_executions t) (t_calls t) (t_harnesses t) (t_reserved t).
Definition setExecutions (m : gmap (string * string) ApprovalRow) (t : Tables) : Tables :=
  mkTables (user_version t) (t_sessions t) (t_events t) m (t_calls t) (t_harnesses t) (t_reserved t).
Definition setCalls (m : gmap (string * string * string) bool) (t : Tables) : Tables :=
  mkTables (user_version t) (t_sessions t) (t_events t) (t_executions t) m (t_harnesses t) (t_reserved t).
Definition setHarnesses (m : gmap string HarnessRow) (t : Tables) : Tables :=
  mkTables (user_version t) (t_sessions t) (t_events t) (t_executions t) (t_calls t) m (t_reserved t).
Definition setReserved (m : gmap string Z) (t : Tables) : Tables :=
  mkTables (user_version t) (t_sessions t) (t_events t) (t_executions t) (t_calls t) (t_harnesses t) m.
Definition setVersion (v : Z) (t : Tables) : Tables :=
  mkTables v (t_sessions t) (t_events t) (t_executions t) (t_calls t) (t_harnesses t) (t_reserved t).
Definition setReport (r : ReportCols) (s : SessionRow) : SessionRow :=
  mkSessionRow (s_fence s) (s_project s) (s_name s) (s_harness s) (s_model s) (s_parent_uid s)
    (s_fork_seq s) (s_compute_state s) (s_created_at s) (s_updated_at s) (s_labels s)
    (s_annotations s) (s_origin s) (s_identity s) r (s_deletion s).
Definition setDeletion (c : DeletionCols) (s : SessionRow) : SessionRow :=
  mkSessionRow (s_fence s) (s_project s) (s_name s) (s_harness s) (s_model s) (s_parent_uid s)
    (s_fork_seq s) (s_compute_state s) (s_created_at s) (s_updated_at s) (s_labels s)
    (s_annotations s) (s_origin s) (s_identity s) (s_report s) c.
(** The columns a fence or a committed event moves. *)
Definition setTouched (fence : Z) (project : string) (state : ComputeState) (created updated : Z)
    (s : SessionRow) : SessionRow :=
  mkSessionRow fence project (s_name s) (s_harness s) (s_model s) (s_parent_uid s)
    (s_fork_seq s) state created updated (s_labels s)
    (s_annotations s) (s_origin s) (s_identity s) (s_report s) (s_deletion s).

(** [UPDATE sessions SET ... WHERE session = uid]. *)
Definition updateSession (f : SessionRow -> SessionRow) (uid : string) (t : Tables) : Tables :=
  setSessions (alter f uid (t_sessions t)) t.

(** ** The connection

    [saved] is the committed state while a transaction is open; [ticks] counts the statements and
    clock readings, so that the driver may answer each of them differently. *)
Record DB := mkDB {
  tables : Tables;
  saved : option Tables;
  ticks : nat;
}.

(** The SQLite driver: [fault n] is the error the [n]th statement fails with, if it does;
    [isConstraint] reads the result code of an error; [clock] is [time.Now().UnixNano()]. *)
Class Driver := {
  fault : nat -> option goerr;
  clock : nat -> Z;
  constraintViolation : goerr;
  isConstraint : goerr -> bool;
}.

(** [proto.Marshal] and [proto.Unmarshal] on the event message. *)
Class ProtoCodec `{Host} `{Timestamppb} := {
  proto_Marshal : PbEvent -> res (list Z);
  proto_Unmarshal : list Z -> res PbEvent;
}.

(** A message the encoder builds is read back as it was written. *)
Class ProtoLaws `{ProtoCodec} : Prop := {
  unmarshal_marshal : forall ev b,
    proto_Marshal (EventToProto ev) = Ok b -> proto_Unmarshal b = Ok (EventToProto ev);
}.

Section Statements.
Context `{Driver}.

(** One statement: it fails without effect, or runs to its end. *)
Definition stmt {A} (f : Tables -> Tables * res A) : M DB goerr A := fun d =>
  match fault (ticks d) with
  | Some e => (mkDB (tables d) (saved d) (S (ticks d)), Err e)
  | None => let '(t, r) := f (tables d) in (mkDB t (saved d) (S (ticks d)), r)
  end.
Definition select {A} (q : Tables -> A) : M DB goerr A := stmt (fun t => (t, Ok (q t))).
Definition execute (u : Tables -> Tables) : M DB goerr unit := stmt (fun t => (u t, Ok tt)).

Definition now : M DB goerr Z := fun d =>
  (mkDB (tables d) (saved d) (S (ticks d)), Ok (clock (ticks d))).

(** [db.Begin()], [tx.Commit()], and [tx.Rollback()], which does nothing once committed. *)
Definition Begin : M DB goerr unit := fun d =>
  match fault (ticks d) with
  | Some e => (mkDB (tables d) (saved d) (S (ticks d)), Err e)
  | None => (mkDB (tables d) (Some (tables d)) (S (ticks d)), Ok tt)
  end.
Definition Commit : M DB goerr unit := fun d =>
  match fault (ticks d) with
  | Some e => (mkDB (tables d) (saved d) (S (ticks d)), Err e)
  | None => (mkDB (tables d) None (S (ticks d)), Ok tt)
  end.
Definition Rollback (d : DB) : DB :=
  match saved d with
  | Some t => mkDB t None (ticks d)
  | None => d
  end.

(** [defer tx.Rollback()]. *)
Definition deferRollback {A} (m : M DB goerr A) : M DB goerr A := fun d =>
  let '(d', r) := m d in (Rollback d', r).

(** [fmt.Errorf("...: %w", err)] around the error of [m]. *)
Definition wrapErr {A} (tag : string) (m : M DB goerr A) : M DB goerr A := fun d =>
  let '(d', r) := m d in (d', match r with Ok a => Ok a | Err e => Err (EWrap tag e) end).

(** ** Statements on [events] *)

Definition seqLeb (a b : EventRow) : bool := e_seq a <=? e_seq b.

(** [... FROM events WHERE session = ? ORDER BY seq]. *)
Definition sessionEvents (uid : string) (t : Tables) : list EventRow :=
  orderBy seqLeb (filter (fun e => e_session e = uid) (t_events t)).

(** [SELECT COALESCE(MAX(seq), 0) FROM events WHERE session = ?]. *)
Definition maxSeq (es : list EventRow) : option Z :=
  foldr (fun e acc => Some (match acc with Some m => Z.max (e_seq e) m | None => e_seq e end)) None es.
Definition headSeq (uid : string) (t : Tables) : Z :=
  default 0 (maxSeq (filter (fun e => e_session e = uid) (t_events t))).

(** [SELECT hash FROM events WHERE session = ? AND seq = ?]: the key is unique. *)
Definition eventAt (uid : string) (seq : Z) (t : Tables) : option EventRow :=
  list.last (filter (fun e => e_session e = uid /\ e_seq e = seq) (t_events t)).

(** [INSERT INTO events]: the primary key is (session, seq). *)
Definition insertEvent (row : EventRow) (t : Tables) : Tables * res unit :=
  match eventAt (e_session row) (e_seq row) t with
  | Some _ => (t, Err constraintViolation)
  | None => (setEvents (t_events t ++ [row]) t, Ok tt)
  end.
End Statements.

(** [decode(blob)]. *)
Definition decode `{ProtoCodec} (blob : list Z) : res Event :=
  pb ← proto_Unmarshal blob; mret (EventFromProto (Some pb)).

(** ** Lemmas on ORDER BY *)

Section orderBy.
Context {A : Type} (leb : A -> A -> bool).

Lemma orderBy_cons x l : orderBy leb (x :: l) = insertRow leb x (orderBy leb l).
Proof. done. Qed.

Lemma insertRow_Permutation x l : insertRow leb x l ≡ₚ x :: l.
Proof.
  induction l as [|y l IH]; simpl; [reflexivity|]. destruct (leb x y); [reflexivity|].
  rewrite IH. apply Permutation_swap.
Qed.

Lemma orderBy_Permutation l : orderBy leb l ≡ₚ l.
Proof. induction l as [|x l IH]; [reflexivity|]. rewrite orderBy_cons, insertRow_Permutation. by rewrite IH. Qed.

Lemma elem_of_orderBy x l : x ∈ orderBy leb l <-> x ∈ l.
Proof. by rewrite orderBy_Permutation. Qed.

(** A row that is above all others goes last. *)
Lemma orderBy_snoc l x : (forall y, y ∈ l -> leb x y = false) -> (forall y, y ∈ l -> leb y x = true) ->
  orderBy leb (l ++ [x]) = orderBy leb l ++ [x].
Proof.
  intros Hn Hy. induction l as [|y l IH]; [done|].
  rewrite <- app_comm_cons, !orderBy_cons, IH by (intros z Hz; (apply Hn || apply Hy); by right).
  assert (leb y x = true) as Hyx by (apply Hy; left).
  clear Hn Hy IH. induction (orderBy leb l) as [|z m IH]; simpl; [by rewrite Hyx|].
  destruct (leb y z); [done|]. simpl. f_equal. apply IH.
Qed.

Context `{!TotalPreorder leb}.

Definition leR (x y : A) : Prop := leb x y = true.

Lemma insertRow_sorted x l : StronglySorted leR l -> StronglySorted leR (insertRow leb x l).
Proof.
  induction 1 as [|y l Hs IH Hall]; simpl; [repeat constructor|].
  destruct (leb x y) eqn:E.
  - constructor; [by constructor|]. constructor; [done|].
    eapply Forall_impl; [exact Hall|]. intros z Hz. unfold leR in *. by eapply leb_trans.
  - constructor; [done|]. apply Forall_forall. intros z Hz.
    rewrite insertRow_Permutation in Hz. apply elem_of_cons in Hz as [->|Hz].
    + unfold leR. destruct (leb_total x y); congruence.
    + rewrite Forall_forall in Hall. by apply Hall.
Qed.

Lemma orderBy_sorted l : StronglySorted leR (orderBy leb l).
Proof. induction l as [|x l IH]; [constructor|]. rewrite orderBy_cons. by apply insertRow_sorted. Qed.

(** WHERE before ORDER BY is ORDER BY before WHERE. *)
Lemma filter_insertRow (P : A -> Prop) `{forall x, Decision (P x)} x l : StronglySorted leR l ->
  filter P (insertRow leb x l) = if decide (P x) then insertRow leb x (filter P l) else filter P l.
Proof.
  induction 1 as [|y l Hs IH Hall]; simpl.
  { rewrite filter_cons, filter_nil. by destruct (decide (P x)). }
  destruct (leb x y) eqn:E.
  - rewrite (filter_cons P x). destruct (decide (P x)); [|done].
    destruct (filter P (y :: l)) as [|z m] eqn:Ef; [done|]. simpl.
    assert (z ∈ filter P (y :: l)) as Hz by (rewrite Ef; set_solver).
    apply list_elem_of_filter in Hz as [_ [->|Hz]%elem_of_cons]; [by rewrite E|].
    rewrite Forall_forall in Hall.
    by rewrite (leb_trans x y z E (Hall z Hz)).
  - rewrite !(filter_cons P y), IH. destruct (decide (P y)), (decide (P x)); simpl; try done.
    by rewrite E.
Qed.

Lemma filter_orderBy (P : A -> Prop) `{forall x, Decision (P x)} l :
  filter P (orderBy leb l) = orderBy leb (filter P l).
Proof.
  induction l as [|x l IH]; [done|]. rewrite orderBy_cons, filter_insertRow, filter_cons, IH by apply orderBy_sorted.
  by destruct (decide (P x)).
Qed.
End orderBy.

#[export] Instance seqLeb_preorder : TotalPreorder seqLeb.
Proof. unfold seqLeb. split; intros; lia. Qed.

Lemma seqLeb_le a b : seqLeb a b = true <-> e_seq a <= e_seq b.
Proof. unfold seqLeb. lia. Qed.

(** ** The head of a session *)

Lemma contiguous_bounds n rs r : contiguous n rs -> r ∈ rs -> n + 1 <= Seq r <= n + Z.of_nat (length rs).
Proof.
  revert n. induction rs as [|r' rs IH]; intros n Hc Hr; [set_solver|].
  destruct Hc as [Hs Hc]. simpl. apply elem_of_cons in Hr as [->|Hr]; [lia|]. specialize (IH _ Hc Hr). lia.
Qed.


Lemma maxSeq_spec es :
  match maxSeq es with
  | Some m => (exists e, e ∈ es /\ e_seq e = m) /\ forall e, e ∈ es -> e_seq e <= m
  | None => es = []
  end.
Proof.
  induction es as [|e es IH]; [done|]. simpl. destruct (maxSeq es) as [m|].
  - destruct IH as [(e' & He' & <-) Hle]. split.
    + destruct (Z.max_spec (e_seq e) (e_seq e')) as [[_ ->]|[_ ->]]; [exists e'|exists e]; set_solver.
    + intros e1 [->|He1]%elem_of_cons; [lia|]. specialize (Hle e1 He1). lia.
  - subst es. split; [exists e; set_solver|]. intros e1 [->|He1]%elem_of_cons; [lia|set_solver].
Qed.

Lemma headSeq_ge uid t e : e ∈ t_events t -> e_session e = uid -> e_seq e <= headSeq uid t.
Proof.
  intros He Hs. unfold headSeq. pose proof (maxSeq_spec (filter (fun e => e_session e = uid) (t_events t))) as Hm.
  assert (e ∈ filter (fun e => e_session e = uid) (t_events t)) as Hin by (by apply list_elem_of_filter).
  destruct (maxSeq _) as [m|]; simpl; [by apply Hm|]. rewrite Hm in Hin. set_solver.
Qed.

(** The last row in the order of [seq] carries the greatest [seq]. *)
Lemma headSeq_last uid t : headSeq uid t = default 0 (e_seq <$> list.last (sessionEvents uid t)).
Proof.
  unfold headSeq, sessionEvents. set (es := filter _ _).
  pose proof (maxSeq_spec es) as Hm. pose proof (orderBy_sorted seqLeb es) as Hs.
  pose proof (orderBy_Permutation seqLeb es) as Hp.
  destruct (maxSeq es) as [m|]; [|by rewrite Hm].
  destruct Hm as [(e & He & <-) Hle]. rewrite <- Hp in He.
  destruct (orderBy seqLeb es) as [|x l _] using rev_ind; [set_solver|].
  rewrite last_snoc. simpl. apply Z.le_antisymm.
  - apply elem_of_app in He as [He|He]; [|set_solver].
    apply seqLeb_le. eapply (StronglySorted_app_1_elem_of (leR seqLeb)); [exact Hs|done|set_solver].
  - apply Hle. rewrite <- Hp. set_solver.
Qed.

(** The row after the head: it is new, and it comes last. *)
Lemma eventAt_fresh uid t : eventAt uid (headSeq uid t + 1) t = None.
Proof.
  unfold eventAt. destruct (list.last _) as [e|] eqn:E; [|done]. exfalso.
  assert (e ∈ filter (fun e => e_session e = uid /\ e_seq e = headSeq uid t + 1) (t_events t)) as He
    by (by apply last_Some_elem_of).
  apply list_elem_of_filter in He as [[Hu Hq] He].
  pose proof (headSeq_ge uid t e He Hu). lia.
Qed.

Lemma sessionEvents_snoc t row : e_seq row = headSeq (e_session row) t + 1 ->
  sessionEvents (e_session row) (setEvents (t_events t ++ [row]) t) = sessionEvents (e_session row) t ++ [row].
Proof.
  intros Hq. unfold sessionEvents. simpl. rewrite list.filter_app, filter_cons_True by done.
  rewrite filter_nil. apply orderBy_snoc; intros y [Hy Hin]%list_elem_of_filter;
    pose proof (headSeq_ge _ _ _ Hin Hy); unfold seqLeb; lia.
Qed.

Lemma sessionEvents_other uid t row : e_session row <> uid ->
  sessionEvents uid (setEvents (t_events t ++ [row]) t) = sessionEvents uid t.
Proof.
  intros Hne. unfold sessionEvents. simpl. rewrite list.filter_app, filter_cons_False by done.
  by rewrite filter_nil, app_nil_r.
Qed.

(** ** Frames

    What a computation may change, statement by statement, whatever fails: [preserves R m] when every
    run of [m] moves the tables along [R] and leaves the transaction open or closed as it was. *)

Section frames.
Context `{Driver}.

Definition preserves (R : Tables -> Tables -> Prop) {A} (m : M DB goerr A) : Prop :=
  forall d d' r, m d = (d', r) -> saved d' = saved d /\ R (tables d) (tables d').

Lemma stmt_inv {A} (f : Tables -> Tables * res A) d d' r : stmt f d = (d', r) ->
  saved d' = saved d /\
  ((tables d' = fst (f (tables d)) /\ r = snd (f (tables d))) \/ (tables d' = tables d /\ exists e, r = Err e)).
Proof.
  unfold stmt. destruct (fault (ticks d)); [intros; inv_ok; naive_solver|].
  destruct (f (tables d)). intros; inv_ok. naive_solver.
Qed.

Lemma select_inv {A} (q : Tables -> A) d d' r : select q d = (d', r) ->
  saved d' = saved d /\ tables d' = tables d /\ (r = Ok (q (tables d)) \/ exists e, r = Err e).
Proof. intros (?&[(?&?)|(?&?)])%stmt_inv; simpl in *; naive_solver. Qed.

Lemma execute_inv u d d' r : execute u d = (d', r) ->
  saved d' = saved d /\
  ((tables d' = u (tables d) /\ r = Ok tt) \/ (tables d' = tables d /\ exists e, r = Err e)).
Proof. intros (?&[(?&?)|(?&?)])%stmt_inv; simpl in *; naive_solver. Qed.

Lemma now_inv d d' r : now d = (d', r) ->
  saved d' = saved d /\ tables d' = tables d /\ r = Ok (clock (ticks d)).
Proof. unfold now. intros; by inv_ok. Qed.

Lemma wrapErr_inv {A} tag (m : M DB goerr A) d d' r : wrapErr tag m d = (d', r) ->
  exists r0, m d = (d', r0) /\ r = match r0 with Ok a => Ok a | Err e => Err (EWrap tag e) end.
Proof. unfold wrapErr. destruct (m d) as [d1 r0]. intros; inv_ok. eauto. Qed.

Lemma lift_inv {A} (x : res A) (d : DB) d' r : lift x d = (d', r) -> d' = d /\ r = x.
Proof. unfold lift. intros; by inv_ok. Qed.

Lemma Begin_inv d d' r : Begin d = (d', r) ->
  tables d' = tables d /\ ((r = Ok tt /\ saved d' = Some (tables d)) \/ (saved d' = saved d /\ exists e, r = Err e)).
Proof. unfold Begin. destruct (fault _); intros; inv_ok; naive_solver. Qed.

Lemma Commit_inv d d' r : Commit d = (d', r) ->
  tables d' = tables d /\ ((r = Ok tt /\ saved d' = None) \/ (saved d' = saved d /\ exists e, r = Err e)).
Proof. unfold Commit. destruct (fault _); intros; inv_ok; naive_solver. Qed.

Lemma deferRollback_inv {A} (m : M DB goerr A) d d' r : deferRollback m d = (d', r) ->
  exists d1, m d = (d1, r) /\ d' = Rollback d1.
Proof. unfold deferRollback. destruct (m d) as [d1 r1]. intros; inv_ok. eauto. Qed.

Lemma preserves_weaken (R R' : Tables -> Tables -> Prop) {A} (m : M DB goerr A) :
  (forall t t', R t t' -> R' t t') -> preserves R m -> preserves R' m.
Proof. intros Hw Hm d d' r Hr. destruct (Hm d d' r Hr). eauto. Qed.

Context (R : Tables -> Tables -> Prop) `{!PreOrder R}.

Lemma preserves_bind {A B} (m : M DB goerr A) (f : A -> M DB goerr B) :
  preserves R m -> (forall a, preserves R (f a)) -> preserves R (m ≫= f).
Proof.
  intros Hm Hf d d' r Hr. apply bind_inv in Hr as (d1 & r1 & Hr1 & Hr).
  destruct (Hm _ _ _ Hr1) as [Hs1 Ht1]. destruct r1 as [a|e]; [|by destruct Hr as [-> _]].
  destruct (Hf a _ _ _ Hr) as [Hs Ht]. split; [congruence|by transitivity (tables d1)].
Qed.

Lemma preserves_stmt {A} (f : Tables -> Tables * res A) :
  (forall t, R t (fst (f t))) -> preserves R (stmt f).
Proof. intros Hf d d' r (Hs & [[-> _]|[-> _]])%stmt_inv; by split. Qed.

Lemma preserves_execute u : (forall t, R t (u t)) -> preserves R (execute u).
Proof. intros Hu. by apply preserves_stmt. Qed.

Lemma preserves_select {A} (q : Tables -> A) : preserves R (select q).
Proof. by apply preserves_stmt. Qed.

Lemma preserves_now : preserves R now.
Proof. intros d d' r (Hs & -> & _)%now_inv. by split. Qed.

Lemma preserves_ret {A} (a : A) : preserves R (mret a).
Proof. intros d d' r Hr. unfold mret, M_ret in Hr. by inv_ok. Qed.

Lemma preserves_throw {A} e : preserves R (throw (A := A) e).
Proof. intros d d' r Hr. unfold throw in Hr. by inv_ok. Qed.

Lemma preserves_lift {A} (x : res A) : preserves R (lift x).
Proof. intros d d' r [-> _]%lift_inv. done. Qed.

Lemma preserves_check o : preserves R (check o).
Proof. intros d d' r Hr. unfold check in Hr. destruct o; by inv_ok. Qed.

Lemma preserves_wrapErr {A} tag (m : M DB goerr A) : preserves R m -> preserves R (wrapErr tag m).
Proof. intros Hm d d' r (r0 & Hr & _)%wrapErr_inv. by apply (Hm _ _ _ Hr). Qed.

Lemma preserves_try {A} (m : M DB goerr A) : preserves R m -> preserves R (try m).
Proof.
  intros Hm d d' r Hr. unfold try in Hr. destruct (m d) as [d1 r1] eqn:E. inv_ok. by apply (Hm _ _ _ E).
Qed.
End frames.

#[export] Hint Resolve preserves_stmt preserves_execute preserves_select preserves_now preserves_ret
  preserves_throw preserves_lift preserves_check preserves_wrapErr preserves_try : frame.

(** [frame]: descend through binds and branches; leaves the obligations of the updates. *)
Ltac frame :=
  repeat first
    [ match goal with |- forall _, _ => intro end
    | apply preserves_ret; [typeclasses eauto] | apply preserves_throw; [typeclasses eauto]
    | apply preserves_lift; [typeclasses eauto] | apply preserves_check; [typeclasses eauto]
    | apply preserves_now; [typeclasses eauto] | apply preserves_select; [typeclasses eauto]
    | apply preserves_execute; [typeclasses eauto|] | apply preserves_stmt; [typeclasses eauto|]
    | apply preserves_wrapErr | apply preserves_try
    | apply preserves_bind; [typeclasses eauto| |]
    | match goal with |- preserves _ (match ?x with _ => _ end) => destruct x end ].

(** The tables are not changed at all. *)
Abbreviation quiet := (preserves eq).

(** ** Progress: a computation that only runs statements succeeds when the driver does *)

Definition faultFree `{Driver} : Prop := forall n, fault n = None.

Section progress.
Context `{Driver}.
Hypothesis Hfree : faultFree.

Lemma stmt_free {A} (f : Tables -> Tables * res A) d :
  exists d', stmt f d = (d', snd (f (tables d))) /\ tables d' = fst (f (tables d)) /\ saved d' = saved d.
Proof. unfold stmt. rewrite Hfree. destruct (f (tables d)). eauto. Qed.

Lemma select_free {A} (q : Tables -> A) d :
  exists d', select q d = (d', Ok (q (tables d))) /\ tables d' = tables d /\ saved d' = saved d.
Proof. apply (stmt_free (fun t => (t, Ok (q t)))). Qed.

Lemma execute_free u d :
  exists d', execute u d = (d', Ok tt) /\ tables d' = u (tables d) /\ saved d' = saved d.
Proof. apply (stmt_free (fun t => (u t, Ok tt))). Qed.

Lemma Commit_free d : exists d', Commit d = (d', Ok tt) /\ tables d' = tables d /\ saved d' = None.
Proof. unfold Commit. rewrite Hfree. eauto. Qed.

Lemma Begin_free d : exists d', Begin d = (d', Ok tt) /\ tables d' = tables d /\ saved d' = Some (tables d).
Proof. unfold Begin. rewrite Hfree. eauto. Qed.

Definition succeeds {A} (m : M DB goerr A) : Prop := forall d, exists d' a, m d = (d', Ok a).

Lemma succeeds_bind {A B} (m : M DB goerr A) (f : A -> M DB goerr B) :
  succeeds m -> (forall a, succeeds (f a)) -> succeeds (m ≫= f).
Proof.
  intros Hm Hf d. destruct (Hm d) as (d1 & a & E). destruct (Hf a d1) as (d2 & b & E2).
  exists d2, b. unfold mbind, M_bind. by rewrite E.
Qed.
Lemma succeeds_select {A} (q : Tables -> A) : succeeds (select q).
Proof. intros d. destruct (select_free q d) as (d' & E & _). eauto. Qed.
Lemma succeeds_execute u : succeeds (execute u).
Proof. intros d. destruct (execute_free u d) as (d' & E & _). eauto. Qed.
Lemma succeeds_ret {A} (a : A) : succeeds (mret a).
Proof. intros d. by exists d, a. Qed.
Lemma succeeds_now : succeeds now.
Proof. intros d. unfold now. eauto. Qed.
Lemma succeeds_wrapErr {A} tag (m : M DB goerr A) : succeeds m -> succeeds (wrapErr tag m).
Proof. intros Hm d. destruct (Hm d) as (d' & a & E). exists d', a. unfold wrapErr. by rewrite E. Qed.
End progress.

Ltac run_free :=
  repeat lazymatch goal with
    | |- forall _, _ => intro
    | |- succeeds (mret _) => apply succeeds_ret
    | |- succeeds now => apply succeeds_now
    | |- succeeds (select _) => apply succeeds_select; assumption
    | |- succeeds (execute _) => apply succeeds_execute; assumption
    | |- succeeds (wrapErr _ _) => apply succeeds_wrapErr
    | |- succeeds (_ ≫= _) => apply succeeds_bind
    | |- succeeds (match ?x with _ => _ end) => destruct x
    end.
