(* ===== verification/Projection.v ===== *)
(** * Approval reporting in the database (sqlitelog/approval_projection.go)

    Each committed event is folded into the row of its execution and the reporting columns of its
    session, so that a listing can show the pending request without reading a journal. *)
From S2P Require Import Prelude GoErrors Api Canon EventLog Executions Harness Wire Tables.

(** Assignments to the fields of an [approvalExecution]. *)
Definition rowInvalid (s : ApprovalRow) : ApprovalRow :=
  mkApprovalRow (firstSeq s) (gated s) true (hasStart s) (expectedInputs s) (inputs s) (messages s)
    (completed s) (callID s) (callSeq s) (requestSeq s) (decisionSeq s) (approved s) (receipt s).
Definition rowGated (s : ApprovalRow) : ApprovalRow :=
  mkApprovalRow (firstSeq s) true (invalid s) (hasStart s) (expectedInputs s) (inputs s) (messages s)
    (completed s) (callID s) (callSeq s) (requestSeq s) (decisionSeq s) (approved s) (receipt s).
Definition rowStart (n : option Z) (s : ApprovalRow) : ApprovalRow :=
  mkApprovalRow (firstSeq s) (gated s) (invalid s) true
    (match n with Some _ => n | None => expectedInputs s end) (inputs s) (messages s)
    (completed s) (callID s) (callSeq s) (requestSeq s) (decisionSeq s) (approved s) (receipt s).
Definition rowInput (m : option Message) (s : ApprovalRow) : ApprovalRow :=
  mkApprovalRow (firstSeq s) (gated s) (invalid s) (hasStart s) (expectedInputs s) (inputs s + 1)
    (match m with Some _ => messages s + 1 | None => messages s end)
    (completed s) (callID s) (callSeq s) (requestSeq s) (decisionSeq s) (approved s) (receipt s).
Definition rowCall (id : string) (seq : Z) (s : ApprovalRow) : ApprovalRow :=
  mkApprovalRow (firstSeq s) (gated s) (invalid s) (hasStart s) (expectedInputs s) (inputs s) (messages s)
    (completed s) id seq 0 0 false false.
Definition rowRequest (seq : Z) (s : ApprovalRow) : ApprovalRow :=
  mkApprovalRow (firstSeq s) (gated s) (invalid s) (hasStart s) (expectedInputs s) (inputs s) (messages s)
    (completed s) (callID s) (callSeq s) seq (decisionSeq s) (approved s) (receipt s).
Definition rowDecision (seq : Z) (a : bool) (s : ApprovalRow) : ApprovalRow :=
  mkApprovalRow (firstSeq s) (gated s) (invalid s) (hasStart s) (expectedInputs s) (inputs s) (messages s)
    (completed s) (callID s) (callSeq s) (requestSeq s) seq a (receipt s).
Definition rowReceipt (s : ApprovalRow) : ApprovalRow :=
  mkApprovalRow (firstSeq s) (gated s) (invalid s) (hasStart s) (expectedInputs s) (inputs s) (messages s)
    (completed s) (callID s) (callSeq s) (requestSeq s) (decisionSeq s) (approved s) true.
Definition rowCompleted (s : ApprovalRow) : ApprovalRow :=
  mkApprovalRow (firstSeq s) (gated s) (invalid s) (hasStart s) (expectedInputs s) (inputs s) (messages s)
    true (callID s) (callSeq s) (requestSeq s) (decisionSeq s) (approved s) (receipt s).

(** [var state approvalExecution; state.firstSeq = seq]. *)
Definition newApprovalRow (seq : Z) : ApprovalRow :=
  mkApprovalRow seq false false false None 0 0 false EmptyString 0 0 0 false false.

(** [approvalExecution.invalidApproval]. *)
Definition invalidApproval (executionID : string) (s : ApprovalRow) : bool :=
  gated s && (invalid s || bool_decide (executionID = EmptyString)
    || (hasStart s && match expectedInputs s with
                      | None => true
                      | Some n => (n <? 0) || negb (inputs s =? messages s) || negb (inputs s =? n)
                      end)).

(** [open := s.callID != "" && !s.receipt]. *)
Definition rowOpen (s : ApprovalRow) : bool := negb (bool_decide (callID s = EmptyString)) && negb (receipt s).

(** The events that mark an execution as gated. *)
Definition marksGated (ev : Event) : bool :=
  bool_decide (Kind ev = EventApprovalRequest) || bool_decide (Kind ev = EventApprovalResult)
  || (bool_decide (Kind ev = EventToolCall)
      && match ev_ToolCall ev with
         | Some call => bool_decide (tc_Mediation call = MediationRequiresApproval)
         | None => false
         end)
  || (bool_decide (Kind ev = EventToolResult)
      && match ev_Result ev with
         | Some r => negb (ApprovalRequestSeq r =? 0) || negb (ApprovalDecisionSeq r =? 0)
         | None => false
         end).

(** The status a receipt may have under the recorded decision. *)
Definition receiptFits (approved : bool) (r : ToolResult) : bool :=
  if approved
  then (negb (IsError r) && bool_decide (Code r = ToolResultCodeUnspecified))
       || (IsError r && bool_decide (Code r = ToolResultCodeExecutorError))
  else IsError r && bool_decide (Code r = ToolResultCodeApprovalDenied).

(** [UPDATE sessions SET approval_corrupt = ..., last_seq = ... WHERE session = ?]. *)
Definition advanceReport (seq : Z) (s : SessionRow) : SessionRow :=
  let r := s_report s in
  setReport (mkReportCols seq (latest_execution r) (reporting_fork_seq r)
    (if negb (last_seq r =? seq - 1) then true else approval_corrupt r) (invalid_approval_executions r)) s.
Definition setLatestExecution (id : string) (s : SessionRow) : SessionRow :=
  let r := s_report s in
  setReport (mkReportCols (last_seq r) id (reporting_fork_seq r) (approval_corrupt r)
    (invalid_approval_executions r)) s.
Definition setReportingFork (seq : Z) (s : SessionRow) : SessionRow :=
  let r := s_report s in
  setReport (mkReportCols (last_seq r) (latest_execution r) seq (approval_corrupt r)
    (invalid_approval_executions r)) s.
Definition addInvalid (delta : Z) (s : SessionRow) : SessionRow :=
  let r := s_report s in
  setReport (mkReportCols (last_seq r) (latest_execution r) (reporting_fork_seq r) (approval_corrupt r)
    (invalid_approval_executions r + delta)) s.

(** [INSERT OR IGNORE INTO approval_calls]. *)
Definition insertCall (key : string * string * string) (g : bool) (t : Tables) : Tables :=
  match t_calls t !! key with
  | Some _ => t
  | None => setCalls (<[key := g]> (t_calls t)) t
  end.

(** [INSERT INTO approval_executions ... ON CONFLICT DO UPDATE]: the update leaves [first_seq]. *)
Definition upsertExecution (key : string * string) (s : ApprovalRow) (t : Tables) : Tables :=
  let first := match t_executions t !! key with Some old => firstSeq old | None => firstSeq s end in
  setExecutions (<[key := mkApprovalRow first (gated s) (invalid s) (hasStart s) (expectedInputs s)
    (inputs s) (messages s) (completed s) (callID s) (callSeq s) (requestSeq s) (decisionSeq s)
    (approved s) (receipt s)]> (t_executions t)) t.

Section Projection.
Context `{Driver}.

(** The TOOL_CALL case of [reduce]. *)
Definition reduceToolCall (uid : string) (seq : Z) (ev : Event) (s : ApprovalRow) : M DB goerr ApprovalRow :=
  match ev_ToolCall ev with
  | None => mret (rowInvalid s)
  | Some call =>
      if rowOpen s then mret (rowInvalid s)
      else
        let key := (uid, ExecutionID ev, tc_ID call) in
        let g := bool_decide (tc_Mediation call = MediationRequiresApproval) in
        let! prior := select (fun t => t_calls t !! key) in
        if match prior with Some priorGated => priorGated || g | None => false end
        then mret (rowInvalid s)
        else
          do! execute (insertCall key g) in
          if negb g then mret s
          else if completed s || bool_decide (tc_ID call = EmptyString)
                  || bool_decide (IdempotencyKey call = EmptyString)
          then mret (rowInvalid s)
          else mret (rowCall (tc_ID call) seq s)
  end.

(** The APPROVAL_REQUEST and APPROVAL_RESULT cases. *)
Definition reduceRequest (seq : Z) (ev : Event) (s : ApprovalRow) : ApprovalRow :=
  match ev_Approval ev with
  | Some a =>
      if negb (rowOpen s) || negb (requestSeq s =? 0) || negb (bool_decide (req_ToolCallID a = callID s))
      then rowInvalid s else rowRequest seq s
  | None => rowInvalid s
  end.
Definition reduceDecision (seq : Z) (ev : Event) (s : ApprovalRow) : ApprovalRow :=
  match ev_ApprovalResult ev with
  | Some decision =>
      if negb (rowOpen s) || (requestSeq s =? 0) || negb (decisionSeq s =? 0) then rowInvalid s
      else if negb (bool_decide (res_ToolCallID decision = callID s))
              || negb (RequestSeq decision =? requestSeq s)
      then rowInvalid s else rowDecision seq (Approved decision) s
  | None => rowInvalid s
  end.

(** The TOOL_RESULT case. *)
Definition reduceToolResult (uid : string) (ev : Event) (s : ApprovalRow) : M DB goerr ApprovalRow :=
  if rowOpen s then
    mret match ev_Result ev with
    | Some r =>
        if (requestSeq s =? 0) || (decisionSeq s =? 0) then rowInvalid s
        else if negb (bool_decide (tr_ID r = callID s)) || negb (ApprovalRequestSeq r =? requestSeq s)
                || negb (ApprovalDecisionSeq r =? decisionSeq s) || negb (receiptFits (approved s) r)
        then rowInvalid s else rowReceipt s
    | None => rowInvalid s
    end
  else
    match ev_Result ev with
    | Some r =>
        let! g := select (fun t => t_calls t !! (uid, ExecutionID ev, tr_ID r)) in
        mret (if default false g || negb (ApprovalRequestSeq r =? 0) || negb (ApprovalDecisionSeq r =? 0)
              then rowInvalid s else s)
    | None => mret s
    end.

(** [approvalExecution.reduce]. *)
Definition reduce (uid : string) (seq : Z) (ev : Event) (s : ApprovalRow) : M DB goerr ApprovalRow :=
  match Kind ev with
  | EventExecutionStart =>
      mret match ev_ExecutionStart ev with
      | Some start => if negb (seq =? firstSeq s) then rowInvalid s else rowStart (InputCount start) s
      | None => rowInvalid s
      end
  | EventInput => mret (if rowOpen s then rowInvalid s else rowInput (ev_Message ev) s)
  | EventToolCall => reduceToolCall uid seq ev s
  | EventApprovalRequest => mret (reduceRequest seq ev s)
  | EventApprovalResult => mret (reduceDecision seq ev s)
  | EventToolResult => reduceToolResult uid ev s
  | EventEnd => mret (rowCompleted (if rowOpen s then rowInvalid s else s))
  | EventError => mret s
  | _ => mret (if rowOpen s then rowInvalid s else s)
  end.

(** [projectApproval(tx, uid, seq, ev)]. *)
Definition projectApproval (uid : string) (seq : Z) (ev : Event) : M DB goerr unit :=
  do! execute (updateSession (advanceReport seq) uid) in
  if isLifecycle ev then
    match ev_Lifecycle ev with
    | Some lc =>
        if bool_decide (lc_Kind lc = LifecycleFork)
        then execute (updateSession (setReportingFork seq) uid)
        else mret tt
    | None => mret tt
    end
  else
    let key := (uid, ExecutionID ev) in
    let! row := select (fun t => t_executions t !! key) in
    let! state := match row with
      | Some s => mret s
      | None =>
          do! execute (updateSession (setLatestExecution (ExecutionID ev)) uid) in
          mret (newApprovalRow seq)
      end in
    let wasInvalid := invalidApproval (ExecutionID ev) state in
    let state := if marksGated ev then rowGated state else state in
    let! state := if negb (invalid state) then reduce uid seq ev state else mret state in
    let nowInvalid := invalidApproval (ExecutionID ev) state in
    do! (if negb (Bool.eqb wasInvalid nowInvalid)
         then execute (updateSession (addInvalid (if nowInvalid then 1 else -1)) uid)
         else mret tt) in
    execute (upsertExecution key state).
End Projection.

(** ** What the reducer may change

    The reporting columns of its session and the two approval tables under that session, nothing else. *)
Record report_frame (uid : string) (t t' : Tables) : Prop := {
  rf_version : user_version t' = user_version t;
  rf_events : t_events t' = t_events t;
  rf_harnesses : t_harnesses t' = t_harnesses t;
  rf_reserved : t_reserved t' = t_reserved t;
  rf_other : forall u, u <> uid -> t_sessions t' !! u = t_sessions t !! u;
  rf_row : option_Forall2 (fun s s' => exists r, s' = setReport r s) (t_sessions t !! uid) (t_sessions t' !! uid);
  rf_executions : forall u x, u <> uid -> t_executions t' !! (u, x) = t_executions t !! (u, x);
  rf_calls : forall u x c, u <> uid -> t_calls t' !! (u, x, c) = t_calls t !! (u, x, c);
}.

Lemma setReport_setReport r r' s : setReport r (setReport r' s) = setReport r s.
Proof. done. Qed.
Lemma setReport_id s : setReport (s_report s) s = s.
Proof. by destruct s. Qed.

#[export] Instance report_frame_preorder uid : PreOrder (report_frame uid).
Proof.
  split.
  - intros t. constructor; try done. destruct (t_sessions t !! uid) as [s|]; constructor.
    exists (s_report s). by rewrite setReport_id.
  - intros t1 t2 t3 [] []. constructor; try congruence.
    + intros u Hu. rewrite rf_other1 by done. by apply rf_other0.
    + inversion rf_row0 as [s1 s2 [r1 E1] Es1 Es2|En1 En2]; inversion rf_row1 as [s2' s3 [r2 E2] Es3 Es4|En3 En4];
        try congruence; constructor.
      rewrite <- Es2 in Es3. injection Es3 as ->. exists r2. by subst.
    + intros u x Hu. rewrite rf_executions1 by done. by apply rf_executions0.
    + intros u x c Hu. rewrite rf_calls1 by done. by apply rf_calls0.
Qed.

Lemma updateSession_frame uid f t : (forall s, exists r, f s = setReport r s) ->
  report_frame uid t (updateSession f uid t).
Proof.
  intros Hf. constructor; simpl; try done.
  - intros u Hu. by rewrite lookup_alter_ne.
  - rewrite lookup_alter_eq. destruct (t_sessions t !! uid); simpl; constructor. apply Hf.
Qed.

Lemma insertCall_frame uid x c g t : report_frame uid t (insertCall (uid, x, c) g t).
Proof.
  unfold insertCall. destruct (t_calls t !! _); [reflexivity|]. constructor; simpl; try done.
  - destruct (t_sessions t !! uid) as [s|]; constructor. exists (s_report s). by rewrite setReport_id.
  - intros u x' c' Hu. rewrite lookup_insert_ne; congruence.
Qed.

Lemma upsertExecution_frame uid x s t : report_frame uid t (upsertExecution (uid, x) s t).
Proof.
  constructor; simpl; try done.
  - destruct (t_sessions t !! uid) as [s'|]; constructor. exists (s_report s'). by rewrite setReport_id.
  - intros u x' Hu. rewrite lookup_insert_ne; congruence.
Qed.

Lemma projectApproval_frame `{Driver} uid seq ev : preserves (report_frame uid) (projectApproval uid seq ev).
Proof.
  unfold projectApproval, reduce, reduceToolCall, reduceToolResult. frame;
    first [apply insertCall_frame|apply upsertExecution_frame|apply updateSession_frame]; eauto.
Qed.

Lemma projectApproval_succeeds `{Driver} uid seq ev : faultFree -> succeeds (projectApproval uid seq ev).
Proof. intros Hfree. unfold projectApproval, reduce, reduceToolCall, reduceToolResult. run_free. Qed.
