(* ===== verification/Reducer.v ===== *)
(** * The approval reducer as a function of the journal

    What [projectApproval] computes on the tables, stated on values: the reporting columns of one
    session, the rows of its executions and the gated flags of its calls. Running the statements is
    running the function ([projectApproval_step]), so a journal determines its reporting state. *)
From S2P Require Import Prelude GoErrors Api Canon EventLog Executions Harness Wire Tables Projection.

(** The reporting state of one session. *)
Record Report := mkReport {
  rp_cols : ReportCols;
  rp_execs : gmap string ApprovalRow;
  rp_calls : gmap (string * string) bool;
}.

Definition emptyReport : Report := mkReport defaultReport ∅ ∅.

(** [reduceToolCall], [reduceToolResult] and [reduce], given the gated flags of the calls. *)
Definition stepToolCall (calls : gmap (string * string) bool) (seq : Z) (ev : Event) (s : ApprovalRow)
    : ApprovalRow * gmap (string * string) bool :=
  match ev_ToolCall ev with
  | None => (rowInvalid s, calls)
  | Some call =>
      if rowOpen s then (rowInvalid s, calls)
      else
        let key := (ExecutionID ev, tc_ID call) in
        let g := bool_decide (tc_Mediation call = MediationRequiresApproval) in
        if match calls !! key with Some priorGated => priorGated || g | None => false end
        then (rowInvalid s, calls)
        else
          let calls' := match calls !! key with Some _ => calls | None => <[key := g]> calls end in
          if negb g then (s, calls')
          else if completed s || bool_decide (tc_ID call = EmptyString)
                  || bool_decide (IdempotencyKey call = EmptyString)
          then (rowInvalid s, calls')
          else (rowCall (tc_ID call) seq s, calls')
  end.

Definition stepToolResult (calls : gmap (string * string) bool) (ev : Event) (s : ApprovalRow) : ApprovalRow :=
  if rowOpen s then
    match ev_Result ev with
    | Some r =>
        if (requestSeq s =? 0) || (decisionSeq s =? 0) then rowInvalid s
        else if negb (bool_decide (tr_ID r = callID s)) || negb (ApprovalRequestSeq r =? requestSeq s)
                || negb (ApprovalDecisionSeq r =? decisionSeq s) || negb (receiptFits (approved s) r)
        then rowInvalid s else rowReceipt s
    | None => rowInvalid s
    end
  else
    match ev_Result ev with
    | Some r =>
        if default false (calls !! (ExecutionID ev, tr_ID r)) || negb (ApprovalRequestSeq r =? 0)
           || negb (ApprovalDecisionSeq r =? 0)
        then rowInvalid s else s
    | None => s
    end.

Definition stepRow (calls : gmap (string * string) bool) (seq : Z) (ev : Event) (s : ApprovalRow)
    : ApprovalRow * gmap (string * string) bool :=
  match Kind ev with
  | EventExecutionStart =>
      (match ev_ExecutionStart ev with
       | Some start => if negb (seq =? firstSeq s) then rowInvalid s else rowStart (InputCount start) s
       | None => rowInvalid s
       end, calls)
  | EventInput => (if rowOpen s then rowInvalid s else rowInput (ev_Message ev) s, calls)
  | EventToolCall => stepToolCall calls seq ev s
  | EventApprovalRequest => (reduceRequest seq ev s, calls)
  | EventApprovalResult => (reduceDecision seq ev s, calls)
  | EventToolResult => (stepToolResult calls ev s, calls)
  | EventEnd => (rowCompleted (if rowOpen s then rowInvalid s else s), calls)
  | EventError => (s, calls)
  | _ => (if rowOpen s then rowInvalid s else s, calls)
  end.

(** [projectApproval] past its first update, for an event that is not a lifecycle marker. *)
Definition markRow (ev : Event) (s : ApprovalRow) : ApprovalRow := if marksGated ev then rowGated s else s.
Definition reduceRow (calls : gmap (string * string) bool) (seq : Z) (ev : Event) (s : ApprovalRow)
    : ApprovalRow * gmap (string * string) bool :=
  if negb (invalid s) then stepRow calls seq ev s else (s, calls).

Definition colsAdvance (seq : Z) (r : ReportCols) : ReportCols :=
  mkReportCols seq (latest_execution r) (reporting_fork_seq r)
    (if negb (last_seq r =? seq - 1) then true else approval_corrupt r) (invalid_approval_executions r).

Definition boolDelta (before after : bool) : Z := if Bool.eqb before after then 0 else if after then 1 else -1.

Definition reportStep (seq : Z) (ev : Event) (p : Report) : Report :=
  let c := colsAdvance seq (rp_cols p) in
  if isLifecycle ev then
    match ev_Lifecycle ev with
    | Some lc =>
        if bool_decide (lc_Kind lc = LifecycleFork)
        then mkReport (mkReportCols (last_seq c) (latest_execution c) seq (approval_corrupt c)
                         (invalid_approval_executions c)) (rp_execs p) (rp_calls p)
        else mkReport c (rp_execs p) (rp_calls p)
    | None => mkReport c (rp_execs p) (rp_calls p)
    end
  else
    let id := ExecutionID ev in
    let latest := match rp_execs p !! id with Some _ => latest_execution c | None => id end in
    let s := default (newApprovalRow seq) (rp_execs p !! id) in
    let sc := reduceRow (rp_calls p) seq ev (markRow ev s) in
    mkReport
      (mkReportCols (last_seq c) latest (reporting_fork_seq c) (approval_corrupt c)
         (invalid_approval_executions c + boolDelta (invalidApproval id s) (invalidApproval id (fst sc))))
      (<[id := fst sc]> (rp_execs p)) (snd sc).

(** The report of a journal. *)
Definition reportOf (rs : list Record_) : Report :=
  fold_left (fun p r => reportStep (Seq r) (rec_Event r) p) rs emptyReport.

(** The tables hold the report [p] for session [uid]. *)
Record holds (uid : string) (t : Tables) (p : Report) : Prop := {
  ho_row : exists s, t_sessions t !! uid = Some s /\ s_report s = rp_cols p;
  ho_execs : forall x, t_executions t !! (uid, x) = rp_execs p !! x;
  ho_calls : forall x c, t_calls t !! (uid, x, c) = rp_calls p !! (x, c);
}.

(** The same when the session may have no row yet. *)
Record reports (uid : string) (t : Tables) (p : Report) : Prop := {
  re_row : default defaultReport (s_report <$> t_sessions t !! uid) = rp_cols p;
  re_execs : forall x, t_executions t !! (uid, x) = rp_execs p !! x;
  re_calls : forall x c, t_calls t !! (uid, x, c) = rp_calls p !! (x, c);
}.

Lemma holds_reports uid t p : holds uid t p -> reports uid t p.
Proof. intros [(s & Hs & Hr) He Hc]. constructor; [|done..]. by rewrite Hs. Qed.

Lemma reportOf_snoc rs r : reportOf (rs ++ [r]) = reportStep (Seq r) (rec_Event r) (reportOf rs).
Proof. unfold reportOf. by rewrite fold_left_app. Qed.


(** ** Running the statements is running the function *)

Lemma holds_frame uid t t' p : (forall s, t_sessions t !! uid = Some s ->
    exists s', t_sessions t' !! uid = Some s' /\ s_report s' = s_report s) ->
  (forall x, t_executions t' !! (uid, x) = t_executions t !! (uid, x)) ->
  (forall x c, t_calls t' !! (uid, x, c) = t_calls t !! (uid, x, c)) ->
  holds uid t p -> holds uid t' p.
Proof.
  intros Hs He Hc [(s & Hl & Hr) He' Hc']. constructor.
  - destruct (Hs s Hl) as (s' & Hl' & Hr'). exists s'. split; congruence.
  - intros x. by rewrite He.
  - intros x c. by rewrite Hc.
Qed.

Lemma holds_update uid t p f c : (forall s, s_report (f s) = c) ->
  holds uid t p -> holds uid (updateSession f uid t) (mkReport c (rp_execs p) (rp_calls p)).
Proof.
  intros Hf [(s & Hl & Hr) He Hc]. constructor; simpl; try done.
  exists (f s). rewrite lookup_alter_eq, Hl. by split.
Qed.

Lemma holds_update_cols uid t p f g : (forall s, s_report (f s) = g (s_report s)) ->
  holds uid t p -> holds uid (updateSession f uid t) (mkReport (g (rp_cols p)) (rp_execs p) (rp_calls p)).
Proof.
  intros Hf [(s & Hl & Hr) He Hc]. constructor; simpl; try done.
  exists (f s). rewrite lookup_alter_eq, Hl, Hf, Hr. by split.
Qed.

Lemma holds_insertCall uid t p x c g : holds uid t p ->
  holds uid (insertCall (uid, x, c) g t)
    (mkReport (rp_cols p) (rp_execs p) (match rp_calls p !! (x, c) with Some _ => rp_calls p | None => <[(x, c) := g]> (rp_calls p) end)).
Proof.
  intros [Hr He Hc]. unfold insertCall. rewrite Hc. destruct (rp_calls p !! (x, c)); [by constructor|].
  constructor; simpl; try done. intros x' c'.
  destruct (decide ((x', c') = (x, c))) as [[= -> ->]|Hne]; [by rewrite !lookup_insert_eq|].
  rewrite !lookup_insert_ne; congruence.
Qed.

Lemma holds_upsert uid t p x s :
  (forall old, rp_execs p !! x = Some old -> firstSeq old = firstSeq s) -> holds uid t p ->
  holds uid (upsertExecution (uid, x) s t) (mkReport (rp_cols p) (<[x := s]> (rp_execs p)) (rp_calls p)).
Proof.
  intros Hold [Hr He Hc]. constructor; simpl; try done. intros x'.
  destruct (decide (x' = x)) as [->|Hne]; [|rewrite !lookup_insert_ne by congruence; done].
  rewrite !lookup_insert_eq, He. destruct (rp_execs p !! x) as [old|] eqn:E.
  - rewrite (Hold old eq_refl). by destruct s.
  - by destruct s.
Qed.

Section step.
Context `{Driver}.

Lemma mret_inv {A} (a : A) (d : DB) d' (r : res A) : (mret a : M DB goerr A) d = (d', r) -> d' = d /\ r = Ok a.
Proof. unfold mret, M_ret. intros; by inv_ok. Qed.

(** The result of a select that succeeded. *)
Lemma select_ok {A} (q : Tables -> A) d d' a : select q d = (d', Ok a) -> tables d' = tables d /\ a = q (tables d).
Proof. intros (_ & Ht & [[= ->]|[? [=]]])%select_inv. done. Qed.
Lemma execute_ok u d d' a : execute u d = (d', Ok a) -> tables d' = u (tables d).
Proof. intros (_ & [[-> _]|[_ [? [=]]]])%execute_inv. done. Qed.
Lemma bind_ok {A B} (m : M DB goerr A) (f : A -> M DB goerr B) d d' b : (m ≫= f) d = (d', Ok b) ->
  exists d1 a, m d = (d1, Ok a) /\ f a d1 = (d', Ok b).
Proof. intros (d1 & [a|e] & Hm & Hf)%bind_inv; [eauto|by destruct Hf]. Qed.

Lemma reduceToolCall_step uid seq ev s d d' s' p : holds uid (tables d) p ->
  reduceToolCall uid seq ev s d = (d', Ok s') ->
  s' = fst (stepToolCall (rp_calls p) seq ev s) /\
  holds uid (tables d') (mkReport (rp_cols p) (rp_execs p) (snd (stepToolCall (rp_calls p) seq ev s))).
Proof.
  intros Hp. unfold reduceToolCall, stepToolCall.
  destruct (ev_ToolCall ev) as [call|]; [|intros [-> [= ->]]%mret_inv; by destruct p].
  destruct (rowOpen s); [intros [-> [= ->]]%mret_inv; by destruct p|].
  intros (d1 & prior & [Ht1 ->]%select_ok & Hr)%bind_ok. rewrite (ho_calls _ _ _ Hp) in Hr.
  destruct (match rp_calls p !! (ExecutionID ev, tc_ID call) with Some _ => _ | None => _ end);
    [apply mret_inv in Hr as [-> [= ->]]; rewrite Ht1; by destruct p|].
  apply bind_ok in Hr as (d2 & [] & Ht2%execute_ok & Hr). rewrite Ht1 in Ht2.
  assert (tables d' = tables d2) as -> by (repeat case_match; apply mret_inv in Hr as [-> _]; done).
  pose proof (holds_insertCall uid (tables d) p (ExecutionID ev) (tc_ID call)
    (bool_decide (tc_Mediation call = MediationRequiresApproval)) Hp) as Hq.
  rewrite Ht2. destruct (negb _); [|destruct (_ || _)]; apply mret_inv in Hr as [_ [= ->]]; by split.
Qed.

Lemma reduceToolResult_step uid ev s d d' s' p : holds uid (tables d) p ->
  reduceToolResult uid ev s d = (d', Ok s') ->
  tables d' = tables d /\ s' = stepToolResult (rp_calls p) ev s.
Proof.
  intros Hp. unfold reduceToolResult, stepToolResult.
  destruct (rowOpen s); [intros [-> [= ->]]%mret_inv; done|].
  destruct (ev_Result ev) as [r|]; [|intros [-> [= ->]]%mret_inv; done].
  intros (d1 & g & [Ht1 ->]%select_ok & [-> [= ->]]%mret_inv)%bind_ok. by rewrite (ho_calls _ _ _ Hp).
Qed.

Lemma reduce_step uid seq ev s d d' s' p : holds uid (tables d) p ->
  reduce uid seq ev s d = (d', Ok s') ->
  s' = fst (stepRow (rp_calls p) seq ev s) /\
  holds uid (tables d') (mkReport (rp_cols p) (rp_execs p) (snd (stepRow (rp_calls p) seq ev s))).
Proof.
  intros Hp. assert (holds uid (tables d) (mkReport (rp_cols p) (rp_execs p) (rp_calls p))) as Hp' by (by destruct p).
  unfold reduce, stepRow. destruct (Kind ev); intros Hr;
    try (apply mret_inv in Hr as [-> [= ->]]; by split).
  - by eapply reduceToolCall_step.
  - apply (reduceToolResult_step _ _ _ _ _ _ _ Hp) in Hr as [-> ->]. by split.
Qed.

Lemma firstSeq_stepRow calls seq ev s : firstSeq (fst (stepRow calls seq ev s)) = firstSeq s.
Proof.
  unfold stepRow, stepToolCall, stepToolResult, reduceRequest, reduceDecision.
  destruct (Kind ev); simpl; repeat case_match; simpl; try done.
Qed.

Lemma firstSeq_reduceRow calls seq ev s : firstSeq (fst (reduceRow calls seq ev s)) = firstSeq s.
Proof. unfold reduceRow. destruct (negb (invalid s)); [apply firstSeq_stepRow|done]. Qed.

Lemma firstSeq_markRow ev s : firstSeq (markRow ev s) = firstSeq s.
Proof. unfold markRow. by destruct (marksGated ev). Qed.

(** The row the reducer starts from, and the latest execution it records. *)
Lemma projectRow_step uid seq id d d' s p : holds uid (tables d) p ->
  (let! row := select (fun t => t_executions t !! (uid, id)) in
   match row with
   | Some s => mret s
   | None => do! execute (updateSession (setLatestExecution id) uid) in mret (newApprovalRow seq)
   end) d = (d', Ok s) ->
  s = default (newApprovalRow seq) (rp_execs p !! id) /\
  holds uid (tables d') (mkReport
    (mkReportCols (last_seq (rp_cols p))
       (match rp_execs p !! id with Some _ => latest_execution (rp_cols p) | None => id end)
       (reporting_fork_seq (rp_cols p)) (approval_corrupt (rp_cols p)) (invalid_approval_executions (rp_cols p)))
    (rp_execs p) (rp_calls p)).
Proof.
  intros Hp (d1 & row & [Ht1 ->]%select_ok & Hr)%bind_ok. rewrite (ho_execs _ _ _ Hp) in Hr.
  destruct (rp_execs p !! id) as [s0|] eqn:E.
  - apply mret_inv in Hr as [-> [= ->]]. rewrite Ht1. split; [done|]. by destruct p as [[] ? ?].
  - apply bind_ok in Hr as (d2 & [] & Ht2%execute_ok & [-> [= ->]]%mret_inv). split; [done|].
    rewrite Ht2, Ht1.
    by apply (holds_update_cols _ _ _ _ (fun r => mkReportCols (last_seq r) id (reporting_fork_seq r)
      (approval_corrupt r) (invalid_approval_executions r))).
Qed.

Lemma projectApproval_step uid seq ev d d' p : holds uid (tables d) p ->
  projectApproval uid seq ev d = (d', Ok tt) -> holds uid (tables d') (reportStep seq ev p).
Proof.
  intros Hp (d1 & [] & Ht1%execute_ok & Hr)%bind_ok.
  apply (holds_update_cols uid _ p (advanceReport seq) (colsAdvance seq)) in Hp; [|done]. rewrite <- Ht1 in Hp.
  unfold reportStep. destruct (isLifecycle ev).
  - destruct (ev_Lifecycle ev) as [lc|]; [|apply mret_inv in Hr as [-> _]; done].
    destruct (bool_decide (lc_Kind lc = LifecycleFork)); [|apply mret_inv in Hr as [-> _]; done].
    apply execute_ok in Hr. rewrite Hr.
    by apply (holds_update_cols uid _ _ (setReportingFork seq) (fun r => mkReportCols (last_seq r)
      (latest_execution r) seq (approval_corrupt r) (invalid_approval_executions r))) in Hp.
  - set (p1 := mkReport _ _ _) in Hp. change (rp_execs p) with (rp_execs p1).
    change (rp_calls p) with (rp_calls p1). change (colsAdvance seq (rp_cols p)) with (rp_cols p1).
    generalize dependent p1. clear p Ht1. intros p Hp.
    apply bind_ok in Hr as (d2 & row & Hr2 & Hr). apply bind_ok in Hr as (d3 & s & Hr3 & Hr).
    assert (Hrow : (let! row := select (fun t => t_executions t !! (uid, ExecutionID ev)) in
       match row with
       | Some s => mret s
       | None => do! execute (updateSession (setLatestExecution (ExecutionID ev)) uid) in mret (newApprovalRow seq)
       end) d1 = (d3, Ok s)) by (unfold mbind at 1, M_bind at 1; by rewrite Hr2).
    clear Hr2 Hr3. apply (projectRow_step _ _ _ _ _ _ _ Hp) in Hrow as [Hs Hp3].
    apply bind_ok in Hr as (d4 & s4 & Hr4 & Hr).
    set (p3 := mkReport _ _ _) in Hp3.
    assert (s4 = fst (reduceRow (rp_calls p) seq ev (markRow ev s)) /\
      holds uid (tables d4) (mkReport (rp_cols p3) (rp_execs p) (snd (reduceRow (rp_calls p) seq ev (markRow ev s)))))
      as [-> Hp4].
    { unfold reduceRow, markRow. destruct (negb (invalid _)).
      - by apply (reduce_step _ _ _ _ _ _ _ p3) in Hr4.
      - apply mret_inv in Hr4 as [-> [= ->]]. by split. }
    clear Hr4 Hp3. rewrite <- Hs. set (sc := reduceRow _ _ _ _) in *.
    apply bind_ok in Hr as (d5 & [] & Hr5 & Hr%execute_ok). rewrite Hr.
    apply (holds_upsert uid (tables d5) (mkReport (mkReportCols (last_seq (rp_cols p)) (latest_execution (rp_cols p3))
      (reporting_fork_seq (rp_cols p)) (approval_corrupt (rp_cols p)) (invalid_approval_executions (rp_cols p)
      + boolDelta (invalidApproval (ExecutionID ev) s) (invalidApproval (ExecutionID ev) (fst sc))))
      (rp_execs p) (snd sc))).
    { simpl. intros old Hold. rewrite Hold in Hs. simpl in Hs. subst old sc.
      by rewrite firstSeq_reduceRow, firstSeq_markRow. }
    unfold boolDelta. destruct (Bool.eqb _ _); simpl in Hr5.
    + apply mret_inv in Hr5 as [-> _]. by rewrite Z.add_0_r.
    + apply execute_ok in Hr5. rewrite Hr5.
      by apply (holds_update_cols uid _ _ (addInvalid (if invalidApproval (ExecutionID ev) (fst sc) then 1 else -1))
        (fun r => mkReportCols (last_seq r) (latest_execution r) (reporting_fork_seq r) (approval_corrupt r)
           (invalid_approval_executions r + (if invalidApproval (ExecutionID ev) (fst sc) then 1 else -1)))) in Hp4.
Qed.
End step.
