(* ===== verification/SqlLog.v ===== *)
(** * Package sqlitelog: the durable log (sqlitelog/sqlitelog.go)

    The operations of [Log] on the database of [Tables], and [Log] as a [Store]. *)
From S2P Require Import Prelude GoErrors Api Canon EventLog Executions Harness Wire Tables Projection.

(** [eventComputeState]: the compute state a committed event implies, and whether it implies one. *)
Definition eventComputeState (ev : Event) : ComputeState * bool :=
  match Kind ev with
  | EventApprovalRequest | EventApprovalResult => (ComputeNone, false)
  | EventLifecycle =>
      match ev_Lifecycle ev with
      | None => (ComputeNone, false)
      | Some lc =>
          match lc_Kind lc with
          | LifecycleSuspend | LifecycleFork => (ComputeCold, true)
          | LifecycleResume => (ComputeLive, true)
          | _ => (ComputeNone, false)
          end
      end
  | _ => (ComputeLive, true)
  end.

(** The event is the lifecycle marker [k]. *)
Definition isMarker (k : LifecycleKind) (ev : Event) : bool :=
  bool_decide (Kind ev = EventLifecycle)
  && match ev_Lifecycle ev with Some lc => bool_decide (lc_Kind lc = k) | None => false end.

(** [SELECT deletion_state FROM sessions WHERE session = ?]. *)
Definition deletionOf (uid : string) (t : Tables) : option DeletionState :=
  (fun s => deletion_state (s_deletion s)) <$> t_sessions t !! uid.

(** [INSERT INTO sessions(session, fence, ...) ... ON CONFLICT DO UPDATE ... RETURNING fence] of
    [NewFence]; no row is returned when the WHERE of the update does not hold. *)
Definition upsertFence (uid project : string) (at_ : Z) (t : Tables) : Tables * res (option Z) :=
  match t_sessions t !! uid with
  | None => (setSessions (<[uid := defaultRow 1 project at_ at_]> (t_sessions t)) t, Ok (Some 1))
  | Some s =>
      if bool_decide (deletion_state (s_deletion s) = DeletionActive)
      then
        let s' := setTouched (s_fence s + 1)
          (if bool_decide (s_project s = EmptyString) then project else s_project s) (s_compute_state s)
          (if s_created_at s =? 0 then at_ else s_created_at s) at_ s in
        (setSessions (<[uid := s']> (t_sessions t)) t, Ok (Some (s_fence s')))
      else (t, Ok None)
  end.

(** The upsert of [touchSession]. *)
Definition upsertTouch (uid project : string) (state : ComputeState) (moves : bool) (at_ : Z) (t : Tables) : Tables :=
  let row := match t_sessions t !! uid with
    | None => setTouched 0 project state at_ at_ (defaultRow 0 project at_ at_)
    | Some s =>
        setTouched (s_fence s) (if bool_decide (s_project s = EmptyString) then project else s_project s)
          (if moves then state else s_compute_state s)
          (if s_created_at s =? 0 then at_ else s_created_at s) at_ s
    end in
  setSessions (<[uid := row]> (t_sessions t)) t.

Section SqlLog.
Context `{Encoding} `{ProtoCodec} `{Driver}.

(** The project a session lands in ([store.defaultProject]) and the session the handle is for. *)
Variables (defaultProject session : string).

(** [checkWritable(q, uid)]. *)
Definition checkWritable (uid : string) : M DB goerr unit :=
  let! state := wrapErr "sqlitelog: check writable session" (select (deletionOf uid)) in
  match state with
  | None => mret tt
  | Some d => if negb (bool_decide (d = DeletionActive))
              then throw (EWrap "sqlitelog: session" (ESentinel ErrDeleted)) else mret tt
  end.

(** [Log.Head]. *)
Definition sql_Head : M DB goerr Z := select (headSeq session).

(** [Log.NewFence]. *)
Definition sql_NewFence : M DB goerr Z :=
  let! at_ := now in
  let! fence := stmt (upsertFence session defaultProject at_) in
  match fence with
  | None => throw (EWrap "sqlitelog: new fence session" (ESentinel ErrDeleted))
  | Some f => mret f
  end.

(** [appendRecord]: the record, and the message that was stored. *)
Definition appendRecord (uid : string) (head fence : Z) (ev : Event) : M DB goerr (Record_ * PbEvent) :=
  let! prev := (if 0 <? head then
      let! row := select (eventAt uid head) in
      match row with
      | Some e => mret (e_hash e)
      | None => throw (EText "sql: no rows in result set")
      end
    else mret EmptyString) in
  let seq := head + 1 in
  let! hash := wrapErr "sqlitelog: canonicalize seq" (lift (HashRecord prev seq ev)) in
  let pb := EventToProto ev in
  let! blob := wrapErr "sqlitelog: marshal seq" (lift (proto_Marshal pb)) in
  do! stmt (insertEvent (mkEventRow uid seq prev hash fence blob)) in
  mret (mkRecord seq prev hash fence ev, pb).

(** [touchSession]. *)
Definition touchSession (uid : string) (ev : Event) : M DB goerr unit :=
  let '(state, moves) := eventComputeState ev in
  let state := if moves then state else ComputeNone in
  let! at_ := now in
  wrapErr "sqlitelog: touch session" (execute (upsertTouch uid defaultProject state moves at_)).

(** The body of [Log.Append]'s transaction. *)
Definition appendTx (expectedLastSeq fence : Z) (ev : Event) : M DB goerr Record_ :=
  do! checkWritable session in
  if isMarker LifecycleDelete ev then throw (ESentinel ErrReservedDelete)
  else
    let! head := select (headSeq session) in
    if negb (expectedLastSeq =? head) then throw (ESentinel ErrConflict)
    else
      let! cur := select (fun t => s_fence <$> t_sessions t !! session) in
      if fence <? default 0 cur then throw (ESentinel ErrFenced)
      else
        let! appended := try (appendRecord session head fence ev) in
        match appended with
        | Err err => throw (if isConstraint err then ESentinel ErrConflict else err)
        | Ok (record, pb) =>
            do! touchSession session ev in
            do! wrapErr "sqlitelog: project approval seq"
                  (projectApproval session (Seq record) (EventFromProto (Some pb))) in
            do! Commit in
            mret record
        end.

(** [Log.Append]. *)
Definition sql_Append (expectedLastSeq fence : Z) (ev : Event) : M DB goerr Record_ :=
  if bool_decide (Kind ev = EventParked) then throw (EText "sqlitelog: PARKED is transport-only")
  else
    do! Begin in
    deferRollback (appendTx expectedLastSeq fence ev).

(** The scan loop of [Log.Read]. *)
Fixpoint scanRows (rows : list EventRow) : res (list Record_) :=
  match rows with
  | [] => Ok []
  | e :: rows' =>
      match decode (e_event e) with
      | Err err => Err (EWrap "sqlitelog: decode seq" err)
      | Ok ev => rs ← scanRows rows'; Ok (mkRecord (e_seq e) (e_prev_hash e) (e_hash e) (e_fence e) ev :: rs)
      end
  end.

(** [SELECT ... FROM events WHERE session = ? AND seq >= ? ORDER BY seq]. *)
Definition eventsFrom (uid : string) (fromSeq : Z) (t : Tables) : list EventRow :=
  orderBy seqLeb (filter (fun e => e_session e = uid /\ fromSeq <= e_seq e) (t_events t)).

(** [Log.Read] and [Log.Snapshot]. *)
Definition sql_Read (fromSeq : Z) : M DB goerr (list Record_) :=
  let! rows := select (eventsFrom session fromSeq) in
  lift (scanRows rows).
Definition sql_Snapshot : M DB goerr (list Record_) := sql_Read 1.

(** The loop of [Log.Verify]. *)
Fixpoint sqlVerifyFrom (prev : string) (recs : list Record_) : option goerr :=
  match recs with
  | [] => None
  | r :: recs' =>
      if negb (bool_decide (PrevHash r = prev)) then Some (EWrap "prev_hash mismatch" (ESentinel ErrTampered))
      else match HashRecord prev (Seq r) (rec_Event r) with
           | Err err => Some (EWrap "sqlitelog: canonicalize seq" err)
           | Ok want =>
               if negb (bool_decide (Hash r = want))
               then Some (EWrap "content_hash mismatch" (ESentinel ErrTampered))
               else sqlVerifyFrom (Hash r) recs'
           end
  end.

(** [Log.Verify]. *)
Definition sql_Verify : M DB goerr unit :=
  let! recs := sql_Read 1 in
  check (sqlVerifyFrom EmptyString recs).

(** [Log.CheckWritable]. *)
Definition sql_CheckWritable : M DB goerr unit := checkWritable session.

(** [Log] satisfies [eventlog.Store]. *)
Definition SqlLog_Store : Store DB := {|
  st_Append := sql_Append;
  st_Head := sql_Head;
  st_NewFence := sql_NewFence;
  st_Read := sql_Read;
  st_Verify := sql_Verify;
  st_CheckWritable := sql_CheckWritable;
|}.

(** What a session's log holds: the decoded rows in order, and the fence of its row. *)
Definition rowRecord (e : EventRow) : Record_ :=
  mkRecord (e_seq e) (e_prev_hash e) (e_hash e) (e_fence e)
    match decode (e_event e) with Ok ev => ev | Err _ => event0 (EventKindOther EmptyString) end.
Definition journalOf (t : Tables) : list Record_ := map rowRecord (sessionEvents session t).
Definition fenceOf (t : Tables) : Z := default 0 (s_fence <$> t_sessions t !! session).

Definition SqlLog_View : StoreView DB := {|
  journal := fun d => journalOf (tables d);
  curFence := fun d => fenceOf (tables d);
  persisted := fun ev => EventFromProto (Some (EventToProto ev));
|}.
End SqlLog.
