(* ===== verification/SqlExample.v ===== *)
(** * A concrete driver and codec

    An event codec for the messages the examples use, built from stdpp's [Countable] encodings, that
    satisfies [ProtoLaws], and a driver that never fails. The witnesses of the sqlitelog theorems
    evaluate on them. *)
From S2P Require Import Prelude GoErrors Api Canon EventLog Executions Harness Wire Tables.
From stdpp Require Import countable.
#[local] Open Scope Z_scope.

#[local] Existing Instance exampleHost.
#[local] Existing Instance exampleTimestamppb.

Definition kindList : list PbEventKind :=
  [EVENT_KIND_UNSPECIFIED; EVENT_INPUT; EVENT_MODEL_CALL; EVENT_OUTPUT; EVENT_TOOL_CALL;
   EVENT_TOOL_RESULT; EVENT_APPROVAL_REQUEST; EVENT_APPROVAL_RESULT; EVENT_USAGE; EVENT_LIFECYCLE;
   EVENT_END; EVENT_ERROR; EVENT_EXECUTION_START; EVENT_PARKED].
Definition kindIndex (k : PbEventKind) : option nat :=
  match k with
  | EVENT_KIND_UNSPECIFIED => Some 0 | EVENT_INPUT => Some 1 | EVENT_MODEL_CALL => Some 2
  | EVENT_OUTPUT => Some 3 | EVENT_TOOL_CALL => Some 4 | EVENT_TOOL_RESULT => Some 5
  | EVENT_APPROVAL_REQUEST => Some 6 | EVENT_APPROVAL_RESULT => Some 7 | EVENT_USAGE => Some 8
  | EVENT_LIFECYCLE => Some 9 | EVENT_END => Some 10 | EVENT_ERROR => Some 11
  | EVENT_EXECUTION_START => Some 12 | EVENT_PARKED => Some 13
  | PbEventKindOther _ => None
  end%nat.

Definition mediationList : list PbMediation :=
  [MEDIATION_UNSPECIFIED; MEDIATION_IN_HARNESS_REPORTED; MEDIATION_CONTROLLER_MEDIATED; MEDIATION_REQUIRES_APPROVAL].
Definition mediationIndex (m : PbMediation) : option nat :=
  match m with
  | MEDIATION_UNSPECIFIED => Some 0 | MEDIATION_IN_HARNESS_REPORTED => Some 1
  | MEDIATION_CONTROLLER_MEDIATED => Some 2 | MEDIATION_REQUIRES_APPROVAL => Some 3
  | PbMediationOther _ => None
  end%nat.

Definition markerList : list PbLifecycleKind :=
  [LIFECYCLE_UNSPECIFIED; LIFECYCLE_SUSPEND; LIFECYCLE_RESUME; LIFECYCLE_FORK; LIFECYCLE_BASELINE;
   LIFECYCLE_CANCEL; LIFECYCLE_DELETE].
Definition markerIndex (k : PbLifecycleKind) : option nat :=
  match k with
  | LIFECYCLE_UNSPECIFIED => Some 0 | LIFECYCLE_SUSPEND => Some 1 | LIFECYCLE_RESUME => Some 2
  | LIFECYCLE_FORK => Some 3 | LIFECYCLE_BASELINE => Some 4 | LIFECYCLE_CANCEL => Some 5
  | LIFECYCLE_DELETE => Some 6
  | PbLifecycleKindOther _ => None
  end%nat.

(** The bodies the codec takes, as products and sums of countable types. *)
Definition effectBody : Type :=
  (string * list string) + (string * string * nat * string) + (string * string)
  + (string * bool * string * Z) + (nat * string) + (Z * option Z * string * string)
  + (string * bool * Z * Z * Z).
Definition miniBody : Type := effectBody + (string * list (string * string) * string * string) + string.
Definition mini : Type :=
  string * option (Z * Z) * Z * nat * option miniBody * option (string * string * string).

Fixpoint textsOf (ps : list (option PbPart)) : option (list string) :=
  match ps with
  | [] => Some []
  | Some (Part_Text (Some s)) :: ps' => ss ← textsOf ps'; Some (s :: ss)
  | _ => None
  end.
Definition ofTexts (ss : list string) : list (option PbPart) := map (fun s => Some (Part_Text (Some s))) ss.

Definition toEffectBody (b : PbBody) : option effectBody :=
  match b with
  | Event_Message (Some (mkPbMessage role ps)) => ss ← textsOf ps; Some (inl (inl (inl (inl (inl (inl (role, ss)))))))
  | Event_Tool (Some (mkPbToolCall id tool None m key)) =>
      i ← mediationIndex m; Some (inl (inl (inl (inl (inl (inr (id, tool, i, key)))))))
  | Event_Approval (Some (mkPbApprovalRequest id reason)) => Some (inl (inl (inl (inl (inr (id, reason))))))
  | Event_ApprovalResult (Some (mkPbApprovalResult id a reason q)) => Some (inl (inl (inl (inr (id, a, reason, q)))))
  | Event_Lifecycle (Some (mkPbLifecycle k detail EmptyString EmptyString false false)) =>
      i ← markerIndex k; Some (inl (inl (inr (i, detail))))
  | Event_ExecutionStart (Some (mkPbExecutionStart None from n h v)) => Some (inl (inr (from, n, h, v)))
  | Event_Result (Some (mkPbToolResult _ id None EmptyString EmptyString e EmptyString [] c q s)) =>
      Some (inr (id, e, c, q, s))
  | _ => None
  end.
Definition toMiniBody (b : PbBody) : option miniBody :=
  match b with
  | Event_Model (Some (mkPbModelCall model params hash id)) => Some (inl (inr (model, params, hash, id)))
  | Event_End (Some (mkPbHarnessEnd state None)) => Some (inr state)
  | _ => m ← toEffectBody b; Some (inl (inl m))
  end.
Definition ofEffectBody (b : effectBody) : PbBody :=
  match b with
  | inl (inl (inl (inl (inl (inl (role, ss)))))) => Event_Message (Some (mkPbMessage role (ofTexts ss)))
  | inl (inl (inl (inl (inl (inr (id, tool, i, key)))))) =>
      Event_Tool (Some (mkPbToolCall id tool None (nth i mediationList MEDIATION_UNSPECIFIED) key))
  | inl (inl (inl (inl (inr (id, reason))))) => Event_Approval (Some (mkPbApprovalRequest id reason))
  | inl (inl (inl (inr (id, a, reason, q)))) => Event_ApprovalResult (Some (mkPbApprovalResult id a reason q))
  | inl (inl (inr (i, detail))) =>
      Event_Lifecycle (Some (mkPbLifecycle (nth i markerList LIFECYCLE_UNSPECIFIED) detail EmptyString EmptyString false false))
  | inl (inr (from, n, h, v)) => Event_ExecutionStart (Some (mkPbExecutionStart None from n h v))
  | inr (id, e, c, q, s) =>
      Event_Result (Some (mkPbToolResult _ id None EmptyString EmptyString e EmptyString [] c q s))
  end.
Definition ofMiniBody (b : miniBody) : PbBody :=
  match b with
  | inl (inl b) => ofEffectBody b
  | inl (inr (model, params, hash, id)) => Event_Model (Some (mkPbModelCall model params hash id))
  | inr state => Event_End (Some (mkPbHarnessEnd state None))
  end.

Definition toMini (p : PbEvent) : option mini :=
  i ← kindIndex (pb_Kind p);
  b ← match pb_Body p with Some b => m ← toMiniBody b; Some (Some m) | None => Some None end;
  Some (pb_ExecutionId p, pb_Ts p, pb_SchemaVersion p, i, b,
        (fun a => (pbi_Principal a, pbi_Issuer a, pbi_Subject a)) <$> pb_Actor p).
Definition ofMini (m : mini) : PbEvent :=
  let '(id, ts, sv, i, b, actor) := m in
  mkPbEvent id ts sv (nth i kindList EVENT_KIND_UNSPECIFIED) (ofMiniBody <$> b)
    ((fun '(p, i, s) => mkPbIdentityRef p i s) <$> actor).

#[export] Instance exampleCodec : ProtoCodec := {|
  proto_Marshal := fun p =>
    match toMini p with Some m => Ok [Zpos (encode m)] | None => Err (EText "unsupported") end;
  proto_Unmarshal := fun b =>
    match b with
    | [Zpos n] => match decode n with Some m => Ok (ofMini m) | None => Err (EText "malformed") end
    | _ => Err (EText "malformed")
    end;
|}.

Definition exampleDriver : Driver := {|
  fault := fun _ => None;
  clock := fun n => 1000 + Z.of_nat n;
  constraintViolation := EText "UNIQUE constraint failed";
  isConstraint := fun _ => false;
|}.

(** ** The codec is lawful *)

Lemma ofTexts_textsOf ps ss : textsOf ps = Some ss -> ofTexts ss = ps.
Proof.
  revert ss. induction ps as [|[[]|] ps IH]; intros ss Hs; simpl in Hs; try discriminate; [by inv_ok|].
  destruct text as [s|]; [|discriminate]. apply bind_Some in Hs as (ss' & Hs & Hok). inv_ok.
  simpl. by rewrite (IH ss').
Qed.

Lemma nth_mediation m i : mediationIndex m = Some i -> nth i mediationList MEDIATION_UNSPECIFIED = m.
Proof. destruct m; simpl; intros; by inv_ok. Qed.
Lemma nth_marker k i : markerIndex k = Some i -> nth i markerList LIFECYCLE_UNSPECIFIED = k.
Proof. destruct k; simpl; intros; by inv_ok. Qed.
Lemma nth_kind k i : kindIndex k = Some i -> nth i kindList EVENT_KIND_UNSPECIFIED = k.
Proof. destruct k; simpl; intros; by inv_ok. Qed.

Lemma ofEffectBody_toEffectBody b m : toEffectBody b = Some m -> ofEffectBody m = b.
Proof.
  intros Hm. destruct b; simpl in Hm; repeat (break_match_in Hm; try discriminate);
    repeat (apply bind_Some in Hm as (? & ? & Hm)); inv_ok; cbn [ofEffectBody]; subst;
    first [done | by erewrite ofTexts_textsOf by eassumption
          | by erewrite nth_mediation by eassumption | by erewrite nth_marker by eassumption].
Qed.

Lemma ofMiniBody_toMiniBody b m : toMiniBody b = Some m -> ofMiniBody m = b.
Proof.
  intros Hm. assert (forall m0, toEffectBody b = Some m0 -> ofEffectBody m0 = b) as He by apply ofEffectBody_toEffectBody.
  destruct b as [|[[]|]| | | | | | |[[? []]|]| | |];
    cbn [toMiniBody] in Hm; first [by injection Hm as <- | apply bind_Some in Hm as (e0 & Hm & Hok); inv_ok; by apply He].
Qed.

Lemma ofMini_toMini p m : toMini p = Some m -> ofMini m = p.
Proof.
  unfold toMini. intros (i & Hi & (b & Hb & Hm)%bind_Some)%bind_Some. inv_ok. unfold ofMini.
  rewrite (nth_kind _ _ Hi). destruct p as [id ts sv k body [[? ? ?]|]]; simpl in *; f_equal;
    (destruct body; [apply bind_Some in Hb as (m & Hb & Hok)|]; inv_ok; simpl; [by rewrite (ofMiniBody_toMiniBody _ _ Hb)|done]).
Qed.

#[export] Instance exampleProtoLaws : ProtoLaws.
Proof.
  constructor. intros ev b. unfold proto_Marshal, proto_Unmarshal. simpl.
  destruct (toMini (EventToProto ev)) as [m|] eqn:E; [|done]. intros; inv_ok.
  rewrite decode_encode. by rewrite (ofMini_toMini _ _ E).
Qed.
