(* ===== verification/SqlStore.v ===== *)
(** * The durable log is a Store (theorems)

    Each operation of sqlitelog's [Log] on the tables, whatever the driver answers: a failure leaves
    them as they were, a success is the transition the contract of package eventlog describes, and
    no other session sees it. *)
From S2P Require Import Prelude GoErrors Api Canon EventLog Executions Harness Wire Tables Projection Reducer SqlLog SqlExample.
From stdpp Require Import sorting.
#[local] Open Scope Z_scope.

(** What an operation on session [uid] leaves alone. *)
Record session_frame (uid : string) (t t' : Tables) : Prop := {
  sf_version : user_version t' = user_version t;
  sf_harnesses : t_harnesses t' = t_harnesses t;
  sf_reserved : t_reserved t' = t_reserved t;
  sf_rows : forall u, u <> uid -> t_sessions t' !! u = t_sessions t !! u;
  sf_events : forall u, u <> uid -> sessionEvents u t' = sessionEvents u t;
  sf_executions : forall u x, u <> uid -> t_executions t' !! (u, x) = t_executions t !! (u, x);
  sf_calls : forall u x c, u <> uid -> t_calls t' !! (u, x, c) = t_calls t !! (u, x, c);
}.

#[export] Instance session_frame_preorder uid : PreOrder (session_frame uid).
Proof.
  split; [by constructor|]. intros t1 t2 t3 [] []. constructor; try congruence; intros.
  - rewrite sf_rows1 by done. by apply sf_rows0.
  - rewrite sf_events1 by done. by apply sf_events0.
  - rewrite sf_executions1 by done. by apply sf_executions0.
  - rewrite sf_calls1 by done. by apply sf_calls0.
Qed.

Lemma report_session_frame uid t t' : report_frame uid t t' -> session_frame uid t t'.
Proof. intros []. constructor; try done. intros u Hu. unfold sessionEvents. by rewrite rf_events. Qed.

Lemma setSessions_frame uid s t : session_frame uid t (setSessions (<[uid := s]> (t_sessions t)) t).
Proof. constructor; simpl; try done. intros u Hu. by rewrite lookup_insert_ne. Qed.

(** The row of a session is there, and its fence and deletion columns are those of the row before, or
    the defaults. *)
Definition row_kept (uid : string) (t t' : Tables) : Prop :=
  exists s', t_sessions t' !! uid = Some s' /\
    match t_sessions t !! uid with
    | Some s => s_fence s' = s_fence s /\ s_deletion s' = s_deletion s
    | None => s_fence s' = 0 /\ s_deletion s' = defaultDeletion
    end.

Lemma row_kept_fence uid t t' : row_kept uid t t' -> fenceOf uid t' = fenceOf uid t.
Proof.
  intros (s' & Hs' & Hm). unfold fenceOf. rewrite Hs'. destruct (t_sessions t !! uid); simpl; naive_solver.
Qed.

Lemma report_row_kept uid t t1 t2 : row_kept uid t t1 -> report_frame uid t1 t2 -> row_kept uid t t2.
Proof.
  intros (s1 & Hs1 & Hm) Hf. pose proof (rf_row _ _ _ Hf) as Hr. rewrite Hs1 in Hr.
  inversion Hr as [s s2 [r ->] E1 E2|]; subst. exists (setReport r s1). rewrite <- E2. split; [done|].
  by destruct (t_sessions t !! uid).
Qed.

Section SqlStore.
Context `{Encoding} `{ProtoCodec} `{Driver}.

Lemma checkWritable_inv uid d d' r : checkWritable uid d = (d', r) ->
  saved d' = saved d /\ tables d' = tables d /\
  match r with Ok _ => default DeletionActive (deletionOf uid (tables d)) = DeletionActive | Err _ => True end.
Proof.
  unfold checkWritable. intros (d1 & r1 & Hr1 & Hr)%bind_inv.
  apply wrapErr_inv in Hr1 as (r0 & Hr1 & ->). apply select_inv in Hr1 as (Hs & Ht & Hr0).
  destruct r0 as [o|e]; [|by destruct Hr as [-> ->]].
  destruct Hr0 as [[= ->]|[? [=]]].
  destruct (deletionOf uid (tables d)) as [st|]; simpl;
    [case_bool_decide; simpl in Hr|]; unfold throw, mret, M_ret in Hr; by inv_ok.
Qed.

Lemma touchSession_inv project uid ev d d' r : touchSession project uid ev d = (d', r) ->
  saved d' = saved d /\
  match r with
  | Ok _ => session_frame uid (tables d) (tables d') /\ t_events (tables d') = t_events (tables d) /\
      row_kept uid (tables d) (tables d') /\
      (forall p, reports uid (tables d) p -> holds uid (tables d') p)
  | Err _ => True
  end.
Proof.
  unfold touchSession. destruct (eventComputeState ev) as [state moves].
  intros (d1 & r1 & (Hs1 & Ht1 & ->)%now_inv & Hr)%bind_inv.
  apply wrapErr_inv in Hr as (r0 & Hr & ->). apply execute_inv in Hr as (Hs & Hr).
  split; [congruence|]. destruct r0 as [[]|e]; [|done].
  destruct Hr as [[Ht _]|[_ [? [=]]]]. rewrite Ht, Ht1. unfold upsertTouch, row_kept. simpl.
  split_and!; [apply setSessions_frame|done| |].
  - rewrite lookup_insert_eq. eexists; split; [done|]. by destruct (t_sessions (tables d) !! uid).
  - intros p [Hrow He Hc]. constructor; simpl; [|done..]. rewrite lookup_insert_eq. eexists; split; [done|].
    rewrite <- Hrow. by destruct (t_sessions (tables d) !! uid).
Qed.

Lemma appendRecord_inv uid head f ev d d' r : appendRecord uid head f ev d = (d', r) ->
  saved d' = saved d /\
  match r with
  | Ok (rec, pb) => exists prev h b,
      (if 0 <? head then exists e, eventAt uid head (tables d) = Some e /\ prev = e_hash e else prev = EmptyString) /\
      HashRecord prev (head + 1) ev = Ok h /\ proto_Marshal (EventToProto ev) = Ok b /\
      eventAt uid (head + 1) (tables d) = None /\
      tables d' = setEvents (t_events (tables d) ++ [mkEventRow uid (head + 1) prev h f b]) (tables d) /\
      rec = mkRecord (head + 1) prev h f ev /\ pb = EventToProto ev
  | Err _ => tables d' = tables d
  end.
Proof.
  unfold appendRecord. intros (d1 & r1 & Hp & Hr)%bind_inv.
  assert (saved d1 = saved d /\ tables d1 = tables d /\ match r1 with Ok prev =>
      (if 0 <? head then exists e, eventAt uid head (tables d) = Some e /\ prev = e_hash e else prev = EmptyString)
      | Err _ => True end) as (Hs1 & Ht1 & Hprev).
  { destruct (0 <? head); [|unfold mret, M_ret in Hp; by inv_ok].
    apply bind_inv in Hp as (d2 & r2 & (Hs2 & Ht2 & Hr2)%select_inv & Hp).
    destruct r2 as [o|e]; [|by destruct Hp as [-> ->]]. destruct Hr2 as [[= ->]|[? [=]]].
    destruct (eventAt _ _ _) as [e|]; unfold mret, M_ret, throw in Hp; inv_ok; eauto. }
  destruct r1 as [prev|e]; [|destruct Hr as [-> ->]; split; [congruence|done]].
  apply bind_inv in Hr as (d2 & r2 & Hr2 & Hr). apply wrapErr_inv in Hr2 as (h0 & [-> ->]%lift_inv & ->).
  destruct (HashRecord _ _ _) as [h|e] eqn:Hh; [|destruct Hr as [-> ->]; split; [congruence|done]].
  apply bind_inv in Hr as (d3 & r3 & Hr3 & Hr). apply wrapErr_inv in Hr3 as (b0 & [-> ->]%lift_inv & ->).
  destruct (proto_Marshal _) as [b|e] eqn:Hb; [|destruct Hr as [-> ->]; split; [congruence|done]].
  apply bind_inv in Hr as (d4 & r4 & (Hs4 & Hr4)%stmt_inv & Hr).
  unfold insertEvent in Hr4. rewrite Ht1 in Hr4. cbn [e_session e_seq] in Hr4.
  destruct (eventAt uid (head + 1) (tables d)) eqn:Hat; simpl in Hr4.
  { destruct Hr4 as [[Ht4 ->]|[Ht4 [? ->]]]; destruct Hr as [-> ->]; split; congruence. }
  destruct Hr4 as [[Ht4 ->]|[Ht4 [? ->]]]; [|destruct Hr as [-> ->]; split; congruence].
  unfold mret, M_ret in Hr. inv_ok. split; [congruence|]. exists prev, h, b. naive_solver.
Qed.

(** What a committed append did: the guards it passed and the tables it left. *)
Record appended (uid : string) (exp f : Z) (ev : Event) (rec : Record_) (t t' : Tables) : Prop := {
  ap_kind : Kind ev <> EventParked;
  ap_delete : isMarker LifecycleDelete ev = false;
  ap_active : default DeletionActive (deletionOf uid t) = DeletionActive;
  ap_head : exp = headSeq uid t;
  ap_fence : fenceOf uid t <= f;
  ap_row : exists prev h b,
    (if 0 <? exp then exists e, eventAt uid exp t = Some e /\ prev = e_hash e else prev = EmptyString) /\
    HashRecord prev (exp + 1) ev = Ok h /\ proto_Marshal (EventToProto ev) = Ok b /\
    t_events t' = t_events t ++ [mkEventRow uid (exp + 1) prev h f b] /\
    rec = mkRecord (exp + 1) prev h f ev;
  ap_frame : session_frame uid t t';
  ap_kept : row_kept uid t t';
  ap_report : forall p, reports uid t p ->
    holds uid t' (reportStep (exp + 1) (EventFromProto (Some (EventToProto ev))) p);
}.

Lemma appendTx_inv project uid exp f ev d d' r t0 : Kind ev <> EventParked -> saved d = Some t0 -> tables d = t0 ->
  appendTx project uid exp f ev d = (d', r) ->
  match r with
  | Ok rec => saved d' = None /\ appended uid exp f ev rec t0 (tables d')
  | Err _ => saved d' = Some t0
  end.
Proof.
  intros Hkind Hs Ht. unfold appendTx. intros (d1 & r1 & (Hs1 & Ht1 & Hw)%checkWritable_inv & Hr)%bind_inv.
  destruct r1 as [[]|e]; [|destruct Hr as [-> ->]; congruence].
  destruct (isMarker LifecycleDelete ev) eqn:Hdel; [unfold throw in Hr; inv_ok; congruence|].
  apply bind_inv in Hr as (d2 & r2 & (Hs2 & Ht2 & Hr2)%select_inv & Hr).
  destruct r2 as [hd|e]; [|destruct Hr as [-> ->]; congruence]. destruct Hr2 as [[= ->]|[? [=]]].
  case (Z.eqb_spec exp (headSeq uid (tables d1))) as [Hexp|]; simpl in Hr; [|unfold throw in Hr; inv_ok; congruence].
  apply bind_inv in Hr as (d3 & r3 & (Hs3 & Ht3 & Hr3)%select_inv & Hr).
  destruct r3 as [cur|e]; [|destruct Hr as [-> ->]; congruence]. destruct Hr3 as [[= ->]|[? [=]]].
  destruct (Z.ltb_spec f (default 0 (s_fence <$> t_sessions (tables d2) !! uid))) as [|Hf];
    [unfold throw in Hr; inv_ok; congruence|].
  rewrite Ht2, Ht1 in *. subst exp t0.
  apply bind_inv in Hr as (d4 & r4 & Hr4 & Hr). unfold try in Hr4.
  destruct (appendRecord _ _ _ _ d3) as [d5 r5] eqn:Ha. inv_ok. apply appendRecord_inv in Ha as [Hs5 Ha].
  destruct r5 as [[rec pb]|e]; [|unfold throw in Hr; inv_ok; congruence].
  destruct Ha as (prev & h & b & Hprev & Hh & Hb & _ & Ht5 & -> & ->). rewrite Ht3 in Hprev, Ht5.
  apply bind_inv in Hr as (d6 & r6 & (Hs6 & H6)%touchSession_inv & Hr).
  destruct r6 as [[]|e]; [|destruct Hr as [-> ->]; congruence].
  apply bind_inv in Hr as (d7 & r7 & Hr7 & Hr). apply wrapErr_inv in Hr7 as (r0 & Hr7 & ->).
  pose proof (projectApproval_frame _ _ _ _ _ _ Hr7) as [Hs7 Hf7].
  destruct r0 as [[]|e]; [|destruct Hr as [-> ->]; congruence].
  apply bind_inv in Hr as (d8 & r8 & (Ht8 & Hr8)%Commit_inv & Hr).
  destruct r8 as [[]|e]; [|destruct Hr as [-> ->]; destruct Hr8 as [[[=] _]|[? _]]; congruence].
  destruct Hr8 as [[_ Hs8]|[_ [? [=]]]]. unfold mret, M_ret in Hr. inv_ok. split; [done|].
  destruct H6 as (Hfr & Hev & Hk & Hrep). rewrite Ht5 in Hfr, Hev, Hk, Hrep. rewrite Ht8. constructor; try done.
  - exists prev, h, b. split_and!; try done. rewrite (rf_events _ _ _ Hf7), Hev. done.
  - transitivity (setEvents (t_events (tables d) ++ [mkEventRow uid (headSeq uid (tables d) + 1) prev h f b]) (tables d)).
    + constructor; simpl; try done. intros u Hu. by apply sessionEvents_other.
    + etransitivity; [exact Hfr|by apply report_session_frame].
  - eapply report_row_kept; [|exact Hf7]. exact Hk.
  - intros p Hp. eapply projectApproval_step; [|exact Hr7]. apply Hrep. by destruct Hp.
Qed.

Lemma sql_Append_inv project uid exp f ev d d' r : saved d = None ->
  sql_Append project uid exp f ev d = (d', r) ->
  saved d' = None /\
  match r with
  | Ok rec => appended uid exp f ev rec (tables d) (tables d')
  | Err _ => tables d' = tables d
  end.
Proof.
  intros Hs. unfold sql_Append. case_bool_decide as Hk; [unfold throw; intros; by inv_ok|].
  intros (d1 & r1 & (Ht1 & Hr1)%Begin_inv & Hr)%bind_inv.
  destruct r1 as [[]|e]; [|destruct Hr as [-> ->]; destruct Hr1 as [[[=] _]|[? _]]; split; congruence].
  destruct Hr1 as [[_ Hs1]|[_ [? [=]]]]. apply deferRollback_inv in Hr as (d2 & Hr & ->).
  eapply appendTx_inv in Hr; [|done|exact Hs1|exact Ht1]. unfold Rollback. destruct r as [rec|e].
  - destruct Hr as [Hn Ha]. rewrite Hn. done.
  - by rewrite Hr.
Qed.
End SqlStore.

(** ** The journal of a session *)

(** A database at rest: no transaction is open, and every session counts its events 1, 2, ... *)
Definition tables_wf `{ProtoCodec} (t : Tables) : Prop := forall uid, contiguous 0 (journalOf uid t).
Definition db_wf `{ProtoCodec} (d : DB) : Prop := saved d = None /\ tables_wf (tables d).

Section journal.
Context `{Encoding} `{ProtoCodec}.

Lemma journalOf_events uid t t' : sessionEvents uid t' = sessionEvents uid t -> journalOf uid t' = journalOf uid t.
Proof. unfold journalOf. by intros ->. Qed.

Lemma headSeq_journal uid t : headSeq uid t = headOf (journalOf uid t).
Proof.
  rewrite headSeq_last. unfold headOf, journalOf.
  change (map rowRecord (sessionEvents uid t)) with (rowRecord <$> sessionEvents uid t).
  rewrite fmap_last. by destruct (list.last (sessionEvents uid t)).
Qed.

Lemma elem_of_sessionEvents uid t e : e ∈ sessionEvents uid t <-> e_session e = uid /\ e ∈ t_events t.
Proof. unfold sessionEvents. by rewrite elem_of_orderBy, list_elem_of_filter. Qed.

(** The row at the head is the last one, so its hash is what the next record links to. *)
Lemma eventAt_head uid t e : tables_wf t -> eventAt uid (headSeq uid t) t = Some e ->
  e_hash e = lastHash (journalOf uid t).
Proof.
  intros Hwf He. unfold eventAt in He. apply last_Some_elem_of, list_elem_of_filter in He as [[Hu Hq] He].
  assert (e ∈ sessionEvents uid t) as Hin by (by apply elem_of_sessionEvents).
  specialize (Hwf uid). rewrite headSeq_journal in Hq. unfold journalOf in *.
  destruct (sessionEvents uid t) as [|x l _] using rev_ind; [set_solver|].
  rewrite map_app in *. simpl in *. rewrite headOf_app in Hq. rewrite lastHash_app.
  apply elem_of_app in Hin as [Hin|Hin]; [|apply list_elem_of_singleton in Hin as ->; done].
  apply contiguous_app in Hwf as [Hc [Hx _]].
  assert (rowRecord e ∈ map rowRecord l) as Hr by (apply list_elem_of_In, in_map; by apply list_elem_of_In).
  pose proof (contiguous_bounds _ _ _ Hc Hr). simpl in *. lia.
Qed.

Lemma eventAt_some uid t : tables_wf t -> (0 <? headSeq uid t) = true -> eventAt uid (headSeq uid t) t <> None.
Proof.
  intros Hwf Hh Hn. unfold eventAt in Hn. apply last_None in Hn.
  rewrite headSeq_last in Hh, Hn. destruct (sessionEvents uid t) as [|e l _] eqn:E using rev_ind; [done|].
  rewrite last_snoc in Hn. simpl in Hn.
  assert (e ∈ sessionEvents uid t) as He by (rewrite E; set_solver).
  apply elem_of_sessionEvents in He as [Hu He].
  assert (e ∈ filter (fun e0 => e_session e0 = uid /\ e_seq e0 = e_seq e) (t_events t)) as Hin
    by (by apply list_elem_of_filter).
  rewrite Hn in Hin. set_solver.
Qed.

Lemma tables_wf_empty_head uid t : tables_wf t -> (0 <? headSeq uid t) = false -> journalOf uid t = [].
Proof.
  intros Hwf Hh. rewrite headSeq_journal in Hh. specialize (Hwf uid). rewrite contiguous_head in Hh by done.
  apply Z.ltb_ge in Hh. destruct (journalOf uid t); [done|]. cbn [length] in Hh. lia.
Qed.

Context `{Driver} `{!ProtoLaws}.

(** The form in which an appended event is read back. *)
Lemma rowRecord_marshal uid q prev h f ev b : proto_Marshal (EventToProto ev) = Ok b ->
  rowRecord (mkEventRow uid q prev h f b) = mkRecord q prev h f (EventFromProto (Some (EventToProto ev))).
Proof. intros Hb. unfold rowRecord, decode. simpl. by rewrite (unmarshal_marshal _ _ Hb). Qed.

Lemma appended_journal uid exp f ev rec t t' : tables_wf t -> appended uid exp f ev rec t t' ->
  exp = headOf (journalOf uid t) /\ fenceOf uid t <= f /\
  Seq rec = headOf (journalOf uid t) + 1 /\ PrevHash rec = lastHash (journalOf uid t) /\
  HashRecord (PrevHash rec) (Seq rec) ev = Ok (Hash rec) /\ Fence rec = f /\ rec_Event rec = ev /\
  journalOf uid t' = journalOf uid t ++ [setEvent (EventFromProto (Some (EventToProto ev))) rec].
Proof.
  intros Hwf [_ _ _ Hexp Hf Hrow _ _ _]. subst exp. destruct Hrow as (prev & h & b & Hp & Hh & Hb & He & ->). simpl.
  assert (prev = lastHash (journalOf uid t)) as ->.
  { destruct (0 <? headSeq uid t) eqn:E.
    - destruct Hp as (e & He0 & ->). by eapply eventAt_head.
    - subst prev. by rewrite (tables_wf_empty_head uid t). }
  rewrite <- headSeq_journal. split_and!; try done.
  unfold journalOf. replace (sessionEvents uid t') with
    (sessionEvents uid t ++ [mkEventRow uid (headSeq uid t + 1) (lastHash (journalOf uid t)) h f b]).
  - rewrite map_app. simpl. by rewrite (rowRecord_marshal _ _ _ _ _ ev).
  - pose proof (sessionEvents_snoc t (mkEventRow uid (headSeq uid t + 1) (lastHash (journalOf uid t)) h f b) eq_refl) as Hs.
    simpl in Hs. rewrite <- Hs. unfold sessionEvents. simpl. by rewrite He.
Qed.

Lemma appended_wf uid exp f ev rec t t' : tables_wf t -> appended uid exp f ev rec t t' -> tables_wf t'.
Proof.
  intros Hwf Ha u. destruct (decide (u = uid)) as [->|Hne].
  - apply appended_journal in Ha as (_ & _ & Hs & _ & _ & _ & _ & ->); [|done].
    apply contiguous_snoc; [done|]. done.
  - rewrite (journalOf_events u t t') by (by apply (sf_events _ _ _ (ap_frame _ _ _ _ _ _ _ Ha))). done.
Qed.

Lemma scanRows_Ok rows rs : scanRows rows = Ok rs -> rs = map rowRecord rows.
Proof.
  revert rs. induction rows as [|e rows IH]; intros rs Hr; simpl in Hr; [by inv_ok|].
  destruct (decode (e_event e)) as [ev|err] eqn:Hd; [|done].
  apply result_bind_Ok in Hr as (rs' & Hr & Hok). inv_ok. rewrite (IH _ Hr). simpl.
  unfold rowRecord at 2. by rewrite Hd.
Qed.

Lemma eventsFrom_filter uid from t :
  eventsFrom uid from t = filter (fun e => from <= e_seq e) (sessionEvents uid t).
Proof.
  unfold eventsFrom, sessionEvents. rewrite (filter_orderBy seqLeb), list_filter_filter. f_equal.
  apply list_filter_iff. intros e. tauto.
Qed.

Lemma readFrom_rows from rows : readFrom from (map rowRecord rows) = map rowRecord (filter (fun e => from <= e_seq e) rows).
Proof.
  induction rows as [|e rows IH]; [done|]. unfold readFrom in *. simpl. rewrite !filter_cons, IH. simpl.
  by destruct (decide (from <= e_seq e)).
Qed.

Lemma sql_Read_inv uid from d d' r : sql_Read uid from d = (d', r) ->
  saved d' = saved d /\ tables d' = tables d /\
  match r with Ok rs => rs = readFrom from (journalOf uid (tables d)) | Err _ => True end.
Proof.
  unfold sql_Read. intros (d1 & r1 & (Hs & Ht & Hr1)%select_inv & Hr)%bind_inv.
  destruct r1 as [rows|e]; [|by destruct Hr as [-> ->]]. destruct Hr1 as [[= ->]|[? [=]]].
  apply lift_inv in Hr as [-> Hr]. split_and!; try done. destruct r as [rs|e]; [|done].
  symmetry in Hr. apply scanRows_Ok in Hr as ->. unfold journalOf. by rewrite readFrom_rows, eventsFrom_filter.
Qed.

(** A new fence. *)
Lemma sql_NewFence_inv project uid d d' r : sql_NewFence project uid d = (d', r) ->
  saved d' = saved d /\
  match r with
  | Ok f => f = fenceOf uid (tables d) + 1 /\ fenceOf uid (tables d') = f /\
      default DeletionActive (deletionOf uid (tables d)) = DeletionActive /\
      deletionOf uid (tables d') = Some DeletionActive /\
      t_events (tables d') = t_events (tables d) /\ session_frame uid (tables d) (tables d')
  | Err _ => tables d' = tables d
  end.
Proof.
  unfold sql_NewFence. intros (d1 & r1 & (Hs1 & Ht1 & ->)%now_inv & Hr)%bind_inv.
  apply bind_inv in Hr as (d2 & r2 & (Hs2 & Hr2)%stmt_inv & Hr). rewrite Ht1 in Hr2.
  split; [destruct r2 as [[f|]|]; unfold mret, M_ret, throw in Hr; [| |destruct Hr as [-> ->]]; inv_ok; congruence|].
  destruct Hr2 as [[Ht2 Hr2]|[Ht2 [e ->]]]; [|by destruct Hr as [-> ->]].
  unfold upsertFence, deletionOf, fenceOf in *. destruct (t_sessions (tables d) !! uid) as [s|] eqn:Es; simpl.
  - case_bool_decide as Hd; simpl in *; subst r2; unfold mret, M_ret, throw in Hr; inv_ok; [|done].
    rewrite Ht2. simpl. rewrite lookup_insert_eq. simpl. split_and!; try done; [by f_equal|apply setSessions_frame].
  - simpl in *. subst r2. unfold mret, M_ret in Hr. inv_ok. rewrite Ht2. simpl. rewrite lookup_insert_eq.
    split_and!; try done. apply setSessions_frame.
Qed.
End journal.

(** ** The log of one session as a Store *)

(** The in-memory log a session's rows stand for. *)
Definition absLog `{ProtoCodec} (uid : string) (t : Tables) : Log := mkLog (journalOf uid t) (fenceOf uid t).

Section Store.
Context `{Encoding} `{ProtoCodec} `{Driver} `{!ProtoLaws}.
Variables (project uid : string).

Lemma sql_Append_wf exp f ev d : db_wf d -> db_wf (fst (sql_Append project uid exp f ev d)).
Proof.
  intros [Hs Hwf]. destruct (sql_Append _ _ _ _ _ d) as [d' r] eqn:E.
  apply sql_Append_inv in E as [Hs' Ha]; [|done]. split; [done|]. simpl.
  destruct r; [by eapply appended_wf|by rewrite Ha].
Qed.

Lemma sql_Read_wf from d : db_wf d -> db_wf (fst (sql_Read uid from d)).
Proof.
  intros [Hs Hwf]. destruct (sql_Read _ _ d) as [d' r] eqn:E.
  apply sql_Read_inv in E as (Hs' & Ht & _). split; simpl; [congruence|by rewrite Ht].
Qed.

Lemma sql_Head_wf d : db_wf d -> db_wf (fst (sql_Head uid d)).
Proof.
  intros [Hs Hwf]. destruct (sql_Head _ d) as [d' r] eqn:E.
  apply select_inv in E as (Hs' & Ht & _). split; simpl; [congruence|by rewrite Ht].
Qed.

Lemma sql_NewFence_wf d : db_wf d -> db_wf (fst (sql_NewFence project uid d)).
Proof.
  intros [Hs Hwf]. destruct (sql_NewFence _ _ d) as [d' r] eqn:E.
  apply sql_NewFence_inv in E as [Hs' Hr]. split; simpl; [congruence|].
  destruct r; [|by rewrite Hr]. intros u. destruct Hr as (_&_&_&_&He&_).
  rewrite (journalOf_events u (tables d)) by (unfold sessionEvents; by rewrite He). apply Hwf.
Qed.

Lemma sql_CheckWritable_wf d : db_wf d -> db_wf (fst (sql_CheckWritable uid d)).
Proof.
  intros [Hs Hwf]. destruct (sql_CheckWritable _ d) as [d' r] eqn:E.
  apply checkWritable_inv in E as (Hs' & Ht & _). split; simpl; [congruence|by rewrite Ht].
Qed.

Lemma sql_Verify_wf d : db_wf d -> db_wf (fst (sql_Verify uid d)).
Proof.
  intros Hwf. pose proof (sql_Read_wf 1 d Hwf) as Hr. unfold sql_Verify, mbind, M_bind.
  destruct (sql_Read uid 1 d) as [d' [rs|e]]; simpl in *; [|done].
  unfold check. by destruct (sqlVerifyFrom _ _).
Qed.

(** A database at rest, as the state of a [Store]. *)
Definition SqlState : Type := { d : DB | db_wf d }.

Definition onState {A} (m : M DB goerr A) (Hm : forall d, db_wf d -> db_wf (fst (m d))) : M SqlState goerr A :=
  fun s => (exist _ (fst (m (proj1_sig s))) (Hm _ (proj2_sig s)), snd (m (proj1_sig s))).

Definition SqlState_Store : Store SqlState := {|
  st_Append := fun exp f ev => onState (sql_Append project uid exp f ev) (sql_Append_wf exp f ev);
  st_Head := onState (sql_Head uid) sql_Head_wf;
  st_NewFence := onState (sql_NewFence project uid) sql_NewFence_wf;
  st_Read := fun from => onState (sql_Read uid from) (sql_Read_wf from);
  st_Verify := onState (sql_Verify uid) sql_Verify_wf;
  st_CheckWritable := onState (sql_CheckWritable uid) sql_CheckWritable_wf;
|}.

Definition SqlState_View : StoreView SqlState := {|
  journal := fun s => journalOf uid (tables (proj1_sig s));
  curFence := fun s => fenceOf uid (tables (proj1_sig s));
  persisted := fun ev => EventFromProto (Some (EventToProto ev));
|}.

Lemma onState_inv {A} (m : M DB goerr A) Hm s s' r : onState m Hm s = (s', r) ->
  m (proj1_sig s) = (proj1_sig s', r).
Proof. unfold onState. intros; inv_ok. simpl. apply surjective_pairing. Qed.

Lemma journalOf_append_fence exp f ev rec t t' : appended uid exp f ev rec t t' -> fenceOf uid t' = fenceOf uid t.
Proof. intros Ha. apply row_kept_fence, (ap_kept _ _ _ _ _ _ _ Ha). Qed.

Lemma SqlState_laws : @StoreLaws SqlState SqlState_Store SqlState_View.
Proof.
  constructor; simpl.
  - intros exp f ev s s' r E%onState_inv. destruct (proj2_sig s) as [Hs Hwf].
    apply sql_Append_inv in E as [_ Ha]; [|done]. destruct r as [rec|e]; [|by rewrite Ha].
    split; [by eapply journalOf_append_fence|].
    apply appended_journal in Ha as (? & ? & ? & ? & _ & ? & ? & ?); naive_solver.
  - intros s s' r (_ & -> & Hr)%onState_inv%select_inv. split_and!; try done.
    destruct r; [|done]. rewrite <- headSeq_journal. naive_solver.
  - intros s s' r (_ & Hr)%onState_inv%sql_NewFence_inv. destruct r as [f|e]; [|by rewrite Hr].
    destruct Hr as (-> & Hf & _ & _ & He & _). split; [|done].
    apply journalOf_events. unfold sessionEvents. by rewrite He.
  - intros from s s' r (_ & -> & Hr)%onState_inv%sql_Read_inv. done.
  - intros s s' r (_ & -> & _)%onState_inv%checkWritable_inv. done.
Qed.

(** ** Agreement with the in-memory log *)

(** The events an active session takes, and that can be encoded. *)
Definition ordinary (d : DB) (ev : Event) : Prop :=
  Kind ev <> EventParked /\ isMarker LifecycleDelete ev = false /\
  default DeletionActive (deletionOf uid (tables d)) = DeletionActive /\
  (exists h, HashRecord (lastHash (journalOf uid (tables d))) (headOf (journalOf uid (tables d)) + 1) ev = Ok h) /\
  (exists b, proto_Marshal (EventToProto ev) = Ok b).

Lemma checkWritable_free d : faultFree -> default DeletionActive (deletionOf uid (tables d)) = DeletionActive ->
  exists d', checkWritable uid d = (d', Ok tt) /\ tables d' = tables d /\ saved d' = saved d.
Proof.
  intros Hfree Ha. unfold checkWritable, wrapErr, mbind, M_bind.
  destruct (select_free Hfree (deletionOf uid) d) as (d1 & -> & Ht & Hs). exists d1. split; [|done].
  destruct (deletionOf uid (tables d)) as [st|]; [|done]. simpl in Ha. subst st. by rewrite bool_decide_eq_true_2.
Qed.

Lemma appendRecord_free f ev d : faultFree -> tables_wf (tables d) -> ordinary d ev ->
  exists d' rec, appendRecord uid (headSeq uid (tables d)) f ev d = (d', Ok (rec, EventToProto ev)) /\ saved d' = saved d.
Proof.
  intros Hfree Hwf (_ & _ & _ & [h Hh] & [b Hb]).
  unfold appendRecord.
  assert (exists d1, (if 0 <? headSeq uid (tables d) then
      let! row := select (eventAt uid (headSeq uid (tables d))) in
      match row with Some e => mret (e_hash e) | None => throw (EText "sql: no rows in result set") end
    else mret EmptyString) d = (d1, Ok (lastHash (journalOf uid (tables d)))) /\ tables d1 = tables d /\ saved d1 = saved d)
    as (d1 & E1 & Ht1 & Hs1).
  { destruct (0 <? headSeq uid (tables d)) eqn:E; [|exists d; by rewrite tables_wf_empty_head].
    unfold mbind, M_bind. destruct (select_free Hfree (eventAt uid (headSeq uid (tables d))) d) as (d1 & -> & Ht & Hs).
    exists d1. split; [|done]. destruct (eventAt _ _ _) as [e|] eqn:Ea.
    - by rewrite (eventAt_head uid (tables d) e Hwf Ea).
    - exfalso. by eapply eventAt_some. }
  unfold mbind at 1, M_bind at 1. rewrite E1.
  unfold wrapErr, lift, mbind, M_bind. rewrite headSeq_journal in *. rewrite Hh, Hb. simpl.
  destruct (stmt_free Hfree (insertEvent (mkEventRow uid (headOf (journalOf uid (tables d)) + 1)
    (lastHash (journalOf uid (tables d))) h f b)) d1) as (d2 & -> & _ & Hs2).
  unfold insertEvent. simpl. rewrite Ht1, <- headSeq_journal, eventAt_fresh. simpl.
  eexists d2, _. split; [done|congruence].
Qed.

Lemma touchSession_succeeds ev : faultFree -> succeeds (touchSession project uid ev).
Proof. intros Hfree. unfold touchSession. destruct (eventComputeState ev). run_free. Qed.

(** Without driver faults the answer to an ordinary event is the in-memory log's. *)
Lemma sql_Append_free exp f ev d : faultFree -> db_wf d -> ordinary d ev ->
  snd (sql_Append project uid exp f ev d) = snd (Append exp f ev (absLog uid (tables d))).
Proof.
  intros Hfree [Hs Hwf] Ho. pose proof Ho as (Hk & Hd & Ha & [h Hh] & _).
  destruct (sql_Append project uid exp f ev d) as [d' r] eqn:E.
  pose proof E as Hinv. apply sql_Append_inv in Hinv as [_ Hinv]; [|done]. simpl.
  unfold sql_Append in E. rewrite bool_decide_eq_false_2 in E by done.
  destruct (Begin_free Hfree d) as (d1 & EB & Ht1 & Hs1). unfold mbind at 1, M_bind at 1 in E. rewrite EB in E.
  unfold deferRollback in E. destruct (appendTx project uid exp f ev d1) as [d2 r2] eqn:E2. inv_ok.
  unfold appendTx in E2.
  destruct (checkWritable_free d1 Hfree) as (d3 & EC & Ht3 & Hs3); [by rewrite Ht1|].
  unfold mbind at 1, M_bind at 1 in E2. rewrite EC, Hd in E2.
  unfold mbind at 1, M_bind at 1 in E2. destruct (select_free Hfree (headSeq uid) d3) as (d4 & ES & Ht4 & Hs4).
  rewrite ES in E2. unfold Append, Head, absLog. simpl. rewrite <- headSeq_journal.
  assert (tables d4 = tables d) as Ht by congruence. assert (tables d3 = tables d) as Ht3' by congruence.
  rewrite Ht3' in E2. destruct (Z.eqb_spec exp (headSeq uid (tables d))) as [->|]; cbn [negb] in *;
    [|unfold throw in E2; by inv_ok].
  unfold mbind at 1, M_bind at 1 in E2.
  destruct (select_free Hfree (fun t => s_fence <$> t_sessions t !! uid) d4) as (d5 & ES5 & Ht5 & Hs5).
  rewrite ES5, Ht in E2. unfold fenceOf. destruct (Z.ltb_spec f (default 0 (s_fence <$> t_sessions (tables d) !! uid)));
    [unfold throw in E2; by inv_ok|].
  assert (tables d5 = tables d) as Ht5' by congruence.
  destruct (appendRecord_free f ev d5 Hfree) as (d6 & rec & EA & Hs6);
    [by rewrite Ht5'|unfold ordinary in *; by rewrite Ht5'|].
  rewrite Ht5' in EA. unfold mbind at 1, M_bind at 1, try in E2. rewrite EA in E2.
  assert (succeeds (do! touchSession project uid ev in
    do! wrapErr "sqlitelog: project approval seq"
          (projectApproval uid (Seq rec) (EventFromProto (Some (EventToProto ev)))) in
    do! Commit in mret rec)) as Hsucc.
  { apply succeeds_bind; [by apply touchSession_succeeds|run_free].
    - by apply projectApproval_succeeds.
    - intros dc. destruct (Commit_free Hfree dc) as (dc' & EC' & _). eauto. }
  destruct (Hsucc d6) as (d7 & rec' & E7). rewrite E7 in E2. inv_ok. 
  apply appended_journal in Hinv as (_ & _ & Hq & Hp & HH & Hf & He & _); [|done].
  rewrite <- headSeq_journal in Hq. rewrite Hq, Hp in HH. rewrite HH. simpl.
  f_equal. destruct rec'. simpl in *. congruence.
Qed.
End Store.

Lemma sqlVerifyFrom_None `{Encoding} prev rs : sqlVerifyFrom prev rs = None <-> verifyFrom prev rs = None.
Proof.
  revert prev. induction rs as [|r rs IH]; intros prev; simpl; [done|].
  destruct (bool_decide (PrevHash r = prev)); simpl; [|done]. destruct (HashRecord _ _ _) as [w|]; [|done].
  destruct (bool_decide (Hash r = w)); simpl; [apply IH|done].
Qed.

Lemma sql_Verify_inv `{Encoding} `{ProtoCodec} `{Driver} uid d d' : tables_wf (tables d) ->
  sql_Verify uid d = (d', Ok tt) -> verifyFrom EmptyString (journalOf uid (tables d)) = None.
Proof.
  intros Hwf (d1 & r1 & (_ & _ & Hr1)%sql_Read_inv & Hr)%bind_inv.
  destruct r1 as [rs|e]; [|by destruct Hr]. unfold check in Hr. subst rs.
  rewrite (contiguous_readFrom_all _ 0) in Hr by (done || apply Hwf).
  destruct (sqlVerifyFrom _ _) eqn:E; [discriminate|]. by apply sqlVerifyFrom_None.
Qed.

Lemma sql_NewFence_log `{Encoding} `{ProtoCodec} `{Driver} project uid d d' r :
  sql_NewFence project uid d = (d', r) ->
  session_frame uid (tables d) (tables d') /\
  match r with
  | Ok f => NewFence (absLog uid (tables d)) = (absLog uid (tables d'), f)
  | Err _ => tables d' = tables d
  end.
Proof.
  intros [_ Hr]%sql_NewFence_inv. destruct r as [f|e]; [|by rewrite Hr].
  destruct Hr as (-> & Hf & _ & _ & He & Hfr). split; [done|]. unfold NewFence, absLog. simpl.
  by rewrite Hf, (journalOf_events uid (tables d') (tables d)) by (unfold sessionEvents; by rewrite He).
Qed.

(** The database, at rest and empty. *)
Definition emptyDB : DB := mkDB emptyTables None 0.

Lemma emptyDB_wf `{ProtoCodec} : db_wf emptyDB.
Proof. by split. Qed.

(** ** Properties *)

(** C11: The handle of a session satisfies the [Store] contract, and step by step it is the in-memory log:
    a successful Append, NewFence, Read or Verify is that operation of [Log] on the session's rows
    (the event stored in its wire form), a failed one, at whatever statement the driver fails, leaves
    the tables as they were, other sessions never notice, and when the driver does not fail an
    ordinary event gets exactly the in-memory answer, errors included. *)
Theorem sqlite_log_refines `{Encoding} `{ProtoCodec} `{Driver} `{!ProtoLaws} project uid :
  @StoreLaws SqlState (SqlState_Store project uid) (SqlState_View uid) /\
  forall d, db_wf d -> let l := absLog uid (tables d) in
    (forall exp f ev d' r, sql_Append project uid exp f ev d = (d', r) ->
       db_wf d' /\ session_frame uid (tables d) (tables d') /\
       match r with
       | Ok rec =>
           Append exp f ev l = (mkLog (records l ++ [rec]) (log_fence l), Ok rec) /\
           absLog uid (tables d') =
             mkLog (records l ++ [setEvent (EventFromProto (Some (EventToProto ev))) rec]) (log_fence l)
       | Err _ => tables d' = tables d
       end /\
       (faultFree -> ordinary uid d ev -> r = snd (Append exp f ev l))) /\
    (forall d' r, sql_NewFence project uid d = (d', r) ->
       session_frame uid (tables d) (tables d') /\
       match r with
       | Ok f => NewFence l = (absLog uid (tables d'), f)
       | Err _ => tables d' = tables d
       end) /\
    (forall from d' r, sql_Read uid from d = (d', r) ->
       tables d' = tables d /\ match r with Ok rs => rs = Read l from | Err _ => True end) /\
    (forall d', sql_Verify uid d = (d', Ok tt) -> Verify l = None).
Proof.
  split; [apply SqlState_laws|]. intros d Hwf l. split_and!.
  - intros exp f ev d' r E.
    pose proof (sql_Append_wf project uid exp f ev d Hwf) as Hwf'. rewrite E in Hwf'.
    split; [done|]. pose proof E as [_ Ha]%sql_Append_inv; [|apply Hwf]. split_and!.
    + destruct r; [apply (ap_frame _ _ _ _ _ _ _ Ha)|by rewrite Ha].
    + destruct r as [rec|e]; [|done]. pose proof (journalOf_append_fence _ _ _ _ _ _ _ Ha) as Hfe.
      apply appended_journal in Ha as (-> & Hf & Hq & Hp & HH & <- & <- & Hj); [|apply Hwf].
      split; [|unfold absLog; by rewrite Hfe, Hj].
      assert (rec = mkRecord (Seq rec) (PrevHash rec) (Hash rec) (Fence rec) (rec_Event rec)) as Hrec by (by destruct rec).
      apply Append_Ok. exists (Hash rec). unfold Head, l, absLog. simpl. rewrite <- Hq, <- Hp. done.
    + intros Hfree Ho. pose proof (sql_Append_free project uid exp f ev d Hfree Hwf Ho) as Hf. by rewrite E in Hf.
  - intros d' r. apply sql_NewFence_log.
  - intros from d' r (_ & Ht & Hr)%sql_Read_inv. done.
  - intros d' E. eapply sql_Verify_inv; [apply Hwf|exact E].
Qed.

Definition exampleAppend (expectedLastSeq f : Z) (ev : Event) (d : DB) : DB * res Record_ :=
  sql_Append (H := exampleEncoding) (H2 := exampleCodec) (H3 := exampleDriver) "default" "s" expectedLastSeq f ev d.

(** A database with one committed event. *)
Definition exampleDB : DB := fst (exampleAppend 0 0 hiEvent emptyDB).

Lemma exampleDB_wf : db_wf (H1 := exampleCodec) exampleDB.
Proof. apply sql_Append_wf, emptyDB_wf. Qed.

Lemma sqlite_log_refines_witness :
  snd (exampleAppend 1 1 hiEvent exampleDB)
  = snd (Append (H := exampleEncoding) 1 1 hiEvent (absLog (H1 := exampleCodec) "s" (tables exampleDB))) /\
  Seq <$> records (absLog (H1 := exampleCodec) "s" (tables exampleDB)) = [1].
Proof.
  split; [|vm_compute; reflexivity].
  destruct (proj2 (sqlite_log_refines (H := exampleEncoding) (H2 := exampleCodec) (H3 := exampleDriver) "default" "s")
    exampleDB exampleDB_wf) as [Happ _].
  destruct (Happ 1 1 hiEvent _ _ (surjective_pairing _)) as (_ & _ & _ & Hsame).
  unfold exampleAppend. apply Hsame.
  - intros n. reflexivity.
  - split_and!; [vm_compute; discriminate|vm_compute; reflexivity..| |]; eexists; vm_compute; reflexivity.
Defined.
