(* ===== verification/SqlSessions.v ===== *)
(** * Package sqlitelog: session metadata, listing and deletion (sqlitelog/sessions.go, deletion.go)

    The page cursor is computed: base64 without padding, decimal text, the NUL separator; the
    second part is its round trip. *)
From S2P Require Import Prelude GoErrors Api Canon EventLog Executions Harness Wire Tables Projection SqlLog.
From stdpp Require Import sorting.
#[local] Open Scope Z_scope.

Definition DefaultProject : string := "default".
Definition DefaultPageSize : Z := 50.
Definition MaxPageSize : Z := 500.

(** [SessionMeta]; [None] is the zero [time.Time]. *)
Record SessionMeta := mkSessionMeta {
  UID : string; Project : string; Name : string; sm_Harness : string; sm_Model : string;
  ParentUID : string; ForkSeq : Z;
  CreatedAt : option Z; UpdatedAt : option Z;
  Labels : string; Annotations : string; Origin : string; Identity : string;
}.

Record SessionInfo := mkSessionInfo {
  si_Meta : SessionMeta;
  LastSeq : Z;
  si_ComputeState : ComputeState;
  si_DeletionState : DeletionState;
  DeletionRequestedAt : option Z;
  DeletionSeq : Z;
  PendingApproval : ApprovalRef;
}.

Definition noApproval : ApprovalRef := mkApprovalRef EmptyString EmptyString 0.

(** ** Metadata *)

(** The row an INSERT of [putSession] makes, and its ON CONFLICT update; no row changes when the WHERE
    of the update does not hold. [at_] is now, [created] the time to record. *)
Definition putRow (m : SessionMeta) (project : string) (created at_ : Z) (explicitCreated : bool)
    (t : Tables) : Tables * res Z :=
  let fill (fence : Z) (state : ComputeState) (created_at : Z) (r : ReportCols) (c : DeletionCols) :=
    mkSessionRow fence project (Name m) (sm_Harness m) (sm_Model m) (ParentUID m) (ForkSeq m) state
      created_at at_ (Labels m) (Annotations m) (Origin m) (Identity m) r c in
  match t_sessions t !! UID m with
  | None =>
      (setSessions (<[UID m := fill 0 ComputeNone created defaultReport defaultDeletion]> (t_sessions t)) t, Ok 1)
  | Some s =>
      if bool_decide (deletion_state (s_deletion s) = DeletionActive)
      then
        (setSessions (<[UID m := fill (s_fence s) (s_compute_state s)
           (if explicitCreated || (s_created_at s =? 0) then created else s_created_at s)
           (s_report s) (s_deletion s)]> (t_sessions t)) t, Ok 1)
      else (t, Ok 0)
  end.

(** What [sessionSelect] returns for a row. *)
Record SelectedRow := mkSelectedRow {
  sel_uid : string;
  sel_row : SessionRow;
  sel_head : Z;
  sel_request : Z;
  sel_execution : string;
  sel_call : string;
}.

(** The CASE that reports a pending request; a missing execution row makes it 0. *)
Definition reportable (s : SessionRow) (head : Z) (exec : string) (a : ApprovalRow) : bool :=
  let r := s_report s in
  (last_seq r =? head) && negb (approval_corrupt r) && (invalid_approval_executions r =? 0)
  && negb (bool_decide (exec = EmptyString)) && (reporting_fork_seq r <? callSeq a) && negb (invalid a)
  && negb (completed a) && negb (receipt a) && (0 <? requestSeq a) && (decisionSeq a =? 0)
  && (negb (hasStart a)
      || match expectedInputs a with
         | Some n => (0 <=? n) && (inputs a =? messages a) && (inputs a =? n)
         | None => false
         end).

(** [sessionSelect] on one row of [sessions]. *)
Definition sessionSelect (t : Tables) (uid : string) (s : SessionRow) : SelectedRow :=
  let exec := latest_execution (s_report s) in
  let head := headSeq uid t in
  match t_executions t !! (uid, exec) with
  | Some a => mkSelectedRow uid s head (if reportable s head exec a then requestSeq a else 0) exec (callID a)
  | None => mkSelectedRow uid s head 0 EmptyString EmptyString
  end.

(** [scanSession]. *)
Definition scanSession (r : SelectedRow) : SessionInfo :=
  let s := sel_row r in
  mkSessionInfo
    (mkSessionMeta (sel_uid r) (s_project s) (s_name s) (s_harness s) (s_model s) (s_parent_uid s)
       (s_fork_seq s) (Some (s_created_at s)) (Some (s_updated_at s)) (s_labels s) (s_annotations s)
       (s_origin s) (s_identity s))
    (sel_head r)
    (if bool_decide (s_compute_state s = ComputeStateOther EmptyString) then ComputeNone else s_compute_state s)
    (deletion_state (s_deletion s))
    (if deletion_requested_at (s_deletion s) =? 0 then None else Some (deletion_requested_at (s_deletion s)))
    (deletion_seq (s_deletion s))
    (if sel_request r =? 0 then noApproval
     else mkApprovalRef (sel_execution r) (sel_call r) (sel_request r)).

Definition selectSession (uid : string) (t : Tables) : option SessionInfo :=
  (fun s => scanSession (sessionSelect t uid s)) <$> t_sessions t !! uid.

(** ** Page cursors *)

(** base64, URL alphabet, no padding. *)
Definition b64Char (d : Z) : ascii :=
  ascii_of_nat (Z.to_nat (if d <? 26 then 65 + d else if d <? 52 then 71 + d else if d <? 62 then d - 4
                          else if d =? 62 then 45 else 95)).
Definition b64Digit (c : Z) : option Z :=
  if (65 <=? c) && (c <=? 90) then Some (c - 65)
  else if (97 <=? c) && (c <=? 122) then Some (c - 71)
  else if (48 <=? c) && (c <=? 57) then Some (c + 4)
  else if c =? 45 then Some 62
  else if c =? 95 then Some 63
  else None.

Fixpoint b64Encode (bs : list Z) : string :=
  match bs with
  | [] => EmptyString
  | [a] => String (b64Char (a / 4)) (String (b64Char (a mod 4 * 16)) EmptyString)
  | [a; b] => String (b64Char (a / 4)) (String (b64Char (a mod 4 * 16 + b / 16))
                (String (b64Char (b mod 16 * 4)) EmptyString))
  | a :: b :: c :: bs' =>
      String (b64Char (a / 4)) (String (b64Char (a mod 4 * 16 + b / 16))
        (String (b64Char (b mod 16 * 4 + c / 64)) (String (b64Char (c mod 64)) (b64Encode bs'))))
  end.

(** The decoder skips line breaks, and does not check the unused bits of the last digit. *)
Fixpoint b64Quads (ds : list Z) : option (list Z) :=
  match ds with
  | [] => Some []
  | [_] => None
  | [a; b] => Some [a * 4 + b / 16]
  | [a; b; c] => Some [a * 4 + b / 16; b mod 16 * 16 + c / 4]
  | a :: b :: c :: d :: ds' =>
      bs ← b64Quads ds'; Some (a * 4 + b / 16 :: b mod 16 * 16 + c / 4 :: c mod 4 * 64 + d :: bs)
  end.
Definition b64Decode (s : string) : option (list Z) :=
  ds ← mapM b64Digit (filter (fun c => c <> 10 /\ c <> 13) (bytesOf s)); b64Quads ds.

(** [strings.Cut(s, "\x00")] on bytes. *)
Fixpoint cutNul (bs : list Z) : option (list Z * list Z) :=
  match bs with
  | [] => None
  | b :: bs' =>
      if b =? 0 then Some ([], bs')
      else match cutNul bs' with Some (before, after) => Some (b :: before, after) | None => None end
  end.

(** [strconv.ParseInt(s, 10, 64)] on bytes. *)
Definition digitValue (b : Z) : option Z := if (48 <=? b) && (b <=? 57) then Some (b - 48) else None.
Definition parseDigits (bs : list Z) : option Z :=
  match bs with
  | [] => None
  | _ => ds ← mapM digitValue bs; Some (foldl (fun acc d => 10 * acc + d) 0 ds)
  end.
Definition ParseInt (bs : list Z) : option Z :=
  n ← match bs with
      | 45 :: bs' => Z.opp <$> parseDigits bs'
      | 43 :: bs' => parseDigits bs'
      | _ => parseDigits bs
      end;
  if (- 2 ^ 63 <=? n) && (n <? 2 ^ 63) then Some n else None.

Definition encodeCursor (createdAt : Z) (uid : string) : string :=
  b64Encode (bytesOf (FormatInt createdAt) ++ [0] ++ bytesOf uid).

Definition decodeCursor (token : string) : res (Z * string) :=
  let bad := EWrap "page token" (ESentinel ErrInvalidPageToken) in
  match b64Decode token with
  | None => Err bad
  | Some raw =>
      match cutNul raw with
      | None => Err bad
      | Some (createdAt, uid) =>
          match ParseInt createdAt with
          | None => Err bad
          | Some nanos => Ok (nanos, stringOf uid)
          end
      end
  end.

(** ** Listing *)

Record ListOptions := mkListOptions { lo_Project : string; PageSize : Z; PageToken : string }.
Record SessionPage := mkSessionPage { Sessions : list SessionInfo; NextPageToken : string }.

(** ORDER BY created_at DESC, session ASC. *)
Definition listLeb (a b : string * SessionRow) : bool :=
  (s_created_at (snd b) <? s_created_at (snd a))
  || ((s_created_at (snd a) =? s_created_at (snd b)) && String.leb (fst a) (fst b)).

(** The WHERE of a listing: [after] is the cursor. *)
Definition listed (project : string) (after : option (Z * string)) (r : string * SessionRow) : Prop :=
  s_project (snd r) = project /\ deletion_state (s_deletion (snd r)) = DeletionActive /\
  match after with
  | None => True
  | Some (createdAt, uid) =>
      s_created_at (snd r) < createdAt \/ (s_created_at (snd r) = createdAt /\ String.ltb uid (fst r) = true)
  end.
#[export] Instance listed_dec project after r : Decision (listed project after r).
Proof. unfold listed. destruct after as [[c u]|]; apply _. Defined.

Definition listRows (project : string) (after : option (Z * string)) (t : Tables) : list (string * SessionRow) :=
  orderBy listLeb (filter (listed project after) (map_to_list (t_sessions t))).

(** The scan loop: the row after a full page gives the token of the page's last row. *)
Fixpoint pageLoop (size : nat) (rows : list SelectedRow) (acc : list SessionInfo) : SessionPage :=
  match rows with
  | [] => mkSessionPage acc EmptyString
  | r :: rows' =>
      if Nat.eqb (length acc) size
      then mkSessionPage acc
             match list.last acc with
             | Some last => encodeCursor (default 0 (CreatedAt (si_Meta last))) (UID (si_Meta last))
             | None => EmptyString
             end
      else pageLoop size rows' (acc ++ [scanSession r])
  end.

Definition pageSize (n : Z) : Z :=
  if n <=? 0 then DefaultPageSize else if MaxPageSize <? n then MaxPageSize else n.

Section SqlSessions.
Context `{Encoding} `{ProtoCodec} `{Driver}.
Variable defaultProject : string.

(** The project a caller that names none means. *)
Definition projectOr (p : string) : string :=
  let p := if bool_decide (p = EmptyString) then defaultProject else p in
  if bool_decide (p = EmptyString) then DefaultProject else p.

(** [putSession]. *)
Definition putSession (m : SessionMeta) : M DB goerr unit :=
  if bool_decide (UID m = EmptyString) then throw (EText "sqlitelog: session metadata requires a uid")
  else
    let! at_ := now in
    let created := default at_ (CreatedAt m) in
    let! changed := wrapErr "sqlitelog: put session"
      (stmt (putRow m (projectOr (Project m)) created at_ (bool_decide (is_Some (CreatedAt m))))) in
    if changed =? 0 then throw (EWrap "sqlitelog: put session" (ESentinel ErrDeleted)) else mret tt.

(** [Store.PutSession]: the upsert alone. *)
Definition PutSession (m : SessionMeta) : M DB goerr unit := putSession m.

(** [Store.SessionInfo]. *)
Definition SessionInfo_ (uid : string) : M DB goerr SessionInfo :=
  let! info := wrapErr "sqlitelog: get session" (select (selectSession uid)) in
  match info with
  | None => throw (EWrap "session" (ESentinel ErrSessionNotFound))
  | Some i => mret i
  end.

(** [Store.ListSessions]. *)
Definition ListSessions (opts : ListOptions) : M DB goerr SessionPage :=
  let project := projectOr (lo_Project opts) in
  let size := pageSize (PageSize opts) in
  let! after := (if bool_decide (PageToken opts = EmptyString) then mret None
                 else let! c := lift (decodeCursor (PageToken opts)) in mret (Some c)) in
  let! rows := wrapErr "sqlitelog: list sessions"
    (select (fun t => map (fun r => sessionSelect t (fst r) (snd r))
                        (take (Z.to_nat (size + 1)) (listRows project after t)))) in
  mret (pageLoop (Z.to_nat size) rows []).

(** ** Deletion *)

(** The context of a deletion: what [ctx.Err()] answers. *)
Variable ctxErr : nat -> option Sentinel.

Definition ctx_Err : M DB goerr (option Sentinel) := fun d =>
  (mkDB (tables d) (saved d) (S (ticks d)), Ok (ctxErr (ticks d))).

(** [fail(phase, err)]. *)
Definition deleteFail {A} (phase : string) (err : goerr) : M DB goerr A :=
  let! cause := ctx_Err in
  let err := match cause with
    | Some c => if errors_Is err c then err else EJoin "joined" [err; ESentinel c]
    | None => err
    end in
  throw (EWrap "sqlitelog: delete session" (EWrap phase err)).

(** [x, err := m; if err != nil { return fail(phase, err) }]. *)
Definition orFail {A} (phase : string) (m : M DB goerr A) : M DB goerr A :=
  let! r := try m in
  match r with Ok a => mret a | Err e => deleteFail phase e end.

(** [txSessionInfo]. *)
Definition txSessionInfo (uid : string) : M DB goerr SessionInfo :=
  let! info := select (selectSession uid) in
  match info with
  | None => throw (EWrap "session" (ESentinel ErrSessionNotFound))
  | Some i => mret i
  end.

(** The intent a deletion commits. *)
Definition deleteEvent (at_ : Z) : Event :=
  mkEvent EmptyString (Some at_) 1 EventLifecycle None None None None None None None
    (Some (mkLifecycle LifecycleDelete EmptyString None)) None None None None zeroIdentity.

(** [UPDATE sessions SET deletion_state = ?, ...]. *)
Definition markDeleted (at_ lastSeq : Z) (rec : Record_) (s : SessionRow) : SessionRow :=
  let r := s_report s in
  setDeletion (mkDeletionCols DeletionPending at_ (deletion_completed_at (s_deletion s)) (Seq rec))
    (setReport (mkReportCols (Seq rec) (latest_execution r) (reporting_fork_seq r)
       (if negb (last_seq r =? lastSeq) then true else approval_corrupt r) (invalid_approval_executions r))
    (setTouched (Fence rec) (s_project s) (s_compute_state s) (s_created_at s) at_ s)).

Definition deleteTx (uid : string) : M DB goerr SessionInfo :=
  let! info := orFail "read" (txSessionInfo uid) in
  match si_DeletionState info with
  | DeletionPending => mret info
  | DeletionActive =>
      let! fence := orFail "read fence"
        (let! f := select (fun t => s_fence <$> t_sessions t !! uid) in
         match f with Some f => mret f | None => throw (EText "sql: no rows in result set") end) in
      let! cause := ctx_Err in
      match cause with
      | Some c => deleteFail "before append" (ESentinel c)
      | None =>
          let! at_ := now in
          let! appended := orFail "append intent" (appendRecord uid (LastSeq info) (fence + 1) (deleteEvent at_)) in
          do! orFail "update intent"
                (execute (updateSession (markDeleted at_ (LastSeq info) (fst appended)) uid)) in
          let! out := orFail "read intent" (txSessionInfo uid) in
          do! orFail "commit intent" Commit in
          mret out
      end
  | DeletionStateOther _ => deleteFail "state" (ESentinel ErrDeleted)
  end.

(** [Store.DeleteSession]. *)
Definition DeleteSession (uid : string) : M DB goerr SessionInfo :=
  if bool_decide (uid = EmptyString) then throw (EText "sqlitelog: delete session requires a uid")
  else
    do! orFail "begin" Begin in
    deferRollback (deleteTx uid).
End SqlSessions.

(** * Page cursors round-trip (sqlitelog/sessions.go)

    Decimal text, base64 and the NUL separator are inverted exactly, so a cursor denotes the row it was
    made from. *)

(** ** base64 *)

Definition b64Digits : list Z := seqZ 0 64.

Lemma b64Char_digit d : 0 <= d < 64 ->
  let c := Z.of_nat (nat_of_ascii (b64Char d)) in b64Digit c = Some d /\ c <> 10 /\ c <> 13.
Proof.
  intros Hd. assert (Forall (fun d => let c := Z.of_nat (nat_of_ascii (b64Char d)) in
    b64Digit c = Some d /\ c <> 10 /\ c <> 13) b64Digits) as Hall.
  { apply Forall_forall. intros x Hx.
    vm_compute in Hx. repeat (apply elem_of_cons in Hx as [->|Hx]; [vm_compute; repeat split; discriminate|]).
    by apply not_elem_of_nil in Hx. }
  rewrite Forall_forall in Hall. apply Hall. apply elem_of_seqZ. lia.
Qed.

(** The digits of an encoding. *)
Fixpoint encDigits (bs : list Z) : list Z :=
  match bs with
  | [] => []
  | [a] => [a / 4; a mod 4 * 16]
  | [a; b] => [a / 4; a mod 4 * 16 + b / 16; b mod 16 * 4]
  | a :: b :: c :: bs' => a / 4 :: a mod 4 * 16 + b / 16 :: b mod 16 * 4 + c / 64 :: c mod 64 :: encDigits bs'
  end.

Lemma three_ind (P : list Z -> Prop) : P [] -> (forall a, P [a]) -> (forall a b, P [a; b]) ->
  (forall a b c l, P l -> P (a :: b :: c :: l)) -> forall l, P l.
Proof.
  intros Pnil P1 P2 P3. assert (forall l, P l /\ (forall a, P (a :: l)) /\ (forall a b, P (a :: b :: l))) as Hall.
  { induction l as [|c l (Ha & Hb & Hc)]; [by split_and!|]. split_and!; [auto|auto|]. intros a b. by apply P3. }
  intros l. apply Hall.
Qed.

Lemma encDigits_range bs : Forall isByte bs -> Forall (fun d => 0 <= d < 64) (encDigits bs).
Proof.
  unfold isByte. induction bs as [|a|a b|a b c bs IH] using three_ind; intros Hb; simpl;
    repeat (apply Forall_cons_1 in Hb as [? Hb]); repeat constructor; try (Z.div_mod_to_equations; lia). by apply IH.
Qed.

Lemma bytesOf_b64Encode bs : bytesOf (b64Encode bs) = map (fun d => Z.of_nat (nat_of_ascii (b64Char d))) (encDigits bs).
Proof. induction bs as [|a|a b|a b c bs IH] using three_ind; simpl; try done. by rewrite IH. Qed.

Lemma b64Quads_encDigits bs : Forall isByte bs -> b64Quads (encDigits bs) = Some bs.
Proof.
  unfold isByte. induction bs as [|a|a b|a b c bs IH] using three_ind; intros Hb;
    repeat (apply Forall_cons_1 in Hb as [? Hb]); [done|..]; cbn [encDigits b64Quads].
  - do 2 f_equal. Z.div_mod_to_equations; lia.
  - do 2 f_equal; [|f_equal]; Z.div_mod_to_equations; lia.
  - rewrite IH by done. simpl. do 2 f_equal; [|f_equal; [|f_equal]]; Z.div_mod_to_equations; lia.
Qed.

Lemma b64Decode_b64Encode bs : Forall isByte bs -> b64Decode (b64Encode bs) = Some bs.
Proof.
  intros Hb. unfold b64Decode. rewrite bytesOf_b64Encode. pose proof (encDigits_range bs Hb) as Hd.
  rewrite filter_all.
  2: { apply List.Forall_map. eapply List.Forall_impl; [|apply Hd]. intros d Hr. by apply b64Char_digit. }
  replace (mapM b64Digit _) with (Some (encDigits bs)); [by apply b64Quads_encDigits|].
  symmetry. apply mapM_Some. apply Forall2_fmap_l. apply Forall_Forall2_diag.
  eapply List.Forall_impl; [|apply Hd]. intros d Hr. by apply b64Char_digit.
Qed.

(** ** Decimal text *)

Definition decValue (ds : list Z) : Z := foldl (fun acc d => 10 * acc + d) 0 ds.
Definition isDigit (d : Z) : Prop := 0 <= d < 10.

Lemma pos_digits_bytes fuel n acc : 0 <= n < 10 ^ Z.of_nat fuel -> (0 < fuel)%nat ->
  exists ds, bytesOf (pos_digits fuel n acc) = map (fun d => 48 + d) ds ++ bytesOf acc /\
    Forall isDigit ds /\ ds <> [] /\ decValue ds = n.
Proof.
  revert n acc. induction fuel as [|fuel IH]; intros n acc Hn Hf; [lia|]. cbn [pos_digits].
  assert (0 <= n mod 10 < 10) as Hm by (by apply Z.mod_pos_bound).
  set (acc' := String _ acc).
  assert (bytesOf acc' = 48 + n mod 10 :: bytesOf acc) as Hacc.
  { unfold acc'. simpl. rewrite nat_ascii_embedding by lia. f_equal. lia. }
  destruct (Z.eqb_spec (n / 10) 0) as [Hz|Hz].
  - exists [n mod 10]. rewrite Hacc. split_and!; [done|by constructor|done|]. unfold decValue. simpl.
    Z.div_mod_to_equations; lia.
  - assert (0 < fuel)%nat by (destruct fuel; [|lia]; Z.div_mod_to_equations; simpl in *; lia).
    destruct (IH (n / 10) acc') as (ds & Hb & Hd & Hne & Hv); [|done|].
    { rewrite Nat2Z.inj_succ, Z.pow_succ_r in Hn by lia. Z.div_mod_to_equations; lia. }
    exists (ds ++ [n mod 10]). split_and!.
    + rewrite Hb, Hacc, map_app, <- app_assoc. done.
    + apply Forall_app. split; [done|by constructor].
    + by destruct ds.
    + unfold decValue in *. rewrite foldl_app. simpl. rewrite Hv. Z.div_mod_to_equations; lia.
Qed.

Lemma digits_fuel n : 0 <= n -> 0 <= n < 10 ^ Z.of_nat (S (Z.to_nat (Z.log2 n))).
Proof.
  intros Hn. split; [done|]. rewrite Nat2Z.inj_succ, Z2Nat.id by apply Z.log2_nonneg.
  destruct (Z.eq_dec n 0) as [->|]; [simpl; lia|].
  assert (n < 2 ^ Z.succ (Z.log2 n)) by (apply Z.log2_spec; lia).
  assert (2 ^ Z.succ (Z.log2 n) <= 10 ^ Z.succ (Z.log2 n)); [|lia].
  apply Z.pow_le_mono_l. lia.
Qed.

Lemma FormatInt_bytes n : exists ds, Forall isDigit ds /\ ds <> [] /\ decValue ds = Z.abs n /\
  bytesOf (FormatInt n) = (if n <? 0 then [45] else []) ++ map (fun d => 48 + d) ds.
Proof.
  unfold FormatInt. destruct (Z.ltb_spec n 0).
  - destruct (pos_digits_bytes _ _ EmptyString (digits_fuel (- n) ltac:(lia)) ltac:(lia)) as (ds & Hb & Hd & Hne & Hv).
    exists ds. split_and!; try done; [lia|]. cbn [bytesOf]. rewrite Hb. simpl. by rewrite app_nil_r.
  - destruct (pos_digits_bytes _ _ EmptyString (digits_fuel n ltac:(lia)) ltac:(lia)) as (ds & Hb & Hd & Hne & Hv).
    exists ds. split_and!; try done; [lia|]. rewrite Hb. simpl. by rewrite app_nil_r.
Qed.

Lemma parseDigits_digits ds : Forall isDigit ds -> ds <> [] -> parseDigits (map (fun d => 48 + d) ds) = Some (decValue ds).
Proof.
  intros Hd Hne. unfold parseDigits.
  replace (mapM digitValue (map (fun d => 48 + d) ds)) with (Some ds).
  - destruct ds; done.
  - symmetry. apply mapM_Some. apply Forall2_fmap_l. apply Forall_Forall2_diag.
    eapply List.Forall_impl; [|apply Hd]. intros d Hr. unfold isDigit, digitValue in *. simpl.
    rewrite (proj2 (Z.leb_le _ _)), (proj2 (Z.leb_le _ _)) by lia. simpl. f_equal. lia.
Qed.

Lemma ParseInt_FormatInt n : - 2 ^ 63 <= n < 2 ^ 63 -> ParseInt (bytesOf (FormatInt n)) = Some n.
Proof.
  intros Hn. destruct (FormatInt_bytes n) as (ds & Hd & Hne & Hv & ->). unfold ParseInt.
  assert (match (if n <? 0 then [45] else []) ++ map (fun d => 48 + d) ds with
    | 45 :: bs' => Z.opp <$> parseDigits bs' | 43 :: bs' => parseDigits bs'
    | _ => parseDigits ((if n <? 0 then [45] else []) ++ map (fun d => 48 + d) ds) end = Some n) as ->.
  { destruct (Z.ltb_spec n 0); simpl.
    - rewrite parseDigits_digits by done. simpl. f_equal. lia.
    - pose proof (parseDigits_digits ds Hd Hne) as Hp. rewrite Hv in Hp. destruct ds as [|d ds]; [done|].
      apply Forall_cons_1 in Hd as [Hd _]. unfold isDigit in Hd. simpl in *.
      assert (d = 0 \/ d = 1 \/ d = 2 \/ d = 3 \/ d = 4 \/ d = 5 \/ d = 6 \/ d = 7 \/ d = 8 \/ d = 9) as Hcase by lia.
      rewrite Z.abs_eq in Hp by done. destruct Hcase as [->|[->|[->|[->|[->|[->|[->|[->|[->| ->]]]]]]]]]; exact Hp. }
  simpl. by rewrite (proj2 (Z.leb_le _ _)), (proj2 (Z.ltb_lt _ _)) by lia.
Qed.

(** ** The separator *)

Lemma cutNul_app bs rest : Forall (fun b => b <> 0) bs -> cutNul (bs ++ 0 :: rest) = Some (bs, rest).
Proof.
  induction 1 as [|b bs Hb _ IH]; [done|]. simpl. rewrite (proj2 (Z.eqb_neq b 0)) by done. by rewrite IH.
Qed.

Lemma FormatInt_nonzero n : Forall (fun b => b <> 0) (bytesOf (FormatInt n)).
Proof.
  destruct (FormatInt_bytes n) as (ds & Hd & _ & _ & ->). apply Forall_app. split.
  - destruct (n <? 0); repeat constructor. lia.
  - apply List.Forall_map. eapply List.Forall_impl; [|apply Hd]. unfold isDigit. intros d Hr. lia.
Qed.

(** A cursor denotes the row it was made from. *)
Lemma decodeCursor_encodeCursor n uid : - 2 ^ 63 <= n < 2 ^ 63 -> decodeCursor (encodeCursor n uid) = Ok (n, uid).
Proof.
  intros Hn. unfold decodeCursor, encodeCursor.
  rewrite b64Decode_b64Encode by (repeat (apply Forall_app; split); [apply bytesOf_isByte|by repeat constructor|apply bytesOf_isByte]).
  change ([0] ++ bytesOf uid) with (0 :: bytesOf uid). rewrite cutNul_app by apply FormatInt_nonzero.
  by rewrite ParseInt_FormatInt, stringOf_bytesOf.
Qed.

Lemma encodeCursor_nonempty n uid : encodeCursor n uid <> EmptyString.
Proof.
  unfold encodeCursor. destruct (bytesOf (FormatInt n)) as [|a l] eqn:E; [simpl|].
  - by destruct (bytesOf uid) as [|? [|? ?]].
  - simpl. by destruct (l ++ 0 :: bytesOf uid) as [|? [|? ?]].
Qed.
