(* ===== verification/GoJson.v ===== *)
(** * JSON of string maps (encoding/json, unicode/utf8)

    [json.Marshal] and [json.Unmarshal] at type [map[string]string], which is how the session service
    stores labels and annotations, on bytes. A Go map is a [gmap], a nil one [None]. *)
From S2P Require Import Prelude.
From stdpp Require Import sorting.
#[local] Open Scope Z_scope.

(** ** UTF-8 *)

Definition inRangeB (lo hi b : Z) : bool := (lo <=? b) && (b <=? hi).
Definition contByte (b : Z) : bool := inRangeB 128 191 b.

(** The width of the valid encoding at the head, 0 when there is none ([utf8.DecodeRune]). *)
Definition utf8Len (bs : list Z) : nat :=
  match bs with
  | [] => 0
  | b0 :: bs' =>
      if b0 <? 128 then 1%nat
      else if inRangeB 194 223 b0 then
        match bs' with b1 :: _ => if contByte b1 then 2%nat else 0%nat | [] => 0 end
      else if inRangeB 224 239 b0 then
        match bs' with
        | b1 :: b2 :: _ =>
            if inRangeB (if b0 =? 224 then 160 else 128) (if b0 =? 237 then 159 else 191) b1 && contByte b2 then 3%nat else 0%nat
        | _ => 0
        end
      else if inRangeB 240 244 b0 then
        match bs' with
        | b1 :: b2 :: b3 :: _ =>
            if inRangeB (if b0 =? 240 then 144 else 128) (if b0 =? 244 then 143 else 191) b1 && contByte b2 && contByte b3
            then 4%nat else 0%nat
        | _ => 0
        end
      else 0%nat
  end.

(** [utf8.Valid]; [fuel] bounds the runes. *)
Fixpoint validFrom (fuel : nat) (bs : list Z) : bool :=
  match fuel, bs with
  | _, [] => true
  | O, _ => false
  | S f, _ => match utf8Len bs with O => false | n => validFrom f (drop n bs) end
  end.
Definition validUTF8 (s : string) : bool := validFrom (length (bytesOf s)) (bytesOf s).

(** [utf8.AppendRune]: a surrogate or an out-of-range value is U+FFFD. *)
Definition runeError : list Z := [239; 191; 189].
Definition encodeRune (r : Z) : list Z :=
  if r <? 128 then [r]
  else if r <? 2048 then [192 + r / 64; 128 + r mod 64]
  else if inRangeB 55296 57343 r || (1114111 <? r) then runeError
  else if r <? 65536 then [224 + r / 4096; 128 + r / 64 mod 64; 128 + r mod 64]
  else [240 + r / 262144; 128 + r / 4096 mod 64; 128 + r / 64 mod 64; 128 + r mod 64].

(** ** Writing *)

Definition hexByte (d : Z) : Z := if d <? 10 then 48 + d else 87 + d.
Definition uEscape (b : Z) : list Z := [92; 117; 48; 48; hexByte (b / 16); hexByte (b mod 16)].

(** One byte below 128 of a string; [<], [>] and [&] are escaped too. *)
Definition quoteASCII (b : Z) : list Z :=
  if (b =? 34) || (b =? 92) then [92; b]
  else if b =? 8 then [92; 98]
  else if b =? 9 then [92; 116]
  else if b =? 10 then [92; 110]
  else if b =? 12 then [92; 102]
  else if b =? 13 then [92; 114]
  else if (b <? 32) || (b =? 60) || (b =? 62) || (b =? 38) then uEscape b
  else [b].

(** A rune of several bytes; U+2028 and U+2029 are escaped. *)
Definition quoteRune (c : list Z) : list Z :=
  if bool_decide (c = [226; 128; 168]) then [92; 117; 50; 48; 50; 56]
  else if bool_decide (c = [226; 128; 169]) then [92; 117; 50; 48; 50; 57]
  else c.

Fixpoint quoteBody (fuel : nat) (bs : list Z) : list Z :=
  match fuel, bs with
  | S f, b :: bs' =>
      if b <? 128 then quoteASCII b ++ quoteBody f bs'
      else match utf8Len bs with
           | O => [92; 117; 102; 102; 102; 100] ++ quoteBody f bs'
           | n => quoteRune (take n bs) ++ quoteBody f (drop n bs)
           end
  | _, _ => []
  end.
Definition jsonQuote (s : string) : list Z := [34] ++ quoteBody (length (bytesOf s)) (bytesOf s) ++ [34].

(** Members in the order of their keys. *)
Definition keyLe (a b : string * string) : Prop := String.leb (fst a) (fst b) = true.
#[export] Instance keyLe_dec a b : Decision (keyLe a b).
Proof. unfold keyLe. apply _. Defined.

Definition quoteMember (kv : string * string) : list Z := jsonQuote (fst kv) ++ [58] ++ jsonQuote (snd kv).
Fixpoint quoteMembers (kvs : list (string * string)) : list Z :=
  match kvs with
  | [] => []
  | [kv] => quoteMember kv
  | kv :: kvs' => quoteMember kv ++ [44] ++ quoteMembers kvs'
  end.
Definition marshalMap (m : gmap string string) : list Z :=
  [123] ++ quoteMembers (merge_sort keyLe (map_to_list m)) ++ [125].

(** ** Reading *)

Definition hexValue (b : Z) : option Z :=
  if inRangeB 48 57 b then Some (b - 48)
  else if inRangeB 97 102 b then Some (b - 87)
  else if inRangeB 65 70 b then Some (b - 55)
  else None.

(** Four hexadecimal digits. *)
Definition hex4 (bs : list Z) : option (Z * list Z) :=
  match bs with
  | a :: b :: c :: d :: bs' =>
      a ← hexValue a; b ← hexValue b; c ← hexValue c; d ← hexValue d;
      Some (a * 4096 + b * 256 + c * 16 + d, bs')
  | _ => None
  end.

(** The rune of a [\u] escape whose backslash and [u] were read: a pair of surrogates is one rune. *)
Definition readEscape (bs : list Z) : option (list Z * list Z) :=
  '(r, bs1) ← hex4 bs;
  if inRangeB 55296 57343 r then
    match bs1 with
    | 92 :: 117 :: bs2 =>
        match hex4 bs2 with
        | Some (r2, bs3) =>
            if inRangeB 55296 56319 r && inRangeB 56320 57343 r2
            then Some (encodeRune ((r - 55296) * 1024 + (r2 - 56320) + 65536), bs3)
            else Some (runeError, bs1)
        | None => Some (runeError, bs1)
        end
    | _ => Some (runeError, bs1)
    end
  else Some (encodeRune r, bs1).

(** The rest of a string after its opening quote: its bytes, and what follows the closing quote. *)
Fixpoint unquoteBody (fuel : nat) (bs : list Z) : option (list Z * list Z) :=
  match fuel, bs with
  | S f, b :: bs' =>
      let cont (c rest : list Z) := '(out, r) ← unquoteBody f rest; Some (c ++ out, r) in
      if b =? 34 then Some ([], bs')
      else if b =? 92 then
        match bs' with
        | e :: bs2 =>
            if (e =? 34) || (e =? 92) || (e =? 47) then cont [e] bs2
            else if e =? 98 then cont [8] bs2
            else if e =? 102 then cont [12] bs2
            else if e =? 110 then cont [10] bs2
            else if e =? 114 then cont [13] bs2
            else if e =? 116 then cont [9] bs2
            else if e =? 117 then '(c, bs3) ← readEscape bs2; cont c bs3
            else None
        | [] => None
        end
      else if b <? 32 then None
      else match utf8Len bs with
           | O => cont runeError bs'
           | n => cont (take n bs) (drop n bs)
           end
  | _, _ => None
  end.

Definition isSpace (b : Z) : bool := (b =? 32) || (b =? 9) || (b =? 10) || (b =? 13).
Fixpoint skipSpace (bs : list Z) : list Z :=
  match bs with
  | b :: bs' => if isSpace b then skipSpace bs' else bs
  | [] => []
  end.

Definition readString (bs : list Z) : option (string * list Z) :=
  match bs with
  | 34 :: bs' => '(s, r) ← unquoteBody (length bs') bs'; Some (stringOf s, r)
  | _ => None
  end.

(** A member's value: a string, or [null], which leaves the zero value. Any other value is an error at
    this type. *)
Definition readValue (bs : list Z) : option (string * list Z) :=
  match bs with
  | 110 :: 117 :: 108 :: 108 :: bs' => Some (EmptyString, bs')
  | _ => readString bs
  end.

(** The members of an object after its opening brace; a later member replaces an earlier one. *)
Fixpoint readMembers (fuel : nat) (bs : list Z) (m : gmap string string) : option (gmap string string * list Z) :=
  match fuel with
  | O => None
  | S f =>
      '(k, bs) ← readString (skipSpace bs);
      match skipSpace bs with
      | 58 :: bs =>
          '(v, bs) ← readValue (skipSpace bs);
          let m := <[k := v]> m in
          match skipSpace bs with
          | 44 :: bs => readMembers f bs m
          | 125 :: bs => Some (m, bs)
          | _ => None
          end
      | _ => None
      end
  end.

(** [json.Unmarshal] into a nil map: [None] on error. *)
Definition unmarshalMap (bs : list Z) : option (option (gmap string string)) :=
  match skipSpace bs with
  | 110 :: 117 :: 108 :: 108 :: bs => match skipSpace bs with [] => Some None | _ => None end
  | 123 :: bs =>
      '(m, r) ← match skipSpace bs with
                | 125 :: r => Some (∅, r)
                | bs => readMembers (length bs) bs ∅
                end;
      match skipSpace r with [] => Some (Some m) | _ => None end
  | _ => None
  end.

(** ** What is written is read back *)

Lemma utf8Len_bound bs : (utf8Len bs <= length bs)%nat.
Proof.
  destruct bs as [|b0 [|b1 [|b2 [|b3 bs]]]]; cbn [utf8Len length]; repeat case_match; lia.
Qed.

Lemma utf8Len_take bs rest n : utf8Len bs = S n -> utf8Len (take (S n) bs ++ rest) = S n.
Proof.
  destruct bs as [|b0 bs]; [done|]. unfold utf8Len at 1.
  destruct (b0 <? 128) eqn:E0; [intros [= <-]; simpl; by rewrite E0|].
  destruct (inRangeB 194 223 b0) eqn:E1.
  { destruct bs as [|b1 bs]; [done|]. destruct (contByte b1) eqn:Ec; [|done]. intros [= <-]. simpl. by rewrite E0, E1, Ec. }
  destruct (inRangeB 224 239 b0) eqn:E2.
  { destruct bs as [|b1 [|b2 bs]]; try done. destruct (_ && _) eqn:Ec; [|done]. intros [= <-]. simpl. by rewrite E0, E1, E2, Ec. }
  destruct (inRangeB 240 244 b0) eqn:E3; [|done].
  destruct bs as [|b1 [|b2 [|b3 bs]]]; try done. destruct (_ && _) eqn:Ec; [|done]. intros [= <-]. simpl.
  by rewrite E0, E1, E2, E3, Ec.
Qed.

(** One chunk. *)
Lemma unquote_ascii f b rest : 0 <= b < 128 ->
  unquoteBody (S f) (quoteASCII b ++ rest) = '(out, r) ← unquoteBody f rest; Some (b :: out, r).
Proof.
  intros Hb. assert (b ∈ seqZ 0 128) as Hin by (apply elem_of_seqZ; lia).
  cbv [seqZ seq fmap list_fmap] in Hin.
  repeat (apply elem_of_cons in Hin as [->|Hin]; [reflexivity|]). by apply not_elem_of_nil in Hin.
Qed.

Lemma unquote_rune f bs rest n b bs' : utf8Len bs = S n -> bs = b :: bs' -> 128 <= b ->
  unquoteBody (S f) (quoteRune (take (S n) bs) ++ rest) =
    '(out, r) ← unquoteBody f rest; Some (take (S n) bs ++ out, r).
Proof.
  intros Hn -> Hb. unfold quoteRune. case_bool_decide as E1; [rewrite E1; reflexivity|].
  case_bool_decide as E2; [rewrite E2; reflexivity|]. clear E1 E2.
  pose proof (utf8Len_take _ rest _ Hn) as Ht. pose proof (utf8Len_bound (b :: bs')) as Hbd. rewrite Hn in Hbd.
  assert (length (take (S n) (b :: bs')) = S n) as Hlen by (rewrite length_take; lia).
  cbn [take] in *. cbn [app] in *. cbn [unquoteBody].
  rewrite (proj2 (Z.eqb_neq b 34)), (proj2 (Z.eqb_neq b 92)), (proj2 (Z.ltb_ge b 32)), Ht by lia.
  change (b :: take n bs' ++ rest) with ((b :: take n bs') ++ rest).
  rewrite take_app_length' by done. rewrite drop_app_length' by done. done.
Qed.

Lemma unquote_quoteBody f : forall g bs rest, (length bs <= f)%nat -> (length bs < g)%nat -> Forall isByte bs ->
  validFrom f bs = true -> unquoteBody g (quoteBody f bs ++ 34 :: rest) = Some (bs, rest).
Proof.
  induction f as [|f IH]; intros [|g] [|b bs] rest Hf Hg Hb Hv; cbn [length] in *; try lia; [done|done|].
  apply Forall_cons in Hb as [Hb Hbs]. cbn [quoteBody]. destruct (Z.ltb_spec b 128) as [Hlt|Hge].
  - rewrite <- app_assoc, unquote_ascii by (unfold isByte in Hb; lia).
    rewrite IH; [done|lia|lia|done|]. cbn [validFrom utf8Len] in Hv. by rewrite (proj2 (Z.ltb_lt _ _)) in Hv.
  - cbn [validFrom] in Hv. pose proof (utf8Len_bound (b :: bs)) as Hbd.
    destruct (utf8Len (b :: bs)) as [|n] eqn:Hn; [done|]. rewrite <- app_assoc.
    rewrite (unquote_rune g (b :: bs) _ n b bs) by done. cbn [length] in Hbd.
    rewrite IH; [|rewrite length_drop; simpl; lia|rewrite length_drop; simpl; lia|by apply Forall_drop, Forall_cons|done].
    change (Some (take (S n) (b :: bs) ++ drop (S n) (b :: bs), rest) = Some (b :: bs, rest)).
    by rewrite take_drop.
Qed.

Lemma quoteRune_length c : (length c <= length (quoteRune c))%nat.
Proof. unfold quoteRune. case_bool_decide as E; [subst; simpl; lia|]. case_bool_decide; subst; simpl; lia. Qed.

Lemma quoteBody_length f bs : (length bs <= f)%nat -> validFrom f bs = true -> (length bs <= length (quoteBody f bs))%nat.
Proof.
  revert bs. induction f as [|f IH]; intros [|b bs] Hf Hv; cbn [length] in *; try lia. cbn [quoteBody validFrom] in *.
  destruct (Z.ltb_spec b 128) as [Hlt|Hge].
  - rewrite length_app. cbn [utf8Len] in Hv. rewrite (proj2 (Z.ltb_lt _ _)) in Hv by done.
    specialize (IH bs ltac:(lia) Hv).
    assert (1 <= length (quoteASCII b))%nat by (unfold quoteASCII, uEscape; repeat case_match; simpl; lia). lia.
  - pose proof (utf8Len_bound (b :: bs)) as Hbd. destruct (utf8Len (b :: bs)) as [|n] eqn:Hn; [done|].
    rewrite length_app. cbn [length] in Hbd.
    specialize (IH (drop (S n) (b :: bs)) ltac:(rewrite length_drop; simpl; lia) Hv). rewrite length_drop in IH.
    pose proof (quoteRune_length (take (S n) (b :: bs))) as Hq. rewrite length_take in Hq. simpl in *. lia.
Qed.

Lemma readString_quote s rest : validUTF8 s = true -> readString (jsonQuote s ++ rest) = Some (s, rest).
Proof.
  intros Hv. unfold jsonQuote. rewrite <- !app_assoc. cbn [app readString].
  rewrite unquote_quoteBody; [by cbn; rewrite stringOf_bytesOf|done| |apply bytesOf_isByte|done].
  pose proof (quoteBody_length _ (bytesOf s) (Nat.le_refl _) Hv). rewrite length_app. simpl. lia.
Qed.

(** ** Maps *)

Definition validMap (m : gmap string string) : Prop :=
  map_Forall (fun k v => validUTF8 k = true /\ validUTF8 v = true) m.
Definition addMember (m : gmap string string) (kv : string * string) : gmap string string := <[kv.1 := kv.2]> m.

Lemma skipSpace_quote s rest : skipSpace (jsonQuote s ++ rest) = jsonQuote s ++ rest.
Proof. done. Qed.
Lemma readValue_quote s rest : validUTF8 s = true -> readValue (jsonQuote s ++ rest) = Some (s, rest).
Proof. apply readString_quote. Qed.

Lemma quoteMember_app kv rest : quoteMember kv ++ rest = jsonQuote kv.1 ++ 58 :: jsonQuote kv.2 ++ rest.
Proof. unfold quoteMember. by rewrite <- !app_assoc. Qed.

Lemma readMember f kv rest m : validUTF8 kv.1 = true -> validUTF8 kv.2 = true ->
  readMembers (S f) (quoteMember kv ++ rest) m =
    match skipSpace rest with
    | 44 :: bs => readMembers f bs (addMember m kv)
    | 125 :: bs => Some (addMember m kv, bs)
    | _ => None
    end.
Proof.
  intros Hk Hv. cbn [readMembers]. rewrite quoteMember_app, skipSpace_quote, readString_quote by done.
  cbn [mbind option_bind skipSpace isSpace Z.eqb orb Pos.eqb]. rewrite skipSpace_quote, readValue_quote by done. done.
Qed.

Lemma readMembers_quote kvs : forall f rest m, kvs <> [] -> (length kvs <= f)%nat ->
  Forall (fun kv => validUTF8 kv.1 = true /\ validUTF8 kv.2 = true) kvs ->
  readMembers f (quoteMembers kvs ++ 125 :: rest) m = Some (foldl addMember m kvs, rest).
Proof.
  induction kvs as [|kv kvs IH]; intros [|f] rest m Hne Hf Hv; cbn [length] in *; try done; [lia|].
  apply Forall_cons in Hv as [[Hk Hval] Hv]. destruct kvs as [|kv' kvs'].
  - cbn [quoteMembers]. by rewrite readMember.
  - change (quoteMembers (kv :: kv' :: kvs')) with (quoteMember kv ++ 44 :: quoteMembers (kv' :: kvs')).
    rewrite <- app_assoc, readMember by done. change ((44 :: ?a) ++ ?b) with (44 :: a ++ b).
    cbn [skipSpace isSpace Z.eqb orb Pos.eqb]. rewrite IH; [done|done|lia|done].
Qed.

Lemma quoteMembers_length kvs : (length kvs <= length (quoteMembers kvs))%nat.
Proof.
  induction kvs as [|kv [|kv' kvs'] IH]; [done|simpl; lia|].
  change (quoteMembers (kv :: kv' :: kvs')) with (quoteMember kv ++ 44 :: quoteMembers (kv' :: kvs')).
  rewrite length_app. cbn [length] in *. lia.
Qed.

Lemma foldl_addMember kvs m : foldl addMember m kvs = list_to_map (reverse kvs) ∪ m.
Proof.
  revert m. induction kvs as [|[k v] kvs IH]; intros m; simpl; [by rewrite (left_id_L ∅ (∪))|].
  rewrite IH, reverse_cons, list_to_map_app. rewrite <- (assoc_L (∪)). f_equal. simpl.
  by rewrite <- insert_union_l, (left_id_L ∅ (∪)).
Qed.

Lemma sorted_members m : foldl addMember ∅ (merge_sort keyLe (map_to_list m)) = m.
Proof.
  rewrite foldl_addMember, (right_id_L ∅ (∪)).
  assert (reverse (merge_sort keyLe (map_to_list m)) ≡ₚ map_to_list m) as Hp
    by (rewrite reverse_Permutation; apply merge_sort_Permutation).
  rewrite <- (list_to_map_to_list m) at 2. apply list_to_map_proper; [|done].
  rewrite Hp. apply NoDup_fst_map_to_list.
Qed.

Lemma unmarshal_marshalMap m : validMap m -> unmarshalMap (marshalMap m) = Some (Some m).
Proof.
  intros Hm. unfold unmarshalMap, marshalMap. set (kvs := merge_sort keyLe (map_to_list m)).
  assert (kvs ≡ₚ map_to_list m) as Hp by apply merge_sort_Permutation.
  cbn [app skipSpace isSpace Z.eqb orb Pos.eqb]. destruct kvs as [|kv kvs'] eqn:E.
  - apply Permutation_nil_l in Hp. symmetry in Hp. apply map_to_list_empty_iff in Hp. by subst.
  - assert (exists b rest, quoteMembers (kv :: kvs') ++ [125] = 34 :: b ++ rest) as (b & rest & Hq).
    { destruct kvs' as [|kv' kvs']; simpl; eexists _, []; by rewrite app_nil_r. }
    rewrite Hq. cbn [skipSpace isSpace Z.eqb orb Pos.eqb]. rewrite <- Hq, readMembers_quote; [|done| |].
    + rewrite <- E. unfold kvs. by rewrite sorted_members.
    + rewrite length_app. pose proof (quoteMembers_length (kv :: kvs')). lia.
    + rewrite Hp. apply map_Forall_to_list in Hm. eapply Forall_impl; [exact Hm|]. by intros [].
Qed.

(** ** As text *)

Lemma bytesOf_stringOf l : Forall isByte l -> bytesOf (stringOf l) = l.
Proof.
  induction 1 as [|b l Hb _ IH]; [done|]. unfold bytesOf, stringOf in *. simpl. rewrite IH. f_equal. unfold isByte in Hb.
  rewrite nat_ascii_embedding; lia.
Qed.

Lemma quoteASCII_isByte b : isByte b -> Forall isByte (quoteASCII b).
Proof.
  intros Hb. unfold quoteASCII, uEscape, hexByte, isByte in *. pose proof (Z.mod_pos_bound b 16 ltac:(lia)).
  assert (0 <= b / 16 < 16) by (split; [apply Z.div_pos; lia|apply Z.div_lt_upper_bound; lia]).
  repeat case_match; repeat constructor; lia.
Qed.
Lemma quoteBody_isByte f bs : Forall isByte bs -> Forall isByte (quoteBody f bs).
Proof.
  revert bs. induction f as [|f IH]; intros [|b bs] Hb; cbn [quoteBody]; try constructor.
  assert (Forall isByte bs) as Hbs by (by inversion Hb). destruct (b <? 128).
  - apply Forall_app. split; [apply quoteASCII_isByte; by inversion Hb|by apply IH].
  - destruct (utf8Len (b :: bs)) as [|n].
    + repeat (constructor; [unfold isByte; lia|]). by apply IH.
    + apply Forall_app. split; [|apply IH; by apply Forall_drop]. unfold quoteRune.
      repeat case_bool_decide; [repeat constructor; unfold isByte; lia..|by apply Forall_take].
Qed.
Lemma jsonQuote_isByte s : Forall isByte (jsonQuote s).
Proof.
  unfold jsonQuote. constructor; [unfold isByte; lia|]. apply Forall_app. split; [apply quoteBody_isByte, bytesOf_isByte|].
  constructor; [unfold isByte; lia|constructor].
Qed.
Lemma byte_cons b l : isByte b -> Forall isByte l -> Forall isByte ([b] ++ l).
Proof. by constructor. Qed.
Lemma quoteMember_isByte kv : Forall isByte (quoteMember kv).
Proof.
  apply Forall_app. split; [apply jsonQuote_isByte|]. apply byte_cons; [unfold isByte; lia|apply jsonQuote_isByte].
Qed.
Lemma marshalMap_isByte m : Forall isByte (marshalMap m).
Proof.
  apply byte_cons; [unfold isByte; lia|]. apply Forall_app. split; [|repeat constructor; unfold isByte; lia].
  induction (merge_sort keyLe (map_to_list m)) as [|kv [|kv' kvs] IH]; [constructor|apply quoteMember_isByte|].
  apply Forall_app. split; [apply quoteMember_isByte|]. apply byte_cons; [unfold isByte; lia|exact IH].
Qed.
