(* ===== verification/Tokens.v ===== *)
(** * Which page tokens a server takes

    base64 and decimal text told apart from their decoders: a token is read exactly if it is such a text,
    and as what it stands for. *)
From S2P Require Import Prelude GoErrors Api Tables SqlLog SqlSessions GoJson.
#[local] Open Scope Z_scope.

(** ** Numbers in a base *)

(** Digits, the most significant first. *)
Definition valueIn (base : Z) (ds : list Z) : Z := foldl (fun acc d => base * acc + d) 0 ds.
Definition digitsIn (base : Z) (ds : list Z) : Prop := Forall (fun d => 0 <= d < base) ds.

Lemma foldl_valueIn base ds : forall acc, foldl (fun acc d => base * acc + d) acc ds = acc * base ^ Z.of_nat (length ds) + valueIn base ds.
Proof.
  unfold valueIn. induction ds as [|d ds IH]; intros acc; cbn [foldl length]; [simpl; lia|].
  rewrite (IH (base * acc + d)), (IH (base * 0 + d)), Nat2Z.inj_succ, Z.pow_succ_r by lia. ring.
Qed.
Lemma valueIn_cons base d ds : valueIn base (d :: ds) = d * base ^ Z.of_nat (length ds) + valueIn base ds.
Proof. unfold valueIn at 1. cbn [foldl]. rewrite foldl_valueIn. f_equal. f_equal. lia. Qed.
Lemma valueIn_range base ds : 0 < base -> digitsIn base ds -> 0 <= valueIn base ds < base ^ Z.of_nat (length ds).
Proof.
  intros Hb. induction 1 as [|d ds Hd _ IH]; [simpl; unfold valueIn; simpl; lia|].
  rewrite valueIn_cons. cbn [length]. rewrite Nat2Z.inj_succ, Z.pow_succ_r by lia. nia.
Qed.
Lemma valueIn_inj base ds es : 0 < base -> digitsIn base ds -> digitsIn base es -> length ds = length es ->
  valueIn base ds = valueIn base es -> ds = es.
Proof.
  intros Hb Hd. revert es. induction Hd as [|d ds Hd Hds IH]; intros [|e es] He Hl Hv; try done.
  apply Forall_cons_1 in He as [He Hes]. injection Hl as Hl. rewrite !valueIn_cons, <- Hl in Hv.
  pose proof (valueIn_range base ds Hb Hds) as R1. pose proof (valueIn_range base es Hb Hes) as R2. rewrite <- Hl in R2.
  assert (d = e) as -> by nia. f_equal. apply IH; [done|done|lia].
Qed.

(** ** base64 *)

Definition base64url : list Z := bytesOf "ABCDEFGHIJKLMNOPQRSTUVWXYZabcdefghijklmnopqrstuvwxyz0123456789-_".
(** The characters that count: a decoder skips line breaks. *)
Definition characters (s : string) : list Z := filter (fun c => c <> 10 /\ c <> 13) (bytesOf s).
(** [s] is a text of the bytes [bs]: digits of 6 bits, from the front, cut to whole bytes; one digit alone at the
    end is none. *)
Definition writes (s : string) (bs : list Z) : Prop :=
  exists ds, Forall2 (fun d c => 0 <= d /\ base64url !! Z.to_nat d = Some c) ds (characters s) /\
    (length ds mod 4 <> 1)%nat /\ digitsIn 256 bs /\ length bs = (6 * length ds / 8)%nat /\
    valueIn 256 bs = valueIn 64 ds / 2 ^ (6 * Z.of_nat (length ds) - 8 * Z.of_nat (length bs)).

Lemma b64Digit_alphabet d c : b64Digit c = Some d <-> 0 <= d /\ base64url !! Z.to_nat d = Some c.
Proof.
  split.
  - intros Hd.
    assert (48 <= c <= 122 \/ c = 45) as Hc.
    { unfold b64Digit in Hd. repeat match type of Hd with context [if ?b then _ else _] => destruct b eqn:? end; try done; dec_bool; lia. }
    assert (Forall (fun c => match b64Digit c with
      | Some d => bool_decide (0 <= d) && bool_decide (base64url !! Z.to_nat d = Some c) | None => true end = true) (45 :: seqZ 48 75)) as Hall
      by (apply (bool_decide_unpack _); vm_compute; exact I).
    rewrite list.Forall_forall in Hall. specialize (Hall c). rewrite Hd in Hall.
    assert (c ∈ 45 :: seqZ 48 75) as Hin by (apply elem_of_cons; rewrite elem_of_seqZ; lia).
    apply Hall, andb_prop in Hin as [H1%bool_decide_eq_true H2%bool_decide_eq_true]. by split.
  - intros [Hd Hc]. assert (Z.to_nat d < 64)%nat as Hlt by (apply lookup_lt_Some in Hc; exact Hc).
    assert (Forall (fun i => b64Digit <$> base64url !! i = Some (Some (Z.of_nat i))) (seq 0 64)) as Hall
      by (apply (bool_decide_unpack _); vm_compute; exact I).
    rewrite list.Forall_forall in Hall.
    assert (Z.to_nat d ∈ seq 0 64) as Hin by (apply elem_of_seq; lia).
    apply Hall in Hin. rewrite Hc, Z2Nat.id in Hin by done. cbn in Hin. congruence.
Qed.

(** *** The decoder *)

Lemma four_ind (P : list Z -> Prop) : P [] -> (forall a, P [a]) -> (forall a b, P [a; b]) -> (forall a b c, P [a; b; c]) ->
  (forall a b c d l, P l -> P (a :: b :: c :: d :: l)) -> forall l, P l.
Proof.
  intros P0 P1 P2 P3 P4. fix IH 1. intros [|a [|b [|c [|d l]]]]; [done..|]. apply P4, IH.
Qed.

(** The sizes of a text of [n] digits and of its bytes. *)
Lemma byte_count n : (6 * S (S (S (S n))) / 8 = S (S (S (6 * n / 8))))%nat.
Proof. replace (6 * S (S (S (S n))))%nat with (6 * n + 3 * 8)%nat by lia. rewrite Nat.div_add by lia. lia. Qed.
Lemma byte_shift n : let m := (6 * n / 8)%nat in 0 <= 6 * Z.of_nat n - 8 * Z.of_nat m.
Proof. intros m. pose proof (Nat.mul_div_le (6 * n) 8). unfold m. lia. Qed.

Lemma b64Quads_spec ds : digitsIn 64 ds -> match b64Quads ds with
  | Some bs => (length ds mod 4 <> 1)%nat /\ digitsIn 256 bs /\ length bs = (6 * length ds / 8)%nat /\
      valueIn 256 bs = valueIn 64 ds / 2 ^ (6 * Z.of_nat (length ds) - 8 * Z.of_nat (length bs))
  | None => (length ds mod 4 = 1)%nat
  end.
Proof.
  induction ds as [|a|a b|a b c|a b c d ds IH] using four_ind; intros Hds;
    repeat (apply Forall_cons_1 in Hds as [? Hds]); cbn [b64Quads].
  - split_and!; [done|constructor|done|done].
  - done.
  - split_and!; [done| |done|].
    + repeat constructor; Z.div_mod_to_equations; lia.
    + unfold valueIn. simpl. change (2 ^ _) with 16. Z.div_mod_to_equations; lia.
  - split_and!; [done| |done|].
    + repeat constructor; Z.div_mod_to_equations; lia.
    + unfold valueIn. simpl. change (2 ^ _) with 4. Z.div_mod_to_equations; lia.
  - specialize (IH Hds). assert (length (a :: b :: c :: d :: ds) mod 4 = length ds mod 4)%nat as Hmod.
    { cbn [length]. replace (S (S (S (S (length ds))))) with (length ds + 1 * 4)%nat by lia. apply Nat.Div0.mod_add. }
    rewrite Hmod. destruct (b64Quads ds) as [bs|]; cbn [mbind option_bind]; [|exact IH]. destruct IH as (Hm & Hb & Hl & Hv).
    change (length (a :: b :: c :: d :: ds)) with (S (S (S (S (length ds))))).
    split_and!; [done| |rewrite byte_count, <- Hl; done|].
    + repeat (apply Forall_cons; [Z.div_mod_to_equations; lia|]). exact Hb.
    + pose proof (byte_shift (length ds)) as Hs. cbv zeta in Hs. rewrite <- Hl in Hs.
      change (length (?x :: ?y :: ?z :: bs)) with (S (S (S (length bs)))).
      replace (6 * Z.of_nat (S (S (S (S (length ds))))) - 8 * Z.of_nat (S (S (S (length bs))))) with
        (6 * Z.of_nat (length ds) - 8 * Z.of_nat (length bs)) by lia.
      set (sh := 6 * Z.of_nat (length ds) - 8 * Z.of_nat (length bs)) in *. rewrite !valueIn_cons, Hv. cbn [length].
      assert (64 ^ Z.of_nat (length ds) = 256 ^ Z.of_nat (length bs) * 2 ^ sh) as Hp.
      { change 64 with (2 ^ 6). change 256 with (2 ^ 8). rewrite <- !Z.pow_mul_r, <- Z.pow_add_r by lia. f_equal. unfold sh. lia. }
      rewrite !Nat2Z.inj_succ, !Z.pow_succ_r by lia. rewrite Hp.
      set (P := 256 ^ Z.of_nat (length bs)). set (Q := 2 ^ sh). assert (0 < Q) by (apply Z.pow_pos_nonneg; lia).
      replace (a * (64 * (64 * (64 * (P * Q)))) + (b * (64 * (64 * (P * Q))) + (c * (64 * (P * Q)) + (d * (P * Q) + valueIn 64 ds))))
        with ((((a * 64 + b) * 64 + c) * 64 + d) * P * Q + valueIn 64 ds) by ring.
      rewrite Z.div_add_l by lia.
      assert ((a * 4 + b / 16) * 65536 + (b mod 16 * 16 + c / 4) * 256 + (c mod 4 * 64 + d) = ((a * 64 + b) * 64 + c) * 64 + d) as <-
        by (Z.div_mod_to_equations; lia).
      ring.
Qed.

(** [RawURLEncoding.DecodeString] takes exactly the texts of bytes. *)
Lemma b64Decode_writes s bs : b64Decode s = Some bs <-> writes s bs.
Proof.
  unfold b64Decode. fold (characters s). split.
  - intros (ds & Hds & Hq)%bind_Some. apply mapM_Some in Hds. exists ds.
    assert (digitsIn 64 ds) as Hr.
    { clear Hq. induction Hds as [|c d cs ds Hc _ IH]; constructor; [|done]. apply b64Digit_alphabet in Hc as [? Hc].
      apply lookup_lt_Some in Hc. change (length base64url) with 64%nat in Hc. lia. }
    pose proof (b64Quads_spec ds Hr) as Hs. rewrite Hq in Hs. split; [|exact Hs].
    apply Forall2_flip. eapply Forall2_impl; [|exact Hds]. intros c d Hc. by apply b64Digit_alphabet.
  - intros (ds & Hds & Hm & Hb & Hl & Hv).
    assert (mapM b64Digit (characters s) = Some ds) as ->.
    { apply mapM_Some, Forall2_flip. eapply Forall2_impl; [|exact Hds]. intros d c Hc. by apply b64Digit_alphabet. }
    cbn. assert (digitsIn 64 ds) as Hr.
    { clear -Hds. induction Hds as [|d c ds cs [? Hc] _ IH]; constructor; [|done].
      apply lookup_lt_Some in Hc. change (length base64url) with 64%nat in Hc. lia. }
    pose proof (b64Quads_spec ds Hr) as Hs. destruct (b64Quads ds) as [bs'|]; [|done].
    destruct Hs as (_ & Hb' & Hl' & Hv'). f_equal. apply (valueIn_inj 256); try done; [congruence|]. by rewrite Hv, Hv', Hl, Hl'.
Qed.

(** ** Decimal text *)

(** A signed decimal text of an int64. *)
Definition decimal (bs : list Z) (n : Z) : Prop :=
  exists sign ds, bs = sign ++ map (fun d => 48 + d) ds /\ ds <> [] /\ digitsIn 10 ds /\ - 2 ^ 63 <= n < 2 ^ 63 /\
    (sign = [] /\ n = valueIn 10 ds \/ sign = [43] /\ n = valueIn 10 ds \/ sign = [45] /\ n = - valueIn 10 ds).

Lemma digitValue_digit b d : digitValue b = Some d <-> b = 48 + d /\ 0 <= d < 10.
Proof.
  unfold digitValue. destruct (Z.leb_spec 48 b), (Z.leb_spec b 57); cbn; split; try (intros [= <-]; lia); try (by intros [=]); try lia.
  intros [-> ?]. f_equal. lia.
Qed.
Lemma parseDigits_spec bs n : parseDigits bs = Some n <->
  exists ds, bs = map (fun d => 48 + d) ds /\ ds <> [] /\ digitsIn 10 ds /\ n = valueIn 10 ds.
Proof.
  assert (forall ds, mapM digitValue bs = Some ds <-> bs = map (fun d => 48 + d) ds /\ digitsIn 10 ds) as Hds.
  { intros ds. rewrite mapM_Some. split.
    - induction 1 as [|b d bs ds Hb _ [-> IH]]; [by split; [|constructor]|]. apply digitValue_digit in Hb as [-> Hd]. by split; [|constructor].
    - intros [-> Hd]. induction Hd; constructor; [by apply digitValue_digit|done]. }
  unfold parseDigits. destruct bs as [|b bs]; [split; [done|]; by intros ([|] & ? & ? & _)|]. split.
  - intros (ds & [Hb Hr]%Hds & [= <-])%bind_Some. exists ds. split_and!; try done. by destruct ds.
  - intros (ds & Hb & _ & Hr & ->). apply bind_Some. exists ds. split; [by apply Hds|done].
Qed.
Lemma ParseInt_decimal bs n : ParseInt bs = Some n <-> decimal bs n.
Proof.
  unfold ParseInt. rewrite bind_Some. split.
  - intros (m & Hm & Hn). destruct ((- 2 ^ 63 <=? m) && (m <? 2 ^ 63)) eqn:E; [|done]. injection Hn as <-.
    apply andb_prop in E as [E1%Z.leb_le E2%Z.ltb_lt].
    assert ((exists bs', bs = 45 :: bs' /\ Z.opp <$> parseDigits bs' = Some m) \/ (exists bs', bs = 43 :: bs' /\ parseDigits bs' = Some m) \/
      parseDigits bs = Some m) as [(bs' & -> & (k & Hk & ->)%fmap_Some)|[(bs' & -> & Hk)|Hk]].
    { destruct bs as [|b bs]; [by right; right|]. destruct (decide (b = 45)) as [->|]; [left; by exists bs|].
      destruct (decide (b = 43)) as [->|]; [right; left; by exists bs|]. right. right.
      destruct b as [|p|p]; try exact Hm. repeat (destruct p as [p|p|]; try exact Hm; try congruence). }
    + apply parseDigits_spec in Hk as (ds & -> & Hne & Hd & ->). exists [45], ds. split_and!; try done. by right; right.
    + apply parseDigits_spec in Hk as (ds & -> & Hne & Hd & ->). exists [43], ds. split_and!; try done. by right; left.
    + apply parseDigits_spec in Hk as (ds & -> & Hne & Hd & ->). exists [], ds. split_and!; try done. by left.
  - intros (sign & ds & -> & Hne & Hd & [E1 E2] & Hsign). exists n.
    rewrite (proj2 (Z.leb_le _ _) E1), (proj2 (Z.ltb_lt _ _) E2). split; [|done].
    assert (parseDigits (map (fun d => 48 + d) ds) = Some (valueIn 10 ds)) as Hp by (apply parseDigits_spec; by exists ds).
    destruct Hsign as [[-> ->]|[[-> ->]|[-> ->]]]; cbn [app]; [|by rewrite Hp..].
    destruct ds as [|d ds]; [done|]. cbn [map] in *. apply Forall_cons_1 in Hd as [Hd _].
    assert (d = 0 \/ d = 1 \/ d = 2 \/ d = 3 \/ d = 4 \/ d = 5 \/ d = 6 \/ d = 7 \/ d = 8 \/ d = 9) as Hcase by lia.
    destruct Hcase as [->|[->|[->|[->|[->|[->|[->|[->|[->| ->]]]]]]]]]; exact Hp.
Qed.

(** ** Session cursors *)

(** A cursor: the creation time in nanoseconds, NUL, and the uid. *)
Definition cursorToken (token : string) (n : Z) (uid : string) : Prop :=
  exists bs, decimal bs n /\ writes token (bs ++ 0 :: bytesOf uid).
(** What [ListSessions] takes for a token: nothing, or a cursor. *)
Definition sessionToken (token : string) : Prop := token = EmptyString \/ exists n uid, cursorToken token n uid.

Lemma cutNul_Some bs a b : cutNul bs = Some (a, b) -> bs = a ++ 0 :: b.
Proof.
  revert a. induction bs as [|x bs IH]; intros a; [done|]. cbn [cutNul]. destruct (Z.eqb_spec x 0) as [->|]; [by intros [= <- <-]|].
  destruct (cutNul bs) as [[a' b']|] eqn:E; [|done]. intros [= <- <-]. cbn. f_equal. by apply IH.
Qed.
Lemma decimal_nonzero bs n : decimal bs n -> Forall (fun b => b <> 0) bs.
Proof.
  intros (sign & ds & -> & _ & Hd & _ & Hs). apply Forall_app. split.
  - destruct Hs as [[-> _]|[[-> _]|[-> _]]]; repeat constructor; lia.
  - apply List.Forall_map. eapply List.Forall_impl; [|exact Hd]. cbn. intros d Hr. lia.
Qed.
Lemma decodeCursor_token token n uid : decodeCursor token = Ok (n, uid) <-> cursorToken token n uid.
Proof.
  unfold decodeCursor. split.
  - destruct (b64Decode token) as [raw|] eqn:Hd; [|done]. destruct (cutNul raw) as [[a b]|] eqn:Hc; [|done].
    destruct (ParseInt a) as [m|] eqn:Hp; [|done]. intros [= <- <-]. apply b64Decode_writes in Hd. apply cutNul_Some in Hc as ->.
    exists a. split; [by apply ParseInt_decimal|]. rewrite bytesOf_stringOf; [done|].
    destruct Hd as (_ & _ & _ & Hb & _). apply Forall_app in Hb as [_ Hb]. by apply Forall_cons_1 in Hb as [_ Hb].
  - intros (bs & Hn & Hw%b64Decode_writes). rewrite Hw, cutNul_app by (by eapply decimal_nonzero).
    apply ParseInt_decimal in Hn as ->. by rewrite stringOf_bytesOf.
Qed.

(** ** Harness cursors *)

(** What [ListHarnesses] takes for a token, and the name it resumes behind. *)
Definition harnessToken (token after : string) : Prop :=
  (token = EmptyString /\ after = EmptyString) \/ (after <> EmptyString /\ writes token (bytesOf after)).
