(* ===== verification/SqlHarnesses.v ===== *)
(** * Package sqlitelog: registered and reserved harness names (sqlitelog/harnesses.go) *)
From S2P Require Import Prelude GoErrors Api Canon EventLog Executions Harness Wire Tables Projection SqlLog SqlSessions.
From stdpp Require Import sorting.
#[local] Open Scope Z_scope.

Inductive RegisterResult := HarnessCreated | HarnessUnchanged | HarnessReactivated.

Record HarnessRecord := mkHarnessRecord {
  hr_Name : string; hr_UID : string; hr_Spec : string; SpecDigest : string;
  hr_State : HarnessState; RetireReason : string; RetiredAt : option Z;
  hr_CreatedAt : option Z; hr_UpdatedAt : option Z;
}.

Record HarnessListOptions := mkHarnessListOptions { After : string; Limit : Z; IncludeRetired : bool }.

(** [scanHarness]. *)
Definition scanHarness (name : string) (r : HarnessRow) : HarnessRecord :=
  mkHarnessRecord name (h_uid r) (h_spec r) (h_spec_digest r) (h_state r) (h_retire_reason r)
    (if h_retired_at r =? 0 then None else Some (h_retired_at r)) (Some (h_created_at r)) (Some (h_updated_at r)).

(** [INSERT INTO harnesses]: the name is the primary key. *)
Definition insertHarness `{Driver} (name : string) (r : HarnessRow) (t : Tables) : Tables * res unit :=
  match t_harnesses t !! name with
  | Some _ => (t, Err constraintViolation)
  | None => (setHarnesses (<[name := r]> (t_harnesses t)) t, Ok tt)
  end.

(** The updates of reactivation and retirement. *)
Definition reactivateRow (at_ : Z) (r : HarnessRow) : HarnessRow :=
  mkHarnessRow (h_uid r) (h_spec r) (h_spec_digest r) HarnessActive EmptyString 0 (h_created_at r) at_.
Definition retireRow (reason : string) (at_ : Z) (r : HarnessRow) : HarnessRow :=
  if bool_decide (h_state r = HarnessActive)
  then mkHarnessRow (h_uid r) (h_spec r) (h_spec_digest r) HarnessRetired reason at_ (h_created_at r) at_
  else r.

(** [INSERT OR IGNORE INTO reserved_harness_names]. *)
Definition insertReserved (name : string) (at_ : Z) (t : Tables) : Tables :=
  match t_reserved t !! name with
  | Some _ => t
  | None => setReserved (<[name := at_]> (t_reserved t)) t
  end.

(** ORDER BY name, and the WHERE of a listing. *)
Definition nameLeb (a b : string * HarnessRow) : bool := String.leb (fst a) (fst b).
Definition harnessListed (opts : HarnessListOptions) (r : string * HarnessRow) : Prop :=
  String.ltb (After opts) (fst r) = true /\ (IncludeRetired opts = true \/ h_state (snd r) = HarnessActive).
#[export] Instance harnessListed_dec opts r : Decision (harnessListed opts r).
Proof. unfold harnessListed. apply _. Defined.

Section SqlHarnesses.
Context `{Encoding} `{ProtoCodec} `{Driver}.
Variable defaultProject : string.

(** [harnessByName(q, name)]. *)
Definition harnessByName (name : string) : M DB goerr HarnessRecord :=
  let! row := wrapErr "sqlitelog: harness" (select (fun t => t_harnesses t !! name)) in
  match row with
  | None => throw (EWrap "harness" (ESentinel ErrHarnessNotFound))
  | Some r => mret (scanHarness name r)
  end.

(** [nameReserved(q, name)]. *)
Definition nameReserved (name : string) : M DB goerr bool :=
  wrapErr "sqlitelog: harness" (select (fun t => bool_decide (is_Some (t_reserved t !! name)))).

(** The read of [harnessByName] with its not-found error set apart, as both transactions branch on it. *)
Definition lookupHarness (name : string) : M DB goerr (option HarnessRecord) :=
  let! r := try (harnessByName name) in
  match r with
  | Ok h => mret (Some h)
  | Err e => if errors_Is e ErrHarnessNotFound then mret None else throw e
  end.

(** [Store.RegisterHarness]. *)
Definition registerTx (rec : HarnessRecord) : M DB goerr (HarnessRecord * RegisterResult) :=
  let name := hr_Name rec in
  let! reserved := nameReserved name in
  if reserved : bool then throw (EWrap "register" (ESentinel ErrHarnessNameReserved))
  else
    let! at_ := now in
    let! existing := lookupHarness name in
    let! result := match existing with
      | None =>
          do! wrapErr "sqlitelog: register harness"
            (stmt (insertHarness name (mkHarnessRow (hr_UID rec) (hr_Spec rec) (SpecDigest rec) HarnessActive
                                         EmptyString 0 at_ at_))) in
          mret HarnessCreated
      | Some h =>
          if negb (bool_decide (SpecDigest h = SpecDigest rec))
          then throw (EWrap "register" (ESentinel ErrHarnessSpecConflict))
          else if bool_decide (hr_State h = HarnessActive) then mret HarnessUnchanged
          else
            do! wrapErr "sqlitelog: reactivate harness"
              (execute (fun t => setHarnesses (alter (reactivateRow at_) name (t_harnesses t)) t)) in
            mret HarnessReactivated
      end in
    let! out := harnessByName name in
    do! wrapErr "sqlitelog: register harness" Commit in
    mret (out, result).

Definition RegisterHarness (rec : HarnessRecord) : M DB goerr (HarnessRecord * RegisterResult) :=
  if bool_decide (hr_Name rec = EmptyString) || bool_decide (hr_UID rec = EmptyString)
     || bool_decide (hr_Spec rec = EmptyString) || bool_decide (SpecDigest rec = EmptyString)
  then throw (EText "sqlitelog: harness registration needs name, uid, spec and digest")
  else
    do! wrapErr "sqlitelog: register harness" Begin in
    deferRollback (registerTx rec).

(** [Store.ReserveHarnessNames]. *)
Fixpoint reserveLoop (at_ : Z) (names : list string) : M DB goerr unit :=
  match names with
  | [] => mret tt
  | name :: names' =>
      if bool_decide (name = EmptyString) then throw (EText "sqlitelog: reserve harness names: empty name")
      else
        let! existing := lookupHarness name in
        match existing with
        | Some _ => throw (EWrap "reserve" (ESentinel ErrHarnessNameCollision))
        | None =>
            do! wrapErr "sqlitelog: reserve harness name" (execute (insertReserved name at_)) in
            reserveLoop at_ names'
        end
  end.

Definition ReserveHarnessNames (names : list string) : M DB goerr unit :=
  do! wrapErr "sqlitelog: reserve harness names" Begin in
  deferRollback
    (let! at_ := now in
     do! reserveLoop at_ names in
     wrapErr "sqlitelog: reserve harness names" Commit).

(** [Store.Harness]. *)
Definition Harness_ (name : string) : M DB goerr HarnessRecord := harnessByName name.

(** [Store.ListHarnesses]. *)
Definition ListHarnesses (opts : HarnessListOptions) : M DB goerr (list HarnessRecord) :=
  if Limit opts <=? 0 then throw (EText "sqlitelog: list harnesses needs a positive limit")
  else
    let! rows := wrapErr "sqlitelog: list harnesses"
      (select (fun t => take (Z.to_nat (Limit opts))
                 (orderBy nameLeb (filter (harnessListed opts) (map_to_list (t_harnesses t)))))) in
    mret (map (fun r => scanHarness (fst r) (snd r)) rows).

(** [Store.RetireHarness]. *)
Definition RetireHarness (name reason : string) : M DB goerr HarnessRecord :=
  do! wrapErr "sqlitelog: retire harness" Begin in
  deferRollback
    (let! at_ := now in
     do! wrapErr "sqlitelog: retire harness"
       (execute (fun t => setHarnesses (alter (retireRow reason at_) name (t_harnesses t)) t)) in
     let! out := harnessByName name in
     do! wrapErr "sqlitelog: retire harness" Commit in
     mret out).

(** [Store.PutSessionOnActiveHarness]. *)
Definition putOnHarnessTx (m : SessionMeta) (registered : bool) : M DB goerr unit :=
  do! checkWritable (UID m) in
  let! existing := try (harnessByName (sm_Harness m)) in
  do! match existing with
    | Err e => if errors_Is e ErrHarnessNotFound
               then (if registered then throw e else mret tt) else throw e
    | Ok h =>
        if negb registered then throw (EWrap "put session" (ESentinel ErrHarnessNameCollision))
        else if negb (bool_decide (hr_State h = HarnessActive))
        then throw (EWrap "put session" (ESentinel ErrHarnessRetired))
        else mret tt
    end in
  do! putSession defaultProject m in
  wrapErr "sqlitelog: put session" Commit.

Definition PutSessionOnActiveHarness (m : SessionMeta) (registered : bool) : M DB goerr unit :=
  do! wrapErr "sqlitelog: put session" Begin in
  deferRollback (putOnHarnessTx m registered).
End SqlHarnesses.
