(* ===== verification/SqlMigrate.v ===== *)
(** * Package sqlitelog: schema migrations (sqlitelog/sqlitelog.go, approval_projection.go)

    A table that an old schema does not have is empty, and a column it does not have holds whatever
    value until ADD COLUMN gives it its default. *)
From S2P Require Import Prelude GoErrors Api Canon EventLog Executions Harness Wire Tables Projection SqlLog SqlHarnesses.
From stdpp Require Import sorting.
#[local] Open Scope Z_scope.

Definition SchemaVersion : Z := 4.

(** [checkVersion]. *)
Definition checkVersion (v : Z) : option goerr :=
  if v <? 0 then Some (EWrap "database is stamped" (ESentinel ErrUnsupportedSchema))
  else if SchemaVersion <? v then Some (EWrap "database is newer" (ESentinel ErrUnsupportedSchema))
  else None.

(** ORDER BY session, seq. *)
Definition sessionSeqLeb (a b : EventRow) : bool :=
  bool_decide (e_session a <> e_session b) && String.leb (e_session a) (e_session b)
  || bool_decide (e_session a = e_session b) && (e_seq a <=? e_seq b).

(** The harness an EXECUTION_START marker records. *)
Definition markerHarness (ev : Event) : option string :=
  match Kind ev, ev_ExecutionStart ev with
  | EventExecutionStart, Some st =>
      if bool_decide (es_Harness st = EmptyString) then None else Some (es_Harness st)
  | _, _ => None
  end.

(** The scan of [migrateV1ToV2]: the names the markers record. *)
Fixpoint markerNames `{ProtoCodec} (rows : list EventRow) (names : gset string) : res (gset string) :=
  match rows with
  | [] => Ok names
  | e :: rows' =>
      match decode (e_event e) with
      | Err err => Err (EWrap "decode session" err)
      | Ok ev => markerNames rows' (match markerHarness ev with Some h => {[h]} ∪ names | None => names end)
      end
  end.

(** The INSERT OR IGNORE ... SELECT DISTINCT of [v1ToV2]. *)
Definition sessionHarnesses (t : Tables) : gset string :=
  list_to_set (filter (fun h => h <> EmptyString) (map (fun r => s_harness (snd r)) (map_to_list (t_sessions t)))).
Definition reserveAll (names : gset string) (at_ : Z) (t : Tables) : Tables :=
  setReserved (t_reserved t ∪ gset_to_gmap at_ names) t.

(** ALTER TABLE sessions ADD COLUMN ... DEFAULT. *)
Definition addReportColumns (t : Tables) : Tables :=
  setCalls ∅ (setExecutions ∅ (setSessions (setReport defaultReport <$> t_sessions t) t)).
Definition addDeletionColumns (t : Tables) : Tables :=
  setSessions (setDeletion defaultDeletion <$> t_sessions t) t.

(** [SELECT seq, event FROM events WHERE session = ? AND seq > ? ORDER BY seq LIMIT 1]. *)
Definition nextEvent (uid : string) (cursor : Z) (t : Tables) : option EventRow :=
  head (orderBy seqLeb (filter (fun e => e_session e = uid /\ cursor < e_seq e) (t_events t))).

(** [SELECT session FROM sessions ORDER BY session]. *)
Definition sessionUIDs (t : Tables) : list string := orderBy String.leb (map_to_list (t_sessions t)).*1.

(** [UPDATE sessions SET approval_corrupt = 1, last_seq = (SELECT ...)]. *)
Definition markCorrupt (head : Z) (s : SessionRow) : SessionRow :=
  let r := s_report s in
  setReport (mkReportCols head (latest_execution r) (reporting_fork_seq r) true (invalid_approval_executions r)) s.

Section SqlMigrate.
Context `{ProtoCodec} `{Driver}.

(** Its last loop. *)
Fixpoint insertNames (at_ : Z) (names : list string) : M DB goerr unit :=
  match names with
  | [] => mret tt
  | name :: names' => do! execute (insertReserved name at_) in insertNames at_ names'
  end.

(** [migrateV1ToV2]. *)
Definition migrateV1ToV2 : M DB goerr unit :=
  let! at_ := now in
  do! execute (fun t => reserveAll (sessionHarnesses t) (at_ / 1000000000 * 1000000000) t) in
  let! rows := select (fun t => orderBy sessionSeqLeb (t_events t)) in
  let! names := lift (markerNames rows ∅) in
  let! at_ := now in
  insertNames at_ (elements names).

(** The loop of [migrateV2ToV3] over one journal, one row at a time; [fuel] bounds its rows. *)
Fixpoint backfill (fuel : nat) (uid : string) (cursor : Z) : M DB goerr unit :=
  match fuel with
  | O => throw (EText "out of fuel")
  | S fuel' =>
      let! row := select (nextEvent uid cursor) in
      match row with
      | None => mret tt
      | Some e =>
          match decode (e_event e) with
          | Err _ => execute (fun t => updateSession (markCorrupt (headSeq uid t)) uid t)
          | Ok ev =>
              do! wrapErr "session" (projectApproval uid (e_seq e) ev) in
              backfill fuel' uid (e_seq e)
          end
      end
  end.

Fixpoint backfillAll (fuel : nat) (uids : list string) : M DB goerr unit :=
  match uids with
  | [] => mret tt
  | uid :: uids' => do! backfill fuel uid 0 in backfillAll fuel uids'
  end.

(** [migrateV2ToV3]. *)
Definition migrateV2ToV3 : M DB goerr unit :=
  do! execute addReportColumns in
  let! uids := select sessionUIDs in
  let! fuel := gets (fun d => S (length (t_events (tables d)))) in
  backfillAll fuel uids.

(** [migrateV3ToV4]. *)
Definition migrateV3ToV4 : M DB goerr unit := execute addDeletionColumns.

(** The rungs from version [v] up. *)
Definition runMigrations (v : Z) : M DB goerr unit :=
  do! (if v <=? 1 then wrapErr "sqlitelog: migrate v1 to v2" migrateV1ToV2 else mret tt) in
  do! (if v <=? 2 then wrapErr "sqlitelog: migrate v2 to v3" migrateV2ToV3 else mret tt) in
  (if v <=? 3 then wrapErr "sqlitelog: migrate v3 to v4" migrateV3ToV4 else mret tt).

(** [userVersion]. *)
Definition userVersion : M DB goerr Z := wrapErr "sqlitelog: read schema version" (select user_version).

(** [migrate(db)]: the stamp is read again under the write lock. *)
Definition migrateTx : M DB goerr unit :=
  let! v := userVersion in
  do! check (checkVersion v) in
  if v =? SchemaVersion then mret tt
  else
    do! (if v =? 0 then wrapErr "sqlitelog: schema" (execute (fun t => t)) else mret tt) in
    let v := if v =? 0 then 1 else v in
    do! runMigrations v in
    do! wrapErr "sqlitelog: stamp schema version" (execute (setVersion SchemaVersion)) in
    wrapErr "sqlitelog: migrate" Commit.

Definition migrate : M DB goerr unit :=
  let! v := userVersion in
  do! check (checkVersion v) in
  if v =? SchemaVersion then mret tt
  else
    do! wrapErr "sqlitelog: migrate" Begin in
    deferRollback migrateTx.
End SqlMigrate.
