(* ===== verification/Reporting.v ===== *)
(** * What a listing reports is what the strict scan finds

    The reducer of sqlitelog folds one event at a time into a few columns; the scan of
    controller/approval.go reads a whole journal. The columns of an execution abstract the state of
    its inspection, so the pending request that a session row reports is the scan's selected one. *)
From S2P Require Import Prelude GoErrors Api Canon EventLog Executions Approvals Harness Wire Tables Projection SqlLog SqlSessions Reducer.

(** The request the strict scan of a journal leaves open: selected, undecided, of this session. *)
Definition pendingRef (s : ApprovalState) : ApprovalRef :=
  match as_Request s, as_Decision s, as_Receipt s with
  | Some q, None, None =>
      if as_Inherited s || as_Completed s then noApproval
      else mkApprovalRef (as_ExecutionID s) (tc_ID (as_Call s)) (Seq q)
  | _, _, _ => noApproval
  end.
Definition pendingOf (rs : list Record_) : ApprovalRef :=
  match scanApprovalRecords rs 0 with
  | Ok scan => match selectedState scan with Some s => pendingRef s | None => noApproval end
  | Err _ => noApproval
  end.

(** What the columns of a report say, as [sessionSelect] and [scanSession] read them. *)
Definition colsReportable (c : ReportCols) (head : Z) (a : ApprovalRow) : bool :=
  reportable (setReport c (defaultRow 0 EmptyString 0 0)) head (latest_execution c) a.
Definition reportedOf (p : Report) (head : Z) : ApprovalRef :=
  let c := rp_cols p in
  match rp_execs p !! latest_execution c with
  | Some a =>
      if colsReportable c head a
      then (if requestSeq a =? 0 then noApproval
            else mkApprovalRef (latest_execution c) (callID a) (requestSeq a))
      else noApproval
  | None => noApproval
  end.

(** The columns of a row against the state of an inspection; [fork] is the last fork marker. *)
Record absRow (fork : Z) (st : inspectState) (a : ApprovalRow) : Prop := {
  ar_start : hasStart a = x_hasStart (in_invocation st);
  ar_expected : expectedInputs a = x_inputCount (in_invocation st);
  ar_inputs : inputs a = x_inputRecords (in_invocation st);
  ar_messages : messages a = Z.of_nat (length (x_inputs (in_invocation st)));
  ar_completed : completed a = x_completed (in_invocation st);
  ar_gated : gated a = false -> in_last st = None;
  ar_last : match in_last st with
    | None => callID a = EmptyString /\ requestSeq a = 0 /\ in_older st = []
    | Some s =>
        callID a = tc_ID (as_Call s) /\ callID a <> EmptyString /\
        as_Inherited s = (callSeq a <? fork) /\ 0 < callSeq a /\
        requestSeq a = from_option Seq 0 (as_Request s) /\
        decisionSeq a = from_option Seq 0 (as_Decision s) /\
        receipt a = bool_decide (is_Some (as_Receipt s)) /\
        (forall q, as_Request s = Some q -> 0 < Seq q) /\
        (forall q, as_Decision s = Some q -> 0 < Seq q /\
           exists d, ev_ApprovalResult (rec_Event q) = Some d /\ approved a = Approved d)
    end;
}.

(** The same for an inspection that may have failed. *)
Definition rowAbs (id : string) (fork : Z) (r : res inspectState) (a : ApprovalRow)
    (calls : gmap (string * string) bool) : Prop :=
  match r with
  | Err _ => invalid a = true
  | Ok st => invalid a = false /\ absRow fork st a /\ forall c, calls !! (id, c) = in_calls st !! c
  end.

(** ** One record *)

Lemma absRow_open fork st a : absRow fork st a -> rowOpen a = in_open st.
Proof.
  intros Ha. pose proof (ar_last _ _ _ Ha) as Hl. unfold rowOpen, in_open.
  destruct (in_last st) as [s|].
  - destruct Hl as (_ & Hne & _ & _ & _ & _ & -> & _). rewrite bool_decide_eq_false_2 by done.
    by destruct (as_Receipt s).
  - destruct Hl as [-> _]. done.
Qed.

Lemma marksGated_gatedEvidence ev : marksGated ev = gatedEvidence ev.
Proof.
  unfold marksGated, gatedEvidence, isGatedCall. destruct (Kind ev) eqn:K; try done.
  - simpl. by rewrite orb_false_r.
Qed.

Lemma absRow_mark fork st a ev : absRow fork st a -> absRow fork st (markRow ev a).
Proof.
  unfold markRow. destruct (marksGated ev); [|done]. intros []. constructor; try done.
Qed.

Lemma rowOpen_mark ev a : rowOpen (markRow ev a) = rowOpen a.
Proof. unfold markRow. by destruct (marksGated ev). Qed.

Section step.
Variables (id : string) (h fork : Z) (r : Record_).
Hypothesis Hid : ExecutionID (rec_Event r) = id.
Hypothesis Hpos : 0 < Seq r.

Lemma stepToolCall_abs st a calls : invalid a = false -> absRow fork st a ->
  (forall c, calls !! (id, c) = in_calls st !! c) -> (marksGated (rec_Event r) = true -> gated a = true) ->
  Kind (rec_Event r) = EventToolCall -> in_open st = false ->
  rowAbs id fork (inspectToolCall id h fork r st)
    (fst (stepToolCall calls (Seq r) (rec_Event r) a)) (snd (stepToolCall calls (Seq r) (rec_Event r) a)).
Proof.
  intros Hinv Ha Hc Hg Hk Ho. unfold inspectToolCall, stepToolCall. rewrite (absRow_open _ _ _ Ha), Ho, Hid.
  destruct (ev_ToolCall (rec_Event r)) as [call|] eqn:Hcall; [|done]. rewrite Hc.
  set (g := bool_decide (tc_Mediation call = MediationRequiresApproval)) in *.
  destruct (match in_calls st !! tc_ID call with Some _ => _ | None => _ end) eqn:Hdup; [done|].
  assert (Hcalls : forall c, (match in_calls st !! tc_ID call with Some _ => calls | None => <[(id, tc_ID call) := g]> calls end) !! (id, c)
    = <[tc_ID call := g]> (in_calls st) !! c).
  { intros c. destruct (decide (c = tc_ID call)) as [->|Hne].
    - rewrite lookup_insert_eq. destruct (in_calls st !! tc_ID call) as [prior|] eqn:Hp.
      + rewrite Hc, Hp. destruct prior, g; done.
      + by rewrite lookup_insert_eq.
    - rewrite lookup_insert_ne by congruence. destruct (in_calls st !! tc_ID call); [done|].
      rewrite lookup_insert_ne by congruence. done. }
  destruct g eqn:Eg; simpl.
  - rewrite <- (ar_completed _ _ _ Ha). destruct (completed a); simpl; [done|].
    case_bool_decide as Hnil; simpl; [done|]. case_bool_decide as Hkey; simpl; [done|].
    split; [done|]. split; [|done]. destruct Ha. constructor; simpl; try done.
    intros Hn. exfalso. rewrite Hg in Hn; [done|]. unfold marksGated. rewrite Hk, Hcall. simpl.
    unfold g in Eg. rewrite Eg. done.
  - split; [done|]. split; [|done]. destruct Ha. by constructor.
Qed.

Lemma reduceRequest_abs st a calls : invalid a = false -> absRow fork st a ->
  (forall c, calls !! (id, c) = in_calls st !! c) ->
  rowAbs id fork (inspectRequest r st) (reduceRequest (Seq r) (rec_Event r) a) calls.
Proof.
  intros Hinv Ha Hc. unfold inspectRequest, reduceRequest. rewrite (absRow_open _ _ _ Ha).
  destruct (ev_Approval (rec_Event r)) as [ap|]; [|done].
  pose proof (ar_last _ _ _ Ha) as Hl. destruct (in_last st) as [s|] eqn:El.
  - destruct Hl as (Hid' & Hne & Hin & Hcs & Hrq & Hds & Hrc & Hq & Hd).
    destruct (in_open st) eqn:Ho; simpl; [|done].
    replace (requestSeq a =? 0) with (bool_decide (as_Request s = None))
      by (rewrite Hrq; destruct (as_Request s) as [q|]; simpl; [specialize (Hq q eq_refl); lia|done]).
    destruct (bool_decide (as_Request s = None)) eqn:Er; simpl; [|done]. rewrite Hid'.
    destruct (bool_decide (req_ToolCallID ap = _)); simpl; [|done]. apply bool_decide_eq_true in Er. split; [done|]. split; [|done].
    destruct Ha. constructor; simpl; try done; [intros Hn; specialize (ar_gated0 Hn); congruence|].
    split_and!; try done. intros q [= <-]. done.
  - unfold in_open. rewrite El. done.
Qed.

Lemma reduceDecision_abs st a calls : invalid a = false -> absRow fork st a ->
  (forall c, calls !! (id, c) = in_calls st !! c) ->
  rowAbs id fork (inspectDecision r st) (reduceDecision (Seq r) (rec_Event r) a) calls.
Proof.
  intros Hinv Ha Hc. unfold inspectDecision, reduceDecision. rewrite (absRow_open _ _ _ Ha).
  destruct (ev_ApprovalResult (rec_Event r)) as [d|] eqn:Ed; [|done].
  pose proof (ar_last _ _ _ Ha) as Hl. destruct (in_last st) as [s|] eqn:El.
  - destruct Hl as (Hid' & Hne & Hin & Hcs & Hrq & Hds & Hrc & Hq & Hd).
    destruct (as_Request s) as [q|] eqn:Eq; simpl in Hrq.
    2: { rewrite Hrq. simpl. rewrite orb_true_r. done. }
    specialize (Hq q eq_refl). rewrite (proj2 (Z.eqb_neq (requestSeq a) 0)) by lia.
    destruct (as_Decision s) as [dr|] eqn:Edr; simpl in Hds.
    { destruct (Hd dr eq_refl) as [Hp _]. rewrite (proj2 (Z.eqb_neq (decisionSeq a) 0)) by lia.
      simpl. by rewrite orb_true_r. }
    rewrite Hds. simpl. destruct (in_open st) eqn:Ho; simpl; [|done]. rewrite Hid', Hrq.
    destruct (negb (bool_decide (res_ToolCallID d = tc_ID (as_Call s))) || negb (RequestSeq d =? Seq q)); [done|].
    split; [done|]. split; [|done].
    destruct Ha. constructor; simpl; try done; [intros Hn; specialize (ar_gated0 Hn); congruence|].
    split_and!; try done; [by rewrite Eq|by intros ? ?; simplify_eq|]. intros q' [= <-]. eauto.
  - unfold in_open. rewrite El. done.
Qed.

Lemma receiptFits_valid d t : receiptFits (Approved d) t = receiptValid d t.
Proof. done. Qed.

Lemma stepToolResult_abs st a calls : invalid a = false -> absRow fork st a ->
  (forall c, calls !! (id, c) = in_calls st !! c) ->
  rowAbs id fork (inspectToolResult r st) (stepToolResult calls (rec_Event r) a) calls.
Proof.
  intros Hinv Ha Hc. unfold inspectToolResult, stepToolResult. rewrite (absRow_open _ _ _ Ha).
  pose proof (ar_last _ _ _ Ha) as Hl. destruct (in_open st) eqn:Ho.
  - unfold in_open in Ho. destruct (in_last st) as [s|] eqn:El; [|done].
    destruct (as_Receipt s) eqn:Erc; [done|].
    destruct Hl as (Hid' & Hne & Hin & Hcs & Hrq & Hds & Hrc & Hq & Hd).
    destruct (ev_Result (rec_Event r)) as [t|]; [|done].
    destruct (as_Request s) as [q|] eqn:Eq; simpl in Hrq; [|rewrite Hrq; done].
    specialize (Hq q eq_refl). rewrite (proj2 (Z.eqb_neq (requestSeq a) 0)) by lia.
    destruct (as_Decision s) as [dr|] eqn:Edr; simpl in Hds; [|rewrite Hds; done].
    destruct (Hd dr eq_refl) as (Hp & d & Hdd & Happ). rewrite (proj2 (Z.eqb_neq (decisionSeq a) 0)) by lia.
    simpl. rewrite Hid', Hrq, Hds, Hdd, Happ, receiptFits_valid.
    unfold validateApprovalReceipt. destruct (_ || _ || _); simpl; [done|].
    destruct (receiptValid d t); simpl; [|done]. split; [done|]. split; [|done].
    destruct Ha. constructor; simpl; try done; [intros Hn; specialize (ar_gated0 Hn); congruence|].
    split_and!; try done; [by rewrite Eq|by rewrite Edr|by intros ? ?; simplify_eq|].
    intros q' Hq'. rewrite Edr in Hq'. injection Hq' as <-. eauto.
  - unfold inspectUnbound. destruct (ev_Result (rec_Event r)) as [t|]; [|by split].
    rewrite Hid, Hc. destruct (_ || _ || _); [done|by split].
Qed.

(** One record: the reducer's step is the inspection's. *)
Lemma stepRow_abs i st a calls : invalid a = false -> absRow fork st a ->
  (forall c, calls !! (id, c) = in_calls st !! c) -> (marksGated (rec_Event r) = true -> gated a = true) ->
  (i = 0%nat <-> Seq r = firstSeq a) -> (i = 0%nat -> x_inputCount (in_invocation st) = None) ->
  rowAbs id fork (inspectRecord id h fork i r st)
    (fst (stepRow calls (Seq r) (rec_Event r) a)) (snd (stepRow calls (Seq r) (rec_Event r) a)).
Proof.
  intros Hinv Ha Hc Hg Hi Hz0. unfold inspectRecord, stepRow.
  pose proof (absRow_open _ _ _ Ha) as Hopen.
  destruct (Kind (rec_Event r)) eqn:Hk; simpl; rewrite ?Hopen;
    try (destruct (in_open st) eqn:Ho; [done|]; by split).
  - destruct (in_open st) eqn:Ho; [done|]. split; [done|]. split; [|done].
    destruct Ha. constructor; simpl; try done; [congruence| ].
    rewrite length_app, ar_messages0. destruct (ev_Message (rec_Event r)); simpl; lia.
  - destruct (in_open st) eqn:Ho; [|by apply stepToolCall_abs].
    unfold stepToolCall. rewrite Hopen. by destruct (ev_ToolCall (rec_Event r)).
  - by apply stepToolResult_abs.
  - by apply reduceRequest_abs.
  - by apply reduceDecision_abs.
  - destruct (in_open st) eqn:Ho; [done|]. split; [done|]. split; [|done]. destruct Ha. by constructor.
  - destruct (ev_ExecutionStart (rec_Event r)) as [start|]; [|done].
    destruct (Nat.eqb_spec i 0) as [Hz|Hz]; simpl.
    + rewrite (proj2 (Z.eqb_eq _ _)) by tauto. simpl. split; [done|]. split; [|done]. 
      destruct Ha. constructor; simpl; try done. destruct (InputCount start); [done|]. rewrite ar_expected0. auto.
    + rewrite (proj2 (Z.eqb_neq _ _)) by tauto. done.
Qed.
End step.

(** ** One execution *)

Lemma stepRow_calls_other calls seq ev a id c : id <> ExecutionID ev ->
  snd (stepRow calls seq ev a) !! (id, c) = calls !! (id, c).
Proof.
  intros Hne. unfold stepRow, stepToolCall. destruct (Kind ev); simpl; try done.
  repeat case_match; simpl; try done; rewrite lookup_insert_ne; congruence.
Qed.

Lemma reduceRow_calls_other calls seq ev a id c : id <> ExecutionID ev ->
  snd (reduceRow calls seq ev a) !! (id, c) = calls !! (id, c).
Proof. unfold reduceRow. destruct (negb (invalid a)); [apply stepRow_calls_other|done]. Qed.

Lemma gated_stepRow calls seq ev a : gated (fst (stepRow calls seq ev a)) = gated a.
Proof.
  unfold stepRow, stepToolCall, stepToolResult, reduceRequest, reduceDecision.
  destruct (Kind ev); simpl; repeat case_match; simpl; try done.
Qed.

Lemma gated_reduceRow calls seq ev a : gated (fst (reduceRow calls seq ev a)) = gated a.
Proof. unfold reduceRow. destruct (negb (invalid a)); [apply gated_stepRow|done]. Qed.

Lemma gated_markRow ev a : gated (markRow ev a) = gated a || gatedEvidence ev.
Proof. unfold markRow. rewrite marksGated_gatedEvidence. destruct (gatedEvidence ev); simpl; by rewrite ?orb_true_r, ?orb_false_r. Qed.

Lemma callSeq_reduceRow calls seq ev a :
  callSeq (fst (reduceRow calls seq ev a)) = callSeq a \/ callSeq (fst (reduceRow calls seq ev a)) = seq.
Proof.
  unfold reduceRow, stepRow, stepToolCall, stepToolResult, reduceRequest, reduceDecision.
  destruct (negb (invalid a)); [|by left].
  destruct (Kind ev); simpl; repeat case_match; simpl; auto.
Qed.

(** What the row of execution [id] says of the records [recs] of that execution. *)
Record row_inv (id : string) (recs : list Record_) (a : ApprovalRow) (calls : gmap (string * string) bool) : Prop := {
  ro_gated : gated a = existsb (fun r => gatedEvidence (rec_Event r)) recs;
  ro_call : callSeq a = 0 \/ exists r, r ∈ recs /\ Seq r = callSeq a;
  ro_abs : forall h fork, rowAbs id fork (inspectRecords id h fork 0 recs (inspectInit id)) a calls;
}.

Lemma row_inv_new id first calls : (forall c, calls !! (id, c) = None) -> row_inv id [] (newApprovalRow first) calls.
Proof.
  intros Hc. constructor; [done|by left|]. intros h fork. simpl. split; [done|]. split; [by constructor|].
  intros c. by rewrite Hc, lookup_empty.
Qed.

Lemma row_inv_step id recs a calls r : row_inv id recs a calls -> ExecutionID (rec_Event r) = id -> 0 < Seq r ->
  (recs = [] <-> Seq r = firstSeq a) ->
  row_inv id (recs ++ [r]) (fst (reduceRow calls (Seq r) (rec_Event r) (markRow (rec_Event r) a)))
    (snd (reduceRow calls (Seq r) (rec_Event r) (markRow (rec_Event r) a))).
Proof.
  intros [Hg Hcs Habs] Hid Hpos Hfirst. constructor.
  - by rewrite gated_reduceRow, gated_markRow, Hg, existsb_snoc.
  - destruct (callSeq_reduceRow calls (Seq r) (rec_Event r) (markRow (rec_Event r) a)) as [E|E]; rewrite E.
    + replace (callSeq (markRow (rec_Event r) a)) with (callSeq a) by (unfold markRow; by case_match).
      destruct Hcs as [?|(r' & ? & ?)]; [by left|right; exists r'; set_solver].
    + right. exists r. set_solver.
  - intros h fork. rewrite inspectRecords_app. specialize (Habs h fork).
    destruct (inspectRecords id h fork 0 recs (inspectInit id)) as [st|e] eqn:Ei; simpl in *.
    + destruct Habs as (Hinv & Ha & Hc).
      assert (invalid (markRow (rec_Event r) a) = false) as Hinv' by (unfold markRow; by case_match).
      unfold reduceRow. rewrite Hinv'. simpl.
      assert (rowAbs id fork (inspectRecord id h fork (length recs) r st)
        (fst (stepRow calls (Seq r) (rec_Event r) (markRow (rec_Event r) a)))
        (snd (stepRow calls (Seq r) (rec_Event r) (markRow (rec_Event r) a)))) as Hstep.
      { apply stepRow_abs; try done.
        - by apply absRow_mark.
        - unfold markRow. by intros ->.
        - rewrite length_zero_iff_nil, Hfirst, firstSeq_markRow. done.
        - intros ->%length_zero_iff_nil. simpl in Ei. injection Ei as <-. done. }
      by destruct (inspectRecord id h fork (length recs) r st).
    + assert (invalid (markRow (rec_Event r) a) = true) as Hinv' by (unfold markRow; by case_match).
      unfold reduceRow. by rewrite Hinv'.
Qed.

(** ** The whole journal *)

Definition invalidRow (x : string * ApprovalRow) : Prop := invalidApproval (fst x) (snd x) = true.

Record report_inv (rs : list Record_) (p : Report) : Prop := {
  ri_last : last_seq (rp_cols p) = headOf rs;
  ri_corrupt : approval_corrupt (rp_cols p) = false;
  ri_fork : reporting_fork_seq (rp_cols p) = ss_forkSeq (scanGroup rs);
  ri_latest : latest_execution (rp_cols p) =
    match list.last (ss_executions (scanGroup rs)) with Some x => ax_id x | None => EmptyString end;
  ri_none : forall id, rp_execs p !! id = None <-> ss_byID (scanGroup rs) !! id = None;
  ri_calls : forall id c, rp_execs p !! id = None -> rp_calls p !! (id, c) = None;
  ri_rows : forall id a, rp_execs p !! id = Some a ->
    row_inv id (recordsOf id rs) a (rp_calls p) /\
    exists r0 tl, recordsOf id rs = r0 :: tl /\ firstSeq a = Seq r0;
  ri_count : invalid_approval_executions (rp_cols p) =
    Z.of_nat (size (filter invalidRow (rp_execs p)));
}.

Lemma boolDelta_count (m : gmap string ApprovalRow) id a a0 :
  (m !! id = Some a0 \/ (m !! id = None /\ invalidApproval id a0 = false)) ->
  Z.of_nat (size (filter invalidRow (<[id := a]> m))) =
  Z.of_nat (size (filter invalidRow m)) + boolDelta (invalidApproval id a0) (invalidApproval id a).
Proof.
  intros Hm. unfold boolDelta.
  assert (filter invalidRow m !! id = if invalidApproval id a0 then m !! id else None) as Hl.
  { destruct Hm as [Hm|[Hm Hi]].
    - rewrite Hm. destruct (invalidApproval id a0) eqn:E.
      + apply map_lookup_filter_Some. by split.
      + apply map_lookup_filter_None. right. intros ? ?. unfold invalidRow. simpl. congruence.
    - rewrite Hi. apply map_lookup_filter_None. by left. }
  destruct (invalidApproval id a) eqn:Ea.
  - rewrite map_filter_insert_True by done. destruct (invalidApproval id a0) eqn:E0; simpl.
    + destruct Hm as [Hm|[_ ?]]; [|congruence]. rewrite Hm in Hl.
      rewrite map_size_insert_Some by (by rewrite Hl). lia.
    + rewrite map_size_insert_None by done. lia.
  - rewrite map_filter_insert_False by (unfold invalidRow; simpl; congruence).
    rewrite map_filter_delete. destruct (invalidApproval id a0) eqn:E0; simpl.
    + destruct Hm as [Hm|[_ ?]]; [|congruence]. rewrite Hm in Hl.
      rewrite map_size_delete_Some by (by rewrite Hl).
      assert (size (filter invalidRow m) <> 0%nat).
      { intros H0. apply map_size_empty_iff in H0. rewrite H0, lookup_empty in Hl. done. }
      lia.
    + rewrite delete_id by done. lia.
Qed.

Lemma scanRecord_lifecycle r st : isLifecycle (rec_Event r) = true ->
  scanRecord r st = mkScan (Seq r) (if isForkMarker (rec_Event r) then Seq r else ss_forkSeq st) (ss_executions st) (ss_byID st).
Proof. unfold scanRecord. by intros ->. Qed.

(** What the grouping loop keeps, and which execution is last, for an ordinary record. *)
Lemma scanRecord_ordinary r st : isLifecycle (rec_Event r) = false ->
  (forall k, ss_byID st !! ExecutionID (rec_Event r) = Some k ->
     exists x, ss_executions st !! k = Some x /\ ax_id x = ExecutionID (rec_Event r)) ->
  ss_forkSeq (scanRecord r st) = ss_forkSeq st /\
  (forall id, ss_byID (scanRecord r st) !! id = None <->
     ss_byID st !! id = None /\ id <> ExecutionID (rec_Event r)) /\
  (match list.last (ss_executions (scanRecord r st)) with Some x => ax_id x | None => EmptyString end =
   match ss_byID st !! ExecutionID (rec_Event r) with
   | Some _ => match list.last (ss_executions st) with Some x => ax_id x | None => EmptyString end
   | None => ExecutionID (rec_Event r)
   end).
Proof.
  intros Hl Hx. unfold scanRecord. rewrite Hl.
  destruct (ss_byID st !! ExecutionID (rec_Event r)) as [k|] eqn:Hk; simpl.
  - split_and!; [done| |].
    + intros id. split; [|tauto]. intros Hn. split; [done|]. intros ->. congruence.
    + destruct (Hx k eq_refl) as (x & Hxk & Hxid).
      set (g := fun x => mkApprovalExecution (ax_id x) (ax_records x ++ [r]) (ax_gated x || gatedEvidence (rec_Event r))).
      rewrite !last_lookup, length_alter. destruct (decide (k = Nat.pred (length (ss_executions st)))) as [->|Hne].
      * rewrite list_lookup_alter_eq, Hxk. done.
      * by rewrite list_lookup_alter_ne by done.
  - split_and!; [done| |].
    + intros id. destruct (decide (id = ExecutionID (rec_Event r))) as [->|Hne].
      * rewrite lookup_insert_eq. split; [done|tauto].
      * rewrite lookup_insert_ne by done. tauto.
    + by rewrite alter_snoc, last_snoc.
Qed.

Lemma report_inv_lifecycle rs r p : report_inv rs p -> Seq r = headOf rs + 1 ->
  isLifecycle (rec_Event r) = true -> report_inv (rs ++ [r]) (reportStep (Seq r) (rec_Event r) p).
Proof.
  intros [] Hs Hl. unfold reportStep. rewrite Hl.
  assert (negb (last_seq (rp_cols p) =? Seq r - 1) = false) as Hc by (rewrite ri_last0; apply negb_false_iff; lia).
  assert (Hrows : forall id a, rp_execs p !! id = Some a ->
    row_inv id (recordsOf id (rs ++ [r])) a (rp_calls p) /\
    exists r0 tl, recordsOf id (rs ++ [r]) = r0 :: tl /\ firstSeq a = Seq r0)
    by (intros id a Ha; rewrite recordsOf_snoc_ne by auto; auto).
  destruct (ev_Lifecycle (rec_Event r)) as [lc|] eqn:Elc; [destruct (bool_decide (lc_Kind lc = LifecycleFork)) eqn:Ef|];
    (constructor; rewrite ?scanGroup_snoc, ?scanRecord_lifecycle by done; simpl; try done;
     [by rewrite headOf_app|by rewrite Hc|]); unfold isForkMarker; rewrite Elc; try rewrite Ef; done.
Qed.

Lemma report_inv_ordinary rs r p : contiguous 0 rs -> report_inv rs p -> Seq r = headOf rs + 1 ->
  isLifecycle (rec_Event r) = false -> report_inv (rs ++ [r]) (reportStep (Seq r) (rec_Event r) p).
Proof.
  intros Hcont [] Hs Hl. unfold reportStep. rewrite Hl.
  set (id := ExecutionID (rec_Event r)). set (s := default (newApprovalRow (Seq r)) (rp_execs p !! id)).
  set (sc := reduceRow _ _ _ _).
  assert (negb (last_seq (rp_cols p) =? Seq r - 1) = false) as Hc by (rewrite ri_last0; apply negb_false_iff; lia).
  assert (0 < Seq r) as Hpos by (rewrite contiguous_head in Hs by done; lia).
  destruct (scanRecord_ordinary r (scanGroup rs) Hl (si_byID _ _ (scanGroup_inv rs) _)) as (Hfork & Hnone & Hlast).
  assert (Hold : rp_execs p !! id = Some s \/ (rp_execs p !! id = None /\ invalidApproval id s = false)).
  { unfold s. destruct (rp_execs p !! id); [by left|by right]. }
  assert (Hpre : row_inv id (recordsOf id rs) s (rp_calls p) /\ (recordsOf id rs = [] <-> Seq r = firstSeq s)).
  { unfold s. destruct (rp_execs p !! id) as [a|] eqn:Ea; simpl.
    - destruct (ri_rows0 id a Ea) as (Hrow & r0 & tl & Hrec & Hf). split; [done|]. rewrite Hrec. split; [done|].
      intros Hq. exfalso. assert (r0 ∈ rs) as Hin by (apply (recordsOf_sub id); rewrite Hrec; left).
      pose proof (contiguous_bounds _ _ _ Hcont Hin). rewrite contiguous_head in Hs by done. lia.
    - assert (recordsOf id rs = []) as Hnil by (apply (si_fresh _ _ (scanGroup_inv rs)); by apply ri_none0).
      rewrite Hnil. split; [|done]. apply row_inv_new. auto. }
  destruct Hpre as [Hrow Hfirst].
  pose proof (row_inv_step id _ s (rp_calls p) r Hrow eq_refl Hpos Hfirst) as Hstep. fold sc in Hstep.
  constructor; simpl; rewrite ?scanGroup_snoc.
  - by rewrite headOf_app.
  - by rewrite Hc.
  - by rewrite Hfork.
  - rewrite Hlast, <- ri_latest0. fold id. specialize (ri_none0 id).
    destruct (rp_execs p !! id), (ss_byID (scanGroup rs) !! id); naive_solver.
  - intros id'. rewrite Hnone, <- ri_none0. destruct (decide (id' = id)) as [->|Hne].
    + rewrite lookup_insert_eq. split; [done|]. intros [_ Hd]. by destruct Hd.
    + rewrite lookup_insert_ne by done. split; [done|tauto].
  - intros id' c. destruct (decide (id' = id)) as [->|Hne]; [by rewrite lookup_insert_eq|].
    rewrite lookup_insert_ne by done. intros Hn. unfold sc. rewrite reduceRow_calls_other by done. auto.
  - intros id' a. destruct (decide (id' = id)) as [->|Hne].
    + rewrite lookup_insert_eq. intros [= <-]. rewrite recordsOf_snoc_eq by done. split; [done|].
      unfold sc. rewrite firstSeq_reduceRow, firstSeq_markRow.
      destruct (recordsOf id rs) as [|r0 tl] eqn:Erec; simpl; [exists r, []; split; [done|symmetry; by apply Hfirst]|].
      exists r0, (tl ++ [r]). split; [done|]. unfold s. destruct (rp_execs p !! id) as [a|] eqn:Ea; simpl.
      * destruct (ri_rows0 id a Ea) as (_ & r0' & tl' & Hrec & Hf). rewrite Erec in Hrec. by injection Hrec as <- <-.
      * exfalso. apply ri_none0 in Ea. apply (si_fresh _ _ (scanGroup_inv rs)) in Ea. congruence.
    + rewrite lookup_insert_ne by done. intros Ha. rewrite recordsOf_snoc_ne by auto.
      destruct (ri_rows0 id' a Ha) as [[Hg Hcs Habs] Hr0]. split; [|done]. constructor; try done.
      intros h fork. specialize (Habs h fork). unfold rowAbs in *.
      destruct (inspectRecords _ _ _ _ _ _); [|done]. destruct Habs as (? & ? & Hcc). split_and!; try done.
      intros c. unfold sc. by rewrite reduceRow_calls_other.
  - rewrite ri_count0. symmetry. by apply boolDelta_count.
Qed.

Lemma reportOf_inv rs : contiguous 0 rs -> report_inv rs (reportOf rs).
Proof.
  induction rs as [|r rs IH] using rev_ind; intros Hc.
  - constructor; simpl; try done.
  - apply contiguous_app in Hc as [Hc [Hs _]]. rewrite reportOf_snoc.
    rewrite <- contiguous_head in Hs by done. specialize (IH Hc).
    destruct (isLifecycle (rec_Event r)) eqn:Hl; [by apply report_inv_lifecycle|by apply report_inv_ordinary].
Qed.

(** ** The scan against the columns *)

Lemma invalidApproval_inspect id fork st a : gated a = true -> invalid a = false -> absRow fork st a ->
  invalidApproval id a = bool_decide (id = EmptyString) || bool_decide (is_Some (validateInputs (in_invocation st))).
Proof.
  intros Hg Hi []. unfold invalidApproval, validateInputs. rewrite Hg, Hi, ar_start0, ar_expected0, ar_inputs0, ar_messages0.
  destruct (bool_decide (id = EmptyString)); simpl; [done|].
  destruct (x_hasStart (in_invocation st)); simpl; [|done].
  destruct (x_inputCount (in_invocation st)) as [n|]; simpl; [|done].
  destruct (n <? 0), (x_inputRecords (in_invocation st) =? Z.of_nat (length (x_inputs (in_invocation st)))),
    (x_inputRecords (in_invocation st) =? n); done.
Qed.

(** The inspection of a gated execution fails exactly when its row is invalid evidence. *)
Lemma inspect_row x h fork a calls : row_inv (ax_id x) (ax_records x) a calls -> gated a = true ->
  match inspectApprovalExecution x h fork with
  | Err _ => invalidApproval (ax_id x) a = true
  | Ok ss => invalidApproval (ax_id x) a = false /\ ax_id x <> EmptyString /\ invalid a = false /\
      exists st, absRow fork st a /\ ss = map (finishState (in_invocation st)) (in_states st) /\
        inspectRecords (ax_id x) h fork 0 (ax_records x) (inspectInit (ax_id x)) = Ok st
  end.
Proof.
  intros [_ _ Habs] Hg. unfold inspectApprovalExecution. specialize (Habs h fork).
  case_bool_decide as Hid.
  { unfold invalidApproval. rewrite Hg, bool_decide_eq_true_2 by done. by rewrite orb_true_r. }
  destruct (inspectRecords _ _ _ _ _ _) as [st|e]; simpl in *.
  - destruct Habs as (Hi & Ha & _). rewrite (invalidApproval_inspect _ fork st) by done.
    rewrite bool_decide_eq_false_2 by done. simpl.
    destruct (validateInputs (in_invocation st)); simpl; [done|]. split_and!; eauto.
  - unfold invalidApproval. by rewrite Hg, Habs.
Qed.

Lemma inspectAll_Err head fork execs e : inspectAll head fork execs = Err e ->
  exists x e', x ∈ execs /\ ax_gated x = true /\ inspectApprovalExecution x head fork = Err e'.
Proof.
  induction execs as [|x xs IH]; simpl; [done|].
  destruct (ax_gated x) eqn:Hg; simpl.
  - destruct (inspectApprovalExecution x head fork) as [ss|e'] eqn:Hi; simpl.
    + destruct (inspectAll head fork xs); simpl; [done|]. intros [= ->].
      destruct (IH eq_refl) as (y & e' & ? & ? & ?). exists y, e'. set_solver.
    + intros _. exists x, e'. set_solver.
  - destruct (inspectAll head fork xs); simpl; [done|]. intros [= ->].
    destruct (IH eq_refl) as (y & e' & ? & ? & ?). exists y, e'. set_solver.
Qed.

(** The fork cursor is no call's sequence. *)
Lemma scanGroup_fork rs : ss_forkSeq (scanGroup rs) = 0 \/
  exists r, r ∈ rs /\ isLifecycle (rec_Event r) = true /\ Seq r = ss_forkSeq (scanGroup rs).
Proof.
  induction rs as [|r rs IH] using rev_ind; [by left|]. rewrite scanGroup_snoc.
  destruct (isLifecycle (rec_Event r)) eqn:Hl.
  - rewrite scanRecord_lifecycle by done. simpl. destruct (isForkMarker (rec_Event r)).
    + right. exists r. set_solver.
    + destruct IH as [?|(r' & ? & ? & ?)]; [by left|right; exists r'; set_solver].
  - destruct (scanRecord_ordinary r (scanGroup rs) Hl (si_byID _ _ (scanGroup_inv rs) _)) as (-> & _).
    destruct IH as [?|(r' & ? & ? & ?)]; [by left|right; exists r'; set_solver].
Qed.

Lemma contiguous_inj n rs r r' : contiguous n rs -> r ∈ rs -> r' ∈ rs -> Seq r = Seq r' -> r = r'.
Proof.
  revert n. induction rs as [|x rs IH]; intros n Hc Hr Hr' Hs; [set_solver|]. destruct Hc as [Hx Hc].
  apply elem_of_cons in Hr as [->|Hr], Hr' as [->|Hr']; try done.
  - pose proof (contiguous_bounds _ _ _ Hc Hr'). lia.
  - pose proof (contiguous_bounds _ _ _ Hc Hr). lia.
  - by eapply IH.
Qed.

Lemma callSeq_not_fork id rs a calls : contiguous 0 rs -> row_inv id (recordsOf id rs) a calls -> 0 < callSeq a ->
  (ss_forkSeq (scanGroup rs) <? callSeq a) = negb (callSeq a <? ss_forkSeq (scanGroup rs)).
Proof.
  intros Hc [_ Hcs _] Hpos. destruct (decide (callSeq a = ss_forkSeq (scanGroup rs))) as [E|]; [|lia].
  exfalso. destruct Hcs as [?|(r & Hr & Hs)]; [lia|].
  destruct (scanGroup_fork rs) as [?|(r' & Hr' & Hl' & Hs')]; [lia|].
  assert (r = r') as <- by (eapply contiguous_inj; [done|by eapply recordsOf_sub|done|congruence]).
  apply list_elem_of_filter in Hr as [[? _] _]. congruence.
Qed.

(** The columns of the selected execution report its open request. *)
Lemma reportable_state rs c id a calls st : contiguous 0 rs -> row_inv id (recordsOf id rs) a calls ->
  last_seq c = headOf rs -> approval_corrupt c = false -> invalid_approval_executions c = 0 ->
  reporting_fork_seq c = ss_forkSeq (scanGroup rs) -> latest_execution c = id -> id <> EmptyString ->
  invalid a = false -> gated a = true -> invalidApproval id a = false ->
  absRow (ss_forkSeq (scanGroup rs)) st a ->
  (if colsReportable c (headOf rs) a
   then (if requestSeq a =? 0 then noApproval else mkApprovalRef id (callID a) (requestSeq a)) else noApproval)
  = match in_last st with
    | Some s => match as_Request s, as_Decision s, as_Receipt s with
                | Some q, None, None =>
                    if as_Inherited s || x_completed (in_invocation st) then noApproval
                    else mkApprovalRef id (tc_ID (as_Call s)) (Seq q)
                | _, _, _ => noApproval
                end
    | None => noApproval
    end.
Proof.
  intros Hc Hrow Hl Hco Hin Hf Hid Hne Hinv Hg Hia Ha. unfold colsReportable, reportable. simpl.
  rewrite Hl, Hco, Hin, Hf, Hid, Hinv, (bool_decide_eq_false_2 _ Hne), (ar_completed _ _ _ Ha).
  assert (negb (hasStart a) || match expectedInputs a with
    | Some n => (0 <=? n) && (inputs a =? messages a) && (inputs a =? n) | None => false end = true) as ->.
  { unfold invalidApproval in Hia. rewrite Hg, Hinv, (bool_decide_eq_false_2 _ Hne) in Hia. simpl in Hia.
    destruct (hasStart a); simpl in *; [|done]. destruct (expectedInputs a) as [n|]; [|done]. lia. }
  rewrite Z.eqb_refl. simpl. pose proof (ar_last _ _ _ Ha) as Hlast. destruct (in_last st) as [s|].
  - destruct Hlast as (-> & _ & -> & Hcs & Hrq & Hds & -> & Hq & Hd).
    rewrite (callSeq_not_fork id rs a calls Hc Hrow Hcs).
    destruct (as_Request s) as [q|]; simpl in Hrq; rewrite Hrq.
    2: { by rewrite !andb_false_r. }
    specialize (Hq q eq_refl).
    destruct (as_Decision s) as [dr|]; simpl in Hds; rewrite Hds.
    { destruct (Hd dr eq_refl) as [Hp _]. rewrite (proj2 (Z.eqb_neq (Seq dr) 0)) by lia. by rewrite !andb_false_r. }
    destruct (as_Receipt s); simpl; [by rewrite !andb_false_r|].
    rewrite (proj2 (Z.ltb_lt 0 (Seq q))), (proj2 (Z.eqb_neq (Seq q) 0)) by lia.
    by destruct (callSeq a <? _), (x_completed (in_invocation st)).
  - destruct Hlast as (_ & -> & _). simpl. by destruct (_ && _).
Qed.

Lemma exec_row rs p k x : report_inv rs p -> ss_executions (scanGroup rs) !! k = Some x ->
  exists a, rp_execs p !! ax_id x = Some a /\ row_inv (ax_id x) (recordsOf (ax_id x) rs) a (rp_calls p) /\
    ax_records x = recordsOf (ax_id x) rs /\ gated a = ax_gated x.
Proof.
  intros Hp Hx. destruct (si_exec _ _ (scanGroup_inv rs) k x Hx) as (Hk & Hr & Hg).
  destruct (rp_execs p !! ax_id x) as [a|] eqn:Ea.
  - exists a. destruct (ri_rows _ _ Hp _ _ Ea) as [Hrow _]. split_and!; try done.
    by rewrite (ro_gated _ _ _ _ Hrow), Hg, Hr.
  - apply (ri_none _ _ Hp) in Ea. congruence.
Qed.

Lemma count_zero rs p head : report_inv rs p ->
  invalid_approval_executions (rp_cols p) = 0 <->
  (exists all, inspectAll head (ss_forkSeq (scanGroup rs)) (ss_executions (scanGroup rs)) = Ok all).
Proof.
  intros Hp. rewrite (ri_count _ _ Hp). split.
  - intros H0. assert (filter invalidRow (rp_execs p) = ∅) as He by (apply map_size_empty_iff; lia).
    destruct (inspectAll _ _ _) as [all|e] eqn:Ei; [eauto|]. exfalso.
    apply inspectAll_Err in Ei as (x & e' & Hx & Hg & Hi). apply list_elem_of_lookup in Hx as [k Hk].
    destruct (exec_row rs p k x Hp Hk) as (a & Ha & Hrow & Hr & Hga). rewrite <- Hr in Hrow.
    pose proof (inspect_row x head (ss_forkSeq (scanGroup rs)) a _ Hrow) as Hi'. rewrite Hi in Hi'.
    rewrite map_empty_filter in He. apply (He _ _ Ha). apply Hi'. congruence.
  - intros [all Hall]. replace (filter invalidRow (rp_execs p)) with (∅ : gmap string ApprovalRow); [done|].
    symmetry. apply map_empty_filter. intros id a Ha Hinv. unfold invalidRow in Hinv. simpl in Hinv.
    destruct (ss_byID (scanGroup rs) !! id) as [k|] eqn:Hk; [|apply (ri_none _ _ Hp) in Hk; congruence].
    destruct (si_byID _ _ (scanGroup_inv rs) _ _ Hk) as (x & Hx & <-).
    destruct (exec_row rs p k x Hp Hx) as (a' & Ha' & Hrow & Hr & Hga). rewrite <- Hr in Hrow.
    assert (a' = a) as -> by congruence.
    assert (gated a = true) as Hg by (unfold invalidApproval in Hinv; by destruct (gated a)).
    destruct (inspectAll_elem _ _ _ _ Hall) as [Hel _].
    destruct (Hel x) as (ss & Hss & _); [by eapply list_elem_of_lookup_2|congruence|].
    pose proof (inspect_row x head (ss_forkSeq (scanGroup rs)) a _ Hrow Hg) as Hi. rewrite Hss in Hi.
    destruct Hi as [Hi _]. congruence.
Qed.

(** The selected state of a scan that reads to the end of a journal. *)
Lemma selected_last h f execs all : inspectAll h f execs = Ok all ->
  (i ← selects h f execs (length all); all !! i) =
  match list.last execs with
  | Some x => match (if ax_gated x then inspectApprovalExecution x h f else Ok []) with
              | Ok ss => list.last ss
              | Err _ => None
              end
  | None => None
  end.
Proof.
  intros Hall. unfold selects. destruct execs as [|x front _] using rev_ind; [done|]. rewrite last_snoc.
  rewrite inspectAll_app in Hall. apply result_bind_Ok in Hall as (s1 & _ & Hall).
  apply result_bind_Ok in Hall as (s2 & H2 & [= <-]). simpl in H2.
  apply result_bind_Ok in H2 as (ss & Hss & [= <-]). rewrite Hss, app_nil_r.
  destruct ss as [|s ss _] using rev_ind; [done|].
  destruct (ss ++ [s]) as [|y ys] eqn:E; [by destruct ss|]. rewrite <- E, last_snoc. simpl.
  rewrite app_assoc, length_app. simpl. rewrite Nat.add_sub. by rewrite lookup_app_r, Nat.sub_diag by lia.
Qed.

Lemma reported_pending rs : contiguous 0 rs -> reportedOf (reportOf rs) (headOf rs) = pendingOf rs.
Proof.
  intros Hc. pose proof (reportOf_inv rs Hc) as Hp. generalize dependent (reportOf rs). intros p Hp.
  unfold pendingOf. destruct (scanApprovalRecords rs 0) as [scan|e] eqn:Es.
  - apply scanApprovalRecords_Ok in Es as (all & Hall & ->). rewrite withinCursor_0 in *.
    assert (invalid_approval_executions (rp_cols p) = 0) as Hz by (apply (count_zero _ _ (ss_head (scanGroup rs)) Hp); eauto).
    unfold selectedState. simpl. rewrite (selected_last _ _ _ _ Hall). unfold reportedOf.
    rewrite (ri_latest _ _ Hp). destruct (list.last (ss_executions (scanGroup rs))) as [x|] eqn:El.
    2: { apply last_None in El. destruct (rp_execs p !! EmptyString) eqn:Ee; [|done]. exfalso.
         destruct (ss_byID (scanGroup rs) !! EmptyString) as [k|] eqn:Hk; [|apply (ri_none _ _ Hp) in Hk; congruence].
         destruct (si_byID _ _ (scanGroup_inv rs) _ _ Hk) as (x & Hx & _). by rewrite El in Hx. }
    rewrite last_lookup in El. destruct (exec_row rs p _ x Hp El) as (a & -> & Hrow & Hr & Hga).
    pose proof (ri_latest _ _ Hp) as Hlat. rewrite last_lookup, El in Hlat.
    destruct (ax_gated x) eqn:Hg.
    + rewrite <- Hr in Hrow. pose proof (inspect_row x (ss_head (scanGroup rs)) (ss_forkSeq (scanGroup rs)) a _ Hrow Hga) as Hi.
      destruct (inspectAll_elem _ _ _ _ Hall) as [Hel _].
      destruct (Hel x) as (ss & Hss & _); [by eapply list_elem_of_lookup_2|done|].
      rewrite Hss in Hi |- *. destruct Hi as (Hia & Hne & Hinv & st & Ha & -> & Hst).
      rewrite Hr in Hrow.
      rewrite (reportable_state rs (rp_cols p) (ax_id x) a (rp_calls p) st);
        [|done|done|apply Hp|apply Hp|done|apply Hp|done|done|done|congruence|done|done].
      destruct (inspectRecords_inv _ _ _ _ _ _ _ rs (inspect_inv_init (ax_id x) rs) (recordsOf_sub (ax_id x) rs)
        (recordsOf_id (ax_id x) rs) (fun _ => eq_refl) (eq_ind _ (fun l => inspectRecords _ _ _ _ l _ = _) Hst _ Hr)) as [[_ Hids _] _].
      pose proof (ar_last _ _ _ Ha) as Hlast. unfold in_states in *. destruct (in_last st) as [s|].
      * rewrite map_app. simpl. rewrite last_snoc. unfold pendingRef. simpl.
        apply list.Forall_app in Hids as [_ Hids]. apply list.Forall_cons_1 in Hids as [-> _]. done.
      * destruct Hlast as (_ & _ & ->). done.
    + destruct Hrow as [_ _ Habs]. specialize (Habs 0 (ss_forkSeq (scanGroup rs))). unfold rowAbs in Habs.
      destruct (inspectRecords _ _ _ _ _ _) as [st|e].
      * destruct Habs as (_ & Ha & _). pose proof (ar_last _ _ _ Ha) as Hlast.
        rewrite (ar_gated _ _ _ Ha Hga) in Hlast. destruct Hlast as (_ & -> & _). by destruct (colsReportable _ _ _).
      * unfold colsReportable, reportable. rewrite Habs. simpl. by rewrite !andb_false_r.
  - assert (invalid_approval_executions (rp_cols p) <> 0) as Hz.
    { intros Hz. apply (count_zero _ _ (ss_head (scanGroup rs)) Hp) in Hz as [all Hall].
      unfold scanApprovalRecords in Es. rewrite scanInspect_spec, withinCursor_0, Hall in Es. done. }
    unfold reportedOf. destruct (rp_execs p !! _) as [a|]; [|done]. unfold colsReportable, reportable. simpl.
    rewrite (proj2 (Z.eqb_neq _ _) Hz). by rewrite !andb_false_r.
Qed.
