(* ===== verification/SqlSystem.v ===== *)
(** * The database as a system: invariants over every call

    Any number of processes call the store's operations on any sessions and harness names, each call
    an atomic step that the driver may make fail. Over every history, every session counts its
    records without a gap, its reporting columns are those of its journal, a deletion is final, and
    no name is both reserved and registered. *)
From S2P Require Import Prelude GoErrors Api Canon EventLog Executions Harness Wire Tables Projection Reducer SqlLog SqlExample SqlStore SqlSessions SqlHarnesses.
From stdpp Require Import sorting.
#[local] Open Scope Z_scope.

(** Errors of the driver are its own. *)
Class DriverLaws `{Driver} : Prop := {
  fault_foreign : forall n e, fault n = Some e -> errors_Is e ErrHarnessNotFound = false;
}.

Section System.
Context `{Encoding} `{ProtoCodec} `{Driver}.

(** One call: of an operation that may write, or of any that only reads. *)
Inductive db_step (d d' : DB) : Prop :=
  | call_Append project uid exp f ev r : sql_Append project uid exp f ev d = (d', r) -> db_step d d'
  | call_NewFence project uid r : sql_NewFence project uid d = (d', r) -> db_step d d'
  | call_PutSession project m r : PutSession project m d = (d', r) -> db_step d d'
  | call_PutOnHarness project m registered r : PutSessionOnActiveHarness project m registered d = (d', r) -> db_step d d'
  | call_Delete ctxErr uid r : DeleteSession ctxErr uid d = (d', r) -> db_step d d'
  | call_Register rec r : RegisterHarness rec d = (d', r) -> db_step d d'
  | call_Reserve names r : ReserveHarnessNames names d = (d', r) -> db_step d d'
  | call_Retire name reason r : RetireHarness name reason d = (d', r) -> db_step d d'
  | call_reads : saved d' = saved d -> tables d' = tables d -> db_step d d'.

(** A session that was deleted ends in its DELETE record, committed under the fence it left. *)
Definition deleted_ok (uid : string) (t : Tables) : Prop :=
  match t_sessions t !! uid with
  | Some s =>
      match deletion_state (s_deletion s) with
      | DeletionActive => Forall (fun r => isMarker LifecycleDelete (rec_Event r) = false) (journalOf uid t)
      | DeletionPending => exists rs r, journalOf uid t = rs ++ [r] /\
          isMarker LifecycleDelete (rec_Event r) = true /\
          Forall (fun r => isMarker LifecycleDelete (rec_Event r) = false) rs /\
          deletion_seq (s_deletion s) = Seq r /\ s_fence s = Fence r
      | DeletionStateOther _ => True
      end
  | None => journalOf uid t = []
  end.

Record session_ok (uid : string) (t : Tables) : Prop := {
  so_chain : contiguous 0 (journalOf uid t);
  so_report : reports uid t (reportOf (journalOf uid t));
  so_deleted : deleted_ok uid t;
}.

Definition names_ok (t : Tables) : Prop :=
  forall name, t_reserved t !! name = None \/ t_harnesses t !! name = None.

Record db_ok (d : DB) : Prop := {
  ok_rest : saved d = None;
  ok_sessions : forall uid, session_ok uid (tables d);
  ok_names : names_ok (tables d);
}.

Lemma db_ok_wf d : db_ok d -> db_wf d.
Proof. intros []. split; [done|]. intros uid. apply ok_sessions0. Qed.

(** ** Frames *)

Lemma session_ok_frame uid u t t' : session_frame uid t t' -> u <> uid -> session_ok u t -> session_ok u t'.
Proof.
  intros Hf Hu [Hc [Hr He Hcl] Hd].
  assert (journalOf u t' = journalOf u t) as Hj by (apply journalOf_events; by apply (sf_events _ _ _ Hf)).
  pose proof (sf_rows _ _ _ Hf u Hu) as Hrow.
  constructor; [by rewrite Hj| |].
  - rewrite Hj. constructor; [by rewrite Hrow|..]; intros.
    + rewrite (sf_executions _ _ _ Hf) by done. auto.
    + rewrite (sf_calls _ _ _ Hf) by done. auto.
  - unfold deleted_ok. by rewrite Hrow, Hj.
Qed.

(** Tables that differ in the harness tables only. *)
Definition same_sessions (t t' : Tables) : Prop :=
  t_sessions t' = t_sessions t /\ t_events t' = t_events t /\ t_executions t' = t_executions t /\ t_calls t' = t_calls t.

Lemma session_ok_same u t t' : same_sessions t t' -> session_ok u t -> session_ok u t'.
Proof.
  intros (Hs & He & Hx & Hc) [Hch [Hr Hre Hrc] Hdel].
  assert (journalOf u t' = journalOf u t) as Hj by (apply journalOf_events; unfold sessionEvents; by rewrite He).
  constructor; [by rewrite Hj| |].
  - rewrite Hj. constructor; [by rewrite Hs|..]; intros; by rewrite ?Hx, ?Hc.
  - unfold deleted_ok. by rewrite Hs, Hj.
Qed.

Lemma frame_names uid t t' : session_frame uid t t' -> names_ok t -> names_ok t'.
Proof. intros Hf Hn name. rewrite (sf_harnesses _ _ _ Hf), (sf_reserved _ _ _ Hf). apply Hn. Qed.

(** An operation on one session keeps the invariant when it keeps that session's. *)
Lemma db_ok_session uid d d' : db_ok d -> saved d' = None -> session_frame uid (tables d) (tables d') ->
  session_ok uid (tables d') -> db_ok d'.
Proof.
  intros Hok Hs Hf Hu. constructor; [done| |eapply frame_names; [exact Hf|apply Hok]].
  pose proof (ok_sessions _ Hok) as ok_sessions0. intros u. destruct (decide (u = uid)) as [->|]; [done|]. by eapply session_ok_frame.
Qed.

Lemma db_ok_same d d' : db_ok d -> saved d' = None -> tables d' = tables d -> db_ok d'.
Proof. intros [] Hs Ht. constructor; rewrite ?Ht; done. Qed.

(** ** Append and NewFence *)

Lemma deletion_cases uid t : default DeletionActive (deletionOf uid t) = DeletionActive ->
  t_sessions t !! uid = None \/ exists s, t_sessions t !! uid = Some s /\ deletion_state (s_deletion s) = DeletionActive.
Proof. unfold deletionOf. destruct (t_sessions t !! uid) as [s|]; simpl; eauto. Qed.

Lemma deleted_ok_active uid t : default DeletionActive (deletionOf uid t) = DeletionActive -> deleted_ok uid t ->
  Forall (fun r => isMarker LifecycleDelete (rec_Event r) = false) (journalOf uid t).
Proof.
  intros Ha Hd. unfold deleted_ok in Hd. destruct (deletion_cases _ _ Ha) as [E|(s & E & Hs)]; rewrite E in Hd.
  - rewrite Hd. constructor.
  - by rewrite Hs in Hd.
Qed.

Lemma EventFromProto_kind p : Kind (EventFromProto (Some p)) = kindFromProto (pb_Kind p).
Proof. unfold EventFromProto. simpl. by destruct (pb_Body p) as [[]|]. Qed.

Lemma EventFromProto_lifecycle p : ev_Lifecycle (EventFromProto (Some p)) =
  match pb_Body p with Some (Event_Lifecycle l) => lifecycleFromProto l | _ => None end.
Proof. unfold EventFromProto. simpl. by destruct (pb_Body p) as [[]|]. Qed.

Lemma bodyToProto_lifecycle ev l : bodyToProto ev = Some (Event_Lifecycle l) ->
  exists lc, ev_Lifecycle ev = Some lc /\ l = lifecycleToProto (Some lc).
Proof.
  unfold bodyToProto. destruct (ev_Message ev); [done|]. destruct (ev_ModelCall ev); [done|].
  destruct (ev_ToolCall ev); [done|]. destruct (ev_Result ev); [done|]. destruct (ev_Approval ev); [done|].
  destruct (ev_ApprovalResult ev); [done|]. destruct (ev_Usage ev); [done|].
  destruct (ev_Lifecycle ev) as [lc|]; [intros [= <-]; eauto|].
  destruct (ev_End ev); [done|]. destruct (ev_Err ev); [done|]. destruct (ev_ExecutionStart ev); [done|].
  by destruct (ev_Parked ev).
Qed.

Lemma lifecycle_kind_wire lc : exists lc', lifecycleFromProto (lifecycleToProto (Some lc)) = Some lc' /\
  lc_Kind lc' = lifecycleKindFromProto (lifecycleKindToProto (lc_Kind lc)).
Proof. simpl. eexists. split; [done|]. simpl. by destruct (Snapshot lc). Qed.

(** An event that is not the DELETE marker is not read back as one. *)
Lemma persisted_marker k ev : isMarker k ev = false -> (forall s, k <> LifecycleKindOther s) ->
  isMarker k (EventFromProto (Some (EventToProto ev))) = false.
Proof.
  intros Hm Hk. unfold isMarker in *. rewrite EventFromProto_kind, EventFromProto_lifecycle. simpl.
  destruct (bodyToProto ev) as [[| | | | | | |l| | | |]|] eqn:Eb; rewrite ?andb_false_r; try done.
  apply bodyToProto_lifecycle in Eb as (lc & El & ->). rewrite El in Hm.
  destruct (lifecycle_kind_wire lc) as (lc' & -> & ->).
  apply andb_false_iff in Hm as [Hm|Hm]; apply bool_decide_eq_false in Hm; apply andb_false_iff.
  - left. apply bool_decide_eq_false. by destruct (Kind ev).
  - right. apply bool_decide_eq_false. intros E. apply Hm.
    destruct (lc_Kind lc); simpl in E; try done. exfalso. by eapply Hk.
Qed.

Lemma row_kept_deleted uid t t' : row_kept uid t t' -> default DeletionActive (deletionOf uid t) = DeletionActive ->
  exists s', t_sessions t' !! uid = Some s' /\ deletion_state (s_deletion s') = DeletionActive.
Proof.
  intros (s' & Hs' & Hm) Ha. exists s'. split; [done|].
  destruct (deletion_cases _ _ Ha) as [E|(s & E & Hs)]; rewrite E in Hm; destruct Hm as [_ ->]; [done|congruence].
Qed.

Context `{!ProtoLaws}.

Lemma Append_ok project uid exp f ev d d' r : db_ok d -> sql_Append project uid exp f ev d = (d', r) -> db_ok d'.
Proof.
  intros Hok Hr. pose proof (db_ok_wf d Hok) as [Hs Hwf]. apply sql_Append_inv in Hr as [Hs' Ha]; [|done].
  destruct r as [rec|e]; [|by eapply db_ok_same].
  eapply db_ok_session; [done|done|apply (ap_frame _ _ _ _ _ _ _ Ha)|].
  pose proof (appended_wf _ _ _ _ _ _ _ Hwf Ha uid) as Hc.
  pose proof (appended_journal _ _ _ _ _ _ _ Hwf Ha) as (He & _ & Hq & _ & _ & _ & _ & Hj).
  destruct (ok_sessions _ Hok uid) as [_ Hrep Hdel]. constructor; [done| |].
  - rewrite Hj, reportOf_snoc. simpl. rewrite Hq, <- He. by apply holds_reports, (ap_report _ _ _ _ _ _ _ Ha).
  - destruct (row_kept_deleted _ _ _ (ap_kept _ _ _ _ _ _ _ Ha) (ap_active _ _ _ _ _ _ _ Ha)) as (s' & Hl & Hd).
    unfold deleted_ok. rewrite Hl, Hd, Hj. apply Forall_app. split.
    + apply deleted_ok_active; [|done]. apply (ap_active _ _ _ _ _ _ _ Ha).
    + apply Forall_singleton. simpl. apply persisted_marker; [|done]. apply (ap_delete _ _ _ _ _ _ _ Ha).
Qed.

(** A write of one row that keeps its report, its deletion columns and the journal. *)
Record row_update (uid : string) (t t' : Tables) : Prop := {
  ru_frame : session_frame uid t t';
  ru_events : t_events t' = t_events t;
  ru_executions : t_executions t' = t_executions t;
  ru_calls : t_calls t' = t_calls t;
  ru_active : default DeletionActive (deletionOf uid t) = DeletionActive;
  ru_row : exists s', t_sessions t' !! uid = Some s' /\ deletion_state (s_deletion s') = DeletionActive /\
    s_report s' = default defaultReport (s_report <$> t_sessions t !! uid);
}.

Lemma row_update_ok uid d d' : db_ok d -> saved d' = None -> row_update uid (tables d) (tables d') -> db_ok d'.
Proof.
  intros Hok Hs [Hf He Hx Hc Ha (s' & Hl & Hd & Hrep)]. eapply db_ok_session; [done|done|exact Hf|].
  destruct (ok_sessions _ Hok uid) as [Hch [Hr Hre Hrc] Hdel].
  assert (journalOf uid (tables d') = journalOf uid (tables d)) as Hj
    by (apply journalOf_events; unfold sessionEvents; by rewrite He).
  constructor; rewrite ?Hj; [done| |].
  - constructor; [rewrite Hl; simpl; congruence|..]; intros; by rewrite ?Hx, ?Hc.
  - unfold deleted_ok. rewrite Hl, Hd, Hj. by apply deleted_ok_active.
Qed.

Lemma upsertFence_update uid project at_ t f : snd (upsertFence uid project at_ t) = Ok (Some f) ->
  row_update uid t (fst (upsertFence uid project at_ t)).
Proof.
  unfold upsertFence. destruct (t_sessions t !! uid) as [s|] eqn:Es.
  - case_bool_decide as Hd; [|done]. intros _. constructor; try done; simpl; [apply setSessions_frame|unfold deletionOf; by rewrite Es| ].
    rewrite lookup_insert_eq. eexists. split; [done|]. by rewrite Es.
  - intros _. constructor; try done; simpl; [apply setSessions_frame|unfold deletionOf; by rewrite Es|].
    rewrite lookup_insert_eq. eexists. split; [done|]. by rewrite Es.
Qed.

Lemma NewFence_ok project uid d d' r : db_ok d -> sql_NewFence project uid d = (d', r) -> db_ok d'.
Proof.
  intros Hok Hr. pose proof (ok_rest _ Hok) as Hs. pose proof Hr as [Hs' _]%sql_NewFence_inv.
  unfold sql_NewFence in Hr. apply bind_inv in Hr as (d1 & r1 & (Hs1 & Ht1 & ->)%now_inv & Hr).
  apply bind_inv in Hr as (d2 & r2 & (Hs2 & Hr2)%stmt_inv & Hr). rewrite Ht1 in Hr2.
  assert (saved d' = None) as Hn by congruence.
  destruct r2 as [[f|]|e].
  - destruct Hr2 as [[Ht2 Hr2]|[_ [? [=]]]]. unfold mret, M_ret in Hr. inv_ok.
    eapply row_update_ok; [done|done|]. rewrite Ht2. by eapply upsertFence_update.
  - unfold throw in Hr. inv_ok. eapply db_ok_same; [done|done|].
    destruct Hr2 as [[Ht2 Hr2]|[Ht2 _]]; [|done]. rewrite Ht2. unfold upsertFence in *.
    destruct (t_sessions (tables d) !! uid); [|done]. by case_bool_decide.
  - destruct Hr as [-> ->]. eapply db_ok_same; [done|done|].
    destruct Hr2 as [[Ht2 Hr2]|[Ht2 _]]; [|done]. exfalso. unfold upsertFence in *.
    destruct (t_sessions (tables d) !! uid); [|done]. by case_bool_decide.
Qed.

(** ** Metadata *)

Lemma putRow_update m project created at_ b t n : snd (putRow m project created at_ b t) = Ok n ->
  if n =? 0 then fst (putRow m project created at_ b t) = t
  else row_update (UID m) t (fst (putRow m project created at_ b t)).
Proof.
  unfold putRow. destruct (t_sessions t !! UID m) as [s|] eqn:Es.
  - case_bool_decide as Hd; simpl; intros [= <-]; [|done]. simpl. constructor; try done; simpl.
    + apply setSessions_frame.
    + unfold deletionOf. by rewrite Es.
    + rewrite lookup_insert_eq. eexists. split; [done|]. by rewrite Es.
  - intros [= <-]. simpl. constructor; try done; simpl.
    + apply setSessions_frame.
    + unfold deletionOf. by rewrite Es.
    + rewrite lookup_insert_eq. eexists. split; [done|]. by rewrite Es.
Qed.

Lemma putSession_inv project m d d' r : putSession project m d = (d', r) ->
  saved d' = saved d /\
  match r with Ok _ => row_update (UID m) (tables d) (tables d') | Err _ => tables d' = tables d end.
Proof.
  unfold putSession. case_bool_decide; [unfold throw; intros; by inv_ok|].
  intros (d1 & r1 & (Hs1 & Ht1 & ->)%now_inv & Hr)%bind_inv.
  apply bind_inv in Hr as (d2 & r2 & Hr2 & Hr). apply wrapErr_inv in Hr2 as (r0 & (Hs2 & Hr2)%stmt_inv & ->).
  rewrite Ht1 in Hr2. destruct Hr2 as [[Ht2 Hr2]|[Ht2 [e ->]]].
  2: { destruct Hr as [-> ->]. split; congruence. }
  destruct r0 as [n|e].
  - symmetry in Hr2. apply putRow_update in Hr2. rewrite <- Ht2 in Hr2.
    destruct (n =? 0); unfold throw, mret, M_ret in Hr; inv_ok; (split; [congruence|done]).
  - destruct Hr as [-> ->]. split; [congruence|]. rewrite Ht2. unfold putRow in *.
    destruct (t_sessions (tables d) !! UID m); [|done]. by case_bool_decide.
Qed.

(** The columns a caller gives. *)
Definition rowCarries (m : SessionMeta) (s : SessionRow) : Prop :=
  (Project m <> EmptyString -> s_project s = Project m) /\ s_name s = Name m /\ s_harness s = sm_Harness m /\
  s_model s = sm_Model m /\ s_parent_uid s = ParentUID m /\ s_fork_seq s = ForkSeq m /\
  s_labels s = Labels m /\ s_annotations s = Annotations m /\ s_origin s = Origin m /\ s_identity s = Identity m.

Lemma putSession_row project m d d' : putSession project m d = (d', Ok tt) ->
  exists s, t_sessions (tables d') !! UID m = Some s /\ rowCarries m s.
Proof.
  unfold putSession. case_bool_decide; [done|].
  intros (d1 & r1 & (Hs1 & Ht1 & ->)%now_inv & Hr)%bind_inv.
  apply bind_inv in Hr as (d2 & r2 & Hr2 & Hr). apply wrapErr_inv in Hr2 as (r0 & (Hs2 & Hr2)%stmt_inv & ->).
  destruct r0 as [n|e]; [|by destruct Hr]. destruct Hr2 as [[Ht2 Hn]|[_ [e [=]]]].
  destruct (n =? 0) eqn:E; [done|]. injection Hr as <-. rewrite Ht2.
  assert (Project m <> EmptyString -> projectOr project (Project m) = Project m) as Hp
    by (intros Hne; unfold projectOr; by rewrite !(bool_decide_eq_false_2 _ Hne)).
  unfold putRow in Hn |- *. destruct (t_sessions (tables d1) !! UID m) as [s|]; [case_bool_decide|]; simpl in *;
    [|injection Hn as ->; discriminate|]; rewrite lookup_insert_eq; by eexists.
Qed.

Lemma PutSession_ok project m d d' r : db_ok d -> PutSession project m d = (d', r) -> db_ok d'.
Proof.
  intros Hok [Hs Hr]%putSession_inv. pose proof (ok_rest _ Hok) as Hn.
  destruct r; [eapply row_update_ok; [done|congruence|done]|eapply db_ok_same; [done|congruence|done]].
Qed.

(** The outcome of a transaction on the committed tables. *)
Definition tx_result {A} (R : Tables -> Tables -> A -> Prop) (t0 : Tables) (d' : DB) (r : res A) : Prop :=
  match r with
  | Ok a => (saved d' = None /\ R t0 (tables d') a) \/ (saved d' = Some t0 /\ R t0 t0 a)
  | Err _ => saved d' = Some t0
  end.

Lemma transaction_inv {A} (R : Tables -> Tables -> A -> Prop) (begin : M DB goerr unit) (body : M DB goerr A) d d' r :
  (forall d1 r1, begin d = (d1, r1) -> tables d1 = tables d /\
     match r1 with Ok _ => saved d1 = Some (tables d) | Err _ => saved d1 = saved d end) ->
  (forall d1 d2 r2, saved d1 = Some (tables d) -> tables d1 = tables d -> body d1 = (d2, r2) ->
     tx_result R (tables d) d2 r2) ->
  (do! begin in deferRollback body) d = (d', r) -> saved d = None ->
  saved d' = None /\ match r with Ok a => R (tables d) (tables d') a | Err _ => tables d' = tables d end.
Proof.
  intros Hb Hbody (d1 & r1 & Hr1 & Hr)%bind_inv Hs. destruct (Hb _ _ Hr1) as [Ht1 Hs1].
  destruct r1 as [[]|e]; [|destruct Hr as [-> ->]; split; congruence].
  apply deferRollback_inv in Hr as (d2 & Hr & ->). specialize (Hbody _ _ _ Hs1 Ht1 Hr).
  unfold tx_result, Rollback in *. destruct r as [a|e].
  - destruct Hbody as [[Hn Ha]|[Hn Ha]]; rewrite Hn; simpl; done.
  - by rewrite Hbody.
Qed.

Lemma Begin_wrapped tag d d1 r1 : wrapErr tag Begin d = (d1, r1) -> tables d1 = tables d /\
  match r1 with Ok _ => saved d1 = Some (tables d) | Err _ => saved d1 = saved d end.
Proof.
  intros (r0 & (Ht & Hr)%Begin_inv & ->)%wrapErr_inv. split; [done|].
  destruct r0 as [[]|e]; [destruct Hr as [[_ Hs]|[_ [? [=]]]]|destruct Hr as [[[=] _]|[Hs _]]]; done.
Qed.

(** The commit that ends a transaction. *)
Lemma Commit_result {A} (R : Tables -> Tables -> A -> Prop) tag t0 d d' r (a : A) : saved d = Some t0 ->
  R t0 (tables d) a -> (do! wrapErr tag Commit in mret a) d = (d', r) -> tx_result R t0 d' r.
Proof.
  intros Hs Ha (d1 & r1 & (r0 & (Ht & Hr1)%Commit_inv & ->)%wrapErr_inv & Hr)%bind_inv.
  destruct r0 as [[]|e].
  - unfold mret, M_ret in Hr. inv_ok. left. destruct Hr1 as [[_ ->]|[_ [? [=]]]]. by rewrite Ht.
  - destruct Hr as [-> ->]. destruct Hr1 as [[[=] _]|[Hs1 _]]. simpl. congruence.
Qed.

Lemma tx_fail {A} (R : Tables -> Tables -> A -> Prop) t0 d e : saved d = Some t0 -> tx_result R t0 d (Err e).
Proof. done. Qed.

(** ** Harness names *)

(** A registration keeps what it was made with, and a reservation stays. *)
Definition row_same (r r' : HarnessRow) : Prop :=
  h_uid r' = h_uid r /\ h_spec r' = h_spec r /\ h_spec_digest r' = h_spec_digest r /\ h_created_at r' = h_created_at r.

Record names_evolve (t t' : Tables) : Prop := {
  ne_reserved : forall name, is_Some (t_reserved t !! name) -> t_reserved t' !! name = t_reserved t !! name;
  ne_rows : forall name r, t_harnesses t !! name = Some r ->
    exists r', t_harnesses t' !! name = Some r' /\ row_same r r';
  ne_ok : names_ok t -> names_ok t';
}.

#[export] Instance names_evolve_preorder : PreOrder names_evolve.
Proof.
  split.
  - intros t. constructor; try done. intros name r Hr. exists r. by repeat split.
  - intros t1 t2 t3 Ha Hb. constructor.
    + intros name Hn. rewrite (ne_reserved _ _ Hb); [by apply Ha|]. by rewrite (ne_reserved _ _ Ha).
    + intros name r Hr. destruct (ne_rows _ _ Ha _ _ Hr) as (r2 & Hr2 & E2).
      destruct (ne_rows _ _ Hb _ _ Hr2) as (r3 & Hr3 & E3). exists r3. split; [done|].
      unfold row_same in *. naive_solver congruence.
    + intros Hn. by apply Hb, Ha.
Qed.

Lemma frame_evolve uid t t' : session_frame uid t t' -> names_evolve t t'.
Proof.
  intros Hf. constructor.
  - by rewrite (sf_reserved _ _ _ Hf).
  - intros name r Hr. exists r. rewrite (sf_harnesses _ _ _ Hf). by repeat split.
  - by eapply frame_names.
Qed.

Lemma harnesses_evolve t m : (forall name r, t_harnesses t !! name = Some r ->
    exists r', m !! name = Some r' /\ row_same r r') ->
  (forall name, t_harnesses t !! name = None -> m !! name <> None -> t_reserved t !! name = None) ->
  names_evolve t (setHarnesses m t).
Proof.
  intros Hk Hn. constructor; simpl; try done. intros Hok name. simpl. specialize (Hok name). specialize (Hn name).
  destruct (t_reserved t !! name); [|by left]. destruct Hok as [?|Hok]; [done|]. right.
  destruct (m !! name) eqn:E; [|done]. exfalso. by discriminate Hn.
Qed.

Lemma alter_evolve f name t : (forall r, row_same r (f r)) -> names_evolve t (setHarnesses (alter f name (t_harnesses t)) t).
Proof.
  intros Hf. apply harnesses_evolve.
  - intros n r Hr. destruct (decide (n = name)) as [->|Hne].
    + rewrite lookup_alter_eq, Hr. simpl. eauto.
    + rewrite lookup_alter_ne by done. exists r. by repeat split.
  - intros n Hn Hm. exfalso. apply Hm. destruct (decide (n = name)) as [->|Hne].
    + by rewrite lookup_alter_eq, Hn.
    + by rewrite lookup_alter_ne.
Qed.

Lemma same_sessions_refl t : same_sessions t t.
Proof. by repeat split. Qed.
Lemma same_sessions_trans t1 t2 t3 : same_sessions t1 t2 -> same_sessions t2 t3 -> same_sessions t1 t3.
Proof. unfold same_sessions. intros (?&?&?&?) (?&?&?&?). repeat split; congruence. Qed.

Context `{!DriverLaws}.

Lemma select_fault {A} (q : Tables -> A) d d' e : select q d = (d', Err e) -> errors_Is e ErrHarnessNotFound = false.
Proof. unfold select, stmt. destruct (fault (ticks d)) eqn:E; intros; inv_ok. by eapply fault_foreign. Qed.

Lemma harnessByName_inv name d d' r : harnessByName name d = (d', r) ->
  saved d' = saved d /\ tables d' = tables d /\
  match r with
  | Ok h => exists row, t_harnesses (tables d) !! name = Some row /\ h = scanHarness name row
  | Err e => errors_Is e ErrHarnessNotFound = true -> t_harnesses (tables d) !! name = None
  end.
Proof.
  unfold harnessByName. intros (d1 & r1 & Hr1 & Hr)%bind_inv. apply wrapErr_inv in Hr1 as (r0 & Hr1 & ->).
  pose proof Hr1 as (Hs & Ht & Hr0)%select_inv. destruct r0 as [row|e].
  - destruct Hr0 as [[= ->]|[? [=]]]. destruct (t_harnesses (tables d) !! name) as [h|] eqn:E;
      unfold throw, mret, M_ret in Hr; inv_ok; split_and!; eauto.
  - destruct Hr as [-> ->]. split_and!; try done. apply select_fault in Hr1. simpl. congruence.
Qed.

Lemma lookupHarness_inv name d d' r : lookupHarness name d = (d', r) ->
  saved d' = saved d /\ tables d' = tables d /\
  match r with Ok o => o = scanHarness name <$> t_harnesses (tables d) !! name | Err _ => True end.
Proof.
  unfold lookupHarness. intros (d1 & r1 & Hr1 & Hr)%bind_inv. unfold try in Hr1.
  destruct (harnessByName name d) as [d2 r2] eqn:E. inv_ok. apply harnessByName_inv in E as (Hs & Ht & E).
  destruct r2 as [h|e].
  - apply mret_inv in Hr as [-> ->]. destruct E as (row & -> & ->). done.
  - destruct (errors_Is e ErrHarnessNotFound) eqn:Ee.
    + apply mret_inv in Hr as [-> ->]. by rewrite E.
    + unfold throw in Hr. inv_ok. done.
Qed.

Lemma nameReserved_inv name d d' r : nameReserved name d = (d', r) ->
  saved d' = saved d /\ tables d' = tables d /\
  match r with Ok b => b = bool_decide (is_Some (t_reserved (tables d) !! name)) | Err _ => True end.
Proof.
  unfold nameReserved. intros (r0 & (Hs & Ht & Hr0)%select_inv & ->)%wrapErr_inv. split_and!; try done.
  destruct r0; [|done]. by destruct Hr0 as [[= ->]|[? [=]]].
Qed.

(** What a registration did. *)
Definition registered (rec : HarnessRecord) (t t' : Tables) (a : HarnessRecord * RegisterResult) : Prop :=
  same_sessions t t' /\ names_evolve t t' /\ t_reserved t !! hr_Name rec = None /\
  (forall name, name <> hr_Name rec -> t_harnesses t' !! name = t_harnesses t !! name) /\
  (t_harnesses t !! hr_Name rec = None -> exists row, t_harnesses t' !! hr_Name rec = Some row /\
     h_uid row = hr_UID rec /\ h_spec row = hr_Spec rec) /\
  exists row, t_harnesses t' !! hr_Name rec = Some row /\ fst a = scanHarness (hr_Name rec) row /\
    h_state row = HarnessActive /\ h_spec_digest row = SpecDigest rec /\
    snd a = match t_harnesses t !! hr_Name rec with
            | None => HarnessCreated
            | Some old => if bool_decide (h_state old = HarnessActive) then HarnessUnchanged else HarnessReactivated
            end.

Lemma registerWrite_inv name rec at_ existing d d' r : hr_Name rec = name ->
  existing = scanHarness name <$> t_harnesses (tables d) !! name -> t_reserved (tables d) !! name = None ->
  match existing with
  | None =>
      do! wrapErr "sqlitelog: register harness"
        (stmt (insertHarness name (mkHarnessRow (hr_UID rec) (hr_Spec rec) (SpecDigest rec) HarnessActive EmptyString 0 at_ at_))) in
      mret HarnessCreated
  | Some h =>
      if negb (bool_decide (SpecDigest h = SpecDigest rec))
      then throw (EWrap "register" (ESentinel ErrHarnessSpecConflict))
      else if bool_decide (hr_State h = HarnessActive) then mret HarnessUnchanged
      else
        do! wrapErr "sqlitelog: reactivate harness"
          (execute (fun t => setHarnesses (alter (reactivateRow at_) name (t_harnesses t)) t)) in
        mret HarnessReactivated
  end d = (d', r) ->
  saved d' = saved d /\
  match r with
  | Ok result => forall row, t_harnesses (tables d') !! name = Some row ->
      registered rec (tables d) (tables d') (scanHarness name row, result)
  | Err _ => True
  end.
Proof.
  intros Hn -> Hres. unfold registered. rewrite Hn. destruct (t_harnesses (tables d) !! name) as [old|] eqn:Eo; simpl.
  - case_bool_decide as Hd; simpl; [|unfold throw; intros; by inv_ok].
    case_bool_decide as Hst.
    + intros [-> ->]%mret_inv. split; [done|]. intros row Hrow. split_and!; [apply same_sessions_refl|done|done|done|congruence|].
      rewrite Eo in Hrow. injection Hrow as <-. eauto 10.
    + intros (d1 & r1 & (r0 & (Hs & Hx)%execute_inv & ->)%wrapErr_inv & Hr)%bind_inv.
      destruct r0 as [[]|e]; [|by destruct Hr as [-> ->]]. apply mret_inv in Hr as [-> ->]. split; [done|].
      destruct Hx as [[-> _]|[_ [? [=]]]]. simpl. rewrite lookup_alter_eq, Eo. intros row [= <-].
      split_and!; [by repeat split|by apply alter_evolve; repeat split|done|intros n Hne; by apply lookup_alter_ne|congruence|]. eauto 10.
  - intros (d1 & r1 & (r0 & (Hs & Hx)%stmt_inv & ->)%wrapErr_inv & Hr)%bind_inv.
    unfold insertHarness in Hx. rewrite Eo in Hx. simpl in Hx.
    destruct r0 as [[]|e]; [|by destruct Hr as [-> ->]]. apply mret_inv in Hr as [-> ->]. split; [done|].
    destruct Hx as [[-> _]|[_ [? [=]]]]. simpl. rewrite lookup_insert_eq. intros row [= <-].
    split_and!; [by repeat split| |done|intros n Hne; by apply lookup_insert_ne|intros _; eexists; by split_and!|eauto 10]. apply harnesses_evolve.
    + intros n r Hr. rewrite lookup_insert_ne by congruence. exists r. by repeat split.
    + intros n Hnone Hm. destruct (decide (n = name)) as [->|]; [done|]. by rewrite lookup_insert_ne in Hm.
Qed.

Lemma registerTx_inv rec d d' r : saved d = Some (tables d) -> registerTx rec d = (d', r) ->
  tx_result (registered rec) (tables d) d' r.
Proof.
  intros Hs. unfold registerTx. intros (d1 & r1 & (Hs1 & Ht1 & Hr1)%nameReserved_inv & Hr)%bind_inv.
  destruct r1 as [b|e]; [|destruct Hr as [-> ->]; apply tx_fail; congruence].
  destruct b; [unfold throw in Hr; inv_ok; apply tx_fail; congruence|].
  symmetry in Hr1. apply bool_decide_eq_false in Hr1. apply eq_None_not_Some in Hr1.
  apply bind_inv in Hr as (d2 & r2 & (Hs2 & Ht2 & ->)%now_inv & Hr).
  apply bind_inv in Hr as (d3 & r3 & (Hs3 & Ht3 & Hr3)%lookupHarness_inv & Hr).
  destruct r3 as [existing|e]; [|destruct Hr as [-> ->]; apply tx_fail; congruence].
  assert (tables d3 = tables d) as Ht by congruence. rewrite Ht2, Ht1 in Hr3.
  apply bind_inv in Hr as (d4 & r4 & Hr4 & Hr).
  eapply registerWrite_inv in Hr4 as [Hs4 Hr4]; [|done|by rewrite Ht|by rewrite Ht].
  destruct r4 as [result|e]; [|destruct Hr as [-> ->]; apply tx_fail; congruence].
  apply bind_inv in Hr as (d5 & r5 & (Hs5 & Ht5 & Hr5)%harnessByName_inv & Hr).
  destruct r5 as [out|e]; [|destruct Hr as [-> ->]; apply tx_fail; congruence].
  destruct Hr5 as (row & Hrow & ->). eapply Commit_result; [|by rewrite Ht5, <- Ht; apply Hr4|exact Hr]. congruence.
Qed.

Lemma Register_inv rec d d' r : saved d = None -> RegisterHarness rec d = (d', r) ->
  saved d' = None /\ match r with Ok a => registered rec (tables d) (tables d') a | Err _ => tables d' = tables d end.
Proof.
  intros Hs. unfold RegisterHarness. destruct (_ || _ || _ || _); [unfold throw; intros; by inv_ok|].
  intros Hr. eapply transaction_inv; [apply Begin_wrapped| |exact Hr|done].
  intros d1 d2 r2 Hs1 Ht1 Hb. rewrite <- Ht1. apply registerTx_inv; [by rewrite Ht1|done].
Qed.

(** A change of the harness tables alone. *)
Definition names_only (t t' : Tables) : Prop := same_sessions t t' /\ names_evolve t t'.

Lemma reserveLoop_inv at_ names d d' r : reserveLoop at_ names d = (d', r) ->
  saved d' = saved d /\ names_only (tables d) (tables d') /\
  match r with
  | Ok _ => (forall name, name ∈ names -> is_Some (t_reserved (tables d') !! name) /\ t_harnesses (tables d) !! name = None) /\
      t_harnesses (tables d') = t_harnesses (tables d)
  | Err _ => True
  end.
Proof.
  revert d. induction names as [|name names IH]; intros d; simpl.
  { intros [-> ->]%mret_inv. split; [done|]. split; [split; [apply same_sessions_refl|done]|]. split; [set_solver|done]. }
  case_bool_decide; [unfold throw; intros; inv_ok; split_and!; [done|split; [apply same_sessions_refl|done]|done]|].
  intros (d1 & r1 & (Hs1 & Ht1 & Hr1)%lookupHarness_inv & Hr)%bind_inv.
  destruct r1 as [[h|]|e];
    [unfold throw in Hr; inv_ok; rewrite Ht1; split_and!; [congruence|split; [apply same_sessions_refl|done]|done]| |
     destruct Hr as [-> ->]; rewrite Ht1; split_and!; [congruence|split; [apply same_sessions_refl|done]|done]].
  symmetry in Hr1. apply fmap_None in Hr1.
  apply bind_inv in Hr as (d2 & r2 & (r0 & (Hs2 & Hx)%execute_inv & ->)%wrapErr_inv & Hr). rewrite Ht1 in Hx.
  destruct r0 as [[]|e].
  2: { destruct Hr as [-> ->]. destruct Hx as [[_ [=]]|[-> _]].
       split_and!; [congruence|split; [apply same_sessions_refl|done]|done]. }
  destruct Hx as [[Ht2 _]|[_ [? [=]]]]. destruct (IH d2 Hr) as (Hs & [Hss Hne] & Hres).
  assert (names_only (tables d) (tables d2)) as [Hss2 Hne2].
  { rewrite Ht2. unfold insertReserved. destruct (t_reserved (tables d) !! name) eqn:E;
      [split; [apply same_sessions_refl|done]|].
    split; [by repeat split|]. constructor; simpl.
    - intros n Hn. rewrite lookup_insert_ne; [done|]. intros ->. rewrite E in Hn. by destruct Hn.
    - intros n x Hx. exists x. by repeat split.
    - intros Hok n. simpl. destruct (decide (n = name)) as [->|Hne']; [by right|].
      rewrite lookup_insert_ne by done. apply Hok. }
  split_and!; [congruence|split; [by eapply same_sessions_trans|by transitivity (tables d2)]|].
  destruct r as [[]|e]; [|done]. destruct Hres as [Hres Hh]. split.
  2: { rewrite Hh, Ht2. unfold insertReserved. by destruct (t_reserved (tables d) !! name). }
  intros n Hn. apply elem_of_cons in Hn as [->|Hn].
  - split; [|done]. rewrite (ne_reserved _ _ Hne); [|]; rewrite Ht2; unfold insertReserved;
      (destruct (t_reserved (tables d) !! name) eqn:E; [by rewrite E|simpl; rewrite lookup_insert_eq; by eexists]).
  - destruct (Hres n Hn) as [? Hnone]. split; [done|]. rewrite Ht2 in Hnone. unfold insertReserved in Hnone.
    by destruct (t_reserved (tables d) !! name).
Qed.

(** Every name of a successful reservation is reserved and has no registration. *)
Definition reserved_all (names : list string) (t t' : Tables) (_ : unit) : Prop :=
  names_only t t' /\ (forall name, name ∈ names -> is_Some (t_reserved t' !! name) /\ t_harnesses t !! name = None) /\
  t_harnesses t' = t_harnesses t.

Lemma Commit_unit (R : Tables -> Tables -> unit -> Prop) tag t0 d d' r : saved d = Some t0 ->
  R t0 (tables d) tt -> wrapErr tag Commit d = (d', r) -> tx_result R t0 d' r.
Proof.
  intros Hs Ha (r0 & (Ht & Hr1)%Commit_inv & ->)%wrapErr_inv. destruct r0 as [[]|e].
  - left. destruct Hr1 as [[_ ->]|[_ [? [=]]]]. by rewrite Ht.
  - destruct Hr1 as [[[=] _]|[Hs1 _]]. simpl. congruence.
Qed.

Lemma Reserve_inv names d d' r : saved d = None -> ReserveHarnessNames names d = (d', r) ->
  saved d' = None /\ match r with Ok a => reserved_all names (tables d) (tables d') a | Err _ => tables d' = tables d end.
Proof.
  intros Hs Hr. eapply transaction_inv; [apply Begin_wrapped| |exact Hr|done]. clear Hr Hs r.
  intros d1 d2 r2 Hs1 Ht1 (d3 & r3 & (Hs3 & Ht3 & ->)%now_inv & Hr)%bind_inv.
  apply bind_inv in Hr as (d4 & r4 & (Hs4 & Hn & Hres)%reserveLoop_inv & Hr). rewrite Ht3, Ht1 in Hn, Hres.
  destruct r4 as [[]|e]; [|destruct Hr as [-> ->]; apply tx_fail; congruence].
  eapply Commit_unit; [| |exact Hr]; [congruence|by split].
Qed.

(** Retirement keeps the registration, and marks it. *)
Definition retired (name reason : string) (t t' : Tables) (out : HarnessRecord) : Prop :=
  names_only t t' /\ exists row, t_harnesses t' !! name = Some row /\ out = scanHarness name row /\
    h_state row <> HarnessActive /\
    (forall old, t_harnesses t !! name = Some old -> h_state old <> HarnessActive -> row = old).

Lemma Retire_inv name reason d d' r : saved d = None -> RetireHarness name reason d = (d', r) ->
  saved d' = None /\ match r with Ok a => retired name reason (tables d) (tables d') a | Err _ => tables d' = tables d end.
Proof.
  intros Hs Hr. eapply transaction_inv; [apply Begin_wrapped| |exact Hr|done]. clear Hr Hs r.
  intros d1 d2 r2 Hs1 Ht1 (d3 & r3 & (Hs3 & Ht3 & ->)%now_inv & Hr)%bind_inv.
  apply bind_inv in Hr as (d4 & r4 & (r0 & (Hs4 & Hx)%execute_inv & ->)%wrapErr_inv & Hr). rewrite Ht3, Ht1 in Hx.
  destruct r0 as [[]|e]; [|destruct Hr as [-> ->]; apply tx_fail; congruence].
  destruct Hx as [[Ht4 _]|[_ [? [=]]]].
  apply bind_inv in Hr as (d5 & r5 & (Hs5 & Ht5 & Hr5)%harnessByName_inv & Hr).
  destruct r5 as [out|e]; [|destruct Hr as [-> ->]; apply tx_fail; congruence].
  destruct Hr5 as (row & Hrow & ->). eapply Commit_result; [| |exact Hr]; [congruence|].
  rewrite Ht5, Ht4 in *. simpl in Hrow. rewrite lookup_alter_eq in Hrow.
  assert (forall x r0, row_same r0 (retireRow reason x r0)) as Hsame
    by (intros x r0; unfold retireRow; case_bool_decide; by repeat split).
  split; [split; [by repeat split|by apply alter_evolve]|]. simpl. rewrite lookup_alter_eq.
  destruct (t_harnesses (tables d) !! name) as [old|]; [|done]. simpl in Hrow. injection Hrow as <-.
  eexists. split; [done|]. split; [done|]. unfold retireRow. case_bool_decide; simpl; split; try done; naive_solver.
Qed.

(** ** Sessions on registered harnesses *)

Definition put_on_harness (m : SessionMeta) (registered : bool) (t t' : Tables) (_ : unit) : Prop :=
  row_update (UID m) t t' /\
  match t_harnesses t !! sm_Harness m with
  | None => registered = false
  | Some row => registered = true /\ h_state row = HarnessActive
  end /\
  exists s, t_sessions t' !! UID m = Some s /\ rowCarries m s.

Lemma PutOnHarness_inv project m registered d d' r : saved d = None ->
  PutSessionOnActiveHarness project m registered d = (d', r) ->
  saved d' = None /\
  match r with Ok a => put_on_harness m registered (tables d) (tables d') a | Err _ => tables d' = tables d end.
Proof.
  intros Hs Hr. eapply transaction_inv; [apply Begin_wrapped| |exact Hr|done]. clear Hr Hs r.
  intros d1 d2 r2 Hs1 Ht1 (d3 & r3 & (Hs3 & Ht3 & Hw)%checkWritable_inv & Hr)%bind_inv.
  destruct r3 as [[]|e]; [|destruct Hr as [-> ->]; apply tx_fail; congruence].
  apply bind_inv in Hr as (d4 & r4 & Hr4 & Hr). unfold try in Hr4.
  destruct (harnessByName (sm_Harness m) d3) as [d5 r5] eqn:E. inv_ok.
  apply harnessByName_inv in E as (Hs4 & Ht4 & E). rewrite Ht3, Ht1 in E.
  apply bind_inv in Hr as (d6 & r6 & Hr6 & Hr).
  assert (saved d6 = saved d4 /\ tables d6 = tables d4 /\ match r6 with Ok _ =>
    match t_harnesses (tables d) !! sm_Harness m with
    | None => registered = false | Some row => registered = true /\ h_state row = HarnessActive end | Err _ => True end)
    as (Hs6 & Ht6 & Hcond).
  { destruct r5 as [h|e].
    - destruct E as (row & -> & ->). destruct registered; simpl in Hr6; [|unfold throw in Hr6; by inv_ok].
      case_bool_decide as Hst; simpl in Hr6; [apply mret_inv in Hr6 as [-> ->]|unfold throw in Hr6]; by inv_ok.
    - destruct (errors_Is e ErrHarnessNotFound); [|unfold throw in Hr6; by inv_ok]. rewrite E by done.
      destruct registered; [unfold throw in Hr6; by inv_ok|]. by apply mret_inv in Hr6 as [-> ->]. }
  destruct r6 as [[]|e]; [|destruct Hr as [-> ->]; apply tx_fail; congruence].
  apply bind_inv in Hr as (d7 & r7 & Hput & Hr). pose proof Hput as (Hs7 & Hr7)%putSession_inv.
  destruct r7 as [[]|e]; [|destruct Hr as [-> ->]; apply tx_fail; congruence].
  eapply Commit_unit; [| |exact Hr]; [congruence|]. split; [by rewrite Ht6, Ht4, Ht3, Ht1 in Hr7|].
  split; [done|by eapply putSession_row].
Qed.

(** ** Deletion *)

Section deletion.
Variable ctxErr : nat -> option Sentinel.

Lemma deleteFail_inv {A} phase e d d' (r : res A) : deleteFail ctxErr phase e d = (d', r) ->
  saved d' = saved d /\ tables d' = tables d /\ exists e', r = Err e'.
Proof.
  unfold deleteFail, ctx_Err, mbind, M_bind, throw. simpl.
  destruct (ctxErr (ticks d)); [destruct (errors_Is _ _)|]; intros; inv_ok; eauto.
Qed.

Lemma orFail_inv {A} phase (m : M DB goerr A) d d' r : orFail ctxErr phase m d = (d', r) ->
  exists d1 r1, m d = (d1, r1) /\
    match r1 with
    | Ok a => d' = d1 /\ r = Ok a
    | Err _ => saved d' = saved d1 /\ tables d' = tables d1 /\ exists e', r = Err e'
    end.
Proof.
  unfold orFail. intros (d1 & r1 & Hr1 & Hr)%bind_inv. unfold try in Hr1. destruct (m d) as [d2 r2] eqn:E. inv_ok.
  exists d1, r2. split; [done|]. destruct r2; [by apply mret_inv in Hr|by apply deleteFail_inv in Hr].
Qed.

Lemma txSessionInfo_inv uid d d' r : txSessionInfo uid d = (d', r) ->
  saved d' = saved d /\ tables d' = tables d /\
  match r with Ok i => selectSession uid (tables d) = Some i | Err _ => True end.
Proof.
  unfold txSessionInfo. intros (d1 & r1 & (Hs & Ht & Hr1)%select_inv & Hr)%bind_inv.
  destruct r1 as [o|e]; [|by destruct Hr as [-> ->]]. destruct Hr1 as [[= ->]|[? [=]]].
  destruct (selectSession uid (tables d)) as [i|] eqn:E; unfold throw, mret, M_ret in Hr; inv_ok; split_and!; done.
Qed.

(** The two outcomes of a deletion: the answer to a retry, and the commit of the intent. *)
Record deletes (uid : string) (t t' : Tables) (info : SessionInfo) : Prop := {
  de_info : selectSession uid t' = Some info;
  de_row : exists s at_ prev h b,
    t_sessions t !! uid = Some s /\ deletion_state (s_deletion s) = DeletionActive /\
    (if 0 <? headSeq uid t then exists e, eventAt uid (headSeq uid t) t = Some e /\ prev = e_hash e else prev = EmptyString) /\
    HashRecord prev (headSeq uid t + 1) (deleteEvent at_) = Ok h /\
    proto_Marshal (EventToProto (deleteEvent at_)) = Ok b /\
    let rec := mkRecord (headSeq uid t + 1) prev h (s_fence s + 1) (deleteEvent at_) in
    t' = updateSession (markDeleted at_ (headSeq uid t) rec) uid
           (setEvents (t_events t ++ [mkEventRow uid (Seq rec) prev h (Fence rec) b]) t);
}.
Definition deletion (uid : string) (t t' : Tables) (info : SessionInfo) : Prop :=
  (t' = t /\ selectSession uid t = Some info /\ si_DeletionState info = DeletionPending) \/ deletes uid t t' info.

Lemma selectSession_row uid t i : selectSession uid t = Some i -> exists s, t_sessions t !! uid = Some s /\
  LastSeq i = headSeq uid t /\ si_DeletionState i = deletion_state (s_deletion s).
Proof.
  unfold selectSession. destruct (t_sessions t !! uid) as [s|]; simpl; [|done]. intros [= <-]. exists s.
  split; [done|]. unfold sessionSelect. by destruct (t_executions t !! _).
Qed.

Lemma deleteTx_inv uid d d' r : saved d = Some (tables d) -> deleteTx ctxErr uid d = (d', r) ->
  tx_result (deletion uid) (tables d) d' r.
Proof.
  intros Hs. unfold deleteTx. intros (d1 & r1 & Hr1 & Hr)%bind_inv.
  apply orFail_inv in Hr1 as (d1' & r1' & (Hs1 & Ht1 & Hi)%txSessionInfo_inv & Hr1).
  destruct r1' as [info|e0]; destruct Hr1 as [Hr1 Hr1'].
  2: { destruct Hr1' as (? & e' & ->). destruct Hr as [-> ->]. apply tx_fail. congruence. }
  subst d1' r1. destruct (selectSession_row _ _ _ Hi) as (s & Hrow & Hlast & Hstate).
  destruct (si_DeletionState info) eqn:Hd.
  2: { apply mret_inv in Hr as [-> ->]. right. split; [congruence|]. left. done. }
  2: { apply deleteFail_inv in Hr as (? & ? & e' & ->). apply tx_fail. congruence. }
  apply bind_inv in Hr as (d2 & r2 & Hr2 & Hr). apply orFail_inv in Hr2 as (d2' & r2' & Hf & Hr2).
  assert (saved d2' = saved d1 /\ tables d2' = tables d1 /\ match r2' with Ok f => f = s_fence s | Err _ => True end)
    as (Hs2 & Ht2 & Hfence).
  { apply bind_inv in Hf as (d3 & r3 & (Hs3 & Ht3 & Hr3)%select_inv & Hf).
    destruct r3 as [o|e]; [|by destruct Hf as [-> ->]]. destruct Hr3 as [[= ->]|[? [=]]].
    rewrite Ht1, Hrow in Hf. simpl in Hf. by apply mret_inv in Hf as [-> ->]. }
  destruct r2' as [fence|e0]; destruct Hr2 as [Hr2 Hr2'].
  2: { destruct Hr2' as (? & e' & ->). destruct Hr as [-> ->]. apply tx_fail. congruence. }
  subst d2' r2 fence. apply bind_inv in Hr as (d3 & r3 & Hr3 & Hr). unfold ctx_Err in Hr3. inv_ok.
  destruct (ctxErr (ticks d2)); [apply deleteFail_inv in Hr as (? & ? & e' & ->); apply tx_fail; simpl in *; congruence|].
  apply bind_inv in Hr as (d4 & r4 & (Hs4 & Ht4 & ->)%now_inv & Hr). simpl in Hs4, Ht4. set (at_ := clock _) in *.
  apply bind_inv in Hr as (d5 & r5 & Hr5 & Hr). apply orFail_inv in Hr5 as (d5' & r5' & [Hs5 Ha]%appendRecord_inv & Hr5).
  destruct r5' as [[rec pb]|e0]; destruct Hr5 as [Hr5 Hr5'].
  2: { destruct Hr5' as (? & e' & ->). destruct Hr as [-> ->]. apply tx_fail. congruence. }
  subst d5' r5. destruct Ha as (prev & h & b & Hprev & Hh & Hb & _ & Ht5 & -> & ->).
  assert (tables d4 = tables d) as Ht by congruence. rewrite Ht in Hprev, Ht5. rewrite Hlast in *. clear Ht4.
  apply bind_inv in Hr as (d6 & r6 & Hr6 & Hr). apply orFail_inv in Hr6 as (d6' & r6' & (Hs6 & Hx)%execute_inv & Hr6).
  destruct r6' as [[]|e0]; destruct Hr6 as [Hr6 Hr6'].
  2: { destruct Hr6' as (? & e' & ->). destruct Hr as [-> ->]. apply tx_fail. congruence. }
  subst d6' r6. destruct Hx as [[Ht6 _]|[_ [? [=]]]]. simpl in Ht6.
  apply bind_inv in Hr as (d7 & r7 & Hr7 & Hr). apply orFail_inv in Hr7 as (d7' & r7' & (Hs7 & Ht7 & Hi7)%txSessionInfo_inv & Hr7).
  destruct r7' as [out|e0]; destruct Hr7 as [Hr7 Hr7'].
  2: { destruct Hr7' as (? & e' & ->). destruct Hr as [-> ->]. apply tx_fail. congruence. }
  subst d7' r7. apply bind_inv in Hr as (d8 & r8 & Hr8 & Hr). apply orFail_inv in Hr8 as (d8' & r8' & (Ht8 & Hx8)%Commit_inv & Hr8).
  destruct r8' as [[]|e0]; destruct Hr8 as [Hr8 Hr8'].
  2: { destruct Hr8' as (? & e' & ->). destruct Hr as [-> ->]. destruct Hx8 as [[[=] _]|[? _]]. apply tx_fail. congruence. }
  subst d8' r8. apply mret_inv in Hr as [-> ->]. destruct Hx8 as [[_ Hs8]|[_ [? [=]]]]. left. split; [done|]. right.
  rewrite Ht8, Ht7 in *. constructor; [done|]. exists s, at_, prev, h, b. rewrite <- Hstate. split_and!; try done.
  by rewrite Ht6, Ht5.
Qed.

Lemma Delete_inv uid d d' r : saved d = None -> DeleteSession ctxErr uid d = (d', r) ->
  saved d' = None /\ match r with Ok i => deletion uid (tables d) (tables d') i | Err _ => tables d' = tables d end.
Proof.
  intros Hs. unfold DeleteSession. case_bool_decide; [unfold throw; intros; by inv_ok|]. intros Hr.
  eapply transaction_inv; [| |exact Hr|done].
  - intros d1 r1 (d2 & r2 & (Ht & Hb)%Begin_inv & Hr1)%orFail_inv. destruct r2 as [[]|e].
    + destruct Hr1 as [-> ->]. split; [done|]. destruct Hb as [[_ ?]|[_ [? [=]]]]. done.
    + destruct Hr1 as (? & ? & e' & ->). destruct Hb as [[[=] _]|[? _]]. split; congruence.
  - intros d1 d2 r2 Hs1 Ht1 Hb. rewrite <- Ht1. apply deleteTx_inv; [by rewrite Ht1|done].
Qed.
End deletion.

(** The journal, the row and the answer after a deletion. *)
Lemma deletes_inv uid t t' i : tables_wf t -> deletes uid t t' i ->
  exists s s' rec at_, t_sessions t !! uid = Some s /\ deletion_state (s_deletion s) = DeletionActive /\
    Seq rec = headOf (journalOf uid t) + 1 /\ PrevHash rec = lastHash (journalOf uid t) /\
    Fence rec = s_fence s + 1 /\ rec_Event rec = EventFromProto (Some (EventToProto (deleteEvent at_))) /\
    journalOf uid t' = journalOf uid t ++ [rec] /\
    t_sessions t' !! uid = Some s' /\ deletion_state (s_deletion s') = DeletionPending /\
    deletion_seq (s_deletion s') = Seq rec /\ s_fence s' = Fence rec /\
    s_report s' = colsAdvance (Seq rec) (s_report s) /\
    session_frame uid t t' /\ t_executions t' = t_executions t /\ t_calls t' = t_calls t.
Proof.
  intros Hwf [_ (s & at_ & prev & h & b & Hrow & Hact & Hprev & Hh & Hb & ->)].
  assert (prev = lastHash (journalOf uid t)) as ->.
  { destruct (0 <? headSeq uid t) eqn:E.
    - destruct Hprev as (e & He0 & ->). by eapply eventAt_head.
    - subst prev. by rewrite (tables_wf_empty_head uid t). }
  set (rec := mkRecord _ _ _ _ _).
  exists s, (markDeleted at_ (headSeq uid t) rec s),
    (mkRecord (Seq rec) (PrevHash rec) (Hash rec) (Fence rec) (EventFromProto (Some (EventToProto (deleteEvent at_))))), at_.
  simpl. rewrite lookup_alter_eq, Hrow. split_and!; try done.
  - by rewrite headSeq_journal.
  - pose proof (sessionEvents_snoc t (mkEventRow uid (headSeq uid t + 1) (lastHash (journalOf uid t)) h (s_fence s + 1) b) eq_refl) as Hse.
    unfold journalOf at 1. cbn [e_session] in Hse.
    match type of Hse with sessionEvents _ ?T = _ =>
      match goal with |- map rowRecord (sessionEvents uid ?T') = _ =>
        change (sessionEvents uid T') with (sessionEvents uid T) end end.
    rewrite Hse, map_app. simpl. by rewrite (rowRecord_marshal _ _ _ _ _ (deleteEvent at_)).
  - unfold markDeleted, colsAdvance. simpl. by rewrite Z.add_simpl_r.
  - constructor; simpl; try done.
    + intros u Hu. by rewrite lookup_alter_ne.
    + intros u Hu. by apply (sessionEvents_other u t (mkEventRow uid (headSeq uid t + 1) (lastHash (journalOf uid t)) h (s_fence s + 1) b)).
Qed.

Lemma deletes_ok uid d d' i : db_ok d -> saved d' = None -> deletes uid (tables d) (tables d') i -> db_ok d'.
Proof.
  intros Hok Hs Hd. pose proof (db_ok_wf d Hok) as [_ Hwf].
  apply deletes_inv in Hd as (s & s' & rec & at_ & Hrow & Hact & Hq & Hp & Hf & Hev & Hj & Hrow' & Hst & Hsq & Hfe & Hrp & Hfr & Hx & Hc); [|done].
  eapply db_ok_session; [done|done|exact Hfr|]. destruct (ok_sessions _ Hok uid) as [Hch [Hr Hre Hrc] Hdel].
  constructor.
  - rewrite Hj. by apply contiguous_snoc.
  - rewrite Hj, reportOf_snoc, Hev. rewrite Hrow in Hr. simpl in Hr.
    constructor; simpl; [rewrite Hrow'; simpl; congruence|by rewrite Hx|by rewrite Hc].
  - unfold deleted_ok in *. rewrite Hrow, Hact in Hdel. rewrite Hrow', Hst. exists (journalOf uid (tables d)), rec.
    split_and!; try done. by rewrite Hev.
Qed.

(** ** Every call keeps the invariant *)

Lemma names_only_ok d d' : db_ok d -> saved d' = None -> names_only (tables d) (tables d') -> db_ok d'.
Proof.
  intros [] Hs [Hss Hne]. constructor; [done| |by apply Hne]. intros u. by eapply session_ok_same.
Qed.

Lemma db_step_ok d d' : db_ok d -> db_step d d' -> db_ok d'.
Proof.
  intros Hok Hst. pose proof (ok_rest _ Hok) as Hs. inversion Hst as
    [project uid exp f ev r Hr|project uid r Hr|project m r Hr|project m reg r Hr|ctxErr uid r Hr|rec r Hr|names r Hr|name reason r Hr|Hs' Ht].
  - by eapply Append_ok.
  - by eapply NewFence_ok.
  - by eapply PutSession_ok.
  - apply PutOnHarness_inv in Hr as [Hs' Hr]; [|done].
    destruct r; [destruct Hr as [Hr _]; by eapply row_update_ok|by eapply db_ok_same].
  - apply Delete_inv in Hr as [Hs' Hr]; [|done]. destruct r as [i|e]; [|by eapply db_ok_same].
    destruct Hr as [(Ht & _)|Hd]; [by eapply db_ok_same|by eapply deletes_ok].
  - apply Register_inv in Hr as [Hs' Hr]; [|done].
    destruct r as [a|e]; [destruct Hr as (? & ? & _); by eapply names_only_ok|by eapply db_ok_same].
  - apply Reserve_inv in Hr as [Hs' Hr]; [|done].
    destruct r as [a|e]; [destruct Hr as (? & _); by eapply names_only_ok|by eapply db_ok_same].
  - apply Retire_inv in Hr as [Hs' Hr]; [|done].
    destruct r as [a|e]; [destruct Hr as (? & _); by eapply names_only_ok|by eapply db_ok_same].
  - eapply db_ok_same; [done|congruence|done].
Qed.

Lemma db_steps_ok d d' : db_ok d -> rtc db_step d d' -> db_ok d'.
Proof. intros Hok Hr. induction Hr; [done|]. eauto using db_step_ok. Qed.

(** How a call moves the tables: one session, or the harness names. *)
Lemma db_step_cases d d' : db_ok d -> db_step d d' ->
  tables d' = tables d \/ names_only (tables d) (tables d') \/
  exists uid, session_frame uid (tables d) (tables d') /\
    default DeletionActive (deletionOf uid (tables d)) = DeletionActive.
Proof.
  intros Hok Hst. pose proof (db_ok_wf d Hok) as [Hs Hwf]. inversion Hst as
    [project uid exp f ev r Hr|project uid r Hr|project m r Hr|project m reg r Hr|ctxErr uid r Hr|rec r Hr|names r Hr|name reason r Hr|Hs' Ht].
  - apply sql_Append_inv in Hr as [_ Hr]; [|done]. destruct r; [|by left]. right; right. exists uid.
    split; [apply (ap_frame _ _ _ _ _ _ _ Hr)|apply (ap_active _ _ _ _ _ _ _ Hr)].
  - apply sql_NewFence_inv in Hr as [_ Hr]. destruct r; [|by left]. right; right. exists uid. naive_solver.
  - apply putSession_inv in Hr as [_ Hr]. destruct r; [|by left]. right; right. exists (UID m). by destruct Hr.
  - apply PutOnHarness_inv in Hr as [_ Hr]; [|done]. destruct r; [|by left]. right; right. exists (UID m).
    by destruct Hr as [[] _].
  - apply Delete_inv in Hr as [_ Hr]; [|done]. destruct r; [|by left].
    destruct Hr as [(? & _)|Hd]; [by left|]. right; right. exists uid.
    apply deletes_inv in Hd as (s & s' & rec & at_ & Hrow & Hact & _ & _ & _ & _ & _ & _ & _ & _ & _ & _ & Hfr & _); [|done].
    split; [done|]. unfold deletionOf. by rewrite Hrow.
  - apply Register_inv in Hr as [_ Hr]; [|done]. destruct r; [right; left; by destruct Hr as (? & ? & _)|by left].
  - apply Reserve_inv in Hr as [_ Hr]; [|done]. destruct r; [right; left; by destruct Hr|by left].
  - apply Retire_inv in Hr as [_ Hr]; [|done]. destruct r; [right; left; by destruct Hr|by left].
  - by left.
Qed.

(** Journals only grow. *)
Lemma db_step_grows d d' uid : db_ok d -> db_step d d' -> journalOf uid (tables d) `prefix_of` journalOf uid (tables d').
Proof.
  intros Hok Hst. pose proof (db_ok_wf d Hok) as [Hs Hwf].
  assert (t_events (tables d') = t_events (tables d) -> journalOf uid (tables d) `prefix_of` journalOf uid (tables d')) as Hsame
    by (intros He; exists []; rewrite app_nil_r; apply journalOf_events; unfold sessionEvents; by rewrite He).
  assert (forall u, session_frame u (tables d) (tables d') -> u <> uid -> journalOf uid (tables d) `prefix_of` journalOf uid (tables d')) as Hother
    by (intros u Hf Hne; exists []; rewrite app_nil_r; apply journalOf_events, (sf_events _ _ _ Hf); congruence).
  inversion Hst as
    [project u exp f ev r Hr|project u r Hr|project m r Hr|project m reg r Hr|ctxErr u r Hr|rec r Hr|names r Hr|name reason r Hr|Hs' Ht].
  - apply sql_Append_inv in Hr as [_ Hr]; [|done]. destruct r; [|by rewrite Hr].
    destruct (decide (u = uid)) as [->|Hne]; [|by apply (Hother u); [apply (ap_frame _ _ _ _ _ _ _ Hr)|]].
    apply appended_journal in Hr as (_ & _ & _ & _ & _ & _ & _ & ->); [|done]. by eexists.
  - apply sql_NewFence_inv in Hr as [_ Hr]. destruct r; [apply Hsame; naive_solver|by rewrite Hr].
  - apply putSession_inv in Hr as [_ Hr]. destruct r; [apply Hsame; by destruct Hr|by rewrite Hr].
  - apply PutOnHarness_inv in Hr as [_ Hr]; [|done]. destruct r; [apply Hsame; by destruct Hr as [[] _]|by rewrite Hr].
  - apply Delete_inv in Hr as [_ Hr]; [|done]. destruct r; [|by rewrite Hr].
    destruct Hr as [(Ht & _)|Hd]; [by rewrite Ht|].
    apply deletes_inv in Hd as (s & s' & rec & at_ & _ & _ & _ & _ & _ & _ & Hj & _ & _ & _ & _ & _ & Hfr & _); [|done].
    destruct (decide (u = uid)) as [->|Hne]; [rewrite Hj; by eexists|by apply (Hother u)].
  - apply Register_inv in Hr as [_ Hr]; [|done]. destruct r; [apply Hsame; by destruct Hr as ((_ & He & _) & _)|by rewrite Hr].
  - apply Reserve_inv in Hr as [_ Hr]; [|done]. destruct r; [apply Hsame; by destruct Hr as ([(_ & He & _) _] & _)|by rewrite Hr].
  - apply Retire_inv in Hr as [_ Hr]; [|done]. destruct r; [apply Hsame; by destruct Hr as ([(_ & He & _) _] & _)|by rewrite Hr].
  - by rewrite Ht.
Qed.
Lemma db_steps_grow d d' uid : db_ok d -> rtc db_step d d' -> journalOf uid (tables d) `prefix_of` journalOf uid (tables d').
Proof.
  intros Hok Hr. induction Hr as [d|d d1 d' Hst Hr IH]; [done|]. etransitivity; [by apply db_step_grows|]. by apply IH, (db_step_ok d).
Qed.

Lemma db_step_evolve d d' : db_ok d -> db_step d d' -> names_evolve (tables d) (tables d').
Proof.
  intros Hok Hst. destruct (db_step_cases d d' Hok Hst) as [->|[[_ ?]|(uid & Hf & _)]]; [done|done|by eapply frame_evolve].
Qed.
End System.
