(* ===== verification/Durable.v ===== *)
(** * What the database promises over every history (theorems)

    Deletion is final, names are exclusive, and a session row reports what the strict scan of its
    journal finds, however calls interleave and whichever of their statements fail. *)
From S2P Require Import Prelude GoErrors Api Canon EventLog Executions Approvals Harness Wire Tables Projection Reducer SqlLog SqlExample SqlStore SqlSessions SqlHarnesses Reporting SqlSystem.
From stdpp Require Import sorting.
#[local] Open Scope Z_scope.

Section Durable.
Context `{Encoding} `{ProtoCodec} `{Driver} `{!ProtoLaws} `{!DriverLaws}.

Lemma emptyDB_ok : db_ok emptyDB.
Proof. constructor; [done| |by left]. intros uid. constructor; [done| |done]. by constructor. Qed.

(** A row that is not active is out of every call's reach. *)
Lemma db_step_inactive d d' uid s : db_ok d -> t_sessions (tables d) !! uid = Some s ->
  deletion_state (s_deletion s) <> DeletionActive -> db_step d d' ->
  t_sessions (tables d') !! uid = Some s /\ journalOf uid (tables d') = journalOf uid (tables d).
Proof.
  intros Hok Hs Hd Hst. destruct (db_step_cases d d' Hok Hst) as [->|[[(Ht & He & _) _]|(u & Hf & Ha)]]; [done| |].
  - rewrite Ht. split; [done|]. apply journalOf_events. unfold sessionEvents. by rewrite He.
  - assert (uid <> u) as Hne.
    { intros <-. unfold deletionOf in Ha. rewrite Hs in Ha. by apply Hd. }
    rewrite (sf_rows _ _ _ Hf uid Hne). split; [done|]. by apply journalOf_events, (sf_events _ _ _ Hf).
Qed.

Lemma db_steps_inactive d d' uid s : db_ok d -> t_sessions (tables d) !! uid = Some s ->
  deletion_state (s_deletion s) <> DeletionActive -> rtc db_step d d' ->
  t_sessions (tables d') !! uid = Some s /\ journalOf uid (tables d') = journalOf uid (tables d).
Proof.
  intros Hok Hs Hd Hr. induction Hr as [d|d d1 d' Hst Hr IH]; [done|].
  destruct (db_step_inactive d d1 uid s Hok Hs Hd Hst) as [Hs1 Hj1].
  destruct (IH (db_step_ok d d1 Hok Hst) Hs1) as [Hs' Hj']. split; congruence.
Qed.

Lemma active_row uid t s : t_sessions t !! uid = Some s -> deletion_state (s_deletion s) <> DeletionActive ->
  default DeletionActive (deletionOf uid t) <> DeletionActive.
Proof. unfold deletionOf. by intros ->. Qed.

(** The writes an inactive session refuses. *)
Lemma inactive_refuses d uid s : db_ok d -> t_sessions (tables d) !! uid = Some s ->
  deletion_state (s_deletion s) <> DeletionActive ->
  (forall project exp f ev d' rec, sql_Append project uid exp f ev d <> (d', Ok rec)) /\
  (forall project d' f, sql_NewFence project uid d <> (d', Ok f)) /\
  (forall project m d', UID m = uid -> PutSession project m d <> (d', Ok tt)) /\
  (forall project m b d', UID m = uid -> PutSessionOnActiveHarness project m b d <> (d', Ok tt)) /\
  (forall d', sql_CheckWritable uid d <> (d', Ok tt)).
Proof.
  intros Hok Hs Hd. pose proof (active_row _ _ _ Hs Hd) as Ha. pose proof (ok_rest _ Hok) as Hr. split_and!.
  - intros project exp f ev d' rec E. apply sql_Append_inv in E as [_ E]; [|done]. apply Ha, (ap_active _ _ _ _ _ _ _ E).
  - intros project d' f E. apply sql_NewFence_inv in E as (_ & _ & _ & E & _). done.
  - intros project m d' <- E. apply putSession_inv in E as [_ []]. done.
  - intros project m b d' <- E. apply PutOnHarness_inv in E as [_ [[] _]]; done.
  - intros d' E. by apply checkWritable_inv in E as (_ & _ & E).
Qed.

(** The row a deletion leaves. *)
Lemma Delete_row ctxErr uid d d1 i : db_ok d -> DeleteSession ctxErr uid d = (d1, Ok i) ->
  db_ok d1 /\ exists s1, t_sessions (tables d1) !! uid = Some s1 /\ deletion_state (s_deletion s1) = DeletionPending.
Proof.
  intros Hok Hdel. split; [eapply db_step_ok; [exact Hok|by eapply call_Delete]|].
  apply Delete_inv in Hdel as [Hs1 [(-> & Hi & Hst)|Hd]]; [| |apply (ok_rest _ Hok)].
  - destruct (selectSession_row _ _ _ Hi) as (s & Hrow & _ & E). exists s. split; [done|congruence].
  - apply deletes_inv in Hd as (s & s' & rec & at_ & H'); [|apply (db_ok_wf d Hok)]. exists s'. tauto.
Qed.

(** C18: Deletion is permanent. A DeleteSession that returns either answers a retry without writing, or
    commits exactly one DELETE record at the head, under a fence one above the session's. From then
    on, over every further history, the row and the journal never change: Append, NewFence,
    PutSession and CheckWritable never succeed on the session, and a retry returns the same answer
    and writes nothing. *)
Theorem deletion_is_final ctxErr uid d d1 i : db_ok d -> DeleteSession ctxErr uid d = (d1, Ok i) ->
  ((tables d1 = tables d /\ si_DeletionState i = DeletionPending) \/
   exists s rec, t_sessions (tables d) !! uid = Some s /\ journalOf uid (tables d1) = journalOf uid (tables d) ++ [rec] /\
     isMarker LifecycleDelete (rec_Event rec) = true /\ Seq rec = headOf (journalOf uid (tables d)) + 1 /\
     PrevHash rec = lastHash (journalOf uid (tables d)) /\ Fence rec = s_fence s + 1) /\
  forall d2, rtc db_step d1 d2 ->
    t_sessions (tables d2) !! uid = t_sessions (tables d1) !! uid /\
    journalOf uid (tables d2) = journalOf uid (tables d1) /\
    (forall project exp f ev d3 rec, sql_Append project uid exp f ev d2 <> (d3, Ok rec)) /\
    (forall project d3 f, sql_NewFence project uid d2 <> (d3, Ok f)) /\
    (forall project m d3, UID m = uid -> PutSession project m d2 <> (d3, Ok tt)) /\
    (forall d3, sql_CheckWritable uid d2 <> (d3, Ok tt)) /\
    (forall ctxErr' d3 i', DeleteSession ctxErr' uid d2 = (d3, Ok i') ->
       tables d3 = tables d2 /\ si_DeletionState i' = DeletionPending).
Proof.
  intros Hok Hdel. pose proof (db_ok_wf d Hok) as [Hs Hwf].
  destruct (Delete_row _ _ _ _ _ Hok Hdel) as (Hok1 & s1 & Hrow1 & Hst1).
  apply Delete_inv in Hdel as [Hs1 Hdel]; [|done]. split.
  - destruct Hdel as [(Ht & Hi & Hst)|Hd]; [by left|right].
    apply deletes_inv in Hd as (s & s' & rec & at_ & Hrow & Hact & Hq & Hp & Hf & Hev & Hj & _); [|done].
    exists s, rec. split_and!; try done. by rewrite Hev.
  - intros d2 Hr. assert (deletion_state (s_deletion s1) <> DeletionActive) as Hna by congruence.
    destruct (db_steps_inactive d1 d2 uid s1 Hok1 Hrow1 Hna Hr) as [Hrow2 Hj2].
    pose proof (db_steps_ok d1 d2 Hok1 Hr) as Hok2.
    destruct (inactive_refuses d2 uid s1 Hok2 Hrow2 Hna) as (? & ? & ? & _ & ?).
    split_and!; try done; [congruence|]. intros ctxErr' d3 i' E.
    apply Delete_inv in E as [_ [(Ht & Hi & Hst)|Hd]]; [done| |apply Hok2].
    destruct Hd as [_ (s & _ & _ & _ & _ & Hrow & Hact & _)]. congruence.
Qed.

(** Names: over every history a name is never both reserved for a static harness and registered, a
    reservation is permanent, and a registration keeps its uid, spec and digest. A registration that
    returns left the name active under the requested digest and unreserved; a session is only put on
    a registered harness that is active, or on a static name that nobody registered. *)
Theorem harness_names_exclusive d d' : db_ok d -> rtc db_step d d' ->
  (forall name, t_reserved (tables d') !! name = None \/ t_harnesses (tables d') !! name = None) /\
  (forall name, is_Some (t_reserved (tables d) !! name) -> is_Some (t_reserved (tables d') !! name)) /\
  (forall name r, t_harnesses (tables d) !! name = Some r ->
     exists r', t_harnesses (tables d') !! name = Some r' /\ row_same r r') /\
  (forall rec d2 out, RegisterHarness rec d' = (d2, Ok out) ->
     t_reserved (tables d') !! hr_Name rec = None /\
     exists row, t_harnesses (tables d2) !! hr_Name rec = Some row /\ h_state row = HarnessActive /\
       h_spec_digest row = SpecDigest rec) /\
  (forall names d2, ReserveHarnessNames names d' = (d2, Ok tt) -> forall name, name ∈ names ->
     is_Some (t_reserved (tables d2) !! name) /\ t_harnesses (tables d2) !! name = None) /\
  (forall project m registered d2, PutSessionOnActiveHarness project m registered d' = (d2, Ok tt) ->
     match t_harnesses (tables d') !! sm_Harness m with
     | Some row => registered = true /\ h_state row = HarnessActive
     | None => registered = false
     end).
Proof.
  intros Hok Hr. pose proof (db_steps_ok d d' Hok Hr) as Hok'.
  assert (names_evolve (tables d) (tables d')) as Hne.
  { clear Hok'. induction Hr as [d|d d1 d' Hst Hr IH]; [done|].
    transitivity (tables d1); [by apply db_step_evolve|]. apply IH. by eapply db_step_ok. }
  pose proof (ok_rest _ Hok') as Hs. split_and!.
  - apply (ok_names _ Hok').
  - intros name Hn. by rewrite (ne_reserved _ _ Hne).
  - apply (ne_rows _ _ Hne).
  - intros rec d2 out E. apply Register_inv in E as [_ (_ & _ & Hres & _ & _ & row & Hrow & _ & Hst & Hdg & _)]; [|done].
    split; [done|]. by exists row.
  - intros names d2 E name Hn. pose proof E as [Hs2 [_ [Hres _]]]%Reserve_inv; [|done].
    destruct (Hres name Hn) as [Hin _]. split; [done|].
    assert (db_ok d2) as Hok2 by (eapply db_step_ok; [exact Hok'|by eapply call_Reserve]).
    destruct (ok_names _ Hok2 name) as [Hc|]; [|done]. rewrite Hc in Hin. by destruct Hin.
  - intros project m registered d2 E. by apply PutOnHarness_inv in E as [_ (_ & E & _)].
Qed.

(** ** Reporting *)

Lemma select_reported uid t i : reports uid t (reportOf (journalOf uid t)) -> selectSession uid t = Some i ->
  PendingApproval i = reportedOf (reportOf (journalOf uid t)) (headOf (journalOf uid t)) /\
  LastSeq i = headOf (journalOf uid t).
Proof.
  intros [Hr He _]. unfold selectSession. destruct (t_sessions t !! uid) as [s|]; simpl in *; [|done].
  intros [= <-]. unfold sessionSelect, reportedOf, colsReportable. rewrite <- Hr, headSeq_journal, He.
  destruct (rp_execs _ !! _) as [a|]; simpl; [|done]. split; [|done].
  change (reportable s) with (reportable (setReport (s_report s) s)). unfold reportable. simpl.
  by destruct (_ && _ && _ && _ && _ && _ && _ && _ && _ && _ && _).
Qed.

(** What a session row reports is what the strict scan of its journal finds: over every history of the
    database, the pending approval of SessionInfo is the open request that the scan of the whole
    journal selects, if the scan accepts it and the request is undecided and the session's own, and
    is absent otherwise; and its cursor is the head of the journal. *)
Theorem session_row_reports_scan d uid d' i : rtc db_step emptyDB d -> SessionInfo_ uid d = (d', Ok i) ->
  PendingApproval i = pendingOf (journalOf uid (tables d)) /\ LastSeq i = headOf (journalOf uid (tables d)).
Proof.
  intros Hr Hi. pose proof (db_steps_ok _ _ emptyDB_ok Hr) as Hok. destruct (ok_sessions _ Hok uid) as [Hc Hrep _].
  rewrite <- (reported_pending _ Hc). unfold SessionInfo_ in Hi.
  apply bind_ok in Hi as (d1 & o & Hsel & Hi). apply wrapErr_inv in Hsel as ([o'|e] & Hsel & [=]); subst o'.
  apply select_ok in Hsel as [_ ->].
  destruct (selectSession uid (tables d)) as [i'|] eqn:E; [|done]. apply mret_inv in Hi as [_ [= ->]].
  by apply select_reported.
Qed.
End Durable.

(** ** Examples *)

#[local] Existing Instance exampleHost.
#[local] Existing Instance exampleTimestamppb.
#[local] Existing Instance exampleEncoding.
#[local] Existing Instance exampleDriver.

Lemma exampleDriverLaws : DriverLaws.
Proof. by constructor. Qed.
#[local] Existing Instance exampleDriverLaws.

(** Events appended to session "s" one after the other. *)
Fixpoint appendAll (evs : list Event) (d : DB) : DB :=
  match evs with
  | [] => d
  | ev :: evs' => appendAll evs' (fst (sql_Append "default" "s" (headSeq "s" (tables d)) 1 ev d))
  end.

Lemma appendAll_steps evs d : rtc db_step d (appendAll evs d).
Proof.
  revert d. induction evs as [|ev evs IH]; intros d; simpl; [done|].
  eapply rtc_l; [|apply IH]. eapply call_Append. apply surjective_pairing.
Qed.

Lemma appendAll_ok evs : db_ok (appendAll evs emptyDB).
Proof. eapply db_steps_ok; [apply emptyDB_ok|apply appendAll_steps]. Qed.

Definition gateDB : DB := appendAll gateEvents emptyDB.

Definition noContext (n : nat) : option Sentinel := None.
Definition gateInfo : SessionInfo :=
  match snd (SessionInfo_ "s" gateDB) with Ok i => i | Err _ => mkSessionInfo (mkSessionMeta "" "" "" "" "" "" 0 None None "" "" "" "") 0 ComputeNone DeletionActive None 0 noApproval end.
Definition deletedInfo : SessionInfo :=
  match snd (DeleteSession noContext "s" gateDB) with Ok i => i | Err _ => gateInfo end.

Lemma session_row_reports_scan_witness :
  PendingApproval gateInfo = mkApprovalRef "e1" "c1" 4 /\ pendingOf (journalOf "s" (tables gateDB)) = mkApprovalRef "e1" "c1" 4.
Proof.
  assert (PendingApproval gateInfo = mkApprovalRef "e1" "c1" 4) as E by (vm_compute; reflexivity).
  split; [exact E|].
  destruct (session_row_reports_scan gateDB "s" (fst (SessionInfo_ "s" gateDB)) gateInfo (appendAll_steps gateEvents emptyDB))
    as [Hp _].
  - vm_compute. reflexivity.
  - by rewrite <- Hp.
Defined.

Lemma deletion_is_final_witness :
  let d1 := fst (DeleteSession noContext "s" gateDB) in
  length (journalOf "s" (tables d1)) = S (length (journalOf "s" (tables gateDB))) /\
  forall project f d3, sql_NewFence project "s" d1 <> (d3, Ok f).
Proof.
  destruct (deletion_is_final noContext "s" gateDB (fst (DeleteSession noContext "s" gateDB)) deletedInfo (appendAll_ok gateEvents))
    as [_ Hfinal].
  - vm_compute. reflexivity.
  - split; [vm_compute; reflexivity|]. intros project f d3.
    destruct (Hfinal _ (rtc_refl _ _)) as (_ & _ & _ & Hn & _). apply Hn.
Defined.

Definition exampleHarness : HarnessRecord := mkHarnessRecord "h" "u1" "spec" "digest" HarnessActive "" None None None.

Lemma harness_names_exclusive_witness :
  is_ok (snd (RegisterHarness exampleHarness gateDB)) = true /\
  exists row, t_harnesses (tables (fst (RegisterHarness exampleHarness gateDB))) !! "h"%string = Some row /\
    h_spec_digest row = "digest"%string.
Proof.
  assert (is_ok (snd (RegisterHarness exampleHarness gateDB)) = true) as Hok by (vm_compute; reflexivity).
  split; [exact Hok|].
  destruct (harness_names_exclusive gateDB gateDB (appendAll_ok gateEvents) (rtc_refl _ _)) as (_ & _ & _ & Hreg & _).
  destruct (RegisterHarness exampleHarness gateDB) as [d2 [out|e]] eqn:E; [|done].
  destruct (Hreg _ _ _ E) as (_ & row & Hrow & _ & Hd). exists row. exact (conj Hrow Hd).
Defined.
