(* ===== verification/Paging.v ===== *)
(** * Keyset paging neither skips nor repeats (theorems about [ListSessions]) *)
From S2P Require Import Prelude GoErrors Api Canon EventLog Executions Harness Wire Tables Projection Reducer SqlLog SqlExample SqlStore SqlSessions Tokens.
From Stdlib Require Import OrderedTypeEx.
From stdpp Require Import sorting.
#[local] Open Scope Z_scope.

(** ** The order of a listing *)

Lemma ltb_compare a b : String.ltb a b = true <-> String.compare a b = Lt.
Proof. unfold String.ltb. by destruct (String.compare a b). Qed.

Lemma leb_compare a b : String.leb a b = true <-> String.compare a b <> Gt.
Proof. unfold String.leb. by destruct (String.compare a b). Qed.

Lemma ltb_trans a b c : String.ltb a b = true -> String.ltb b c = true -> String.ltb a c = true.
Proof.
  rewrite !ltb_compare. change String.compare with String_as_OT.cmp. rewrite !String_as_OT.cmp_lt.
  apply String_as_OT.lt_trans.
Qed.

Lemma ltb_irrefl a : String.ltb a a = false.
Proof.
  unfold String.ltb. replace (String.compare a a) with Eq; [done|]. symmetry.
  change String.compare with String_as_OT.cmp. by apply String_as_OT.cmp_eq.
Qed.

Lemma leb_ltb a b : String.leb a b = true <-> a = b \/ String.ltb a b = true.
Proof.
  rewrite leb_compare, ltb_compare. destruct (String.compare a b) eqn:E; split; try done; try tauto.
  - intros _. left. by apply String.compare_eq_iff.
  - intros [->|?]; [|done]. change String.compare with String_as_OT.cmp in E.
    assert (String_as_OT.cmp b b = Eq) by (by apply String_as_OT.cmp_eq). congruence.
Qed.

#[export] Instance listLeb_preorder : TotalPreorder listLeb.
Proof.
  unfold listLeb. split.
  - intros [u s] [v w]. simpl. rewrite !orb_true_iff, !andb_true_iff, !Z.ltb_lt, !Z.eqb_eq.
    destruct (Z.lt_trichotomy (s_created_at s) (s_created_at w)) as [?|[?|?]], (String.leb_total u v);
      first [left; left; lia | right; left; lia | left; right; split; [lia|assumption] | right; right; split; [lia|assumption]].
  - intros [u s] [v w] [x y]. simpl. rewrite !orb_true_iff, !andb_true_iff, !leb_ltb, !Z.ltb_lt, !Z.eqb_eq.
    intros [?|[? [->|?]]] [?|[? [->|?]]]; try (left; lia); right; (split; [lia|]); eauto using ltb_trans.
Qed.

(** The rows after a cursor, strictly. *)
Definition afterKey (c : Z * string) (r : string * SessionRow) : Prop :=
  s_created_at (snd r) < fst c \/ (s_created_at (snd r) = fst c /\ String.ltb (snd c) (fst r) = true).
Definition keyOf (r : string * SessionRow) : Z * string := (s_created_at (snd r), fst r).

#[export] Instance afterKey_dec c r : Decision (afterKey c r).
Proof. unfold afterKey. apply _. Defined.

Lemma listLeb_afterKey a b : listLeb a b = true -> fst a <> fst b -> afterKey (keyOf a) b.
Proof.
  unfold listLeb, afterKey, keyOf. simpl. rewrite orb_true_iff, andb_true_iff, leb_ltb, Z.ltb_lt, Z.eqb_eq.
  intros [?|[? [?|?]]] Hne; [by left|done|right; split; [lia|done]].
Qed.

Lemma afterKey_not_before a b : listLeb a b = true -> ~ afterKey (keyOf b) a.
Proof.
  unfold listLeb, afterKey, keyOf. simpl. rewrite orb_true_iff, andb_true_iff, leb_ltb, Z.ltb_lt, Z.eqb_eq.
  intros [?|[? [E|E]]] [?|[? E']]; try lia.
  - rewrite E, ltb_irrefl in E'. done.
  - pose proof (ltb_trans _ _ _ E E') as Hc. by rewrite ltb_irrefl in Hc.
Qed.

Lemma afterKey_trans c r r' : afterKey c r -> afterKey (keyOf r) r' -> afterKey c r'.
Proof.
  unfold afterKey, keyOf. simpl. intros [?|[? E]] [?|[? E']]; try (left; lia). right. split; [lia|]. by eapply ltb_trans.
Qed.

Lemma listed_after project c r : listed project (Some c) r <-> listed project None r /\ afterKey c r.
Proof. unfold listed, afterKey. destruct c as [n u]. simpl. tauto. Qed.

(** ** The rows of a listing *)

Lemma listRows_NoDup project after t : NoDup (listRows project after t).*1.
Proof.
  unfold listRows. rewrite (orderBy_Permutation listLeb). apply (sublist_NoDup _ _ (NoDup_fst_map_to_list (t_sessions t))).
  apply (fmap_sublist fst), sublist_filter.
Qed.

(** Resuming after a row of the listing yields the rows behind it. *)
Lemma listRows_resume project after t l1 r l2 : listRows project after t = l1 ++ r :: l2 ->
  listRows project (Some (keyOf r)) t = l2.
Proof.
  intros Hl. pose proof (listRows_NoDup project after t) as Hnd.
  pose proof (orderBy_sorted listLeb (filter (listed project after) (map_to_list (t_sessions t)))) as Hs.
  unfold listRows in *. rewrite Hl in Hs, Hnd.
  assert (Hr : r ∈ filter (listed project after) (map_to_list (t_sessions t))).
  { rewrite <- (orderBy_Permutation listLeb), Hl. set_solver. }
  apply list_elem_of_filter in Hr as [Hr _].
  assert (filter (listed project (Some (keyOf r))) (map_to_list (t_sessions t)) =
    filter (afterKey (keyOf r)) (filter (listed project after) (map_to_list (t_sessions t)))) as ->.
  { rewrite list_filter_filter. apply list_filter_iff. intros x. rewrite listed_after. split.
    - intros [Hx Ha]. split; [done|]. destruct after as [c|]; [|done]. apply listed_after. split; [done|].
      apply listed_after in Hr as [_ Hr]. by eapply afterKey_trans.
    - intros [Ha Hx]. split; [|done]. destruct after as [c|]; [|done]. by apply listed_after in Hx as [Hx _]. }
  rewrite <- (filter_orderBy listLeb), Hl, list.filter_app, filter_cons_False.
  2: { apply (afterKey_not_before r r). destruct (leb_total r r); done. }
  rewrite filter_none.
  2: { intros x Hx. apply afterKey_not_before. apply (StronglySorted_app_1_elem_of (leR listLeb) l1 (r :: l2)); [done|done|left]. }
  simpl. apply filter_all. apply Forall_forall. intros x Hx.
  apply listLeb_afterKey.
  - replace (l1 ++ r :: l2) with ((l1 ++ [r]) ++ l2) in Hs by by rewrite <- app_assoc.
    eapply (StronglySorted_app_1_elem_of (leR listLeb)); [exact Hs|set_solver|done].
  - rewrite fmap_app in Hnd. apply NoDup_app in Hnd as (_ & _ & Hnd). rewrite fmap_cons in Hnd.
    apply NoDup_cons in Hnd as [Hnd _]. intros E. apply Hnd. rewrite E. apply list_elem_of_fmap. eauto.
Qed.

(** ** One page *)

Lemma pageLoop_spec size rows acc : (length acc <= size)%nat ->
  pageLoop size rows acc =
    if (Nat.leb (length acc + length rows) size)
    then mkSessionPage (acc ++ map scanSession rows) EmptyString
    else
      let page := acc ++ map scanSession (take (size - length acc) rows) in
      mkSessionPage page
        match list.last page with
        | Some l => encodeCursor (default 0 (CreatedAt (si_Meta l))) (UID (si_Meta l))
        | None => EmptyString
        end.
Proof.
  revert acc. induction rows as [|r rows IH]; intros acc Ha; simpl.
  - rewrite Nat.add_0_r, (proj2 (Nat.leb_le _ _)) by done. by rewrite app_nil_r.
  - destruct (Nat.eqb_spec (length acc) size) as [E|E].
    + rewrite (proj2 (Nat.leb_gt _ _)) by lia. rewrite E, Nat.sub_diag. simpl. by rewrite app_nil_r.
    + rewrite IH by (rewrite length_app; simpl; lia). rewrite length_app. simpl.
      replace (length acc + 1 + length rows)%nat with (length acc + S (length rows))%nat by lia.
      replace (size - length acc)%nat with (S (size - (length acc + 1))) by lia. simpl.
      rewrite <- !app_assoc. done.
Qed.

(** ** Calls *)

(** What [scanSession] makes of a row of the listing. *)
Definition infoOf (t : Tables) (r : string * SessionRow) : SessionInfo := scanSession (sessionSelect t (fst r) (snd r)).

Lemma infoOf_uid t r : UID (si_Meta (infoOf t r)) = fst r.
Proof. unfold infoOf, sessionSelect. by case_match. Qed.

Lemma infoOf_created t r : CreatedAt (si_Meta (infoOf t r)) = Some (s_created_at (snd r)).
Proof. unfold infoOf, sessionSelect. by case_match. Qed.

Lemma infoOf_select t r : t_sessions t !! fst r = Some (snd r) -> selectSession (fst r) t = Some (infoOf t r).
Proof. unfold selectSession. by intros ->. Qed.

(** The token that resumes behind a row. *)
Definition tokenOf (r : string * SessionRow) : string := encodeCursor (s_created_at (snd r)) (fst r).

(** One page of the listing after a cursor. *)
Definition pageOf (size : nat) (t : Tables) (rows : list (string * SessionRow)) : SessionPage :=
  mkSessionPage (map (infoOf t) (take size rows))
    (if Nat.leb (length rows) size then EmptyString
     else match list.last (take size rows) with Some r => tokenOf r | None => EmptyString end).

Lemma pageLoop_page size t rows :
  pageLoop size (map (fun r => sessionSelect t (fst r) (snd r)) (take (S size) rows)) [] = pageOf size t rows.
Proof.
  rewrite pageLoop_spec by apply Nat.le_0_l. rewrite Nat.add_0_l, Nat.sub_0_r, length_map, length_take.
  unfold pageOf. destruct (Nat.leb_spec (length rows) size) as [Hl|Hl].
  - rewrite (proj2 (Nat.leb_le _ _)) by lia. simpl. by rewrite !take_ge, map_map by lia.
  - rewrite (proj2 (Nat.leb_gt _ _)) by lia. cbn [app].
    assert (map scanSession (take size (map (fun r => sessionSelect t (fst r) (snd r)) (take (S size) rows))) =
      map (infoOf t) (take size rows)) as ->.
    { rewrite firstn_map, take_take, Nat.min_l by lia. by rewrite map_map. }
    f_equal. change (map (infoOf t)) with (fmap (M := list) (infoOf t)). rewrite fmap_last. destruct (list.last (take size rows)) as [r|]; [|done].
    change (encodeCursor (default 0 (CreatedAt (si_Meta (infoOf t r)))) (UID (si_Meta (infoOf t r))) = tokenOf r).
    by rewrite infoOf_created, infoOf_uid.
Qed.

Lemma pageSize_pos n : (0 < Z.to_nat (pageSize n))%nat.
Proof. unfold pageSize, DefaultPageSize, MaxPageSize. destruct (Z.leb_spec n 0); [lia|]. destruct (Z.ltb_spec 500 n); lia. Qed.

(** The cursor a token stands for. *)
Definition cursorOf (token : string) : res (option (Z * string)) :=
  if bool_decide (token = EmptyString) then Ok None
  else match decodeCursor token with Ok c => Ok (Some c) | Err e => Err e end.

Lemma cursorOf_token r : - 2 ^ 63 <= s_created_at (snd r) < 2 ^ 63 -> cursorOf (tokenOf r) = Ok (Some (keyOf r)).
Proof.
  intros Hr. unfold cursorOf, tokenOf. rewrite bool_decide_eq_false_2 by apply encodeCursor_nonempty.
  by rewrite decodeCursor_encodeCursor.
Qed.

Section Calls.
Context `{Encoding} `{ProtoCodec} `{Driver}.
Variable defaultProject : string.

(** [ListSessions], on every branch. *)
Lemma ListSessions_exact opts d :
  ListSessions defaultProject opts d =
    match cursorOf (PageToken opts) with
    | Err e => (d, Err e)
    | Ok after =>
        (mkDB (tables d) (saved d) (S (ticks d)),
         match fault (ticks d) with
         | Some e => Err (EWrap "sqlitelog: list sessions" e)
         | None => Ok (pageOf (Z.to_nat (pageSize (PageSize opts))) (tables d)
                        (listRows (projectOr defaultProject (lo_Project opts)) after (tables d)))
         end)
    end.
Proof.
  unfold ListSessions, cursorOf. pose proof (pageSize_pos (PageSize opts)) as Hp.
  replace (Z.to_nat (pageSize (PageSize opts) + 1)) with (S (Z.to_nat (pageSize (PageSize opts)))) by lia.
  assert (forall after, (let! rows := wrapErr "sqlitelog: list sessions" (select (fun t =>
      map (fun r => sessionSelect t (fst r) (snd r)) (take (S (Z.to_nat (pageSize (PageSize opts))))
        (listRows (projectOr defaultProject (lo_Project opts)) after t)))) in
      mret (pageLoop (Z.to_nat (pageSize (PageSize opts))) rows [])) d =
    (mkDB (tables d) (saved d) (S (ticks d)),
         match fault (ticks d) with
         | Some e => Err (EWrap "sqlitelog: list sessions" e)
         | None => Ok (pageOf (Z.to_nat (pageSize (PageSize opts))) (tables d)
                        (listRows (projectOr defaultProject (lo_Project opts)) after (tables d)))
         end)) as Hread.
  { intros after. rewrite <- pageLoop_page. unfold wrapErr, select, stmt, mbind, M_bind. simpl. by destruct (fault (ticks d)). }
  case_bool_decide; [by rewrite <- Hread|]. destruct (decodeCursor (PageToken opts)) as [c|e]; [|done]. by rewrite <- Hread.
Qed.

(** A client that follows the tokens; other calls change the database between two pages. *)
Definition withToken (token : string) (opts : ListOptions) : ListOptions :=
  mkListOptions (lo_Project opts) (PageSize opts) token.

Inductive paged (opts : ListOptions) : string -> list (Tables * SessionPage) -> Prop :=
| paged_last token d d' page :
    ListSessions defaultProject (withToken token opts) d = (d', Ok page) -> NextPageToken page = EmptyString ->
    paged opts token [(tables d, page)]
| paged_more token d d' page rest :
    ListSessions defaultProject (withToken token opts) d = (d', Ok page) -> NextPageToken page <> EmptyString ->
    paged opts (NextPageToken page) rest -> paged opts token ((tables d, page) :: rest).

(** The same client on a database nobody else writes to, as a function. *)
Fixpoint listAll (fuel : nat) (opts : ListOptions) : M DB goerr (list SessionInfo) :=
  match fuel with
  | O => throw (EText "out of fuel")
  | S n =>
      let! page := ListSessions defaultProject opts in
      if bool_decide (NextPageToken page = EmptyString) then mret (Sessions page)
      else
        let! rest := listAll n (withToken (NextPageToken page) opts) in
        mret (Sessions page ++ rest)
  end.

(** How often a session is listed. *)
Definition appearances (uid : string) (l : list SessionInfo) : nat :=
  length (filter (fun i => UID (si_Meta i) = uid) l).

Definition inRange (t : Tables) : Prop :=
  map_Forall (fun _ s => - 2 ^ 63 <= s_created_at s < 2 ^ 63) (t_sessions t).

Lemma appearances_app uid l l' : appearances uid (l ++ l') = (appearances uid l + appearances uid l')%nat.
Proof. unfold appearances. by rewrite list.filter_app, length_app. Qed.

Lemma appearances_infos uid t rows : appearances uid (map (infoOf t) rows) = length (filter (fun r => fst r = uid) rows).
Proof.
  unfold appearances. induction rows as [|r rows IH]; [done|]. cbn [map]. rewrite !filter_cons, infoOf_uid.
  destruct (decide (fst r = uid)); cbn [length]; by rewrite IH.
Qed.

Lemma appearances_absent uid t rows : uid ∉ rows.*1 -> appearances uid (map (infoOf t) rows) = 0%nat.
Proof.
  intros Hn. rewrite appearances_infos, filter_none; [done|]. intros r Hr E. apply Hn. rewrite <- E.
  apply list_elem_of_fmap. eauto.
Qed.

Lemma appearances_once uid t rows : NoDup rows.*1 -> uid ∈ rows.*1 -> appearances uid (map (infoOf t) rows) = 1%nat.
Proof.
  intros Hnd (r & -> & Hr)%list_elem_of_fmap. apply list_elem_of_split in Hr as (l1 & l2 & ->).
  rewrite fmap_app, fmap_cons in Hnd. apply NoDup_app in Hnd as (_ & H1' & [H2' _]%NoDup_cons).
  rewrite map_app, appearances_app. cbn [map]. change (infoOf t r :: map (infoOf t) l2) with ([infoOf t r] ++ map (infoOf t) l2).
  rewrite appearances_app, !appearances_absent; [|done|].
  - unfold appearances. rewrite filter_cons, decide_True by apply infoOf_uid. done.
  - intros E. apply (H1' _ E). by left.
Qed.

(** A session that stays active in its project, with the same creation time. *)
Definition keeps (project uid : string) (created : Z) (t : Tables) : Prop :=
  exists s, t_sessions t !! uid = Some s /\ s_project s = project /\
    deletion_state (s_deletion s) = DeletionActive /\ s_created_at s = created.

Definition behind (after : option (Z * string)) (created : Z) (uid : string) : Prop :=
  match after with
  | None => True
  | Some (c, u) => created < c \/ (created = c /\ String.ltb u uid = true)
  end.

Lemma elem_of_listRows project after t r : r ∈ listRows project after t <->
  t_sessions t !! fst r = Some (snd r) /\ listed project after r.
Proof.
  unfold listRows. rewrite elem_of_orderBy, list_elem_of_filter. destruct r as [u s].
  rewrite elem_of_map_to_list. simpl. tauto.
Qed.

Lemma listRows_keeps project after t uid created : keeps project uid created t ->
  (uid ∈ (listRows project after t).*1 <-> behind after created uid).
Proof.
  intros (s & Hs & Hp & Hd & <-). split.
  - intros (r & -> & Hr%elem_of_listRows)%list_elem_of_fmap. destruct Hr as [Hr (_ & _ & Ha)].
    assert (snd r = s) as <- by congruence. destruct after as [[c u]|]; exact Ha.
  - intros Hb. apply list_elem_of_fmap. exists (uid, s). split; [done|]. apply elem_of_listRows. split; [done|].
    split_and!; [done|done|]. destruct after as [[c u]|]; exact Hb.
Qed.

(** A full page ends in the row whose key its token carries. *)
Lemma pageOf_token size t rows : (0 < size)%nat -> (size < length rows)%nat ->
  exists l r rest, rows = (l ++ [r]) ++ rest /\ take size rows = l ++ [r] /\ NextPageToken (pageOf size t rows) = tokenOf r.
Proof.
  intros Hs Hl. assert (length (take size rows) = size) as Hlen by (rewrite length_take; lia).
  destruct (take size rows) as [|r l _] eqn:E using rev_ind; [simpl in Hlen; lia|].
  exists l, r, (drop size rows). split; [by rewrite <- E, take_drop|]. split; [done|]. unfold pageOf. simpl.
  rewrite (proj2 (Nat.leb_gt _ _)) by lia. by rewrite E, last_snoc.
Qed.

Lemma pageOf_last size t rows : (0 < size)%nat -> NextPageToken (pageOf size t rows) = EmptyString -> (length rows <= size)%nat.
Proof.
  intros Hs. destruct (Nat.le_gt_cases (length rows) size) as [|Hl]; [done|].
  destruct (pageOf_token size t rows Hs Hl) as (l & r & rest & _ & _ & ->). intros E. by apply encodeCursor_nonempty in E.
Qed.

(** One step of a client. *)
Lemma page_inv opts token d d' page : ListSessions defaultProject (withToken token opts) d = (d', Ok page) ->
  exists c, cursorOf token = Ok c /\
    page = pageOf (Z.to_nat (pageSize (PageSize opts))) (tables d)
             (listRows (projectOr defaultProject (lo_Project opts)) c (tables d)).
Proof.
  rewrite ListSessions_exact. cbn [PageToken withToken PageSize lo_Project].
  destruct (cursorOf token) as [c|e]; [|done]. intros E. exists c. split; [done|].
  injection E as _ E. by destruct (fault (ticks d)); [|injection E as <-].
Qed.

Lemma behind_key r c u : behind (Some (keyOf r)) c u <-> afterKey (keyOf r) (u, defaultRow 0 EmptyString c 0).
Proof. done. Qed.

Lemma behind_after project after t r created uid : r ∈ listRows project after t ->
  behind (Some (keyOf r)) created uid -> behind after created uid.
Proof.
  intros [_ Hr]%elem_of_listRows. destruct after as [c|]; [|done]. apply listed_after in Hr as [_ Hr].
  rewrite behind_key. intros Hb. destruct c as [n u']. exact (afterKey_trans _ _ _ Hr Hb).
Qed.

Lemma paged_appearances opts token ps uid created : paged opts token ps ->
  (forall t, t ∈ ps.*1 -> inRange t /\ keeps (projectOr defaultProject (lo_Project opts)) uid created t) ->
  forall c, cursorOf token = Ok c ->
    (behind c created uid -> appearances uid (concat (map Sessions ps.*2)) = 1%nat) /\
    (~ behind c created uid -> appearances uid (concat (map Sessions ps.*2)) = 0%nat).
Proof.
  induction 1 as [token d d' page Hl Hn|token d d' page ps Hl Hn Hp IH]; intros Hk c Hc;
    apply page_inv in Hl as (c' & Hc' & Hpage); rewrite Hc in Hc'; injection Hc' as <-;
    destruct (Hk (tables d)) as [Hr Hkeep]; try (by left);
    pose proof (listRows_keeps _ c _ _ _ Hkeep) as Hin; subst page;
    set (size := Z.to_nat (pageSize (PageSize opts))) in *;
    set (rows := listRows (projectOr defaultProject (lo_Project opts)) c (tables d)) in *;
    assert (NoDup rows.*1) as Hnd by apply listRows_NoDup.
  - apply pageOf_last in Hn; [|apply pageSize_pos]. cbn [fmap list_fmap map concat snd Sessions pageOf].
    rewrite app_nil_r, take_ge by done. split; intros Hb; [by apply appearances_once, Hin|].
    apply appearances_absent. by rewrite Hin.
  - destruct (Nat.le_gt_cases (length rows) size) as [Hle|Hgt].
    { unfold pageOf in Hn. rewrite (proj2 (Nat.leb_le _ _)) in Hn by done. done. }
    destruct (pageOf_token size (tables d) rows (pageSize_pos _) Hgt) as (l & r & rest & Hrows & Htake & Htok).
    assert (r ∈ rows) as Hrin by (rewrite Hrows; set_solver).
    assert (listRows (projectOr defaultProject (lo_Project opts)) (Some (keyOf r)) (tables d) = rest) as Hrest.
    { apply (listRows_resume _ c _ l). fold rows. by rewrite Hrows, <- app_assoc. }
    destruct (IH) with (c := Some (keyOf r)) as [IH1 IH0].
    { intros t Ht. apply Hk. by right. }
    { rewrite Htok. apply cursorOf_token. apply elem_of_listRows in Hrin as [Hlook _]. exact (Hr _ _ Hlook). }
    pose proof (listRows_keeps _ (Some (keyOf r)) _ _ _ Hkeep) as Hin'. rewrite Hrest in Hin'.
    cbn [fmap list_fmap map concat snd Sessions pageOf]. rewrite appearances_app, Htake.
    rewrite Hrows, fmap_app in Hnd, Hin. apply NoDup_app in Hnd as (Hnd & Hdis & _).
    split; intros Hb.
    + apply Hin in Hb. apply elem_of_app in Hb as [Hb|Hb].
      * rewrite appearances_once by done. rewrite IH0; [done|]. rewrite <- Hin'. by apply Hdis.
      * rewrite appearances_absent by (intros E; by apply (Hdis _ E)). by rewrite IH1 by by apply Hin'.
    + rewrite appearances_absent by (intros E; apply Hb, Hin; set_solver).
      rewrite IH0; [done|]. intros E. by apply Hb, (behind_after _ c _ r _ _ Hrin).
Qed.

Lemma listAll_exact fuel opts c d : (forall n, fault n = None) -> inRange (tables d) ->
  cursorOf (PageToken opts) = Ok c ->
  (length (listRows (projectOr defaultProject (lo_Project opts)) c (tables d)) < fuel)%nat ->
  exists d', tables d' = tables d /\
    listAll fuel opts d = (d', Ok (map (infoOf (tables d)) (listRows (projectOr defaultProject (lo_Project opts)) c (tables d)))).
Proof.
  intros Hfree Hr. revert opts c d Hr. induction fuel as [|fuel IH]; intros opts c d Hr Hc Hlt; [lia|].
  cbn [listAll]. unfold mbind at 1, M_bind at 1. rewrite ListSessions_exact, Hc, Hfree.
  set (size := Z.to_nat (pageSize (PageSize opts))) in *.
  set (rows := listRows (projectOr defaultProject (lo_Project opts)) c (tables d)) in *.
  destruct (Nat.le_gt_cases (length rows) size) as [Hle|Hgt].
  - unfold pageOf. rewrite (proj2 (Nat.leb_le _ _)) by done. rewrite bool_decide_eq_true_2 by done.
    rewrite take_ge by done. eexists. split; [|reflexivity]. done.
  - destruct (pageOf_token size (tables d) rows (pageSize_pos _) Hgt) as (l & r & rest & Hrows & Htake & Htok).
    assert (listRows (projectOr defaultProject (lo_Project opts)) (Some (keyOf r)) (tables d) = rest) as Hrest.
    { apply (listRows_resume _ c _ l). fold rows. by rewrite Hrows, <- app_assoc. }
    rewrite bool_decide_eq_false_2 by (rewrite Htok; apply encodeCursor_nonempty).
    destruct (IH (withToken (NextPageToken (pageOf size (tables d) rows)) opts) (Some (keyOf r))
      (mkDB (tables d) (saved d) (S (ticks d)))) as (d' & Ht & E); try done.
    + rewrite Htok. apply cursorOf_token. assert (r ∈ rows) as Hrin by (rewrite Hrows; set_solver).
      apply elem_of_listRows in Hrin as [Hlook _]. exact (Hr _ _ Hlook).
    + cbn [tables lo_Project withToken]. rewrite Hrest. rewrite Hrows, !length_app in Hlt. simpl in Hlt. lia.
    + exists d'. split; [done|]. unfold mbind, M_bind. rewrite E. cbn [tables lo_Project withToken].
      rewrite Hrest. unfold mret, M_ret. cbn [Sessions pageOf]. by rewrite Htake, Hrows, !map_app.
Qed.

(** A token is taken exactly if it is one. *)
Lemma cursorOf_exact token : match cursorOf token with
  | Ok _ => sessionToken token
  | Err e => ~ sessionToken token /\ e = EWrap "page token" (ESentinel ErrInvalidPageToken)
  end.
Proof.
  unfold cursorOf. case_bool_decide as Ht; [by left|]. destruct (decodeCursor token) as [[n uid]|e] eqn:E.
  - right. exists n, uid. by apply decodeCursor_token.
  - split.
    + intros [?|(n & uid & Hc%decodeCursor_token)]; [done|congruence].
    + unfold decodeCursor in E. destruct (b64Decode token) as [raw|]; [|by injection E]. destruct (cutNul raw) as [[n u]|]; [|by injection E].
      destruct (ParseInt n); [done|by injection E].
Qed.

Lemma elem_of_infos project after t i : i ∈ map (infoOf t) (listRows project after t) <->
  exists s, i = infoOf t (UID (si_Meta i), s) /\ t_sessions t !! UID (si_Meta i) = Some s /\ listed project after (UID (si_Meta i), s).
Proof.
  change (map (infoOf t)) with (fmap (M := list) (infoOf t)). rewrite list_elem_of_fmap. split.
  - intros ([u s] & -> & Hr%elem_of_listRows). exists s. rewrite infoOf_uid. simpl. done.
  - intros (s & Hi & Hs & Hl). exists (UID (si_Meta i), s). split; [done|]. by apply elem_of_listRows.
Qed.

Lemma listRows_selected project after t i : i ∈ map (infoOf t) (listRows project after t) ->
  selectSession (UID (si_Meta i)) t = Some i.
Proof. intros (s & Hi & Hs & _)%elem_of_infos. rewrite Hi at 2. by apply (infoOf_select t (UID (si_Meta i), s)). Qed.

Lemma listRows_all project t i : i ∈ map (infoOf t) (listRows project None t) <->
  selectSession (UID (si_Meta i)) t = Some i /\ Project (si_Meta i) = project /\ si_DeletionState i = DeletionActive.
Proof.
  rewrite elem_of_infos. unfold selectSession. split.
  - intros (s & Hi & -> & Hp & Hd & _). simpl in Hp, Hd. split; [cbn; f_equal; symmetry; exact Hi|].
    split; rewrite Hi; unfold infoOf, sessionSelect; by case_match.
  - intros (Hs & Hp & Hd). destruct (t_sessions t !! UID (si_Meta i)) as [s|]; [|done]. injection Hs as Hs.
    exists s. split; [symmetry; exact Hs|]. split; [done|]. rewrite <- Hs in Hp, Hd.
    unfold sessionSelect in Hp, Hd. split; [|split; [|done]]; simpl; by case_match.
Qed.

Lemma listRows_length project after t : (length (listRows project after t) < S (size (t_sessions t)))%nat.
Proof.
  unfold listRows. rewrite (orderBy_Permutation listLeb). apply Nat.lt_succ_r.
  rewrite <- (length_map_to_list (t_sessions t)). apply length_filter.
Qed.

(** Newest first, and by uid within one time. *)
Definition newestFirst (i j : SessionInfo) : Prop :=
  default 0 (CreatedAt (si_Meta j)) < default 0 (CreatedAt (si_Meta i)) \/
  (CreatedAt (si_Meta i) = CreatedAt (si_Meta j) /\ String.leb (UID (si_Meta i)) (UID (si_Meta j)) = true).

Lemma infos_sorted project after t : StronglySorted newestFirst (map (infoOf t) (listRows project after t)).
Proof.
  pose proof (orderBy_sorted listLeb (filter (listed project after) (map_to_list (t_sessions t)))) as Hs.
  unfold listRows. induction Hs as [|r l Hs IH Hr]; [constructor|]. cbn [map]. constructor; [done|].
  apply Forall_fmap. eapply Forall_impl; [exact Hr|]. intros r' Hle. unfold compose, newestFirst.
  rewrite !infoOf_created, !infoOf_uid. unfold leR, listLeb in Hle. simpl.
  apply orb_true_iff in Hle as [Hle|Hle]; [left; lia|right].
  apply andb_true_iff in Hle as [Hle%Z.eqb_eq ?]. split; [by rewrite Hle|done].
Qed.

(** C34: Listing by pages. A call reads only. A token is taken exactly if it is empty or the base64 text of a
    decimal time, a NUL and a uid; any other fails with ErrInvalidPageToken, and one that is taken fails only
    with the database. A page that is returned holds at most the requested size, clamped, of rows as they are. Following the
    tokens from the first page ends, and on an unchanged database gives exactly the active sessions of
    the project, newest first and each once. However other calls change the database between two
    pages, a session that stays active in its project with its creation time appears exactly once. *)
Theorem paging_exact opts d :
  let project := projectOr defaultProject (lo_Project opts) in
  (forall token d' r, ListSessions defaultProject (withToken token opts) d = (d', r) -> tables d' = tables d /\
     match r with
     | Err e => (~ sessionToken token /\ errors_Is e ErrInvalidPageToken = true) \/
         (sessionToken token /\ exists e', fault (ticks d) = Some e' /\ e = EWrap "sqlitelog: list sessions" e')
     | Ok page => sessionToken token /\ Z.of_nat (length (Sessions page)) <= pageSize (PageSize opts) /\
         forall i, i ∈ Sessions page -> selectSession (UID (si_Meta i)) (tables d) = Some i
     end) /\
  ((forall n, fault n = None) -> inRange (tables d) ->
     exists d' l, listAll (S (size (t_sessions (tables d)))) (withToken EmptyString opts) d = (d', Ok l) /\
       tables d' = tables d /\ NoDup (map (fun i => UID (si_Meta i)) l) /\ StronglySorted newestFirst l /\
       forall i, i ∈ l <-> selectSession (UID (si_Meta i)) (tables d) = Some i /\
         Project (si_Meta i) = project /\ si_DeletionState i = DeletionActive) /\
  (forall ps uid created, paged opts EmptyString ps ->
     (forall t, t ∈ ps.*1 -> inRange t /\ keeps project uid created t) ->
     appearances uid (concat (map Sessions ps.*2)) = 1%nat).
Proof.
  intros project. split_and!.
  - intros token d' r. rewrite ListSessions_exact. cbn [PageToken withToken PageSize lo_Project].
    pose proof (cursorOf_exact token) as Hc. destruct (cursorOf token) as [c|e].
    + destruct (fault (ticks d)) as [e|] eqn:Hf; intros [= <- <-]; (split; [done|]); [right; split; [done|by exists e]|].
      cbn [Sessions pageOf]. rewrite length_map, length_take. pose proof (pageSize_pos (PageSize opts)). split; [done|]. split; [lia|].
      intros i Hi. apply (listRows_selected project c).
      change (map (infoOf (tables d))) with (fmap (M := list) (infoOf (tables d))) in *.
      apply list_elem_of_fmap in Hi as (x & -> & Hx). apply list_elem_of_fmap_2.
      eapply elem_of_sublist; [exact Hx|]. apply sublist_take.
    + destruct Hc as [Hc ->]. intros [= <- <-]. split; [done|]. by left.
  - intros Hfree Hr. destruct (listAll_exact (S (size (t_sessions (tables d)))) (withToken EmptyString opts) None d Hfree Hr)
      as (d' & Ht & E); [done|apply (listRows_length project None (tables d))|].
    eexists d', _. split; [exact E|]. cbn [lo_Project withToken]. fold project. split; [done|]. split; [|split].
    + rewrite map_map. erewrite map_ext by apply infoOf_uid. apply listRows_NoDup.
    + apply infos_sorted.
    + intros i. apply listRows_all.
  - intros ps uid created Hp Hk. by apply (paged_appearances opts EmptyString ps uid created Hp Hk None).
Qed.
End Calls.

(** ** Examples *)

#[local] Existing Instance exampleHost.
#[local] Existing Instance exampleTimestamppb.
#[local] Existing Instance exampleEncoding.
#[local] Existing Instance exampleDriver.

Definition exampleMeta (uid : string) : SessionMeta :=
  mkSessionMeta uid "p" "n" "" "" "" 0 None None "" "" "" "".
Definition pagesDB : DB :=
  foldl (fun d uid => fst (PutSession "default" (exampleMeta uid) d)) emptyDB ["a"; "b"; "c"]%string.
Definition pagesOptions : ListOptions := mkListOptions "p" 2 "".
Definition firstPage : SessionPage :=
  match snd (ListSessions "default" (withToken "" pagesOptions) pagesDB) with Ok p => p | Err _ => mkSessionPage [] "" end.
(** Session "a" is deleted and "d" is added before the second page is read. *)
Definition laterDB : DB :=
  fst (PutSession "default" (exampleMeta "d") (fst (DeleteSession (fun _ => None) "a" pagesDB))).
Definition secondPage : SessionPage :=
  match snd (ListSessions "default" (withToken (NextPageToken firstPage) pagesOptions) laterDB) with Ok p => p | Err _ => mkSessionPage [] "" end.

Example pages_listed :
  map (fun i => UID (si_Meta i)) (Sessions firstPage) = ["c"; "b"]%string /\ Sessions secondPage = [].
Proof. by vm_compute. Qed.

Lemma pagesDB_inRange : inRange (tables pagesDB).
Proof. apply (bool_decide_unpack _). vm_compute. exact I. Qed.

Lemma paging_exact_witness :
  (exists d' l, listAll "default" 4 (withToken "" pagesOptions) pagesDB = (d', Ok l) /\ length l = 3%nat) /\
  appearances "b" (Sessions firstPage ++ Sessions secondPage ++ []) = 1%nat.
Proof.
  destruct (paging_exact "default" pagesOptions pagesDB) as (_ & Hall & Hpaged). split.
  - destruct Hall as (d' & l & E & _ & _ & _ & _); [done|apply pagesDB_inRange|].
    exists d', l. split; [exact E|]. vm_compute in E. injection E as _ E. by rewrite <- E.
  - apply (Hpaged [(tables pagesDB, firstPage); (tables laterDB, secondPage)] "b"%string (s_created_at (default (defaultRow 0 "" 0 0) (t_sessions (tables pagesDB) !! "b"%string)))).
    + eapply paged_more; [vm_compute; reflexivity|vm_compute; done|].
      eapply paged_last; vm_compute; reflexivity.
    + intros t Ht. apply elem_of_cons in Ht as [->|Ht].
      * split; [apply pagesDB_inRange|]. eexists. split_and!; vm_compute; reflexivity.
      * apply list_elem_of_singleton in Ht as ->. split; [apply (bool_decide_unpack _); vm_compute; exact I|].
        eexists. split_and!; vm_compute; reflexivity.
Defined.
