(* ===== verification/Migrations.v ===== *)
(** * Opening an older database (theorems about [migrate])

    A migration is refused, rolled back, or brings the tables of every older version into the
    invariant of this version. *)
From S2P Require Import Prelude GoErrors Api Canon EventLog Executions Approvals Harness Wire Tables Projection Reducer SqlLog SqlExample SqlStore SqlSessions SqlHarnesses SqlMigrate Reporting SqlSystem Durable.
From stdpp Require Import sorting.
#[local] Open Scope Z_scope.

(** What the backfill may change: the reporting columns and tables. *)
Record reports_frame (t t' : Tables) : Prop := {
  mf_version : user_version t' = user_version t;
  mf_events : t_events t' = t_events t;
  mf_harnesses : t_harnesses t' = t_harnesses t;
  mf_reserved : t_reserved t' = t_reserved t;
  mf_rows : forall u, option_Forall2 (fun s s' => exists r, s' = setReport r s) (t_sessions t !! u) (t_sessions t' !! u);
}.

Lemma report_frame_reports uid t t' : report_frame uid t t' -> reports_frame t t'.
Proof.
  intros []. constructor; try done. intros u. destruct (decide (u = uid)) as [->|Hne]; [done|].
  rewrite rf_other by done. destruct (t_sessions t !! u) as [s|]; constructor. exists (s_report s). by rewrite setReport_id.
Qed.

#[export] Instance reports_frame_preorder : PreOrder reports_frame.
Proof.
  split.
  - intros t. constructor; try done. intros u. destruct (t_sessions t !! u) as [s|]; constructor.
    exists (s_report s). by rewrite setReport_id.
  - intros t1 t2 t3 [] []. constructor; try congruence. intros u.
    pose proof (mf_rows0 u) as E1. pose proof (mf_rows1 u) as E2.
    destruct (t_sessions t2 !! u) as [s2|]; inversion E1 as [s1 x [r1 ->] Hx|]; subst;
      inversion E2 as [x s3 [r2 ->] Hx'|]; subst; constructor. by exists r2.
Qed.

Section Migrations.
Context `{Encoding} `{ProtoCodec} `{Driver}.

(** ** The backfill of one journal *)

Definition decodable (e : EventRow) : Prop := is_ok (decode (e_event e)) = true.

#[export] Instance decodable_dec e : Decision (decodable e).
Proof. unfold decodable. apply _. Defined.

Lemma decodable_record e ev : decode (e_event e) = Ok ev -> rec_Event (rowRecord e) = ev.
Proof. unfold rowRecord. by intros ->. Qed.

Lemma nextEvent_at uid t pre suf : sessionEvents uid t = pre ++ suf -> contiguous 0 (map rowRecord (sessionEvents uid t)) ->
  nextEvent uid (Z.of_nat (length pre)) t = head suf.
Proof.
  intros Hes Hc. unfold nextEvent. rewrite Hes in Hc.
  assert (filter (fun e => e_session e = uid /\ Z.of_nat (length pre) < e_seq e) (t_events t) =
    filter (fun e => Z.of_nat (length pre) < e_seq e) (filter (fun e => e_session e = uid) (t_events t))) as ->.
  { rewrite list_filter_filter. apply list_filter_iff. intros e. tauto. }
  rewrite <- (filter_orderBy seqLeb). fold (sessionEvents uid t). rewrite Hes, list.filter_app.
  rewrite map_app in Hc. apply contiguous_app in Hc as [Hpre Hsuf]. rewrite length_map in Hsuf.
  assert (forall rs n e, contiguous n (map rowRecord rs) -> e ∈ rs -> n + 1 <= e_seq e <= n + Z.of_nat (length rs)) as Hb.
  { intros rs n e Hcs He. rewrite <- (length_map rowRecord). apply (contiguous_bounds _ _ (rowRecord e) Hcs).
    by apply list_elem_of_In, in_map, list_elem_of_In. }
  rewrite filter_none by (intros e He; pose proof (Hb _ _ _ Hpre He); lia).
  cbn [app]. f_equal. apply filter_all, Forall_forall. intros e He. pose proof (Hb _ _ _ Hsuf He). lia.
Qed.

Lemma backfill_frame fuel uid cursor : preserves (report_frame uid) (backfill fuel uid cursor).
Proof.
  revert cursor. induction fuel as [|fuel IH]; intros cursor; cbn [backfill]; [frame|].
  apply preserves_bind; [typeclasses eauto|frame|intros [e|]; [|frame]].
  destruct (decode (e_event e)) as [ev|err].
  - apply preserves_bind; [typeclasses eauto| |intros _; apply IH]. apply preserves_wrapErr, projectApproval_frame.
  - apply preserves_execute; [typeclasses eauto|]. intros t. apply updateSession_frame. intros s.
    by exists (mkReportCols (headSeq uid t) (latest_execution (s_report s)) (reporting_fork_seq (s_report s)) true
      (invalid_approval_executions (s_report s))).
Qed.

(** One round of the loop. *)
Lemma backfill_next fuel uid pre e suf d d' : sessionEvents uid (tables d) = pre ++ e :: suf ->
  contiguous 0 (journalOf uid (tables d)) -> backfill (S fuel) uid (Z.of_nat (length pre)) d = (d', Ok tt) ->
  match decode (e_event e) with
  | Err _ => tables d' = updateSession (markCorrupt (headSeq uid (tables d))) uid (tables d)
  | Ok ev => exists d1 d2, tables d1 = tables d /\ e_seq e = Z.of_nat (length (pre ++ [e])) /\
      projectApproval uid (e_seq e) ev d1 = (d2, Ok tt) /\ sessionEvents uid (tables d2) = (pre ++ [e]) ++ suf /\
      contiguous 0 (journalOf uid (tables d2)) /\ backfill fuel uid (Z.of_nat (length (pre ++ [e]))) d2 = (d', Ok tt)
  end.
Proof.
  intros Hes Hc Hr. cbn [backfill] in Hr. apply bind_ok in Hr as (d1 & row & [Ht1 ->]%select_ok & Hr).
  rewrite (nextEvent_at uid (tables d) pre _ Hes Hc) in Hr. cbn [head] in Hr.
  destruct (decode (e_event e)) as [ev|err]; [|apply execute_ok in Hr; by rewrite Hr, Ht1].
  apply bind_ok in Hr as (d2 & [] & Hr2 & Hr). apply wrapErr_inv in Hr2 as ([[]|err] & Hr2 & [=]).
  pose proof (projectApproval_frame _ _ _ _ _ _ Hr2) as [_ Hf].
  assert (sessionEvents uid (tables d2) = sessionEvents uid (tables d)) as Hse
    by (unfold sessionEvents; by rewrite (rf_events _ _ _ Hf), Ht1).
  assert (e_seq e = Z.of_nat (length (pre ++ [e]))) as Hq.
  { unfold journalOf in Hc. rewrite Hes, map_app in Hc. apply contiguous_app in Hc as [_ [Hc _]].
    rewrite length_map in Hc. simpl in Hc. rewrite length_app. simpl. lia. }
  exists d1, d2. split_and!; [done|done|done| | |by rewrite <- Hq].
  - by rewrite Hse, Hes, <- app_assoc.
  - by rewrite (journalOf_events uid (tables d) (tables d2)).
Qed.

Lemma backfill_none fuel uid pre d d' : sessionEvents uid (tables d) = pre -> contiguous 0 (journalOf uid (tables d)) ->
  backfill fuel uid (Z.of_nat (length pre)) d = (d', Ok tt) -> tables d' = tables d.
Proof.
  intros Hes Hc Hr. rewrite <- (app_nil_r pre) in Hes. destruct fuel as [|fuel]; [done|]. cbn [backfill] in Hr.
  apply bind_ok in Hr as (d1 & row & [Ht1 ->]%select_ok & Hr).
  rewrite (nextEvent_at uid (tables d) pre _ Hes Hc) in Hr. by apply mret_inv in Hr as [-> _].
Qed.

Lemma backfill_holds uid suf : forall fuel pre d d', sessionEvents uid (tables d) = pre ++ suf ->
  contiguous 0 (journalOf uid (tables d)) -> Forall decodable suf ->
  holds uid (tables d) (reportOf (map rowRecord pre)) ->
  backfill fuel uid (Z.of_nat (length pre)) d = (d', Ok tt) ->
  holds uid (tables d') (reportOf (map rowRecord (pre ++ suf))).
Proof.
  induction suf as [|e suf IH]; intros fuel pre d d' Hes Hc Hd Hh Hr.
  { rewrite app_nil_r in *. by rewrite (backfill_none fuel uid pre d d'). }
  destruct fuel as [|fuel]; [done|]. apply (backfill_next fuel uid pre e suf) in Hr; [|done..].
  apply Forall_cons in Hd as [He Hd]. unfold decodable in He.
  destruct (decode (e_event e)) as [ev|] eqn:Hev; [|done].
  destruct Hr as (d1 & d2 & Ht1 & Hq & Hr2 & Hes2 & Hc2 & Hr). rewrite <- Ht1 in Hh.
  apply (projectApproval_step _ _ _ _ _ _ Hh) in Hr2.
  replace (pre ++ e :: suf) with ((pre ++ [e]) ++ suf) by by rewrite <- app_assoc.
  eapply (IH fuel (pre ++ [e]) d2); [done|done|done| |exact Hr].
  rewrite map_app. cbn [map]. by rewrite reportOf_snoc, (decodable_record _ _ Hev).
Qed.

(** An event that does not decode suppresses what its own session reports. *)
Definition suppressed (uid : string) (t : Tables) : Prop :=
  forall s, t_sessions t !! uid = Some s -> approval_corrupt (s_report s) = true.

Lemma backfill_suppressed uid suf : forall fuel pre d d', sessionEvents uid (tables d) = pre ++ suf ->
  contiguous 0 (journalOf uid (tables d)) -> ~ Forall decodable suf ->
  backfill fuel uid (Z.of_nat (length pre)) d = (d', Ok tt) -> suppressed uid (tables d').
Proof.
  induction suf as [|e suf IH]; intros fuel pre d d' Hes Hc Hd Hr; [by destruct Hd|].
  destruct fuel as [|fuel]; [done|]. apply (backfill_next fuel uid pre e suf) in Hr; [|done..].
  destruct (decode (e_event e)) as [ev|err] eqn:Hev.
  - destruct Hr as (d1 & d2 & _ & _ & _ & Hes2 & Hc2 & Hr). apply (IH fuel (pre ++ [e]) d2 d' Hes2 Hc2); [|exact Hr].
    intros Hsuf. apply Hd. constructor; [|done]. unfold decodable. by rewrite Hev.
  - intros s. rewrite Hr. simpl. rewrite lookup_alter_eq. by intros (s0 & _ & ->)%fmap_Some.
Qed.

(** ** The backfill of every journal *)

Lemma holds_other u uid t t' p : u <> uid -> report_frame uid t t' -> holds u t p -> holds u t' p.
Proof.
  intros Hu Hf. apply holds_frame.
  - intros s Hs. exists s. split; [|done]. by rewrite (rf_other _ _ _ Hf).
  - intros x. by apply (rf_executions _ _ _ Hf).
  - intros x c. by apply (rf_calls _ _ _ Hf).
Qed.

Lemma backfillAll_frame fuel uids : preserves reports_frame (backfillAll fuel uids).
Proof.
  induction uids as [|uid uids IH]; cbn [backfillAll]; [frame|].
  apply preserves_bind; [typeclasses eauto| |intros _; apply IH].
  eapply preserves_weaken; [apply report_frame_reports|apply backfill_frame].
Qed.

(** What the backfill leaves of one session. *)
Definition filled (uid : string) (t t' : Tables) : Prop :=
  (Forall decodable (sessionEvents uid t) -> holds uid t' (reportOf (journalOf uid t))) /\
  (~ Forall decodable (sessionEvents uid t) -> suppressed uid t').

Lemma journalOf_frame uid t t' : t_events t' = t_events t -> journalOf uid t' = journalOf uid t.
Proof. intros He. apply journalOf_events. unfold sessionEvents. by rewrite He. Qed.

Lemma backfillAll_filled fuel uids : NoDup uids -> forall d d',
  (forall uid, contiguous 0 (journalOf uid (tables d))) ->
  (forall uid, uid ∈ uids -> holds uid (tables d) emptyReport) ->
  backfillAll fuel uids d = (d', Ok tt) ->
  (forall uid, uid ∈ uids -> filled uid (tables d) (tables d')) /\
  (forall uid, uid ∉ uids -> t_sessions (tables d') !! uid = t_sessions (tables d) !! uid /\
     (forall x, t_executions (tables d') !! (uid, x) = t_executions (tables d) !! (uid, x)) /\
     (forall x c, t_calls (tables d') !! (uid, x, c) = t_calls (tables d) !! (uid, x, c))).
Proof.
  induction 1 as [|u uids Hu Hnd IH]; intros d d' Hc Hh Hr; cbn [backfillAll] in Hr.
  { apply mret_inv in Hr as [-> _]. split; [set_solver|done]. }
  apply bind_ok in Hr as (d1 & [] & Hr1 & Hr). pose proof (backfill_frame _ _ _ _ _ _ Hr1) as [_ Hf].
  assert (forall uid, journalOf uid (tables d1) = journalOf uid (tables d)) as Hj
    by (intros uid; by apply journalOf_frame, (rf_events _ _ _ Hf)).
  destruct (IH d1 d') as [Hin Hout]; [intros uid; by rewrite Hj| |done|].
  { intros uid Huid. apply (holds_other uid u _ _ _) with (2 := Hf); [set_solver|]. apply Hh. set_solver. }
  assert (forall uid, sessionEvents uid (tables d1) = sessionEvents uid (tables d)) as Hse
    by (intros uid; unfold sessionEvents; by rewrite (rf_events _ _ _ Hf)).
  split.
  - intros uid [->|Huid]%elem_of_cons.
    + destruct (Hout u Hu) as (Hs & Hx & Hcl). split.
      * intros Hd. eapply holds_frame; [|exact Hx|exact Hcl|].
        { intros s Hs1. exists s. by rewrite Hs. }
        by apply (backfill_holds u (sessionEvents u (tables d)) fuel [] d d1); [| |done|apply Hh; left|].
      * intros Hd. unfold suppressed. rewrite Hs. by apply (backfill_suppressed u (sessionEvents u (tables d)) fuel [] d d1).
    + destruct (Hin uid Huid) as [H1' H2']. unfold filled. rewrite <- Hse, <- Hj. done.
  - intros uid Hn. destruct (Hout uid) as (Hs & Hx & Hcl); [set_solver|].
    assert (uid <> u) as Hne by set_solver. split_and!.
    + by rewrite Hs, (rf_other _ _ _ Hf).
    + intros x. by rewrite Hx, (rf_executions _ _ _ Hf).
    + intros x c. by rewrite Hcl, (rf_calls _ _ _ Hf).
Qed.

(** ** The rungs *)

Lemma option_Forall2_lookup {A} (f : A -> A) (m : gmap string A) u (R : A -> A -> Prop) : (forall s, R s (f s)) ->
  option_Forall2 R (m !! u) ((f <$> m) !! u).
Proof. intros Hf. rewrite lookup_fmap. destruct (m !! u); constructor. apply Hf. Qed.

Lemma addReportColumns_frame t : reports_frame t (addReportColumns t).
Proof. constructor; try done. intros u. apply option_Forall2_lookup. eauto. Qed.

Lemma migrateV2ToV3_frame : preserves reports_frame migrateV2ToV3.
Proof.
  unfold migrateV2ToV3. apply preserves_bind; [typeclasses eauto| |intros _].
  - apply preserves_execute; [typeclasses eauto|apply addReportColumns_frame].
  - apply preserves_bind; [typeclasses eauto|frame|intros uids].
    apply preserves_bind; [typeclasses eauto| |intros fuel; apply backfillAll_frame].
    intros d d' r Hr. unfold gets in Hr. by inv_ok.
Qed.

Lemma sessionUIDs_spec t : NoDup (sessionUIDs t) /\ forall u, u ∈ sessionUIDs t <-> is_Some (t_sessions t !! u).
Proof.
  unfold sessionUIDs. split.
  - rewrite (orderBy_Permutation String.leb). apply NoDup_fst_map_to_list.
  - intros u. rewrite elem_of_orderBy, list_elem_of_fmap. split.
    + intros ([u' s] & -> & Hin%elem_of_map_to_list). by exists s.
    + intros [s Hs]. exists (u, s). split; [done|]. by apply elem_of_map_to_list.
Qed.

(** What the second rung leaves of one session: its journal's report. *)
Lemma migrateV2ToV3_filled d d' uid : migrateV2ToV3 d = (d', Ok tt) ->
  (forall u, contiguous 0 (journalOf u (tables d))) ->
  (t_sessions (tables d) !! uid = None -> reports uid (tables d') emptyReport) /\
  (is_Some (t_sessions (tables d) !! uid) -> filled uid (tables d) (tables d')).
Proof.
  intros (d1 & [] & Ht1%execute_ok & Hr)%bind_ok Hc. apply bind_ok in Hr as (d2 & uids & [Ht2 ->]%select_ok & Hr).
  apply bind_ok in Hr as (d3 & fuel & Hg & Hr). unfold gets in Hg. injection Hg as <- <-.
  pose proof (addReportColumns_frame (tables d)) as Hf. rewrite <- Ht1, <- Ht2 in Hf.
  destruct (sessionUIDs_spec (tables d1)) as [Hnd Hel].
  assert (forall u, is_Some (t_sessions (tables d1) !! u) <-> is_Some (t_sessions (tables d) !! u)) as Hrows.
  { intros u. rewrite Ht1. simpl. by rewrite lookup_fmap, fmap_is_Some. }
  assert (forall u, journalOf u (tables d2) = journalOf u (tables d)) as Hj
    by (intros u; by apply journalOf_frame, (mf_events _ _ Hf)).
  assert (sessionEvents uid (tables d2) = sessionEvents uid (tables d)) as Hse
    by (unfold sessionEvents; by rewrite (mf_events _ _ Hf)).
  destruct (backfillAll_filled (S (length (t_events (tables d2)))) _ Hnd d2 d') as [Hin Hout]; [intros u; by rewrite Hj| |exact Hr|].
  { intros u Hu%Hel. rewrite Ht2, Ht1 in *. constructor; [|done..]. simpl in *. rewrite lookup_fmap in *.
    destruct (t_sessions (tables d) !! u) as [s|]; [|by destruct Hu]. by eexists. }
  split.
  - intros Hn. destruct (Hout uid) as (Hs & Hx & Hcl).
    { rewrite Hel, Hrows, Hn. by intros [? [=]]. }
    rewrite Ht2, Ht1 in Hs, Hx, Hcl. simpl in Hs. rewrite lookup_fmap, Hn in Hs.
    constructor; [by rewrite Hs|exact Hx|exact Hcl].
  - intros Hs. unfold filled. rewrite <- Hse, <- Hj. by apply Hin, Hel, Hrows.
Qed.

Lemma insertNames_ok at_ names d d' : insertNames at_ names d = (d', Ok tt) ->
  exists m, tables d' = setReserved m (tables d) /\ t_reserved (tables d) ⊆ m /\ forall n, n ∈ names -> is_Some (m !! n).
Proof.
  revert d. induction names as [|n names IH]; intros d Hr; cbn [insertNames] in Hr.
  - apply mret_inv in Hr as [-> _]. exists (t_reserved (tables d)). split; [by destruct (tables d)|]. split; [done|set_solver].
  - apply bind_ok in Hr as (d1 & [] & Ht1%execute_ok & Hr). destruct (IH d1 Hr) as (m & Hm & Hsub & Hin).
    assert (exists m1, tables d1 = setReserved m1 (tables d) /\ t_reserved (tables d) ⊆ m1 /\ is_Some (m1 !! n)) as (m1 & Hm1 & Hsub1 & Hn).
    { rewrite Ht1. unfold insertReserved. destruct (t_reserved (tables d) !! n) eqn:E.
      - exists (t_reserved (tables d)). split; [by destruct (tables d)|]. by rewrite E.
      - eexists. split; [done|]. split; [by apply insert_subseteq|]. by rewrite lookup_insert_eq. }
    rewrite Hm1 in Hm, Hsub. simpl in Hsub. exists m. split; [done|]. split; [by transitivity m1|].
    intros n' [->|Hn']%elem_of_cons; [|by apply Hin]. destruct Hn as [x Hx]. exists x. by eapply lookup_weaken.
Qed.

(** The harness names a version 1 database uses: its sessions', and those its markers record. *)
Definition used_name (t : Tables) (name : string) : Prop :=
  name <> EmptyString /\
  ((exists uid s, t_sessions t !! uid = Some s /\ s_harness s = name) \/
   (exists e, e ∈ t_events t /\ markerHarness (rec_Event (rowRecord e)) = Some name)).

Lemma markerNames_ok rows names out : markerNames rows names = Ok out ->
  Forall decodable rows /\ names ⊆ out /\
  forall e h, e ∈ rows -> markerHarness (rec_Event (rowRecord e)) = Some h -> h ∈ out.
Proof.
  revert names. induction rows as [|e rows IH]; intros names Hr; simpl in Hr.
  - injection Hr as <-. split_and!; [done|done|set_solver].
  - destruct (decode (e_event e)) as [ev|] eqn:Hev; [|done]. apply IH in Hr as (Hd & Hsub & Hin).
    split_and!.
    + constructor; [|done]. unfold decodable. by rewrite Hev.
    + destruct (markerHarness ev); set_solver.
    + intros e' h [->|He']%elem_of_cons Hm; [|by eapply Hin].
      rewrite (decodable_record _ _ Hev) in Hm. rewrite Hm in Hsub. set_solver.
Qed.

Lemma markerHarness_nonempty ev h : markerHarness ev = Some h -> h <> EmptyString.
Proof. unfold markerHarness. repeat case_match; try done. case_bool_decide; [done|]. by intros [= <-]. Qed.

Lemma sessionHarnesses_spec t name : name ∈ sessionHarnesses t <->
  name <> EmptyString /\ exists uid s, t_sessions t !! uid = Some s /\ s_harness s = name.
Proof.
  unfold sessionHarnesses. rewrite elem_of_list_to_set, list_elem_of_filter. split.
  - intros [Hn Hin]. split; [done|]. apply list_elem_of_In, in_map_iff in Hin as ([u s] & <- & Hin).
    exists u, s. split; [|done]. by apply elem_of_map_to_list, list_elem_of_In.
  - intros [Hn (u & s & Hs & <-)]. split; [done|]. apply list_elem_of_In, in_map_iff. exists (u, s).
    split; [done|]. by apply list_elem_of_In, elem_of_map_to_list.
Qed.

Lemma migrateV1ToV2_ok d d' : migrateV1ToV2 d = (d', Ok tt) ->
  Forall decodable (t_events (tables d)) /\
  exists m, tables d' = setReserved m (tables d) /\ t_reserved (tables d) ⊆ m /\
    forall name, used_name (tables d) name -> is_Some (m !! name).
Proof.
  intros (d1 & at_ & Hn1 & Hr)%bind_ok. apply now_inv in Hn1 as (_ & Ht1 & _).
  apply bind_ok in Hr as (d2 & [] & Ht2%execute_ok & Hr). apply bind_ok in Hr as (d3 & rows & [Ht3 ->]%select_ok & Hr).
  apply bind_ok in Hr as (d4 & names & [-> Hm]%lift_inv & Hr). apply bind_ok in Hr as (d5 & at' & Hn5 & Hr).
  apply now_inv in Hn5 as (_ & Ht5 & _). apply insertNames_ok in Hr as (m & Hm' & Hsub & Hin).
  symmetry in Hm. apply markerNames_ok in Hm as (Hd & _ & Hmark). rewrite Ht1 in Ht2. rewrite Ht2 in Hd, Hmark. simpl in Hd, Hmark.
  rewrite (orderBy_Permutation sessionSeqLeb) in Hd. split; [done|].
  rewrite Ht5, Ht3, Ht2 in Hm', Hsub. simpl in Hm', Hsub. exists m. split; [done|].
  split; [etransitivity; [|exact Hsub]; apply map_union_subseteq_l|].
  intros name [Hne [Hs|(e & He & Hmk)]].
  - assert (name ∈ sessionHarnesses (tables d)) as Hh by by apply sessionHarnesses_spec.
    destruct (t_reserved (tables d) !! name) as [x|] eqn:E.
    + exists x. eapply lookup_weaken; [|exact Hsub]. by apply lookup_union_Some_l.
    + eexists. eapply lookup_weaken; [|exact Hsub]. rewrite lookup_union_r by done. by apply lookup_gset_to_gmap_Some.
  - apply Hin, elem_of_elements. eapply Hmark; [|exact Hmk]. by apply elem_of_orderBy.
Qed.

(** What the rungs from version [v] leave. *)
Record upgraded (v : Z) (t t' : Tables) : Prop := {
  up_events : t_events t' = t_events t;
  up_harnesses : t_harnesses t' = t_harnesses t;
  up_reserved : t_reserved t ⊆ t_reserved t' /\ (2 <= v -> t_reserved t' = t_reserved t);
  up_names : v <= 1 -> Forall decodable (t_events t) /\ forall name, used_name t name -> is_Some (t_reserved t' !! name);
  up_rows : forall u, option_Forall2 (fun s s' => exists r, s' = setDeletion defaultDeletion (setReport r s) /\
    (3 <= v -> r = s_report s)) (t_sessions t !! u) (t_sessions t' !! u);
  up_projections : 3 <= v -> t_executions t' = t_executions t /\ t_calls t' = t_calls t;
  up_reports : v <= 2 -> (forall u, contiguous 0 (journalOf u t)) -> forall u,
    (t_sessions t !! u = None -> reports u t' emptyReport) /\ (is_Some (t_sessions t !! u) -> filled u t t');
}.

Lemma reports_deletion uid t p : reports uid t p -> reports uid (addDeletionColumns t) p.
Proof.
  intros [Hr Hx Hc]. constructor; [|done..]. simpl. rewrite lookup_fmap. rewrite <- Hr.
  by destruct (t_sessions t !! uid).
Qed.

Lemma filled_deletion uid t t' : filled uid t t' -> filled uid t (addDeletionColumns t').
Proof.
  intros [Hd Hs]. split.
  - intros Hall. apply Hd in Hall as [(s & Hl & Hr) Hx Hc]. constructor; [|done..]. simpl.
    exists (setDeletion defaultDeletion s). by rewrite lookup_fmap, Hl.
  - intros Hn s. simpl. rewrite lookup_fmap. intros (s0 & Hl & ->)%fmap_Some. by apply (Hs Hn s0).
Qed.

(** The third rung after the first two. *)
Lemma upgraded_deletion v t t1 : t_events t1 = t_events t -> t_harnesses t1 = t_harnesses t ->
  t_reserved t ⊆ t_reserved t1 -> (2 <= v -> t_reserved t1 = t_reserved t) ->
  (v <= 1 -> Forall decodable (t_events t) /\ forall name, used_name t name -> is_Some (t_reserved t1 !! name)) ->
  (forall u, option_Forall2 (fun s s' => exists r, s' = setReport r s /\ (3 <= v -> r = s_report s)) (t_sessions t !! u) (t_sessions t1 !! u)) ->
  (3 <= v -> t_executions t1 = t_executions t /\ t_calls t1 = t_calls t) ->
  (v <= 2 -> (forall u, contiguous 0 (journalOf u t)) -> forall u,
    (t_sessions t !! u = None -> reports u t1 emptyReport) /\ (is_Some (t_sessions t !! u) -> filled u t t1)) ->
  upgraded v t (addDeletionColumns t1).
Proof.
  intros He Hh Hr Hr2 Hn Hrows Hp Hf. constructor; try done.
  - intros u. simpl. rewrite lookup_fmap.
    destruct (Hrows u) as [s s' (r & -> & Hv)|]; simpl; constructor. by exists r.
  - intros Hv Hc u. destruct (Hf Hv Hc u) as [H1' H2'].
    split; intros; [by apply reports_deletion, H1'|by apply filled_deletion, H2'].
Qed.

Lemma rung (b : bool) tag m d d' : (if b then wrapErr tag m else mret tt) d = (d', Ok tt) ->
  if b then m d = (d', Ok tt) else d' = d.
Proof. destruct b; [by intros ([[]|e] & Hr & [=])%wrapErr_inv|by intros [-> _]%mret_inv]. Qed.

(** The first two rungs. *)
Lemma rungs12 v d d1 d2 :
  (if v <=? 1 then migrateV1ToV2 d = (d1, Ok tt) else d1 = d) -> (if v <=? 2 then migrateV2ToV3 d1 = (d2, Ok tt) else d2 = d1) ->
  upgraded v (tables d) (addDeletionColumns (tables d2)).
Proof.
  intros E1 E2.
  assert (exists m, tables d1 = setReserved m (tables d) /\ t_reserved (tables d) ⊆ m /\ (2 <= v -> m = t_reserved (tables d)) /\
    (v <= 1 -> Forall decodable (t_events (tables d)) /\ forall name, used_name (tables d) name -> is_Some (m !! name))) as (m & Ht1 & Hsub & Hv & Hn).
  { destruct (Z.leb_spec v 1).
    - apply migrateV1ToV2_ok in E1 as (Hd & m & Hm & Hsub & Hn). exists m. split_and!; [done|done|lia|done].
    - subst d1. exists (t_reserved (tables d)). split_and!; [by destruct (tables d)|done|done|lia]. }
  destruct (Z.leb_spec v 2) as [Hle|Hlt].
  - pose proof (migrateV2ToV3_frame _ _ _ E2) as [_ Hf].
    pose proof (mf_events _ _ Hf) as Hfe. pose proof (mf_reserved _ _ Hf) as Hfr. rewrite Ht1 in Hfe, Hfr. simpl in Hfe, Hfr.
    apply upgraded_deletion; rewrite ?Hfe, ?Hfr; try done.
    + by rewrite (mf_harnesses _ _ Hf), Ht1.
    + intros u. pose proof (mf_rows _ _ Hf u) as Hrow. rewrite Ht1 in Hrow. simpl in Hrow.
      destruct Hrow as [s s' [r ->]|]; constructor. exists r. split; [done|lia].
    + lia.
    + intros _ Hc u. assert (forall u, journalOf u (tables d1) = journalOf u (tables d)) as Hj
        by (intros u'; apply journalOf_frame; by rewrite Ht1).
      destruct (migrateV2ToV3_filled _ _ u E2) as [H1' H2']; [intros u'; by rewrite Hj|].
      unfold filled, sessionEvents in H2'. rewrite Hj, Ht1 in H2'. rewrite Ht1 in H1'. by split.
  - subst d2. rewrite Ht1. apply upgraded_deletion; try done; simpl; try lia.
    + intros u. destruct (t_sessions (tables d) !! u) as [s|]; constructor. exists (s_report s). by rewrite setReport_id.
Qed.

Lemma runMigrations_ok v d d' : v <= 3 -> runMigrations v d = (d', Ok tt) -> upgraded v (tables d) (tables d').
Proof.
  intros Hv (d1 & [] & E1%rung & Hr)%bind_ok. apply bind_ok in Hr as (d2 & [] & E2%rung & E3%rung).
  rewrite (proj2 (Z.leb_le _ _)) in E3 by done. unfold migrateV3ToV4 in E3. apply execute_ok in E3. rewrite E3.
  by eapply rungs12.
Qed.

(** ** The transaction *)

Definition anyhow (t t' : Tables) : Prop := True.
#[local] Instance anyhow_preorder : PreOrder anyhow.
Proof. by split. Qed.

Lemma insertNames_saved at_ names : preserves anyhow (insertNames at_ names).
Proof. induction names; cbn [insertNames]; frame; [done|assumption]. Qed.

Lemma runMigrations_saved v : preserves anyhow (runMigrations v).
Proof.
  unfold runMigrations. apply preserves_bind; [typeclasses eauto| |intros _; apply preserves_bind; [typeclasses eauto| |intros _]].
  - destruct (v <=? 1); [|frame]. apply preserves_wrapErr. unfold migrateV1ToV2. frame; try done. apply insertNames_saved.
  - destruct (v <=? 2); [|frame]. apply preserves_wrapErr. eapply preserves_weaken; [|apply migrateV2ToV3_frame]. done.
  - destruct (v <=? 3); frame; done.
Qed.

Definition migrated (t t' : Tables) (_ : unit) : Prop :=
  (user_version t = SchemaVersion /\ t' = t) \/
  (0 <= user_version t < SchemaVersion /\
   exists t1, upgraded (if user_version t =? 0 then 1 else user_version t) t t1 /\ t' = setVersion SchemaVersion t1).

Lemma userVersion_inv d d' r : userVersion d = (d', r) -> saved d' = saved d /\ tables d' = tables d /\
  match r with Ok v => v = user_version (tables d) | Err e => exists e', e = EWrap "sqlitelog: read schema version" e' end.
Proof.
  intros (r0 & (Hs & Ht & Hr)%select_inv & ->)%wrapErr_inv. destruct r0 as [v|e]; [|eauto].
  by destruct Hr as [[= ->]|[? [=]]].
Qed.

Lemma checkVersion_None v : checkVersion v = None <-> 0 <= v <= SchemaVersion.
Proof.
  unfold checkVersion. destruct (Z.ltb_spec v 0); [split; [done|lia]|].
  destruct (Z.ltb_spec SchemaVersion v); split; try done; lia.
Qed.

Lemma check_inv o (d d' : DB) (r : res unit) : check o d = (d', r) -> d' = d /\ r = match o with None => Ok tt | Some e => Err e end.
Proof. unfold check. destruct o; intros; by inv_ok. Qed.

Lemma migrateTx_inv d d' r : saved d = Some (tables d) -> migrateTx d = (d', r) -> tx_result migrated (tables d) d' r.
Proof.
  intros Hs (d1 & r1 & (Hs1 & Ht1 & Hv)%userVersion_inv & Hr)%bind_inv.
  destruct r1 as [v|e]; [|destruct Hr as [-> ->]; apply tx_fail; congruence]. subst v.
  apply bind_inv in Hr as (d2 & r2 & [-> ->]%check_inv & Hr).
  destruct (checkVersion (user_version (tables d))) eqn:Hc; [destruct Hr as [-> ->]; apply tx_fail; congruence|].
  apply checkVersion_None in Hc. destruct (Z.eqb_spec (user_version (tables d)) SchemaVersion) as [Hv|Hv].
  { apply mret_inv in Hr as [-> ->]. right. split; [congruence|]. by left. }
  apply bind_inv in Hr as (d3 & r3 & Hr3 & Hr).
  assert (saved d3 = Some (tables d) /\ tables d3 = tables d) as [Hs3 Ht3].
  { destruct (user_version (tables d) =? 0).
    - apply wrapErr_inv in Hr3 as (r0 & (Hs3 & [[Ht3 _]|[Ht3 _]])%execute_inv & _); split; congruence.
    - apply mret_inv in Hr3 as [-> _]. split; congruence. }
  destruct r3 as [[]|e]; [|destruct Hr as [-> ->]; by apply tx_fail]. clear Hr3.
  apply bind_inv in Hr as (d4 & r4 & Hr4 & Hr). pose proof (runMigrations_saved _ _ _ _ Hr4) as [Hs4 _].
  destruct r4 as [[]|e]; [|destruct Hr as [-> ->]; apply tx_fail; congruence].
  apply runMigrations_ok in Hr4; [|unfold SchemaVersion in *; case_match; lia]. rewrite Ht3 in Hr4.
  apply bind_inv in Hr as (d5 & r5 & (r0 & (Hs5 & H5)%execute_inv & ->)%wrapErr_inv & Hr).
  destruct r0 as [[]|e]; [|destruct Hr as [-> ->]; apply tx_fail; congruence].
  destruct H5 as [[Ht5 _]|[_ [? [=]]]]. eapply Commit_unit; [| |exact Hr]; [congruence|]. right.
  split; [lia|]. exists (tables d4). by split.
Qed.

Lemma migrate_inv d d' r : saved d = None -> migrate d = (d', r) ->
  saved d' = None /\ match r with Ok a => migrated (tables d) (tables d') a | Err _ => tables d' = tables d end.
Proof.
  intros Hs (d1 & r1 & (Hs1 & Ht1 & Hv)%userVersion_inv & Hr)%bind_inv.
  destruct r1 as [v|e]; [|destruct Hr as [-> ->]; split; congruence]. subst v.
  apply bind_inv in Hr as (d2 & r2 & [-> ->]%check_inv & Hr).
  destruct (checkVersion (user_version (tables d))) eqn:Hc; [destruct Hr as [-> ->]; split; congruence|].
  destruct (Z.eqb_spec (user_version (tables d)) SchemaVersion) as [Hv|Hv].
  { apply mret_inv in Hr as [-> ->]. split; [congruence|]. left. by split. }
  rewrite <- Ht1. eapply transaction_inv; [apply Begin_wrapped| |exact Hr|congruence].
  intros d2 d3 r3 Hs2 Ht2 Hb. rewrite <- Ht2. apply migrateTx_inv; [by rewrite Ht2|done].
Qed.

(** ** Progress *)

Section progress.
Hypothesis Hfree : faultFree.

Lemma bind_runs {A B} (m : M DB goerr A) (f : A -> M DB goerr B) d d1 a b : m d = (d1, Ok a) ->
  (exists d', f a d1 = (d', Ok b)) -> exists d', (m ≫= f) d = (d', Ok b).
Proof. intros Hm [d' Hf]. exists d'. unfold mbind, M_bind. by rewrite Hm. Qed.

Lemma backfill_free uid suf : forall fuel pre d, sessionEvents uid (tables d) = pre ++ suf ->
  contiguous 0 (journalOf uid (tables d)) -> (length suf < fuel)%nat ->
  exists d', backfill fuel uid (Z.of_nat (length pre)) d = (d', Ok tt).
Proof.
  induction suf as [|e suf IH]; intros [|fuel] pre d Hes Hc Hlt; simpl in Hlt; try lia; cbn [backfill];
    destruct (select_free Hfree (nextEvent uid (Z.of_nat (length pre))) d) as (d1 & E1 & Ht1 & _);
    unfold mbind at 1, M_bind at 1; rewrite E1, (nextEvent_at uid (tables d) pre _ Hes Hc); cbn [head]; [by eexists|].
  destruct (decode (e_event e)) as [ev|err].
  - destruct (succeeds_wrapErr "session" _ (projectApproval_succeeds uid (e_seq e) ev Hfree) d1) as (d2 & [] & E2).
    unfold mbind at 1, M_bind at 1. rewrite E2. apply wrapErr_inv in E2 as ([[]|?] & E2 & [=]).
    pose proof (projectApproval_frame _ _ _ _ _ _ E2) as [_ Hf].
    assert (sessionEvents uid (tables d2) = sessionEvents uid (tables d)) as Hse
      by (unfold sessionEvents; by rewrite (rf_events _ _ _ Hf), Ht1).
    assert (e_seq e = Z.of_nat (length (pre ++ [e]))) as ->.
    { unfold journalOf in Hc. rewrite Hes, map_app in Hc. apply contiguous_app in Hc as [_ [Hc _]].
      rewrite length_map in Hc. simpl in Hc. rewrite length_app. simpl. lia. }
    apply IH; [by rewrite Hse, Hes, <- app_assoc|by rewrite (journalOf_events uid (tables d) (tables d2))|lia].
  - destruct (execute_free Hfree (fun t => updateSession (markCorrupt (headSeq uid t)) uid t) d1) as (d2 & E2 & _). by exists d2.
Qed.

Lemma sessionEvents_length uid t : (length (sessionEvents uid t) <= length (t_events t))%nat.
Proof. unfold sessionEvents. rewrite (orderBy_Permutation seqLeb). apply length_filter. Qed.

Lemma backfillAll_free uids : forall fuel d, (forall u, contiguous 0 (journalOf u (tables d))) ->
  (length (t_events (tables d)) < fuel)%nat -> exists d', backfillAll fuel uids d = (d', Ok tt).
Proof.
  induction uids as [|uid uids IH]; intros fuel d Hc Hlt; cbn [backfillAll]; [by eexists|].
  pose proof (sessionEvents_length uid (tables d)).
  destruct (backfill_free uid (sessionEvents uid (tables d)) fuel [] d) as [d1 E1]; [done|done|lia|].
  change (Z.of_nat (length (@nil EventRow))) with 0 in E1. unfold mbind at 1, M_bind at 1. rewrite E1. pose proof (backfill_frame _ _ _ _ _ _ E1) as [_ Hf].
  apply IH; [|by rewrite (rf_events _ _ _ Hf)]. intros u. by rewrite (journalOf_frame u (tables d)) by apply Hf.
Qed.

Lemma markerNames_free rows names : Forall decodable rows -> exists out, markerNames rows names = Ok out.
Proof.
  intros Hd. revert names. induction Hd as [|e rows He Hd IH]; intros names; simpl; [by eexists|].
  unfold decodable in He. destruct (decode (e_event e)); [apply IH|done].
Qed.

Lemma insertNames_succeeds at_ names : succeeds (insertNames at_ names).
Proof. induction names; cbn [insertNames]; run_free. assumption. Qed.

Lemma migrateV1ToV2_free d : Forall decodable (t_events (tables d)) -> exists d', migrateV1ToV2 d = (d', Ok tt).
Proof.
  intros Hd. unfold migrateV1ToV2. eapply bind_runs; [unfold now; reflexivity|].
  set (d1 := mkDB (tables d) (saved d) (S (ticks d))). set (at1 := clock (ticks d)).
  destruct (execute_free Hfree (fun t => reserveAll (sessionHarnesses t) (at1 / 1000000000 * 1000000000) t) d1) as (d2 & E2 & Ht2 & _).
  eapply bind_runs; [exact E2|].
  destruct (select_free Hfree (fun t => orderBy sessionSeqLeb (t_events t)) d2) as (d3 & E3 & Ht3 & _).
  eapply bind_runs; [exact E3|].
  destruct (markerNames_free (orderBy sessionSeqLeb (t_events (tables d2))) ∅) as [names En].
  { rewrite (orderBy_Permutation sessionSeqLeb), Ht2. exact Hd. }
  eapply bind_runs; [unfold lift; by rewrite En|]. eapply bind_runs; [unfold now; reflexivity|].
  destruct (insertNames_succeeds (clock (ticks d3)) (elements names) (mkDB (tables d3) (saved d3) (S (ticks d3)))) as (d4 & [] & E4).
  by exists d4.
Qed.

Lemma migrateV2ToV3_free d : (forall u, contiguous 0 (journalOf u (tables d))) -> exists d', migrateV2ToV3 d = (d', Ok tt).
Proof.
  intros Hc. unfold migrateV2ToV3. destruct (execute_free Hfree addReportColumns d) as (d1 & E1 & Ht1 & _).
  eapply bind_runs; [exact E1|].
  destruct (select_free Hfree sessionUIDs d1) as (d2 & E2 & Ht2 & _).
  eapply bind_runs; [exact E2|]. eapply bind_runs; [unfold gets; reflexivity|].
  apply backfillAll_free; [|lia]. intros u. rewrite (journalOf_frame u (tables d)); [done|]. by rewrite Ht2, Ht1.
Qed.

Lemma runMigrations_free v d : Forall decodable (t_events (tables d)) -> (forall u, contiguous 0 (journalOf u (tables d))) ->
  exists d', runMigrations v d = (d', Ok tt).
Proof.
  intros Hd Hc. unfold runMigrations.
  assert (exists d1, (if v <=? 1 then wrapErr "sqlitelog: migrate v1 to v2" migrateV1ToV2 else mret tt) d = (d1, Ok tt) /\
    forall u, journalOf u (tables d1) = journalOf u (tables d)) as (d1 & E1 & Hj).
  { destruct (v <=? 1); [|by exists d]. destruct (migrateV1ToV2_free d Hd) as [d1 E]. exists d1. unfold wrapErr. rewrite E.
    split; [done|]. intros u. apply journalOf_frame. by apply migrateV1ToV2_ok in E as (_ & m & -> & _). }
  eapply bind_runs; [exact E1|].
  assert (exists d2, (if v <=? 2 then wrapErr "sqlitelog: migrate v2 to v3" migrateV2ToV3 else mret tt) d1 = (d2, Ok tt)) as (d2 & E2).
  { destruct (v <=? 2); [|by exists d1]. destruct (migrateV2ToV3_free d1) as [d2 E]; [intros u; by rewrite Hj|].
    exists d2. unfold wrapErr. by rewrite E. }
  eapply bind_runs; [exact E2|]. destruct (v <=? 3); [|by exists d2].
  destruct (succeeds_wrapErr "sqlitelog: migrate v3 to v4" _ (succeeds_execute Hfree addDeletionColumns) d2) as (d3 & [] & E3). by exists d3.
Qed.
End progress.

(** ** The theorem *)

(** What a build of an earlier version leaves in a database: gapless journals of sessions that have a
    row, no DELETE record; up to version 2 events that decode; in version 3 the reports of the journals;
    names as the invariant has them, and no registration before version 2. *)
Record older (t : Tables) : Prop := {
  ol_chain : forall u, contiguous 0 (journalOf u t);
  ol_rows : forall u, t_sessions t !! u = None -> journalOf u t = [];
  ol_live : forall u, Forall (fun r => isMarker LifecycleDelete (rec_Event r) = false) (journalOf u t);
  ol_decodes : user_version t <= 2 -> Forall decodable (t_events t);
  ol_reports : 3 <= user_version t -> forall u, reports u t (reportOf (journalOf u t));
  ol_names : names_ok t /\ (user_version t <= 1 -> t_harnesses t = ∅);
}.

Lemma decodable_session uid t : Forall decodable (t_events t) -> Forall decodable (sessionEvents uid t).
Proof.
  rewrite !Forall_forall. intros Hd e He. apply Hd. by apply elem_of_sessionEvents in He as [_ He].
Qed.

Lemma upgraded_reports v t t' u : upgraded v t t' -> (user_version t = v \/ (user_version t = 0 /\ v = 1)) -> older t ->
  reports u t' (reportOf (journalOf u t)).
Proof.
  intros Hup Hv Hold. destruct (Z.le_gt_cases v 2) as [Hle|Hgt].
  - destruct (up_reports _ _ _ Hup Hle (ol_chain _ Hold) u) as [Hn Hs].
    destruct (t_sessions t !! u) as [s|] eqn:E.
    + apply holds_reports, Hs; [by eexists|]. apply decodable_session, (ol_decodes _ Hold). lia.
    + rewrite (ol_rows _ Hold u E). by apply Hn.
  - pose proof (up_rows _ _ _ Hup u) as Hrow. destruct (up_projections _ _ _ Hup) as [Hx Hc]; [lia|].
    destruct (ol_reports _ Hold) with (u := u) as [Hr He Hcl]; [lia|].
    constructor; [|by intros; rewrite Hx|by intros; rewrite Hc]. rewrite <- Hr.
    inversion Hrow as [s s' (r & -> & Hrr) E1 E2|E1 E2]; simpl; [|done]. by rewrite Hrr by lia.
Qed.

Lemma upgraded_ok v t t' : upgraded v t t' -> (user_version t = v \/ (user_version t = 0 /\ v = 1)) -> older t ->
  forall u, session_ok u t'.
Proof.
  intros Hup Hv Hold u. assert (journalOf u t' = journalOf u t) as Hj by (apply journalOf_frame; apply Hup).
  constructor; rewrite ?Hj; [apply Hold|by eapply upgraded_reports|]. unfold deleted_ok. rewrite Hj.
  pose proof (up_rows _ _ _ Hup u) as Hrow.
  inversion Hrow as [s s' (r & -> & _) E1 E2|E1 E2]; [apply Hold|]. by apply (ol_rows _ Hold).
Qed.

Lemma upgraded_names v t t' : upgraded v t t' -> (user_version t = v \/ (user_version t = 0 /\ v = 1)) -> older t -> names_ok t'.
Proof.
  intros Hup Hv Hold name. destruct (ol_names _ Hold) as [Hn Hh]. rewrite (up_harnesses _ _ _ Hup).
  destruct (Z.le_gt_cases v 1); [rewrite Hh by lia; by right|].
  rewrite (proj2 (up_reserved _ _ _ Hup)) by lia. apply Hn.
Qed.

Lemma userVersion_free d : faultFree -> userVersion d = (mkDB (tables d) (saved d) (S (ticks d)), Ok (user_version (tables d))).
Proof. intros Hfree. unfold userVersion, wrapErr, select, stmt. by rewrite Hfree. Qed.

Lemma migrate_refuses d d' r : faultFree -> user_version (tables d) < 0 \/ 4 < user_version (tables d) ->
  migrate d = (d', r) -> exists e, r = Err e /\ errors_Is e ErrUnsupportedSchema = true.
Proof.
  intros Hfree Hv Hr. unfold migrate, mbind at 1, M_bind at 1 in Hr. rewrite userVersion_free in Hr by done.
  unfold checkVersion, SchemaVersion in Hr. destruct (Z.ltb_spec (user_version (tables d)) 0);
    [|rewrite (proj2 (Z.ltb_lt _ _)) in Hr by lia]; injection Hr as _ <-; by eexists.
Qed.

Lemma migrateTx_free d : faultFree -> 0 <= user_version (tables d) <= 4 -> older (tables d) ->
  exists d', migrateTx d = (d', Ok tt).
Proof.
  intros Hfree Hv Hold. unfold migrateTx. eapply bind_runs; [by apply userVersion_free|].
  rewrite (proj2 (checkVersion_None _)) by (unfold SchemaVersion; lia). eapply bind_runs; [reflexivity|].
  set (d1 := mkDB _ _ _). destruct (Z.eqb_spec (user_version (tables d)) SchemaVersion) as [|Hne]; [by eexists|].
  assert (exists d2, (if user_version (tables d) =? 0 then wrapErr "sqlitelog: schema" (execute (fun t => t)) else mret tt) d1 = (d2, Ok tt)
    /\ tables d2 = tables d) as (d2 & E2 & Ht2).
  { destruct (user_version (tables d) =? 0); [|by exists d1].
    destruct (execute_free Hfree (fun t => t) d1) as (d2 & E & Ht & _). exists d2. unfold wrapErr. by rewrite E. }
  eapply bind_runs; [exact E2|].
  assert (Forall decodable (t_events (tables d)) \/ user_version (tables d) = 3) as Hd.
  { destruct (Z.le_gt_cases (user_version (tables d)) 2); [left; by apply (ol_decodes _ Hold)|right; unfold SchemaVersion in *; lia]. }
  assert (exists d3, runMigrations (if user_version (tables d) =? 0 then 1 else user_version (tables d)) d2 = (d3, Ok tt)) as (d3 & E3).
  { destruct Hd as [Hd| ->].
    - apply runMigrations_free; rewrite ?Ht2; try done. apply Hold.
    - destruct (succeeds_wrapErr "sqlitelog: migrate v3 to v4" _ (succeeds_execute Hfree addDeletionColumns) d2) as (d3 & [] & E3). by exists d3. }
  eapply bind_runs; [exact E3|].
  destruct (succeeds_wrapErr "sqlitelog: stamp schema version" _ (succeeds_execute Hfree (setVersion SchemaVersion)) d3) as (d4 & [] & E4).
  eapply bind_runs; [exact E4|]. destruct (Commit_free Hfree d4) as (d5 & E5 & _). exists d5. unfold wrapErr. by rewrite E5.
Qed.

Lemma migrate_free d d' r : faultFree -> 0 <= user_version (tables d) <= 4 -> older (tables d) -> migrate d = (d', r) -> r = Ok tt.
Proof.
  intros Hfree Hv Hold Hr. enough (exists d'', migrate d = (d'', Ok tt)) as [d'' E] by congruence. clear Hr r d'.
  unfold migrate. eapply bind_runs; [by apply userVersion_free|].
  rewrite (proj2 (checkVersion_None _)) by (unfold SchemaVersion; lia). eapply bind_runs; [reflexivity|].
  set (d1 := mkDB _ _ _). destruct (user_version (tables d) =? SchemaVersion); [by eexists|].
  destruct (Begin_free Hfree d1) as (d2 & E2 & Ht2 & _). eapply bind_runs; [unfold wrapErr; by rewrite E2|].
  destruct (migrateTx_free d2) as [d3 E3]; [done|by rewrite Ht2|by rewrite Ht2|].
  exists (Rollback d3). unfold deferRollback. by rewrite E3.
Qed.

(** C22: Opening a database of another version. A call that fails changes nothing, whichever statement
    failed, and a version outside 0 to 4 is refused as unsupported. A call that returns left version
    4: a current database as it was, and an older one with its journals and the metadata of its
    sessions kept, nothing deleted, every harness name a version 1 database used reserved, and every
    session of a version 1 or 2 database with an event that does not decode marked corrupt. From what
    earlier versions leave, the migration reaches the invariant that every call then keeps; it returns
    when the driver does not fail. *)
Theorem migrate_exact d d' r : saved d = None -> migrate d = (d', r) ->
  let v := user_version (tables d) in
  saved d' = None /\
  match r with
  | Err e => tables d' = tables d
  | Ok _ => 0 <= v <= 4 /\ user_version (tables d') = 4 /\ (v = 4 -> tables d' = tables d) /\
      (v < 4 -> t_events (tables d') = t_events (tables d) /\
        (forall u, option_Forall2 (fun s s' => exists p, s' = setDeletion defaultDeletion (setReport p s))
           (t_sessions (tables d) !! u) (t_sessions (tables d') !! u)) /\
        (v <= 1 -> forall name, used_name (tables d) name -> is_Some (t_reserved (tables d') !! name)) /\
        (v <= 2 -> (forall u, contiguous 0 (journalOf u (tables d))) ->
           forall u, ~ Forall decodable (sessionEvents u (tables d)) -> suppressed u (tables d')) /\
        (older (tables d) -> db_ok d'))
  end /\
  (faultFree -> v < 0 \/ 4 < v -> exists e, r = Err e /\ errors_Is e ErrUnsupportedSchema = true) /\
  (faultFree -> 0 <= v <= 4 -> older (tables d) -> r = Ok tt).
Proof.
  intros Hs Hr v. destruct (migrate_inv d d' r Hs Hr) as [Hs' Hm]. split; [done|]. split.
  - destruct r as [[]|e]; [|done]. destruct Hm as [[Hv Ht]|(Hv & t1 & Hup & Ht)]; fold v in Hv; unfold SchemaVersion in Hv.
    { rewrite Ht. fold v. split_and!; try lia. done. }
    split; [lia|]. split; [by rewrite Ht|]. split; [lia|]. intros Hlt. rewrite Ht. simpl. fold v in Hup.
    assert (user_version (tables d) = (if v =? 0 then 1 else v) \/ (user_version (tables d) = 0 /\ (if v =? 0 then 1 else v) = 1)) as Hvv
      by (destruct (Z.eqb_spec v 0); [right|left]; done).
    split_and!.
    + apply Hup.
    + intros u. destruct (up_rows _ _ _ Hup u) as [s s' (p & -> & _)|]; constructor. by exists p.
    + intros Hle name. apply (up_names _ _ _ Hup). destruct (Z.eqb_spec v 0); lia.
    + intros Hle Hc u Hd. destruct (up_reports _ _ _ Hup) with (u := u) as [Hn Hf]; [destruct (Z.eqb_spec v 0); lia|done|].
      intros s Hl. simpl in Hl. assert (is_Some (t_sessions (tables d) !! u)) as Hsome.
      { pose proof (up_rows _ _ _ Hup u) as Hrow. rewrite Hl in Hrow. inversion Hrow. by eexists. }
      by apply (Hf Hsome) in Hl.
    + intros Hold. constructor; [done| |].
      * intros u. rewrite Ht. destruct (upgraded_ok _ _ _ Hup Hvv Hold u) as [Hc [] Hd]. by repeat split.
      * rewrite Ht. exact (upgraded_names _ _ _ Hup Hvv Hold).
  - split; intros Hfree Hv; [by eapply migrate_refuses|]. intros Hold. by eapply migrate_free.
Qed.
End Migrations.

(** ** Examples *)

#[local] Existing Instance exampleHost.
#[local] Existing Instance exampleTimestamppb.
#[local] Existing Instance exampleEncoding.
#[local] Existing Instance exampleDriver.
#[local] Existing Instance exampleDriverLaws.

(** The example database as version 2 left it: no reporting tables, and columns of no meaning. *)
Definition version2 (t : Tables) : Tables :=
  setVersion 2 (setExecutions ∅ (setCalls ∅ (setSessions (setReport (mkReportCols 7 "x" 0 true 3) <$> t_sessions t) t))).
Definition oldDB : DB := mkDB (version2 (tables gateDB)) None 0.
Definition gateRow : SessionRow := default (defaultRow 0 "" 0 0) (t_sessions (tables gateDB) !! "s"%string).

Lemma gate_sessions : t_sessions (tables gateDB) = {[ "s"%string := gateRow ]}.
Proof. vm_compute. reflexivity. Qed.

Lemma version2_older d : db_ok d -> (forall u, Forall (fun r => isMarker LifecycleDelete (rec_Event r) = false) (journalOf u (tables d))) ->
  Forall decodable (t_events (tables d)) -> older (version2 (tables d)).
Proof.
  intros Hok Hl Hd. assert (forall u, journalOf u (version2 (tables d)) = journalOf u (tables d)) as Hj
    by (intros u; by apply journalOf_frame).
  constructor; [| | |done| |].
  - intros u. rewrite Hj. apply (ok_sessions _ Hok).
  - intros u Hu. rewrite Hj. destruct (ok_sessions _ Hok u) as [_ _ Hdel]. unfold deleted_ok in Hdel.
    simpl in Hu. rewrite lookup_fmap in Hu. by destruct (t_sessions (tables d) !! u).
  - intros u. rewrite Hj. apply Hl.
  - simpl. lia.
  - split; [exact (ok_names _ Hok)|simpl; lia].
Qed.

Lemma oldDB_older : older (tables oldDB).
Proof.
  apply version2_older; [exact (appendAll_ok gateEvents)| |apply (bool_decide_unpack _); vm_compute; exact I].
  intros u. destruct (decide (u = "s"%string)) as [->|Hne]; [apply (bool_decide_unpack _); vm_compute; exact I|].
  destruct (ok_sessions _ (appendAll_ok gateEvents) u) as [_ _ Hd]. unfold deleted_ok in Hd.
  change (appendAll gateEvents emptyDB) with gateDB in Hd. rewrite gate_sessions, lookup_singleton_ne in Hd by congruence.
  rewrite Hd. constructor.
Qed.

Lemma migrate_exact_witness :
  exists d', migrate oldDB = (d', Ok tt) /\ db_ok d' /\
  fmap PendingApproval (selectSession "s" (tables d')) = Some (mkApprovalRef "e1" "c1" 4).
Proof.
  assert (fmap PendingApproval (selectSession "s" (tables (fst (migrate oldDB)))) = Some (mkApprovalRef "e1" "c1" 4)) as Ha
    by (vm_compute; reflexivity).
  assert (user_version (tables oldDB) = 2) as Hv by (vm_compute; reflexivity).
  pose proof oldDB_older as Hold. assert (saved oldDB = None) as Hs by reflexivity.
  generalize dependent oldDB. intros d Ha Hv Hold Hs. destruct (migrate d) as [d' r] eqn:E.
  destruct (migrate_exact d d' r Hs E) as (_ & Hr & _ & Hfree).
  assert (r = Ok tt) as -> by (apply Hfree; [done|rewrite Hv; lia|exact Hold]).
  exists d'. split; [reflexivity|]. split; [|exact Ha]. destruct Hr as (_ & _ & _ & Hup).
  apply Hup; [rewrite Hv; lia|exact Hold].
Defined.
