(* ===== verification/Status.v ===== *)
(** * Boundary errors of the Sessions service (session/service.go, approval.go, delete.go)

    How an error of the stack below becomes the gRPC status a caller sees. The texts are dropped; a
    status made in place is [EStatus], one that keeps its cause is [EStatusCause]. *)
From S2P Require Import Prelude GoErrors Api Canon EventLog Executions Approvals Harness Sinks Controller SessionGuard Placement.
#[local] Open Scope Z_scope.

(** ** Codes (google.golang.org/grpc/codes) *)
Definition codes_Canceled : Z := 1.
Definition codes_InvalidArgument : Z := 3.
Definition codes_NotFound : Z := 5.
Definition codes_AlreadyExists : Z := 6.
Definition codes_FailedPrecondition : Z := 9.
Definition codes_Aborted : Z := 10.
Definition codes_Internal : Z := 13.

(** [withStatusCause(code, err)]. *)
Definition withStatusCause (code : Z) (err : goerr) : goerr := EStatusCause code err.

(** [errors.Is(err, a), errors.Is(err, b), ...] of a case. *)
Definition isAny (err : goerr) (targets : list Sentinel) : bool := existsb (errors_Is err) targets.

(** ** Mappings *)

(** [harnessError(err)]. *)
Definition harnessError (err : goerr) : goerr :=
  if errors_Is err ErrHarnessUnservable then EStatus codes_FailedPrecondition
  else if errors_Is err ErrUnknownHarness then EStatus codes_InvalidArgument
  else EStatus codes_Internal.

(** [sessionStoreError(err, uid)]. *)
Definition sessionStoreError (err : goerr) : goerr :=
  EStatus (if errors_Is err ErrSessionNotFound then codes_NotFound else codes_Internal).

(** [admissionInterruptedCode(err)]. *)
Definition admissionInterruptedCode (err : goerr) : Z :=
  if errors_Is err ContextDeadlineExceeded then codes_DeadlineExceeded else codes_Canceled.

(** [execError(err)]. *)
Definition execError (err : goerr) : goerr :=
  if errors_Is err ErrDeleted then withStatusCause codes_FailedPrecondition err
  else if errors_Is err ErrSessionBusy then EStatus codes_Aborted
  else if isAny err [ErrApprovalBlocked; ErrApprovalUnavailable; ErrMissingToolExecutor; ErrInvalidApprovalCall;
      ErrApprovalReceiptReport; ErrUnplaceable; ErrInvalidExecutionLog; ErrDescriptorMismatch; ErrHarnessMismatch;
      ErrHarnessVersionMismatch] then EStatus codes_FailedPrecondition
  else if errors_Is err ErrHarnessUnavailable then EStatus codes_Unavailable
  else if errors_Is err ErrAdmissionInterrupted then EStatus (admissionInterruptedCode err)
  else if isAny err [ErrConflict; ErrFenced; ErrCheckpointing] then EStatus codes_Aborted
  else EStatus codes_Internal.

(** [resumeError(err)]. *)
Definition resumeError (err : goerr) : goerr :=
  if errors_Is err ErrDeleted then withStatusCause codes_FailedPrecondition err
  else if isAny err [ErrSessionBusy; ErrConflict; ErrFenced] then EStatus codes_Aborted
  else if isAny err [ErrApprovalBlocked; ErrApprovalUnavailable; ErrMissingToolExecutor; ErrInvalidApprovalCall;
      ErrApprovalReceiptReport] then EStatus codes_FailedPrecondition
  else if errors_Is err ErrInheritedToolIntent then EStatus codes_FailedPrecondition
  else if errors_Is err ErrIncompleteInvocation then EStatus codes_FailedPrecondition
  else if errors_Is err ErrInvalidExecutionLog then EStatus codes_FailedPrecondition
  else if isAny err [ErrUnplaceable; ErrDescriptorMismatch; ErrRecordedHarnessNotServed; ErrHarnessUnservable;
      ErrHarnessMismatch; ErrHarnessVersionMismatch] then EStatus codes_FailedPrecondition
  else if errors_Is err ErrUnknownHarness then harnessError err
  else if errors_Is err ErrHarnessUnavailable then EStatus codes_Unavailable
  else if errors_Is err ErrAdmissionInterrupted then EStatus (admissionInterruptedCode err)
  else if errors_Is err ErrCheckpointing then EStatus codes_Aborted
  else EStatus codes_Internal.

(** [suspendError(err)]. *)
Definition suspendError (err : goerr) : goerr :=
  if errors_Is err ErrDeleted then withStatusCause codes_FailedPrecondition err
  else if isAny err [ErrSessionBusy; ErrCheckpointing; ErrConflict; ErrFenced] then EStatus codes_Aborted
  else if isAny err [ErrRecordedHarnessNotServed; ErrHarnessUnservable; ErrInvalidExecutionLog; ErrReplayDiverged]
  then EStatus codes_FailedPrecondition
  else if errors_Is err ErrUnknownHarness then harnessError err
  else EStatus codes_Internal.

(** [forkError(err)]. *)
Definition forkError (err : goerr) : goerr :=
  if errors_Is err ErrDeleted then withStatusCause codes_FailedPrecondition err
  else if errors_Is err ErrSessionBusy then EStatus codes_Aborted
  else if isAny err [ErrUnplaceable; ErrDescriptorMismatch] then EStatus codes_FailedPrecondition
  else if errors_Is err ErrHarnessUnavailable then EStatus codes_Unavailable
  else if errors_Is err ErrAdmissionInterrupted then EStatus (admissionInterruptedCode err)
  else if isAny err [ErrConflict; ErrFenced; ErrCheckpointing; ErrSnapshotSuperseded] then EStatus codes_Aborted
  else EStatus codes_Internal.

(** [approvalError(err)]. *)
Definition approvalError (err : goerr) : goerr :=
  if errors_Is err ErrDeleted then withStatusCause codes_FailedPrecondition err
  else if isAny err [ErrInvalidApprovalDecision; ErrInvalidExecutionLog; ErrReplayDiverged; ErrApprovalUnavailable]
  then EStatus codes_FailedPrecondition
  else if isAny err [ErrSessionBusy; ErrCheckpointing; ErrConflict; ErrFenced] then EStatus codes_Aborted
  else EStatus codes_Internal.

(** [deleteError(err, uid)]. *)
Definition deleteError (err : goerr) : goerr :=
  let code :=
    if errors_Is err ErrSessionBusy then codes_Aborted
    else if errors_Is err ErrSessionNotFound then codes_NotFound
    else if errors_Is err ErrDeleted then codes_FailedPrecondition
    else if errors_Is err ContextCanceled then codes_Canceled
    else if errors_Is err ContextDeadlineExceeded then codes_DeadlineExceeded
    else codes_Internal in
  withStatusCause code (EWrap "delete session" err).

(** A busy guard is ABORTED at every routing read. *)
Definition busyError (err : goerr) : goerr :=
  if errors_Is err ErrSessionBusy then withStatusCause codes_Aborted err else err.

Section Kind.
Context `{PlacementHost}.

(** [serviceErrorKind(err)]. *)
Definition serviceErrorKind (err : option goerr) : string :=
  match err with
  | None => EmptyString
  | Some e =>
      if errors_Is e ContextCanceled then "canceled"
      else if errors_Is e ContextDeadlineExceeded then "deadline_exceeded"
      else
        let code := statusCode e in
        if Z.eqb code codes_Aborted then "conflict"
        else if Z.eqb code codes_FailedPrecondition then "failed_precondition"
        else if Z.eqb code codes_InvalidArgument then "invalid_argument"
        else if Z.eqb code codes_Canceled then "canceled"
        else if Z.eqb code codes_DeadlineExceeded then "deadline_exceeded"
        else if Z.eqb code codes_Unavailable then "unavailable"
        else if Z.eqb code codes_NotFound then "not_found"
        else if Z.eqb code codes_AlreadyExists then "already_exists"
        else "internal"
  end%string.
End Kind.

(** ** Lemmas *)

(** The code a mapped error carries. *)
Definition codeOf (e : goerr) : option Z :=
  match e with EStatus c | EStatusCause c _ => Some c | _ => None end.

(** Every mapping ends in a status of its own. *)
Lemma mapped_code err : Forall (fun f => is_Some (codeOf (f err)))
  [harnessError; sessionStoreError; execError; resumeError; suspendError; forkError; approvalError; deleteError].
Proof.
  repeat constructor; unfold execError, resumeError, suspendError, forkError, approvalError, deleteError,
    sessionStoreError, harnessError; repeat case_match; eauto.
Qed.

(** A deleted session is a failed precondition whatever else the error says, and the cause stays. *)
Lemma deleted_mapped err : errors_Is err ErrDeleted = true ->
  Forall (fun f => f err = EStatusCause codes_FailedPrecondition err)
    [execError; resumeError; suspendError; forkError; approvalError].
Proof.
  intros E. repeat constructor; unfold execError, resumeError, suspendError, forkError, approvalError; by rewrite E.
Qed.
