(* ===== verification/Service.v ===== *)
(** * The Sessions service: sessions and routing (session/service.go, metadata.go, delete.go, approval.go)

    The handlers of the Sessions gRPC service, on the state they share: the database with the placers'
    guard and connections ([PState DB]), and the registry with its heap of placers. A request message
    is given by the fields the handler reads; a nil message has the zero of each. Logging and request
    ids are left out. *)
From S2P Require Import Prelude GoErrors Api Canon EventLog Executions Approvals Harness Wire Sinks Controller SessionGuard Placement Registry Tables Projection SqlLog SqlSessions SqlHarnesses GoJson Status.
#[local] Open Scope Z_scope.

(** ** Messages *)

Record PbOrigin := mkPbOrigin {
  po_Source : string; po_Subject : string; po_Uri : string; po_Attributes : gmap string string;
}.
#[export] Instance PbOrigin_eq : EqDecision PbOrigin.
Proof. solve_decision. Defined.
#[export] Instance PbIdentityRef_eq : EqDecision PbIdentityRef.
Proof. solve_decision. Defined.

(** [protojson.Marshal] and [protojson.Unmarshal] on the two messages stored beside a session. *)
Class ProtoJson := {
  json_MarshalOrigin : PbOrigin -> res string;
  json_UnmarshalOrigin : string -> res PbOrigin;
  json_MarshalIdentity : PbIdentityRef -> res string;
  json_UnmarshalIdentity : string -> res PbIdentityRef;
}.

(** A message that is written is a JSON object, and is read back. *)
Class ProtoJsonLaws `{ProtoJson} : Prop := {
  json_origin : forall m s, json_MarshalOrigin m = Ok s -> s <> EmptyString /\ json_UnmarshalOrigin s = Ok m;
  json_identity : forall m s, json_MarshalIdentity m = Ok s -> s <> EmptyString /\ json_UnmarshalIdentity s = Ok m;
}.

(** [crypto/rand.Read] of 12 bytes, and [status.FromContextError(err).Err()]. *)
Class ServiceHost := {
  rand12 : nat -> list Z;
  FromContextError : goerr -> goerr;
}.

Section Messages.
Context `{Timestamppb}.

(** [v1.ResourceMetadata]; its version is never read or set. *)
Record ResourceMetadata := mkResourceMetadata {
  md_Project : string; md_Name : string; md_Uid : string;
  md_CreateTime : option Ts; md_UpdateTime : option Ts;
}.

(** [v1.Session]; its compute reference is never read or set. *)
Record PbSession := mkPbSession {
  ss_Metadata : option ResourceMetadata;
  ss_Harness : string;
  ss_Model : string;
  ss_ExecState : PbExecState;
  ss_ComputeState : PbComputeState;
  ss_PendingApproval : option PbApprovalRef;
  ss_DeletionState : PbDeletionState;
  ss_DeletionRequestedTime : option Ts;
  ss_LastSeq : Z;
  ss_ParentUid : string;
  ss_ForkSeq : Z;
  ss_Identity : option PbIdentityRef;
  ss_Origin : option PbOrigin;
  ss_Labels : option (gmap string string);
  ss_Annotations : option (gmap string string);
}.

(** What the getters of a nil message answer. *)
Definition zeroMetadata : ResourceMetadata := mkResourceMetadata EmptyString EmptyString EmptyString None None.
Definition zeroSession : PbSession :=
  mkPbSession None EmptyString EmptyString EXEC_STATE_UNSPECIFIED COMPUTE_STATE_UNSPECIFIED None DELETION_STATE_UNSPECIFIED
    None 0 EmptyString 0 None None None None.
End Messages.

(** ** Stored metadata (session/metadata.go) *)

(** [proto.Size(m) == 0]: every field has its zero value. *)
Definition originEmpty (m : PbOrigin) : bool := bool_decide (m = mkPbOrigin EmptyString EmptyString EmptyString ∅).
Definition identityEmpty (m : PbIdentityRef) : bool := bool_decide (m = mkPbIdentityRef EmptyString EmptyString EmptyString).

(** [encodeMessage(m)]. *)
Definition encodeMessage {A} (empty : A -> bool) (marshal : A -> res string) (m : option A) : res string :=
  match m with
  | None => Ok EmptyString
  | Some m =>
      if empty m then Ok EmptyString
      else match marshal m with Ok b => Ok b | Err err => Err (EWrap "encode" err) end
  end.

(** [decodeMessage(stored, into)]: [zero] is the message it is given. *)
Definition decodeMessage {A} (zero : A) (unmarshal : string -> res A) (stored : string) : res A :=
  if bool_decide (stored = EmptyString) then Ok zero
  else match unmarshal stored with Ok m => Ok m | Err err => Err (EWrap "decode" err) end.

(** [encodeMap(m)]; [json.Marshal] of a string map does not fail. *)
Definition encodeMap (m : option (gmap string string)) : res string :=
  match m with
  | None => Ok EmptyString
  | Some m => if bool_decide (m = ∅) then Ok EmptyString else Ok (stringOf (marshalMap m))
  end.

(** [decodeMap(stored)]. *)
Definition decodeMap (stored : string) : res (option (gmap string string)) :=
  if bool_decide (stored = EmptyString) then Ok None
  else match unmarshalMap (bytesOf stored) with Some m => Ok m | None => Err (EText "decode map") end.

Section Service.
Context `{Host} `{Encoding} `{Timestamppb} `{!ProtoCodec} `{Driver} `{PlacementHost} `{ProtoJson} `{ServiceHost}.

(** [metadataFromSpec(spec)]: labels, annotations, origin, identity. *)
Definition metadataFromSpec (spec : PbSession) : res (string * string * string * string) :=
  match encodeMap (ss_Labels spec) with
  | Err err => Err err
  | Ok labels =>
      match encodeMap (ss_Annotations spec) with
      | Err err => Err err
      | Ok annotations =>
          match encodeMessage originEmpty json_MarshalOrigin (ss_Origin spec) with
          | Err err => Err err
          | Ok origin =>
              match encodeMessage identityEmpty json_MarshalIdentity (ss_Identity spec) with
              | Err err => Err err
              | Ok identity => Ok (labels, annotations, origin, identity)
              end
          end
      end
  end.

(** [applyMetadata(out, info)]. *)
Definition applyMetadata (out : PbSession) (info : SessionInfo) : res PbSession :=
  let meta := si_Meta info in
  match decodeMap (Labels meta) with
  | Err err => Err err
  | Ok labels =>
      match decodeMap (Annotations meta) with
      | Err err => Err err
      | Ok annotations =>
          match (if bool_decide (Origin meta = EmptyString) then Ok (ss_Origin out)
                 else match decodeMessage (mkPbOrigin EmptyString EmptyString EmptyString ∅) json_UnmarshalOrigin (Origin meta) with
                      | Ok m => Ok (Some m) | Err err => Err err end) with
          | Err err => Err err
          | Ok origin =>
              match (if bool_decide (Identity meta = EmptyString) then Ok (ss_Identity out)
                     else match decodeMessage (mkPbIdentityRef EmptyString EmptyString EmptyString) json_UnmarshalIdentity (Identity meta) with
                          | Ok m => Ok (Some m) | Err err => Err err end) with
              | Err err => Err err
              | Ok identity =>
                  Ok (mkPbSession (ss_Metadata out) (ss_Harness out) (ss_Model out) (ss_ExecState out) (ss_ComputeState out)
                        (ss_PendingApproval out) (ss_DeletionState out) (ss_DeletionRequestedTime out) (ss_LastSeq out)
                        (ss_ParentUid out) (ss_ForkSeq out) identity origin labels annotations)
              end
          end
      end
  end.

(** [execStateOf(info)]. *)
Definition execStateOf (info : SessionInfo) : PbExecState :=
  if 0 <? ref_RequestSeq (PendingApproval info) then EXEC_AWAITING
  else
    let head := if 0 <? DeletionSeq info then DeletionSeq info - 1 else LastSeq info in
    if head =? 0 then EXEC_PENDING else EXEC_COMPLETED.

(** The approval a response carries. *)
Definition pendingProto (info : SessionInfo) : option PbApprovalRef :=
  let ref := PendingApproval info in
  if (0 <? ref_RequestSeq ref) && bool_decide (si_DeletionState info = DeletionActive)
  then Some (mkPbApprovalRef (ref_ExecutionID ref) (ref_ToolCallID ref) (ref_RequestSeq ref)) else None.

(** [sessionProto(info)]. *)
Definition sessionProto (info : SessionInfo) : res PbSession :=
  let meta := si_Meta info in
  let md := mkResourceMetadata (Project meta) (Name meta) (UID meta) (ts_New <$> CreatedAt meta) (ts_New <$> UpdatedAt meta) in
  let out := mkPbSession (Some md) (sm_Harness meta) (sm_Model meta) (execStateOf info)
    (ComputeStateToProto (si_ComputeState info)) (pendingProto info) (DeletionStateToProto (si_DeletionState info))
    (ts_New <$> DeletionRequestedAt info) (LastSeq info) (ParentUID meta) (ForkSeq meta) None None None None in
  match applyMetadata out info with
  | Ok out => Ok out
  | Err _ => Err (EStatus codes_Internal)
  end.

(** ** State *)

(** What the handlers share: the database and the placers of one registry, and the registry itself. *)
Record ServiceState := mkServiceState { sv_place : PState DB; sv_registry : Registry; sv_heap : Heap }.

Definition onPlace {A} (m : M (PState DB) goerr A) : M ServiceState goerr A := fun s =>
  let '(p, r) := m (sv_place s) in (mkServiceState p (sv_registry s) (sv_heap s), r).
Definition onDB {A} (m : M DB goerr A) : M ServiceState goerr A := onPlace (onStore m).
(** A computation on the placers that reads the registry. *)
Definition routed_ {A} (f : Registry -> Heap -> M (PState DB) goerr A) : M ServiceState goerr A := fun s =>
  onPlace (f (sv_registry s) (sv_heap s)) s.
(** [x, err := m; if err != nil { return f(err) }]. *)
Definition orErr {S A} (f : goerr -> goerr) (m : M S goerr A) : M S goerr A := fun s =>
  let '(s', r) := m s in (s', match r with Ok a => Ok a | Err e => Err (f e) end).

(** The service's configuration: the project of the store and of the service, and the hook a test may
    run in the window of [resolvePlacer]. *)
Variables (storeProject defaultProject : string) (afterPinCheck : option (ServiceState -> ServiceState)).

#[local] Abbreviation Session uid := (SqlLog_Store storeProject uid).

(** [newUID()]. *)
Definition newUID : M ServiceState goerr string :=
  let! t := onPlace tickP in mret ("sess-" +:+ hexEncode (rand12 t))%string.

(** ** Create, get, list *)

Definition setMetaDefaults (project harness : string) (m : SessionMeta) : SessionMeta :=
  mkSessionMeta (UID m) project (Name m) harness (sm_Model m) (ParentUID m) (ForkSeq m) (CreatedAt m) (UpdatedAt m)
    (Labels m) (Annotations m) (Origin m) (Identity m).

(** How [createSession] reports a refused insert. *)
Definition createError (err : goerr) : goerr :=
  EStatus (if errors_Is err ErrHarnessRetired then codes_FailedPrecondition
           else if errors_Is err ErrHarnessNameCollision then codes_FailedPrecondition
           else codes_Internal).

(** [createSession(uid, meta)]. *)
Definition createSession (uid : string) (meta : SessionMeta) : M ServiceState goerr PbSession :=
  let project := if bool_decide (Project meta = EmptyString) then defaultProject else Project meta in
  let! r := gets sv_registry in
  let! harness := (if bool_decide (sm_Harness meta = EmptyString) then mret (Default r)
                   else orErr harnessError (do! lift (For r (sm_Harness meta)) in mret (sm_Harness meta))) in
  let meta := setMetaDefaults project harness meta in
  do! orErr createError (onDB (PutSessionOnActiveHarness storeProject meta (negb (Static r (sm_Harness meta))))) in
  let! info := orErr (fun _ => EStatus codes_Internal) (onDB (SessionInfo_ uid)) in
  lift (sessionProto info).

(** [CreateSession(ctx, req)]. *)
Definition CreateSession (spec : option PbSession) : M ServiceState goerr PbSession :=
  let! uid := newUID in
  let spec := default zeroSession spec in
  match metadataFromSpec spec with
  | Err _ => throw (EStatus codes_InvalidArgument)
  | Ok (labels, annotations, origin, identity) =>
      let md := default zeroMetadata (ss_Metadata spec) in
      createSession uid (mkSessionMeta uid (md_Project md) (md_Name md) (ss_Harness spec) (ss_Model spec) EmptyString 0
        None None labels annotations origin identity)
  end.

(** [GetSession(ctx, req)]. *)
Definition GetSession (uid : string) : M ServiceState goerr PbSession :=
  if bool_decide (uid = EmptyString) then throw (EStatus codes_InvalidArgument)
  else
    let! info := orErr sessionStoreError (onDB (SessionInfo_ uid)) in
    lift (sessionProto info).

(** The conversion loop of [ListSessions]. *)
Fixpoint sessionProtos (infos : list SessionInfo) : res (list PbSession) :=
  match infos with
  | [] => Ok []
  | info :: infos' =>
      match sessionProto info with
      | Err err => Err err
      | Ok sess => match sessionProtos infos' with Ok out => Ok (sess :: out) | Err err => Err err end
      end
  end.

(** [ListSessions(ctx, req)]: the sessions of the page and the token of the next. *)
Definition service_ListSessions (project : string) (pageSize : Z) (pageToken : string)
    : M ServiceState goerr (list PbSession * string) :=
  let project := if bool_decide (project = EmptyString) then defaultProject else project in
  let! page := orErr (fun err => EStatus (if errors_Is err ErrInvalidPageToken then codes_InvalidArgument else codes_Internal))
    (onDB (ListSessions storeProject (mkListOptions project pageSize pageToken))) in
  let! out := lift (sessionProtos (Sessions page)) in
  mret (out, NextPageToken page).
End Service.
