(* ===== verification/ServiceOps.v ===== *)
(** * The Sessions service: routing, suspend, resume, approve, delete (session/service.go, approval.go, delete.go)

    Which harness a call runs on, and the handlers that change an existing session. The routing rules
    are computations on the placers' state that read one snapshot of the registry; [resolvePlacer]
    reads it again after the window its hook opens. The second part is the streaming handlers. *)
From S2P Require Import Prelude GoErrors Api Canon EventLog Executions Approvals Harness Wire Sinks Controller SessionGuard Placement Registry Tables Projection SqlLog SqlSessions SqlHarnesses GoJson Status Service.
#[local] Open Scope Z_scope.

(** [deletedSessionError(info)]. *)
Definition sessionDeleted : goerr := withStatusCause codes_FailedPrecondition (EWrap "session" (ESentinel ErrDeleted)).
Definition deletedSessionError (info : SessionInfo) : option goerr :=
  if bool_decide (si_DeletionState info = DeletionActive) then None else Some sessionDeleted.

(** A callback's error that the caller recognizes by pointer, [err == refused]: its own tag stands for
    the pointer. *)
Definition refusalTag : string := "refused by the routing check".
Definition mapRefusal (f : goerr -> goerr) (err : goerr) : goerr :=
  match err with
  | EWrap tag e => if bool_decide (tag = refusalTag) then e else f err
  | _ => f err
  end.

Section Routing.
Context `{Host} `{Encoding} `{Timestamppb} `{!ProtoCodec} `{Driver} `{PlacementHost} `{ProtoJson} `{ServiceHost}.

#[local] Abbreviation P := (PState DB).

(** ** Rules on one snapshot of the registry *)
Section Rules.
Variables (r : Registry) (h : Heap).

Definition storedHarness (info : SessionInfo) : string :=
  if bool_decide (sm_Harness (si_Meta info) = EmptyString) then Default r else sm_Harness (si_Meta info).

(** Whether a name has a registration row. *)
Definition rowExists (name : string) : M P goerr bool :=
  let! row := try (onStore (Harness_ name)) in
  match row with
  | Ok _ => mret true
  | Err err => if errors_Is err ErrHarnessNotFound then mret false else throw (EStatus codes_Internal)
  end.

(** [checkStatic(name)]. *)
Definition checkStatic (name : string) : M P goerr unit :=
  if negb (Static r name) then mret tt
  else
    let! exists_ := rowExists name in
    if exists_ : bool then throw (EStatus codes_FailedPrecondition) else mret tt.

(** [isRegistered(name)]. *)
Definition isRegistered (name : string) : M P goerr bool :=
  if Static r name then mret false
  else if Has r name then mret true
  else rowExists name.

(** Whether one of two names is registered. *)
Definition eitherRegistered (a b : string) : M P goerr bool :=
  let! pinned := isRegistered a in
  if pinned : bool then mret true else isRegistered b.

(** The [describe] closure of [checkMemoryOverride]. *)
Definition describeNamed (name : string) : M P goerr Descriptor :=
  let! p := orErr harnessError (lift (placerAt r h name)) in
  let! t := called CallDescribe in
  match b_Describe (p_backend p) t with
  | Ok desc => mret desc
  | Err _ =>
      let! t := tickP in
      throw (match ctxErr t with Some c => FromContextError c | None => EStatus codes_Unavailable end)
  end.

(** [checkMemoryOverride(ctx, uid, stored, override)]. *)
Definition checkMemoryOverride (stored override : string) : M P goerr unit :=
  if negb (Has r stored) then mret tt
  else
    let! p := orErr harnessError (lift (placerAt r h stored)) in
    if negb (MemorySnapshot (b_Capabilities (p_backend p))) then mret tt
    else
      let! desc := describeNamed stored in
      if negb (bool_decide (cap_Resumability (desc_Capabilities desc) = ResumabilityRequiresMemorySnapshot)) then mret tt
      else
        let! desc := describeNamed override in
        if bool_decide (cap_Resumability (desc_Capabilities desc) = ResumabilityStatelessReplay)
        then throw (EStatus codes_FailedPrecondition) else mret tt.

(** [checkResumedHarness(uid, stored, name)]. *)
Definition checkResumedHarness (stored name : string) : M P goerr unit :=
  do! checkStatic name in
  if bool_decide (name = stored) then mret tt
  else
    let! pinned := eitherRegistered stored name in
    if pinned : bool then throw (EStatus codes_FailedPrecondition) else mret tt.

(** The check [Resume] gives the registry, and the one [Suspend] gives it. *)
Definition resumeCheck (stored name : string) : M P goerr unit :=
  do! checkResumedHarness stored name in
  if bool_decide (name = stored) then mret tt else checkMemoryOverride stored name.
End Rules.

(** A check whose refusal is recognized. *)
Definition refusing (check : string -> M P goerr unit) (name : string) : M P goerr unit :=
  orErr (EWrap refusalTag) (check name).

Variables (storeProject : string) (afterPinCheck : option (ServiceState -> ServiceState)).

(** [Registry.WithSessionRead] and [Registry.WithSessionGuard] around a callback of the service. *)
Definition setPlace (p : P) (s : ServiceState) : ServiceState := mkServiceState p (sv_registry s) (sv_heap s).
Definition guarded {A} (kind : guardKind) (uid : string) (operation : M ServiceState goerr A) : M ServiceState goerr A := fun s =>
  let '(g, r) := acquire uid kind (ps_guard (sv_place s)) in
  let s := setPlace (setGuardP g (sv_place s)) s in
  match r with
  | Err e => (s, Err e)
  | Ok hd =>
      let '(s', r) := operation s in
      (setPlace (setGuardP (releaseHold hd (ps_guard (sv_place s'))) (sv_place s')) s', r)
  end.
Definition sessionRead {A} (uid : string) (read : M ServiceState goerr A) : M ServiceState goerr A := guarded guardRead uid read.

(** ** Routing a turn *)

(** The part of [resolvePlacer] before the window: the harness the session runs on, and whether the
    override is another one that passed the pin check. *)
Definition resolvePinned (r : Registry) (uid override : string) : M P goerr (string * bool) :=
  let! found := try (onStore (SessionInfo_ uid)) in
  match found with
  | Err err =>
      if negb (bool_decide (override = EmptyString)) && errors_Is err ErrSessionNotFound
      then match For r override with
           | Err rerr => throw (harnessError rerr)
           | Ok _ => throw (sessionStoreError err)
           end
      else throw (sessionStoreError err)
  | Ok info =>
      do! check (deletedSessionError info) in
      let harness := storedHarness r info in
      do! checkStatic r harness in
      if negb (bool_decide (override = EmptyString)) && negb (bool_decide (override = harness))
      then
        let! pinned := eitherRegistered r harness override in
        if pinned : bool then throw (EStatus codes_FailedPrecondition) else mret (harness, true)
      else mret (harness, false)
  end.

(** The part after it. *)
Definition resolveOverride (r : Registry) (h : Heap) (harness override : string) : M P goerr string :=
  do! orErr harnessError (do! lift (For r override) in mret tt) in
  if negb (Static r override) then throw (EStatus codes_FailedPrecondition)
  else
    do! checkStatic r override in
    do! checkMemoryOverride r h harness override in
    mret override.

(** [resolvePlacer(ctx, uid, override)]. *)
Definition resolvePlacer (uid override : string) : M ServiceState goerr (Placer * string) :=
  let! hw := routed_ (fun r _ => resolvePinned r uid override) in
  let '(harness, other) := hw in
  let! harness := (if (other : bool)
    then
      do! modify (default (fun s => s) afterPinCheck) in
      routed_ (fun r h => resolveOverride r h harness override)
    else mret harness) in
  let! p := routed_ (fun r h => orErr harnessError (lift (placerAt r h harness))) in
  mret (p, harness).

(** [placerFor(ctx, uid, override, read)]. *)
Definition placerFor {A} (uid override : string) (read : M ServiceState goerr A) : M ServiceState goerr (Placer * string * A) :=
  if bool_decide (uid = EmptyString) then throw (EStatus codes_InvalidArgument)
  else
    orErr busyError (sessionRead uid
      (let! ph := resolvePlacer uid override in
       let! a := read in
       mret (ph, a))).

(** [mutationRead] around the read of [mutationSessionInfo(uid)]. *)
Definition mutationSessionInfo (uid : string) : M ServiceState goerr SessionInfo :=
  orErr busyError (sessionRead uid (onDB (SessionInfo_ uid))).

(** The admission [Suspend] and [Resume] share: the session, there and not deleted. *)
Definition admitMutation (uid : string) : M ServiceState goerr SessionInfo :=
  if bool_decide (uid = EmptyString) then throw (EStatus codes_InvalidArgument)
  else
    let! info := orErr (fun err => if errors_Is err ErrSessionBusy then withStatusCause codes_Aborted err else sessionStoreError err)
      (mutationSessionInfo uid) in
    do! check (deletedSessionError info) in
    mret info.

(** The response: the session as it is now. *)
Definition currentSession (uid : string) : M ServiceState goerr PbSession :=
  let! info := orErr sessionStoreError (onDB (SessionInfo_ uid)) in
  lift (sessionProto info).

(** ** Handlers *)

(** [Suspend(ctx, req)]. *)
Definition service_Suspend (uid : string) : M ServiceState goerr PbSession :=
  let! info := admitMutation uid in
  do! orErr (mapRefusal suspendError) (routed_ (fun r h =>
        registry_Suspend (H2 := SqlLog_Store storeProject uid) r h
          (mkRegistryResumeConfig (Some (refusing (checkResumedHarness r (storedHarness r info)))) false false None)
          uid (sm_Harness (si_Meta info)))) in
  currentSession uid.

(** A park is an answer, not a failure. *)
Definition unlessParked (m : M ServiceState goerr unit) : M ServiceState goerr bool := fun s =>
  let '(s', r) := m s in
  (s', match r with
       | Ok _ => Ok false
       | Err e => if parkOf e is Some _ then Ok true else Err e
       end).

(** [Resume(ctx, req)]. *)
Definition service_Resume (uid : string) (expectedLastSeq : option Z) : M ServiceState goerr PbSession :=
  let! info := admitMutation uid in
  let! _ := orErr (mapRefusal resumeError) (unlessParked (routed_ (fun r h =>
    registry_Resume (H2 := SqlLog_Store storeProject uid) r h
      (mkRegistryResumeConfig (Some (refusing (resumeCheck r h (storedHarness r info)))) false false expectedLastSeq)
      uid (sm_Harness (si_Meta info))))) in
  currentSession uid.

(** [v1.ApproveRequest]. *)
Record ApproveRequest := mkApproveRequest {
  ar_Session : string; ar_ExecutionId : string; ar_ToolCallId : string; ar_RequestSeq : Z;
  ar_Approved : option bool; ar_Reason : string; ar_Identity : option PbIdentityRef;
}.

(** The recorded identity: [EventFromProto(&v1.Event{Actor: identity}).Actor]. *)
Definition actorOf (identity : option PbIdentityRef) : IdentityRef :=
  Actor (EventFromProto (Some (mkPbEvent EmptyString None 0 EVENT_KIND_UNSPECIFIED None identity))).

(** [Approve(ctx, req)]: the session and the committed decision. *)
Definition service_Approve (req : ApproveRequest) : M ServiceState goerr (PbSession * PbLogRecord) :=
  let uid := ar_Session req in
  match ar_Approved req with
  | Some approved =>
      if bool_decide (uid = EmptyString) || bool_decide (ar_ExecutionId req = EmptyString)
         || bool_decide (ar_ToolCallId req = EmptyString) || (ar_RequestSeq req <=? 0)
      then throw (EStatus codes_InvalidArgument)
      else
        do! orErr (fun err => if errors_Is err ErrSessionBusy then approvalError err else err)
          (sessionRead uid
            (let! info := orErr sessionStoreError (onDB (SessionInfo_ uid)) in
             check (deletedSessionError info))) in
        let! at_ := onDB now in
        let! decision := orErr approvalError (onPlace (registry_Approve (H2 := SqlLog_Store storeProject uid) at_ uid
          (mkApprovalDecision (ar_ExecutionId req) (ar_ToolCallId req) (ar_RequestSeq req) approved (ar_Reason req)
             (actorOf (ar_Identity req))))) in
        let! sess := currentSession uid in
        mret (sess, RecordToProto decision)
  | None => throw (EStatus codes_InvalidArgument)
  end.

(** [DeleteSession(ctx, req)]; [deleteCtx] is what [ctx.Err()] answers. *)
Definition service_DeleteSession (deleteCtx : nat -> option Sentinel) (uid : string) : M ServiceState goerr PbSession :=
  if bool_decide (uid = EmptyString) then throw (EStatus codes_InvalidArgument)
  else
    let! info := orErr deleteError (guarded guardDelete uid (onDB (DeleteSession deleteCtx uid))) in
    lift (sessionProto info).
End Routing.

(** * The Sessions service: Exec and Replay streams (session/service.go)

    A streaming handler also writes to its stream: the frames it sent, and the number of [Send] calls,
    each of which may fail. The observer's frames are the updates the controller reported during the
    call, relayed in their order; a failed send does not stop the turn, and ends the relay. *)

(** ** Streams *)

Record Stream (F : Type) := mkStream { sent : list F; sends : nat }.
Arguments mkStream {F}. Arguments sent {F}. Arguments sends {F}.

Section Streams.
Context `{Host} `{Timestamppb}.

(** [v1.ExecUpdate]. *)
Inductive ExecFrame := FrameRecord (r : PbLogRecord) | FrameDelta (d : PbDelta) | FrameSession (s : PbSession).

(** [v1.ExecRequest]. *)
Record ExecRequest := mkExecRequest {
  er_Session : string;
  er_Inputs : list (option PbMessage);
  er_ResumeFromSeq : Z;
  er_Harness : string;
  er_Config : bytes;
  er_ExpectedLastSeq : option Z;
}.

(** What an observer callback sends. *)
Definition updateFrame (u : Update) : ExecFrame :=
  match u with
  | OnRecord rec => FrameRecord (RecordToProto rec)
  | OnDelta d => FrameDelta (DeltaToProto d)
  end.
End Streams.

Section Exec.
Context `{Host} `{Encoding} `{Timestamppb} `{!ProtoCodec} `{Driver} `{PlacementHost} `{ProtoJson} `{ServiceHost}.
Variables (storeProject defaultProject : string) (afterPinCheck : option (ServiceState -> ServiceState)).
(** The error the [n]th [Send] of the stream returns. *)
Variable sendFault : nat -> option goerr.

#[local] Abbreviation P := (PState DB).

Definition onService {F A} (m : M ServiceState goerr A) : M (ServiceState * Stream F) goerr A := fun s =>
  let '(sv, r) := m (fst s) in ((sv, snd s), r).

(** [stream.Send(frame)]. *)
Definition sendOn {F} (f : F) (st : Stream F) : Stream F * option goerr :=
  match sendFault (sends st) with
  | Some err => (mkStream (sent st) (S (sends st)), Some err)
  | None => (mkStream (sent st ++ [f]) (S (sends st)), None)
  end.
Definition Send {F} (f : F) : M (ServiceState * Stream F) goerr unit := fun s =>
  let '(st, r) := sendOn f (snd s) in ((fst s, st), match r with Some err => Err err | None => Ok tt end).

(** Both callbacks of the observer over one call's updates: what was sent, [recordsSent], [sendErr]. *)
Fixpoint relay (us : list Update) (recordsSent : nat) (st : Stream ExecFrame) : Stream ExecFrame * (nat * option goerr) :=
  match us with
  | [] => (st, (recordsSent, None))
  | u :: us' =>
      let '(st, r) := sendOn (updateFrame u) st in
      match r with
      | Some err => (st, (recordsSent, Some err))
      | None => relay us' (if u is OnRecord _ then S recordsSent else recordsSent) st
      end
  end.

(** The updates of an operation, and the error it returned; it does not abort the handler. *)
Definition observed (m : M ServiceState goerr unit) : M (ServiceState * Stream ExecFrame) goerr (option goerr * nat) := fun s =>
  let before := length (w_updates (ps_world (sv_place (fst s)))) in
  let '(sv, r) := m (fst s) in
  let '(st, (recordsSent, sendErr)) := relay (drop before (w_updates (ps_world (sv_place sv)))) 0 (snd s) in
  ((sv, st), match sendErr with
             | Some err => Err err
             | None => Ok (match r with Ok _ => None | Err err => Some err end, recordsSent)
             end).

(** The loop that streams records the observer never saw. *)
Fixpoint sendRecords (recs : list Record_) : M (ServiceState * Stream ExecFrame) goerr unit :=
  match recs with
  | [] => mret tt
  | r :: recs' => do! Send (FrameRecord (RecordToProto r)) in sendRecords recs'
  end.

(** ** Exec *)

(** What the read phase of [Exec] resolves: the interrupted approval to recover, or the placer and the
    harness of a new turn. *)
Inductive ExecRoute := RouteRecover (info : SessionInfo) | RouteTurn (p : Placer) (harness : string).

(** Whether an existing session's approval is recovered instead of a turn run. *)
Definition approvalRoute (uid : string) (inputs : list (option PbMessage)) : M ServiceState goerr (option SessionInfo) :=
  let! found := try (onDB (SessionInfo_ uid)) in
  match found with
  | Ok info =>
      do! check (deletedSessionError info) in
      let! state := orErr execError (onDB (InspectApproval (H := SqlLog_Store storeProject uid) 0)) in
      match state with
      | Some st =>
          if as_Completed st then mret None
          else match inputs with
          | [] => mret (Some info)
          | _ :: _ =>
              if negb (as_Inherited st) && isNil (as_Receipt st) then throw (execError (ESentinel ErrApprovalBlocked))
              else mret None
          end
      | None => mret None
      end
  | Err err => if errors_Is err ErrSessionNotFound then mret None else throw (sessionStoreError err)
  end.

(** The guarded phase: the route, the head before the turn, and the session to announce. *)
Definition execRead (req : ExecRequest) (uid : string) (sess : option PbSession)
    : M ServiceState goerr (ExecRoute * Z * PbSession) :=
  orErr busyError (sessionRead uid
    (let! recovery := match sess with
       | Some _ => mret None
       | None => approvalRoute uid (er_Inputs req)
       end in
     let! route := match recovery with
       | Some info => mret (RouteRecover info)
       | None =>
           let! ph := resolvePlacer afterPinCheck uid (er_Harness req) in mret (RouteTurn (fst ph) (snd ph))
       end in
     let! head := orErr (fun _ => EStatus codes_Internal) (onDB (st_Head (Store := SqlLog_Store storeProject uid))) in
     let! sess := match sess with Some sess => mret sess | None => currentSession uid end in
     mret (route, head, sess))).

(** The check a recovery gives the registry: the context, the caller's cursor, the routing rules. *)
Definition recoveryCheck (r : Registry) (h : Heap) (uid stored : string) (expected : option Z) (name : string)
    : M P goerr unit :=
  let! t := tickP in
  do! match ctxErr t with
      | Some c => throw (FromContextError c)
      | None =>
          match expected with
          | None => mret tt
          | Some e =>
              let! head := orErr (fun _ => EStatus codes_Internal) (onStore (st_Head (Store := SqlLog_Store storeProject uid))) in
              if negb (head =? e) then throw (EStatus codes_Aborted) else mret tt
          end
      end in
  resumeCheck r h stored name.

(** The turn, or the recovery. *)
Definition execOperation (req : ExecRequest) (uid : string) (route : ExecRoute) (expected : Z) : M ServiceState goerr unit :=
  match route with
  | RouteRecover info => routed_ (fun r h =>
      registry_Resume (H2 := SqlLog_Store storeProject uid) r h
        (mkRegistryResumeConfig
          (Some (refusing (recoveryCheck r h uid (storedHarness r info) (er_ExpectedLastSeq req)))) true true None)
        uid (sm_Harness (si_Meta info)))
  | RouteTurn p harness => onPlace (fun s =>
      let '(s', r) := placer_Exec (H2 := SqlLog_Store storeProject uid) p
        (mkExecConfig harness true true (er_Config req) (er_ResumeFromSeq req)) uid
        (omap MessageFromProto (er_Inputs req)) expected s in
      (s', match r with Ok _ => Ok tt | Err (_, err) => Err err end))
  end.

(** How the outcome of the operation is reported: whether it parked. *)
Definition execOutcome (route : ExecRoute) (operationErr : option goerr) : res bool :=
  match operationErr with
  | None => Ok false
  | Some err =>
      if parkOf err is Some _ then Ok true
      else Err (match route with
                | RouteRecover _ => mapRefusal resumeError err
                | RouteTurn _ _ => execError err
                end)
  end.

Definition isRecovery (route : ExecRoute) : bool := if route is RouteRecover _ then true else false.

(** [Exec(req, stream)]. *)
Definition service_Exec (req : ExecRequest) : M (ServiceState * Stream ExecFrame) goerr unit :=
  let! us := onService (if bool_decide (er_Session req = EmptyString)
    then
      let! uid := newUID in
      let! created := createSession storeProject defaultProject uid
        (mkSessionMeta uid EmptyString EmptyString (er_Harness req) EmptyString EmptyString 0 None None
           EmptyString EmptyString EmptyString EmptyString) in
      mret (uid, Some created)
    else mret (er_Session req, None)) in
  let '(uid, sess) := (us : string * option PbSession) in
  let! rhs := onService (execRead req uid sess) in
  let '(route, headBefore, sess) := rhs in
  let expected := default headBefore (er_ExpectedLastSeq req) in
  do! Send (FrameSession sess) in
  let! out := observed (execOperation req uid route expected) in
  let '(operationErr, recordsSent) := (out : option goerr * nat) in
  let! parked := lift (execOutcome route operationErr) in
  do! (if Nat.eqb recordsSent 0
       then
         let! recs := onService (orErr (fun _ => EStatus codes_Internal)
           (onDB (st_Read (Store := SqlLog_Store storeProject uid) (headBefore + 1)))) in
         sendRecords recs
       else mret tt) in
  if isRecovery route || (parked : bool)
  then
    let! current := onService (currentSession uid) in
    Send (FrameSession current)
  else mret tt.

(** ** Replay *)

(** The loop of [Replay]: to the last record asked for. *)
Fixpoint replayLoop (to_ : Z) (recs : list Record_) : M (ServiceState * Stream PbLogRecord) goerr unit :=
  match recs with
  | [] => mret tt
  | r :: recs' =>
      if negb (to_ =? 0) && (to_ <? Seq r) then mret tt
      else do! Send (RecordToProto r) in replayLoop to_ recs'
  end.

(** [Replay(req, stream)]. *)
Definition service_Replay (uid : string) (fromSeq toSeq : Z) : M (ServiceState * Stream PbLogRecord) goerr unit :=
  let from := if fromSeq <=? 0 then 1 else fromSeq in
  let! recs := onService (orErr (fun _ => EStatus codes_Internal)
    (onDB (st_Read (Store := SqlLog_Store storeProject uid) from))) in
  replayLoop toSeq recs.
End Exec.
