(* ===== verification/ServiceFacts.v ===== *)
(** * Facts about the service's building blocks (lemmas)

    What the reads of the routing phase leave alone and what their answers say, and that the database
    is a journal to the observer's theorems. *)
From S2P Require Import Prelude GoErrors Api Canon EventLog Executions Approvals Harness Wire Sinks Controller SessionGuard Placement Registry Relay Tables Projection SqlLog SqlExample SqlStore SqlSessions SqlHarnesses SqlSystem GoJson Status Service ServiceOps.
#[local] Open Scope Z_scope.

(** ** Looking

    A computation of the placers that only reads the database and describes harnesses. *)

Record looks (s s' : PState DB) : Prop := {
  lk_saved : saved (w_log (ps_world s')) = saved (w_log (ps_world s));
  lk_tables : tables (w_log (ps_world s')) = tables (w_log (ps_world s));
  lk_updates : w_updates (ps_world s') = w_updates (ps_world s);
  lk_invoked : liveModelCalls (ps_world s') = liveModelCalls (ps_world s) /\ liveToolCalls (ps_world s') = liveToolCalls (ps_world s);
  lk_guard : ps_guard s' = ps_guard s;
  lk_conns : ps_conns s' = ps_conns s /\ ps_next s' = ps_next s /\ ps_live s' = ps_live s /\ ps_checkpoints s' = ps_checkpoints s;
  lk_calls : exists n, ps_calls s' = ps_calls s ++ replicate n CallDescribe;
}.

#[export] Instance looks_preorder : PreOrder looks.
Proof.
  split.
  - intros s. constructor; try done. exists 0%nat. by rewrite app_nil_r.
  - intros s1 s2 s3 [] []. constructor; try congruence.
    + destruct lk_invoked0, lk_invoked1. split; congruence.
    + destruct lk_conns0 as (?&?&?&?), lk_conns1 as (?&?&?&?). split_and!; congruence.
    + destruct lk_calls0 as [n Hn], lk_calls1 as [k Hk]. exists (n + k)%nat.
      by rewrite Hk, Hn, <- app_assoc, replicate_add.
Qed.

Definition looking {A} (m : M (PState DB) goerr A) : Prop := forall s s' r, m s = (s', r) -> looks s s'.
Definition reading {A} (m : M DB goerr A) : Prop := forall d d' r, m d = (d', r) -> saved d' = saved d /\ tables d' = tables d.

Lemma looking_bind {A B} (m : M (PState DB) goerr A) (f : A -> M (PState DB) goerr B) :
  looking m -> (forall a, looking (f a)) -> looking (m ≫= f).
Proof.
  intros Hm Hf s s' r (s1 & r1 & H1 & Hr)%bind_inv. transitivity s1; [by eapply Hm|].
  destruct r1; [by eapply Hf|by destruct Hr as [-> _]].
Qed.
Lemma looking_ret {A} (a : A) : looking (mret a).
Proof. by intros s s' r [= <- <-]. Qed.
Lemma looking_throw {A} e : looking (A := A) (throw e).
Proof. by intros s s' r [= <- <-]. Qed.
Lemma looking_lift {A} (x : res A) : looking (lift x).
Proof. by intros s s' r [= <- <-]. Qed.
Lemma looking_check x : looking (check x).
Proof. destruct x; by intros s s' r [= <- <-]. Qed.
Lemma looking_orErr {A} f (m : M (PState DB) goerr A) : looking m -> looking (orErr f m).
Proof. intros Hm s s' r. unfold orErr. destruct (m s) as [s1 x] eqn:E. intros [= <- <-]. by eapply Hm. Qed.
Lemma looking_try {A} (m : M (PState DB) goerr A) : looking m -> looking (try m).
Proof. intros Hm s s' r. unfold try. destruct (m s) as [s1 x] eqn:E. intros [= <- <-]. by eapply Hm. Qed.
Lemma looking_onStore {A} (m : M DB goerr A) : reading m -> looking (onStore m).
Proof.
  intros Hm s s' r. unfold onStore, onWorldP, onLog. destruct (m _) as [d x] eqn:E. intros [= <- <-].
  apply Hm in E as [Hs Ht]. constructor; try done. exists 0%nat. by rewrite app_nil_r.
Qed.
Lemma looking_tickP : looking tickP.
Proof. intros s s' r [= <- <-]. constructor; try done. exists 0%nat. by rewrite app_nil_r. Qed.
Lemma looking_describe : looking (called CallDescribe).
Proof. intros s s' r [= <- <-]. constructor; try done. by exists 1%nat. Qed.

Lemma reading_bind {A B} (m : M DB goerr A) (f : A -> M DB goerr B) : reading m -> (forall a, reading (f a)) -> reading (m ≫= f).
Proof.
  intros Hm Hf d d' r (d1 & r1 & H1 & Hr)%bind_inv. destruct (Hm _ _ _ H1) as [Hs Ht].
  destruct r1; [destruct (Hf _ _ _ _ Hr); split; congruence|destruct Hr as [-> _]; done].
Qed.

Create HintDb looking.
#[export] Hint Resolve looking_ret looking_throw looking_lift looking_check looking_onStore looking_tickP
  looking_describe : looking.
Ltac looking := repeat first
  [ progress intros
  | solve [auto with looking]
  | match goal with
    | |- looking (_ ≫= _) => apply looking_bind
    | |- looking (orErr _ _) => apply looking_orErr
    | |- looking (try _) => apply looking_try
    end
  | match goal with |- looking (match ?x with _ => _ end) => destruct x end
  | match goal with |- looking (let '(_, _) := ?x in _) => destruct x end ].

Section Facts.
Context `{Host} `{Encoding} `{Timestamppb} `{!ProtoCodec} `{Driver} `{PlacementHost} `{ProtoJson} `{ServiceHost}.

(** ** The reads *)

Lemma SessionInfo_inv uid d d' r : SessionInfo_ uid d = (d', r) -> saved d' = saved d /\ tables d' = tables d /\
  match r with
  | Ok i => selectSession uid (tables d) = Some i
  | Err _ => faultFree -> selectSession uid (tables d) = None /\ r = Err (EWrap "session" (ESentinel ErrSessionNotFound))
  end.
Proof.
  unfold SessionInfo_. intros (d1 & r1 & (r0 & Hs & ->)%wrapErr_inv & Hr)%bind_inv.
  pose proof Hs as (Hs1 & Ht1 & Hr0)%select_inv. destruct r0 as [o|e].
  - destruct Hr0 as [[= ->]|[? [=]]].
    destruct (selectSession uid (tables d)) as [i|]; unfold mret, M_ret, throw in Hr; inv_ok; done.
  - destruct Hr as [-> ->]. split_and!; try done. intros Hfree.
    destruct (select_free Hfree (selectSession uid) d) as (d2 & E & _). congruence.
Qed.
Lemma reading_info uid : reading (SessionInfo_ uid).
Proof. intros d d' r (Hs & Ht & _)%SessionInfo_inv. done. Qed.
Lemma reading_harness name : reading (Harness_ name).
Proof.
  intros d d' r (d1 & r1 & (r0 & (Hs & Ht & _)%select_inv & ->)%wrapErr_inv & Hr)%bind_inv.
  destruct r0 as [[row|]|e]; [| |by destruct Hr as [-> _]]; by injection Hr as <- <-.
Qed.
Lemma reading_head project uid : reading (st_Head (Store := SqlLog_Store project uid)).
Proof. intros d d' r (Hs & Ht & _)%select_inv. done. Qed.
Lemma reading_read uid from : reading (sql_Read uid from).
Proof. intros d d' r (Hs & Ht & _)%sql_Read_inv. done. Qed.
Lemma reading_inspect project uid n : reading (InspectApproval (H := SqlLog_Store project uid) n).
Proof.
  unfold InspectApproval, scanApprovals. apply reading_bind; [|by intros a d d' r [= <- <-]].
  destruct (n <? 0); [by intros d d' r [= <- <-]|]. apply reading_bind; [apply reading_read|by intros a d d' r [= <- <-]].
Qed.
Lemma reading_writable project uid : reading (st_CheckWritable (Store := SqlLog_Store project uid)).
Proof. intros d d' r (Hs & Ht & _)%checkWritable_inv. done. Qed.
#[local] Hint Resolve reading_info reading_harness reading_head reading_read reading_inspect reading_writable : looking.

(** A computation of the world that reads the database. *)
Lemma looking_world {A} (m : M (World DB) goerr A) : (forall w w' r, m w = (w', r) -> exists d, w' =
    mkWorld d (w_tick w) (liveModelCalls w) (liveToolCalls w) (w_updates w) (w_asked w) /\ saved d = saved (w_log w) /\ tables d = tables (w_log w)) ->
  looking (onWorldP m).
Proof.
  intros Hm s s' r. unfold onWorldP. destruct (m _) as [w x] eqn:E. intros [= <- <-].
  apply Hm in E as (d & -> & Hs & Ht). constructor; try done. exists 0%nat. by rewrite app_nil_r.
Qed.
Lemma looking_invocation project uid : looking (onWorldP (ResumeInvocation (H1 := SqlLog_Store project uid))).
Proof.
  apply looking_world. intros w w' r Hr. unfold ResumeInvocation in Hr. apply bind_inv in Hr as (w1 & x & Hx & Hr).
  unfold onLog in Hx. destruct (st_Read 1 (w_log w)) as [d y] eqn:E. injection Hx as <- <-.
  pose proof (reading_read _ _ _ _ _ E) as [Hs Ht]. exists d. split; [|done].
  destruct y as [recs|e]; [|by destruct Hr]. clear -Hr. unfold lift, mbind, M_bind, mret, M_ret in Hr. repeat case_match; simplify_eq; done.
Qed.
Lemma looking_checkHead project uid e : looking (checkResumeHead (H2 := SqlLog_Store project uid) e).
Proof. unfold checkResumeHead. looking. Qed.

(** ** The rules *)

Variables (r : Registry) (h : Heap).
Abbreviation P := (PState DB).
Abbreviation tablesOf s := (tables (w_log (ps_world s))).

Lemma looking_rowExists name : looking (rowExists name).
Proof. unfold rowExists. looking. Qed.
#[local] Hint Resolve looking_rowExists : looking.
Lemma looking_checkStatic name : looking (checkStatic r name).
Proof. unfold checkStatic. looking. Qed.
Lemma looking_isRegistered name : looking (isRegistered r name).
Proof. unfold isRegistered. looking. Qed.
#[local] Hint Resolve looking_checkStatic looking_isRegistered : looking.
Lemma looking_either a b : looking (eitherRegistered r a b).
Proof. unfold eitherRegistered. looking. Qed.
Lemma looking_describeNamed name : looking (describeNamed r h name).
Proof. unfold describeNamed. looking. Qed.
#[local] Hint Resolve looking_either looking_describeNamed : looking.
Lemma looking_memory stored override : looking (checkMemoryOverride r h stored override).
Proof. unfold checkMemoryOverride. looking. Qed.
#[local] Hint Resolve looking_memory : looking.
Lemma looking_checkResumed stored name : looking (checkResumedHarness r stored name).
Proof. unfold checkResumedHarness. looking. Qed.
#[local] Hint Resolve looking_checkResumed : looking.
Lemma looking_resumeCheck stored name : looking (resumeCheck r h stored name).
Proof. unfold resumeCheck. looking. Qed.
Lemma looking_resolvePinned uid override : looking (resolvePinned r uid override).
Proof. unfold resolvePinned. looking. Qed.
Lemma looking_resolveOverride harness override : looking (resolveOverride r h harness override).
Proof. unfold resolveOverride. looking. Qed.
#[local] Hint Resolve looking_resumeCheck : looking.
Lemma looking_recoveryCheck project uid stored expected name : looking (recoveryCheck project r h uid stored expected name).
Proof. unfold recoveryCheck. looking. Qed.
Lemma looking_refusing check name : looking (check name) -> looking (refusing check name).
Proof. unfold refusing. looking. Qed.

(** *** What the rules answer *)

Context `{!DriverLaws}.

(** A name has a row. *)
Definition hasRow (t : Tables) (name : string) : bool := bool_decide (is_Some (t_harnesses t !! name)).

Lemma try_inv {S E A} (m : M S E A) s s' x : try m s = (s', x) -> exists y, m s = (s', y) /\ x = Ok y.
Proof. unfold try. destruct (m s) as [s1 y]. intros [= <- <-]. by exists y. Qed.
Lemma orErr_inv {S A} f (m : M S goerr A) s s' x : orErr f m s = (s', x) ->
  exists y, m s = (s', y) /\ x = match y with Ok a => Ok a | Err e => Err (f e) end.
Proof. unfold orErr. destruct (m s) as [s1 y]. intros [= <- <-]. by exists y. Qed.
Lemma onStore_inv {A} (m : M DB goerr A) s s' x : onStore m s = (s', x) ->
  exists d', m (w_log (ps_world s)) = (d', x) /\ w_log (ps_world s') = d'.
Proof. unfold onStore, onWorldP, onLog. destruct (m _) as [d' y]. intros [= <- <-]. by exists d'. Qed.

Lemma deleted_check {S} i (s s' : S) x : check (deletedSessionError i) s = (s', x) -> s' = s /\
  match x with
  | Ok _ => si_DeletionState i = DeletionActive
  | Err e => si_DeletionState i <> DeletionActive /\ e = sessionDeleted
  end.
Proof. unfold check, deletedSessionError. case_bool_decide; by intros [= <- <-]. Qed.

Lemma rowExists_Ok name s s' b : rowExists name s = (s', Ok b) -> b = hasRow (tablesOf s) name.
Proof.
  unfold rowExists. intros (s1 & r1 & (y & (d & Hd & _)%onStore_inv & ->)%try_inv & Hr)%bind_inv.
  apply harnessByName_inv in Hd as (_ & _ & Hy). unfold hasRow. destruct y as [rec|e].
  - destruct Hy as (row & -> & _). injection Hr as _ <-. by rewrite bool_decide_eq_true_2.
  - destruct (errors_Is e ErrHarnessNotFound); [|discriminate]. injection Hr as _ <-. by rewrite Hy.
Qed.

Lemma checkStatic_Ok name s s' : checkStatic r name s = (s', Ok tt) ->
  Static r name = true -> hasRow (tablesOf s) name = false.
Proof.
  unfold checkStatic. destruct (Static r name); [|done]. simpl. intros Hr _.
  apply bind_inv in Hr as (s1 & [b|e] & Hb & Hr); [|by destruct Hr]. apply rowExists_Ok in Hb as ->. by destruct (hasRow _ _).
Qed.

Definition registeredName (t : Tables) (name : string) : bool :=
  negb (Static r name) && (Has r name || hasRow t name).

Lemma isRegistered_Ok name s s' b : isRegistered r name s = (s', Ok b) -> b = registeredName (tablesOf s) name.
Proof.
  unfold isRegistered, registeredName. destruct (Static r name); [by intros [= _ <-]|].
  destruct (Has r name); [by intros [= _ <-]|]. simpl. apply rowExists_Ok.
Qed.

Lemma eitherRegistered_Ok a b s s' x : eitherRegistered r a b s = (s', Ok x) ->
  x = registeredName (tablesOf s) a || registeredName (tablesOf s) b.
Proof.
  unfold eitherRegistered. intros (s1 & [y|e] & Hy & Hr)%bind_inv; [|by destruct Hr].
  pose proof (lk_tables _ _ (looking_isRegistered _ _ _ _ Hy)) as Ht. apply isRegistered_Ok in Hy as ->.
  destruct (registeredName _ a); [by injection Hr as _ <-|]. apply isRegistered_Ok in Hr as ->. by rewrite Ht.
Qed.

(** *** When the driver does not fail *)

Hypothesis Hfree : faultFree.

Lemma onStore_free {A} (m : M DB goerr A) (a : A) s : (exists d', m (w_log (ps_world s)) = (d', Ok a)) -> exists s', onStore m s = (s', Ok a).
Proof. intros [d' E]. unfold onStore, onWorldP, onLog. rewrite E. by eexists. Qed.

Lemma SessionInfo_free uid d : exists d', SessionInfo_ uid d = (d', match selectSession uid (tables d) with
  | Some i => Ok i | None => Err (EWrap "session" (ESentinel ErrSessionNotFound)) end).
Proof.
  destruct (SessionInfo_ uid d) as [d' x] eqn:E. exists d'. pose proof E as (_ & _ & Hx)%SessionInfo_inv.
  destruct x as [i|e]; [by rewrite Hx|]. destruct (Hx Hfree) as [-> [= ->]]. done.
Qed.

Lemma harness_free name d : exists d', Harness_ name d = (d', match t_harnesses (tables d) !! name with
  | Some row => Ok (scanHarness name row) | None => Err (EWrap "harness" (ESentinel ErrHarnessNotFound)) end).
Proof.
  destruct (select_free Hfree (fun t => t_harnesses t !! name) d) as (d1 & E & _). exists d1.
  unfold Harness_, harnessByName, wrapErr, mbind, M_bind. rewrite E. by destruct (t_harnesses _ !! name).
Qed.

Lemma rowExists_free name s : exists s', rowExists name s = (s', Ok (hasRow (tablesOf s) name)).
Proof.
  destruct (harness_free name (w_log (ps_world s))) as [d' E].
  unfold rowExists, try, onStore, onWorldP, onLog, hasRow, mbind, M_bind. rewrite E.
  destruct (t_harnesses _ !! name); simpl; by eexists.
Qed.

Lemma looking_free {A} (m : M (PState DB) goerr A) s s' x : looking m -> m s = (s', x) -> tablesOf s' = tablesOf s.
Proof. intros Hm Hr. by apply Hm in Hr as []. Qed.

Lemma checkStatic_free name s : (Static r name = true -> hasRow (tablesOf s) name = false) -> exists s', checkStatic r name s = (s', Ok tt).
Proof.
  intros Hn. unfold checkStatic. destruct (Static r name); simpl; [|by eexists].
  destruct (rowExists_free name s) as [s1 E]. unfold mbind, M_bind. rewrite E, Hn by done. by eexists.
Qed.
Lemma isRegistered_free name s : exists s', isRegistered r name s = (s', Ok (registeredName (tablesOf s) name)).
Proof.
  unfold isRegistered, registeredName. destruct (Static r name); [by eexists|]. destruct (Has r name); [by eexists|]. apply rowExists_free.
Qed.
Lemma either_free a b s : exists s', eitherRegistered r a b s = (s', Ok (registeredName (tablesOf s) a || registeredName (tablesOf s) b)).
Proof.
  unfold eitherRegistered. destruct (isRegistered_free a s) as [s1 E]. pose proof (looking_free _ _ _ _ (looking_isRegistered _) E) as Ht.
  unfold mbind, M_bind. rewrite E. destruct (registeredName _ a); [by eexists|]. rewrite <- Ht. apply isRegistered_free.
Qed.
End Facts.
