(* ===== verification/ServiceRouting.v ===== *)
(** * Which harness a call runs on (theorems)

    The pin: a session on a registered harness stays on it, and no session borrows one for a turn,
    whatever lands in the registry meanwhile. *)
From S2P Require Import Prelude GoErrors Api Canon EventLog Executions Approvals Harness Wire Sinks Controller SessionGuard Placement Registry Tables Projection SqlLog SqlExample SqlStore SqlSessions SqlHarnesses SqlSystem GoJson Status Service ServiceOps ServiceFacts.
#[local] Open Scope Z_scope.

Section Routing.
Context `{Host} `{Encoding} `{Timestamppb} `{!ProtoCodec} `{Driver} `{PlacementHost} `{ProtoJson} `{ServiceHost} `{!DriverLaws}.

Abbreviation dbOf s := (w_log (ps_world (sv_place s))).

Lemma routed_inv {A} (f : Registry -> Heap -> M (PState DB) goerr A) s s' x : routed_ f s = (s', x) ->
  exists p', f (sv_registry s) (sv_heap s) (sv_place s) = (p', x) /\ s' = setPlace p' s.
Proof. unfold routed_, onPlace. destruct (f _ _ _) as [p' y]. intros [= <- <-]. by exists p'. Qed.

(** The answer of the phase before the window. *)
Lemma resolvePinned_Ok r uid override s s' harness other : resolvePinned r uid override s = (s', Ok (harness, other)) ->
  let t := tables (w_log (ps_world s)) in
  exists i, selectSession uid t = Some i /\ si_DeletionState i = DeletionActive /\ harness = storedHarness r i /\
    (Static r harness = true -> hasRow t harness = false) /\
    (other = true <-> override <> EmptyString /\ override <> harness) /\
    (other = true -> registeredName r t harness = false /\ registeredName r t override = false).
Proof.
  intros Hr t. unfold resolvePinned in Hr. apply bind_inv in Hr as (s1 & x & (y & (d & Hd & Hs1)%onStore_inv & ->)%try_inv & Hr).
  apply SessionInfo_inv in Hd as (_ & Ht1 & Hy). fold t in Ht1, Hy. rewrite <- Hs1 in Ht1. destruct y as [i|e].
  2: { destruct (_ && _); [destruct (For r override)|]; discriminate. }
  exists i. split; [done|]. apply bind_inv in Hr as (s2 & x & [-> Hdel]%deleted_check & Hr).
  destruct x as [[]|e]; [|by destruct Hr]. split; [done|].
  apply bind_inv in Hr as (s3 & [[]|e] & Hc & Hr); [|by destruct Hr].
  pose proof (lk_tables _ _ (looking_checkStatic _ _ _ _ _ Hc)) as Ht3. pose proof (checkStatic_Ok _ _ _ _ Hc) as Hst.
  rewrite Ht1 in Ht3, Hst. set (st := storedHarness r i) in *.
  assert (bool_decide (override = EmptyString) = false /\ bool_decide (override = st) = false <-> override <> EmptyString /\ override <> st) as Hiff
    by (by rewrite !bool_decide_eq_false).
  destruct (negb (bool_decide (override = EmptyString)) && negb (bool_decide (override = st))) eqn:Eo.
  - apply bind_inv in Hr as (s4 & [pinned|e] & Hp & Hr); [|by destruct Hr]. pose proof (eitherRegistered_Ok _ _ _ _ _ _ Hp) as Hpin. rewrite Ht3 in Hpin.
    destruct pinned; [discriminate|]. injection Hr as _ <- <-. symmetry in Hpin. apply orb_false_iff in Hpin.
    apply andb_true_iff in Eo as [E1%negb_true_iff E2%negb_true_iff]. split_and!; try done; naive_solver.
  - injection Hr as _ <- <-. apply andb_false_iff in Eo. rewrite !negb_false_iff, !bool_decide_eq_true in Eo. split_and!; try done; naive_solver.
Qed.

(** The pin is refused with FAILED_PRECONDITION, when the database answers. *)
Lemma resolvePinned_refuses r uid override s i : faultFree ->
  let t := tables (w_log (ps_world s)) in let stored := storedHarness r i in
  selectSession uid t = Some i -> si_DeletionState i = DeletionActive -> (Static r stored = true -> hasRow t stored = false) ->
  override <> EmptyString -> override <> stored -> registeredName r t stored || registeredName r t override = true ->
  exists s', resolvePinned r uid override s = (s', Err (EStatus codes_FailedPrecondition)).
Proof.
  intros Hfree t stored Hi Hact Hst Hne Hns Hpin. unfold resolvePinned.
  destruct (onStore_free (SessionInfo_ uid) i s) as [s1 E1].
  { destruct (SessionInfo_free Hfree uid (w_log (ps_world s))) as [d Hd]. exists d. by fold t in Hd; rewrite Hd, Hi. }
  pose proof (looking_onStore _ (reading_info uid) _ _ _ E1) as Hl1. unfold try, mbind, M_bind. rewrite E1.
  unfold deletedSessionError. rewrite bool_decide_eq_true_2 by done. cbn [check].
  destruct (checkStatic_free r Hfree stored s1) as [s2 E2].
  { rewrite (lk_tables _ _ Hl1). exact Hst. }
  pose proof (looking_checkStatic _ _ _ _ _ E2) as Hl2. fold stored. rewrite E2.
  rewrite !bool_decide_eq_false_2 by done. cbn [negb andb].
  destruct (either_free r Hfree stored override s2) as [s3 E3]. rewrite E3, (lk_tables _ _ Hl2), (lk_tables _ _ Hl1).
  fold t. rewrite Hpin. by eexists.
Qed.

(** The answer of the phase after it. *)
Lemma resolveOverride_Ok r h harness override s s' name : resolveOverride r h harness override s = (s', Ok name) ->
  name = override /\ Static r override = true /\ hasRow (tables (w_log (ps_world s))) override = false /\
  exists s1, tables (w_log (ps_world s1)) = tables (w_log (ps_world s)) /\ checkMemoryOverride r h harness override s1 = (s', Ok tt).
Proof.
  unfold resolveOverride. intros (s1 & [[]|e] & (y & Hl & Hy)%orErr_inv & Hr)%bind_inv; [|by destruct Hr].
  assert (s1 = s) as ->. { unfold lift, mbind, M_bind, mret, M_ret in Hl. destruct (For r override); by injection Hl. }
  destruct (Static r override) eqn:Es; simpl in Hr; [|discriminate].
  apply bind_inv in Hr as (s2 & [[]|e] & Hc & Hr); [|by destruct Hr].
  pose proof (lk_tables _ _ (looking_checkStatic _ _ _ _ _ Hc)) as Ht2. pose proof (checkStatic_Ok _ _ _ _ Hc Es) as Hrow.
  apply bind_inv in Hr as (s3 & [[]|e] & Hm & Hr); [|by destruct Hr]. injection Hr as <- <-. eauto 10.
Qed.

(** A stored harness that needs memory snapshots is not left for a stateless one. *)
Definition memoryTier (r : Registry) (h : Heap) (stored : string) : Prop := exists p d,
  Has r stored = true /\ placerAt r h stored = Ok p /\ MemorySnapshot (b_Capabilities (p_backend p)) = true /\
  (forall t, b_Describe (p_backend p) t = Ok d) /\ cap_Resumability (desc_Capabilities d) = ResumabilityRequiresMemorySnapshot.
Definition stateless (r : Registry) (h : Heap) (name : string) : Prop := exists q d,
  placerAt r h name = Ok q /\ (forall t, b_Describe (p_backend q) t = Ok d) /\
  cap_Resumability (desc_Capabilities d) = ResumabilityStatelessReplay.

Lemma describeNamed_Ok r h name s s' d p : describeNamed r h name s = (s', Ok d) -> placerAt r h name = Ok p ->
  exists t, b_Describe (p_backend p) t = Ok d.
Proof.
  unfold describeNamed. intros (s1 & x & (y & Hl & ->)%orErr_inv & Hr)%bind_inv Hp. unfold lift in Hl. rewrite Hp in Hl.
  injection Hl as <- <-. apply bind_inv in Hr as (s2 & x & Hc & Hr). injection Hc as <- <-.
  destruct (b_Describe _ _) as [d0|e] eqn:E; [injection Hr as _ <-; by eexists|].
  apply bind_inv in Hr as (s3 & x & Hx & Hr). injection Hx as <- <-. discriminate.
Qed.

Lemma checkMemoryOverride_Ok r h stored override s s' : checkMemoryOverride r h stored override s = (s', Ok tt) ->
  memoryTier r h stored -> ~ stateless r h override.
Proof.
  intros Hr (p & d & Hhas & Hp & Hmem & Hd & Hres) (q & dq & Hq & Hdq & Hresq).
  unfold checkMemoryOverride in Hr. rewrite Hhas in Hr. simpl in Hr.
  apply bind_inv in Hr as (s1 & x & (y & Hl & ->)%orErr_inv & Hr). unfold lift in Hl. rewrite Hp in Hl. injection Hl as <- <-.
  rewrite Hmem in Hr. simpl in Hr. apply bind_inv in Hr as (s2 & [d1|e] & Hd1 & Hr); [|by destruct Hr].
  destruct (describeNamed_Ok _ _ _ _ _ _ _ Hd1 Hp) as [t Ht]. rewrite Hd in Ht. injection Ht as <-.
  rewrite Hres in Hr. simpl in Hr. apply bind_inv in Hr as (s3 & [d2|e] & Hd2 & Hr); [|by destruct Hr].
  destruct (describeNamed_Ok _ _ _ _ _ _ _ Hd2 Hq) as [t2 Ht2]. rewrite Hdq in Ht2. injection Ht2 as <-.
  rewrite Hresq in Hr. discriminate.
Qed.

(** What a suspension, and a recovery, are allowed to run on. *)
Lemma checkResumedHarness_Ok r stored name s s' : checkResumedHarness r stored name s = (s', Ok tt) ->
  let t := tables (w_log (ps_world s)) in
  (Static r name = true -> hasRow t name = false) /\
  (name <> stored -> registeredName r t stored = false /\ registeredName r t name = false).
Proof.
  intros (s2 & [[]|e] & Hc & Hck)%bind_inv t; [|by destruct Hck].
  pose proof (lk_tables _ _ (looking_checkStatic _ _ _ _ _ Hc)) as Ht2. pose proof (checkStatic_Ok _ _ _ _ Hc) as Hst.
  split; [exact Hst|]. intros Hne. rewrite bool_decide_eq_false_2 in Hck by done.
  apply bind_inv in Hck as (s3 & [pinned|e] & Hp & Hck); [|by destruct Hck].
  pose proof (eitherRegistered_Ok _ _ _ _ _ _ Hp) as Hpin. rewrite Ht2 in Hpin.
  destruct pinned; [discriminate|]. symmetry in Hpin. by apply orb_false_iff in Hpin.
Qed.
Lemma resumeCheck_Ok r h stored name s s' : resumeCheck r h stored name s = (s', Ok tt) ->
  let t := tables (w_log (ps_world s)) in
  (Static r name = true -> hasRow t name = false) /\
  (name <> stored -> registeredName r t stored = false /\ registeredName r t name = false /\
     (memoryTier r h stored -> ~ stateless r h name)).
Proof.
  intros (s1 & [[]|e] & Hck & Hr)%bind_inv t; [|by destruct Hr]. apply checkResumedHarness_Ok in Hck as [Hst Hne].
  split; [exact Hst|]. intros Hn. destruct (Hne Hn). split_and!; [done|done|].
  rewrite bool_decide_eq_false_2 in Hr by done. by eapply checkMemoryOverride_Ok.
Qed.

(** ** Routing *)

Lemma resolvePlacer_Ok hook uid override s s' p harness : resolvePlacer hook uid override s = (s', Ok (p, harness)) ->
  let r := sv_registry s in let t := tables (dbOf s) in
  placerAt (sv_registry s') (sv_heap s') harness = Ok p /\
  exists i, selectSession uid t = Some i /\ si_DeletionState i = DeletionActive /\
    let stored := storedHarness r i in
    (Static r stored = true -> hasRow t stored = false) /\
    if bool_decide (override = EmptyString) || bool_decide (override = stored)
    then harness = stored /\ sv_registry s' = r /\ sv_heap s' = sv_heap s /\ looks (sv_place s) (sv_place s')
    else harness = override /\ registeredName r t stored = false /\ registeredName r t override = false /\
      Static (sv_registry s') override = true /\ hasRow (tables (dbOf s')) override = false /\
      (memoryTier (sv_registry s') (sv_heap s') stored -> ~ stateless (sv_registry s') (sv_heap s') override).
Proof.
  intros Hr r t. unfold resolvePlacer in Hr.
  apply bind_inv in Hr as (s1 & [[st other]|e] & (p1 & Hp & ->)%routed_inv & Hr); [|by destruct Hr].
  pose proof (looking_resolvePinned _ _ _ _ _ _ Hp) as Hlk.
  apply resolvePinned_Ok in Hp as (i & Hi & Hact & -> & Hst & Hiff & Hpin).
  fold r t in Hst, Hiff, Hpin, Hi. set (stored := storedHarness r i) in *.
  apply bind_inv in Hr as (s2 & [name|e] & Hn & Hr); [|by destruct Hr].
  apply bind_inv in Hr as (s3 & [q|e] & (p3 & (y & Hl & Hy)%orErr_inv & ->)%routed_inv & Hr); [|by destruct Hr].
  injection Hr as <- <- <-. destruct y as [q'|e]; [|discriminate]. injection Hy as <-. unfold lift in Hl. injection Hl as Hl3 Hl.
  cbn [sv_registry sv_heap setPlace]. split; [done|]. exists i. split; [done|]. split; [done|]. cbv zeta. fold stored. split; [done|].
  destruct other.
  - destruct (proj1 Hiff eq_refl) as [Hck' H2']. rewrite !bool_decide_eq_false_2 by done. cbn [orb].
    destruct (Hpin eq_refl) as [Ha Hb].
    apply bind_inv in Hn as (s4 & x & Hm & Hn). injection Hm as <- <-. apply routed_inv in Hn as (p4 & Hn & ->).
    pose proof (lk_tables _ _ (looking_resolveOverride _ _ _ _ _ _ _ Hn)) as Htn. cbn [sv_place setPlace] in Hl. subst p3.
    destruct (resolveOverride_Ok _ _ _ _ _ _ _ Hn) as (-> & Hs & Hrow & s5 & _ & Hmem). cbn [sv_registry sv_heap sv_place setPlace].
    split_and!; try done; [by rewrite Htn|by eapply checkMemoryOverride_Ok].
  - injection Hn as <- <-. assert (override = EmptyString \/ override = stored) as Ho.
    { destruct (decide (override = EmptyString)); [by left|]. destruct (decide (override = stored)); [by right|].
      assert (false = true) by (by apply Hiff). done. }
    replace (bool_decide (override = EmptyString) || bool_decide (override = stored)) with true
      by (symmetry; apply orb_true_iff; rewrite !bool_decide_eq_true; done).
    cbn. subst p3. split_and!; try done.
Qed.
End Routing.
