(* ===== verification/ServiceExample.v ===== *)
(** * A concrete service

    Parameters that satisfy the laws, and a service on an empty database with one static harness, on
    which the witnesses evaluate. *)
From S2P Require Import Prelude GoErrors Api Canon EventLog Executions Approvals Harness Wire Sinks Controller Agents SessionGuard Placement Admission Registry Routing Tables Projection SqlLog SqlExample SqlStore SqlSessions SqlHarnesses GoJson Status Service ServiceOps.
From stdpp Require Import countable.
#[local] Open Scope Z_scope.

(** The bits of a positive, as text. *)
Fixpoint posBits (p : positive) : string :=
  match p with xH => EmptyString | xO p => String "0" (posBits p) | xI p => String "1" (posBits p) end.
Fixpoint bitsPos (s : string) : positive :=
  match s with
  | EmptyString => xH
  | String c s => if bool_decide (c = "0"%char) then xO (bitsPos s) else xI (bitsPos s)
  end.
Lemma bitsPos_posBits p : bitsPos (posBits p) = p.
Proof. induction p; simpl; [by rewrite IHp|by rewrite IHp|done]. Qed.

Definition writeBits {A} `{Countable A} (a : A) : res string := Ok (String "{" (posBits (encode a))).
Definition readBits {A} `{Countable A} (s : string) : res A :=
  match s with
  | String _ s => match decode (bitsPos s) with Some a => Ok a | None => Err (EText "malformed") end
  | EmptyString => Err (EText "malformed")
  end.
Lemma readBits_writeBits {A} `{Countable A} (a : A) s : writeBits a = Ok s -> s <> EmptyString /\ readBits s = Ok a.
Proof. intros [= <-]. split; [done|]. simpl. by rewrite bitsPos_posBits, decode_encode. Qed.

Definition originTuple (m : PbOrigin) := (po_Source m, po_Subject m, po_Uri m, po_Attributes m).
Definition originOf '(s, t, u, a) : PbOrigin := mkPbOrigin s t u a.
Definition identityTuple (m : PbIdentityRef) := (pbi_Principal m, pbi_Issuer m, pbi_Subject m).
Definition identityOf '(p, i, s) : PbIdentityRef := mkPbIdentityRef p i s.

#[export] Instance PbOrigin_countable : Countable PbOrigin.
Proof. refine (inj_countable' originTuple originOf _). by intros []. Defined.
#[export] Instance PbIdentityRef_countable : Countable PbIdentityRef.
Proof. refine (inj_countable' identityTuple identityOf _). by intros []. Defined.

Definition exampleProtoJson : ProtoJson := {|
  json_MarshalOrigin := writeBits; json_UnmarshalOrigin := readBits;
  json_MarshalIdentity := writeBits; json_UnmarshalIdentity := readBits;
|}.
Lemma exampleProtoJsonLaws : ProtoJsonLaws (H := exampleProtoJson).
Proof. constructor; intros m s Hs; by apply readBits_writeBits. Qed.

Definition exampleServiceHost : ServiceHost := {|
  rand12 := fun n => repeat (Z.of_nat n mod 256) 12;
  FromContextError := fun _ => EStatus codes_DeadlineExceeded;
|}.

(** ** The service *)

#[local] Existing Instance exampleHost.
#[local] Existing Instance exampleEncoding.
#[local] Existing Instance exampleTimestamppb.
#[local] Existing Instance exampleDriver.
#[local] Existing Instance examplePlacementHost.
#[local] Existing Instance exampleProtoJson.
#[local] Existing Instance exampleServiceHost.

Definition exampleService : ServiceState :=
  mkServiceState (mkPState (mkWorld emptyDB 0 0 0 [] []) newSessionGuard ∅ 0 ∅ ∅ []) exampleRegistry (fst exampleMade).

Definition exampleSpec : PbSession :=
  mkPbSession (Some (mkResourceMetadata "p" "demo" "ignored" None None)) "" "model-x" EXEC_STATE_UNSPECIFIED COMPUTE_STATE_UNSPECIFIED
    None DELETION_STATE_UNSPECIFIED None 0 "" 0 (Some (mkPbIdentityRef "alice" "issuer" "")) (Some (mkPbOrigin "git" "repo" "" ∅))
    (Some {["team"%string := "core"%string]}) None.

Definition exampleCreated : ServiceState * res PbSession := CreateSession "default" "default" (Some exampleSpec) exampleService.
Definition exampleUID : string := "sess-000000000000000000000000".

Example exampleCreated_runs : (fun s => (md_Uid <$> ss_Metadata s, ss_Harness s, ss_ExecState s)) <$> snd exampleCreated =
  Ok (Some exampleUID, "echo"%string, EXEC_PENDING).
Proof. vm_compute. reflexivity. Qed.

Definition userMessage (text : string) : PbMessage := mkPbMessage "user" [Some (Part_Text (Some text))].
Definition exampleRequest : ExecRequest := mkExecRequest exampleUID [Some (userMessage "hi")] 0 "" None None.
Definition noFault (n : nat) : option goerr := None.
Definition freshStream : Stream ExecFrame := mkStream [] 0.

Definition exampleExecuted : (ServiceState * Stream ExecFrame) * res unit :=
  service_Exec "default" "default" None noFault exampleRequest (fst exampleCreated, freshStream).

Example exampleExecuted_runs : snd exampleExecuted = Ok tt /\ length (sent (snd (fst exampleExecuted))) = 6%nat.
Proof. vm_compute. split; reflexivity. Qed.
