(* ===== verification/ServicePins.v ===== *)
(** * The pin holds for every handler (theorems)

    A handler either does nothing but read, or runs one operation of the placer that the routing rules
    allow, and nothing else. *)
From S2P Require Import Prelude GoErrors Api Canon EventLog Executions Approvals Harness Wire Sinks Controller Agents SessionGuard Placement Admission Registry Routing Tables Projection SqlLog SqlExample SqlStore SqlSessions SqlHarnesses SqlSystem Durable GoJson Status Service ServiceOps ServiceFacts ServiceRouting ServiceExample.
#[local] Open Scope Z_scope.

(** ** Idling

    Reads and the guard: the database, the connections and the observer are as before, nothing was
    invoked, and no call but Describe was made. *)
Record idle (s s' : PState DB) : Prop := {
  idle_saved : saved (w_log (ps_world s')) = saved (w_log (ps_world s));
  idle_tables : tables (w_log (ps_world s')) = tables (w_log (ps_world s));
  idle_updates : w_updates (ps_world s') = w_updates (ps_world s);
  idle_invoked : liveModelCalls (ps_world s') = liveModelCalls (ps_world s) /\ liveToolCalls (ps_world s') = liveToolCalls (ps_world s);
  idle_conns : ps_conns s' = ps_conns s /\ ps_next s' = ps_next s /\ ps_live s' = ps_live s /\ ps_checkpoints s' = ps_checkpoints s;
  idle_calls : exists n, ps_calls s' = ps_calls s ++ replicate n CallDescribe;
}.

#[export] Instance idle_preorder : PreOrder idle.
Proof.
  split.
  - intros s. constructor; try done. exists 0%nat. by rewrite app_nil_r.
  - intros s1 s2 s3 [] []. constructor; try congruence.
    + destruct idle_invoked0, idle_invoked1. split; congruence.
    + destruct idle_conns0 as (?&?&?&?), idle_conns1 as (?&?&?&?). split_and!; congruence.
    + destruct idle_calls0 as [n Hn], idle_calls1 as [k Hk]. exists (n + k)%nat.
      by rewrite Hk, Hn, <- app_assoc, replicate_add.
Qed.
Lemma looks_idle s s' : looks s s' -> idle s s'.
Proof. intros []. by constructor. Qed.
Lemma looking_idle {A} (m : M (PState DB) goerr A) s s' r : looking m -> m s = (s', r) -> idle s s'.
Proof. intros Hm Hr. by eapply looks_idle, Hm. Qed.
Lemma idle_guard g s : idle s (setGuardP g s).
Proof. constructor; try done. exists 0%nat. by rewrite app_nil_r. Qed.

(** The same on the service's state: the registry is untouched. *)
Definition idles (s s' : ServiceState) : Prop :=
  idle (sv_place s) (sv_place s') /\ sv_registry s' = sv_registry s /\ sv_heap s' = sv_heap s.
#[export] Instance idles_preorder : PreOrder idles.
Proof.
  split; [by intros s|]. intros s1 s2 s3 (?&?&?) (?&?&?). unfold idles. split_and!; [by etransitivity|congruence|congruence].
Qed.

Section Pins.
Context `{Host} `{Encoding} `{Timestamppb} `{!ProtoCodec} `{Driver} `{PlacementHost} `{ProtoJson} `{ServiceHost} `{!DriverLaws}.

Abbreviation P := (PState DB).
Abbreviation dbOf s := (w_log (ps_world s)).
Abbreviation tablesOf s := (tables (dbOf s)).

(** ** Guards and reads *)

Lemma guarded_inv {A} kind uid (op : M ServiceState goerr A) s s' x : guarded kind uid op s = (s', x) ->
  (idles s s' /\ exists e, x = Err e) \/ exists s1 s2, idles s s1 /\ op s1 = (s2, x) /\ idles s2 s'.
Proof.
  unfold guarded. destruct (acquire _ _ _) as [g [hd|e]].
  - destruct (op _) as [s2 y] eqn:E. intros [= <- <-]. right. exists (setPlace (setGuardP g (sv_place s)) s), s2.
    split_and!; [|done|]; split_and!; try done; apply idle_guard.
  - intros [= <- <-]. left. split; [|by eexists]. split_and!; try done. apply idle_guard.
Qed.
Lemma withGuard_inv {A} uid kind (op : M P goerr A) s s' x : withGuard (fun e => e) uid kind op s = (s', x) ->
  (idle s s' /\ exists e, x = Err e) \/ exists s1 s2, idle s s1 /\ op s1 = (s2, x) /\ idle s2 s'.
Proof.
  unfold withGuard. destruct (acquire _ _ _) as [g [hd|e]].
  - unfold finally. destruct (op _) as [s2 y] eqn:E. intros [= <- <-]. right. exists (setGuardP g s), s2.
    split_and!; [apply idle_guard|done|apply idle_guard].
  - intros [= <- <-]. left. split; [apply idle_guard|by eexists].
Qed.

(** A read of the database by the service. *)
Definition servesIdle {A} (m : M ServiceState goerr A) : Prop := forall s s' r, m s = (s', r) -> idles s s'.

Lemma idle_bind {A B} (m : M ServiceState goerr A) (f : A -> M ServiceState goerr B) :
  servesIdle m -> (forall a, servesIdle (f a)) -> servesIdle (m ≫= f).
Proof.
  intros Hm Hf s s' r (s1 & r1 & Hr1 & Hr)%bind_inv. transitivity s1; [by eapply Hm|].
  destruct r1; [by eapply Hf|by destruct Hr as [-> _]].
Qed.
Lemma idle_ret {A} (a : A) : servesIdle (mret a).
Proof. by intros s s' r [= <- <-]. Qed.
Lemma idle_throw {A} e : servesIdle (A := A) (throw e).
Proof. by intros s s' r [= <- <-]. Qed.
Lemma idle_lift {A} (x : res A) : servesIdle (lift x).
Proof. by intros s s' r [= <- <-]. Qed.
Lemma idle_check x : servesIdle (check x).
Proof. destruct x; by intros s s' r [= <- <-]. Qed.
Lemma idle_orErr {A} f (m : M ServiceState goerr A) : servesIdle m -> servesIdle (orErr f m).
Proof. intros Hm s s' r (y & Hy & _)%orErr_inv. by eapply Hm. Qed.
Lemma idle_try {A} (m : M ServiceState goerr A) : servesIdle m -> servesIdle (try m).
Proof. intros Hm s s' r (y & Hy & _)%try_inv. by eapply Hm. Qed.
Lemma idle_routed {A} (f : Registry -> Heap -> M P goerr A) : (forall r h, looking (f r h)) -> servesIdle (routed_ f).
Proof. intros Hf s s' r (p & Hp & ->)%routed_inv. split_and!; try done. by eapply looking_idle. Qed.
Lemma idle_onPlace {A} (m : M P goerr A) : looking m -> servesIdle (onPlace m).
Proof. intros Hm s s' r. unfold onPlace. destruct (m _) as [p y] eqn:E. intros [= <- <-]. split_and!; try done. by eapply looking_idle. Qed.
Lemma idle_onDB {A} (m : M DB goerr A) : reading m -> servesIdle (onDB m).
Proof. intros Hm. by apply idle_onPlace, looking_onStore. Qed.
Lemma idle_guarded {A} kind uid (m : M ServiceState goerr A) : servesIdle m -> servesIdle (guarded kind uid m).
Proof.
  intros Hm s s' r [[Hi _]|(s1 & s2 & H1' & H2' & H3')]%guarded_inv; [done|].
  etransitivity; [exact H1'|]. etransitivity; [by eapply Hm|done].
Qed.
End Pins.

Lemma reading_records `{Host} `{Encoding} `{Timestamppb} `{!ProtoCodec} `{Driver} project uid from :
  reading (st_Read (Store := SqlLog_Store project uid) from).
Proof. apply reading_read. Qed.

Create HintDb idle.
#[export] Hint Resolve idle_ret idle_throw idle_lift idle_check reading_info reading_harness reading_head reading_read
  reading_inspect reading_writable reading_records : idle.
Ltac idling := repeat first
  [ progress intros
  | solve [auto with idle looking]
  | match goal with
    | |- servesIdle (_ ≫= _) => apply idle_bind
    | |- servesIdle (orErr _ _) => apply idle_orErr
    | |- servesIdle (try _) => apply idle_try
    | |- servesIdle (onDB _) => apply idle_onDB
    | |- servesIdle (routed_ _) => apply idle_routed; looking
    | |- servesIdle (sessionRead _ _) => apply idle_guarded
    | |- servesIdle (guarded _ _ _) => apply idle_guarded
    end
  | match goal with |- servesIdle (match ?x with _ => _ end) => destruct x end
  | match goal with |- servesIdle (let '(_, _) := ?x in _) => destruct x end ].

Section Handlers.
Context `{Host} `{Encoding} `{Timestamppb} `{!ProtoCodec} `{Driver} `{PlacementHost} `{ProtoJson} `{ServiceHost} `{!DriverLaws}.
Variables (storeProject defaultProject : string).

Abbreviation P := (PState DB).
Abbreviation dbOf s := (w_log (ps_world s)).
Abbreviation tablesOf s := (tables (dbOf s)).

(** ** What may run *)

(** One operation of the placer of a harness, on a session: a turn, a recovery behind the registry's
    guard, a suspension behind it. *)
Inductive placerRun (uid name : string) (p : Placer) : P -> P -> Prop :=
  | run_turn cfg inputs expected s s' r : cfg_harness cfg = name ->
      placer_Exec (H2 := SqlLog_Store storeProject uid) p cfg uid inputs expected s = (s', r) -> placerRun uid name p s s'
  | run_recovery state cfg s s' r : rcfg_harness cfg = name ->
      (do! resumeApproval (H2 := SqlLog_Store storeProject uid) p uid state cfg in
       resume (H2 := SqlLog_Store storeProject uid) p cfg uid) s = (s', r) -> placerRun uid name p s s'
  | run_suspension s s' r :
      withCheckpoint uid (suspend (H2 := SqlLog_Store storeProject uid) p uid None) s = (s', r) -> placerRun uid name p s s'.

(** The rules: a static harness has no registration row; another harness than the session's own runs
    only when neither is registered, and, where [memory] is asked for, does not leave memory behind. *)
Definition mayRun (memory : bool) (r : Registry) (h : Heap) (t : Tables) (stored name : string) : Prop :=
  (Static r name = true -> hasRow t name = false) /\
  (name <> stored -> registeredName r t stored = false /\ registeredName r t name = false /\
     (memory = true -> memoryTier r h stored -> ~ stateless r h name)).

(** ** Reads of the session *)

Lemma onDB_inv {A} (m : M DB goerr A) s s' x : onDB m s = (s', x) -> exists d', m (dbOf (sv_place s)) = (d', x).
Proof.
  unfold onDB, onPlace. destruct (onStore m (sv_place s)) as [p y] eqn:E. intros [= <- <-].
  apply onStore_inv in E as (d' & E & _). by exists d'.
Qed.

Lemma mutationSessionInfo_inv uid s s' x : mutationSessionInfo uid s = (s', x) -> idles s s' /\
  match x with Ok i => selectSession uid (tablesOf (sv_place s)) = Some i | Err _ => True end.
Proof.
  intros Hr. split.
  { revert s s' x Hr. change (servesIdle (mutationSessionInfo uid)). unfold mutationSessionInfo, sessionRead. idling. }
  unfold mutationSessionInfo in Hr. apply orErr_inv in Hr as (y & Hr & ->). destruct y as [i|]; [|done].
  apply guarded_inv in Hr as [[_ [? [=]]]|(s1 & s2 & Hi & Hr & _)].
  apply onDB_inv in Hr as (d & (_ & _ & Hr)%SessionInfo_inv). by rewrite <- (idle_tables _ _ (proj1 Hi)).
Qed.

Lemma admitMutation_inv uid s s' x : admitMutation uid s = (s', x) -> idles s s' /\
  match x with
  | Ok i => selectSession uid (tablesOf (sv_place s)) = Some i /\ si_DeletionState i = DeletionActive
  | Err _ => True
  end.
Proof.
  unfold admitMutation. destruct (bool_decide _); [by intros [= <- <-]|].
  intros (s1 & x1 & (y & (Hi & Hy)%mutationSessionInfo_inv & ->)%orErr_inv & Hr)%bind_inv. destruct y as [i|e].
  2: { destruct Hr as [-> ->]. done. }
  apply bind_inv in Hr as (s2 & x2 & [-> Hx]%deleted_check & Hr). destruct x2.
  - by injection Hr as <- <-.
  - by destruct Hr as [-> ->].
Qed.

Lemma idle_current uid : servesIdle (currentSession uid).
Proof. unfold currentSession. idling. Qed.

(** ** The registry's operations *)

(** How a registry operation that was let in ran: [body] on a placer whose name passed the check. *)
Definition routedRun {A} (r : Registry) (h : Heap) (chk : string -> M P goerr unit) (body : string -> Placer -> M P goerr A -> Prop)
    (x : res A) (s s' : P) : Prop :=
  exists name p m s1 s2 s3, idle s s1 /\ chk name s1 = (s2, Ok tt) /\ placerAt r h name = Ok p /\ body name p m /\
    m s2 = (s3, x) /\ idle s3 s'.

Section routed.
Context {A : Type} (r : Registry) (h : Heap) (chk : string -> M P goerr unit) (body : string -> Placer -> M P goerr A -> Prop) (x : res A).
#[local] Abbreviation ends s s' := (idle s s' \/ routedRun r h chk body x s s').

Lemma ends_after s s1 s' : idle s s1 -> ends s1 s' -> ends s s'.
Proof.
  intros Hi [Hd|(name & p & m & sa & sb & sc & Ha & Hk & Hp & Hb & Hm & Hc)]; [left; by etransitivity|].
  right. exists name, p, m, sa, sb, sc. split_and!; try done. by etransitivity.
Qed.
Lemma ends_before s s1 s' : ends s s1 -> idle s1 s' -> ends s s'.
Proof.
  intros [Hd|(name & p & m & sa & sb & sc & Ha & Hk & Hp & Hb & Hm & Hc)] Hi; [left; by etransitivity|].
  right. exists name, p, m, sa, sb, sc. split_and!; try done. by etransitivity.
Qed.
(** A read first. *)
Lemma ends_looking {B} (m : M P goerr B) (k : B -> M P goerr A) s s' : looking m -> (m ≫= k) s = (s', x) ->
  (forall b s1, m s = (s1, Ok b) -> k b s1 = (s', x) -> ends s1 s') -> ends s s'.
Proof.
  intros Hm (s1 & [b|e] & Hr1 & Hr)%bind_inv Hk; pose proof (looking_idle _ _ _ _ Hm Hr1) as Hi.
  - eapply ends_after; [exact Hi|by eapply Hk].
  - destruct Hr as [-> _]. by left.
Qed.
(** The check, and the body. *)
Lemma ends_checked cfg name p (m : M P goerr A) s s' : reg_check cfg = Some chk -> (forall n, looking (chk n)) -> placerAt r h name = Ok p ->
  body name p m -> (do! runCheck cfg name in m) s = (s', x) -> ends s s'.
Proof.
  intros Hcfg Hchk Hp Hb (s1 & [[]|e] & Hr1 & Hr)%bind_inv; unfold runCheck in Hr1; rewrite Hcfg in Hr1.
  - right. exists name, p, m, s, s1, s'. done.
  - destruct Hr as [-> _]. left. by eapply looking_idle.
Qed.
End routed.

Lemma route_named r h recorded d name p : route r h recorded d = Ok (name, p) -> placerAt r h name = Ok p.
Proof. unfold route. intros Hr. destruct (placerAt r h (routeName r recorded d)) as [q|e] eqn:E; [by injection Hr as <- <-|done]. Qed.

Definition recoveryOf (uid name : string) (p : Placer) (m : M P goerr unit) : Prop :=
  exists state c, rcfg_harness c = name /\
    m = (do! resumeApproval (H2 := SqlLog_Store storeProject uid) p uid state c in
         resume (H2 := SqlLog_Store storeProject uid) p c uid).

#[local] Hint Resolve reading_info reading_head reading_inspect reading_writable looking_invocation looking_checkHead : looking.

Lemma registry_Resume_run r h cfg chk uid d s s' x : reg_check cfg = Some chk -> (forall n, looking (chk n)) ->
  registry_Resume (H2 := SqlLog_Store storeProject uid) r h cfg uid d s = (s', x) ->
  idle s s' \/ routedRun r h chk (recoveryOf uid) x s s'.
Proof.
  intros Hcfg Hchk [[Hi _]|(s1 & s2 & Hi & Hr & Ho)]%withGuard_inv; [by left|].
  eapply ends_after; [exact Hi|]. eapply ends_before; [|exact Ho]. clear Hi Ho s s'.
  eapply ends_looking; [|exact Hr|clear Hr; intros ? sa _ Hr]; [looking|].
  eapply ends_looking; [|exact Hr|clear Hr; intros ? sb _ Hr]; [looking|].
  eapply ends_looking; [|exact Hr|clear Hr; intros state sc _ Hr]; [looking|].
  cbv beta in Hr. match type of Hr with (if ?b then _ else _) _ = _ => destruct b end; [injection Hr as <- _; by left|].
  eapply ends_looking; [|exact Hr|clear Hr; intros inv sd _ Hr]; [looking|].
  eapply ends_looking; [|exact Hr|clear Hr; intros [name p] se Hl Hr]; [looking|]. injection Hl as <- Hl.
  eapply ends_checked; [exact Hcfg|exact Hchk|by eapply route_named| |exact Hr].
  do 2 eexists. split; [|reflexivity]. done.
Qed.

Lemma registry_Suspend_run r h cfg chk uid d s s' x : reg_check cfg = Some chk -> (forall n, looking (chk n)) ->
  registry_Suspend (H2 := SqlLog_Store storeProject uid) r h cfg uid d s = (s', x) ->
  idle s s' \/ routedRun r h chk (fun _ p m => m = withCheckpoint uid (suspend (H2 := SqlLog_Store storeProject uid) p uid None)) x s s'.
Proof.
  intros Hcfg Hchk [[Hi _]|(s1 & s2 & Hi & Hr & Ho)]%withGuard_inv; [by left|].
  eapply ends_after; [exact Hi|]. eapply ends_before; [|exact Ho]. clear Hi Ho s s'.
  eapply ends_looking; [|exact Hr|clear Hr; intros ? sa _ Hr]; [looking|].
  eapply ends_looking; [|exact Hr|clear Hr; intros state sb _ Hr]; [looking|].
  eapply ends_looking; [|exact Hr|clear Hr; intros [name p] sc Hl Hr]; [looking|]. injection Hl as <- Hl.
  eapply ends_checked; [exact Hcfg|exact Hchk|by eapply route_named|done|exact Hr].
Qed.

(** ** Handlers *)

(** A call that changed something ran one operation on a harness the session may run on. *)
Definition pinnedRun (memory : bool) (uid : string) (s s' : ServiceState) : Prop :=
  let r := sv_registry s in let h := sv_heap s in let t := tablesOf (sv_place s) in
  sv_registry s' = r /\ sv_heap s' = h /\
  exists i name p s1 s2, selectSession uid t = Some i /\ si_DeletionState i = DeletionActive /\
    placerAt r h name = Ok p /\ mayRun memory r h t (storedHarness r i) name /\
    idle (sv_place s) s1 /\ placerRun uid name p s1 s2 /\ idle s2 (sv_place s').
#[local] Abbreviation pinned memory uid s s' := (idles s s' \/ pinnedRun memory uid s s').

Lemma pinned_before memory uid s s1 s' : pinned memory uid s s1 -> idles s1 s' -> pinned memory uid s s'.
Proof.
  intros [Hd|(Hr & Hh & i & name & p & sa & sb & Hi & Ha & Hp & Hm & H1' & H2' & H3')] (Hj & Hr' & Hh').
  - left. transitivity s1; [done|]. done.
  - right. split; [congruence|]. split; [congruence|]. exists i, name, p, sa, sb. split_and!; try done. by etransitivity.
Qed.
Lemma pinned_after memory uid s s1 s' : idles s s1 -> pinned memory uid s1 s' -> pinned memory uid s s'.
Proof.
  intros Hi [Hd|Hd]; [left; by etransitivity|]. right. destruct Hi as (Hj & Hr' & Hh'). unfold pinnedRun in *.
  rewrite Hr', Hh', (idle_tables _ _ Hj) in Hd. destruct Hd as (Hr & Hh & i & name & p & sa & sb & Hi & Ha & Hp & Hm & H1' & H2' & H3').
  split_and!; [done|done|]. exists i, name, p, sa, sb. split_and!; try done. by etransitivity.
Qed.
(** A read, then the rest. *)
Lemma pinned_read {A B} memory uid (m : M ServiceState goerr A) (k : A -> M ServiceState goerr B) s s' x :
  servesIdle m -> (m ≫= k) s = (s', x) -> (forall a s1, m s = (s1, Ok a) -> k a s1 = (s', x) -> pinned memory uid s1 s') ->
  pinned memory uid s s'.
Proof.
  intros Hm (s1 & [a|e] & Hr1 & Hr)%bind_inv Hk; pose proof (Hm _ _ _ Hr1) as Hi.
  - eapply pinned_after; [exact Hi|by eapply Hk].
  - destruct Hr as [-> _]. by left.
Qed.
Lemma pinned_then {A B} memory uid (m : M ServiceState goerr A) (k : A -> M ServiceState goerr B) s s' x :
  (forall a, servesIdle (k a)) -> (m ≫= k) s = (s', x) -> (forall s1 y, m s = (s1, y) -> pinned memory uid s s1) ->
  pinned memory uid s s'.
Proof.
  intros Hk (s1 & y & Hr1 & Hr)%bind_inv Hm. pose proof (Hm _ _ Hr1) as Hi. destruct y as [a|e].
  - eapply pinned_before; [exact Hi|by eapply Hk].
  - by destruct Hr as [-> _].
Qed.

(** A registry operation under a check of the rules. *)
Lemma pinned_routed {A} memory uid i (chk : Registry -> Heap -> string -> M P goerr unit) (body : string -> Placer -> M P goerr A -> Prop)
    (op : Registry -> Heap -> M P goerr A) s s' x :
  selectSession uid (tablesOf (sv_place s)) = Some i -> si_DeletionState i = DeletionActive ->
  (forall r h s s' x, op r h s = (s', x) -> idle s s' \/ routedRun r h (chk r h) body x s s') ->
  (forall r h n, looking (chk r h n)) ->
  (forall r h n s s', chk r h n s = (s', Ok tt) -> mayRun memory r h (tablesOf s) (storedHarness r i) n) ->
  (forall name p m s s' y, body name p m -> m s = (s', y) -> placerRun uid name p s s') ->
  routed_ op s = (s', x) -> pinned memory uid s s'.
Proof.
  intros Hi Ha Hop Hlk Hchk Hbody (p' & Hr & ->)%routed_inv.
  apply Hop in Hr as [Hr|(name & p & m & s1 & s2 & s3 & H1' & Hk & Hp & Hb & Hm & H3')]; [left; done|right].
  split_and!; [done|done|]. exists i, name, p, s2, s3. split_and!; [done|done|done| | |by eapply Hbody|done].
  - rewrite <- (idle_tables _ _ H1'). by eapply Hchk.
  - etransitivity; [exact H1'|]. by eapply looking_idle; [apply Hlk|].
Qed.

Lemma refusing_Ok check name s s' : refusing check name s = (s', Ok tt) -> check name s = (s', Ok tt).
Proof. intros ([[]|e] & Hr & Hx)%orErr_inv; by simplify_eq. Qed.

Lemma orErr_run {A} f (m : M ServiceState goerr A) s s' x (Q : ServiceState -> ServiceState -> Prop) :
  orErr f m s = (s', x) -> (forall y, m s = (s', y) -> Q s s') -> Q s s'.
Proof. intros (y & Hy & _)%orErr_inv Hq. by eapply Hq. Qed.

Lemma service_Suspend_pinned uid s s' x : service_Suspend storeProject uid s = (s', x) -> pinned false uid s s'.
Proof.
  unfold service_Suspend. intros (s1 & [i|e] & Hadm & Hr)%bind_inv; apply admitMutation_inv in Hadm as [Hi Hadm].
  2: { destruct Hr as [-> _]. by left. }
  destruct Hadm as [Hsel Hact]. eapply pinned_after; [exact Hi|]. rewrite <- (idle_tables _ _ (proj1 Hi)) in Hsel.
  eapply pinned_then; [|exact Hr|]; [intros; apply idle_current|]. intros s2 y Ho. apply orErr_inv in Ho as (z & Ho & _).
  eapply (pinned_routed false uid i (fun r h => refusing (checkResumedHarness r (storedHarness r i)))); [exact Hsel|exact Hact| | | | |exact Ho].
  - intros r h sa sb u Hu. apply registry_Suspend_run with (chk := refusing (checkResumedHarness r (storedHarness r i))) in Hu; [exact Hu|done|]. intros n. apply looking_refusing, looking_checkResumed.
  - intros. apply looking_refusing, looking_checkResumed.
  - intros r h n sa sb Hc%refusing_Ok. apply checkResumedHarness_Ok in Hc as [Hst Hne]. split; [done|].
    intros Hn. destruct (Hne Hn). done.
  - intros name p m sa sb u -> Hm. by eapply run_suspension.
Qed.

Lemma service_Resume_pinned uid expected s s' x : service_Resume storeProject uid expected s = (s', x) -> pinned true uid s s'.
Proof.
  unfold service_Resume. intros (s1 & [i|e] & Hadm & Hr)%bind_inv; apply admitMutation_inv in Hadm as [Hi Hadm].
  2: { destruct Hr as [-> _]. by left. }
  destruct Hadm as [Hsel Hact]. eapply pinned_after; [exact Hi|]. rewrite <- (idle_tables _ _ (proj1 Hi)) in Hsel.
  eapply pinned_then; [|exact Hr|]; [intros; apply idle_current|]. intros s2 y Ho. apply orErr_inv in Ho as (z & Ho & _).
  unfold unlessParked in Ho. match type of Ho with (let '(_, _) := ?m in _) = _ => destruct m as [s3 w] eqn:Ho' end. injection Ho as <- _.
  eapply (pinned_routed true uid i (fun r h => refusing (resumeCheck r h (storedHarness r i)))); [exact Hsel|exact Hact| | | | |exact Ho'].
  - intros r h sa sb u Hu. apply registry_Resume_run with (chk := refusing (resumeCheck r h (storedHarness r i))) in Hu; [exact Hu|done|]. intros n. apply looking_refusing, looking_resumeCheck.
  - intros. apply looking_refusing, looking_resumeCheck.
  - intros r h n sa sb Hc%refusing_Ok. apply resumeCheck_Ok in Hc as [Hst Hne]. split; [done|].
    intros Hn. destruct (Hne Hn) as (?&?&?). done.
  - intros name p m sa sb u (state & c & Hn & ->) Hm. by eapply run_recovery.
Qed.

(** *** Exec *)

Variable sendFault : nat -> option goerr.
#[local] Abbreviation hook := (None : option (ServiceState -> ServiceState)).

Lemma idle_resolve uid override : servesIdle (resolvePlacer hook uid override).
Proof.
  unfold resolvePlacer. apply idle_bind; [apply idle_routed; intros; apply looking_resolvePinned|intros [harness other]].
  apply idle_bind; [destruct other; [|apply idle_ret]; apply idle_bind|intros; apply idle_bind].
  - by intros s s' r [= <- _].
  - intros _. apply idle_routed. intros. apply looking_resolveOverride.
  - apply idle_routed. intros. looking.
  - idling.
Qed.

Lemma idle_approvalRoute uid inputs : servesIdle (approvalRoute storeProject uid inputs).
Proof. unfold approvalRoute. idling. Qed.
#[local] Hint Resolve idle_resolve idle_approvalRoute idle_current : idle.

Lemma idle_execRead req uid sess : servesIdle (execRead storeProject hook req uid sess).
Proof. unfold execRead, sessionRead. idling. Qed.

Lemma approvalRoute_Ok uid inputs s s' j : approvalRoute storeProject uid inputs s = (s', Ok (Some j)) ->
  selectSession uid (tablesOf (sv_place s)) = Some j /\ si_DeletionState j = DeletionActive.
Proof.
  unfold approvalRoute. intros (s1 & x & (y & (d & (_ & _ & Hy)%SessionInfo_inv)%onDB_inv & ->)%try_inv & Hr)%bind_inv.
  destruct y as [i|e]; [|destruct (errors_Is _ _); discriminate].
  apply bind_inv in Hr as (s2 & x & [-> Hx]%deleted_check & Hr). destruct x as [[]|e]; [|by destruct Hr].
  apply bind_inv in Hr as (s3 & [st|e] & _ & Hr); [|by destruct Hr].
  destruct st as [st|]; [destruct (as_Completed st), inputs; try destruct (_ && _)|];
    unfold mret, M_ret, throw in Hr; by simplify_eq.
Qed.

Lemma resolvePlacer_mayRun uid override s s' p harness : resolvePlacer hook uid override s = (s', Ok (p, harness)) ->
  let r := sv_registry s in let h := sv_heap s in let t := tablesOf (sv_place s) in
  placerAt r h harness = Ok p /\ exists i, selectSession uid t = Some i /\ si_DeletionState i = DeletionActive /\
    mayRun true r h t (storedHarness r i) harness.
Proof.
  intros Hr. pose proof (idle_resolve _ _ _ _ _ Hr) as (Hi & Hr' & Hh').
  apply resolvePlacer_Ok in Hr as (Hp & i & Hsel & Hact & Hst & Hrest). rewrite Hr', Hh' in *. rewrite (idle_tables _ _ Hi) in *.
  split; [done|]. exists i. split_and!; [done|done|]. cbv zeta in Hrest. destruct (_ || _).
  - destruct Hrest as (-> & _). by split.
  - destruct Hrest as (-> & Ha & Hb & Hs & Hrow & Hmem). split; [by intros _|]. by intros _.
Qed.

(** The route of a call. *)
Definition routePinned (uid : string) (route : ExecRoute) (s : ServiceState) : Prop :=
  let r := sv_registry s in let h := sv_heap s in let t := tablesOf (sv_place s) in
  exists i, selectSession uid t = Some i /\ si_DeletionState i = DeletionActive /\
    match route with
    | RouteRecover j => j = i
    | RouteTurn p harness => placerAt r h harness = Ok p /\ mayRun true r h t (storedHarness r i) harness
    end.

Lemma routePinned_idle uid route s s' : idles s s' -> routePinned uid route s' -> routePinned uid route s.
Proof. intros (Hi & Hr & Hh). unfold routePinned. by rewrite Hr, Hh, (idle_tables _ _ Hi). Qed.

Lemma execRead_Ok req uid s s' route head sess : execRead storeProject hook req uid None s = (s', Ok (route, head, sess)) ->
  routePinned uid route s'.
Proof.
  intros (y & Hr & Hy)%orErr_inv. destruct y as [y|]; [|discriminate]. injection Hy as <-.
  apply guarded_inv in Hr as [[_ [? [=]]]|(s1 & s2 & Hi & Hr & Ho)].
  apply (routePinned_idle _ _ s' s'); [done|].
  assert (routePinned uid route s1) as Hp.
  { apply bind_inv in Hr as (sa & [rec|e] & Hra & Hr); [|by destruct Hr].
    pose proof (idle_approvalRoute _ _ _ _ _ Hra) as Hia.
    apply bind_inv in Hr as (sb & [rt|e] & Hrb & Hr); [|by destruct Hr].
    assert (rt = route) as ->.
    { apply bind_inv in Hr as (sc & [hd|e] & _ & Hr); [|by destruct Hr].
      apply bind_inv in Hr as (sd & [ss|e] & _ & Hr); [|by destruct Hr]. by injection Hr. }
    destruct rec as [j|].
    - apply approvalRoute_Ok in Hra as [Hj Ha]. injection Hrb as _ <-. by exists j.
    - eapply routePinned_idle; [exact Hia|].
      apply bind_inv in Hrb as (sc & [[p harness]|e] & Hrc & Hrb); [|by destruct Hrb]. injection Hrb as _ <-.
      apply resolvePlacer_mayRun in Hrc as (Hp & i & Hsel & Hact & Hm). exists i. done. }
  clear -Hp Hi Hr Ho. assert (idles s1 s2) as H12.
  { match type of Hr with ?m s1 = _ => assert (servesIdle m) as Hm by idling end. by eapply Hm. }
  assert (idles s1 s') as (Hj & Hr' & Hh') by (by etransitivity). unfold routePinned in *.
  by rewrite Hr', Hh', (idle_tables _ _ Hj).
Qed.

Lemma recoveryCheck_Ok r h uid stored expected n s s' : recoveryCheck storeProject r h uid stored expected n s = (s', Ok tt) ->
  mayRun true r h (tablesOf s) stored n.
Proof.
  intros (s1 & t & Ht & Hr)%bind_inv. pose proof (lk_tables _ _ (looking_tickP _ _ _ Ht)) as Ht1.
  destruct t as [t|]; [|by destruct Hr]. apply bind_inv in Hr as (s2 & x & Hc & Hr).
  match type of Hc with ?m s1 = _ => assert (looking m) as Hlk by looking end. apply Hlk in Hc.
  destruct x as [[]|]; [|by destruct Hr]. apply resumeCheck_Ok in Hr as [Hst Hne].
  rewrite (lk_tables _ _ Hc), Ht1 in Hst, Hne. split; [done|]. intros Hn. destruct (Hne Hn) as (?&?&?). done.
Qed.

Lemma execOperation_pinned req uid route expected s s' x : routePinned uid route s ->
  execOperation storeProject req uid route expected s = (s', x) -> pinned true uid s s'.
Proof.
  intros (i & Hsel & Hact & Hroute) Hr. destruct route as [j|p harness]; cbn [execOperation] in Hr.
  - subst j.
    eapply (pinned_routed true uid i (fun r h => refusing (recoveryCheck storeProject r h uid (storedHarness r i) (er_ExpectedLastSeq req))));
      [exact Hsel|exact Hact| | | | |exact Hr].
    + intros r h sa sb u Hu. apply registry_Resume_run with (chk := refusing (recoveryCheck storeProject r h uid (storedHarness r i) (er_ExpectedLastSeq req))) in Hu;
        [exact Hu|done|]. intros n. apply looking_refusing, looking_recoveryCheck.
    + intros. apply looking_refusing, looking_recoveryCheck.
    + intros r h n sa sb Hc%refusing_Ok. by apply recoveryCheck_Ok in Hc.
    + intros name p m sa sb u (state & c & Hn & ->) Hm. by eapply run_recovery.
  - destruct Hroute as [Hp Hm]. unfold onPlace in Hr.
    match type of Hr with (let '(_, _) := ?m in _) = _ => destruct m as [p1 y] eqn:E end. injection Hr as <- _.
    match type of E with (let '(_, _) := ?m in _) = _ => destruct m as [p2 z] eqn:E2 end. injection E as <- _.
    right. split_and!; [done|done|]. exists i, harness, p, (sv_place s), p2. split_and!; try done. by eapply run_turn; [|exact E2].
Qed.

(** Streams leave the service's state alone. *)
Lemma streamed {F} (m : M (ServiceState * Stream F) goerr unit) : (forall s, fst (fst (m s)) = fst s) ->
  forall s s' x, m s = (s', x) -> fst s' = fst s.
Proof. intros Hm s s' x E. specialize (Hm s). by rewrite E in Hm. Qed.
Lemma Send_streamed {F} (f : F) s s' x : Send sendFault f s = (s', x) -> fst s' = fst s.
Proof. unfold Send. destruct (sendOn _ _ _) as [st r]. by intros [= <- _]. Qed.
Lemma sendRecords_streamed recs s s' x : sendRecords sendFault recs s = (s', x) -> fst s' = fst s.
Proof.
  revert s. induction recs as [|r recs IH]; intros s; [by intros [= <- _]|].
  intros (s1 & y & H1'%Send_streamed & Hr)%bind_inv. destruct y; [rewrite <- H1'; by apply IH|by destruct Hr as [-> _]].
Qed.
Lemma onService_inv {F A} (m : M ServiceState goerr A) (s s' : ServiceState * Stream F) x : onService m s = (s', x) ->
  m (fst s) = (fst s', x) /\ snd s' = snd s.
Proof. unfold onService. destruct (m _) as [sv r]. by intros [= <- <-]. Qed.
Lemma observed_inv m s s' x : observed sendFault m s = (s', x) -> exists y, m (fst s) = (fst s', y).
Proof.
  unfold observed. destruct (m _) as [sv r]. destruct (relay _ _ _ _) as [st [n e]]. intros [= <- _]. by exists r.
Qed.

(** What follows the turn only reads and sends. *)
Lemma afterTurn_idles uid headBefore recordsSent again (s s' : ServiceState * Stream ExecFrame) x :
  (do! (if Nat.eqb recordsSent 0
        then let! recs := onService (orErr (fun _ => EStatus codes_Internal)
               (onDB (st_Read (Store := SqlLog_Store storeProject uid) (headBefore + 1)))) in sendRecords sendFault recs
        else mret tt) in
   if (again : bool) then let! current := onService (currentSession uid) in Send sendFault (FrameSession current) else mret tt) s = (s', x) ->
  idles (fst s) (fst s').
Proof.
  intros (s1 & y & Hr1 & Hr)%bind_inv. assert (idles (fst s) (fst s1)) as H1'.
  { destruct (Nat.eqb _ _); [|by injection Hr1 as <- _].
    apply bind_inv in Hr1 as (s2 & z & [Hz _]%onService_inv & Hr1).
    assert (idles (fst s) (fst s2)) as H2'.
    { match type of Hz with ?m _ = _ => assert (servesIdle m) as Hm by idling end. by eapply Hm. }
    destruct z; [apply sendRecords_streamed in Hr1; by rewrite Hr1|by destruct Hr1 as [-> _]]. }
  destruct y; [|by destruct Hr as [-> _]]. destruct again; [|by injection Hr as <- _].
  apply bind_inv in Hr as (s2 & z & [Hz%idle_current _]%onService_inv & Hr). etransitivity; [exact H1'|].
  destruct z; [apply Send_streamed in Hr; by rewrite Hr|by destruct Hr as [-> _]].
Qed.

Lemma service_Exec_pinned req s st s' st' x : er_Session req <> EmptyString ->
  service_Exec storeProject defaultProject hook sendFault req (s, st) = ((s', st'), x) -> pinned true (er_Session req) s s'.
Proof.
  intros Hne Hr. unfold service_Exec in Hr. rewrite bool_decide_eq_false_2 in Hr by done.
  apply bind_inv in Hr as (s1 & y & [Hy _]%onService_inv & Hr). injection Hy as Hs1 <-. cbn [fst] in Hs1.
  apply bind_inv in Hr as (s2 & y & [Hy _]%onService_inv & Hr). rewrite <- Hs1 in Hy.
  pose proof (idle_execRead _ _ _ _ _ _ Hy) as Hi. apply (pinned_after _ _ _ _ _ Hi). clear Hi.
  destruct y as [[[route head] sess]|e]; [|destruct Hr as [Hr _]; rewrite <- Hr; by left].
  apply execRead_Ok in Hy. apply bind_inv in Hr as (s3 & y & Hs3%Send_streamed & Hr). rewrite <- Hs3 in Hy |- *.
  destruct y; [|destruct Hr as [Hr _]; rewrite <- Hr; by left].
  apply bind_inv in Hr as (s4 & y & [z Hz]%observed_inv & Hr). apply (execOperation_pinned _ _ _ _ _ _ _ Hy) in Hz.
  apply (pinned_before _ _ _ _ _ Hz). destruct y as [[operationErr recordsSent]|e]; [|destruct Hr as [Hr _]; by rewrite <- Hr].
  apply bind_inv in Hr as (s5 & y & Hl & Hr). injection Hl as <- Hl. destruct y as [parked|e]; [|destruct Hr as [Hr _]; by rewrite <- Hr].
  by apply afterTurn_idles in Hr.
Qed.

(** *** Refusal *)

Lemma resolvePlacer_refuses window uid override s i : faultFree ->
  let r := sv_registry s in let t := tablesOf (sv_place s) in let stored := storedHarness r i in
  selectSession uid t = Some i -> si_DeletionState i = DeletionActive -> (Static r stored = true -> hasRow t stored = false) ->
  override <> EmptyString -> override <> stored -> registeredName r t stored || registeredName r t override = true ->
  exists s', resolvePlacer window uid override s = (s', Err (EStatus codes_FailedPrecondition)) /\ idles s s'.
Proof.
  intros Hfree r t stored Hi Hact Hst Hne Hns Hpin.
  destruct (resolvePinned_refuses r uid override (sv_place s) i Hfree Hi Hact Hst Hne Hns Hpin) as [p E].
  exists (setPlace p s). unfold resolvePlacer, mbind, M_bind, routed_, onPlace. unfold r in E. rewrite E. split; [done|].
  split_and!; [|done|done]. by eapply looking_idle; [apply looking_resolvePinned|].
Qed.

(** An override the routing rules pin: the session is there, its harness unambiguous, another one asked
    for, and one of the two registered. *)
Definition pinnedOverride (uid override : string) (s : ServiceState) : Prop :=
  let r := sv_registry s in let t := tablesOf (sv_place s) in
  exists i, selectSession uid t = Some i /\ si_DeletionState i = DeletionActive /\
    (Static r (storedHarness r i) = true -> hasRow t (storedHarness r i) = false) /\
    override <> EmptyString /\ override <> storedHarness r i /\
    registeredName r t (storedHarness r i) || registeredName r t override = true.
Lemma pinnedOverride_idles uid override s s' : idles s s' -> pinnedOverride uid override s -> pinnedOverride uid override s'.
Proof. intros (Hi & Hr & Hh). unfold pinnedOverride. by rewrite Hr, (idle_tables _ _ Hi). Qed.
Lemma resolvePlacer_pinned window uid override s : faultFree -> pinnedOverride uid override s ->
  exists s', resolvePlacer window uid override s = (s', Err (EStatus codes_FailedPrecondition)) /\ idles s s'.
Proof. intros Hfree (i & Hi & Ha & Hst & Hne & Hns & Hpin). by apply (resolvePlacer_refuses window uid override s i). Qed.

Lemma approvalRoute_inputs uid inputs s s' j : inputs <> [] -> approvalRoute storeProject uid inputs s = (s', Ok j) -> j = None.
Proof.
  intros Hin (s1 & x & _ & Hr)%bind_inv. destruct x as [[i|e]|e]; [| |by destruct Hr].
  - apply bind_inv in Hr as (s2 & [[]|e] & _ & Hr); [|by destruct Hr].
    apply bind_inv in Hr as (s3 & [st|e] & _ & Hr); [|by destruct Hr].
    destruct st as [st|]; [destruct (as_Completed st), inputs; try destruct (_ && _)|];
      unfold mret, M_ret, throw in Hr; by simplify_eq.
  - destruct (errors_Is _ _); unfold mret, M_ret, throw in Hr; by simplify_eq.
Qed.

(** A turn with inputs never starts under a pinned override. *)
Lemma execRead_refused req uid s s' x : faultFree -> er_Inputs req <> [] -> pinnedOverride uid (er_Harness req) s ->
  execRead storeProject hook req uid None s = (s', x) -> exists e, x = Err e.
Proof.
  intros Hfree Hin Hpin (y & Hr & ->)%orErr_inv. destruct y as [y|]; [exfalso|by eexists].
  apply guarded_inv in Hr as [[_ [? [=]]]|(s1 & s2 & Hi & Hr & Ho)].
  apply bind_inv in Hr as (sa & [rec|e] & Hra & Hr); [|by destruct Hr].
  pose proof (idle_approvalRoute _ _ _ _ _ Hra) as Hia. apply approvalRoute_inputs in Hra as ->; [|done].
  apply bind_inv in Hr as (sb & [rt|e] & Hrb & Hr); [|by destruct Hr].
  apply bind_inv in Hrb as (sc & z & Hrc & Hrb).
  destruct (resolvePlacer_pinned hook uid (er_Harness req) sa Hfree) as (sd & E & _).
  { eapply pinnedOverride_idles; [|exact Hpin]. by etransitivity. }
  rewrite E in Hrc. injection Hrc as _ <-. by destruct Hrb.
Qed.
Lemma service_Exec_refused req s st s' st' x : faultFree -> er_Session req <> EmptyString -> er_Inputs req <> [] ->
  pinnedOverride (er_Session req) (er_Harness req) s ->
  service_Exec storeProject defaultProject hook sendFault req (s, st) = ((s', st'), x) ->
  idles s s' /\ st' = st /\ exists e, x = Err e.
Proof.
  intros Hfree Hne Hin Hpin Hr. unfold service_Exec in Hr. rewrite bool_decide_eq_false_2 in Hr by done.
  apply bind_inv in Hr as (s1 & y & [Hy Hs1']%onService_inv & Hr). injection Hy as Hs1 <-. cbn [fst snd] in Hs1, Hs1'.
  apply bind_inv in Hr as (s2 & y & [Hy Hs2']%onService_inv & Hr). rewrite <- Hs1 in Hy.
  pose proof (idle_execRead _ _ _ _ _ _ Hy) as Hi.
  destruct (execRead_refused _ _ _ _ _ Hfree Hin Hpin Hy) as [e ->]. destruct Hr as [Hr ->].
  rewrite <- Hr in *. cbn [fst snd] in *. split_and!; [done|congruence|by eexists].
Qed.

(** ** Calls *)

(** A call on an existing session; whether the memory rule applies to it. *)
Inductive sessionCall (uid : string) : bool -> ServiceState -> ServiceState -> Prop :=
  | call_exec req st s s' st' x : er_Session req = uid -> uid <> EmptyString ->
      service_Exec storeProject defaultProject hook sendFault req (s, st) = ((s', st'), x) -> sessionCall uid true s s'
  | call_resume expected s s' x : service_Resume storeProject uid expected s = (s', x) -> sessionCall uid true s s'
  | call_suspend s s' x : service_Suspend storeProject uid s = (s', x) -> sessionCall uid false s s'.
End Handlers.

(** C16: A session on a registered harness stays on it, and no session borrows a registered harness for a
    turn. With the registry as it is during the call, a call of Exec, Resume or Suspend on an existing
    session only reads, or runs exactly one operation of the placer of a harness the session may run
    on, and only reads besides: its own harness, or another when neither is registered and, for Exec and
    Resume, no memory is left behind; never a static one that is also registered. The step that
    resolves Exec's harness is right also when the registry and the database change in its window: whatever lands
    there, the placer it answers is that of the session's harness or of a static override that
    passed the rules on both sides of the window. When the database answers, that step refuses a pinned
    override with FAILED_PRECONDITION and without an effect, and so an Exec that brings inputs and a pinned override
    fails, having only read and streamed nothing. (An Exec without inputs that completes an
    interrupted approval does not route by its override: it runs on the session's own harness.) *)
Theorem routing_pins `{Host} `{Encoding} `{Timestamppb} `{!ProtoCodec} `{Driver} `{PlacementHost} `{ProtoJson} `{ServiceHost} `{!DriverLaws}
    storeProject defaultProject sendFault uid :
  (forall memory s s', sessionCall storeProject defaultProject sendFault uid memory s s' ->
    idles s s' \/ pinnedRun storeProject memory uid s s') /\
  (forall window override s s' p harness, resolvePlacer window uid override s = (s', Ok (p, harness)) ->
    let r := sv_registry s in let t := tables (w_log (ps_world (sv_place s))) in
    let r' := sv_registry s' in let h' := sv_heap s' in
    placerAt r' h' harness = Ok p /\
    exists i, selectSession uid t = Some i /\ si_DeletionState i = DeletionActive /\ (harness = storedHarness r i \/
      harness = override /\ registeredName r t (storedHarness r i) = false /\ registeredName r t override = false /\
      Static r' override = true /\ hasRow (tables (w_log (ps_world (sv_place s')))) override = false /\
      (memoryTier r' h' (storedHarness r i) -> ~ stateless r' h' override))) /\
  (faultFree -> forall override s, pinnedOverride uid override s ->
    (forall window, exists s', resolvePlacer window uid override s = (s', Err (EStatus codes_FailedPrecondition)) /\ idles s s') /\
    (forall req st s' st' x, er_Session req = uid -> uid <> EmptyString -> er_Harness req = override -> er_Inputs req <> [] ->
      service_Exec storeProject defaultProject None sendFault req (s, st) = ((s', st'), x) ->
      idles s s' /\ st' = st /\ exists e, x = Err e)).
Proof.
  split; [|split].
  - intros memory s s' Hc. destruct Hc as [req st s s' st' x <- Hne Hr|expected s s' x Hr|s s' x Hr].
    + by eapply service_Exec_pinned.
    + by eapply service_Resume_pinned.
    + by eapply service_Suspend_pinned.
  - intros window override s s' p harness (Hp & i & Hi & Ha & _ & Hrest)%resolvePlacer_Ok.
    split; [done|]. exists i. split_and!; [done|done|]. cbv zeta in Hrest. destruct (_ || _); [by left; destruct Hrest|by right].
  - intros Hfree override s Hpin. split; [intros window; by apply resolvePlacer_pinned|].
    intros req st s' st' x <- Hne <- Hin. by apply service_Exec_refused.
Qed.

(** ** Examples *)

#[local] Existing Instance exampleHost.
#[local] Existing Instance exampleEncoding.
#[local] Existing Instance exampleTimestamppb.
#[local] Existing Instance exampleDriver.
#[local] Existing Instance exampleDriverLaws.
#[local] Existing Instance examplePlacementHost.
#[local] Existing Instance exampleProtoJson.
#[local] Existing Instance exampleServiceHost.

(** The same service after another process registered the harness "h". *)
Definition exampleRegistered : ServiceState := fst (onDB (RegisterHarness exampleHarness) (fst exampleCreated)).
Definition createdInfo : option SessionInfo := selectSession exampleUID (tables (w_log (ps_world (sv_place (fst exampleCreated))))).

Lemma routing_pins_witness :
  pinnedRun "default" true exampleUID (fst exampleCreated) (fst (fst exampleExecuted)) /\
  exists s', resolvePlacer None exampleUID "h" exampleRegistered = (s', Err (EStatus codes_FailedPrecondition)).
Proof.
  destruct (routing_pins "default" "default" noFault exampleUID) as (Hpin & _ & Hrefuse). split.
  - destruct (Hpin true (fst exampleCreated) (fst (fst exampleExecuted))) as [[Hi _]|Hd]; [| |exact Hd].
    + apply (call_exec _ _ _ _ exampleRequest freshStream _ _ (snd (fst exampleExecuted)) (snd exampleExecuted)); [reflexivity|discriminate|].
      unfold exampleExecuted. by rewrite <- !surjective_pairing.
    + exfalso. apply idle_updates in Hi. revert Hi. vm_compute. discriminate.
  - destruct createdInfo as [i|] eqn:Hi; [|exfalso; revert Hi; vm_compute; discriminate].
    assert (selectSession exampleUID (tables (w_log (ps_world (sv_place exampleRegistered)))) = Some i) as Hsel
      by (rewrite <- Hi; vm_compute; reflexivity).
    assert (Some (si_DeletionState i) = Some DeletionActive) as [= Hact] by (change (Some (si_DeletionState i)) with (si_DeletionState <$> Some i); rewrite <- Hi; vm_compute; reflexivity).
    assert (Some (storedHarness (sv_registry exampleRegistered) i) = Some "echo"%string) as [= Hst]
      by (change (Some (storedHarness (sv_registry exampleRegistered) i)) with (storedHarness (sv_registry exampleRegistered) <$> Some i); rewrite <- Hi; vm_compute; reflexivity).
    destruct (Hrefuse (fun _ => eq_refl) "h"%string exampleRegistered) as [Hr _].
    + exists i. rewrite Hst. split_and!; [exact Hsel|exact Hact|vm_compute; reflexivity|discriminate|discriminate|vm_compute; reflexivity].
    + destruct (Hr None) as (s' & Hr' & _). exists s'. exact Hr'.
Defined.
