(* ===== verification/ServiceStreams.v ===== *)
(** * What a stream carries is what was committed (theorems about [service_Exec]) *)
From S2P Require Import Prelude GoErrors Api Canon EventLog Executions Approvals Harness Wire Sinks Controller Agents SessionGuard Placement Admission Registry Routing Relay Tables Projection SqlLog SqlExample SqlStore SqlSessions SqlHarnesses SqlSystem Durable GoJson Status Service ServiceOps ServiceFacts ServiceRouting ServiceExample ServicePins.
#[local] Open Scope Z_scope.

(** ** The database as a journal *)

Section Journal.
Context `{Host} `{Encoding} `{Timestamppb} `{!ProtoCodec} `{Driver} `{!ProtoLaws} `{!DriverLaws}.

(** What the database holds for one session. *)
#[export] Instance DB_View (uid : string) : StoreView DB := {|
  journal := fun d => journalOf uid (tables d);
  curFence := fun d => fenceOf uid (tables d);
  persisted := fun ev => EventFromProto (Some (EventToProto ev));
|}.

Lemma same_wf (d d' : DB) : saved d' = saved d -> tables d' = tables d -> db_wf d -> db_wf d'.
Proof. unfold db_wf. by intros -> ->. Qed.

(** At rest, after a history of calls that started in [d0]. *)
Definition settled (d0 d : DB) : Prop := db_wf d /\ rtc db_step d0 d.

Lemma settled_reads d0 d d' : saved d' = saved d -> tables d' = tables d -> settled d0 d -> settled d0 d'.
Proof. intros Hs Ht [Hw Hr]. split; [by eapply same_wf|]. eapply rtc_r; [exact Hr|by apply call_reads]. Qed.

Lemma DB_journal project uid d0 : JournalLaws DB (H := SqlLog_Store project uid) (H0 := DB_View uid) (settled d0).
Proof.
  constructor; simpl.
  - intros exp f ev d d' r [Hwf Hsteps] E. split.
    { split; [rewrite <- (f_equal fst E : _ = d'); by apply sql_Append_wf|]. eapply rtc_r; [exact Hsteps|by eapply call_Append]. }
    destruct Hwf as [Hs Hwf]. apply sql_Append_inv in E as [_ Ha]; [|done]. destruct r as [rec|e].
    + apply appended_journal in Ha as (_ & _ & _ & _ & _ & _ & Hev & ->); [|done]. unfold stored. by rewrite Hev.
    + by rewrite Ha, app_nil_r.
  - intros d d' r Hwf (Hs & Ht & _)%select_inv. split; [by eapply settled_reads|by rewrite Ht].
  - intros d d' r [Hwf Hsteps] E. split.
    { split; [rewrite <- (f_equal fst E : _ = d'); by apply sql_NewFence_wf|]. eapply rtc_r; [exact Hsteps|by eapply call_NewFence]. }
    apply sql_NewFence_inv in E as [_ Hr]. destruct r as [f|e]; [|by rewrite Hr].
    destruct Hr as (_ & _ & _ & _ & He & _). apply journalOf_events. unfold sessionEvents. by rewrite He.
  - intros from d d' r Hwf (Hs & Ht & _)%sql_Read_inv. split; [by eapply settled_reads|by rewrite Ht].
  - intros d d' r Hwf (Hs & Ht & _)%checkWritable_inv. split; [by eapply settled_reads|by rewrite Ht].
Qed.
End Journal.

Section Streams.
Context `{Host} `{Encoding} `{Timestamppb} `{!ProtoCodec} `{Driver} `{PlacementHost} `{ProtoJson} `{ServiceHost} `{!ProtoLaws} `{!DriverLaws}.
Variables (storeProject defaultProject : string) (sendFault : nat -> option goerr).

Abbreviation dbOf s := (w_log (ps_world (sv_place s))).
Abbreviation updatesOf s := (w_updates (ps_world (sv_place s))).
Abbreviation journalAt uid s := (journalOf uid (tables (dbOf s))).

(** ** Calls that leave every journal alone *)

Definition quiet (s s' : ServiceState) : Prop := db_wf (dbOf s) ->
  db_wf (dbOf s') /\ (forall uid, journalAt uid s' = journalAt uid s) /\ updatesOf s' = updatesOf s.
#[export] Instance quiet_preorder : PreOrder quiet.
Proof.
  split; [by intros s|]. intros s1 s2 s3 H12 H23 Hw. destruct (H12 Hw) as (Hw2 & Hj & Hu). destruct (H23 Hw2) as (Hw3 & Hj' & Hu').
  split_and!; [done| |congruence]. intros uid. by rewrite Hj', Hj.
Qed.
Definition quiets {A} (m : M ServiceState goerr A) : Prop := forall s s' r, m s = (s', r) -> quiet s s'.

Lemma idles_quiet s s' : idles s s' -> quiet s s'.
Proof.
  intros [[Hs Ht Hu _ _ _] _] Hw. split_and!; [by eapply same_wf|intros uid; by rewrite Ht|done].
Qed.
Lemma quiets_idle {A} (m : M ServiceState goerr A) : servesIdle m -> quiets m.
Proof. intros Hm s s' r Hr. by eapply idles_quiet, Hm. Qed.
Lemma quiets_bind {A B} (m : M ServiceState goerr A) (f : A -> M ServiceState goerr B) : quiets m -> (forall a, quiets (f a)) -> quiets (m ≫= f).
Proof.
  intros Hm Hf s s' r (s1 & r1 & Hr1 & Hr)%bind_inv. transitivity s1; [by eapply Hm|].
  destruct r1; [by eapply Hf|by destruct Hr as [-> _]].
Qed.
Lemma quiets_orErr {A} f (m : M ServiceState goerr A) : quiets m -> quiets (orErr f m).
Proof. intros Hm s s' r (y & Hy & _)%orErr_inv. by eapply Hm. Qed.
Lemma quiets_put m b : quiets (onDB (PutSessionOnActiveHarness storeProject m b)).
Proof.
  intros s s' r. unfold onDB, onPlace. destruct (onStore _ _) as [p y] eqn:E. intros [= <- <-] Hw. simpl.
  pose proof E as (d' & Ed & Hd)%onStore_inv. rewrite Hd. apply PutOnHarness_inv in Ed as [Hs Hr]; [|apply Hw].
  assert (t_events (tables d') = t_events (tables (dbOf s))) as Hev
    by (destruct y; [by destruct Hr as [[] _]|by rewrite Hr]).
  assert (forall uid, journalOf uid (tables d') = journalAt uid s) as Hj
    by (intros uid; apply journalOf_events; unfold sessionEvents; by rewrite Hev).
  split_and!; [split; [done|intros uid; rewrite Hj; apply Hw]|done|].
  revert E. unfold onStore, onWorldP, onLog. destruct (PutSessionOnActiveHarness _ _ _ _). by intros [= <- _].
Qed.
Lemma quiets_create uid m : quiets (createSession storeProject defaultProject uid m).
Proof.
  unfold createSession. apply quiets_bind; [intros s s' r [= <- _]; reflexivity|intros r].
  apply quiets_bind; [apply quiets_idle; idling|intros harness].
  apply quiets_bind; [apply quiets_orErr, quiets_put|intros _]. apply quiets_idle. idling.
Qed.

(** ** Sessions on the wire *)

Lemma selectSession_UID uid t i : selectSession uid t = Some i -> UID (si_Meta i) = uid.
Proof. unfold selectSession. intros (s & _ & ->)%fmap_Some_1. unfold scanSession, sessionSelect. by case_match. Qed.
Lemma sessionProto_uid info ss : sessionProto info = Ok ss -> md_Uid <$> ss_Metadata ss = Some (UID (si_Meta info)).
Proof.
  unfold sessionProto, applyMetadata. intros Hp. repeat (case_match; try discriminate); by simplify_eq.
Qed.
(** A read of the session and its message. *)
Lemma shown_uid uid f s s' ss : (let! info := orErr f (onDB (SessionInfo_ uid)) in lift (sessionProto info)) s = (s', Ok ss) ->
  md_Uid <$> ss_Metadata ss = Some uid.
Proof.
  intros (s1 & [info|e] & (y & (d & (_ & _ & Hi)%SessionInfo_inv)%onDB_inv & Hy)%orErr_inv & Hr)%bind_inv; [|by destruct Hr].
  destruct y as [i|]; [|discriminate]. injection Hy as <-. injection Hr as _ Hr.
  apply sessionProto_uid in Hr. by rewrite (selectSession_UID _ _ _ Hi) in Hr.
Qed.
Lemma created_uid uid m s s' ss : createSession storeProject defaultProject uid m s = (s', Ok ss) -> md_Uid <$> ss_Metadata ss = Some uid.
Proof.
  unfold createSession. intros (s1 & [r|e] & _ & Hr)%bind_inv; [|by destruct Hr].
  apply bind_inv in Hr as (s2 & [harness|e] & _ & Hr); [|by destruct Hr].
  apply bind_inv in Hr as (s3 & [u|e] & _ & Hr); [|by destruct Hr]. by eapply shown_uid.
Qed.

(** ** The relay *)

Lemma relay_inv us n st st' m err : relay sendFault us n st = (st', (m, err)) -> exists k,
  sent st' = sent st ++ map updateFrame (take k us) /\
  match err with
  | None => k = length us /\ m = (n + length (recordsOf us))%nat
  | Some e => (k < length us)%nat /\ exists j, sendFault j = Some e
  end.
Proof.
  revert n st. induction us as [|u us IH]; intros n st; simpl.
  - intros [= <- <- <-]. exists 0%nat. rewrite app_nil_r. split_and!; [done|done|]. simpl. lia.
  - unfold sendOn. destruct (sendFault (sends st)) as [e|] eqn:E.
    + intros [= <- <- <-]. exists 0%nat. simpl. rewrite app_nil_r. split_and!; [done|lia|by eexists].
    + intros (k & Hk & Hr)%IH. exists (S k). simpl in *. rewrite Hk, <- app_assoc. split; [done|].
      destruct err as [e|]; [destruct Hr; split; [lia|done]|]. destruct Hr as [-> ->]. split; [done|].
      destruct u; simpl; lia.
Qed.

(** ** The operation *)

Lemma looking_relays {A} uid d0 heard (m : M (PState DB) goerr A) : looking m ->
  relays (StoreView0 := DB_View uid) (wf := settled d0) heard (@ps_world DB) m.
Proof.
  intros Hm s s' r Hr Hw. apply Hm in Hr as []. split; [by eapply settled_reads|intros _]. exists [].
  by rewrite lk_updates, !app_nil_r; simpl; rewrite lk_tables.
Qed.

#[local] Abbreviation toldTo uid d0 s s' := (told (StoreView0 := DB_View uid) (wf := settled d0) true (ps_world (sv_place s)) (ps_world (sv_place s'))).

Lemma execOperation_told req uid route expected d0 s s' x : execOperation storeProject req uid route expected s = (s', x) -> toldTo uid d0 s s'.
Proof.
  pose proof (DB_journal storeProject uid d0) as Hlaws. destruct route as [i|p harness]; cbn [execOperation].
  - intros (q & Hr & ->)%routed_inv. revert Hr.
    apply (relays_registry_Resume (H2 := SqlLog_Store storeProject uid) (StoreView0 := DB_View uid) (wf := settled d0) true); [done|].
    intros chk [= <-] n. apply looking_relays, looking_refusing, looking_recoveryCheck.
  - unfold onPlace. match goal with |- (let '(_, _) := ?m in _) = _ -> _ => destruct m as [q y] eqn:E end. intros [= <- _].
    match type of E with (let '(_, _) := ?m in _) = _ => destruct m as [q' z] eqn:E' end. injection E as <- _. revert E'.
    by apply (relays_placer_Exec (H2 := SqlLog_Store storeProject uid) (StoreView0 := DB_View uid) (wf := settled d0) true).
Qed.

(** A turn with its relay: what was reported, how much of it was sent, and what it left in the journal. *)
Lemma observed_told req uid route expected s st s' st' y : db_wf (dbOf s) ->
  observed sendFault (execOperation storeProject req uid route expected) (s, st) = ((s', st'), y) ->
  exists us k, settled (dbOf s) (dbOf s') /\ updatesOf s' = updatesOf s ++ us /\
    journalAt uid s' = journalAt uid s ++ map (stored (StoreView0 := DB_View uid)) (recordsOf us) /\
    sent st' = sent st ++ map updateFrame (take k us) /\
    match y with
    | Ok (_, n) => k = length us /\ n = length (recordsOf us)
    | Err e => (k < length us)%nat /\ exists j, sendFault j = Some e
    end.
Proof.
  intros Hw Hr. unfold observed in Hr. cbn [fst snd] in Hr.
  destruct (execOperation _ _ _ _ _ s) as [sv x] eqn:Eo. apply execOperation_told with (d0 := dbOf s) in Eo as Ht.
  destruct (Ht (conj Hw (rtc_refl _ _))) as (Hw' & Hus). destruct (Hus eq_refl) as (us & Hu & Hj). rewrite Hu, drop_app_length in Hr.
  destruct (relay sendFault us 0 st) as [st1 [n err]] eqn:Er. injection Hr as <- <- <-.
  apply relay_inv in Er as (k & Hk & Hrest). exists us, k. split_and!; [done|done|exact Hj|exact Hk|]. by destruct err.
Qed.

(** ** The whole stream *)

Lemma idle_then_read uid from s s' recs f : db_wf (dbOf s) ->
  orErr f (onDB (st_Read (Store := SqlLog_Store storeProject uid) from)) s = (s', Ok recs) -> recs = readFrom from (journalAt uid s).
Proof.
  intros Hw (y & (d & (_ & _ & Hr)%sql_Read_inv)%onDB_inv & Hy)%orErr_inv. destruct y; [|discriminate]. injection Hy as ->. exact Hr.
Qed.

Lemma readFrom_head l : contiguous 0 l -> readFrom (headOf l + 1) l = [].
Proof.
  intros Hc. destruct (readFrom (headOf l + 1) l) as [|r rs] eqn:E; [done|].
  assert (r ∈ readFrom (headOf l + 1) l) as Hr by (rewrite E; set_solver). apply list_elem_of_filter in Hr as [Hle Hr].
  pose proof (contiguous_bounds _ _ _ Hc Hr) as Hb. rewrite (contiguous_head _ Hc) in Hle. lia.
Qed.

Definition shownAs (uid : string) (ss : PbSession) : Prop := md_Uid <$> ss_Metadata ss = Some uid.

Lemma head_read uid f s s' n : orErr f (onDB (st_Head (Store := SqlLog_Store storeProject uid))) s = (s', Ok n) ->
  n = headOf (journalAt uid s).
Proof.
  intros (y & (d & (_ & _ & Hr)%select_inv)%onDB_inv & Hy)%orErr_inv. destruct y; [|discriminate]. injection Hy as ->.
  destruct Hr as [[= ->]|[? [=]]]. by rewrite headSeq_journal.
Qed.

#[local] Hint Resolve idle_resolve idle_approvalRoute idle_current : idle.

(** What the guarded phase answers. *)
Lemma execRead_shown req uid sess s s' route head ss : (forall z, sess = Some z -> shownAs uid z) ->
  execRead storeProject None req uid sess s = (s', Ok (route, head, ss)) ->
  shownAs uid ss /\ head = headOf (journalAt uid s').
Proof.
  intros Hsess Hr. pose proof (idle_execRead _ _ _ _ _ _ _ Hr) as Hi.
  rewrite (idle_tables _ _ (proj1 Hi)). apply orErr_inv in Hr as (y & Hr & Hy).
  destruct y as [y|]; [|discriminate]. injection Hy as <-.
  apply guarded_inv in Hr as [[_ [? [=]]]|(s1 & s2 & Hi1 & Hr & _)]. rewrite <- (idle_tables _ _ (proj1 Hi1)).
  apply bind_inv in Hr as (sa & [rec|e] & Ha & Hr); [|by destruct Hr].
  assert (idles s1 sa) as Hia by (revert Ha; match goal with |- ?m _ = _ -> _ => assert (servesIdle m) as Hm by idling; apply Hm end).
  apply bind_inv in Hr as (sb & [rt|e] & Hb & Hr); [|by destruct Hr].
  assert (idles sa sb) as Hib by (revert Hb; match goal with |- ?m _ = _ -> _ => assert (servesIdle m) as Hm by idling; apply Hm end).
  apply bind_inv in Hr as (sc & [hd|e] & Hc & Hr); [|by destruct Hr]. apply head_read in Hc.
  apply bind_inv in Hr as (sd & [z|e] & Hd & Hr); [|by destruct Hr]. injection Hr as _ <- <- <-. split.
  - destruct sess as [z'|]; [injection Hd as _ <-; by apply Hsess|by eapply shown_uid].
  - by rewrite Hc, (idle_tables _ _ (proj1 Hib)), (idle_tables _ _ (proj1 Hia)).
Qed.

(** The session a call runs on. *)
Lemma execSession_inv req s s' x :
  (if bool_decide (er_Session req = EmptyString)
   then let! uid := newUID in
        let! created := createSession storeProject defaultProject uid
          (mkSessionMeta uid EmptyString EmptyString (er_Harness req) EmptyString EmptyString 0 None None
             EmptyString EmptyString EmptyString EmptyString) in
        mret (uid, Some created)
   else mret (er_Session req, None)) s = (s', x) ->
  quiet s s' /\ match x with
  | Ok (uid, sess) => (er_Session req <> EmptyString -> uid = er_Session req) /\ forall z, sess = Some z -> shownAs uid z
  | Err _ => True
  end.
Proof.
  case_bool_decide as He.
  - intros (s1 & y & Hu & Hr)%bind_inv. assert (quiet s s1) as Hq1.
    { apply idles_quiet. revert Hu. assert (servesIdle newUID) as Hm by (unfold newUID; apply idle_bind; [apply idle_onPlace, looking_tickP|idling]). apply Hm. }
    destruct y as [uid|e]; [|destruct Hr as [-> ->]; done].
    apply bind_inv in Hr as (s2 & y & Hc & Hr). pose proof (quiets_create _ _ _ _ _ Hc) as Hq2.
    destruct y as [ss|e]; [|destruct Hr as [-> ->]; split; [by etransitivity|done]]. injection Hr as <- <-.
    split; [by etransitivity|]. split; [done|]. intros z [= <-]. by eapply created_uid.
  - intros [= <- <-]. done.
Qed.

Definition sessionTail (uid : string) (frames : list ExecFrame) : Prop :=
  frames = [] \/ exists current, frames = [FrameSession current] /\ shownAs uid current.

Lemma Send_inv {F} (f : F) s s' x : Send sendFault f s = (s', x) -> fst s' = fst s /\
  match x with
  | Ok _ => sent (snd s') = sent (snd s) ++ [f]
  | Err e => sent (snd s') = sent (snd s) /\ exists j, sendFault j = Some e
  end.
Proof. unfold Send, sendOn. destruct (sendFault _) as [e|] eqn:E; intros [= <- <-]; split_and!; try done. by eexists. Qed.

(** What follows the turn: nothing is read again, as everything was reported, and at most the session is sent. *)
Lemma afterTurn_sent uid headBefore n again s st s' st' x : db_wf (dbOf s) -> (n = 0%nat -> headOf (journalAt uid s) = headBefore) ->
  (do! (if Nat.eqb n 0
        then let! recs := onService (orErr (fun _ => EStatus codes_Internal)
               (onDB (st_Read (Store := SqlLog_Store storeProject uid) (headBefore + 1)))) in sendRecords sendFault recs
        else mret tt) in
   if (again : bool) then let! current := onService (currentSession uid) in Send sendFault (FrameSession current) else mret tt) (s, st) = ((s', st'), x) ->
  exists tail, sent st' = sent st ++ tail /\ sessionTail uid tail.
Proof.
  intros Hw Hhead (s1 & y & Hr1 & Hr)%bind_inv.
  assert (sent (snd s1) = sent st /\ (forall e, y = Err e -> snd s1 = st)) as [Hs1 He].
  { destruct (Nat.eqb n 0) eqn:En; [|by injection Hr1 as <- <-]. apply Nat.eqb_eq in En.
    apply bind_inv in Hr1 as (s2 & z & [Hz Hst]%onService_inv & Hr1). cbn [fst snd] in *. destruct z as [recs|e].
    - apply (idle_then_read uid) in Hz; [|done]. rewrite <- (Hhead En), readFrom_head in Hz by apply Hw. subst recs.
      injection Hr1 as <- <-. by rewrite Hst.
    - destruct Hr1 as [<- ->]. by rewrite Hst. }
  destruct y as [[]|e].
  2: { destruct Hr as [Hr _]. apply (f_equal snd) in Hr. cbn [snd] in Hr. subst st'. exists []. rewrite app_nil_r. split; [done|by left]. }
  destruct again.
  - apply bind_inv in Hr as (s2 & y & [Hc Hst]%onService_inv & Hr). destruct y as [current|e].
    + apply Send_inv in Hr as [_ Hr]. cbn [snd] in Hr. rewrite Hst, Hs1 in Hr. destruct x.
      * exists [FrameSession current]. split; [done|]. right. exists current. split; [done|by eapply shown_uid].
      * destruct Hr as [Hr _]. exists []. rewrite app_nil_r. split; [done|by left].
    + destruct Hr as [Hr _]. apply (f_equal snd) in Hr. cbn [snd] in Hr. subst st'. rewrite Hst, Hs1.
      exists []. rewrite app_nil_r. split; [done|by left].
  - injection Hr as Hr _. apply (f_equal snd) in Hr. cbn [snd] in Hr. subst st'. exists []. rewrite app_nil_r. split; [done|by left].
Qed.

(** What a call streamed and committed. *)
Definition streamedRun (uid : string) (s s' : ServiceState) (frames : list ExecFrame) (x : res unit) : Prop :=
  exists sess us k tail, shownAs uid sess /\
    updatesOf s' = updatesOf s ++ us /\
    journalAt uid s' = journalAt uid s ++ map (stored (StoreView0 := DB_View uid)) (recordsOf us) /\
    frames = FrameSession sess :: map updateFrame (take k us) ++ tail /\ sessionTail uid tail /\
    (k = length us \/ (k < length us)%nat /\ tail = [] /\ exists j e, sendFault j = Some e /\ x = Err e).

Lemma quiet_streamed uid s s1 s' frames x : db_wf (dbOf s) -> quiet s s1 -> streamedRun uid s1 s' frames x -> streamedRun uid s s' frames x.
Proof.
  intros Hw Hq (sess & us & k & tail & Hs & Hu & Hj & Hrest). destruct (Hq Hw) as (_ & Hj' & Hu').
  exists sess, us, k, tail. rewrite <- Hj', <- Hu'. done.
Qed.

Lemma turn_streamed req uid route head expected ss s st s' st' x : db_wf (dbOf s) -> shownAs uid ss -> sent st = [FrameSession ss] ->
  head = headOf (journalAt uid s) ->
  (let! out := observed sendFault (execOperation storeProject req uid route expected) in
   let '(operationErr, recordsSent) := (out : option goerr * nat) in
   let! parked := lift (execOutcome route operationErr) in
   do! (if Nat.eqb recordsSent 0
        then let! recs := onService (orErr (fun _ => EStatus codes_Internal)
               (onDB (st_Read (Store := SqlLog_Store storeProject uid) (head + 1)))) in sendRecords sendFault recs
        else mret tt) in
   if isRecovery route || (parked : bool)
   then let! current := onService (currentSession uid) in Send sendFault (FrameSession current) else mret tt) (s, st) = ((s', st'), x) ->
  streamedRun uid s s' (sent st') x.
Proof.
  intros Hw Hss Hst Hhead ([s1 st1] & y & Ho & Hr)%bind_inv.
  apply (observed_told _ _ _ _ _ _ _ _ _ Hw) in Ho as (us & k & [Hw1 _] & Hu & Hj & Hk & Hy).
  assert (forall s2 st2 y2, idles s1 s2 -> (exists tail, sent st2 = sent st1 ++ tail /\ sessionTail uid tail /\
      (k = length us \/ (k < length us)%nat /\ tail = [] /\ exists j e, sendFault j = Some e /\ y2 = Err e)) ->
    streamedRun uid s s2 (sent st2) y2) as Hend.
  { intros s2 st2 y2 [[_ Ht Hu2 _ _ _] _] (tail & Hs2 & Htail & Hlen). exists ss, us, k, tail.
    rewrite Hs2, Hk, Hst, Hu2, Ht. by split_and!. }
  destruct y as [[operationErr n]|e].
  2: { destruct Hr as [[= -> ->] ->]. apply Hend; [reflexivity|]. exists []. rewrite app_nil_r. split_and!; [done|by left|].
       right. destruct Hy as (Hlt & j & Hf). split_and!; eauto. }
  destruct Hy as [-> ->].
  apply bind_inv in Hr as ([s2 st2] & y & [= <- <- Hy] & Hr). destruct y as [parked|e].
  2: { destruct Hr as [[= -> ->] _]. apply Hend; [reflexivity|]. exists []. rewrite app_nil_r. split_and!; [done|by left|by left]. }
  apply Hend; [by eapply afterTurn_idles in Hr|].
  destruct (afterTurn_sent uid head (length (recordsOf us)) (isRecovery route || parked) s1 st1 s' st' x Hw1) with (2 := Hr) as (tail & Htail & Hs).
  - intros Hn. apply nil_length_inv in Hn. by rewrite Hj, Hn, app_nil_r.
  - exists tail. split_and!; [done|done|by left].
Qed.
End Streams.

(** ** Replay *)

(** The records a caller asked for. *)
Definition replayWindow (fromSeq toSeq : Z) (l : list Record_) : list Record_ :=
  filter (fun r => toSeq = 0 \/ Seq r <= toSeq) (readFrom (if fromSeq <=? 0 then 1 else fromSeq) l).

Section Replay.
Context `{Host} `{Encoding} `{Timestamppb} `{!ProtoCodec} `{Driver} `{PlacementHost} `{ProtoJson} `{ServiceHost} `{!ProtoLaws} `{!DriverLaws}.
Variables (storeProject : string) (sendFault : nat -> option goerr).
Abbreviation dbOf s := (w_log (ps_world (sv_place s))).
Abbreviation journalAt uid s := (journalOf uid (tables (dbOf s))).

(** Ascending records from some number on. *)
Lemma window_above toSeq n l : toSeq <> 0 -> toSeq < n + 1 -> contiguous n l ->
  filter (fun r => toSeq = 0 \/ Seq r <= toSeq) l = [].
Proof.
  revert n. induction l as [|r l IH]; intros n Hz Hlt Hc; [done|]. destruct Hc as [Hr Hc].
  rewrite filter_cons_False by lia. by apply (IH (n + 1)); [|lia|].
Qed.

Lemma replayLoop_inv toSeq l n (s : ServiceState) st s' st' x : contiguous n l -> replayLoop sendFault toSeq l (s, st) = ((s', st'), x) ->
  let w := filter (fun r => toSeq = 0 \/ Seq r <= toSeq) l in
  s' = s /\ exists k, sent st' = sent st ++ map RecordToProto (take k w) /\
    (k = length w /\ x = Ok tt \/ (k < length w)%nat /\ exists j e, sendFault j = Some e /\ x = Err e).
Proof.
  revert n st. induction l as [|r l IH]; intros n st Hc Hr; cbn [replayLoop] in Hr.
  - injection Hr as <- <- <-. split; [done|]. exists 0%nat. rewrite app_nil_r. split; [done|by left].
  - destruct Hc as [Hs Hc]. destruct (negb (toSeq =? 0) && (toSeq <? Seq r)) eqn:E.
    + apply andb_true_iff in E as [Hz%negb_true_iff%Z.eqb_neq Hlt%Z.ltb_lt]. injection Hr as <- <- <-. split; [done|].
      rewrite filter_cons_False by lia. rewrite (window_above _ (n + 1)) by (done || lia).
      exists 0%nat. rewrite app_nil_r. split; [done|by left].
    + assert (toSeq = 0 \/ Seq r <= toSeq) as Hin.
      { apply andb_false_iff in E as [Hz%negb_false_iff%Z.eqb_eq|Hlt%Z.ltb_ge]; [by left|by right]. }
      rewrite filter_cons_True by done. apply bind_inv in Hr as ([s1 st1] & y & Hy & Hr).
      apply Send_inv in Hy as [Hs1 Hy]. cbn [fst snd] in *. subst s1. destruct y as [[]|e].
      * destruct (IH _ _ Hc Hr) as (-> & k & Hk & Hx). split; [done|]. exists (S k). rewrite Hk, Hy, <- app_assoc. split; [done|].
        simpl. destruct Hx as [[-> ->]|[Hlt Hx]]; [by left|right; split; [lia|done]].
      * destruct Hr as [[= -> ->] ->]. destruct Hy as (Hsent & j & Hj). split; [done|]. exists 0%nat. rewrite Hsent, app_nil_r.
        split; [done|]. right. split; [simpl; lia|eauto].
Qed.

Lemma readFrom_contiguous from n l : contiguous n l -> exists m, contiguous m (readFrom from l).
Proof.
  revert n. induction l as [|r l IH]; intros n Hc; [by exists 0|]. pose proof Hc as [Hr Hc']. unfold readFrom in *.
  destruct (decide (from <= Seq r)) as [Hle|Hle]; [|rewrite filter_cons_False by done; by eapply IH].
  exists n. rewrite filter_cons_True by done. split; [done|]. rewrite filter_all; [done|].
  apply list.Forall_forall. intros x Hx. pose proof (contiguous_bounds _ _ _ Hc' Hx). lia.
Qed.

Lemma service_Replay_inv uid fromSeq toSeq s s' st' x : db_wf (dbOf s) ->
  service_Replay storeProject sendFault uid fromSeq toSeq (s, mkStream [] 0) = ((s', st'), x) ->
  let w := replayWindow fromSeq toSeq (journalAt uid s) in
  idles s s' /\ exists k, sent st' = map RecordToProto (take k w) /\ (x = Ok tt -> k = length w).
Proof.
  intros Hw ([s1 st1] & y & [Hy Hst]%onService_inv & Hr)%bind_inv. cbn [fst snd] in *. subst st1.
  assert (idles s s1) as Hi.
  { revert Hy. match goal with |- ?m _ = _ -> _ => assert (servesIdle m) as Hm by idling; apply Hm end. }
  destruct y as [recs|e].
  2: { destruct Hr as [[= -> ->] ->]. split; [done|]. exists 0%nat. done. }
  apply (idle_then_read storeProject uid) in Hy; [|done]. subst recs. set (l := journalAt uid s) in *.
  destruct (readFrom_contiguous (if fromSeq <=? 0 then 1 else fromSeq) 0 l (proj2 Hw uid)) as [n Hc].
  destruct (replayLoop_inv _ _ _ _ _ _ _ _ Hc Hr) as (-> & k & Hk & Hx). split; [done|]. exists k. split; [exact Hk|].
  intros ->. by destruct Hx as [[-> _]|(_ & j & e & _ & [=])].
Qed.
End Replay.

(** ** Property *)

(** C12: The stream is the journal as it happens. A call of Exec that sent nothing committed nothing. Otherwise
    its first frame is the session, created for the call or existing, with its uid; then come the
    updates of the turn or recovery in the order the controller reported them, and the records among
    them are exactly the records by which the journal of that session grew, in order, with nothing
    missing and nothing re-read; at most the session again after them. Only a failed send cuts the relay short, never
    the turn: the records are committed, the caller gets that error. Replay
    changes nothing and sends the committed records of the range asked for, in order, a prefix when it fails. *)
Theorem exec_streams `{Host} `{Encoding} `{Timestamppb} `{!ProtoCodec} `{Driver} `{PlacementHost} `{ProtoJson} `{ServiceHost} `{!ProtoLaws} `{!DriverLaws}
    storeProject defaultProject sendFault s :
  let db s := w_log (ps_world (sv_place s)) in let journalAt uid s := journalOf uid (tables (db s)) in
  db_wf (db s) ->
  (forall req s' st' x, service_Exec storeProject defaultProject None sendFault req (s, mkStream [] 0) = ((s', st'), x) ->
    (sent st' = [] /\ (forall uid, journalAt uid s' = journalAt uid s) /\ w_updates (ps_world (sv_place s')) = w_updates (ps_world (sv_place s))) \/
    exists uid, (er_Session req <> EmptyString -> uid = er_Session req) /\ streamedRun sendFault uid s s' (sent st') x) /\
  (forall uid fromSeq toSeq s' st' x, service_Replay storeProject sendFault uid fromSeq toSeq (s, mkStream [] 0) = ((s', st'), x) ->
    idles s s' /\ exists k, sent st' = map RecordToProto (take k (replayWindow fromSeq toSeq (journalAt uid s))) /\
      (x = Ok tt -> k = length (replayWindow fromSeq toSeq (journalAt uid s)))).
Proof.
  intros db journalAt Hw. split; [|intros uid fromSeq toSeq s' st' x Hr; by apply service_Replay_inv in Hr].
  intros req s' st' x Hr. unfold service_Exec in Hr.
  apply bind_inv in Hr as ([s1 st1] & y & [Hy Hst1]%onService_inv & Hr). cbn [fst snd] in *. subst st1.
  apply execSession_inv in Hy as [Hq Hy]. destruct (Hq Hw) as (Hw1 & Hj1 & Hu1). destruct y as [[uid sess]|e].
  2: { destruct Hr as [[= -> ->] _]. by left. }
  destruct Hy as [Hid Hsess].
  apply bind_inv in Hr as ([s2 st2] & y & [Hy Hst2]%onService_inv & Hr). cbn [fst snd] in *. subst st2.
  pose proof (idle_execRead _ _ _ _ _ _ _ Hy) as Hq2%idles_quiet. destruct (Hq2 Hw1) as (Hw2 & Hj2 & Hu2).
  assert (quiet s s2) as Hq12 by (by etransitivity). destruct (Hq12 Hw) as (_ & Hj12 & Hu12).
  destruct y as [[[route head] ss]|e].
  2: { destruct Hr as [[= -> ->] _]. by left. }
  apply execRead_shown in Hy as [Hss Hhead]; [|done].
  apply bind_inv in Hr as ([s3 st3] & y & [Hs3 Hy]%Send_inv & Hr). cbn [fst snd] in *. subst s3. destruct y as [[]|e].
  2: { destruct Hr as [[= -> ->] _]. left. by destruct Hy as [-> _]. }
  right. exists uid. split; [done|]. apply (quiet_streamed sendFault uid s s2); [done|done|].
  eapply (turn_streamed storeProject sendFault req uid route head (default head (er_ExpectedLastSeq req)) ss s2 st3); [done|done|exact Hy|exact Hhead|exact Hr].
Qed.

#[local] Existing Instance exampleHost.
#[local] Existing Instance exampleEncoding.
#[local] Existing Instance exampleTimestamppb.
#[local] Existing Instance exampleDriver.
#[local] Existing Instance exampleDriverLaws.
#[local] Existing Instance examplePlacementHost.
#[local] Existing Instance exampleProtoJson.
#[local] Existing Instance exampleServiceHost.

Lemma exampleCreated_wf : db_wf (w_log (ps_world (sv_place (fst exampleCreated)))).
Proof.
  split; [vm_compute; reflexivity|]. intros uid.
  assert (t_events (tables (w_log (ps_world (sv_place (fst exampleCreated))))) = []) as He by (vm_compute; reflexivity).
  unfold journalOf, sessionEvents. by rewrite He.
Qed.

Lemma nonempty_length {A} (l : list A) n : length l = S n -> l <> [].
Proof. by destruct l. Qed.

(** The fourth send fails. *)
Definition cutAt3 (n : nat) : option goerr := if Nat.eqb n 3 then Some (EText "closed") else None.
Definition exampleCut : (ServiceState * Stream ExecFrame) * res unit :=
  service_Exec "default" "default" None cutAt3 exampleRequest (fst exampleCreated, freshStream).

Lemma exec_streams_witness :
  (length (sent (snd (fst exampleCut))) = 3%nat /\ snd exampleCut = Err (EText "closed")) /\
  streamedRun cutAt3 exampleUID (fst exampleCreated) (fst (fst exampleCut)) (sent (snd (fst exampleCut))) (snd exampleCut).
Proof.
  assert (length (sent (snd (fst exampleCut))) = 3%nat) as Hlen by (vm_compute; reflexivity).
  split; [split; [exact Hlen|vm_compute; reflexivity]|].
  destruct (exec_streams "default" "default" cutAt3 (fst exampleCreated) exampleCreated_wf) as [Hexec _].
  destruct (Hexec exampleRequest (fst (fst exampleCut)) (snd (fst exampleCut)) (snd exampleCut)) as [[Hn _]|(uid & Hu & Hr)].
  - unfold exampleCut, freshStream. by rewrite <- !surjective_pairing.
  - by destruct (nonempty_length _ _ Hlen).
  - rewrite (Hu ltac:(discriminate)) in Hr. exact Hr.
Defined.
