(* ===== verification/ServiceSessions.v ===== *)
(** * A created session is the session asked for (theorems about [CreateSession], [GetSession], [metadataFromSpec]) *)
From S2P Require Import Prelude GoErrors Api Canon EventLog Executions Approvals Harness Wire Sinks Controller Agents SessionGuard Placement Admission Registry Routing Tables Projection SqlLog SqlExample SqlStore SqlSessions SqlHarnesses SqlSystem Durable GoJson Status Service ServiceOps ServiceFacts ServiceRouting ServiceExample ServicePins ServiceStreams.
#[local] Open Scope Z_scope.

(** ** Metadata columns *)

(** What a column can hold: nothing attached is stored as nothing. *)
Definition attached {A} (empty : A -> bool) (m : option A) : option A :=
  match m with Some a => if empty a then None else m | None => None end.
Definition emptyMap (m : gmap string string) : bool := bool_decide (m = ∅).

Section Metadata.
Context `{Host} `{Encoding} `{Timestamppb} `{!ProtoCodec} `{Driver} `{PlacementHost} `{ProtoJson} `{ServiceHost} `{!ProtoJsonLaws} `{!DriverLaws}.

Lemma decode_encodeMap m s : (forall m', m = Some m' -> validMap m') -> encodeMap m = Ok s -> decodeMap s = Ok (attached emptyMap m).
Proof.
  intros Hv. unfold encodeMap, decodeMap, attached, emptyMap. destruct m as [m|]; [|by intros [= <-]].
  case_bool_decide; [by intros [= <-]|]. intros Hs. assert (s = stringOf (marshalMap m)) as -> by congruence.
  rewrite bool_decide_eq_false_2 by done.
  by rewrite bytesOf_stringOf, unmarshal_marshalMap by (apply marshalMap_isByte || by apply Hv).
Qed.

Lemma decode_encodeMessage {A} (empty : A -> bool) zero (marshal : A -> res string) unmarshal m s :
  (forall a b, marshal a = Ok b -> b <> EmptyString /\ unmarshal b = Ok a) -> encodeMessage empty marshal m = Ok s ->
  (if bool_decide (s = EmptyString) then Ok None
   else match decodeMessage zero unmarshal s with Ok a => Ok (Some a) | Err e => Err e end) = Ok (attached empty m).
Proof.
  intros Hlaw. unfold encodeMessage, attached, decodeMessage. destruct m as [a|]; [|by intros [= <-]].
  destruct (empty a); [by intros [= <-]|]. destruct (marshal a) as [b|e] eqn:E; [|discriminate]. intros [= <-].
  destruct (Hlaw _ _ E) as [Hne Hu]. rewrite !bool_decide_eq_false_2 by done. by rewrite Hu.
Qed.

(** The four columns of a specification, read back onto a response that carries none. *)
Lemma apply_metadata spec labels annotations origin identity out info :
  (forall m, ss_Labels spec = Some m -> validMap m) -> (forall m, ss_Annotations spec = Some m -> validMap m) ->
  metadataFromSpec spec = Ok (labels, annotations, origin, identity) ->
  Labels (si_Meta info) = labels -> Annotations (si_Meta info) = annotations ->
  Origin (si_Meta info) = origin -> Identity (si_Meta info) = identity -> ss_Origin out = None -> ss_Identity out = None ->
  applyMetadata out info = Ok (mkPbSession (ss_Metadata out) (ss_Harness out) (ss_Model out) (ss_ExecState out) (ss_ComputeState out)
    (ss_PendingApproval out) (ss_DeletionState out) (ss_DeletionRequestedTime out) (ss_LastSeq out) (ss_ParentUid out) (ss_ForkSeq out)
    (attached identityEmpty (ss_Identity spec)) (attached originEmpty (ss_Origin spec))
    (attached emptyMap (ss_Labels spec)) (attached emptyMap (ss_Annotations spec))).
Proof.
  intros Hl Ha Hspec <- <- <- <- Ho Hi. unfold metadataFromSpec in Hspec.
  destruct (encodeMap (ss_Labels spec)) as [l|] eqn:El; [|discriminate].
  destruct (encodeMap (ss_Annotations spec)) as [a|] eqn:Ea; [|discriminate].
  destruct (encodeMessage originEmpty _ _) as [o|] eqn:Eo; [|discriminate].
  destruct (encodeMessage identityEmpty _ _) as [i|] eqn:Ei; [|discriminate]. injection Hspec as -> -> -> ->.
  unfold applyMetadata. rewrite (decode_encodeMap _ _ Hl El), (decode_encodeMap _ _ Ha Ea), Ho, Hi.
  rewrite (decode_encodeMessage _ _ _ _ _ _ json_origin Eo), (decode_encodeMessage _ _ _ _ _ _ json_identity Ei). done.
Qed.
End Metadata.

Section Create.
Context `{Host} `{Encoding} `{Timestamppb} `{!ProtoCodec} `{Driver} `{PlacementHost} `{ProtoJson} `{ServiceHost} `{!ProtoJsonLaws} `{!DriverLaws}.
Variables (storeProject defaultProject : string).

Abbreviation tablesOf s := (tables (w_log (ps_world (sv_place s)))).

(** What a response says of the specification it was made from. *)
Record asAsked (defaultHarness : string) (spec ss : PbSession) (uid : string) : Prop := {
  asked_uid : md_Uid <$> ss_Metadata ss = Some uid;
  asked_project : let p := md_Project (default zeroMetadata (ss_Metadata spec)) in let d := if bool_decide (p = EmptyString) then defaultProject else p in
    d <> EmptyString -> md_Project <$> ss_Metadata ss = Some d;
  asked_name : md_Name <$> ss_Metadata ss = Some (md_Name (default zeroMetadata (ss_Metadata spec)));
  asked_harness : ss_Harness ss = if bool_decide (ss_Harness spec = EmptyString) then defaultHarness else ss_Harness spec;
  asked_model : ss_Model ss = ss_Model spec;
  asked_parent : ss_ParentUid ss = EmptyString /\ ss_ForkSeq ss = 0;
  asked_labels : ss_Labels ss = attached emptyMap (ss_Labels spec);
  asked_annotations : ss_Annotations ss = attached emptyMap (ss_Annotations spec);
  asked_origin : ss_Origin ss = attached originEmpty (ss_Origin spec);
  asked_identity : ss_Identity ss = attached identityEmpty (ss_Identity spec);
}.

Lemma selectSession_meta uid t i : selectSession uid t = Some i -> exists s, t_sessions t !! uid = Some s /\
  si_Meta i = mkSessionMeta uid (s_project s) (s_name s) (s_harness s) (s_model s) (s_parent_uid s) (s_fork_seq s)
    (Some (s_created_at s)) (Some (s_updated_at s)) (s_labels s) (s_annotations s) (s_origin s) (s_identity s).
Proof.
  unfold selectSession. intros (s & Hs & ->)%fmap_Some_1. exists s. split; [done|]. unfold scanSession, sessionSelect. by case_match.
Qed.

Lemma onDB_tables {A} (m : M DB goerr A) s s' x : onDB m s = (s', x) ->
  m (w_log (ps_world (sv_place s))) = (w_log (ps_world (sv_place s')), x) /\ sv_registry s' = sv_registry s.
Proof.
  unfold onDB, onPlace. destruct (onStore m (sv_place s)) as [p y] eqn:E. intros [= <- <-].
  apply onStore_inv in E as (d' & E & <-). done.
Qed.

(** The insert and the read behind it. *)
Lemma createSession_inv uid m s s' ss : saved (w_log (ps_world (sv_place s))) = None ->
  createSession storeProject defaultProject uid m s = (s', Ok ss) -> UID m = uid ->
  let r := sv_registry s in
  let harness := if bool_decide (sm_Harness m = EmptyString) then Default r else sm_Harness m in
  let project := if bool_decide (Project m = EmptyString) then defaultProject else Project m in
  (exists i row, selectSession uid (tablesOf s') = Some i /\ sessionProto i = Ok ss /\
    t_sessions (tablesOf s') !! uid = Some row /\ rowCarries (setMetaDefaults project harness m) row) /\
  match t_harnesses (tablesOf s) !! harness with
  | None => Static r harness = true
  | Some row => Static r harness = false /\ h_state row = HarnessActive
  end.
Proof.
  intros Hs Hr <- r harness project. unfold createSession in Hr.
  apply bind_inv in Hr as (s1 & y & Hy & Hr). injection Hy as <- <-.
  apply bind_inv in Hr as (s2 & [h|e] & Hy & Hr); [|by destruct Hr].
  assert (s2 = s /\ h = harness) as [-> ->].
  { unfold harness. destruct (bool_decide _); [by injection Hy|]. apply orErr_inv in Hy as (z & Hz & Hy). destruct z; [|discriminate].
    injection Hy as ->. apply bind_inv in Hz as (s3 & z & Hl & Hz). injection Hl as <- <-. destruct (For _ _); [by injection Hz|by destruct Hz]. }
  apply bind_inv in Hr as (s3 & [[]|e] & (z & [Hput Hr3]%onDB_tables & Hz)%orErr_inv & Hr); [|by destruct Hr].
  destruct z as [[]|]; [|discriminate]. apply PutOnHarness_inv in Hput as [_ (_ & Hh & row & Hrow & Hc)]; [|done].
  apply bind_inv in Hr as (s4 & [i|e] & (z & [Hi _]%onDB_tables & Hz')%orErr_inv & Hr); [|by destruct Hr].
  destruct z as [i'|]; [|discriminate]. injection Hz' as <-. apply SessionInfo_inv in Hi as (_ & Ht & Hi).
  injection Hr as <- Hr. rewrite Ht. split; [exists i, row; by split_and!|]. cbn [sm_Harness setMetaDefaults] in Hh. fold r in Hh.
  destruct (t_harnesses (tablesOf s) !! harness); [destruct Hh; split; [by destruct (Static r harness)|done]|by destruct (Static r harness)].
Qed.

Lemma CreateSession_inv spec s s' ss : saved (w_log (ps_world (sv_place s))) = None ->
  (forall m, ss_Labels (default zeroSession spec) = Some m -> validMap m) ->
  (forall m, ss_Annotations (default zeroSession spec) = Some m -> validMap m) ->
  CreateSession storeProject defaultProject spec s = (s', Ok ss) ->
  exists uid, uid <> EmptyString /\ asAsked (Default (sv_registry s)) (default zeroSession spec) ss uid /\
    (exists i, selectSession uid (tablesOf s') = Some i /\ sessionProto i = Ok ss) /\
    match t_harnesses (tablesOf s) !! ss_Harness ss with
    | None => Static (sv_registry s) (ss_Harness ss) = true
    | Some row => Static (sv_registry s) (ss_Harness ss) = false /\ h_state row = HarnessActive
    end.
Proof.
  intros Hs Hl Ha Hr. unfold CreateSession in Hr. apply bind_inv in Hr as (s1 & y & Hy & Hr).
  assert (idles s s1) as (Hi & Hreg & _).
  { revert Hy. assert (servesIdle newUID) as Hm by (unfold newUID; apply idle_bind; [apply idle_onPlace, looking_tickP|idling]). apply Hm. }
  destruct y as [uid|e]; [|by destruct Hr]. exists uid. split.
  { unfold newUID in Hy. apply bind_inv in Hy as (s2 & [t|e] & _ & Hy); [|by destruct Hy]. by injection Hy as _ <-. }
  set (sp := default zeroSession spec) in *.
  destruct (metadataFromSpec sp) as [[[[labels annotations] origin] identity]|e] eqn:Em; [|discriminate].
  apply createSession_inv in Hr as [(i & row & Hsel & Hp & Hrow & Hc) Hh]; [|by rewrite (idle_saved _ _ Hi)|done].
  rewrite Hreg, (idle_tables _ _ Hi) in *. cbn [sm_Harness Project] in *.
  destruct Hc as (Hpr & Hn & Hha & Hmo & Hpa & Hf & Hla & Han & Hor & Hid). cbn [Project Name sm_Harness sm_Model ParentUID ForkSeq Labels Annotations Origin Identity setMetaDefaults] in *.
  pose proof (selectSession_meta _ _ _ Hsel) as (row' & Hrow' & Hmeta). rewrite Hrow in Hrow'. injection Hrow' as <-.
  pose proof Hp as Hp'. unfold sessionProto in Hp'. cbv zeta in Hp'. erewrite (apply_metadata sp labels annotations origin identity) in Hp' by (done || by rewrite Hmeta).
  injection Hp' as <-. split; [|split; [by exists i|]]; cbn [ss_Harness]; rewrite Hmeta; cbn [sm_Harness]; [|by rewrite Hha].
  constructor; cbn; try done; [intros Hne; by rewrite Hpr|by rewrite Hn].
Qed.

Lemma GetSession_reads uid s i ss : selectSession uid (tablesOf s) = Some i -> sessionProto i = Ok ss ->
  (forall s' y, GetSession uid s = (s', Ok y) -> y = ss) /\
  (faultFree -> uid <> EmptyString -> exists s', GetSession uid s = (s', Ok ss)).
Proof.
  intros Hi Hp. unfold GetSession. split.
  - intros s' y. destruct (bool_decide _); [discriminate|].
    intros (s1 & [i'|e] & (z & [Hz _]%onDB_tables & Hy)%orErr_inv & Hr)%bind_inv; [|by destruct Hr]. destruct z; [|discriminate].
    injection Hy as <-. apply SessionInfo_inv in Hz as (_ & _ & Hz). rewrite Hi in Hz. injection Hz as <-.
    injection Hr as _ Hr. congruence.
  - intros Hfree Hne. rewrite bool_decide_eq_false_2 by done.
    destruct (SessionInfo_free Hfree uid (w_log (ps_world (sv_place s)))) as [d Hd]. rewrite Hi in Hd.
    unfold orErr, onDB, onPlace, onStore, onWorldP, onLog, mbind, M_bind, lift. rewrite Hd, Hp. by eexists.
Qed.
End Create.

(** A session is created as it was asked for, and served as it was created. The response of CreateSession
    carries a fresh uid, the caller's project or the default, the caller's harness or the registry's default,
    the caller's name and model, and labels, annotations, origin and identity that went through their JSON
    columns unchanged (nothing attached comes back as nothing attached); its harness is a static one without a registration row, or a registered one that is
    active; no journal changes. GetSession answers that same session from any later state with the same
    tables: whenever it answers, and it does when the database does not fail. *)
Theorem created_as_asked `{Host} `{Encoding} `{Timestamppb} `{!ProtoCodec} `{Driver} `{PlacementHost} `{ProtoJson} `{ServiceHost} `{!ProtoJsonLaws} `{!DriverLaws}
    storeProject defaultProject spec s s' ss :
  let tablesOf s := tables (w_log (ps_world (sv_place s))) in
  db_wf (w_log (ps_world (sv_place s))) ->
  (forall m, ss_Labels (default zeroSession spec) = Some m -> validMap m) ->
  (forall m, ss_Annotations (default zeroSession spec) = Some m -> validMap m) ->
  CreateSession storeProject defaultProject spec s = (s', Ok ss) ->
  exists uid, asAsked defaultProject (Default (sv_registry s)) (default zeroSession spec) ss uid /\
    match t_harnesses (tablesOf s) !! ss_Harness ss with
    | None => Static (sv_registry s) (ss_Harness ss) = true
    | Some row => Static (sv_registry s) (ss_Harness ss) = false /\ h_state row = HarnessActive
    end /\
    (forall u, journalOf u (tablesOf s') = journalOf u (tablesOf s)) /\
    (forall s2, tablesOf s2 = tablesOf s' ->
      (forall s3 y, GetSession uid s2 = (s3, Ok y) -> y = ss) /\ (faultFree -> exists s3, GetSession uid s2 = (s3, Ok ss))).
Proof.
  intros tablesOf Hw Hl Ha Hr.
  assert (quiet s s') as Hq.
  { unfold CreateSession in Hr. apply bind_inv in Hr as (s1 & y & Hy & Hr). transitivity s1.
    - apply idles_quiet. revert Hy. assert (servesIdle newUID) as Hm by (unfold newUID; apply idle_bind; [apply idle_onPlace, looking_tickP|idling]). apply Hm.
    - destruct y as [uid|e]; [|by destruct Hr]. destruct (metadataFromSpec _) as [[[[? ?] ?] ?]|]; [|discriminate]. by eapply quiets_create. }
  destruct (Hq Hw) as (_ & Hj & _).
  destruct (CreateSession_inv _ _ _ _ _ _ (proj1 Hw) Hl Ha Hr) as (uid & Hne & Hasked & (i & Hi & Hp) & Hh).
  exists uid. split_and!; [done|done|exact Hj|]. intros s2 Ht. unfold tablesOf in Ht. rewrite <- Ht in Hi.
  destruct (GetSession_reads _ _ _ _ Hi Hp) as [Hg Hf]. split; [done|]. intros Hfree. by apply Hf.
Qed.

#[local] Existing Instance exampleHost.
#[local] Existing Instance exampleEncoding.
#[local] Existing Instance exampleTimestamppb.
#[local] Existing Instance exampleDriver.
#[local] Existing Instance exampleDriverLaws.
#[local] Existing Instance examplePlacementHost.
#[local] Existing Instance exampleProtoJson.
#[local] Existing Instance exampleProtoJsonLaws.
#[local] Existing Instance exampleServiceHost.

Lemma created_as_asked_witness : exists ss s3, snd exampleCreated = Ok ss /\ GetSession exampleUID (fst exampleCreated) = (s3, Ok ss) /\
  ss_Labels ss = Some {["team"%string := "core"%string]} /\ ss_Identity ss = Some (mkPbIdentityRef "alice" "issuer" "").
Proof.
  assert (fmap (fun s => md_Uid <$> ss_Metadata s) (snd exampleCreated) = Ok (Some exampleUID)) as Huid by (vm_compute; reflexivity).
  destruct exampleCreated as [s' [ss|e]] eqn:E; [|discriminate]. exists ss.
  destruct (created_as_asked "default" "default" (Some exampleSpec) exampleService s' ss) as (uid & Hasked & _ & _ & Hget).
  - apply emptyDB_wf.
  - intros m [= <-]. apply map_Forall_singleton. split; vm_compute; reflexivity.
  - discriminate.
  - exact E.
  - destruct (Hget s' eq_refl) as [_ Hfree]. destruct (Hfree (fun _ => eq_refl)) as [s3 Hs3]. exists s3.
    assert (uid = exampleUID) as ->. { pose proof (asked_uid _ _ _ _ _ Hasked) as Hu. simpl in Huid. congruence. }
    split; [done|]. split; [exact Hs3|]. split; [apply (asked_labels _ _ _ _ _ Hasked)|apply (asked_identity _ _ _ _ _ Hasked)].
Defined.
