(* ===== verification/ServiceHistory.v ===== *)
(** * Over every history of calls (theorems about the service as a system)

    Every handler moves the database by calls of its operations, so what the database promises over every
    history holds of a running service, whose sessions report what their journals say. *)
From S2P Require Import Prelude GoErrors Api Canon EventLog Executions Approvals Harness Wire Sinks Controller Agents SessionGuard Placement Admission Registry Routing Relay Tables Projection SqlLog SqlExample SqlStore SqlSessions SqlHarnesses Reporting SqlSystem Durable GoJson Status Service ServiceOps ServiceFacts ServiceRouting ServiceExample ServicePins ServiceStreams ServiceSessions.
#[local] Open Scope Z_scope.

Section History.
Context `{Host} `{Encoding} `{Timestamppb} `{!ProtoCodec} `{Driver} `{PlacementHost} `{ProtoJson} `{ServiceHost} `{!ProtoLaws} `{!DriverLaws}.
Variables (storeProject defaultProject : string).

Abbreviation dbOf s := (w_log (ps_world (sv_place s))).
Abbreviation tablesOf s := (tables (dbOf s)).

(** A handler's effect on the database is a history of calls. *)
Definition moves (s s' : ServiceState) : Prop := db_ok (dbOf s) -> rtc db_step (dbOf s) (dbOf s').
#[export] Instance moves_preorder : PreOrder moves.
Proof.
  split; [by intros s _|]. intros s1 s2 s3 H12 H23 Hok. etransitivity; [by apply H12|]. apply H23. eapply db_steps_ok; [exact Hok|by apply H12].
Qed.
Definition moving {A} (m : M ServiceState goerr A) : Prop := forall s s' r, m s = (s', r) -> moves s s'.

Lemma idles_moves s s' : idles s s' -> moves s s'.
Proof. intros [[Hs Ht _ _ _ _] _] _. eapply rtc_l; [by apply call_reads|reflexivity]. Qed.
Lemma moving_idle {A} (m : M ServiceState goerr A) : servesIdle m -> moving m.
Proof. intros Hm s s' r Hr. by eapply idles_moves, Hm. Qed.
Lemma moving_bind {A B} (m : M ServiceState goerr A) (f : A -> M ServiceState goerr B) : moving m -> (forall a, moving (f a)) -> moving (m ≫= f).
Proof.
  intros Hm Hf s s' r (s1 & r1 & Hr1 & Hr)%bind_inv. transitivity s1; [by eapply Hm|].
  destruct r1; [by eapply Hf|by destruct Hr as [-> _]].
Qed.
Lemma moving_orErr {A} f (m : M ServiceState goerr A) : moving m -> moving (orErr f m).
Proof. intros Hm s s' r (y & Hy & _)%orErr_inv. by eapply Hm. Qed.
Lemma moving_unlessParked m : moving m -> moving (unlessParked m).
Proof. intros Hm s s' r. unfold unlessParked. destruct (m s) as [s1 y] eqn:E. intros [= <- _]. by eapply Hm. Qed.
Lemma moving_guarded {A} kind uid (m : M ServiceState goerr A) : moving m -> moving (guarded kind uid m).
Proof.
  intros Hm s s' r [[Hi _]|(s1 & s2 & Hi1 & Hr & Hi2)]%guarded_inv; [by apply idles_moves|].
  etransitivity; [by apply idles_moves|]. etransitivity; [by eapply Hm|by apply idles_moves].
Qed.
Lemma moving_onDB {A} (m : M DB goerr A) : (forall d d' r, m d = (d', r) -> db_step d d') -> moving (onDB m).
Proof. intros Hm s s' r [Hr _]%onDB_tables _. eapply rtc_l; [by eapply Hm|reflexivity]. Qed.

(** A computation of the placers on one session's log. *)
Lemma moving_place {A} uid heard (m : Registry -> Heap -> M (PState DB) goerr A) :
  (forall d0 r h, relays (StoreView0 := DB_View uid) (wf := settled d0) heard (@ps_world DB) (m r h)) -> moving (routed_ m).
Proof.
  intros Hm s s' r (p & Hr & ->)%routed_inv Hok. apply (Hm (dbOf s)) in Hr.
  destruct (Hr (conj (db_ok_wf _ Hok) (rtc_refl _ _))) as [[_ Hs] _]. exact Hs.
Qed.
Lemma moving_onPlace {A} uid heard (m : M (PState DB) goerr A) :
  (forall d0, relays (StoreView0 := DB_View uid) (wf := settled d0) heard (@ps_world DB) m) -> moving (onPlace m).
Proof. intros Hm. change (moving (routed_ (fun _ _ => m))). by apply (moving_place uid heard). Qed.

#[local] Hint Resolve idle_current idle_resolve : idle.
Lemma idle_newUID : servesIdle newUID.
Proof. unfold newUID. apply idle_bind; [apply idle_onPlace, looking_tickP|idling]. Qed.
Lemma idle_admit uid : servesIdle (admitMutation uid).
Proof. intros s s' r Hr. by apply admitMutation_inv in Hr as [Hi _]. Qed.

(** ** Handlers *)

Lemma moving_create uid m : moving (createSession storeProject defaultProject uid m).
Proof.
  unfold createSession. apply moving_bind; [intros s s' r [= <- _]; reflexivity|intros r].
  apply moving_bind; [apply moving_idle; idling|intros harness].
  apply moving_bind; [|intros _; apply moving_idle; idling].
  apply moving_orErr, moving_onDB. intros d d' x Hx. by eapply call_PutOnHarness.
Qed.
Lemma moving_Create spec : moving (CreateSession storeProject defaultProject spec).
Proof.
  unfold CreateSession. apply moving_bind; [apply moving_idle, idle_newUID|intros uid].
  destruct (metadataFromSpec _) as [[[[? ?] ?] ?]|]; [apply moving_create|apply moving_idle, idle_throw].
Qed.
Lemma idle_Get uid : servesIdle (GetSession uid).
Proof. unfold GetSession. idling. Qed.
Lemma reading_pure {A} (x : res A) : reading (fun d => (d, x)).
Proof. by intros d d' r [= <- _]. Qed.
Lemma reading_List opts : reading (ListSessions storeProject opts).
Proof.
  unfold ListSessions. apply reading_bind; [|intros after; apply reading_bind; [|intros rows; apply reading_pure]].
  - destruct (bool_decide _); [apply reading_pure|]. apply reading_bind; [apply reading_pure|intros; apply reading_pure].
  - intros d d' r (r0 & (Hs & Ht & _)%select_inv & _)%wrapErr_inv. done.
Qed.
Lemma idle_List project size token : servesIdle (service_ListSessions storeProject defaultProject project size token).
Proof. unfold service_ListSessions. apply idle_bind; [apply idle_orErr, idle_onDB, reading_List|intros; idling]. Qed.

Lemma moving_operation req uid route expected : moving (execOperation storeProject req uid route expected).
Proof.
  destruct route as [i|p harness]; cbn [execOperation].
  - apply (moving_place uid true). intros d0 r h. pose proof (DB_journal storeProject uid d0).
    apply (relays_registry_Resume (H2 := SqlLog_Store storeProject uid) (StoreView0 := DB_View uid) (wf := settled d0)); [done|].
    intros chk [= <-] n. apply looking_relays, looking_refusing, looking_recoveryCheck.
  - apply (moving_onPlace uid true). intros d0 s s' x Hr. pose proof (DB_journal storeProject uid d0).
    match type of Hr with (let '(_, _) := ?m in _) = _ => destruct m as [q z] eqn:E' end. injection Hr as <- _. revert E'.
    by apply (relays_placer_Exec (H2 := SqlLog_Store storeProject uid) (StoreView0 := DB_View uid) (wf := settled d0)).
Qed.

Lemma moving_Resume uid expected : moving (service_Resume storeProject uid expected).
Proof.
  unfold service_Resume. apply moving_bind; [apply moving_idle, idle_admit|intros i].
  apply moving_bind; [|intros _; apply moving_idle, idle_current].
  apply moving_orErr, moving_unlessParked, (moving_place uid false). intros d0 r h. pose proof (DB_journal storeProject uid d0).
  apply (relays_registry_Resume (H2 := SqlLog_Store storeProject uid) (StoreView0 := DB_View uid) (wf := settled d0)); [done|].
  intros chk [= <-] n. apply looking_relays, looking_refusing, looking_resumeCheck.
Qed.
Lemma moving_Suspend uid : moving (service_Suspend storeProject uid).
Proof.
  unfold service_Suspend. apply moving_bind; [apply moving_idle, idle_admit|intros i].
  apply moving_bind; [|intros _; apply moving_idle, idle_current].
  apply moving_orErr, (moving_place uid false). intros d0 r h. pose proof (DB_journal storeProject uid d0).
  apply (relays_registry_Suspend (H2 := SqlLog_Store storeProject uid) (StoreView0 := DB_View uid) (wf := settled d0)); [done|].
  intros chk [= <-] n. apply looking_relays, looking_refusing, looking_checkResumed.
Qed.
Lemma moving_Approve req : moving (service_Approve storeProject req).
Proof.
  unfold service_Approve. destruct (ar_Approved req) as [approved|]; [|apply moving_idle, idle_throw].
  destruct (_ || _); [apply moving_idle, idle_throw|].
  apply moving_bind; [apply moving_idle; unfold sessionRead; idling|intros _].
  apply moving_bind; [apply moving_idle, idle_onDB; by intros d d' r [= <- _]|intros at_].
  apply moving_bind; [|intros decision; apply moving_idle, idle_bind; [apply idle_current|idling]].
  apply moving_orErr, (moving_onPlace (ar_Session req) false). intros d0. pose proof (DB_journal storeProject (ar_Session req) d0).
  by apply (relays_registry_Approve (H2 := SqlLog_Store storeProject (ar_Session req)) (StoreView0 := DB_View (ar_Session req)) (wf := settled d0)).
Qed.
Lemma moving_Delete deleteCtx uid : moving (service_DeleteSession deleteCtx uid).
Proof.
  unfold service_DeleteSession. destruct (bool_decide _); [apply moving_idle, idle_throw|].
  apply moving_bind; [|intros; apply moving_idle, idle_lift].
  apply moving_orErr, moving_guarded, moving_onDB. intros d d' r Hr. by eapply call_Delete.
Qed.

Lemma moving_Exec sendFault req s st s' st' x :
  service_Exec storeProject defaultProject None sendFault req (s, st) = ((s', st'), x) -> moves s s'.
Proof.
  intros ([s1 st1] & y & [Hy _]%onService_inv & Hr)%bind_inv. cbn [fst] in Hy. transitivity s1.
  { revert Hy. match goal with |- ?m _ = _ -> _ => assert (moving m) as Hm; [|apply Hm] end.
    destruct (bool_decide _); [|apply moving_idle, idle_ret]. apply moving_bind; [apply moving_idle, idle_newUID|intros uid].
    apply moving_bind; [apply moving_create|intros; apply moving_idle, idle_ret]. }
  destruct y as [[uid sess]|e]; [|by destruct Hr as [[= -> _] _]].
  apply bind_inv in Hr as ([s2 st2] & y & [Hy2%idle_execRead _]%onService_inv & Hr). cbn [fst] in Hy2.
  apply idles_moves in Hy2. etransitivity; [exact Hy2|]. clear Hy2.
  destruct y as [[[route head] ss]|e]; [|by destruct Hr as [[= -> _] _]].
  apply bind_inv in Hr as ([s3 st3] & y & Hs3%Send_streamed & Hr). cbn [fst] in Hs3. subst s3.
  destruct y; [|by destruct Hr as [[= -> _] _]].
  apply bind_inv in Hr as ([s4 st4] & y & [z Hz%moving_operation]%observed_inv & Hr). cbn [fst] in Hz.
  etransitivity; [exact Hz|]. destruct y as [[operationErr n]|e]; [|by destruct Hr as [[= -> _] _]].
  apply bind_inv in Hr as ([s5 st5] & y & Hl & Hr). injection Hl as <- <- Hl. destruct y; [|by destruct Hr as [[= -> _] _]].
  by apply afterTurn_idles in Hr as Hr%idles_moves.
Qed.

Lemma moving_Replay sendFault uid fromSeq toSeq s st s' st' x :
  service_Replay storeProject sendFault uid fromSeq toSeq (s, st) = ((s', st'), x) -> moves s s'.
Proof.
  intros ([s1 st1] & y & [Hy _]%onService_inv & Hr)%bind_inv. cbn [fst] in Hy. transitivity s1.
  { apply idles_moves. revert Hy. match goal with |- ?m _ = _ -> _ => assert (servesIdle m) as Hm by idling; apply Hm end. }
  destruct y as [recs|e]; [|by destruct Hr as [[= -> _] _]]. clear Hy. revert st1 Hr.
  induction recs as [|r recs IH]; intros st1 Hr; cbn [replayLoop] in Hr; [by injection Hr as -> _ _|].
  destruct (_ && _); [by injection Hr as -> _ _|].
  apply bind_inv in Hr as ([s2 st2] & y & Hs2%Send_streamed & Hr). cbn [fst] in Hs2. subst s2.
  destruct y; [by eapply IH|by destruct Hr as [[= -> _] _]].
Qed.

(** ** The service as a system *)

(** One thing that happens: a call of a handler, a change of this host's registry, or a call of another
    process on the shared database. *)
Inductive service_step (s s' : ServiceState) : Prop :=
  | step_Create spec x : CreateSession storeProject defaultProject spec s = (s', x) -> service_step s s'
  | step_Get uid x : GetSession uid s = (s', x) -> service_step s s'
  | step_List project size token x : service_ListSessions storeProject defaultProject project size token s = (s', x) -> service_step s s'
  | step_Exec sendFault req st st' x : service_Exec storeProject defaultProject None sendFault req (s, st) = ((s', st'), x) -> service_step s s'
  | step_Replay sendFault uid fromSeq toSeq st st' x : service_Replay storeProject sendFault uid fromSeq toSeq (s, st) = ((s', st'), x) -> service_step s s'
  | step_Suspend uid x : service_Suspend storeProject uid s = (s', x) -> service_step s s'
  | step_Resume uid expected x : service_Resume storeProject uid expected s = (s', x) -> service_step s s'
  | step_Approve req x : service_Approve storeProject req s = (s', x) -> service_step s s'
  | step_Delete deleteCtx uid x : service_DeleteSession deleteCtx uid s = (s', x) -> service_step s s'
  | step_registry r h : s' = mkServiceState (sv_place s) r h -> service_step s s'
  | step_elsewhere : db_step (dbOf s) (dbOf s') -> service_step s s'.

Lemma service_step_moves s s' : service_step s s' -> moves s s'.
Proof.
  intros [spec x Hr|uid x Hr|project size token x Hr|sendFault req st st' x Hr|sendFault uid fromSeq toSeq st st' x Hr|uid x Hr|uid expected x Hr|req x Hr|deleteCtx uid x Hr|r h ->|Hr].
  - by apply moving_Create in Hr.
  - by eapply (moving_idle _ (idle_Get uid)).
  - by eapply (moving_idle _ (idle_List _ _ _)).
  - by apply moving_Exec in Hr.
  - by apply moving_Replay in Hr.
  - by apply moving_Suspend in Hr.
  - by apply moving_Resume in Hr.
  - by apply moving_Approve in Hr.
  - by apply moving_Delete in Hr.
  - intros _. reflexivity.
  - intros _. by eapply rtc_once.
Qed.
Lemma service_steps_moves s s' : rtc service_step s s' -> moves s s'.
Proof. induction 1 as [|s s1 s' Hs _ IH]; [reflexivity|]. etransitivity; [by apply service_step_moves|exact IH]. Qed.

(** What a session message says of the journal, and of the state of the session. *)
Definition reportsJournal (rs : list Record_) (st : DeletionState) (ss : PbSession) : Prop :=
  let p := pendingOf rs in
  ss_LastSeq ss = headOf rs /\
  (ss_ExecState ss = EXEC_AWAITING <-> 0 < ref_RequestSeq p) /\
  ss_PendingApproval ss = (if (0 <? ref_RequestSeq p) && bool_decide (st = DeletionActive)
    then Some (mkPbApprovalRef (ref_ExecutionID p) (ref_ToolCallID p) (ref_RequestSeq p)) else None) /\
  ss_DeletionState ss = DeletionStateToProto st.

Lemma sessionProto_says info ss : sessionProto info = Ok ss -> ss_LastSeq ss = LastSeq info /\ ss_ExecState ss = execStateOf info /\
  ss_PendingApproval ss = pendingProto info /\ ss_DeletionState ss = DeletionStateToProto (si_DeletionState info).
Proof. unfold sessionProto, applyMetadata. intros Hp. repeat (case_match; try discriminate); by simplify_eq. Qed.

Lemma execState_awaiting info : execStateOf info = EXEC_AWAITING <-> 0 < ref_RequestSeq (PendingApproval info).
Proof.
  unfold execStateOf. destruct (Z.ltb_spec 0 (ref_RequestSeq (PendingApproval info))); [done|].
  split; [repeat case_match; discriminate|lia].
Qed.

Lemma GetSession_reports uid s s' ss : db_ok (dbOf s) -> GetSession uid s = (s', Ok ss) ->
  exists st, deletionOf uid (tablesOf s) = Some st /\ reportsJournal (journalOf uid (tablesOf s)) st ss.
Proof.
  intros Hok Hr. unfold GetSession in Hr. destruct (bool_decide _); [discriminate|].
  apply bind_inv in Hr as (s1 & [i|e] & (z & [Hz _]%onDB_tables & Hy)%orErr_inv & Hr); [|by destruct Hr].
  destruct z; [|discriminate]. injection Hy as <-. apply SessionInfo_inv in Hz as (_ & _ & Hi). injection Hr as _ Hp.
  destruct (ok_sessions _ Hok uid) as [Hc Hrep _]. destruct (select_reported _ _ _ Hrep Hi) as [Hpend Hlast].
  rewrite (reported_pending _ Hc) in Hpend.
  assert (deletionOf uid (tablesOf s) = Some (si_DeletionState i)) as Hst.
  { unfold selectSession in Hi. apply fmap_Some_1 in Hi as (row & Hrow & ->). unfold deletionOf. rewrite Hrow. simpl. unfold scanSession, sessionSelect. by case_match. }
  exists (si_DeletionState i). split; [done|]. apply sessionProto_says in Hp as (Hl & He & Hpa & Hd).
  unfold reportsJournal. rewrite <- Hpend. split_and!; [by rewrite Hl|rewrite He; apply execState_awaiting|exact Hpa|exact Hd].
Qed.
End History.

(** C10: The service as a system. Start from any sound database, and let any calls of the handlers, any changes
    of the host's registry, and any calls of other processes on the same database follow one another,
    whatever the runtimes, models and tools answer, whichever statements and sends fail. Then the database is still
    sound, no journal ever lost or changed a record, and every session GetSession shows reports its journal: its
    cursor is the journal's head, it is AWAITING exactly while the strict scan of the whole journal
    finds an open request, the approval it names is that request, and is withheld once the session is deleted. *)
Theorem service_reports_journal `{Host} `{Encoding} `{Timestamppb} `{!ProtoCodec} `{Driver} `{PlacementHost} `{ProtoJson} `{ServiceHost} `{!ProtoLaws} `{!DriverLaws}
    storeProject defaultProject s0 s :
  let tablesOf s := tables (w_log (ps_world (sv_place s))) in
  db_ok (w_log (ps_world (sv_place s0))) -> rtc (service_step storeProject defaultProject) s0 s ->
  db_ok (w_log (ps_world (sv_place s))) /\
  (forall uid, journalOf uid (tablesOf s0) `prefix_of` journalOf uid (tablesOf s)) /\
  (forall uid s' ss, GetSession uid s = (s', Ok ss) ->
     exists st, deletionOf uid (tablesOf s) = Some st /\ reportsJournal (journalOf uid (tablesOf s)) st ss).
Proof.
  intros tablesOf Hok Hs. pose proof (service_steps_moves _ _ _ _ Hs Hok) as Hsteps.
  pose proof (db_steps_ok _ _ Hok Hsteps) as Hok'. split_and!; [done|intros uid; by apply db_steps_grow|].
  intros uid s' ss. by apply GetSession_reports.
Qed.

#[local] Existing Instance exampleHost.
#[local] Existing Instance exampleEncoding.
#[local] Existing Instance exampleTimestamppb.
#[local] Existing Instance exampleDriver.
#[local] Existing Instance exampleDriverLaws.
#[local] Existing Instance examplePlacementHost.
#[local] Existing Instance exampleProtoJson.
#[local] Existing Instance exampleServiceHost.

Lemma exampleExecuted_steps : rtc (service_step "default" "default") exampleService (fst (fst exampleExecuted)).
Proof.
  eapply rtc_l; [apply (step_Create _ _ _ _ (Some exampleSpec) (snd exampleCreated)), surjective_pairing|]. apply rtc_once.
  apply (step_Exec _ _ _ _ noFault exampleRequest freshStream (snd (fst exampleExecuted)) (snd exampleExecuted)).
  change (exampleExecuted = ((fst (fst exampleExecuted), snd (fst exampleExecuted)), snd exampleExecuted)). by rewrite <- !surjective_pairing.
Qed.

Lemma service_reports_journal_witness : exists ss,
  snd (GetSession exampleUID (fst (fst exampleExecuted))) = Ok ss /\ ss_LastSeq ss = 5 /\
  reportsJournal (journalOf exampleUID (tables (w_log (ps_world (sv_place (fst (fst exampleExecuted))))))) DeletionActive ss.
Proof.
  assert (fmap ss_LastSeq (snd (GetSession exampleUID (fst (fst exampleExecuted)))) = Ok 5) as Hl by (vm_compute; reflexivity).
  assert (deletionOf exampleUID (tables (w_log (ps_world (sv_place (fst (fst exampleExecuted)))))) = Some DeletionActive) as Hd by (vm_compute; reflexivity).
  destruct (service_reports_journal "default" "default" exampleService (fst (fst exampleExecuted)) emptyDB_ok exampleExecuted_steps) as (_ & _ & Hget).
  destruct (GetSession exampleUID (fst (fst exampleExecuted))) as [s' [ss|e]] eqn:E; cbn [snd] in Hl |- *; [|discriminate Hl].
  exists ss. injection Hl as Hl. destruct (Hget _ _ _ E) as (st & Hst & Hr). rewrite Hd in Hst. injection Hst as <-.
  split; [reflexivity|]. split; [exact Hl|exact Hr].
Defined.
