(* ===== verification/ServiceDeleted.v ===== *)
(** * A deleted session is closed to every handler (theorems about [service_DeleteSession] and the mutating handlers) *)
From S2P Require Import Prelude GoErrors Api Canon EventLog Executions Approvals Harness Wire Sinks Controller Agents SessionGuard Placement Admission Registry Routing Relay Tables Projection SqlLog SqlExample SqlStore SqlSessions SqlHarnesses SqlSystem Durable GoJson Status Service ServiceOps ServiceFacts ServiceRouting ServiceExample ServicePins ServiceStreams ServiceSessions ServiceHistory.
#[local] Open Scope Z_scope.

Section Deleted.
Context `{Host} `{Encoding} `{Timestamppb} `{!ProtoCodec} `{Driver} `{PlacementHost} `{ProtoJson} `{ServiceHost} `{!ProtoLaws} `{!DriverLaws}.
Variables (storeProject defaultProject : string) (sendFault : nat -> option goerr).

Abbreviation dbOf s := (w_log (ps_world (sv_place s))).
Abbreviation tablesOf s := (tables (dbOf s)).

(** The state of a session that is not active. *)
Definition closed (uid : string) (s : ServiceState) : Prop :=
  exists i, selectSession uid (tablesOf s) = Some i /\ si_DeletionState i <> DeletionActive.

Lemma closed_idles uid s s' : idles s s' -> closed uid s -> closed uid s'.
Proof. intros [Hi _]. unfold closed. by rewrite (idle_tables _ _ Hi). Qed.

(** The guard lets a read in, and the database answers. *)
Definition served (uid : string) (s : ServiceState) : Prop :=
  faultFree /\ exists g hd, acquire uid guardRead (ps_guard (sv_place s)) = (g, Ok hd).

(** A refused call: nothing happened, and when it is served the caller is told that the session is deleted. *)
Definition refused {A} (uid : string) (s s' : ServiceState) (x : res A) : Prop :=
  idles s s' /\ (exists e, x = Err e) /\ (served uid s -> x = Err sessionDeleted).

Lemma served_read {A} uid (m : M ServiceState goerr A) s e : served uid s ->
  (forall s1, idles s s1 -> snd (m s1) = Err e) -> snd (sessionRead uid m s) = Err e.
Proof.
  intros [_ (g & hd & Hg)] Hm. unfold sessionRead, guarded. rewrite Hg.
  specialize (Hm (setPlace (setGuardP g (sv_place s)) s)). destruct (m _) as [s2 y]. simpl in *. apply Hm.
  split_and!; try done. apply idle_guard.
Qed.

Lemma info_answers uid s i : faultFree -> selectSession uid (tablesOf s) = Some i -> exists s1, onDB (SessionInfo_ uid) s = (s1, Ok i).
Proof.
  intros Hf Hi. destruct (SessionInfo_free Hf uid (dbOf s)) as [d Hd]. rewrite Hi in Hd.
  unfold onDB, onPlace, onStore, onWorldP, onLog. rewrite Hd. by eexists.
Qed.

Lemma closed_check {S} i (s : S) : si_DeletionState i <> DeletionActive -> check (deletedSessionError i) s = (s, Err sessionDeleted).
Proof. intros Hd. unfold deletedSessionError. by rewrite bool_decide_eq_false_2. Qed.

(** The admission of Suspend and Resume. *)
Lemma closed_admit uid s s' x : uid <> EmptyString -> closed uid s -> admitMutation uid s = (s', x) -> refused uid s s' x.
Proof.
  intros Hne (i & Hi & Hd) Hr. pose proof (admitMutation_inv _ _ _ _ Hr) as [Hidle Hx]. split; [done|]. split.
  - destruct x as [j|e]; [|by exists e]. destruct Hx as [Hj Ha]. congruence.
  - intros Hs. unfold admitMutation in Hr. rewrite bool_decide_eq_false_2 in Hr by done.
    assert (snd (mutationSessionInfo uid s) = Ok i) as Hm.
    { unfold mutationSessionInfo, orErr. destruct Hs as [Hf (g & hd & Hg)]. unfold sessionRead, guarded. rewrite Hg.
      destruct (info_answers uid (setPlace (setGuardP g (sv_place s)) s) i Hf Hi) as [s1 E]. by rewrite E. }
    unfold orErr, mbind, M_bind in Hr. destruct (mutationSessionInfo uid s) as [s1 y]. simpl in Hm. subst y.
    rewrite closed_check in Hr by done. by injection Hr.
Qed.

(** A handler whose first phase refuses. *)
Lemma refused_bind {A B} uid (m : M ServiceState goerr A) (k : A -> M ServiceState goerr B) s s' x :
  (forall s1 y, m s = (s1, y) -> refused uid s s1 y) -> (m ≫= k) s = (s', x) -> refused uid s s' x.
Proof.
  intros Hm (s1 & y & Hy & Hr)%bind_inv. destruct (Hm _ _ Hy) as (Hi & [e ->] & Hs). destruct Hr as [-> ->].
  split; [done|]. split; [by exists e|]. intros Hv. specialize (Hs Hv). congruence.
Qed.

Lemma closed_Suspend uid s s' x : uid <> EmptyString -> closed uid s -> service_Suspend storeProject uid s = (s', x) -> refused uid s s' x.
Proof. intros Hne Hc. apply refused_bind. intros s1 y. by apply closed_admit. Qed.
Lemma closed_Resume uid expected s s' x : uid <> EmptyString -> closed uid s -> service_Resume storeProject uid expected s = (s', x) -> refused uid s s' x.
Proof. intros Hne Hc. apply refused_bind. intros s1 y. by apply closed_admit. Qed.

(** Approve. *)
Lemma closed_Approve req s s' x : ar_Session req <> EmptyString -> ar_ExecutionId req <> EmptyString -> ar_ToolCallId req <> EmptyString ->
  0 < ar_RequestSeq req -> is_Some (ar_Approved req) -> closed (ar_Session req) s ->
  service_Approve storeProject req s = (s', x) -> refused (ar_Session req) s s' x.
Proof.
  intros H1' H2' H3' H4' [b Hb] Hc. unfold service_Approve. rewrite Hb, !bool_decide_eq_false_2, (proj2 (Z.leb_gt _ _) H4') by done.
  cbn [orb]. apply refused_bind. intros s1 y Hr. destruct Hc as (i & Hi & Hd).
  assert (idles s s1) as Hidle.
  { revert Hr. match goal with |- ?m _ = _ -> _ => assert (servesIdle m) as Hm by (unfold sessionRead; idling); apply Hm end. }
  split; [done|]. split.
  - apply orErr_inv in Hr as (z & Hr & ->). destruct z as [[]|e]; [|by eexists].
    apply guarded_inv in Hr as [[_ [? [=]]]|(sa & sb & Hia & Hr & _)].
    apply bind_inv in Hr as (sc & [j|e] & (z & (d & Hj)%onDB_inv & Hz)%orErr_inv & Hr); [|by destruct Hr].
    destruct z; [|discriminate]. injection Hz as <-. apply SessionInfo_inv in Hj as (_ & _ & Hj).
    rewrite (idle_tables _ _ (proj1 Hia)), Hi in Hj. injection Hj as <-. rewrite closed_check in Hr by done. discriminate.
  - intros Hs. apply orErr_inv in Hr as (z & Hr & ->).
    assert (z = Err sessionDeleted) as ->; [|done]. rewrite <- (f_equal snd Hr : _ = z). apply served_read; [done|].
    intros sa Hia. rewrite <- (idle_tables _ _ (proj1 Hia)) in Hi. destruct (info_answers _ _ _ (proj1 Hs) Hi) as [sb E].
    unfold orErr, mbind, M_bind. rewrite E, closed_check by done. done.
Qed.

(** Exec: nothing is sent. *)
Lemma closed_execRead req uid s s' x : closed uid s -> execRead storeProject None req uid None s = (s', x) -> refused uid s s' x.
Proof.
  intros Hc Hr. pose proof (idle_execRead _ _ _ _ _ _ _ Hr) as Hidle. split; [done|]. split.
  - destruct x as [[[route head] ss]|e]; [|by exists e]. apply execRead_Ok in Hr as (i & Hi & Ha & _).
    destruct (closed_idles _ _ _ Hidle Hc) as (j & Hj & Hd). congruence.
  - intros Hs. destruct Hc as (i & Hi & Hd). apply orErr_inv in Hr as (z & Hr & ->).
    assert (z = Err sessionDeleted) as ->; [|done]. rewrite <- (f_equal snd Hr : _ = z). apply served_read; [done|].
    intros sa Hia. rewrite <- (idle_tables _ _ (proj1 Hia)) in Hi. destruct (info_answers _ _ _ (proj1 Hs) Hi) as [sb E].
    unfold approvalRoute, try, mbind, M_bind. rewrite E, closed_check by done. done.
Qed.

Lemma closed_Exec req s st s' st' x : er_Session req <> EmptyString -> closed (er_Session req) s ->
  service_Exec storeProject defaultProject None sendFault req (s, st) = ((s', st'), x) -> refused (er_Session req) s s' x /\ st' = st.
Proof.
  intros Hne Hc Hr. unfold service_Exec in Hr. rewrite bool_decide_eq_false_2 in Hr by done.
  apply bind_inv in Hr as ([s1 st1] & y & [Hy Hst1]%onService_inv & Hr). injection Hy as <- <-. cbn [snd] in Hst1. subst st1.
  apply bind_inv in Hr as ([s2 st2] & y & [Hy Hst2]%onService_inv & Hr). cbn [fst snd] in *. subst st2.
  destruct (closed_execRead _ _ _ _ _ Hc Hy) as (Hi & [e ->] & Hs). destruct Hr as [[= -> ->] ->].
  split; [|done]. split; [done|]. split; [by exists e|]. intros Hv. specialize (Hs Hv). congruence.
Qed.

(** What a deletion leaves. *)
Lemma deleted_closed deleteCtx uid s0 s1 ss s : db_ok (dbOf s0) -> service_DeleteSession deleteCtx uid s0 = (s1, Ok ss) ->
  rtc db_step (dbOf s1) (dbOf s) -> uid <> EmptyString /\ closed uid s.
Proof.
  intros Hok Hr Hsteps. unfold service_DeleteSession in Hr. case_bool_decide as Hne; [discriminate|]. split; [done|].
  apply bind_inv in Hr as (s2 & [i|e] & (z & Hz & Hy)%orErr_inv & Hr); [|by destruct Hr]. injection Hr as <- _.
  destruct z as [i'|]; [|discriminate]. injection Hy as <-.
  unfold guarded in Hz. destruct (acquire uid guardDelete (ps_guard (sv_place s0))) as [g [hd|e]]; [|discriminate].
  match type of Hz with (let '(_, _) := ?m in _) = _ => destruct m as [s3 y] eqn:E end. injection Hz as <- ->.
  apply onDB_tables in E as [E _]. cbn [sv_place setPlace ps_world setGuardP] in *.
  destruct (Delete_row _ _ _ _ _ Hok E) as (Hok1 & row & Hrow & Hst).
  assert (deletion_state (s_deletion row) <> DeletionActive) as Hna by congruence.
  destruct (db_steps_inactive _ _ _ _ Hok1 Hrow Hna Hsteps) as [Hrow' _].
  unfold closed, selectSession. rewrite Hrow'. eexists. split; [done|]. unfold scanSession, sessionSelect. by case_match.
Qed.
End Deleted.

(** C17: Deletion closes a session for good. Once DeleteSession has answered, then after any further calls of
    the handlers, of other processes on the database, and any changes of the registry and the guard, every call of Exec, Resume,
    Suspend and Approve on the session fails and does nothing: the database, the connections and the
    observer are as before, nothing is invoked and no frame is sent. When the guard lets the read in and the
    database answers, the caller is told FAILED_PRECONDITION with the deletion as its cause. *)
Theorem deleted_session_refused `{Host} `{Encoding} `{Timestamppb} `{!ProtoCodec} `{Driver} `{PlacementHost} `{ProtoJson} `{ServiceHost} `{!ProtoLaws} `{!DriverLaws}
    storeProject defaultProject sendFault deleteCtx uid s0 s1 ss s :
  db_ok (w_log (ps_world (sv_place s0))) -> service_DeleteSession deleteCtx uid s0 = (s1, Ok ss) ->
  rtc (service_step storeProject defaultProject) s1 s ->
  (forall req st s' st' x, er_Session req = uid -> service_Exec storeProject defaultProject None sendFault req (s, st) = ((s', st'), x) ->
     refused uid s s' x /\ st' = st) /\
  (forall expected s' x, service_Resume storeProject uid expected s = (s', x) -> refused uid s s' x) /\
  (forall s' x, service_Suspend storeProject uid s = (s', x) -> refused uid s s' x) /\
  (forall req s' x, ar_Session req = uid -> ar_ExecutionId req <> EmptyString -> ar_ToolCallId req <> EmptyString -> 0 < ar_RequestSeq req ->
     is_Some (ar_Approved req) -> service_Approve storeProject req s = (s', x) -> refused uid s s' x).
Proof.
  intros Hok Hr Hserved. pose proof (step_Delete storeProject defaultProject _ _ _ _ _ Hr) as Hdel%service_step_moves.
  pose proof (db_steps_ok _ _ Hok (Hdel Hok)) as Hok1. pose proof (service_steps_moves _ _ _ _ Hserved Hok1) as Hsteps.
  destruct (deleted_closed _ _ _ _ _ _ Hok Hr Hsteps) as [Hne Hc]. split_and!.
  - intros req st s' st' x <-. by apply closed_Exec.
  - intros expected s' x. by apply closed_Resume.
  - intros s' x. by apply closed_Suspend.
  - intros req s' x <- He Ht Hq Ha. by apply closed_Approve.
Qed.

#[local] Existing Instance exampleHost.
#[local] Existing Instance exampleEncoding.
#[local] Existing Instance exampleTimestamppb.
#[local] Existing Instance exampleDriver.
#[local] Existing Instance exampleDriverLaws.
#[local] Existing Instance examplePlacementHost.
#[local] Existing Instance exampleProtoJson.
#[local] Existing Instance exampleServiceHost.

(** The example session, deleted and then asked for a turn. *)
Definition exampleDeleted : ServiceState * res PbSession := service_DeleteSession noContext exampleUID (fst exampleCreated).
Definition exampleRefused : (ServiceState * Stream ExecFrame) * res unit :=
  service_Exec "default" "default" None noFault exampleRequest (fst exampleDeleted, freshStream).

Lemma exampleCreated_ok : db_ok (w_log (ps_world (sv_place (fst exampleCreated)))).
Proof.
  eapply db_steps_ok; [apply emptyDB_ok|]. apply (service_step_moves "default" "default" exampleService); [|apply emptyDB_ok].
  apply (step_Create _ _ _ _ (Some exampleSpec) (snd exampleCreated)), surjective_pairing.
Qed.

Lemma deleted_session_refused_witness :
  is_ok (snd exampleDeleted) = true /\ snd exampleRefused = Err sessionDeleted /\ sent (snd (fst exampleRefused)) = [].
Proof.
  assert (is_ok (snd exampleDeleted) = true) as Hok by (vm_compute; reflexivity). split; [exact Hok|].
  destruct exampleDeleted as [s1 [ss|e]] eqn:E; cbn [snd is_ok] in Hok; [|discriminate Hok].
  destruct (deleted_session_refused "default" "default" noFault noContext exampleUID (fst exampleCreated) s1 ss s1 exampleCreated_ok E (rtc_refl _ _))
    as (Hexec & _).
  destruct (Hexec exampleRequest freshStream (fst (fst exampleRefused)) (snd (fst exampleRefused)) (snd exampleRefused)) as [(_ & _ & Hserved) Hsent].
  - reflexivity.
  - unfold exampleRefused. rewrite E. cbn [fst]. by rewrite <- !surjective_pairing.
  - split; [|by rewrite Hsent]. apply Hserved. split; [by intros n|].
    assert (is_ok (snd (acquire exampleUID guardRead (ps_guard (sv_place (fst exampleDeleted))))) = true) as Hg by (vm_compute; reflexivity).
    rewrite E in Hg. cbn [fst] in Hg. destruct (acquire _ _ _) as [g [hd|e]]; [by exists g, hd|discriminate Hg].
Defined.
