(* ===== verification/HarnessSpec.v ===== *)
(** * Harness specs and names (session/harness_registry.go)

    What a registration stores: the spec as a protobuf message, its reflection, its validation and
    digest; the regular expression of a harness name, with Go's matching of it by derivatives; and the
    page token of a listing. *)
From S2P Require Import Prelude GoErrors Api Canon EventLog Executions Approvals Harness Wire Sinks Controller SessionGuard Placement Tables SqlLog SqlSessions Status.
#[local] Open Scope Z_scope.

(** ** Messages (api/harness_registry.proto, api/harness.proto)

    A message keeps the bytes of fields it does not know. An enum is open: its number is kept. *)
Definition RESUMABILITY_UNSPECIFIED : Z := 0.
Definition RESUMABILITY_STATELESS_REPLAY : Z := 1.
Definition RESUMABILITY_REQUIRES_MEMORY_SNAPSHOT : Z := 2.
Definition Resumability_values : list Z :=
  [RESUMABILITY_UNSPECIFIED; RESUMABILITY_STATELESS_REPLAY; RESUMABILITY_REQUIRES_MEMORY_SNAPSHOT].

Record PbCapabilities := mkPbCapabilities {
  pc_Resumability : Z; pc_ForkSafe : bool; pc_RequiresGpu : bool; pc_Streaming : bool; pc_ReasoningReplay : bool;
  pc_unknown : list Z;
}.
Record RemotePlacement := mkRemotePlacement { rp_Address : string; rp_unknown : list Z }.
Record SubstratePlacement := mkSubstratePlacement { sp_Atespace : string; sp_Template : string; sp_unknown : list Z }.
Inductive SpecPlacement :=
  | HarnessSpec_Remote (p : option RemotePlacement)
  | HarnessSpec_Substrate (p : option SubstratePlacement).
Record HarnessSpec := mkHarnessSpec {
  hs_Placement : option SpecPlacement;
  hs_Capabilities : option PbCapabilities;
  hs_DescriptorId : string;
  hs_unknown : list Z;
}.

(** [v1.HarnessDescriptor], and its conversions (harnesswire/harnesswire.go). *)
Record PbHarnessDescriptor := mkPbHarnessDescriptor {
  pd_Id : string; pd_Models : list string; pd_Tools : list (option PbToolSpec); pd_Capabilities : option PbCapabilities;
  pd_Version : string;
}.
Definition capabilitiesToProto (c : Capabilities) : PbCapabilities :=
  mkPbCapabilities
    (match cap_Resumability c with
     | ResumabilityRequiresMemorySnapshot => RESUMABILITY_REQUIRES_MEMORY_SNAPSHOT
     | _ => RESUMABILITY_STATELESS_REPLAY
     end) (ForkSafe c) (RequiresGPU c) (Streaming c) (ReasoningReplay c) [].
Definition capabilitiesFromProto (p : option PbCapabilities) : Capabilities :=
  let p := default (mkPbCapabilities RESUMABILITY_UNSPECIFIED false false false false []) p in
  mkCapabilities
    (if pc_Resumability p =? RESUMABILITY_REQUIRES_MEMORY_SNAPSHOT then ResumabilityRequiresMemorySnapshot else ResumabilityStatelessReplay)
    (pc_ForkSafe p) (pc_RequiresGpu p) (pc_Streaming p) (pc_ReasoningReplay p).
Definition DescriptorToProto (d : Descriptor) : PbHarnessDescriptor :=
  mkPbHarnessDescriptor (desc_ID d) (desc_Models d) (map (fun t => Some (ToolSpecToProto t)) (desc_Tools d))
    (Some (capabilitiesToProto (desc_Capabilities d))) (desc_Version d).
Definition descriptorFromProto (p : option PbHarnessDescriptor) : Descriptor :=
  let p := default (mkPbHarnessDescriptor EmptyString [] [] None EmptyString) p in
  mkDescriptor (pd_Id p) (pd_Version p) (pd_Models p) (map ToolSpecFromProto (pd_Tools p)) (capabilitiesFromProto (pd_Capabilities p)).

(** [protojson]: the pinned [marshalOpts.Marshal] of package canon, and [protojson.Unmarshal]. *)
Class SpecJson := {
  marshalSpec : HarnessSpec -> res (list Z);
  unmarshalSpec : list Z -> res HarnessSpec;
}.

(** ** Reflection (google.golang.org/protobuf/reflect/protoreflect)

    A message as its populated fields, in field order. *)
Inductive PValue :=
  | VScalar
  | VEnum (values : list Z) (n : Z)
  | VMessage (unknown : list Z) (fields : list PField)
with PField :=
  | FieldMap
  | FieldList (vs : list PValue)
  | FieldValue (v : PValue).

Definition boolField (b : bool) : list PField := if b then [FieldValue VScalar] else [].
Definition stringField (s : string) : list PField := if bool_decide (s = EmptyString) then [] else [FieldValue VScalar].
Definition enumField (values : list Z) (n : Z) : list PField := if n =? 0 then [] else [FieldValue (VEnum values n)].

Definition reflectCapabilities (c : PbCapabilities) : PValue :=
  VMessage (pc_unknown c)
    (enumField Resumability_values (pc_Resumability c) ++ boolField (pc_ForkSafe c) ++ boolField (pc_RequiresGpu c)
     ++ boolField (pc_Streaming c) ++ boolField (pc_ReasoningReplay c)).
Definition reflectRemote (p : option RemotePlacement) : PValue :=
  match p with None => VMessage [] [] | Some p => VMessage (rp_unknown p) (stringField (rp_Address p)) end.
Definition reflectSubstrate (p : option SubstratePlacement) : PValue :=
  match p with
  | None => VMessage [] []
  | Some p => VMessage (sp_unknown p) (stringField (sp_Atespace p) ++ stringField (sp_Template p))
  end.
(** [spec.ProtoReflect()]. *)
Definition ProtoReflect (spec : HarnessSpec) : PValue :=
  VMessage (hs_unknown spec)
    (match hs_Placement spec with
     | None => []
     | Some (HarnessSpec_Remote p) => [FieldValue (reflectRemote p)]
     | Some (HarnessSpec_Substrate p) => [FieldValue (reflectSubstrate p)]
     end ++ match hs_Capabilities spec with Some c => [FieldValue (reflectCapabilities c)] | None => [] end
     ++ stringField (hs_DescriptorId spec)).

(** The first error of a list. *)
Definition firstError {A} (f : A -> option goerr) : list A -> option goerr :=
  fix firstError l := match l with
  | [] => None
  | a :: l' => match f a with Some e => Some e | None => firstError l' end
  end.

(** [checkKnown(m)] on a message, and [checkValue(fd, v)] on the value of a field: both are [checkValue]
    here, which goes on into a message. *)
Fixpoint checkValue (v : PValue) : option goerr :=
  match v with
  | VScalar => None
  | VEnum values n => if bool_decide (n ∈ values) then None else Some (EText "not a value this host understands")
  | VMessage unknown fields =>
      if bool_decide (unknown <> []) then Some (EText "has fields this host does not understand")
      else firstError checkField fields
  end
with checkField (f : PField) : option goerr :=
  match f with
  | FieldMap => Some (EText "map fields are not supported")
  | FieldList vs => firstError checkValue vs
  | FieldValue v => checkValue v
  end.
Definition checkKnown (m : PValue) : option goerr := checkValue m.

(** [validateSpec(spec)]. *)
Definition validatePlacement (p : option SpecPlacement) : option goerr :=
  match p with
  | Some (HarnessSpec_Remote p) =>
      if bool_decide (default EmptyString (rp_Address <$> p) = EmptyString) then Some (EText "remote.address is required") else None
  | Some (HarnessSpec_Substrate p) =>
      if bool_decide (default EmptyString (sp_Atespace <$> p) = EmptyString) || bool_decide (default EmptyString (sp_Template <$> p) = EmptyString)
      then Some (EText "substrate.atespace and substrate.template are required") else None
  | None => Some (EText "placement is required")
  end.
Definition validateSpec (spec : option HarnessSpec) : option goerr :=
  match spec with
  | None => Some (EText "spec is required")
  | Some spec =>
      match checkKnown (ProtoReflect spec) with
      | Some err => Some err
      | None =>
          match validatePlacement (hs_Placement spec) with
          | Some err => Some err
          | None =>
              if default RESUMABILITY_UNSPECIFIED (pc_Resumability <$> hs_Capabilities spec) =? RESUMABILITY_UNSPECIFIED
              then Some (EText "capabilities.resumability is required") else None
          end
      end
  end.

(** ** Digest and storage *)
Section Digest.
Context `{Encoding} `{SpecJson}.

(** [canon.Proto(m)]. *)
Definition canonProto (spec : HarnessSpec) : res (list Z) :=
  j ← marshalSpec spec;
  jcsTransform j.

(** [specDigest(spec)]. *)
Definition digestOf (c : list Z) : string := ("sha256:" +:+ hexEncode (Sum256 c))%string.
Definition specDigest (spec : HarnessSpec) : res (list Z * string) :=
  match canonProto spec with
  | Err err => Err err
  | Ok c => Ok (c, digestOf c)
  end.

(** [decodeSpec(s)], [storedSpec(s)]. *)
Definition decodeSpec (s : string) : res HarnessSpec := unmarshalSpec (bytesOf s).
Definition storedSpec (s : string) : res HarnessSpec :=
  match decodeSpec s with
  | Err err => Err (EWrap "stored spec" err)
  | Ok spec => match validateSpec (Some spec) with Some err => Err (EWrap "stored spec" err) | None => Ok spec end
  end.

(** A message without unknown fields that is written in canonical form is read back. *)
Class SpecJsonLaws : Prop := {
  canonProto_bytes : forall spec c, canonProto spec = Ok c -> Forall isByte c /\ c <> [];
  canonProto_read : forall spec c, validateSpec (Some spec) = None -> canonProto spec = Ok c -> unmarshalSpec c = Ok spec;
}.
End Digest.

(** ** Names: regular expressions (package regexp)

    The operators the pattern uses, on bytes; both anchors are implied, as in the pattern. *)
Inductive Regexp :=
  | ReNone
  | ReEmpty
  | ReClass (ranges : list (Z * Z))
  | ReConcat (a b : Regexp)
  | ReAlternate (a b : Regexp).

Definition inRanges (ranges : list (Z * Z)) (c : Z) : bool :=
  existsb (fun r => (fst r <=? c) && (c <=? snd r)) ranges.

(** [e?] and [e{0,n}]: package regexp/syntax expands the latter to nested optional repetitions. *)
Definition optional (e : Regexp) : Regexp := ReAlternate e ReEmpty.
Fixpoint atMost (n : nat) (e : Regexp) : Regexp :=
  match n with O => ReEmpty | S n => optional (ReConcat e (atMost n e)) end.

(** Whether the empty text matches, and what must match the rest after one byte. *)
Fixpoint nullable (e : Regexp) : bool :=
  match e with
  | ReNone | ReClass _ => false
  | ReEmpty => true
  | ReConcat a b => nullable a && nullable b
  | ReAlternate a b => nullable a || nullable b
  end.
Fixpoint derive (c : Z) (e : Regexp) : Regexp :=
  match e with
  | ReNone | ReEmpty => ReNone
  | ReClass ranges => if inRanges ranges c then ReEmpty else ReNone
  | ReConcat a b =>
      if nullable a then ReAlternate (ReConcat (derive c a) b) (derive c b) else ReConcat (derive c a) b
  | ReAlternate a b => ReAlternate (derive c a) (derive c b)
  end.
Definition MatchString (e : Regexp) (s : list Z) : bool := nullable (foldl (fun e c => derive c e) e s).

(** [harnessName]: [^[a-z0-9]([a-z0-9-]{0,61}[a-z0-9])?$]. *)
Definition alnum : Regexp := ReClass [(97, 122); (48, 57)].
Definition alnumDash : Regexp := ReClass [(97, 122); (48, 57); (45, 45)].
Definition harnessName : Regexp := ReConcat alnum (optional (ReConcat (atMost 61 alnumDash) alnum)).

(** [validName(name)]. *)
Definition validName (name : string) : option goerr :=
  if MatchString harnessName (bytesOf name) then None else Some (EStatus codes_InvalidArgument).

(** ** Page tokens *)

(** [encodeHarnessPageToken(after)], [decodeHarnessPageToken(token)]. *)
Definition encodeHarnessPageToken (after : string) : string := b64Encode (bytesOf after).
Definition decodeHarnessPageToken (token : string) : res string :=
  if bool_decide (token = EmptyString) then Ok EmptyString
  else match b64Decode token with
  | Some (b :: bs) => Ok (stringOf (b :: bs))
  | _ => Err (EText "not a token this server issued")
  end.
