(* ===== verification/HarnessAdmin.v ===== *)
(** * The HarnessRegistry admin service (session/harness_registry.go)

    Registration, inspection, retirement and listing of harnesses, and the loading of the stored ones at
    startup, on the state of the Sessions service: the database and the registry it routes through. A
    placer comes from the host's factory, with a function that releases what was built for it; those
    functions are numbered in the order the factory returned them, and calling one is recorded. A handler
    is one step; the mutex that serializes registrations is implied. *)
From S2P Require Import Prelude GoErrors Api Canon EventLog Executions Approvals Harness Wire Sinks Controller SessionGuard Placement Registry Tables Projection SqlLog SqlSessions SqlHarnesses GoJson Status Service HarnessSpec.
#[local] Open Scope Z_scope.

(** ** Messages *)

Inductive PbHarnessState := HARNESS_STATE_ACTIVE | HARNESS_STATE_RETIRED.
Inductive PbHarnessSource := HARNESS_SOURCE_STATIC | HARNESS_SOURCE_REGISTERED.
Inductive RegisterOutcome := REGISTER_OUTCOME_CREATED | REGISTER_OUTCOME_UNCHANGED | REGISTER_OUTCOME_REACTIVATED.

(** [registerOutcome(r)]. *)
Definition registerOutcome (r : RegisterResult) : RegisterOutcome :=
  match r with
  | HarnessCreated => REGISTER_OUTCOME_CREATED
  | HarnessUnchanged => REGISTER_OUTCOME_UNCHANGED
  | HarnessReactivated => REGISTER_OUTCOME_REACTIVATED
  end.

Definition maxSpecBytes : Z := 4096.
Definition maxRetireReason : Z := 1024.

(** Go's zero time, in nanoseconds since 1970. *)
Definition zeroTime : Z := -62135596800000000000.

(** ** The factory *)

Record FactoryResult := mkFactoryResult { fr_placer : option nat; fr_release : bool; fr_err : option goerr }.
(** [PlacerFactory]: at a point in time, for a name and a spec, on the heap of placers. *)
Definition PlacerFactory : Type := nat -> string -> HarnessSpec -> Heap -> Heap * FactoryResult.

(** The placers that [New] makes. *)
Definition makes (h h' : Heap) : Prop := exists p, h' = fst (newPlacer p h).

(** What a factory must keep to: it makes placers and touches no other, and the one it returns is new. *)
Class FactoryLaws (factory : PlacerFactory) : Prop := {
  factory_makes : forall t name spec h h' r, factory t name spec h = (h', r) -> rtc makes h h';
  factory_new : forall t name spec h h' r ptr, factory t name spec h = (h', r) -> fr_placer r = Some ptr ->
    (nextObj h <= ptr)%nat /\ is_Some (placers h' !! ptr);
}.

Section HarnessAdmin.
Context `{Host} `{Encoding} `{Timestamppb} `{!ProtoCodec} `{Driver} `{PlacementHost} `{ServiceHost} `{SpecJson}.

(** [v1.HarnessRegistration]; a text that explains is an error or absent. *)
Record HarnessRegistration := mkHarnessRegistration {
  hg_Metadata : option ResourceMetadata;
  hg_Spec : option HarnessSpec;
  hg_SpecDigest : string;
  hg_State : PbHarnessState;
  hg_Source : PbHarnessSource;
  hg_RetireTime : option Ts;
  hg_RetireReason : string;
  hg_Observed : option PbHarnessDescriptor;
  hg_ObserveError : option goerr;
  hg_UnservableReason : option goerr;
}.

(** [staticProto(name)]. *)
Definition staticProto (name : string) : HarnessRegistration :=
  mkHarnessRegistration (Some (mkResourceMetadata EmptyString name EmptyString None None)) None EmptyString
    HARNESS_STATE_ACTIVE HARNESS_SOURCE_STATIC None EmptyString None None None.

(** Why a stored registration cannot be served here. *)
Definition unservableReason (r : Registry) (rec : HarnessRecord) : option goerr :=
  match storedSpec (hr_Spec rec) with
  | Err err => Some err
  | Ok _ =>
      match For r (hr_Name rec) with
      | Ok _ => None
      | Err err => Some (if errors_Is err ErrHarnessUnservable then err else EText "registration is not loaded on this host")
      end
  end.

(** [registrationProto(rec)]. *)
Definition registrationProto (r : Registry) (rec : HarnessRecord) : HarnessRegistration :=
  let retired := bool_decide (hr_State rec = HarnessRetired) in
  mkHarnessRegistration
    (Some (mkResourceMetadata EmptyString (hr_Name rec) (hr_UID rec)
       (Some (ts_New (default zeroTime (hr_CreatedAt rec)))) (Some (ts_New (default zeroTime (hr_UpdatedAt rec))))))
    (match storedSpec (hr_Spec rec) with Ok spec => Some spec | Err _ => None end)
    (SpecDigest rec)
    (if retired then HARNESS_STATE_RETIRED else HARNESS_STATE_ACTIVE)
    HARNESS_SOURCE_REGISTERED
    (if retired then Some (ts_New (default zeroTime (RetiredAt rec))) else None)
    (if retired then RetireReason rec else EmptyString)
    None None (unservableReason r rec).

(** ** State *)

(** [HarnessRegistry]: the store and the registry are the service's; beside them, the release functions
    kept, and, not in the code, how many the factory returned and which were called. *)
Record AdminState := mkAdminState {
  ad_service : ServiceState;
  ad_releases : list nat;
  ad_built : nat;
  ad_released : list nat;
}.

Definition setService (sv : ServiceState) (s : AdminState) : AdminState :=
  mkAdminState sv (ad_releases s) (ad_built s) (ad_released s).
Definition onServiceA {A} (m : M ServiceState goerr A) : M AdminState goerr A := fun s =>
  let '(sv, r) := m (ad_service s) in (setService sv s, r).
Definition onStoreA {A} (m : M DB goerr A) : M AdminState goerr A := onServiceA (onDB m).
Definition registryOf : M AdminState goerr Registry := gets (fun s => sv_registry (ad_service s)).

(** [if release != nil { release() }], and [keep(release)]. *)
Definition release (f : option nat) : M AdminState goerr unit := fun s =>
  (mkAdminState (ad_service s) (ad_releases s) (ad_built s) (ad_released s ++ option_list f), Ok tt).
Definition keep (f : option nat) : M AdminState goerr unit := fun s =>
  (mkAdminState (ad_service s) (ad_releases s ++ option_list f) (ad_built s) (ad_released s), Ok tt).

(** [Close()]. *)
Definition Close : M AdminState goerr unit := fun s =>
  (mkAdminState (ad_service s) [] (ad_built s) (ad_released s ++ ad_releases s), Ok tt).

Variable factory : PlacerFactory.

(** A call of the factory: the placer, the release function, the error. *)
Definition askFactory (t : nat) (name : string) (spec : HarnessSpec) : M AdminState goerr (option nat * option nat * option goerr) := fun s =>
  let sv := ad_service s in
  let '(h, fr) := factory t name spec (sv_heap sv) in
  let f := if fr_release fr then Some (ad_built s) else None in
  (mkAdminState (mkServiceState (sv_place sv) (sv_registry sv) h) (ad_releases s)
     (ad_built s + (if fr_release fr then 1 else 0))%nat (ad_released s),
   Ok (fr_placer fr, f, fr_err fr)).
Definition callFactory (name : string) (spec : HarnessSpec) : M AdminState goerr (option nat * option nat * option goerr) :=
  let! t := onServiceA (onPlace tickP) in askFactory t name spec.

(** [registry.Add(name, p)] and [registry.MarkUnavailable(name, cause)]. *)
Definition addPlacer (name : string) (p : option nat) : M AdminState goerr unit := fun s =>
  let sv := ad_service s in
  let '((r, h), x) := Add name p (sv_registry sv) (sv_heap sv) in
  (setService (mkServiceState (sv_place sv) r h) s, x).
Definition markUnavailable (name : string) (cause : option goerr) : M AdminState goerr unit := fun s =>
  let sv := ad_service s in
  let '(r, x) := MarkUnavailable name cause (sv_registry sv) in
  (setService (mkServiceState (sv_place sv) r (sv_heap sv)) s, x).

(** [checkPlacer(p, spec)]. *)
Definition checkPlacer (p : option nat) (spec : HarnessSpec) (h : Heap) : option goerr :=
  match p with
  | None => Some (EText "the placer factory returned no placer")
  | Some ptr =>
      match placers h !! ptr with
      | None => Some (EText "unreachable: a pointer to a placer")
      | Some po =>
          if bool_decide (p_descriptorID (po_placer po) = hs_DescriptorId spec) then None
          else Some (EText "the placer factory returned a placer that expects another descriptor id")
      end
  end.
Definition heapOf : M AdminState goerr Heap := gets (fun s => sv_heap (ad_service s)).

(** ** Startup *)

(** [unavailable(name, cause)]. *)
Definition unavailable_ (name : string) (cause : goerr) : M AdminState goerr unit := markUnavailable name (Some cause).

(** [load(rec)]. *)
Definition load (rec : HarnessRecord) : M AdminState goerr unit :=
  let name := hr_Name rec in
  match storedSpec (hr_Spec rec) with
  | Err err => unavailable_ name err
  | Ok spec =>
      let! built := callFactory name spec in
      let '(p, f, err) := built in
      let! h := heapOf in
      match (match err with None => checkPlacer p spec h | Some _ => err end) with
      | Some err => do! release f in unavailable_ name err
      | None =>
          let! added := try (addPlacer name p) in
          match added with
          | Ok _ => keep f
          | Err err =>
              do! release f in
              if errors_Is err ErrHarnessExists then throw err else unavailable_ name err
          end
      end
  end.

(** The loop of [forEachRegistration] over one page. *)
Fixpoint eachRecord (fn : HarnessRecord -> M AdminState goerr unit) (recs : list HarnessRecord) : M AdminState goerr unit :=
  match recs with
  | [] => mret tt
  | rec :: recs' => do! fn rec in eachRecord fn recs'
  end.

(** [forEachRegistration(store, fn)]: [fuel] bounds the pages. *)
Fixpoint forEachRegistration (fuel : nat) (after : string) (fn : HarnessRecord -> M AdminState goerr unit) : M AdminState goerr unit :=
  match fuel with
  | O => throw (EText "out of fuel")
  | S fuel' =>
      let! recs := onStoreA (ListHarnesses (mkHarnessListOptions after MaxPageSize true)) in
      do! eachRecord fn recs in
      if Z.of_nat (length recs) <? MaxPageSize then mret tt
      else forEachRegistration fuel' (match list.last recs with Some rec => hr_Name rec | None => after end) fn
  end.

(** [ReserveStaticHarnessNames(store, registry)]. *)
Definition ReserveStaticHarnessNames : M AdminState goerr unit :=
  let! r := registryOf in
  onStoreA (wrapErr "session" (ReserveHarnessNames (ReservedNames r))).

(** [NewHarnessRegistry(store, registry, factory)] on a store, a registry and a factory. *)
Definition startupFuel : M AdminState goerr nat :=
  gets (fun s => S (size (t_harnesses (tables (w_log (ps_world (sv_place (ad_service s)))))))).
Definition NewHarnessRegistry : M AdminState goerr unit :=
  do! ReserveStaticHarnessNames in
  let! fuel := startupFuel in
  let! loaded := try (forEachRegistration fuel EmptyString load) in
  match loaded with
  | Ok _ => mret tt
  | Err err => do! Close in throw err
  end.

(** ** Handlers *)

Definition newHarnessUID : M AdminState goerr string :=
  let! t := onServiceA (onPlace tickP) in mret ("harness-" +:+ hexEncode (rand12 t))%string.

(** The refusal of a conflicting spec before anything is built. *)
Definition precheckSpec (name digest : string) : M AdminState goerr unit :=
  let! found := try (onStoreA (Harness_ name)) in
  match found with
  | Ok rec => if negb (bool_decide (SpecDigest rec = digest)) then throw (EStatus codes_AlreadyExists) else mret tt
  | Err err => if negb (errors_Is err ErrHarnessNotFound) then throw (EStatus codes_Internal) else mret tt
  end.

(** The placer of a name the registry does not know yet. *)
Definition buildPlacer (name : string) (spec : HarnessSpec) : M AdminState goerr (option (nat * option nat)) :=
  let! r := registryOf in
  if Has r name then mret None
  else
    let! built := callFactory name spec in
    let '(p, f, err) := built in
    match err with
    | Some _ => do! release f in throw (EStatus codes_FailedPrecondition)
    | None =>
        let! h := heapOf in
        match p, checkPlacer p spec h with
        | Some ptr, None => mret (Some (ptr, f))
        | _, _ => do! release f in throw (EStatus codes_Internal)
        end
    end.

Definition registerError (err : goerr) : goerr :=
  EStatus (if errors_Is err ErrHarnessSpecConflict then codes_AlreadyExists
           else if errors_Is err ErrHarnessNameReserved then codes_AlreadyExists
           else codes_Internal).

(** The placer is added once the row is stored. *)
Definition addBuilt (name : string) (built : option (nat * option nat)) : M AdminState goerr unit :=
  match built with
  | None => mret tt
  | Some (ptr, f) =>
      let! added := try (addPlacer name (Some ptr)) in
      match added with
      | Ok _ => keep f
      | Err _ => do! release f in throw (EStatus codes_Internal)
      end
  end.

(** [RegisterHarness(ctx, req)]. *)
Definition admin_RegisterHarness (name : string) (spec : option HarnessSpec) : M AdminState goerr (HarnessRegistration * RegisterOutcome) :=
  do! check (validName name) in
  let! r := registryOf in
  if Reserved r name then throw (EStatus codes_AlreadyExists)
  else match spec, validateSpec spec with
  | Some spec, None =>
      match specDigest spec with
      | Err _ => throw (EStatus codes_InvalidArgument)
      | Ok (canonical, digest) =>
          if maxSpecBytes <? Z.of_nat (length canonical) then throw (EStatus codes_InvalidArgument)
          else
            do! precheckSpec name digest in
            let! built := buildPlacer name spec in
            let! uid := newHarnessUID in
            let! stored := try (onStoreA (RegisterHarness
              (mkHarnessRecord name uid (stringOf canonical) digest (HarnessStateOther EmptyString) EmptyString None None None))) in
            match stored with
            | Err err => do! release (built ≫= snd) in throw (registerError err)
            | Ok (rec, result) =>
                do! addBuilt name built in
                let! r := registryOf in
                mret (registrationProto r rec, registerOutcome result)
            end
      end
  | _, _ => throw (EStatus codes_InvalidArgument)
  end.

(** [observe(ctx, out)]. *)
Definition observed_ (d : option PbHarnessDescriptor) (e : option goerr) (out : HarnessRegistration) : HarnessRegistration :=
  mkHarnessRegistration (hg_Metadata out) (hg_Spec out) (hg_SpecDigest out) (hg_State out) (hg_Source out)
    (hg_RetireTime out) (hg_RetireReason out) d e (hg_UnservableReason out).
Definition admin_observe (out : HarnessRegistration) : M AdminState goerr HarnessRegistration :=
  let! r := registryOf in
  let! h := heapOf in
  match placerAt r h (default EmptyString (md_Name <$> hg_Metadata out)) with
  | Err err => mret (observed_ None (Some (if errors_Is err ErrUnknownHarness then EText "harness is not loaded on this host" else err)) out)
  | Ok p =>
      let! t := onServiceA (onPlace (called CallDescribe)) in
      match b_Describe (p_backend p) t with
      | Err err => mret (observed_ None (Some (EWrap "describe" err)) out)
      | Ok desc => mret (observed_ (Some (DescriptorToProto desc)) None out)
      end
  end.

(** [GetHarness(ctx, req)]. *)
Definition getError (err : goerr) : goerr :=
  EStatus (if errors_Is err ErrHarnessNotFound then codes_NotFound else codes_Internal).
Definition GetHarness (name : string) (wantObserved : bool) : M AdminState goerr HarnessRegistration :=
  if bool_decide (name = EmptyString) then throw (EStatus codes_InvalidArgument)
  else
    let! r := registryOf in
    let! out := (if Static r name then mret (staticProto name)
                 else
                   let! rec := orErr getError (onStoreA (Harness_ name)) in
                   mret (registrationProto r rec)) in
    if wantObserved then admin_observe out else mret out.

(** [RetireHarness(ctx, req)]. *)
Definition admin_RetireHarness (name reason : string) : M AdminState goerr HarnessRegistration :=
  if bool_decide (name = EmptyString) then throw (EStatus codes_InvalidArgument)
  else
    let! r := registryOf in
    if Static r name then throw (EStatus codes_FailedPrecondition)
    else if maxRetireReason <? Z.of_nat (String.length reason) then throw (EStatus codes_InvalidArgument)
    else
      let! rec := orErr getError (onStoreA (RetireHarness name reason)) in
      mret (registrationProto r rec).

(** The merge loop of [ListHarnesses]: [room] entries may still be added. *)
Fixpoint mergeListing (r : Registry) (room : nat) (static : list string) (recs : list HarnessRecord) : list HarnessRegistration :=
  match room with
  | O => []
  | S room =>
      match static, recs with
      | [], [] => []
      | name :: static', [] => staticProto name :: mergeListing r room static' recs
      | [], rec :: recs' => registrationProto r rec :: mergeListing r room static recs'
      | name :: static', rec :: recs' =>
          if String.ltb name (hr_Name rec) then staticProto name :: mergeListing r room static' recs
          else registrationProto r rec :: mergeListing r room static recs'
      end
  end.

(** The static names behind a token. *)
Definition staticAfter (r : Registry) (after : string) : list string :=
  filter (fun name => String.ltb after name = true) (StaticNames r).

Definition clampSize (size : Z) : option Z :=
  if size <? 0 then None
  else Some (if size =? 0 then DefaultPageSize else if MaxPageSize <? size then MaxPageSize else size).

(** [ListHarnesses(ctx, req)]: the page and the token of the next. *)
Definition nameOf (g : HarnessRegistration) : string := default EmptyString (md_Name <$> hg_Metadata g).
Definition admin_ListHarnesses (pageSize : Z) (pageToken : string) (includeRetired : bool)
    : M AdminState goerr (list HarnessRegistration * string) :=
  match clampSize pageSize, decodeHarnessPageToken pageToken with
  | Some size, Ok after =>
      let! recs := orErr (fun _ => EStatus codes_Internal)
        (onStoreA (ListHarnesses (mkHarnessListOptions after (size + 1) includeRetired))) in
      let! r := registryOf in
      let out := mergeListing r (S (Z.to_nat size)) (staticAfter r after) recs in
      if Z.of_nat (length out) <=? size then mret (out, EmptyString)
      else
        let page := take (Z.to_nat size) out in
        mret (page, encodeHarnessPageToken (default EmptyString (nameOf <$> list.last page)))
  | _, _ => throw (EStatus codes_InvalidArgument)
  end.
End HarnessAdmin.
