(* ===== verification/HarnessNames.v ===== *)
(** * What a registration may be named and may hold (theorems about session/harness_registry.go)

    Matching by derivatives decides the language of an expression; the expression of a harness name
    denotes the DNS labels; and a spec is valid exactly when every part of it is understood and set. *)
From S2P Require Import Prelude GoErrors Api Canon EventLog Executions Approvals Harness Wire Sinks Controller SessionGuard Placement Tables SqlLog SqlSessions GoJson Tokens Status HarnessSpec.
#[local] Open Scope Z_scope.

(** ** The language of an expression *)

Inductive matches : Regexp -> list Z -> Prop :=
  | m_empty : matches ReEmpty []
  | m_class ranges c : inRanges ranges c = true -> matches (ReClass ranges) [c]
  | m_concat a b s t : matches a s -> matches b t -> matches (ReConcat a b) (s ++ t)
  | m_left a b s : matches a s -> matches (ReAlternate a b) s
  | m_right a b s : matches b s -> matches (ReAlternate a b) s.

Lemma none_inv s : ~ matches ReNone s.
Proof. by inversion 1. Qed.
Lemma empty_inv s : matches ReEmpty s <-> s = [].
Proof. split; [by inversion 1|intros ->; constructor]. Qed.
Lemma class_inv ranges s : matches (ReClass ranges) s <-> exists c, s = [c] /\ inRanges ranges c = true.
Proof. split; [inversion 1; eauto|intros (c & -> & Hc); by constructor]. Qed.
Lemma alternate_inv a b s : matches (ReAlternate a b) s <-> matches a s \/ matches b s.
Proof. split; [inversion 1; eauto|intros [?|?]; by constructor]. Qed.
Lemma concat_inv a b s : matches (ReConcat a b) s <-> exists s1 s2, s = s1 ++ s2 /\ matches a s1 /\ matches b s2.
Proof. split; [inversion 1; eauto|intros (s1 & s2 & -> & ? & ?); by constructor]. Qed.

Lemma nullable_matches e : nullable e = true <-> matches e [].
Proof.
  induction e as [| |ranges|a IHa b IHb|a IHa b IHb]; simpl.
  - split; [done|by intros ?%none_inv].
  - by rewrite empty_inv.
  - split; [done|]. by intros (c & ? & _)%class_inv.
  - rewrite andb_true_iff, IHa, IHb, concat_inv. split; [by intros [??]; exists [], []|].
    by intros (s1 & s2 & (-> & ->)%(eq_sym (A := _))%app_nil & ? & ?).
  - by rewrite orb_true_iff, IHa, IHb, alternate_inv.
Qed.

Lemma derive_matches c e : forall s, matches (derive c e) s <-> matches e (c :: s).
Proof.
  induction e as [| |ranges|a IHa b IHb|a IHa b IHb]; intros s; simpl.
  - split; by intros ?%none_inv.
  - rewrite empty_inv. split; [by intros ?%none_inv|done].
  - rewrite class_inv. destruct (inRanges ranges c) eqn:Hc.
    + rewrite empty_inv. split; [intros ->; by exists c|by intros (c' & [= -> ->] & _)].
    + split; [by intros ?%none_inv|]. intros (c' & [= -> ->] & ?). congruence.
  - assert (matches (ReConcat (derive c a) b) s <-> exists s1 s2, c :: s = (c :: s1) ++ s2 /\ matches a (c :: s1) /\ matches b s2) as Hhead.
    { rewrite concat_inv. split; intros (s1 & s2 & E & ? & ?); exists s1, s2; (split; [simpl in *; congruence|]); split; try done; by apply IHa. }
    rewrite concat_inv. destruct (nullable a) eqn:Hn.
    + apply nullable_matches in Hn. rewrite alternate_inv, Hhead, IHb. split.
      * intros [(s1 & s2 & ? & ? & ?)|?]; [by eexists _, _|by exists [], (c :: s)].
      * intros ([|c' s1] & s2 & E & Ha & Hb); [right; simpl in E; by subst|]. injection E as <- ->. left. by exists s1, s2.
    + rewrite Hhead. split; [intros (s1 & s2 & ? & ? & ?); by eexists _, _|].
      intros ([|c' s1] & s2 & E & Ha & Hb); [by apply nullable_matches in Ha; congruence|]. injection E as <- ->. by exists s1, s2.
  - by rewrite !alternate_inv, IHa, IHb.
Qed.

Lemma MatchString_matches e s : MatchString e s = true <-> matches e s.
Proof.
  unfold MatchString. revert e. induction s as [|c s IH]; intros e; simpl; [apply nullable_matches|].
  by rewrite IH, derive_matches.
Qed.

(** ** Names *)

Lemma atMost_class n ranges s : matches (atMost n (ReClass ranges)) s <-> (length s <= n)%nat /\ Forall (fun c => inRanges ranges c = true) s.
Proof.
  revert s. induction n as [|n IH]; intros s; simpl.
  - rewrite empty_inv. split; [intros ->; by split|]. by destruct s as [|? ?]; simpl; [|lia].
  - unfold optional. rewrite alternate_inv, empty_inv, concat_inv. split.
    + intros [(s1 & s2 & -> & (c & -> & Hc)%class_inv & [Hl Hs]%IH)| ->]; simpl; [|split; [lia|done]].
      split; [lia|]. by constructor.
    + intros [Hl Hs]. destruct Hs as [|c s Hc Hs]; [by right|]. left. exists [c], s. split; [done|].
      split; [by constructor|]. apply IH. simpl in Hl. split; [lia|done].
Qed.

Definition isAlnum (c : Z) : Prop := 97 <= c <= 122 \/ 48 <= c <= 57.
(** An RFC 1123 DNS label: at most 63 lowercase alphanumerics and dashes, alphanumeric at both ends. *)
Record dnsLabel (bs : list Z) : Prop := {
  dl_length : (1 <= length bs <= 63)%nat;
  dl_chars : Forall (fun c => isAlnum c \/ c = 45) bs;
  dl_first : forall c, head bs = Some c -> isAlnum c;
  dl_last : forall c, list.last bs = Some c -> isAlnum c;
}.

Lemma alnum_ranges c : inRanges [(97, 122); (48, 57)] c = true <-> isAlnum c.
Proof. unfold inRanges, isAlnum. simpl. rewrite !orb_true_iff, !andb_true_iff, !Z.leb_le. intuition lia. Qed.
Lemma alnumDash_ranges c : inRanges [(97, 122); (48, 57); (45, 45)] c = true <-> isAlnum c \/ c = 45.
Proof. unfold inRanges, isAlnum. simpl. rewrite !orb_true_iff, !andb_true_iff, !Z.leb_le. intuition lia. Qed.

Lemma harnessName_split s : matches harnessName s <-> exists a, isAlnum a /\
  (s = [a] \/ exists m z, s = a :: m ++ [z] /\ (length m <= 61)%nat /\ Forall (fun c => isAlnum c \/ c = 45) m /\ isAlnum z).
Proof.
  unfold harnessName, alnum, alnumDash, optional. rewrite concat_inv. split.
  - intros (s1 & s2 & -> & (a & -> & Ha%alnum_ranges)%class_inv & [Ht| ->%empty_inv]%alternate_inv); exists a; (split; [done|]); [|by left].
    right. apply concat_inv in Ht as (m & t & -> & [Hl Hm]%atMost_class & (z & -> & Hz%alnum_ranges)%class_inv).
    exists m, z. split_and!; try done. eapply List.Forall_impl; [|exact Hm]. intros c. apply alnumDash_ranges.
  - intros (a & Ha & [->|(m & z & -> & Hl & Hm & Hz)]); [exists [a], []|exists [a], (m ++ [z])];
      (split; [done|split; [by apply class_inv; exists a; split; [|apply alnum_ranges]|]]); apply alternate_inv; [by right; constructor|left].
    constructor; [apply atMost_class; split; [done|]|by apply class_inv; exists z; split; [|apply alnum_ranges]].
    eapply List.Forall_impl; [|exact Hm]. intros c. apply alnumDash_ranges.
Qed.

Lemma harnessName_label s : matches harnessName s <-> dnsLabel s.
Proof.
  rewrite harnessName_split. split.
  - intros (a & Ha & [->|(m & z & -> & Hl & Hm & Hz)]).
    + split; simpl; [lia|by constructor; [left|]|by intros c [= <-]..].
    + split; simpl; rewrite ?length_app; simpl; [lia| |by intros c [= <-]|].
      * constructor; [by left|]. apply Forall_app. split; [done|]. by constructor; [left|].
      * intros c. rewrite app_comm_cons, last_snoc. by intros [= <-].
  - intros [Hl Hc Hf Hz]. destruct s as [|a s]; [simpl in Hl; lia|]. exists a. split; [by apply Hf|].
    destruct s as [|z m] using rev_ind; [by left|]. clear IHm. right. exists m, z. simpl in *. rewrite length_app in Hl. simpl in Hl.
    split; [done|]. split; [lia|]. apply Forall_cons_1 in Hc as [_ Hc]. apply Forall_app in Hc as [Hc _]. split; [done|].
    apply Hz. by rewrite app_comm_cons, last_snoc.
Qed.

(** ** Specs *)

(** Every part of a spec is understood by this host, and everything required is set. *)
Record wholeSpec (spec : HarnessSpec) : Prop := {
  ws_unknown : hs_unknown spec = [];
  ws_placement :
    (exists p, hs_Placement spec = Some (HarnessSpec_Remote (Some p)) /\ rp_Address p <> EmptyString /\ rp_unknown p = []) \/
    (exists p, hs_Placement spec = Some (HarnessSpec_Substrate (Some p)) /\ sp_Atespace p <> EmptyString /\
       sp_Template p <> EmptyString /\ sp_unknown p = []);
  ws_capabilities : exists c, hs_Capabilities spec = Some c /\ pc_unknown c = [] /\
    (pc_Resumability c = RESUMABILITY_STATELESS_REPLAY \/ pc_Resumability c = RESUMABILITY_REQUIRES_MEMORY_SNAPSHOT);
}.

Lemma firstError_app {A} (f : A -> option goerr) l1 l2 : firstError f (l1 ++ l2) = match firstError f l1 with Some e => Some e | None => firstError f l2 end.
Proof. induction l1 as [|a l1 IH]; simpl; [done|]. destruct (f a); [done|]. apply IH. Qed.
Lemma firstError_string s : firstError checkField (stringField s) = None.
Proof. unfold stringField. by case_bool_decide. Qed.
Lemma firstError_bool b : firstError checkField (boolField b) = None.
Proof. by destruct b. Qed.

Lemma checkCapabilities c : checkValue (reflectCapabilities c) = None <-> pc_unknown c = [] /\ pc_Resumability c ∈ Resumability_values.
Proof.
  unfold reflectCapabilities. cbn [checkValue]. rewrite !firstError_app, !firstError_bool. unfold enumField.
  destruct (pc_unknown c); [|rewrite bool_decide_eq_true_2 by done; by split; [|intros [? _]]]. rewrite bool_decide_eq_false_2 by auto.
  destruct (Z.eqb_spec (pc_Resumability c) 0) as [->|Hn].
  - simpl. split; [|done]. intros _. split; [done|]. by left.
  - cbn [firstError checkField checkValue]. case_bool_decide; [done|]. by split; [|intros [_ ?]].
Qed.
Lemma checkRemote p : checkValue (reflectRemote p) = None <-> default [] (rp_unknown <$> p) = [].
Proof.
  destruct p as [p|]; [|done]. cbn [reflectRemote checkValue]. rewrite firstError_string. simpl.
  case_bool_decide; by split; try tauto.
Qed.
Lemma checkSubstrate p : checkValue (reflectSubstrate p) = None <-> default [] (sp_unknown <$> p) = [].
Proof.
  destruct p as [p|]; [|done]. cbn [reflectSubstrate checkValue]. rewrite firstError_app, !firstError_string. simpl.
  case_bool_decide; by split; try tauto.
Qed.

Lemma checkKnown_whole spec : checkKnown (ProtoReflect spec) = None <->
  hs_unknown spec = [] /\
  match hs_Placement spec with
  | None => True
  | Some (HarnessSpec_Remote p) => default [] (rp_unknown <$> p) = []
  | Some (HarnessSpec_Substrate p) => default [] (sp_unknown <$> p) = []
  end /\
  match hs_Capabilities spec with None => True | Some c => pc_unknown c = [] /\ pc_Resumability c ∈ Resumability_values end.
Proof.
  unfold checkKnown, ProtoReflect. cbn [checkValue]. rewrite !firstError_app, firstError_string.
  destruct (hs_unknown spec); [|rewrite bool_decide_eq_true_2 by done; by split; [|intros [? _]]]. rewrite bool_decide_eq_false_2 by auto.
  assert (forall v, firstError checkField [FieldValue v] = checkValue v) as Hone by (intros v; simpl; by destruct (checkValue v)).
  assert (match hs_Placement spec with None => True | Some (HarnessSpec_Remote p) => default [] (rp_unknown <$> p) = []
    | Some (HarnessSpec_Substrate p) => default [] (sp_unknown <$> p) = [] end <->
    firstError checkField match hs_Placement spec with None => [] | Some (HarnessSpec_Remote p) => [FieldValue (reflectRemote p)]
      | Some (HarnessSpec_Substrate p) => [FieldValue (reflectSubstrate p)] end = None) as ->.
  { destruct (hs_Placement spec) as [[p|p]|]; [by rewrite Hone, checkRemote|by rewrite Hone, checkSubstrate|done]. }
  assert (match hs_Capabilities spec with None => True | Some c => pc_unknown c = [] /\ pc_Resumability c ∈ Resumability_values end <->
    firstError checkField match hs_Capabilities spec with Some c => [FieldValue (reflectCapabilities c)] | None => [] end = None) as ->.
  { destruct (hs_Capabilities spec) as [c|]; [by rewrite Hone, checkCapabilities|done]. }
  destruct (firstError _ match hs_Placement spec with None => _ | _ => _ end); [by split; [|intros (_ & ? & _)]|].
  destruct (firstError _ _); [by split; [|intros (_ & _ & ?)]|]. done.
Qed.

Lemma validateSpec_whole spec : validateSpec (Some spec) = None <-> wholeSpec spec.
Proof.
  unfold validateSpec. pose proof (checkKnown_whole spec) as Hk. split.
  - destruct (checkKnown _); [done|]. destruct Hk as [(Hu & Hp & Hc) _]; [done|].
    destruct (validatePlacement _) eqn:Hv; [done|]. destruct (Z.eqb_spec (default RESUMABILITY_UNSPECIFIED (pc_Resumability <$> hs_Capabilities spec)) RESUMABILITY_UNSPECIFIED) as [|Hr]; [done|]. intros _. split; [done| |].
    + destruct (hs_Placement spec) as [[[p|]|[p|]]|]; simpl in Hv; try done.
      * case_bool_decide; [done|]. left. by exists p.
      * repeat case_bool_decide; try done. right. by exists p.
    + destruct (hs_Capabilities spec) as [c|]; [|done]. exists c. split; [done|]. destruct Hc as [? Hin]. split; [done|].
      simpl in Hr. unfold Resumability_values in Hin. set_solver.
  - intros [Hu Hp (c & Hc & Hcu & Hr)]. rewrite (proj2 Hk).
    2: { split; [done|]. rewrite Hc. split; [by destruct Hp as [(p & -> & _ & Hpu)|(p & -> & _ & _ & Hpu)]|].
      split; [done|]. unfold Resumability_values. set_solver. }
    assert (validatePlacement (hs_Placement spec) = None) as ->.
    { destruct Hp as [(p & -> & Ha & _)|(p & -> & Ha & Ht & _)]; simpl; by rewrite !bool_decide_eq_false_2. }
    rewrite Hc. simpl. destruct Hr as [-> | ->]; reflexivity.
Qed.

Lemma validName_label name : validName name = None <-> dnsLabel (bytesOf name).
Proof.
  unfold validName. rewrite <- harnessName_label, <- MatchString_matches. by destruct (MatchString _ _).
Qed.

Lemma token_roundtrip name : name <> EmptyString ->
  encodeHarnessPageToken name <> EmptyString /\ decodeHarnessPageToken (encodeHarnessPageToken name) = Ok name.
Proof.
  intros Hne. unfold decodeHarnessPageToken, encodeHarnessPageToken.
  pose proof (b64Decode_b64Encode (bytesOf name) (bytesOf_isByte name)) as Hd.
  rewrite Hd. destruct name as [|c name]; [done|]. assert (b64Encode (bytesOf (String c name)) <> EmptyString) as He.
  { intros E. rewrite E in Hd. discriminate Hd. }
  split; [done|]. rewrite bool_decide_eq_false_2 by done. pose proof (stringOf_bytesOf (String c name)) as Hs. simpl in *. by rewrite Hs.
Qed.

(** *** The stored form *)

Section Stored.
Context `{Encoding} `{SpecJson} `{!SpecJsonLaws}.
Lemma storedSpec_canonical spec c : wholeSpec spec -> canonProto spec = Ok c -> storedSpec (stringOf c) = Ok spec.
Proof.
  intros Hw%validateSpec_whole Hc. unfold storedSpec, decodeSpec. destruct (canonProto_bytes _ _ Hc) as [Hb _].
  rewrite bytesOf_stringOf by done. by rewrite (canonProto_read _ _ Hw Hc), Hw.
Qed.
Lemma storedSpec_whole s spec : storedSpec s = Ok spec -> wholeSpec spec.
Proof.
  unfold storedSpec. destruct (decodeSpec s) as [sp|]; [|done]. destruct (validateSpec (Some sp)) eqn:Hv; [done|].
  intros [= <-]. by apply validateSpec_whole.
Qed.

(** C35: What may be registered: a name passes exactly when it is a DNS label, of 1 to 63 bytes, lowercase
    alphanumeric or dash and alphanumeric at both ends; and a spec passes exactly when no message of it
    has a field or an enum value this host does not know, its placement is complete, and its
    resumability is set. The digest of such a spec is that of the canonical bytes, and is the same when
    they are stored and read back; nothing else is ever read back. A page token is the base64 text of
    the name it was issued for, and is read as that name. *)
Theorem registrable name spec :
  (validName name = None <-> dnsLabel (bytesOf name)) /\
  (validateSpec (Some spec) = None <-> wholeSpec spec) /\
  validateSpec None <> None /\
  (forall c digest, specDigest spec = Ok (c, digest) -> wholeSpec spec ->
     digest = ("sha256:" +:+ hexEncode (Sum256 c))%string /\
     exists read, storedSpec (stringOf c) = Ok read /\ specDigest read = Ok (c, digest) /\ read = spec) /\
  (forall s read, storedSpec s = Ok read -> wholeSpec read) /\
  (name <> EmptyString -> encodeHarnessPageToken name <> EmptyString /\
     writes (encodeHarnessPageToken name) (bytesOf name) /\ decodeHarnessPageToken (encodeHarnessPageToken name) = Ok name).
Proof.
  split; [apply validName_label|]. split; [apply validateSpec_whole|]. split; [done|]. split; [|split].
  - unfold specDigest. intros c digest Hd Hw. destruct (canonProto spec) as [c'|] eqn:Hc; [|done]. injection Hd as <- <-.
    split; [done|]. exists spec. split; [by apply storedSpec_canonical|]. by rewrite Hc.
  - apply storedSpec_whole.
  - intros Hne. destruct (token_roundtrip name Hne) as [Ht Hd]. split; [done|]. split; [|done].
    apply b64Decode_writes, b64Decode_b64Encode, bytesOf_isByte.
Qed.
End Stored.
