(* ===== verification/HarnessExample.v ===== *)
(** * A concrete harness registry

    An encoding of specs that satisfies the laws, a factory that makes one new placer per call, and a
    registry on the service of [ServiceExample], on which the witnesses evaluate. *)
From S2P Require Import Prelude GoErrors Api Canon EventLog Executions Approvals Harness Wire Sinks Controller Agents SessionGuard Placement Admission Registry Routing Tables Projection SqlLog SqlExample SqlStore SqlSessions SqlHarnesses GoJson Status Service ServiceOps ServiceExample HarnessSpec HarnessAdmin HarnessNames.
#[local] Open Scope Z_scope.

(** ** Specs as bytes

    The fields one after the other: a byte of a field is marked by 1, the end of a field is 0. Only valid
    specs are written. *)
Fixpoint writeField (bs : list Z) (rest : list Z) : list Z :=
  match bs with [] => 0 :: rest | b :: bs => 1 :: b :: writeField bs rest end.
Definition writeFields (fs : list (list Z)) : list Z := foldr writeField [] fs.
Fixpoint readFields (c : list Z) (field : list Z) : list (list Z) :=
  match c with
  | 0 :: c => rev field :: readFields c []
  | 1 :: b :: c => readFields c (b :: field)
  | _ => []
  end.

Lemma readFields_writeField bs rest : forall field, readFields (writeField bs rest) field = (rev field ++ bs) :: readFields rest [].
Proof.
  induction bs as [|b bs IH]; intros field; simpl; [by rewrite app_nil_r|]. rewrite IH. simpl. by rewrite <- app_assoc.
Qed.
Lemma readFields_writeFields fs : readFields (writeFields fs) [] = fs.
Proof. induction fs as [|f fs IH]; simpl; [done|]. rewrite readFields_writeField. simpl. by rewrite IH. Qed.
Lemma writeFields_bytes fs : Forall (Forall isByte) fs -> Forall isByte (writeFields fs).
Proof.
  induction 1 as [|f fs Hf _ IH]; [constructor|]. simpl. unfold isByte in *.
  induction Hf as [|b f Hb _ IHf]; simpl; repeat constructor; done || lia.
Qed.

Definition flag (b : bool) : Z := if b then 1 else 0.
Definition isSet (z : Z) : bool := z =? 1.
Lemma isSet_flag b : isSet (flag b) = b.
Proof. by destruct b. Qed.

Definition placementFields (p : option SpecPlacement) : list (list Z) :=
  match p with
  | Some (HarnessSpec_Remote (Some p)) => [[1]; bytesOf (rp_Address p); []]
  | Some (HarnessSpec_Substrate (Some p)) => [[2]; bytesOf (sp_Atespace p); bytesOf (sp_Template p)]
  | _ => [[]; []; []]
  end.
Definition capabilitiesField (c : option PbCapabilities) : list Z :=
  match c with
  | Some c => [pc_Resumability c; flag (pc_ForkSafe c); flag (pc_RequiresGpu c); flag (pc_Streaming c); flag (pc_ReasoningReplay c)]
  | None => []
  end.
Definition specFields (s : HarnessSpec) : list (list Z) :=
  placementFields (hs_Placement s) ++ [capabilitiesField (hs_Capabilities s); bytesOf (hs_DescriptorId s)].
Definition readSpec (fs : list (list Z)) : res HarnessSpec :=
  match fs with
  | [[k]; a; t; [r; f; g; s; p]; id] =>
      Ok (mkHarnessSpec
        (Some (if k =? 1 then HarnessSpec_Remote (Some (mkRemotePlacement (stringOf a) []))
               else HarnessSpec_Substrate (Some (mkSubstratePlacement (stringOf a) (stringOf t) []))))
        (Some (mkPbCapabilities r (isSet f) (isSet g) (isSet s) (isSet p) [])) (stringOf id) [])
  | _ => Err (EText "malformed")
  end.

Definition exampleSpecJson : SpecJson := {|
  marshalSpec := fun s => match validateSpec (Some s) with Some e => Err e | None => Ok (writeFields (specFields s)) end;
  unmarshalSpec := fun c => readSpec (readFields c []);
|}.

Lemma specFields_bytes s : wholeSpec s -> Forall (Forall isByte) (specFields s).
Proof.
  intros [_ Hp (c & Hc & _ & Hr)]. unfold specFields. rewrite Hc. apply Forall_app. split.
  - destruct Hp as [(p & -> & _)|(p & -> & _)]; simpl; repeat constructor; try apply bytesOf_isByte; unfold isByte; lia.
  - constructor; [|constructor; [apply bytesOf_isByte|constructor]]. simpl.
    assert (forall b, isByte (flag b)) as Hf by (intros []; unfold isByte; simpl; lia).
    constructor; [|repeat (constructor; [apply Hf|]); constructor]. unfold isByte. destruct Hr as [-> | ->];
      unfold RESUMABILITY_STATELESS_REPLAY, RESUMABILITY_REQUIRES_MEMORY_SNAPSHOT; lia.
Qed.
Lemma readSpec_specFields s : wholeSpec s -> readSpec (specFields s) = Ok s.
Proof.
  intros [Hu Hp (c & Hc & Hcu & _)]. unfold specFields. rewrite Hc. destruct s as [pl ca id un], c. simpl in *. subst.
  destruct Hp as [(p & -> & _ & Hpu)|(p & -> & _ & _ & Hpu)]; destruct p; simpl in *; subst; by rewrite !isSet_flag, !stringOf_bytesOf.
Qed.

Lemma exampleSpecJsonLaws : SpecJsonLaws (H := exampleEncoding) (H0 := exampleSpecJson).
Proof.
  assert (forall spec c, canonProto (H := exampleEncoding) (H0 := exampleSpecJson) spec = Ok c -> wholeSpec spec /\ c = writeFields (specFields spec)) as Hinv.
  { intros spec c E. unfold canonProto, exampleSpecJson, exampleEncoding in E. cbn [marshalSpec jcsTransform] in E.
    pose proof (validateSpec_whole spec) as Hv. destruct (validateSpec (Some spec)); [discriminate E|].
    injection E as <-. split; [by apply Hv|done]. }
  constructor.
  - intros spec c [Hw ->]%Hinv. split; [by apply writeFields_bytes, specFields_bytes|].
    unfold specFields. destruct (ws_placement _ Hw) as [(p & -> & _)|(p & -> & _)]; discriminate.
  - intros spec c _ [Hw ->]%Hinv. cbn [unmarshalSpec exampleSpecJson]. rewrite readFields_writeFields. by apply readSpec_specFields.
Qed.

(** ** A factory *)

(** The new placer expects the spec's descriptor; there is always a release function. *)
Definition exampleFactory (p : Placer) : PlacerFactory := fun t name spec h =>
  let '(h', ptr) := newPlacer (mkPlacer (p_backend p) (p_model p) (p_stream p) (p_tool p) (p_dial p) (hs_DescriptorId spec)) h in
  (h', mkFactoryResult (Some ptr) true None).

Lemma exampleFactoryLaws p : FactoryLaws (exampleFactory p).
Proof.
  constructor.
  - intros t name spec h h' r. unfold exampleFactory. simpl. intros [= <- <-]. apply rtc_once. eexists. reflexivity.
  - intros t name spec h h' r ptr. unfold exampleFactory. simpl. intros [= <- <-] [= <-]. simpl. split; [done|]. by rewrite lookup_insert_eq.
Qed.

(** ** Registrations *)

#[local] Existing Instance exampleHost.
#[local] Existing Instance exampleEncoding.
#[local] Existing Instance exampleTimestamppb.
#[local] Existing Instance exampleDriver.
#[local] Existing Instance examplePlacementHost.
#[local] Existing Instance exampleServiceHost.
#[local] Existing Instance exampleSpecJson.

Definition exampleHarnessSpec (id : string) : HarnessSpec :=
  mkHarnessSpec (Some (HarnessSpec_Remote (Some (mkRemotePlacement "unix:///run/coder.sock" []))))
    (Some (mkPbCapabilities RESUMABILITY_STATELESS_REPLAY true false true false [])) id [].

(** The service of [ServiceExample] with its static harness "echo", and the reserved name "openshell". *)
Definition exampleAdmin : AdminState := mkAdminState exampleService [] 0 [].
Definition exampleStarted : AdminState * res unit := NewHarnessRegistry (exampleFactory examplePlacer) exampleAdmin.
Definition exampleRegister (name id : string) (s : AdminState) : AdminState * res (HarnessRegistration * RegisterOutcome) :=
  admin_RegisterHarness (exampleFactory examplePlacer) name (Some (exampleHarnessSpec id)) s.
Definition exampleRegistered : AdminState := fst (exampleRegister "zeta" "z" (fst (exampleRegister "coder" "c" (fst exampleStarted)))).

Example exampleRegistered_runs :
  snd exampleStarted = Ok tt /\
  (fun x => (hg_Spec (fst x), hg_UnservableReason (fst x), snd x)) <$> snd (exampleRegister "coder" "c" (fst exampleStarted)) =
    Ok (Some (exampleHarnessSpec "c"), None, REGISTER_OUTCOME_CREATED) /\
  snd <$> snd (exampleRegister "coder" "other" exampleRegistered) = Err (EStatus codes_AlreadyExists) /\
  snd <$> snd (exampleRegister "coder" "c" exampleRegistered) = Ok REGISTER_OUTCOME_UNCHANGED /\
  ad_releases exampleRegistered = [0; 1]%nat.
Proof. vm_compute. repeat split; reflexivity. Qed.

Example exampleRegistered_lists :
  (fun x => (map nameOf (fst x), snd x)) <$> snd (admin_ListHarnesses 2 EmptyString true exampleRegistered) =
    Ok (["coder"; "echo"]%string, encodeHarnessPageToken "echo") /\
  (fun x => (map nameOf (fst x), snd x)) <$> snd (admin_ListHarnesses 2 (encodeHarnessPageToken "echo") true exampleRegistered) =
    Ok (["zeta"]%string, EmptyString).
Proof. vm_compute. split; reflexivity. Qed.

(** The digest of a spec, before and after it is stored. *)
Definition coderDigest : list Z * string :=
  match specDigest (exampleHarnessSpec "c") with Ok x => x | Err _ => ([], EmptyString) end.
Lemma registrable_witness :
  (exists read, storedSpec (stringOf (fst coderDigest)) = Ok read /\ specDigest read = Ok coderDigest) /\
  decodeHarnessPageToken (encodeHarnessPageToken "echo") = Ok "echo"%string.
Proof.
  destruct (registrable (H := exampleEncoding) (H0 := exampleSpecJson) (H1 := exampleSpecJsonLaws) "echo" (exampleHarnessSpec "c"))
    as (_ & (Hval & _) & _ & Hd & _ & Ht). split.
  - destruct (Hd (fst coderDigest) (snd coderDigest)) as (_ & read & Hr & Hs & _).
    + unfold coderDigest. vm_compute. reflexivity.
    + apply Hval. vm_compute. reflexivity.
    + exists read. split; [exact Hr|]. by rewrite Hs, <- surjective_pairing.
  - apply Ht. discriminate.
Defined.
