(* ===== verification/HarnessListing.v ===== *)
(** * Listing harnesses by pages (theorems about [HarnessRegistry.ListHarnesses])

    A page merges the static names with the stored registrations. The pages a client reads, whatever
    changes between them, are in strict name order, and an entry that stays is on exactly one. *)
From S2P Require Import Prelude GoErrors Api Canon EventLog Executions Approvals Harness Wire Sinks Controller Agents SessionGuard Placement Admission Registry Tables Projection SqlLog SqlExample SqlSessions SqlHarnesses Tokens Paging GoJson Status Service ServiceExample HarnessSpec HarnessAdmin HarnessNames HarnessExample.
From stdpp Require Import sorting.
#[local] Open Scope Z_scope.

(** ** Strict name order *)

Definition before (a b : string) : Prop := String.ltb a b = true.
#[export] Instance before_dec a b : Decision (before a b).
Proof. unfold before. apply _. Defined.

Lemma before_trans a b c : before a b -> before b c -> before a c.
Proof. apply ltb_trans. Qed.
Lemma before_irrefl a : ~ before a a.
Proof. unfold before. by rewrite ltb_irrefl. Qed.
Lemma before_total a b : a <> b -> before a b \/ before b a.
Proof.
  intros Hne. destruct (String.leb_total a b) as [[->|]%leb_ltb|[->|]%leb_ltb]; [done|by left|done|by right].
Qed.
Lemma before_leb a b : String.leb a b = true -> a <> b -> before a b.
Proof. by intros [->|?]%leb_ltb. Qed.
Lemma before_nonempty a b : before a b -> b <> EmptyString.
Proof. unfold before. intros Hb ->. by destruct a. Qed.

Lemma sorted_strictly (R : string -> string -> Prop) l : (forall a b, R a b -> String.leb a b = true) ->
  NoDup l -> StronglySorted R l -> StronglySorted before l.
Proof.
  intros HR Hnd Hs. induction Hs as [|a l Hs IH Ha]; [constructor|]. apply NoDup_cons in Hnd as [Hn Hnd].
  constructor; [by apply IH|]. apply Forall_forall. intros b Hb. rewrite List.Forall_forall in Ha.
  apply before_leb; [apply HR, Ha; by apply list_elem_of_In|]. by intros ->.
Qed.
Lemma sorted_NoDup l : StronglySorted before l -> NoDup l.
Proof.
  induction 1 as [|a l Hs IH Ha]; [constructor|]. apply NoDup_cons. split; [|done].
  intros Hin. rewrite List.Forall_forall in Ha. by apply (before_irrefl a), Ha, list_elem_of_In.
Qed.
Lemma sorted_take n l : StronglySorted before l -> StronglySorted before (take n l).
Proof. intros Hs. rewrite <- (take_drop n l) in Hs. by apply StronglySorted_app_1_l in Hs. Qed.
Lemma sorted_split l1 a l2 : StronglySorted before (l1 ++ a :: l2) ->
  StronglySorted before l1 /\ (forall b, b ∈ l1 -> before b a) /\ (forall b, b ∈ l2 -> before a b) /\ StronglySorted before l2.
Proof.
  induction l1 as [|c l1 IH]; simpl; intros Hs; inversion Hs as [|? ? Hs' Hall]; subst.
  - split; [constructor|]. split; [by intros b ?%not_elem_of_nil|]. split; [|done]. by apply Forall_forall.
  - destruct (IH Hs') as (H1 & H2 & H3 & H4). apply Forall_app in Hall as [Hall1 [Hca _]%Forall_cons_1].
    split; [by constructor|]. split; [|done]. intros b [->|Hb]%elem_of_cons; [done|by apply H2].
Qed.
Lemma sorted_app l1 l2 : StronglySorted before l1 -> StronglySorted before l2 ->
  (forall a b, a ∈ l1 -> b ∈ l2 -> before a b) -> StronglySorted before (l1 ++ l2).
Proof.
  intros H1 H2 Hb. induction H1 as [|a l1 H1 IH Ha]; [done|]. simpl. constructor.
  - apply IH. intros x y Hx Hy. apply Hb; [by right|done].
  - apply Forall_app. split; [done|]. apply Forall_forall. intros y Hy. apply Hb; [by left|done].
Qed.

Lemma sorted_filter (P : string -> Prop) `{forall x, Decision (P x)} l : StronglySorted before l -> StronglySorted before (filter P l).
Proof.
  induction 1 as [|a l Hs IH Ha]; [constructor|]. rewrite filter_cons. destruct (decide (P a)); [|done].
  constructor; [done|]. apply Forall_forall. intros b [_ Hb]%list_elem_of_filter. rewrite Forall_forall in Ha. by apply Ha.
Qed.

Lemma StaticNames_sorted r : StronglySorted before (StaticNames r).
Proof.
  apply (sorted_strictly strLe); [done| |].
  - unfold StaticNames, sortStrings. rewrite merge_sort_Permutation. apply NoDup_elements.
  - apply StronglySorted_merge_sort; unfold strLe.
    + intros a b c [->|?]%leb_ltb [->|?]%leb_ltb; apply leb_ltb; eauto using ltb_trans.
    + intros a b. destruct (String.leb_total a b); [by left|by right].
Qed.
Lemma elem_of_StaticNames r name : name ∈ StaticNames r <-> name ∈ static r.
Proof. unfold StaticNames, sortStrings. by rewrite merge_sort_Permutation, elem_of_elements. Qed.

#[export] Instance nameLeb_preorder : TotalPreorder nameLeb.
Proof.
  unfold nameLeb. split; [intros [a ?] [b ?]; apply String.leb_total|].
  intros [a ?] [b ?] [c ?]. simpl. rewrite !leb_ltb. intros [->|?] [->|?]; eauto using ltb_trans.
Qed.

(** ** The rows and the entries of a listing *)

Section Listing.
Context `{Host} `{Encoding} `{Timestamppb} `{!ProtoCodec} `{Driver} `{PlacementHost} `{ServiceHost} `{SpecJson}.

Abbreviation tablesOf s := (tables (w_log (ps_world (sv_place (ad_service s))))).
Abbreviation registryAt s := (sv_registry (ad_service s)).

Definition rowsAfter (incl : bool) (after : string) (t : Tables) : list (string * HarnessRow) :=
  orderBy nameLeb (filter (harnessListed (mkHarnessListOptions after 1 incl)) (map_to_list (t_harnesses t))).
Definition recordsAfter (incl : bool) (after : string) (t : Tables) : list HarnessRecord :=
  map (fun r => scanHarness (fst r) (snd r)) (rowsAfter incl after t).
Definition entriesAfter (r : Registry) (incl : bool) (after : string) (t : Tables) : list HarnessRegistration :=
  mergeListing r (length (staticAfter r after) + length (recordsAfter incl after t)) (staticAfter r after) (recordsAfter incl after t).

Lemma elem_of_rows incl after t name row : (name, row) ∈ rowsAfter incl after t <->
  t_harnesses t !! name = Some row /\ before after name /\ (incl = true \/ h_state row = HarnessActive).
Proof.
  unfold rowsAfter. rewrite elem_of_orderBy, list_elem_of_filter, elem_of_map_to_list. unfold harnessListed, before. simpl. tauto.
Qed.
Lemma rows_sorted incl after t : StronglySorted before (rowsAfter incl after t).*1.
Proof.
  assert (NoDup (rowsAfter incl after t).*1) as Hnd.
  { unfold rowsAfter. rewrite (orderBy_Permutation nameLeb). apply (sublist_NoDup _ _ (NoDup_fst_map_to_list (t_harnesses t))).
    apply (fmap_sublist fst), sublist_filter. }
  pose proof (orderBy_sorted nameLeb (filter (harnessListed (mkHarnessListOptions after 1 incl)) (map_to_list (t_harnesses t)))) as Hs.
  fold (rowsAfter incl after t) in Hs. apply (sorted_strictly strLe); [done|done|]. clear Hnd.
  induction Hs as [|a l Hs IH Ha]; [constructor|]. rewrite fmap_cons. constructor; [done|]. apply Forall_fmap.
  eapply List.Forall_impl; [|exact Ha]. by intros b.
Qed.
Lemma records_names incl after t : map hr_Name (recordsAfter incl after t) = (rowsAfter incl after t).*1.
Proof. unfold recordsAfter. rewrite map_map. by apply map_ext. Qed.
Lemma static_sorted r after : StronglySorted before (staticAfter r after).
Proof.
  apply sorted_filter, StaticNames_sorted.
Qed.
Lemma elem_of_static r after name : name ∈ staticAfter r after <-> name ∈ static r /\ before after name.
Proof. unfold staticAfter. rewrite list_elem_of_filter, elem_of_StaticNames. unfold before. tauto. Qed.

(** *** The merge *)

(** Reading only as many rows as there is room for does not change the merge. *)
Lemma merge_room r room : forall n N st recs, (room <= n)%nat -> (length st + length recs <= N)%nat ->
  mergeListing r room st (take n recs) = take room (mergeListing r N st recs).
Proof.
  induction room as [|room IH]; intros n N st recs Hn HN; [done|]. destruct n as [|n]; [lia|].
  destruct N as [|N].
  - destruct st, recs; simpl in HN; try lia. done.
  - destruct st as [|a st], recs as [|b recs]; simpl in *; [done|..].
    + f_equal. apply (IH n); simpl; lia.
    + f_equal. rewrite <- (IH (S n)); [done|lia|simpl; lia].
    + destruct (String.ltb a (hr_Name b)); simpl; f_equal.
      * rewrite <- (IH (S n)); [done|lia|simpl; lia].
      * apply (IH n (N)); simpl; lia.
Qed.

Lemma merge_entry r N : forall st recs g, (length st + length recs <= N)%nat ->
  (g ∈ mergeListing r N st recs <-> (exists name, name ∈ st /\ g = staticProto name) \/ (exists rec, rec ∈ recs /\ g = registrationProto r rec)).
Proof.
  induction N as [|N IH]; intros st recs g HN.
  - destruct st, recs; simpl in HN; try lia. split; [by intros ?%not_elem_of_nil|].
    by intros [(? & ?%not_elem_of_nil & _)|(? & ?%not_elem_of_nil & _)].
  - destruct st as [|a st], recs as [|b recs]; cbn [mergeListing].
    + split; [by intros ?%not_elem_of_nil|]. by intros [(? & ?%not_elem_of_nil & _)|(? & ?%not_elem_of_nil & _)].
    + rewrite elem_of_cons, IH by (simpl in *; lia). set_solver.
    + rewrite elem_of_cons, IH by (simpl in *; lia). set_solver.
    + destruct (String.ltb a (hr_Name b)); rewrite elem_of_cons, IH by (simpl in *; lia); set_solver.
Qed.

Lemma merge_sorted r N : forall st recs, (length st + length recs <= N)%nat ->
  StronglySorted before st -> StronglySorted before (map hr_Name recs) -> (forall name, name ∈ st -> name ∉ map hr_Name recs) ->
  StronglySorted before (map nameOf (mergeListing r N st recs)).
Proof.
  induction N as [|N IH]; intros st recs HN Hst Hrecs Hdis; [constructor|].
  assert (Hhead : forall name g st' recs', nameOf g = name -> (length st' + length recs' <= N)%nat ->
    StronglySorted before st' -> StronglySorted before (map hr_Name recs') -> (forall n, n ∈ st' -> n ∉ map hr_Name recs') ->
    (forall n, n ∈ st' \/ n ∈ map hr_Name recs' -> before name n) ->
    StronglySorted before (map nameOf (g :: mergeListing r N st' recs'))).
  { intros name g st' recs' <- HN' Hs1 Hs2 Hs3 Hb. cbn [map]. constructor; [by apply IH|]. apply Forall_forall.
    intros n Hn. change (map nameOf) with (fmap (M := list) nameOf) in Hn. apply list_elem_of_fmap in Hn as (g' & -> & Hg).
    apply merge_entry in Hg; [|done]. apply Hb. destruct Hg as [(m & Hm & ->)|(rec & Hrec & ->)]; [by left|right].
    change (map hr_Name) with (fmap (M := list) hr_Name). apply list_elem_of_fmap. exists rec. by split. }
  destruct st as [|a st], recs as [|b recs]; cbn [mergeListing map] in *; [constructor|..].
  - inversion Hrecs as [|? ? Hr1 Hr2]; subst. apply (Hhead (hr_Name b)); try done; [simpl in *; lia|set_solver|].
    intros n [?%not_elem_of_nil|Hn]; [done|]. rewrite List.Forall_forall in Hr2. by apply Hr2, list_elem_of_In.
  - inversion Hst as [|? ? Hs1 Hs2]; subst. apply (Hhead a); try done; [simpl in *; lia|set_solver|].
    intros n [Hn|?%not_elem_of_nil]; [|done]. rewrite List.Forall_forall in Hs2. by apply Hs2, list_elem_of_In.
  - inversion Hst as [|? ? Hs1 Hs2]; subst. inversion Hrecs as [|? ? Hr1 Hr2]; subst.
    rewrite List.Forall_forall in Hs2, Hr2. setoid_rewrite <- list_elem_of_In in Hs2. setoid_rewrite <- list_elem_of_In in Hr2.
    destruct (String.ltb a (hr_Name b)) eqn:E.
    + apply (Hhead a); try done; [simpl in *; lia|set_solver|]. cbn [map]. intros n [Hn|Hn]; [by apply Hs2|].
      apply elem_of_cons in Hn as [->|Hn]; [done|]. eapply before_trans; [exact E|by apply Hr2].
    + assert (before (hr_Name b) a) as Hba.
      { destruct (before_total a (hr_Name b)); [set_solver|by unfold before in *; congruence|done]. }
      apply (Hhead (hr_Name b)); try done; [simpl in *; lia|set_solver|]. intros n [Hn|Hn]; [|by apply Hr2].
      apply elem_of_cons in Hn as [->|Hn]; [done|]. eapply before_trans; [exact Hba|by apply Hs2].
Qed.

(** *** Entries *)

(** A stored registration does not share its name with a static harness of this host. *)
Definition exclusive (r : Registry) (t : Tables) : Prop := forall name, name ∈ static r -> t_harnesses t !! name = None.
Definition listedHere (r : Registry) (t : Tables) (incl : bool) (name : string) : Prop :=
  name ∈ static r \/ exists row, t_harnesses t !! name = Some row /\ (incl = true \/ h_state row = HarnessActive).
(** An entry as it is. *)
Definition entryOf (r : Registry) (t : Tables) (incl : bool) (g : HarnessRegistration) : Prop :=
  (exists name, name ∈ static r /\ g = staticProto name) \/
  (exists name row, t_harnesses t !! name = Some row /\ (incl = true \/ h_state row = HarnessActive) /\
     g = registrationProto r (scanHarness name row)).

Lemma entriesAfter_entry r incl after t g : g ∈ entriesAfter r incl after t -> entryOf r t incl g /\ before after (nameOf g).
Proof.
  intros [(name & [Hn Hb]%elem_of_static & ->)|(rec & Hrec & ->)]%merge_entry; [|  |done].
  - split; [left; by exists name|done].
  - unfold recordsAfter in Hrec. change (map ?f) with (fmap (M := list) f) in Hrec.
    apply list_elem_of_fmap in Hrec as ([name row] & -> & (Hr & Hb & Hi)%elem_of_rows). split; [right; by exists name, row|done].
Qed.

Lemma entriesAfter_sorted r incl after t : exclusive r t -> StronglySorted before (map nameOf (entriesAfter r incl after t)).
Proof.
  intros Hex. apply merge_sorted; [done|apply static_sorted|rewrite records_names; apply rows_sorted|].
  intros name [Hs _]%elem_of_static. rewrite records_names. intros ([n row] & -> & (Hr & _)%elem_of_rows)%list_elem_of_fmap.
  simpl in Hs. by rewrite Hex in Hr.
Qed.

Lemma entriesAfter_names r incl after t name : name ∈ map nameOf (entriesAfter r incl after t) <-> listedHere r t incl name /\ before after name.
Proof.
  change (map nameOf) with (fmap (M := list) nameOf). rewrite list_elem_of_fmap. split.
  - intros (g & -> & [[(n & Hn & ->)|(n & row & Hr & Hi & ->)] Hb]%entriesAfter_entry); (split; [|done]); [by left|right; by exists row].
  - intros [[Hs|(row & Hr & Hi)] Hb].
    + exists (staticProto name). split; [done|]. apply merge_entry; [done|]. left. exists name. split; [by apply elem_of_static|done].
    + exists (registrationProto r (scanHarness name row)). split; [done|]. apply merge_entry; [done|]. right.
      exists (scanHarness name row). split; [|done]. unfold recordsAfter. change (map ?f) with (fmap (M := list) f).
      apply list_elem_of_fmap. exists (name, row). split; [done|]. by apply elem_of_rows.
Qed.

Lemma entriesAfter_length r incl after t : (length (entriesAfter r incl after t) <= size (static r) + size (t_harnesses t))%nat.
Proof.
  assert (forall N st recs, (length (mergeListing r N st recs) <= N)%nat) as Hm.
  { induction N as [|N IH]; intros st recs; [done|]. destruct st as [|a st], recs as [|b recs]; cbn [mergeListing length];
      [lia|apply le_n_S, IH|apply le_n_S, IH|destruct (String.ltb _ _); apply le_n_S, IH]. }
  etransitivity; [apply Hm|]. apply Nat.add_le_mono.
  - unfold staticAfter. etransitivity; [apply length_filter|]. unfold StaticNames, sortStrings.
    rewrite merge_sort_Permutation. done.
  - unfold recordsAfter, rowsAfter. rewrite length_map, (orderBy_Permutation nameLeb). etransitivity; [apply length_filter|].
    by rewrite length_map_to_list.
Qed.

(** ** One page *)

Definition pageOf (size : nat) (full : list HarnessRegistration) : list HarnessRegistration * string :=
  (take size full,
   if Nat.leb (length full) size then EmptyString
   else encodeHarnessPageToken (default EmptyString (nameOf <$> list.last (take size full)))).

Lemma pageOf_merge r size incl after t :
  (let out := mergeListing r (S size) (staticAfter r after) (take (S size) (recordsAfter incl after t)) in
   if Z.of_nat (length out) <=? Z.of_nat size then (out, EmptyString)
   else (take size out, encodeHarnessPageToken (default EmptyString (nameOf <$> list.last (take size out))))) =
  pageOf size (entriesAfter r incl after t).
Proof.
  rewrite (merge_room r (S size) (S size) (length (staticAfter r after) + length (recordsAfter incl after t))) by done.
  fold (entriesAfter r incl after t). set (full := entriesAfter r incl after t). cbv zeta. unfold pageOf. rewrite length_take.
  destruct (Nat.leb_spec (length full) size) as [Hl|Hl].
  - rewrite (proj2 (Z.leb_le _ _)) by lia. by rewrite !take_ge by lia.
  - rewrite (proj2 (Z.leb_gt _ _)) by lia. by rewrite take_take, Nat.min_l by lia.
Qed.

(** The size a client gets. *)
Definition sizeOf (size : Z) : nat := Z.to_nat (default 0 (clampSize size)).
Lemma sizeOf_pos size sz : clampSize size = Some sz -> 0 < sz <= MaxPageSize /\ sizeOf size = Z.to_nat sz.
Proof.
  intros E. unfold sizeOf. rewrite E. split; [|done]. revert E. unfold clampSize, DefaultPageSize, MaxPageSize.
  destruct (Z.ltb_spec size 0); [done|]. destruct (Z.eqb_spec size 0); [intros [= <-]; lia|].
  destruct (Z.ltb_spec 500 size); intros [= <-]; lia.
Qed.

#[local] Arguments mergeListing : simpl never.
Lemma admin_List_exact size token incl s : exists s',
  admin_ListHarnesses size token incl s = (s',
    match clampSize size, decodeHarnessPageToken token with
    | Some sz, Ok after =>
        match fault (ticks (w_log (ps_world (sv_place (ad_service s))))) with
        | Some _ => Err (EStatus codes_Internal)
        | None => Ok (pageOf (Z.to_nat sz) (entriesAfter (registryAt s) incl after (tablesOf s)))
        end
    | _, _ => Err (EStatus codes_InvalidArgument)
    end) /\ tablesOf s' = tablesOf s /\ registryAt s' = registryAt s.
Proof.
  unfold admin_ListHarnesses. destruct (clampSize size) as [sz|] eqn:Hsz; [|by exists s].
  destruct (decodeHarnessPageToken token) as [after|]; [|by exists s]. apply sizeOf_pos in Hsz as [Hpos _].
  assert (Z.of_nat (Z.to_nat sz) = sz) as Hz by lia.
  pose proof (pageOf_merge (registryAt s) (Z.to_nat sz) incl after (tablesOf s)) as Hpage. rewrite Hz in Hpage. rewrite <- Hpage. clear Hpage.
  unfold ListHarnesses. cbn [Limit]. rewrite (proj2 (Z.leb_gt _ _)) by lia.
  unfold mbind, M_bind, orErr, onStoreA, onServiceA, onDB, onPlace, onStore, onWorldP, onLog, wrapErr, select, stmt. simpl.
  destruct (fault _); [eexists; split; [reflexivity|done]|]. simpl.
  replace (Z.to_nat (sz + 1)) with (S (Z.to_nat sz)) by lia. rewrite <- firstn_map.
  change (map _ (orderBy nameLeb _)) with (recordsAfter incl after (tablesOf s)).
  destruct (Z.of_nat (length (mergeListing (registryAt s) (S (Z.to_nat sz)) (staticAfter (registryAt s) after)
    (take (S (Z.to_nat sz)) (recordsAfter incl after (tablesOf s))))) <=? sz); eexists; (split; [reflexivity|done]).
Qed.

(** A page that is not the last ends in the entry its token names. *)
Lemma pageOf_more size full : (0 < size)%nat -> (forall g, g ∈ full -> nameOf g <> EmptyString) -> snd (pageOf size full) <> EmptyString ->
  exists l g rest, full = (l ++ [g]) ++ rest /\ fst (pageOf size full) = l ++ [g] /\
    decodeHarnessPageToken (snd (pageOf size full)) = Ok (nameOf g).
Proof.
  intros Hs Hne. unfold pageOf. simpl. destruct (Nat.leb_spec (length full) size) as [|Hl]; [done|]. intros _.
  assert (length (take size full) = size) as Hlen by (rewrite length_take; lia).
  destruct (take size full) as [|g l _] eqn:E using rev_ind; [simpl in Hlen; lia|].
  exists l, g, (drop size full). split; [by rewrite <- E, take_drop|]. split; [done|]. rewrite last_snoc. simpl.
  apply token_roundtrip, Hne. eapply elem_of_sublist; [|apply (sublist_take full size)]. rewrite E. set_solver.
Qed.
Lemma pageOf_end size full : (forall g, g ∈ full -> nameOf g <> EmptyString) -> (0 < size)%nat ->
  snd (pageOf size full) = EmptyString -> fst (pageOf size full) = full.
Proof.
  intros Hne Hs. unfold pageOf. simpl. destruct (Nat.leb_spec (length full) size) as [|Hl]; [intros _; by apply take_ge|].
  destruct (list.last (take size full)) as [g|] eqn:E.
  - simpl. apply list.last_Some_elem_of in E. intros Ht. exfalso. revert Ht. apply token_roundtrip, Hne.
    eapply elem_of_sublist; [exact E|apply sublist_take].
  - apply last_None in E. apply (f_equal length) in E. rewrite length_take in E. simpl in E. lia.
Qed.

(** ** A client that follows the tokens *)

Variable incl : bool.
Variable size : Z.

(** Other calls change the database and the registry between two pages. *)
Inductive paged : string -> list (AdminState * list HarnessRegistration) -> Prop :=
  | paged_last token s s' page : admin_ListHarnesses size token incl s = (s', Ok (page, EmptyString)) -> paged token [(s, page)]
  | paged_more token s s' page next rest : admin_ListHarnesses size token incl s = (s', Ok (page, next)) -> next <> EmptyString ->
      paged next rest -> paged token ((s, page) :: rest).

(** The same client while nothing else runs, as a function. *)
Fixpoint followPages (fuel : nat) (token : string) : M AdminState goerr (list HarnessRegistration) :=
  match fuel with
  | O => throw (EText "out of fuel")
  | S fuel =>
      let! answer := admin_ListHarnesses size token incl in
      let '(page, next) := answer in
      if bool_decide (next = EmptyString) then mret page
      else let! rest := followPages fuel next in mret (page ++ rest)
  end.

Lemma admin_List_page token s s' page next : admin_ListHarnesses size token incl s = (s', Ok (page, next)) ->
  exists after, decodeHarnessPageToken token = Ok after /\ (0 < sizeOf size)%nat /\
    (page, next) = pageOf (sizeOf size) (entriesAfter (registryAt s) incl after (tablesOf s)).
Proof.
  destruct (admin_List_exact size token incl s) as (s1 & -> & _). destruct (clampSize size) as [sz|] eqn:Hsz; [|discriminate].
  destruct (decodeHarnessPageToken token) as [after|]; [|discriminate]. destruct (fault _); [discriminate|].
  apply sizeOf_pos in Hsz as [Hpos Hsize]. intros E. apply (f_equal snd) in E. cbn [snd] in E. exists after. rewrite Hsize.
  split; [done|]. split; [lia|]. congruence.
Qed.

Lemma entries_nonempty r after t g : g ∈ entriesAfter r incl after t -> nameOf g <> EmptyString.
Proof. intros [_ Hb]%entriesAfter_entry. by eapply before_nonempty. Qed.

(** The pages after a name: in order, behind it, and with every entry that stays. *)
Lemma paged_behind token ps : paged token ps -> (forall s, s ∈ ps.*1 -> exclusive (registryAt s) (tablesOf s)) ->
  forall after, decodeHarnessPageToken token = Ok after ->
    StronglySorted before (map nameOf (concat ps.*2)) /\
    (forall name, name ∈ map nameOf (concat ps.*2) -> before after name) /\
    (forall name, before after name -> (forall s, s ∈ ps.*1 -> listedHere (registryAt s) (tablesOf s) incl name) ->
       name ∈ map nameOf (concat ps.*2)).
Proof.
  induction 1 as [token s s' page Hl|token s s' page next rest Hl Hn Hp IH]; intros Hex after Ha;
    apply admin_List_page in Hl as (after' & Ha' & Hpos & Hpage); rewrite Ha in Ha'; injection Ha' as <-;
    pose proof (entries_nonempty (registryAt s) after (tablesOf s)) as Hne;
    assert (exclusive (registryAt s) (tablesOf s)) as Hexs by (apply Hex; by left);
    pose proof (entriesAfter_sorted (registryAt s) incl after (tablesOf s) Hexs) as Hsort;
    pose proof (entriesAfter_names (registryAt s) incl after (tablesOf s)) as Hnames;
    set (full := entriesAfter (registryAt s) incl after (tablesOf s)) in *; cbn [fmap list_fmap concat fst snd].
  - assert (page = full) as ->.
    { replace page with (fst (pageOf (sizeOf size) full)) by by rewrite <- Hpage. apply pageOf_end; [done|done|by rewrite <- Hpage]. }
    rewrite app_nil_r. split; [done|]. split; [intros name; by rewrite Hnames; intros [_ ?]|].
    intros name Hb Hk. apply Hnames. split; [|done]. apply Hk. by left.
  - destruct (pageOf_more (sizeOf size) full) as (l & g & tail & Hfull & Hpg & Htok); [done|done|by rewrite <- Hpage|].
    rewrite <- Hpage in Hpg, Htok. simpl in Hpg, Htok. subst page.
    assert (map nameOf full = map nameOf l ++ nameOf g :: map nameOf tail) as Hmap.
    { rewrite Hfull, <- app_assoc, map_app. done. }
    rewrite Hmap in Hsort. apply sorted_split in Hsort as (Hl & Hbl & Hbt & Htl).
    destruct (IH (fun s1 Hs1 => Hex s1 (list_elem_of_further _ _ _ Hs1)) _ Htok) as (IHs & IHb & IHk).
    assert (map nameOf ((l ++ [g]) ++ concat rest.*2) = (map nameOf l ++ [nameOf g]) ++ map nameOf (concat rest.*2)) as -> by by rewrite !map_app.
    assert (forall name, name ∈ map nameOf l ++ [nameOf g] -> name = nameOf g \/ before name (nameOf g)) as Hpage'.
    { intros name [Hin|Hin]%elem_of_app; [right; by apply Hbl|left; by apply list_elem_of_singleton]. }
    split; [|split].
    + apply sorted_app; [|done|].
      * apply sorted_app; [done|repeat constructor|]. intros a b Hin ->%list_elem_of_singleton. by apply Hbl.
      * intros a b Hin Hb%IHb. destruct (Hpage' a Hin) as [->|]; [done|]. by eapply before_trans.
    + intros name [Hin|Hin]%elem_of_app.
      * apply Hnames. rewrite Hmap. set_solver.
      * eapply before_trans; [|by apply IHb]. apply Hnames. rewrite Hmap. set_solver.
    + intros name Hb Hk. apply elem_of_app.
      assert (name ∈ map nameOf full) as Hin by (apply Hnames; split; [apply Hk; by left|done]).
      rewrite Hmap in Hin. apply elem_of_app in Hin as [Hin|[->|Hin]%elem_of_cons]; [left; set_solver|left; set_solver|right].
      apply IHk; [by apply Hbt|]. intros s1 Hs1. apply Hk. by right.
Qed.

Lemma paged_entries token ps : paged token ps -> forall g, g ∈ concat ps.*2 -> exists s, s ∈ ps.*1 /\
  entryOf (registryAt s) (tablesOf s) incl g.
Proof.
  assert (forall token s s' page next g, admin_ListHarnesses size token incl s = (s', Ok (page, next)) -> g ∈ page ->
    entryOf (registryAt s) (tablesOf s) incl g) as Hpage.
  { intros tok s s' page next g (after & _ & _ & E)%admin_List_page Hg. eapply (entriesAfter_entry _ incl after).
    unfold pageOf in E. injection E as -> _. eapply elem_of_sublist; [exact Hg|apply sublist_take]. }
  induction 1 as [token s s' page Hl|token s s' page next rest Hl Hn Hp IH]; intros g; cbn [fmap list_fmap concat fst snd].
  - rewrite app_nil_r. intros Hg. exists s. split; [by left|]. by eapply Hpage.
  - intros [Hg|Hg]%elem_of_app; [exists s; split; [by left|]; by eapply Hpage|].
    destruct (IH g Hg) as (s1 & Hs1 & He). exists s1. split; [by right|done].
Qed.
Lemma entryOf_listed r t g : entryOf r t incl g -> listedHere r t incl (nameOf g).
Proof. intros [(name & Hn & ->)|(name & row & Hr & Hi & ->)]; [by left|right; by exists row]. Qed.

(** On a registry and a database nobody changes, following the tokens ends. *)
Definition unchanged (s s' : AdminState) : Prop := tablesOf s' = tablesOf s /\ registryAt s' = registryAt s.

Lemma followPages_paged fuel : (forall n, fault n = None) -> (0 < sizeOf size)%nat -> forall token after s,
  decodeHarnessPageToken token = Ok after -> exclusive (registryAt s) (tablesOf s) ->
  (length (entriesAfter (registryAt s) incl after (tablesOf s)) < fuel)%nat -> exists s' ps,
    followPages fuel token s = (s', Ok (concat ps.*2)) /\ unchanged s s' /\ paged token ps /\ Forall (unchanged s) ps.*1.
Proof.
  intros Hfree Hpos. induction fuel as [|fuel IH]; intros token after s Ha Hex Hlen; [lia|]. cbn [followPages].
  destruct (admin_List_exact size token incl s) as (s1 & E & Ht & Hr). rewrite Ha, Hfree in E.
  destruct (clampSize size) as [sz|] eqn:Hsz; [|unfold sizeOf in Hpos; rewrite Hsz in Hpos; simpl in Hpos; lia].
  apply sizeOf_pos in Hsz as [_ Hsize]. rewrite <- Hsize in E. unfold mbind, M_bind. rewrite E.
  pose proof (entries_nonempty (registryAt s) after (tablesOf s)) as Hne.
  pose proof (entriesAfter_sorted (registryAt s) incl after (tablesOf s) Hex) as Hsort.
  pose proof (entriesAfter_names (registryAt s) incl after (tablesOf s)) as Hnames.
  set (full := entriesAfter (registryAt s) incl after (tablesOf s)) in *.
  destruct (pageOf (sizeOf size) full) as [page next] eqn:Hpage.
  case_bool_decide as Hnext.
  - subst next. exists s1, [(s, page)]. simpl. rewrite app_nil_r. split; [done|]. split; [done|].
    split; [by eapply paged_last|]. by repeat constructor.
  - destruct (pageOf_more (sizeOf size) full) as (l & g & tail & Hfull & Hpg & Htok); [done|done|by rewrite Hpage|].
    rewrite Hpage in Hpg, Htok. simpl in Hpg, Htok.
    assert (length (entriesAfter (registryAt s) incl (nameOf g) (tablesOf s)) <= length tail)%nat as Htail.
    { rewrite <- (length_map nameOf), <- (length_map nameOf tail). apply submseteq_length, NoDup_submseteq.
      - by apply sorted_NoDup, entriesAfter_sorted.
      - intros name [Hl Hb]%entriesAfter_names. assert (name ∈ map nameOf full) as Hin.
        { apply Hnames. split; [done|]. eapply before_trans; [|exact Hb]. apply (Hnames (nameOf g)). rewrite Hfull, !map_app. set_solver. }
        rewrite Hfull, <- app_assoc, map_app in Hin, Hsort. cbn [app map] in Hin, Hsort.
        apply sorted_split in Hsort as (_ & Hbl & _). apply elem_of_app in Hin as [Hin|[->|Hin]%elem_of_cons]; [|by apply before_irrefl in Hb|done].
        destruct (before_irrefl name). eapply before_trans; [by apply Hbl|done]. }
    destruct (IH next (nameOf g) s1) as (s2 & ps & E2 & [Ht2 Hr2] & Hp & Hall); rewrite ?Ht, ?Hr; [done|done| |].
    + rewrite Hfull, !length_app in Hlen. simpl in Hlen. lia.
    + rewrite E2. exists s2, ((s, page) :: ps). split; [done|]. split; [split; congruence|].
      split; [by eapply paged_more|]. constructor; [done|]. eapply Forall_impl; [exact Hall|]. intros s3 []. split; congruence.
Qed.

(** The token is taken exactly if it is empty or the base64 text of a name. *)
Lemma decodeHarnessPageToken_exact token after : decodeHarnessPageToken token = Ok after <-> harnessToken token after.
Proof.
  unfold decodeHarnessPageToken, harnessToken. case_bool_decide as Ht.
  - subst token. split; [intros [= <-]; by left|]. intros [[_ ->]|[Hne Hw%b64Decode_writes]]; [done|].
    by injection Hw as Hw; destruct after.
  - split.
    + destruct (b64Decode token) as [l|] eqn:Hd; [|done]. apply b64Decode_writes in Hd.
      assert (bytesOf (stringOf l) = l) as Hb by (destruct Hd as (_ & _ & _ & Hb & _); by apply bytesOf_stringOf).
      assert (match l with b :: bs => Ok (stringOf (b :: bs)) | [] => Err (EText "not a token this server issued") end =
        if decide (l = []) then Err (EText "not a token this server issued") else Ok (stringOf l)) as -> by (by destruct l).
      case_decide as Hl; [done|]. intros [= <-]. right. rewrite Hb. split; [|done]. intros E. by rewrite E in Hb.
    + intros [[? _]|[Hne Hw%b64Decode_writes]]; [done|]. rewrite Hw. pose proof (stringOf_bytesOf after) as E.
      destruct (bytesOf after) as [|b bs]; [by subst after|by rewrite E].
Qed.

(** C36: Listing harnesses by pages. A call reads only. It is refused as invalid exactly if the size is negative or
    the token is neither empty nor the base64 text of a name; else it fails exactly if the database does, and
    otherwise answers with at most the clamped size of static and stored entries as they are. Following the
    tokens while nothing changes ends, and gives every static name and every stored registration that
    is asked for, in strict name order. However registrations come and go between two pages, the
    entries stay in strict name order over all pages, none is repeated, and a name that stays listed is
    not skipped. *)
Theorem harness_listing_exact :
  (forall token s s' x, admin_ListHarnesses size token incl s = (s', x) -> unchanged s s' /\
     let valid := 0 <= size /\ exists after, harnessToken token after in
     match x with
     | Err e => (e = EStatus codes_InvalidArgument /\ ~ valid) \/
                (e = EStatus codes_Internal /\ valid /\ fault (ticks (w_log (ps_world (sv_place (ad_service s))))) <> None)
     | Ok (page, _) => valid /\ fault (ticks (w_log (ps_world (sv_place (ad_service s))))) = None /\ (length page <= sizeOf size <= 500)%nat /\ forall g, g ∈ page -> entryOf (registryAt s) (tablesOf s) incl g
     end) /\
  (forall s, (forall n, fault n = None) -> 0 <= size -> exclusive (registryAt s) (tablesOf s) -> exists s' l,
     followPages (S (stdpp.base.size (static (registryAt s)) + stdpp.base.size (t_harnesses (tablesOf s)))) EmptyString s = (s', Ok l) /\
     StronglySorted before (map nameOf l) /\
     forall name, name <> EmptyString -> name ∈ map nameOf l <-> listedHere (registryAt s) (tablesOf s) incl name) /\
  (forall ps, paged EmptyString ps -> (forall s, s ∈ ps.*1 -> exclusive (registryAt s) (tablesOf s)) ->
     StronglySorted before (map nameOf (concat ps.*2)) /\ NoDup (map nameOf (concat ps.*2)) /\
     forall name, name <> EmptyString -> (forall s, s ∈ ps.*1 -> listedHere (registryAt s) (tablesOf s) incl name) ->
       name ∈ map nameOf (concat ps.*2)).
Proof.
  assert (forall name, name <> EmptyString -> before EmptyString name) as Hempty by (by intros []).
  split; [|split].
  - intros token s s' x. destruct (admin_List_exact size token incl s) as (s1 & -> & Ht & Hr). intros [= <- <-].
    split; [done|]. destruct (clampSize size) as [sz|] eqn:Hsz.
    + assert (0 <= size) as Hge by (unfold clampSize in Hsz; destruct (Z.ltb_spec size 0); [done|lia]).
      destruct (decodeHarnessPageToken token) as [after|e] eqn:Htok.
      2: { left. split; [done|]. intros (_ & after & Ha%decodeHarnessPageToken_exact). congruence. }
      apply decodeHarnessPageToken_exact in Htok. assert (0 <= size /\ exists after, harnessToken token after) as Hvalid by eauto.
      destruct (fault _) as [e|]; [by right|]. apply sizeOf_pos in Hsz as [Hpos ->]. unfold pageOf.
      split; [done|]. split; [done|]. split; [rewrite length_take; unfold MaxPageSize in Hpos; lia|].
      intros g Hg. eapply (entriesAfter_entry _ incl after), elem_of_sublist; [exact Hg|apply sublist_take].
    + left. split; [done|]. intros [Hge _]. unfold clampSize in Hsz. destruct (Z.ltb_spec size 0); [lia|done].
  - intros s Hfree Hs Hex. destruct (clampSize size) as [sz|] eqn:Hsz.
    2: { unfold clampSize in Hsz. destruct (Z.ltb_spec size 0); [lia|done]. }
    apply sizeOf_pos in Hsz as [Hpos Hsize].
    destruct (followPages_paged (S (stdpp.base.size (static (registryAt s)) + stdpp.base.size (t_harnesses (tablesOf s)))) Hfree
      ltac:(lia) EmptyString EmptyString s eq_refl Hex) as (s' & ps & E & _ & Hp & Hall).
    { apply Nat.lt_succ_r, entriesAfter_length. }
    rewrite Forall_forall in Hall. destruct (paged_behind _ _ Hp) with (after := EmptyString) as (Hsort & Hb & Hk); [|done|].
    { intros s1 Hs1. destruct (Hall _ Hs1) as [-> ->]. exact Hex. }
    exists s', (concat ps.*2). split; [done|]. split; [done|]. intros name Hne. split.
    + intros (g & -> & Hg)%list_elem_of_fmap. destruct (paged_entries _ _ Hp g Hg) as (s1 & Hs1 & He%entryOf_listed).
      by destruct (Hall _ Hs1) as [<- <-].
    + intros Hl. apply Hk; [by apply Hempty|]. intros s1 Hs1. by destruct (Hall _ Hs1) as [-> ->].
  - intros ps Hp Hex. destruct (paged_behind _ _ Hp Hex EmptyString eq_refl) as (Hsort & _ & Hk).
    split; [done|]. split; [by apply sorted_NoDup|]. intros name Hne. by apply Hk, Hempty.
Qed.
End Listing.

(** ** Example *)

#[local] Existing Instance exampleHost.
#[local] Existing Instance exampleEncoding.
#[local] Existing Instance exampleTimestamppb.
#[local] Existing Instance exampleDriver.
#[local] Existing Instance examplePlacementHost.
#[local] Existing Instance exampleServiceHost.
#[local] Existing Instance exampleSpecJson.

Definition answered (x : AdminState * res (list HarnessRegistration * string)) : list HarnessRegistration * string :=
  match snd x with Ok a => a | Err _ => ([], EmptyString) end.
Definition isOk {A} (r : res A) : bool := match r with Ok _ => true | Err _ => false end.
Lemma answered_run x : isOk (snd x) = true -> x = (fst x, Ok (fst (answered x), snd (answered x))).
Proof. destruct x as [s [[page next]|e]]; [done|discriminate]. Qed.
(** "coder" is retired and "nova" registered before the second page is read. *)
Definition laterAdmin : AdminState :=
  fst (exampleRegister "nova" "n" (fst (admin_RetireHarness "coder" "old" exampleRegistered))).
Definition firstListing : list HarnessRegistration * string := answered (admin_ListHarnesses 2 EmptyString false exampleRegistered).
Definition secondListing : list HarnessRegistration * string := answered (admin_ListHarnesses 2 (snd firstListing) false laterAdmin).

Lemma harness_listing_exact_witness :
  (exists s' l, followPages false 2 4 EmptyString exampleRegistered = (s', Ok l) /\ length l = 3%nat) /\
  map nameOf (fst firstListing ++ fst secondListing ++ []) = ["coder"; "echo"; "nova"; "zeta"]%string /\
  "zeta"%string ∈ map nameOf (fst firstListing ++ fst secondListing ++ []).
Proof.
  assert (static (sv_registry (ad_service exampleRegistered)) = {["echo"%string]} /\
    static (sv_registry (ad_service laterAdmin)) = {["echo"%string]}) as [Hst1 Hst2] by (by vm_compute).
  assert (forall s, static (sv_registry (ad_service s)) = {["echo"%string]} -> t_harnesses (tables (w_log (ps_world (sv_place (ad_service s))))) !! "echo"%string = None ->
    exclusive (sv_registry (ad_service s)) (tables (w_log (ps_world (sv_place (ad_service s)))))) as Hex.
  { intros s Hs Hr name Hn. rewrite Hs in Hn. by apply elem_of_singleton in Hn as ->. }
  destruct (harness_listing_exact false 2) as (_ & Hall & Hpaged). split; [|split; [by vm_compute|]].
  - destruct (Hall exampleRegistered) as (s' & l & E & _ & _); [done|done|by apply Hex; [|vm_compute]|].
    exists s', l. split; [exact E|]. apply (f_equal (fun x => length match snd x with Ok l => l | Err _ => [] end)) in E.
    cbn [snd] in E. rewrite <- E. by vm_compute.
  - destruct (Hpaged [(exampleRegistered, fst firstListing); (laterAdmin, fst secondListing)]) as (_ & _ & Hk).
    + eapply paged_more; [apply (answered_run (admin_ListHarnesses 2 EmptyString false exampleRegistered)); by vm_compute|by vm_compute|].
      assert (isOk (snd (admin_ListHarnesses 2 (snd firstListing) false laterAdmin)) = true) as Hok by by vm_compute.
      apply (answered_run (admin_ListHarnesses 2 (snd firstListing) false laterAdmin)) in Hok.
      assert (snd (answered (admin_ListHarnesses 2 (snd firstListing) false laterAdmin)) = EmptyString) as Hnext by by vm_compute.
      rewrite Hnext in Hok. unfold secondListing. eapply paged_last. exact Hok.
    + intros s [->|Hs]%elem_of_cons; [by apply Hex; [|vm_compute]|]. apply list_elem_of_singleton in Hs as ->. by apply Hex; [|vm_compute].
    + apply Hk; [done|]. intros s [->|Hs]%elem_of_cons; [|apply list_elem_of_singleton in Hs as ->]; right;
        eexists; (split; [vm_compute; reflexivity|by right]).
Defined.
