(* ===== verification/HarnessRegistration.v ===== *)
(** * A registration is stored, served and answered as one (theorems about [HarnessRegistry.RegisterHarness])

    What each part of the handler changes, that a new placer can always be added to the registry, and
    that a registration either takes effect in the store and in the registry, or in neither with
    everything built for it released. *)
From S2P Require Import Prelude GoErrors Api Canon EventLog Executions Approvals Harness Wire Sinks Controller Agents SessionGuard Placement Admission Registry Routing Tables Projection SqlLog SqlExample SqlStore SqlSessions SqlHarnesses SqlSystem Durable GoJson Status Service ServiceFacts ServiceExample ServiceSessions HarnessSpec HarnessAdmin HarnessNames HarnessExample.
#[local] Open Scope Z_scope.

(** ** New placers *)

(** A placer just made holds a guard and a session set of its own, both unused. *)
Definition ownPlacer (h : Heap) (ptr : nat) (po : placerObj) : Prop :=
  (ptr < nextObj h)%nat /\ po_guard po = ptr /\ po_sessions po = ptr /\
  guards h !! ptr = Some newSessionGuard /\ sets h !! ptr = Some (mkSessionSet ∅ ∅ false).

Lemma makes_own h h' : rtc makes h h' -> forall ptr po, placers h' !! ptr = Some po ->
  placers h !! ptr = Some po \/ ((nextObj h <= ptr)%nat /\ ownPlacer h' ptr po).
Proof.
  induction 1 as [h|h h1 h' [p ->] Hr IH]; intros ptr po Hp; [by left|].
  assert (forall h2 ptr po, rtc makes h2 h' -> ownPlacer h2 ptr po -> ownPlacer h' ptr po) as Hkeep.
  { clear. intros h2 ptr po Hr. induction Hr as [|h2 h3 h' [p ->] _ IH]; [done|]. intros (Hl & Hg & Hs & Hgs & Hss). apply IH.
    unfold ownPlacer. simpl. rewrite !lookup_insert_ne by lia. split_and!; try done. lia. }
  destruct (IH ptr po Hp) as [Hin|[Hle Hown]]; [|right; split; [simpl in Hle; lia|done]].
  simpl in Hin. apply lookup_insert_Some in Hin as [[<- <-]|[_ Hin]]; [right|by left]. split; [done|].
  apply (Hkeep _ _ _ Hr). unfold ownPlacer. simpl. rewrite !lookup_insert_eq. split_and!; try done. lia.
Qed.

Lemma makes_steps h h' rs : rtc makes h h' -> rtc reg_step (h, rs) (h', rs).
Proof. induction 1 as [|h h1 h' [p ->] _ IH]; [done|]. eapply rtc_l; [apply (step_placer p)|done]. Qed.

(** A name nobody holds takes a new placer. *)
Lemma Add_new name ptr r h h' po : reg_inv (h, [r]) -> rtc makes h h' -> (nextObj h <= ptr)%nat -> placers h' !! ptr = Some po ->
  name <> EmptyString -> Reserved r name = false -> Has r name = false ->
  exists r', Add name (Some ptr) r h' = ((r', joinPlacer ptr r h'), Ok tt) /\
    r' = mkRegistry (<[name := ptr]> (byName r)) (unavailable r) (static r) (reserved r) (defaultHarness r) (r_guard r) (r_sessions r).
Proof.
  intros [Hh Hn Hs _] Hm Hle Hpo Hne Hres Hhas. simpl in *.
  apply Forall_cons_1 in Hs as [[Hsh _ _] _]. pose proof (isShared_lt h _ Hh Hsh) as Hlt.
  destruct (makes_own _ _ Hm _ _ Hpo) as [Hold|[_ (_ & Hpg & Hps & Hg & Hset)]].
  { pose proof (hi_ptr _ Hh ptr ltac:(by eexists)). lia. }
  unfold Add. rewrite bool_decide_eq_false_2 by done. unfold nameError. rewrite Hres.
  unfold Has in Hhas. apply orb_false_iff in Hhas as [Hb Hu]. rewrite Hb, Hu, Hpo, bool_decide_eq_false_2 by lia.
  unfold joinError. rewrite Hps, Hpg, Hset, Hg. eexists. split; [reflexivity|done].
Qed.

Section Registration.
Context `{Host} `{Encoding} `{Timestamppb} `{!ProtoCodec} `{Driver} `{PlacementHost} `{ServiceHost} `{SpecJson}.
Context `{!ProtoLaws} `{!DriverLaws} `{!SpecJsonLaws}.
Variable factory : PlacerFactory.
Context `{!FactoryLaws factory}.

Abbreviation dbA s := (w_log (ps_world (sv_place (ad_service s)))).
Abbreviation tablesOf s := (tables (dbA s)).
Abbreviation registryAt s := (sv_registry (ad_service s)).
Abbreviation heapAt s := (sv_heap (ad_service s)).

(** ** The parts *)

(** What a part leaves alone that is about the database and the clock only. *)
Record aside (s s' : AdminState) : Prop := {
  as_registry : registryAt s' = registryAt s;
  as_heap : heapAt s' = heapAt s;
  as_releases : ad_releases s' = ad_releases s;
  as_built : ad_built s' = ad_built s;
  as_released : ad_released s' = ad_released s;
}.
#[export] Instance aside_preorder : PreOrder aside.
Proof. split; [done|]. intros s1 s2 s3 [] []. constructor; congruence. Qed.

Lemma onStoreA_inv {A} (m : M DB goerr A) s s' x : onStoreA m s = (s', x) -> m (dbA s) = (dbA s', x) /\ aside s s'.
Proof.
  unfold onStoreA, onServiceA. destruct (onDB m (ad_service s)) as [sv y] eqn:E. intros [= <- <-].
  pose proof E as [Hm Hr]%onDB_tables. split; [exact Hm|]. constructor; try done.
  unfold onDB, onPlace in E. destruct (onStore m _). injection E as <- _. reflexivity.
Qed.

Lemma newHarnessUID_inv s s' x : newHarnessUID s = (s', x) -> aside s s' /\ dbA s' = dbA s /\ exists uid, x = Ok uid.
Proof. unfold newHarnessUID. intros [= <- <-]. split; [done|]. split; [done|]. by eexists. Qed.

(** The release functions handed out between two states. *)
Definition newlyBuilt (s s' : AdminState) : list nat := seq (ad_built s) (ad_built s' - ad_built s).

Lemma callFactory_inv name spec s s' x : callFactory factory name spec s = (s', x) ->
  registryAt s' = registryAt s /\ dbA s' = dbA s /\ rtc makes (heapAt s) (heapAt s') /\
  ad_releases s' = ad_releases s /\ ad_released s' = ad_released s /\ (ad_built s <= ad_built s')%nat /\
  exists p f err, x = Ok (p, f, err) /\ option_list f = newlyBuilt s s' /\
    (forall ptr, p = Some ptr -> (nextObj (heapAt s) <= ptr)%nat /\ is_Some (placers (heapAt s') !! ptr)).
Proof.
  intros (s1 & t & Ht & Hr)%bind_inv. injection Ht as <- <-. unfold askFactory in Hr. simpl in Hr.
  destruct (factory _ name spec (heapAt s)) as [h fr] eqn:E. injection Hr as <- <-. simpl. split; [done|]. split; [done|].
  split; [by eapply factory_makes|]. split; [done|]. split; [done|]. split; [lia|]. eexists _, _, _. split; [done|]. split.
  - unfold newlyBuilt. simpl. destruct (fr_release fr); [by replace (ad_built s + 1 - ad_built s)%nat with 1%nat by lia|].
    by replace (ad_built s + 0 - ad_built s)%nat with 0%nat by lia.
  - intros ptr Hp. by eapply factory_new.
Qed.

(** What the placer that was built is. *)
Definition builtFor (spec : HarnessSpec) (h : Heap) (ptr : nat) : Prop :=
  exists po, placers h !! ptr = Some po /\ p_descriptorID (po_placer po) = hs_DescriptorId spec.

Lemma checkPlacer_None p spec h : checkPlacer p spec h = None -> exists ptr, p = Some ptr /\ builtFor spec h ptr.
Proof.
  unfold checkPlacer. destruct p as [ptr|]; [|done]. destruct (placers h !! ptr) as [po|] eqn:E; [|done].
  case_bool_decide; [|done]. intros _. exists ptr. split; [done|]. by exists po.
Qed.

(** Building leaves the store and the registry alone; on failure what was built is released. *)
Record built_by (s s' : AdminState) : Prop := {
  bb_registry : registryAt s' = registryAt s;
  bb_db : dbA s' = dbA s;
  bb_heap : rtc makes (heapAt s) (heapAt s');
  bb_releases : ad_releases s' = ad_releases s;
  bb_built : (ad_built s <= ad_built s')%nat;
}.

Lemma buildPlacer_inv name spec s s' x : buildPlacer factory name spec s = (s', x) -> built_by s s' /\
  match x with
  | Ok None => Has (registryAt s) name = true /\ aside s s'
  | Ok (Some (ptr, f)) => Has (registryAt s) name = false /\ ad_released s' = ad_released s /\ option_list f = newlyBuilt s s' /\
      (nextObj (heapAt s) <= ptr)%nat /\ builtFor spec (heapAt s') ptr
  | Err e => Has (registryAt s) name = false /\ ad_released s' = ad_released s ++ newlyBuilt s s' /\
      (e = EStatus codes_FailedPrecondition \/ e = EStatus codes_Internal)
  end.
Proof.
  unfold buildPlacer, registryOf. intros (s0 & r0 & [= <- <-] & Hr)%bind_inv.
  destruct (Has (registryAt s) name) eqn:Hh.
  { injection Hr as <- <-. split; [by constructor|by split]. }
  apply bind_inv in Hr as (s1 & y & (Hreg & Hdb & Hm & Hk & Hrel & Hb & p & f & err & -> & Hf & Hp)%callFactory_inv & Hr).
  assert (built_by s s1) as Hbb by (by constructor).
  assert (forall e s2 z, (do! release f in throw (A := option (nat * option nat)) (EStatus e)) s1 = (s2, z) ->
    built_by s s2 /\ z = Err (EStatus e) /\ ad_released s2 = ad_released s ++ newlyBuilt s s2) as Hfail.
  { intros e s2 z [= <- <-]. split; [destruct Hbb; by constructor|]. split; [done|]. simpl. rewrite Hrel, Hf. done. }
  destruct err as [err|].
  { apply Hfail in Hr as (Hbb' & -> & Hre). split; [done|]. split; [done|]. split; [done|by left]. }
  unfold heapOf in Hr. apply bind_inv in Hr as (s2 & h & [= <- <-] & Hr).
  destruct p as [ptr|].
  - destruct (checkPlacer (Some ptr) spec (heapAt s1)) as [e|] eqn:Ec.
    + apply Hfail in Hr as (Hbb' & -> & Hre). split; [done|]. split; [done|]. split; [done|by right].
    + injection Hr as <- <-. split; [done|]. split; [done|]. split; [done|]. split; [done|].
      apply checkPlacer_None in Ec as (ptr' & [= <-] & Hfor). by destruct (Hp ptr eq_refl).
  - apply Hfail in Hr as (Hbb' & -> & Hre). split; [done|]. split; [done|]. split; [done|by right].
Qed.

Lemma precheckSpec_inv name digest s s' x : precheckSpec name digest s = (s', x) -> aside s s' /\
  saved (dbA s') = saved (dbA s) /\ tablesOf s' = tablesOf s /\
  match x with
  | Ok _ => forall row, t_harnesses (tablesOf s) !! name = Some row -> h_spec_digest row = digest
  | Err e => e = EStatus codes_AlreadyExists \/ e = EStatus codes_Internal
  end.
Proof.
  unfold precheckSpec. intros (s1 & y & (z & (Hd & Ha)%onStoreA_inv & ->)%try_inv & Hr)%bind_inv.
  apply harnessByName_inv in Hd as (Hs & Ht & Hz).
  destruct z as [rec|e].
  - destruct Hz as (row & Hrow & ->). simpl in Hr. case_bool_decide as Hdg; injection Hr as <- <-; (split; [done|]); (split; [done|]); (split; [done|]).
    + intros row'. rewrite Hrow. by intros [= <-].
    + by left.
  - destruct (errors_Is e ErrHarnessNotFound); injection Hr as <- <-; (split; [done|]); (split; [done|]); (split; [done|]); [|by right].
    rewrite (Hz eq_refl). done.
Qed.

(** ** The handler *)

(** The database and the registry are sound. *)
Definition host_ok (s : AdminState) : Prop := db_ok (dbA s) /\ reg_inv (heapAt s, [registryAt s]).

Lemma addPlacer_new name ptr s s1 spec : reg_inv (heapAt s, [registryAt s]) -> registryAt s1 = registryAt s ->
  rtc makes (heapAt s) (heapAt s1) -> (nextObj (heapAt s) <= ptr)%nat -> builtFor spec (heapAt s1) ptr ->
  name <> EmptyString -> Reserved (registryAt s) name = false -> Has (registryAt s) name = false ->
  exists s2, addPlacer name (Some ptr) s1 = (s2, Ok tt) /\ dbA s2 = dbA s1 /\ ad_releases s2 = ad_releases s1 /\
    ad_built s2 = ad_built s1 /\ ad_released s2 = ad_released s1 /\
    reg_inv (heapAt s2, [registryAt s2]) /\ extends (registryAt s) (registryAt s2) /\
    For (registryAt s2) name = Ok ptr /\ builtFor spec (heapAt s2) ptr /\
    registryAt s2 = mkRegistry (<[name := ptr]> (byName (registryAt s))) (unavailable (registryAt s)) (static (registryAt s))
      (reserved (registryAt s)) (defaultHarness (registryAt s)) (r_guard (registryAt s)) (r_sessions (registryAt s)) /\
    heapAt s2 = joinPlacer ptr (registryAt s) (heapAt s1).
Proof.
  intros Hinv Hreg Hm Hle (po & Hpo & Hid) Hne Hres Hhas.
  destruct (Add_new _ _ _ _ _ _ Hinv Hm Hle Hpo Hne Hres Hhas) as (r' & Ha & Hr').
  unfold addPlacer. rewrite Hreg, Ha. eexists. split; [reflexivity|]. simpl. do 4 (split; [done|]).
  assert (rtc reg_step (heapAt s, [registryAt s]) (joinPlacer ptr (registryAt s) (heapAt s1), [r'])) as Hsteps.
  { etransitivity; [by apply makes_steps|]. apply rtc_once.
    apply (step_add 0 name (Some ptr) (heapAt s1) [registryAt s] (registryAt s) r' _ (Ok tt)); [done| |done].
    intros ? [= <-]. by exists po. }
  apply reg_steps_inv in Hsteps as [Hinv' Hg]; [|done]. split; [done|].
  destruct (Hg 0%nat (registryAt s) eq_refl) as (r2 & [= <-] & Hext). split; [done|].
  unfold Has in Hhas. apply orb_false_iff in Hhas as [_ Hu]. apply bool_decide_eq_false in Hu. split.
  - unfold For. rewrite bool_decide_eq_false_2 by done. rewrite Hr'. simpl. rewrite lookup_insert_eq.
    by destruct (unavailable (registryAt s) !! name); [destruct Hu|].
  - split; [|done]. unfold builtFor. simpl. rewrite lookup_alter_eq, Hpo. simpl. eexists. by split.
Qed.

(** The store and the registry take the registration, or both are left alone. *)
Record taken (name : string) (spec : HarnessSpec) (c : list Z) (s s' : AdminState) (g : HarnessRegistration) (o : RegisterOutcome) (row : HarnessRow) : Prop := {
  tk_row : t_harnesses (tablesOf s') !! name = Some row;
  tk_active : h_state row = HarnessActive;
  tk_digest : h_spec_digest row = digestOf c;
  tk_outcome : match o, t_harnesses (tablesOf s) !! name with
    | REGISTER_OUTCOME_CREATED, None => h_spec row = stringOf c
    | REGISTER_OUTCOME_UNCHANGED, Some old => h_state old = HarnessActive /\ row_same old row
    | REGISTER_OUTCOME_REACTIVATED, Some old => h_state old <> HarnessActive /\ row_same old row
    | _, _ => False
    end;
  tk_others : forall n, n <> name -> t_harnesses (tablesOf s') !! n = t_harnesses (tablesOf s) !! n;
  tk_answer : (md_Name <$> hg_Metadata g) = Some name /\ (md_Uid <$> hg_Metadata g) = Some (h_uid row) /\
    hg_SpecDigest g = digestOf c /\ hg_State g = HARNESS_STATE_ACTIVE /\ hg_Source g = HARNESS_SOURCE_REGISTERED;
  tk_spec : h_spec row = stringOf c -> hg_Spec g = Some spec;
  tk_kept : ad_released s' = ad_released s /\ ad_releases s' = ad_releases s ++ newlyBuilt s s';
  tk_served : if Has (registryAt s) name then registryAt s' = registryAt s /\ newlyBuilt s s' = [] /\
      (h_spec row = stringOf c -> hg_UnservableReason g = match For (registryAt s) name with Ok _ => None | Err e => Some e end)
    else exists ptr, For (registryAt s') name = Ok ptr /\ (nextObj (heapAt s) <= ptr)%nat /\ builtFor spec (heapAt s') ptr /\
      (h_spec row = stringOf c -> hg_UnservableReason g = None);
}.
Record untouched (s s' : AdminState) : Prop := {
  un_tables : tablesOf s' = tablesOf s;
  un_registry : registryAt s' = registryAt s;
  un_releases : ad_releases s' = ad_releases s;
  un_released : ad_released s' = ad_released s ++ newlyBuilt s s';
}.

Lemma aside_built s s' : aside s s' -> newlyBuilt s s' = [].
Proof. intros []. unfold newlyBuilt. by rewrite as_built0, Nat.sub_diag. Qed.

(** The part of the handler behind the checks of the request. *)
Definition registering (name : string) (spec : HarnessSpec) (c : list Z) : M AdminState goerr (HarnessRegistration * RegisterOutcome) :=
  do! precheckSpec name (digestOf c) in
  let! built := buildPlacer factory name spec in
  let! uid := newHarnessUID in
  let! stored := try (onStoreA (RegisterHarness
    (mkHarnessRecord name uid (stringOf c) (digestOf c) (HarnessStateOther EmptyString) EmptyString None None None))) in
  match stored with
  | Err err => do! release (built ≫= snd) in throw (registerError err)
  | Ok (rec, result) =>
      do! addBuilt name built in
      let! r := registryOf in
      mret (registrationProto r rec, registerOutcome result)
  end.

(** The refusals of a request before anything is looked up. *)
Lemma register_request name spec s s' x : admin_RegisterHarness factory name spec s = (s', x) ->
  (s' = s /\ (x = Err (EStatus codes_InvalidArgument) \/ x = Err (EStatus codes_AlreadyExists))) \/
  exists spec0 c, validName name = None /\ validateSpec spec = None /\ Reserved (registryAt s) name = false /\ spec = Some spec0 /\
    canonProto spec0 = Ok c /\ Z.of_nat (length c) <= maxSpecBytes /\ registering name spec0 c s = (s', x).
Proof.
  unfold admin_RegisterHarness. unfold check. destruct (validName name) as [e|] eqn:Hv.
  { unfold validName in Hv. destruct (MatchString _ _); [done|]. injection Hv as <-. intros [= <- <-]. left. split; [done|by left]. }
  unfold registryOf. intros (s1 & y & [= <- <-] & Hr)%bind_inv. apply bind_inv in Hr as (s1 & y & [= <- <-] & Hr).
  destruct (Reserved (registryAt s) name) eqn:Hres.
  { injection Hr as <- <-. left. split; [done|by right]. }
  destruct spec as [spec0|]; [|injection Hr as <- <-; left; split; [done|by left]].
  destruct (validateSpec (Some spec0)) eqn:Hval; [injection Hr as <- <-; left; split; [done|by left]|].
  unfold specDigest in Hr. destruct (canonProto spec0) as [c|e] eqn:Hc; [|injection Hr as <- <-; left; split; [done|by left]].
  destruct (Z.ltb_spec maxSpecBytes (Z.of_nat (length c))); [injection Hr as <- <-; left; split; [done|by left]|].
  right. exists spec0, c. by split_and!.
Qed.

(** What is in hand once the placer is built: nothing is stored, kept or released yet. *)
Record in_hand (spec : HarnessSpec) (name : string) (built : option (nat * option nat)) (s s' : AdminState) : Prop := {
  ih_registry : registryAt s' = registryAt s;
  ih_heap : rtc makes (heapAt s) (heapAt s');
  ih_releases : ad_releases s' = ad_releases s;
  ih_released : ad_released s' = ad_released s;
  ih_built : newlyBuilt s s' = option_list (built ≫= snd);
  ih_placer : match built with
    | None => Has (registryAt s) name = true
    | Some (ptr, _) => Has (registryAt s) name = false /\ (nextObj (heapAt s) <= ptr)%nat /\ builtFor spec (heapAt s') ptr
    end;
}.

Lemma in_hand_built spec name built s s1 s2 : aside s s1 -> buildPlacer factory name spec s1 = (s2, Ok built) -> in_hand spec name built s s2.
Proof.
  intros [Hr1 Hh1 Hk1 Hb1 Hre1] [[Hr2 Hd2 Hh2 Hk2 Hb2] Hx]%buildPlacer_inv. rewrite Hr1, Hh1 in *.
  destruct built as [[ptr f]|].
  - destruct Hx as (Hhas & Hre & Hf & Hle & Hfor). constructor; try done; try congruence.
    simpl. unfold newlyBuilt in *. by rewrite Hf, Hb1.
  - destruct Hx as [Hhas [Hr3 Hh3 Hk3 Hb3 Hre3]]. constructor; try done; try congruence.
    simpl. unfold newlyBuilt. by rewrite Hb3, Hb1, Nat.sub_diag.
Qed.
Lemma in_hand_aside spec name built s s1 s2 : in_hand spec name built s s1 -> aside s1 s2 -> in_hand spec name built s s2.
Proof.
  intros [] [Hr Hh Hk Hb Hre]. constructor; try congruence.
  - unfold newlyBuilt in *. by rewrite Hb.
  - destruct built as [[ptr f]|]; [|done]. by rewrite Hh.
Qed.
Lemma in_hand_inv spec name built s s1 : in_hand spec name built s s1 -> reg_inv (heapAt s, [registryAt s]) -> reg_inv (heapAt s1, [registryAt s1]).
Proof.
  intros [Hr Hh _ _ _ _] Hinv. rewrite Hr. eapply reg_steps_inv; [by apply makes_steps|done].
Qed.

(** The placer that is in hand joins the registry, and its release function is kept. *)
Lemma addBuilt_inv spec name built s s1 s2 x : in_hand spec name built s s1 -> reg_inv (heapAt s, [registryAt s]) ->
  name <> EmptyString -> Reserved (registryAt s) name = false -> addBuilt name built s1 = (s2, x) ->
  x = Ok tt /\ dbA s2 = dbA s1 /\ reg_inv (heapAt s2, [registryAt s2]) /\ extends (registryAt s) (registryAt s2) /\
  ad_released s2 = ad_released s /\ ad_releases s2 = ad_releases s ++ newlyBuilt s s2 /\
  if Has (registryAt s) name then registryAt s2 = registryAt s /\ newlyBuilt s s2 = []
  else exists ptr, For (registryAt s2) name = Ok ptr /\ (nextObj (heapAt s) <= ptr)%nat /\ builtFor spec (heapAt s2) ptr.
Proof.
  intros Hih Hinv Hne Hres. pose proof (in_hand_inv _ _ _ _ _ Hih Hinv) as Hinv1.
  destruct Hih as [Hr Hh Hk Hre Hb Hp]. unfold addBuilt. destruct built as [[ptr f]|].
  - destruct Hp as (Hhas & Hle & Hfor).
    destruct (addPlacer_new name ptr s s1 spec) as (s3 & Ha & Hd3 & Hk3 & Hb3 & Hre3 & Hinv3 & Hext & Hf & Hfor3 & _); try done.
    unfold try, mbind, M_bind. rewrite Ha. intros [= <- <-]. simpl. rewrite Hhas.
    assert (newlyBuilt s s3 = option_list f) as Hnb by (unfold newlyBuilt in *; by rewrite Hb3, Hb).
    split; [done|]. split; [done|]. split; [done|]. split; [done|]. split; [congruence|].
    split; [by rewrite Hk3, Hk, <- Hnb|]. by exists ptr.
  - intros [= <- <-]. rewrite Hp. split; [done|]. split; [done|]. split; [done|]. rewrite Hr. split; [done|]. split; [done|].
    simpl in Hb. split; [by rewrite Hb, app_nil_r|]. done.
Qed.

(** A known name resolves, or is unservable and says so. *)
Lemma Has_reason r name : Has r name = true -> name <> EmptyString ->
  match For r name with
  | Ok _ => None
  | Err err => Some (if errors_Is err ErrHarnessUnservable then err else EText "registration is not loaded on this host")
  end = match For r name with Ok _ => None | Err err => Some err end.
Proof.
  unfold Has, For. intros Hhas Hne. rewrite (bool_decide_eq_false_2 (name = _)) by done. destruct (unavailable r !! name); [done|].
  by destruct (byName r !! name).
Qed.

Lemma registering_inv name spec c s s' x : host_ok s -> validName name = None -> wholeSpec spec -> canonProto spec = Ok c ->
  Reserved (registryAt s) name = false -> registering name spec c s = (s', x) ->
  host_ok s' /\ same_sessions (tablesOf s) (tablesOf s') /\ extends (registryAt s) (registryAt s') /\
  match x with
  | Err e => untouched s s' /\ exists code, e = EStatus code
  | Ok (g, o) => exists row, taken name spec c s s' g o row
  end.
Proof.
  intros [Hdb Hinv] Hname Hw Hc Hres Hr. unfold registering in Hr.
  assert (name <> EmptyString) as Hne by (by intros ->).
  apply bind_inv in Hr as (s1 & y & (Ha1 & Hs1 & Ht1 & Hy)%precheckSpec_inv & Hr).
  assert (db_ok (dbA s1)) as Hdb1 by (eapply db_ok_same; [exact Hdb|rewrite Hs1; apply Hdb|done]).
  destruct y as [[]|e].
  2: { destruct Hr as [-> ->]. destruct Ha1 as [Hr1 Hh1 Hk1 Hb1 Hre1]. split; [split; [done|by rewrite Hr1, Hh1]|].
       rewrite Ht1. split; [apply same_sessions_refl|]. rewrite Hr1. split; [done|]. split; [|by destruct Hy as [-> | ->]; eexists].
       constructor; try done. unfold newlyBuilt. by rewrite Hb1, Nat.sub_diag, app_nil_r. }
  apply bind_inv in Hr as (s2 & y & Hb & Hr). pose proof Hb as [[Hr2 Hd2 Hh2 Hk2 Hb2] Hx]%buildPlacer_inv.
  destruct y as [built|e].
  2: { destruct Hr as [-> ->]. destruct Hx as (_ & Hre & He), Ha1 as [Hr1 Hh1 Hk1 Hb1 Hre1]. split.
       { split; [by rewrite Hd2|]. rewrite Hr2, Hr1, <- (app_nil_r [registryAt s]). rewrite Hh1 in Hh2.
         eapply reg_steps_inv; [by apply makes_steps|done]. }
       rewrite Hd2, Ht1. split; [apply same_sessions_refl|]. rewrite Hr2, Hr1. split; [done|].
       split; [|destruct He as [-> | ->]; by eexists]. constructor; try congruence. unfold newlyBuilt in *. by rewrite Hre, Hb1, Hre1. }
  pose proof (in_hand_built _ _ _ _ _ _ Ha1 Hb) as Hih. clear Hb Hx Hh2 Hk2 Hb2.
  apply bind_inv in Hr as (s3 & y & (Ha3 & Hd3 & uid & ->)%newHarnessUID_inv & Hr).
  apply bind_inv in Hr as (s4 & y & (z & (Hreg & Ha4)%onStoreA_inv & ->)%try_inv & Hr).
  apply (in_hand_aside _ _ _ _ _ _ Hih) in Ha3 as Hih3. apply (in_hand_aside _ _ _ _ _ _ Hih3) in Ha4 as Hih4. clear Hih Hih3.
  rewrite Hd3, Hd2 in Hreg. assert (db_ok (dbA s4)) as Hdb4 by (eapply db_step_ok; [exact Hdb1|by eapply call_Register]).
  apply Register_inv in Hreg as [_ Hz]; [|apply Hdb1]. rewrite Ht1 in Hz.
  pose proof (in_hand_inv _ _ _ _ _ Hih4 Hinv) as Hinv4. destruct z as [[rec result]|err].
  - apply bind_inv in Hr as (s5 & y & Hadd & Hr).
    eapply addBuilt_inv in Hadd as (-> & Hd5 & Hinv5 & Hext & Hre5 & Hk5 & Hserved); [|done|done|done|done].
    unfold registryOf in Hr. apply bind_inv in Hr as (s6 & y & [= <- <-] & Hr). injection Hr as <- <-.
    destruct Hz as (Hsame & Hev & _ & Hothers & Hnew & row & Hrow & Hrec & Hact & Hdg & Hout). simpl in Hothers, Hnew, Hrow, Hrec, Hdg, Hout.
    split; [split; [by rewrite Hd5|done]|]. rewrite Hd5. split; [done|]. split; [done|]. exists row. rewrite Hrec in *.
    constructor; rewrite ?Hd5; try done.
    + destruct (t_harnesses (tablesOf s) !! name) as [old|] eqn:Eold.
      * destruct (ne_rows _ _ Hev _ _ Eold) as (row' & Hrow' & Hsr). rewrite Hrow in Hrow'. injection Hrow' as <-.
        rewrite Hout. case_bool_decide; by split.
      * rewrite Hout. destruct (Hnew eq_refl) as (row' & Hrow' & _ & Hsp). rewrite Hrow in Hrow'. by injection Hrow' as <-.
    + simpl. rewrite Hact. by rewrite bool_decide_eq_false_2.
    + intros Hsp. simpl. rewrite Hsp. by rewrite (storedSpec_canonical _ _ Hw Hc).
    + destruct (Has (registryAt s) name) eqn:Hhas.
      { destruct Hserved as [Hsr Hnb]. split_and!; [done|done|]. intros Hsp. simpl. unfold unservableReason. simpl.
        rewrite Hsp, (storedSpec_canonical _ _ Hw Hc), Hsr. by apply Has_reason. }
      destruct Hserved as (ptr & Hf & Hle & Hfor). exists ptr. split_and!; try done.
      intros Hsp. simpl. unfold unservableReason. simpl. by rewrite Hsp, (storedSpec_canonical _ _ Hw Hc), Hf.
  - injection Hr as <- <-. split; [by split|]. simpl. rewrite Hz. split; [apply same_sessions_refl|].
    destruct Hih4 as [Hr4 Hh4 Hk4 Hre4 Hb4 _]. rewrite Hr4. split; [done|]. split; [|by eexists].
    constructor; simpl; try done. by rewrite Hre4, <- Hb4.
Qed.
End Registration.

(** C19: A registration is all or nothing. A request whose name is not a DNS label or is reserved for a static
    harness, or whose spec is not whole, is refused before anything is touched. If the call fails
    afterwards, the store, the registry and the kept release functions are as before and everything the
    factory built is released. If it succeeds, the row of the name is active under the digest of the
    canonical spec, and was created, left or reactivated as the outcome says, its uid and spec never
    replaced; no other row changed; the answer carries the spec that was asked for; and a name this
    host did not know before now resolves to a new placer that expects the spec's descriptor. A name
    it knew is left as it was, without a build: the answer says it is servable exactly if it resolves,
    and otherwise why not. Sessions are never touched, and no name loses its placer. *)
Theorem registration_exact `{Host} `{Encoding} `{Timestamppb} `{!ProtoCodec} `{Driver} `{PlacementHost} `{ServiceHost} `{SpecJson}
    `{!ProtoLaws} `{!DriverLaws} `{!SpecJsonLaws} (factory : PlacerFactory) `{!FactoryLaws factory} name spec s s' x :
  host_ok s -> admin_RegisterHarness factory name spec s = (s', x) ->
  (~ dnsLabel (bytesOf name) \/ Reserved (sv_registry (ad_service s)) name = true \/ (forall sp, spec = Some sp -> ~ wholeSpec sp) -> s' = s) /\
  host_ok s' /\
  same_sessions (tables (w_log (ps_world (sv_place (ad_service s))))) (tables (w_log (ps_world (sv_place (ad_service s'))))) /\
  extends (sv_registry (ad_service s)) (sv_registry (ad_service s')) /\
  match x with
  | Err e => untouched s s' /\ exists code, e = EStatus code
  | Ok (g, o) => exists sp c row, spec = Some sp /\ dnsLabel (bytesOf name) /\ wholeSpec sp /\ canonProto sp = Ok c /\
      Z.of_nat (length c) <= maxSpecBytes /\ taken name sp c s s' g o row
  end.
Proof.
  intros Hok [[-> Hx]|(sp & c & Hname & Hval & Hres & -> & Hc & Hl & Hr)]%register_request.
  - split; [done|]. split; [done|]. split; [apply same_sessions_refl|]. split; [done|].
    assert (exists code, x = Err (EStatus code)) as [code ->] by (destruct Hx as [-> | ->]; by eexists).
    split; [|by eexists]. constructor; try done. unfold newlyBuilt. by rewrite Nat.sub_diag, app_nil_r.
  - apply validateSpec_whole in Hval. eapply registering_inv in Hr as (Hok' & Hsame & Hext & Hx); [|done..].
    apply validName_label in Hname. split; [intros [?|[?|Hn]]; [done|congruence|by destruct (Hn sp)]|].
    split; [done|]. split; [done|]. split; [done|]. destruct x as [[g o]|e]; [|done].
    destruct Hx as [row Hx]. by exists sp, c, row.
Qed.

#[local] Existing Instance exampleHost.
#[local] Existing Instance exampleEncoding.
#[local] Existing Instance exampleTimestamppb.
#[local] Existing Instance exampleDriver.
#[local] Existing Instance examplePlacementHost.
#[local] Existing Instance exampleServiceHost.
#[local] Existing Instance exampleSpecJson.

Lemma exampleAdmin_ok : host_ok exampleAdmin.
Proof.
  split; [apply emptyDB_ok|].
  change (reg_inv (fst exampleMade, [exampleRegistry])). apply (reg_steps_inv noHosts); [apply exampleHosts_reachable|apply noHosts_inv].
Qed.

#[local] Existing Instance exampleProtoLaws.
#[local] Existing Instance exampleDriverLaws.
#[local] Existing Instance exampleSpecJsonLaws.
#[local] Existing Instance exampleFactoryLaws.

Definition wasCreated (x : res (HarnessRegistration * RegisterOutcome)) : bool :=
  match x with Ok (_, REGISTER_OUTCOME_CREATED) => true | _ => false end.

Lemma registration_exact_witness : host_ok exampleAdmin /\ exists s' g sp c row,
  exampleRegister "coder" "c" exampleAdmin = (s', Ok (g, REGISTER_OUTCOME_CREATED)) /\
  taken "coder" sp c exampleAdmin s' g REGISTER_OUTCOME_CREATED row.
Proof.
  split; [apply exampleAdmin_ok|].
  assert (wasCreated (snd (exampleRegister "coder" "c" exampleAdmin)) = true) as Hc by by vm_compute.
  destruct (exampleRegister "coder" "c" exampleAdmin) as [s' x] eqn:E. cbn [snd] in Hc.
  unfold exampleRegister in E.
  pose proof (registration_exact (exampleFactory examplePlacer) "coder" (Some (exampleHarnessSpec "c")) exampleAdmin s' x exampleAdmin_ok E) as (_ & _ & _ & _ & Hx).
  destruct x as [[g []]|e]; [|discriminate Hc..]. destruct Hx as (sp & c & row & _ & _ & _ & _ & _ & Hx).
  exists s', g, sp, c, row. by split.
Defined.
