(* ===== verification/HarnessStartup.v ===== *)
(** * Startup loads every stored registration, and release functions are never lost (theorems about [HarnessRegistry])

    The loading of one registration, of a page and of all pages; the constructor; and the histories of
    the admin service next to the Sessions service. *)
From S2P Require Import Prelude GoErrors Api Canon EventLog Executions Approvals Harness Wire Sinks Controller Agents SessionGuard Placement Admission Registry Routing Tables Projection SqlLog SqlExample SqlStore SqlSessions SqlHarnesses SqlSystem Durable Paging GoJson Status Service ServiceFacts ServiceExample ServiceSessions HarnessSpec HarnessAdmin HarnessNames HarnessExample HarnessListing HarnessRegistration.
From stdpp Require Import sorting.
#[local] Open Scope Z_scope.

(** ** Heaps that keep their placers *)

Definition heap_keeps (h h' : Heap) : Prop := forall ptr po, placers h !! ptr = Some po ->
  exists po', placers h' !! ptr = Some po' /\ po_placer po' = po_placer po.
#[export] Instance heap_keeps_preorder : PreOrder heap_keeps.
Proof.
  split; [intros h ptr po Hp; by exists po|]. intros h1 h2 h3 H1 H2 ptr po Hp.
  destruct (H1 _ _ Hp) as (po2 & Hp2 & E2). destruct (H2 _ _ Hp2) as (po3 & Hp3 & E3). exists po3. split; [done|congruence].
Qed.
Lemma makes_keeps h h' : heap_inv h -> rtc makes h h' -> heap_keeps h h'.
Proof.
  intros Hi Hr. revert Hi. induction Hr as [h|h h1 h' [p ->] _ IH]; intros Hi; [done|].
  transitivity (fst (newPlacer p h)).
  - intros ptr po Hp. exists po. split; [|done]. simpl. pose proof (hi_ptr _ Hi ptr ltac:(by eexists)). by rewrite lookup_insert_ne by lia.
  - apply IH. apply (new_placer_inv p h []). split; [done|constructor|constructor|]. intros i j r1 r2 Hl. simpl in Hl. by rewrite lookup_nil in Hl.
Qed.
Lemma join_keeps ptr r h : heap_keeps h (joinPlacer ptr r h).
Proof.
  intros q po Hp. simpl. destruct (decide (q = ptr)) as [->|Hne].
  - rewrite lookup_alter_eq, Hp. simpl. eexists. by split.
  - rewrite lookup_alter_ne by done. by exists po.
Qed.
Lemma builtFor_keeps spec h h' ptr : heap_keeps h h' -> builtFor spec h ptr -> builtFor spec h' ptr.
Proof. intros Hk (po & Hp & Hid). destruct (Hk _ _ Hp) as (po' & Hp' & E). exists po'. split; [done|congruence]. Qed.

Section Startup.
Context `{Host} `{Encoding} `{Timestamppb} `{!ProtoCodec} `{Driver} `{PlacementHost} `{ServiceHost} `{SpecJson}.
Context `{!ProtoLaws} `{!DriverLaws} `{!SpecJsonLaws}.
Variable factory : PlacerFactory.
Context `{!FactoryLaws factory}.

Abbreviation dbA s := (w_log (ps_world (sv_place (ad_service s)))).
Abbreviation tablesOf s := (tables (dbA s)).
Abbreviation registryAt s := (sv_registry (ad_service s)).
Abbreviation heapAt s := (sv_heap (ad_service s)).
Abbreviation placed s := (reg_inv (heapAt s, [registryAt s])).

(** ** One registration *)

(** Every release function the factory returned is kept, or was called, exactly once. *)
Definition balanced (s : AdminState) : Prop := ad_releases s ++ ad_released s ≡ₚ seq 0 (ad_built s).

(** What loading may do. *)
Record loads (s s' : AdminState) : Prop := {
  ld_saved : saved (dbA s') = saved (dbA s);
  ld_tables : tablesOf s' = tablesOf s;
  ld_placed : placed s -> placed s';
  ld_extends : placed s -> extends (registryAt s) (registryAt s');
  ld_heap : placed s -> heap_keeps (heapAt s) (heapAt s');
  ld_balanced : balanced s -> balanced s';
}.
#[export] Instance loads_preorder : PreOrder loads.
Proof.
  split; [by intros s|]. intros s1 s2 s3 [] []. constructor; try congruence; eauto.
  - intros Hp. etransitivity; eauto.
  - intros Hp. etransitivity; eauto.
Qed.

Lemma balanced_keep s k l n : ad_releases s ++ ad_released s ≡ₚ seq 0 (ad_built s) ->
  k ++ l = seq (ad_built s) n -> (ad_releases s ++ k) ++ (ad_released s ++ l) ≡ₚ seq 0 (ad_built s + n).
Proof.
  intros Hb Hkl. rewrite seq_app, Nat.add_0_l, <- Hkl, <- Hb. solve_Permutation.
Qed.

(** The factory can serve a spec, wherever and whenever. *)
Definition servable (sp : HarnessSpec) : Prop := forall t name h h' fr, factory t name sp h = (h', fr) ->
  fr_err fr = None /\ checkPlacer (fr_placer fr) sp h' = None.
(** Where a name stands after its registration was loaded. *)
Definition loadedAs (s : AdminState) (name spec : string) : Prop :=
  ((exists cause, unavailable (registryAt s) !! name = Some cause) /\ forall sp, storedSpec spec = Ok sp -> ~ servable sp) \/
  (exists sp ptr, storedSpec spec = Ok sp /\ byName (registryAt s) !! name = Some ptr /\ builtFor sp (heapAt s) ptr).

Lemma loadedAs_loads s s' name spec : placed s -> loads s s' -> loadedAs s name spec -> loadedAs s' name spec.
Proof.
  intros Hp Hl Hla. pose proof (ld_extends _ _ Hl Hp) as (Hb & Hu & _). destruct Hla as [[[cause Hc] Hns]|(sp & ptr & Hs & Hn & Hf)].
  - left. split; [|done]. exists cause. by eapply lookup_weaken.
  - right. exists sp, ptr. split; [done|]. split; [by eapply lookup_weaken|]. eapply builtFor_keeps; [by apply Hl|done].
Qed.

Lemma unavailable_inv name cause s s' x : unavailable_ name cause s = (s', x) ->
  loads s s' /\ ad_releases s' = ad_releases s /\ ad_released s' = ad_released s /\ ad_built s' = ad_built s /\
  (forall n, n <> name -> Has (registryAt s') n = Has (registryAt s) n) /\
  match x with
  | Ok _ => name <> EmptyString /\ Has (registryAt s) name = false /\ unavailable (registryAt s') !! name = Some cause
  | Err _ => name = EmptyString \/ Reserved (registryAt s) name = true \/ Has (registryAt s) name = true
  end.
Proof.
  unfold unavailable_, markUnavailable. destruct (MarkUnavailable name (Some cause) (registryAt s)) as [r y] eqn:E.
  intros [= <- <-]. simpl.
  assert (placed s -> rtc reg_step (heapAt s, [registryAt s]) (heapAt s, [r])) as Hsteps.
  { intros Hp. apply rtc_once. by apply (step_mark 0 name (Some cause) (heapAt s) [registryAt s] (registryAt s) r y). }
  split.
  { constructor; simpl; try done.
    - intros Hp. eapply reg_steps_inv; [by apply Hsteps|done].
    - intros Hp. destruct (reg_steps_inv _ _ (Hsteps Hp) Hp) as [_ Hg].
      destruct (Hg 0%nat (registryAt s) eq_refl) as (r2 & [= <-] & Hext). done. }
  do 3 (split; [done|]). revert E. unfold MarkUnavailable. case_bool_decide as Hne; [intros [= <- <-]; split; [done|by left]|].
  unfold nameError. destruct (Reserved (registryAt s) name) eqn:Hres; [intros [= <- <-]; split; [done|by right; left]|].
  unfold Has. repeat case_bool_decide; cbn [orb]; intros [= <- <-]; cbn [byName unavailable]; (split; [intros n Hn; rewrite ?lookup_insert_ne by done; done|]); try tauto.
  split; [done|]. split; [done|]. by rewrite lookup_insert_eq.
Qed.

(** A step that returns what it was given and leaves the registry alone. *)
Lemma loads_release s s1 f : (placed s -> placed s1) -> registryAt s1 = registryAt s -> (placed s -> heap_keeps (heapAt s) (heapAt s1)) -> dbA s1 = dbA s ->
  ad_releases s1 = ad_releases s -> ad_released s1 = ad_released s -> (ad_built s <= ad_built s1)%nat -> option_list f = newlyBuilt s s1 ->
  loads s (fst (release f s1)) /\ loads s (fst (keep f s1)).
Proof.
  intros Hp Hr Hh Hd Hk Hre Hb Hf. assert (ad_built s1 = ad_built s + (ad_built s1 - ad_built s))%nat as Hsum by lia.
  rewrite Hr in Hp. split; constructor; simpl; rewrite ?Hd, ?Hr; try done; unfold balanced; simpl; intros Hbal; rewrite Hsum, Hk, Hre.
  - rewrite <- (app_nil_r (ad_releases s)). apply balanced_keep; [done|]. by rewrite Hf.
  - rewrite <- (app_nil_r (ad_released s)). apply balanced_keep; [done|]. by rewrite app_nil_r.
Qed.

Lemma factory_answer name spec s s1 p f err : callFactory factory name spec s = (s1, Ok (p, f, err)) -> servable spec ->
  err = None /\ checkPlacer p spec (heapAt s1) = None.
Proof.
  intros Hr Hs. apply bind_inv in Hr as (s0 & t & Ht & Hr). injection Ht as <- <-. unfold askFactory in Hr. simpl in Hr.
  destruct (factory _ name spec (heapAt s)) as [h fr] eqn:E. injection Hr as <- <- <- <-. simpl. by eapply Hs.
Qed.

(** A name that is taken is refused, and nothing changes. *)
Lemma addPlacer_taken name ptr s po : placers (heapAt s) !! ptr = Some po ->
  name = EmptyString \/ Reserved (registryAt s) name = true \/ Has (registryAt s) name = true ->
  exists e, addPlacer name (Some ptr) s = (s, Err e) /\ (errors_Is e ErrHarnessExists = true \/ name = EmptyString).
Proof.
  intros Hpo Hn. assert (forall h r, sv_place (ad_service s) = sv_place (ad_service s) -> registryAt s = r -> heapAt s = h ->
    setService (mkServiceState (sv_place (ad_service s)) r h) s = s) as Hsame.
  { intros h r _ <- <-. unfold setService. by destruct s as [[] ? ? ?]. }
  unfold addPlacer, Registry.Add. case_bool_decide as Hne; [rewrite Hsame by done; eexists; split; [done|by right]|].
  destruct Hn as [?|Hn]; [done|]. unfold nameError, Has in *. destruct (Reserved (registryAt s) name).
  { rewrite Hsame by done. eexists. split; [done|by left]. }
  destruct Hn as [?|Hn]; [done|]. apply orb_true_iff in Hn.
  destruct (bool_decide (byName (registryAt s) !! name <> None)).
  { rewrite Hsame by done. eexists. split; [done|by left]. }
  destruct Hn as [?| ->]; [done|]. rewrite Hsame by done. eexists. split; [done|by left].
Qed.

Lemma load_inv rec s s' x : placed s -> load factory rec s = (s', x) ->
  loads s s' /\ (forall n, n <> hr_Name rec -> Has (registryAt s') n = Has (registryAt s) n) /\
  match x with
  | Ok _ => Has (registryAt s) (hr_Name rec) = false /\ Has (registryAt s') (hr_Name rec) = true /\ loadedAs s' (hr_Name rec) (hr_Spec rec)
  | Err _ => hr_Name rec = EmptyString \/ Reserved (registryAt s) (hr_Name rec) = true \/ Has (registryAt s) (hr_Name rec) = true
  end.
Proof.
  intros Hp. unfold load. set (name := hr_Name rec).
  assert (forall s1 cause z, unavailable_ name cause s1 = (s', z) -> loads s s1 -> registryAt s1 = registryAt s ->
    (forall sp, storedSpec (hr_Spec rec) = Ok sp -> ~ servable sp) ->
    loads s s' /\ (forall n, n <> name -> Has (registryAt s') n = Has (registryAt s) n) /\
    match z with
    | Ok _ => Has (registryAt s) name = false /\ Has (registryAt s') name = true /\ loadedAs s' name (hr_Spec rec)
    | Err _ => name = EmptyString \/ Reserved (registryAt s) name = true \/ Has (registryAt s) name = true
    end) as Hmark.
  { intros s1 cause z (Hl & _ & _ & _ & Hn & Hz)%unavailable_inv Hl1 Hr1 Hns. rewrite Hr1 in *. split; [by transitivity s1|]. split; [done|].
    destruct z; [|done]. destruct Hz as (_ & Hh & Hu). split; [done|]. split; [|left; split; [by exists cause|done]].
    unfold Has. rewrite Hu. by rewrite (bool_decide_eq_true_2 (Some cause <> None)), orb_true_r. }
  destruct (storedSpec (hr_Spec rec)) as [spec|err] eqn:Hsp; [|intros Hr; by eapply Hmark].
  intros (s1 & y & Hcall & Hr)%bind_inv.
  pose proof Hcall as (Hreg & Hdb & Hm & Hk & Hre & Hb & p & f & err & -> & Hf & Hptr)%(callFactory_inv factory).
  assert (placed s1) as Hp1. { rewrite Hreg. eapply reg_steps_inv; [by apply makes_steps|done]. }
  destruct (loads_release s s1 f) as [Hlr Hlk]; try done; [intros _; apply makes_keeps; [apply Hp|done]|].
  unfold heapOf in Hr. apply bind_inv in Hr as (s2 & h & [= <- <-] & Hr).
  assert (forall e, (do! release f in unavailable_ name e) s1 = (s', x) -> ~ servable spec ->
    loads s s' /\ (forall n, n <> name -> Has (registryAt s') n = Has (registryAt s) n) /\
    match x with
    | Ok _ => Has (registryAt s) name = false /\ Has (registryAt s') name = true /\ loadedAs s' name (hr_Spec rec)
    | Err _ => name = EmptyString \/ Reserved (registryAt s) name = true \/ Has (registryAt s) name = true
    end) as Hgive.
  { intros e (s2 & y & Hrel & Hr')%bind_inv Hns. injection Hrel as <- <-. eapply Hmark; [exact Hr'|done|done|]. by intros sp [= <-]. }
  destruct (match err with None => checkPlacer p spec (heapAt s1) | Some _ => err end) as [e|] eqn:Ee.
  { apply (Hgive e Hr). intros Hs. destruct (factory_answer _ _ _ _ _ _ _ Hcall Hs) as [-> Hc]. congruence. }
  destruct err as [err|]; [done|]. apply checkPlacer_None in Ee as (ptr & -> & Hfor). destruct (Hptr ptr eq_refl) as [Hle Hin].
  apply bind_inv in Hr as (s2 & y & (z & Ha & ->)%try_inv & Hr).
  assert ((name = EmptyString \/ Reserved (registryAt s) name = true \/ Has (registryAt s) name = true) \/
    (name <> EmptyString /\ Reserved (registryAt s) name = false /\ Has (registryAt s) name = false)) as [Htaken|(Hne & Hres & Hhas)].
  { destruct (decide (name = EmptyString)), (Reserved (registryAt s) name), (Has (registryAt s) name); tauto. }
  - destruct Hin as [po Hpo]. rewrite <- Hreg in Htaken. destruct (addPlacer_taken name ptr s1 po Hpo Htaken) as (e & Ha' & He).
    rewrite Ha in Ha'. injection Ha' as -> ->. rewrite Hreg in Htaken. apply bind_inv in Hr as (s3 & y & Hrel & Hr).
    injection Hrel as <- <-. destruct (errors_Is e ErrHarnessExists) eqn:Hex.
    + injection Hr as <- <-. split; [exact Hlr|]. simpl. by rewrite Hreg.
    + destruct He as [|He]; [done|]. apply unavailable_inv in Hr as (Hl & _ & _ & _ & Hn & Hz).
      split; [etransitivity; [exact Hlr|exact Hl]|]. simpl in Hn, Hz. rewrite Hreg in Hn, Hz. split; [done|].
      destruct x as [[]|]; [|done]. by destruct Hz as [Hne _].
  - destruct (addPlacer_new name ptr s s1 spec) as (s3 & Ha' & Hd3 & Hk3 & Hb3 & Hre3 & Hp3 & Hext & Hfo & Hfor3 & Hr3 & Hh3); try done.
    rewrite Ha in Ha'. injection Ha' as -> ->. unfold keep in Hr. injection Hr as <- <-. simpl.
    split; [|split; [|split; [done|split]]].
    + destruct Hlk as [_ _ _ _ Hheap Hbal]. constructor; simpl; rewrite ?Hd3, ?Hdb; try done.
      * intros _. rewrite Hh3. etransitivity; [by apply Hheap|apply join_keeps].
      * intros Hb0. specialize (Hbal Hb0). unfold balanced in *. simpl in *. by rewrite Hk3, Hre3, Hb3.
    + intros n Hn. rewrite Hr3. unfold Has. simpl. by rewrite lookup_insert_ne.
    + rewrite Hr3. unfold Has. simpl. by rewrite lookup_insert_eq, bool_decide_eq_true_2.
    + right. exists spec, ptr. split; [done|]. simpl. split; [rewrite Hr3; apply lookup_insert_eq|exact Hfor3].
Qed.

(** ** One page *)

Lemma Reserved_loads s s' n : placed s -> loads s s' -> Reserved (registryAt s') n = Reserved (registryAt s) n.
Proof. intros Hp Hl. destruct (ld_extends _ _ Hl Hp) as (_ & _ & Hs & Hr & _). unfold Reserved. by rewrite Hs, Hr. Qed.

(** A name that startup cannot give a place of its own. *)
Definition takenName (r : Registry) (name : string) : Prop :=
  name = EmptyString \/ Reserved r name = true \/ Has r name = true.

Lemma eachRecord_inv recs : NoDup (map hr_Name recs) -> forall s s' x, placed s -> eachRecord (load factory) recs s = (s', x) ->
  loads s s' /\ (forall n, n ∉ map hr_Name recs -> Has (registryAt s') n = Has (registryAt s) n) /\
  match x with
  | Ok _ => forall rec, rec ∈ recs -> Has (registryAt s) (hr_Name rec) = false /\ Has (registryAt s') (hr_Name rec) = true /\ loadedAs s' (hr_Name rec) (hr_Spec rec)
  | Err _ => exists rec, rec ∈ recs /\ takenName (registryAt s) (hr_Name rec)
  end.
Proof.
  induction recs as [|rec recs IH]; intros Hnd s s' x Hp; cbn [eachRecord map].
  { intros [= <- <-]. split; [done|]. split; [done|]. by intros rec ?%not_elem_of_nil. }
  cbn [map] in Hnd. apply NoDup_cons in Hnd as [Hnin Hnd].
  intros (s1 & y & (Hl1 & Hn1 & Hy)%load_inv & Hr)%bind_inv; [|done].
  destruct y as [[]|e].
  2: { destruct Hr as [-> ->]. split; [done|]. split; [intros n Hn; apply Hn1; set_solver|]. exists rec. split; [by left|done]. }
  pose proof (ld_placed _ _ Hl1 Hp) as Hp1. destruct (IH Hnd _ _ _ Hp1 Hr) as (Hl2 & Hn2 & Hx).
  split; [by transitivity s1|]. split; [intros n Hn; rewrite Hn2, Hn1; [done|set_solver|set_solver]|].
  assert (forall rec', rec' ∈ recs -> Has (registryAt s1) (hr_Name rec') = Has (registryAt s) (hr_Name rec')) as Hothers.
  { intros rec' Hin. apply Hn1. intros E. apply Hnin. rewrite <- E. change (map hr_Name) with (fmap (M := list) hr_Name).
    apply list_elem_of_fmap. by exists rec'. }
  destruct x as [[]|e].
  - destruct Hy as (Hh & Hh1 & Hla). intros rec' [->|Hin]%elem_of_cons.
    + split; [done|]. rewrite Hn2 by done. split; [done|]. by eapply loadedAs_loads.
    + destruct (Hx _ Hin) as (Ha & Hb & Hc). by rewrite Hothers in Ha.
  - destruct Hx as (rec' & Hin & Ht). exists rec'. split; [by right|]. unfold takenName in *.
    by rewrite (Reserved_loads s s1), Hothers in Ht.
Qed.

Lemma listPage_inv after s s' x : onStoreA (ListHarnesses (mkHarnessListOptions after MaxPageSize true)) s = (s', x) ->
  loads s s' /\ registryAt s' = registryAt s /\
  match x with
  | Ok recs => recs = take 500 (recordsAfter true after (tablesOf s))
  | Err _ => exists n e, fault n = Some e
  end.
Proof.
  intros [Hm Ha]%onStoreA_inv. unfold ListHarnesses in Hm. cbn [Limit] in Hm. unfold MaxPageSize in Hm. cbn [Z.leb Z.compare] in Hm.
  apply bind_inv in Hm as (d & y & (z & Hsel & ->)%wrapErr_inv & Hr). pose proof Hsel as (Hs & Ht & Hz)%select_inv.
  destruct Ha as [Hreg Hh Hk Hb Hre].
  assert (dbA s' = d -> loads s s') as Hloads.
  { intros Hd. constructor; rewrite ?Hd, ?Hreg, ?Hh; try done. unfold balanced. by rewrite Hk, Hb, Hre. }
  destruct z as [rows|e].
  - destruct Hz as [[= ->]|[? [=]]]. unfold mret, M_ret in Hr. injection Hr as Hd <-. split; [by apply Hloads|]. split; [done|].
    rewrite <- firstn_map. reflexivity.
  - destruct Hr as [Hd ->]. split; [by apply Hloads|]. split; [done|]. unfold select, stmt in Hsel.
    destruct (fault (ticks (dbA s))) as [e'|] eqn:Ef; [by eexists _, _|]. discriminate Hsel.
Qed.

(** ** All pages *)

Lemma names_of_records after t name : name ∈ map hr_Name (recordsAfter true after t) <-> before after name /\ is_Some (t_harnesses t !! name).
Proof.
  rewrite records_names. split.
  - intros ([n row] & -> & (Hr & Hb & _)%elem_of_rows)%list_elem_of_fmap. simpl. split; [done|by eexists].
  - intros [Hb [row Hr]]. apply list_elem_of_fmap. exists (name, row). split; [done|]. apply elem_of_rows. auto.
Qed.
Lemma elem_of_records after t rec : rec ∈ recordsAfter true after t <-> exists row, t_harnesses t !! hr_Name rec = Some row /\
  before after (hr_Name rec) /\ rec = scanHarness (hr_Name rec) row.
Proof.
  unfold recordsAfter. change (map ?f) with (fmap (M := list) f). rewrite list_elem_of_fmap. split.
  - intros ([n row] & -> & (Hr & Hb & _)%elem_of_rows). by exists row.
  - intros (row & Hr & Hb & E). exists (hr_Name rec, row). split; [done|]. apply elem_of_rows. auto.
Qed.

(** A full page ends in the name the next one starts behind. *)
Lemma full_page after t : (500 <= length (recordsAfter true after t))%nat -> exists l rec tail,
  recordsAfter true after t = (l ++ [rec]) ++ tail /\ take 500 (recordsAfter true after t) = l ++ [rec] /\
  (forall r, r ∈ l ++ [rec] -> hr_Name r = hr_Name rec \/ before (hr_Name r) (hr_Name rec)) /\
  (forall r, r ∈ tail -> r ∈ recordsAfter true (hr_Name rec) t) /\
  (length (recordsAfter true (hr_Name rec) t) < length (recordsAfter true after t))%nat /\
  (forall r, r ∈ recordsAfter true (hr_Name rec) t -> r ∈ recordsAfter true after t).
Proof.
  set (R := recordsAfter true after t). intros Hlen.
  assert (length (take 500 R) = 500%nat) as H500 by (rewrite length_take; lia).
  destruct (take 500 R) as [|rec l _] eqn:E using rev_ind; [discriminate H500|]. clear H500.
  exists l, rec, (drop 500 R). assert (R = (l ++ [rec]) ++ drop 500 R) as HR by by rewrite <- E, take_drop.
  split; [done|]. split; [done|].
  assert (StronglySorted before (map hr_Name R)) as Hs by (unfold R; rewrite records_names; apply rows_sorted).
  assert (rec ∈ R) as Hin by (rewrite HR; set_solver).
  rewrite HR, <- app_assoc, map_app in Hs. cbn [app map] in Hs. apply sorted_split in Hs as (_ & Hl & Ht & _).
  assert (forall r (k : list HarnessRecord), r ∈ k -> hr_Name r ∈ map hr_Name k) as Hmap.
  { intros r k Hr. change (map hr_Name) with (fmap (M := list) hr_Name). apply list_elem_of_fmap. by exists r. }
  pose proof (proj1 (elem_of_records _ _ _) Hin) as (rowl & Hrowl & Hbl & _).
  assert (forall r, r ∈ recordsAfter true (hr_Name rec) t -> r ∈ R) as Hsub.
  { intros r (row & Hr & Hb & Er)%elem_of_records. apply elem_of_records. exists row. split; [done|]. split; [|done].
    by eapply before_trans. }
  split; [|split; [|split; [|done]]].
  - intros r [Hr|Hr%list_elem_of_singleton]%elem_of_app; [right|left; by subst]. apply Hl, Hmap, Hr.
  - intros r Hr. assert (r ∈ R) as HrR by (rewrite HR; set_solver). apply elem_of_records in HrR as (row & Hrow & _ & Er).
    apply elem_of_records. exists row. split; [done|]. split; [|done]. apply Ht, Hmap, Hr.
  - rewrite <- (length_map hr_Name), <- (length_map hr_Name R).
    apply (submseteq_length (hr_Name rec :: map hr_Name (recordsAfter true (hr_Name rec) t)) (map hr_Name R)), NoDup_submseteq.
    + apply NoDup_cons. split; [rewrite names_of_records; intros [Hb _]; by apply before_irrefl in Hb|].
      rewrite records_names. apply sorted_NoDup, rows_sorted.
    + intros n [->|Hn]%elem_of_cons; [by apply Hmap|]. apply names_of_records in Hn as [Hb Hr]. apply names_of_records.
      split; [by eapply before_trans|done].
Qed.

Lemma forEachRegistration_inv fuel : forall after s s' x, placed s -> forEachRegistration fuel after (load factory) s = (s', x) ->
  loads s s' /\
  match x with
  | Ok _ => forall rec, rec ∈ recordsAfter true after (tablesOf s) ->
      Has (registryAt s) (hr_Name rec) = false /\ Has (registryAt s') (hr_Name rec) = true /\ loadedAs s' (hr_Name rec) (hr_Spec rec)
  | Err _ => (exists n e, fault n = Some e) \/ (exists rec, rec ∈ recordsAfter true after (tablesOf s) /\ takenName (registryAt s) (hr_Name rec)) \/
      (fuel <= length (recordsAfter true after (tablesOf s)))%nat
  end.
Proof.
  induction fuel as [|fuel IH]; intros after s s' x Hp; cbn [forEachRegistration].
  { intros [= <- <-]. split; [done|]. right; right. lia. }
  intros (s1 & y & (Hl1 & Hr1 & Hy)%listPage_inv & Hr)%bind_inv.
  destruct y as [recs|e]; [|destruct Hr as [-> ->]; split; [done|by left]].
  pose proof (ld_placed _ _ Hl1 Hp) as Hp1. set (R := recordsAfter true after (tablesOf s)) in *.
  assert (NoDup (map hr_Name R)) as Hnd by (unfold R; rewrite records_names; apply sorted_NoDup, rows_sorted).
  assert (NoDup (map hr_Name recs)) as Hndp.
  { rewrite Hy, <- firstn_map. eapply sublist_NoDup; [exact Hnd|]. apply sublist_take. }
  apply bind_inv in Hr as (s2 & y & Hpage & Hr). apply (eachRecord_inv _ Hndp _ _ _ Hp1) in Hpage as (Hl2 & Hn2 & Hx2).
  assert (loads s s2) as Hl by by transitivity s1. rewrite Hr1 in *.
  destruct y as [[]|e].
  2: { destruct Hr as [-> ->]. split; [done|]. right; left. destruct Hx2 as (rec & Hin & Ht). exists rec. split; [|done].
       eapply elem_of_sublist; [exact Hin|]. rewrite Hy. apply sublist_take. }
  destruct (Z.ltb_spec (Z.of_nat (length recs)) MaxPageSize) as [Hlt|Hge]; unfold MaxPageSize in *.
  - injection Hr as <- <-. split; [done|]. intros rec Hin. apply Hx2. rewrite Hy, length_take in Hlt. rewrite Hy, take_ge by lia. exact Hin.
  - destruct (full_page after (tablesOf s)) as (l & last & tail & HR & Htk & Hpg & Htl & Hlen & Hsub).
    { rewrite Hy, length_take in Hge. unfold R in *. lia. }
    fold R in HR, Htk, Hlen, Hsub. rewrite Htk in Hy. rewrite Hy, last_snoc in Hr. rewrite Hy in *.
    destruct (IH _ _ _ _ (ld_placed _ _ Hl Hp) Hr) as [Hl3 Hx]. split; [by transitivity s2|]. rewrite (ld_tables _ _ Hl) in Hx.
    assert (forall rec, rec ∈ recordsAfter true (hr_Name last) (tablesOf s) -> Has (registryAt s2) (hr_Name rec) = Has (registryAt s) (hr_Name rec)) as Hothers.
    { intros rec (row & _ & Hb & _)%elem_of_records. apply Hn2. change (map hr_Name) with (fmap (M := list) hr_Name).
      intros (r & E & Hin)%list_elem_of_fmap. rewrite E in Hb. destruct (Hpg r Hin) as [E'|Hb']; [rewrite E' in Hb|];
        [by apply before_irrefl in Hb|]. eapply before_irrefl, before_trans; [exact Hb|exact Hb']. }
    destruct x as [[]|e].
    + intros rec Hin. rewrite HR in Hin. apply elem_of_app in Hin as [Hin|Hin%Htl].
      * destruct (Hx2 rec Hin) as (Ha & Hb & Hc). split; [done|]. split.
        -- destruct (ld_extends _ _ Hl3 (ld_placed _ _ Hl Hp)) as (He1 & He2 & _). unfold Has in *. apply orb_true_iff in Hb as [Hb|Hb];
             apply bool_decide_eq_true in Hb; apply orb_true_iff; [left|right]; apply bool_decide_eq_true.
           ++ destruct (byName (registryAt s2) !! hr_Name rec) eqn:Eb; [|done]. by rewrite (lookup_weaken _ _ _ _ Eb He1).
           ++ destruct (unavailable (registryAt s2) !! hr_Name rec) eqn:Eb; [|done]. by rewrite (lookup_weaken _ _ _ _ Eb He2).
        -- eapply loadedAs_loads; [|exact Hl3|done]. by apply Hl.
      * destruct (Hx rec Hin) as (Ha & Hb & Hc). by rewrite (Hothers rec Hin) in Ha.
    + destruct Hx as [Hf|[(rec & Hin & Ht)|Hf]]; [by left| |right; right; lia].
      right; left. exists rec. split; [by apply Hsub|]. unfold takenName in *. by rewrite (Reserved_loads s s2), Hothers in Ht.
Qed.

(** ** The constructor *)

Lemma elem_of_ReservedNames r name : name ∈ ReservedNames r <-> Reserved r name = true.
Proof.
  unfold ReservedNames, sortStrings, Reserved, Static. rewrite merge_sort_Permutation, elem_of_app, elem_of_StaticNames, list_elem_of_filter, elem_of_elements.
  rewrite orb_true_iff, !bool_decide_eq_true, negb_True, bool_decide_spec. destruct (decide (name ∈ static r)); tauto.
Qed.

Lemma reserveLoop_free at_ names : faultFree -> forall d, (forall n, n ∈ names -> n <> EmptyString /\ t_harnesses (tables d) !! n = None) ->
  exists d', reserveLoop at_ names d = (d', Ok tt).
Proof.
  intros Hfree. induction names as [|n names IH]; intros d Hn; cbn [reserveLoop]; [by eexists|].
  destruct (Hn n ltac:(by left)) as [Hne Hnone]. rewrite bool_decide_eq_false_2 by done.
  unfold lookupHarness, harnessByName, wrapErr, try, select, stmt, execute, mbind, M_bind. rewrite Hfree. simpl. rewrite Hnone. simpl.
  unfold stmt. rewrite Hfree. simpl. apply IH. intros m Hm. destruct (Hn m ltac:(by right)) as [Hne' Hnone']. split; [done|].
  simpl. unfold insertReserved. by destruct (t_reserved (tables d) !! n).
Qed.

Lemma Reserve_free names d : faultFree -> (forall n, n ∈ names -> n <> EmptyString /\ t_harnesses (tables d) !! n = None) ->
  exists d', ReserveHarnessNames names d = (d', Ok tt).
Proof.
  intros Hfree Hn. unfold ReserveHarnessNames, wrapErr, deferRollback, Begin, now, Commit, mbind, M_bind. rewrite Hfree. simpl.
  destruct (reserveLoop_free (clock (S (ticks d))) names Hfree (mkDB (tables d) (Some (tables d)) (S (S (ticks d))))) as [d' E]; [exact Hn|].
  rewrite E, Hfree. simpl. by eexists.
Qed.

Lemma records_size after t : (length (recordsAfter true after t) <= size (t_harnesses t))%nat.
Proof.
  unfold recordsAfter, rowsAfter. rewrite length_map, (orderBy_Permutation nameLeb). etransitivity; [apply length_filter|].
  by rewrite length_map_to_list.
Qed.

Lemma aside_placed s s' : aside s s' -> placed s -> placed s'.
Proof. intros [Hr Hh _ _ _]. by rewrite Hr, Hh. Qed.
Lemma aside_balanced s s' : aside s s' -> balanced s -> balanced s'.
Proof. intros [_ _ Hk Hb Hre]. unfold balanced. by rewrite Hk, Hb, Hre. Qed.

(** The state of the registry between two points: names and placers are kept, release functions counted. *)
Record advances (s s' : AdminState) : Prop := {
  av_db : db_ok (dbA s) -> rtc db_step (dbA s) (dbA s');
  av_placed : placed s -> placed s';
  av_extends : placed s -> extends (registryAt s) (registryAt s');
  av_heap : placed s -> heap_keeps (heapAt s) (heapAt s');
  av_balanced : balanced s -> balanced s';
}.
#[export] Instance advances_preorder : PreOrder advances.
Proof.
  split; [by intros s|]. intros s1 s2 s3 [Hd1 ? ? ? ?] [Hd2 ? ? ? ?]. constructor; eauto.
  - intros Hok. etransitivity; [by apply Hd1|]. apply Hd2. eapply db_steps_ok; [exact Hok|by apply Hd1].
  - intros Hp. etransitivity; eauto.
  - intros Hp. etransitivity; eauto.
Qed.
Lemma loads_advances s s' : loads s s' -> advances s s'.
Proof. intros [Hs Ht ? ? ? ?]. constructor; try done. intros _. apply rtc_once. by apply call_reads. Qed.
Lemma aside_advances s s' : aside s s' -> (db_ok (dbA s) -> db_step (dbA s) (dbA s')) -> advances s s'.
Proof.
  intros Ha Hd. constructor; [intros Hok; by apply rtc_once, Hd|by apply aside_placed| | |by apply aside_balanced];
    intros _; destruct Ha as [Hr Hh _ _ _]; rewrite ?Hr, ?Hh; done.
Qed.

Lemma reserve_inv s s' x : db_ok (dbA s) -> ReserveStaticHarnessNames s = (s', x) -> aside s s' /\ db_step (dbA s) (dbA s') /\
  same_sessions (tablesOf s) (tablesOf s') /\ t_harnesses (tablesOf s') = t_harnesses (tablesOf s) /\
  match x with
  | Ok _ => forall name, Reserved (registryAt s) name = true -> is_Some (t_reserved (tablesOf s') !! name) /\ t_harnesses (tablesOf s') !! name = None
  | Err _ => tablesOf s' = tablesOf s
  end /\
  (faultFree -> (forall name, Reserved (registryAt s) name = true -> name <> EmptyString /\ t_harnesses (tablesOf s) !! name = None) -> x = Ok tt).
Proof.
  intros Hok. unfold ReserveStaticHarnessNames, registryOf. intros (s0 & r & [= <- <-] & [Hm Ha]%onStoreA_inv)%bind_inv.
  apply wrapErr_inv in Hm as (y & Hm & ->). pose proof (call_Reserve _ _ _ _ Hm) as Hst.
  pose proof (db_step_ok _ _ Hok Hst) as Hok'. split; [done|]. split; [done|].
  pose proof Hm as [_ Hy]%Reserve_inv; [|apply Hok]. destruct y as [[]|e].
  - destruct Hy as ([Hs _] & Hy & Hh). split; [done|]. split; [done|]. split; [|done]. intros name Hr%elem_of_ReservedNames.
    destruct (Hy name Hr) as [Hin _]. split; [done|]. destruct (ok_names _ Hok' name) as [Hn|]; [|done]. rewrite Hn in Hin. by destruct Hin.
  - rewrite Hy. split; [apply same_sessions_refl|]. split; [done|]. split; [done|]. intros Hfree Hn.
    destruct (Reserve_free (ReservedNames (registryAt s)) (dbA s) Hfree) as [d E]; [|congruence].
    intros n Hin%elem_of_ReservedNames. by apply Hn.
Qed.

(** What a successful start leaves behind. *)
Record started (s s' : AdminState) : Prop := {
  st_reserved : forall name, Reserved (registryAt s) name = true ->
    is_Some (t_reserved (tablesOf s') !! name) /\ t_harnesses (tablesOf s') !! name = None;
  st_loaded : forall name row, name <> EmptyString -> t_harnesses (tablesOf s) !! name = Some row ->
    Has (registryAt s) name = false /\ Has (registryAt s') name = true /\ loadedAs s' name (h_spec row);
}.
(** No name of the host is registered by somebody else. *)
Definition apart (s : AdminState) : Prop :=
  (forall name, Reserved (registryAt s) name = true -> name <> EmptyString /\ t_harnesses (tablesOf s) !! name = None) /\
  (forall name row, t_harnesses (tablesOf s) !! name = Some row -> Has (registryAt s) name = false).

Lemma close_advances s s2 s' x : loads s s2 -> Close s2 = (s', x) -> advances s s'.
Proof.
  intros Hl [= <- <-]. apply loads_advances in Hl. etransitivity; [exact Hl|]. constructor; simpl; try done.
  unfold balanced. simpl. intros <-. solve_Permutation.
Qed.

Lemma New_inv s s' x : host_ok s -> NewHarnessRegistry factory s = (s', x) ->
  advances s s' /\ same_sessions (tablesOf s) (tablesOf s') /\ t_harnesses (tablesOf s') = t_harnesses (tablesOf s) /\
  match x with
  | Ok _ => started s s'
  | Err _ => ad_releases s = [] -> ad_releases s' = []
  end /\
  (faultFree -> apart s -> x = Ok tt).
Proof.
  intros [Hok Hp]. unfold NewHarnessRegistry. intros (s1 & y & (Ha & Hst & Hsame & Hh & Hy & Hlive)%reserve_inv & Hr)%bind_inv; [|done].
  assert (advances s s1) as Hadv by by apply aside_advances. pose proof (aside_placed _ _ Ha Hp) as Hp1.
  destruct Ha as [Hreg1 Hh1 Hk1 Hb1 Hre1]. destruct y as [[]|e].
  2: { destruct Hr as [-> ->]. split; [done|]. split; [done|]. split; [done|]. split; [congruence|]. intros Hf [Hn _]. by specialize (Hlive Hf Hn). }
  unfold startupFuel in Hr. apply bind_inv in Hr as (s2 & y & [= <- <-] & Hr).
  apply bind_inv in Hr as (s2 & y & (z & Hall & ->)%try_inv & Hr). pose proof Hall as [Hl Hz]%forEachRegistration_inv; [|done]. rewrite Hreg1 in Hz.
  rewrite <- Hh. destruct z as [[]|e].
  - injection Hr as <- <-. split; [etransitivity; [exact Hadv|by apply loads_advances]|]. rewrite (ld_tables _ _ Hl).
    split; [done|]. split; [done|]. split; [|done]. constructor; [by rewrite (ld_tables _ _ Hl)|].
    intros name row Hne Hrow. apply (Hz (scanHarness name row)), elem_of_records. exists row. rewrite Hh. split; [done|]. split; [by destruct name|done].
  - apply bind_inv in Hr as (s3 & y & Hc & Hr). pose proof (close_advances _ _ _ _ Hl Hc) as Hadv2. injection Hc as <- <-. injection Hr as <- <-.
    split; [by transitivity s1|]. simpl. rewrite (ld_tables _ _ Hl). split; [done|]. split; [done|]. split; [done|].
    intros Hf [Hn Hno]. exfalso. destruct Hz as [(n & e' & Hfault)|[(rec & Hrec & Ht)|Hlen]].
    + by rewrite Hf in Hfault.
    + apply elem_of_records in Hrec as (row & Hrow & Hb & _). rewrite Hh in Hrow. destruct Ht as [Ht|[Ht|Ht]].
      * by apply before_nonempty in Hb.
      * destruct (Hn _ Ht). congruence.
      * by rewrite (Hno _ _ Hrow) in Ht.
    + pose proof (records_size EmptyString (tablesOf s1)). lia.
Qed.
Lemma registered_ok name spec s s' x : host_ok s -> admin_RegisterHarness factory name spec s = (s', x) ->
  host_ok s' /\ (placed s -> extends (registryAt s) (registryAt s')).
Proof.
  intros Hok [[-> _]|(sp & c & Hname & Hw & Hres & -> & Hc & _ & Hr)]%register_request; [done|].
  apply validateSpec_whole in Hw. eapply registering_inv in Hr as (Hok' & _ & Hext & _); [|done..]. done.
Qed.

Lemma started_host s : host_ok s -> host_ok (fst (NewHarnessRegistry factory s)).
Proof.
  intros Hok. destruct (NewHarnessRegistry factory s) as [s' x] eqn:E. destruct (New_inv _ _ _ Hok E) as ([Hd Hp _ _ _] & _).
  destruct Hok as [Hdb Hpl]. split; [eapply db_steps_ok; [exact Hdb|by apply Hd]|by apply Hp].
Qed.
Lemma registered_host name spec s : host_ok s -> host_ok (fst (admin_RegisterHarness factory name spec s)).
Proof. intros Hok. destruct (admin_RegisterHarness factory name spec s) as [s' x] eqn:E. by destruct (registered_ok _ _ _ _ _ Hok E). Qed.
End Startup.

(** C21: Startup. The constructor of the registry reserves every static and configured name of the host in the
    database and then loads every stored registration, page by page. It never changes a session or a
    registration, keeps every harness the host already serves, and hands out or calls every release function
    exactly once. If it succeeds, no name of the host can be registered by anybody, every stored name
    was free here and is now either served by a new placer that expects the descriptor of its stored
    spec, or marked unavailable, which never happens to a spec that decodes and that the factory can
    serve. If it fails, everything it built is released. And it does succeed when the database answers
    and no stored registration has a name of this host: the pages end. *)
Theorem startup_exact `{Host} `{Encoding} `{Timestamppb} `{!ProtoCodec} `{Driver} `{PlacementHost} `{ServiceHost} `{SpecJson}
    `{!ProtoLaws} `{!DriverLaws} `{!SpecJsonLaws} (factory : PlacerFactory) `{!FactoryLaws factory} s s' x :
  host_ok s -> ad_releases s = [] -> balanced s -> NewHarnessRegistry factory s = (s', x) ->
  host_ok s' /\ balanced s' /\
  same_sessions (tables (w_log (ps_world (sv_place (ad_service s))))) (tables (w_log (ps_world (sv_place (ad_service s'))))) /\
  t_harnesses (tables (w_log (ps_world (sv_place (ad_service s'))))) = t_harnesses (tables (w_log (ps_world (sv_place (ad_service s))))) /\
  extends (sv_registry (ad_service s)) (sv_registry (ad_service s')) /\ heap_keeps (sv_heap (ad_service s)) (sv_heap (ad_service s')) /\
  match x with
  | Ok _ => started factory s s' /\ exclusive (sv_registry (ad_service s')) (tables (w_log (ps_world (sv_place (ad_service s')))))
  | Err _ => ad_releases s' = [] /\ ad_released s' ≡ₚ seq 0 (ad_built s')
  end /\
  (faultFree -> apart s -> x = Ok tt).
Proof.
  intros Hok Hk Hbal Hr. destruct (New_inv factory s s' x Hok Hr) as ([Hd Hp Hext Hh Hb] & Hs & Hrows & Hx & Hlive). pose proof Hok as [Hdb Hpl].
  specialize (Hext Hpl). specialize (Hb Hbal).
  split; [split; [eapply db_steps_ok; [exact Hdb|by apply Hd]|by apply Hp]|].
  split; [done|]. split; [done|]. split; [done|]. split; [done|]. split; [by apply Hh|]. split; [|done].
  destruct x as [[]|e].
  - split; [done|]. intros name Hn. destruct Hext as (_ & _ & Hst & _). rewrite Hst in Hn. apply (st_reserved _ _ _ Hx).
    unfold Reserved, Static. by rewrite (bool_decide_eq_true_2 _ Hn).
  - specialize (Hx Hk). split; [done|]. unfold balanced in Hb. by rewrite Hx in Hb.
Qed.

#[local] Existing Instance exampleHost.
#[local] Existing Instance exampleEncoding.
#[local] Existing Instance exampleTimestamppb.
#[local] Existing Instance exampleDriver.
#[local] Existing Instance examplePlacementHost.
#[local] Existing Instance exampleServiceHost.
#[local] Existing Instance exampleSpecJson.
#[local] Existing Instance exampleProtoLaws.
#[local] Existing Instance exampleDriverLaws.
#[local] Existing Instance exampleSpecJsonLaws.
#[local] Existing Instance exampleFactoryLaws.

Lemma exampleRegistered_ok : host_ok exampleRegistered.
Proof.
  exact (registered_host (exampleFactory examplePlacer) "zeta" (Some (exampleHarnessSpec "z")) _
    (registered_host (exampleFactory examplePlacer) "coder" (Some (exampleHarnessSpec "c")) _
      (started_host (exampleFactory examplePlacer) _ exampleAdmin_ok))).
Qed.

(** The host starts again, on the database that "coder" and "zeta" are registered in. *)
Definition restartedAdmin (s : AdminState) : AdminState :=
  mkAdminState (mkServiceState (sv_place (ad_service s)) exampleRegistry (fst exampleMade)) [] 0 [].
Lemma restartedAdmin_ok s : host_ok s -> host_ok (restartedAdmin s).
Proof. intros [Hdb _]. destruct exampleAdmin_ok as [_ Hp]. by split. Qed.

(** A row of the database, as far as a test can see. *)
Definition storedRow (name : string) (s : AdminState) : option HarnessRow := t_harnesses (tables (w_log (ps_world (sv_place (ad_service s))))) !! name.
Definition freeNames (s : AdminState) : bool :=
  forallb (fun name => match storedRow name s with None => negb (bool_decide (name = EmptyString)) | Some _ => false end)
    (ReservedNames (sv_registry (ad_service s))) &&
  forallb (fun row => negb (Has (sv_registry (ad_service s)) row.1)) (map_to_list (t_harnesses (tables (w_log (ps_world (sv_place (ad_service s))))))).
Lemma freeNames_apart s : freeNames s = true -> apart s.
Proof.
  unfold freeNames. rewrite andb_true_iff, !forallb_forall. intros [Hr Hh]. split.
  - intros name Hn%elem_of_ReservedNames%list_elem_of_In. specialize (Hr name Hn). unfold storedRow in Hr.
    destruct (t_harnesses _ !! name); [done|]. by apply negb_true_iff, bool_decide_eq_false in Hr.
  - intros name row Hrow%elem_of_map_to_list%list_elem_of_In. by apply Hh, negb_true_iff in Hrow.
Qed.

Lemma startup_exact_witness : exists s' row,
  NewHarnessRegistry (exampleFactory examplePlacer) (restartedAdmin exampleRegistered) = (s', Ok tt) /\
  storedRow "coder" (restartedAdmin exampleRegistered) = Some row /\ loadedAs (exampleFactory examplePlacer) s' "coder" (h_spec row).
Proof.
  assert (freeNames (restartedAdmin exampleRegistered) = true) as Hfree by by vm_compute.
  assert (is_Some (storedRow "coder" (restartedAdmin exampleRegistered))) as [row Hrow] by (vm_compute; by eexists).
  destruct (NewHarnessRegistry (exampleFactory examplePlacer) (restartedAdmin exampleRegistered)) as [s' x] eqn:E.
  pose proof (startup_exact (exampleFactory examplePlacer) (restartedAdmin exampleRegistered) s' x
    (restartedAdmin_ok _ exampleRegistered_ok) eq_refl (Permutation_refl _) E) as (_ & _ & _ & _ & _ & _ & Hx & Hlive).
  rewrite (Hlive (fun _ => eq_refl) (freeNames_apart _ Hfree)) in *. destruct Hx as [[_ Hloaded] _].
  exists s', row. split; [done|]. split; [done|]. by apply (Hloaded "coder"%string row).
Defined.
