(* ===== verification/HarnessHistory.v ===== *)
(** * The admin service over its whole life (theorems about [HarnessRegistry] as a system)

    Every handler moves the database by calls of its operations, only adds names and placers, and gives
    away no release function: what holds of a started registry then holds over every history of
    registrations, retirements, listings, requests of the Sessions service and calls of other processes. *)
From S2P Require Import Prelude GoErrors Api Canon EventLog Executions Approvals Harness Wire Sinks Controller Agents SessionGuard Placement Admission Registry Routing Tables Projection SqlLog SqlExample SqlStore SqlSessions SqlHarnesses SqlSystem Durable Paging GoJson Status Service ServiceFacts ServiceExample ServiceSessions ServiceHistory HarnessSpec HarnessAdmin HarnessNames HarnessExample HarnessListing HarnessRegistration HarnessStartup.
#[local] Open Scope Z_scope.

(** ** Computations whose steps keep to a relation *)

Section Along.
Context {S E : Type} (R : relation S) `{!PreOrder R}.
Definition along {A} (m : M S E A) : Prop := forall s s' x, m s = (s', x) -> R s s'.

Lemma along_ret {A} (a : A) : along (mret a).
Proof. by intros s s' x [= <- <-]. Qed.
Lemma along_throw {A} e : along (A := A) (throw e).
Proof. by intros s s' x [= <- <-]. Qed.
Lemma along_gets {A} (f : S -> A) : along (gets f).
Proof. by intros s s' x [= <- <-]. Qed.
Lemma along_check e : along (check e).
Proof. destruct e; [apply along_throw|apply along_ret]. Qed.
Lemma along_bind {A B} (m : M S E A) (f : A -> M S E B) : along m -> (forall a, along (f a)) -> along (m ≫= f).
Proof.
  intros Hm Hf s s' x (s1 & y & Hr1 & Hr)%bind_inv. transitivity s1; [by eapply Hm|].
  destruct y; [by eapply Hf|by destruct Hr as [-> _]].
Qed.
Lemma along_try {A} (m : M S E A) : along m -> along (try m).
Proof. intros Hm s s' x (y & Hy & _)%try_inv. by eapply Hm. Qed.
End Along.
Lemma along_orErr {S A} (R : relation S) f (m : M S goerr A) : along R m -> along R (orErr f m).
Proof. intros Hm s s' x. unfold orErr. destruct (m s) as [s1 y] eqn:E. intros [= <- _]. by eapply Hm. Qed.

Section History.
Context `{Host} `{Encoding} `{Timestamppb} `{!ProtoCodec} `{Driver} `{PlacementHost} `{ServiceHost} `{SpecJson}.
Context `{!ProtoLaws} `{!DriverLaws} `{!SpecJsonLaws}.
Variable factory : PlacerFactory.
Context `{!FactoryLaws factory}.

Abbreviation dbA s := (w_log (ps_world (sv_place (ad_service s)))).
Abbreviation tablesOf s := (tables (dbA s)).
Abbreviation registryAt s := (sv_registry (ad_service s)).
Abbreviation heapAt s := (sv_heap (ad_service s)).
Abbreviation placed s := (reg_inv (heapAt s, [registryAt s])).

(** ** What every computation keeps to *)

Definition bounded (h : Heap) : Prop := forall ptr, is_Some (placers h !! ptr) -> (ptr < nextObj h)%nat.
Definition heap_grows (h h' : Heap) : Prop := bounded h -> bounded h' /\ heap_keeps h h'.
#[export] Instance heap_grows_preorder : PreOrder heap_grows.
Proof.
  split; [by intros h Hb|]. intros h1 h2 h3 H12 H23 Hb. destruct (H12 Hb) as [Hb2 Hk]. destruct (H23 Hb2) as [Hb3 Hk2].
  split; [done|by transitivity h2].
Qed.
Lemma makes_grows h h' : rtc makes h h' -> heap_grows h h'.
Proof.
  induction 1 as [h|h h1 h' [p ->] _ IH]; [done|]. etransitivity; [|exact IH]. intros Hb. split.
  - intros ptr. simpl. destruct (decide (ptr = nextObj h)) as [->|Hne]; [lia|]. rewrite lookup_insert_ne by done. intros Hp%Hb. lia.
  - intros ptr po Hp. exists po. split; [|done]. simpl. pose proof (Hb ptr ltac:(by eexists)). by rewrite lookup_insert_ne by lia.
Qed.
Lemma join_grows ptr r h : heap_grows h (joinPlacer ptr r h).
Proof.
  intros Hb. split; [|apply join_keeps]. intros q. simpl. rewrite lookup_alter. case_decide as E; [|apply Hb].
  intros Hq. apply fmap_is_Some in Hq. rewrite E in *. by apply Hb.
Qed.

(** Calls of the store, more placers, more release functions. *)
Record steady (s s' : AdminState) : Prop := {
  sy_db : db_ok (dbA s) -> rtc db_step (dbA s) (dbA s');
  sy_heap : heap_grows (heapAt s) (heapAt s');
  sy_built : (ad_built s <= ad_built s')%nat;
}.
#[export] Instance steady_preorder : PreOrder steady.
Proof.
  split; [by intros s|]. intros s1 s2 s3 [Hd1 Hh1 Hb1] [Hd2 Hh2 Hb2]. constructor; [|by etransitivity|lia].
  intros Hok. etransitivity; [by apply Hd1|]. apply Hd2. eapply db_steps_ok; [exact Hok|by apply Hd1].
Qed.
Lemma aside_steady s s' : aside s s' -> (db_ok (dbA s) -> rtc db_step (dbA s) (dbA s')) -> steady s s'.
Proof. intros [Hr Hh _ Hb _] Hd. constructor; [done|by rewrite Hh|lia]. Qed.
Lemma steadily_store {A} (m : M DB goerr A) : (forall d d' r, m d = (d', r) -> db_step d d') -> along steady (onStoreA m).
Proof. intros Hm s s' x [Hr Ha]%onStoreA_inv. apply aside_steady; [done|]. intros _. by eapply rtc_once, Hm. Qed.
Lemma aside_store {A} (m : M DB goerr A) : along aside (onStoreA m).
Proof. by intros s s' x [_ Ha]%onStoreA_inv. Qed.
Lemma aside_place {A} (m : M (PState DB) goerr A) : along aside (onServiceA (onPlace m)).
Proof. intros s s' x. unfold onServiceA, onPlace. destruct (m _) as [p r]. by intros [= <- _]. Qed.
Lemma steadily_place {A} (m : M (PState DB) goerr A) : (forall p p' r, m p = (p', r) -> w_log (ps_world p') = w_log (ps_world p)) ->
  along steady (onServiceA (onPlace m)).
Proof.
  intros Hm s s' x. unfold onServiceA, onPlace. destruct (m (sv_place (ad_service s))) as [p r] eqn:E. intros [= <- _].
  constructor; simpl; [|done|done]. intros _. by rewrite (Hm _ _ _ E).
Qed.
Lemma steadily_release f : along steady (release f).
Proof. intros s s' x [= <- _]. by constructor. Qed.
Lemma steadily_keep f : along steady (keep f).
Proof. intros s s' x [= <- _]. by constructor. Qed.
Lemma steadily_factory name spec : along steady (callFactory factory name spec).
Proof.
  intros s s' x (_ & Hd & Hm & _ & _ & Hb & _)%(callFactory_inv factory). constructor; [by rewrite Hd|by apply makes_grows|done].
Qed.
Lemma steadily_addPlacer name p : along steady (addPlacer name p).
Proof.
  intros s s' x. unfold addPlacer. destruct (Registry.Add name p _ _) as [[r h] y] eqn:E. intros [= <- _].
  constructor; simpl; [done| |done]. revert E. unfold Registry.Add. repeat case_match; intros [= _ <- _]; try done. apply join_grows.
Qed.

Lemma Harness_reads name d d' r : Harness_ name d = (d', r) -> db_step d d'.
Proof. intros (Hs & Ht & _)%harnessByName_inv. by apply call_reads. Qed.
Lemma Listing_reads opts d d' r : ListHarnesses opts d = (d', r) -> db_step d d'.
Proof.
  unfold ListHarnesses. case_match; [intros [= <- _]; by apply call_reads|]. intros (d1 & y & (z & (Hs & Ht & _)%select_inv & ->)%wrapErr_inv & Hr)%bind_inv.
  destruct z; [unfold mret, M_ret in Hr; injection Hr as <- _|destruct Hr as [-> _]]; by apply call_reads.
Qed.
End History.

Create HintDb along.
#[export] Hint Resolve along_ret along_throw along_gets along_check along_try along_orErr aside_store aside_place steadily_release steadily_keep
  steadily_factory steadily_addPlacer steadily_store steadily_place Harness_reads Listing_reads call_Register call_Retire : along.
#[export] Hint Extern 0 (PreOrder _) => tc_solve : along.
(** One computation after the other, by cases on what is matched. *)
Ltac stepping := repeat (intros; first [tc_solve | solve [eauto with along] | apply along_bind | progress unfold registryOf, heapOf | case_match]).

Section Handlers.
Context `{Host} `{Encoding} `{Timestamppb} `{!ProtoCodec} `{Driver} `{PlacementHost} `{ServiceHost} `{SpecJson}.
Context `{!ProtoLaws} `{!DriverLaws} `{!SpecJsonLaws}.
Variable factory : PlacerFactory.
Context `{!FactoryLaws factory}.

Abbreviation dbA s := (w_log (ps_world (sv_place (ad_service s)))).
Abbreviation tablesOf s := (tables (dbA s)).
Abbreviation registryAt s := (sv_registry (ad_service s)).
Abbreviation heapAt s := (sv_heap (ad_service s)).
Abbreviation placed s := (reg_inv (heapAt s, [registryAt s])).

Lemma steadily_uid : along steady newHarnessUID.
Proof.
  assert (along steady (onServiceA (onPlace tickP))) as Htick by (apply steadily_place; by intros p p' r [= <- _]).
  unfold newHarnessUID. stepping.
Qed.
Lemma steadily_Register name spec : along steady (admin_RegisterHarness factory name spec).
Proof.
  assert (forall built, along steady (addBuilt name built)) as Hadd by (intros; unfold addBuilt; stepping).
  unfold admin_RegisterHarness, precheckSpec, buildPlacer. pose proof steadily_uid. stepping.
Qed.
Lemma steadily_observe out : along steady (admin_observe out).
Proof.
  assert (along steady (onServiceA (onPlace (called CallDescribe)))) as Hcall by (apply steadily_place; by intros p p' r [= <- _]).
  unfold admin_observe. stepping.
Qed.
Lemma steadily_Get name wantObserved : along steady (GetHarness name wantObserved).
Proof. unfold GetHarness. pose proof steadily_observe. stepping. Qed.
Lemma aside_Get name wantObserved : along aside (GetHarness name wantObserved).
Proof. unfold GetHarness, admin_observe. stepping. Qed.
Lemma aside_Retire name reason : along aside (admin_RetireHarness name reason).
Proof. unfold admin_RetireHarness. stepping. Qed.
Lemma aside_List size token incl : along aside (admin_ListHarnesses size token incl).
Proof. unfold admin_ListHarnesses. stepping. Qed.
Lemma steadily_Retire name reason : along steady (admin_RetireHarness name reason).
Proof. unfold admin_RetireHarness. stepping. Qed.
Lemma steadily_List size token incl : along steady (admin_ListHarnesses size token incl).
Proof. unfold admin_ListHarnesses. stepping. Qed.

(** ** Release functions *)

Lemma balanced_Register name spec s s' x : host_ok s -> admin_RegisterHarness factory name spec s = (s', x) -> balanced s -> balanced s'.
Proof.
  intros Hok Hr Hb. pose proof (sy_built _ _ (steadily_Register _ _ _ _ _ Hr)) as Hle.
  assert (ad_built s' = ad_built s + (ad_built s' - ad_built s))%nat as Hsum by lia.
  apply register_request in Hr as [[-> _]|(sp & c & Hname & Hw & Hres & -> & Hc & _ & Hr)]; [done|].
  apply validateSpec_whole in Hw. eapply registering_inv in Hr as (_ & _ & _ & Hx); [|done..]. unfold balanced. rewrite Hsum.
  destruct x as [[g o]|e]; [destruct Hx as [row [_ _ _ _ _ _ _ [Hre Hk] _]]|destruct Hx as [[_ _ Hk Hre] _]]; rewrite Hk, Hre.
  - rewrite <- (app_nil_r (ad_released s)). apply balanced_keep; [done|by rewrite app_nil_r].
  - rewrite <- (app_nil_r (ad_releases s)). by apply balanced_keep.
Qed.
(** ** Histories *)

Context `{ProtoJson}.
Variables (storeProject defaultProject : string).

(** A handler of this service, a request of the Sessions service, what running sessions do to the shared
    guards, or a call of another process on the database. *)
Inductive admin_step (s s' : AdminState) : Prop :=
  | admin_New x : NewHarnessRegistry factory s = (s', x) -> admin_step s s'
  | admin_Register name spec x : admin_RegisterHarness factory name spec s = (s', x) -> admin_step s s'
  | admin_Get name wantObserved x : GetHarness name wantObserved s = (s', x) -> admin_step s s'
  | admin_List size token incl x : admin_ListHarnesses size token incl s = (s', x) -> admin_step s s'
  | admin_Retire name reason x : admin_RetireHarness name reason s = (s', x) -> admin_step s s'
  | admin_Close x : Close s = (s', x) -> admin_step s s'
  | admin_request sv : service_step storeProject defaultProject (ad_service s) sv -> sv_registry sv = registryAt s -> sv_heap sv = heapAt s ->
      s' = setService sv s -> admin_step s s'
  | admin_work h : working (heapAt s) h -> s' = setService (mkServiceState (sv_place (ad_service s)) (registryAt s) h) s -> admin_step s s'
  | admin_elsewhere sv : db_step (dbA s) (w_log (ps_world (sv_place sv))) -> sv_registry sv = registryAt s -> sv_heap sv = heapAt s ->
      s' = setService sv s -> admin_step s s'.

Lemma placed_bounded s : placed s -> bounded (heapAt s).
Proof. intros [Hh _ _ _] ptr. by apply (hi_ptr _ Hh). Qed.
Lemma quiet_advances s s' : aside s s' -> steady s s' -> host_ok s -> host_ok s' /\ advances s s'.
Proof.
  intros Ha [Hd _ _] [Hok Hp]. pose proof (aside_placed _ _ Ha Hp) as Hp'. split; [split; [eapply db_steps_ok; [exact Hok|by apply Hd]|done]|].
  constructor; [done|done| | |by apply aside_balanced]; intros _; destruct Ha as [Hr Hh _ _ _]; rewrite ?Hr, ?Hh; done.
Qed.
(** The same registry and release functions, other sessions. *)
Lemma serving_advances s sv : host_ok s -> rtc db_step (dbA s) (w_log (ps_world (sv_place sv))) -> sv_registry sv = registryAt s ->
  working (heapAt s) (sv_heap sv) -> host_ok (setService sv s) /\ advances s (setService sv s).
Proof.
  intros [Hok Hp] Hd Hr Hw.
  assert (placed (setService sv s)) as Hp'.
  { simpl. rewrite Hr. eapply reg_steps_inv; [|exact Hp]. by apply rtc_once, step_work. }
  split; [split; [eapply db_steps_ok; [exact Hok|exact Hd]|done]|]. constructor; simpl; [done|done|by rewrite Hr| |done].
  intros _ ptr po Hpo. exists po. destruct Hw as [-> _]. by split.
Qed.

Lemma admin_step_inv s s' : admin_step s s' -> host_ok s -> host_ok s' /\ advances s s'.
Proof.
  intros Hs Hok. destruct Hs as [x Hr|name spec x Hr|name w x Hr|name size token x Hr|name reason x Hr|x Hr|sv Hr Hreg Hh ->|h Hw ->|sv Hr Hreg Hh ->].
  - apply New_inv in Hr as (Ha & _); [|done..]. split; [|done]. destruct Ha as [Hd Hp _ _ _], Hok as [Hok Hpl].
    split; [eapply db_steps_ok; [exact Hok|by apply Hd]|by apply Hp].
  - pose proof (registered_ok factory _ _ _ _ _ Hok Hr) as [Hok' Hext]. split; [done|]. pose proof (steadily_Register _ _ _ _ _ Hr) as [Hd Hh _].
    constructor; [done|by destruct Hok'|done| |by eapply balanced_Register]. intros Hp%placed_bounded. by apply Hh.
  - apply quiet_advances; [by eapply aside_Get|by eapply steadily_Get|done].
  - apply quiet_advances; [by eapply aside_List|by eapply steadily_List|done].
  - apply quiet_advances; [by eapply aside_Retire|by eapply steadily_Retire|done].
  - injection Hr as <- _. split; [done|]. constructor; simpl; try done. unfold balanced. simpl. intros <-. solve_Permutation.
  - apply serving_advances; [done| |done|rewrite Hh; by repeat split]. eapply service_step_moves; [exact Hr|apply Hok].
  - by apply serving_advances.
  - apply serving_advances; [done|by apply rtc_once|done|rewrite Hh; by repeat split].
Qed.
Lemma admin_steps_inv s s' : rtc admin_step s s' -> host_ok s -> host_ok s' /\ advances s s'.
Proof.
  induction 1 as [|s s1 s' Hs _ IH]; intros Hok; [done|]. destruct (admin_step_inv _ _ Hs Hok) as [Hok1 Ha1].
  destruct (IH Hok1). split; [done|by transitivity s1].
Qed.

Lemma db_steps_evolve d d' : db_ok d -> rtc db_step d d' -> names_evolve (tables d) (tables d').
Proof.
  intros Hok Hr. induction Hr as [d|d d1 d' Hst Hr IH]; [done|].
  transitivity (tables d1); [by apply db_step_evolve|]. apply IH. by eapply db_step_ok.
Qed.

Lemma loadedAs_advances s s' name spec : placed s -> advances s s' -> loadedAs factory s name spec -> loadedAs factory s' name spec.
Proof.
  intros Hp [_ _ Hext Hk _]. specialize (Hext Hp) as (Hb & Hu & _). specialize (Hk Hp). intros [[[cause Hc] Hns]|(sp & ptr & Hs & Hn & Hf)].
  - left. split; [|done]. exists cause. by eapply lookup_weaken.
  - right. exists sp, ptr. split; [done|]. split; [by eapply lookup_weaken|by eapply builtFor_keeps].
Qed.

(** A call, as a step of a history. *)
Lemma started_step s : admin_step s (fst (NewHarnessRegistry factory s)).
Proof. eapply admin_New, surjective_pairing. Qed.
Lemma registered_step name spec s : admin_step s (fst (admin_RegisterHarness factory name spec s)).
Proof. eapply admin_Register, surjective_pairing. Qed.
Lemma retired_step name reason s : admin_step s (fst (admin_RetireHarness name reason s)).
Proof. eapply admin_Retire, surjective_pairing. Qed.
End Handlers.

(** C20: The admin service over its whole life. Start from a sound database and registry, for instance a
    fresh host or one that was just started, and let any handlers of this service, any requests of the Sessions
    service, any work of running sessions and any calls of other processes on the database follow one another.
    Then database and registry are still sound. Every release function the factory returned is
    still kept or was called, never both and never twice. A harness that resolves keeps resolving to
    the same placer, which keeps its descriptor, and a stored registration keeps its uid, spec and
    digest, so what startup loaded stays loaded as it was. And once the names of the host are reserved in
    the database, no registration ever takes one of them. *)
Theorem admin_history `{Host} `{Encoding} `{Timestamppb} `{!ProtoCodec} `{Driver} `{PlacementHost} `{ServiceHost} `{SpecJson} `{ProtoJson}
    `{!ProtoLaws} `{!DriverLaws} `{!SpecJsonLaws} (factory : PlacerFactory) `{!FactoryLaws factory} storeProject defaultProject s0 s :
  let tablesOf s := tables (w_log (ps_world (sv_place (ad_service s)))) in
  let registryAt s := sv_registry (ad_service s) in
  host_ok s0 -> balanced s0 -> rtc (admin_step factory storeProject defaultProject) s0 s ->
  host_ok s /\ balanced s /\ NoDup (ad_releases s ++ ad_released s) /\
  extends (registryAt s0) (registryAt s) /\ heap_keeps (sv_heap (ad_service s0)) (sv_heap (ad_service s)) /\
  (forall name ptr, For (registryAt s0) name = Ok ptr -> For (registryAt s) name = Ok ptr) /\
  (forall name row, t_harnesses (tablesOf s0) !! name = Some row ->
     exists row', t_harnesses (tablesOf s) !! name = Some row' /\ row_same row row') /\
  (forall name spec, loadedAs factory s0 name spec -> loadedAs factory s name spec) /\
  ((forall name, Reserved (registryAt s0) name = true -> is_Some (t_reserved (tablesOf s0) !! name)) ->
     exclusive (registryAt s) (tablesOf s) /\ forall name, Reserved (registryAt s) name = true -> t_harnesses (tablesOf s) !! name = None).
Proof.
  intros tablesOf registryAt Hok Hb Hs. subst tablesOf registryAt. cbv beta. destruct (admin_steps_inv factory storeProject defaultProject _ _ Hs Hok) as [Hok' Ha].
  destruct Hok as [Hdb Hp], Hok' as [Hdb' Hp']. pose proof (loadedAs_advances factory s0 s) as Hloaded.
  pose proof Ha as [Hd _ Hext Hk Hbal]. specialize (Hd Hdb). specialize (Hext Hp). specialize (Hbal Hb).
  pose proof (db_steps_evolve _ _ Hdb Hd) as Hev.
  split; [by split|]. split; [done|]. split; [unfold balanced in Hbal; rewrite Hbal; apply NoDup_seq|]. split; [done|]. split; [by apply Hk|].
  split; [intros name ptr; apply For_extends; [destruct Hp' as [_ Hn _ _]; by apply (Forall_inv Hn)|done]|]. split; [apply (ne_rows _ _ Hev)|].
  split; [intros name spec; by apply Hloaded|]. intros Hres.
  assert (forall name, Reserved (sv_registry (ad_service s)) name = true -> t_harnesses (tables (w_log (ps_world (sv_place (ad_service s))))) !! name = None) as Hfree.
  { intros name Hn. destruct Hext as (_ & _ & Hst & Hre & _). unfold Reserved in Hn. rewrite Hst, Hre in Hn. specialize (Hres name Hn).
    destruct (ok_names _ Hdb' name) as [Hnone|]; [|done].
    rewrite (ne_reserved _ _ Hev) in Hnone by done. rewrite Hnone in Hres. by destruct Hres. }
  split; [|done]. intros name Hn. apply Hfree. unfold Reserved, Static. by rewrite (bool_decide_eq_true_2 _ Hn).
Qed.

#[local] Existing Instance exampleHost.
#[local] Existing Instance exampleEncoding.
#[local] Existing Instance exampleTimestamppb.
#[local] Existing Instance exampleDriver.
#[local] Existing Instance examplePlacementHost.
#[local] Existing Instance exampleServiceHost.
#[local] Existing Instance exampleSpecJson.
#[local] Existing Instance exampleProtoJson.
#[local] Existing Instance exampleProtoLaws.
#[local] Existing Instance exampleDriverLaws.
#[local] Existing Instance exampleSpecJsonLaws.
#[local] Existing Instance exampleFactoryLaws.

(** From an empty host: it starts, two harnesses are registered, and one is retired. *)
Lemma admin_history_witness : let s := fst (admin_RetireHarness "coder" "old" exampleRegistered) in
  NoDup (ad_releases s ++ ad_released s) /\ ad_releases s = [0; 1]%nat /\
  forall ptr, For (sv_registry (ad_service exampleAdmin)) "echo" = Ok ptr -> For (sv_registry (ad_service s)) "echo" = Ok ptr.
Proof.
  intros s.
  assert (rtc (admin_step (exampleFactory examplePlacer) "p" "p") exampleAdmin s) as Hs.
  { exact (rtc_l _ _ _ _ (started_step (exampleFactory examplePlacer) "p" "p" exampleAdmin)
      (rtc_l _ _ _ _ (registered_step (exampleFactory examplePlacer) "p" "p" "coder" (Some (exampleHarnessSpec "c")) (fst exampleStarted))
      (rtc_l _ _ _ _ (registered_step (exampleFactory examplePlacer) "p" "p" "zeta" (Some (exampleHarnessSpec "z")) (fst (exampleRegister "coder" "c" (fst exampleStarted))))
      (rtc_once _ _ (retired_step (exampleFactory examplePlacer) "p" "p" "coder" "old" exampleRegistered))))). }
  pose proof (admin_history (exampleFactory examplePlacer) "p" "p" exampleAdmin s exampleAdmin_ok (Permutation_refl _) Hs) as (_ & _ & Hn & _ & _ & Hf & _).
  split; [exact Hn|]. split; [by vm_compute|]. intros ptr. by apply (Hf "echo"%string ptr).
Defined.
