(* ===== verification/HarnessWire.v ===== *)
(** * Harnesses behind a stream (harnesswire/harnesswire.go)

    Both ends of the Harness.Connect stream. [Server_Connect] runs a harness and turns its sink calls
    into events and awaited frames: a process ([Proc]) that sends, receives, looks at a context and
    draws random bytes. [client_Run] drives a stream and turns its events into sink calls, so it is a harness
    program ([Prog]) again; what it meets on the stream is a [Remote], any finite behaviour of the other
    end. [dial] joins the two over a stream that delivers every message as it was sent, in order. *)
From S2P Require Import Prelude GoErrors Api Canon EventLog Executions Approvals Harness Wire Sinks HarnessSpec.

(** ** Messages (api/harness.proto, api/common.proto) *)

Section Messages.
Context `{Host} `{Timestamppb}.

(** [v1.ModelCall] with the fields that only the stream carries. *)
Record WireModelCall := mkWireModelCall {
  wm_Model : string; wm_Params : list (string * string); wm_InputHash : string; wm_Id : string;
  wm_Messages : list (option PbMessage); wm_Tools : list (option PbToolDefinition);
  wm_ToolChoice : option PbToolChoice;
}.

(** [v1.Event] on the stream; the members of its body that harnesswire never reads are one. *)
Inductive StreamBody :=
  | StreamMessage (m : option PbMessage)
  | StreamModel (m : option WireModelCall)
  | StreamTool (t : option PbToolCall)
  | StreamResult (r : option (PbToolResultOf PbPart))
  | StreamUsage (u : option PbUsage)
  | StreamEnd (h : option PbHarnessEnd)
  | StreamParked (r : option PbApprovalRef)
  | StreamOther.
Record StreamEvent := mkStreamEvent {
  se_ExecutionId : string; se_Kind : PbEventKind; se_Body : option StreamBody;
}.

Record PbModelResult := mkPbModelResult {
  pmr_Message : option PbMessage; pmr_Usage : option PbUsage; pmr_ModelCallId : string;
}.
(** [v1.Start]; its identity context is never set. *)
Record PbStart := mkPbStart {
  ps_Config : bytes; ps_History : list (option PbEvent); ps_Inputs : list (option PbMessage); ps_ResumeFromSeq : Z;
}.
Inductive FrameBody :=
  | FrameStart (s : option PbStart)
  | FrameCancel (reason : string)
  | FrameApproval (a : option PbApprovalResult)
  | FrameTool (t : option (PbToolResultOf PbPart))
  | FrameModel (m : option PbModelResult)
  | FramePark (r : option PbApprovalRef).
Record ControllerFrame := mkControllerFrame {
  cf_Session : string; cf_ExecutionId : string; cf_Frame : option FrameBody;
}.

(** The getters of the two oneofs: nil unless the member is the one that is set. *)
Definition se_Message (ev : StreamEvent) : option PbMessage := match se_Body ev with Some (StreamMessage m) => m | _ => None end.
Definition se_Model (ev : StreamEvent) : option WireModelCall := match se_Body ev with Some (StreamModel m) => m | _ => None end.
Definition se_Tool (ev : StreamEvent) : option PbToolCall := match se_Body ev with Some (StreamTool t) => t | _ => None end.
Definition se_Result (ev : StreamEvent) : option (PbToolResultOf PbPart) := match se_Body ev with Some (StreamResult r) => r | _ => None end.
Definition se_Usage (ev : StreamEvent) : option PbUsage := match se_Body ev with Some (StreamUsage u) => u | _ => None end.
Definition se_End (ev : StreamEvent) : option PbHarnessEnd := match se_Body ev with Some (StreamEnd h) => h | _ => None end.
Definition se_Parked (ev : StreamEvent) : option PbApprovalRef := match se_Body ev with Some (StreamParked r) => r | _ => None end.
Definition cf_Start (f : ControllerFrame) : option PbStart := match cf_Frame f with Some (FrameStart s) => s | _ => None end.
Definition cf_Approval (f : ControllerFrame) : option PbApprovalResult := match cf_Frame f with Some (FrameApproval a) => a | _ => None end.
Definition cf_Tool (f : ControllerFrame) : option (PbToolResultOf PbPart) := match cf_Frame f with Some (FrameTool t) => t | _ => None end.
Definition cf_Model (f : ControllerFrame) : option PbModelResult := match cf_Frame f with Some (FrameModel m) => m | _ => None end.
Definition cf_Park (f : ControllerFrame) : option PbApprovalRef := match cf_Frame f with Some (FramePark r) => r | _ => None end.

(** ** Conversions *)

Definition messagesToProto (ms : list Message) : list (option PbMessage) := map (fun m => MessageToProto (Some m)) ms.
Definition messagesFromProto (ps : list (option PbMessage)) : list Message := omap MessageFromProto ps.

Definition startToProto (s : option Start) : PbStart :=
  match s with
  | None => mkPbStart None [] [] 0
  | Some s => mkPbStart (start_Config s) (map (fun e => Some (EventToProto e)) (start_History s))
                (messagesToProto (start_Inputs s)) (start_ResumeFromSeq s)
  end.
(** The IDs are set from the frame's envelope. *)
Definition startFromProto (executionID session : string) (p : PbStart) : Start :=
  mkStart executionID session (ps_Config p) (map EventFromProto (ps_History p)) (messagesFromProto (ps_Inputs p)) (ps_ResumeFromSeq p).

(** Usage in a completion: nil when none was reported. *)
Definition usageResultToProto (u : Usage) : option PbUsage := if decide (u = zeroUsage) then None else usageToProto (Some u).

(** [validateApprovalReceipt(callID, decision, receipt)]. *)
Definition wire_validateApprovalReceipt (callID : string) (decision : option ApprovalResult) (receipt : ToolResult) : option goerr :=
  match decision with
  | None => Some (EText "harnesswire: invalid approval correlation")
  | Some decision =>
      if bool_decide (callID = EmptyString) || negb (bool_decide (res_ToolCallID decision = callID)) || (RequestSeq decision <=? 0)
      then Some (EText "harnesswire: invalid approval correlation")
      else if negb (bool_decide (tr_ID receipt = callID)) then Some (EText "harnesswire: tool result correlation mismatch")
      else if negb (ApprovalRequestSeq receipt =? RequestSeq decision) || (ApprovalDecisionSeq receipt <=? 0)
      then Some (EText "harnesswire: invalid approval receipt sequences")
      else if (if Approved decision
               then (bool_decide (Code receipt = ToolResultCodeUnspecified) && negb (IsError receipt)) ||
                    (bool_decide (Code receipt = ToolResultCodeExecutorError) && IsError receipt)
               else bool_decide (Code receipt = ToolResultCodeApprovalDenied) && IsError receipt)
      then None
      else Some (EText "harnesswire: approval receipt status conflicts with decision")
  end.

(** [rejectApprovalReport(receipt)]. *)
Definition rejectApprovalReport (receipt : ToolResult) : option goerr :=
  if negb (isNil (Approval receipt)) || negb (ApprovalRequestSeq receipt =? 0) || negb (ApprovalDecisionSeq receipt =? 0) ||
     (negb (bool_decide (Code receipt = ToolResultCodeUnspecified)) && negb (bool_decide (Code receipt = ToolResultCodeExecutorError)))
  then Some (EText "harnesswire: harness report or ordinary reply contains host-owned approval receipt")
  else None.

(** [endError(end)]. *)
Definition remoteEnded : goerr := EText "harnesswire: remote harness ended".
Definition endError (h : option PbHarnessEnd) : option goerr :=
  match h with
  | Some h => if bool_decide (pbh_State h = "COMPLETED"%string) then None else Some remoteEnded
  | None => Some remoteEnded
  end.
End Messages.

(** ** The server *)

Definition io_EOF : goerr := EText "EOF".

Section Server.
Context `{Host} `{Timestamppb}.

(** What [awaitResult]'s select finds: a frame, the closed channel, or the end of the context. *)
Inductive Arrival := Arrived (f : ControllerFrame) | Closed | CtxDone (e : goerr).

(** A process on the server's side of a stream: what it does next, and how it goes on. *)
Inductive Proc :=
  | PrSend (ev : StreamEvent) (k : option goerr -> Proc)
  | PrRecv (k : Arrival -> Proc)
  | PrCtx (k : option goerr -> Proc)
  | PrRand (k : list Z -> Proc)
  | PrDone (err : option goerr).

(** [streamSink]: its sticky outcomes. It is closed only after [Run] returned, and its mutex is never
    contended, since a harness uses its sink from one goroutine. *)
Record streamSink := mkStreamSink { ss_parked : option ApprovalRef; ss_failure : option goerr }.
Definition newStreamSink : streamSink := mkStreamSink None None.

(** A computation of the sink, with what follows it. *)
Definition SinkM (A : Type) : Type := streamSink -> (streamSink -> res A -> Proc) -> Proc.
#[export] Instance SinkM_ret : MRet SinkM := fun A a s k => k s (Ok a).
#[export] Instance SinkM_bind : MBind SinkM := fun A B f m s k =>
  m s (fun s' r => match r with Ok a => f a s' k | Err e => k s' (Err e) end).
Definition fails_ {A} (e : goerr) : SinkM A := fun s k => k s (Err e).
Definition refuse (o : option goerr) : SinkM unit := fun s k => k s (match o with Some e => Err e | None => Ok tt end).

(** [check(ctx)], the [stream.Send], the [newID]. *)
Definition ss_check : SinkM unit := fun s k =>
  match ss_parked s with
  | Some ref => k s (Err (EParked ref))
  | None =>
      match ss_failure s with
      | Some e => k s (Err e)
      | None => PrCtx (fun o => k s (match o with Some e => Err e | None => Ok tt end))
      end
  end.
Definition ctxError : SinkM unit := fun s k => PrCtx (fun o => k s (match o with Some e => Err e | None => Ok tt end)).
Definition sendEvent (ev : StreamEvent) : SinkM unit := fun s k => PrSend ev (fun o => k s (match o with Some e => Err e | None => Ok tt end)).
Definition newID_ : SinkM string := fun s k => PrRand (fun bs => k s (Ok (hexEncode bs))).

(** [fail(err)]: the first failure stays. *)
Definition ss_fail {A} (e : goerr) : SinkM A := fun s k =>
  let e := default e (ss_failure s) in k (mkStreamSink (ss_parked s) (Some e)) (Err e).
(** [if err != nil { return s.fail(err) }]. *)
Definition orFailS {A} (m : SinkM A) : SinkM A := fun s k =>
  m s (fun s' r => match r with Ok a => k s' (Ok a) | Err e => ss_fail e s' k end).

Variables (executionID session : string).

Definition streamEvent (kind : PbEventKind) (body : StreamBody) : StreamEvent := mkStreamEvent executionID kind (Some body).

(** [awaitResult(ctx)]. *)
Definition recvFrame : SinkM Arrival := fun s k => PrRecv (fun a => k s (Ok a)).
Definition awaitResult : SinkM ControllerFrame :=
  do! ss_check in
  let! a := recvFrame in
  match a with
  | Arrived frame =>
      do! ss_check in
      if negb (bool_decide (cf_ExecutionId frame = executionID)) then fails_ (EText "harnesswire: result execution_id mismatch")
      else mret frame
  | Closed => do! ss_check in do! ctxError in fails_ io_EOF
  | CtxDone e => fails_ e
  end.

(** [Model(ctx, req)]. *)
Definition stream_Model (req : ModelRequest) : SinkM ModelResponse :=
  do! ss_check in
  match ToolChoiceToProto (mr_ToolChoice req) with
  | Err e => fails_ (EWrap "harnesswire: model call" e)
  | Ok choice =>
      let! id := newID_ in
      do! sendEvent (streamEvent EVENT_MODEL_CALL (StreamModel (Some
        (mkWireModelCall (mr_Model req) (mr_Params req) EmptyString id (messagesToProto (Messages req))
           (ToolDefinitionsToProto (Tools req)) choice)))) in
      let! frame := awaitResult in
      match cf_Model frame with
      | None => fails_ (EText "harnesswire: expected a ModelResult frame")
      | Some mr =>
          if negb (bool_decide (pmr_ModelCallId mr = id)) then fails_ (EText "harnesswire: model result correlation mismatch")
          else mret (mkModelResponse (default zeroMessage (MessageFromProto (pmr_Message mr)))
                       (default zeroUsage (usageFromProto (pmr_Usage mr))))
      end
  end.

(** [Output(ctx, delta)]. *)
Definition stream_Output (delta : string) : SinkM unit :=
  do! ss_check in
  sendEvent (streamEvent EVENT_OUTPUT (StreamMessage (MessageToProto (Some (TextMessage "assistant" delta))))).

(** [approval requires session and call id]. *)
Definition needsApproval (tc : ToolCall) : bool := bool_decide (tc_Mediation tc = MediationRequiresApproval).
Definition unaddressed (tc : ToolCall) : bool := bool_decide (session = EmptyString) || bool_decide (tc_ID tc = EmptyString).

(** The session of a reply. *)
Definition sameSession (frame : ControllerFrame) : SinkM unit :=
  if negb (bool_decide (cf_Session frame = session)) then ss_fail (EText "harnesswire: tool result session mismatch") else mret tt.

(** The park or the decision that answers a call that requires approval. *)
Definition parkWith (ref : ApprovalRef) : SinkM (option ApprovalResult) := fun s k =>
  k (mkStreamSink (Some ref) (ss_failure s)) (Err (EParked ref)).
Definition awaitDecision (call : ToolCall) (frame : ControllerFrame) : SinkM (option ApprovalResult) :=
  match cf_Park frame with
  | Some park =>
      if negb (bool_decide (pbref_ExecutionId park = executionID)) || negb (bool_decide (pbref_ToolCallId park = tc_ID call)) ||
         (pbref_RequestSeq park <=? 0)
      then ss_fail (EText "harnesswire: park correlation mismatch")
      else parkWith (mkApprovalRef executionID (tc_ID call) (pbref_RequestSeq park))
  | None =>
      match cf_Approval frame with
      | Some decision =>
          if negb (bool_decide (pbar_ToolCallId decision = tc_ID call)) || (pbar_RequestSeq decision <=? 0)
          then ss_fail (EText "harnesswire: expected correlated approval before ToolResult")
          else mret (Some (mkApprovalResult (pbar_ToolCallId decision) (pbar_Approved decision) (pbar_Reason decision) (pbar_RequestSeq decision)))
      | None => ss_fail (EText "harnesswire: expected correlated approval before ToolResult")
      end
  end.

(** [ToolCall(ctx, tc)]: what it makes of the host's frames, and the whole. *)
Definition awaitAnswer (call : ToolCall) : SinkM (option ApprovalResult * ControllerFrame) :=
  let! frame := orFailS awaitResult in
  do! sameSession frame in
  if needsApproval call then
    let! approval := awaitDecision call frame in
    let! frame := orFailS awaitResult in
    do! sameSession frame in
    mret (approval, frame)
  else mret (None, frame).
Definition readReceipt (call : ToolCall) (approval : option ApprovalResult) (frame : ControllerFrame) : SinkM ToolResult :=
  match ToolResultFromProto (cf_Tool frame) with
  | None => ss_fail (EText "harnesswire: expected a ToolResult frame")
  | Some result =>
      if negb (bool_decide (tr_ID result = tc_ID call)) then ss_fail (EText "harnesswire: tool result correlation mismatch")
      else match approval with
      | Some decision =>
          match wire_validateApprovalReceipt (tc_ID call) (Some decision) result with
          | Some e => ss_fail e
          | None => mret (setResultApproval (Some decision) result)
          end
      | None =>
          match rejectApprovalReport result with Some e => ss_fail e | None => mret result end
      end
  end.
Definition stream_ToolCall (call : ToolCall) : SinkM ToolResult :=
  do! ss_check in
  if needsApproval call && unaddressed call then ss_fail (EText "harnesswire: approval requires session and call id")
  else
    do! sendEvent (streamEvent EVENT_TOOL_CALL (StreamTool (ToolCallToProto (Some call)))) in
    let! answer := awaitAnswer call in
    readReceipt call (fst answer) (snd answer).

(** [Report(ctx, tr)] and [Usage(ctx, u)]. *)
Definition stream_Report (tr : ToolResult) : SinkM unit :=
  do! ss_check in
  match rejectApprovalReport tr with
  | Some e => ss_fail e
  | None => sendEvent (streamEvent EVENT_TOOL_RESULT (StreamResult (ToolResultToProto (Some tr))))
  end.
Definition stream_Usage (u : Usage) : SinkM unit :=
  do! ss_check in
  sendEvent (streamEvent EVENT_USAGE (StreamUsage (usageToProto (Some u)))).

(** What [Connect] does once [Run] returned. *)
Definition connectEnd (s : streamSink) (runErr : option goerr) : Proc :=
  match ss_parked s with
  | Some ref =>
      if match runErr with Some e => negb (IsParkUnwind e ref) | None => false end then PrDone runErr
      else PrSend (streamEvent EVENT_PARKED (StreamParked (approvalRefToProto (Some ref)))) PrDone
  | None =>
      match match ss_failure s with Some e => Some e | None => runErr end with
      | Some e =>
          PrSend (streamEvent EVENT_END (StreamEnd (Some (mkPbHarnessEnd "FAILED" (Some (mkPbError 0 (errText e))))))) (fun _ => PrDone (Some e))
      | None => PrSend (streamEvent EVENT_END (StreamEnd (Some (mkPbHarnessEnd "COMPLETED" None)))) PrDone
      end
  end.

(** [Run] of a harness against the sink. *)
Fixpoint serve (p : Prog) (s : streamSink) : Proc :=
  match p with
  | PReturn err => connectEnd s err
  | PModel req k => stream_Model req s (fun s' r => serve (k r) s')
  | POutput d k => stream_Output d s (fun s' r => serve (k (err_of r)) s')
  | PToolCall tc k => stream_ToolCall tc s (fun s' r => serve (k r) s')
  | PReport tr k => stream_Report tr s (fun s' r => serve (k (err_of r)) s')
  | PUsage u k => stream_Usage u s (fun s' r => serve (k (err_of r)) s')
  end.
End Server.

(** [Server.Connect(stream)]. *)
Definition Server_Connect `{Host} `{Timestamppb} (run : Start -> Prog) : Proc :=
  PrRecv (fun a => match a with
    | Closed => PrDone (Some io_EOF)
    | CtxDone e => PrDone (Some e)
    | Arrived first =>
        match cf_Start first with
        | None => PrDone (Some (EText "harnesswire: first ControllerFrame must be Start"))
        | Some start =>
            if bool_decide (cf_ExecutionId first = EmptyString) then PrDone (Some (EText "harnesswire: Start frame requires execution_id"))
            else serve (cf_ExecutionId first) (cf_Session first)
                   (run (startFromProto (cf_ExecutionId first) (cf_Session first) start)) newStreamSink
        end
    end).
(** [Server.Describe]. *)
Definition Server_Describe (har : Harness) (t : nat) : res PbHarnessDescriptor :=
  match Describe har t with Err e => Err e | Ok d => Ok (DescriptorToProto d) end.

(** ** The client *)

Section Client.
Context `{Host} `{Timestamppb}.

(** What the other end of a stream does: it emits an event, it waits for the client's next frame, or it
    is over, by [io.EOF] ([None]) or by an error. *)
Inductive Remote :=
  | REmit (ev : StreamEvent) (next : Remote)
  | RAwait (k : ControllerFrame -> Remote)
  | REnd (err : option goerr).

(** [v1.HarnessClient]: what [Describe] and [Connect] answer, which [Send] fails, and the context of the
    call once a park was acknowledged. *)
Record HarnessClient := mkHarnessClient {
  hc_Describe : nat -> res PbHarnessDescriptor;
  hc_Connect : res Remote;
  hc_sendFault : nat -> option goerr;
  hc_ctxErr : option goerr;
}.

(** A stream on which both ends wait ends with its context. *)
Definition streamBlocked : goerr := ESentinel ContextCanceled.

(** [stream.Recv()], with the frames that are under way: the remote gets them when it waits. *)
Inductive Received := GotEvent (ev : StreamEvent) | GotEOF | GotError (e : goerr).
Fixpoint Recv (r : Remote) (sent : list ControllerFrame) : Received * (Remote * list ControllerFrame) :=
  match r with
  | REmit ev next => (GotEvent ev, (next, sent))
  | RAwait k => match sent with [] => (GotError streamBlocked, (r, sent)) | f :: sent' => Recv (k f) sent' end
  | REnd None => (GotEOF, (r, sent))
  | REnd (Some e) => (GotError e, (r, sent))
  end.

Variables (sendFault : nat -> option goerr) (ctxErr : option goerr) (start : Start).

Definition frameOf (body : FrameBody) : ControllerFrame := mkControllerFrame (start_SessionUID start) (start_ExecutionID start) (Some body).

(** [if err := stream.Send(frame); err != nil { return err }]: [n] frames were sent before. *)
Definition sendFrame (body : FrameBody) (n : nat) (sent : list ControllerFrame) (k : nat -> list ControllerFrame -> Prog) : Prog :=
  match sendFault n with Some e => PReturn (Some e) | None => k (S n) (sent ++ [frameOf body]) end.

(** [exchangePark(ctx, stream, start, ref)], and the error of the sink once it succeeded. *)
Definition acknowledges (ack : StreamEvent) (ref : ApprovalRef) : bool :=
  match se_Parked ack with
  | None => false
  | Some park =>
      match se_Kind ack with EVENT_PARKED => true | _ => false end && bool_decide (se_ExecutionId ack = start_ExecutionID start) &&
      bool_decide (pbref_ExecutionId park = ref_ExecutionID ref) && bool_decide (pbref_ToolCallId park = ref_ToolCallID ref) &&
      (pbref_RequestSeq park =? ref_RequestSeq ref)
  end.
Definition exchangePark (ref : ApprovalRef) (err : goerr) (r : Remote) (n : nat) (sent : list ControllerFrame) : Prog :=
  sendFrame (FramePark (approvalRefToProto (Some ref))) n sent (fun _ sent =>
    match Recv r sent with
    | (GotEOF, _) => PReturn (Some (EWrap "harnesswire: park acknowledgement" io_EOF))
    | (GotError e, _) => PReturn (Some (EWrap "harnesswire: park acknowledgement" e))
    | (GotEvent ack, (r, sent)) =>
        if negb (acknowledges ack ref) then PReturn (Some (EText "harnesswire: park acknowledgement correlation mismatch"))
        else match Recv r sent with
        | (GotError e, _) => PReturn (Some e)
        | (GotEvent _, _) => PReturn (Some (EText "harnesswire: expected stream closure after park acknowledgement"))
        | (GotEOF, _) => PReturn (Some (default err ctxErr))
        end
    end).

(** The park of the host's sink that answers [tc], correlated. *)
Definition correlatedPark (tc : ToolCall) (ref : ApprovalRef) : bool :=
  needsApproval tc && negb (unaddressed (start_SessionUID start) tc) && bool_decide (ref_ExecutionID ref = start_ExecutionID start) &&
  bool_decide (ref_ToolCallID ref = tc_ID tc) && (0 <? ref_RequestSeq ref).

(** What [Run] does with the answer of the sink to a tool call. *)
Definition onToolError (tc : ToolCall) (err : goerr) (r : Remote) (n : nat) (sent : list ControllerFrame) : Prog :=
  match as_parked err with
  | Some ref =>
      if negb (correlatedPark tc ref) then PReturn (Some (EText "harnesswire: invalid host park correlation"))
      else exchangePark ref err r n sent
  | None =>
      if errors_Is err ErrApprovalParked then PReturn (Some (EText "harnesswire: host park missing correlation")) else PReturn (Some err)
  end.
Definition onToolResult (tc : ToolCall) (result : ToolResult) (n : nat) (sent : list ControllerFrame)
    (loop : nat -> list ControllerFrame -> Prog) : Prog :=
  let reply n sent := sendFrame (FrameTool (ToolResultToProto (Some result))) n sent loop in
  if needsApproval tc then
    match wire_validateApprovalReceipt (tc_ID tc) (Approval result) result with
    | Some e => PReturn (Some e)
    | None => sendFrame (FrameApproval (approvalResToProto (Approval result))) n sent reply
    end
  else match rejectApprovalReport result with Some e => PReturn (Some e) | None => reply n sent end.

(** The switch of [Run] on an event; [r] is what the stream does next. *)
Definition zeroWireModelCall : WireModelCall := mkWireModelCall EmptyString [] EmptyString EmptyString [] [] None.
Definition onEvent (ev : StreamEvent) (r : Remote) (n : nat) (sent : list ControllerFrame)
    (loop : nat -> list ControllerFrame -> Prog) : Prog :=
  match se_Kind ev with
  | EVENT_MODEL_CALL =>
      let mc := default zeroWireModelCall (se_Model ev) in
      match ToolChoiceFromProto (wm_ToolChoice mc) with
      | Err e => PReturn (Some (EWrap "harnesswire: model call" e))
      | Ok choice =>
          PModel (mkModelRequest (wm_Model mc) (messagesFromProto (wm_Messages mc)) (wm_Params mc) (ToolDefinitionsFromProto (wm_Tools mc)) choice)
            (fun x => match x with
             | Err e => PReturn (Some e)
             | Ok resp => sendFrame (FrameModel (Some (mkPbModelResult (MessageToProto (Some (mresp_Message resp)))
                            (usageResultToProto (mresp_Usage resp)) (wm_Id mc)))) n sent loop
             end)
      end
  | EVENT_OUTPUT =>
      match MessageFromProto (se_Message ev) with
      | None => loop n sent
      | Some msg => POutput (Text msg) (fun x => match x with Some e => PReturn (Some e) | None => loop n sent end)
      end
  | EVENT_TOOL_CALL =>
      match ToolCallFromProto (se_Tool ev) with
      | None => PReturn (Some (EText "harnesswire: EVENT_TOOL_CALL missing its payload"))
      | Some tc =>
          if needsApproval tc && unaddressed (start_SessionUID start) tc
          then PReturn (Some (EText "harnesswire: approval requires session and call id"))
          else PToolCall tc (fun x => match x with
            | Err e => onToolError tc e r n sent
            | Ok result => onToolResult tc result n sent loop
            end)
      end
  | EVENT_TOOL_RESULT =>
      match ToolResultFromProto (se_Result ev) with
      | None => loop n sent
      | Some tr =>
          match rejectApprovalReport tr with
          | Some e => PReturn (Some e)
          | None => PReport tr (fun x => match x with Some e => PReturn (Some e) | None => loop n sent end)
          end
      end
  | EVENT_USAGE =>
      match usageFromProto (se_Usage ev) with
      | None => loop n sent
      | Some u => PUsage u (fun x => match x with Some e => PReturn (Some e) | None => loop n sent end)
      end
  | EVENT_APPROVAL_REQUEST | EVENT_APPROVAL_RESULT | EVENT_EXECUTION_START | EVENT_PARKED =>
      PReturn (Some (EText "harnesswire: harness emitted host-owned control event"))
  | EVENT_END => PReturn (endError (se_End ev))
  | _ => loop n sent
  end.

(** The loop of [Run]: what [Recv] answers, and the switch. *)
Fixpoint clientLoop (r : Remote) (n : nat) (sent : list ControllerFrame) : Prog :=
  match r with
  | REnd err => PReturn err
  | RAwait k => match sent with [] => PReturn (Some streamBlocked) | f :: sent' => clientLoop (k f) n sent' end
  | REmit ev next =>
      if negb (bool_decide (se_ExecutionId ev = start_ExecutionID start)) then PReturn (Some (EText "harnesswire: event execution_id mismatch"))
      else onEvent ev next n sent (clientLoop next)
  end.
End Client.

(** [ClientHarness.Run] and [Describe]. *)
Definition client_Run `{Host} `{Timestamppb} (c : HarnessClient) (start : Start) : Prog :=
  if bool_decide (start_ExecutionID start = EmptyString) then PReturn (Some (EText "harnesswire: Start requires execution_id"))
  else match hc_Connect c with
  | Err e => PReturn (Some e)
  | Ok r => sendFrame (hc_sendFault c) start (FrameStart (Some (startToProto (Some start)))) 0 [] (clientLoop (hc_sendFault c) (hc_ctxErr c) start r)
  end.
Definition client_Describe `{Host} `{Timestamppb} (c : HarnessClient) (t : nat) : res Descriptor :=
  match hc_Describe c t with Err e => Err e | Ok d => Ok (descriptorFromProto (Some d)) end.
Definition ClientHarness `{Host} `{Timestamppb} (c : HarnessClient) : Harness := mkHarness (client_Describe c) (client_Run c).

(** ** A stream between the two

    gRPC delivers messages as they were sent, in order, and turns the error of a handler into a status. *)
Class Grpc := { statusError : goerr -> goerr }.

Section Dial.
Context `{Host} `{Timestamppb} `{Grpc}.
Fixpoint transport (t : nat) (p : Proc) : Remote :=
  match p with
  | PrSend ev k => REmit ev (transport t (k None))
  | PrRecv k => RAwait (fun f => transport t (k (Arrived f)))
  | PrCtx k => transport t (k None)
  | PrRand k => transport (S t) (k (randBytes t))
  | PrDone err => REnd (statusError <$> err)
  end.
Definition dial (har : Harness) (t : nat) : HarnessClient :=
  mkHarnessClient (fun t => match Server_Describe har t with Ok d => Ok d | Err e => Err (statusError e) end)
    (Ok (transport t (Server_Connect (Run har)))) (fun _ => None) None.
End Dial.
