(* ===== verification/WireTransparency.v ===== *)
(** * What the stream does to a harness (theorems about [HarnessWire])

    A harness behind a stream is a harness again, and which one is said in closed form: its requests and
    the host's answers cross the wire, the first error of the host's sink ends the run, and a parked
    call ends it once the harness has unwound. What replay and recovery need of a harness survives
    this, so sessions of remote harnesses replay and recover like local ones. *)
From S2P Require Import Prelude GoErrors Api Canon EventLog Executions Approvals Harness Wire Sinks Controller LiveSpec Simulation HarnessSpec HarnessWire.
From Stdlib Require Import FunctionalExtensionality.

Section Transparency.
Context `{Host} `{Timestamppb} `{Grpc}.

(** ** The harness that the host sees *)

Definition wireMessage (m : Message) : Message := default zeroMessage (MessageFromProto (MessageToProto (Some m))).
Definition wireCall (tc : ToolCall) : ToolCall := default tc (ToolCallFromProto (ToolCallToProto (Some tc))).
Definition wireResult (tr : ToolResult) : ToolResult := default tr (ToolResultFromProto (ToolResultToProto (Some tr))).
Definition wireRequest (req : ModelRequest) : ModelRequest :=
  mkModelRequest (mr_Model req) (map wireMessage (Messages req)) (mr_Params req)
    (ToolDefinitionsFromProto (ToolDefinitionsToProto (Tools req))) (mr_ToolChoice req).
Definition wireResponse (resp : ModelResponse) : ModelResponse := mkModelResponse (wireMessage (mresp_Message resp)) (mresp_Usage resp).

(** How a harness ends when every further call of its sink answers that it is parked. *)
Fixpoint unwind (ref : ApprovalRef) (p : Prog) : option goerr :=
  match p with
  | PReturn err => err
  | PModel _ k => unwind ref (k (Err (EParked ref)))
  | POutput _ k | PReport _ k | PUsage _ k => unwind ref (k (Some (EParked ref)))
  | PToolCall _ k => unwind ref (k (Err (EParked ref)))
  end.

Variable start : Start.
Abbreviation executionID := (start_ExecutionID start).
Abbreviation session := (start_SessionUID start).

(** What the harness gets for the host's answer to a tool call, or how the run ends. *)
Definition toolAnswer (tc : ToolCall) (r : ToolResult) : res ToolResult :=
  if needsApproval tc then
    match wire_validateApprovalReceipt (tc_ID tc) (Approval r) r with
    | Some e => Err e
    | None => Ok (setResultApproval (Approval r) (wireResult r))
    end
  else match rejectApprovalReport r with
  | Some e => Err e
  | None => if bool_decide (tr_ID r = tc_ID tc) then Ok (wireResult r) else Err remoteEnded
  end.
Definition toolRefusal (tc : ToolCall) (e : goerr) (k : res ToolResult -> Prog) : goerr :=
  match as_parked e with
  | Some ref =>
      if negb (correlatedPark start tc ref) then EText "harnesswire: invalid host park correlation"
      else match unwind ref (k (Err (EParked ref))) with
      | Some runErr => if IsParkUnwind runErr ref then e else EWrap "harnesswire: park acknowledgement" (statusError runErr)
      | None => e
      end
  | None => if errors_Is e ErrApprovalParked then EText "harnesswire: host park missing correlation" else e
  end.

Fixpoint wired (p : Prog) : Prog :=
  match p with
  | PReturn err => PReturn (match err with Some _ => Some remoteEnded | None => None end)
  | PModel req k =>
      match ToolChoiceToProto (mr_ToolChoice req) with
      | Err e => wired (k (Err (EWrap "harnesswire: model call" e)))
      | Ok _ => PModel (wireRequest req) (fun x => match x with
          | Ok resp => wired (k (Ok (wireResponse resp)))
          | Err e => PReturn (Some e)
          end)
      end
  | POutput d k => POutput d (fun x => match x with None => wired (k None) | Some e => PReturn (Some e) end)
  | PToolCall tc k =>
      if needsApproval tc && unaddressed session tc then PReturn (Some remoteEnded)
      else PToolCall (wireCall tc) (fun x => match x with
        | Ok r => match toolAnswer tc r with Ok r' => wired (k (Ok r')) | Err e => PReturn (Some e) end
        | Err e => PReturn (Some (toolRefusal tc e k))
        end)
  | PReport tr k =>
      match rejectApprovalReport tr with
      | Some _ => PReturn (Some remoteEnded)
      | None => PReport (wireResult tr) (fun x => match x with None => wired (k None) | Some e => PReturn (Some e) end)
      end
  | PUsage u k => PUsage u (fun x => match x with None => wired (k None) | Some e => PReturn (Some e) end)
  end.

(** ** What crosses *)

Lemma messages_wire ms : messagesFromProto (messagesToProto ms) = map wireMessage ms.
Proof. induction ms as [|m ms IH]; [done|]. unfold messagesFromProto, messagesToProto in *. cbn. f_equal. exact IH. Qed.
Lemma choice_wire c p : ToolChoiceToProto c = Ok p -> ToolChoiceFromProto p = Ok c.
Proof.
  unfold ToolChoiceToProto. destruct c as [[[] name]|]; cbn; try (by intros [= <-]).
  case_bool_decide; [|done]. by intros [= <-]; subst.
Qed.
Lemma usage_wire u : default zeroUsage (usageFromProto (usageResultToProto u)) = u.
Proof. unfold usageResultToProto. destruct (decide (u = zeroUsage)) as [->|]; [done|by destruct u]. Qed.
Lemma call_wire tc : ToolCallFromProto (ToolCallToProto (Some tc)) = Some (wireCall tc).
Proof. done. Qed.
Lemma result_wire tr : ToolResultFromProto (ToolResultToProto (Some tr)) = Some (wireResult tr).
Proof. done. Qed.
Lemma needs_wire tc : needsApproval (wireCall tc) = needsApproval tc.
Proof. unfold needsApproval. destruct tc as [? ? ? [] ?]; done. Qed.
Lemma reject_wire tr : rejectApprovalReport tr = None -> rejectApprovalReport (wireResult tr) = None.
Proof.
  unfold rejectApprovalReport. destruct tr as [? ? ? ? ? ? ? c rs ds ap]. cbn.
  by destruct (isNil ap), (rs =? 0), (ds =? 0), c.
Qed.
Lemma validate_wire id d tr : wire_validateApprovalReceipt id d tr = None -> wire_validateApprovalReceipt id d (wireResult tr) = None.
Proof.
  unfold wire_validateApprovalReceipt. destruct d as [d|]; [|done]. destruct tr as [i ? ? ? b ? ? c rs ds ?]. cbn.
  repeat (case_match; [by intros|]). destruct (Approved d), c, b; done.
Qed.

(** ** The two ends *)

#[local] Arguments messagesToProto : simpl never.
#[local] Arguments messagesFromProto : simpl never.
#[local] Arguments ToolDefinitionsToProto : simpl never.
#[local] Arguments ToolDefinitionsFromProto : simpl never.
#[local] Arguments MessageToProto : simpl never.
#[local] Arguments MessageFromProto : simpl never.
#[local] Arguments ToolResultToProto : simpl never.
#[local] Arguments ToolResultFromProto : simpl never.
#[local] Arguments ToolCallToProto : simpl never.
#[local] Arguments ToolCallFromProto : simpl never.
#[local] Arguments wire_validateApprovalReceipt : simpl never.
#[local] Arguments rejectApprovalReport : simpl never.
#[local] Arguments usageFromProto : simpl never.
#[local] Arguments usageToProto : simpl never.


(** Evaluate the computations of the sink. *)
Ltac sinking := unfold stream_Model, stream_Output, stream_ToolCall, stream_Report, stream_Usage, awaitResult, ss_check, mbind, mret, SinkM_bind, SinkM_ret, orFailS, ss_fail, fails_, refuse, ctxError, sendEvent, newID_, recvFrame, sameSession, parkWith; cbn.

Abbreviation loop r n := (clientLoop (fun _ => None) None start r n []).
Abbreviation server p s := (serve executionID session p s).

(** A harness that goes on after a protocol failure only finds a sealed sink, and the run has failed. *)
Lemma sealedSink_run p : forall t n e, loop (transport t (server p (mkStreamSink None (Some e)))) n = PReturn (Some remoteEnded).
Proof.
  induction p as [err|req k IH|d k IH|tc k IH|tr k IH|u k IH]; intros t n e; cbn; try apply IH.
  by rewrite bool_decide_eq_true_2.
Qed.

Definition parkAck (ref : ApprovalRef) : StreamEvent := streamEvent executionID EVENT_PARKED (StreamParked (approvalRefToProto (Some ref))).
(** A parked harness only finds the park, and its end decides whether it is acknowledged. *)
Lemma parked_run ref p : forall t, Recv (transport t (server p (mkStreamSink (Some ref) None))) [] =
  match unwind ref p with
  | Some e => if IsParkUnwind e ref then (GotEvent (parkAck ref), (REnd None, [])) else (GotError (statusError e), (REnd (Some (statusError e)), []))
  | None => (GotEvent (parkAck ref), (REnd None, []))
  end.
Proof.
  induction p as [err|req k IH|d k IH|tc k IH|tr k IH|u k IH]; intros t; cbn; try apply IH.
  destruct err as [e|]; [|done]. by destruct (IsParkUnwind e ref).
Qed.
Lemma parkAck_acknowledges ref : ref_ExecutionID ref = executionID -> acknowledges start (parkAck ref) ref = true.
Proof. intros E. unfold acknowledges. cbn. rewrite !bool_decide_eq_true_2 by done. by rewrite Z.eqb_refl. Qed.



(** The answers of the host, as the server reads them. *)
Definition toolFrame (r : ToolResult) : ControllerFrame := frameOf start (FrameTool (ToolResultToProto (Some r))).
Definition decisionFrame (d : ApprovalResult) : ControllerFrame := frameOf start (FrameApproval (approvalResToProto (Some d))).
Definition parkFrame (ref : ApprovalRef) : ControllerFrame := frameOf start (FramePark (approvalRefToProto (Some ref))).
Abbreviation answering tc k := (awaitAnswer executionID session tc newStreamSink k).

Lemma ordinary_answer tc r k t n : needsApproval tc = false ->
  clientLoop (fun _ => None) None start (transport t (answering tc k)) n [toolFrame r] = loop (transport t (k newStreamSink (Ok (None, toolFrame r)))) n.
Proof. intros Hn. unfold awaitAnswer. rewrite Hn. sinking. rewrite bool_decide_eq_true_2 by done. cbn. rewrite bool_decide_eq_true_2 by done. done. Qed.
Lemma approved_answer tc d r k t n : needsApproval tc = true -> res_ToolCallID d = tc_ID tc -> 0 < RequestSeq d ->
  clientLoop (fun _ => None) None start (transport t (answering tc k)) n [decisionFrame d; toolFrame r] =
  loop (transport t (k newStreamSink (Ok (Some d, toolFrame r)))) n.
Proof.
  intros Hn Hid Hseq. unfold awaitAnswer. rewrite Hn. do 2 (sinking; rewrite bool_decide_eq_true_2 by done).
  sinking. rewrite (bool_decide_eq_true_2 _ Hid). destruct (Z.leb_spec (RequestSeq d) 0); [lia|].
  do 2 (sinking; rewrite bool_decide_eq_true_2 by done). sinking. by destruct d.
Qed.
Lemma parked_answer tc ref k t : correlatedPark start tc ref = true ->
  Recv (transport t (answering tc k)) [parkFrame ref] = Recv (transport t (k (mkStreamSink (Some ref) None) (Err (EParked ref)))) [].
Proof.
  unfold correlatedPark. rewrite !andb_true_iff, !bool_decide_eq_true, Z.ltb_lt. intros [[[[Hn _] He] Hid] Hseq].
  unfold awaitAnswer. rewrite Hn. do 2 (sinking; rewrite bool_decide_eq_true_2 by done). sinking.
  rewrite !bool_decide_eq_true_2 by done. destruct (Z.leb_spec (ref_RequestSeq ref) 0); [lia|]. sinking.
  destruct ref. cbn in *. by rewrite He, Hid.
Qed.

(** What the server does with what it awaited. *)
Definition receiving (tc : ToolCall) (k : res ToolResult -> Prog) : streamSink -> res (option ApprovalResult * ControllerFrame) -> Proc :=
  fun s x => match x with
  | Ok a => readReceipt tc (fst a) (snd a) s (fun s' r => server (k r) s')
  | Err e => server (k (Err e)) s
  end.

Lemma validate_inv id d r : wire_validateApprovalReceipt id (Some d) r = None ->
  res_ToolCallID d = id /\ 0 < RequestSeq d /\ tr_ID r = id.
Proof.
  unfold wire_validateApprovalReceipt. repeat (case_match; [done|]). intros _.
  repeat match goal with Hx : _ || _ = false |- _ => apply orb_false_iff in Hx as [? ?] end.
  repeat match goal with Hx : negb _ = false |- _ => apply negb_false_iff, bool_decide_eq_true in Hx end.
  split; [done|]. split; [lia|done].
Qed.

Lemma result_run tc r k t n : (forall x t n, loop (transport t (server (k x) newStreamSink)) n = wired (k x)) ->
  onToolResult (fun _ => None) start (wireCall tc) r n [] (clientLoop (fun _ => None) None start (transport t (answering tc (receiving tc k)))) =
  match toolAnswer tc r with Ok r' => wired (k (Ok r')) | Err e => PReturn (Some e) end.
Proof.
  intros IH. unfold onToolResult, toolAnswer. rewrite needs_wire. change (tc_ID (wireCall tc)) with (tc_ID tc).
  destruct (needsApproval tc) eqn:Hn.
  - destruct (Approval r) as [d|] eqn:Hd; [|done]. destruct (wire_validateApprovalReceipt _ _ r) eqn:Hv; [done|].
    pose proof (validate_inv _ _ _ Hv) as (Hid & Hseq & Hr). cbn.
    etransitivity; [apply (approved_answer tc d r (receiving tc k)); done|]. unfold receiving, readReceipt. cbn.
    rewrite result_wire. change (tr_ID (wireResult r)) with (tr_ID r). rewrite (bool_decide_eq_true_2 _ Hr), (validate_wire _ _ _ Hv). apply IH.
  - destruct (rejectApprovalReport r) eqn:Hr; [done|]. cbn. etransitivity; [by apply (ordinary_answer tc r (receiving tc k))|].
    unfold receiving, readReceipt. cbn. rewrite result_wire. change (tr_ID (wireResult r)) with (tr_ID r).
    destruct (bool_decide (tr_ID r = tc_ID tc)); cbn; [|apply sealedSink_run]. rewrite (reject_wire _ Hr). apply IH.
Qed.

Lemma error_run tc e k t n :
  onToolError (fun _ => None) None start (wireCall tc) e (transport t (answering tc (receiving tc k))) n [] = PReturn (Some (toolRefusal tc e k)).
Proof.
  unfold onToolError, toolRefusal. destruct (as_parked e) as [ref|] eqn:Hp; [|by destruct (errors_Is e ErrApprovalParked)].
  replace (correlatedPark start (wireCall tc) ref) with (correlatedPark start tc ref) by (unfold correlatedPark; by rewrite needs_wire).
  destruct (correlatedPark start tc ref) eqn:Hc; [|done]. cbn [negb]. unfold exchangePark, sendFrame. cbn [app].
  change (frameOf start (FramePark (approvalRefToProto (Some ref)))) with (parkFrame ref).
  rewrite (parked_answer tc ref (receiving tc k) t Hc). unfold receiving. rewrite parked_run.
  assert (ref_ExecutionID ref = executionID) as He by (unfold correlatedPark in Hc; rewrite !andb_true_iff, !bool_decide_eq_true in Hc; tauto).
  destruct (unwind ref (k (Err (EParked ref)))) as [runErr|]; [destruct (IsParkUnwind runErr ref)|];
    rewrite ?(parkAck_acknowledges _ He); done.
Qed.

Lemma wired_run p : forall t n, loop (transport t (server p newStreamSink)) n = wired p.
Proof.
  induction p as [err|req k IH|d k IH|tc k IH|tr k IH|u k IH]; intros t n; cbn [serve wired].
  - destruct err as [e|]; cbn; by rewrite bool_decide_eq_true_2.
  - sinking. destruct (ToolChoiceToProto (mr_ToolChoice req)) as [p|e] eqn:Ec; [|apply IH].
    sinking. rewrite bool_decide_eq_true_2 by done. cbn. rewrite (choice_wire _ _ Ec), messages_wire. unfold wireRequest. f_equal.
    apply functional_extensionality. intros [resp|e]; [|done]. sinking. rewrite bool_decide_eq_true_2 by done. sinking.
    rewrite usage_wire. apply IH.
  - sinking. rewrite bool_decide_eq_true_2 by done. cbn. f_equal. apply functional_extensionality. intros [e|]; [done|]. apply IH.
  - sinking. destruct (needsApproval tc && unaddressed session tc) eqn:Ea; [apply sealedSink_run|].
    cbn. rewrite bool_decide_eq_true_2 by done. unfold onEvent. cbn. rewrite call_wire, needs_wire. 
    change (unaddressed session (wireCall tc)) with (unaddressed session tc). rewrite Ea. cbn. f_equal. apply functional_extensionality. intros [r|e].
    + by apply (result_run tc r k).
    + apply (error_run tc e k).
  - sinking. destruct (rejectApprovalReport tr) as [e|] eqn:Er; [apply sealedSink_run|]. cbn. rewrite bool_decide_eq_true_2 by done. unfold onEvent. cbn.
    rewrite result_wire, (reject_wire _ Er). f_equal. apply functional_extensionality. intros [e|]; [done|]. apply IH.
  - sinking. rewrite bool_decide_eq_true_2 by done. unfold onEvent. cbn. destruct u. cbn. f_equal. apply functional_extensionality. intros [e|]; [done|]. apply IH.
Qed.
End Transparency.
