(* ===== verification/RemoteHarness.v ===== *)
(** * Sessions of remote harnesses (theorems about [HarnessWire])

    What the controller sees of a harness behind a stream, and that its sessions replay. *)
From S2P Require Import Prelude GoErrors Api Canon EventLog Executions Approvals Harness Wire Sinks Controller Agents LiveSpec Simulation ReplaySafety Turns Recovery Retraces Progress Session HarnessSpec HarnessWire WireTransparency.

Section Remote.
Context `{Host} `{Timestamppb} `{Grpc}.

(** The start that the harness gets: the host's, over the wire. *)
Definition wireStart (start : Start) : Start :=
  startFromProto (start_ExecutionID start) (start_SessionUID start) (startToProto (Some start)).

Lemma remote_run har t start : Run (ClientHarness (dial har t)) start =
  if bool_decide (start_ExecutionID start = EmptyString) then PReturn (Some (EText "harnesswire: Start requires execution_id"))
  else wired start (Run har (wireStart start)).
Proof.
  cbn [Run ClientHarness]. unfold client_Run. case_bool_decide as He; [done|]. cbn [hc_Connect hc_sendFault hc_ctxErr dial].
  unfold Server_Connect, sendFrame. cbn. rewrite bool_decide_eq_false_2 by done. apply wired_run.
Qed.

(** ** What replay needs *)

Context `{!WireLaws}.

Lemma wireArgs_wire args : wireArgs (wireArgs args) = wireArgs args.
Proof. apply struct_roundtrip, fromStruct_normal. Qed.
Lemma representable_wire args : representable args -> representable (wireArgs args).
Proof.
  intros [Hr Hd]. split; rewrite !wireArgs_wire; [|done]. destruct Hr as [->|Hr]; [by left|by right].
Qed.
Lemma Args_wire tc : Args (wireCall tc) = wireArgs (Args tc).
Proof. done. Qed.
Lemma mediation_wire tc : tc_Mediation tc <> MediationRequiresApproval -> tc_Mediation (wireCall tc) <> MediationRequiresApproval.
Proof. by destruct tc as [? ? ? [] ?]. Qed.
Lemma mediation_mediated tc : tc_Mediation tc = MediationControllerMediated -> tc_Mediation (wireCall tc) = MediationControllerMediated.
Proof. by destruct tc as [? ? ? [] ?]. Qed.

(** What replay asks of a harness survives the stream. *)
Lemma replayable_wired start p : replayable p -> replayable (wired start p).
Proof.
  induction 1 as [e|req k _ IH Hf Hu|d k _ IH Hf|tc k Hm Ha _ IH Hf|tr k _ IH Hf|u k _ IH Hf]; cbn [wired].
  - constructor.
  - destruct (ToolChoiceToProto _) as [p|e].
    + constructor; [intros resp; apply IH|intros e; by exists e|]. intros m u. unfold wireResponse. cbn [mresp_Message mresp_Usage].
      destruct (Hu (wireMessage m) u) as [[k' Hk]|Hk]; [left; rewrite Hk; cbn [wired]; eauto|right; intros u'; by rewrite Hk].
    + destruct (Hf (EWrap "harnesswire: model call" e)) as [e' ->]. constructor.
  - constructor; [apply IH|intros e; by exists e].
  - unfold needsApproval. rewrite bool_decide_eq_false_2 by done. cbn [andb].
    constructor; [by apply mediation_wire|rewrite Args_wire; by apply representable_wire| |intros e; by exists (toolRefusal start tc e k)].
    intros r. destruct (toolAnswer tc r); [apply IH|constructor].
  - destruct (rejectApprovalReport tr); constructor; [apply IH|intros e; by exists e].
  - constructor; [apply IH|intros e; by exists e].
Qed.
Lemma remote_replayable har t start : (forall start, replayable (Run har start)) -> replayable (Run (ClientHarness (dial har t)) start).
Proof. intros Hr. rewrite remote_run. destruct (bool_decide _); [constructor|by apply replayable_wired]. Qed.
Lemma remote_stable har t hid hversion : stable_harness har hid hversion -> stable_harness (ClientHarness (dial har t)) hid hversion.
Proof.
  intros Hs t' d. cbn. unfold client_Describe. cbn. unfold Server_Describe. destruct (Describe har t') as [d'|] eqn:Hd; [|done].
  intros [= <-]. exact (Hs t' d' Hd).
Qed.
Lemma remote_describes har t t' : is_ok (Describe (ClientHarness (dial har t)) t') = is_ok (Describe har t').
Proof. cbn. unfold client_Describe. cbn. unfold Server_Describe. by destruct (Describe har t'). Qed.

(** ** What recovery needs *)

(** Every model request of a program that its effects let go on has a tool choice the wire can carry. *)
Inductive crossable : Prog -> Prop :=
  | cr_return e : crossable (PReturn e)
  | cr_model req k : is_ok (ToolChoiceToProto (mr_ToolChoice req)) = true -> (forall resp, crossable (k (Ok resp))) ->
      crossable (PModel req k)
  | cr_output d k : crossable (k None) -> crossable (POutput d k)
  | cr_tool tc k : (forall r, crossable (k (Ok r))) -> crossable (PToolCall tc k)
  | cr_report tr k : crossable (k None) -> crossable (PReport tr k)
  | cr_usage u k : crossable (k None) -> crossable (PUsage u k).

Lemma reject_report tr : approvalReportError tr = None -> rejectApprovalReport tr = None.
Proof. unfold approvalReportError, rejectApprovalReport. by destruct (_ || _). Qed.
Lemma report_reject tr : rejectApprovalReport tr = None -> approvalReportError tr = None.
Proof. unfold approvalReportError, rejectApprovalReport. by destruct (_ || _). Qed.
Lemma report_wire tr : approvalReportError tr = None -> approvalReportError (wireResult tr) = None.
Proof. intros Hr. by apply report_reject, reject_wire, reject_report. Qed.

(** What recovery asks of a harness survives the stream as well: the host answers every ordinary call
    with a correlated, ordinary result, which the server accepts. *)
Lemma dependable_wired c start p : dependable c p -> crossable p -> dependable c (wired start p).
Proof.
  induction 1 as [|req k Hm Hd IH Hu|d k Hd IH|tc k Ht Hm Hk Ha Hd IH|tr k Hr Hd IH|u k Hd IH]; cbn [wired]; intros Hc;
    inversion Hc; subst.
  - constructor.
  - destruct (ToolChoiceToProto _) as [p|]; [|done]. constructor; [done|intros resp; auto|].
    intros m u. unfold wireResponse. cbn [mresp_Message mresp_Usage].
    destruct (Hu (wireMessage m) u) as [[k' Hk]|Hk]; [left; rewrite Hk; cbn [wired]; eauto|right; intros u'; by rewrite Hk].
  - constructor. auto.
  - unfold needsApproval at 1. rewrite Hm, bool_decide_eq_false_2 by done. cbn [andb].
    constructor; [done|by rewrite mediation_mediated|done|rewrite Args_wire; by apply representable_wire|].
    intros r [Hid Hrep]. cbn in Hid. unfold toolAnswer, needsApproval. rewrite Hm, bool_decide_eq_false_2 by done.
    rewrite (reject_report _ Hrep), (bool_decide_eq_true_2 _ Hid). apply IH; [|auto]. split; [done|by apply report_wire].
  - rewrite (reject_report tr) by done. constructor; [by apply report_wire|auto].
  - constructor. auto.
Qed.
Lemma remote_dependable c har t start : (forall start, dependable c (Run har start)) -> (forall start, crossable (Run har start)) ->
  start_ExecutionID start <> EmptyString -> dependable c (Run (ClientHarness (dial har t)) start).
Proof. intros Hd Hc Hid. rewrite remote_run, bool_decide_eq_false_2 by done. by apply dependable_wired. Qed.
End Remote.

(** ** Properties *)

(** C3: A harness behind a stream is the harness in closed form: whatever the two ends say to each other, [Run]
    of the client is the program [wired], which is the harness with its start, its requests and the
    host's answers sent over the wire once, which ends with the first error of the host's sink, lets a
    parked call unwind before it accepts the park, and refuses answers that are not correlated. *)
Theorem remote_transparent `{Host} `{Timestamppb} `{Grpc} (har : Harness) (t : nat) (start : Start) :
  Run (ClientHarness (dial har t)) start =
  if bool_decide (start_ExecutionID start = EmptyString) then PReturn (Some (EText "harnesswire: Start requires execution_id"))
  else wired start (Run har (wireStart start)).
Proof. apply remote_run. Qed.

(** C23: The sessions of a remote harness replay. If a harness is replayable, then any journal left by any turns and
    recoveries that ran it behind a stream, each possibly cut short by a crash, replays through the
    stream: [Replay] succeeds, yields the recorded outputs, and touches nothing. *)
Theorem remote_session_replays `{Host} `{Timestamppb} `{Grpc} `{!WireLaws} `{Encoding} {S : Type} `{StoreLaws S} `{!FaithfulStore S}
    (har : Harness) (t : nat) (uid hname hid hversion : string) (c : Controller) (w w' : World S) r :
  (forall start, replayable (Run har start)) -> stable_harness har hid hversion ->
  session (ClientHarness (dial har t)) uid hname w -> family (ClientHarness (dial har t)) uid hname c ->
  noCancel (w_tick w) -> (forall n, (w_tick w <= n)%nat -> is_ok (Describe har n) = true) ->
  is_ok (snd (st_Read 1 (w_log w))) = true -> Replay c (ClientHarness (dial har t)) w = (w', r) ->
  exists xs, recordedExecutions (eventsOf w) = Ok xs /\
    r = Ok (completedOutputs (filter (fun x => x_completed x = true) xs)) /\
    (Forall (fun x => x_completed x = true) xs -> r = Ok (recordedOutputs (eventsOf w))) /\
    untouched w w'.
Proof.
  intros Hrep Hst Hs Hfam Hnc Hd Hread Hrun. apply Replay_safe in Hrun as Hsafe.
  pose proof (fun start => remote_replayable har t start Hrep) as Hrep'. pose proof (remote_stable har t _ _ Hst) as Hst'.
  edestruct (Replay_run (ClientHarness (dial har t)) uid hname hid hversion) as (xs & Hxs & Hr & Hall); eauto using session_sound.
  { intros n Hn. rewrite remote_describes. by apply Hd. }
  exists xs. split; [done|]. split; [done|]. split; [apply Hall|apply Hsafe].
Qed.

(** C6: Crash recovery completes for a remote harness. If a harness is dependable and the wire can carry its
    model requests, then its session behind a stream, forks included, cut short anywhere after its inputs,
    even between a tool call and its result, is recovered by [Resume] through the stream: what was recorded
    is served, the rest is committed once, and the turn is completed. The one exception is a turn with a tool
    call that lies before a fork mark and is not answered by the turn's next effect: it is refused, and
    nothing is touched. *)
Theorem remote_session_recovers `{Host} `{Timestamppb} `{Grpc} `{!WireLaws} `{Encoding} {S : Type} `{StoreLaws S} `{!FaithfulStore S}
    (har : Harness) (t : nat) (uid hname hid hversion : string) (c : Controller) (I : S -> Prop) (w : World S) xs x :
  (forall start, replayable (Run har start)) -> (forall start, dependable c (Run har start)) ->
  (forall start, crossable (Run har start)) -> stable_harness har hid hversion ->
  session (ClientHarness (dial har t)) uid hname w -> family (ClientHarness (dial har t)) uid hname c ->
  reliable I (c_fence c) -> serviceable I w -> (forall n, (w_tick w <= n)%nat -> is_ok (Describe har n) = true) ->
  recordedExecutions (eventsOf w) = Ok xs -> pending xs x ->
  let remote := ClientHarness (dial har t) in
  let inherits := inheritsIntent (x_id x) (drop (Z.to_nat (x_start x)) (eventsOf w)) in
  (~ inherits -> turnCompleted c remote w xs x) /\ (inherits -> turnRefused c remote w).
Proof.
  intros Hrep Hdep Hcr Hst Hs Hfam Hstore Hw Hd Hxs Hp. cbn zeta. split; intros Hin.
  - eapply (session_recovered (ClientHarness (dial har t))); eauto using remote_replayable, remote_dependable, remote_stable.
    intros n Hn. rewrite remote_describes. by apply Hd.
  - eapply (session_refused (ClientHarness (dial har t))); eauto using remote_replayable, remote_stable.
Qed.

(** ** Witnesses

    An agent with a model call, its usage, a tool call with arguments and an output, behind a stream. *)
Definition deskCall : ToolCall :=
  mkToolCall "call" "search" (Some [("q"%string, AString "rocq")]) MediationControllerMediated "key".
Definition deskRun (s : Start) : Prog :=
  PModel (mkModelRequest "desk" (start_Inputs s) [] [] (Some (mkToolChoice ToolChoiceAuto EmptyString))) (fun r => match r with
    | Err e => PReturn (Some e)
    | Ok resp => PUsage (mresp_Usage resp) (fun x => match x with
      | Some e => PReturn (Some e)
      | None => PToolCall deskCall (fun r => match r with
        | Err e => PReturn (Some e)
        | Ok result => POutput "found" PReturn
        end)
      end)
    end).
Definition deskHarness : Harness := mkHarness (fun _ => Ok echoDescriptor) deskRun.
Definition deskController : Controller :=
  mkController (fun _ req => Ok (mkModelResponse (TextMessage "assistant" "hm") (mkUsage "desk" 3 2 1))) None true false None 0
    (Some (fun _ _ _ => (mkToolResult EmptyString (Some [("n"%string, AFloat 1)]) EmptyString EmptyString false EmptyString []
       ToolResultCodeUnspecified 0 0 None, None))) 1 "uid" EmptyString.

Section example.
#[local] Existing Instance exampleHost.
#[local] Existing Instance exampleEncoding.
#[local] Existing Instance exampleTimestamppb.
#[local] Existing Instance exampleWireLaws.
#[local] Instance exampleGrpc : Grpc := {| statusError := EWrap "rpc error" |}.

Definition remoteDesk : Harness := ClientHarness (dial deskHarness 0).
(** One turn; the same cut by a crash between the tool call and its result; its recovery; and the replay of that. *)
Definition deskExec : World Log * res unit := Exec deskController remoteDesk [TextMessage "user" "hi"] 0 freshWorld.
Definition deskCrashed : World Log :=
  mkWorld (mkLog (take 6 (records (w_log (fst deskExec)))) (log_fence (w_log (fst deskExec)))) (w_tick (fst deskExec)) 0 0 [] [].
Definition deskResume : World Log * result (bool * goerr) bool := Resume deskController remoteDesk deskCrashed.
Definition deskRecovered : World Log := fst deskResume.
Definition deskReplay : World Log * res (list string) := Replay deskController remoteDesk deskRecovered.
Definition deskCut : recordedExecution :=
  match recordedExecutions (eventsOf deskCrashed) with Ok (x :: _) => x | _ => newExecution "" 0 end.

Example desk_runs : snd deskExec = Ok tt /\
  map (fun r => Kind (rec_Event r)) (records (w_log (fst deskExec))) =
    [EventExecutionStart; EventInput; EventModelCall; EventOutput; EventUsage; EventToolCall; EventToolResult; EventOutput; EventEnd] /\
  snd deskResume = Ok true /\ snd deskReplay = Ok ["hm"%string; "found"%string] /\
  liveModelCalls (fst deskResume) = 0 /\ liveToolCalls (fst deskResume) = 1.
Proof. vm_compute. repeat split. Qed.

Lemma desk_replayable start : replayable (Run deskHarness start).
Proof.
  constructor; [|intros e; by exists e|intros m u; left; cbn; eauto].
  intros resp. constructor; [|intros e; by exists e]. constructor; [done|by split; [right|]| |intros e; by exists e].
  intros r. constructor; [constructor|intros e; by exists e].
Qed.
Lemma desk_dependable start : dependable deskController (Run deskHarness start).
Proof.
  constructor; [done| |intros m u; left; cbn; eauto]. intros resp. constructor. constructor; [|done|done|by split; [right|]|].
  - eexists. split; [reflexivity|]. by intros.
  - intros r _. constructor. constructor.
Qed.
Lemma desk_crossable start : crossable (Run deskHarness start).
Proof. repeat (constructor; try done). Qed.
Lemma desk_stable : stable_harness deskHarness "echo" "1".
Proof. intros t d [= <-]. by split. Qed.
Lemma desk_crashed_session : session remoteDesk "uid" "" deskCrashed.
Proof.
  apply (sess_turn remoteDesk "uid" "" freshWorld deskController [TextMessage "user" "hi"] 0 (fst deskExec) (snd deskExec) deskCrashed 6).
  - by apply sess_start.
  - by split.
  - split; [|constructor]. vm_compute. discriminate.
  - unfold deskExec. apply surjective_pairing.
  - vm_compute. lia.
  - vm_compute. reflexivity.
Qed.
Lemma desk_session : session remoteDesk "uid" "" deskRecovered.
Proof.
  apply (sess_resume remoteDesk "uid" "" deskCrashed deskController deskRecovered (snd deskResume) deskRecovered 9).
  - apply desk_crashed_session.
  - by split.
  - unfold deskResume. apply surjective_pairing.
  - vm_compute. lia.
  - vm_compute. reflexivity.
Qed.

Lemma remote_session_replays_witness :
  exists xs, recordedExecutions (eventsOf deskRecovered) = Ok xs /\
    snd deskReplay = Ok (completedOutputs (filter (fun x => x_completed x = true) xs)) /\
    (Forall (fun x => x_completed x = true) xs -> snd deskReplay = Ok (recordedOutputs (eventsOf deskRecovered))) /\
    untouched deskRecovered (fst deskReplay).
Proof.
  apply (remote_session_replays deskHarness 0 "uid" "" "echo" "1" deskController deskRecovered (fst deskReplay) (snd deskReplay)).
  - apply desk_replayable.
  - apply desk_stable.
  - apply desk_session.
  - by split.
  - intros n _. reflexivity.
  - intros n _. reflexivity.
  - vm_compute. reflexivity.
  - unfold deskReplay. apply surjective_pairing.
Defined.

Lemma remote_session_recovers_witness : turnCompleted deskController remoteDesk deskCrashed [deskCut] deskCut.
Proof.
  apply (remote_session_recovers deskHarness 0 "uid" "" "echo" "1" deskController (fun l => log_fence l <= 1) deskCrashed [deskCut] deskCut).
  - apply desk_replayable.
  - apply desk_dependable.
  - apply desk_crossable.
  - apply desk_stable.
  - apply desk_crashed_session.
  - by split.
  - by apply Log_reliable.
  - split; [vm_compute; discriminate|intros n _; reflexivity].
  - intros n _. reflexivity.
  - vm_compute. reflexivity.
  - split; [|split]; vm_compute; reflexivity.
  - rewrite inherits_scanned. vm_compute. discriminate.
Defined.
End example.
