(* ===== verification/WireClient.v ===== *)
(** * The host against any remote harness (theorems about [HarnessWire])

    The client side of a stream trusts nothing that the other end says. Whatever a remote harness emits,
    whichever sends fail and however the stream ends, the host's sink only gets calls it may get, its first
    error ends the run, a park is reported only for an exact acknowledgement, and a run succeeds only when
    the stream said so. *)
From S2P Require Import Prelude GoErrors Api Canon EventLog Executions Approvals Harness Wire Sinks HarnessSpec HarnessWire.

Section Client.
Context `{Host} `{Timestamppb}.

(** What the other end of a stream says, and how it ends, whatever it is told. *)
Inductive remoteAll (E : StreamEvent -> Prop) (F : option goerr -> Prop) : Remote -> Prop :=
  | ra_emit ev next : E ev -> remoteAll E F next -> remoteAll E F (REmit ev next)
  | ra_await k : (forall f, remoteAll E F (k f)) -> remoteAll E F (RAwait k)
  | ra_end err : F err -> remoteAll E F (REnd err).

(** How a program ends, whatever its sink answers to tool calls, and for answers to its other calls
    that fail only as [A] says. *)
Inductive returns (A : goerr -> Prop) (R : option goerr -> Prop) : Prog -> Prop :=
  | rt_return err : R err -> returns A R (PReturn err)
  | rt_model req k : (forall resp, returns A R (k (Ok resp))) -> (forall e, A e -> returns A R (k (Err e))) -> returns A R (PModel req k)
  | rt_output d k : returns A R (k None) -> (forall e, A e -> returns A R (k (Some e))) -> returns A R (POutput d k)
  | rt_tool tc k : (forall x, returns A R (k x)) -> returns A R (PToolCall tc k)
  | rt_report tr k : returns A R (k None) -> (forall e, A e -> returns A R (k (Some e))) -> returns A R (PReport tr k)
  | rt_usage u k : returns A R (k None) -> (forall e, A e -> returns A R (k (Some e))) -> returns A R (PUsage u k).

Variables (sendFault : nat -> option goerr) (ctxErr : option goerr) (start : Start).
Abbreviation run := (clientLoop sendFault ctxErr start).

(** ** What the sink is asked *)

(** What the host answers to a refused tool call: its own error, unless it is a park, which is the host's
    own, of this call, for a request that exists, and is only passed on then. *)
Definition refusal (tc : ToolCall) (e : goerr) (err : goerr) : Prop :=
  match as_parked e with
  | None => err = e \/ (errors_Is e ErrApprovalParked = true /\ as_parked err = None /\ errors_Is err ErrApprovalParked = false)
  | Some ref => correlatedPark start tc ref = true \/ (as_parked err = None /\ errors_Is err ErrApprovalParked = false)
  end.

(** A program that asks its sink only what it may, and stops at its first error. *)
Inductive disciplined : Prog -> Prop :=
  | di_return err : disciplined (PReturn err)
  | di_model req k : (forall resp, disciplined (k (Ok resp))) -> (forall e, k (Err e) = PReturn (Some e)) -> disciplined (PModel req k)
  | di_output d k : disciplined (k None) -> (forall e, k (Some e) = PReturn (Some e)) -> disciplined (POutput d k)
  | di_tool tc k : (needsApproval tc = true -> unaddressed (start_SessionUID start) tc = false) ->
      (forall r, disciplined (k (Ok r))) -> (forall e, exists err, k (Err e) = PReturn (Some err) /\ refusal tc e err) ->
      (** a receipt that conflicts with its call ends the run *)
      (forall r, (if needsApproval tc then wire_validateApprovalReceipt (tc_ID tc) (Approval r) r else rejectApprovalReport r) <> None ->
         exists err, k (Ok r) = PReturn (Some err)) ->
      disciplined (PToolCall tc k)
  | di_report tr k : rejectApprovalReport tr = None -> disciplined (k None) -> (forall e, k (Some e) = PReturn (Some e)) ->
      disciplined (PReport tr k)
  | di_usage u k : disciplined (k None) -> (forall e, k (Some e) = PReturn (Some e)) -> disciplined (PUsage u k).

Lemma disciplined_send body n sent k : (forall n sent, disciplined (k n sent)) -> disciplined (sendFrame sendFault start body n sent k).
Proof. intros Hk. unfold sendFrame. destruct (sendFault n); [constructor|auto]. Qed.

Lemma exchange_returns ref err r n sent : exists e, exchangePark sendFault ctxErr start ref err r n sent = PReturn (Some e).
Proof.
  unfold exchangePark, sendFrame. destruct (sendFault n); [by eexists|]. destruct (Recv r _) as [[ev| |e] [r' sent']]; [|by eexists..].
  destruct (negb _); [by eexists|]. destruct (Recv r' sent') as [[ev'| |e] ?]; by eexists.
Qed.
Lemma onToolError_refusal tc e r n sent : exists err,
  onToolError sendFault ctxErr start tc e r n sent = PReturn (Some err) /\ refusal tc e err.
Proof.
  unfold onToolError, refusal. destruct (as_parked e) as [ref|].
  - destruct (correlatedPark start tc ref); cbn [negb].
    + destruct (exchange_returns ref e r n sent) as [err ->]. exists err. split; [done|by left].
    + eexists. split; [done|]. by right.
  - destruct (errors_Is e ErrApprovalParked) eqn:Hp; eexists; (split; [done|]); [by right|by left].
Qed.
Lemma disciplined_result tc r n sent loop : (forall n sent, disciplined (loop n sent)) ->
  disciplined (onToolResult sendFault start tc r n sent loop).
Proof.
  intros Hl. unfold onToolResult. destruct (needsApproval tc).
  - destruct (wire_validateApprovalReceipt _ _ _); [constructor|]. by do 2 (apply disciplined_send; intros).
  - destruct (rejectApprovalReport r); [constructor|]. by apply disciplined_send.
Qed.
Lemma disciplined_event ev r n sent loop : (forall n sent, disciplined (loop n sent)) ->
  disciplined (onEvent sendFault ctxErr start ev r n sent loop).
Proof.
  intros Hl. unfold onEvent. destruct (se_Kind ev); try (by constructor); try done.
  - destruct (ToolChoiceFromProto _); [|constructor]. constructor; [|done]. intros. by apply disciplined_send.
  - destruct (MessageFromProto _); [by constructor|done].
  - destruct (ToolCallFromProto _) as [tc|]; [|constructor]. destruct (needsApproval tc && _) eqn:Ha; [constructor|]. constructor.
    + intros Hn. by rewrite Hn in Ha.
    + intros. by apply disciplined_result.
    + intros. apply onToolError_refusal.
    + intros x Hx. unfold onToolResult. destruct (needsApproval tc); [destruct (wire_validateApprovalReceipt _ _ _)|destruct (rejectApprovalReport x)];
        [by eexists|done|by eexists|done].
  - destruct (ToolResultFromProto _) as [tr|]; [|done]. destruct (rejectApprovalReport tr) eqn:Hr; by constructor.
  - destruct (usageFromProto _); [by constructor|done].
Qed.
Lemma disciplined_loop r : forall n sent, disciplined (run r n sent).
Proof.
  induction r as [ev next IH|k IH|err]; intros n sent; cbn [clientLoop].
  - destruct (negb _); [constructor|by apply disciplined_event].
  - destruct sent; [constructor|apply IH].
  - constructor.
Qed.

(** ** How a run ends

    [E] and [F] are what is known of the other end, and [A] and [R] of the sink's errors and of the run's. *)
Section ends.
Variables (E : StreamEvent -> Prop) (F : option goerr -> Prop) (A : goerr -> Prop) (R : option goerr -> Prop).
Hypothesis Rtext : forall e, match e with EText _ => True | _ => False end -> R (Some e).
Hypothesis Rblocked : R (Some streamBlocked).
Hypothesis Rerror : forall e, A e -> R (Some e).
Hypothesis Rend : forall ev, E ev -> se_Kind ev = EVENT_END -> R (endError (se_End ev)).
Hypothesis Rremote : forall err, F err -> R err.
Hypothesis Rfault : forall n e, sendFault n = Some e -> R (Some e).
Hypothesis Rchoice : forall p e, ToolChoiceFromProto p = Err e -> R (Some (EWrap "harnesswire: model call" e)).
Hypothesis Rpark : forall ref e r n sent, remoteAll E F r -> as_parked e = Some ref ->
  returns A R (exchangePark sendFault ctxErr start ref e r n sent).
Hypothesis Rtool : forall e, as_parked e = None -> R (Some e).

Lemma returns_send body n sent k : (forall n sent, returns A R (k n sent)) -> returns A R (sendFrame sendFault start body n sent k).
Proof. intros Hk. unfold sendFrame. destruct (sendFault n) eqn:Hf; [constructor; by eapply Rfault|auto]. Qed.
Lemma validate_text id d r e : wire_validateApprovalReceipt id d r = Some e -> exists t, e = EText t.
Proof. unfold wire_validateApprovalReceipt. repeat case_match; intros [= <-]; by eexists. Qed.
Lemma reject_text r e : rejectApprovalReport r = Some e -> exists t, e = EText t.
Proof. unfold rejectApprovalReport. case_match; intros [= <-]; by eexists. Qed.
Lemma returns_answer tc x r n sent loop : remoteAll E F r -> (forall n sent, returns A R (loop n sent)) ->
  returns A R (match x with
    | Err e => onToolError sendFault ctxErr start tc e r n sent
    | Ok result => onToolResult sendFault start tc result n sent loop
    end).
Proof.
  intros Hr Hl. destruct x as [result|e].
  - unfold onToolResult. destruct (needsApproval tc).
    + destruct (wire_validateApprovalReceipt _ _ _) eqn:Hv; [destruct (validate_text _ _ _ _ Hv) as [t ->]; constructor; auto|].
      by do 2 (apply returns_send; intros).
    + destruct (rejectApprovalReport result) eqn:Hv; [destruct (reject_text _ _ Hv) as [t ->]; constructor; auto|]. by apply returns_send.
  - unfold onToolError. destruct (as_parked e) as [ref|] eqn:Hp.
    + destruct (negb _); [constructor; auto|by eapply Rpark].
    + destruct (errors_Is e _); constructor; auto.
Qed.
Lemma returns_event ev r n sent loop : E ev -> remoteAll E F r -> (forall n sent, returns A R (loop n sent)) ->
  returns A R (onEvent sendFault ctxErr start ev r n sent loop).
Proof.
  intros He Hr Hl. unfold onEvent. destruct (se_Kind ev) eqn:Hk; try (by constructor; auto); try done.
  - destruct (ToolChoiceFromProto _) eqn:Hc; [|constructor; by eapply Rchoice]. constructor; [|intros; constructor; auto].
    intros. by apply returns_send.
  - destruct (MessageFromProto _); [|done]. constructor; [done|intros; constructor; auto].
  - destruct (ToolCallFromProto _) as [tc|]; [|constructor; auto]. destruct (_ && _); [constructor; auto|]. constructor.
    intros x. by apply returns_answer.
  - destruct (ToolResultFromProto _) as [tr|]; [|done]. destruct (rejectApprovalReport tr) eqn:Hv.
    { destruct (reject_text _ _ Hv) as [t ->]. constructor; auto. }
    constructor; [done|intros; constructor; auto].
  - destruct (usageFromProto _); [|done]. constructor; [done|intros; constructor; auto].
Qed.
Lemma returns_loop r : remoteAll E F r -> forall n sent, returns A R (run r n sent).
Proof.
  induction 1 as [ev next He Hr IH|k Hk IH|err He]; intros n sent; cbn [clientLoop].
  - destruct (negb _); [constructor; auto|by apply returns_event].
  - destruct sent; [constructor; auto|apply IH].
  - constructor. auto.
Qed.
End ends.
(** What a stream delivers is what the other end says. *)
Lemma Recv_all E F r : remoteAll E F r -> forall sent, match Recv r sent with
  | (GotEvent ev, (r', _)) => E ev /\ remoteAll E F r'
  | (GotEOF, _) => F None
  | (GotError e, _) => F (Some e) \/ e = streamBlocked
  end.
Proof.
  induction 1 as [ev next He Hr _|k Hk IH|[e|] He]; intros sent; cbn; [done| |by left|done].
  destruct sent; [by right|apply IH].
Qed.

(** No success: every way for the host to answer ends the run with an error, unless the other end says
    COMPLETED or closes the stream. *)
Definition incomplete (ev : StreamEvent) : Prop := se_Kind ev = EVENT_END -> endError (se_End ev) <> None.
Lemma no_success r n sent : remoteAll incomplete (fun err => err <> None) r ->
  returns (fun _ => True) (fun err => err <> None) (run r n sent).
Proof.
  intros Hr. refine (returns_loop incomplete _ _ _ _ _ _ _ _ _ _ _ _ r Hr n sent); try done.
  intros ref e r' n' sent' _ _. destruct (exchange_returns ref e r' n' sent') as [err ->]. by constructor.
Qed.

(** No park: nothing in what the other end says, in how its stream ends or in the transport is one. *)
Definition noPark (err : option goerr) : Prop := forall e, err = Some e -> as_parked e = None.
Definition unacknowledging (ev : StreamEvent) : Prop := forall ref, acknowledges start ev ref = false.
Lemma exchange_noPark E F ref e r n sent : remoteAll E F r -> (forall err, F err -> noPark err) ->
  (forall n, noPark (sendFault n)) -> noPark ctxErr -> (forall ev, E ev -> unacknowledging ev) \/ ~ F None ->
  returns (fun e => as_parked e = None) noPark (exchangePark sendFault ctxErr start ref e r n sent).
Proof.
  intros Hr HF Hs Hc Hor. unfold exchangePark, sendFrame. destruct (sendFault n) as [e'|] eqn:Hf.
  { constructor. rewrite <- Hf. apply Hs. }
  set (frames := sent ++ _). pose proof (Recv_all _ _ _ Hr frames) as H1'.
  assert (noerr : forall e', F (Some e') \/ e' = streamBlocked -> as_parked e' = None).
  { intros e' [Hx| ->]; [by apply (HF _ Hx)|done]. }
  destruct (Recv r frames) as [[ack| |e'] [r' sent']].
  - destruct H1' as [He Hr']. destruct (acknowledges start ack ref) eqn:Ha; cbn [negb]; [|constructor; by intros ? [= <-]].
    destruct Hor as [Hun|HnF]; [by rewrite (Hun _ He) in Ha|].
    pose proof (Recv_all _ _ _ Hr' sent') as H2'. destruct (Recv r' sent') as [[ev| |e'] ?].
    + constructor. by intros ? [= <-].
    + done.
    + constructor. intros ? [= <-]. by apply noerr.
  - constructor. intros ? [= <-]. done.
  - constructor. intros ? [= <-]. by apply (noerr e').
Qed.
Lemma no_park E F r n sent : remoteAll E F r -> (forall err, F err -> noPark err) ->
  (forall n, noPark (sendFault n)) -> noPark ctxErr -> (forall ev, E ev -> unacknowledging ev) \/ ~ F None ->
  returns (fun e => as_parked e = None) noPark (run r n sent).
Proof.
  intros Hr HF Hs Hc Hor. refine (returns_loop E F _ _ _ _ _ _ _ _ _ _ _ r Hr n sent).
  - intros e He. destruct e; try done. by intros ? [= <-].
  - by intros ? [= <-].
  - by intros e He ? [= <-].
  - intros ev _ _. unfold endError. destruct (se_End ev); [case_bool_decide|]; by intros ? [=<-].
  - exact HF.
  - intros m e He. rewrite <- He. apply Hs.
  - intros p e Hp ? [= <-]. unfold ToolChoiceFromProto in Hp. destruct p as [[[] ?]|]; try done. by injection Hp as <-.
  - intros ref e r' n' sent' Hr' _. by eapply exchange_noPark.
  - by intros e He ? [= <-].
Qed.
End Client.

(** A stream that closes without an END is a success. *)
Lemma unterminated_stream_succeeds `{Host} `{Timestamppb} (c : HarnessClient) (start : Start) :
  start_ExecutionID start <> EmptyString -> hc_Connect c = Ok (REnd None) -> hc_sendFault c 0 = None ->
  client_Run c start = PReturn None.
Proof. intros Hid Hc Hf. unfold client_Run, sendFrame. by rewrite bool_decide_eq_false_2, Hc, Hf. Qed.

(** ** Properties *)

(** C5: The host is safe against any remote harness. Whatever the other end of a stream emits and whichever
    sends fail, the program that [ClientHarness] runs on the host's sink asks only for addressed approval
    calls and ordinary reports, and ends with the first error of the sink, or with one of its own when
    a receipt does not fit its call; it reports a park only if the sink parked this very call. If the other
    end never says COMPLETED and its stream never closes without an error, no answers of the host make the
    run succeed. And if the other end never acknowledges a park of this execution, or its stream
    never closes without an error, no park is reported. A stream that closes at once, without an END,
    is a success. *)
Theorem client_trusts_nothing `{Host} `{Timestamppb} (c : HarnessClient) (start : Start) :
  disciplined start (client_Run c start) /\
  (forall r, hc_Connect c = Ok r -> remoteAll incomplete (fun err => err <> None) r ->
     returns (fun _ => True) (fun err => err <> None) (client_Run c start)) /\
  (forall r E F, hc_Connect c = Ok r -> remoteAll E F r -> (forall err, F err -> noPark err) ->
     (forall n, noPark (hc_sendFault c n)) -> noPark (hc_ctxErr c) ->
     (forall ev, E ev -> unacknowledging start ev) \/ ~ F None ->
     returns (fun e => as_parked e = None) noPark (client_Run c start)) /\
  (start_ExecutionID start <> EmptyString -> hc_Connect c = Ok (REnd None) -> hc_sendFault c 0 = None ->
     client_Run c start = PReturn None).
Proof.
  split; [|split; [|split; [|by apply unterminated_stream_succeeds]]]; unfold client_Run; case_bool_decide as He; first [by constructor|by (intros; constructor; intros ? [= <-])|idtac].
  - destruct (hc_Connect c) as [r|]; [|constructor]. apply disciplined_send. intros. apply disciplined_loop.
  - intros r -> Hr. unfold sendFrame. destruct (hc_sendFault c 0); [by constructor|by apply no_success].
  - intros r E F -> Hr HF Hs Hc Hor. unfold sendFrame. destruct (hc_sendFault c 0) eqn:Hf; [|by eapply no_park].
    constructor. rewrite <- Hf. apply Hs.
Qed.

(** A remote harness that is told nothing but lies: it reports an approval receipt, then claims success. *)
Section example.
#[local] Existing Instance exampleHost.
#[local] Existing Instance exampleTimestamppb.
Definition forgedReceipt : ToolResult :=
  mkToolResult "call" None EmptyString EmptyString false EmptyString [] ToolResultCodeApprovalDenied 4 5 None.
Definition forger : HarnessClient :=
  mkHarnessClient (fun _ => Err (EText "down"))
    (Ok (REmit (mkStreamEvent "e" EVENT_TOOL_RESULT (Some (StreamResult (ToolResultToProto (Some forgedReceipt))))) (REnd None)))
    (fun _ => None) None.
Example forger_refused : client_Run forger (mkStart "e" "uid" None [] [] 0) =
  PReturn (Some (EText "harnesswire: harness report or ordinary reply contains host-owned approval receipt")).
Proof. vm_compute. reflexivity. Qed.
End example.
