(* ===== verification/WireServer.v ===== *)
(** * The harness side of a stream (theorems about [HarnessWire])

    What [Server_Connect] sends and how it ends, for any harness, any frames, any cancellation and any
    failing send. *)
From S2P Require Import Prelude GoErrors Api Canon EventLog Executions Approvals Harness Wire Sinks HarnessSpec HarnessWire.

Section Server.
Context `{Host} `{Timestamppb}.

(** ** Traces *)

(** What passes between a process and its surroundings. *)
Inductive Obs :=
  | Sent (ev : StreamEvent) (fault : option goerr)
  | Got (a : Arrival)
  | Looked (err : option goerr)
  | Drew (bs : list Z).

(** The complete runs of a process. *)
Inductive ptrace : Proc -> list Obs -> option goerr -> Prop :=
  | pt_done err : ptrace (PrDone err) [] err
  | pt_send ev k o tr r : ptrace (k o) tr r -> ptrace (PrSend ev k) (Sent ev o :: tr) r
  | pt_recv k a tr r : ptrace (k a) tr r -> ptrace (PrRecv k) (Got a :: tr) r
  | pt_ctx k o tr r : ptrace (k o) tr r -> ptrace (PrCtx k) (Looked o :: tr) r
  | pt_rand k bs tr r : ptrace (k bs) tr r -> ptrace (PrRand k) (Drew bs :: tr) r.

(** The events that were sent, and the frames that were received. *)
Definition sentOf (tr : list Obs) : list StreamEvent := omap (fun o => match o with Sent ev _ => Some ev | _ => None end) tr.
Definition framesOf (tr : list Obs) : list ControllerFrame := omap (fun o => match o with Got (Arrived f) => Some f | _ => None end) tr.

Lemma sentOf_app tr1 tr2 : sentOf (tr1 ++ tr2) = sentOf tr1 ++ sentOf tr2.
Proof. apply omap_app. Qed.
Lemma framesOf_app tr1 tr2 : framesOf (tr1 ++ tr2) = framesOf tr1 ++ framesOf tr2.
Proof. apply omap_app. Qed.

Lemma sentOf_nil : sentOf [] = [].
Proof. done. Qed.
Lemma framesOf_nil : framesOf [] = [].
Proof. done. Qed.
Lemma sentOf_cons o tr : sentOf (o :: tr) = match o with Sent ev _ => [ev] | _ => [] end ++ sentOf tr.
Proof. by destruct o. Qed.
Lemma framesOf_cons o tr : framesOf (o :: tr) = match o with Got (Arrived f) => [f] | _ => [] end ++ framesOf tr.
Proof. by destruct o as [|[]| |]. Qed.
#[local] Arguments sentOf : simpl never.
#[local] Arguments framesOf : simpl never.
(** What was said in a trace that is known but for its end. *)
Ltac said := rewrite ?sentOf_app, ?framesOf_app, ?sentOf_cons, ?framesOf_cons, ?sentOf_nil, ?framesOf_nil; cbn [app].

(** ** What the operations of the sink do

    [m] from [s], run to its continuation, leaves [tr], the sink [s'] and the result [x]. *)
Definition runsTo {A} (m : SinkM A) (s : streamSink) (P : list Obs -> streamSink -> res A -> Prop) : Prop :=
  forall k tr r, ptrace (m s k) tr r -> exists tr1 tr2 s' x, tr = tr1 ++ tr2 /\ P tr1 s' x /\ ptrace (k s' x) tr2 r.

Lemma obs_ret {A} (a : A) s P : P [] s (Ok a) -> runsTo (mret a) s P.
Proof. intros HP k tr r Ht. exists [], tr, s, (Ok a). done. Qed.
Lemma runs_fails {A} (e : goerr) s (P : list Obs -> streamSink -> res A -> Prop) : P [] s (Err e) -> runsTo (fails_ e) s P.
Proof. intros HP k tr r Ht. exists [], tr, s, (Err e). done. Qed.
Lemma obs_bind {A B} (m : SinkM A) (f : A -> SinkM B) s P Q :
  runsTo m s P -> (forall tr s' e, P tr s' (Err e) -> Q tr s' (Err e)) ->
  (forall tr1 s' a, P tr1 s' (Ok a) -> runsTo (f a) s' (fun tr2 => Q (tr1 ++ tr2))) -> runsTo (m ≫= f) s Q.
Proof.
  intros Hm He Hf k tr r Ht. destruct (Hm _ _ _ Ht) as (tr1 & tr2 & s' & [a|e] & -> & HP & Hk).
  - destruct (Hf _ _ _ HP _ _ _ Hk) as (tr3 & tr4 & s'' & x & -> & HQ & Hk'). exists (tr1 ++ tr3), tr4, s'', x. by rewrite app_assoc.
  - exists tr1, tr2, s', (Err e). auto.
Qed.
Lemma runs_mono {A} (m : SinkM A) s (P Q : list Obs -> streamSink -> res A -> Prop) :
  runsTo m s P -> (forall tr s' x, P tr s' x -> Q tr s' x) -> runsTo m s Q.
Proof. intros Hm HPQ k tr r Ht. destruct (Hm _ _ _ Ht) as (tr1 & tr2 & s' & x & ? & ? & ?). eauto 10. Qed.

(** ** The protocol *)

Variables (executionID session : string).
Abbreviation event := (streamEvent executionID).
Definition failed (e : goerr) : streamSink := mkStreamSink None (Some e).
Definition parked (ref : ApprovalRef) : streamSink := mkStreamSink (Some ref) None.

(** How a harness ends when every further call of its sink answers [e]. *)
Fixpoint sealedRun (e : goerr) (p : Prog) : option goerr :=
  match p with
  | PReturn err => err
  | PModel _ k => sealedRun e (k (Err e))
  | POutput _ k | PReport _ k | PUsage _ k => sealedRun e (k (Some e))
  | PToolCall _ k => sealedRun e (k (Err e))
  end.

Definition modelEvent (req : ModelRequest) (id : string) (choice : option PbToolChoice) : StreamEvent :=
  event EVENT_MODEL_CALL (StreamModel (Some (mkWireModelCall (mr_Model req) (mr_Params req) EmptyString id
    (messagesToProto (Messages req)) (ToolDefinitionsToProto (Tools req)) choice))).
Definition toolEvent (call : ToolCall) : StreamEvent := event EVENT_TOOL_CALL (StreamTool (ToolCallToProto (Some call))).
Definition outputEvent (d : string) : StreamEvent :=
  event EVENT_OUTPUT (StreamMessage (MessageToProto (Some (TextMessage "assistant" d)))).
Definition reportEvent (tr : ToolResult) : StreamEvent := event EVENT_TOOL_RESULT (StreamResult (ToolResultToProto (Some tr))).
Definition usageEvent (u : Usage) : StreamEvent := event EVENT_USAGE (StreamUsage (usageToProto (Some u))).

(** A call without an answer: it fails, or its event is sent last, with the send's outcome. *)
Definition plainExchange (ev : StreamEvent) (tr : list Obs) (o : option goerr) : Prop :=
  framesOf tr = [] /\ ((sentOf tr = [] /\ o <> None) \/ exists tr0, tr = tr0 ++ [Sent ev o] /\ sentOf tr0 = []).

(** A model call: at most one event and one frame, and an answer only from the frame that names the call. *)
Inductive modelExchange (req : ModelRequest) (tr : list Obs) : res ModelResponse -> Prop :=
  | me_error e : sentOf tr = [] \/ (exists id choice, sentOf tr = [modelEvent req id choice]) ->
      (length (framesOf tr) <= length (sentOf tr))%nat -> modelExchange req tr (Err e)
  | me_answer id choice f mr : ToolChoiceToProto (mr_ToolChoice req) = Ok choice ->
      sentOf tr = [modelEvent req id choice] -> framesOf tr = [f] -> cf_ExecutionId f = executionID ->
      cf_Model f = Some mr -> pmr_ModelCallId mr = id ->
      modelExchange req tr (Ok (mkModelResponse (default zeroMessage (MessageFromProto (pmr_Message mr)))
        (default zeroUsage (usageFromProto (pmr_Usage mr))))).

(** A frame of this session and execution. *)
Definition ours (f : ControllerFrame) : Prop := cf_ExecutionId f = executionID /\ cf_Session f = session.

(** A tool call, with the sink it leaves: it is given up before it was sent; it fails for good; the host
    parks it; or it has an answer, which is an ordinary result, or a decision with its receipt. *)
Inductive toolExchange (call : ToolCall) (tr : list Obs) : streamSink -> res ToolResult -> Prop :=
  | te_unsent e : framesOf tr = [] -> sentOf tr = [] \/ sentOf tr = [toolEvent call] -> toolExchange call tr newStreamSink (Err e)
  | te_failed e : sentOf tr = [] \/ sentOf tr = [toolEvent call] -> (length (framesOf tr) <= 2 * length (sentOf tr))%nat ->
      toolExchange call tr (failed e) (Err e)
  | te_parked f park : sentOf tr = [toolEvent call] -> framesOf tr = [f] -> ours f -> needsApproval call = true ->
      cf_Park f = Some park -> pbref_ExecutionId park = executionID -> pbref_ToolCallId park = tc_ID call -> 0 < pbref_RequestSeq park ->
      let ref := mkApprovalRef executionID (tc_ID call) (pbref_RequestSeq park) in
      toolExchange call tr (parked ref) (Err (EParked ref))
  | te_result f r : sentOf tr = [toolEvent call] -> framesOf tr = [f] -> ours f -> needsApproval call = false ->
      ToolResultFromProto (cf_Tool f) = Some r -> tr_ID r = tc_ID call -> rejectApprovalReport r = None ->
      toolExchange call tr newStreamSink (Ok r)
  | te_approved f1 f2 d r : sentOf tr = [toolEvent call] -> framesOf tr = [f1; f2] -> ours f1 -> ours f2 -> needsApproval call = true ->
      approvalResFromProto (cf_Approval f1) = Some d -> ToolResultFromProto (cf_Tool f2) = Some r ->
      wire_validateApprovalReceipt (tc_ID call) (Some d) r = None ->
      toolExchange call tr newStreamSink (Ok (setResultApproval (Some d) r)).

(** What a harness and its host say to each other, with how the harness ends and the sink it leaves. Once
    the sink is sealed nothing more is said, and the harness only meets the error that sealed it. *)
Inductive conversation : Prog -> list Obs -> option goerr -> streamSink -> Prop :=
  | cv_return err : conversation (PReturn err) [] err newStreamSink
  | cv_model req k tr1 tr2 x err s : modelExchange req tr1 x -> conversation (k x) tr2 err s ->
      conversation (PModel req k) (tr1 ++ tr2) err s
  | cv_output d k tr1 tr2 o err s : plainExchange (outputEvent d) tr1 o -> conversation (k o) tr2 err s ->
      conversation (POutput d k) (tr1 ++ tr2) err s
  | cv_tool call k tr1 tr2 x err s : toolExchange call tr1 newStreamSink x -> conversation (k x) tr2 err s ->
      conversation (PToolCall call k) (tr1 ++ tr2) err s
  | cv_tool_sealed call k tr s e : toolExchange call tr s (Err e) -> s = failed e \/ (exists ref, s = parked ref /\ e = EParked ref) ->
      conversation (PToolCall call k) tr (sealedRun e (k (Err e))) s
  | cv_report tr k tr1 tr2 o err s : plainExchange (reportEvent tr) tr1 o -> rejectApprovalReport tr = None \/ sentOf tr1 = [] ->
      conversation (k o) tr2 err s -> conversation (PReport tr k) (tr1 ++ tr2) err s
  | cv_report_refused tr k tr1 e : rejectApprovalReport tr = Some e -> sentOf tr1 = [] -> framesOf tr1 = [] ->
      conversation (PReport tr k) tr1 (sealedRun e (k (Some e))) (failed e)
  | cv_usage u k tr1 tr2 o err s : plainExchange (usageEvent u) tr1 o -> conversation (k o) tr2 err s ->
      conversation (PUsage u k) (tr1 ++ tr2) err s.

(** How [Connect] ends: a park is acknowledged unless the harness failed otherwise; otherwise there is
    one END, which is COMPLETED exactly when nothing failed. *)
Definition endEvent (err : option goerr) : StreamEvent :=
  event EVENT_END (StreamEnd (Some (match err with
    | None => mkPbHarnessEnd "COMPLETED" None
    | Some e => mkPbHarnessEnd "FAILED" (Some (mkPbError 0 (errText e)))
    end))).
Definition ending (s : streamSink) (err : option goerr) (tr : list Obs) (r : option goerr) : Prop :=
  match ss_parked s with
  | Some ref =>
      match err with
      | Some e => if IsParkUnwind e ref then tr = [Sent (event EVENT_PARKED (StreamParked (approvalRefToProto (Some ref)))) r]
                  else tr = [] /\ r = Some e
      | None => tr = [Sent (event EVENT_PARKED (StreamParked (approvalRefToProto (Some ref)))) r]
      end
  | None =>
      match match ss_failure s with Some e => Some e | None => err end with
      | Some e => (exists o, tr = [Sent (endEvent (Some e)) o]) /\ r = Some e
      | None => tr = [Sent (endEvent None) r]
      end
  end.

(** ** The operations follow it *)

Lemma runs_check (P : list Obs -> streamSink -> res unit -> Prop) :
  (forall e, P [Looked (Some e)] newStreamSink (Err e)) -> P [Looked None] newStreamSink (Ok tt) -> runsTo ss_check newStreamSink P.
Proof.
  intros He Hok k tr r Ht. cbn in Ht. inversion Ht as [| | |? o tr' ? Hk|]; subst. exists [Looked o], tr', newStreamSink.
  destruct o as [e|]; eauto.
Qed.
Lemma runs_send ev s (P : list Obs -> streamSink -> res unit -> Prop) :
  (forall e, P [Sent ev (Some e)] s (Err e)) -> P [Sent ev None] s (Ok tt) -> runsTo (sendEvent ev) s P.
Proof.
  intros He Hok k tr r Ht. cbn in Ht. inversion Ht as [|? ? o tr' ? Hk| | |]; subst. exists [Sent ev o], tr', s.
  destruct o as [e|]; eauto.
Qed.
Lemma runs_orFail {A} (m : SinkM A) s P Q : runsTo m s P -> (forall tr s' a, P tr s' (Ok a) -> Q tr s' (Ok a)) ->
  (forall tr s' e, P tr s' (Err e) -> let e := default e (ss_failure s') in Q tr (mkStreamSink (ss_parked s') (Some e)) (Err e)) ->
  runsTo (orFailS m) s Q.
Proof.
  intros Hm Hok He k tr r Ht. destruct (Hm _ _ _ Ht) as (tr1 & tr2 & s' & [a|e] & -> & HP & Hk).
  - exists tr1, tr2, s', (Ok a). auto.
  - unfold ss_fail in Hk. eexists tr1, tr2, _, _. split; [done|]. split; [|exact Hk]. by apply He.
Qed.
Lemma runs_fail {A} e (P : list Obs -> streamSink -> res A -> Prop) : P [] (failed e) (Err e) -> runsTo (ss_fail e) newStreamSink P.
Proof. intros HP k tr r Ht. exists [], tr, (failed e), (Err e). done. Qed.

(** Choose the observations [L] and the result [x] of an await. *)
Ltac heard L x Hs Hf := eexists L, _, newStreamSink, x; split; [reflexivity|]; split;
  [said; rewrite Hs, Hf; split; [done|split; [done|first [done|cbn; lia]]]|eassumption].
(** A reply of this execution, or an error. *)
Definition replied (tr : list Obs) (s : streamSink) (x : res ControllerFrame) : Prop :=
  s = newStreamSink /\ sentOf tr = [] /\
  match x with Ok f => framesOf tr = [f] /\ cf_ExecutionId f = executionID | Err _ => (length (framesOf tr) <= 1)%nat end.
Lemma runs_await : runsTo (awaitResult executionID) newStreamSink replied.
Proof.
  unfold awaitResult. eapply obs_bind; [apply (runs_check (fun tr s _ => s = newStreamSink /\ sentOf tr = [] /\ framesOf tr = [])); done| |].
  { intros tr s' e (-> & Hs & Hf). unfold replied. rewrite Hs, Hf. cbn. split; [done|]. split; [done|lia]. }
  intros tr1 s' [] (-> & Hs1 & Hf1). unfold replied.
  intros k tr r Ht. unfold mbind, SinkM_bind, recvFrame in Ht. inversion Ht as [| |? a tr' ? Hk| |]; subst. clear Ht.
  destruct a as [f| |e]; [| |heard [Got (CtxDone e)] (Err e : res ControllerFrame) Hs1 Hf1];
    unfold ss_check in Hk; cbn in Hk; inversion Hk as [| | |? o tr'' ? Hk'|]; subst; clear Hk.
  - destruct o as [e|]; [heard [Got (Arrived f); Looked (Some e)] (Err e : res ControllerFrame) Hs1 Hf1|]. cbn in Hk'.
    destruct (bool_decide_reflect (cf_ExecutionId f = executionID)) as [Hid|Hid]; cbn in Hk'.
    + heard [Got (Arrived f); Looked None] (Ok f : res ControllerFrame) Hs1 Hf1.
    + heard [Got (Arrived f); Looked None] (Err (EText "harnesswire: result execution_id mismatch") : res ControllerFrame) Hs1 Hf1.
  - destruct o as [e|]; [heard [Got Closed; Looked (Some e)] (Err e : res ControllerFrame) Hs1 Hf1|].
    cbn in Hk'. inversion Hk' as [| | |? o tr3 ? Hk2|]; subst; clear Hk'. destruct o as [e|].
    + heard [Got Closed; Looked None; Looked (Some e)] (Err e : res ControllerFrame) Hs1 Hf1.
    + heard [Got Closed; Looked None; Looked None] (Err io_EOF : res ControllerFrame) Hs1 Hf1.
Qed.

(** Nothing was said. *)
Definition silent (tr : list Obs) : Prop := sentOf tr = [] /\ framesOf tr = [].
Lemma runs_checked {A} (m : SinkM A) P : (forall e, P [Looked (Some e)] newStreamSink (Err e)) ->
  runsTo m newStreamSink (fun tr => P (Looked None :: tr)) -> runsTo (ss_check ≫= fun _ => m) newStreamSink P.
Proof.
  intros He Hm. eapply obs_bind; [eapply (runs_check (fun tr s x => s = newStreamSink /\ match x with Ok _ => tr = [Looked None] | Err e => tr = [Looked (Some e)] end))| |].
  - done.
  - done.
  - by intros tr s e [-> ->].
  - by intros tr s [] [-> ->].
Qed.
Lemma runs_sent {A} ev (m : SinkM A) P : (forall e, P [Sent ev (Some e)] newStreamSink (Err e)) ->
  runsTo m newStreamSink (fun tr => P (Sent ev None :: tr)) -> runsTo (sendEvent ev ≫= fun _ => m) newStreamSink P.
Proof.
  intros He Hm. eapply obs_bind; [eapply (runs_send ev _ (fun tr s x => s = newStreamSink /\ match x with Ok _ => tr = [Sent ev None] | Err e => tr = [Sent ev (Some e)] end))| |].
  - done.
  - done.
  - by intros tr s e [-> ->].
  - by intros tr s [] [-> ->].
Qed.

Lemma runs_plain ev : runsTo (ss_check ≫= fun _ => sendEvent ev) newStreamSink
  (fun tr s x => s = newStreamSink /\ plainExchange ev tr (err_of x)).
Proof.
  apply runs_checked; [intros e; split; [done|]; split; [done|by left]|]. apply runs_send; [intros e|];
    (split; [done|]; split; [done|]; right; by exists [Looked None]).
Qed.

Lemma runs_model req : runsTo (stream_Model executionID req) newStreamSink (fun tr s x => s = newStreamSink /\ modelExchange req tr x).
Proof.
  unfold stream_Model. apply runs_checked; [intros e; split; [done|]; apply me_error; [by left|said; cbn; lia]|].
  destruct (ToolChoiceToProto _) as [choice|e] eqn:Hc; [|apply runs_fails; split; [done|]; apply me_error; [by left|said; cbn; lia]].
  intros k tr r Ht. unfold mbind at 1, SinkM_bind at 1, newID_ at 1 in Ht. inversion Ht as [| | | |? bs tr' ? Hk]; subst. clear Ht.
  revert k tr' r Hk. set (id := hexEncode bs).
  enough (runsTo (sendEvent (modelEvent req id choice) ≫= fun _ => awaitResult executionID ≫= fun frame =>
    match cf_Model frame with
    | None => fails_ (EText "harnesswire: expected a ModelResult frame")
    | Some mr => if negb (bool_decide (pmr_ModelCallId mr = id)) then fails_ (EText "harnesswire: model result correlation mismatch")
        else mret (mkModelResponse (default zeroMessage (MessageFromProto (pmr_Message mr))) (default zeroUsage (usageFromProto (pmr_Usage mr))))
    end) newStreamSink (fun tr s x => s = newStreamSink /\ modelExchange req (Looked None :: Drew bs :: tr) x)) as Hrest.
  { intros k tr' r Hk. destruct (Hrest k tr' r Hk) as (tr1 & tr2 & s' & x & -> & HP & Hk'). by exists (Drew bs :: tr1), tr2, s', x. }
  apply runs_sent; [intros e; split; [done|]; apply me_error; [right; by exists id, choice|said; cbn; lia]|].
  eapply obs_bind; [apply runs_await| |].
  { intros tr s' e (-> & Hs & Hf). split; [done|]. apply me_error; [right; exists id, choice; said; by rewrite Hs|said; rewrite Hs; exact Hf]. }
  intros tr1 s' f (-> & Hs & Hf & Hid).
  assert (Herr : forall e, modelExchange req ((Looked None :: Drew bs :: Sent (modelEvent req id choice) None :: tr1) ++ []) (Err e)).
  { intros e. rewrite app_nil_r. apply me_error; [right; exists id, choice; said; by rewrite Hs|]. said. by rewrite Hs, Hf. }
  destruct (cf_Model f) as [mr|] eqn:Hm; [|by apply runs_fails].
  case_bool_decide as Hcall; cbn [negb]; [|by apply runs_fails]. apply obs_ret. split; [done|]. rewrite app_nil_r.
  eapply (me_answer _ _ id choice f mr); try done; said; by rewrite Hs.
Qed.

(** A frame of this session and execution, or a failure for good. *)
Definition reply (tr : list Obs) (s : streamSink) (x : res ControllerFrame) : Prop :=
  sentOf tr = [] /\
  match x with Ok f => s = newStreamSink /\ framesOf tr = [f] /\ ours f | Err e => s = failed e /\ (length (framesOf tr) <= 1)%nat end.
Lemma runs_reply {A} (m : ControllerFrame -> SinkM A) Q :
  (forall tr e, reply tr (failed e) (Err e) -> Q tr (failed e) (Err e)) ->
  (forall tr f, reply tr newStreamSink (Ok f) -> runsTo (m f) newStreamSink (fun tr2 => Q (tr ++ tr2))) ->
  runsTo (orFailS (awaitResult executionID) ≫= fun f => sameSession session f ≫= fun _ => m f) newStreamSink Q.
Proof.
  intros He Hm. eapply obs_bind; [eapply (runs_orFail _ _ _ (fun tr s x => sentOf tr = [] /\ match x with
    | Ok f => s = newStreamSink /\ framesOf tr = [f] /\ cf_ExecutionId f = executionID
    | Err e => s = failed e /\ (length (framesOf tr) <= 1)%nat end)); [apply runs_await| |]| |].
  - intros tr s f (-> & Hs & Hf & Hid). by repeat split.
  - intros tr s e (-> & Hs & Hf). cbn. by repeat split.
  - intros tr s e (Hs & -> & Hf). by apply He.
  - intros tr s f (Hs & -> & Hf & Hid). unfold sameSession. case_bool_decide as Hses; cbn [negb].
    + intros k tr2 r Ht. exact (Hm tr f ltac:(by repeat split) k tr2 r Ht).
    + intros k tr2 r Ht. eexists [], tr2, _, (Err _). rewrite app_nil_r. split; [done|]. split; [|exact Ht].
      apply He. split; [done|]. split; [done|]. by rewrite Hf.
Qed.

(** What a call that requires approval is answered with first. *)
Definition decided (call : ToolCall) (f : ControllerFrame) (s : streamSink) (x : res (option ApprovalResult)) : Prop :=
  match x with
  | Ok d => s = newStreamSink /\ exists d', d = Some d' /\ approvalResFromProto (cf_Approval f) = Some d'
  | Err e => s = failed e \/ exists park, cf_Park f = Some park /\ pbref_ExecutionId park = executionID /\
      pbref_ToolCallId park = tc_ID call /\ 0 < pbref_RequestSeq park /\
      s = parked (mkApprovalRef executionID (tc_ID call) (pbref_RequestSeq park)) /\
      e = EParked (mkApprovalRef executionID (tc_ID call) (pbref_RequestSeq park))
  end.
Lemma runs_decision call f : runsTo (awaitDecision executionID call f) newStreamSink (fun tr s x => tr = [] /\ decided call f s x).
Proof.
  unfold awaitDecision. destruct (cf_Park f) as [park|] eqn:Hp.
  - destruct (_ || _) eqn:Hb; [by apply runs_fail; split; [|left]|]. apply orb_false_iff in Hb as [[Hb1 Hb2]%orb_false_iff Hb3].
    apply negb_false_iff, bool_decide_eq_true in Hb1, Hb2. apply Z.leb_gt in Hb3.
    intros k tr r Ht. eexists [], tr, _, (Err _). split; [done|]. split; [|exact Ht]. split; [done|]. right. by exists park.
  - destruct (cf_Approval f) as [d|] eqn:Ha; [|by apply runs_fail; split; [|left]].
    destruct (_ || _); [by apply runs_fail; split; [|left]|]. apply obs_ret. split; [done|]. split; [done|].
    eexists. split; [done|]. unfold decided, approvalResFromProto. by rewrite Ha.
Qed.

(** The frames that answer a call, or how it fails. *)
Definition toolAnswered (call : ToolCall) (tr : list Obs) (s : streamSink) (x : res (option ApprovalResult * ControllerFrame)) : Prop :=
  sentOf tr = [] /\
  match x with
  | Ok (d, f) => s = newStreamSink /\ ours f /\
      if needsApproval call then exists f1 d', framesOf tr = [f1; f] /\ ours f1 /\ d = Some d' /\ approvalResFromProto (cf_Approval f1) = Some d'
      else framesOf tr = [f] /\ d = None
  | Err e => (s = failed e /\ (length (framesOf tr) <= 2)%nat) \/
      (needsApproval call = true /\ exists f, framesOf tr = [f] /\ ours f /\ decided call f s (Err e) /\ s <> failed e)
  end.
Lemma runs_answer call : runsTo (awaitAnswer executionID session call) newStreamSink (toolAnswered call).
Proof.
  unfold awaitAnswer. apply runs_reply.
  { intros tr e (Hs & _ & Hf). split; [done|]. left. split; [done|lia]. }
  intros tr1 f (Hs & _ & Hf & Hours). unfold toolAnswered. destruct (needsApproval call) eqn:Hn.
  2: { apply obs_ret. rewrite app_nil_r. split; [done|]. split; [done|]. split; [done|]. by split. }
  eapply obs_bind; [apply runs_decision| |].
  - intros tr s e [-> Hd]. rewrite app_nil_r. split; [done|]. destruct Hd as [->|Hd]; [left; rewrite Hf; split; [done|cbn; lia]|].
    right. split; [done|]. exists f. split; [done|]. split; [done|]. split; [by right|].
    destruct Hd as (park & _ & _ & _ & _ & -> & _). done.
  - intros tr s d [-> (-> & d' & -> & Hd)]. cbn [app]. apply runs_reply.
    + intros tr e (Hs' & _ & Hf'). rewrite sentOf_app, framesOf_app, Hs, Hs', Hf, length_app. split; [done|]. left. split; [done|cbn; lia].
    + intros tr f2 (Hs' & _ & Hf' & Hours'). apply obs_ret. rewrite app_nil_r, sentOf_app, framesOf_app, Hs, Hs', Hf, Hf'.
      split; [done|]. split; [done|]. split; [done|]. by exists f, d'.
Qed.

Lemma runs_receipt call d f s P :
  (forall e, P [] (failed e) (Err e)) ->
  (forall r, d = None -> ToolResultFromProto (cf_Tool f) = Some r -> tr_ID r = tc_ID call -> rejectApprovalReport r = None -> P [] newStreamSink (Ok r)) ->
  (forall r d', d = Some d' -> ToolResultFromProto (cf_Tool f) = Some r -> wire_validateApprovalReceipt (tc_ID call) d r = None ->
     P [] newStreamSink (Ok (setResultApproval d r))) ->
  s = newStreamSink -> runsTo (readReceipt call d f) s P.
Proof.
  intros He Hr Hd ->. unfold readReceipt. destruct (ToolResultFromProto _) as [r|]; [|by apply runs_fail].
  case_bool_decide as Hid; cbn [negb]; [|by apply runs_fail]. destruct d as [d|].
  - destruct (wire_validateApprovalReceipt _ _ _) eqn:Hv; [by apply runs_fail|]. apply obs_ret. by eapply Hd.
  - destruct (rejectApprovalReport r) eqn:Hv; [by apply runs_fail|]. apply obs_ret. by apply Hr.
Qed.

Lemma runs_toolCall call : runsTo (stream_ToolCall executionID session call) newStreamSink (toolExchange call).
Proof.
  unfold stream_ToolCall. apply runs_checked; [intros e; apply te_unsent; [done|by left]|].
  destruct (_ && _); [apply runs_fail, te_failed; [by left|said; cbn; lia]|].
  apply runs_sent; [intros e; apply te_unsent; [done|by right]|].
  eapply obs_bind; [apply runs_answer| |].
  - intros tr s e [Hs [[-> Hf]|(Hn & f & Hf & Ho & [->|(park & Hp & Hpe & Hpc & Hps & -> & ->)] & Hne)]]; [| |].
    + apply te_failed; said; rewrite Hs; [by right|cbn; lia].
    + done.
    + eapply (te_parked _ _ f park); try done; said; by rewrite ?Hs, ?Hf.
  - intros tr s [d f] (Hs & -> & Ho & Ha). cbn [fst snd]. apply runs_receipt; [| | |done].
    + intros e. rewrite app_nil_r. apply te_failed; said; rewrite Hs; [by right|].
      destruct (needsApproval call); [destruct Ha as (? & ? & -> & _)|destruct Ha as [-> _]]; cbn; lia.
    + intros r -> Hr Hid Hrej. destruct (needsApproval call) eqn:Hn; [by destruct Ha as (? & ? & _ & _ & ? & _)|]. destruct Ha as [Hf _].
      rewrite app_nil_r. eapply (te_result _ _ f); try done; said; by rewrite ?Hs, ?Hf.
    + intros r d' -> Hr Hv. destruct (needsApproval call) eqn:Hn; [|by destruct Ha]. destruct Ha as (f1 & d1 & Hf & Ho1 & [= <-] & Hd).
      rewrite app_nil_r. eapply (te_approved _ _ f1 f); try done; said; by rewrite ?Hs, ?Hf.
Qed.

(** ** Whole runs *)

Definition sealedBy (s : streamSink) (e : goerr) : Prop := s = failed e \/ exists ref, s = parked ref /\ e = EParked ref.
Lemma serve_sealed p s e : sealedBy s e -> serve executionID session p s = connectEnd executionID s (sealedRun e p).
Proof.
  intros Hs. induction p as [err|req k IH|d k IH|tc k IH|tr k IH|u k IH]; cbn [serve sealedRun]; [done|..];
    rewrite <- IH; by destruct Hs as [->|(ref & -> & ->)].
Qed.

Lemma connectEnd_ending s err tr r : ptrace (connectEnd executionID s err) tr r -> ending s err tr r.
Proof.
  unfold connectEnd, ending. destruct (ss_parked s) as [ref|].
  - intros Ht. destruct err as [e|]; [destruct (IsParkUnwind e ref)|]; cbn in Ht; inversion Ht as [|? ? o tr' ? Hk| | |]; subst; try done;
      by inversion Hk.
  - destruct (match ss_failure s with Some e => Some e | None => err end) as [e|]; intros Ht; inversion Ht as [|? ? o tr' ? Hk| | |]; subst;
      inversion Hk; subst; [|done]. split; [by eexists|done].
Qed.

(** One operation of the sink and the rest of the run. *)
Lemma serve_step {A} (m : SinkM A) (k : res A -> Prog) p P tr r : runsTo m newStreamSink P ->
  ptrace (m newStreamSink (fun s' x => serve executionID session (k x) s')) tr r ->
  (forall tr1 x tr2 err s, P tr1 newStreamSink x -> conversation (k x) tr2 err s -> conversation p (tr1 ++ tr2) err s) ->
  (forall tr1 s x, P tr1 s x -> s = newStreamSink \/ exists e, x = Err e /\ sealedBy s e /\ conversation p tr1 (sealedRun e (k x)) s) ->
  (forall x tr r, ptrace (serve executionID session (k x) newStreamSink) tr r -> exists tr1 tr2 err s,
     tr = tr1 ++ tr2 /\ conversation (k x) tr1 err s /\ ending s err tr2 r) ->
  exists tr1 tr2 err s, tr = tr1 ++ tr2 /\ conversation p tr1 err s /\ ending s err tr2 r.
Proof.
  intros Hm Ht Hstep Hseal IH. destruct (Hm _ _ _ Ht) as (tr1 & tr2 & s1 & x & -> & HP & Hk).
  destruct (Hseal _ _ _ HP) as [->|(e & -> & Hs & Hc)].
  - destruct (IH _ _ _ Hk) as (tr3 & tr4 & err & s & -> & Hc & He). exists (tr1 ++ tr3), tr4, err, s.
    rewrite app_assoc. split; [done|]. split; [by eapply Hstep|done].
  - rewrite (serve_sealed _ _ _ Hs) in Hk. exists tr1, tr2, (sealedRun e (k (Err e))), s1. split; [done|]. split; [done|].
    by apply connectEnd_ending.
Qed.

(** [Report]. *)
Definition reportExchange (tr : ToolResult) (obs : list Obs) (s : streamSink) (x : res unit) : Prop :=
  (s = newStreamSink /\ plainExchange (reportEvent tr) obs (err_of x) /\ (rejectApprovalReport tr = None \/ sentOf obs = [])) \/
  exists e, x = Err e /\ s = failed e /\ rejectApprovalReport tr = Some e /\ silent obs.
Lemma runs_report tr : runsTo (stream_Report executionID tr) newStreamSink (reportExchange tr).
Proof.
  unfold stream_Report. apply runs_checked.
  { intros e. left. split; [done|]. split; [|by right]. split; [done|by left]. }
  destruct (rejectApprovalReport tr) as [e|] eqn:Hr; [apply runs_fail; right; by exists e|].
  apply runs_send; [intros e|]; left; (split; [done|]; split; [|by left]; split; [done|right; by exists [Looked None]]).
Qed.

Lemma serve_conversation p : forall tr r, ptrace (serve executionID session p newStreamSink) tr r ->
  exists tr1 tr2 err s, tr = tr1 ++ tr2 /\ conversation p tr1 err s /\ ending s err tr2 r.
Proof.
  induction p as [err|req k IH|d k IH|tc k IH|tr0 k IH|u k IH]; intros tr r Ht; cbn [serve] in Ht.
  - exists [], tr, err, newStreamSink. split; [done|]. split; [constructor|]. by apply connectEnd_ending.
  - eapply (serve_step _ k); [apply runs_model|exact Ht| | |exact IH]; cbn.
    + intros tr1 x tr2 err s [_ Hx]. by econstructor.
    + intros tr1 s x [-> _]. by left.
  - eapply (serve_step _ (fun r => k (err_of r))); [apply runs_plain|exact Ht| | |intros x; apply IH]; cbn.
    + intros tr1 x tr2 err s [_ Hx]. by econstructor.
    + intros tr1 s x [-> _]. by left.
  - eapply (serve_step _ k); [apply runs_toolCall|exact Ht| | |exact IH].
    + intros tr1 x tr2 err s Hx. by econstructor.
    + intros tr1 s x Hx. inversion Hx; subst; try (by left); right; eexists; (split; [done|]);
        (split; [first [by left|right; by eexists]|]); (eapply cv_tool_sealed; [exact Hx|]); [by left|right; by eexists].
  - eapply (serve_step _ (fun r => k (err_of r))); [apply runs_report|exact Ht| | |intros x; apply IH].
    + intros tr1 x tr2 err s [(_ & Hx & Hr)|(e & _ & [=] & _)]. by econstructor.
    + intros tr1 s x [(-> & _)|(e & -> & -> & Hr & [Hs Hf])]; [by left|]. right. exists e. split; [done|]. split; [by left|].
      by apply cv_report_refused.
  - eapply (serve_step _ (fun r => k (err_of r))); [apply runs_plain|exact Ht| | |intros x; apply IH]; cbn.
    + intros tr1 x tr2 err s [_ Hx]. by econstructor.
    + intros tr1 s x [-> _]. by left.
Qed.

(** What a harness says before it ends carries its execution, and ends nothing. *)
Definition effectEvent (ev : StreamEvent) : Prop :=
  se_ExecutionId ev = executionID /\ match se_Kind ev with
  | EVENT_MODEL_CALL | EVENT_OUTPUT | EVENT_TOOL_CALL | EVENT_TOOL_RESULT | EVENT_USAGE => True
  | _ => False
  end.
Lemma plain_effects ev tr o : effectEvent ev -> plainExchange ev tr o -> Forall effectEvent (sentOf tr).
Proof. intros He [_ [[-> _]|(tr0 & -> & Hs)]]; said; [constructor|]. rewrite Hs. constructor; [done|constructor]. Qed.
Lemma tool_effects call tr s x : toolExchange call tr s x -> Forall effectEvent (sentOf tr).
Proof.
  assert (He : effectEvent (toolEvent call)) by by split.
  intros Hx. destruct Hx as [? ? [->| ->]|? [->| ->] ?|? ? -> ? ? ? ? ? ? ?|? ? -> ? ? ? ? ? ?|? ? ? ? -> ? ? ? ? ? ? ?]; by repeat constructor.
Qed.
Lemma conversation_effects p tr err s : conversation p tr err s -> Forall effectEvent (sentOf tr).
Proof.
  induction 1 as [|req k tr1 tr2 x err s Hx _ IH|d k tr1 tr2 o err s Hx _ IH|call k tr1 tr2 x err s Hx _ IH|call k tr s e Hx _|
    tr k tr1 tr2 o err s Hx _ _ IH|tr k tr1 e _ -> _|u k tr1 tr2 o err s Hx _ IH]; rewrite ?sentOf_app, ?Forall_app; try done.
  - split; [|done]. destruct Hx as [? [->|(id & choice & ->)]|? ? ? ? _ -> _ _ _ _]; by repeat constructor.
  - split; [|done]. eapply plain_effects; [|exact Hx]; by split.
  - split; [|done]. by eapply tool_effects.
  - by eapply tool_effects.
  - split; [|done]. eapply plain_effects; [|exact Hx]; by split.
  - split; [|done]. eapply plain_effects; [|exact Hx]; by split.
Qed.
(** What a served stream says last: one terminal event, PARKED or END; nothing only where a parked harness
    failed with an error that is not its park, which [Connect] returns. *)
Definition lastWord (evs : list StreamEvent) (s : streamSink) (err r : option goerr) : Prop :=
  (exists t, evs = [t] /\ (se_Kind t = EVENT_PARKED \/ se_Kind t = EVENT_END)) \/
  (evs = [] /\ exists ref e, ss_parked s = Some ref /\ err = Some e /\ IsParkUnwind e ref = false /\ r = Some e).
Lemma ending_lastWord s err tr r : ending s err tr r -> lastWord (sentOf tr) s err r.
Proof.
  unfold ending, lastWord. destruct (ss_parked s) as [ref|] eqn:Hp.
  - destruct err as [e|]; [|intros ->; left; by eexists; split; [|left]].
    destruct (IsParkUnwind e ref) eqn:Hu; [intros ->; left; by eexists; split; [|left]|].
    intros [-> ->]. right. split; [done|]. by exists ref, e.
  - destruct (match ss_failure s with Some _ => _ | None => _ end); [intros [[o ->] _]|intros ->]; left; eexists; split; try done; by right.
Qed.

End Server.

(** ** Properties *)

(** C4: The harness side of a stream follows its protocol. Whatever frames arrive, whenever the context ends and
    whichever sends fail, [Connect] either refuses a stream that does not begin with the Start of an
    execution, without a word; or its harness holds a [conversation] with the host, and the stream
    ends as it must. In a conversation each call sends at most one event and reads at most the frames
    that answer it; the harness gets an answer only from frames that carry the execution and name the
    call, and for tools the session, with a decision that fits its receipt; and once a call was parked or
    failed for good, nothing more is said, however the harness goes on. At most one terminal event is
    sent, as the last one: a parked run is acknowledged, by its exact reference; a run that is not parked
    sends one END, COMPLETED exactly if the harness returned no error from a sink that is not sealed.
    Only a parked harness that fails with an error of its own ends the stream without a terminal
    event: [Connect] returns that error. *)
Theorem server_protocol `{Host} `{Timestamppb} (run : Start -> Prog) tr r : ptrace (Server_Connect run) tr r ->
  (exists a, tr = [Got a] /\ r <> None /\
     forall f start, a = Arrived f -> cf_Start f = Some start -> cf_ExecutionId f = EmptyString) \/
  exists first start tr1 tr2 err s, tr = Got (Arrived first) :: tr1 ++ tr2 /\
    cf_Start first = Some start /\ cf_ExecutionId first <> EmptyString /\
    conversation (cf_ExecutionId first) (cf_Session first)
      (run (startFromProto (cf_ExecutionId first) (cf_Session first) start)) tr1 err s /\
    Forall (effectEvent (cf_ExecutionId first)) (sentOf tr1) /\
    ending (cf_ExecutionId first) s err tr2 r /\ lastWord (sentOf tr2) s err r.
Proof.
  intros Ht. unfold Server_Connect in Ht. inversion Ht as [| |? a tr' ? Hk| |]; subst. destruct a as [first| |e].
  - destruct (cf_Start first) as [start|] eqn:Hs.
    + case_bool_decide as Hid.
      * inversion Hk; subst. left. eexists. split; [done|]. split; [done|]. by intros f ? [= <-] _.
      * right. destruct (serve_conversation _ _ _ _ _ Hk) as (tr1 & tr2 & err & s & -> & Hc & He).
        exists first, start, tr1, tr2, err, s. do 4 (split; [done|]). split; [by eapply conversation_effects|].
        split; [done|by eapply ending_lastWord].
    + inversion Hk; subst. left. eexists. split; [done|]. split; [done|]. intros f ? [= <-]. congruence.
  - inversion Hk; subst. left. eexists. split; [done|]. split; [done|]. by intros f ? [=].
  - inversion Hk; subst. left. eexists. split; [done|]. split; [done|]. by intros f ? [=].
Qed.

(** *** Witness *)

(** A run whose sends succeed, on the given arrivals. *)
Fixpoint play `{Host} `{Timestamppb} (p : Proc) (arrivals : list Arrival) : list Obs * option goerr :=
  match p with
  | PrDone err => ([], err)
  | PrSend ev k => let '(tr, r) := play (k None) arrivals in (Sent ev None :: tr, r)
  | PrRecv k =>
      let a := match arrivals with a :: _ => a | [] => Closed end in
      let '(tr, r) := play (k a) (tl arrivals) in (Got a :: tr, r)
  | PrCtx k => let '(tr, r) := play (k None) arrivals in (Looked None :: tr, r)
  | PrRand k => let '(tr, r) := play (k [7]) arrivals in (Drew [7] :: tr, r)
  end.
Lemma play_trace `{Host} `{Timestamppb} p : forall arrivals, ptrace p (fst (play p arrivals)) (snd (play p arrivals)).
Proof.
  induction p as [ev k IH|k IH|k IH|k IH|err]; intros arrivals; cbn [play].
  - specialize (IH None arrivals). destruct (play (k None) arrivals). by constructor.
  - specialize (IH (match arrivals with a :: _ => a | [] => Closed end) (tl arrivals)).
    destruct (play (k _) (tl arrivals)). by constructor.
  - specialize (IH None arrivals). destruct (play (k None) arrivals). by constructor.
  - specialize (IH [7] arrivals). destruct (play (k [7]) arrivals). by constructor.
  - constructor.
Qed.

Section example.
#[local] Existing Instance exampleHost.
#[local] Existing Instance exampleTimestamppb.
(** A harness that ignores its park and goes on, and a host that parks it. *)
Definition gateCall : ToolCall := mkToolCall "call" "deploy" None MediationRequiresApproval "key".
Definition gatedRun (s : Start) : Prog :=
  PToolCall gateCall (fun _ => POutput "done" (fun o => PReturn o)).
Definition hostFrame (body : FrameBody) : ControllerFrame := mkControllerFrame "session" "exec" (Some body).
Definition gateArrivals : list Arrival :=
  [Arrived (hostFrame (FrameStart (Some (mkPbStart None [] [] 0))));
   Arrived (hostFrame (FramePark (Some (mkPbApprovalRef "exec" "call" 7))))].
Definition gateTrace : list Obs := fst (play (Server_Connect gatedRun) gateArrivals).
Definition gateResult : option goerr := snd (play (Server_Connect gatedRun) gateArrivals).

Lemma server_protocol_witness :
  (map se_Kind (sentOf gateTrace) = [EVENT_TOOL_CALL; EVENT_PARKED] /\ gateResult = None) /\
  ((exists a, gateTrace = [Got a] /\ gateResult <> None /\
     forall f start, a = Arrived f -> cf_Start f = Some start -> cf_ExecutionId f = EmptyString) \/
   exists first start tr1 tr2 err s, gateTrace = Got (Arrived first) :: tr1 ++ tr2 /\
    cf_Start first = Some start /\ cf_ExecutionId first <> EmptyString /\
    conversation (cf_ExecutionId first) (cf_Session first)
      (gatedRun (startFromProto (cf_ExecutionId first) (cf_Session first) start)) tr1 err s /\
    Forall (effectEvent (cf_ExecutionId first)) (sentOf tr1) /\
    ending (cf_ExecutionId first) s err tr2 gateResult /\ lastWord (sentOf tr2) s err gateResult).
Proof. split; [by vm_compute|]. apply (server_protocol gatedRun gateTrace gateResult). apply play_trace. Defined.
End example.
