(* ===== verification/Json.v ===== *)
(** * JSON values (encoding/json)

    The texts [json.Unmarshal] accepts, as trees, and the text [json.Marshal] writes for a tree. An object
    keeps its members in order, duplicates included, and a number its text, since the decoders of the program
    decide what to do with them. *)
From S2P Require Import Prelude GoErrors Api EventLog GoJson Tables SqlLog SqlSessions.
#[local] Open Scope Z_scope.

Inductive json :=
  | JNull
  | JBool (b : bool)
  | JNumber (text : list Z)
  | JString (s : string)
  | JArray (vs : list json)
  | JObject (ms : list (string * json)).

(** ** Reading *)

Definition digitByte (b : Z) : bool := inRangeB 48 57 b.
Fixpoint spanDigits (bs : list Z) : list Z * list Z :=
  match bs with
  | b :: bs' => if digitByte b then let '(ds, r) := spanDigits bs' in (b :: ds, r) else ([], bs)
  | [] => ([], [])
  end.
(** At least one digit. *)
Definition someDigits (bs : list Z) : option (list Z * list Z) :=
  match spanDigits bs with ([], _) => None | (ds, r) => Some (ds, r) end.
(** A sign, an integer without leading zeros, a fraction and an exponent. *)
Definition readSign (bs : list Z) : list Z * list Z := match bs with 45 :: r => ([45], r) | _ => ([], bs) end.
Definition readInt (bs : list Z) : option (list Z * list Z) :=
  match bs with 48 :: r => Some ([48], r) | _ => someDigits bs end.
Definition readFraction (bs : list Z) : option (list Z * list Z) :=
  match bs with
  | 46 :: r => '(ds, r) ← someDigits r; Some (46 :: ds, r)
  | _ => Some ([], bs)
  end.
Definition readExponent (bs : list Z) : option (list Z * list Z) :=
  match bs with
  | e :: r =>
      if (e =? 101) || (e =? 69) then
        let '(sg, r) := match r with 43 :: r' => ([43], r') | 45 :: r' => ([45], r') | _ => ([], r) end in
        '(ds, r) ← someDigits r; Some (e :: sg ++ ds, r)
      else Some ([], bs)
  | [] => Some ([], [])
  end.
Definition readNumber (bs : list Z) : option (list Z * list Z) :=
  let '(sg, bs) := readSign bs in
  '(i, bs) ← readInt bs;
  '(fr, bs) ← readFraction bs;
  '(ex, bs) ← readExponent bs;
  Some (sg ++ i ++ fr ++ ex, bs).

(** [maxNestingDepth]. *)
Definition maxNesting : Z := 10000.

(** A value, the members of an object after its brace, and the elements of an array after its bracket; [d] is
    the nesting so far, and [fuel] bounds the recursion. *)
Fixpoint parseValue (fuel : nat) (d : Z) (bs : list Z) : option (json * list Z) :=
  match fuel with
  | O => None
  | S f =>
      match skipSpace bs with
      | 34 :: r => '(s, r) ← readString (34 :: r); Some (JString s, r)
      | 123 :: r =>
          if maxNesting <? d + 1 then None
          else match skipSpace r with
          | 125 :: r => Some (JObject [], r)
          | r => '(ms, r) ← parseMembers f (d + 1) r; Some (JObject ms, r)
          end
      | 91 :: r =>
          if maxNesting <? d + 1 then None
          else match skipSpace r with
          | 93 :: r => Some (JArray [], r)
          | r => '(vs, r) ← parseElements f (d + 1) r; Some (JArray vs, r)
          end
      | 116 :: 114 :: 117 :: 101 :: r => Some (JBool true, r)
      | 102 :: 97 :: 108 :: 115 :: 101 :: r => Some (JBool false, r)
      | 110 :: 117 :: 108 :: 108 :: r => Some (JNull, r)
      | r => '(n, r) ← readNumber r; Some (JNumber n, r)
      end
  end
with parseMembers (fuel : nat) (d : Z) (bs : list Z) : option (list (string * json) * list Z) :=
  match fuel with
  | O => None
  | S f =>
      '(k, r) ← readString (skipSpace bs);
      match skipSpace r with
      | 58 :: r =>
          '(v, r) ← parseValue f d r;
          match skipSpace r with
          | 44 :: r => '(ms, r) ← parseMembers f d r; Some ((k, v) :: ms, r)
          | 125 :: r => Some ([(k, v)], r)
          | _ => None
          end
      | _ => None
      end
  end
with parseElements (fuel : nat) (d : Z) (bs : list Z) : option (list json * list Z) :=
  match fuel with
  | O => None
  | S f =>
      '(v, r) ← parseValue f d bs;
      match skipSpace r with
      | 44 :: r => '(vs, r) ← parseElements f d r; Some (v :: vs, r)
      | 93 :: r => Some ([v], r)
      | _ => None
      end
  end.
Definition jsonFuel (bs : list Z) : nat := 2 * length bs + 2.
Definition parseJson (bs : list Z) : option json :=
  '(v, r) ← parseValue (jsonFuel bs) 0 bs;
  match skipSpace r with [] => Some v | _ => None end.

(** ** Writing *)

Fixpoint joinWith (sep : Z) (l : list (list Z)) : list Z :=
  match l with
  | [] => []
  | [x] => x
  | x :: l' => x ++ sep :: joinWith sep l'
  end.
Fixpoint printJson (v : json) : list Z :=
  match v with
  | JNull => [110; 117; 108; 108]
  | JBool true => [116; 114; 117; 101]
  | JBool false => [102; 97; 108; 115; 101]
  | JNumber n => n
  | JString s => jsonQuote s
  | JArray vs => 91 :: joinWith 44 (map printJson vs) ++ [93]
  | JObject ms => 123 :: joinWith 44 (map (fun kv => jsonQuote (fst kv) ++ 58 :: printJson (snd kv)) ms) ++ [125]
  end.

(** ** Decoding into Go values ([json.Unmarshal])

    A decoder changes a Go value, and is [None] on a value of the wrong type. *)

(** [foldName]: the ASCII letters, and the two runes that fold to one of them. *)
Fixpoint foldName (bs : list Z) : list Z :=
  match bs with
  | 197 :: 191 :: r => 115 :: foldName r
  | 226 :: 132 :: 170 :: r => 107 :: foldName r
  | b :: r => (if inRangeB 65 90 b then b + 32 else b) :: foldName r
  | [] => []
  end.

Definition fieldsOf (T : Type) : Type := list (string * (json -> T -> option T)).
(** The field of a key: by its exact name, or else by its folded one. *)
Definition fieldFor {T} (fields : fieldsOf T) (key : string) : option (json -> T -> option T) :=
  match list_find (fun f => fst f = key) fields with
  | Some (_, f) => Some (snd f)
  | None => (fun f => snd (snd f)) <$> list_find (fun f => foldName (bytesOf (fst f)) = foldName (bytesOf key)) fields
  end.
Fixpoint decodeMembers {T} (fields : fieldsOf T) (ms : list (string * json)) (cur : T) : option T :=
  match ms with
  | [] => Some cur
  | (k, v) :: ms =>
      match fieldFor fields k with
      | Some dec => cur ← dec v cur; decodeMembers fields ms cur
      | None => decodeMembers fields ms cur
      end
  end.
(** A struct, a string, an int64: [null] leaves them alone. *)
Definition decodeStruct {T} (fields : fieldsOf T) (v : json) (cur : T) : option T :=
  match v with JNull => Some cur | JObject ms => decodeMembers fields ms cur | _ => None end.
Definition decodeString (v : json) (cur : string) : option string :=
  match v with JNull => Some cur | JString s => Some s | _ => None end.
Definition decodeInt64 (v : json) (cur : Z) : option Z :=
  match v with JNull => Some cur | JNumber n => ParseInt n | _ => None end.
Definition decodeBool (v : json) (cur : bool) : option bool :=
  match v with JNull => Some cur | JBool b => Some b | _ => None end.
(** A pointer: [null] is nil; a nil pointer gets a zero value. *)
Definition decodePtr {T} (dec : json -> T -> option T) (zero : T) (v : json) (cur : option T) : option (option T) :=
  match v with JNull => Some None | _ => Some <$> dec v (default zero cur) end.
(** A slice: [null] is nil; the elements that are there are decoded into. *)
Fixpoint decodeElements {T} (dec : json -> T -> option T) (zero : T) (vs : list json) (cur : list T) : option (list T) :=
  match vs with
  | [] => Some []
  | v :: vs =>
      x ← dec v (default zero (head cur));
      xs ← decodeElements dec zero vs (tl cur);
      Some (x :: xs)
  end.
Definition decodeSlice {T} (dec : json -> T -> option T) (zero : T) (v : json) (cur : list T) : option (list T) :=
  match v with JNull => Some [] | JArray vs => decodeElements dec zero vs cur | _ => None end.

(** ** Lemmas *)

Lemma json_nested_ind (P : json -> Prop) :
  P JNull -> (forall b, P (JBool b)) -> (forall n, P (JNumber n)) -> (forall s, P (JString s)) ->
  (forall vs, Forall P vs -> P (JArray vs)) -> (forall ms, Forall (fun kv => P (snd kv)) ms -> P (JObject ms)) -> forall v, P v.
Proof.
  intros Hn Hb Hm Hs Ha Ho. fix IH 1. intros [|b|n|s|vs|ms]; [done|done|done|done| |].
  - apply Ha. induction vs; constructor; auto.
  - apply Ho. induction ms as [|[k v] ms IHms]; constructor; [apply IH|exact IHms].
Qed.

(** What may follow a number. *)
Definition numberEnd (rest : list Z) : Prop := match rest with [] => True | b :: _ => b = 44 \/ b = 93 \/ b = 125 end.
Definition validNumber (n : list Z) : Prop :=
  (exists b n', n = b :: n' /\ (digitByte b = true \/ b = 45)) /\ forall rest, numberEnd rest -> readNumber (n ++ rest) = Some (n, rest).
Fixpoint validJson (v : json) : Prop :=
  match v with
  | JNull | JBool _ => True
  | JNumber n => validNumber n
  | JString s => validUTF8 s = true
  | JArray vs => Forall id (map validJson vs)
  | JObject ms => Forall id (map (fun kv => validUTF8 (fst kv) = true /\ validJson (snd kv)) ms)
  end.
Fixpoint nesting (v : json) : Z :=
  match v with
  | JArray vs => 1 + foldr Z.max 0 (map nesting vs)
  | JObject ms => 1 + foldr Z.max 0 (map (fun kv => nesting (snd kv)) ms)
  | _ => 0
  end.
Lemma depth_nonneg v : 0 <= nesting v.
Proof.
  assert (H : forall l, 0 <= foldr Z.max 0 l) by (induction l; cbn; lia).
  destruct v as [|b|n|s|vs|ms]; cbn; try lia; [specialize (H (map nesting vs))|specialize (H (map (fun kv => nesting (snd kv)) ms))]; lia.
Qed.

(** *** Printed values are read back *)

Lemma number_first b : digitByte b = true \/ b = 45 -> b ∈ 45 :: seqZ 48 10.
Proof. unfold digitByte, inRangeB. intros Hb. apply elem_of_cons. rewrite elem_of_seqZ. lia. Qed.
Lemma parse_number f d b r : digitByte b = true \/ b = 45 ->
  parseValue (S f) d (b :: r) = '(n, r) ← readNumber (b :: r); Some (JNumber n, r).
Proof.
  intros Hin%number_first. cbv [seqZ seq fmap list_fmap] in Hin.
  repeat (apply elem_of_cons in Hin as [->|Hin]; [reflexivity|]). by apply not_elem_of_nil in Hin.
Qed.
(** A printed value starts with no space and no closing bracket. *)
Lemma print_first v rest : validJson v -> exists b r, printJson v ++ rest = b :: r /\ isSpace b = false /\ b <> 93 /\ b <> 125.
Proof.
  destruct v as [|[]|n|s|vs|ms]; cbn; intros Hv; try (eexists _, _; split; [done|]; split; [done|]; lia).
  destruct Hv as [(b & n' & -> & Hb) _]. eexists _, _. split; [done|].
  apply number_first, elem_of_cons in Hb. rewrite elem_of_seqZ in Hb. unfold isSpace. lia.
Qed.
Lemma skipSpace_start b rest : isSpace b = false -> skipSpace (b :: rest) = b :: rest.
Proof. intros Hb. cbn. by rewrite Hb. Qed.
Lemma skip_print v rest : validJson v -> skipSpace (printJson v ++ rest) = printJson v ++ rest.
Proof. intros Hv. destruct (print_first v rest Hv) as (b & r & -> & Hb & _). cbn. by rewrite Hb. Qed.

(** What a printed value reads as, with enough fuel. *)
Definition readsBack (v : json) : Prop := validJson v -> forall f d rest, numberEnd rest -> d + nesting v <= maxNesting ->
  (2 * length (printJson v) + 1 <= f)%nat -> parseValue f d (printJson v ++ rest) = Some (v, rest).

Lemma print_length v : validJson v -> (1 <= length (printJson v))%nat.
Proof. intros Hv. destruct (print_first v [] Hv) as (b & r & E & _). rewrite app_nil_r in E. rewrite E. cbn. lia. Qed.
Lemma foldr_max_le x l : In x l -> x <= foldr Z.max 0 l.
Proof. induction l as [|y l IH]; [done|]. intros [->|Hx]; cbn; [lia|]. specialize (IH Hx). lia. Qed.

Lemma elements_back vs : vs <> [] -> Forall readsBack vs -> Forall validJson vs -> forall f d rest,
  (forall v, In v vs -> d + nesting v <= maxNesting) -> (2 * length (joinWith 44 (map printJson vs)) + 2 <= f)%nat ->
  parseElements f d (joinWith 44 (map printJson vs) ++ 93 :: rest) = Some (vs, rest).
Proof.
  intros Hne Hall. induction Hall as [|v vs Hv _ IH]; [done|]. intros Hval f d rest Hd Hf.
  apply Forall_cons_iff in Hval as [Hval Hvals]. destruct f as [|f]; [lia|]. destruct vs as [|v2 vs].
  - cbn [map joinWith] in *. cbn [parseElements]. rewrite (Hv Hval); [done|cbn; lia|apply Hd; by left|lia].
  - change (joinWith 44 (map printJson (v :: v2 :: vs))) with (printJson v ++ 44 :: joinWith 44 (map printJson (v2 :: vs))) in *.
    rewrite length_app in Hf. cbn [length] in Hf. pose proof (print_length v Hval). rewrite <- app_assoc. cbn [app parseElements].
    rewrite (Hv Hval); [|cbn; lia|apply Hd; by left|lia]. cbn [mbind option_bind skipSpace isSpace Z.eqb orb Pos.eqb].
    rewrite IH; [done|done|done|intros; apply Hd; by right|lia].
Qed.

Definition printMember (kv : string * json) : list Z := jsonQuote (fst kv) ++ 58 :: printJson (snd kv).
Lemma quote_length s : (2 <= length (jsonQuote s))%nat.
Proof. unfold jsonQuote. rewrite !length_app. cbn. lia. Qed.
Lemma members_back ms : ms <> [] -> Forall (fun kv => readsBack (snd kv)) ms ->
  Forall (fun kv => validUTF8 (fst kv) = true /\ validJson (snd kv)) ms -> forall f d rest,
  (forall kv, In kv ms -> d + nesting (snd kv) <= maxNesting) -> (2 * length (joinWith 44 (map printMember ms)) + 2 <= f)%nat ->
  parseMembers f d (joinWith 44 (map printMember ms) ++ 125 :: rest) = Some (ms, rest).
Proof.
  intros Hne Hall. induction Hall as [|[k v] ms Hv _ IH]; [done|]. intros Hval f d rest Hd Hf.
  apply Forall_cons_iff in Hval as [[Hk Hval] Hvals]. destruct f as [|f]; [lia|]. pose proof (quote_length k). cbn [fst snd] in *.
  assert (Hstep : forall r g, (2 * length (printJson v) + 1 <= g)%nat -> numberEnd r -> parseMembers (S g) d (printMember (k, v) ++ r) =
    match skipSpace r with
    | 44 :: r => '(ms, r) ← parseMembers g d r; Some ((k, v) :: ms, r)
    | 125 :: r => Some ([(k, v)], r)
    | _ => None
    end).
  { intros r g Hg Hr. unfold printMember. cbn [fst snd parseMembers]. rewrite <- app_assoc.
    rewrite skipSpace_quote, readString_quote by done. cbn [app mbind option_bind skipSpace isSpace Z.eqb orb Pos.eqb].
    rewrite (Hv Hval); [done|done|apply (Hd (k, v)); by left|done]. }
  destruct ms as [|kv2 ms].
  - cbn [map joinWith] in *. unfold printMember in Hf at 1. cbn [fst snd] in Hf. rewrite length_app in Hf. cbn [length] in Hf.
    rewrite Hstep; [done|lia|cbn; lia].
  - change (joinWith 44 (map printMember ((k, v) :: kv2 :: ms))) with (printMember (k, v) ++ 44 :: joinWith 44 (map printMember (kv2 :: ms))) in *.
    rewrite length_app in Hf. unfold printMember in Hf at 1. cbn [fst snd] in Hf. rewrite length_app in Hf. cbn [length] in Hf.
    rewrite <- app_assoc. cbn [app]. rewrite Hstep; [|lia|cbn; lia]. cbn [skipSpace isSpace Z.eqb orb Pos.eqb].
    rewrite IH; [done|done|done|intros; apply Hd; by right|lia].
Qed.

Lemma match_array {A} (x y : list Z -> A) b r : b <> 93 -> match b :: r with 93 :: r' => x r' | r' => y r' end = y (b :: r).
Proof. intros Hb. destruct b as [|p|p]; try done. repeat (destruct p as [p|p|]; try done). Qed.
Lemma match_object {A} (x y : list Z -> A) b r : b <> 125 -> match b :: r with 125 :: r' => x r' | r' => y r' end = y (b :: r).
Proof. intros Hb. destruct b as [|p|p]; try done. repeat (destruct p as [p|p|]; try done). Qed.
Lemma Forall_id_map {A} (P : A -> Prop) l : Forall id (map P l) <-> Forall P l.
Proof. induction l as [|x l IH]; cbn; [done|]. rewrite !Forall_cons_iff, IH. done. Qed.
Lemma parse_print v : readsBack v.
Proof.
  induction v as [|b|n|s|vs IH|ms IH] using json_nested_ind; intros Hv f d rest Hr Hd Hf; (destruct f as [|f]; [lia|]).
  - done.
  - by destruct b.
  - destruct Hv as [(b & n' & -> & Hb) Hn]. cbn [printJson app]. rewrite parse_number by done.
    change (b :: n' ++ rest) with ((b :: n') ++ rest). by rewrite Hn.
  - cbn in Hv. cbn [printJson]. assert (exists r, jsonQuote s ++ rest = 34 :: r) as [r E] by by eexists.
    cbn [parseValue]. rewrite skipSpace_quote, E. rewrite <- E, readString_quote by done. done.
  - cbn [validJson] in Hv. apply (proj1 (Forall_id_map validJson vs)) in Hv. cbn [printJson nesting] in *. cbn [app parseValue skipSpace isSpace Z.eqb orb Pos.eqb].
    destruct (Z.ltb_spec maxNesting (d + 1)) as [Hlt|_].
    { assert (0 <= foldr Z.max 0 (map nesting vs)) by (clear; induction (map nesting vs); cbn; lia). lia. }
    destruct vs as [|v vs]; [done|]. rewrite <- app_assoc. cbn [app].
    assert (Hfirst : exists b r, joinWith 44 (map printJson (v :: vs)) ++ 93 :: rest = b :: r /\ isSpace b = false /\ b <> 93).
    { apply Forall_cons_iff in Hv as [Hv _]. cbn [map joinWith]. destruct (map printJson vs) as [|y l]; rewrite <- ?app_assoc;
        match goal with |- context [printJson v ++ ?x] => destruct (print_first v x Hv) as (b & r & -> & ? & ? & _) end; by exists b, r. }
    destruct Hfirst as (b & r & E & Hb & Hne). rewrite E, skipSpace_start by done.
    refine (eq_trans (match_array (fun r => Some (JArray [], r)) (fun r => '(vs, r) ← parseElements f (d + 1) r; Some (JArray vs, r)) b r Hne) _).
    rewrite <- E, elements_back; [done|done|done|done| |].
    + intros w Hw. apply (in_map nesting) in Hw. apply foldr_max_le in Hw. lia.
    + cbn [length] in Hf. rewrite length_app in Hf. cbn [length] in Hf. lia.
  - cbn [validJson] in Hv. apply (proj1 (Forall_id_map (fun kv => validUTF8 (fst kv) = true /\ validJson (snd kv)) ms)) in Hv. cbn [printJson nesting] in *. cbn [app parseValue skipSpace isSpace Z.eqb orb Pos.eqb].
    destruct (Z.ltb_spec maxNesting (d + 1)) as [Hlt|_].
    { assert (0 <= foldr Z.max 0 (map (fun kv : string * json => nesting (snd kv)) ms)) by (clear; induction ms; cbn; lia). lia. }
    destruct ms as [|kv ms]; [done|]. rewrite <- app_assoc. cbn [app]. fold printMember.
    assert (Hfirst : exists r, joinWith 44 (map printMember (kv :: ms)) ++ 125 :: rest = 34 :: r).
    { cbn [map joinWith]. destruct (map printMember ms); by eexists. }
    destruct Hfirst as (r & E). change (fun kv0 : string * json => jsonQuote (fst kv0) ++ 58 :: printJson (snd kv0)) with printMember in *.
    rewrite E, skipSpace_start by done.
    refine (eq_trans (match_object (fun r => Some (JObject [], r)) (fun r => '(ms, r) ← parseMembers f (d + 1) r; Some (JObject ms, r)) 34 r ltac:(lia)) _).
    rewrite <- E, members_back; [done|done|done|done| |].
    + intros w Hw. apply (in_map (fun kv : string * json => nesting (snd kv))) in Hw. apply foldr_max_le in Hw. lia.
    + cbn [length] in Hf. rewrite length_app in Hf. cbn [length] in Hf. lia.
Qed.

(** What [printJson] writes is what [parseJson] reads. *)
Lemma parseJson_print v : validJson v -> nesting v <= maxNesting -> parseJson (printJson v) = Some v.
Proof.
  intros Hv Hd. unfold parseJson, jsonFuel. pose proof (parse_print v Hv (2 * length (printJson v) + 2)%nat 0 [] I ltac:(lia) ltac:(lia)) as Hp.
  rewrite app_nil_r in Hp. by rewrite Hp.
Qed.

