(* ===== verification/OpenAi.v ===== *)
(** * The OpenAI-compatible model provider (model/openai/openai.go)

    A client and its options, [Model] and [StreamModel]: the request that is built and where it is sent, the
    decoding of a completion, and the reading of a stream of server-sent events.

    Parameters: package net/url as far as parsing and printing a URL goes ([UrlLib]), and the HTTP exchange
    ([HttpTransport]): the redirects and the answer of a server, and the order in which a map is ranged
    over. Following redirects under a policy, and which headers a redirect repeats, is net/http's
    ([follow]); the HTTP client has no cookie jar. A body is its bytes and the error that a read after them
    reports. Hosts and schemes are ASCII texts. *)
From S2P Require Import Prelude GoErrors Api EventLog GoJson Json Tables SqlLog SqlSessions HarnessSpec.
#[local] Open Scope Z_scope.

(** ** URLs *)

Record URL := mkURL {
  Scheme : string; UserInfo : string; url_Host : string; Path : string; EscapedPath : string; RawQuery : string; Fragment : string;
}.
(** [url.Parse] and [URL.String]. *)
Class UrlLib := { url_Parse : string -> res URL; url_String : URL -> string }.

Definition trimSuffixSlash (s : string) : string :=
  match rev (bytesOf s) with 47 :: r => stringOf (rev r) | _ => s end.

(** [strings.Cut] and [strings.Split] at one byte. *)
Fixpoint cutAt (sep : Z) (bs : list Z) : list Z * option (list Z) :=
  match bs with
  | [] => ([], None)
  | b :: bs' => if b =? sep then ([], Some bs') else let '(l, r) := cutAt sep bs' in (b :: l, r)
  end.
Fixpoint splitAt (sep : Z) (bs : list Z) : list (list Z) :=
  match bs with
  | [] => [[]]
  | b :: bs' =>
      if b =? sep then [] :: splitAt sep bs'
      else match splitAt sep bs' with x :: xs => (b :: x) :: xs | [] => [[b]] end
  end.

(** [url.QueryUnescape]. *)
Fixpoint QueryUnescape (bs : list Z) : option (list Z) :=
  match bs with
  | [] => Some []
  | 37 :: a :: b :: r => x ← hexValue a; y ← hexValue b; out ← QueryUnescape r; Some (16 * x + y :: out)
  | 37 :: _ => None
  | 43 :: r => out ← QueryUnescape r; Some (32 :: out)
  | b :: r => out ← QueryUnescape r; Some (b :: out)
  end.

(** The names [url.ParseQuery] finds, whatever its error. *)
Definition pairName (item : list Z) : option (list Z) :=
  if bool_decide (59 ∈ item) || bool_decide (item = []) then None
  else
    let '(k, v) := cutAt 61 item in
    name ← QueryUnescape k;
    _ ← QueryUnescape (default [] v);
    Some name.
Definition queryNames (q : list Z) : list (list Z) := omap pairName (splitAt 38 q).

(** [sharedQueryKey(a, b)]. *)
Fixpoint firstShared (names : list (list Z)) (pairs : list (list Z)) : string :=
  match pairs with
  | [] => EmptyString
  | item :: pairs =>
      match QueryUnescape (fst (cutAt 61 item)) with
      | Some name => if bool_decide (name <> [] /\ name ∈ names) then stringOf name else firstShared names pairs
      | None => firstShared names pairs
      end
  end.
Definition sharedQueryKey (a b : string) : string :=
  if bool_decide (a = EmptyString) || bool_decide (b = EmptyString) then EmptyString
  else firstShared (queryNames (bytesOf b)) (splitAt 38 (bytesOf a)).

Section Url.
Context `{UrlLib}.
(** [joinEndpoint(base, path)]. *)
Definition joinURL (u p : URL) : URL :=
  mkURL (Scheme u) (UserInfo u) (url_Host u) (trimSuffixSlash (Path u) +:+ Path p) (trimSuffixSlash (EscapedPath u) +:+ EscapedPath p)
    (if bool_decide (RawQuery u = EmptyString) then RawQuery p
     else if bool_decide (RawQuery p = EmptyString) then RawQuery u
     else RawQuery u +:+ "&"%string +:+ RawQuery p)
    EmptyString.
Definition joinEndpoint (base path : string) : res string :=
  match url_Parse base with
  | Err e => Err (EWrap "openai: base URL" e)
  | Ok u =>
      if bool_decide (Scheme u = EmptyString) || bool_decide (url_Host u = EmptyString) then Err (EText "openai: base URL is not absolute")
      else match url_Parse path with
      | Err e => Err (EWrap "openai: path" e)
      | Ok p =>
          if negb (bool_decide (sharedQueryKey (RawQuery u) (RawQuery p) = EmptyString))
          then Err (EText "openai: query parameter is set in both the base URL and the path")
          else Ok (url_String (joinURL u p))
      end
  end.
End Url.

(** *** Origins *)

Definition lowerByte (b : Z) : Z := if inRangeB 65 90 b then b + 32 else b.
(** [strings.ToLower] of an ASCII text. *)
Definition ToLower (s : string) : string := stringOf (map lowerByte (bytesOf s)).

(** [URL.Hostname] and [URL.Port]: the port is what follows the last colon, if that is digits. *)
Definition splitHostPort (h : list Z) : list Z * list Z :=
  let '(r, rest) := cutAt 58 (rev h) in
  let '(host, port) := match rest with
    | Some host => if forallb digitByte r then (rev host, rev r) else (h, [])
    | None => (h, [])
    end in
  match host, rev host with
  | 91 :: host', 93 :: _ => (removelast host', port)
  | _, _ => (host, port)
  end.
Definition Hostname (u : URL) : list Z := fst (splitHostPort (bytesOf (url_Host u))).
Definition Port (u : URL) : list Z := snd (splitHostPort (bytesOf (url_Host u))).

(** [origin(u)]. *)
Definition origin (u : URL) : string :=
  let scheme := ToLower (Scheme u) in
  let port := match Port u with
    | [] => if bool_decide (scheme = "http"%string) then bytesOf "80" else if bool_decide (scheme = "https"%string) then bytesOf "443" else []
    | p => p
    end in
  scheme +:+ "://"%string +:+ stringOf (map lowerByte (Hostname u)) +:+ ":"%string +:+ stringOf port.

(** What a redirect policy says: follow (nil), answer with the redirect itself ([http.ErrUseLastResponse]), or
    fail. It is asked about the next request, and the ones before it. *)
Inductive Verdict := Follow | UseLastResponse | Refuse (e : goerr).
Definition RedirectPolicy : Type := URL -> list URL -> Verdict.
Definition maxRedirects : Z := 10.
Definition limitRedirects (via : list URL) : Verdict :=
  if maxRedirects <=? Z.of_nat (length via) then Refuse (EText "stopped after 10 redirects") else Follow.
(** [sameOriginClient(h)]: the policy of the copy. *)
Definition sameOriginPolicy (next : option RedirectPolicy) : RedirectPolicy := fun req via =>
  match via with
  | [] => Follow
  | from :: _ =>
      if negb (bool_decide (origin from = origin req))
      then Refuse (EText "refusing redirect: configured headers are sent only to the base URL's origin")
      else match next with
      | Some next => next req via
      | None => limitRedirects via
      end
  end.

(** ** The client *)

Record Client := mkClient {
  baseURL : string; cl_path : string; endpoint : string; headers : gmap string string; cl_model : string;
  checkRedirect : option RedirectPolicy;
}.
Definition DefaultBaseURL : string := "https://api.openai.com/v1".
Definition DefaultPath : string := "/chat/completions".

Definition ClientOption : Type := Client -> Client.
Definition WithBaseURL (u : string) : ClientOption := fun c =>
  if bool_decide (u = EmptyString) then c
  else mkClient (trimSuffixSlash u) (cl_path c) (endpoint c) (headers c) (cl_model c) (checkRedirect c).
Definition WithAPIKey (k : string) : ClientOption := fun c =>
  if bool_decide (k = EmptyString) then c
  else mkClient (baseURL c) (cl_path c) (endpoint c) (<["Authorization"%string := "Bearer "%string +:+ k]> (headers c)) (cl_model c)
    (checkRedirect c).
Definition WithHeader (name value : string) : ClientOption := fun c =>
  if bool_decide (name = EmptyString) then c
  else mkClient (baseURL c) (cl_path c) (endpoint c) (<[name := value]> (headers c)) (cl_model c) (checkRedirect c).
Definition WithPath (p : string) : ClientOption := fun c =>
  if bool_decide (p = EmptyString) then c
  else mkClient (baseURL c) (match bytesOf p with 47 :: _ => p | _ => "/"%string +:+ p end) (endpoint c) (headers c) (cl_model c)
    (checkRedirect c).
Definition WithModel (m : string) : ClientOption := fun c =>
  if bool_decide (m = EmptyString) then c
  else mkClient (baseURL c) (cl_path c) (endpoint c) (headers c) m (checkRedirect c).
(** The HTTP client is its redirect policy; [None] is the nil policy. *)
Definition WithHTTPClient (h : option (option RedirectPolicy)) : ClientOption := fun c =>
  match h with
  | Some policy => mkClient (baseURL c) (cl_path c) (endpoint c) (headers c) (cl_model c) policy
  | None => c
  end.

(** [New(opts...)]: the options in turn, then the checks. *)
Definition applyOptions (opts : list ClientOption) : Client :=
  foldl (fun c o => o c) (mkClient DefaultBaseURL DefaultPath EmptyString ∅ EmptyString None) opts.
Definition NewClient `{UrlLib} (opts : list ClientOption) : res Client :=
  let c := applyOptions opts in
  if bool_decide (cl_model c = EmptyString) then Err (EText "openai: a default model is required (WithModel)")
  else match joinEndpoint (baseURL c) (cl_path c) with
  | Err e => Err e
  | Ok ep => Ok (mkClient (baseURL c) (cl_path c) ep (headers c) (cl_model c) (Some (sameOriginPolicy (checkRedirect c))))
  end.

(** ** Requests *)

Record chatMessage := mkChatMessage { cm_Role : string; cm_Content : string }.
Record chatRequest := mkChatRequest { cr_Model : string; cr_Messages : list chatMessage; cr_Stream : bool; cr_IncludeUsage : bool }.

(** One part of a message: its text, or nothing for reasoning. *)
Definition partText (p : Part) : res string :=
  match part_Text p, part_Reasoning p, part_File p, part_Data p, part_ToolCall p, part_ToolResult p with
  | Some t, _, _, _, _, _ => Ok t
  | None, Some _, _, _, _, _ => Ok EmptyString
  | None, None, Some _, _, _, _ => Err (EWrap "file parts are not supported yet" ErrUnsupportedPart)
  | None, None, None, Some _, _, _ => Err (EWrap "data parts are not supported yet" ErrUnsupportedPart)
  | None, None, None, None, Some _, _ => Err (EWrap "tool call parts are not supported yet" ErrUnsupportedPart)
  | None, None, None, None, None, Some _ => Err (EWrap "tool result parts are not supported yet" ErrUnsupportedPart)
  | None, None, None, None, None, None => Err (EWrap "part with no known content" ErrUnsupportedPart)
  end.
Fixpoint partsText (ps : list Part) : res string :=
  match ps with
  | [] => Ok EmptyString
  | p :: ps => t ← partText p; r ← partsText ps; Ok (t +:+ r)
  end.
(** [toChatMessages(msgs)]. *)
Fixpoint toChatMessages (msgs : list Message) : res (list chatMessage) :=
  match msgs with
  | [] => Ok []
  | m :: msgs =>
      t ← partsText (Parts m);
      out ← toChatMessages msgs;
      Ok (mkChatMessage (if bool_decide (Role m = EmptyString) then "user"%string else Role m) t :: out)
  end.

(** [json.Marshal(chatRequest)]. *)
Definition messageJson (m : chatMessage) : json := JObject [("role"%string, JString (cm_Role m)); ("content"%string, JString (cm_Content m))].
Definition requestJson (r : chatRequest) : json :=
  JObject ([("model"%string, JString (cr_Model r)); ("messages"%string, JArray (map messageJson (cr_Messages r)))]
    ++ (if cr_Stream r then [("stream"%string, JBool true)] else [])
    ++ (if cr_IncludeUsage r then [("stream_options"%string, JObject [("include_usage"%string, JBool true)])] else [])).

(** [buildRequest(req, stream)]. *)
Definition resolveModel (c : Client) (req : ModelRequest) : string :=
  if bool_decide (mr_Model req = EmptyString) || bool_decide (mr_Model req = "echo"%string) then cl_model c else mr_Model req.
Definition buildRequest (c : Client) (req : ModelRequest) (stream : bool) : string * res (list Z) :=
  let model := resolveModel c req in
  (model,
   if negb (bool_decide (Tools req = [])) || negb (bool_decide (mr_ToolChoice req = None))
   then Err (EWrap "tool definitions and tool choice are not supported yet" ErrUnsupportedPart)
   else match toChatMessages (Messages req) with
   | Err e => Err e
   | Ok msgs => Ok (printJson (requestJson (mkChatRequest model msgs stream stream)))
   end).

(** ** Completions *)

Record chatText := mkChatText { ct_Content : string; ct_Reasoning : string }.
Record chatUsage := mkChatUsage { cu_Prompt : Z; cu_Completion : Z; cu_Reasoning : Z }.
Record chatResponse := mkChatResponse { rs_Choices : list chatText; rs_Usage : chatUsage }.
Record chatChunk := mkChatChunk { ck_Choices : list chatText; ck_Usage : option chatUsage }.
Definition zeroText : chatText := mkChatText EmptyString EmptyString.
Definition zeroChatUsage : chatUsage := mkChatUsage 0 0 0.

Definition textFields : fieldsOf chatText :=
  [("content"%string, fun v t => s ← decodeString v (ct_Content t); Some (mkChatText s (ct_Reasoning t)));
   ("reasoning_content"%string, fun v t => s ← decodeString v (ct_Reasoning t); Some (mkChatText (ct_Content t) s))].
Definition detailFields : fieldsOf chatUsage :=
  [("reasoning_tokens"%string, fun v u => n ← decodeInt64 v (cu_Reasoning u); Some (mkChatUsage (cu_Prompt u) (cu_Completion u) n))].
Definition usageFields : fieldsOf chatUsage :=
  [("prompt_tokens"%string, fun v u => n ← decodeInt64 v (cu_Prompt u); Some (mkChatUsage n (cu_Completion u) (cu_Reasoning u)));
   ("completion_tokens"%string, fun v u => n ← decodeInt64 v (cu_Completion u); Some (mkChatUsage (cu_Prompt u) n (cu_Reasoning u)));
   ("completion_tokens_details"%string, decodeStruct detailFields)].
(** A choice, whose text is under [message] in a completion and under [delta] in a chunk. *)
Definition choiceFields (name : string) : fieldsOf chatText := [(name, decodeStruct textFields)].
Definition responseFields : fieldsOf chatResponse :=
  [("choices"%string, fun v r => cs ← decodeSlice (decodeStruct (choiceFields "message")) zeroText v (rs_Choices r); Some (mkChatResponse cs (rs_Usage r)));
   ("usage"%string, fun v r => u ← decodeStruct usageFields v (rs_Usage r); Some (mkChatResponse (rs_Choices r) u))].
Definition chunkFields : fieldsOf chatChunk :=
  [("choices"%string, fun v r => cs ← decodeSlice (decodeStruct (choiceFields "delta")) zeroText v (ck_Choices r); Some (mkChatChunk cs (ck_Usage r)));
   ("usage"%string, fun v r => u ← decodePtr (decodeStruct usageFields) zeroChatUsage v (ck_Usage r); Some (mkChatChunk (ck_Choices r) u))].
Definition decodeResponse (v : json) : option chatResponse := decodeStruct responseFields v (mkChatResponse [] zeroChatUsage).
Definition decodeChunk (v : json) : option chatChunk := decodeStruct chunkFields v (mkChatChunk [] None).

(** An error answer: [error] with its [message] and [type]. *)
Record errorBody := mkErrorBody { eb_Message : string; eb_Type : string }.
Definition errorFields : fieldsOf errorBody :=
  [("message"%string, fun v e => s ← decodeString v (eb_Message e); Some (mkErrorBody s (eb_Type e)));
   ("type"%string, fun v e => s ← decodeString v (eb_Type e); Some (mkErrorBody (eb_Message e) s))].
Definition decodeError (v : json) : option errorBody :=
  decodeStruct [("error"%string, decodeStruct errorFields)] v (mkErrorBody EmptyString EmptyString).

(** The message of a completion: its reasoning, if there is any, then its text. *)
Definition completionParts (model : string) (t : chatText) : list Part :=
  (if bool_decide (ct_Reasoning t = EmptyString) then []
   else [mkPart None None None (Some (mkReasoningPart "openai" model (Some (bytesOf (ct_Reasoning t)))
     EmptyString EmptyString [] EmptyString 0 EmptyString)) None None])
  ++ (if bool_decide (ct_Content t = EmptyString) then [] else [mkPart (Some (ct_Content t)) None None None None None]).
Definition completion (model : string) (t : chatText) (u : chatUsage) : ModelResponse :=
  mkModelResponse (mkMessage "assistant" (completionParts model t)) (mkUsage model (cu_Prompt u) (cu_Completion u) (cu_Reasoning u)).
(** [toModelResponse(model, out)], where there is a choice. *)
Definition toModelResponse (model : string) (choice : chatText) (out : chatResponse) : ModelResponse :=
  completion model choice (rs_Usage out).

(** [strings.TrimSpace]: the white space of Unicode, by its encodings. *)
Fixpoint trimLeft (bs : list Z) : list Z :=
  match bs with
  | 226 :: 128 :: b :: r => if inRangeB 128 138 b || (b =? 168) || (b =? 169) || (b =? 175) then trimLeft r else bs
  | 226 :: 129 :: 159 :: r | 225 :: 154 :: 128 :: r | 227 :: 128 :: 128 :: r => trimLeft r
  | 194 :: 133 :: r | 194 :: 160 :: r => trimLeft r
  | b :: r => if inRangeB 9 13 b || (b =? 32) then trimLeft r else bs
  | [] => []
  end.
(** On the reversed bytes. *)
Fixpoint trimRight (bs : list Z) : list Z :=
  match bs with
  | 159 :: 129 :: 226 :: r | 128 :: 154 :: 225 :: r | 128 :: 128 :: 227 :: r => trimRight r
  | 133 :: 194 :: r | 160 :: 194 :: r => trimRight r
  | b :: 128 :: 226 :: r => if inRangeB 128 138 b || (b =? 168) || (b =? 169) || (b =? 175) then trimRight r else bs
  | b :: r => if inRangeB 9 13 b || (b =? 32) then trimRight r else bs
  | [] => []
  end.
Definition TrimSpace (bs : list Z) : list Z := rev (trimRight (rev (trimLeft bs))).

(** [statusError(model, code, raw)]. *)
Definition statusError (model : string) (code : Z) (raw : list Z) : goerr :=
  let message := match parseJson raw ≫= decodeError with Some e => eb_Message e | None => EmptyString end in
  if negb (bool_decide (message = EmptyString)) then
    EText ("openai: " +:+ model +:+ ": " +:+ message +:+ " (http " +:+ FormatInt code +:+ ")")
  else
    let detail := TrimSpace raw in
    let detail := if 200 <? Z.of_nat (length detail) then stringOf (take 200 detail) +:+ "..." else stringOf detail in
    if bool_decide (detail = EmptyString) then EText ("openai: " +:+ model +:+ ": http " +:+ FormatInt code)
    else EText ("openai: " +:+ model +:+ ": http " +:+ FormatInt code +:+ ": " +:+ detail).

(** ** The exchange *)

Record httpRequest := mkHttpRequest { rq_URL : URL; rq_Headers : gmap string string; rq_Body : list Z }.
Record httpBody := mkHttpBody { bd_Bytes : list Z; bd_Error : option goerr }.
Record httpResponse := mkHttpResponse { hr_Status : Z; hr_Body : httpBody }.
(** A redirect: where it leads, the answer that carries it, and whether its request repeats the body
    (net/http makes it a GET otherwise). *)
Record Redirect := mkRedirect { rd_URL : URL; rd_Response : httpResponse; rd_KeepsBody : bool }.
Class HttpTransport := {
  http_Redirects : nat -> httpRequest -> list Redirect;
  http_Response : nat -> httpRequest -> res httpResponse;
  rangeHeaders : nat -> gmap string string -> list (string * string);
}.

(** [textproto.CanonicalMIMEHeaderKey]. *)
Definition alphaByte (b : Z) : bool := inRangeB 65 90 b || inRangeB 97 122 b.
Definition validHeaderFieldByte (b : Z) : bool :=
  digitByte b || alphaByte b || bool_decide (b ∈ [33; 35; 36; 37; 38; 39; 42; 43; 45; 46; 94; 95; 96; 124; 126]).
Fixpoint canonicalBytes (upper : bool) (bs : list Z) : list Z :=
  match bs with
  | [] => []
  | b :: bs =>
      (if upper && inRangeB 97 122 b then b - 32 else if negb upper && inRangeB 65 90 b then b + 32 else b)
        :: canonicalBytes (b =? 45) bs
  end.
Definition CanonicalHeaderKey (s : string) : string :=
  if forallb validHeaderFieldByte (bytesOf s) then stringOf (canonicalBytes true (bytesOf s)) else s.

(** [Header.Set], for each header in turn. *)
Definition setHeaders (kvs : list (string * string)) (h : gmap string string) : gmap string string :=
  foldl (fun h kv => <[CanonicalHeaderKey (fst kv) := snd kv]> h) h kvs.

(** *** Redirects in net/http *)

(** The headers a redirect to a foreign host does not repeat, and those of a body that is not repeated. *)
Definition sensitiveHeader (key : string) : bool :=
  bool_decide (key ∈ ["Authorization"; "Www-Authenticate"; "Cookie"; "Cookie2"; "Proxy-Authorization"; "Proxy-Authenticate"]%string).
Definition bodyHeader (key : string) : bool :=
  bool_decide (key ∈ ["Content-Encoding"; "Content-Language"; "Content-Location"; "Content-Type"]%string).
Definition isDomainOrSubdomain (sub parent : list Z) : bool :=
  bool_decide (sub = parent)
  || (negb (existsb (fun b => (b =? 58) || (b =? 37)) sub) && bool_decide (46 :: parent `suffix_of` sub)).
(** The hosts a redirect may lead to with every header: as texts, without regard to case. *)
Definition trustedHost (initial dest : URL) : bool :=
  bool_decide (url_Host initial = url_Host dest) || isDomainOrSubdomain (Hostname dest) (Hostname initial).
Definition repeated (strip bodiless : bool) (h : gmap string string) : gmap string string :=
  filter (fun kv => (strip && sensitiveHeader (fst kv)) || (bodiless && bodyHeader (fst kv)) = false) h.

(** A request that was sent, with the headers [post] gave it. (The ones net/http adds are left out.) *)
Definition Sent : Type := URL * gmap string string.
(** How net/http follows redirects: the requests it sends one after the other, and where the policy ended it.
    Once a host was not trusted, or the body was left out, that holds for the redirects that follow. *)
Fixpoint follow (policy : RedirectPolicy) (initial : URL) (h : gmap string string) (strip bodiless : bool) (via : list Sent)
    (hops : list Redirect) : list Sent * option (res httpResponse) :=
  match hops with
  | [] => (via, None)
  | hop :: hops =>
      let req := rd_URL hop in
      let strip := strip || negb (trustedHost initial req) in
      let bodiless := bodiless || negb (rd_KeepsBody hop) in
      match policy req (map fst via) with
      | Refuse e => (via, Some (Err (EWrap "Post" e)))
      | UseLastResponse => (via, Some (Ok (rd_Response hop)))
      | Follow => follow policy initial h strip bodiless (via ++ [(req, repeated strip bodiless h)]) hops
      end
  end.

Section Exchange.
Context `{UrlLib} `{HttpTransport}.

(** [http.Client.Do]: the requests that were sent, and the outcome. *)
Definition http_Do (policy : option RedirectPolicy) (t : nat) (req : httpRequest) : list Sent * res httpResponse :=
  let policy := default (fun _ via => limitRedirects via) policy in
  let '(sent, ended) := follow policy (rq_URL req) (rq_Headers req) false false [(rq_URL req, rq_Headers req)] (http_Redirects t req) in
  (sent, default (http_Response t req) ended).

(** [post(ctx, body)]. *)
Definition post (c : Client) (t : nat) (body : list Z) : list Sent * res httpResponse :=
  match url_Parse (endpoint c) with
  | Err e => ([], Err (EWrap "openai: build request" e))
  | Ok u =>
      let h := setHeaders (rangeHeaders t (headers c)) {["Content-Type"%string := "application/json"%string]} in
      http_Do (checkRedirect c) t (mkHttpRequest u h body)
  end.

(** [io.ReadAll(io.LimitReader(body, n))]. *)
Definition readLimited (n : Z) (b : httpBody) : list Z * option goerr :=
  if Z.of_nat (length (bd_Bytes b)) <? n then (bd_Bytes b, bd_Error b) else (take (Z.to_nat n) (bd_Bytes b), None).
Definition maxResponse : Z := 32 * 2 ^ 20.
Definition maxErrorBody : Z := 2 ^ 20.
Definition StatusOK : Z := 200.

(** [Model(ctx, req)], from the answer on. *)
Definition readCompletion (model : string) (resp : httpResponse) : res ModelResponse :=
  match readLimited maxResponse (hr_Body resp) with
  | (_, Some e) => Err (EWrap "openai: read response" e)
  | (raw, None) =>
      if negb (hr_Status resp =? StatusOK) then Err (statusError model (hr_Status resp) raw)
      else match parseJson raw ≫= decodeResponse with
      | None => Err (EWrap "openai: decode response" (EText "json"))
      | Some out =>
          match rs_Choices out with
          | [] => Err (EText ("openai: " +:+ model +:+ " returned no choices"))
          | choice :: _ => Ok (toModelResponse model choice out)
          end
      end
  end.
Definition Model (c : Client) (t : nat) (req : ModelRequest) : list Sent * res ModelResponse :=
  match buildRequest c req false with
  | (_, Err e) => ([], Err e)
  | (model, Ok body) =>
      let '(sent, r) := post c t body in
      (sent, match r with Err e => Err (EWrap ("openai: " +:+ model) e) | Ok resp => readCompletion model resp end)
  end.

(** *** Server-sent events *)

(** [bufio.Scanner] over lines: the lines, each with the error the scanner has when it returns it, and the
    error it has in the end. A line without its newline in 8 MiB is too long. *)
Definition maxLine : Z := 8 * 2 ^ 20.
Definition dropCR (line : list Z) : list Z := match rev line with 13 :: r => rev r | _ => line end.
Fixpoint scanLines (ls : list (list Z)) (err : option goerr) : list (list Z * option goerr) * option goerr :=
  match ls with
  | [] => ([], err)
  | l :: ls' =>
      if maxLine <=? Z.of_nat (length l) then ([], Some (EText "bufio.Scanner: token too long"))
      else match ls' with
      | [] => (if bool_decide (l = []) then [] else [(dropCR l, err)], err)
      | _ => let '(out, e) := scanLines ls' err in ((dropCR l, None) :: out, e)
      end
  end.

(** What a stream has yielded so far. *)
Record streamState := mkStreamState { sd_Text : chatText; sd_Usage : chatUsage; sd_Chunks : list string }.
Definition addDelta (d : chatText) (s : streamState) : streamState :=
  mkStreamState (mkChatText (ct_Content (sd_Text s) +:+ ct_Content d) (ct_Reasoning (sd_Text s) +:+ ct_Reasoning d)) (sd_Usage s)
    (sd_Chunks s ++ (if bool_decide (ct_Content d = EmptyString) then [] else [ct_Content d])).
Definition addChunk (k : chatChunk) (s : streamState) : streamState :=
  let s := mkStreamState (sd_Text s) (default (sd_Usage s) (ck_Usage k)) (sd_Chunks s) in
  match ck_Choices k with [] => s | d :: _ => addDelta d s end.

(** [strings.CutPrefix(line, "data:")]. *)
Definition dataPayload (line : list Z) : option (list Z) :=
  match line with 100 :: 97 :: 116 :: 97 :: 58 :: r => Some r | _ => None end.

(** The loop over the lines: what was yielded, and the error that ends the call, if any. *)
Fixpoint readEvents (ls : list (list Z * option goerr)) (final : option goerr) (s : streamState) : streamState * option goerr :=
  match ls with
  | [] => (s, EWrap "openai: read stream" <$> final)
  | (line, err) :: ls =>
      match dataPayload (TrimSpace line) with
      | None => readEvents ls final s
      | Some payload =>
          let payload := TrimSpace payload in
          if bool_decide (payload = bytesOf "[DONE]") then (s, EWrap "openai: read stream" <$> err)
          else match parseJson payload ≫= decodeChunk with
          | None => (s, Some (EWrap "openai: decode stream chunk" (EText "json")))
          | Some k => readEvents ls final (addChunk k s)
          end
      end
  end.
Definition readStream (model : string) (resp : httpResponse) : list string * res ModelResponse :=
  if negb (hr_Status resp =? StatusOK)
  then ([], Err (statusError model (hr_Status resp) (fst (readLimited maxErrorBody (hr_Body resp)))))
  else
    let '(ls, final) := scanLines (splitAt 10 (bd_Bytes (hr_Body resp))) (bd_Error (hr_Body resp)) in
    let '(s, err) := readEvents ls final (mkStreamState zeroText zeroChatUsage []) in
    (sd_Chunks s, match err with Some e => Err e | None => Ok (completion model (sd_Text s) (sd_Usage s)) end).

(** [StreamModel(ctx, req, onChunk)]: where it sent, the chunks it reported, and the outcome. *)
Definition StreamModel (c : Client) (t : nat) (req : ModelRequest) : list Sent * (list string * res ModelResponse) :=
  match buildRequest c req true with
  | (_, Err e) => ([], ([], Err e))
  | (model, Ok body) =>
      let '(sent, r) := post c t body in
      (sent, match r with Err e => ([], Err (EWrap ("openai: " +:+ model) e)) | Ok resp => readStream model resp end)
  end.
End Exchange.
