(* ===== verification/OpenAiSpec.v ===== *)
(** * What the model provider guarantees

    A streamed completion is the whole completion; a request says what the harness asked, or nothing is sent;
    requests, redirects included, stay at the configured origin, with the configured headers as far as
    net/http repeats them. The
    second part is an endpoint for the witnesses. *)
From S2P Require Import Prelude GoErrors Api EventLog Tables SqlLog SqlSessions GoJson HarnessSpec Json OpenAi.
#[local] Open Scope Z_scope.

(** ** Streams *)

Definition concatS (l : list string) : string := foldr String.append EmptyString l.

(** A server's lines and the chunks they carry: an object after [data: ], with or without a carriage return;
    any other line that is not an event ([event:] lines, comments, blank separators) carries none. *)
Inductive frames : list (list Z) -> list chatChunk -> Prop :=
  | frames_nil : frames [] []
  | frames_note l ls ks : dataPayload (TrimSpace (dropCR l)) = None -> frames ls ks -> frames (l :: ls) ks
  | frames_data m cr k ls ks : parseJson (123 :: m ++ [125]) ≫= decodeChunk = Some k -> frames ls ks ->
      frames ((bytesOf "data: " ++ 123 :: m ++ [125] ++ (if cr : bool then [13] else [])) :: ls) (k :: ks).
Definition lineOk (l : list Z) : Prop := 10 ∉ l /\ Z.of_nat (length l) < maxLine.
(** The lines, then what is left of the body. *)
Definition eventBody (ls : list (list Z)) (rest : list Z) : list Z := concat (map (fun l => l ++ [10]) ls) ++ rest.

Definition deltas (ks : list chatChunk) : list chatText := omap (fun k => head (ck_Choices k)) ks.
Definition streamText (ks : list chatChunk) : chatText :=
  mkChatText (concatS (map ct_Content (deltas ks))) (concatS (map ct_Reasoning (deltas ks))).
Definition streamUsage (ks : list chatChunk) : chatUsage := default zeroChatUsage (head (rev (omap ck_Usage ks))).
(** The chunks a watcher sees. *)
Definition shown (ks : list chatChunk) : list string := filter (fun s => s <> EmptyString) (map ct_Content (deltas ks)).

Lemma appS_nil s : s +:+ EmptyString = s.
Proof. induction s as [|c s IH]; [done|]. change (String c (s +:+ EmptyString) = String c s). by rewrite IH. Qed.
Lemma appS_assoc a b c : (a +:+ b) +:+ c = a +:+ (b +:+ c).
Proof. induction a as [|x a IH]; [done|]. change (String x ((a +:+ b) +:+ c) = String x (a +:+ (b +:+ c))). by rewrite IH. Qed.
Lemma concatS_cons s l : concatS (s :: l) = s +:+ concatS l.
Proof. done. Qed.
Lemma concatS_filter l : concatS (filter (fun s => s <> EmptyString) l) = concatS l.
Proof.
  induction l as [|s l IH]; [done|]. rewrite filter_cons, (concatS_cons s l). case_decide as Hs; [by rewrite concatS_cons, IH|].
  by rewrite Hs, IH.
Qed.
Lemma concatS_app a b : concatS (a ++ b) = concatS a +:+ concatS b.
Proof. induction a as [|s a IH]; [done|]. cbn [app]. by rewrite !concatS_cons, IH, appS_assoc. Qed.

(** *** Lines *)

Definition tokens (ls : list (list Z)) : list (list Z * option goerr) := map (fun l => (dropCR l, None)) ls.
Lemma splitAt_cut sep l r : sep ∉ l -> splitAt sep (l ++ sep :: r) = l :: splitAt sep r.
Proof.
  induction l as [|b l IH]; intros Hl; cbn; [by rewrite Z.eqb_refl|]. apply not_elem_of_cons in Hl as [Hb Hl].
  destruct (Z.eqb_spec b sep); [by subst|]. by rewrite IH.
Qed.
Lemma splitAt_ne sep l : splitAt sep l <> [].
Proof. destruct l as [|b l]; cbn; [done|]. destruct (b =? sep); [done|]. by destruct (splitAt sep l). Qed.
Lemma scan_lines ls rest err : Forall lineOk ls ->
  scanLines (splitAt 10 (eventBody ls rest)) err =
    let '(out, e) := scanLines (splitAt 10 rest) err in (tokens ls ++ out, e).
Proof.
  intros Hls. induction Hls as [|l ls [Hl Hlen] _ IH].
  { change (eventBody [] rest) with rest. by destruct (scanLines (splitAt 10 rest) err). }
  unfold eventBody. cbn [map concat]. rewrite <- !app_assoc. cbn [app]. rewrite splitAt_cut by done.
  change (concat (map (fun l => l ++ [10]) ls) ++ rest) with (eventBody ls rest).
  pose proof (splitAt_ne 10 (eventBody ls rest)) as Hne. remember (splitAt 10 (eventBody ls rest)) as more eqn:Em. cbn [scanLines].
  destruct (Z.leb_spec maxLine (Z.of_nat (length l))); [lia|]. destruct more as [|x more]; [done|].
  rewrite IH. by destruct (scanLines (splitAt 10 rest) err).
Qed.

(** *** Events *)

Lemma dropCR_keep l b : b <> 13 -> dropCR (l ++ [b]) = l ++ [b].
Proof.
  intros Hb. unfold dropCR. rewrite rev_app_distr. cbn [rev app]. destruct b as [|p|p]; try done.
  repeat (destruct p as [p|p|]; try done).
Qed.
Lemma dropCR_drop l : dropCR (l ++ [13]) = l.
Proof. unfold dropCR. rewrite rev_app_distr. cbn [rev app]. by rewrite rev_involutive. Qed.
Lemma trimRight_brace r : trimRight (125 :: r) = 125 :: r.
Proof.
  cbn. destruct r as [|x [|y r]]; [done| |].
  - destruct x as [|p|p]; try done. repeat (destruct p as [p|p|]; try done).
  - destruct (decide (x = 128)) as [->|Hx].
    + destruct y as [|p|p]; try done. repeat (destruct p as [p|p|]; try done).
    + destruct x as [|p|p]; try done. repeat (destruct p as [p|p|]; try done).
Qed.
Lemma TrimSpace_ends l x : trimLeft (l ++ [125]) = x -> x = l ++ [125] -> TrimSpace (l ++ [125]) = l ++ [125].
Proof.
  intros Hx ->. unfold TrimSpace. rewrite Hx, rev_app_distr. change (rev [125] ++ rev l) with (125 :: rev l).
  rewrite trimRight_brace. change (rev (rev l) ++ [125] = l ++ [125]). by rewrite rev_involutive.
Qed.
Lemma TrimSpace_data m : TrimSpace (bytesOf "data: " ++ 123 :: m ++ [125]) = bytesOf "data: " ++ 123 :: m ++ [125].
Proof. exact (TrimSpace_ends (bytesOf "data: " ++ 123 :: m) _ eq_refl eq_refl). Qed.
Lemma TrimSpace_object m : TrimSpace (32 :: 123 :: m ++ [125]) = 123 :: m ++ [125].
Proof. exact (TrimSpace_ends (123 :: m) _ eq_refl eq_refl). Qed.

Lemma dropCR_data m (cr : bool) :
  dropCR (bytesOf "data: " ++ 123 :: m ++ [125] ++ (if cr then [13] else [])) = bytesOf "data: " ++ 123 :: m ++ [125].
Proof.
  destruct cr; [|exact (dropCR_keep (bytesOf "data: " ++ 123 :: m) 125 ltac:(lia))].
  transitivity (dropCR ((bytesOf "data: " ++ 123 :: m ++ [125]) ++ [13])); [|apply dropCR_drop].
  f_equal. cbn. by rewrite <- app_assoc.
Qed.
(** A line that carries no event, and one that does. *)
Lemma readEvents_note l err ls final s : dataPayload (TrimSpace l) = None -> readEvents ((l, err) :: ls) final s = readEvents ls final s.
Proof. intros Hl. cbn [readEvents]. by rewrite Hl. Qed.
Lemma readEvents_data m err ls final s : readEvents ((bytesOf "data: " ++ 123 :: m ++ [125], err) :: ls) final s =
  match parseJson (123 :: m ++ [125]) ≫= decodeChunk with
  | None => (s, Some (EWrap "openai: decode stream chunk" (EText "json")))
  | Some k => readEvents ls final (addChunk k s)
  end.
Proof.
  assert (Hd : dataPayload (TrimSpace (bytesOf "data: " ++ 123 :: m ++ [125])) = Some (32 :: 123 :: m ++ [125]))
    by by rewrite TrimSpace_data.
  cbn [readEvents]. by rewrite Hd, TrimSpace_object.
Qed.
Lemma readEvents_lines ls ks more final s : frames ls ks ->
  readEvents (tokens ls ++ more) final s = readEvents more final (foldl (fun s k => addChunk k s) s ks).
Proof.
  intros Hf. revert s. induction Hf as [|l ls ks Hn _ IH|m cr k ls ks Hk _ IH]; intros s; [done| |].
  - change (tokens (l :: ls) ++ more) with ((dropCR l, None : option goerr) :: (tokens ls ++ more)). by rewrite readEvents_note.
  - change (tokens (?x :: ls) ++ more) with ((dropCR x, None : option goerr) :: (tokens ls ++ more)).
    rewrite dropCR_data, readEvents_data, Hk. apply IH.
Qed.

Lemma last_usage {A} (x u : A) l : default x (head (rev (u :: l))) = default u (head (rev l)).
Proof. cbn. by destruct (rev l). Qed.
Lemma addChunks ks s : foldl (fun s k => addChunk k s) s ks =
  mkStreamState (mkChatText (ct_Content (sd_Text s) +:+ ct_Content (streamText ks)) (ct_Reasoning (sd_Text s) +:+ ct_Reasoning (streamText ks)))
    (default (sd_Usage s) (head (rev (omap ck_Usage ks)))) (sd_Chunks s ++ shown ks).
Proof.
  revert s. induction ks as [|k ks IH]; intros [[tc tr] u cs].
  - change (mkStreamState (mkChatText tc tr) u cs = mkStreamState (mkChatText (tc +:+ EmptyString) (tr +:+ EmptyString)) u (cs ++ [])).
    by rewrite !appS_nil, app_nil_r.
  - cbn [foldl]. rewrite IH. clear IH. destruct k as [[|d chs] ku].
    + destruct ku as [u'|]; [|done]. change (omap ck_Usage (mkChatChunk [] (Some u') :: ks)) with (u' :: omap ck_Usage ks).
      by rewrite last_usage.
    + assert (Hu : default u (head (rev (omap ck_Usage (mkChatChunk (d :: chs) ku :: ks)))) = default (default u ku) (head (rev (omap ck_Usage ks)))).
      { destruct ku as [u'|]; [apply (last_usage u u')|done]. }
      cbn [sd_Usage]. rewrite Hu. unfold addChunk, addDelta. cbn [ck_Choices sd_Text sd_Usage sd_Chunks ct_Content ct_Reasoning ck_Usage].
      unfold streamText, shown. change (deltas (mkChatChunk (d :: chs) ku :: ks)) with (d :: deltas ks). cbn [map ct_Content ct_Reasoning].
      rewrite !concatS_cons, !appS_assoc, filter_cons, <- app_assoc. f_equal. case_bool_decide; case_decide; done.
Qed.

(** *** What a stream yields *)

Definition start : streamState := mkStreamState zeroText zeroChatUsage [].
Definition doneLine : list Z := bytesOf "data: [DONE]".
Lemma eventBody_read ls ks rest err : frames ls ks -> Forall lineOk ls ->
  (let '(toks, final) := scanLines (splitAt 10 (eventBody ls rest)) err in readEvents toks final start) =
  (let '(toks, final) := scanLines (splitAt 10 rest) err in readEvents toks final (mkStreamState (streamText ks) (streamUsage ks) (shown ks))).
Proof.
  intros Hf Hls. rewrite scan_lines by done. destruct (scanLines (splitAt 10 rest) err) as [toks final].
  rewrite (readEvents_lines ls ks) by done. by rewrite addChunks.
Qed.
(** [data: [DONE]] ends a stream, whatever follows. *)
Lemma done_ends rest err s :
  (let '(toks, final) := scanLines (splitAt 10 (doneLine ++ 10 :: rest)) err in readEvents toks final s) = (s, None).
Proof.
  rewrite splitAt_cut by exact (bool_decide_eq_true_1 (10 ∉ doneLine) eq_refl).
  pose proof (splitAt_ne 10 rest) as Hne. destruct (splitAt 10 rest) as [|x more]; [done|].
  change (scanLines (doneLine :: x :: more) err) with (let '(out, e) := scanLines (x :: more) err in ((dropCR doneLine, None : option goerr) :: out, e)).
  destruct (scanLines (x :: more) err) as [out e]. reflexivity.
Qed.
(** A read error ends the call, whatever the last line is. *)
Lemma broken_ends l e final s : exists s' e', readEvents [(l, Some e)] (Some final) s = (s', Some e').
Proof.
  cbn [readEvents]. destruct (dataPayload (TrimSpace l)) as [p|]; [|by eexists _, _]. case_bool_decide; [by eexists _, _|].
  destruct (parseJson (TrimSpace p) ≫= decodeChunk); by eexists _, _.
Qed.
Lemma splitAt_one sep l : sep ∉ l -> splitAt sep l = [l].
Proof.
  induction l as [|b l IH]; intros Hl; [done|]. apply not_elem_of_cons in Hl as [Hb Hl]. cbn.
  destruct (Z.eqb_spec b sep); [by subst|]. by rewrite IH.
Qed.
Lemma broken_off partial e s : 10 ∉ partial -> exists s' e',
  (let '(toks, final) := scanLines (splitAt 10 partial) (Some e) in readEvents toks final s) = (s', Some e').
Proof.
  intros Hp. rewrite splitAt_one by done. cbn [scanLines]. destruct (maxLine <=? Z.of_nat (length partial)); [by eexists _, _|].
  case_bool_decide; [by eexists _, _|]. apply broken_ends.
Qed.

(** The text is what the chunks add up to. *)
Lemma addChunk_text k s : concatS (sd_Chunks s) = ct_Content (sd_Text s) -> concatS (sd_Chunks (addChunk k s)) = ct_Content (sd_Text (addChunk k s)).
Proof.
  intros Hs. unfold addChunk. destruct (ck_Choices k) as [|d ds]; [done|]. cbn. rewrite concatS_app, Hs. case_bool_decide as Hd.
  - by rewrite Hd.
  - f_equal. apply appS_nil.
Qed.
Lemma readEvents_text ls final s s' err : concatS (sd_Chunks s) = ct_Content (sd_Text s) -> readEvents ls final s = (s', err) ->
  concatS (sd_Chunks s') = ct_Content (sd_Text s').
Proof.
  revert s. induction ls as [|[l e] ls IH]; intros s Hs; cbn [readEvents]; [by intros [= <- _]|].
  destruct (dataPayload (TrimSpace l)) as [p|]; [|by apply IH]. case_bool_decide; [by intros [= <- _]|].
  destruct (parseJson (TrimSpace p) ≫= decodeChunk) as [k|]; [|by intros [= <- _]]. apply IH, addChunk_text, Hs.
Qed.
Lemma readStream_text model resp chunks r : readStream model resp = (chunks, Ok r) ->
  exists reasoning, Parts (mresp_Message r) = completionParts model (mkChatText (concatS chunks) reasoning).
Proof.
  unfold readStream. destruct (negb _); [done|]. destruct (scanLines _ _) as [ls final].
  destruct (readEvents ls final _) as [s err] eqn:E. destruct err; [done|]. intros [= <- <-].
  apply readEvents_text in E; [|done]. exists (ct_Reasoning (sd_Text s)). cbn. rewrite E. by destruct (sd_Text s).
Qed.

Section Provider.
Context `{UrlLib} `{HttpTransport}.

(** C24: A streamed completion is the whole completion: the provider reports the chunks in order, and the response
    it returns is the one that [Model] returns when the server answers with the same text and usage at once.
    Whatever a server answers, the chunks add up to the text of the response; a stream that breaks off with an
    error fails; and one that just ends, with no [data: [DONE]], is taken for complete. *)
Theorem stream_is_whole c req t t' model b b' ls ks raw :
  buildRequest c req true = (model, Ok b) -> buildRequest c req false = (model, Ok b') ->
  frames ls ks -> Forall lineOk ls ->
  snd (post c t' b') = Ok (mkHttpResponse StatusOK (mkHttpBody raw None)) -> Z.of_nat (length raw) < maxResponse ->
  parseJson raw ≫= decodeResponse = Some (mkChatResponse [streamText ks] (streamUsage ks)) ->
  let answered rest err := snd (post c t b) = Ok (mkHttpResponse StatusOK (mkHttpBody (eventBody ls rest) err)) in
  (forall rest err, answered (doneLine ++ 10 :: rest) err -> snd (StreamModel c t req) = (shown ks, snd (Model c t' req))) /\
  (answered [] None -> snd (StreamModel c t req) = (shown ks, snd (Model c t' req))) /\
  (forall partial err, 10 ∉ partial -> answered partial (Some err) -> exists e, snd (snd (StreamModel c t req)) = Err e) /\
  (forall chunks r, snd (StreamModel c t req) = (chunks, Ok r) ->
    exists reasoning, Parts (mresp_Message r) = completionParts model (mkChatText (concatS chunks) reasoning)).
Proof.
  intros Hb Hb' Hf Hls Hwhole Hlen Hraw answered. unfold StreamModel, Model. rewrite Hb, Hb'.
  destruct (post c t' b') as [sent' r'] eqn:E'. cbn in Hwhole. subst r'. unfold answered. clear answered.
  destruct (post c t b) as [sent r] eqn:E. cbn [snd].
  assert (Hm : readCompletion model (mkHttpResponse StatusOK (mkHttpBody raw None)) = Ok (completion model (streamText ks) (streamUsage ks))).
  { unfold readCompletion, readLimited. cbn [hr_Body bd_Bytes bd_Error hr_Status]. apply Z.ltb_lt in Hlen. rewrite Hlen, Hraw. done. }
  split_and!.
  - intros rest err [= ->]. rewrite Hm. unfold readStream. cbn [hr_Status hr_Body bd_Bytes bd_Error]. fold start.
    pose proof (eventBody_read ls ks (doneLine ++ 10 :: rest) err Hf Hls) as Hr. rewrite done_ends in Hr.
    destruct (scanLines _ err) as [toks final]. by rewrite Hr.
  - intros [= ->]. rewrite Hm. unfold readStream. cbn [hr_Status hr_Body bd_Bytes bd_Error]. fold start.
    pose proof (eventBody_read ls ks [] None Hf Hls) as Hr. destruct (scanLines _ None) as [toks final]. by rewrite Hr.
  - intros partial err Hp [= ->]. unfold readStream. cbn [hr_Status hr_Body bd_Bytes bd_Error]. fold start.
    pose proof (eventBody_read ls ks partial (Some err) Hf Hls) as Hr.
    destruct (broken_off partial err (mkStreamState (streamText ks) (streamUsage ks) (shown ks)) Hp) as (s' & e' & He). rewrite He in Hr.
    destruct (scanLines (splitAt 10 (eventBody ls partial)) (Some err)) as [toks final]. rewrite Hr. by exists e'.
  - intros chunks r2. destruct r as [resp|e]; [|done]. apply readStream_text.
Qed.
End Provider.

(** ** Requests *)

(** What a message says: its text; reasoning is not resent. *)
Definition said (m : Message) : string := concatS (omap part_Text (Parts m)).
Definition spoken (p : Part) : Prop := is_Some (part_Text p) \/ is_Some (part_Reasoning p).
(** What the endpoint can be asked: text, with no tools. *)
Definition sendable (req : ModelRequest) : Prop :=
  Tools req = [] /\ mr_ToolChoice req = None /\ Forall (fun m => Forall spoken (Parts m)) (Messages req).
Definition askedMessage (m : Message) : chatMessage :=
  mkChatMessage (if bool_decide (Role m = EmptyString) then "user"%string else Role m) (said m).
Definition asked (c : Client) (req : ModelRequest) (stream : bool) : chatRequest :=
  mkChatRequest (resolveModel c req) (map askedMessage (Messages req)) stream stream.
(** Every text is valid UTF-8. *)
Definition readable (r : chatRequest) : Prop :=
  validUTF8 (cr_Model r) = true /\ Forall (fun m => validUTF8 (cm_Role m) = true /\ validUTF8 (cm_Content m) = true) (cr_Messages r).

(** What the endpoint reads in a body: an object with these members and no others. *)
Definition hasMembers (v : json) (ms : list (string * (json -> Prop))) : Prop :=
  exists vs, v = JObject vs /\ map fst vs = map fst ms /\ Forall2 (fun m p => snd p (snd m)) vs ms.
(** The model asked for, or the client's own where none is or the echo model is. *)
Definition askedModel (c : Client) (req : ModelRequest) : string :=
  if decide (mr_Model req ∈ [EmptyString; "echo"%string]) then cl_model c else mr_Model req.
Definition readsMessage (m : Message) (v : json) : Prop := hasMembers v
  [("role"%string, eq (JString (if decide (Role m = EmptyString) then "user"%string else Role m)));
   ("content"%string, eq (JString (said m)))].
Definition readsRequest (c : Client) (req : ModelRequest) (stream : bool) (v : json) : Prop := hasMembers v
  ([("model"%string, eq (JString (askedModel c req)));
    ("messages"%string, fun v => exists vs, v = JArray vs /\ Forall2 readsMessage (Messages req) vs)]
   ++ if stream then
     [("stream"%string, eq (JBool true));
      ("stream_options"%string, fun v => hasMembers v [("include_usage"%string, eq (JBool true))])]
   else []).

Lemma partText_spoken p : spoken p -> partText p = Ok (default EmptyString (part_Text p)).
Proof. destruct p as [[t|] f d [r|] tc tr]; intros [[? E]|[? E]]; cbn in E; done. Qed.
Lemma partText_refused p : ~ spoken p -> exists text, partText p = Err (EWrap text ErrUnsupportedPart).
Proof.
  destruct p as [[t|] f d [r|] tc tr]; intros Hp; try (exfalso; apply Hp; (by left) || (by right)).
  destruct f, d, tc, tr; by eexists.
Qed.
#[local] Instance spoken_dec p : Decision (spoken p) := ltac:(unfold spoken; apply _).
Lemma partsText_said ps : Forall spoken ps -> partsText ps = Ok (concatS (omap part_Text ps)).
Proof.
  induction ps as [|p ps IH]; intros Hps; [done|]. apply Forall_cons_iff in Hps as [Hp Hps]. cbn [partsText].
  rewrite (partText_spoken p Hp), (IH Hps). cbn. by destruct (part_Text p).
Qed.
Lemma partsText_refused ps : ~ Forall spoken ps -> exists text, partsText ps = Err (EWrap text ErrUnsupportedPart).
Proof.
  induction ps as [|p ps IH]; intros Hps; [by destruct Hps|]. cbn [partsText]. destruct (decide (spoken p)) as [Hp|Hp].
  - rewrite (partText_spoken p Hp). destruct IH as [text ->]; [|by eexists]. intros Hall. apply Hps. by constructor.
  - destruct (partText_refused p Hp) as [text ->]. by eexists.
Qed.
Lemma toChatMessages_asked msgs : Forall (fun m => Forall spoken (Parts m)) msgs -> toChatMessages msgs = Ok (map askedMessage msgs).
Proof.
  induction msgs as [|m msgs IH]; intros Hms; [done|]. apply Forall_cons_iff in Hms as [Hm Hms]. cbn [toChatMessages].
  by rewrite (partsText_said _ Hm), (IH Hms).
Qed.
Lemma toChatMessages_refused msgs : ~ Forall (fun m => Forall spoken (Parts m)) msgs ->
  exists text, toChatMessages msgs = Err (EWrap text ErrUnsupportedPart).
Proof.
  induction msgs as [|m msgs IH]; intros Hms; [by destruct Hms|]. cbn [toChatMessages]. destruct (decide (Forall spoken (Parts m))) as [Hm|Hm].
  - rewrite (partsText_said _ Hm). destruct IH as [text ->]; [|by eexists]. intros Hall. apply Hms. by constructor.
  - destruct (partsText_refused _ Hm) as [text ->]. by eexists.
Qed.

Lemma requestJson_valid r : readable r -> validJson (requestJson r).
Proof.
  intros [Hm Hms]. destruct r as [model msgs [] []]; cbn in *; rewrite ?Forall_cons_iff; repeat split; try done;
    apply Forall_id_map, Forall_map; (eapply list.Forall_impl; [exact Hms|]); intros m [Hr Hc]; cbn; rewrite ?Forall_cons_iff; done.
Qed.
Lemma foldr_max_bound l n : 0 <= n -> Forall (fun x => x <= n) l -> foldr Z.max 0 l <= n.
Proof. intros Hn Hl. induction Hl; cbn; lia. Qed.
Lemma requestJson_nesting r : nesting (requestJson r) <= 3.
Proof.
  assert (H : foldr Z.max 0 (map nesting (map messageJson (cr_Messages r))) <= 1).
  { apply foldr_max_bound; [lia|]. rewrite Forall_map, Forall_map. by apply list.Forall_true. }
  destruct r as [model msgs [] []]; cbn [requestJson nesting app map foldr fst snd cr_Model cr_Messages cr_Stream cr_IncludeUsage] in *; lia.
Qed.

Lemma buildRequest_asked c req stream : sendable req ->
  buildRequest c req stream = (resolveModel c req, Ok (printJson (requestJson (asked c req stream)))).
Proof.
  intros (Ht & Hc & Hms). unfold buildRequest. rewrite Ht, Hc, (toChatMessages_asked _ Hms). done.
Qed.
Lemma buildRequest_refused c req stream : ~ sendable req ->
  exists text, buildRequest c req stream = (resolveModel c req, Err (EWrap text ErrUnsupportedPart)).
Proof.
  intros Hs. unfold buildRequest. case_bool_decide as Ht; [|by eexists]. case_bool_decide as Hc; [|by eexists]. cbn [negb orb].
  destruct (toChatMessages_refused (Messages req)) as [text ->]; [|by eexists]. intros Hms. by apply Hs.
Qed.

Lemma askedModel_resolved c req : askedModel c req = resolveModel c req.
Proof.
  unfold askedModel, resolveModel. case_decide as Hm.
  - apply elem_of_cons in Hm as [->|Hm]; [done|]. by apply list_elem_of_singleton in Hm as ->.
  - rewrite !bool_decide_eq_false_2; [done| |]; intros E; apply Hm; set_solver.
Qed.
(** The body of a request reads as what was asked. *)
Lemma readsMessage_asked m : readsMessage m (messageJson (askedMessage m)).
Proof.
  eexists. split; [reflexivity|]. split; [reflexivity|]. constructor; [cbn|by repeat constructor].
  f_equal. by case_decide; case_bool_decide.
Qed.
Lemma readsRequest_asked c req stream : readsRequest c req stream (requestJson (asked c req stream)).
Proof.
  unfold readsRequest. rewrite askedModel_resolved. eexists. split; [reflexivity|]. split; [by destruct stream|].
  constructor; [reflexivity|]. constructor.
  - eexists. split; [reflexivity|]. cbn [asked cr_Messages]. induction (Messages req) as [|m ms IH]; constructor; [apply readsMessage_asked|done].
  - destruct stream; constructor; [reflexivity|]. constructor; [|constructor]. eexists. split; [reflexivity|]. split; [reflexivity|].
    by repeat constructor.
Qed.

Section Requests.
Context `{UrlLib} `{HttpTransport}.

(** C25: A request says what the harness asked. Its body, parsed as JSON, is an object with exactly these members:
    the model, every message with its role and its text in order, and when streaming is asked for the
    streaming flag and the option to report usage; and that body is what is posted. (The texts are valid UTF-8;
    of others, JSON replaces what is not.) What the endpoint cannot be
    asked (tools, and any part that is neither text nor reasoning) is an error, and nothing is sent, streamed
    or not. *)
Theorem request_exact c t req :
  (sendable req -> forall stream, readable (asked c req stream) -> exists body v,
    buildRequest c req stream = (askedModel c req, Ok body) /\ parseJson body = Some v /\ readsRequest c req stream v /\
    (if stream then fst (StreamModel c t req) else fst (Model c t req)) = fst (post c t body)) /\
  (~ sendable req -> exists text text', Model c t req = ([], Err (EWrap text ErrUnsupportedPart)) /\
    StreamModel c t req = ([], ([], Err (EWrap text' ErrUnsupportedPart)))).
Proof.
  split.
  - intros Hs stream Hr. exists (printJson (requestJson (asked c req stream))), (requestJson (asked c req stream)).
    pose proof (buildRequest_asked c req stream Hs) as Hb. split; [by rewrite askedModel_resolved|].
    split; [|split; [apply readsRequest_asked|]].
    + apply parseJson_print; [by apply requestJson_valid|].
      pose proof (requestJson_nesting (asked c req stream)). unfold maxNesting. lia.
    + unfold StreamModel, Model. destruct stream; rewrite Hb; by destruct (post c t _).
  - intros Hs. unfold Model, StreamModel. destruct (buildRequest_refused c req false Hs) as [x ->].
    destruct (buildRequest_refused c req true Hs) as [y ->]. by exists x, y.
Qed.
End Requests.

(** ** Where requests go *)

(** Joining a base URL and a path keeps the base's scheme and host ([URL.String], then [url.Parse]); a map is
    ranged over in some order. *)
Class UrlLaws `{UrlLib} := url_joined : forall b p u q, url_Parse b = Ok u -> url_Parse p = Ok q -> Scheme u <> EmptyString ->
  url_Host u <> EmptyString -> exists v, url_Parse (url_String (joinURL u q)) = Ok v /\ Scheme v = Scheme u /\ url_Host v = url_Host u.
Class HttpLaws `{HttpTransport} := range_order : forall t m, rangeHeaders t m ≡ₚ map_to_list m.

(** What redirects repeat of the headers [h]: those of no secret and no body always, the secret ones as long as
    every host was trusted. *)
Definition repeats (initial : URL) (h : gmap string string) (sent : list Sent) : Prop :=
  forall i s key, sent !! i = Some s -> bodyHeader key = false ->
    snd s !! key = if sensitiveHeader key && negb (forallb (trustedHost initial) (map fst (take (S i) sent))) then None else h !! key.

Lemma repeated_lookup strip bodiless h key : bodyHeader key = false ->
  repeated strip bodiless h !! key = if sensitiveHeader key && strip then None else h !! key.
Proof.
  intros Hb. unfold repeated. destruct (h !! key) as [v|] eqn:Hk.
  - destruct (sensitiveHeader key && strip) eqn:Hs.
    + apply map_lookup_filter_None_2. right. intros v' _. cbn [fst]. by rewrite andb_comm, Hs.
    + apply map_lookup_filter_Some_2; [done|]. cbn [fst]. by rewrite Hb, (andb_comm strip), Hs, andb_false_r.
  - rewrite (proj2 (map_lookup_filter_None _ _ _)) by (by left). by case_match.
Qed.
Lemma repeats_snoc initial h sent u strip bodiless : repeats initial h sent ->
  strip = negb (forallb (trustedHost initial) (map fst sent)) || negb (trustedHost initial u) ->
  repeats initial h (sent ++ [(u, repeated strip bodiless h)]).
Proof.
  unfold repeats, Sent. intros Hr Hs i s key Hi Hb. apply lookup_app_Some in Hi as [Hi|[Hle Hi]].
  - rewrite take_app_le by (apply lookup_lt_Some in Hi; lia). by apply Hr.
  - apply list_lookup_singleton_Some in Hi as [Hi <-]. rewrite take_ge by (rewrite length_app; cbn; lia). cbn [snd].
    rewrite repeated_lookup by done. rewrite map_app, forallb_app. cbn [map fst forallb]. by rewrite andb_true_r, negb_andb, Hs.
Qed.

Section Follow.
Context (initial : URL) (h : gmap string string).
Lemma follow_home next hops : forall strip bodiless via, Forall (fun s => origin (fst s) = origin initial) via ->
  option_map fst (head via) = Some initial ->
  Forall (fun s : Sent => origin (fst s) = origin initial) (fst (follow (sameOriginPolicy next) initial h strip bodiless via hops)).
Proof.
  induction hops as [|hop hops IH]; intros strip bodiless via Hvia Hfrom; cbn [follow]; [done|].
  destruct via as [|[f hf] via]; [done|]. injection Hfrom as ->. unfold sameOriginPolicy at 1. cbn [map fst].
  case_bool_decide as Ho; [|done]. cbn [negb].
  match goal with |- Forall _ (fst (match ?v with _ => _ end)) => destruct v end; [|done..].
  apply IH; [|done]. apply list.Forall_app. split; [done|]. by constructor.
Qed.
Lemma follow_bounded hops : forall strip bodiless via, via <> [] -> Z.of_nat (length via) <= maxRedirects ->
  Z.of_nat (length (fst (follow (sameOriginPolicy None) initial h strip bodiless via hops))) <= maxRedirects.
Proof.
  induction hops as [|hop hops IH]; intros strip bodiless via Hne Hvia; cbn [follow]; [done|].
  destruct via as [|from via]; [done|]. unfold sameOriginPolicy at 1. cbn [map]. case_bool_decide; [|done]. cbn [negb].
  unfold limitRedirects. change (fst from :: map fst via) with (map fst (from :: via)). rewrite length_map.
  match goal with |- context [if ?b then Refuse _ else _] => destruct b eqn:Hlt end; [exact Hvia|]. apply Z.leb_gt in Hlt.
  apply IH; [by destruct via|]. unfold Sent in *. rewrite length_app. cbn [length] in *. lia.
Qed.
Lemma follow_repeats policy hops : forall strip bodiless via, repeats initial h via ->
  strip = negb (forallb (trustedHost initial) (map fst via)) ->
  repeats initial h (fst (follow policy initial h strip bodiless via hops)).
Proof.
  induction hops as [|hop hops IH]; intros strip bodiless via Hvia Hs; cbn [follow]; [done|].
  destruct (policy (rd_URL hop) (map fst via)); [|done..]. apply IH.
  - apply repeats_snoc; [done|]. by rewrite Hs.
  - rewrite map_app, forallb_app. cbn [map fst forallb]. by rewrite andb_true_r, negb_andb, Hs.
Qed.
Lemma follow_first policy hops : forall strip bodiless s via,
  head (fst (follow policy initial h strip bodiless (s :: via) hops)) = Some s.
Proof.
  induction hops as [|hop hops IH]; intros strip bodiless s via; cbn [follow]; [done|].
  destruct (policy (rd_URL hop) _); [|done..]. apply IH.
Qed.
End Follow.

(** *** Headers *)

(** No two configured names are the same header. *)
Definition distinctNames (hs : gmap string string) : Prop :=
  forall a b, is_Some (hs !! a) -> is_Some (hs !! b) -> CanonicalHeaderKey a = CanonicalHeaderKey b -> a = b.
Definition carries (hs h : gmap string string) : Prop := forall name value, hs !! name = Some value -> h !! CanonicalHeaderKey name = Some value.

Lemma setHeaders_other kvs key : forall h, ~ In key (map (fun kv => CanonicalHeaderKey (fst kv)) kvs) -> setHeaders kvs h !! key = h !! key.
Proof.
  induction kvs as [|kv kvs IH]; intros h Hk; [done|]. cbn in Hk. change (setHeaders (kv :: kvs) h) with (setHeaders kvs (<[CanonicalHeaderKey (fst kv) := snd kv]> h)).
  rewrite IH by tauto. apply lookup_insert_ne. tauto.
Qed.
Lemma setHeaders_in kvs name value : forall h, NoDup (map (fun kv => CanonicalHeaderKey (fst kv)) kvs) -> In (name, value) kvs ->
  setHeaders kvs h !! CanonicalHeaderKey name = Some value.
Proof.
  induction kvs as [|kv kvs IH]; intros h Hnd Hin; [done|]. cbn [map] in Hnd. apply list.NoDup_cons in Hnd as [Hk Hnd].
  change (setHeaders (kv :: kvs) h) with (setHeaders kvs (<[CanonicalHeaderKey (fst kv) := snd kv]> h)).
  destruct Hin as [->|Hin]; [|by apply IH].
  rewrite setHeaders_other; [apply lookup_insert_eq|]. by rewrite <- list_elem_of_In.
Qed.
Lemma distinct_NoDup hs kvs : distinctNames hs -> kvs ≡ₚ map_to_list hs -> NoDup (map (fun kv => CanonicalHeaderKey (fst kv)) kvs).
Proof.
  intros Hd ->. pose proof (NoDup_fst_map_to_list hs) as Hnd.
  assert (Hin : forall k v, In (k, v) (map_to_list hs) -> is_Some (hs !! k)).
  { intros k v Hk. exists v. apply elem_of_map_to_list. by apply list_elem_of_In. }
  induction (map_to_list hs) as [|[k v] l IH]; cbn [map fst fmap list_fmap] in *; [constructor|]. apply list.NoDup_cons in Hnd as [Hk Hnd].
  apply list.NoDup_cons. split; [|apply IH; [done|intros k' v' Hi; apply (Hin k' v'); by right]].
  intros Hc. apply list_elem_of_In, in_map_iff in Hc as ([k' v'] & Hc & Hi). cbn [fst] in Hc. apply Hk.
  assert (k' = k) as -> by (apply Hd; [apply (Hin k' v'); by right|apply (Hin k v); by left|done]).
  apply list_elem_of_In, in_map_iff. by exists (k, v').
Qed.
Lemma setHeaders_carries hs kvs h : distinctNames hs -> kvs ≡ₚ map_to_list hs -> carries hs (setHeaders kvs h).
Proof.
  intros Hd Hp name value Hn. apply setHeaders_in; [by apply (distinct_NoDup hs)|].
  apply list_elem_of_In. rewrite Hp. by apply elem_of_map_to_list.
Qed.
(** Two names of one header: which value is sent depends on the order the map is ranged over in. *)
Lemma colliding_headers k v h : k <> EmptyString ->
  let hs := headers (applyOptions [WithAPIKey k; WithHeader "authorization" v]) in
  exists l1 l2, l1 ≡ₚ map_to_list hs /\ l2 ≡ₚ map_to_list hs /\
    setHeaders l1 h !! "Authorization"%string = Some v /\ setHeaders l2 h !! "Authorization"%string = Some ("Bearer "%string +:+ k).
Proof.
  intros Hk hs. unfold hs, applyOptions. cbn [foldl]. unfold WithAPIKey, WithHeader. rewrite (bool_decide_false _ Hk). cbn [headers].
  set (A := ("Authorization"%string, "Bearer "%string +:+ k)). set (B := ("authorization"%string, v)).
  assert (Hm : map_to_list (<["authorization"%string := v]> (<["Authorization"%string := "Bearer "%string +:+ k]> (∅ : gmap string string))) ≡ₚ [B; A]).
  { rewrite map_to_list_insert by by vm_compute. by rewrite map_to_list_insert, map_to_list_empty by by vm_compute. }
  exists [A; B], [B; A]. rewrite Hm. split_and!; [by constructor|done| |]; apply lookup_insert_eq.
Qed.

Section Origin.
Context `{!UrlLib} `{!UrlLaws} `{!HttpTransport} `{!HttpLaws}.

(** The requests of a call, as configured: to one origin, with the configured headers. The first request carries
    every one of them; a redirect carries those that are not about the body it may have dropped, except
    that the secret ones stay behind once a host was not, as net/http compares host texts, the first
    request's or below it. *)
Definition configured (from : string) (hs : gmap string string) (sent : list Sent) : Prop :=
  Forall (fun s => origin (fst s) = from) sent /\
  (distinctNames hs -> forall first, head sent = Some first ->
    carries hs (snd first) /\
    forall i s name value, sent !! i = Some s -> hs !! name = Some value -> let key := CanonicalHeaderKey name in
      bodyHeader key = false ->
      snd s !! key = if sensitiveHeader key && negb (forallb (trustedHost (fst first)) (map fst (take (S i) sent))) then None else Some value).

Lemma trustedHost_self u : trustedHost u u = true.
Proof. unfold trustedHost. by rewrite bool_decide_eq_true_2. Qed.
Lemma post_home c next t body u0 from : checkRedirect c = Some (sameOriginPolicy next) -> url_Parse (endpoint c) = Ok u0 -> origin u0 = from ->
  configured from (headers c) (fst (post c t body)) /\
  (next = None -> Z.of_nat (length (fst (post c t body))) <= maxRedirects).
Proof.
  intros Hc Hu <-. unfold post. rewrite Hu. unfold http_Do. rewrite Hc. cbn [default id rq_URL rq_Headers].
  set (h := setHeaders _ _). set (hops := http_Redirects _ _).
  pose proof (follow_home u0 h next hops false false [(u0, h)] ltac:(by constructor) eq_refl) as Hh.
  pose proof (follow_bounded u0 h hops false false [(u0, h)] ltac:(done) ltac:(by vm_compute)) as Hb.
  assert (Hr : repeats u0 h (fst (follow (sameOriginPolicy next) u0 h false false [(u0, h)] hops))).
  { apply follow_repeats; [|cbn; by rewrite trustedHost_self]. intros i s key Hi _. apply list_lookup_singleton_Some in Hi as [-> <-].
    cbn. by rewrite trustedHost_self, andb_false_r. }
  pose proof (follow_first u0 h (sameOriginPolicy next) hops false false (u0, h) []) as Hfirst.
  assert (Hcar : distinctNames (headers c) -> carries (headers c) h) by (intros Hd; apply setHeaders_carries; [done|apply range_order]).
  split.
  - destruct (follow (sameOriginPolicy next) _ _ _ _ _ _) as [sent e]. cbn [fst] in *. split; [done|]. intros Hd first Hf.
    rewrite Hfirst in Hf. injection Hf as <-. split; [by apply Hcar|]. intros i s name value Hi Hn key Hk. cbn [fst].
    rewrite (Hr i s key Hi Hk). unfold key. by rewrite (Hcar Hd _ _ Hn).
  - intros ->. by destruct (follow (sameOriginPolicy None) _ _ _ _ _ _) as [sent e].
Qed.

(** C26: Every request of a client that [New] built goes to the origin (scheme, host and port) of its base URL,
    whatever redirects a server asks for, streamed or not. When no two of the configured names are the
    same header, the first request carries every configured header, and each redirect carries them
    too: always those that describe no body and are not one of net/http's sensitive headers
    (Authorization, Cookie and their kin), and the sensitive ones exactly as long as every host so far was,
    as net/http compares host texts, the first one or below it. Without a redirect policy of the
    caller's, a call sends at most 10 requests. *)
Theorem requests_stay_home opts c t req : NewClient opts = Ok c -> exists base, url_Parse (baseURL c) = Ok base /\
  Forall (fun sent => configured (origin base) (headers c) sent /\
    (checkRedirect (applyOptions opts) = None -> Z.of_nat (length sent) <= maxRedirects))
  [fst (Model c t req); fst (StreamModel c t req)].
Proof.
  unfold NewClient. case_bool_decide; [done|]. destruct (joinEndpoint _ _) as [ep|] eqn:Ej; [|done]. intros [= <-]. cbn [baseURL].
  unfold joinEndpoint in Ej. destruct (url_Parse (baseURL (applyOptions opts))) as [u|] eqn:Eu; [|done].
  case_bool_decide as Hs; [done|]. case_bool_decide as Hh; [done|]. cbn [orb] in Ej.
  destruct (url_Parse (cl_path (applyOptions opts))) as [q|] eqn:Eq; [|done]. destruct (negb _); [done|]. injection Ej as <-.
  destruct (url_joined _ _ u q Eu Eq Hs Hh) as (v & Ev & Hvs & Hvh).
  assert (Ho : origin v = origin u) by (unfold origin, Port, Hostname; by rewrite Hvs, Hvh).
  exists u. split; [done|]. set (c := mkClient _ _ _ _ _ _).
  assert (Hpost : forall t body, _) by exact (fun t body => post_home c (checkRedirect (applyOptions opts)) t body v (origin u) eq_refl Ev Ho).
  assert (Hempty : configured (origin u) (headers c) [] /\
    (checkRedirect (applyOptions opts) = None -> Z.of_nat (length (@nil Sent)) <= maxRedirects)) by (split; [by split|by vm_compute]).
  constructor; [|constructor; [|constructor]].
  - unfold Model. destruct (buildRequest c req false) as [m [body|]]; [|apply Hempty]. pose proof (Hpost t body) as Hp. by destruct (post c t body).
  - unfold StreamModel. destruct (buildRequest c req true) as [m [body|]]; [|apply Hempty]. pose proof (Hpost t body) as Hp. by destruct (post c t body).
Qed.
End Origin.

(** * An endpoint at work

    A plain form of URLs with its law, a server that answers, and the provider's theorems at them. *)

(** ** Plain URLs

    [scheme://host/path?query], with no user and no escapes. *)
Fixpoint spanHost (bs : list Z) : list Z * list Z :=
  match bs with
  | b :: bs' => if (b =? 47) || (b =? 63) then ([], bs) else let '(h, r) := spanHost bs' in (b :: h, r)
  | [] => ([], [])
  end.
Definition plainURL (scheme host rest : list Z) : URL :=
  let '(p, q) := cutAt 63 rest in
  mkURL (stringOf scheme) EmptyString (stringOf host) (stringOf p) (stringOf p) (stringOf (default [] q)) EmptyString.
Definition plainParse (s : string) : res URL :=
  let '(scheme, r) := cutAt 58 (bytesOf s) in
  let r := default [] r in
  if bool_decide (take 2 r = [47; 47]) then let '(host, rest) := spanHost (drop 2 r) in Ok (plainURL scheme host rest)
  else Ok (plainURL [] [] (bytesOf s)).
(** What follows the host: a slash before a path that has none, and the query. *)
Definition plainRest (u : URL) : list Z :=
  (match bytesOf (EscapedPath u) with [] => [] | 47 :: p => 47 :: p | p => 47 :: p end)
  ++ (if bool_decide (RawQuery u = EmptyString) then [] else 63 :: bytesOf (RawQuery u)).
Definition plainString (u : URL) : string :=
  stringOf (bytesOf (Scheme u) ++ 58 :: 47 :: 47 :: bytesOf (url_Host u) ++ plainRest u).
#[local] Instance plainUrls : UrlLib := {| url_Parse := plainParse; url_String := plainString |}.

Lemma cutAt_none sep l : sep ∉ fst (cutAt sep l).
Proof.
  induction l as [|b l IH]; cbn; [apply not_elem_of_nil|]. destruct (Z.eqb_spec b sep); [apply not_elem_of_nil|].
  destruct (cutAt sep l). cbn in *. apply not_elem_of_cons. by split.
Qed.
Lemma cutAt_cut sep l r : sep ∉ l -> cutAt sep (l ++ sep :: r) = (l, Some r).
Proof.
  induction l as [|b l IH]; intros Hl; cbn; [by rewrite Z.eqb_refl|]. apply not_elem_of_cons in Hl as [Hb Hl].
  destruct (Z.eqb_spec b sep); [by subst|]. by rewrite IH.
Qed.
Lemma cutAt_parts sep l : Forall isByte l -> Forall isByte (fst (cutAt sep l)) /\ Forall isByte (default [] (snd (cutAt sep l))).
Proof.
  intros Hl. induction Hl as [|b l Hb Hl IH]; cbn; [done|]. destruct (b =? sep); [done|]. destruct (cutAt sep l) as [x y]. cbn in *.
  destruct IH. split; [by constructor|done].
Qed.
Definition hostByte (b : Z) : Prop := b <> 47 /\ b <> 63.
Lemma spanHost_parts l : Forall isByte l -> Forall isByte (fst (spanHost l)) /\ Forall hostByte (fst (spanHost l)).
Proof.
  intros Hl. induction Hl as [|b l Hb Hl IH]; cbn; [done|]. destruct (Z.eqb_spec b 47), (Z.eqb_spec b 63); try (cbn; done).
  destruct (spanHost l) as [x y]. cbn in *. destruct IH. split; by constructor.
Qed.
Lemma spanHost_rest h r : Forall hostByte h -> match r with [] => True | b :: _ => b = 47 \/ b = 63 end -> spanHost (h ++ r) = (h, r).
Proof.
  intros Hh Hr. induction Hh as [|b h [H1 H2] _ IH]; cbn.
  - destruct r as [|b r]; [done|]. cbn. by destruct Hr as [-> | ->].
  - apply Z.eqb_neq in H1, H2. by rewrite H1, H2, IH.
Qed.
Lemma plainRest_start u : match plainRest u with [] => True | b :: _ => b = 47 \/ b = 63 end.
Proof.
  unfold plainRest. destruct (bytesOf (EscapedPath u)) as [|b p].
  - cbn. case_bool_decide; [done|by right].
  - assert (H : exists x, match b :: p with [] => [] | 47 :: p => 47 :: p | p => 47 :: p end = 47 :: x); [|destruct H as [x ->]; by left].
    destruct b as [|q|q]; try (by eexists). repeat (destruct q as [q|q|]; try by eexists).
Qed.

(** The scheme and the host of a parsed URL are bytes of the text. *)
Lemma plainParse_parts s u : plainParse s = Ok u -> exists scheme host, Scheme u = stringOf scheme /\ url_Host u = stringOf host /\
  Forall isByte scheme /\ 58 ∉ scheme /\ Forall isByte host /\ Forall hostByte host.
Proof.
  unfold plainParse. pose proof (cutAt_none 58 (bytesOf s)) as Hn. pose proof (cutAt_parts 58 _ (bytesOf_isByte s)) as [H1 H2].
  destruct (cutAt 58 (bytesOf s)) as [scheme r]. cbn [fst snd] in *.
  case_bool_decide.
  - destruct (spanHost_parts (drop 2 (default [] r)) ltac:(by apply list.Forall_drop)). destruct (spanHost _) as [host rest].
    intros [= <-]. exists scheme, host. unfold plainURL. destruct (cutAt 63 rest). by split_and!.
  - intros [= <-]. exists [], []. unfold plainURL. destruct (cutAt 63 _). split_and!; try done. apply not_elem_of_nil.
Qed.
Lemma isByte_app l r : Forall isByte l -> Forall isByte r -> Forall isByte (l ++ r).
Proof. intros. by apply list.Forall_app. Qed.
Lemma plainRest_isByte u : Forall isByte (plainRest u).
Proof.
  apply isByte_app.
  - pose proof (bytesOf_isByte (EscapedPath u)) as Hp. destruct (bytesOf (EscapedPath u)) as [|b p]; [done|].
    assert (H47 : Forall isByte (47 :: b :: p)) by (constructor; [by vm_compute|done]).
    destruct b as [|q|q]; try done. repeat (destruct q as [q|q|]; try done).
  - case_bool_decide; [done|]. constructor; [by vm_compute|apply bytesOf_isByte].
Qed.
(** A URL with such a scheme and host is read back with them. *)
Lemma plain_back u scheme host : Scheme u = stringOf scheme -> url_Host u = stringOf host -> Forall isByte scheme -> 58 ∉ scheme ->
  Forall isByte host -> Forall hostByte host -> exists v, plainParse (plainString u) = Ok v /\ Scheme v = Scheme u /\ url_Host v = url_Host u.
Proof.
  intros Es Eh Hs Hn Hh Hhb. unfold plainParse, plainString. rewrite Es, Eh, !bytesOf_stringOf; try done.
  2: { apply isByte_app; [apply bytesOf_isByte|]. do 3 (constructor; [by vm_compute|]). apply isByte_app; [apply bytesOf_isByte|apply plainRest_isByte]. }
  rewrite cutAt_cut by done. cbn [default id take drop]. rewrite take_0. rewrite bool_decide_true by done.
  change (drop 0 ?x) with x. rewrite spanHost_rest; [|done|apply plainRest_start]. unfold plainURL. destruct (cutAt 63 (plainRest u)).
  eexists. by split_and!.
Qed.
#[local] Instance plainLaws : UrlLaws.
Proof.
  intros b p u q Hu _ _ _. destruct (plainParse_parts b u Hu) as (scheme & host & Es & Eh & H1 & H2 & H3 & H4).
  by apply (plain_back (joinURL u q) scheme host).
Qed.

(** ** A server

    It redirects twice, the second time to another host, and answers a request for a stream with events,
    a comment among them. *)
Definition gatewayURL : URL := plainURL (bytesOf "https") (bytesOf "GATEWAY.example:443") (bytesOf "/v2/chat").
Definition foreignURL : URL := plainURL (bytesOf "https") (bytesOf "elsewhere.example") (bytesOf "/chat").
Definition members (ms : list (string * json)) : list Z := joinWith 44 (map printMember ms).
Definition deltaText (text : string) : list Z :=
  members [("choices"%string, JArray [JObject [("delta"%string, JObject [("content"%string, JString text)])]])].
Definition usageJson : json := JObject [("prompt_tokens"%string, JNumber (bytesOf "12")); ("completion_tokens"%string, JNumber (bytesOf "3"))].
Definition usageText : list Z := members [("choices"%string, JArray []); ("usage"%string, usageJson)].
Definition dataLine (m : list Z) (cr : bool) : list Z := bytesOf "data: " ++ 123 :: m ++ [125] ++ (if cr then [13] else []).
Definition deskLines : list (list Z) :=
  [bytesOf ": a comment"; dataLine (deltaText "Hel") false; []; dataLine (deltaText "lo") true; []; dataLine usageText false].
Definition deskChunks : list chatChunk :=
  [mkChatChunk [mkChatText "Hel" EmptyString] None; mkChatChunk [mkChatText "lo" EmptyString] None; mkChatChunk [] (Some (mkChatUsage 12 3 0))].
Definition deskWhole : list Z :=
  printJson (JObject [("choices"%string, JArray [JObject [("message"%string, JObject [("content"%string, JString "Hello")])]]); ("usage"%string, usageJson)]).
(** At 0 it answers at once, at 1 it streams, and later it redirects. *)
#[local] Instance deskServer : HttpTransport := {|
  http_Redirects t req := match t with
    | 0%nat | 1%nat => []
    | _ => map (fun u => mkRedirect u (mkHttpResponse 307 (mkHttpBody [] None)) true) [gatewayURL; foreignURL]
    end;
  http_Response t req := Ok (mkHttpResponse StatusOK (match t with
    | 0%nat => mkHttpBody deskWhole None
    | _ => mkHttpBody (eventBody deskLines (doneLine ++ 10 :: bytesOf "trailing")) (Some (EText "reset"))
    end));
  rangeHeaders t m := map_to_list m;
|}.
#[local] Instance deskServer_laws : HttpLaws.
Proof. by intros t m. Qed.

Definition deskOptions : list ClientOption :=
  [WithBaseURL "https://gateway.example/v1/"; WithAPIKey "key"; WithHeader "x-tenant" "desk"; WithPath "chat?api-version=2"; WithModel "desk-1"].
Definition deskClient : Client := match NewClient deskOptions with Ok c => c | Err _ => applyOptions deskOptions end.
Definition deskAsks : ModelRequest :=
  mkModelRequest "echo" [mkMessage EmptyString [mkPart (Some "Say "%string) None None None None None; mkPart (Some "hello"%string) None None None None None]] [] [] None.
Definition deskTools : ModelRequest := mkModelRequest "echo" [mkMessage "user" [zeroPart]] [] [] None.

Lemma deskClient_built : NewClient deskOptions = Ok deskClient.
Proof. reflexivity. Qed.
Example desk_endpoint : endpoint deskClient = "https://gateway.example/v1/chat?api-version=2"%string.
Proof. vm_compute. reflexivity. Qed.
Example desk_streams : snd (StreamModel deskClient 1 deskAsks) =
  (["Hel"%string; "lo"%string], Ok (completion "desk-1" (mkChatText "Hello" EmptyString) (mkChatUsage 12 3 0))).
Proof. vm_compute. reflexivity. Qed.
(** The redirect within the origin is followed, the other one is not. *)
Example desk_redirected : map (fun s => plainString (fst s)) (fst (Model deskClient 2 deskAsks)) =
  ["https://gateway.example/v1/chat?api-version=2"%string; "https://GATEWAY.example:443/v2/chat"%string].
Proof. vm_compute. reflexivity. Qed.
Lemma desk_frames : frames deskLines deskChunks.
Proof.
  apply frames_note; [reflexivity|]. apply (frames_data (deltaText "Hel") false); [vm_compute; reflexivity|].
  apply frames_note; [reflexivity|]. apply (frames_data (deltaText "lo") true); [vm_compute; reflexivity|].
  apply frames_note; [reflexivity|]. apply (frames_data usageText false); [vm_compute; reflexivity|]. apply frames_nil.
Qed.
#[local] Instance lineOk_dec l : Decision (lineOk l) := ltac:(unfold lineOk; apply _).
Lemma desk_lineOk : Forall lineOk deskLines.
Proof. exact (bool_decide_eq_true_1 (Forall lineOk deskLines) eq_refl). Qed.

(** ** The theorems there *)

Definition deskBody (stream : bool) : list Z := printJson (requestJson (asked deskClient deskAsks stream)).
Lemma stream_is_whole_witness : snd (StreamModel deskClient 1 deskAsks) = (shown deskChunks, snd (Model deskClient 0 deskAsks)).
Proof.
  destruct (stream_is_whole deskClient deskAsks 1 0 "desk-1" (deskBody true) (deskBody false) deskLines deskChunks deskWhole) as (Hwhole & _).
  - vm_compute. reflexivity.
  - vm_compute. reflexivity.
  - apply desk_frames.
  - apply desk_lineOk.
  - vm_compute. reflexivity.
  - vm_compute. reflexivity.
  - vm_compute. reflexivity.
  - apply (Hwhole (bytesOf "trailing") (Some (EText "reset"))). vm_compute. reflexivity.
Defined.

Lemma request_exact_witness : (exists body v, buildRequest deskClient deskAsks true = (askedModel deskClient deskAsks, Ok body) /\
    parseJson body = Some v /\ readsRequest deskClient deskAsks true v /\ fst (StreamModel deskClient 0 deskAsks) = fst (post deskClient 0 body)) /\
  exists text text', Model deskClient 0 deskTools = ([], Err (EWrap text ErrUnsupportedPart)) /\
    StreamModel deskClient 0 deskTools = ([], ([], Err (EWrap text' ErrUnsupportedPart))).
Proof.
  split.
  - destruct (request_exact deskClient 0 deskAsks) as [Hask _]. apply (Hask ltac:(split_and!; [done|done|repeat constructor; by eexists]) true).
    split; [vm_compute; reflexivity|]. repeat constructor; vm_compute; reflexivity.
  - destruct (request_exact deskClient 0 deskTools) as [_ Hrefuse]. apply Hrefuse. intros (_ & _ & Hp). apply Forall_cons_iff in Hp as [Hp _].
    apply Forall_cons_iff in Hp as [[[? Hp]|[? Hp]] _]; discriminate Hp.
Defined.

(** The redirect within the origin spells the host in capitals: net/http leaves the API key behind, and
    the tenant's header goes along. *)
Example desk_headers : map (fun s => (snd s !! "Authorization"%string, snd s !! "X-Tenant"%string)) (fst (Model deskClient 2 deskAsks)) =
  [(Some "Bearer key"%string, Some "desk"%string); (None, Some "desk"%string)].
Proof. vm_compute. reflexivity. Qed.
Lemma requests_stay_home_witness : exists base, plainParse (baseURL deskClient) = Ok base /\
  Forall (fun sent => configured (origin base) (headers deskClient) sent /\
    (checkRedirect (applyOptions deskOptions) = None -> Z.of_nat (length sent) <= maxRedirects))
  [fst (Model deskClient 2 deskAsks); fst (StreamModel deskClient 2 deskAsks)].
Proof. exact (requests_stay_home deskOptions deskClient 2 deskAsks deskClient_built). Defined.
