(* ===== verification/Substrate.v ===== *)
(** * The substrate backend (runtime/substrate/substrate.go)

    Compute on agent-substrate: actors that are suspended to external snapshots, and clones made by tagging a
    suspended actor. The control plane is a parameter ([ControlClient], with the optional [SnapshotCloner]): an
    operation may answer anything and change its state [C] in any way, other clients of it included. A backend
    operation is a computation over that state which keeps the calls it made, with their errors. Contexts and
    timeouts only decide what a call answers; logging is left out. The second part is the control plane over
    the gRPC client (integrations/substrate/adapter.go). *)
From S2P Require Import Prelude GoErrors Api Canon EventLog Executions Approvals Harness Sinks Controller SessionGuard Placement.
#[local] Open Scope Z_scope.

Inductive ActorStatus := StatusUnknown | StatusRunning | StatusSuspended | StatusTerminated.
Record ActorRef := mkActorRef { ar_Atespace : string; ar_Name : string }.
Record ObjectRef := mkObjectRef { or_Atespace : string; or_Name : string }.
Record SnapshotID := mkSnapshotID { sid_Atespace : string; sid_Name : string }.
Record ActorInfo := mkActorInfo { ai_Status : ActorStatus; ai_Worker : string; ai_Snapshot : string }.
Inductive SnapshotKind := SnapshotLocal | SnapshotExternal.

#[export] Instance ActorStatus_eq : EqDecision ActorStatus.
Proof. solve_decision. Defined.
#[export] Instance ActorRef_eq : EqDecision ActorRef.
Proof. solve_decision. Defined.
#[export] Instance SnapshotID_eq : EqDecision SnapshotID.
Proof. solve_decision. Defined.

Section Interface.
Context (C : Type).
Record SnapshotCloner := mkSnapshotCloner {
  cl_TagActor : nat -> ActorRef -> SnapshotID -> M C goerr unit;
  cl_CreateActorFromTag : nat -> ActorRef -> ObjectRef -> SnapshotID -> M C goerr unit;
  cl_DeleteTag : nat -> SnapshotID -> M C goerr unit;
}.
Class ControlClient := {
  ctl_CreateActor : nat -> ActorRef -> ObjectRef -> M C goerr unit;
  ctl_ResumeActor : nat -> ActorRef -> M C goerr ActorInfo;
  ctl_SuspendActor : nat -> ActorRef -> M C goerr string;
  ctl_DeleteActor : nat -> ActorRef -> M C goerr unit;
  ctl_GetActor : nat -> ActorRef -> M C goerr ActorInfo;
  ctl_cloner : option SnapshotCloner;
}.
End Interface.
Arguments cl_TagActor {C}. Arguments cl_CreateActorFromTag {C}. Arguments cl_DeleteTag {C}.

Inductive ControlCall :=
  | CallGetActor (a : ActorRef) | CallCreateActor (a : ActorRef) | CallResumeActor (a : ActorRef)
  | CallSuspendActor (a : ActorRef) | CallDeleteActor (a : ActorRef)
  | CallTagActor (source : ActorRef) (tag : SnapshotID) | CallFromTag (a : ActorRef) (tag : SnapshotID)
  | CallDeleteTag (tag : SnapshotID).
Record SubState (C : Type) := mkSubState { sub_cp : C; sub_tick : nat; sub_calls : list (ControlCall * option goerr) }.
Arguments mkSubState {C}. Arguments sub_cp {C}. Arguments sub_tick {C}. Arguments sub_calls {C}.

(** [Backend] and its options; the client is the class. *)
Record SubBackend := mkSubBackend { sb_atespace : string; sb_template : ObjectRef; sb_descriptor : Descriptor; sb_router : string }.
Definition DefaultRouterAddress : string := "atenet-router.ate-system.svc:80".
Definition TargetActorHeader : string := "ate-target-actor".
Definition WithRouter (address : string) (b : SubBackend) : SubBackend :=
  mkSubBackend (sb_atespace b) (sb_template b) (sb_descriptor b) address.
(** [New(ctl, atespace, template, descriptor, opts...)]. *)
Definition NewSubstrate (atespace : string) (template : ObjectRef) (descriptor : Descriptor) (opts : list (SubBackend -> SubBackend)) : SubBackend :=
  let b := foldl (fun b o => o b) (mkSubBackend atespace template descriptor DefaultRouterAddress) opts in
  if bool_decide (sb_router b = EmptyString) then WithRouter DefaultRouterAddress b else b.

(** [errors] of the package. *)
Definition errSnapshotSuperseded : goerr :=
  EWrap "substrate: parent snapshot was superseded before the fork could tag it" (ESentinel ErrSnapshotSuperseded).
Definition forkTagName (childUID : string) : string := "fork-"%string +:+ childUID.

Section Backend.
Context {C : Type} `{!ControlClient C}.
Variable b : SubBackend.

Definition perform {A} (c : ControlCall) (m : nat -> M C goerr A) : M (SubState C) goerr A := fun s =>
  let '(cp, r) := m (sub_tick s) (sub_cp s) in
  (mkSubState cp (S (sub_tick s)) (sub_calls s ++ [(c, err_of r)]), r).
Definition wrapS {A} (text : string) (m : M (SubState C) goerr A) : M (SubState C) goerr A := fun s =>
  let '(s', r) := m s in (s', match r with Ok a => Ok a | Err e => Err (EWrap text e) end).
(** [if err := m; err != nil { cleanup; return err }]. *)
Definition onError {A} (cleanup : M (SubState C) goerr unit) (m : M (SubState C) goerr A) : M (SubState C) goerr A :=
  let! r := try m in
  match r with Ok a => mret a | Err e => do! cleanup in throw e end.
(** [_ = m]. *)
Definition ignoring {A} (m : M (SubState C) goerr A) : M (SubState C) goerr unit := let! _ := try m in mret tt.

Definition actorRef (name : string) : ActorRef := mkActorRef (sb_atespace b) name.
Definition GetActor (a : ActorRef) := perform (CallGetActor a) (fun t => ctl_GetActor C t a).
Definition CreateActor (a : ActorRef) := perform (CallCreateActor a) (fun t => ctl_CreateActor C t a (sb_template b)).
Definition ResumeActor (a : ActorRef) := perform (CallResumeActor a) (fun t => ctl_ResumeActor C t a).
Definition SuspendActor (a : ActorRef) := perform (CallSuspendActor a) (fun t => ctl_SuspendActor C t a).
Definition DeleteActor (a : ActorRef) := perform (CallDeleteActor a) (fun t => ctl_DeleteActor C t a).

(** [incarnation(uid, info)]. *)
Definition sub_incarnation (uid : string) (info : ActorInfo) : M (SubState C) goerr Incarnation :=
  if negb (bool_decide (ai_Status info = StatusRunning)) then throw (EText "substrate: actor is not running after resume")
  else mret (mkIncarnation uid (ai_Worker info) (sb_router b) "substrate" 0
    [(TargetActorHeader, sb_atespace b +:+ "/"%string +:+ uid)]).

(** [Create(ctx, s)]; [None] is the nil spec. *)
Definition sub_Create (s : option string) : M (SubState C) goerr Incarnation :=
  match s with
  | None => throw (EText "substrate: create requires a session spec")
  | Some uid =>
      if bool_decide (uid = EmptyString) then throw (EText "substrate: create requires a session uid")
      else
        let ref := actorRef uid in
        let! r := try (GetActor ref) in
        match r with
        | Ok info =>
            match ai_Status info with
            | StatusRunning => sub_incarnation uid info
            | StatusSuspended =>
                let! info := wrapS "substrate: resume suspended actor" (ResumeActor ref) in sub_incarnation uid info
            | _ => throw (EText "substrate: actor is not placeable")
            end
        | Err e =>
            if negb (errors_Is e ErrActorNotFound) then throw (EWrap "substrate: get actor" e)
            else
              do! wrapS "substrate: create actor" (CreateActor ref) in
              let! info := wrapS "substrate: resume actor" (ResumeActor ref) in
              sub_incarnation uid info
        end
  end.

(** [Snapshot(ctx, in, kind)]. *)
Definition sub_Snapshot (id : string) (kind : SnapshotKind) : M (SubState C) goerr SnapshotRef :=
  match kind with
  | SnapshotLocal => throw (EText "substrate: local (warm) snapshot not supported; use EXTERNAL")
  | SnapshotExternal =>
      let! uri := wrapS "substrate: suspend actor" (SuspendActor (actorRef id)) in
      mret (mkSnapshotRef id uri true false)
  end.

(** [Restore(ctx, ref)]. *)
Definition sub_Restore (ref : SnapshotRef) : M (SubState C) goerr Incarnation :=
  if bool_decide (snap_Local ref = EmptyString) then throw (EText "substrate: snapshot ref missing actor name")
  else
    let! info := wrapS "substrate: resume (restore) actor" (ResumeActor (actorRef (snap_Local ref))) in
    sub_incarnation (snap_Local ref) info.

(** [forkTag(childUID)], in the backend's atespace. *)
Definition forkTag (child : string) : SnapshotID := mkSnapshotID (sb_atespace b) (forkTagName child).
Definition TagActor (cl : SnapshotCloner C) (source : ActorRef) (tag : SnapshotID) :=
  perform (CallTagActor source tag) (fun t => cl_TagActor cl t source tag).
Definition CreateActorFromTag (cl : SnapshotCloner C) (a : ActorRef) (tag : SnapshotID) :=
  perform (CallFromTag a tag) (fun t => cl_CreateActorFromTag cl t a (sb_template b) tag).
Definition DeleteTag (cl : SnapshotCloner C) (tag : SnapshotID) := perform (CallDeleteTag tag) (fun t => cl_DeleteTag cl t tag).

(** [Stop(ctx, in)]. *)
Definition sub_Stop (id : string) : M (SubState C) goerr unit :=
  let! _ := wrapS "substrate: suspend before delete" (SuspendActor (actorRef id)) in
  do! wrapS "substrate: delete actor" (DeleteActor (actorRef id)) in
  match ctl_cloner C with
  | Some cl => ignoring (DeleteTag cl (forkTag id))
  | None => mret tt
  end.
(** [destroyChild(ctx, child)] and [releaseForkTag(ctx, cloner, child)]. *)
Definition destroyChild (child : string) : M (SubState C) goerr unit := ignoring (sub_Stop child).
Definition releaseForkTag (cl : SnapshotCloner C) (child : string) : M (SubState C) goerr unit := ignoring (DeleteTag cl (forkTag child)).

(** [requireSnapshot(ctx, actor, snapshot)]. *)
Definition requireSnapshot (actor : ActorRef) (snapshot : string) : M (SubState C) goerr unit :=
  let! info := wrapS "substrate: get fork parent" (GetActor actor) in
  if negb (bool_decide (ai_Status info = StatusSuspended)) || negb (bool_decide (ai_Snapshot info = snapshot))
  then throw errSnapshotSuperseded else mret tt.

(** The clone of a memory-snapshot harness: from the checks of the arguments on. *)
Definition cloneChild (cl : SnapshotCloner C) (ref : SnapshotRef) (child : string) : M (SubState C) goerr Incarnation :=
  let parent := actorRef (snap_Local ref) in
  let tag := forkTag child in
  do! requireSnapshot parent (ExternalURI ref) in
  let! r := try (TagActor cl parent tag) in
  match r with
  | Err e =>
      do! (if errors_Is e ErrTagExists then mret tt else releaseForkTag cl child) in
      throw (EWrap "substrate: tag parent" e)
  | Ok _ =>
      do! onError (releaseForkTag cl child) (requireSnapshot parent (ExternalURI ref)) in
      do! onError (releaseForkTag cl child) (wrapS "substrate: create actor from tag" (CreateActorFromTag cl (actorRef child) tag)) in
      let! info := onError (destroyChild child) (wrapS "substrate: resume cloned actor" (ResumeActor (actorRef child))) in
      onError (destroyChild child) (sub_incarnation child info)
  end.

(** [Fork(ctx, ref, opts)]. *)
Definition stateful : bool := bool_decide (cap_Resumability (desc_Capabilities (sb_descriptor b)) = ResumabilityRequiresMemorySnapshot).
Definition sub_Fork (ref : SnapshotRef) (child : string) : M (SubState C) goerr Incarnation :=
  if bool_decide (child = EmptyString) then throw (EText "substrate: fork requires a child session uid")
  else if negb stateful then onError (destroyChild child) (sub_Create (Some child))
  else match ctl_cloner C with
  | None => throw (EWrap "control client does not implement SnapshotCloner" (ESentinel ErrNoSnapshotToClone))
  | Some cl =>
      if bool_decide (ExternalURI ref = EmptyString)
      then throw (EWrap "snapshot the parent before forking" (ESentinel ErrNoSnapshotToClone))
      else cloneChild cl ref child
  end.

(** [Status(ctx, in)]. *)
Definition computeState (s : ActorStatus) : ComputeState :=
  match s with
  | StatusRunning => ComputeLive | StatusSuspended => ComputeCold | StatusTerminated => ComputeTerminated | StatusUnknown => ComputeNone
  end.
Definition sub_Status (id : string) : M (SubState C) goerr ComputeState :=
  let! info := wrapS "substrate: get actor" (GetActor (actorRef id)) in mret (computeState (ai_Status info)).
End Backend.

(** [Capabilities()]. *)
Definition sub_Capabilities : RuntimeCapabilities := mkRuntimeCapabilities true false false false.
(** [Describe(ctx)]. *)
Definition sub_Describe (b : SubBackend) : res Descriptor := Ok (sb_descriptor b).

(** [substrateErrorKind(err)]: the errors of a missing spec are made in place. *)
Definition invalidSpec (e : goerr) : bool :=
  match e with
  | EText t => bool_decide (t = "substrate: create requires a session spec" \/ t = "substrate: create requires a session uid")%string
  | _ => false
  end.
Definition substrateErrorKind (err : option goerr) : string :=
  match err with
  | None => EmptyString
  | Some e =>
      if errors_Is e ContextCanceled then "canceled"
      else if errors_Is e ContextDeadlineExceeded then "deadline_exceeded"
      else if invalidSpec e then "invalid_spec"
      else if errors_Is e ErrSnapshotSuperseded then "snapshot_superseded"
      else "runtime_operation_failed"
  end%string.

(** * The substrate client (integrations/substrate/adapter.go)

    The control plane of file Substrate over the ate-api gRPC client, which is a parameter ([AteControl]): the
    messages are the fields that the adapter reads, and a nil message reads as its zero value. *)

Inductive ActorState := ACTOR_STATE_RUNNING | ACTOR_STATE_SUSPENDED | ACTOR_STATE_PAUSED | ACTOR_STATE_CRASHED | ActorStateOther (n : Z).
(** A durable copy: whether it is COMPLETED, and the URI of its object. *)
Record DurableSnapshot := mkDurableSnapshot { du_completed : bool; du_uri : string }.
Record AteSnapshot := mkAteSnapshot { sn_generation : Z; sn_durable : option DurableSnapshot }.
Record AteActor := mkAteActor { at_state : ActorState; at_workerPod : string; at_snapshots : list AteSnapshot }.

Class AteControl (C : Type) := {
  ate_CreateActor : nat -> ActorRef -> ObjectRef -> option SnapshotID -> M C goerr unit;
  ate_ResumeActor : nat -> ActorRef -> M C goerr AteActor;
  ate_SuspendActor : nat -> ActorRef -> M C goerr AteActor;
  ate_DeleteActor : nat -> ActorRef -> M C goerr unit;
  ate_GetActor : nat -> ActorRef -> M C goerr AteActor;
  ate_CreateTag : nat -> SnapshotID -> ActorRef -> M C goerr unit;
  ate_DeleteTag : nat -> SnapshotID -> M C goerr unit;
}.
Definition codes_AlreadyExists_ : Z := 6.
Definition codes_NotFound_ : Z := 5.

(** [heldSnapshot(st)]. *)
Definition completed (s : AteSnapshot) : bool := match sn_durable s with Some d => du_completed d | None => false end.
Definition uriOf (s : AteSnapshot) : string := match sn_durable s with Some d => du_uri d | None => EmptyString end.
Definition pickHeld (held : option AteSnapshot) (snap : AteSnapshot) : option AteSnapshot :=
  if negb (completed snap) then held
  else match held with
  | None => Some snap
  | Some h => if sn_generation h <=? sn_generation snap then Some snap else held
  end.
Definition heldSnapshot (snaps : list AteSnapshot) : string :=
  match foldl pickHeld None snaps with Some s => uriOf s | None => EmptyString end.
(** [actorStatus(s)] and [actorInfo(a)]. *)
Definition actorStatus (s : ActorState) : ActorStatus :=
  match s with
  | ACTOR_STATE_RUNNING => StatusRunning
  | ACTOR_STATE_SUSPENDED | ACTOR_STATE_PAUSED => StatusSuspended
  | ACTOR_STATE_CRASHED => StatusTerminated
  | ActorStateOther _ => StatusUnknown
  end.
Definition actorInfo (a : AteActor) : ActorInfo := mkActorInfo (actorStatus (at_state a)) (at_workerPod a) (heldSnapshot (at_snapshots a)).

Section Adapter.
Context `{PlacementHost} {C : Type} `{!AteControl C}.

Definition onAnswer {A B} (m : M C goerr A) (f : A -> B) (g : goerr -> goerr) : M C goerr B := fun s =>
  let '(s', r) := m s in (s', match r with Ok a => Ok (f a) | Err e => Err (g e) end).
(** [GetActor]: a missing actor is the sentinel, with the error dropped. *)
Definition adapter_GetActor (t : nat) (a : ActorRef) : M C goerr ActorInfo :=
  onAnswer (ate_GetActor t a) actorInfo
    (fun e => if statusCode e =? codes_NotFound_ then EWrap "actor" (ESentinel ErrActorNotFound) else e).
(** [TagActor]: a name that is taken is the sentinel, beside the error. *)
Definition adapter_TagActor (t : nat) (source : ActorRef) (tag : SnapshotID) : M C goerr unit :=
  onAnswer (ate_CreateTag t tag source) (fun u => u)
    (fun e => if statusCode e =? codes_AlreadyExists_ then EJoin "tag" [ESentinel ErrTagExists; e] else e).
Definition adapterCloner : SnapshotCloner C :=
  mkSnapshotCloner C adapter_TagActor (fun t a template tag => ate_CreateActor t a template (Some tag)) ate_DeleteTag.
(** [Adapter]: a control client with tags. *)
Definition Adapter : ControlClient C := {|
  ctl_CreateActor t a template := ate_CreateActor t a template None;
  ctl_ResumeActor t a := onAnswer (ate_ResumeActor t a) actorInfo (fun e => e);
  ctl_SuspendActor t a := onAnswer (ate_SuspendActor t a) (fun a => heldSnapshot (at_snapshots a)) (fun e => e);
  ctl_DeleteActor := ate_DeleteActor;
  ctl_GetActor := adapter_GetActor;
  ctl_cloner := Some adapterCloner;
|}.
End Adapter.

(** The snapshot an actor holds: the completed one of the highest generation, the last of them, whatever its URI. *)
Lemma pickHeld_later snaps s : Forall (fun x => completed x = true -> sn_generation x < sn_generation s) snaps -> foldl pickHeld (Some s) snaps = Some s.
Proof.
  induction snaps as [|x snaps IH]; intros Hs; [done|]. apply Forall_cons_iff in Hs as [Hx Hs]. cbn [foldl].
  replace (pickHeld (Some s) x) with (Some s); [by apply IH|]. unfold pickHeld. destruct (completed x); [|done]. cbn [negb].
  specialize (Hx eq_refl). destruct (Z.leb_spec (sn_generation s) (sn_generation x)); [lia|done].
Qed.
Lemma pickHeld_earlier snaps h s : completed s = true -> Forall (fun x => completed x = true -> sn_generation x <= sn_generation s) snaps ->
  match h with Some x => sn_generation x <= sn_generation s | None => True end -> pickHeld (foldl pickHeld h snaps) s = Some s.
Proof.
  intros Hc. revert h. induction snaps as [|x snaps IH]; intros h Hs Hh; cbn [foldl].
  - unfold pickHeld. rewrite Hc. cbn [negb]. destruct h as [h|]; [|done]. by apply Z.leb_le in Hh as ->.
  - apply Forall_cons_iff in Hs as [Hx Hs]. apply IH; [done|]. unfold pickHeld. destruct (completed x); [|done]. specialize (Hx eq_refl).
    destruct h as [h|]; [|done]. cbn [negb]. by destruct (_ <=? _).
Qed.
Lemma heldSnapshot_newest before s after : completed s = true ->
  Forall (fun x => completed x = true -> sn_generation x <= sn_generation s) before ->
  Forall (fun x => completed x = true -> sn_generation x < sn_generation s) after -> heldSnapshot (before ++ s :: after) = uriOf s.
Proof.
  intros Hc Hb Ha. unfold heldSnapshot. rewrite foldl_app. cbn [foldl]. by rewrite (pickHeld_earlier before None s), pickHeld_later.
Qed.
Lemma heldSnapshot_none snaps : Forall (fun x => completed x = false) snaps -> heldSnapshot snaps = EmptyString.
Proof.
  unfold heldSnapshot. intros Hs. replace (foldl pickHeld None snaps) with (@None AteSnapshot); [done|].
  induction Hs as [|x snaps Hx _ IH]; [done|]. cbn [foldl]. unfold pickHeld at 2. by rewrite Hx.
Qed.
