(* ===== verification/SubstrateSpec.v ===== *)
(** * What the substrate backend guarantees

    A clone is made from exactly the snapshot the fork took, whatever other clients of the control plane do
    meanwhile; a failed fork tears down every actor whose creation was answered, and nothing else. The second part is a control
    plane for the witnesses. *)
From S2P Require Import Prelude GoErrors Api Canon EventLog Executions Approvals Harness Sinks Controller SessionGuard Placement GoJson Substrate.
#[local] Open Scope Z_scope.

(** ** The control plane

    What the backend relies on: the documented behaviour of substrate, at the instants between which other
    clients act too. [cp_after s s'] says that [s'] may follow [s]; an actor holds its status and snapshot, a
    tag its copy, and a clone was seeded from one. A suspend always writes a new snapshot, so that a handle
    which was replaced does not come back. *)
Class PlaneFacts (C : Type) := {
  cp_after : C -> C -> Prop;
  cp_holds : C -> ActorRef -> option ActorInfo;
  cp_tag : C -> SnapshotID -> option string;
  cp_seed : C -> ActorRef -> option string;
}.
Class PlaneLaws (C : Type) `{!ControlClient C} `{!PlaneFacts C} := {
  after_order :: PreOrder cp_after;
  after_get t a s : cp_after s (fst (ctl_GetActor C t a s));
  after_create t a o s : cp_after s (fst (ctl_CreateActor C t a o s));
  after_resume t a s : cp_after s (fst (ctl_ResumeActor C t a s));
  after_suspend t a s : cp_after s (fst (ctl_SuspendActor C t a s));
  after_delete t a s : cp_after s (fst (ctl_DeleteActor C t a s));
  after_tag cl t a g s : ctl_cloner C = Some cl -> cp_after s (fst (cl_TagActor cl t a g s));
  after_from cl t a o g s : ctl_cloner C = Some cl -> cp_after s (fst (cl_CreateActorFromTag cl t a o g s));
  after_release cl t g s : ctl_cloner C = Some cl -> cp_after s (fst (cl_DeleteTag cl t g s));
  get_holds t a s s' i : ctl_GetActor C t a s = (s', Ok i) ->
    exists m, cp_after s m /\ cp_after m s' /\ cp_holds m a = Some i;
  tag_copies cl t a g s s' : ctl_cloner C = Some cl -> cl_TagActor cl t a g s = (s', Ok tt) ->
    exists m i, cp_after s m /\ cp_after m s' /\ cp_holds m a = Some i /\ cp_tag m g = Some (ai_Snapshot i);
  clone_seeded cl t a o g s s' : ctl_cloner C = Some cl -> cl_CreateActorFromTag cl t a o g s = (s', Ok tt) ->
    exists m h, cp_after s m /\ cp_after m s' /\ cp_tag m g = Some h /\ cp_seed m a = Some h;
  snapshot_once s1 s2 s3 a i1 i2 i3 : cp_after s1 s2 -> cp_after s2 s3 -> cp_holds s1 a = Some i1 -> cp_holds s2 a = Some i2 ->
    cp_holds s3 a = Some i3 -> ai_Snapshot i1 = ai_Snapshot i3 -> ai_Snapshot i2 = ai_Snapshot i1;
}.
(** A tag is made once: its name is derived from the child, and nobody else uses it. *)
Definition tagOnce {C} `{!PlaneFacts C} (g : SnapshotID) : Prop :=
  forall s s' h h', cp_after s s' -> cp_tag s g = Some h -> cp_tag s' g = Some h' -> h' = h.

(** ** Runs *)

Section Runs.
Context {C : Type} `{!ControlClient C}.
Abbreviation St := (SubState C).

Lemma perform_ok {A} c (m : nat -> M C goerr A) s s' r : perform c m s = (s', r) ->
  m (sub_tick s) (sub_cp s) = (sub_cp s', r) /\ sub_calls s' = sub_calls s ++ [(c, err_of r)].
Proof. unfold perform. destruct (m (sub_tick s) (sub_cp s)) as [cp r'] eqn:E. by intros [= <- <-]. Qed.
Lemma wrapS_ok {A} text (m : M St goerr A) s s' a : wrapS text m s = (s', Ok a) -> m s = (s', Ok a).
Proof. unfold wrapS. destruct (m s) as [s1 [x|e]]; by intros [= <- <-]. Qed.
Lemma onError_ok {A} cleanup (m : M St goerr A) s s' a : onError cleanup m s = (s', Ok a) -> m s = (s', Ok a).
Proof.
  unfold onError, mbind, M_bind, try. destruct (m s) as [s1 [x|e]]; [by intros [= <- <-]|].
  destruct (cleanup s1) as [s2 [y|e2]]; by intros [=].
Qed.
Lemma sub_bind_ok {A B} (m : M St goerr A) (k : A -> M St goerr B) s s' y : (let! x := m in k x) s = (s', Ok y) ->
  exists s1 x, m s = (s1, Ok x) /\ k x s1 = (s', Ok y).
Proof. unfold mbind, M_bind. destruct (m s) as [s1 [x|e]]; [|done]. by exists s1, x. Qed.

Lemma GetActor_ok a (s s' : St) r : GetActor a s = (s', r) -> ctl_GetActor C (sub_tick s) a (sub_cp s) = (sub_cp s', r).
Proof. unfold GetActor. by intros [Hp _]%perform_ok. Qed.
Lemma TagActor_ok cl a g (s s' : St) r : TagActor cl a g s = (s', r) -> cl_TagActor cl (sub_tick s) a g (sub_cp s) = (sub_cp s', r).
Proof. unfold TagActor. by intros [Hp _]%perform_ok. Qed.
Lemma CreateActorFromTag_ok b cl a g (s s' : St) r : CreateActorFromTag b cl a g s = (s', r) ->
  cl_CreateActorFromTag cl (sub_tick s) a (sb_template b) g (sub_cp s) = (sub_cp s', r).
Proof. unfold CreateActorFromTag. by intros [Hp _]%perform_ok. Qed.
Lemma requireSnapshot_ok a h (s s' : St) : requireSnapshot a h s = (s', Ok tt) ->
  exists i, ctl_GetActor C (sub_tick s) a (sub_cp s) = (sub_cp s', Ok i) /\ ai_Status i = StatusSuspended /\ ai_Snapshot i = h.
Proof.
  unfold requireSnapshot. intros (s1 & i & Hget%wrapS_ok%GetActor_ok & Hrest)%sub_bind_ok.
  case_bool_decide; [|done]. case_bool_decide; [|done]. injection Hrest as <-. by exists i.
Qed.
Lemma incarnation_ok b uid info (s s' : St) inc : sub_incarnation b uid info s = (s', Ok inc) ->
  s' = s /\ ai_Status info = StatusRunning /\
  inc = mkIncarnation uid (ai_Worker info) (sb_router b) "substrate" 0 [(TargetActorHeader, sb_atespace b +:+ "/"%string +:+ uid)].
Proof. unfold sub_incarnation. case_bool_decide; [|done]. by intros [= <- <-]. Qed.
End Runs.

(** ** Clones *)

Section Clones.
Context {C : Type} `{!ControlClient C} `{!PlaneFacts C} `{!PlaneLaws C}.

Lemma after_perform {A} c (m : nat -> M C goerr A) s s' r : (forall t x, cp_after x (fst (m t x))) -> perform c m s = (s', r) ->
  cp_after (sub_cp s) (sub_cp s').
Proof. intros Hm [Hp _]%perform_ok. specialize (Hm (sub_tick s) (sub_cp s)). by rewrite Hp in Hm. Qed.

(** The bracketed tag copies the snapshot that both checks saw. *)
Lemma bracketed_tag a h s1 s2 s3 s4 i1 i3 cl t1 t2 t3 g : ctl_cloner C = Some cl ->
  ctl_GetActor C t1 a s1 = (s2, Ok i1) -> ai_Snapshot i1 = h ->
  cl_TagActor cl t2 a g s2 = (s3, Ok tt) ->
  ctl_GetActor C t3 a s3 = (s4, Ok i3) -> ai_Snapshot i3 = h ->
  exists m, cp_after s1 m /\ cp_after m s3 /\ cp_tag m g = Some h.
Proof.
  intros Hcl (m1 & H1 & H1' & Hold1)%get_holds Eh1 (m2 & i2 & H2 & H2' & Hold2 & Htag)%tag_copies; [|done].
  intros (m3 & H3 & H3' & Hold3)%get_holds Eh3. exists m2. split_and!; [|done|].
  - by etrans; [exact H1|]; etrans; [exact H1'|].
  - rewrite Htag. f_equal. rewrite <- Eh1. apply (snapshot_once m1 m2 m3 a i1 i2 i3); [| |done|done|done|by rewrite Eh1, Eh3].
    + by etrans; [exact H1'|].
    + by etrans; [exact H2'|].
Qed.

(** C37: A clone is the snapshot the fork took: when [Fork] of a memory-snapshot harness answers, the child was
    seeded from exactly the snapshot it was given, whoever resumed and suspended the parent meanwhile, and the
    incarnation reaches the child through the router. When the parent is found running, or holding another
    snapshot, the fork fails as superseded. *)
Theorem fork_clones_snapshot b ref child s : stateful b = true -> tagOnce (forkTag b child) ->
  (forall s' inc, sub_Fork b ref child s = (s', Ok inc) ->
    (exists m, cp_after (sub_cp s) m /\ cp_after m (sub_cp s') /\ cp_seed m (actorRef b child) = Some (ExternalURI ref)) /\
    inc_ID inc = child /\ Address inc = sb_router b /\ CallMetadata inc = [(TargetActorHeader, sb_atespace b +:+ "/"%string +:+ child)]) /\
  (forall cl info cp, ctl_cloner C = Some cl -> child <> EmptyString -> ExternalURI ref <> EmptyString ->
    ctl_GetActor C (sub_tick s) (actorRef b (snap_Local ref)) (sub_cp s) = (cp, Ok info) ->
    ai_Status info <> StatusSuspended \/ ai_Snapshot info <> ExternalURI ref ->
    exists e, snd (sub_Fork b ref child s) = Err e /\ errors_Is e ErrSnapshotSuperseded = true).
Proof.
  intros Hst Honce. split.
  - intros s' inc. unfold sub_Fork. case_bool_decide; [done|]. rewrite Hst. destruct (ctl_cloner C) as [cl|] eqn:Hcl; [|done].
    case_bool_decide; [done|]. cbn [negb]. unfold cloneChild.
    intros (s1 & [] & Hget1%requireSnapshot_ok & Hrest)%sub_bind_ok. destruct Hget1 as (i1 & Hget1 & _ & Eh1).
    apply sub_bind_ok in Hrest as (s2 & r & Htag & Hrest). unfold try in Htag.
    destruct (TagActor cl (actorRef b (snap_Local ref)) (forkTag b child) s1) as [s2' r'] eqn:Et. injection Htag as <- <-.
    destruct r' as [[]|e].
    2: { apply sub_bind_ok in Hrest as (? & ? & _ & Hrest). by injection Hrest. }
    apply TagActor_ok in Et.
    apply sub_bind_ok in Hrest as (s3 & [] & Hget3%onError_ok%requireSnapshot_ok & Hrest). destruct Hget3 as (i3 & Hget3 & _ & Eh3).
    apply sub_bind_ok in Hrest as (s4 & [] & Hfrom%onError_ok%wrapS_ok%CreateActorFromTag_ok & Hrest).
    apply sub_bind_ok in Hrest as (s5 & info & Hres%onError_ok%wrapS_ok & Hrest). unfold ResumeActor in Hres.
    apply after_perform in Hres; [|intros; apply after_resume]. apply onError_ok, incarnation_ok in Hrest as (-> & _ & ->).
    destruct (bracketed_tag _ (ExternalURI ref) _ _ _ _ i1 i3 cl _ _ _ (forkTag b child) Hcl Hget1 Eh1 Et Hget3 Eh3) as (m & Hm1 & Hm2 & Hm).
    pose proof (after_get (sub_tick s2') (actorRef b (snap_Local ref)) (sub_cp s2')) as Hafter. rewrite Hget3 in Hafter. cbn [fst] in Hafter.
    apply (clone_seeded _ _ _ _ _ _ _ Hcl) in Hfrom as (m' & h & Hf1 & Hf2 & Hg & Hseed).
    assert (Hmm : cp_after m m') by (etrans; [exact Hm2|]; by etrans; [exact Hafter|]).
    rewrite (Honce m m' _ _ Hmm Hm Hg) in Hseed. split; [|done]. exists m'. split_and!; [|by etrans|done].
    by etrans; [exact Hm1|].
  - intros cl info cp Hcl Hc Hu Hget Hbad. unfold sub_Fork. rewrite (bool_decide_false _ Hc), Hst, Hcl, (bool_decide_false _ Hu). cbn [negb].
    unfold cloneChild, requireSnapshot, GetActor, wrapS, perform, mbind, M_bind. rewrite Hget.
    destruct (negb _ || negb _) eqn:E; [by eexists|]. apply orb_false_iff in E as [E1 E2].
    apply negb_false_iff, bool_decide_eq_true in E1, E2. by destruct Hbad.
Qed.
End Clones.

(** ** Calls *)

Abbreviation Trace := (list (ControlCall * option goerr)).
(** The calls a computation made. *)
Definition made {C} (s s' : SubState C) (tr : Trace) : Prop := sub_calls s' = sub_calls s ++ tr.
(** A call was made, or made and answered without an error. *)
Definition tried (c : ControlCall) (tr : Trace) : Prop := exists o, In (c, o) tr.
Definition did (c : ControlCall) (tr : Trace) : Prop := In (c, None) tr.

(** What a fork may do: read anything, tag the parent under the child's tag, and act on the child and the tag. *)
Definition touches (b : SubBackend) (ref : SnapshotRef) (child : string) (c : ControlCall) : Prop :=
  match c with
  | CallGetActor _ => True
  | CallTagActor a g => a = actorRef b (snap_Local ref) /\ g = forkTag b child
  | CallFromTag a g => a = actorRef b child /\ g = forkTag b child
  | CallCreateActor a | CallResumeActor a | CallSuspendActor a | CallDeleteActor a => a = actorRef b child
  | CallDeleteTag g => g = forkTag b child
  end.
Definition destructive (c : ControlCall) : bool :=
  match c with CallSuspendActor _ | CallDeleteActor _ | CallDeleteTag _ => true | _ => false end.
(** The teardown of an actor: suspended, then deleted, then its tag released, as far as each answers. *)
Definition tornDown {C} `{!ControlClient C} (b : SubBackend) (child : string) (tr : Trace) : Prop :=
  tried (CallSuspendActor (actorRef b child)) tr /\
  (did (CallSuspendActor (actorRef b child)) tr -> tried (CallDeleteActor (actorRef b child)) tr) /\
  (did (CallDeleteActor (actorRef b child)) tr -> is_Some (ctl_cloner C) -> tried (CallDeleteTag (forkTag b child)) tr).
(** A clone that was answered borrows its tag's copy until it is deleted. *)
Fixpoint neverCollected (borrowed : bool) (tr : Trace) : Prop :=
  match tr with
  | [] => True
  | (CallFromTag _ _, None) :: tr => neverCollected true tr
  | (CallDeleteActor _, None) :: tr => neverCollected false tr
  | (CallDeleteTag _, _) :: tr => borrowed = false /\ neverCollected borrowed tr
  | _ :: tr => neverCollected borrowed tr
  end.

Section Calls.
Context {C : Type} `{!ControlClient C}.
Abbreviation St := (SubState C).

(** What a fork made is gone, or was asked to go, unless it answered; except for a clone whose creation failed:
    it is taken for not made. *)
Record tidy (b : SubBackend) (ref : SnapshotRef) (child : string) (tr : Trace) (r : res Incarnation) : Prop := mkTidy {
  tidy_touches : Forall (fun co => touches b ref child (fst co)) tr;
  tidy_kept : forall inc, r = Ok inc -> Forall (fun co => destructive (fst co) = false) tr;
  tidy_actor : forall e, r = Err e -> tried (CallCreateActor (actorRef b child)) tr \/ did (CallFromTag (actorRef b child) (forkTag b child)) tr ->
    tornDown b child tr;
  tidy_tag : forall e o, r = Err e -> In (CallTagActor (actorRef b (snap_Local ref)) (forkTag b child), o) tr ->
    ~ did (CallFromTag (actorRef b child) (forkTag b child)) tr ->
    tried (CallDeleteTag (forkTag b child)) tr <-> match o with Some te => errors_Is te ErrTagExists = false | None => True end;
  tidy_borrowed : neverCollected false tr;
  tidy_unanswered : forall fe, In (CallFromTag (actorRef b child) (forkTag b child), Some fe) tr ->
    (exists e, r = Err e) /\ tried (CallDeleteTag (forkTag b child)) tr /\
    ~ tried (CallSuspendActor (actorRef b child)) tr /\ ~ tried (CallDeleteActor (actorRef b child)) tr;
}.

Lemma made_refl (s : St) : made s s [].
Proof. unfold made. by rewrite app_nil_r. Qed.
(** One call, its answer chosen. *)
Lemma perform_run {A} c (m : nat -> M C goerr A) (s : St) :
  exists s1, (exists a, perform c m s = (s1, Ok a) /\ made s s1 [(c, None)]) \/ (exists e, perform c m s = (s1, Err e) /\ made s s1 [(c, Some e)]).
Proof.
  destruct (perform c m s) as [s1 r] eqn:E. apply perform_ok in E as [_ E]. exists s1.
  destruct r as [a|e]; [left; exists a|right; exists e]; by split.
Qed.
End Calls.

(** Run the next call of a goal, both ways. *)
Ltac stepCall :=
  match goal with
  | |- context [@perform ?C ?A ?c ?m ?s] =>
      let s1 := fresh "s" in let a := fresh "a" in let e := fresh "e" in let E := fresh "E" in let H := fresh "Hmade" in
      destruct (@perform_run C A c m s) as [s1 [(a & E & H)|(e & E & H)]]; rewrite E; clear E; cbn [fst snd]
  end.

Lemma made_app {C} (s s1 s2 : SubState C) t1 t2 : made s s1 t1 -> made s1 s2 t2 -> made s s2 (t1 ++ t2).
Proof. unfold made. intros H1 H2. by rewrite H2, H1, <- app_assoc. Qed.
(** The trace of a run whose calls are in the context, and what it shows. *)
Ltac traceOf := eexists; split; [cbn [fst]; repeat (eapply made_app; [eassumption|]); apply made_refl|]; cbn [app snd].
Ltac readTrace := unfold tornDown, tried, did in *; cbn [In] in *; naive_solver.

Section Forks.
Context {C : Type} `{!ControlClient C}.
Abbreviation St := (SubState C).

Lemma clone_tidy b ref child (s : St) cl : ctl_cloner C = Some cl ->
  exists tr, made s (fst (cloneChild b cl ref child s)) tr /\ tidy b ref child tr (snd (cloneChild b cl ref child s)).
Proof.
  intros Hcl. unfold cloneChild, requireSnapshot, onError, releaseForkTag, destroyChild, ignoring, sub_Stop, sub_incarnation, wrapS, GetActor, TagActor, CreateActorFromTag, ResumeActor, SuspendActor, DeleteActor, DeleteTag.
  rewrite Hcl. unfold ignoring, mbind, M_bind, try, mret, M_ret, throw.
  repeat first [stepCall | match goal with |- context [if ?x then _ else _] => destruct x eqn:? end].
  all: traceOf.
  all: split; [repeat constructor|by repeat constructor| | | |]; try (cbn; tauto).
  all: try readTrace.
  (* the name was taken *)
  intros ? ? [= <-] Hin _. destruct Hin as [[=]|[[= <-]|[]]]. split; [|congruence]. intros [? Hdel]. readTrace.
Qed.
Lemma replay_tidy b ref child (s : St) : child <> EmptyString ->
  exists tr, made s (fst (onError (destroyChild b child) (sub_Create b (Some child)) s)) tr /\
    tidy b ref child tr (snd (onError (destroyChild b child) (sub_Create b (Some child)) s)).
Proof.
  intros Hc. unfold sub_Create. rewrite (bool_decide_false _ Hc).
  unfold onError, destroyChild, ignoring, sub_Stop, sub_incarnation, wrapS, GetActor, CreateActor, ResumeActor, SuspendActor, DeleteActor, DeleteTag.
  unfold ignoring, mbind, M_bind, try, mret, M_ret, throw.
  repeat first [stepCall
    | match goal with
      | |- context [if ?x then _ else _] => destruct x eqn:?
      | |- context [match ai_Status ?x with _ => _ end] => destruct (ai_Status x)
      | |- context [match ctl_cloner ?x with _ => _ end] => destruct (ctl_cloner x) eqn:?
      end].
  all: traceOf.
  all: split; [repeat constructor|by repeat constructor| | | |]; try (cbn; tauto).
  all: try readTrace.
  (* a client without tags *)
  all: intros ? _ _; split; [readTrace|split; [readTrace|]]; intros _ [? ?]; congruence.
Qed.

(** C38: What a failed fork leaves behind. Whatever the control plane answers, a fork reads, tags the parent under
    the tag of the child, and acts on nothing else but the child and that tag; when it answers, it destroyed
    nothing. When it fails, an actor whose creation was answered, or a cold one it tried to make, is suspended, then
    deleted, then its tag
    released, as far as each answers, and a tag it reserved without an answered clone is released, but not one
    that was there before; and no tag is released while an answered clone still borrows its copy. A clone
    whose creation failed is taken for not made: the tag is released and no teardown is tried, so that a
    creation that failed after it took effect leaves the child behind. *)
Theorem fork_tidy b ref child (s : St) : exists tr, made s (fst (sub_Fork b ref child s)) tr /\ tidy b ref child tr (snd (sub_Fork b ref child s)).
Proof.
  assert (Hnone : forall e, exists tr, made s (fst (s, @Err goerr Incarnation e)) tr /\ tidy b ref child tr (snd (s, @Err goerr Incarnation e))).
  { intros e. exists []. split; [apply made_refl|]. split; try done. intros ? _ [[? []]|[]]. }
  unfold sub_Fork. case_bool_decide as Hc; [apply Hnone|]. destruct (stateful b); cbn [negb]; [|by apply replay_tidy].
  destruct (ctl_cloner C) as [cl|] eqn:Hcl; [|apply Hnone]. case_bool_decide; [apply Hnone|]. by apply clone_tidy.
Qed.
End Forks.

(** * A control plane at work

    A small control plane in which the router wakes and suspends actors between the calls of the backend, with
    its laws, and the theorems about forks at it. *)

(** ** The plane

    An actor is suspended or not, and has been suspended to a new snapshot a number of times, which its handle
    spells out; a tag and a clone keep the handle they were made from. *)
Record Plane := mkPlane {
  pl_status : string -> ActorStatus; pl_count : string -> nat;
  pl_tags : list (SnapshotID * string); pl_seeds : list (string * string);
}.
Definition handle (n : nat) : string := stringOf (repeat 120 n).
Definition planeInfo (a : string) (s : Plane) : ActorInfo := mkActorInfo (pl_status s a) "worker" (handle (pl_count s a)).
Definition setStatus (a : string) (st : ActorStatus) (s : Plane) : Plane :=
  mkPlane (fun x => if bool_decide (x = a) then st else pl_status s x) (pl_count s) (pl_tags s) (pl_seeds s).
Definition suspendPlane (a : string) (s : Plane) : Plane :=
  if bool_decide (pl_status s a = StatusSuspended) then s
  else mkPlane (fun x => if bool_decide (x = a) then StatusSuspended else pl_status s x)
    (fun x => if bool_decide (x = a) then Datatypes.S (pl_count s x) else pl_count s x) (pl_tags s) (pl_seeds s).
Definition tagOfPlane (s : Plane) (g : SnapshotID) : option string := snd <$> (snd <$> list_find (fun x => fst x = g) (pl_tags s)).
Definition seedOfPlane (s : Plane) (a : string) : option string := snd <$> (snd <$> list_find (fun x => fst x = a) (pl_seeds s)).
(** At each call, the actors that others wake and suspend just before. *)
Definition meddle (script : nat -> list string) (t : nat) (s : Plane) : Plane :=
  foldl (fun s a => suspendPlane a (setStatus a StatusRunning s)) s (script t).

Definition planeTag (source : ActorRef) (g : SnapshotID) : M Plane goerr unit := fun s =>
  if negb (bool_decide (pl_status s (ar_Name source) = StatusSuspended)) then (s, Err (EText "not suspended"))
  else if bool_decide (is_Some (tagOfPlane s g)) then (s, Err (ESentinel ErrTagExists))
  else (mkPlane (pl_status s) (pl_count s) (pl_tags s ++ [(g, handle (pl_count s (ar_Name source)))]) (pl_seeds s), Ok tt).
Definition planeFrom (a : ActorRef) (g : SnapshotID) : M Plane goerr unit := fun s =>
  match tagOfPlane s g with
  | None => (s, Err (EText "no such tag"))
  | Some h =>
      if bool_decide (is_Some (seedOfPlane s (ar_Name a))) then (s, Err (EText "actor exists"))
      else (mkPlane (pl_status s) (pl_count s) (pl_tags s) (pl_seeds s ++ [(ar_Name a, h)]), Ok tt)
  end.
#[local] Instance planeClient (script : nat -> list string) : ControlClient Plane := {|
  ctl_CreateActor t a o s := (meddle script t s, Ok tt);
  ctl_ResumeActor t a s := let s := setStatus (ar_Name a) StatusRunning (meddle script t s) in (s, Ok (planeInfo (ar_Name a) s));
  ctl_SuspendActor t a s := let s := suspendPlane (ar_Name a) (meddle script t s) in (s, Ok (handle (pl_count s (ar_Name a))));
  ctl_DeleteActor t a s := (meddle script t s, Ok tt);
  ctl_GetActor t a s := let s := meddle script t s in (s, Ok (planeInfo (ar_Name a) s));
  ctl_cloner := Some (mkSnapshotCloner _ (fun t a g s => planeTag a g (meddle script t s)) (fun t a o g s => planeFrom a g (meddle script t s))
    (fun t g s => (meddle script t s, Ok tt)));
|}.

(** Counts grow; tags and seeds are only added. *)
Definition planeAfter (s s' : Plane) : Prop := (forall a, (pl_count s a <= pl_count s' a)%nat) /\
  (exists more, pl_tags s' = pl_tags s ++ more) /\ exists more, pl_seeds s' = pl_seeds s ++ more.
#[local] Instance planeFacts : PlaneFacts Plane := {|
  cp_after := planeAfter;
  cp_holds s a := Some (planeInfo (ar_Name a) s);
  cp_tag := tagOfPlane;
  cp_seed s a := seedOfPlane s (ar_Name a);
|}.

#[local] Instance planeAfter_order : PreOrder planeAfter.
Proof.
  split.
  - intros s. split; [done|]. split; exists []; by rewrite app_nil_r.
  - intros s1 s2 s3 (H1 & (m1 & E1) & k1 & F1) (H2 & (m2 & E2) & k2 & F2). split; [intros a; specialize (H1 a); specialize (H2 a); lia|].
    split; [exists (m1 ++ m2)|exists (k1 ++ k2)]; rewrite app_assoc; congruence.
Qed.
Lemma after_same s s' : (forall a, (pl_count s a <= pl_count s' a)%nat) -> pl_tags s' = pl_tags s -> pl_seeds s' = pl_seeds s -> planeAfter s s'.
Proof. intros H1 H2 H3. split; [done|]. split; exists []; by rewrite app_nil_r. Qed.
Lemma after_suspendPlane a s : planeAfter s (suspendPlane a s).
Proof. unfold suspendPlane. case_bool_decide; [done|]. apply after_same; [|done|done]. intros x. cbn. case_bool_decide; lia. Qed.
Lemma after_setStatus a st s : planeAfter s (setStatus a st s).
Proof. by apply after_same. Qed.
Lemma after_meddle script t s : planeAfter s (meddle script t s).
Proof.
  unfold meddle. generalize (script t). intros l. revert s. induction l as [|a l IH]; intros s; cbn; [done|].
  etrans; [|apply IH]. etrans; [apply (after_setStatus a StatusRunning)|apply after_suspendPlane].
Qed.
Lemma find_app {A} (l l' : list (A * string)) P `{!forall x, Decision (P x)} x : snd <$> (snd <$> list_find P l) = Some x ->
  snd <$> (snd <$> list_find P (l ++ l')) = Some x.
Proof. intros Hl. destruct (list_find P l) as [[i y]|] eqn:E; [|done]. by rewrite (list_find_app_l _ _ _ _ _ E). Qed.
Lemma tag_kept s s' g h : planeAfter s s' -> tagOfPlane s g = Some h -> tagOfPlane s' g = Some h.
Proof. intros (_ & (more & E) & _). unfold tagOfPlane. rewrite E. apply find_app. Qed.
Lemma handle_isByte n : Forall isByte (repeat 120 n).
Proof. induction n; constructor; [by vm_compute|done]. Qed.
Lemma handle_inj n k : handle n = handle k -> n = k.
Proof.
  intros E. apply (f_equal bytesOf) in E. unfold handle in E. rewrite !bytesOf_stringOf in E by apply handle_isByte.
  apply (f_equal length) in E. by rewrite !repeat_length in E.
Qed.
Lemma find_new {A} `{!EqDecision A} (l : list (A * string)) (g : A) h : snd <$> (snd <$> list_find (fun x => fst x = g) l) = None ->
  snd <$> (snd <$> list_find (fun x => fst x = g) (l ++ [(g, h)])) = Some h.
Proof.
  intros Hl. destruct (list_find (fun x => fst x = g) l) as [|] eqn:E; [done|]. rewrite list_find_app_r by done. cbn. by rewrite decide_True.
Qed.

#[local] Instance planeLaws script : @PlaneLaws Plane (planeClient script) planeFacts.
Proof.
  split.
  - apply _.
  - intros. apply after_meddle.
  - intros. apply after_meddle.
  - intros. cbn. etrans; [apply after_meddle|apply after_setStatus].
  - intros. cbn. etrans; [apply after_meddle|apply after_suspendPlane].
  - intros. apply after_meddle.
  - intros cl t a g s [= <-]. cbn. etrans; [apply (after_meddle script t)|]. generalize (meddle script t s). intros s0.
    unfold planeTag. repeat case_bool_decide; try done. cbn [negb fst]. split; [done|]. cbn. split; [by eexists|]. exists []. by rewrite app_nil_r.
  - intros cl t a o g s [= <-]. cbn. etrans; [apply (after_meddle script t)|]. generalize (meddle script t s). intros s0.
    unfold planeFrom. destruct (tagOfPlane s0 g); [|done]. case_bool_decide; [done|]. split; [done|]. cbn. split; [|by eexists]. exists []. by rewrite app_nil_r.
  - intros cl t g s [= <-]. apply after_meddle.
  - intros t a s s' i [= <- <-]. exists (meddle script t s). split; [apply after_meddle|]. by split.
  - intros cl t a g s s' [= <-]. cbn. pose proof (after_meddle script t s) as Hm. revert Hm. generalize (meddle script t s). intros s0 Hm.
    unfold planeTag. case_bool_decide; [|done]. cbn [negb]. case_bool_decide as Hg; [done|]. intros [= <-].
    eexists _, _. split; [|split; [reflexivity|split; [reflexivity|]]].
    + etrans; [exact Hm|]. split; [done|]. cbn. split; [by eexists|]. exists []. by rewrite app_nil_r.
    + apply find_new. unfold tagOfPlane in Hg. by apply eq_None_not_Some.
  - intros cl t a o g s s' [= <-]. cbn. pose proof (after_meddle script t s) as Hm. revert Hm. generalize (meddle script t s). intros s0 Hm.
    unfold planeFrom. destruct (tagOfPlane s0 g) as [h|] eqn:Et; [|done]. case_bool_decide as Hg; [done|]. intros [= <-].
    eexists _, h. split; [|split; [reflexivity|split; [exact Et|]]].
    + etrans; [exact Hm|]. split; [done|]. cbn. split; [|by eexists]. exists []. by rewrite app_nil_r.
    + apply find_new. unfold seedOfPlane in Hg. by apply eq_None_not_Some.
  - intros s1 s2 s3 a i1 i2 i3 [H12 _] [H23 _] [= <-] [= <-] [= <-] Hh. cbn in *. apply handle_inj in Hh.
    specialize (H12 (ar_Name a)). specialize (H23 (ar_Name a)). f_equal. lia.
Qed.

(** ** Forks *)

Definition calm : nat -> list string := fun _ => [].
(** Others wake the parent and suspend it again between the first check and the tag. *)
Definition busy : nat -> list string := fun t => match t with 1%nat => ["parent"%string] | _ => [] end.
Definition suspendedPlane : Plane := mkPlane (fun _ => StatusSuspended) (fun _ => 2%nat) [] [].
Definition forkState : SubState Plane := mkSubState suspendedPlane 0 [].
Definition memoryDescriptor : Descriptor := mkDescriptor "counter" "1" ["m"%string] [] (mkCapabilities ResumabilityRequiresMemorySnapshot true false false false).
Definition memorySubstrate : SubBackend := NewSubstrate "desk" (mkObjectRef "desk" "counter") memoryDescriptor [].
Definition parentRef : SnapshotRef := mkSnapshotRef "parent" "xx" true false.

Lemma plane_tagOnce g : tagOnce (C := Plane) g.
Proof. intros s s' h h' Hs Hh Hh'. pose proof (tag_kept s s' g h Hs Hh) as Hk. cbn in Hh'. congruence. Qed.

Example calm_fork : snd (sub_Fork (ControlClient0 := planeClient calm) memorySubstrate parentRef "child" forkState) =
  Ok (mkIncarnation "child" "worker" DefaultRouterAddress "substrate" 0 [(TargetActorHeader, "desk/child"%string)]).
Proof. vm_compute. reflexivity. Qed.
(** The second check refuses, and the tag is released. *)
Example busy_fork : snd (sub_Fork (ControlClient0 := planeClient busy) memorySubstrate parentRef "child" forkState) = Err errSnapshotSuperseded /\
  map fst (sub_calls (fst (sub_Fork (ControlClient0 := planeClient busy) memorySubstrate parentRef "child" forkState))) =
    [CallGetActor (mkActorRef "desk" "parent"); CallTagActor (mkActorRef "desk" "parent") (mkSnapshotID "desk" "fork-child");
     CallGetActor (mkActorRef "desk" "parent"); CallDeleteTag (mkSnapshotID "desk" "fork-child")].
Proof. split; vm_compute; reflexivity. Qed.

(** A plane that makes the clone and then fails to say so: the child is left behind, and its tag released. *)
Definition lateClient : ControlClient Plane := {|
  ctl_CreateActor := @ctl_CreateActor Plane (planeClient calm); ctl_ResumeActor := @ctl_ResumeActor Plane (planeClient calm);
  ctl_SuspendActor := @ctl_SuspendActor Plane (planeClient calm); ctl_DeleteActor := @ctl_DeleteActor Plane (planeClient calm);
  ctl_GetActor := @ctl_GetActor Plane (planeClient calm);
  ctl_cloner := Some (mkSnapshotCloner _ (fun t a g s => planeTag a g s) (fun t a o g s => (fst (planeFrom a g s), Err (EText "deadline exceeded")))
    (fun t g s => (s, Ok tt)));
|}.
Example late_fork : let x := sub_Fork (ControlClient0 := lateClient) memorySubstrate parentRef "child" forkState in
  match snd x with Err _ => True | Ok _ => False end /\ seedOfPlane (sub_cp (fst x)) "child" = Some "xx"%string /\
  map fst (sub_calls (fst x)) =
    [CallGetActor (mkActorRef "desk" "parent"); CallTagActor (mkActorRef "desk" "parent") (mkSnapshotID "desk" "fork-child");
     CallGetActor (mkActorRef "desk" "parent"); CallFromTag (mkActorRef "desk" "child") (mkSnapshotID "desk" "fork-child");
     CallDeleteTag (mkSnapshotID "desk" "fork-child")].
Proof. vm_compute. repeat split; reflexivity. Qed.

Lemma fork_clones_snapshot_witness : exists m : Plane, cp_seed m (actorRef memorySubstrate "child") = Some "xx"%string.
Proof.
  destruct (fork_clones_snapshot (ControlClient0 := planeClient calm) (PlaneLaws0 := planeLaws calm) memorySubstrate parentRef "child" forkState
    eq_refl (plane_tagOnce (forkTag memorySubstrate "child"))) as [Hclone _].
  destruct (Hclone (fst (sub_Fork (ControlClient0 := planeClient calm) memorySubstrate parentRef "child" forkState))
    (mkIncarnation "child" "worker" DefaultRouterAddress "substrate" 0 [(TargetActorHeader, "desk/child"%string)])) as [(m & _ & _ & Hm) _].
  - vm_compute. reflexivity.
  - exists m. exact Hm.
Defined.
