(* ===== verification/Runtimes.v ===== *)
(** * The backends without a sandbox (runtime/local/local.go, runtime/remote/remote.go)

    Both hand out the address of a harness server: a local one serves the harness of this process on a socket of
    its own, started on first use; a remote one names a server that runs elsewhere, and keeps one connection to
    describe it. Neither captures memory: a snapshot is the session's name, and recovery replays the journal.
    Sockets and connections are numbered in the order they are made, and what the operating system and gRPC
    answer is a parameter. Each state is guarded by a mutex, so that operations on it follow one another.
    Logging is left out. *)
From S2P Require Import Prelude GoErrors Api Canon EventLog Executions Approvals Harness Sinks Controller SessionGuard Placement Substrate.
#[local] Open Scope Z_scope.

(** ** The shared operations *)

(** [Capabilities()] of both. *)
Definition plainCapabilities : RuntimeCapabilities := mkRuntimeCapabilities false false false false.
(** [Snapshot(ctx, in, kind)] of both. *)
Definition plainSnapshot (id : string) (kind : SnapshotKind) : res SnapshotRef :=
  match kind with
  | SnapshotLocal => Err (EText "warm (LOCAL) snapshot not supported; the journal is the durable state")
  | SnapshotExternal => Ok (mkSnapshotRef id EmptyString false false)
  end.
(** [Stop] and [Status] of both. *)
Definition plainStop (id : string) : option goerr := None.
Definition plainStatus (id : string) : res ComputeState := Ok ComputeLive.

(** ** Local *)

Class LocalHost := {
  listenAt : nat -> string -> option goerr;   (* net.Listen on the socket of an attempt *)
  socketPath : nat -> string;                 (* the path with the number of [socketSeq] *)
}.
(** [Backend]: the running server by its number, the socket to remove and the address. *)
Record LocalBackend := mkLocalBackend { lb_harness : Harness; lb_worker : string }.
Record LocalState := mkLocalState {
  ls_srv : option nat; ls_sock : string; ls_addr : string; ls_seq : nat; ls_tick : nat;
  ls_stopped : list nat; ls_removed : list string;
}.
Definition newLocalState : LocalState := mkLocalState None EmptyString EmptyString 0 0 [] [].

Section Local.
Context `{LocalHost}.

(** [start(ctx)]. The sequence number of the socket is one for all backends in the code and one for each here;
    the removal of a stale socket file before listening is left out. *)
Definition local_start : M LocalState goerr string := fun s =>
  match ls_srv s with
  | Some _ => (s, Ok (ls_addr s))
  | None =>
      let n := Datatypes.S (ls_seq s) in
      let sock := socketPath n in
      match listenAt (ls_tick s) sock with
      | Some e => (mkLocalState None (ls_sock s) (ls_addr s) n (Datatypes.S (ls_tick s)) (ls_stopped s) (ls_removed s), Err (EWrap "local: listen" e))
      | None => (mkLocalState (Some n) sock ("unix://"%string +:+ sock) n (Datatypes.S (ls_tick s)) (ls_stopped s) (ls_removed s),
          Ok ("unix://"%string +:+ sock))
      end
  end.
(** [Close()]. *)
Definition local_Close : M LocalState goerr unit := fun s =>
  (mkLocalState None EmptyString (ls_addr s) (ls_seq s) (ls_tick s)
     (match ls_srv s with Some n => ls_stopped s ++ [n] | None => ls_stopped s end)
     (if bool_decide (ls_sock s = EmptyString) then ls_removed s else ls_removed s ++ [ls_sock s]), Ok tt).

Variable b : LocalBackend.
(** [Create(ctx, s)]; [None] is the nil spec. *)
Definition local_Create (spec : option string) : M LocalState goerr Incarnation :=
  match spec with
  | None => throw (EText "local: create requires a session spec")
  | Some uid =>
      if bool_decide (uid = EmptyString) then throw (EText "local: create requires a session uid")
      else let! addr := local_start in mret (mkIncarnation uid (lb_worker b) addr "local" 0 [])
  end.
Definition local_Restore (ref : SnapshotRef) : M LocalState goerr Incarnation :=
  if bool_decide (snap_Local ref = EmptyString) then throw (EText "local: snapshot ref missing session handle")
  else local_Create (Some (snap_Local ref)).
Definition local_Fork (ref : SnapshotRef) (child : string) : M LocalState goerr Incarnation :=
  if bool_decide (child = EmptyString) then throw (EText "local: fork requires a child session uid")
  else local_Create (Some child).
Definition local_Describe (t : nat) : res Descriptor := Describe (lb_harness b) t.
End Local.

(** [localErrorKind(err)]. *)
Definition localErrorKind (err : option goerr) : string :=
  match err with
  | None => EmptyString
  | Some e =>
      if errors_Is e ContextCanceled then "canceled"
      else if errors_Is e ContextDeadlineExceeded then "deadline_exceeded"
      else match e with
      | EText t => if bool_decide (t = "local: create requires a session spec" \/ t = "local: create requires a session uid")%string
          then "invalid_spec" else "runtime_operation_failed"
      | _ => "runtime_operation_failed"
      end
  end%string.

(** ** Remote *)

(** How an address is dialed: a path after [unix://] by a dialer of its own, anything else by gRPC. *)
Inductive DialTarget := TargetSocket (path : string) | TargetAddress (addr : string).
Definition dialTarget (addr : string) : DialTarget :=
  if String.prefix "unix://" addr then TargetSocket (String.substring 7 (String.length addr - 7) addr) else TargetAddress addr.
Class RemoteHost := {
  newClient : nat -> DialTarget -> res Harness;   (* grpc.NewClient and the client harness over it *)
  closeClient : nat -> option goerr;              (* ClientConn.Close of a connection *)
}.
(** [Backend]: the connection by its number with its harness, and how many were made and closed. *)
Record RemoteState := mkRemoteState {
  rs_conn : option (nat * Harness); rs_shut : bool; rs_opened : nat; rs_released : list nat; rs_tick : nat;
}.
Definition newRemoteState : RemoteState := mkRemoteState None false 0 [] 0.
Definition errClosed : goerr := EText "remote: backend is closed".
Definition errNoAddress : goerr := EText "remote: no harness address configured".

Section Remote.
Context `{RemoteHost}.
Variable addr : string.

(** [connect()]. *)
Definition remote_connect : M RemoteState goerr Harness := fun s =>
  if rs_shut s then (s, Err errClosed)
  else match rs_conn s with
  | Some (_, h) => (s, Ok h)
  | None =>
      if bool_decide (addr = EmptyString) then (s, Err errNoAddress)
      else
        let tick := Datatypes.S (rs_tick s) in
        match newClient (rs_tick s) (dialTarget addr) with
        | Err e => (mkRemoteState None false (rs_opened s) (rs_released s) tick, Err (EWrap "remote: dial harness" e))
        | Ok h => (mkRemoteState (Some (rs_opened s, h)) false (Datatypes.S (rs_opened s)) (rs_released s) tick, Ok h)
        end
  end.
(** [Close()]. *)
Definition remote_Close : M RemoteState goerr unit := fun s =>
  match rs_conn s with
  | None => (mkRemoteState None true (rs_opened s) (rs_released s) (rs_tick s), Ok tt)
  | Some (n, _) =>
      (mkRemoteState None true (rs_opened s) (rs_released s ++ [n]) (rs_tick s),
       match closeClient n with Some e => Err e | None => Ok tt end)
  end.
(** [Describe(ctx)]. *)
Definition describeWith (h : Harness) : M RemoteState goerr Descriptor := fun s =>
  (mkRemoteState (rs_conn s) (rs_shut s) (rs_opened s) (rs_released s) (Datatypes.S (rs_tick s)),
   match Describe h (rs_tick s) with Ok d => Ok d | Err e => Err (EWrap "remote: describe harness" e) end).
Definition remote_Describe : M RemoteState goerr Descriptor := let! h := remote_connect in describeWith h.

(** [Create(ctx, s)], [Restore] and [Fork]: only the address is handed out. *)
Definition remote_Create (spec : option string) : res Incarnation :=
  match spec with
  | None => Err (EText "remote: Create requires a SessionSpec")
  | Some uid =>
      if bool_decide (uid = EmptyString) then Err (EText "remote: Create requires a session uid")
      else if bool_decide (addr = EmptyString) then Err errNoAddress
      else Ok (mkIncarnation uid EmptyString addr "remote" 0 [])
  end.
Definition remote_Restore (ref : SnapshotRef) : res Incarnation :=
  if bool_decide (snap_Local ref = EmptyString) then Err (EText "remote: snapshot ref missing session handle")
  else remote_Create (Some (snap_Local ref)).
Definition remote_Fork (ref : SnapshotRef) (child : string) : res Incarnation :=
  if bool_decide (child = EmptyString) then Err (EText "remote: fork requires a child session uid")
  else remote_Create (Some child).
End Remote.

(** [remoteErrorKind(err)]. *)
Fixpoint isText (text : string) (e : goerr) : bool :=
  match e with
  | EText t => bool_decide (t = text)
  | EWrap _ c | EStatusCause _ c => isText text c
  | EJoin _ cs => existsb (isText text) cs
  | _ => false
  end.
Definition remoteErrorKind (err : option goerr) : string :=
  match err with
  | None => EmptyString
  | Some e =>
      if isText "remote: no harness address configured" e then "no_address"
      else if isText "remote: backend is closed" e then "closed"
      else if isText "remote: Create requires a SessionSpec" e || isText "remote: Create requires a session uid" e then "invalid_request"
      else "remote_error"
  end%string.

(** ** As the placer's backends

    An operation on the state the backend is in when it is called. *)
Definition createdAs {S} (r : S * res Incarnation) : Incarnation * option goerr :=
  match snd r with Ok inc => (inc, None) | Err e => (zeroIncarnation, Some e) end.
Definition localPlacement `{LocalHost} (b : LocalBackend) (at_ : nat -> LocalState) : Backend := {|
  b_Create t uid := createdAs (local_Create b (Some uid) (at_ t));
  b_Snapshot t uid := plainSnapshot uid SnapshotExternal;
  b_Restore t ref := snd (local_Restore b ref (at_ t));
  b_Fork t ref child := snd (local_Fork b ref child (at_ t));
  b_Stop t uid := plainStop uid;
  b_Capabilities := plainCapabilities;
  b_Describe t := local_Describe b t;
  b_describesLive := false;
|}.
Definition remotePlacement `{RemoteHost} (addr : string) (at_ : nat -> RemoteState) : Backend := {|
  b_Create t uid := createdAs ((), remote_Create addr (Some uid));
  b_Snapshot t uid := plainSnapshot uid SnapshotExternal;
  b_Restore t ref := remote_Restore addr ref;
  b_Fork t ref child := remote_Fork addr ref child;
  b_Stop t uid := plainStop uid;
  b_Capabilities := plainCapabilities;
  b_Describe t := snd (remote_Describe addr (at_ t));
  b_describesLive := true;
|}.
Definition substratePlacement {C} `{!ControlClient C} (b : SubBackend) (at_ : nat -> SubState C) : Backend := {|
  b_Create t uid := createdAs (sub_Create b (Some uid) (at_ t));
  b_Snapshot t uid := snd (sub_Snapshot b uid SnapshotExternal (at_ t));
  b_Restore t ref := snd (sub_Restore b ref (at_ t));
  b_Fork t ref child := snd (sub_Fork b ref child (at_ t));
  b_Stop t uid := err_of (snd (sub_Stop b uid (at_ t)));
  b_Capabilities := sub_Capabilities;
  b_Describe t := sub_Describe b;
  b_describesLive := false;
|}.
