(* ===== verification/RuntimesSpec.v ===== *)
(** * What the backends without a sandbox guarantee

    They provision nothing for a harness whose state lives in memory, hand every session the same way back to its
    harness, and release what they opened. *)
From S2P Require Import Prelude GoErrors Api Canon EventLog Executions Approvals Harness Sinks Controller Agents LiveSpec Turns SessionGuard Placement Admission Gates Projection Substrate Runtimes.
#[local] Open Scope Z_scope.

(** ** The gate *)

Definition inMemory (d : Descriptor) : Prop := cap_Resumability (desc_Capabilities d) = ResumabilityRequiresMemorySnapshot.

Section Gate.
Context `{Host} `{Encoding} `{PlacementHost} {S : Type} `{StoreLaws S}.
Abbreviation P := (PState S).
Variable p : Placer.
(** A runtime that captures no memory, and a harness that needs it. *)
Hypothesis Hplain : MemorySnapshot (b_Capabilities (p_backend p)) = false.
Hypothesis Hdesc : forall t d, b_Describe (p_backend p) t = Ok d -> inMemory d.

Lemma gate_shut ctx t : exists e, gateOn p ctx t (b_Describe (p_backend p) t) = Err e.
Proof.
  unfold gateOn. destruct (b_Describe (p_backend p) t) as [d|e] eqn:E; [|by eexists]. apply Hdesc in E. unfold CanPlace.
  rewrite (bool_decide_true _ E), Hplain. destruct (negb _ && negb _); by eexists.
Qed.
(** Nothing was provisioned, restored or dialed, and the call failed. *)
Definition describes (c : RuntimeCall) : Prop :=
  match c with CallCreate _ | CallRestore _ | CallFork _ _ | CallDial _ | CallStop _ => False | _ => True end.
Definition shut {E A} (s : P) (out : P * result E A) : Prop := asks describes s (fst out) /\ is_ok (snd out) = false.

Lemma admit_shut (s : P) : shut s (placer_admit p s).
Proof.
  destruct (admit_run p s) as (s' & -> & _ & Hc & _). destruct (gate_shut (ctxErr (w_tick (ps_world s))) (w_tick (ps_world s))) as [e ->].
  split; [|done]. exists [CallDescribe]. split; [done|]. by constructor.
Qed.
Lemma asks_step {Q} (s s1 s2 : P) : asks Q s s1 -> asks Q s1 s2 -> asks Q s s2.
Proof. intros (n1 & E1 & Hn1) (n2 & E2 & Hn2). exists (n1 ++ n2). split; [by rewrite E2, E1, app_assoc|]. by apply list.Forall_app. Qed.
(** A computation that never gets past one that is shut. *)
Lemma shut_after {E A B} (m : M P E A) (k : A -> M P E B) (s : P) : asks describes s (fst (m s)) ->
  (forall s1 a, m s = (s1, Ok a) -> shut s1 (k a s1)) -> shut s ((let! x := m in k x) s).
Proof.
  intros Hm Hk. unfold mbind, M_bind. destruct (m s) as [s1 [a|e]] eqn:Em; cbn [fst] in *; [|by split].
  destruct (Hk s1 a eq_refl) as [Ha Hr]. split; [by eapply asks_step|done].
Qed.
Lemma shut_here {E A B} (m : M P E A) (k : A -> M P E B) (s : P) : shut s (m s) -> shut s ((let! x := m in k x) s).
Proof. unfold mbind, M_bind. by destruct (m s) as [s1 [a|e]]; intros [? ?]. Qed.
Lemma shut_guard {E A} (busy : goerr -> E) uid kind (body : M P E A) (s : P) : (forall s, shut s (body s)) -> shut s (withGuard busy uid kind body s).
Proof.
  intros Hb. unfold withGuard. destruct (acquire uid kind (ps_guard s)) as [g [h|e]]; [|split; [by exists []; rewrite app_nil_r|done]].
  unfold finally. specialize (Hb (setGuardP g s)). destruct (body (setGuardP g s)) as [s1 r]. exact Hb.
Qed.
Lemma asks_beside {V A} (v : V) (m : M P goerr A) (s : P) : asks describes s (fst (m s)) -> asks describes s (fst (beside v m s)).
Proof. unfold beside. by destruct (m s) as [s1 [a|e]]. Qed.
Lemma shut_beside {V A} (v : V) (m : M P goerr A) (s : P) : shut s (m s) -> shut s (beside v m s).
Proof. unfold beside, shut. by destruct (m s) as [s1 [a|e]]. Qed.
Lemma exec_shut cfg uid inputs expected (s : P) : shut s (placer_Exec p cfg uid inputs expected s).
Proof.
  unfold placer_Exec. apply shut_guard. intros s0. apply shut_after; [apply asks_beside, asks_onStore|intros s1 _ _].
  apply shut_after; [apply asks_beside, asks_onStore|intros s2 state _]. destruct (ownedOpen state).
  { split; [exists []; by rewrite app_nil_r|done]. }
  apply shut_here, shut_beside, admit_shut.
Qed.
Lemma resume_shut cfg uid (s : P) : shut s (placer_Resume p cfg uid s).
Proof.
  unfold placer_Resume, resume. apply shut_guard. intros s0. apply shut_after; [apply asks_onStore|intros s1 _ _].
  apply shut_after; [apply asks_onStore|intros s2 state _]. apply shut_after; [by apply resumeApproval_asks|intros s3 _ _].
  apply shut_here, admit_shut.
Qed.
Lemma forkSource_shut uid atSeq (s : P) : shut s (forkSource p uid atSeq s).
Proof. unfold forkSource. apply shut_here, admit_shut. Qed.
Lemma fork_shut {C} `{!Store C} uid (children : list (ForkChild (C := C))) atSeq (s : P) :
  asks describes s (fst (placer_Fork p uid children atSeq s)) /\ is_ok (snd (snd (placer_Fork p uid children atSeq s))) = false.
Proof.
  assert (Hrefl : forall s0 : P, asks describes s0 s0) by (intros s0; exists []; by rewrite app_nil_r).
  unfold placer_Fork. destruct (acquire uid guardRead (ps_guard s)) as [g [h|e]]; [|split; [exact (Hrefl s)|done]].
  pose proof (asks_onStore describes (A := unit) st_CheckWritable (setGuardP g s)) as Hw.
  destruct (onStore st_CheckWritable (setGuardP g s)) as [s1 [u|e]]; [|split; [exact Hw|done]].
  destruct (forkPreflight children) as [cs [e|]]; [split; [exact Hw|done]|].
  destruct (forkSource_shut uid atSeq s1) as [Hf Hr]. destruct (forkSource p uid atSeq s1) as [s2 [[ref m]|e]]; [done|].
  split; [|done]. eapply asks_step; [exact Hw|exact Hf].
Qed.
End Gate.

(** C39: A placer on a backend without memory snapshots provisions nothing for a harness whose state lives in memory:
    Exec, Resume and Fork fail before compute is created, restored or cloned. And what such a backend hands out
    depends on the session alone: a snapshot names the session and captures nothing, restoring it is creating the
    session's compute again, and a fork is creating the child's. *)
Theorem memoryless_backends `{Host} `{Encoding} `{PlacementHost} `{LocalHost} `{RemoteHost} {S C : Type} `{StoreLaws S} `{!Store C} (p : Placer) b local addr remote :
  p_backend p = localPlacement b local \/ p_backend p = remotePlacement addr remote ->
  ((forall t d, b_Describe (p_backend p) t = Ok d -> inMemory d) -> forall uid (s : PState S),
    (forall cfg inputs expected, shut s (placer_Exec p cfg uid inputs expected s)) /\
    (forall cfg, shut s (placer_Resume p cfg uid s)) /\
    forall (children : list (ForkChild (C := C))) atSeq, shut s (fst (placer_Fork p uid children atSeq s), snd (snd (placer_Fork p uid children atSeq s)))) /\
  forall t uid ref, uid <> EmptyString -> b_Snapshot (p_backend p) t uid = Ok ref ->
    ref = mkSnapshotRef uid EmptyString false false /\
    b_Create (p_backend p) t uid = createdAs ((), b_Restore (p_backend p) t ref) /\
    forall parent, b_Fork (p_backend p) t parent uid = b_Restore (p_backend p) t ref.
Proof.
  intros Hp. assert (Hplain : MemorySnapshot (b_Capabilities (p_backend p)) = false) by (destruct Hp as [-> | ->]; done).
  split.
  - intros Hdesc uid s. split_and!; intros; [by apply exec_shut|by apply resume_shut|by apply fork_shut].
  - intros t uid ref Hu. destruct Hp as [-> | ->]; cbn [b_Snapshot b_Create b_Restore b_Fork localPlacement remotePlacement]; unfold plainSnapshot;
      intros [= <-]; (split; [done|]).
    + unfold local_Restore, local_Fork. cbn [snap_Local]. rewrite (bool_decide_false _ Hu). split; [|done].
      unfold createdAs. by destruct (local_Create b (Some uid) (local t)) as [? [|]].
    + unfold remote_Restore, remote_Fork. cbn [snap_Local]. rewrite (bool_decide_false _ Hu). done.
Qed.

(** ** Servers and connections *)

Inductive LocalOp := LocalCreate (spec : option string) | LocalRestore (ref : SnapshotRef) | LocalFork (ref : SnapshotRef) (child : string) | LocalClose.
Inductive RemoteOp := RemoteDescribe | RemoteClose.

Section Release.
Context `{LocalHost} `{RemoteHost}.
Variables (b : LocalBackend) (addr : string).

Definition localDo (op : LocalOp) (s : LocalState) : LocalState :=
  match op with
  | LocalCreate spec => fst (local_Create b spec s)
  | LocalRestore ref => fst (local_Restore b ref s)
  | LocalFork ref child => fst (local_Fork b ref child s)
  | LocalClose => fst (local_Close s)
  end.
Definition remoteDo (op : RemoteOp) (s : RemoteState) : RemoteState :=
  match op with RemoteDescribe => fst (remote_Describe addr s) | RemoteClose => fst (remote_Close s) end.
Definition localRun (ops : list LocalOp) (s : LocalState) : LocalState := foldl (fun s op => localDo op s) s ops.
Definition remoteRun (ops : list RemoteOp) (s : RemoteState) : RemoteState := foldl (fun s op => remoteDo op s) s ops.

(** The servers that were started: those stopped, then the one that runs. *)
Definition servers (s : LocalState) : list nat := ls_stopped s ++ match ls_srv s with Some n => [n] | None => [] end.
Record localOk (s : LocalState) : Prop := mkLocalOk {
  lok_once : NoDup (servers s);
  lok_below : Forall (fun n => (n <= ls_seq s)%nat) (servers s);
  lok_running : match ls_srv s with
    | Some n => ls_sock s = socketPath n /\ ls_addr s = "unix://"%string +:+ socketPath n
    | None => ls_sock s = EmptyString
    end;
  lok_removed : ls_removed s = map socketPath (ls_stopped s);
}.
Definition connections (s : RemoteState) : list nat := rs_released s ++ match rs_conn s with Some (n, _) => [n] | None => [] end.
Definition remoteOk (s : RemoteState) : Prop := connections s = seq 0 (rs_opened s) /\ (rs_shut s = true -> rs_conn s = None).

Lemma start_ok s : localOk s -> localOk (fst (local_start s)) /\ exists more, servers (fst (local_start s)) = servers s ++ more.
Proof.
  intros [Hn Hb Hr Hd]. unfold local_start. destruct (ls_srv s) as [n|] eqn:E; cbn [fst].
  { split; [|exists []; by rewrite app_nil_r]. split; try done. by rewrite E. }
  unfold servers in *. rewrite E, app_nil_r in *. destruct (listenAt _ _); cbn [fst].
  - split; [|exists []; cbn; by rewrite !app_nil_r]. split; unfold servers; cbn; rewrite ?app_nil_r; try done.
    eapply list.Forall_impl; [exact Hb|]. intros x Hx. cbn in *. lia.
  - split; [|by eexists]. split; unfold servers; cbn [ls_stopped ls_srv ls_seq ls_sock ls_addr ls_removed].
    + apply list.NoDup_app. split; [done|]. split; [|apply NoDup_singleton]. intros x Hx Hx'%list_elem_of_singleton.
      rewrite list.Forall_forall in Hb. specialize (Hb x Hx). lia.
    + apply list.Forall_app. split; [|by constructor]. eapply list.Forall_impl; [exact Hb|]. intros x Hx. cbn in *. lia.
    + done.
    + done.
Qed.
Lemma close_ok s : (forall n, socketPath n <> EmptyString) -> localOk s -> localOk (fst (local_Close s)) /\ servers (fst (local_Close s)) = servers s.
Proof.
  intros Hp [Hn Hb Hr Hd]. unfold local_Close, servers in *. cbn [fst ls_stopped ls_srv]. destruct (ls_srv s) as [n|] eqn:E.
  - destruct Hr as [-> Ha]. rewrite (bool_decide_false _ (Hp n)), app_nil_r. split; [|done].
    split; unfold servers; cbn [ls_stopped ls_srv ls_seq ls_sock ls_addr ls_removed]; rewrite ?app_nil_r; try done. by rewrite map_app, Hd.
  - rewrite Hr, bool_decide_true by done. split; [|done]. split; unfold servers; cbn; try done.
Qed.
Lemma localDo_ok op s : (forall n, socketPath n <> EmptyString) -> localOk s ->
  localOk (localDo op s) /\ exists more, servers (localDo op s) = servers s ++ more.
Proof.
  intros Hp Hs. assert (Hsame : localOk s /\ exists more, servers s = servers s ++ more) by (split; [done|]; exists []; by rewrite app_nil_r).
  assert (Hcreate : forall spec, localOk (fst (local_Create b spec s)) /\ exists more, servers (fst (local_Create b spec s)) = servers s ++ more).
  { intros [uid|]; [|exact Hsame]. unfold local_Create. case_bool_decide; [exact Hsame|]. pose proof (start_ok s Hs) as Hst.
    unfold mbind, M_bind. by destruct (local_start s) as [s1 [a|e]]. }
  destruct op as [spec|ref|ref child|]; cbn [localDo].
  - apply Hcreate.
  - unfold local_Restore. case_bool_decide; [exact Hsame|apply Hcreate].
  - unfold local_Fork. case_bool_decide; [exact Hsame|apply Hcreate].
  - destruct (close_ok s Hp Hs) as [Hc E]. split; [done|]. exists []. by rewrite E, app_nil_r.
Qed.
Lemma localRun_ok ops : (forall n, socketPath n <> EmptyString) -> forall s, localOk s ->
  localOk (localRun ops s) /\ exists more, servers (localRun ops s) = servers s ++ more.
Proof.
  intros Hp. induction ops as [|op ops IH]; intros s Hs; cbn [localRun foldl].
  - split; [done|]. exists []. by rewrite app_nil_r.
  - destruct (localDo_ok op s Hp Hs) as [H1 [m1 E1]]. destruct (IH _ H1) as [H2 [m2 E2]]. split; [done|].
    exists (m1 ++ m2). unfold localRun in E2. by rewrite E2, E1, app_assoc.
Qed.

Lemma connect_ok s : remoteOk s -> remoteOk (fst (remote_connect addr s)) /\ (rs_shut s = true -> fst (remote_connect addr s) = s).
Proof.
  intros Hok. pose proof Hok as [Hc Hs]. unfold remote_connect. destruct (rs_shut s) eqn:E; [by split|]. destruct (rs_conn s) as [[n h]|] eqn:Ec; [by split|].
  case_bool_decide; [by split|]. unfold connections in Hc. rewrite Ec, app_nil_r in Hc. unfold remoteOk. destruct (newClient _ _) as [h|e]; cbn [fst].
  - split; [|done]. split; [|done]. unfold connections. cbn [rs_released rs_conn rs_opened]. by rewrite Hc, seq_S.
  - split; [|done]. split; [|done]. unfold connections. cbn [rs_released rs_conn rs_opened]. by rewrite app_nil_r.
Qed.
Lemma remoteDo_ok op s : remoteOk s -> remoteOk (remoteDo op s) /\
  (rs_shut s = true -> rs_shut (remoteDo op s) = true /\ rs_opened (remoteDo op s) = rs_opened s).
Proof.
  intros Hs. destruct op; cbn [remoteDo].
  - unfold remote_Describe, mbind, M_bind. destruct (connect_ok s Hs) as [Hc He]. destruct (remote_connect addr s) as [s1 [h|e]]; cbn [fst] in *.
    + split; [exact Hc|]. intros E. by rewrite (He E).
    + split; [done|]. intros E. by rewrite (He E).
  - destruct Hs as [Hc Hx]. unfold remote_Close, connections in *. destruct (rs_conn s) as [[n h]|] eqn:E; cbn [fst]; rewrite ?app_nil_r in Hc.
    + split; [|done]. split; [|done]. unfold connections. cbn. by rewrite app_nil_r.
    + split; [|done]. split; [|done]. unfold connections. cbn. by rewrite app_nil_r.
Qed.
Lemma remoteRun_ok ops : forall s, remoteOk s -> remoteOk (remoteRun ops s) /\
  (rs_shut s = true -> rs_shut (remoteRun ops s) = true /\ rs_opened (remoteRun ops s) = rs_opened s).
Proof.
  induction ops as [|op ops IH]; intros s Hs; cbn [remoteRun foldl]; [done|]. destruct (remoteDo_ok op s Hs) as [H1 H2].
  destruct (IH _ H1) as [H3 H4]. split; [done|]. intros E. destruct (H2 E) as [E1 E2]. destruct (H4 E1) as [E3 E4]. unfold remoteRun in *. by rewrite E4, E2.
Qed.

(** C40: A backend releases what it opened. Over every sequence of its operations, whatever the system answers, a local
    backend has at most one server, every server it ever started is that one or was stopped exactly once with its
    socket removed, what it hands out is the address of the one that runs, and none runs after a Close; a remote
    one has at most one connection, every connection it ever made is that one or was closed exactly once, and
    after a Close it has none, makes none, and describes nothing. *)
Theorem backends_release (Hp : forall n, socketPath n <> EmptyString) :
  (forall ops, localOk (localRun ops newLocalState)) /\
  (forall ops more, exists later, servers (localRun (ops ++ more) newLocalState) = servers (localRun ops newLocalState) ++ later) /\
  (forall ops uid s' inc, local_Create b (Some uid) (localRun ops newLocalState) = (s', Ok inc) ->
    exists n, ls_srv s' = Some n /\ Address inc = "unix://"%string +:+ socketPath n) /\
  (forall ops, ls_srv (localRun (ops ++ [LocalClose]) newLocalState) = None) /\
  (forall ops, connections (remoteRun ops newRemoteState) = seq 0 (rs_opened (remoteRun ops newRemoteState))) /\
  (forall ops more, let closed := remoteRun (ops ++ [RemoteClose]) newRemoteState in let s := remoteRun more closed in
    rs_conn s = None /\ rs_opened s = rs_opened closed /\ snd (remote_Describe addr s) = Err errClosed).
Proof.
  assert (Hl0 : localOk newLocalState) by (split; try done; apply NoDup_nil_2).
  assert (Hr0 : remoteOk newRemoteState) by done.
  split_and!.
  - intros ops. by apply localRun_ok.
  - intros ops more. unfold localRun. rewrite foldl_app. fold (localRun ops newLocalState). apply localRun_ok; [done|]. by apply localRun_ok.
  - intros ops uid s' inc Hc. destruct (localRun_ok ops Hp _ Hl0) as [Hs _]. revert Hs Hc. generalize (localRun ops newLocalState). intros s Hs.
    unfold local_Create. case_bool_decide; [done|]. destruct (start_ok s Hs) as [[_ _ Hr _] _]. unfold mbind, M_bind.
    assert (Hrun : match local_start s with (s1, Ok a) => ls_srv s1 <> None /\ a = ls_addr s1 | _ => True end).
    { unfold local_start. destruct (ls_srv s) eqn:E; [by rewrite E|]. by destruct (listenAt _ _). }
    destruct (local_start s) as [s1 [a|e]]; [|done]. intros [= <- <-]. cbn [fst] in Hr. destruct Hrun as [Hne ->].
    destruct (ls_srv s1) as [n|]; [|done]. exists n. split; [done|]. apply Hr.
  - intros ops. unfold localRun. by rewrite foldl_app.
  - intros ops. by apply (remoteRun_ok ops).
  - intros ops more closed s. destruct (remoteRun_ok ops _ Hr0) as [Hs _].
    assert (Hcl : remoteOk closed /\ rs_shut closed = true).
    { unfold closed, remoteRun. rewrite foldl_app. fold (remoteRun ops newRemoteState). cbn [foldl]. split; [by apply remoteDo_ok|].
      cbn. unfold remote_Close. by destruct (rs_conn _) as [[]|]. }
    destruct Hcl as [Hok Hshut]. destruct (remoteRun_ok more closed Hok) as [[_ Hn] Hk]. destruct (Hk Hshut) as [E1 E2].
    split_and!; [by apply Hn|done|]. unfold remote_Describe, mbind, M_bind, remote_connect. fold s in E1. by rewrite E1.
Qed.
End Release.

(** ** An example *)

#[local] Instance deskHost : LocalHost := {| listenAt := fun _ _ => None; socketPath := fun n => "/tmp/agentlocal-"%string +:+ FormatInt (Z.of_nat n) |}.
Definition statefulDescriptor : Descriptor :=
  mkDescriptor "counter" "1" ["m"%string] [] (mkCapabilities ResumabilityRequiresMemorySnapshot true false false false).
Definition statefulHarness : Harness := mkHarness (fun _ => Ok statefulDescriptor) (fun _ => PReturn None).
#[local] Instance deskDialer : RemoteHost := {| newClient := fun _ _ => Ok statefulHarness; closeClient := fun _ => None |}.
Definition statefulLocal : LocalBackend := mkLocalBackend statefulHarness "desk/1".
Definition statefulPlacer : Placer :=
  mkPlacer (localPlacement statefulLocal (fun _ => newLocalState)) (p_model examplePlacer) None None (p_dial examplePlacer) "".

Lemma memoryless_backends_witness :
  shut (placerState freshWorld) (placer_Exec (H := exampleHost) (H1 := examplePlacementHost) (H2 := @Log_Store exampleEncoding)
    statefulPlacer exampleExecConfig "uid" [TextMessage "user" "hi"] 0 (placerState freshWorld)) /\
  b_Restore (p_backend statefulPlacer) 0 (mkSnapshotRef "uid" "" false false) = Ok (mkIncarnation "uid" "desk/1" "unix:///tmp/agentlocal-1" "local" 0 []).
Proof.
  destruct (memoryless_backends (H := exampleHost) (H0 := exampleEncoding) (H1 := examplePlacementHost) (H4 := @Log_Store exampleEncoding)
    (H5 := Log_StoreView) (H6 := @Log_StoreLaws exampleEncoding) (Store0 := @Log_Store exampleEncoding) statefulPlacer statefulLocal (fun _ => newLocalState) "" (fun _ => newRemoteState))
    as [Hshut _]; [by left|]. split; [|vm_compute; reflexivity].
  apply Hshut. intros t d [= <-]. reflexivity.
Defined.
Lemma backends_release_witness : localOk (localRun statefulLocal [LocalCreate (Some "a"%string); LocalClose; LocalCreate (Some "b"%string)] newLocalState) /\
  servers (localRun statefulLocal [LocalCreate (Some "a"%string); LocalClose; LocalCreate (Some "b"%string)] newLocalState) = [1%nat; 2%nat].
Proof. split; [|vm_compute; reflexivity]. apply (backends_release statefulLocal "harness:80"). intros n. discriminate. Defined.
